(* ===== verification/_CoqProject ===== *)
-Q . S2P
Prelude.v
Myers.v
GoStrings.v
GoFiles.v
GoPaths.v
GoSort.v
GoFloat.v
GoLru.v
GoTree.v
Changes.v
SectorTypes.v
SectorEvents.v
SectorStats.v
SectorFsm.v
SectorInvariant.v
SectorPlan.v
Versions.v
VersionSpec.v
VersionRetrieve.v
VersionDeals.v
Catalog.v
CatalogTree.v
CatalogOps.v
CatalogStore.v
ProofLog.v
ApiInfo.v
ApiDeal.v
ApiBrowse.v
ApiPreviewCache.v
ApiClient.v
Fr32.v
Fr32Spec.v
Fr32Stream.v
Fr32Threads.v
Fr32StreamSpec.v
TipSets.v
GasFees.v
GasFeesSpec.v
FileTypes.v
IndexLocks.v
IndexLocksSpec.v
IndexLocksLive.v
TsCache.v
TsCacheSpec.v
SealTasks.v
SealResources.v
SchedQueue.v
SchedAssign.v
SchedWorker.v
SchedLoop.v
MsgSet.v
MsgChains.v
MsgChainsSpec.v
MsgSelect.v
MsgSelectGroups.v
MsgSelectGreedy.v
MsgSelectSpec.v
MsgSelectOptimal.v
MsgSelectOptimalSpec.v
MsgSelectExamples.v
ChainStore.v
ChainStoreSpec.v
ChainHeadSpec.v
SyncManager.v
MsgPool.v
MsgHead.v
MsgPoolSpec.v
MsgPoolAdmit.v
MsgHeadSpec.v
MsgPruneSpec.v
MsgRepubSpec.v
MsgCheck.v
MsgPoolExamples.v
DagRider.v
Paych.v
PaychFunds.v
SectorNumbers.v
DealInput.v
DealInputSpec.v
SectorIndex.v
