(* ===== verification/Prelude.v ===== *)
(** * OpenDSN: a verification development

    OpenDSN is a distributed storage network on top of Lotus, the Filecoin node.  To the node it
    adds versions of files: a client stores a file and later only the difference to it, and lists
    and retrieves each version; an HTTP server with a web page runs the client commands and keeps
    a catalog of the versions; the miner logs when it proves its storage.  This library models
    these parts and those parts of the node under them that have logic of their own: the sealing
    of sectors and how deals get into them, the scheduling of sealing tasks, the index, the locks
    and the encoding of sector files, tipsets and the head of the chain, the choice of chains to
    synchronise, the pool of pending messages with gas fees and block selection, and payment channels.

    ** How the code is modelled

    Functions are translated one by one, with their names, and composed as the code composes them.
    A function that can fail returns [outcome]: a value, an error with its text, or a panic.  A
    function with effects is in the monad [io W] over a world [W] that has the state it changes;
    what was done before an error stays done.  The message pool and the payment channels have
    monads of their own ([MsgPool.pool], [Paych.op]), in which errors are values that the code can
    look at.  Integers of a fixed width are [Z] (or [N]) with the
    wrap-around written out where it can happen; floats are the binary64 numbers of the Standard
    Library's [SpecFloat]; strings are byte strings.  Objects that are shared by pointers are
    places of a heap where a claim depends on it ([MsgSelect], [DagRider], [DealInput]).  Concurrent
    code is a step relation whose steps are what a goroutine does while it holds a mutex, or between
    two points where it waits.

    Code that is not in the repository is a parameter, with what is used of its documentation as
    hypotheses or as the laws of a class: encoding/json and encoding/cbor, go-cid ([CidReader],
    cid.Parse), the piece sizes of go-state-types ([PieceSizes]), go-bitfield ([BitFieldLib],
    [BitFieldLaws]), the codec of messages ([MessageCodec]), the division of math/big ([BigDiv]),
    floats of package math ([MathLib]), package sort and random numbers for the selection ([Library]),
    golang-lru ([LruCache]), SHA-256, net/url for the index ([UrlLib]), the signature schemes
    ([SigShims]), the lotus binary and the document converter that the server runs, net/http of the
    client, the table of MIME types, strconv.ParseFloat and strconv.Quote, the environment, the
    number of processors, and what a component calls in the rest of the node: the deal and retrieval
    APIs, the chain and the datastores ([Provider] with [KeyedProvider], [LocalDatastore],
    [ChainLaws], [InputAPI]), the wallet and the actor of payment channels ([PaychAPI],
    [WalletLaws]).  sort.Sort and sort.Slice may leave elements that
    compare equal in any order: where that can matter the sort is any function that returns a
    sorted permutation, elsewhere it is an insertion sort; a map is read in any order ([MapRange]).
    strings.ToLower is modelled on ASCII.  The file
    systems have no symbolic links and no other processes, and any system call may fail.

    ** The files

    Shared: this file ([outcome], [io], record updates, list and arithmetic lemmas, the tactics
    and the hint databases), [GoStrings] (strings, strconv, text/scanner-like line readers),
    [GoFiles] (a flat directory of files with faults), [GoTree] (a tree of directories with
    faults, os and ioutil), [GoPaths] (path/filepath and net/url queries), [GoSort]
    (package sort), [GoFloat] (floats from rational numbers), [GoLru] (the interface of caches).

    Differences, lib/dyaic: [Myers] (myers.go and the same search in dyaic.go: the greedy search for a
    shortest edit script), [Changes] (dyaic.go, recover.go: change lists, their files, and
    replaying them on a file).

    Versions, cli/client.go, client_retr.go and helper.go: [Versions] (the metadata files, deal
    with its flags, list-root, list-version, retrieve-version), [VersionSpec] (the abstract
    history and the listing), [VersionRetrieve] (rebuilding a version), [VersionDeals] (a deal
    extends the history).

    HTTP server, cmd/opendsn-api: [Catalog] (catalog.go: labels, normalisation, lookup,
    insertion), [CatalogTree] (the place of a version in the tree of updates and its label),
    [CatalogOps] (nothing is lost by an insertion), [CatalogStore] (loading, saving, recording),
    [ApiInfo], [ApiDeal], [ApiClient] (handlers.go, server.go), [ApiBrowse] and
    [ApiPreviewCache] (browse_preview.go).

    Proof log, storage/prooflog/proof_log.go: [ProofLog].

    Sealing state machine, storage/pipeline: [SectorTypes] (sector_state.go, types.go),
    [SectorEvents] (fsm_events.go), [SectorFsm] (fsm.go: planners and the plan), [SectorStats]
    (stats.go), [SectorInvariant], [SectorPlan] (what holds of reachable sectors and of each
    planning step).  Around it: [SectorNumbers] (numassign.go: numbers for sectors and their
    reservations), [DealInput] (input.go, upgrade_queue.go and the handlers of states_sealing.go
    that fill a sector) with [DealInputSpec] (what is assigned fits and is written).

    Sealing scheduler, storage/sealer: [SealTasks] (sealtasks/task.go, storiface/resources.go
    and worker.go), [SealResources] (sched_resources.go), [SchedQueue] (request_queue.go),
    [SchedAssign] (sched_assigner_common.go, _utilization.go, _spread.go), [SchedWorker]
    (sched_worker.go), [SchedLoop] (runSched of sched.go).

    Sector files: [Fr32], [Fr32Stream], [Fr32Threads] with [Fr32Spec], [Fr32StreamSpec]
    (storage/sealer/fr32), [FileTypes] (storiface/filetype.go), [SectorIndex] (storage/paths/index.go
    with journal/alerting/alerts.go), [IndexLocks], [IndexLocksSpec], [IndexLocksLive]
    (storage/paths/index_locks.go).

    Chain: [TipSets] (chain/types/tipset.go, tipset_key.go, blockheader.go),
    [TsCache], [TsCacheSpec] (chain/events/tscache.go), [GasFees], [GasFeesSpec]
    (chain/vm/burn.go, chain/store/basefee.go, chain/types/message.go), [ChainStore],
    [ChainStoreSpec], [ChainHeadSpec] (chain/store/store.go, index.go: walks, reorganisations, head,
    checkpoint, lookup by height), [SyncManager] (chain/sync_manager.go, syncstate.go).

    Message pool, chain/messagepool: [MsgSet] (the messages of a sender), [MsgChains] and
    [MsgChainsSpec] (chains of messages), [MsgSelect], [MsgSelectGroups], [MsgSelectGreedy],
    [MsgSelectSpec], [MsgSelectOptimal], [MsgSelectOptimalSpec], [MsgSelectExamples] (selection.go,
    block_proba.go), [MsgPool] (adding, removing, loading), [MsgHead] (changes of the head,
    pruning.go, repub.go), [MsgPoolSpec] (the pool as a map), [MsgPoolAdmit], [MsgHeadSpec],
    [MsgPruneSpec], [MsgRepubSpec] (what each operation does), [MsgCheck] (check.go),
    [MsgPoolExamples].

    Payment channels, paychmgr: [Paych] (store.go, state.go, paych.go: the store, lanes and
    vouchers), [PaychFunds] (simple.go: the queue of requests for funds and the messages for them).

    DAG-Rider, lib/DAG-Rider: [DagRider] (the graph, delivery, rounds and waves).

    The parts meet as in the program: [Versions] patches with the scripts of [Changes]; the
    handlers of [ApiDeal] and [ApiClient] run the commands of [Versions] through the lotus binary and record in
    the catalog; [ApiInfo] reads the log that [ProofLog] writes; [SectorFsm] updates
    [SectorStats]; [DealInput] takes numbers from [SectorNumbers] and sends the events of
    [SectorEvents]; [SchedLoop] assigns with the selectors of [SchedAssign] (class
    [WindowSelector], whose [SelectorLaws] the proofs about the loop use) and sends to the workers
    of [SchedWorker], which account with [SealResources]; [IndexLocks] and [SectorIndex] work on sets of
    [FileTypes]; [TsCache], [ChainStore] and [SyncManager] store [TipSets]; [MsgPool] keeps the sets
    of [MsgSet], which [MsgSelect] cuts into the chains of [MsgChains], and [MsgHead] follows the
    segments of [ChainStore]; [PaychFunds] works on the store of [Paych].

    ** What is shown

    - Edit scripts are correct and as short as possible; replaying the change list of two files
      turns one into the other.
    - The metadata of the client refines an abstract version history: a deal on a new CID that
      updates a known version extends it, the listing shows it, retrieval rebuilds each version, and
      every walk ends on arbitrary metadata.
    - The catalog keeps every entry, a version that updates link to the root is labelled by its place in
      the tree of updates (a specification without the functions of the code), and the catalog survives any
      failing system call; the handlers refuse or run one command and record what it did;
      previews lead to the converted document and touch only the cache.
    - The proof log keeps both records; the server's reader and the miner's own agree.
    - Reachable sectors have the data that their state needs, an aborted upgrade restores the
      sector, and the statistics count the sectors (for events that the handlers send; a state that an
      operator forces is not spoken of).
    - Sector numbers are never given out twice, and reservations that nobody forced stay apart;
      deals that are assigned to a sector fit into it and are written at multiples of their sizes, and
      packing fills the rest.
    - A worker is not overloaded and its accounts of memory, processors and tasks are exact, and a
      waiting task gets its turn; a round of the scheduler without ties loses no request.
    - Padding is the change of base that it should be, and it round-trips through readers,
      writers and goroutines; locks exclude each other and no wake-up is lost; the index of sector files
      refines a map from files to the paths that have them, and finds exactly the paths it should.
    - Tipset keys round-trip, tipsets do not depend on the order of their blocks, the cache is
      a window of the chain, base fees stay in their bounds and no gas funds are lost.
    - A reorganisation is the two segments above the common ancestor, the lookup by height agrees
      with walking the chain, and the head never leaves the checkpoint; the sync manager runs at most five
      workers and does not panic.
    - The pool accepts messages that are well formed, signed and paid for, follows the head, prunes to its
      bound without touching protected senders, sends local messages again and selects blocks
      that are valid.
    - A voucher is refused, answered with the missing amount, or stored with all claims covered;
      requests for funds get exactly one answer, if none is for nothing and none is cancelled.
    - The graph of DAG-Rider stays closed as long as no vertex is delivered twice, and a node gets at
      most one round further.
    - Theorems with the other outcome show where the code does not do what it means to; each is
      a counterexample at a concrete input.

    ** Fuel

    Loops that are not structural take fuel, and a theorem shows that the fuel given is enough,
    so that no result stands for a loop that did not end: the edit-script search has one round
    per edit and at most the sum of the lengths; a walk over version metadata, as many steps as
    there are files and two more ([walk_safe]); the walk over the tree of a catalog file, the
    number of versions and one more ([pending_depth]); the loops of the pad writer and of the
    key decoder, the length of the input ([writeLoop_spec], [decodeLoop_safe]); the search in the
    tipset cache, its capacity and one more; its filling with empty epochs, the difference of
    heights; draining a window, its number of tasks ([drain_spec]).  Walking back along the chain
    takes the height and one more, for two chains the sum of both; passing over pending nonces, the number
    of pending messages and one more; merging chains, their number and one more; loops over the heap
    of chains, its length; selection from the tails, packing, and sending again, the number of messages or of
    chains and messages, and one more; the choice of deferred targets, the number of deferred buckets;
    the encoding of a 64-bit number, ten bytes.

    ** Modelling choices

    A mutex makes what it protects one step.  In [SchedWorker] the check and the addition of a
    task to the resources in preparation are one step, because only the worker's own goroutine
    adds to them.  Counters of tasks and of readers are [Z]: they count objects in memory and do not
    reach the bounds of int.  The server's directory is an absolute, clean path.  A panic of a
    goroutine ends the program, so that no state follows it.

    ** Not modelled

    The calls of the proof library, of the actors and of the virtual machine, which are outside
    the repository, and with them the sealing handlers that only call them, the state manager and
    the consensus; the deal and retrieval protocols (go-fil-markets); generated code (CBOR, API
    proxies, mocks); dependency wiring, RPC, metrics, logging and command-line front ends; of
    the scheduler, the sessions of remote workers, shutdown and the diagnostics; of the chain store, block
    stores and subscriptions; of the message pool, the channels of its updates and its journal; of
    payment channels, the listeners and the settler; of DAG-Rider, the code behind the panics of its
    queues.  Left for later: the decisions of storage/pipeline/states_failed.go and the batches of
    pre-commit and commit messages. *)

From coqutil Require Import Datatypes.RecordSetters.
From stdpp Require Import strings numbers base gmap fin_maps list.

(** ** Outcomes of Go code *)

Declare Scope opendsn_scope.
Delimit Scope opendsn_scope with dsn.

(** What a call returns: a value, a non-nil [error] value, or a panic
    (a run-time panic such as an index out of range, or [log.Panic]). *)
Inductive outcome (A : Type) : Type :=
| Ret (a : A)
| Fail (err : string)
| Crash.
Arguments Ret {A} a.
Arguments Fail {A} err.
Arguments Crash {A}.

#[global] Instance outcome_ret : MRet outcome := @Ret.
#[global] Instance outcome_bind : MBind outcome := λ A B f m,
  match m with
  | Ret a => f a
  | Fail e => Fail e
  | Crash => Crash
  end.

Definition is_ret {A} (o : outcome A) : Prop := ∃ a, o = Ret a.

Lemma bind_ret_l {A B} (a : A) (f : A → outcome B) : (mbind f (Ret a)) = f a.
Proof. reflexivity. Qed.

Lemma bind_ret_inv {A B} (m : outcome A) (f : A → outcome B) b :
  mbind f m = Ret b → ∃ a, m = Ret a ∧ f a = Ret b.
Proof. destruct m; simpl; intros; [eauto|discriminate..]. Qed.

Lemma bind_assoc {A B C} (m : outcome A) (f : A → outcome B) (g : B → outcome C) :
  mbind g (mbind f m) = mbind (λ a, mbind g (f a)) m.
Proof. by destruct m. Qed.

(** ** Commands with a state *)

(** A command on a world [W] that may end early with an error or a panic; what
    it did to the world before stays done. *)
Definition io (W A : Type) : Type := W → W * outcome A.

#[global] Instance io_ret {W} : MRet (io W) := λ A a w, (w, Ret a).
#[global] Instance io_bind {W} : MBind (io W) := λ A B f m w,
  match m w with
  | (w', Ret a) => f a w'
  | (w', Fail e) => (w', Fail e)
  | (w', Crash) => (w', Crash)
  end.

(** Returning an error, lifting a value, and [xerrors.Errorf(".. %w", err)]. *)
Definition fail {W A} (err : string) : io W A := λ w, (w, Fail err).
Definition lift {W A} (o : outcome A) : io W A := λ w, (w, o).
Definition wrapErr {W A} (text : string) (m : io W A) : io W A := λ w,
  match m w with
  | (w', Fail e) => (w', Fail (text +:+ e))
  | r => r
  end.
Definition gets {W A} (f : W → A) : io W A := λ w, (w, Ret (f w)).
Definition modify {W} (f : W → W) : io W unit := λ w, (f w, Ret tt).

Lemma io_bind_ret {W A B} (m : io W A) (f : A → io W B) w w' b :
  mbind f m w = (w', Ret b) → ∃ w1 a, m w = (w1, Ret a) ∧ f a w1 = (w', Ret b).
Proof.
  unfold mbind, io_bind. destruct (m w) as [w1 [a| |]] eqn:E; intros H; [eauto|discriminate..].
Qed.

Lemma io_bind_eq {W A B} (m : io W A) (f : A → io W B) w w1 a :
  m w = (w1, Ret a) → mbind f m w = f a w1.
Proof. intros E. unfold mbind, io_bind. by rewrite E. Qed.

Lemma wrapErr_ret {W A} text (m : io W A) w w1 a :
  m w = (w1, Ret a) → wrapErr text m w = (w1, Ret a).
Proof. intros E. unfold wrapErr. by rewrite E. Qed.

(** Indexing a slice with an [int]: out of range panics. *)
Definition index {A} (l : list A) (i : Z) : outcome A :=
  if bool_decide (0 ≤ i)%Z then
    match l !! Z.to_nat i with
    | Some a => Ret a
    | None => Crash
    end
  else Crash.

Lemma index_ret {A} (l : list A) (i : Z) (a : A) :
  (0 ≤ i)%Z → l !! Z.to_nat i = Some a → index l i = Ret a.
Proof. intros Hi Ha. unfold index. by rewrite bool_decide_true, Ha. Qed.

Lemma index_lt {A} (l : list A) (i : Z) :
  (0 ≤ i < Z.of_nat (length l))%Z →
  ∃ a, l !! Z.to_nat i = Some a ∧ index l i = Ret a.
Proof.
  intros Hi. destruct (lookup_lt_is_Some_2 l (Z.to_nat i)) as [a Ha]; [lia|].
  exists a. split; [done|]. apply index_ret; [lia|done].
Qed.

Lemma index_inv {A} (l : list A) (i : Z) (a : A) :
  index l i = Ret a → (0 ≤ i < Z.of_nat (length l))%Z ∧ l !! Z.to_nat i = Some a.
Proof.
  unfold index. case_bool_decide as Hi; [|done].
  destruct (l !! Z.to_nat i) as [b|] eqn:E; [|done]. intros [= ->].
  split; [|done]. apply lookup_lt_Some in E. lia.
Qed.

(** Reading a [map[int]int]: an absent key reads as the zero value. *)
Definition zget (m : gmap Z Z) (k : Z) : Z := default 0%Z (m !! k).

(** The order in which the entries of a map are read. *)
Class MapRange := {
  rangeOf {K A} `{Countable K} : gmap K A → list (K * A);
  rangeOf_perm {K A} `{Countable K} (m : gmap K A) : rangeOf m ≡ₚ map_to_list m
}.

Definition inOrderOfKeys : MapRange.
Proof. refine {| rangeOf K A _ _ m := map_to_list m |}. done. Defined.

Lemma rangeOf_elem `{MapRange} {K A} `{Countable K} (m : gmap K A) k x : (k, x) ∈ rangeOf m ↔ m !! k = Some x.
Proof. by rewrite rangeOf_perm, elem_of_map_to_list. Qed.

(** ** Automation shared by the components *)

Create HintDb dsn.
Create Rewrite HintDb dsn.
#[export] Hint Resolve bind_ret_inv : dsn.
#[export] Hint Rewrite @bind_ret_l @bind_assoc : dsn.

(** Reduces record updates. *)
Ltac rsimpl := cbv [constant] in *; simpl in *.

(** Runs the first part of a command, whose result is to be shown next. *)
Ltac io_run := etrans; [eapply io_bind_eq|].
Ltac io_run_wrapped := etrans; [eapply io_bind_eq, wrapErr_ret|].

(** Evaluates the binds of commands whose parts are known. *)
Ltac io_step := unfold mbind, io_bind; simpl.

(** Inverts a successful bind in the context, as often as possible. *)
Ltac inv_bind :=
  repeat match goal with
  | H : mbind _ _ = Ret _ |- _ =>
      let a := fresh "a" in let E := fresh "E" in
      apply bind_ret_inv in H as (a & E & H)
  end.

(** Resolves the tests of the goal that are decided by [done]. *)
Ltac decide_done :=
  repeat first [ rewrite decide_True by done | rewrite decide_False by done ].

(** ** Numbers *)

(** A decidable property of numbers that holds somewhere has a least witness. *)
Lemma least_nat (P : nat → Prop) `{!∀ i, Decision (P i)} :
  (∃ i, P i) → ∃ i, P i ∧ ∀ j, (j < i)%nat → ¬ P j.
Proof.
  intros [i Hi]. induction i as [i IH] using lt_wf_ind.
  destruct (decide (Exists P (seq 0 i))) as [He|Hn].
  - apply Exists_exists in He as (j&Hj%elem_of_seq&Pj). apply (IH j); [lia|done].
  - exists i. split; [done|]. intros j Hj Pj. apply Hn, Exists_exists.
    exists j. split; [apply elem_of_seq; lia|done].
Qed.

(** ** Lists *)

Section lists.
Context {A : Type}.
Implicit Types l : list A.

(** A prefix that ends in [a] is a shorter prefix followed by [a]. *)
Lemma take_snoc_inv l (i : nat) l1 a :
  (i ≤ length l)%nat → take i l = l1 ++ [a] →
  ∃ j, i = S j ∧ l !! j = Some a ∧ l1 = take j l.
Proof.
  intros Hi E. pose proof (f_equal length E) as L.
  rewrite length_take, length_app in L. simpl in L.
  exists (length l1). assert (i = S (length l1)) as -> by lia.
  destruct (lookup_lt_is_Some_2 l (length l1)) as [b Hb]; [lia|].
  rewrite (take_S_r _ _ _ Hb) in E. apply app_inj_2 in E as [E1 E2]; [|done].
  by simplify_eq.
Qed.

Lemma rev_replicate (i : nat) (a : A) : rev (replicate i a) = replicate i a.
Proof.
  induction i as [|i IH]; [done|]. simpl. by rewrite IH, <- replicate_cons_app.
Qed.

Lemma take_add_drop l (i j : nat) : take (i + j) l = take i l ++ take j (drop i l).
Proof. by rewrite take_take_drop. Qed.
End lists.
(** Elements with different images are told apart by them. *)
Lemma NoDup_map_inj {A B} (f : A → B) l x y :
  NoDup (map f l) → x ∈ l → y ∈ l → f x = f y → x = y.
Proof.
  induction l as [|z l IH]; [by intros _ ?%not_elem_of_nil|]. simpl. rewrite NoDup_cons.
  intros [Hz Hl] [->|Hx]%elem_of_cons [->|Hy]%elem_of_cons E; [done|..|by apply IH].
  - destruct Hz. rewrite E. by apply list_elem_of_fmap_2.
  - destruct Hz. rewrite <- E. by apply list_elem_of_fmap_2.
Qed.
