(* ===== verification/Myers.v ===== *)
(** * The edit-script search of lib/dyaic

    [shortestEditScript] (lib/dyaic/myers.go, on the lines of two files) and
    [shortestEditDist] (lib/dyaic/dyaic.go, on their bytes) are the same
    greedy search of Myers' O(ND) algorithm: a forward pass that records, for
    every number of edits [d] and diagonal [k], the furthest [x] reached, and
    a backward pass that reads a script out of the recorded rows.  Both are
    instances of [editScript] below, which is generic in the element type.

    The theorems: the search terminates without a panic, the script it
    returns turns the source into the destination, and no valid script has
    fewer insertions and deletions. *)

From stdpp Require Import strings numbers base gmap fin_maps list.
From S2P Require Import Prelude.
Local Open Scope Z_scope.

(* [lia] also decides the parity conditions of the diagonals. *)
#[local] Ltac Zify.zify_post_hook ::= Z.div_mod_to_equations.

(** ** Operations *)

(** [type operation uint] with its constants; 0 is the zero value. *)
Definition operation := N.
Definition INSERT : operation := 1%N.
Definition DELETE : operation := 2%N.
Definition MOVE : operation := 3%N.

Definition operation_String (op : operation) : string :=
  if decide (op = INSERT) then "INS"
  else if decide (op = DELETE) then "DEL"
  else if decide (op = MOVE) then "MOV"
  else "UNKNOWN".

(** [reverse]: a fresh slice filled from the back. *)
Definition reverse (s : list operation) : list operation :=
  foldl (λ result iv, <[(length s - 1 - iv.1)%nat := iv.2]> result)
    (replicate (length s) 0%N) (imap pair s).

(** ** The search *)

Section editScript.
Context {A : Type} `{!EqDecision A}.
Variables src dst : list A.

Local Abbreviation n := (Z.of_nat (length src)).
Local Abbreviation m := (Z.of_nat (length dst)).

(** [for x < n && y < m && src[x] == dst[y] { x, y = x+1, y+1 }] *)
Fixpoint snake (fuel : nat) (x y : Z) : outcome (Z * Z) :=
  if bool_decide (x < n) && bool_decide (y < m) then
    a ← index src x;
    b ← index dst y;
    if decide (a = b) then
      match fuel with
      | O => Crash
      | S f => snake f (x + 1) (y + 1)
      end
    else Ret (x, y)
  else Ret (x, y).

(** [k == -d || (k != d && lastV[k-1] < lastV[k+1])] *)
Definition goesDown (lastV : gmap Z Z) (d k : Z) : bool :=
  bool_decide (k = - d) ||
  (negb (bool_decide (k = d)) && bool_decide (zget lastV (k - 1) < zget lastV (k + 1))).

Definition startX (lastV : gmap Z Z) (d k : Z) : Z :=
  if goesDown lastV d k then zget lastV (k + 1) else zget lastV (k - 1) + 1.

(** [for k := -d; k <= d; k += 2 { ... }]; the boolean says whether the
    loop left through [break loop]. *)
Fixpoint row (fuel : nat) (d k : Z) (lastV v : gmap Z Z) : outcome (bool * gmap Z Z) :=
  if bool_decide (k ≤ d) then
    match fuel with
    | O => Crash
    | S f =>
        let x0 := startX lastV d k in
        xy ← snake (Z.to_nat (n - x0)) x0 (x0 - k);
        let v' := <[k := xy.1]> v in
        if bool_decide (xy.1 = n) && bool_decide (xy.2 = m) then Ret (true, v')
        else row f d (k + 2) lastV v'
    end
  else Ret (false, v).

(** [for d := 0; d <= max; d++ { ... }].  The row [v] is appended to the
    trace when it is complete; no iteration reads the row it writes. *)
Fixpoint search (fuel : nat) (d : Z) (trace : list (gmap Z Z)) :
    outcome (list (gmap Z Z)) :=
  if bool_decide (d ≤ n + m) then
    match fuel with
    | O => Crash
    | S f =>
        if bool_decide (d = 0) then
          t ← snake (length src) 0 0;
          let trace' := trace ++ [{[0 := t.1]}] in
          if bool_decide (t.1 = n) && bool_decide (t.1 = m) then Ret trace'
          else search f (d + 1) trace'
        else
          lastV ← index trace (d - 1);
          fv ← row (S (Z.to_nat d)) d (- d) lastV ∅;
          let trace' := trace ++ [fv.2] in
          if (fv.1 : bool) then Ret trace' else search f (d + 1) trace'
    end
  else Ret trace.

(** [for x > prevX && y > prevY { script = append(script, MOVE); ... }] *)
Fixpoint moves (fuel : nat) (x y prevX prevY : Z) (script : list operation) :
    outcome (list operation * Z) :=
  if bool_decide (prevX < x) && bool_decide (prevY < y) then
    match fuel with
    | O => Crash
    | S f => moves f (x - 1) (y - 1) prevX prevY (script ++ [MOVE])
    end
  else Ret (script, x).

(** [for d := len(trace) - 1; d > 0; d-- { ... }] *)
Fixpoint backtrack (d : nat) (x y : Z) (trace : list (gmap Z Z))
    (script : list operation) : outcome (list operation) :=
  match d with
  | O => Ret script
  | S d' =>
      let k := x - y in
      lastV ← index trace (Z.of_nat d');
      let prevK := if goesDown lastV (Z.of_nat d) k then k + 1 else k - 1 in
      let prevX := zget lastV prevK in
      let prevY := prevX - prevK in
      sx ← moves (Z.to_nat (x - prevX)) x y prevX prevY script;
      let script' := sx.1 ++ [if decide (sx.2 = prevX) then INSERT else DELETE] in
      backtrack d' prevX prevY trace script'
  end.

Definition editScript : outcome (list operation) :=
  trace ← search (S (length src + length dst)) 0 [];
  script ← backtrack (length trace - 1) n m trace [];
  first ← index trace 0;
  let t := zget first 0 in
  let script' := if decide (t = 0) then script
                 else script ++ replicate (Z.to_nat t) MOVE in
  Ret (reverse script').
End editScript.

(** lib/dyaic/myers.go and lib/dyaic/dyaic.go *)
Definition shortestEditScript (src dst : list string) : outcome (list operation) :=
  editScript src dst.
Definition shortestEditDist (src dst : list Ascii.ascii) : outcome (list operation) :=
  editScript src dst.

Example ses_example :
  shortestEditScript ["a"; "b"; "c"; "a"] ["b"; "a"; "a"] =
  Ret [DELETE; MOVE; DELETE; MOVE; INSERT].
Proof. vm_compute. reflexivity. Qed.

(** ** Edit scripts as a relation *)

(** [edits s t l]: the script [l] is a correct way to turn [s] into [t]. *)
Inductive edits {A : Type} : list A → list A → list operation → Prop :=
| edits_nil : edits [] [] []
| edits_move a s t l : edits s t l → edits (a :: s) (a :: t) (MOVE :: l)
| edits_insert b s t l : edits s t l → edits s (b :: t) (INSERT :: l)
| edits_delete a s t l : edits s t l → edits (a :: s) t (DELETE :: l).

(** The number of insertions and deletions of a script. *)
Fixpoint cost (l : list operation) : nat :=
  match l with
  | [] => 0
  | op :: l' => (if decide (op = MOVE) then 0 else 1) + cost l'
  end.

#[export] Hint Constructors edits : dsn.

Lemma cost_app l1 l2 : cost (l1 ++ l2) = (cost l1 + cost l2)%nat.
Proof. induction l1; simpl; lia. Qed.

Lemma cost_moves j : cost (replicate j MOVE) = 0%nat.
Proof. by induction j. Qed.

Lemma cost_rev l : cost (rev l) = cost l.
Proof. induction l as [|op l IH]; [done|]. simpl. rewrite cost_app, IH. simpl. lia. Qed.

Section edits.
Context {A : Type}.
Implicit Types s t : list A.

Lemma edits_app s1 t1 l1 s2 t2 l2 :
  edits s1 t1 l1 → edits s2 t2 l2 → edits (s1 ++ s2) (t1 ++ t2) (l1 ++ l2).
Proof. induction 1; simpl; auto with dsn. Qed.

Lemma edits_app_inv s t l1 l2 :
  edits s t (l1 ++ l2) →
  ∃ s1 s2 t1 t2, s = s1 ++ s2 ∧ t = t1 ++ t2 ∧ edits s1 t1 l1 ∧ edits s2 t2 l2.
Proof.
  revert s t. induction l1 as [|op l1 IH]; intros s t; simpl.
  { intros H. exists [], s, [], t. eauto with dsn. }
  inversion 1 as [|a s' t' l' He|a s' t' l' He|a s' t' l' He]; subst;
    destruct (IH _ _ He) as (s1&s2&t1&t2&->&->&?&?).
  - exists (a :: s1), s2, (a :: t1), t2. eauto with dsn.
  - exists s1, s2, (a :: t1), t2. eauto with dsn.
  - exists (a :: s1), s2, t1, t2. eauto with dsn.
Qed.

Lemma edits_refl s : edits s s (replicate (length s) MOVE).
Proof. induction s; simpl; auto with dsn. Qed.

(** Deleting everything and inserting everything is always correct. *)
Lemma edits_trivial s t :
  edits s t (replicate (length s) DELETE ++ replicate (length t) INSERT).
Proof.
  induction s as [|a s IH]; simpl; [|auto with dsn].
  induction t; simpl; auto with dsn.
Qed.

Lemma cost_trivial s t :
  cost (replicate (length s) DELETE ++ replicate (length t) INSERT)
  = (length s + length t)%nat.
Proof.
  rewrite cost_app. f_equal; [induction s|induction t]; simpl; auto.
Qed.
End edits.

Lemma reverse_rev s : reverse s = rev s.
Proof.
  unfold reverse. set (k := length s).
  assert (∀ l pre, (length pre + length l)%nat = k →
    foldl (λ result iv, <[(k - 1 - iv.1)%nat := iv.2]> result)
      (replicate (length l) 0%N ++ rev pre)
      (imap (λ i x, (length pre + i, x)%nat) l)
    = rev (pre ++ l)) as Hgen.
  { induction l as [|op l IH]; intros pre Hlen; simpl in *.
    { by rewrite app_nil_r. }
    rewrite Nat.add_0_r.
    replace (<[(k - 1 - length pre)%nat:=op]> (0%N :: replicate (length l) 0%N ++ rev pre))
      with (replicate (length l) 0%N ++ rev (pre ++ [op])).
    - replace (pre ++ op :: l) with ((pre ++ [op]) ++ l) by by rewrite <- app_assoc.
      rewrite <- (IH (pre ++ [op])) by (rewrite length_app; simpl; lia).
      f_equal. apply imap_ext. intros i x _. simpl. rewrite length_app. simpl.
      f_equal. lia.
    - rewrite rev_app_distr. simpl.
      replace (k - 1 - length pre)%nat with (length l + 0)%nat by lia.
      change (0%N :: replicate (length l) 0%N ++ rev pre)
        with (replicate (S (length l)) 0%N ++ rev pre).
      rewrite replicate_S_end, <- app_assoc. simpl.
      rewrite <- (length_replicate (length l) 0%N) at 2.
      by rewrite insert_app_r. }
  specialize (Hgen s [] eq_refl). simpl in Hgen.
  rewrite app_nil_r in Hgen. exact Hgen.
Qed.

(** ** The furthest-reaching points *)

Section furthest.
Context {A : Type} `{!EqDecision A}.

(** The length of the common prefix of two lists. *)
Fixpoint slide (s t : list A) : nat :=
  match s, t with
  | a :: s', b :: t' => if decide (a = b) then S (slide s' t') else 0
  | _, _ => 0
  end.

Lemma slide_le s t : (slide s t ≤ length s ∧ slide s t ≤ length t)%nat.
Proof.
  revert t. induction s as [|a s IH]; intros [|b t]; simpl; try lia.
  case_decide; [specialize (IH t)|]; lia.
Qed.

Lemma slide_take s t : take (slide s t) s = take (slide s t) t.
Proof.
  revert t. induction s as [|a s IH]; intros [|b t]; simpl; try done.
  case_decide; [|done]. subst. simpl. by rewrite IH.
Qed.

Lemma slide_max s t a b :
  s !! slide s t = Some a → t !! slide s t = Some b → a ≠ b.
Proof.
  revert t. induction s as [|c s IH]; intros [|e t]; simpl; try done.
  case_decide; simpl; [apply IH|]. by intros [= <-] [= <-].
Qed.

Variables src dst : list A.
Local Abbreviation n := (Z.of_nat (length src)).
Local Abbreviation m := (Z.of_nat (length dst)).

(** Where the diagonal run from [(x, x - k)] ends. *)
Definition ext (k x : Z) : Z :=
  x + Z.of_nat (slide (drop (Z.to_nat x) src) (drop (Z.to_nat (x - k)) dst)).

(** The furthest [x] on diagonal [k] with [d] edits, as the search computes
    it. *)
Fixpoint far (d : nat) (k : Z) : Z :=
  match d with
  | O => ext 0 0
  | S d' =>
      if bool_decide (k = - Z.of_nat d) ||
         (negb (bool_decide (k = Z.of_nat d)) && bool_decide (far d' (k - 1) < far d' (k + 1)))
      then ext k (far d' (k + 1)) else ext k (far d' (k - 1) + 1)
  end.

(** The diagonals the row of [d] holds. *)
Definition inrow (d : nat) (k : Z) : Prop :=
  - Z.of_nat d ≤ k ≤ Z.of_nat d ∧ (k + Z.of_nat d) mod 2 = 0.

Lemma far_S_cases d k :
  inrow (S d) k →
  (far (S d) k = ext k (far d (k + 1)) ∧ inrow d (k + 1) ∧
     (inrow d (k - 1) → far d (k - 1) < far d (k + 1))) ∨
  (far (S d) k = ext k (far d (k - 1) + 1) ∧ inrow d (k - 1) ∧
     (inrow d (k + 1) → far d (k + 1) ≤ far d (k - 1))).
Proof.
  unfold inrow. intros [Hk Hp]. cbn [far].
  repeat case_bool_decide; simpl;
    first [ exfalso; lia
          | left; split; [done|]; split; [split|]; lia
          | right; split; [done|]; split; [split|]; lia ].
Qed.

Lemma ext_bounds k x :
  0 ≤ x → 0 ≤ x - k →
  x ≤ ext k x ∧ ext k x ≤ Z.max n x ∧ ext k x - k ≤ Z.max m (x - k).
Proof.
  intros Hx Hy. unfold ext.
  destruct (slide_le (drop (Z.to_nat x) src) (drop (Z.to_nat (x - k)) dst)) as [H1 H2].
  rewrite length_drop in H1, H2. lia.
Qed.

Lemma far_nonneg d k : inrow d k → 0 ≤ far d k ∧ 0 ≤ far d k - k.
Proof.
  revert k. induction d as [|d IH]; intros k Hk.
  - destruct Hk. simpl. unfold ext. lia.
  - destruct (far_S_cases d k Hk) as [(->&Hr&_)|(->&Hr&_)];
      specialize (IH _ Hr) as [? ?].
    + destruct (ext_bounds k (far d (k + 1))); lia.
    + destruct (ext_bounds k (far d (k - 1) + 1)); lia.
Qed.

Lemma far_ge_down d k : inrow (S d) k → inrow d (k + 1) → far d (k + 1) ≤ far (S d) k.
Proof.
  intros Hk Hd. destruct (far_nonneg _ _ Hd).
  destruct (far_S_cases d k Hk) as [(->&_&_)|(->&Hr&Hle)].
  - destruct (ext_bounds k (far d (k + 1))); lia.
  - specialize (Hle Hd). destruct (far_nonneg _ _ Hr).
    destruct (ext_bounds k (far d (k - 1) + 1)); lia.
Qed.

Lemma far_ge_right d k : inrow (S d) k → inrow d (k - 1) → far d (k - 1) + 1 ≤ far (S d) k.
Proof.
  intros Hk Hd. destruct (far_nonneg _ _ Hd).
  destruct (far_S_cases d k Hk) as [(->&Hr&Hlt)|(->&_&_)].
  - specialize (Hlt Hd). destruct (far_nonneg _ _ Hr).
    destruct (ext_bounds k (far d (k + 1))); lia.
  - destruct (ext_bounds k (far d (k - 1) + 1)); lia.
Qed.

(** A diagonal run stops only where it must. *)
Lemma ext_max k x i a :
  0 ≤ x → 0 ≤ x - k → ext k x = Z.of_nat i →
  src !! i = Some a → dst !! Z.to_nat (Z.of_nat i - k) = Some a → False.
Proof.
  unfold ext. intros Hx Hy Hi Ha Hb.
  eapply (slide_max (drop (Z.to_nat x) src) (drop (Z.to_nat (x - k)) dst) a a);
    rewrite ?lookup_drop; [| |done].
  - rewrite <- Ha. f_equal. lia.
  - rewrite <- Hb. f_equal. lia.
Qed.

Lemma far_max d k i a :
  inrow d k → far d k = Z.of_nat i →
  src !! i = Some a → dst !! Z.to_nat (Z.of_nat i - k) = Some a → False.
Proof.
  destruct d as [|d]; intros Hk Hi Ha Hb.
  - assert (k = 0) as -> by (destruct Hk; lia).
    by eapply (ext_max 0 0 i a).
  - destruct (far_S_cases d k Hk) as [(He&Hr&_)|(He&Hr&_)];
      destruct (far_nonneg _ _ Hr); rewrite He in Hi;
      eapply (ext_max k _ i a _ _ Hi Ha Hb).
    Unshelve. all: lia.
Qed.

(** The last operation of a script between two prefixes. *)
Lemma edits_take_snoc l op (x y : nat) :
  (x ≤ length src)%nat → (y ≤ length dst)%nat →
  edits (take x src) (take y dst) (l ++ [op]) →
  (op = MOVE ∧ ∃ x' y' a, x = S x' ∧ y = S y' ∧ src !! x' = Some a ∧
     dst !! y' = Some a ∧ edits (take x' src) (take y' dst) l) ∨
  (op = INSERT ∧ ∃ y', y = S y' ∧ edits (take x src) (take y' dst) l) ∨
  (op = DELETE ∧ ∃ x', x = S x' ∧ edits (take x' src) (take y dst) l).
Proof.
  intros Hx Hy (s1&s2&t1&t2&Hs&Ht&He1&He2)%edits_app_inv.
  inversion He2 as [|a s t l' He'|b s t l' He'|a s t l' He']; subst;
    inversion He'; subst; try rewrite app_nil_r in Hs; try rewrite app_nil_r in Ht; subst.
  - apply take_snoc_inv in Hs as (x'&->&Ha&->); [|done].
    apply take_snoc_inv in Ht as (y'&->&Hb&->); [|done].
    left. split; [done|]. exists x', y', a. done.
  - apply take_snoc_inv in Ht as (y'&->&Hb&->); [|done].
    right; left. split; [done|]. exists y'. done.
  - apply take_snoc_inv in Hs as (x'&->&Ha&->); [|done].
    right; right. split; [done|]. exists x'. done.
Qed.

(** Every prefix script stays behind the furthest point of its cost. *)
Lemma edits_behind l (x y : nat) :
  (x ≤ length src)%nat → (y ≤ length dst)%nat →
  edits (take x src) (take y dst) l →
  inrow (cost l) (Z.of_nat x - Z.of_nat y) ∧
  Z.of_nat x ≤ far (cost l) (Z.of_nat x - Z.of_nat y).
Proof.
  revert x y. induction l as [|op l IH] using rev_ind; intros x y Hx Hy He.
  { inversion He as [Hs Ht| | |]. symmetry in Hs, Ht.
    apply (f_equal length) in Hs, Ht. rewrite length_take in Hs, Ht. simpl in *.
    assert (inrow 0 (Z.of_nat x - Z.of_nat y)) as Hr by (split; lia).
    split; [done|]. pose proof (far_nonneg _ _ Hr). simpl in *. lia. }
  rewrite cost_app.
  apply edits_take_snoc in He as [(->&x'&y'&a&->&->&Ha&Hb&He)|[(->&y'&->&He)|(->&x'&->&He)]];
    [| | |done|done]; apply IH in He as [Hrow Hle]; try lia; simpl.
  - rewrite Nat.add_0_r.
    replace (Z.of_nat (S x') - Z.of_nat (S y')) with (Z.of_nat x' - Z.of_nat y') by lia.
    split; [done|].
    destruct (decide (far (cost l) (Z.of_nat x' - Z.of_nat y') = Z.of_nat x')) as [E|]; [|lia].
    exfalso. eapply (far_max _ _ _ a Hrow E Ha).
    rewrite <- Hb. f_equal. lia.
  - rewrite Nat.add_1_r. set (k := Z.of_nat x - Z.of_nat (S y')).
    replace (Z.of_nat x - Z.of_nat y') with (k + 1) in * by lia.
    assert (inrow (S (cost l)) k) as Hr by (destruct Hrow; split; lia).
    pose proof (far_ge_down _ _ Hr Hrow). split; [done|lia].
  - rewrite Nat.add_1_r. set (k := Z.of_nat (S x') - Z.of_nat y).
    replace (Z.of_nat x' - Z.of_nat y) with (k - 1) in * by lia.
    assert (inrow (S (cost l)) k) as Hr by (destruct Hrow; split; lia).
    pose proof (far_ge_right _ _ Hr Hrow). split; [done|lia].
Qed.
End furthest.

(** ** The forward pass stops exactly at the edit distance *)

Section forward.
Context {A : Type} `{!EqDecision A}.
Variables src dst : list A.
Local Abbreviation n := (Z.of_nat (length src)).
Local Abbreviation m := (Z.of_nat (length dst)).
Local Abbreviation far := (far src dst).
Local Abbreviation ext := (ext src dst).

(** A point below the grid was preceded by one on or below its last line. *)
Lemma far_below d k :
  inrow d k → m < far d k - k →
  ∃ d', d = S d' ∧ inrow d' (k + 1) ∧ m ≤ far d' (k + 1) - (k + 1).
Proof.
  revert k. induction d as [|d IH]; intros k Hk Hm.
  { assert (k = 0) as -> by (destruct Hk; lia). simpl in Hm.
    destruct (ext_bounds src dst 0 0); lia. }
  exists d. split; [done|].
  destruct (far_S_cases src dst d k Hk) as [(He&Hr&_)|(He&Hr&_)];
    destruct (far_nonneg src dst _ _ Hr); rewrite He in Hm.
  - destruct (ext_bounds src dst k (far d (k + 1))); [lia..|]. split; [done|lia].
  - destruct (ext_bounds src dst k (far d (k - 1) + 1)); [lia..|].
    destruct (IH _ Hr) as (d'&->&Hr'&Hm'); [lia|].
    replace (k - 1 + 1) with (k + 1 - 1) in Hr', Hm' by lia.
    assert (inrow (S d') (k + 1)) as Hr2 by (destruct Hr', Hr; split; lia).
    pose proof (far_ge_right src dst _ _ Hr2 Hr'). split; [done|lia].
Qed.

(** A point right of the grid was preceded by one on or right of its last
    column. *)
Lemma far_beyond d k :
  inrow d k → n < far d k →
  ∃ d', d = S d' ∧ inrow d' (k - 1) ∧ n ≤ far d' (k - 1).
Proof.
  revert k. induction d as [|d IH]; intros k Hk Hm.
  { assert (k = 0) as -> by (destruct Hk; lia). simpl in Hm.
    destruct (ext_bounds src dst 0 0); lia. }
  exists d. split; [done|].
  destruct (far_S_cases src dst d k Hk) as [(He&Hr&_)|(He&Hr&_)];
    destruct (far_nonneg src dst _ _ Hr); rewrite He in Hm.
  - destruct (ext_bounds src dst k (far d (k + 1))); [lia..|].
    destruct (IH _ Hr) as (d'&->&Hr'&Hm'); [lia|].
    replace (k + 1 - 1) with (k - 1 + 1) in Hr', Hm' by lia.
    assert (inrow (S d') (k - 1)) as Hr2 by (destruct Hr', Hr; split; lia).
    pose proof (far_ge_down src dst _ _ Hr2 Hr'). split; [done|lia].
  - destruct (ext_bounds src dst k (far d (k - 1) + 1)); [lia..|]. split; [done|lia].
Qed.

(** The search leaves its loops when the end of both lists is reached. *)
Definition hit (d : nat) : Prop := inrow d (n - m) ∧ far d (n - m) = n.
Definition reached (d : nat) : Prop := inrow d (n - m) ∧ n ≤ far d (n - m).

#[local] Instance reached_dec d : Decision (reached d).
Proof. unfold reached, inrow. apply _. Qed.

Lemma reached_by_script l : edits src dst l → reached (cost l).
Proof.
  intros He.
  apply (edits_behind src dst l (length src) (length dst)); [lia..|].
  by rewrite !firstn_all.
Qed.

Lemma first_reached_hits d : reached d → (∀ i, (i < d)%nat → ¬ reached i) → hit d.
Proof.
  intros [Hr Hle] Hmin. split; [done|].
  destruct (decide (far d (n - m) = n)) as [|Hne]; [done|exfalso].
  destruct (far_beyond d (n - m) Hr) as (d1&->&Hr1&Hn1); [lia|].
  destruct (far_below d1 (n - m - 1) Hr1) as (d2&->&Hr2&Hm2); [lia|].
  replace (n - m - 1 + 1) with (n - m) in * by lia.
  apply (Hmin d2); [lia|]. split; [done|lia].
Qed.

(** The edit distance exists, and no script is cheaper. *)
Lemma distance_exists :
  ∃ d, hit d ∧ (∀ i, (i < d)%nat → ¬ hit i) ∧ (d ≤ length src + length dst)%nat ∧
    ∀ l, edits src dst l → (d ≤ cost l)%nat.
Proof.
  assert (∃ d, reached d ∧ ∀ i, (i < d)%nat → ¬ reached i) as (d&Hd&Hmin).
  { apply (least_nat reached).
    eexists. apply reached_by_script, edits_trivial. }
  assert (∀ l, edits src dst l → (d ≤ cost l)%nat) as Hle.
  { intros l He%reached_by_script. destruct (decide (d ≤ cost l)%nat); [done|].
    exfalso. apply (Hmin (cost l)); [lia|done]. }
  exists d. split; [by apply first_reached_hits|]. split.
  { intros i Hi [Hr Hh]. apply (Hmin i Hi). split; [done|lia]. }
  split; [|done]. rewrite <- cost_trivial. apply Hle, edits_trivial.
Qed.
End forward.

(** ** The code computes the furthest-reaching points *)

Section refine.
Context {A : Type} `{!EqDecision A}.
Variables src dst : list A.
Local Abbreviation n := (Z.of_nat (length src)).
Local Abbreviation m := (Z.of_nat (length dst)).
Local Abbreviation far := (far src dst).
Local Abbreviation ext := (ext src dst).

Lemma snake_spec fuel x y :
  0 ≤ x → 0 ≤ y → (Z.to_nat (n - x) ≤ fuel)%nat →
  snake src dst fuel x y =
    let j := Z.of_nat (slide (drop (Z.to_nat x) src) (drop (Z.to_nat y) dst)) in
    Ret (x + j, y + j).
Proof.
  revert x y. induction fuel as [|fuel IH]; intros x y Hx Hy Hf; simpl.
  - rewrite bool_decide_false by lia. simpl.
    rewrite (drop_ge src) by lia. simpl. f_equal. f_equal; lia.
  - destruct (decide (x < n)) as [Hxn|Hxn]; last first.
    { rewrite bool_decide_false by lia. simpl.
      rewrite (drop_ge src) by lia. simpl. f_equal. f_equal; lia. }
    destruct (decide (y < m)) as [Hym|Hym]; last first.
    { rewrite (bool_decide_false (y < _)) by lia. rewrite andb_false_r.
      rewrite (drop_ge dst) by lia. destruct (drop _ src); simpl; f_equal; f_equal; lia. }
    rewrite !bool_decide_true by lia. simpl.
    destruct (index_lt src x) as (a&Ha&->); [lia|].
    destruct (index_lt dst y) as (b&Hb&->); [lia|]. simpl.
    rewrite (drop_S _ _ _ Ha), (drop_S _ _ _ Hb). simpl.
    case_decide; simpl; [|f_equal; f_equal; lia].
    rewrite IH by lia. simpl.
    replace (Z.to_nat (x + 1)) with (S (Z.to_nat x)) by lia.
    replace (Z.to_nat (y + 1)) with (S (Z.to_nat y)) by lia.
    f_equal. f_equal; lia.
Qed.

Lemma snake_ext fuel k x :
  0 ≤ x → 0 ≤ x - k → (Z.to_nat (n - x) ≤ fuel)%nat →
  snake src dst fuel x (x - k) = Ret (ext k x, ext k x - k).
Proof.
  intros Hx Hy Hf. rewrite snake_spec by done. simpl. unfold Myers.ext.
  f_equal. f_equal; lia.
Qed.

(** A row that holds the furthest point of each of its diagonals. *)
Definition complete (d : nat) (v : gmap Z Z) : Prop :=
  ∀ k, inrow d k → v !! k = Some (far d k).

Lemma complete_zget d v k : complete d v → inrow d k → zget v k = far d k.
Proof. intros Hc Hk. unfold zget. by rewrite (Hc k Hk). Qed.

Lemma goesDown_far d v k :
  complete d v → inrow (S d) k →
  goesDown v (Z.of_nat (S d)) k =
    bool_decide (k = - Z.of_nat (S d)) ||
    (negb (bool_decide (k = Z.of_nat (S d))) && bool_decide (far d (k - 1) < far d (k + 1))).
Proof.
  intros Hc [Hk Hp]. unfold goesDown.
  case_bool_decide; [done|]. case_bool_decide; [done|]. simpl.
  by rewrite !(complete_zget d) by (try done; split; lia).
Qed.

Lemma startX_far d v k :
  complete d v → inrow (S d) k →
  ext k (startX v (Z.of_nat (S d)) k) = far (S d) k ∧
  0 ≤ startX v (Z.of_nat (S d)) k ∧ 0 ≤ startX v (Z.of_nat (S d)) k - k.
Proof.
  intros Hc Hk. unfold startX. rewrite (goesDown_far d) by done.
  cbn [Myers.far]. destruct (_ || _) eqn:E.
  - assert (inrow d (k + 1)) as Hr.
    { destruct Hk. revert E. repeat case_bool_decide; simpl; intros; try done; split; lia. }
    rewrite (complete_zget d) by done. destruct (far_nonneg src dst _ _ Hr). split; [done|lia].
  - assert (inrow d (k - 1)) as Hr.
    { destruct Hk. revert E. repeat case_bool_decide; simpl; intros; try done; split; lia. }
    rewrite (complete_zget d) by done. destruct (far_nonneg src dst _ _ Hr). split; [done|lia].
Qed.

Lemma row_spec d lastV fuel k v :
  complete d lastV →
  (k + Z.of_nat (S d)) mod 2 = 0 → - Z.of_nat (S d) ≤ k →
  Z.of_nat (S d) - k < 2 * Z.of_nat fuel →
  (∀ k', inrow (S d) k' → k' < k → v !! k' = Some (far (S d) k')) →
  (n - m < k → ¬ hit src dst (S d)) →
  ∃ b v', row src dst fuel (Z.of_nat (S d)) k lastV v = Ret (b, v') ∧
    if b : bool then hit src dst (S d)
    else complete (S d) v' ∧ ¬ hit src dst (S d).
Proof.
  intros Hc. revert k v. induction fuel as [|fuel IH]; intros k v Hp Hlo Hf Hv Hno;
    cbn [row].
  { rewrite bool_decide_false by lia. exists false, v. split; [done|].
    split; [|intros Hh; apply Hno; [|done]; destruct Hh as [[? ?] ?]; lia].
    intros k' Hk'. apply Hv; [done|]. destruct Hk'. lia. }
  case_bool_decide as Hk; last first.
  { exists false, v. split; [done|].
    split; [|intros Hh; apply Hno; [|done]; destruct Hh as [[? ?] ?]; lia].
    intros k' Hk'. apply Hv; [done|]. destruct Hk'. lia. }
  assert (inrow (S d) k) as Hr by (split; lia).
  destruct (startX_far d lastV k Hc Hr) as (Hx&Hx0&Hy0).
  rewrite snake_ext by (try done; lia). rewrite Hx, bind_ret_l. cbn [fst snd].
  destruct (decide (far (S d) k = n ∧ far (S d) k - k = m)) as [[Hn Hm]|Hne].
  { rewrite !bool_decide_true by done. exists true. eexists. split; [done|].
    assert (n - m = k) as E by lia. split; rewrite E; done. }
  rewrite <- bool_decide_and, bool_decide_false by done.
  apply IH; [lia..| |].
  - intros k' Hk' Hlt. destruct (decide (k' = k)) as [->|].
    + by rewrite lookup_insert_eq.
    + rewrite lookup_insert_ne by done. apply Hv; [done|]. destruct Hk'. lia.
  - intros Hlt Hh. destruct (decide (n - m < k)) as [|Hnlt]; [by apply Hno|].
    destruct Hh as [[? ?] Hh].
    assert (n - m = k) as E by lia. apply Hne. rewrite E in Hh. lia.
Qed.

Lemma complete_0 : complete 0 {[0 := far 0 0]}.
Proof.
  intros k Hk. assert (k = 0) as -> by (destruct Hk; lia). by rewrite lookup_singleton_eq.
Qed.

Lemma hit_0 : hit src dst 0 ↔ far 0 0 = n ∧ far 0 0 = m.
Proof.
  unfold hit, inrow. split.
  - intros [[? ?] Hh]. assert (n - m = 0) as E by lia. rewrite E in Hh. lia.
  - intros [H1 H2]. assert (n - m = 0) as E by lia. rewrite E. lia.
Qed.

(** One step of the outer loop, on a trace of complete rows. *)
Lemma search_step fuel d trace :
  length trace = d → (d ≤ length src + length dst)%nat →
  (∀ i v, trace !! i = Some v → complete i v) →
  ∃ v (b : bool), search src dst (S fuel) (Z.of_nat d) trace =
    (if b then Ret (trace ++ [v])
     else search src dst fuel (Z.of_nat (S d)) (trace ++ [v])) ∧
    (if b then hit src dst d else complete d v ∧ ¬ hit src dst d) ∧
    (d = 0%nat → zget v 0 = far 0 0).
Proof.
  intros Hlen Hd Hc. cbn [search]. rewrite bool_decide_true by lia.
  replace (Z.of_nat d + 1) with (Z.of_nat (S d)) by lia.
  destruct d as [|d].
  - rewrite bool_decide_true by done.
    pose proof (snake_ext (length src) 0 0) as Hs. rewrite Z.sub_0_r in Hs.
    rewrite Hs by lia. rewrite bind_ret_l. cbn [fst snd].
    change (ext 0 0) with (far 0 0). rewrite <- bool_decide_and.
    exists {[0 := far 0 0]}, (bool_decide (far 0 0 = n ∧ far 0 0 = m)).
    split; [by case_bool_decide|]. split; [|by intros _; unfold zget; rewrite lookup_singleton_eq].
    case_bool_decide; rewrite hit_0; [done|]. split; [apply complete_0|done].
  - rewrite bool_decide_false by lia.
    destruct (lookup_lt_is_Some_2 trace d) as [lastV Hlast]; [lia|].
    rewrite (index_ret trace _ lastV) by (try lia; rewrite <- Hlast; f_equal; lia).
    rewrite bind_ret_l.
    destruct (row_spec d lastV (S (Z.to_nat (Z.of_nat (S d)))) (- Z.of_nat (S d)) ∅)
      as (b&v&->&Hb).
    + by apply (Hc d).
    + lia.
    + lia.
    + lia.
    + intros k' [? ?] ?. lia.
    + intros ? [[? ?] ?]. lia.
    + rewrite bind_ret_l. cbn [fst snd]. exists v, b. by destruct b.
Qed.

Lemma search_spec D fuel d trace :
  hit src dst D → (∀ i, (i < D)%nat → ¬ hit src dst i) →
  (D ≤ length src + length dst)%nat → (d ≤ D)%nat → (D - d < fuel)%nat →
  length trace = d →
  (∀ i v, trace !! i = Some v → complete i v) →
  (d ≠ 0%nat → ∃ v, trace !! 0%nat = Some v ∧ zget v 0 = far 0 0) →
  ∃ trace', search src dst fuel (Z.of_nat d) trace = Ret trace' ∧
    length trace' = S D ∧
    (∀ i v, (i < D)%nat → trace' !! i = Some v → complete i v) ∧
    (∃ v, trace' !! 0%nat = Some v ∧ zget v 0 = far 0 0).
Proof.
  intros HD Hmin HDm. revert d trace.
  induction fuel as [|fuel IH]; intros d trace Hd Hf Hlen Hc H0; [lia|].
  destruct (search_step fuel d trace) as (v&b&->&Hb&Hv0); [done|lia|done|].
  assert (∃ v0, (trace ++ [v]) !! 0%nat = Some v0 ∧ zget v0 0 = far 0 0) as Hfirst.
  { destruct d as [|d].
    - apply nil_length_inv in Hlen as ->. eauto.
    - destruct H0 as (v0&Hv0'&Hz); [lia|]. exists v0. split; [|done].
      by apply lookup_app_l_Some. }
  destruct b.
  - exists (trace ++ [v]). assert (d = D) as ->.
    { destruct (decide (d = D)); [done|]. exfalso. apply (Hmin d); [lia|done]. }
    split; [done|]. split; [rewrite length_app; simpl; lia|]. split; [|done].
    intros i w Hi Hw. rewrite lookup_app_l in Hw by lia. eauto.
  - destruct Hb as [Hcv Hnh].
    assert (d ≠ D) by congruence.
    apply IH; [lia|lia| | |done].
    + rewrite length_app. simpl. lia.
    + intros i w [Hw|[Hle Hw]]%lookup_app_Some; [eauto|].
      apply list_lookup_singleton_Some in Hw as [Hi ->].
      by replace i with d by lia.
Qed.

(** ** The backward pass *)

Lemma moves_spec j fuel x y px py script :
  (j ≤ fuel)%nat → Z.of_nat j = Z.min (x - px) (y - py) →
  moves fuel x y px py script =
    Ret (script ++ replicate j MOVE, x - Z.of_nat j).
Proof.
  revert fuel x y script. induction j as [|j IH]; intros fuel x y script Hf Hj.
  - replace (moves fuel x y px py script) with (Ret (script, x)).
    + rewrite app_nil_r. f_equal. f_equal. lia.
    + destruct fuel; simpl; rewrite <- bool_decide_and, bool_decide_false by lia; done.
  - destruct fuel as [|fuel]; [lia|]. simpl.
    rewrite <- bool_decide_and, bool_decide_true by lia.
    rewrite IH by lia. rewrite <- app_assoc. simpl. f_equal. f_equal. lia.
Qed.

(** A run along a diagonal copies the elements it passes. *)
Lemma edits_diagonal (s t : list A) (x y : nat) l :
  edits (take x s) (take y t) l →
  edits (take (x + slide (drop x s) (drop y t)) s)
        (take (y + slide (drop x s) (drop y t)) t)
        (l ++ replicate (slide (drop x s) (drop y t)) MOVE).
Proof.
  intros He. rewrite !take_add_drop. apply edits_app; [done|].
  rewrite <- slide_take. set (j := slide _ _).
  replace j with (length (take j (drop x s))) at 3; [apply edits_refl|].
  rewrite length_take. pose proof (slide_le (drop x s) (drop y t)). lia.
Qed.

Lemma edits_ext k (x : Z) l :
  0 ≤ x → 0 ≤ x - k →
  edits (take (Z.to_nat x) src) (take (Z.to_nat (x - k)) dst) l →
  ∃ j : nat, ext k x = x + Z.of_nat j ∧
    edits (take (Z.to_nat (ext k x)) src) (take (Z.to_nat (ext k x - k)) dst)
      (l ++ replicate j MOVE).
Proof.
  intros Hx Hy He%edits_diagonal. unfold Myers.ext.
  set (j := slide _ _) in *. exists j. split; [done|].
  replace (Z.to_nat (x + Z.of_nat j)) with (Z.to_nat x + j)%nat by lia.
  by replace (Z.to_nat (x + Z.of_nat j - k)) with (Z.to_nat (x - k) + j)%nat by lia.
Qed.

Lemma edits_insert_snoc (x y : nat) l :
  (y < length dst)%nat → edits (take x src) (take y dst) l →
  edits (take x src) (take (S y) dst) (l ++ [INSERT]).
Proof.
  intros Hy He. destruct (lookup_lt_is_Some_2 dst y Hy) as [b Hb].
  rewrite (take_S_r _ _ _ Hb). rewrite <- (app_nil_r (take x src)).
  apply edits_app; auto with dsn.
Qed.

Lemma edits_delete_snoc (x y : nat) l :
  (x < length src)%nat → edits (take x src) (take y dst) l →
  edits (take (S x) src) (take y dst) (l ++ [DELETE]).
Proof.
  intros Hx He. destruct (lookup_lt_is_Some_2 src x Hx) as [a Ha].
  rewrite (take_S_r _ _ _ Ha). rewrite <- (app_nil_r (take y dst)).
  apply edits_app; auto with dsn.
Qed.

(** The two ways the search reached a point of the row of [S d]: down from
    the diagonal above, or right from the diagonal below. *)
Lemma reach_back d k l :
  inrow (S d) k → far (S d) k ≤ n → far (S d) k - k ≤ m →
  let down := bool_decide (k = - Z.of_nat (S d)) ||
    (negb (bool_decide (k = Z.of_nat (S d))) && bool_decide (far d (k - 1) < far d (k + 1))) in
  let pk := if down then k + 1 else k - 1 in
  inrow d pk ∧ far d pk ≤ n ∧ far d pk - pk ≤ m ∧
  (edits (take (Z.to_nat (far d pk)) src) (take (Z.to_nat (far d pk - pk)) dst) l →
   ∃ j, far (S d) k = far d pk + (if down then 0 else 1) + Z.of_nat j ∧
     edits (take (Z.to_nat (far (S d) k)) src) (take (Z.to_nat (far (S d) k - k)) dst)
       (l ++ (if down then INSERT else DELETE) :: replicate j MOVE)).
Proof.
  intros Hk Hn Hm down pk. cbn [Myers.far] in *. fold down in Hn, Hm |- *.
  assert (inrow d pk) as Hr.
  { destruct Hk. unfold pk, down. repeat case_bool_decide; simpl; try lia; split; lia. }
  destruct (far_nonneg src dst _ _ Hr) as [H0 H1]. unfold pk in *. destruct down.
  - destruct (ext_bounds src dst k (far d (k + 1))) as (B1&B2&B3); [lia..|].
    split; [done|]. split; [lia|]. split; [lia|]. intros He.
    apply edits_insert_snoc in He; [|lia].
    replace (S (Z.to_nat (far d (k + 1) - (k + 1))))
      with (Z.to_nat (far d (k + 1) - k)) in He by lia.
    apply edits_ext in He as (j&Hj&He); [|lia..]. exists j.
    rewrite <- app_assoc in He. split; [lia|done].
  - destruct (ext_bounds src dst k (far d (k - 1) + 1)) as (B1&B2&B3); [lia..|].
    split; [done|]. split; [lia|]. split; [lia|]. intros He.
    apply edits_delete_snoc in He; [|lia].
    replace (S (Z.to_nat (far d (k - 1))))
      with (Z.to_nat (far d (k - 1) + 1)) in He by lia.
    replace (far d (k - 1) - (k - 1)) with (far d (k - 1) + 1 - k) in He by lia.
    apply edits_ext in He as (j&Hj&He); [|lia..]. exists j.
    rewrite <- app_assoc in He. split; [lia|done].
Qed.

(** The script read back from the furthest point of [d] on diagonal [k],
    before the initial run of moves, has [d] edits and is correct. *)
Lemma backtrack_spec d k trace script :
  (∀ i, (i < d)%nat → ∃ v, trace !! i = Some v ∧ complete i v) →
  inrow d k → far d k ≤ n → far d k - k ≤ m →
  ∃ l, backtrack d (far d k) (far d k - k) trace script = Ret (script ++ l) ∧
    cost l = d ∧
    edits (take (Z.to_nat (far d k)) src) (take (Z.to_nat (far d k - k)) dst)
      (replicate (Z.to_nat (far 0 0)) MOVE ++ rev l).
Proof.
  revert k script. induction d as [|d IH]; intros k script Htr Hk Hn Hm.
  { exists []. rewrite app_nil_r. split; [done|]. split; [done|].
    assert (k = 0) as -> by (destruct Hk; lia). rewrite app_nil_r, Z.sub_0_r.
    destruct (edits_ext 0 0 []) as (j&Hj&He); [lia..|constructor|].
    change (ext 0 0) with (far 0 0) in *.
    replace (Z.to_nat (far 0 0)) with j at 3 by lia. by rewrite Z.sub_0_r in He. }
  destruct (Htr d) as (lastV&Hl&Hc); [lia|].
  destruct (reach_back d k [] Hk Hn Hm) as (Hr&Hn'&Hm'&_).
  assert (∀ l, _) as Hstep by exact (λ l, proj2 (proj2 (proj2 (reach_back d k l Hk Hn Hm)))).
  cbn [backtrack].
  rewrite (index_ret trace _ lastV) by (try lia; rewrite <- Hl; f_equal; lia).
  rewrite bind_ret_l. replace (far (S d) k - (far (S d) k - k)) with k by lia.
  rewrite (goesDown_far d) by done.
  set (down := _ || _) in *. set (pk := if down then k + 1 else k - 1) in *.
  rewrite (complete_zget d) by done.
  destruct (IH pk [] ltac:(intros; apply Htr; lia) Hr Hn' Hm') as (l0&_&_&He0).
  destruct (Hstep _ He0) as (j&Hj&_). clear l0 He0.
  rewrite (moves_spec j) by (destruct down; lia).
  rewrite bind_ret_l. cbn [fst snd].
  set (op := if decide _ then INSERT else DELETE).
  assert (op = if down then INSERT else DELETE) as Hop.
  { unfold op. destruct down; case_decide; try done; lia. }
  destruct (IH pk (((script ++ replicate j MOVE) ++ [op]))
              ltac:(intros; apply Htr; lia) Hr Hn' Hm') as (l&Hb&Hcost&He).
  exists (replicate j MOVE ++ op :: l). rewrite Hb. split; [by rewrite <- !app_assoc|].
  split; [rewrite cost_app, cost_moves; simpl; rewrite Hop; destruct down; simpl; lia|].
  destruct (Hstep _ He) as (j'&Hj'&He'). replace j' with j in He' by lia.
  rewrite rev_app_distr. simpl. rewrite rev_replicate, Hop.
  by rewrite <- !app_assoc in He' |- *.
Qed.
End refine.

(** ** Correctness of the edit scripts *)

Section correctness.
Context {A : Type} `{!EqDecision A}.
Variables src dst : list A.

(** The whole search: it returns, its script is correct, and no correct
    script is cheaper. *)
Lemma editScript_spec :
  ∃ l, editScript src dst = Ret l ∧ edits src dst l ∧
    ∀ l', edits src dst l' → (cost l ≤ cost l')%nat.
Proof.
  destruct (distance_exists src dst) as (D&HD&Hmin&HDm&Hopt).
  destruct (search_spec src dst D (S (length src + length dst)) 0 [])
    as (trace&Hs&Hlen&Hrows&first&Hfirst&Hz); try done; [lia|lia|].
  destruct HD as [Hrow Hfar].
  destruct (backtrack_spec src dst D
    (Z.of_nat (length src) - Z.of_nat (length dst)) trace []) as (l&Hb&Hcost&He).
  { intros i Hi. destruct (lookup_lt_is_Some_2 trace i) as [v Hv]; [lia|]. eauto. }
  { done. } { lia. } { lia. }
  unfold editScript. change (Z.of_nat 0) with 0 in Hs. rewrite Hs, bind_ret_l, Hlen.
  rewrite Hfar in Hb, He.
  replace (Z.of_nat (length src) - (Z.of_nat (length src) - Z.of_nat (length dst)))
    with (Z.of_nat (length dst)) in Hb, He by lia.
  replace (S D - 1)%nat with D by lia. rewrite Hb, bind_ret_l.
  rewrite (index_ret trace 0 first), bind_ret_l by done. cbv zeta. rewrite Hz, app_nil_l.
  rewrite !Nat2Z.id, !firstn_all in He.
  set (t := far src dst 0 0) in *.
  assert ((if decide (t = 0) then l else l ++ replicate (Z.to_nat t) MOVE)
          = l ++ replicate (Z.to_nat t) MOVE) as ->.
  { case_decide as E; [|done]. rewrite E. by rewrite app_nil_r. }
  eexists. split; [done|]. rewrite reverse_rev, rev_app_distr, rev_replicate.
  split; [done|]. intros l' Hl'. rewrite cost_app, cost_moves, cost_rev, Hcost.
  by apply Hopt.
Qed.
End correctness.

(** C1. [shortestEditScript] always returns (no index panic, no endless
    loop), and the script it returns turns the source lines into the
    destination lines. *)
Theorem shortestEditScript_correct (src dst : list string) :
  ∃ l, shortestEditScript src dst = Ret l ∧ edits src dst l.
Proof. destruct (editScript_spec src dst) as (l&?&?&_). eauto. Qed.

(** C2. The script of [shortestEditScript] is shortest: no correct script
    for the same two line lists has fewer insertions and deletions. *)
Theorem shortestEditScript_minimal (src dst : list string) (l l' : list operation) :
  shortestEditScript src dst = Ret l → edits src dst l' → (cost l ≤ cost l')%nat.
Proof.
  intros Hl Hl'. destruct (editScript_spec src dst) as (l0&H0&_&Hmin).
  unfold shortestEditScript in Hl. rewrite H0 in Hl. simplify_eq. by apply Hmin.
Qed.

Lemma shortestEditScript_minimal_witness :
  (cost [DELETE; MOVE; DELETE; MOVE; INSERT] ≤
   cost [DELETE; DELETE; DELETE; DELETE; INSERT; INSERT; INSERT])%nat.
Proof.
  apply (shortestEditScript_minimal ["a"; "b"; "c"; "a"] ["b"; "a"; "a"]).
  - vm_compute. reflexivity.
  - repeat constructor.
Defined.

(** [shortestEditDist], the byte-level search behind [SaveDyaicDiff],
    returns a correct script for any two byte strings, and a shortest one. *)
Theorem shortestEditDist_correct (src dst : list Ascii.ascii) :
  ∃ l, shortestEditDist src dst = Ret l ∧ edits src dst l ∧
    ∀ l', edits src dst l' → (cost l ≤ cost l')%nat.
Proof. apply editScript_spec. Qed.
