(* ===== verification/GoStrings.v ===== *)
(** * The Go standard library functions the sources use on strings

    Go strings are byte strings, [String.string] here.  The functions below
    are [strings.TrimSpace], [Split], [SplitN] with a limit of two, [Join],
    [ReplaceAll] of CRLF, [TrimRight] of newlines, [Compare], [ToLower] (on
    the ASCII letters), a [bufio.Scanner] with its default line splitting and
    its 64 KiB token limit, [strconv.Itoa]/[Atoi], [filepath.Base]/[Ext] and
    the float formatting of file sizes. *)

From Stdlib Require Import Ascii DecimalString DecimalN DecimalFacts.
From stdpp Require Import strings numbers base list.
From S2P Require Import Prelude.

Local Open Scope string_scope.

Definition NL : ascii := "010"%char.
Definition CR : ascii := "013"%char.
Definition nl : string := String NL "".
Definition crlf : string := String CR nl.

(** ** White space *)

(** The UTF-8 encodings of the runes for which [unicode.IsSpace] holds. *)
Definition byteString (l : list nat) : string :=
  fold_right (λ b s, String (ascii_of_nat b) s) "" l.

Definition spaceEncodings : list string :=
  map byteString
    ([[9]; [10]; [11]; [12]; [13]; [32]; [194; 133]; [194; 160]; [225; 154; 128];
      [226; 128; 168]; [226; 128; 169]; [226; 128; 175]; [226; 129; 159]; [227; 128; 128]]
     ++ map (λ b, [226; 128; b]) (seq 128 11))%list.

Fixpoint stripPrefix (p s : string) : option string :=
  match p, s with
  | "", _ => Some s
  | String a p', String b s' => if decide (a = b) then stripPrefix p' s' else None
  | String _ _, "" => None
  end.

(** One leading white-space rune removed. *)
Definition stripSpace (s : string) : option string :=
  list_find (λ p, is_Some (stripPrefix p s)) spaceEncodings ≫= λ ip, stripPrefix ip.2 s.

Fixpoint trimLeft (fuel : nat) (s : string) : string :=
  match fuel with
  | O => s
  | S f => match stripSpace s with Some s' => trimLeft f s' | None => s end
  end.

(** [strings.TrimLeftFunc(s, unicode.IsSpace)]; every step removes a byte. *)
Definition TrimSpaceLeft (s : string) : string := trimLeft (String.length s) s.

(** [strings.TrimRightFunc(s, unicode.IsSpace)]: the longest suffix made of
    white-space runes goes. *)
Fixpoint TrimSpaceRight (s : string) : string :=
  if decide (TrimSpaceLeft s = "") then ""
  else match s with
       | "" => ""
       | String a s' => String a (TrimSpaceRight s')
       end.

Definition TrimSpace (s : string) : string := TrimSpaceRight (TrimSpaceLeft s).

(** ** Splitting and joining *)

(** [strings.Split(s, c)] for a one-byte separator. *)
Fixpoint Split (c : ascii) (s : string) : list string :=
  match s with
  | "" => [""]
  | String a s' =>
      if decide (a = c) then "" :: Split c s'
      else match Split c s' with
           | h :: t => String a h :: t
           | [] => [String a ""]
           end
  end.

(** [strings.SplitN(s, c, 2)]: [None] when the separator does not occur. *)
Fixpoint SplitN2 (c : ascii) (s : string) : option (string * string) :=
  match s with
  | "" => None
  | String a s' =>
      if decide (a = c) then Some ("", s')
      else match SplitN2 c s' with
           | Some (l, r) => Some (String a l, r)
           | None => None
           end
  end.

Fixpoint Join (l : list string) (sep : string) : string :=
  match l with
  | [] => ""
  | [s] => s
  | s :: l' => s +:+ sep +:+ Join l' sep
  end.

(** [strings.ReplaceAll(s, "\r\n", "\n")] *)
Fixpoint ReplaceCRLF (s : string) : string :=
  match s with
  | String a s' =>
      match s' with
      | String b s'' =>
          if decide (a = CR ∧ b = NL) then String NL (ReplaceCRLF s'')
          else String a (ReplaceCRLF s')
      | "" => s
      end
  | "" => ""
  end.

(** [strings.TrimRight(s, "\n")] *)
Fixpoint TrimRightNL (s : string) : string :=
  match s with
  | "" => ""
  | String a s' =>
      match TrimRightNL s' with
      | "" => if decide (a = NL) then "" else String a ""
      | t => String a t
      end
  end.

(** ** Comparison *)

(** [strings.Compare] and [<] on strings: bytewise lexicographic order. *)
Fixpoint Compare (s t : string) : Z :=
  match s, t with
  | "", "" => 0
  | "", _ => -1
  | _, "" => 1
  | String a s', String b t' =>
      if (N_of_ascii a <? N_of_ascii b)%N then -1
      else if (N_of_ascii b <? N_of_ascii a)%N then 1
      else Compare s' t'
  end.

Definition ltb (s t : string) : bool := bool_decide (Compare s t < 0)%Z.

Definition lowerByte (a : ascii) : ascii :=
  let b := N_of_ascii a in
  if ((65 <=? b) && (b <=? 90))%N then Ascii.ascii_of_N (b + 32) else a.

Fixpoint ToLower (s : string) : string :=
  match s with "" => "" | String a s' => String (lowerByte a) (ToLower s') end.

(** ** Lines of a file *)

(** [dropCR] of [bufio.ScanLines]. *)
Fixpoint dropCR (s : string) : string :=
  match s with
  | "" => ""
  | String a s' => if decide (s' = "") then (if decide (a = CR) then "" else s)
                   else String a (dropCR s')
  end.

(** The tokens of a [bufio.Scanner] with [ScanLines]; an unterminated empty
    last line is no token. *)
Definition rawLines (content : string) : list string :=
  let parts := Split NL content in
  match last parts with
  | Some "" => take (length parts - 1) parts
  | _ => parts
  end.

(** [bufio.MaxScanTokenSize]: a line that fills the buffer stops the scan
    with [bufio.ErrTooLong]. *)
Definition maxScanTokenSize : Z := 65536.

Definition tooLong (s : string) : bool :=
  bool_decide (maxScanTokenSize ≤ Z.of_nat (String.length s))%Z.

Definition scanLines (content : string) : outcome (list string) :=
  if existsb tooLong (rawLines content)
  then Fail "bufio.Scanner: token too long"
  else Ret (map dropCR (rawLines content)).

(** The text of lines each written with a newline after it. *)
Definition unlines (l : list string) : string :=
  fold_right (λ s acc, s +:+ nl +:+ acc) "" l.

(** ** Numbers *)

Definition minInt64 : Z := - 2 ^ 63.
Definition maxInt64 : Z := 2 ^ 63 - 1.
Definition wrapInt64 (z : Z) : Z := ((z + 2 ^ 63) mod 2 ^ 64 - 2 ^ 63)%Z.

(** [strconv.Itoa] *)
Definition digits (n : N) : string := NilZero.string_of_uint (N.to_uint n).

Definition Itoa (z : Z) : string :=
  match z with
  | Zneg p => String "-" (digits (Npos p))
  | _ => digits (Z.to_N z)
  end.

Definition undigits (s : string) : option Z :=
  match NilZero.uint_of_string s with
  | Some d => Some (Z.of_N (N.of_uint d))
  | None => None
  end.

(** [strconv.Atoi]: an optional sign, decimal digits, and the range of [int]. *)
Definition Atoi (s : string) : option Z :=
  let v := match s with
           | String "-" s' => Z.opp <$> undigits s'
           | String "+" s' => undigits s'
           | _ => undigits s
           end in
  v ≫= λ z, if bool_decide (minInt64 ≤ z ≤ maxInt64)%Z then Some z else None.

(** [float64(z)] for [0 ≤ z]: 53 significant bits, ties to even. *)
Definition float64OfInt (z : Z) : Z :=
  if bool_decide (z ≤ 2 ^ 53)%Z then z
  else
    let u := (2 ^ (Z.log2 z - 52))%Z in
    let q := (z / u)%Z in
    let r := (z mod u)%Z in
    let up := bool_decide (u < 2 * r)%Z || (bool_decide (2 * r = u)%Z && Z.odd q) in
    ((if up then q + 1 else q) * u)%Z.

(** [fmt.Sprintf("%.2f", x / 2^20)] for a non-negative [x]. *)
Definition hundredths (x : Z) : Z :=
  let q := (x * 100 / 2 ^ 20)%Z in
  let r := (x * 100 mod 2 ^ 20)%Z in
  if bool_decide (2 ^ 20 < 2 * r)%Z || (bool_decide (2 * r = 2 ^ 20)%Z && Z.odd q)
  then (q + 1)%Z else q.

Definition sprintf2 (h : Z) : string :=
  Itoa (h / 100) +:+ "." +:+ Itoa (h / 10 mod 10) +:+ Itoa (h mod 10).

(** ** Paths *)

Definition SLASH : ascii := "/"%char.
Definition DOT : ascii := "."%char.

Fixpoint trimSlashes (s : string) : string :=
  match s with
  | "" => ""
  | String a s' =>
      match trimSlashes s' with
      | "" => if decide (a = SLASH) then "" else String a ""
      | t => String a t
      end
  end.

(** [filepath.Base] *)
Definition Base (path : string) : string :=
  if decide (path = "") then "."
  else match trimSlashes path with
       | "" => "/"
       | t => default "" (last (Split SLASH t))
       end.

(** [filepath.Ext]: from the last dot of the last element. *)
Definition Ext (path : string) : string :=
  let base := default "" (last (Split SLASH path)) in
  match reverse (Split DOT base) with
  | _ :: [] | [] => ""
  | e :: _ => String DOT e
  end.

Example TrimSpace_ex :
  TrimSpace (byteString [32; 9; 65; 32; 66; 194; 160; 10]%nat) = "A B".
Proof. vm_compute. reflexivity. Qed.
Example Atoi_ex : Atoi "-0012" = Some (-12)%Z ∧ Atoi "9223372036854775808" = None ∧ Atoi "1a" = None.
Proof. vm_compute. auto. Qed.
Example Ext_ex : Ext "/a.b/report.tar.gz" = ".gz" ∧ Ext "/a.b/c" = "" ∧ Base "/a//" = "a".
Proof. vm_compute. auto. Qed.
Example size_ex : sprintf2 (hundredths (float64OfInt 1572864)) = "1.50".
Proof. vm_compute. auto. Qed.

(** ** Bytes of a string *)

Fixpoint hasByte (c : ascii) (s : string) : bool :=
  match s with "" => false | String a s' => bool_decide (a = c) || hasByte c s' end.

Fixpoint allBytes (P : ascii → bool) (s : string) : bool :=
  match s with "" => true | String a s' => P a && allBytes P s' end.

(** Printable ASCII other than the space: the bytes of CIDs, of the keys of
    the log files and of decimal numbers. *)
Definition plainByte (a : ascii) : bool :=
  ((33 <=? N_of_ascii a) && (N_of_ascii a <=? 126))%N.
Definition plain (s : string) : bool := allBytes plainByte s.

Lemma app_cons a s t : String a s +:+ t = String a (s +:+ t).
Proof. reflexivity. Qed.
Lemma app_empty_l t : "" +:+ t = t.
Proof. reflexivity. Qed.
Lemma app_empty_r s : s +:+ "" = s.
Proof. induction s as [|a s IH]; [done|]. by rewrite app_cons, IH. Qed.
Lemma app_assoc_str s t u : (s +:+ t) +:+ u = s +:+ t +:+ u.
Proof. induction s as [|a s IH]; [done|]. by rewrite !app_cons, IH. Qed.

#[export] Hint Rewrite app_cons app_empty_l app_empty_r app_assoc_str : dsn.

Lemma hasByte_app c s t : hasByte c (s +:+ t) = hasByte c s || hasByte c t.
Proof.
  induction s as [|a s IH]; [done|]. rewrite app_cons. simpl. rewrite IH. by destruct (bool_decide _).
Qed.

Lemma allBytes_app P s t : allBytes P (s +:+ t) = allBytes P s && allBytes P t.
Proof.
  induction s as [|a s IH]; [done|]. rewrite app_cons. simpl. rewrite IH. by destruct (P a).
Qed.

Lemma plain_noByte c s : plainByte c = false → plain s = true → hasByte c s = false.
Proof.
  intros Hc. induction s as [|a s IH]; [done|]. simpl.
  intros [Ha Hs]%andb_prop. rewrite (IH Hs). case_bool_decide; [congruence|done].
Qed.

(** ** Trimming *)

Lemma spaceEncodings_heads :
  Forall (λ p, match p with "" => False | String b _ => plainByte b = false end) spaceEncodings.
Proof. repeat constructor. Qed.

Lemma stripSpace_plain a s : plainByte a = true → stripSpace (String a s) = None.
Proof.
  intros Ha. unfold stripSpace.
  destruct (list_find _ _) as [[i p]|] eqn:E; [|done].
  apply list_find_Some in E as (Hp&[s' Hs]&_).
  eapply (Forall_lookup_1 _ _ _ _ spaceEncodings_heads) in Hp.
  destruct p as [|b p]; [done|]. simpl in Hs. case_decide; congruence.
Qed.

Lemma stripPrefix_length p s s' :
  stripPrefix p s = Some s' → (String.length s = String.length p + String.length s')%nat.
Proof.
  revert s. induction p as [|a p IH]; intros s; simpl; [congruence|].
  destruct s as [|b s]; [done|]. case_decide; [|done]. intros Hl%IH. simpl. lia.
Qed.

Lemma stripSpace_length s s' :
  stripSpace s = Some s' → (String.length s' < String.length s)%nat.
Proof.
  unfold stripSpace. destruct (list_find _ _) as [[i p]|] eqn:E; [|done]. simpl.
  apply list_find_Some in E as (Hp&_&_). intros H%stripPrefix_length.
  eapply (Forall_lookup_1 _ _ _ _ spaceEncodings_heads) in Hp.
  destruct p; [done|]. simpl in H. lia.
Qed.

Lemma trimLeft_le fuel s :
  trimLeft fuel s = s ∨ (String.length (trimLeft fuel s) < String.length s)%nat.
Proof.
  revert s. induction fuel as [|fuel IH]; intros s; simpl; [by left|].
  destruct (stripSpace s) as [s'|] eqn:E; [|by left]. apply stripSpace_length in E.
  right. destruct (IH s') as [->|]; lia.
Qed.

Lemma TrimSpaceLeft_plain a s : plainByte a = true → TrimSpaceLeft (String a s) = String a s.
Proof. intros Ha. unfold TrimSpaceLeft. simpl. by rewrite stripSpace_plain. Qed.

Lemma TrimSpaceRight_plain_app s t :
  plain s = true → TrimSpaceRight (s +:+ t) = s +:+ TrimSpaceRight t.
Proof.
  induction s as [|a s IH]; [done|]. simpl. intros [Ha Hs]%andb_prop.
  rewrite app_cons. cbn [TrimSpaceRight]. rewrite TrimSpaceLeft_plain by done.
  rewrite decide_False by done. by rewrite IH.
Qed.

Lemma TrimSpaceRight_le s : (String.length (TrimSpaceRight s) ≤ String.length s)%nat.
Proof.
  induction s as [|a s IH]; cbn [TrimSpaceRight]; case_decide; simpl; lia.
Qed.

Lemma TrimSpace_plain s : plain s = true → TrimSpace s = s.
Proof.
  intros Hs. unfold TrimSpace. destruct s as [|a s]; [done|].
  rewrite TrimSpaceLeft_plain by (by apply andb_prop in Hs as [??]).
  pose proof (TrimSpaceRight_plain_app (String a s) "" Hs) as H.
  by rewrite !app_empty_r in H.
Qed.

(** A trimmed string is trimmed on both sides. *)
Lemma trimmed_right s : TrimSpace s = s → TrimSpaceLeft s = s ∧ TrimSpaceRight s = s.
Proof.
  unfold TrimSpace. intros H.
  assert (TrimSpaceLeft s = s) as E.
  { destruct (trimLeft_le (String.length s) s) as [|Hlt]; [done|].
    fold (TrimSpaceLeft s) in Hlt. pose proof (TrimSpaceRight_le (TrimSpaceLeft s)).
    rewrite H in H0. lia. }
  by rewrite E in H.
Qed.

Lemma TrimSpace_prefix s t :
  plain s = true → s ≠ "" → TrimSpace t = t → TrimSpace (s +:+ t) = s +:+ t.
Proof.
  intros Hs Hne [_ Ht]%trimmed_right. destruct s as [|a s]; [done|].
  unfold TrimSpace. rewrite app_cons, TrimSpaceLeft_plain by (by apply andb_prop in Hs as [??]).
  rewrite <- app_cons, TrimSpaceRight_plain_app by done. by rewrite Ht.
Qed.

(** ** Splitting *)

Lemma Split_nonempty c s : Split c s ≠ [].
Proof. destruct s as [|a s]; simpl; [done|]. case_decide; [done|]. by destruct (Split c s). Qed.

Lemma Split_nosep c s : hasByte c s = false → Split c s = [s].
Proof.
  induction s as [|a s IH]; [done|]. simpl. intros [Ha Hs]%orb_false_elim.
  apply bool_decide_eq_false in Ha. rewrite decide_False by done. by rewrite IH.
Qed.

Lemma Split_app c s t :
  hasByte c s = false → Split c (s +:+ String c t) = s :: Split c t.
Proof.
  induction s as [|a s IH]; intros Hs.
  - simpl. by rewrite decide_True.
  - simpl in Hs. apply orb_false_elim in Hs as [Ha Hs]. apply bool_decide_eq_false in Ha.
    rewrite app_cons. simpl. rewrite decide_False by done. by rewrite IH.
Qed.

Lemma Split_pieces c s : Forall (λ p, hasByte c p = false) (Split c s).
Proof.
  induction s as [|a s IH]; simpl; [by repeat constructor|].
  case_decide as Ha; [by constructor|].
  destruct (Split c s) as [|h t]; [by repeat constructor; simpl; rewrite bool_decide_false|].
  inversion IH; subst. constructor; [|done]. simpl. by rewrite bool_decide_false.
Qed.

Lemma Join_cons s l sep : l ≠ [] → Join (s :: l) sep = s +:+ sep +:+ Join l sep.
Proof. by destruct l. Qed.

Lemma Split_Join c l :
  l ≠ [] → Forall (λ p, hasByte c p = false) l → Split c (Join l (String c "")) = l.
Proof.
  intros Hne Hl. induction Hl as [|s l Hs Hl IH]; [done|].
  destruct l as [|s' l]; [by apply Split_nosep|].
  rewrite Join_cons, app_cons, app_empty_l, Split_app by done. by rewrite IH.
Qed.

Lemma Split_app_all c s t : Split c (s +:+ String c t) = (Split c s ++ Split c t)%list.
Proof.
  induction s as [|a s IH]; [simpl; by rewrite decide_True|]. rewrite app_cons. cbn [Split]. rewrite IH.
  case_decide; [done|]. pose proof (Split_nonempty c s). by destruct (Split c s).
Qed.

Lemma Join_Split c s : Join (Split c s) (String c "") = s.
Proof.
  induction s as [|a s IH]; [done|]. cbn [Split]. pose proof (Split_nonempty c s) as Hne. case_decide as Ha.
  - subst. rewrite Join_cons, IH by done. done.
  - destruct (Split c s) as [|h [|h' t]]; [done|by simpl in *; subst|].
    rewrite Join_cons in IH |- * by done. by rewrite app_cons, IH.
Qed.

Lemma Split_inj c s t : Split c s = Split c t → s = t.
Proof. intros E. by rewrite <- (Join_Split c s), E, Join_Split. Qed.

Lemma Join_snoc l s sep : l ≠ [] → Join (l ++ [s])%list sep = Join l sep +:+ sep +:+ s.
Proof.
  induction l as [|x l IH]; [done|]. intros _. destruct l as [|y l]; [done|].
  change ((x :: y :: l) ++ [s])%list with (x :: (y :: l) ++ [s])%list. rewrite !Join_cons, IH by done. by rewrite !app_assoc_str.
Qed.

Lemma SplitN2_app c s t :
  hasByte c s = false → SplitN2 c (s +:+ String c t) = Some (s, t).
Proof.
  induction s as [|a s IH]; intros Hs.
  - simpl. by rewrite decide_True.
  - simpl in Hs. apply orb_false_elim in Hs as [Ha Hs]. apply bool_decide_eq_false in Ha.
    rewrite app_cons. simpl. rewrite decide_False by done. by rewrite IH.
Qed.

(** ** Lines *)

Lemma unlines_cons s l : unlines (s :: l) = s +:+ String NL (unlines l).
Proof. reflexivity. Qed.

Lemma Split_unlines l :
  Forall (λ p, hasByte NL p = false) l → Split NL (unlines l) = (l ++ [""])%list.
Proof.
  induction 1 as [|s l Hs Hl IH]; [done|].
  by rewrite unlines_cons, Split_app, IH.
Qed.

Lemma rawLines_unlines l :
  Forall (λ p, hasByte NL p = false) l → rawLines (unlines l) = l.
Proof.
  intros Hl. unfold rawLines. rewrite Split_unlines by done.
  rewrite last_snoc, length_app. simpl.
  replace (length l + 1 - 1)%nat with (length l) by lia. by rewrite take_app_length.
Qed.

Lemma dropCR_noNL s : hasByte NL s = false → hasByte NL (dropCR s) = false.
Proof.
  induction s as [|a s IH]; [done|]. intros Hh. cbn [dropCR].
  destruct (decide (s = "")); [by destruct (decide (a = CR))|].
  cbn [hasByte] in *. apply orb_false_elim in Hh as [-> Hs]. by apply IH.
Qed.

(** What a scan returns: lines without a newline. *)
Lemma scanLines_noNL content l :
  scanLines content = Ret l → Forall (λ p, hasByte NL p = false) l.
Proof.
  unfold scanLines. destruct (existsb _ _); [done|]. intros [= <-].
  apply Forall_map. assert (Forall (λ p, hasByte NL p = false) (rawLines content)) as Hr.
  { unfold rawLines. pose proof (Split_pieces NL content) as Hp.
    destruct (last _) as [[|]|]; [by apply Forall_take|done|done]. }
  eapply Forall_impl; [exact Hr|]. intros s. apply dropCR_noNL.
Qed.

(** A line a scanner returns as it was written. *)
Definition scannable (s : string) : Prop :=
  hasByte NL s = false ∧ dropCR s = s ∧ tooLong s = false.

Lemma scanLines_unlines l : Forall scannable l → scanLines (unlines l) = Ret l.
Proof.
  intros Hl. unfold scanLines. rewrite rawLines_unlines
    by (eapply Forall_impl; [exact Hl|]; by intros s (?&?&?)).
  assert (existsb tooLong l = false) as ->.
  { induction Hl as [|s l (?&?&Ht) Hl IH]; [done|]. simpl. by rewrite Ht. }
  f_equal. induction Hl as [|s l (?&Hd&?) Hl IH]; [done|]. simpl. by rewrite Hd, IH.
Qed.

Lemma dropCR_noCR s : hasByte CR s = false → dropCR s = s.
Proof.
  induction s as [|a s IH]; [done|]. simpl. intros [Ha Hs]%orb_false_elim.
  apply bool_decide_eq_false in Ha. case_decide; [by rewrite decide_False|]. by rewrite IH.
Qed.

Lemma plain_scannable s : plain s = true → tooLong s = false → scannable s.
Proof.
  intros Hs Ht. split; [by apply plain_noByte|]. split; [|done].
  by apply dropCR_noCR, plain_noByte.
Qed.

(** ** The normalisation of metadata files *)

Lemma ReplaceCRLF_noCR s : hasByte CR s = false → ReplaceCRLF s = s.
Proof.
  induction s as [|a s IH]; [done|]. simpl. intros [Ha Hs]%orb_false_elim.
  apply bool_decide_eq_false in Ha. destruct s as [|b s]; [done|].
  rewrite decide_False by tauto. rewrite IH by done. done.
Qed.

Lemma TrimRightNL_noNL s : hasByte NL s = false → TrimRightNL s = s.
Proof.
  induction s as [|a s IH]; [done|]. simpl. intros [Ha Hs]%orb_false_elim.
  apply bool_decide_eq_false in Ha. rewrite IH by done.
  destruct s; [by rewrite decide_False|done].
Qed.

Lemma TrimRightNL_app s t : TrimRightNL t ≠ "" → TrimRightNL (s +:+ t) = s +:+ TrimRightNL t.
Proof.
  intros Ht. induction s as [|a s IH]; [done|]. rewrite !app_cons. cbn [TrimRightNL]. rewrite IH.
  destruct (s +:+ TrimRightNL t) eqn:E; [|done].
  destruct s; [by simpl in E|done].
Qed.

Lemma TrimRightNL_nl s : TrimRightNL (s +:+ nl) = TrimRightNL s.
Proof.
  induction s as [|a s IH]; [done|]. rewrite app_cons. simpl. by rewrite IH.
Qed.

(** ** Numbers *)

Lemma undigits_digits n : undigits (digits n) = Some (Z.of_N n).
Proof.
  unfold undigits, digits. rewrite NilZero.usu; [by rewrite DecimalN.Unsigned.of_to|].
  destruct n as [|p]; [done|]. intros E. apply (f_equal N.of_uint) in E.
  by rewrite DecimalN.Unsigned.of_to in E.
Qed.

Definition decimalByte (a : ascii) : bool := ((48 <=? N_of_ascii a) && (N_of_ascii a <=? 57))%N.

Lemma string_of_uint_decimal d : allBytes decimalByte (NilEmpty.string_of_uint d) = true.
Proof. induction d; simpl; auto. Qed.

Lemma digits_decimal n : allBytes decimalByte (digits n) = true.
Proof.
  unfold digits, NilZero.string_of_uint. destruct (N.to_uint n); [done|..];
    apply string_of_uint_decimal.
Qed.

Lemma digits_nonempty n : digits n ≠ "".
Proof.
  intros E. pose proof (undigits_digits n) as H. rewrite E in H. discriminate.
Qed.

Lemma decimal_plain s : allBytes decimalByte s = true → plain s = true ∧ hasByte DOT s = false.
Proof.
  induction s as [|a s IH]; [done|]. simpl. intros [Ha Hs]%andb_true_iff. destruct (IH Hs) as [H1 H2].
  unfold plain in *. simpl. rewrite H1, H2. unfold decimalByte in Ha. apply andb_true_iff in Ha as [A1 A2].
  apply N.leb_le in A1, A2. split.
  - rewrite andb_true_r. unfold plainByte. apply andb_true_iff. rewrite !N.leb_le. lia.
  - rewrite orb_false_r. apply bool_decide_eq_false. intros ->. by apply A1.
Qed.

Lemma Itoa_plain z : plain (Itoa z) = true ∧ hasByte DOT (Itoa z) = false ∧ Itoa z ≠ "".
Proof.
  assert (∀ n, plain (digits n) = true ∧ hasByte DOT (digits n) = false ∧ digits n ≠ "") as Hd.
  { intros n. destruct (decimal_plain (digits n) (digits_decimal n)). split_and!; [done|done|apply digits_nonempty]. }
  destruct z as [|p|p]; [exact (Hd 0%N)|exact (Hd (Npos p))|].
  destruct (Hd (Npos p)) as (H1&H2&_). cbn [Itoa].
  change ("-" +:+ digits (N.pos p)) with (String "-" (digits (N.pos p))).
  unfold plain in *. simpl. rewrite H1, H2. done.
Qed.

Lemma Itoa_noByte c z : decimalByte c = false → c ≠ "-"%char → hasByte c (Itoa z) = false.
Proof.
  intros Hc Hm. assert (∀ n, hasByte c (digits n) = false) as Hd.
  { intros n. pose proof (digits_decimal n) as H. induction (digits n) as [|a s IH]; [done|]. simpl in *.
    apply andb_prop in H as [Ha Hs]. rewrite IH, orb_false_r by done. apply bool_decide_eq_false. intros ->. congruence. }
  destruct z; [apply (Hd 0%N)|apply (Hd (Npos p))|]. cbn [Itoa].
  change (hasByte c (String "-" (digits (Npos p))) = false). cbn [hasByte]. rewrite Hd, orb_false_r. by apply bool_decide_eq_false.
Qed.

Lemma Atoi_Itoa z : (minInt64 ≤ z ≤ maxInt64)%Z → Atoi (Itoa z) = Some z.
Proof.
  intros Hz. unfold Atoi.
  assert (match Itoa z with
          | String "-" s' => Z.opp <$> undigits s'
          | String "+" s' => undigits s'
          | _ => undigits (Itoa z)
          end = Some z) as ->; [|by simpl; rewrite bool_decide_true].
  assert (∀ n, match digits n with
          | String "-" s' => Z.opp <$> undigits s'
          | String "+" s' => undigits s'
          | _ => undigits (digits n)
          end = Some (Z.of_N n)) as Hd.
  { intros n. pose proof (digits_decimal n) as Hdec. rewrite <- undigits_digits.
    destruct (digits n) as [|[[] [] [] [] [] [] [] []] s]; try done; simpl in Hdec; discriminate. }
  destruct z as [|p|p].
  - exact (Hd 0%N).
  - exact (Hd (Npos p)).
  - cbn [Itoa]. rewrite undigits_digits. reflexivity.
Qed.

Lemma Itoa_inj z1 z2 :
  (minInt64 ≤ z1 ≤ maxInt64)%Z → (minInt64 ≤ z2 ≤ maxInt64)%Z → Itoa z1 = Itoa z2 → z1 = z2.
Proof.
  intros H1 H2 E. apply (f_equal Atoi) in E. rewrite !Atoi_Itoa in E by done. congruence.
Qed.

Lemma wrapInt64_id z : (minInt64 ≤ z ≤ maxInt64)%Z → wrapInt64 z = z.
Proof. unfold wrapInt64, minInt64, maxInt64. intros. rewrite Z.mod_small; lia. Qed.

(** ** Order *)

Lemma Compare_refl s : Compare s s = 0%Z.
Proof. induction s as [|a s IH]; [done|]. simpl. by rewrite N.ltb_irrefl. Qed.

Lemma Compare_eq s t : Compare s t = 0%Z → s = t.
Proof.
  revert t. induction s as [|a s IH]; intros [|b t]; simpl; try done.
  destruct (N.ltb_spec (N_of_ascii a) (N_of_ascii b)); [done|].
  destruct (N.ltb_spec (N_of_ascii b) (N_of_ascii a)); [done|]. intros E%IH.
  assert (N_of_ascii a = N_of_ascii b) as Eab by lia.
  apply (f_equal ascii_of_N) in Eab. rewrite !ascii_N_embedding in Eab. by subst.
Qed.

Lemma Compare_antisym s t : Compare t s = (- Compare s t)%Z.
Proof.
  revert t. induction s as [|a s IH]; intros [|b t]; simpl; try done.
  destruct (N.ltb_spec (N_of_ascii a) (N_of_ascii b)),
           (N.ltb_spec (N_of_ascii b) (N_of_ascii a)); try done; try lia.
Qed.

Lemma ltb_trans s t u : ltb s t = true → ltb t u = true → ltb s u = true.
Proof.
  unfold ltb. rewrite !bool_decide_eq_true.
  revert t u. induction s as [|a s IH]; intros [|b t] [|c u]; simpl; try done.
  destruct (N.ltb_spec (N_of_ascii a) (N_of_ascii b)),
           (N.ltb_spec (N_of_ascii b) (N_of_ascii a)); try lia;
  destruct (N.ltb_spec (N_of_ascii b) (N_of_ascii c)),
           (N.ltb_spec (N_of_ascii c) (N_of_ascii b)); try lia;
  destruct (N.ltb_spec (N_of_ascii a) (N_of_ascii c)),
           (N.ltb_spec (N_of_ascii c) (N_of_ascii a)); try lia; apply IH.
Qed.

Lemma ltb_irrefl s : ltb s s = false.
Proof. unfold ltb. by rewrite Compare_refl. Qed.

Lemma ltb_total s t : s = t ∨ ltb s t = true ∨ ltb t s = true.
Proof.
  unfold ltb. rewrite !bool_decide_eq_true. rewrite (Compare_antisym s t).
  destruct (Z.lt_total (Compare s t) 0) as [|[E|]]; [auto| |right; right; lia].
  left. by apply Compare_eq.
Qed.

Lemma length_app_str s t : String.length (s +:+ t) = (String.length s + String.length t)%nat.
Proof. induction s as [|a s IH]; [done|]. rewrite app_cons. simpl. by rewrite IH. Qed.
