(* ===== verification/GoFiles.v ===== *)
(** * The files of a process (Go's package os)

    The calls on whole files that the catalog and the proof log make, with the
    failures that the operating system may report, and what replacing a file
    through a temporary one guarantees. *)

From stdpp Require Import strings numbers base gmap fin_maps list.
From S2P Require Import Prelude GoStrings.

(** The files by path, and the calls that fail in a run: opening or reading a
    path for another reason than that it is missing, [os.MkdirAll],
    [os.WriteFile] with what it has written by then, and [os.Rename]. *)
Abbreviation Disk := (gmap string string).

Record Faults := mkFaults {
  readFault : string → option string; mkdirFault : option string;
  writeFault : option (string * string); renameFault : option string
}.

Definition noFaults : Faults := mkFaults (λ _, None) None None None.

(** [os.ReadFile], and [os.Open] with reading to the end; [None] is the error
    that [os.IsNotExist] recognises. *)
Definition ReadFile (faults : Faults) (path : string) : io Disk (option string) := λ d,
  match readFault faults path with
  | Some e => (d, Fail e)
  | None => (d, Ret (d !! path))
  end.

(** Directories have no contents here. *)
Definition MkdirAll (faults : Faults) : io Disk unit := λ d,
  match mkdirFault faults with Some e => (d, Fail e) | None => (d, Ret tt) end.

Definition WriteFile (faults : Faults) (path data : string) : io Disk unit := λ d,
  match writeFault faults with
  | Some (e, partial) => (<[path := partial]> d, Fail e)
  | None => (<[path := data]> d, Ret tt)
  end.

(** [os.Rename]: the new name refers to the file it had or to the renamed one. *)
Definition Rename (faults : Faults) (old new : string) : io Disk unit := λ d,
  match renameFault faults with
  | Some e => (d, Fail e)
  | None => match d !! old with
            | Some data => (<[new := data]> (delete old d), Ret tt)
            | None => (d, Fail "no such file or directory")
            end
  end.

Lemma tmp_ne path : path +:+ ".tmp" ≠ path.
Proof. intros E%(f_equal String.length). rewrite length_app_str in E. simpl in E. lia. Qed.

(** Writing a temporary file and renaming it: the path has the new data, or
    what it had before. *)
Lemma replaceFile_cases faults e1 e2 tmp path data d :
  tmp ≠ path →
  let '(d', o) := (_ ← wrapErr e1 (WriteFile faults tmp data); wrapErr e2 (Rename faults tmp path)) d in
  match o with
  | Ret _ => d' !! path = Some data
  | _ => d' !! path = d !! path
  end.
Proof.
  intros Hne. unfold wrapErr, WriteFile, Rename. io_step.
  destruct (writeFault faults) as [[e partial]|]; simpl; [by rewrite lookup_insert_ne|].
  destruct (renameFault faults); simpl; [by rewrite lookup_insert_ne|].
  rewrite lookup_insert_eq. by rewrite lookup_insert_eq.
Qed.
