(* ===== verification/GoPaths.v ===== *)
(** * Paths (Go's package path/filepath on Unix)

    [Clean], [Join] and [Abs] work on the elements between slashes: empty elements and
    dots disappear, and a dot-dot takes the element before it away, at the root of an
    absolute path nothing. *)

From Stdlib Require Import Ascii.
From stdpp Require Import strings numbers base sets list.
From S2P Require Import Prelude GoStrings.

(** ** Elements *)

Definition DOTDOT : string := "..".

(** One element after the elements [out], newest first. *)
Definition pathStep (rooted : bool) (out : list string) (e : string) : list string :=
  if decide (e = "" ∨ e = ".") then out
  else if decide (e = DOTDOT) then
    match out with
    | [] => if rooted then [] else [DOTDOT]
    | o :: rest => if decide (o = DOTDOT) then DOTDOT :: out else rest
    end
  else e :: out.

(** The elements of a clean path. *)
Definition cleanElems (rooted : bool) (elems : list string) : list string :=
  reverse (foldl (pathStep rooted) [] elems).

Definition isRooted (path : string) : bool :=
  match path with String a _ => bool_decide (a = SLASH) | "" => false end.

(** The text of a path with the given elements. *)
Definition pathOf (rooted : bool) (elems : list string) : string :=
  if rooted then String SLASH (GoStrings.Join elems "/")
  else match elems with [] => "." | _ => GoStrings.Join elems "/" end.

Definition Clean (path : string) : string :=
  pathOf (isRooted path) (cleanElems (isRooted path) (Split SLASH path)).

(** [filepath.Join]: empty arguments do not count. *)
Definition JoinPath (elems : list string) : string :=
  match filter (λ e, e ≠ "") elems with
  | [] => ""
  | l => Clean (GoStrings.Join l "/")
  end.

(** [filepath.Abs] in the working directory [wd], which may not be known. *)
Definition Abs (wd : outcome string) (path : string) : outcome string :=
  if isRooted path then Ret (Clean path) else d ← wd; Ret (JoinPath [d; path]).

(** ** Clean elements *)

(** An element that stands for itself. *)
Definition plainElem (e : string) : Prop := e ≠ "" ∧ e ≠ "." ∧ e ≠ DOTDOT ∧ hasByte SLASH e = false.

(** Clean elements: dot-dots first, none in a rooted path. *)
Definition cleanList (rooted : bool) (elems : list string) : Prop :=
  ∃ k rest, elems = replicate k DOTDOT ++ rest ∧ Forall plainElem rest ∧ (rooted = true → k = 0%nat).

(** The same for the reversed list that the steps build. *)
Definition cleanStack (rooted : bool) (out : list string) : Prop :=
  ∃ k rest, out = rest ++ replicate k DOTDOT ∧ Forall plainElem rest ∧ (rooted = true → k = 0%nat).

Lemma pathStep_clean rooted out e : hasByte SLASH e = false → cleanStack rooted out → cleanStack rooted (pathStep rooted out e).
Proof.
  intros He (k&rest&->&Hr&Hk). unfold pathStep. case_decide as H1; [by exists k, rest|]. case_decide as H2.
  - destruct rest as [|o rest]; simpl.
    + destruct k as [|k]; simpl.
      * destruct rooted; [by exists 0%nat, []|by exists 1%nat, []].
      * exists (S (S k)), []. split_and!; [done..|]. intros Hx. by specialize (Hk Hx).
    + apply Forall_cons in Hr as [(?&?&Hd&?) Hr]. rewrite decide_False by done. by exists k, rest.
  - exists k, (e :: rest). split; [done|]. split; [|done]. constructor; [|done]. unfold plainElem. naive_solver.
Qed.

Lemma cleanElems_clean rooted elems : Forall (λ e, hasByte SLASH e = false) elems → cleanList rooted (cleanElems rooted elems).
Proof.
  intros He. assert (cleanStack rooted (foldl (pathStep rooted) [] elems)) as (k&rest&E&Hr&Hk).
  { assert (cleanStack rooted []) as Hs by (by exists 0%nat, []). revert Hs. generalize (@nil string).
    induction He as [|e l He Hl IH]; intros out Hs; simpl; [done|]. by apply IH, pathStep_clean. }
  exists k, (reverse rest). unfold cleanElems. rewrite E, reverse_app, reverse_replicate. split_and!; [done| |done].
  by apply Forall_reverse.
Qed.

(** Steps over plain elements only add them. *)
Lemma steps_plain rooted l out : Forall plainElem l → foldl (pathStep rooted) out l = reverse l ++ out.
Proof.
  intros Hl. revert out. induction Hl as [|e l (H1&H2&H3&H4) Hl IH]; intros out; simpl; [done|].
  rewrite IH. unfold pathStep. rewrite decide_False, decide_False by naive_solver.
  by rewrite reverse_cons, <- app_assoc.
Qed.

(** Dot-dots take elements away, as long as there are some. *)
Lemma steps_dotdot k out : Forall plainElem out → foldl (pathStep true) out (replicate k DOTDOT) = drop k out.
Proof.
  revert out. induction k as [|k IH]; intros out Ho; simpl; [done|]. unfold pathStep at 2. rewrite decide_False, decide_True by naive_solver.
  destruct out as [|o out]; [by rewrite IH, drop_nil|]. apply Forall_cons in Ho as [(_&_&Hd&_) Ho].
  rewrite decide_False by done. by apply IH.
Qed.

Lemma steps_dotdot_rel k : foldl (pathStep false) [] (replicate k DOTDOT) = replicate k DOTDOT.
Proof.
  assert (∀ j, foldl (pathStep false) (replicate j DOTDOT) (replicate k DOTDOT) = replicate (k + j) DOTDOT) as H; [|pose proof (H 0%nat) as E; by rewrite Nat.add_0_r in E].
  induction k as [|k IH]; intros j; simpl; [done|]. unfold pathStep at 2. rewrite decide_False, decide_True by naive_solver.
  destruct j as [|j]; cbn [replicate]; [etrans; [apply (IH 1%nat)|by rewrite Nat.add_1_r, Nat.add_0_r]|].
  rewrite decide_True by done. etrans; [apply (IH (S (S j)))|]. by rewrite Nat.add_succ_r.
Qed.

(** Clean elements are their own clean form. *)
Lemma cleanElems_id rooted elems : cleanList rooted elems → cleanElems rooted elems = elems.
Proof.
  intros (k&rest&->&Hr&Hk). unfold cleanElems. rewrite foldl_app.
  replace (foldl (pathStep rooted) [] (replicate k DOTDOT)) with (replicate k DOTDOT).
  - rewrite steps_plain, reverse_app, reverse_involutive, reverse_replicate by done. done.
  - destruct rooted; [by rewrite (Hk eq_refl)|by rewrite steps_dotdot_rel].
Qed.

(** ** Texts of paths *)

Lemma Split_slash t : Split SLASH (String SLASH t) = "" :: Split SLASH t.
Proof. reflexivity. Qed.

Lemma Join_elems l : l ≠ [] → Forall (λ e, hasByte SLASH e = false) l → Split SLASH (GoStrings.Join l "/") = l.
Proof. intros Hne Hl. change "/" with (String SLASH ""). by apply Split_Join. Qed.

Lemma plain_noSlash e : plainElem e → hasByte SLASH e = false.
Proof. by intros (?&?&?&?). Qed.

Lemma cleanList_noSlash rooted l : cleanList rooted l → Forall (λ e, hasByte SLASH e = false) l.
Proof.
  intros (k&rest&->&Hr&_). apply Forall_app. split; [by apply Forall_replicate|].
  eapply Forall_impl; [done|]. apply plain_noSlash.
Qed.

Lemma cleanList_head rooted l e l' : cleanList rooted l → l = e :: l' → e ≠ "" ∧ hasByte SLASH e = false.
Proof.
  intros (k&rest&->&Hr&_) E. destruct k as [|k]; simpl in E; [|by simplify_eq].
  subst rest. apply Forall_cons in Hr as [(?&?&?&?) _]. done.
Qed.

(** The elements of the text of a path, read back. *)
Lemma elems_pathOf rooted l : cleanList rooted l →
  isRooted (pathOf rooted l) = rooted ∧ cleanElems rooted (Split SLASH (pathOf rooted l)) = l.
Proof.
  intros Hl. pose proof (cleanList_noSlash _ _ Hl) as Hn. destruct rooted; cbn [pathOf].
  - split; [done|]. change (cleanElems true (Split SLASH (String SLASH (GoStrings.Join l "/")))) with
      (cleanElems true ("" :: Split SLASH (GoStrings.Join l "/"))).
    change (cleanElems true ("" :: Split SLASH (GoStrings.Join l "/"))) with (cleanElems true (Split SLASH (GoStrings.Join l "/"))).
    destruct l as [|e l']; [done|]. rewrite Join_elems by done. by apply cleanElems_id.
  - destruct l as [|e l'] eqn:El; [done|]. rewrite <- El in *.
    assert (l ≠ []) as Hne by (by subst). rewrite Join_elems, (cleanElems_id _ _ Hl) by done. split; [|done].
    destruct (cleanList_head _ _ _ _ Hl El) as [He Hs]. subst l. clear -He Hs.
    destruct e as [|a e]; [done|]. simpl in Hs. apply orb_false_elim in Hs as [Ha _]. apply bool_decide_eq_false in Ha.
    destruct l'; simpl; by apply bool_decide_false.
Qed.

Lemma Clean_elems path : cleanList (isRooted path) (cleanElems (isRooted path) (Split SLASH path)).
Proof. apply cleanElems_clean, Split_pieces. Qed.

(** A clean path is not changed by [Clean]. *)
Lemma Clean_idem path : Clean (Clean path) = Clean path.
Proof.
  unfold Clean at 1. destruct (elems_pathOf _ _ (Clean_elems path)) as [H1 H2]. unfold Clean. by rewrite H1, H2.
Qed.

(** ** Absolute paths *)

(** A clean absolute path with the elements [l]. *)
Definition absPath (path : string) (l : list string) : Prop := path = pathOf true l ∧ Forall plainElem l.

Lemma rooted_plain l : cleanList true l → Forall plainElem l.
Proof. intros (k&rest&->&Hr&Hk). by rewrite (Hk eq_refl). Qed.

Lemma plain_cleanList l : Forall plainElem l → cleanList true l.
Proof. intros Hl. by exists 0%nat, l. Qed.

(** Appending a text of elements to an absolute path appends its elements. *)
Lemma Split_append root l name : absPath root l → l ≠ [] →
  Split SLASH (root +:+ String SLASH name) = "" :: l ++ Split SLASH name.
Proof.
  intros [-> Hl] Hne. cbn [pathOf]. rewrite app_cons, Split_slash. f_equal.
  assert (Forall (λ e, hasByte SLASH e = false) l) as Hn by (eapply Forall_impl; [done|apply plain_noSlash]). clear Hl.
  induction Hn as [|e l He Hn IH]; [done|]. destruct l as [|e' l]; [by apply Split_app|].
  change "/" with (String SLASH "") in *. rewrite Join_cons, app_assoc_str by done. rewrite app_cons, app_empty_l.
  rewrite app_cons. rewrite Split_app by done. simpl. f_equal. by apply IH.
Qed.

Lemma cleanElems_append root l name : absPath root l →
  cleanElems true (Split SLASH (root +:+ String SLASH name)) = cleanElems true (l ++ Split SLASH name).
Proof.
  intros Ha. destruct (decide (l = [])) as [->|Hne]; [destruct Ha as [-> _]; reflexivity|].
  by rewrite (Split_append _ _ _ Ha Hne).
Qed.

(** Steps from an absolute directory follow the steps of the relative path. *)
Lemma steps_from es : Forall (λ e, hasByte SLASH e = false) es →
  ∃ k rest, foldl (pathStep false) [] es = rest ++ replicate k DOTDOT ∧ Forall plainElem rest ∧
    ∀ base, Forall plainElem base → foldl (pathStep true) base es = rest ++ drop k base.
Proof.
  induction es as [|e es IH] using rev_ind; intros Hes; [by exists 0%nat, []|].
  apply Forall_app in Hes as [Hes He]. rewrite Forall_singleton in He. destruct (IH Hes) as (k&rest&E&Hr&Hb). clear IH.
  setoid_rewrite foldl_snoc. rewrite E. unfold pathStep at 1.
  destruct (decide (e = "" ∨ e = ".")) as [H1|H1].
  { exists k, rest. split_and!; [done..|]. intros base Hbase. rewrite (Hb base Hbase). unfold pathStep. by rewrite decide_True. }
  destruct (decide (e = DOTDOT)) as [->|H2].
  - destruct rest as [|o rest].
    + exists (S k), []. split_and!; [|done|].
      * simpl. destruct k; [done|]. simpl. done.
      * intros base Hbase. rewrite (Hb base Hbase). replace (drop (S k) base) with (drop 1 (drop k base)) by (rewrite drop_drop; f_equal; lia). unfold pathStep.
        destruct (drop k base) as [|o l] eqn:Ed; [done|].
        assert (plainElem o) as (_&_&Ho&_) by (apply (Forall_drop _ k) in Hbase; rewrite Ed in Hbase; by apply Forall_cons in Hbase as [? _]).
        rewrite decide_False, decide_True by done. cbn [app]. by rewrite decide_False.
    + apply Forall_cons in Hr as [(_&_&Ho&_) Hr]. exists k, rest. split_and!; [|done|].
      * simpl. by rewrite decide_False.
      * intros base Hbase. rewrite (Hb base Hbase). unfold pathStep. rewrite decide_False, decide_True by naive_solver.
        simpl. by rewrite decide_False.
  - exists k, (e :: rest). split_and!; [done| |].
    + constructor; [|done]. unfold plainElem. naive_solver.
    + intros base Hbase. rewrite (Hb base Hbase). unfold pathStep. by rewrite !decide_False.
Qed.

(** Joining a name to a directory: the dot-dots at the beginning of the cleaned name take
    elements of the directory away, and the rest is appended. *)
Lemma JoinPath_elems root l name : absPath root l → name ≠ "" →
  ∃ k rest, cleanElems false (Split SLASH name) = replicate k DOTDOT ++ rest ∧ Forall plainElem rest ∧
    absPath (JoinPath [root; name]) (take (length l - k) l ++ rest).
Proof.
  intros Ha Hname. destruct (steps_from (Split SLASH name) (Split_pieces _ _)) as (k&rest&E&Hr&Hb).
  exists k, (reverse rest). pose proof Ha as [Eroot Hl].
  assert (Forall plainElem (reverse l)) as Hrl by (by apply Forall_reverse).
  assert (Forall plainElem (take (length l - k) l ++ reverse rest)) as Hres.
  { apply Forall_app. split; [by apply Forall_take|by apply Forall_reverse]. }
  split_and!; [unfold cleanElems; by rewrite E, reverse_app, reverse_replicate|by apply Forall_reverse|]. split; [|done].
  unfold JoinPath. assert (root ≠ "") as Hroot by (by rewrite Eroot).
  replace (filter (λ e, e ≠ "") [root; name]) with [root; name].
  2:{ rewrite !filter_cons_True by done. by rewrite filter_nil. }
  change (GoStrings.Join [root; name] "/") with (root +:+ String SLASH name). unfold Clean.
  assert (isRooted (root +:+ String SLASH name) = true) as -> by (by rewrite Eroot).
  f_equal. rewrite (cleanElems_append _ _ _ Ha). unfold cleanElems.
  rewrite foldl_app, (steps_plain true l [] Hl), app_nil_r, (Hb _ Hrl), reverse_app. f_equal.
  by rewrite drop_reverse, reverse_involutive.
Qed.

(** A clean absolute path is read back as its elements. *)
Lemma absPath_elems path l : absPath path l →
  isRooted path = true ∧ cleanElems true (Split SLASH path) = l ∧ Clean path = path.
Proof.
  intros [-> Hl]. destruct (elems_pathOf true l (plain_cleanList _ Hl)) as [H1 H2]. unfold Clean. by rewrite H1, H2.
Qed.

Lemma absPath_ne path l : absPath path l → path ≠ "".
Proof. by intros [-> _]. Qed.

(** Joining plain elements to a directory. *)
Lemma JoinPath_plain root l name : absPath root l → plainElem name → absPath (JoinPath [root; name]) (l ++ [name]).
Proof.
  intros Ha Hn. pose proof Hn as (H1&H2&H3&H4). destruct (JoinPath_elems root l name Ha H1) as (k&rest&E&Hr&Hj).
  assert (cleanElems false (Split SLASH name) = [name]) as En.
  { rewrite Split_nosep by done. apply cleanElems_id. exists 0%nat, [name]. split_and!; [done|by constructor|done]. }
  rewrite En in E. destruct k as [|k]; simpl in E; [|by simplify_eq]. subst rest.
  by rewrite Nat.sub_0_r, take_ge in Hj by lia.
Qed.

Lemma absPath_append root l name : absPath root l → l ≠ [] → plainElem name → absPath (root +:+ "/" +:+ name) (l ++ [name]).
Proof.
  intros [-> Hl] Hne Hn. split; [|apply Forall_app; by split; [|constructor]]. cbn [pathOf].
  by rewrite Join_snoc.
Qed.

(** ** The last element *)

Lemma trimSlashes_empty s : trimSlashes s = "" → Forall (λ e, e = "") (Split SLASH s).
Proof.
  induction s as [|a s IH]; cbn [trimSlashes]; [by repeat constructor|]. destruct (trimSlashes s); [|done].
  case_decide; [|done]. intros _. subst. rewrite Split_slash. constructor; auto.
Qed.

Lemma Base_noSlash path l : absPath path l → l ≠ [] → hasByte SLASH (Base path) = false.
Proof.
  intros [-> Hl] Hne. unfold Base. rewrite decide_False by done.
  destruct (trimSlashes (pathOf true l)) as [|a t] eqn:E.
  - exfalso. apply trimSlashes_empty in E. cbn [pathOf] in E. rewrite Split_slash, Join_elems in E; [|done|].
    + apply Forall_cons in E as [_ E]. destruct Hl as [|e l (He&_) _]; [done|]. by apply Forall_cons in E as [? _].
    + eapply Forall_impl; [exact Hl|apply plain_noSlash].
  - pose proof (Split_pieces SLASH (String a t)) as Hp. destruct (last (Split SLASH (String a t))) as [x|] eqn:El; [|done].
    simpl. rewrite Forall_forall in Hp. apply Hp. by apply last_Some_elem_of.
Qed.

(** * Query strings (Go's package net/url)

    [url.QueryEscape] and its inverse on bytes, and [r.URL.Query().Get]. *)

Local Open Scope N_scope.
Definition PERCENT : ascii := "%".
Definition PLUS : ascii := "+".
Definition SPACE : ascii := " ".
Definition AMP : ascii := "&".
Definition SEMI : ascii := ";".
Definition EQUALS : ascii := "=".
Definition QUESTION : ascii := "?".

Definition upperhex (n : N) : ascii := ascii_of_N (if n <? 10 then 48 + n else 55 + n).

Definition unhex (a : ascii) : option N :=
  let c := N_of_ascii a in
  if (48 <=? c) && (c <=? 57) then Some (c - 48)
  else if (97 <=? c) && (c <=? 102) then Some (c - 87)
  else if (65 <=? c) && (c <=? 70) then Some (c - 55)
  else None.

(** The bytes of a query component that stand for themselves. *)
Definition unreserved (a : ascii) : bool :=
  let c := N_of_ascii a in
  ((97 <=? c) && (c <=? 122)) || ((65 <=? c) && (c <=? 90)) || ((48 <=? c) && (c <=? 57))
  || bool_decide (a = "-"%char ∨ a = "_"%char ∨ a = "."%char ∨ a = "~"%char).

Definition escapeByte (a : ascii) : string :=
  if unreserved a then String a ""
  else if decide (a = SPACE) then String PLUS ""
  else String PERCENT (String (upperhex (N_of_ascii a / 16)) (String (upperhex (N_of_ascii a mod 16)) "")).

Fixpoint QueryEscape (s : string) : string :=
  match s with "" => "" | String a r => escapeByte a +:+ QueryEscape r end.

(** [None] is an [EscapeError]. *)
Fixpoint QueryUnescape (s : string) : option string :=
  match s with
  | "" => Some ""
  | String a r =>
      if decide (a = PERCENT) then
        match r with
        | String h (String l r') =>
            match unhex h, unhex l, QueryUnescape r' with
            | Some x, Some y, Some t => Some (String (ascii_of_N (x * 16 + y)) t)
            | _, _, _ => None
            end
        | _ => None
        end
      else option_map (String (if decide (a = PLUS) then SPACE else a)) (QueryUnescape r)
  end.

(** One [key=value] of a query; pieces that do not parse are left out. *)
Definition parsePair (piece : string) : option (string * string) :=
  if hasByte SEMI piece || bool_decide (piece = "") then None
  else
    let '(k, v) := match SplitN2 EQUALS piece with Some (k, v) => (k, v) | None => (piece, "") end in
    match QueryUnescape k, QueryUnescape v with Some k', Some v' => Some (k', v') | _, _ => None end.

(** [r.URL.Query().Get(key)] *)
Definition QueryGet (rawQuery key : string) : string :=
  match filter (λ kv, kv.1 = key) (omap parsePair (Split AMP rawQuery)) with
  | (_, v) :: _ => v
  | [] => ""
  end.

(** The query of a URL. *)
Definition rawQuery (url : string) : string :=
  match SplitN2 QUESTION url with Some (_, q) => q | None => "" end.

(** ** Round trip *)

Lemma unescape_escapeByte a t : QueryUnescape (escapeByte a +:+ t) = option_map (String a) (QueryUnescape t).
Proof. destruct a as [[] [] [] [] [] [] [] []]; reflexivity. Qed.

Lemma QueryUnescape_QueryEscape s : QueryUnescape (QueryEscape s) = Some s.
Proof. induction s as [|a s IH]; [done|]. cbn [QueryEscape]. by rewrite unescape_escapeByte, IH. Qed.

(** Bytes with a meaning in a query do not occur in an escaped text. *)
Lemma hasByte_QueryEscape c s : c ∈ [SEMI; AMP; EQUALS; QUESTION] → hasByte c (QueryEscape s) = false.
Proof.
  intros Hc. induction s as [|a s IH]; [done|]. cbn [QueryEscape]. rewrite hasByte_app, IH, orb_false_r.
  repeat (apply elem_of_cons in Hc as [->|Hc]; [destruct a as [[] [] [] [] [] [] [] []]; reflexivity|]). by apply elem_of_nil in Hc.
Qed.

(** A parameter of a query is read back as it was escaped. *)
Lemma QueryGet_QueryEscape path key value :
  hasByte QUESTION path = false → key ≠ "" → QueryUnescape key = Some key → Forall (λ c, hasByte c key = false) [SEMI; AMP; EQUALS] →
  QueryGet (rawQuery (path +:+ String QUESTION (key +:+ String EQUALS (QueryEscape value)))) key = value.
Proof.
  intros Hp Hne Hk Hks. rewrite !Forall_cons in Hks. destruct Hks as (Hks&Hka&Hke&_). unfold rawQuery. rewrite SplitN2_app by done.
  set (piece := key +:+ String EQUALS (QueryEscape value)).
  assert (∀ c, c ∈ [SEMI; AMP] → hasByte c piece = false) as Hpc.
  { intros c Hc. unfold piece. rewrite hasByte_app. cbn [hasByte]. rewrite (hasByte_QueryEscape c) by set_solver.
    repeat (apply elem_of_cons in Hc as [->|Hc]; [rewrite ?Hks, ?Hka; reflexivity|]). by apply elem_of_nil in Hc. }
  unfold QueryGet. rewrite Split_nosep by (apply Hpc; set_solver). cbn [omap list_omap].
  unfold parsePair. rewrite (Hpc SEMI) by set_solver.
  assert (bool_decide (piece = "") = false) as -> by (apply bool_decide_eq_false; unfold piece; by destruct key).
  cbn [orb]. unfold piece. rewrite SplitN2_app by done. rewrite Hk, QueryUnescape_QueryEscape. by rewrite filter_cons_True.
Qed.
