(* ===== verification/GoSort.v ===== *)
(** * Sorting with package sort

    [sort.Slice] is the stable insertion sort that Go uses for short slices; for longer
    ones its order of elements that compare equal is not specified.  Where the
    comparison is total the result is the same for every sorting algorithm, as
    [sortBy_unique] shows. *)

From Stdlib Require Import Sorted.
From stdpp Require Import base list.
From S2P Require Import Prelude.

Section sorting.
Context {A : Type} (less : A → A → bool).

Fixpoint insertBy (x : A) (l : list A) : list A :=
  match l with
  | [] => [x]
  | y :: l' => if less x y then x :: l else y :: insertBy x l'
  end.

(** [sort.Slice] and [sort.SliceStable] *)
Definition sortBy (l : list A) : list A := foldl (λ acc x, insertBy x acc) [] l.

Lemma insertBy_Permutation x l : insertBy x l ≡ₚ x :: l.
Proof.
  induction l as [|y l IH]; [done|]. simpl. destruct (less x y); [done|].
  rewrite IH. apply Permutation_swap.
Qed.

Lemma foldl_insertBy_Permutation l acc : foldl (λ acc x, insertBy x acc) acc l ≡ₚ acc ++ l.
Proof.
  revert acc. induction l as [|x l IH]; intros acc; simpl; [by rewrite app_nil_r|].
  rewrite IH, insertBy_Permutation. by rewrite <- Permutation_middle.
Qed.

Lemma sortBy_Permutation l : sortBy l ≡ₚ l.
Proof. apply foldl_insertBy_Permutation. Qed.

Definition notAfter (x y : A) : Prop := less y x = false.

(** [less] orders the elements of [P] strictly and its complement is transitive on them. *)
Section sorted.
Variable P : A → Prop.
Hypothesis less_asym : ∀ x y, P x → P y → less x y = true → less y x = false.
Hypothesis less_trans : ∀ x y z, P x → P y → P z → less y x = false → less z y = false → less z x = false.

Lemma insertBy_sorted x l : P x → Forall P l → StronglySorted notAfter l → StronglySorted notAfter (insertBy x l).
Proof.
  intros Hx Hl Hs. induction Hs as [|y l Hs IH Hy]; simpl; [by repeat constructor|].
  apply Forall_cons in Hl as [Py Hl]. destruct (less x y) eqn:E.
  - constructor; [by constructor|]. constructor; [by apply less_asym|].
    rewrite Forall_forall in *. intros z Hz. apply (less_trans x y z); auto. apply (Hy z Hz).
  - constructor; [by apply IH|]. rewrite insertBy_Permutation. by constructor.
Qed.

Lemma sortBy_sorted l : Forall P l → StronglySorted notAfter (sortBy l).
Proof.
  unfold sortBy. assert (StronglySorted notAfter [] ∧ Forall P []) as H by (split; constructor). revert H.
  generalize (@nil A). induction l as [|x l IH]; intros acc [Hs Ha] Hl; simpl; [done|].
  apply Forall_cons in Hl as [Hx Hl]. apply IH; [|done]. split; [by apply insertBy_sorted|].
  rewrite insertBy_Permutation. by constructor.
Qed.
End sorted.

(** Two sorted lists of the same elements are equal when equivalent elements are. *)
Lemma sorted_unique l l' : (∀ x y, x ∈ l → y ∈ l → less x y = false → less y x = false → x = y) →
  StronglySorted notAfter l → StronglySorted notAfter l' → l ≡ₚ l' → l = l'.
Proof.
  revert l'. induction l as [|x l IH]; intros l' Ht Hs Hs' Hp; [by apply Permutation_nil_l in Hp|].
  destruct l' as [|y l']; [by apply Permutation_nil_r in Hp|].
  apply StronglySorted_inv in Hs as [Hs Hx], Hs' as [Hs' Hy].
  assert (x = y) as ->.
  { assert (y ∈ x :: l) as [->|Hyl]%elem_of_cons by (rewrite Hp; by left); [done|].
    assert (x ∈ y :: l') as [->|Hxl]%elem_of_cons by (rewrite <- Hp; by left); [done|].
    rewrite Forall_forall in Hx, Hy. apply Ht; [by left|by right|by apply Hy|by apply Hx]. }
  f_equal. apply IH; [|done..|by eapply Permutation_cons_inv]. intros a b Ha Hb. apply Ht; by right.
Qed.
End sorting.

(** With a total comparison the order of the input does not matter. *)
Lemma sortBy_unique {A} (less : A → A → bool) l l' :
  (∀ x y, x ∈ l → y ∈ l → less x y = true → less y x = false) →
  (∀ x y z, x ∈ l → y ∈ l → z ∈ l → less y x = false → less z y = false → less z x = false) →
  (∀ x y, x ∈ l → y ∈ l → less x y = false → less y x = false → x = y) →
  l ≡ₚ l' → sortBy less l = sortBy less l'.
Proof.
  intros Ha Ht Htot Hp. apply (sorted_unique less); [| | |by rewrite !sortBy_Permutation].
  - intros x y Hx Hy. rewrite sortBy_Permutation in Hx, Hy. by apply Htot.
  - apply (sortBy_sorted less (λ x, x ∈ l)); [done..|]. by apply Forall_forall.
  - apply (sortBy_sorted less (λ x, x ∈ l)); [done..|]. rewrite <- Hp. by apply Forall_forall.
Qed.
