(* ===== verification/GoFloat.v ===== *)
(** * Floats that come from rational numbers

    [Rat.Float64] of math/big rounds a rational number to the nearest binary64 number.  The
    comparisons of numbers that are not NaN are those of a total order, whichever way the numbers
    are represented. *)

From Stdlib Require Import SpecFloat.
From stdpp Require Import numbers base list.
From S2P Require Import Prelude.
Local Open Scope Z_scope.

Definition notNaN (x : spec_float) : Prop := x ≠ S754_nan.

(** The quotient of two positive numbers, rounded to the nearest even number. *)
Definition ratRound (s : bool) (n d : positive) : spec_float :=
  let '(q, e, l) := SFdiv_core_binary 53 1024 (Zpos n) 0 (Zpos d) 0 in
  binary_round_aux 53 1024 s q e l.

(** [Float64] of the rational number [n / d]; [d] is not 0. *)
Definition ratFloat64 (n d : Z) : spec_float :=
  match n, d with
  | Z0, _ | _, Z0 => S754_zero false
  | Zpos n, Zpos d | Zneg n, Zneg d => ratRound false n d
  | Zpos n, Zneg d | Zneg n, Zpos d => ratRound true n d
  end.

(** ** No NaN *)

Lemma shr_1_nonneg r : 0 ≤ shr_m r → 0 ≤ shr_m (shr_1 r).
Proof. destruct r as [[|[p|p|]|[p|p|]] r s]; simpl; lia. Qed.

Lemma iter_shr_nonneg p r : 0 ≤ shr_m r → 0 ≤ shr_m (SpecFloat.iter_pos shr_1 p r).
Proof. revert r. induction p as [p IH|p IH|]; simpl; intros r Hr; eauto using shr_1_nonneg. Qed.

Lemma shr_fexp_nonneg m e l : 0 ≤ m → 0 ≤ shr_m (shr_fexp 53 1024 m e l).1.
Proof.
  intros Hm. unfold shr_fexp, shr. assert (0 ≤ shr_m (shr_record_of_loc m l)) by (by destruct l as [|[]]).
  destruct (_ - e); simpl; eauto using iter_shr_nonneg.
Qed.

Lemma binary_round_aux_notNaN s m e l : 0 ≤ m → notNaN (binary_round_aux 53 1024 s m e l).
Proof.
  intros Hm. unfold binary_round_aux. pose proof (shr_fexp_nonneg m e l Hm) as H1.
  destruct (shr_fexp 53 1024 m e l) as [r1 e1]; simpl in H1.
  assert (0 ≤ round_nearest_even (shr_m r1) (loc_of_shr_record r1)) as H2.
  { unfold round_nearest_even. destruct (loc_of_shr_record r1) as [|[]]; try destruct (Z.even _); lia. }
  pose proof (shr_fexp_nonneg _ e1 loc_Exact H2) as H3.
  destruct (shr_fexp 53 1024 _ e1 loc_Exact) as [r2 e2]; simpl in H3. destruct (shr_m r2); [done| |lia].
  by destruct (e2 <=? _).
Qed.

Lemma div_core_nonneg n d : 0 ≤ (SFdiv_core_binary 53 1024 (Zpos n) 0 (Zpos d) 0).1.1.
Proof.
  unfold SFdiv_core_binary. set (m' := match _ with Z0 => _ | Zpos _ => _ | Zneg _ => _ end).
  assert (0 ≤ m') as Hm.
  { unfold m'. destruct (_ - _); [lia| |lia]. apply Z.shiftl_nonneg. lia. }
  pose proof (Z_div_pos m' (Zpos d)) as Hq. unfold Z.div in Hq. destruct (Z.div_eucl m' (Zpos d)) as [q r]. simpl. lia.
Qed.

Lemma ratFloat64_notNaN n d : notNaN (ratFloat64 n d).
Proof.
  assert (∀ s n d, notNaN (ratRound s n d)) as H.
  { intros s p q. unfold ratRound. pose proof (div_core_nonneg p q). destruct (SFdiv_core_binary _ _ _ _ _ _) as [[m e] l].
    by apply binary_round_aux_notNaN. }
  destruct n, d; simpl; auto; done.
Qed.

(** ** The order *)

(** A number is placed by its sign, exponent and mantissa. *)
Definition fkey (x : spec_float) : Z * Z * Z :=
  match x with
  | S754_zero _ | S754_nan => (0, 0, 0)
  | S754_infinity s => (if s then -2 else 2, 0, 0)
  | S754_finite false m e => (1, e, Zpos m)
  | S754_finite true m e => (-1, - e, Zneg m)
  end.

Definition keyLt (a b : Z * Z * Z) : Prop :=
  a.1.1 < b.1.1 ∨ (a.1.1 = b.1.1 ∧ (a.1.2 < b.1.2 ∨ (a.1.2 = b.1.2 ∧ a.2 < b.2))).

Lemma SFcompare_key x y : notNaN x → notNaN y →
  match SFcompare x y with
  | Some Lt => keyLt (fkey x) (fkey y)
  | Some Gt => keyLt (fkey y) (fkey x)
  | Some Eq => fkey x = fkey y
  | None => False
  end.
Proof.
  intros Hx Hy. unfold keyLt.
  destruct x as [s|s| |s m e], y as [s'|s'| |s' m' e'];
    try (by destruct (Hx eq_refl)); try (by destruct (Hy eq_refl));
    try destruct s; try destruct s'; simpl; try lia; try done;
    destruct (Z.compare_spec e e') as [->|?|?]; simpl; try lia;
    change (Pos.compare_cont Eq m m') with (m ?= m')%positive;
    destruct (Pos.compare_spec m m') as [->|?|?]; simpl; try lia; done.
Qed.

Lemma SFltb_key x y : notNaN x → notNaN y → SFltb x y = true ↔ keyLt (fkey x) (fkey y).
Proof.
  intros Hx Hy. pose proof (SFcompare_key x y Hx Hy) as H. unfold SFltb, keyLt in *.
  destruct (SFcompare x y) as [[]|]; split; try done; intros; try lia; rewrite H in *; lia.
Qed.

Lemma SFeqb_key x y : notNaN x → notNaN y → SFeqb x y = true ↔ fkey x = fkey y.
Proof.
  intros Hx Hy. pose proof (SFcompare_key x y Hx Hy) as H. unfold SFeqb, keyLt in *.
  destruct (SFcompare x y) as [[]|]; split; try done; intros E; rewrite E in *; lia.
Qed.

(** Less or equal is not greater. *)
Lemma SFleb_ltb x y : notNaN x → notNaN y → SFleb x y = negb (SFltb y x).
Proof.
  intros Hx Hy. pose proof (SFcompare_key x y Hx Hy) as H. pose proof (SFcompare_key y x Hy Hx) as H'.
  unfold SFleb, SFltb, keyLt in *. destruct (SFcompare x y) as [[]|], (SFcompare y x) as [[]|]; try done; simpl;
    try (rewrite H in *); try (rewrite H' in *); lia.
Qed.
