(* ===== verification/GoLru.v ===== *)
(** * Caches (hashicorp/golang-lru)

    The interface of the caches that the chain store and the message pool use. *)

From stdpp Require Import base list.

(** A lookup marks the entry as used; an entry can be dropped at any time, but none appears that
    was not added. *)
Class LruCache := {
  lru : Type → Type → Type;
  lruNew {K V} : lru K V;
  lruGet {K V} `{EqDecision K} : lru K V → K → option V * lru K V;
  lruAdd {K V} `{EqDecision K} : lru K V → K → V → lru K V;
  lruHolds {K V} : lru K V → K → V → Prop;
  lruNew_holds {K V} (k : K) (v : V) : ¬ lruHolds lruNew k v;
  lruGet_some {K V} `{EqDecision K} (c : lru K V) k v : (lruGet c k).1 = Some v → lruHolds c k v;
  lruGet_holds {K V} `{EqDecision K} (c : lru K V) k k' v' : lruHolds (lruGet c k).2 k' v' → lruHolds c k' v';
  lruAdd_holds {K V} `{EqDecision K} (c : lru K V) k v k' v' :
    lruHolds (lruAdd c k v) k' v' → (k' = k ∧ v' = v) ∨ lruHolds c k' v'
}.

(** ** A small cache *)

(** A list of at most three entries, the last added first. *)
Fixpoint listGet {K V} `{EqDecision K} (c : list (K * V)) (k : K) : option V :=
  match c with
  | [] => None
  | (k', v) :: c' => if decide (k = k') then Some v else listGet c' k
  end.

Lemma listGet_elem {K V} `{EqDecision K} (c : list (K * V)) k v : listGet c k = Some v → (k, v) ∈ c.
Proof.
  induction c as [|[k' v'] c IH]; simpl; [done|]. case_decide; [intros [= ->]; subst; by left|].
  intros ?. right. by apply IH.
Qed.

Definition listCache : LruCache.
Proof.
  refine {| lru K V := list (K * V); lruNew K V := []; lruGet K V _ c k := (listGet c k, c);
            lruAdd K V _ c k v := take 3 ((k, v) :: c); lruHolds K V c k v := (k, v) ∈ c |}.
  - intros K V k v. apply not_elem_of_nil.
  - intros K V ? c k v. apply listGet_elem.
  - done.
  - intros K V ? c k v k' v' Hin. apply (subseteq_take 3) in Hin. apply elem_of_cons in Hin as [[= -> ->]|?]; auto.
Defined.
