(* ===== verification/GoTree.v ===== *)
(** * Directories and files (Go's package os)

    A file system as a map from the elements of a clean absolute path to files and
    directories, and the calls on it that the HTTP API makes, with the failures that the
    operating system may report.  There are no symbolic links and no other processes. *)

From Stdlib Require Import Ascii.
From stdpp Require Import strings numbers base gmap fin_maps sets list.
From S2P Require Import Prelude GoStrings GoPaths GoSort.
Local Open Scope Z_scope.

(** A file with its bytes and a directory, each with the time of its last change. *)
Inductive node := NFile (data : string) (mtime : Z) | NDir (dirSize mtime : Z).

Abbreviation Tree := (gmap (list string) node).

Record FileInfo := mkFileInfo { infoIsDir : bool; infoSize : Z; infoModTime : Z }.

Definition infoOf (n : node) : FileInfo :=
  match n with
  | NFile data mtime => mkFileInfo false (Z.of_nat (String.length data)) mtime
  | NDir size mtime => mkFileInfo true size mtime
  end.

(** What a run finds: the working directory, the clock, the size of a new directory, the
    random part of temporary names, and the calls that fail.  [writeFails] has what was
    written by then, and [keeps] the paths that [os.RemoveAll] cannot remove. *)
Record Os := mkOs {
  cwd : string; clock : Z; newDirSize : Z; random : string;
  getwdFails : option string; statFails : list string → option string;
  openFails : list string → option string; readFails : list string → option string;
  mkdirFails : list string → option string; renameFails : option string;
  createFails : option string; writeFails : option (string * string); closeFails : option string;
  keeps : list string → bool
}.

Definition goodOs (wd : string) (now : Z) (rnd : string) : Os :=
  mkOs wd now 4096 rnd None (λ _, None) (λ _, None) (λ _, None) (λ _, None) None None None None (λ _, false).

(** The first [n] bytes. *)
Fixpoint takeBytes (n : Z) (s : string) : string :=
  match s with
  | "" => ""
  | String a r => if decide (n ≤ 0) then "" else String a (takeBytes (n - 1) r)
  end.

Section os.
Variable os : Os.

Definition raise {A} (fault : option string) (m : io Tree A) : io Tree A :=
  match fault with Some e => fail e | None => m end.

(** The place that a path names. *)
Definition locate (path : string) : list string :=
  cleanElems true (Split SLASH (if isRooted path then path else cwd os +:+ String SLASH path)).

Definition Getwd : outcome string := match getwdFails os with Some e => Fail e | None => Ret (cwd os) end.

Definition ENOENT : string := "no such file or directory".

Definition Stat (path : string) : io Tree FileInfo :=
  raise (statFails os (locate path)) (λ t,
    (t, match t !! locate path with Some n => Ret (infoOf n) | None => Fail ENOENT end)).

(** The entries of a directory, and [os.ReadDir], which sorts them by name. *)
Definition childOf (dir k : list string) : option string :=
  match last k with
  | Some name => if decide (k = dir ++ [name]) then Some name else None
  | None => None
  end.

Definition children (t : Tree) (dir : list string) : list (string * node) :=
  omap (λ kn, name ← childOf dir kn.1; Some (name, kn.2)) (map_to_list t).

Definition isDirAt (t : Tree) (k : list string) : bool :=
  match t !! k with Some (NDir _ _) => true | _ => false end.

Definition ReadDir (path : string) : io Tree (list (string * node)) :=
  raise (readFails os (locate path)) (λ t,
    (t, if isDirAt t (locate path) then Ret (sortBy (λ a b, ltb a.1 b.1) (children t (locate path)))
        else Fail "not a directory")).

(** [os.Open] and reading at most [n] bytes. *)
Definition Open (path : string) : io Tree node :=
  raise (openFails os (locate path)) (λ t,
    (t, match t !! locate path with Some n => Ret n | None => Fail ENOENT end)).

Definition ReadLimited (path : string) (n : Z) (file : node) : io Tree string :=
  raise (readFails os (locate path))
    (match file with NFile data _ => mret (takeBytes n data) | NDir _ _ => fail "is a directory" end).

Definition newDir : node := NDir (newDirSize os) (clock os).

(** [os.MkdirAll]: the directories on the way that are missing. *)
Fixpoint mkdirs (done rest : list string) : io Tree unit := λ t,
  let go := match rest with [] => mret tt | e :: rest' => mkdirs (done ++ [e]) rest' end in
  match t !! done with
  | Some (NDir _ _) => go t
  | Some (NFile _ _) => (t, Fail "not a directory")
  | None => match mkdirFails os done with Some e => (t, Fail e) | None => go (<[done := newDir]> t) end
  end.

Definition MkdirAll (path : string) : io Tree unit := mkdirs [] (locate path).

Definition parent (k : list string) : list string := take (length k - 1) k.

(** [os.MkdirTemp], with the name that it tries last. *)
Definition MkdirTemp (dir pattern : string) : io Tree string := λ t,
  let path := dir +:+ "/" +:+ pattern +:+ random os in
  match mkdirFails os (locate path) with
  | Some e => (t, Fail e)
  | None =>
      match t !! locate path with
      | Some _ => (t, Fail "file exists")
      | None => if isDirAt t (parent (locate path)) then (<[locate path := newDir]> t, Ret path) else (t, Fail ENOENT)
      end
  end.

(** [os.RemoveAll] in a [defer], its error dropped. *)
Definition RemoveAll (path : string) (t : Tree) : Tree :=
  filter (λ kn, ¬ (locate path `prefix_of` kn.1) ∨ keeps os kn.1 = true) t.

(** Everything at or below [old], at or below [new]. *)
Definition moveTree (old new : list string) (t : Tree) : Tree :=
  filter (λ kn, ¬ (old `prefix_of` kn.1)) t ∪
  list_to_map (omap (λ kn, if decide (old `prefix_of` kn.1) then Some (new ++ drop (length old) kn.1, kn.2) else None) (map_to_list t)).

(** [os.Rename] *)
Definition Rename (old new : string) : io Tree unit :=
  raise (renameFails os) (λ t,
    match t !! locate old with
    | None => (t, Fail ENOENT)
    | Some n =>
        if negb (isDirAt t (parent (locate new))) then (t, Fail ENOENT)
        else match n, t !! locate new with
             | NFile _ _, Some (NDir _ _) => (t, Fail "file exists")
             | NFile _ _, _ => (<[locate new := n]> (delete (locate old) t), Ret tt)
             | NDir _ _, Some _ => (t, Fail "file exists")
             | NDir _ _, None => (moveTree (locate old) (locate new) t, Ret tt)
             end
    end).

(** [os.Create] makes an empty file; [io.Copy] then fills it. *)
Definition Create (path : string) : io Tree unit :=
  raise (createFails os) (λ t,
    if negb (isDirAt t (parent (locate path))) then (t, Fail ENOENT)
    else if isDirAt t (locate path) then (t, Fail "is a directory")
    else (<[locate path := NFile "" (clock os)]> t, Ret tt)).

Definition Copy (dst : string) (src : node) : io Tree unit := λ t,
  match src with
  | NDir _ _ => (t, Fail "is a directory")
  | NFile data _ =>
      match writeFails os with
      | Some (e, written) => (<[locate dst := NFile written (clock os)]> t, Fail e)
      | None => (<[locate dst := NFile data (clock os)]> t, Ret tt)
      end
  end.

Definition CloseFile : io Tree unit := raise (closeFails os) (mret tt).

(** ** Facts *)

Lemma childOf_Some dir k name : childOf dir k = Some name ↔ k = dir ++ [name].
Proof.
  unfold childOf. split.
  - destruct (last k); [|done]. case_decide; naive_solver.
  - intros ->. rewrite last_snoc. by rewrite decide_True.
Qed.

Lemma elem_of_children t dir name n : (name, n) ∈ children t dir ↔ t !! (dir ++ [name]) = Some n.
Proof.
  unfold children. rewrite list_elem_of_omap. split.
  - intros ([k n']&Hin&E). simpl in E. apply bind_Some in E as (name'&E&[= -> ->]). apply childOf_Some in E as ->.
    by apply elem_of_map_to_list in Hin.
  - intros Ht. exists (dir ++ [name], n). split; [by apply elem_of_map_to_list|]. simpl.
    assert (childOf dir (dir ++ [name]) = Some name) as -> by (by apply childOf_Some). done.
Qed.

Lemma NoDup_children t dir : NoDup (children t dir).*1.
Proof.
  unfold children. pose proof (NoDup_fst_map_to_list t) as Hnd.
  induction (map_to_list t) as [|[k n] l IH]; [constructor|]. simpl in Hnd. apply NoDup_cons in Hnd as [Hk Hnd]. simpl.
  destruct (childOf dir k) as [name|] eqn:E; simpl; [|by apply IH]. constructor; [|by apply IH].
  apply childOf_Some in E as ->. intros Hin. apply Hk. apply list_elem_of_fmap in Hin as ([name' n']&->&Hin).
  apply list_elem_of_omap in Hin as ([k' m]&Hin&E). simpl in E. apply bind_Some in E as (x&E&[= -> ->]).
  apply childOf_Some in E as ->. apply list_elem_of_fmap. by exists (dir ++ [name'], n').
Qed.

Lemma takeBytes_length n s : 0 ≤ n → Z.of_nat (String.length (takeBytes n s)) = Z.min n (Z.of_nat (String.length s)).
Proof.
  revert n. induction s as [|a s IH]; intros n Hn; cbn [takeBytes String.length]; [lia|]. case_decide; simpl; [lia|].
  rewrite !Nat2Z.inj_succ, IH by lia. lia.
Qed.

Lemma takeBytes_all n s : Z.of_nat (String.length s) ≤ n → takeBytes n s = s.
Proof.
  revert n. induction s as [|a s IH]; intros n Hn; [done|]. cbn [takeBytes String.length] in *. rewrite decide_False by lia.
  f_equal. apply IH. lia.
Qed.

(** ** What the calls leave alone *)

Lemma locate_absPath path l : absPath path l → locate path = l.
Proof. intros Ha. destruct (absPath_elems _ _ Ha) as (Hr&He&_). unfold locate. by rewrite Hr. Qed.

(** [os.MkdirAll] only adds directories on the way. *)
Lemma mkdirs_spec rest don t t' o : mkdirs don rest t = (t', o) →
  (∀ k, ¬ (k `prefix_of` don ++ rest) → t' !! k = t !! k) ∧ (∀ k n, t !! k = Some n → t' !! k = Some n).
Proof.
  revert don t. induction rest as [|e rest IH]; intros don t; cbn [mkdirs]; rewrite ?app_nil_r.
  - destruct (t !! don) as [[]|] eqn:Et; [by intros [= <- <-]..|].
    destruct (mkdirFails os don); [by intros [= <- <-]|]. intros [= <- <-]. split.
    + intros k Hk. rewrite lookup_insert_ne; [done|]. intros ->. by apply Hk.
    + intros k n Hk. rewrite lookup_insert_ne; [done|]. intros ->. congruence.
  - assert ((don ++ [e]) ++ rest = don ++ e :: rest) as El by (by rewrite <- app_assoc).
    destruct (t !! don) as [[]|] eqn:Et; [by intros [= <- <-]|intros H; apply IH in H; by rewrite El in H|].
    destruct (mkdirFails os don); [by intros [= <- <-]|]. intros (H1&H2)%IH. rewrite El in *. split.
    + intros k Hk. rewrite H1 by done. rewrite lookup_insert_ne; [done|]. intros ->. apply Hk. by eexists.
    + intros k n Hk. apply H2. rewrite lookup_insert_ne; [done|]. intros ->. congruence.
Qed.

Lemma isDirAt_true t k : isDirAt t k = true ↔ ∃ size mtime, t !! k = Some (NDir size mtime).
Proof. unfold isDirAt. destruct (t !! k) as [[]|]; naive_solver. Qed.

(** Afterwards all of them are there. *)
Lemma mkdirs_dirs rest don t t' u : mkdirs don rest t = (t', Ret u) →
  ∀ k, don `prefix_of` k → k `prefix_of` don ++ rest → isDirAt t' k = true.
Proof.
  revert don t. induction rest as [|e rest IH]; intros don t Hm k H1 H2; cbn [mkdirs] in Hm.
  - unfold mret, io_ret in Hm. rewrite app_nil_r in H2. assert (k = don) as -> by (by apply (anti_symm prefix)). apply isDirAt_true.
    destruct (t !! don) as [[]|] eqn:Et; [done|simplify_eq/=; eauto|]. destruct (mkdirFails os don); simplify_eq/=.
    rewrite lookup_insert_eq. unfold newDir. eauto.
  - assert (∃ t1, mkdirs (don ++ [e]) rest t1 = (t', Ret u) ∧ isDirAt t1 don = true) as (t1&Hm1&Hd).
    { destruct (t !! don) as [[]|] eqn:Et; [done|exists t; split; [done|]; apply isDirAt_true; eauto|].
      destruct (mkdirFails os don); [done|]. eexists. split; [done|]. unfold isDirAt. by rewrite lookup_insert_eq. }
    destruct H1 as [[|e' x] ->].
    + rewrite app_nil_r. apply isDirAt_true in Hd as (sz&mt&Hd). apply isDirAt_true. exists sz, mt. by eapply mkdirs_spec.
    + apply prefix_app_inv in H2. apply prefix_cons_inv_1 in H2 as Ee. apply prefix_cons_inv_2 in H2. subst e'.
      apply (IH _ _ Hm1); [exists x; by rewrite <- app_assoc|]. rewrite <- !app_assoc. by apply prefix_app, prefix_cons.
Qed.

(** Where all of them are there, nothing changes. *)
Lemma mkdirs_id rest don t : (∀ k, don `prefix_of` k → k `prefix_of` don ++ rest → isDirAt t k = true) → mkdirs don rest t = (t, Ret tt).
Proof.
  revert don. induction rest as [|e rest IH]; intros don Hd; cbn [mkdirs];
    (assert (isDirAt t don = true) as (sz&mt&->)%isDirAt_true by (apply Hd; [done|by eexists])); [done|].
  apply IH. intros k H1 H2. apply Hd; [by eapply prefix_app_l|]. by rewrite <- app_assoc in H2.
Qed.

(** It succeeds where every name on the way is free or a directory. *)
Lemma mkdirs_total rest don t : (∀ k, mkdirFails os k = None) →
  (∀ k, k `prefix_of` don ++ rest → ∀ data mtime, t !! k ≠ Some (NFile data mtime)) → ∃ t', mkdirs don rest t = (t', Ret tt).
Proof.
  intros Hf. revert don t. induction rest as [|e rest IH]; intros don t Ht; cbn [mkdirs].
  - destruct (t !! don) as [[]|] eqn:Et; [|by eexists|rewrite Hf; by eexists]. exfalso. eapply (Ht don); [|done]. by eexists.
  - assert ((don ++ [e]) ++ rest = don ++ e :: rest) as El by (by rewrite <- app_assoc).
    destruct (t !! don) as [[]|] eqn:Et.
    + exfalso. eapply (Ht don); [by eexists|done].
    + apply IH. by rewrite El.
    + rewrite Hf. apply IH. rewrite El. intros k Hk data mtime. rewrite lookup_insert. case_decide; [done|by apply Ht].
Qed.

Lemma MkdirTemp_spec dir pattern t t' o : MkdirTemp dir pattern t = (t', o) →
  let path := dir +:+ "/" +:+ pattern +:+ random os in
  (∀ k, k ≠ locate path → t' !! k = t !! k) ∧
  ((∃ e, o = Fail e ∧ t' = t) ∨ (o = Ret path ∧ t !! locate path = None ∧ isDirAt t' (locate path) = true)).
Proof.
  intros H path. unfold MkdirTemp in H. fold path in H. destruct (mkdirFails os (locate path)); [simplify_eq; split; [done|left; by eexists]|].
  destruct (t !! locate path) eqn:Et; [simplify_eq; split; [done|left; by eexists]|].
  destruct (isDirAt t (parent (locate path))); simplify_eq; split; try done; [|right|left; by eexists].
  - intros k Hk. by rewrite lookup_insert_ne.
  - split_and!; [done..|]. unfold isDirAt. by rewrite lookup_insert_eq.
Qed.

Lemma RemoveAll_frame path t k : ¬ (locate path `prefix_of` k) → RemoveAll path t !! k = t !! k.
Proof.
  intros Hk. unfold RemoveAll. destruct (t !! k) as [n|] eqn:Et.
  - apply map_lookup_filter_Some. split; [done|by left].
  - apply map_lookup_filter_None. by left.
Qed.

Lemma RemoveAll_gone path t k : (∀ k, keeps os k = false) → locate path `prefix_of` k → RemoveAll path t !! k = None.
Proof. intros Hf Hk. apply map_lookup_filter_None. right. intros n _ [H|H]; simpl in *; [done|]. by rewrite Hf in H. Qed.

Lemma moveTree_frame old new t k : ¬ (old `prefix_of` k) → ¬ (new `prefix_of` k) → moveTree old new t !! k = t !! k.
Proof.
  intros Ho Hn. unfold moveTree. rewrite lookup_union_l.
  - destruct (t !! k) as [n|] eqn:Et; [by apply map_lookup_filter_Some|]. apply map_lookup_filter_None. by left.
  - apply not_elem_of_list_to_map_1. intros Hin. apply list_elem_of_fmap in Hin as ([k' n]&->&Hin).
    apply list_elem_of_omap in Hin as ([k0 n0]&_&E). simpl in *. case_decide; simplify_eq. apply Hn. by eexists.
Qed.

Lemma Rename_frame old new t t' o k : Rename old new t = (t', o) →
  ¬ (locate old `prefix_of` k) → ¬ (locate new `prefix_of` k) → t' !! k = t !! k.
Proof.
  intros H Ho Hn. assert (k ≠ locate old ∧ k ≠ locate new) as [Ho' Hn'] by (split; intros ->; [by apply Ho|by apply Hn]).
  unfold Rename, raise, fail in H. destruct (renameFails os); [by simplify_eq|]. destruct (t !! locate old) as [[data mt|sz mt]|]; [| |by simplify_eq];
    (destruct (negb _); [by simplify_eq|]); destruct (t !! locate new) as [[]|]; simplify_eq; try done;
    try (by rewrite lookup_insert_ne, lookup_delete_ne by done). by apply moveTree_frame.
Qed.

Lemma Create_frame path t t' o k : Create path t = (t', o) → k ≠ locate path → t' !! k = t !! k.
Proof.
  intros H Hk. unfold Create, raise, fail in H. destruct (createFails os); [by simplify_eq|].
  destruct (negb _); [by simplify_eq|]. destruct (isDirAt _ _); simplify_eq; [done|by rewrite lookup_insert_ne].
Qed.

Lemma Copy_frame dst src t t' o k : Copy dst src t = (t', o) → k ≠ locate dst → t' !! k = t !! k.
Proof.
  intros H Hk. unfold Copy in H. destruct src; [|by simplify_eq].
  destruct (writeFails os) as [[]|]; simplify_eq; by rewrite lookup_insert_ne.
Qed.
End os.
