(* ===== verification/Changes.v ===== *)
(** * Change lists, patching and diffs of lib/dyaic

    The callers of the edit-script search: [GenerateChanges] turns a script
    into a list of line changes, [Recover] replays such a list on a file,
    [GenerateDiff], [SaveDiff] and [SaveDyaicDiff] print or store a diff.
    Files are the content map [files]; an error that the code passes to
    [log.Panic] is [Crash]. *)

From Stdlib Require Import Ascii.
From stdpp Require Import strings numbers base gmap fin_maps list.
From S2P Require Import Prelude GoStrings Myers.
Local Open Scope Z_scope.

Abbreviation files := (gmap string string).

(** [os.Open] and a line scanner. *)
Definition getFileLines (fs : files) (p : string) : outcome (list string) :=
  match fs !! p with
  | Some content => scanLines content
  | None => Fail ("open " +:+ p +:+ ": no such file or directory")
  end.

(** [if err != nil { log.Panic(err) }] *)
Definition logPanic {A} (o : outcome A) : outcome A :=
  match o with Fail _ => Crash | _ => o end.

Record Change := mkChange { LineNumber : Z; Op : operation; Content : string }.

(** ** From a script to a change list *)

(** The loop of [GenerateChanges] over the script. *)
Fixpoint changesOf (dst : list string) (script : list operation) (srcIndex dstIndex : Z) :
    outcome (list Change) :=
  match script with
  | [] => Ret []
  | op :: script' =>
      if decide (op = INSERT) then
        c ← index dst dstIndex;
        rest ← changesOf dst script' srcIndex (dstIndex + 1);
        Ret (mkChange srcIndex INSERT c :: rest)
      else if decide (op = MOVE) then
        changesOf dst script' (srcIndex + 1) (dstIndex + 1)
      else if decide (op = DELETE) then
        rest ← changesOf dst script' (srcIndex + 1) dstIndex;
        Ret (mkChange srcIndex DELETE "" :: rest)
      else changesOf dst script' srcIndex dstIndex
  end.

Definition GenerateChanges (fs : files) (old new : string) : outcome (list Change) :=
  src ← logPanic (getFileLines fs old);
  dst ← logPanic (getFileLines fs new);
  script ← shortestEditScript src dst;
  changesOf dst script 0 0.

(** ** Replaying a change list *)

(** [for index < limit { f.WriteString(lines[index] + "\n"); index++ }],
    with what was written so far. *)
Fixpoint copyUntil (fuel : nat) (lines : list string) (limit i : Z) (out : string) :
    outcome (Z * string) :=
  if bool_decide (i < limit) then
    match fuel with
    | O => Crash
    | S f =>
        line ← index lines i;
        copyUntil f lines limit (i + 1) (out +:+ line +:+ nl)
    end
  else Ret (i, out).

Fixpoint replay (lines : list string) (chs : list Change) (i : Z) (out : string) :
    outcome (Z * string) :=
  match chs with
  | [] => Ret (i, out)
  | ch :: chs' =>
      io ← copyUntil (Z.to_nat (LineNumber ch - i)) lines (LineNumber ch) i out;
      if decide (Op ch = INSERT) then
        replay lines chs' io.1 (io.2 +:+ Content ch +:+ nl)
      else if decide (Op ch = DELETE) then
        replay lines chs' (io.1 + 1) io.2
      else replay lines chs' io.1 io.2
  end.

(** [Recover]: the file is read, truncated and written back. *)
Definition Recover (fs : files) (dst : string) (chs : list Change) : outcome files :=
  lines ← logPanic (getFileLines fs dst);
  io ← replay lines chs 0 "";
  let len := Z.of_nat (length lines) in
  io' ← copyUntil (Z.to_nat (len - io.1)) lines len io.1 io.2;
  Ret (<[dst := io'.2]> fs).

(** ** Diffs *)

Definition colors (op : operation) : string :=
  if decide (op = INSERT) then String "027" "[32m"
  else if decide (op = DELETE) then String "027" "[31m"
  else if decide (op = MOVE) then String "027" "[39m"
  else "".

(** The loop of [GenerateDiff]: the printed lines. *)
Fixpoint diffLines (src dst : list string) (script : list operation) (srcIndex dstIndex : Z) :
    outcome (list string) :=
  match script with
  | [] => Ret []
  | op :: script' =>
      if decide (op = INSERT) then
        l ← index dst dstIndex;
        rest ← diffLines src dst script' srcIndex (dstIndex + 1);
        Ret ((colors op +:+ "+" +:+ l) :: rest)
      else if decide (op = MOVE) then
        l ← index src srcIndex;
        rest ← diffLines src dst script' (srcIndex + 1) (dstIndex + 1);
        Ret ((colors op +:+ " " +:+ l) :: rest)
      else if decide (op = DELETE) then
        l ← index src srcIndex;
        rest ← diffLines src dst script' (srcIndex + 1) dstIndex;
        Ret ((colors op +:+ "-" +:+ l) :: rest)
      else diffLines src dst script' srcIndex dstIndex
  end.

Definition GenerateDiff (src dst : list string) : outcome (list string) :=
  script ← shortestEditScript src dst;
  out ← diffLines src dst script 0 0;
  Ret (out ++ [colors MOVE]).

Definition ShowDiff (fs : files) (old new : string) : outcome (list string) :=
  src ← logPanic (getFileLines fs old);
  dst ← logPanic (getFileLines fs new);
  GenerateDiff src dst.

(** lib/dyaic/config.go *)
Definition RepoLocation : string := "repo".
Definition TempLocation : string := "tmp".

(** The loop of [SaveDiff]: changed lines with their sign, no separator. *)
Fixpoint signedLines (src dst : list string) (script : list operation) (srcIndex dstIndex : Z) :
    outcome string :=
  match script with
  | [] => Ret ""
  | op :: script' =>
      if decide (op = INSERT) then
        l ← index dst dstIndex;
        rest ← signedLines src dst script' srcIndex (dstIndex + 1);
        Ret ("+" +:+ l +:+ rest)
      else if decide (op = MOVE) then
        signedLines src dst script' (srcIndex + 1) (dstIndex + 1)
      else if decide (op = DELETE) then
        l ← index src srcIndex;
        rest ← signedLines src dst script' (srcIndex + 1) dstIndex;
        Ret ("-" +:+ l +:+ rest)
      else signedLines src dst script' srcIndex dstIndex
  end.

Definition SaveDiff (fs : files) (old new : string) : outcome files :=
  src ← logPanic (getFileLines fs old);
  dst ← logPanic (getFileLines fs new);
  script ← shortestEditScript src dst;
  out ← signedLines src dst script 0 0;
  Ret (<[RepoLocation +:+ "/diff" := out]> fs).

(** The loop of [SaveDyaicDiff]: a sign byte when the operation changes. *)
Fixpoint signedBytes (src dst : list ascii) (script : list operation) (srcIndex dstIndex : Z)
    (lstOp : operation) (tmp : list ascii) : outcome (list ascii) :=
  match script with
  | [] => Ret tmp
  | op :: script' =>
      let tmp1 := if decide (op = lstOp) then tmp
                  else if decide (op = INSERT) then tmp ++ ["+"%char]
                  else if decide (op = DELETE) then tmp ++ ["-"%char]
                  else tmp in
      if decide (op = INSERT) then
        b ← index dst dstIndex;
        signedBytes src dst script' srcIndex (dstIndex + 1) op (tmp1 ++ [b])
      else if decide (op = MOVE) then
        signedBytes src dst script' (srcIndex + 1) (dstIndex + 1) op tmp1
      else if decide (op = DELETE) then
        b ← index src srcIndex;
        signedBytes src dst script' (srcIndex + 1) dstIndex op (tmp1 ++ [b])
      else signedBytes src dst script' srcIndex dstIndex op tmp1
  end.

Definition SaveDyaicDiff (fs : files) (old new : string) : outcome files :=
  match fs !! old, fs !! new with
  | Some o, Some w =>
      let src := String.list_ascii_of_string o in
      let dst := String.list_ascii_of_string w in
      script ← shortestEditDist src dst;
      tmp ← signedBytes src dst script 0 0 0%N [];
      Ret (<[RepoLocation +:+ "/diff" := String.string_of_list_ascii tmp]> fs)
  | _, _ => Crash
  end.

Definition demo : files :=
  {[ "old" := unlines ["a"; "b"; "c"; "a"]; "new" := unlines ["b"; "a"; "a"] ]}.

Example Recover_ex :
  (GenerateChanges demo "old" "new" ≫= Recover demo "old")
  = Ret (<["old" := unlines ["b"; "a"; "a"]]> demo).
Proof. vm_compute. reflexivity. Qed.

(** ** Walking a correct script *)

Lemma unlines_app l1 l2 : unlines (l1 ++ l2) = unlines l1 +:+ unlines l2.
Proof.
  induction l1 as [|s l1 IH]; [done|]. rewrite <- app_comm_cons, !unlines_cons, IH.
  by autorewrite with dsn.
Qed.

Section walk.
Context {A : Type}.
Variables src dst : list A.

(** The cases of a correct script for what is left of both lists. *)
Lemma edits_drop_inv i j op l :
  edits (drop i src) (drop j dst) (op :: l) →
  (op = MOVE ∧ ∃ a, src !! i = Some a ∧ dst !! j = Some a ∧
     edits (drop (S i) src) (drop (S j) dst) l) ∨
  (op = INSERT ∧ ∃ b, dst !! j = Some b ∧ edits (drop i src) (drop (S j) dst) l) ∨
  (op = DELETE ∧ ∃ a, src !! i = Some a ∧ edits (drop (S i) src) (drop j dst) l).
Proof.
  assert (∀ (s : list A) k a t, drop k s = a :: t → s !! k = Some a ∧ drop (S k) s = t) as Hd.
  { intros s k a t E. split.
    - rewrite <- (Nat.add_0_r k), <- lookup_drop, E. done.
    - rewrite <- Nat.add_1_r, <- drop_drop, E. done. }
  intros He. inversion He as [|a s t l' He' Hs Ht|b s t l' He' Hs Ht|a s t l' He' Hs Ht]; subst.
  - symmetry in Hs, Ht. apply Hd in Hs as [? <-], Ht as [? <-]. left. eauto.
  - symmetry in Ht. apply Hd in Ht as [? <-]. right; left. eauto.
  - symmetry in Hs. apply Hd in Hs as [? <-]. right; right. eauto.
Qed.

Lemma edits_drop_nil i j : edits (drop i src) (drop j dst) [] →
  (length src ≤ i)%nat ∧ (length dst ≤ j)%nat.
Proof.
  inversion 1 as [Hs Ht| | |]. symmetry in Hs, Ht.
  apply (f_equal length) in Hs, Ht. rewrite length_drop in Hs, Ht. simpl in *. lia.
Qed.
End walk.

Lemma index_nat {A} (l : list A) (i : nat) a : l !! i = Some a → index l (Z.of_nat i) = Ret a.
Proof. intros H. apply index_ret; [lia|]. by rewrite Nat2Z.id. Qed.

Lemma succ_of_nat (i : nat) : Z.of_nat i + 1 = Z.of_nat (S i).
Proof. lia. Qed.

Lemma copyUntil_spec lines (p k : nat) out :
  (p + k ≤ length lines)%nat →
  copyUntil k lines (Z.of_nat (p + k)) (Z.of_nat p) out
  = Ret (Z.of_nat (p + k), out +:+ unlines (take k (drop p lines))).
Proof.
  revert p out. induction k as [|k IH]; intros p out Hk; cbn [copyUntil].
  - rewrite Nat.add_0_r, bool_decide_false by lia. simpl. by rewrite app_empty_r.
  - rewrite bool_decide_true by lia.
    destruct (lookup_lt_is_Some_2 lines p) as [a Ha]; [lia|].
    rewrite (index_nat _ _ _ Ha), bind_ret_l, succ_of_nat.
    replace (p + S k)%nat with (S p + k)%nat by lia. rewrite IH by lia.
    rewrite (drop_S _ _ _ Ha). cbn [take]. rewrite unlines_cons. by autorewrite with dsn.
Qed.

(** What replaying the changes of a correct script writes.  The lines from
    [p] to [i] are moves that [replay] has not copied yet. *)
Lemma replay_changes src dst script i j :
  edits (drop i src) (drop j dst) script →
  ∃ chs, changesOf dst script (Z.of_nat i) (Z.of_nat j) = Ret chs ∧
    ∀ p out, (p ≤ i ≤ length src)%nat →
    ∃ q out', replay src chs (Z.of_nat p) out = Ret (Z.of_nat q, out') ∧
      (q ≤ length src)%nat ∧
      out' +:+ unlines (drop q src)
      = out +:+ unlines (take (i - p) (drop p src)) +:+ unlines (drop j dst).
Proof.
  revert i j. induction script as [|op script IH]; intros i j He.
  - apply edits_drop_nil in He as [Hi Hj]. exists []. split; [done|].
    intros p out Hp. exists p, out. split; [done|]. split; [lia|].
    rewrite (drop_ge dst) by lia. simpl. rewrite app_empty_r.
    f_equal. f_equal. rewrite take_ge; [done|]. rewrite length_drop. lia.
  - apply edits_drop_inv in He as [(->&a&Ha&Hb&He)|[(->&b&Hb&He)|(->&a&Ha&He)]];
      apply IH in He as (chs&Hc&Hr); cbn [changesOf]; decide_done.
    + rewrite !succ_of_nat. exists chs. split; [done|]. intros p out Hp.
      apply lookup_lt_Some in Ha as Hlt.
      destruct (Hr p out) as (q&out'&H1&H2&H3); [lia|]. exists q, out'. split; [done|].
      split; [done|]. rewrite H3. rewrite (drop_S _ _ _ Hb), unlines_cons.
      replace (S i - p)%nat with (S (i - p)) by lia.
      rewrite (take_S_r _ (i - p) a) by (rewrite lookup_drop, <- Ha; f_equal; lia).
      rewrite unlines_app, unlines_cons. by autorewrite with dsn.
    + rewrite (index_nat _ _ _ Hb), bind_ret_l, succ_of_nat, Hc, bind_ret_l.
      eexists. split; [done|]. intros p out Hp. cbn [replay LineNumber Op Content].
      replace (Z.to_nat _) with (i - p)%nat by lia.
      pose proof (copyUntil_spec src p (i - p) out) as Hcu.
      replace (p + (i - p))%nat with i in Hcu by lia.
      rewrite Hcu, bind_ret_l by lia. cbn [fst snd]. decide_done.
      destruct (Hr i ((out +:+ unlines (take (i - p) (drop p src))) +:+ b +:+ nl))
        as (q&out'&H1&H2&H3); [lia|].
      exists q, out'. split; [done|]. split; [done|]. rewrite H3, Nat.sub_diag. simpl.
      rewrite (drop_S _ _ _ Hb), unlines_cons. by autorewrite with dsn.
    + rewrite succ_of_nat, Hc, bind_ret_l.
      eexists. split; [done|]. intros p out Hp. cbn [replay LineNumber Op Content].
      replace (Z.to_nat _) with (i - p)%nat by lia.
      pose proof (copyUntil_spec src p (i - p) out) as Hcu.
      replace (p + (i - p))%nat with i in Hcu by lia.
      rewrite Hcu, bind_ret_l by lia. cbn [fst snd]. decide_done.
      rewrite succ_of_nat.
      apply lookup_lt_Some in Ha as Hlt.
      destruct (Hr (S i) (out +:+ unlines (take (i - p) (drop p src))))
        as (q&out'&H1&H2&H3); [lia|].
      exists q, out'. split; [done|]. split; [done|]. rewrite H3, Nat.sub_diag. simpl.
      by autorewrite with dsn.
Qed.

(** ** Facts on change lists and diffs *)

Lemma changesOf_length src dst script i j chs :
  edits (drop i src) (drop j dst) script →
  changesOf dst script (Z.of_nat i) (Z.of_nat j) = Ret chs → length chs = cost script.
Proof.
  revert i j chs. induction script as [|op script IH]; intros i j chs He.
  { simpl. by intros [= <-]. }
  apply edits_drop_inv in He as [(->&a&Ha&Hb&He)|[(->&b&Hb&He)|(->&a&Ha&He)]];
    cbn [changesOf]; decide_done.
  - rewrite !succ_of_nat. apply IH; done.
  - rewrite (index_nat _ _ _ Hb), bind_ret_l, succ_of_nat. intros Hc. inv_bind.
    simplify_eq. simpl. f_equal. by eapply IH.
  - rewrite succ_of_nat. intros Hc. inv_bind. simplify_eq. simpl. f_equal. by eapply IH.
Qed.

Lemma edits_cost_0 {A} (s t : list A) l : edits s t l → cost l = 0%nat → s = t.
Proof. induction 1; simpl; intros; try done; f_equal; auto. Qed.

(** The sign [GenerateDiff] prints before a line. *)
Definition sign (op : operation) : string :=
  if decide (op = INSERT) then "+" else if decide (op = DELETE) then "-" else " ".

Lemma diffLines_tagged src dst script i j :
  edits (drop i src) (drop j dst) script →
  ∃ tagged : list (operation * string),
    diffLines src dst script (Z.of_nat i) (Z.of_nat j)
    = Ret (map (λ ol, colors ol.1 +:+ sign ol.1 +:+ ol.2) tagged) ∧
    map fst tagged = script ∧
    map snd (filter (λ ol, ol.1 ≠ DELETE) tagged) = drop j dst ∧
    map snd (filter (λ ol, ol.1 ≠ INSERT) tagged) = drop i src.
Proof.
  revert i j. induction script as [|op script IH]; intros i j He.
  { apply edits_drop_nil in He as [Hi Hj]. exists [].
    by rewrite (drop_ge src), (drop_ge dst) by lia. }
  apply edits_drop_inv in He as [(->&a&Ha&Hb&He)|[(->&b&Hb&He)|(->&a&Ha&He)]];
    apply IH in He as (tg&Ht&Hf&Hd&Hs); cbn [diffLines]; decide_done.
  - rewrite (index_nat _ _ _ Ha), bind_ret_l, !succ_of_nat, Ht, bind_ret_l.
    exists ((MOVE, a) :: tg). rewrite !filter_cons_True by done.
    rewrite (drop_S _ _ _ Ha), (drop_S _ _ _ Hb), <- Hd, <- Hs. simpl. by rewrite Hf.
  - rewrite (index_nat _ _ _ Hb), bind_ret_l, succ_of_nat, Ht, bind_ret_l.
    exists ((INSERT, b) :: tg). rewrite (filter_cons_True _ _ tg) by done.
    rewrite filter_cons_False by (simpl; tauto).
    rewrite (drop_S _ _ _ Hb), <- Hd, <- Hs. simpl. by rewrite Hf.
  - rewrite (index_nat _ _ _ Ha), bind_ret_l, succ_of_nat, Ht, bind_ret_l.
    exists ((DELETE, a) :: tg). rewrite filter_cons_False by (simpl; tauto).
    rewrite (filter_cons_True _ _ tg) by done.
    rewrite (drop_S _ _ _ Ha), <- Hd, <- Hs. simpl. by rewrite Hf.
Qed.

Lemma signedBytes_spec src dst script i j lst tmp :
  edits (drop i src) (drop j dst) script →
  ∃ out, signedBytes src dst script (Z.of_nat i) (Z.of_nat j) lst tmp = Ret (tmp ++ out) ∧
    (out = [] ↔ cost script = 0%nat) ∧
    (cost script ≤ length out ≤ 2 * cost script)%nat.
Proof.
  revert i j lst tmp. induction script as [|op script IH]; intros i j lst tmp He.
  { exists []. rewrite app_nil_r. simpl. split; [done|]. split; [done|lia]. }
  set (t1 := if decide (op = lst) then tmp else
       if decide (op = INSERT) then tmp ++ ["+"%char] else
       if decide (op = DELETE) then tmp ++ ["-"%char] else tmp).
  assert (∃ sg, t1 = tmp ++ sg ∧ (length sg ≤ (if decide (op = MOVE) then 0 else 1))%nat)
    as (sg&Hsg&Hlen).
  { unfold t1. destruct (decide (op = MOVE)) as [->|].
    - exists []. rewrite app_nil_r. split; [|simpl; lia]. by case_decide.
    - repeat case_decide; subst; eauto; exists []; rewrite app_nil_r; split; (done || simpl; lia). }
  apply edits_drop_inv in He as [(->&a&Ha&Hb&He)|[(->&b&Hb&He)|(->&a&Ha&He)]];
    cbn [signedBytes cost]; fold t1; rewrite Hsg.
  - rewrite decide_False, decide_True by done. rewrite !succ_of_nat.
    destruct (IH _ _ MOVE (tmp ++ sg) He) as (out&->&Hz&Hl). rewrite decide_True in * by done.
    assert (sg = []) as -> by (apply nil_length_inv; lia). rewrite app_nil_r.
    exists out. split; [done|]. split; [done|lia].
  - rewrite decide_True by done. rewrite (index_nat _ _ _ Hb), bind_ret_l, succ_of_nat.
    destruct (IH _ _ INSERT ((tmp ++ sg) ++ [b]) He) as (out&->&Hz&Hl).
    exists (sg ++ b :: out). rewrite <- !app_assoc. simpl. split; [done|].
    rewrite decide_False in * by done. rewrite length_app. simpl.
    split; [split; [by destruct sg|lia]|lia].
  - rewrite decide_False, decide_False, decide_True by done.
    rewrite (index_nat _ _ _ Ha), bind_ret_l, succ_of_nat.
    destruct (IH _ _ DELETE ((tmp ++ sg) ++ [a]) He) as (out&->&Hz&Hl).
    exists (sg ++ a :: out). rewrite <- !app_assoc. simpl. split; [done|].
    rewrite decide_False in * by done. rewrite length_app. simpl.
    split; [split; [by destruct sg|lia]|lia].
Qed.

Lemma GenerateChanges_spec fs old new src dst :
  getFileLines fs old = Ret src → getFileLines fs new = Ret dst →
  ∃ script chs, shortestEditScript src dst = Ret script ∧ edits src dst script ∧
    GenerateChanges fs old new = Ret chs ∧ changesOf dst script 0 0 = Ret chs ∧
    length chs = cost script.
Proof.
  intros Ho Hn. destruct (editScript_spec src dst) as (script&Hs&He&_).
  destruct (replay_changes src dst script 0 0) as (chs&Hc&_); [by rewrite !drop_0|].
  exists script, chs. unfold GenerateChanges. rewrite Ho, Hn. cbn [logPanic].
  rewrite !bind_ret_l. unfold shortestEditScript. rewrite Hs, bind_ret_l.
  repeat split; try done. eapply (changesOf_length src dst script 0 0); [by rewrite !drop_0|done].
Qed.

(** C3. Round trip: recovering the old file with the changes generated
    between the old and the new file rewrites it to exactly the lines of the
    new file, and leaves every other file alone. *)
Theorem recover_generated_changes (fs : files) (old new : string) (src dst : list string) :
  getFileLines fs old = Ret src → getFileLines fs new = Ret dst →
  ∃ chs, GenerateChanges fs old new = Ret chs ∧
    Recover fs old chs = Ret (<[old := unlines dst]> fs).
Proof.
  intros Ho Hn.
  destruct (GenerateChanges_spec fs old new src dst Ho Hn) as (script&chs&_&He&Hg&Hc&_).
  exists chs. split; [done|].
  destruct (replay_changes src dst script 0 0) as (chs'&Hc'&Hr); [by rewrite !drop_0|].
  change (Z.of_nat 0) with 0 in Hc'. rewrite Hc in Hc'. simplify_eq.
  destruct (Hr 0%nat "") as (q&out&Hq&Hle&Hout); [lia|].
  unfold Recover. rewrite Ho. cbn [logPanic]. rewrite bind_ret_l.
  change (Z.of_nat 0) with 0 in Hq. rewrite Hq, bind_ret_l. cbn [fst snd].
  replace (Z.to_nat (Z.of_nat (length src) - Z.of_nat q)) with (length src - q)%nat by lia.
  pose proof (copyUntil_spec src q (length src - q) out) as Hcu.
  replace (q + (length src - q))%nat with (length src) in Hcu by lia.
  rewrite Hcu, bind_ret_l by lia. cbn [snd]. f_equal. f_equal.
  rewrite take_ge by (rewrite length_drop; lia). rewrite Hout. by rewrite drop_0.
Qed.

Lemma recover_generated_changes_witness :
  getFileLines demo "old" = Ret ["a"; "b"; "c"; "a"] ∧
  ∃ chs, GenerateChanges demo "old" "new" = Ret chs ∧
    Recover demo "old" chs = Ret (<["old" := unlines ["b"; "a"; "a"]]> demo).
Proof.
  split; [vm_compute; reflexivity|].
  apply (recover_generated_changes demo "old" "new" ["a"; "b"; "c"; "a"] ["b"; "a"; "a"]);
    vm_compute; reflexivity.
Defined.

(** The change list is as short as any correct script allows; it is
    empty, so that the file counts as unmodified, exactly when the two files
    have the same lines. *)
Theorem generated_changes_minimal (fs : files) (old new : string) (src dst : list string)
    (chs : list Change) :
  getFileLines fs old = Ret src → getFileLines fs new = Ret dst →
  GenerateChanges fs old new = Ret chs →
  (∀ l, edits src dst l → (length chs ≤ cost l)%nat) ∧ (chs = [] ↔ src = dst).
Proof.
  intros Ho Hn Hg. destruct (GenerateChanges_spec fs old new src dst Ho Hn)
    as (script&chs'&Hs&He&Hg'&_&Hlen). rewrite Hg in Hg'. simplify_eq. rewrite Hlen.
  destruct (editScript_spec src dst) as (l0&Hl0&_&Hmin).
  unfold shortestEditScript in Hs. rewrite Hs in Hl0. simplify_eq. split; [done|]. split.
  - intros ->. simpl in Hlen. by eapply edits_cost_0.
  - intros ->. apply nil_length_inv. rewrite Hlen.
    specialize (Hmin _ (edits_refl dst)). rewrite cost_moves in Hmin. lia.
Qed.

Lemma generated_changes_minimal_witness :
  (length [mkChange 0 DELETE ""; mkChange 2 DELETE ""; mkChange 4 INSERT "a"] ≤
   cost [DELETE; DELETE; DELETE; DELETE; INSERT; INSERT; INSERT])%nat.
Proof.
  apply (generated_changes_minimal demo "old" "new" ["a"; "b"; "c"; "a"] ["b"; "a"; "a"]);
    try (vm_compute; reflexivity).
  repeat constructor.
Defined.

(** [GenerateDiff] prints every line of both files: the lines shown with
    a blank or a plus are the new file in order, those shown with a blank or
    a minus the old one, and a colour reset ends the output. *)
Theorem GenerateDiff_shows_both (src dst : list string) :
  ∃ tagged : list (operation * string),
    GenerateDiff src dst
    = Ret (map (λ ol, colors ol.1 +:+ sign ol.1 +:+ ol.2) tagged ++ [colors MOVE]) ∧
    map snd (filter (λ ol, ol.1 ≠ DELETE) tagged) = dst ∧
    map snd (filter (λ ol, ol.1 ≠ INSERT) tagged) = src.
Proof.
  destruct (editScript_spec src dst) as (script&Hs&He&_).
  destruct (diffLines_tagged src dst script 0 0) as (tg&Hd&_&H1&H2); [by rewrite !drop_0|].
  exists tg. unfold GenerateDiff, shortestEditScript. rewrite Hs, bind_ret_l.
  change (Z.of_nat 0) with 0 in Hd. by rewrite Hd, bind_ret_l.
Qed.

(** [SaveDyaicDiff] writes only the diff file; the diff is empty exactly
    when the two files are equal, and otherwise no longer than twice the
    number of changed bytes of a shortest script. *)
Theorem SaveDyaicDiff_spec (fs : files) (old new o w : string) :
  fs !! old = Some o → fs !! new = Some w →
  ∃ d, SaveDyaicDiff fs old new = Ret (<[RepoLocation +:+ "/diff" := d]> fs) ∧
    (d = "" ↔ o = w) ∧
    ∀ l, edits (String.list_ascii_of_string o) (String.list_ascii_of_string w) l →
      (String.length d ≤ 2 * cost l)%nat.
Proof.
  intros Ho Hw. unfold SaveDyaicDiff. rewrite Ho, Hw.
  set (src := String.list_ascii_of_string o). set (dst := String.list_ascii_of_string w).
  destruct (editScript_spec src dst) as (script&Hs&He&Hmin).
  destruct (signedBytes_spec src dst script 0 0 0%N []) as (out&Hb&Hz&Hl); [by rewrite !drop_0|].
  unfold shortestEditDist. rewrite Hs, bind_ret_l.
  change (Z.of_nat 0) with 0 in Hb. rewrite Hb, bind_ret_l, app_nil_l.
  exists (String.string_of_list_ascii out). split; [done|]. split.
  - assert (String.string_of_list_ascii out = "" ↔ out = []) as -> by (by destruct out).
    rewrite Hz. split.
    + intros Hc. eapply edits_cost_0 in Hc; [|exact He].
      rewrite <- (String.string_of_list_ascii_of_string o).
      rewrite <- (String.string_of_list_ascii_of_string w). fold src dst. by rewrite Hc.
    + intros E. assert (src = dst) as E' by (unfold src, dst; by rewrite E).
      specialize (Hmin (replicate (length dst) MOVE)). rewrite cost_moves in Hmin.
      rewrite E' in Hmin. specialize (Hmin (edits_refl dst)). lia.
  - intros l Hl'. specialize (Hmin l Hl').
    assert (∀ x, String.length (String.string_of_list_ascii x) = length x) as ->; [|lia].
    induction x; simpl; auto.
Qed.

Lemma SaveDyaicDiff_witness :
  ∃ d, SaveDyaicDiff demo "old" "new" = Ret (<[RepoLocation +:+ "/diff" := d]> demo) ∧
    (d = "" ↔ unlines ["a"; "b"; "c"; "a"] = unlines ["b"; "a"; "a"]) ∧
    ∀ l, edits (String.list_ascii_of_string (unlines ["a"; "b"; "c"; "a"]))
           (String.list_ascii_of_string (unlines ["b"; "a"; "a"])) l →
      (String.length d ≤ 2 * cost l)%nat.
Proof. apply (SaveDyaicDiff_spec demo "old" "new"); vm_compute; reflexivity. Defined.
