(* ===== verification/SectorTypes.v ===== *)
(** * Sector states and sector data of storage/pipeline

    [SectorState] with its constants (sector_state.go), the classification of
    states, and the record [SectorInfo] of a sector (types.go) with its
    readers.  CIDs, randomness, proofs and tipset keys are byte strings,
    pointers are [option]s, epochs and numbers are [Z]. *)

From coqutil Require Import Datatypes.RecordSetters.
From stdpp Require Import strings numbers base gmap fin_maps list.
From S2P Require Import Prelude.
Import DoubleBraceUpdate.
Local Open Scope Z_scope.

(** ** States *)

(** [type SectorState string]: the constants, and any other string. *)
Inductive SectorState : Type :=
| UndefinedSectorState | Empty | WaitDeals | AddPiece | Packing | GetTicket
| PreCommit1 | PreCommit2 | PreCommitting | PreCommitWait | SubmitPreCommitBatch
| PreCommitBatchWait | WaitSeed | Committing | CommitFinalize | CommitFinalizeFailed
| SubmitCommit | CommitWait | SubmitCommitAggregate | CommitAggregateWait
| FinalizeSector | Proving | Available | SnapDealsWaitDeals | SnapDealsAddPiece
| SnapDealsPacking | UpdateReplica | ProveReplicaUpdate | SubmitReplicaUpdate
| ReplicaUpdateWait | FinalizeReplicaUpdate | UpdateActivating | ReleaseSectorKey
| ReceiveSector | FailedUnrecoverable | AddPieceFailed | SealPreCommit1Failed
| SealPreCommit2Failed | PreCommitFailed | ComputeProofFailed | RemoteCommitFailed
| CommitFailed | PackingFailed | FinalizeFailed | DealsExpired | RecoverDealIDs
| SnapDealsAddPieceFailed | SnapDealsDealsExpired | SnapDealsRecoverDealIDs
| AbortUpgrade | ReplicaUpdateFailed | ReleaseSectorKeyFailed
| FinalizeReplicaUpdateFailed | Faulty | FaultReported | FaultedFinal | Terminating
| TerminateWait | TerminateFinality | TerminateFailed | Removing | RemoveFailed
| Removed | OtherState (name : string).

(** The string behind a state. *)
Definition stateName (st : SectorState) : string :=
  match st with
  | UndefinedSectorState => "" | Empty => "Empty" | WaitDeals => "WaitDeals"
  | AddPiece => "AddPiece" | Packing => "Packing" | GetTicket => "GetTicket"
  | PreCommit1 => "PreCommit1" | PreCommit2 => "PreCommit2"
  | PreCommitting => "PreCommitting" | PreCommitWait => "PreCommitWait"
  | SubmitPreCommitBatch => "SubmitPreCommitBatch"
  | PreCommitBatchWait => "PreCommitBatchWait" | WaitSeed => "WaitSeed"
  | Committing => "Committing" | CommitFinalize => "CommitFinalize"
  | CommitFinalizeFailed => "CommitFinalizeFailed" | SubmitCommit => "SubmitCommit"
  | CommitWait => "CommitWait" | SubmitCommitAggregate => "SubmitCommitAggregate"
  | CommitAggregateWait => "CommitAggregateWait" | FinalizeSector => "FinalizeSector"
  | Proving => "Proving" | Available => "Available"
  | SnapDealsWaitDeals => "SnapDealsWaitDeals"
  | SnapDealsAddPiece => "SnapDealsAddPiece" | SnapDealsPacking => "SnapDealsPacking"
  | UpdateReplica => "UpdateReplica" | ProveReplicaUpdate => "ProveReplicaUpdate"
  | SubmitReplicaUpdate => "SubmitReplicaUpdate"
  | ReplicaUpdateWait => "ReplicaUpdateWait"
  | FinalizeReplicaUpdate => "FinalizeReplicaUpdate"
  | UpdateActivating => "UpdateActivating" | ReleaseSectorKey => "ReleaseSectorKey"
  | ReceiveSector => "ReceiveSector" | FailedUnrecoverable => "FailedUnrecoverable"
  | AddPieceFailed => "AddPieceFailed" | SealPreCommit1Failed => "SealPreCommit1Failed"
  | SealPreCommit2Failed => "SealPreCommit2Failed"
  | PreCommitFailed => "PreCommitFailed" | ComputeProofFailed => "ComputeProofFailed"
  | RemoteCommitFailed => "RemoteCommitFailed" | CommitFailed => "CommitFailed"
  | PackingFailed => "PackingFailed" | FinalizeFailed => "FinalizeFailed"
  | DealsExpired => "DealsExpired" | RecoverDealIDs => "RecoverDealIDs"
  | SnapDealsAddPieceFailed => "SnapDealsAddPieceFailed"
  | SnapDealsDealsExpired => "SnapDealsDealsExpired"
  | SnapDealsRecoverDealIDs => "SnapDealsRecoverDealIDs"
  | AbortUpgrade => "AbortUpgrade" | ReplicaUpdateFailed => "ReplicaUpdateFailed"
  | ReleaseSectorKeyFailed => "ReleaseSectorKeyFailed"
  | FinalizeReplicaUpdateFailed => "FinalizeReplicaUpdateFailed" | Faulty => "Faulty"
  | FaultReported => "FaultReported" | FaultedFinal => "FaultedFinal"
  | Terminating => "Terminating" | TerminateWait => "TerminateWait"
  | TerminateFinality => "TerminateFinality" | TerminateFailed => "TerminateFailed"
  | Removing => "Removing" | RemoveFailed => "RemoveFailed" | Removed => "Removed"
  | OtherState s => s
  end.

(** A numbering of the states, for decidable equality. *)
Definition stateTag (st : SectorState) : N * string :=
  match st with
  | UndefinedSectorState => (0%N, "") | Empty => (1%N, "") | WaitDeals => (2%N, "")
  | AddPiece => (3%N, "") | Packing => (4%N, "") | GetTicket => (5%N, "")
  | PreCommit1 => (6%N, "") | PreCommit2 => (7%N, "") | PreCommitting => (8%N, "")
  | PreCommitWait => (9%N, "") | SubmitPreCommitBatch => (10%N, "")
  | PreCommitBatchWait => (11%N, "") | WaitSeed => (12%N, "")
  | Committing => (13%N, "") | CommitFinalize => (14%N, "")
  | CommitFinalizeFailed => (15%N, "") | SubmitCommit => (16%N, "")
  | CommitWait => (17%N, "") | SubmitCommitAggregate => (18%N, "")
  | CommitAggregateWait => (19%N, "") | FinalizeSector => (20%N, "")
  | Proving => (21%N, "") | Available => (22%N, "") | SnapDealsWaitDeals => (23%N, "")
  | SnapDealsAddPiece => (24%N, "") | SnapDealsPacking => (25%N, "")
  | UpdateReplica => (26%N, "") | ProveReplicaUpdate => (27%N, "")
  | SubmitReplicaUpdate => (28%N, "") | ReplicaUpdateWait => (29%N, "")
  | FinalizeReplicaUpdate => (30%N, "") | UpdateActivating => (31%N, "")
  | ReleaseSectorKey => (32%N, "") | ReceiveSector => (33%N, "")
  | FailedUnrecoverable => (34%N, "") | AddPieceFailed => (35%N, "")
  | SealPreCommit1Failed => (36%N, "") | SealPreCommit2Failed => (37%N, "")
  | PreCommitFailed => (38%N, "") | ComputeProofFailed => (39%N, "")
  | RemoteCommitFailed => (40%N, "") | CommitFailed => (41%N, "")
  | PackingFailed => (42%N, "") | FinalizeFailed => (43%N, "")
  | DealsExpired => (44%N, "") | RecoverDealIDs => (45%N, "")
  | SnapDealsAddPieceFailed => (46%N, "") | SnapDealsDealsExpired => (47%N, "")
  | SnapDealsRecoverDealIDs => (48%N, "") | AbortUpgrade => (49%N, "")
  | ReplicaUpdateFailed => (50%N, "") | ReleaseSectorKeyFailed => (51%N, "")
  | FinalizeReplicaUpdateFailed => (52%N, "") | Faulty => (53%N, "")
  | FaultReported => (54%N, "") | FaultedFinal => (55%N, "")
  | Terminating => (56%N, "") | TerminateWait => (57%N, "")
  | TerminateFinality => (58%N, "") | TerminateFailed => (59%N, "")
  | Removing => (60%N, "") | RemoveFailed => (61%N, "") | Removed => (62%N, "")
  | OtherState s => (63%N, s)
  end.

Definition tagState (t : N * string) : SectorState :=
  match t.1 with
  | 0%N => UndefinedSectorState | 1%N => Empty | 2%N => WaitDeals | 3%N => AddPiece
  | 4%N => Packing | 5%N => GetTicket | 6%N => PreCommit1 | 7%N => PreCommit2
  | 8%N => PreCommitting | 9%N => PreCommitWait | 10%N => SubmitPreCommitBatch
  | 11%N => PreCommitBatchWait | 12%N => WaitSeed | 13%N => Committing
  | 14%N => CommitFinalize | 15%N => CommitFinalizeFailed | 16%N => SubmitCommit
  | 17%N => CommitWait | 18%N => SubmitCommitAggregate | 19%N => CommitAggregateWait
  | 20%N => FinalizeSector | 21%N => Proving | 22%N => Available
  | 23%N => SnapDealsWaitDeals | 24%N => SnapDealsAddPiece | 25%N => SnapDealsPacking
  | 26%N => UpdateReplica | 27%N => ProveReplicaUpdate | 28%N => SubmitReplicaUpdate
  | 29%N => ReplicaUpdateWait | 30%N => FinalizeReplicaUpdate
  | 31%N => UpdateActivating | 32%N => ReleaseSectorKey | 33%N => ReceiveSector
  | 34%N => FailedUnrecoverable | 35%N => AddPieceFailed | 36%N => SealPreCommit1Failed
  | 37%N => SealPreCommit2Failed | 38%N => PreCommitFailed | 39%N => ComputeProofFailed
  | 40%N => RemoteCommitFailed | 41%N => CommitFailed | 42%N => PackingFailed
  | 43%N => FinalizeFailed | 44%N => DealsExpired | 45%N => RecoverDealIDs
  | 46%N => SnapDealsAddPieceFailed | 47%N => SnapDealsDealsExpired
  | 48%N => SnapDealsRecoverDealIDs | 49%N => AbortUpgrade
  | 50%N => ReplicaUpdateFailed | 51%N => ReleaseSectorKeyFailed
  | 52%N => FinalizeReplicaUpdateFailed | 53%N => Faulty | 54%N => FaultReported
  | 55%N => FaultedFinal | 56%N => Terminating | 57%N => TerminateWait
  | 58%N => TerminateFinality | 59%N => TerminateFailed | 60%N => Removing
  | 61%N => RemoveFailed | 62%N => Removed
  | _ => OtherState t.2
  end.

Lemma tagState_stateTag st : tagState (stateTag st) = st.
Proof. by destruct st. Qed.

#[global] Instance SectorState_eq_dec : EqDecision SectorState.
Proof.
  intros x y. destruct (decide (stateTag x = stateTag y)) as [E|E].
  - left. by rewrite <- (tagState_stateTag x), E, tagState_stateTag.
  - right. intros ->. done.
Defined.

#[global] Program Instance SectorState_countable : Countable SectorState :=
  inj_countable' stateTag tagState _.
Next Obligation. apply tagState_stateTag. Qed.

(** The constants of sector_state.go. *)
Definition namedStates : list SectorState :=
  [UndefinedSectorState; Empty; WaitDeals; AddPiece; Packing; GetTicket; PreCommit1;
   PreCommit2; PreCommitting; PreCommitWait; SubmitPreCommitBatch; PreCommitBatchWait;
   WaitSeed; Committing; CommitFinalize; CommitFinalizeFailed; SubmitCommit;
   CommitWait; SubmitCommitAggregate; CommitAggregateWait; FinalizeSector; Proving;
   Available; SnapDealsWaitDeals; SnapDealsAddPiece; SnapDealsPacking; UpdateReplica;
   ProveReplicaUpdate; SubmitReplicaUpdate; ReplicaUpdateWait; FinalizeReplicaUpdate;
   UpdateActivating; ReleaseSectorKey; ReceiveSector; FailedUnrecoverable;
   AddPieceFailed; SealPreCommit1Failed; SealPreCommit2Failed; PreCommitFailed;
   ComputeProofFailed; RemoteCommitFailed; CommitFailed; PackingFailed; FinalizeFailed;
   DealsExpired; RecoverDealIDs; SnapDealsAddPieceFailed; SnapDealsDealsExpired;
   SnapDealsRecoverDealIDs; AbortUpgrade; ReplicaUpdateFailed; ReleaseSectorKeyFailed;
   FinalizeReplicaUpdateFailed; Faulty; FaultReported; FaultedFinal; Terminating;
   TerminateWait; TerminateFinality; TerminateFailed; Removing; RemoveFailed; Removed].

Definition ExistSectorStateList : list SectorState :=
  [Empty; WaitDeals; Packing; AddPiece; AddPieceFailed; GetTicket; PreCommit1;
   PreCommit2; PreCommitting; PreCommitWait; SubmitPreCommitBatch; PreCommitBatchWait;
   WaitSeed; Committing; CommitFinalize; CommitFinalizeFailed; SubmitCommit;
   CommitWait; SubmitCommitAggregate; CommitAggregateWait; FinalizeSector; Proving;
   Available; FailedUnrecoverable; SealPreCommit1Failed; SealPreCommit2Failed;
   PreCommitFailed; ComputeProofFailed; RemoteCommitFailed; CommitFailed;
   PackingFailed; FinalizeFailed; DealsExpired; RecoverDealIDs; Faulty; FaultReported;
   FaultedFinal; Terminating; TerminateWait; TerminateFinality; TerminateFailed;
   Removing; RemoveFailed; Removed; SnapDealsWaitDeals; SnapDealsAddPiece;
   SnapDealsPacking; UpdateReplica; ProveReplicaUpdate; SubmitReplicaUpdate;
   ReplicaUpdateWait; UpdateActivating; ReleaseSectorKey; FinalizeReplicaUpdate;
   SnapDealsAddPieceFailed; SnapDealsDealsExpired; SnapDealsRecoverDealIDs;
   ReplicaUpdateFailed; ReleaseSectorKeyFailed; FinalizeReplicaUpdateFailed;
   AbortUpgrade; ReceiveSector].

(** ** Classifications *)

Inductive statSectorState : Type := sstStaging | sstSealing | sstFailed | sstProving.

#[global] Instance statSectorState_eq_dec : EqDecision statSectorState.
Proof. solve_decision. Defined.

Definition toStatState (st : SectorState) (finEarly : bool) : statSectorState :=
  match st with
  | UndefinedSectorState | Empty | WaitDeals | AddPiece | AddPieceFailed
  | SnapDealsWaitDeals | SnapDealsAddPiece => sstStaging
  | Packing | GetTicket | PreCommit1 | PreCommit2 | PreCommitting | PreCommitWait
  | SubmitPreCommitBatch | PreCommitBatchWait | WaitSeed | Committing | CommitFinalize
  | FinalizeSector | SnapDealsPacking | UpdateReplica | ProveReplicaUpdate
  | FinalizeReplicaUpdate | ReceiveSector => sstSealing
  | SubmitCommit | CommitWait | SubmitCommitAggregate | CommitAggregateWait
  | SubmitReplicaUpdate | ReplicaUpdateWait => if finEarly then sstProving else sstSealing
  | Proving | Available | UpdateActivating | ReleaseSectorKey | Removed | Removing
  | Terminating | TerminateWait | TerminateFinality | TerminateFailed => sstProving
  | _ => sstFailed
  end.

Definition IsUpgradeState (st : SectorState) : bool :=
  match st with
  | SnapDealsWaitDeals | SnapDealsAddPiece | SnapDealsPacking | UpdateReplica
  | ProveReplicaUpdate | SubmitReplicaUpdate | SnapDealsAddPieceFailed
  | SnapDealsDealsExpired | SnapDealsRecoverDealIDs | AbortUpgrade
  | ReplicaUpdateFailed | ReleaseSectorKeyFailed | FinalizeReplicaUpdateFailed => true
  | _ => false
  end.

(** ** Sector data *)

(** [abi.PieceInfo]; the size is a padded piece size. *)
Record PieceInfo := mkPieceInfo { Size : Z; PieceCID : string }.

(** [market.DealProposal]; [ProposalRest] stands for the fields that the pipeline does not read, which the CID of
    the proposal depends on. *)
Record DealProposal := mkProposal { ProposalPieceCID : string; StartEpoch : Z; EndEpoch : Z; ProposalRest : string }.

(** [api.PieceDealInfo], with the fields the pipeline reads or writes; the proposal is never nil. *)
Record PieceDealInfo := mkDealInfo { PublishCid : option string; DealID : Z; Proposal : DealProposal; KeepUnsealed : bool }.

(** [api.SectorPiece] *)
Record SectorPiece := mkPiece { Piece : PieceInfo; DealInfo : option PieceDealInfo }.

(** [storiface.ReplicaUpdateOut] *)
Record ReplicaUpdateOut := mkRUOut { NewSealed : string; NewUnsealed : string }.

Record Log := mkLog { Timestamp : Z; Trace : string; Message : string; Kind : string }.

(** [SectorInfo]; [Return] is the state [ReturnState] names, undefined when
    it is the empty string. *)
Record SectorInfo := mkSectorInfo {
  State : SectorState;
  SectorNumber : Z;
  SectorType : Z;
  CreationTime : Z;
  Pieces : list SectorPiece;
  TicketValue : string;
  TicketEpoch : Z;
  PreCommit1Out : string;
  CommD : option string;
  CommR : option string;
  Proof_ : string;
  PreCommitDeposit : Z;
  PreCommitMessage : option string;
  PreCommitTipSet : string;
  PreCommit2Fails : Z;
  SeedValue : string;
  SeedEpoch : Z;
  CommitMessage : option string;
  InvalidProofs : Z;
  CCUpdate : bool;
  CCPieces : list SectorPiece;
  UpdateSealed : option string;
  UpdateUnsealed : option string;
  ReplicaUpdateProof : string;
  ReplicaUpdateMessage : option string;
  FaultReportMsg : option string;
  Return : SectorState;
  TerminateMessage : option string;
  TerminatedAt : Z;
  RemoteDataUnsealed : option string;
  RemoteDataSealed : option string;
  RemoteDataCache : option string;
  RemoteCommit1Endpoint : string;
  RemoteCommit2Endpoint : string;
  RemoteSealingDoneEndpoint : string;
  RemoteDataFinalized : bool;
  LastErr : string;
  Logs : list Log
}.

(** The zero value of [SectorInfo]. *)
Definition zeroSector : SectorInfo :=
  mkSectorInfo UndefinedSectorState 0 0 0 [] "" 0 "" None None "" 0 None "" 0 "" 0 None 0
    false [] None None "" None None UndefinedSectorState None 0 None None None
    "" "" "" false "" [].

(** [abi.PaddedPieceSize.Unpadded] *)
Definition Unpadded (s : Z) : Z := s - s / 128.

Definition pieceInfos (t : SectorInfo) : list PieceInfo := map Piece (Pieces t).

Definition dealIDs (t : SectorInfo) : list Z :=
  omap (λ p, DealID <$> DealInfo p) (Pieces t).

Definition existingPieceSizes (t : SectorInfo) : list Z :=
  map (λ p, Unpadded (Size (Piece p))) (Pieces t).

Definition hasDeals (t : SectorInfo) : bool :=
  existsb (λ p, match DealInfo p with Some _ => true | None => false end) (Pieces t).

(** [keepUnsealedRanges]: offset and size of the pieces to keep, scanning
    with the running offset [at]. *)
Fixpoint keepRanges (pieces : list SectorPiece) (invert alwaysKeep : bool) (off : Z) :
    list (Z * Z) :=
  match pieces with
  | [] => []
  | piece :: rest =>
      let psize := Unpadded (Size (Piece piece)) in
      let off' := off + psize in
      match DealInfo piece with
      | None => keepRanges rest invert alwaysKeep off'
      | Some di =>
          let keep := KeepUnsealed di || alwaysKeep in
          if eqb keep invert then keepRanges rest invert alwaysKeep off'
          else (off' - psize, psize) :: keepRanges rest invert alwaysKeep off'
      end
  end.

Definition keepUnsealedRanges (pieces : list SectorPiece) (invert alwaysKeep : bool) :
    list (Z * Z) :=
  keepRanges pieces invert alwaysKeep 0.
