(* ===== verification/SectorEvents.v ===== *)
(** * The events of the sealing state machine (storage/pipeline/fsm_events.go)

    One constructor per event type with its fields ([struct{ error }] carries
    the error text), [apply] of the mutators, [applyGlobal] of the global
    mutators and the [Ignorable] events.  A sector under the machine is its
    [SectorInfo] and the remote notifications sent so far. *)

From coqutil Require Import Datatypes.RecordSetters.
From stdpp Require Import strings numbers base gmap fin_maps list.
From S2P Require Import Prelude SectorTypes.
Import DoubleBraceUpdate.
Local Open Scope Z_scope.

Inductive event : Type :=
| SectorRestart | SectorFatalError (error : string)
| SectorForceState (State : SectorState) | SectorStart (ID : Z) (SectorType : Z)
| SectorStartCC (ID : Z) (SectorType : Z) | SectorAddPiece
| SectorPieceAdded (NewPieces : list SectorPiece)
| SectorAddPieceFailed (error : string) | SectorRetryWaitDeals | SectorStartPacking
| SectorPacked (FillerPieces : list PieceInfo)
| SectorTicket (TicketValue : string) (TicketEpoch : Z) | SectorOldTicket
| SectorPreCommit1 (PreCommit1Out : string)
| SectorPreCommit2 (Sealed : string) (Unsealed : string) | SectorPreCommitBatch
| SectorPreCommitBatchSent (Message : string) | SectorPreCommitLanded (TipSet : string)
| SectorSealPreCommit1Failed (error : string)
| SectorSealPreCommit2Failed (error : string)
| SectorChainPreCommitFailed (error : string)
| SectorPreCommitted (Message : string) (PreCommitDeposit : Z) (PreCommitInfo : string)
| SectorSeedReady (SeedValue : string) (SeedEpoch : Z)
| SectorRemoteCommit1Failed (error : string)
| SectorRemoteCommit2Failed (error : string)
| SectorComputeProofFailed (error : string) | SectorCommitFailed (error : string)
| SectorRetrySubmitCommit | SectorDealsExpired (error : string)
| SectorTicketExpired (error : string) | SectorCommitted (Proof : string)
| SectorProofReady (Proof : string) | SectorSubmitCommitAggregate
| SectorCommitSubmitted (Message : string)
| SectorCommitAggregateSent (Message : string) | SectorProving | SectorFinalized
| SectorFinalizedAvailable | SectorRetryFinalize
| SectorFinalizeFailed (error : string) | SectorMarkForUpdate | SectorStartCCUpdate
| SectorReplicaUpdate (Out : ReplicaUpdateOut)
| SectorProveReplicaUpdate (Proof : string)
| SectorReplicaUpdateSubmitted (Message : string) | SectorReplicaUpdateLanded
| SectorUpdateActive | SectorKeyReleased | SectorRetrySealPreCommit1
| SectorRetrySealPreCommit2 | SectorRetryPreCommit | SectorRetryWaitSeed
| SectorRetryPreCommitWait | SectorRetryComputeProof | SectorRetryInvalidProof
| SectorRetryCommitWait | SectorInvalidDealIDs (Return : SectorState)
| SectorUpdateDealIDs (Updates : gmap Z Z) | SectorRetryReplicaUpdate
| SectorRetryProveReplicaUpdate | SectorUpdateReplicaFailed (error : string)
| SectorProveReplicaUpdateFailed (error : string) | SectorAbortUpgrade (error : string)
| SectorRevertUpgradeToProving | SectorRetrySubmitReplicaUpdateWait
| SectorRetrySubmitReplicaUpdate | SectorSubmitReplicaUpdateFailed
| SectorReleaseKeyFailed (error : string) | SectorFaulty
| SectorFaultReported (reportMsg : string) | SectorFaultedFinal | SectorTerminate
| SectorTerminating (Message : option string) | SectorTerminated (TerminatedAt : Z)
| SectorTerminateFailed (error : string) | SectorRemove | SectorRemoved
| SectorRemoveFailed (error : string) | SectorReceive (State : SectorInfo)
| SectorReceived.

(** What [reflect.TypeOf] tells of an event. *)
Inductive eventType : Type :=
| TSectorRestart | TSectorFatalError | TSectorForceState | TSectorStart
| TSectorStartCC | TSectorAddPiece | TSectorPieceAdded | TSectorAddPieceFailed
| TSectorRetryWaitDeals | TSectorStartPacking | TSectorPacked | TSectorTicket
| TSectorOldTicket | TSectorPreCommit1 | TSectorPreCommit2 | TSectorPreCommitBatch
| TSectorPreCommitBatchSent | TSectorPreCommitLanded | TSectorSealPreCommit1Failed
| TSectorSealPreCommit2Failed | TSectorChainPreCommitFailed | TSectorPreCommitted
| TSectorSeedReady | TSectorRemoteCommit1Failed | TSectorRemoteCommit2Failed
| TSectorComputeProofFailed | TSectorCommitFailed | TSectorRetrySubmitCommit
| TSectorDealsExpired | TSectorTicketExpired | TSectorCommitted | TSectorProofReady
| TSectorSubmitCommitAggregate | TSectorCommitSubmitted | TSectorCommitAggregateSent
| TSectorProving | TSectorFinalized | TSectorFinalizedAvailable | TSectorRetryFinalize
| TSectorFinalizeFailed | TSectorMarkForUpdate | TSectorStartCCUpdate
| TSectorReplicaUpdate | TSectorProveReplicaUpdate | TSectorReplicaUpdateSubmitted
| TSectorReplicaUpdateLanded | TSectorUpdateActive | TSectorKeyReleased
| TSectorRetrySealPreCommit1 | TSectorRetrySealPreCommit2 | TSectorRetryPreCommit
| TSectorRetryWaitSeed | TSectorRetryPreCommitWait | TSectorRetryComputeProof
| TSectorRetryInvalidProof | TSectorRetryCommitWait | TSectorInvalidDealIDs
| TSectorUpdateDealIDs | TSectorRetryReplicaUpdate | TSectorRetryProveReplicaUpdate
| TSectorUpdateReplicaFailed | TSectorProveReplicaUpdateFailed | TSectorAbortUpgrade
| TSectorRevertUpgradeToProving | TSectorRetrySubmitReplicaUpdateWait
| TSectorRetrySubmitReplicaUpdate | TSectorSubmitReplicaUpdateFailed
| TSectorReleaseKeyFailed | TSectorFaulty | TSectorFaultReported | TSectorFaultedFinal
| TSectorTerminate | TSectorTerminating | TSectorTerminated | TSectorTerminateFailed
| TSectorRemove | TSectorRemoved | TSectorRemoveFailed | TSectorReceive
| TSectorReceived.

Definition typeOf (e : event) : eventType :=
  match e with
  | SectorRestart => TSectorRestart | SectorFatalError _ => TSectorFatalError
  | SectorForceState _ => TSectorForceState | SectorStart _ _ => TSectorStart
  | SectorStartCC _ _ => TSectorStartCC | SectorAddPiece => TSectorAddPiece
  | SectorPieceAdded _ => TSectorPieceAdded
  | SectorAddPieceFailed _ => TSectorAddPieceFailed
  | SectorRetryWaitDeals => TSectorRetryWaitDeals
  | SectorStartPacking => TSectorStartPacking | SectorPacked _ => TSectorPacked
  | SectorTicket _ _ => TSectorTicket | SectorOldTicket => TSectorOldTicket
  | SectorPreCommit1 _ => TSectorPreCommit1 | SectorPreCommit2 _ _ => TSectorPreCommit2
  | SectorPreCommitBatch => TSectorPreCommitBatch
  | SectorPreCommitBatchSent _ => TSectorPreCommitBatchSent
  | SectorPreCommitLanded _ => TSectorPreCommitLanded
  | SectorSealPreCommit1Failed _ => TSectorSealPreCommit1Failed
  | SectorSealPreCommit2Failed _ => TSectorSealPreCommit2Failed
  | SectorChainPreCommitFailed _ => TSectorChainPreCommitFailed
  | SectorPreCommitted _ _ _ => TSectorPreCommitted
  | SectorSeedReady _ _ => TSectorSeedReady
  | SectorRemoteCommit1Failed _ => TSectorRemoteCommit1Failed
  | SectorRemoteCommit2Failed _ => TSectorRemoteCommit2Failed
  | SectorComputeProofFailed _ => TSectorComputeProofFailed
  | SectorCommitFailed _ => TSectorCommitFailed
  | SectorRetrySubmitCommit => TSectorRetrySubmitCommit
  | SectorDealsExpired _ => TSectorDealsExpired
  | SectorTicketExpired _ => TSectorTicketExpired
  | SectorCommitted _ => TSectorCommitted | SectorProofReady _ => TSectorProofReady
  | SectorSubmitCommitAggregate => TSectorSubmitCommitAggregate
  | SectorCommitSubmitted _ => TSectorCommitSubmitted
  | SectorCommitAggregateSent _ => TSectorCommitAggregateSent
  | SectorProving => TSectorProving | SectorFinalized => TSectorFinalized
  | SectorFinalizedAvailable => TSectorFinalizedAvailable
  | SectorRetryFinalize => TSectorRetryFinalize
  | SectorFinalizeFailed _ => TSectorFinalizeFailed
  | SectorMarkForUpdate => TSectorMarkForUpdate
  | SectorStartCCUpdate => TSectorStartCCUpdate
  | SectorReplicaUpdate _ => TSectorReplicaUpdate
  | SectorProveReplicaUpdate _ => TSectorProveReplicaUpdate
  | SectorReplicaUpdateSubmitted _ => TSectorReplicaUpdateSubmitted
  | SectorReplicaUpdateLanded => TSectorReplicaUpdateLanded
  | SectorUpdateActive => TSectorUpdateActive | SectorKeyReleased => TSectorKeyReleased
  | SectorRetrySealPreCommit1 => TSectorRetrySealPreCommit1
  | SectorRetrySealPreCommit2 => TSectorRetrySealPreCommit2
  | SectorRetryPreCommit => TSectorRetryPreCommit
  | SectorRetryWaitSeed => TSectorRetryWaitSeed
  | SectorRetryPreCommitWait => TSectorRetryPreCommitWait
  | SectorRetryComputeProof => TSectorRetryComputeProof
  | SectorRetryInvalidProof => TSectorRetryInvalidProof
  | SectorRetryCommitWait => TSectorRetryCommitWait
  | SectorInvalidDealIDs _ => TSectorInvalidDealIDs
  | SectorUpdateDealIDs _ => TSectorUpdateDealIDs
  | SectorRetryReplicaUpdate => TSectorRetryReplicaUpdate
  | SectorRetryProveReplicaUpdate => TSectorRetryProveReplicaUpdate
  | SectorUpdateReplicaFailed _ => TSectorUpdateReplicaFailed
  | SectorProveReplicaUpdateFailed _ => TSectorProveReplicaUpdateFailed
  | SectorAbortUpgrade _ => TSectorAbortUpgrade
  | SectorRevertUpgradeToProving => TSectorRevertUpgradeToProving
  | SectorRetrySubmitReplicaUpdateWait => TSectorRetrySubmitReplicaUpdateWait
  | SectorRetrySubmitReplicaUpdate => TSectorRetrySubmitReplicaUpdate
  | SectorSubmitReplicaUpdateFailed => TSectorSubmitReplicaUpdateFailed
  | SectorReleaseKeyFailed _ => TSectorReleaseKeyFailed | SectorFaulty => TSectorFaulty
  | SectorFaultReported _ => TSectorFaultReported
  | SectorFaultedFinal => TSectorFaultedFinal | SectorTerminate => TSectorTerminate
  | SectorTerminating _ => TSectorTerminating | SectorTerminated _ => TSectorTerminated
  | SectorTerminateFailed _ => TSectorTerminateFailed | SectorRemove => TSectorRemove
  | SectorRemoved => TSectorRemoved | SectorRemoveFailed _ => TSectorRemoveFailed
  | SectorReceive _ => TSectorReceive | SectorReceived => TSectorReceived
  end.

Definition typeTag (t : eventType) : N :=
  match t with
  | TSectorRestart => 0%N | TSectorFatalError => 1%N | TSectorForceState => 2%N
  | TSectorStart => 3%N | TSectorStartCC => 4%N | TSectorAddPiece => 5%N
  | TSectorPieceAdded => 6%N | TSectorAddPieceFailed => 7%N
  | TSectorRetryWaitDeals => 8%N | TSectorStartPacking => 9%N | TSectorPacked => 10%N
  | TSectorTicket => 11%N | TSectorOldTicket => 12%N | TSectorPreCommit1 => 13%N
  | TSectorPreCommit2 => 14%N | TSectorPreCommitBatch => 15%N
  | TSectorPreCommitBatchSent => 16%N | TSectorPreCommitLanded => 17%N
  | TSectorSealPreCommit1Failed => 18%N | TSectorSealPreCommit2Failed => 19%N
  | TSectorChainPreCommitFailed => 20%N | TSectorPreCommitted => 21%N
  | TSectorSeedReady => 22%N | TSectorRemoteCommit1Failed => 23%N
  | TSectorRemoteCommit2Failed => 24%N | TSectorComputeProofFailed => 25%N
  | TSectorCommitFailed => 26%N | TSectorRetrySubmitCommit => 27%N
  | TSectorDealsExpired => 28%N | TSectorTicketExpired => 29%N
  | TSectorCommitted => 30%N | TSectorProofReady => 31%N
  | TSectorSubmitCommitAggregate => 32%N | TSectorCommitSubmitted => 33%N
  | TSectorCommitAggregateSent => 34%N | TSectorProving => 35%N
  | TSectorFinalized => 36%N | TSectorFinalizedAvailable => 37%N
  | TSectorRetryFinalize => 38%N | TSectorFinalizeFailed => 39%N
  | TSectorMarkForUpdate => 40%N | TSectorStartCCUpdate => 41%N
  | TSectorReplicaUpdate => 42%N | TSectorProveReplicaUpdate => 43%N
  | TSectorReplicaUpdateSubmitted => 44%N | TSectorReplicaUpdateLanded => 45%N
  | TSectorUpdateActive => 46%N | TSectorKeyReleased => 47%N
  | TSectorRetrySealPreCommit1 => 48%N | TSectorRetrySealPreCommit2 => 49%N
  | TSectorRetryPreCommit => 50%N | TSectorRetryWaitSeed => 51%N
  | TSectorRetryPreCommitWait => 52%N | TSectorRetryComputeProof => 53%N
  | TSectorRetryInvalidProof => 54%N | TSectorRetryCommitWait => 55%N
  | TSectorInvalidDealIDs => 56%N | TSectorUpdateDealIDs => 57%N
  | TSectorRetryReplicaUpdate => 58%N | TSectorRetryProveReplicaUpdate => 59%N
  | TSectorUpdateReplicaFailed => 60%N | TSectorProveReplicaUpdateFailed => 61%N
  | TSectorAbortUpgrade => 62%N | TSectorRevertUpgradeToProving => 63%N
  | TSectorRetrySubmitReplicaUpdateWait => 64%N
  | TSectorRetrySubmitReplicaUpdate => 65%N | TSectorSubmitReplicaUpdateFailed => 66%N
  | TSectorReleaseKeyFailed => 67%N | TSectorFaulty => 68%N
  | TSectorFaultReported => 69%N | TSectorFaultedFinal => 70%N
  | TSectorTerminate => 71%N | TSectorTerminating => 72%N | TSectorTerminated => 73%N
  | TSectorTerminateFailed => 74%N | TSectorRemove => 75%N | TSectorRemoved => 76%N
  | TSectorRemoveFailed => 77%N | TSectorReceive => 78%N | TSectorReceived => 79%N
  end.

Definition tagType (i : N) : eventType :=
  match i with
  | 0%N => TSectorRestart | 1%N => TSectorFatalError | 2%N => TSectorForceState
  | 3%N => TSectorStart | 4%N => TSectorStartCC | 5%N => TSectorAddPiece
  | 6%N => TSectorPieceAdded | 7%N => TSectorAddPieceFailed
  | 8%N => TSectorRetryWaitDeals | 9%N => TSectorStartPacking | 10%N => TSectorPacked
  | 11%N => TSectorTicket | 12%N => TSectorOldTicket | 13%N => TSectorPreCommit1
  | 14%N => TSectorPreCommit2 | 15%N => TSectorPreCommitBatch
  | 16%N => TSectorPreCommitBatchSent | 17%N => TSectorPreCommitLanded
  | 18%N => TSectorSealPreCommit1Failed | 19%N => TSectorSealPreCommit2Failed
  | 20%N => TSectorChainPreCommitFailed | 21%N => TSectorPreCommitted
  | 22%N => TSectorSeedReady | 23%N => TSectorRemoteCommit1Failed
  | 24%N => TSectorRemoteCommit2Failed | 25%N => TSectorComputeProofFailed
  | 26%N => TSectorCommitFailed | 27%N => TSectorRetrySubmitCommit
  | 28%N => TSectorDealsExpired | 29%N => TSectorTicketExpired
  | 30%N => TSectorCommitted | 31%N => TSectorProofReady
  | 32%N => TSectorSubmitCommitAggregate | 33%N => TSectorCommitSubmitted
  | 34%N => TSectorCommitAggregateSent | 35%N => TSectorProving
  | 36%N => TSectorFinalized | 37%N => TSectorFinalizedAvailable
  | 38%N => TSectorRetryFinalize | 39%N => TSectorFinalizeFailed
  | 40%N => TSectorMarkForUpdate | 41%N => TSectorStartCCUpdate
  | 42%N => TSectorReplicaUpdate | 43%N => TSectorProveReplicaUpdate
  | 44%N => TSectorReplicaUpdateSubmitted | 45%N => TSectorReplicaUpdateLanded
  | 46%N => TSectorUpdateActive | 47%N => TSectorKeyReleased
  | 48%N => TSectorRetrySealPreCommit1 | 49%N => TSectorRetrySealPreCommit2
  | 50%N => TSectorRetryPreCommit | 51%N => TSectorRetryWaitSeed
  | 52%N => TSectorRetryPreCommitWait | 53%N => TSectorRetryComputeProof
  | 54%N => TSectorRetryInvalidProof | 55%N => TSectorRetryCommitWait
  | 56%N => TSectorInvalidDealIDs | 57%N => TSectorUpdateDealIDs
  | 58%N => TSectorRetryReplicaUpdate | 59%N => TSectorRetryProveReplicaUpdate
  | 60%N => TSectorUpdateReplicaFailed | 61%N => TSectorProveReplicaUpdateFailed
  | 62%N => TSectorAbortUpgrade | 63%N => TSectorRevertUpgradeToProving
  | 64%N => TSectorRetrySubmitReplicaUpdateWait
  | 65%N => TSectorRetrySubmitReplicaUpdate | 66%N => TSectorSubmitReplicaUpdateFailed
  | 67%N => TSectorReleaseKeyFailed | 68%N => TSectorFaulty
  | 69%N => TSectorFaultReported | 70%N => TSectorFaultedFinal
  | 71%N => TSectorTerminate | 72%N => TSectorTerminating | 73%N => TSectorTerminated
  | 74%N => TSectorTerminateFailed | 75%N => TSectorRemove | 76%N => TSectorRemoved
  | 77%N => TSectorRemoveFailed | 78%N => TSectorReceive | 79%N => TSectorReceived
  | _ => TSectorRestart
  end.

Lemma tagType_typeTag t : tagType (typeTag t) = t.
Proof. by destruct t. Qed.

#[global] Instance eventType_eq_dec : EqDecision eventType.
Proof.
  intros x y. destruct (decide (typeTag x = typeTag y)) as [E|E].
  - left. by rewrite <- (tagType_typeTag x), E, tagType_typeTag.
  - right. intros ->. done.
Defined.

(** The events that implement [xerrors.Formatter]. *)
Definition isFormatter (e : event) : bool :=
  match e with
  | SectorFatalError _ | SectorAddPieceFailed _ | SectorSealPreCommit1Failed _
  | SectorSealPreCommit2Failed _ | SectorChainPreCommitFailed _
  | SectorRemoteCommit1Failed _ | SectorRemoteCommit2Failed _
  | SectorComputeProofFailed _ | SectorCommitFailed _ | SectorDealsExpired _
  | SectorTicketExpired _ | SectorFinalizeFailed _ | SectorUpdateReplicaFailed _
  | SectorProveReplicaUpdateFailed _ | SectorAbortUpgrade _ | SectorReleaseKeyFailed _
  | SectorTerminateFailed _ | SectorRemoveFailed _ => true
  | _ => false
  end.

(** ** Mutators *)

(** [uint64] counters. *)
Definition wrapU64 (z : Z) : Z := z mod 2 ^ 64.

(** [state.Pieces[i].DealInfo.DealID = id]: panics out of range and for a
    piece without a deal. *)
Definition setDealID (pieces : list SectorPiece) (i id : Z) : outcome (list SectorPiece) :=
  p ← index pieces i;
  match DealInfo p with
  | Some di => Ret (<[Z.to_nat i := mkPiece (Piece p) (Some (mkDealInfo (PublishCid di) id (Proposal di) (KeepUnsealed di)))]> pieces)
  | None => Crash
  end.

Fixpoint setDealIDs (pieces : list SectorPiece) (updates : list (Z * Z)) :
    outcome (list SectorPiece) :=
  match updates with
  | [] => Ret pieces
  | (i, id) :: rest => pieces' ← setDealID pieces i id; setDealIDs pieces' rest
  end.

(** The events from [SectorStart] to [SectorPreCommitted]; [now] is
    [time.Now().Unix()]. *)
Definition applySealing (now : Z) (evt : event) (state : SectorInfo) : SectorInfo :=
  match evt with
  | SectorStart id ty => state {{ SectorNumber := id; SectorType := ty }}
  | SectorStartCC id ty => state {{ SectorNumber := id; SectorType := ty }}
  | SectorAddPiece => if decide (CreationTime state = 0) then state {{ CreationTime := now }} else state
  | SectorPieceAdded newPieces => state {{ Pieces := Pieces state ++ newPieces }}
  | SectorPacked fillers =>
      state {{ Pieces := Pieces state ++ map (λ p, mkPiece p None) fillers }}
  | SectorTicket v e => state {{ TicketEpoch := e; TicketValue := v }}
  | SectorPreCommit1 out => state {{ PreCommit1Out := out; PreCommit2Fails := 0 }}
  | SectorPreCommit2 sealed unsealed => state {{ CommD := Some unsealed; CommR := Some sealed }}
  | SectorPreCommitBatchSent m => state {{ PreCommitMessage := Some m }}
  | SectorPreCommitLanded ts => state {{ PreCommitTipSet := ts }}
  | SectorSealPreCommit1Failed _ => state {{ InvalidProofs := 0; PreCommit2Fails := 0 }}
  | SectorSealPreCommit2Failed _ =>
      state {{ InvalidProofs := 0; PreCommit2Fails := wrapU64 (PreCommit2Fails state + 1) }}
  | SectorPreCommitted m deposit _ =>
      state {{ PreCommitMessage := Some m; PreCommitDeposit := deposit }}
  | _ => state
  end.

(** The events from [SectorSeedReady] to [SectorFinalizeFailed]. *)
Definition applyCommit (evt : event) (state : SectorInfo) : SectorInfo :=
  match evt with
  | SectorSeedReady v e => state {{ SeedEpoch := e; SeedValue := v }}
  | SectorCommitted proof => state {{ Proof_ := proof }}
  | SectorProofReady proof => state {{ Proof_ := proof }}
  | SectorCommitSubmitted m => state {{ CommitMessage := Some m }}
  | SectorCommitAggregateSent m => state {{ CommitMessage := Some m }}
  | _ => state
  end.

(** The snap-deal events, their failures and their reversal. *)
Definition applySnap (evt : event) (state : SectorInfo) : SectorInfo :=
  match evt with
  | SectorStartCCUpdate =>
      state {{ CCUpdate := true; CCPieces := Pieces state; Pieces := [] }}
  | SectorReplicaUpdate out =>
      state {{ UpdateSealed := Some (NewSealed out); UpdateUnsealed := Some (NewUnsealed out) }}
  | SectorProveReplicaUpdate proof => state {{ ReplicaUpdateProof := proof }}
  | SectorReplicaUpdateSubmitted m => state {{ ReplicaUpdateMessage := Some m }}
  | SectorRevertUpgradeToProving =>
      state {{ CCUpdate := false; UpdateSealed := None; UpdateUnsealed := None;
               ReplicaUpdateProof := ""; ReplicaUpdateMessage := None;
               Pieces := CCPieces state; CCPieces := [] }}
  | _ => state
  end.

(** Recovery events of the failed states. *)
Definition applyRecovery (evt : event) (state : SectorInfo) : outcome SectorInfo :=
  match evt with
  | SectorRetryComputeProof => Ret (state {{ InvalidProofs := wrapU64 (InvalidProofs state + 1) }})
  | SectorRetryInvalidProof => Ret (state {{ InvalidProofs := wrapU64 (InvalidProofs state + 1) }})
  | SectorInvalidDealIDs r => Ret (state {{ Return := r }})
  | SectorUpdateDealIDs updates =>
      pieces ← setDealIDs (Pieces state) (map_to_list updates);
      Ret (state {{ Pieces := pieces }})
  | _ => Ret state
  end.

(** Faults, termination, removal and import. *)
Definition applyPostSeal (evt : event) (state : SectorInfo) : SectorInfo :=
  match evt with
  | SectorFaultReported m => state {{ FaultReportMsg := Some m }}
  | SectorTerminating m => state {{ TerminateMessage := m }}
  | SectorTerminated at_ => state {{ TerminatedAt := at_ }}
  | SectorReceive st => st
  | _ => state
  end.

(** [event.User.(mutator).apply(state)]: each event has one of the groups. *)
Definition apply (now : Z) (evt : event) (state : SectorInfo) : outcome SectorInfo :=
  s1 ← applyRecovery evt state;
  Ret (applyPostSeal evt (applySnap evt (applyCommit evt (applySealing now evt s1)))).

(** ** Global mutators *)

(** [api.RemoteSealingDoneParams] as posted to the remote endpoint. *)
Record RemoteDone := mkRemoteDone
  { rdEndpoint : string; rdSuccessful : bool; rdState : string; rdCommitMessage : option string }.

(** A sector and the notifications it has caused. *)
Record sector := mkSector { info : SectorInfo; sent : list RemoteDone }.

(** [maybeNotifyRemoteDone]: a post when the endpoint is set. *)
Definition maybeNotifyRemoteDone (success : bool) (state : string) (s : sector) : sector :=
  if decide (RemoteSealingDoneEndpoint (info s) = "") then s
  else s {{ sent ::= λ l, l ++ [mkRemoteDone (RemoteSealingDoneEndpoint (info s)) success state
                                  (CommitMessage (info s))] }}.

Definition setState (st : SectorState) (s : sector) : sector :=
  s {{ info := (info s) {{ State := st }} }}.

(** [applyGlobal], for the events that are a [globalMutator]; the boolean
    says that event processing is to be interrupted. *)
Definition applyGlobal (evt : event) (s : sector) : option (sector * bool) :=
  match evt with
  | SectorRestart => Some (s, false)
  | SectorFatalError _ => Some (s, true)
  | SectorForceState st => Some (setState st s, true)
  | SectorTerminate => Some (setState Terminating s, true)
  | SectorRemove => Some (setState Removing (maybeNotifyRemoteDone false "Removing" s), true)
  | _ => None
  end.

Definition isGlobal (evt : event) : bool :=
  match evt with
  | SectorRestart | SectorFatalError _ | SectorForceState _ | SectorTerminate | SectorRemove => true
  | _ => false
  end.

(** The events with an [Ignore] method. *)
Definition isIgnorable (evt : event) : bool :=
  match evt with SectorStartPacking => true | _ => false end.
