(* ===== verification/SectorStats.v ===== *)
(** * Sector statistics of storage/pipeline (stats.go)

    [SectorStats.updateSector] keeps, per sector, its last state and, per
    class of states, the number of sectors; the counters throttle how many
    sectors enter the pipeline.  The invariant: every counter is the number of
    tracked sectors of its class. *)

From coqutil Require Import Datatypes.RecordSetters.
From stdpp Require Import strings numbers base gmap fin_maps list.
From S2P Require Import Prelude SectorTypes SectorEvents.
Import DoubleBraceUpdate.
Local Open Scope Z_scope.

(** The fields of [sealiface.Config] that the statistics read. *)
Record Config := mkConfig
  { MaxWaitDealsSectors : Z; MaxSealingSectorsForDeals : Z; FinalizeEarly : bool }.

(** [abi.SectorID]: the miner and the sector number. *)
Abbreviation SectorID := (Z * Z)%type.

(** [totals] is an array of [uint64] indexed by [statSectorState]. *)
Record SectorStats := mkStats
  { bySector : gmap SectorID SectorState; byState : gmap SectorState Z; totals : statSectorState → Z }.

Definition emptyStats : SectorStats := mkStats ∅ ∅ (λ _, 0).

Definition addTotal (t : statSectorState → Z) (k : statSectorState) (d : Z) : statSectorState → Z :=
  λ k', if decide (k' = k) then wrapU64 (t k' + d) else t k'.

Definition addState (m : gmap SectorState Z) (st : SectorState) (d : Z) : gmap SectorState Z :=
  <[st := default 0 (m !! st) + d]> m.

Definition curSealingLocked (ss : SectorStats) : Z :=
  wrapU64 (wrapU64 (totals ss sstStaging + totals ss sstSealing) + totals ss sstFailed).

Definition curStagingLocked (ss : SectorStats) : Z := totals ss sstStaging.

Definition curSealing (ss : SectorStats) : Z := curSealingLocked ss.
Definition curStaging (ss : SectorStats) : Z := curStagingLocked ss.

(** [updateSector]: the new statistics and whether input processing may
    continue. *)
Definition updateSector (cfg : Config) (id : SectorID) (st : SectorState) (ss : SectorStats) :
    SectorStats * bool :=
  let preSealing := curSealingLocked ss in
  let preStaging := curStagingLocked ss in
  let ss1 := match bySector ss !! id with
             | Some oldst =>
                 ss {{ totals := addTotal (totals ss) (toStatState oldst (FinalizeEarly cfg)) (-1);
                       byState := addState (byState ss) oldst (-1) }}
             | None => ss
             end in
  let ss2 := ss1 {{ bySector := <[id := st]> (bySector ss1);
                    totals := addTotal (totals ss1) (toStatState st (FinalizeEarly cfg)) 1;
                    byState := addState (byState ss1) st 1 }} in
  let sealing := curSealingLocked ss2 in
  let staging := curStagingLocked ss2 in
  let up1 := bool_decide (0 < MaxSealingSectorsForDeals cfg) &&
             bool_decide (MaxSealingSectorsForDeals cfg ≤ preSealing) &&
             bool_decide (sealing < MaxSealingSectorsForDeals cfg) in
  let up2 := bool_decide (0 < MaxWaitDealsSectors cfg) &&
             bool_decide (MaxWaitDealsSectors cfg ≤ preStaging) &&
             bool_decide (staging < MaxWaitDealsSectors cfg) in
  (ss2, up1 || up2).

(** ** Counting the sectors of a map *)

Section count.
Context {K : Type} `{Countable K} {V : Type}.

(** The number of entries whose value satisfies [P]. *)
Definition countIf (P : V → Prop) `{!∀ v, Decision (P v)} (m : gmap K V) : Z :=
  Z.of_nat (size (filter (λ kv, P kv.2) m)).

Definition oneIf (P : Prop) `{!Decision P} : Z := if decide P then 1 else 0.

Lemma countIf_insert_new P `{!∀ v, Decision (P v)} (m : gmap K V) i x :
  m !! i = None → countIf P (<[i := x]> m) = countIf P m + oneIf (P x).
Proof.
  intros Hi. unfold countIf, oneIf. case_decide as Hx.
  - rewrite map_filter_insert_True by done.
    rewrite map_size_insert_None; [lia|]. apply map_lookup_filter_None. by left.
  - rewrite map_filter_insert_False by done. rewrite delete_id by done. lia.
Qed.

Lemma countIf_insert P `{!∀ v, Decision (P v)} (m : gmap K V) i x :
  countIf P (<[i := x]> m)
  = countIf P m - (match m !! i with Some y => oneIf (P y) | None => 0 end) + oneIf (P x).
Proof.
  destruct (m !! i) as [y|] eqn:Hi; [|rewrite countIf_insert_new by done; lia].
  rewrite <- (insert_delete_id m i y Hi) at 2.
  rewrite <- insert_delete_eq.
  rewrite !countIf_insert_new by apply lookup_delete_eq. lia.
Qed.

Lemma countIf_bounds P `{!∀ v, Decision (P v)} (m : gmap K V) :
  0 ≤ countIf P m ≤ Z.of_nat (size m).
Proof.
  unfold countIf. split; [lia|]. apply inj_le, map_size_filter.
Qed.
End count.

(** ** The invariant *)

Section invariant.
Variable cfg : Config.

(** The class of a state under the configuration. *)
Definition inClass (k : statSectorState) (st : SectorState) : Prop :=
  toStatState st (FinalizeEarly cfg) = k.

#[global] Instance inClass_dec k st : Decision (inClass k st).
Proof. unfold inClass. apply _. Defined.

(** Every counter counts the tracked sectors of its class, and every gauge
    the tracked sectors of its state. *)
Definition counted (ss : SectorStats) : Prop :=
  (∀ k, totals ss k = wrapU64 (countIf (inClass k) (bySector ss))) ∧
  (∀ st, default 0 (byState ss !! st) = countIf (λ x, x = st) (bySector ss)).

Lemma wrapU64_add a b : wrapU64 (wrapU64 a + b) = wrapU64 (a + b).
Proof. unfold wrapU64. by rewrite Zplus_mod_idemp_l. Qed.

Lemma addTotal_wrap t (f : statSectorState → Z) k d :
  (∀ k', t k' = wrapU64 (f k')) →
  ∀ k', addTotal t k d k' = wrapU64 (f k' + (if decide (k = k') then d else 0)).
Proof.
  intros Ht k'. unfold addTotal. destruct (decide (k' = k)) as [->|Hk].
  - rewrite decide_True by done. by rewrite Ht, wrapU64_add.
  - rewrite decide_False by congruence. by rewrite Ht, Z.add_0_r.
Qed.

Lemma addState_lookup m st d st' :
  default 0 (addState m st d !! st') = default 0 (m !! st') + (if decide (st = st') then d else 0).
Proof.
  unfold addState. destruct (decide (st = st')) as [->|Hn].
  - by rewrite lookup_insert_eq.
  - rewrite lookup_insert_ne by done. lia.
Qed.

Lemma counted_empty : counted emptyStats.
Proof. split; intros; reflexivity. Qed.

Lemma counted_updateSector id st ss : counted ss → counted (updateSector cfg id st ss).1.
Proof.
  destruct ss as [m b t]. intros [Ht Hs]. unfold updateSector, counted in *. simpl in *.
  destruct (m !! id) as [old|] eqn:E; cbv [constant]; simpl; split.
  - intros k. rewrite countIf_insert, E.
    rewrite (addTotal_wrap _ (λ k', countIf (inClass k') m +
              (if decide (toStatState old (FinalizeEarly cfg) = k') then -1 else 0)));
      [|by apply addTotal_wrap].
    f_equal. unfold oneIf, inClass. repeat case_decide; first [lia | congruence].
  - intros s. rewrite !addState_lookup, Hs, countIf_insert, E. unfold oneIf.
    repeat case_decide; first [lia | congruence].
  - intros k. rewrite countIf_insert, E, (addTotal_wrap _ _ _ _ Ht).
    f_equal. unfold oneIf, inClass. repeat case_decide; first [lia | congruence].
  - intros s. rewrite !addState_lookup, Hs, countIf_insert, E. unfold oneIf.
    repeat case_decide; first [lia | congruence].
Qed.

(** A run of updates. *)
Fixpoint updates (l : list (SectorID * SectorState)) (ss : SectorStats) : SectorStats :=
  match l with
  | [] => ss
  | (id, st) :: rest => updates rest (updateSector cfg id st ss).1
  end.

Lemma counted_updates l ss : counted ss → counted (updates l ss).
Proof.
  revert ss. induction l as [|[id st] l IH]; intros ss H; [done|].
  apply IH, counted_updateSector, H.
Qed.

Lemma bySector_updates l ss :
  bySector (updates l ss) = list_to_map (reverse l) ∪ bySector ss.
Proof.
  revert ss. induction l as [|[id st] l IH]; intros ss.
  - simpl. by rewrite map_empty_union.
  - cbn [updates]. rewrite IH, reverse_cons, list_to_map_app. simpl.
    rewrite <- (assoc_L (∪)), insert_empty, <- insert_union_singleton_l. f_equal.
    destruct ss as [m b t]. unfold updateSector. simpl. by destruct (m !! id).
Qed.

Lemma wrapU64_id z : 0 ≤ z < 2 ^ 64 → wrapU64 z = z.
Proof. intros. by apply Z.mod_small. Qed.

Lemma counted_total ss k :
  counted ss → Z.of_nat (size (bySector ss)) < 2 ^ 64 →
  totals ss k = countIf (inClass k) (bySector ss).
Proof.
  intros [Ht _] Hsz. rewrite Ht. apply wrapU64_id.
  pose proof (countIf_bounds (inClass k) (bySector ss)). lia.
Qed.

Lemma size_list_to_map_le (l : list (SectorID * SectorState)) :
  (size (list_to_map l : gmap SectorID SectorState) ≤ length l)%nat.
Proof.
  induction l as [|[i x] l IH]; [done|]. simpl. rewrite map_size_insert.
  destruct (_ !! i); simpl; lia.
Qed.

(** The tracked sectors still in the pipeline. *)
Definition unsealed (st : SectorState) : Prop := toStatState st (FinalizeEarly cfg) ≠ sstProving.

#[global] Instance unsealed_dec st : Decision (unsealed st).
Proof. unfold unsealed. apply _. Defined.

Lemma countIf_unsealed (m : gmap SectorID SectorState) :
  countIf unsealed m
  = countIf (inClass sstStaging) m + countIf (inClass sstSealing) m + countIf (inClass sstFailed) m.
Proof.
  induction m as [|i x m Hi IH] using map_ind; [done|].
  rewrite !countIf_insert_new, IH by done. unfold oneIf.
  repeat case_decide; unfold unsealed, inClass in *;
    destruct (toStatState x (FinalizeEarly cfg)); first [lia | exfalso; naive_solver].
Qed.

Lemma counted_curSealing ss :
  counted ss → Z.of_nat (size (bySector ss)) < 2 ^ 64 →
  curSealing ss = countIf unsealed (bySector ss).
Proof.
  intros H Hsz. unfold curSealing, curSealingLocked. rewrite !(counted_total _ _ H Hsz).
  rewrite wrapU64_add, <- countIf_unsealed. apply wrapU64_id.
  pose proof (countIf_bounds unsealed (bySector ss)). lia.
Qed.

(** Under a fixed configuration the statistics are exact: after any run of
    updates (for fewer than 2^64 sectors) the state kept for a sector is the
    one of its last update, [curStaging] is the number of sectors whose last
    state is a staging state and [curSealing] the number of sectors whose last
    state is not a proving state; no counter underflows on the way. *)
Theorem updates_count l :
  Z.of_nat (length l) < 2 ^ 64 →
  let ss := updates l emptyStats in
  bySector ss = list_to_map (reverse l) ∧
  curStaging ss = countIf (inClass sstStaging) (bySector ss) ∧
  curSealing ss = countIf unsealed (bySector ss) ∧
  (∀ k, totals ss k = countIf (inClass k) (bySector ss)) ∧
  (∀ st, default 0 (byState ss !! st) = countIf (λ x, x = st) (bySector ss)).
Proof.
  intros Hl ss. assert (counted ss) as H by apply counted_updates, counted_empty.
  assert (bySector ss = list_to_map (reverse l)) as E.
  { unfold ss. rewrite bySector_updates. apply map_union_empty. }
  assert (Z.of_nat (size (bySector ss)) < 2 ^ 64) as Hsz.
  { rewrite E. pose proof (size_list_to_map_le (reverse l)) as Hs.
    rewrite length_reverse in Hs. lia. }
  split_and!; [done| |by apply counted_curSealing|by intros; apply counted_total|apply H].
  by apply counted_total.
Qed.
End invariant.

(** Three sectors; one of them has reached [CommitWait], which counts as
    proving only under [FinalizeEarly]. *)
Definition demoRun : list (SectorID * SectorState) :=
  [((1000, 1), Packing); ((1000, 2), WaitDeals); ((1000, 1), CommitWait); ((1000, 3), FailedUnrecoverable)].

Lemma updates_count_witness :
  let ss := updates (mkConfig 2 2 true) demoRun emptyStats in
  curSealing ss = 2 ∧
  curSealing ss = countIf (unsealed (mkConfig 2 2 true)) (bySector ss).
Proof.
  split; [reflexivity|]. apply (updates_count (mkConfig 2 2 true) demoRun). reflexivity.
Defined.

Lemma countIf_insert_step (P : SectorState → Prop) `{!∀ v, Decision (P v)}
    (m : gmap SectorID SectorState) i x :
  countIf P m - 1 ≤ countIf P (<[i := x]> m) ≤ countIf P m + 1.
Proof.
  rewrite countIf_insert. unfold oneIf. destruct (m !! i); repeat case_decide; lia.
Qed.

Lemma bySector_updateSector cfg id st ss :
  bySector (updateSector cfg id st ss).1 = <[id := st]> (bySector ss).
Proof. destruct ss as [m b t]. unfold updateSector. simpl. by destruct (m !! id). Qed.

(** The answer of [updateSector] in terms of the counters before and after. *)
Lemma updateSector_answer cfg id st ss :
  let ss' := (updateSector cfg id st ss).1 in
  (updateSector cfg id st ss).2 = true ↔
  (0 < MaxSealingSectorsForDeals cfg ∧ MaxSealingSectorsForDeals cfg ≤ curSealing ss
   ∧ curSealing ss' < MaxSealingSectorsForDeals cfg)
  ∨ (0 < MaxWaitDealsSectors cfg ∧ MaxWaitDealsSectors cfg ≤ curStaging ss
   ∧ curStaging ss' < MaxWaitDealsSectors cfg).
Proof.
  unfold updateSector. cbv zeta. unfold fst, snd, curSealing, curStaging.
  rewrite orb_true_iff, !andb_true_iff, !bool_decide_eq_true. tauto.
Qed.

(** [updateSector] asks for more input exactly when its update takes a set
    limit from reached to free: the number of sectors in the pipeline falls
    from the sealing limit to one below it, or the number of staging sectors
    falls from the wait-deals limit to one below it. *)
Theorem updateSector_frees_slot cfg id st ss :
  counted cfg ss → Z.of_nat (size (bySector ss)) + 1 < 2 ^ 64 →
  let m := bySector ss in
  let m' := <[id := st]> m in
  (updateSector cfg id st ss).2 = true ↔
  (0 < MaxSealingSectorsForDeals cfg
   ∧ countIf (unsealed cfg) m = MaxSealingSectorsForDeals cfg
   ∧ countIf (unsealed cfg) m' = MaxSealingSectorsForDeals cfg - 1)
  ∨ (0 < MaxWaitDealsSectors cfg
   ∧ countIf (inClass cfg sstStaging) m = MaxWaitDealsSectors cfg
   ∧ countIf (inClass cfg sstStaging) m' = MaxWaitDealsSectors cfg - 1).
Proof.
  intros H Hsz m m'. rewrite updateSector_answer.
  pose proof (counted_updateSector cfg id st ss H) as H'.
  assert (Z.of_nat (size (bySector (updateSector cfg id st ss).1)) < 2 ^ 64) as Hsz'.
  { rewrite bySector_updateSector, map_size_insert. destruct (_ !! id); simpl; lia. }
  unfold curStaging, curStagingLocked.
  rewrite !counted_curSealing with (cfg := cfg), !counted_total with (cfg := cfg) by (done || lia).
  rewrite bySector_updateSector. fold m. fold m'.
  pose proof (countIf_insert_step (unsealed cfg) m id st) as S1.
  pose proof (countIf_insert_step (inClass cfg sstStaging) m id st) as S2.
  fold m' in S1, S2. lia.
Qed.

Lemma updateSector_frees_slot_witness :
  let cfg := mkConfig 2 2 true in
  let ss := updates cfg demoRun emptyStats in
  counted cfg ss ∧ Z.of_nat (size (bySector ss)) + 1 < 2 ^ 64 ∧
  (updateSector cfg (1000, 2) Proving ss).2 = true.
Proof.
  split; [apply counted_updates, counted_empty|]. split; [reflexivity|].
  apply (updateSector_frees_slot (mkConfig 2 2 true)).
  - apply counted_updates, counted_empty.
  - reflexivity.
  - left. split; [reflexivity|]. split; reflexivity.
Defined.

(** The counters are exact only while [FinalizeEarly] keeps its value,
    which [updateSector] reads anew at each call: a sector counted as sealing
    in [CommitWait] is taken from the proving counter once the option is
    switched on.  That counter then wraps to 2^64 - 1 and the pipeline count
    stays one too high for a sector that is already proving. *)
Theorem stats_drift_when_FinalizeEarly_changes :
  let before := mkConfig 2 2 false in
  let after := mkConfig 2 2 true in
  let ss1 := (updateSector before (1000, 1) CommitWait emptyStats).1 in
  let ss2 := (updateSector after (1000, 1) FinalizeSector ss1).1 in
  let ss3 := (updateSector after (1000, 1) Proving ss2).1 in
  totals ss2 sstProving = 2 ^ 64 - 1 ∧
  bySector ss3 = {[ (1000, 1) := Proving ]} ∧ curSealing ss3 = 1.
Proof. vm_compute. done. Qed.
