(* ===== verification/SectorFsm.v ===== *)
(** * The sealing state machine of storage/pipeline (fsm.go)

    [fsmPlanners] maps a state to its planner: a table of transitions read by
    [planOne] or [planOneOrIgnore], or one of [planCommitting], [final] and
    [finalRemoved].  [plan] logs the events, runs the planner of the current
    state, updates the statistics and names the handler to run next; [Plan] is
    the entry point of the state-machine library.  The text that [fmt] and
    [json] produce for log entries is a parameter. *)

From coqutil Require Import Datatypes.RecordSetters.
From stdpp Require Import strings numbers base gmap fin_maps list.
From S2P Require Import Prelude SectorTypes SectorEvents SectorStats.
Import DoubleBraceUpdate.
Local Open Scope Z_scope.

(** ** Transitions and planners *)

(** The errors of planners, with the state and the type they name. *)
Inductive planErr : Type :=
| UnexpectedEvent (st : SectorState) (ty : eventType)
| ReturnNotSet
| UnknownCommitting (ty : eventType)
| NoEventsExpected (st : SectorState)
| PlannerNotFound (st : SectorState)
| PlannerFailed (st : SectorState) (e : planErr).

(** The entries of a table: [on], [onWithCB] (whose callback is always
    [maybeNotifyRemoteDone success name]), [apply] and [onReturning]. *)
Inductive transition : Type :=
| On (mut : eventType) (next : SectorState)
| OnWithCB (mut : eventType) (next : SectorState) (success : bool) (name : string)
| ApplyOnly (mut : eventType)
| OnReturning (mut : eventType).

Inductive planner : Type :=
| PlanOne (ts : list transition)
| PlanOneOrIgnore (ts : list transition)
| PlanCommitting
| Final
| FinalRemoved.

(** The first component of what a transition returns: its event type. *)
Definition mutOf (t : transition) : eventType :=
  match t with On m _ | OnWithCB m _ _ _ | ApplyOnly m | OnReturning m => m end.

(** The second component: the sector afterwards, whether to go on with more
    events, and the error. *)
Definition next (t : transition) (s : sector) : sector * (bool * option planErr) :=
  match t with
  | On _ st => (setState st s, (false, None))
  | OnWithCB _ st success name => (setState st (maybeNotifyRemoteDone success name s), (false, None))
  | ApplyOnly _ => (s, (true, None))
  | OnReturning _ =>
      if decide (Return (info s) = UndefinedSectorState) then (s, (false, Some ReturnNotSet))
      else (mkSector ((info s) {{ State := Return (info s); Return := UndefinedSectorState }}) (sent s),
            (false, None))
  end.

(** *** The table *)

Definition fsmPlannersSealing (st : SectorState) : option planner :=
  match st with
  | ReceiveSector => Some (PlanOne
      [OnReturning TSectorReceived])
  | UndefinedSectorState => Some (PlanOne
      [On TSectorStart WaitDeals; On TSectorStartCC Packing;
       On TSectorReceive ReceiveSector])
  | Empty => Some (PlanOne
      [On TSectorAddPiece AddPiece; On TSectorStartPacking Packing])
  | WaitDeals => Some (PlanOne
      [On TSectorAddPiece AddPiece; On TSectorStartPacking Packing])
  | AddPiece => Some (PlanOne
      [On TSectorPieceAdded WaitDeals; ApplyOnly TSectorStartPacking;
       ApplyOnly TSectorAddPiece; On TSectorAddPieceFailed AddPieceFailed])
  | Packing => Some (PlanOne
      [On TSectorPacked GetTicket])
  | GetTicket => Some (PlanOne
      [On TSectorTicket PreCommit1; On TSectorCommitFailed CommitFailed])
  | PreCommit1 => Some (PlanOne
      [On TSectorPreCommit1 PreCommit2;
       On TSectorSealPreCommit1Failed SealPreCommit1Failed;
       On TSectorDealsExpired DealsExpired; On TSectorInvalidDealIDs RecoverDealIDs;
       On TSectorOldTicket GetTicket])
  | PreCommit2 => Some (PlanOne
      [On TSectorPreCommit2 PreCommitting;
       On TSectorSealPreCommit2Failed SealPreCommit2Failed;
       On TSectorSealPreCommit1Failed SealPreCommit1Failed])
  | PreCommitting => Some (PlanOne
      [On TSectorPreCommitBatch SubmitPreCommitBatch;
       On TSectorPreCommitted PreCommitWait;
       On TSectorSealPreCommit1Failed SealPreCommit1Failed;
       On TSectorChainPreCommitFailed PreCommitFailed;
       On TSectorPreCommitLanded WaitSeed; On TSectorDealsExpired DealsExpired;
       On TSectorInvalidDealIDs RecoverDealIDs])
  | SubmitPreCommitBatch => Some (PlanOne
      [On TSectorPreCommitBatchSent PreCommitBatchWait;
       On TSectorSealPreCommit1Failed SealPreCommit1Failed;
       On TSectorChainPreCommitFailed PreCommitFailed;
       On TSectorPreCommitLanded WaitSeed; On TSectorDealsExpired DealsExpired;
       On TSectorInvalidDealIDs RecoverDealIDs])
  | PreCommitBatchWait => Some (PlanOne
      [On TSectorChainPreCommitFailed PreCommitFailed;
       On TSectorPreCommitLanded WaitSeed; On TSectorRetryPreCommit PreCommitting])
  | PreCommitWait => Some (PlanOne
      [On TSectorChainPreCommitFailed PreCommitFailed;
       On TSectorPreCommitLanded WaitSeed; On TSectorRetryPreCommit PreCommitting])
  | WaitSeed => Some (PlanOne
      [On TSectorSeedReady Committing; On TSectorChainPreCommitFailed PreCommitFailed])
  | Committing => Some PlanCommitting
  | CommitFinalize => Some (PlanOne
      [On TSectorFinalized SubmitCommit; On TSectorFinalizedAvailable SubmitCommit;
       On TSectorFinalizeFailed CommitFinalizeFailed])
  | SubmitCommit => Some (PlanOne
      [On TSectorCommitSubmitted CommitWait;
       On TSectorSubmitCommitAggregate SubmitCommitAggregate;
       On TSectorCommitFailed CommitFailed])
  | SubmitCommitAggregate => Some (PlanOne
      [On TSectorCommitAggregateSent CommitAggregateWait;
       On TSectorCommitFailed CommitFailed; On TSectorRetrySubmitCommit SubmitCommit])
  | CommitWait => Some (PlanOne
      [On TSectorProving FinalizeSector; On TSectorCommitFailed CommitFailed;
       On TSectorRetrySubmitCommit SubmitCommit])
  | CommitAggregateWait => Some (PlanOne
      [On TSectorProving FinalizeSector; On TSectorCommitFailed CommitFailed;
       On TSectorRetrySubmitCommit SubmitCommit])
  | FinalizeSector => Some (PlanOne
      [OnWithCB TSectorFinalized Proving true "Proving";
       OnWithCB TSectorFinalizedAvailable Available true "Available";
       On TSectorFinalizeFailed FinalizeFailed])
  | _ => None
  end.

Definition fsmPlannersSnap (st : SectorState) : option planner :=
  match st with
  | SnapDealsWaitDeals => Some (PlanOne
      [On TSectorAddPiece SnapDealsAddPiece; On TSectorStartPacking SnapDealsPacking;
       On TSectorAbortUpgrade AbortUpgrade])
  | SnapDealsAddPiece => Some (PlanOne
      [On TSectorPieceAdded SnapDealsWaitDeals; ApplyOnly TSectorStartPacking;
       ApplyOnly TSectorAddPiece; On TSectorAddPieceFailed SnapDealsAddPieceFailed;
       On TSectorAbortUpgrade AbortUpgrade])
  | SnapDealsPacking => Some (PlanOne
      [On TSectorPacked UpdateReplica; On TSectorAbortUpgrade AbortUpgrade])
  | UpdateReplica => Some (PlanOne
      [On TSectorReplicaUpdate ProveReplicaUpdate;
       On TSectorUpdateReplicaFailed ReplicaUpdateFailed;
       On TSectorDealsExpired SnapDealsDealsExpired;
       On TSectorInvalidDealIDs SnapDealsRecoverDealIDs;
       On TSectorAbortUpgrade AbortUpgrade])
  | ProveReplicaUpdate => Some (PlanOne
      [On TSectorProveReplicaUpdate FinalizeReplicaUpdate;
       On TSectorProveReplicaUpdateFailed ReplicaUpdateFailed;
       On TSectorDealsExpired SnapDealsDealsExpired;
       On TSectorInvalidDealIDs SnapDealsRecoverDealIDs;
       On TSectorAbortUpgrade AbortUpgrade])
  | FinalizeReplicaUpdate => Some (PlanOne
      [On TSectorFinalized SubmitReplicaUpdate;
       On TSectorFinalizeFailed FinalizeReplicaUpdateFailed])
  | SubmitReplicaUpdate => Some (PlanOne
      [On TSectorReplicaUpdateSubmitted ReplicaUpdateWait;
       On TSectorSubmitReplicaUpdateFailed ReplicaUpdateFailed])
  | ReplicaUpdateWait => Some (PlanOne
      [On TSectorReplicaUpdateLanded UpdateActivating;
       On TSectorSubmitReplicaUpdateFailed ReplicaUpdateFailed;
       On TSectorAbortUpgrade AbortUpgrade])
  | UpdateActivating => Some (PlanOne
      [On TSectorUpdateActive ReleaseSectorKey])
  | ReleaseSectorKey => Some (PlanOne
      [On TSectorKeyReleased Proving; On TSectorReleaseKeyFailed ReleaseSectorKeyFailed])
  | _ => None
  end.

Definition fsmPlannersErrors (st : SectorState) : option planner :=
  match st with
  | AddPieceFailed => Some (PlanOne
      [On TSectorRetryWaitDeals WaitDeals; ApplyOnly TSectorStartPacking;
       ApplyOnly TSectorAddPiece])
  | SealPreCommit1Failed => Some (PlanOne
      [On TSectorRetrySealPreCommit1 PreCommit1])
  | SealPreCommit2Failed => Some (PlanOne
      [On TSectorRetrySealPreCommit1 PreCommit1;
       On TSectorRetrySealPreCommit2 PreCommit2])
  | PreCommitFailed => Some (PlanOne
      [On TSectorRetryPreCommit PreCommitting;
       On TSectorRetryPreCommitWait PreCommitWait; On TSectorRetryWaitSeed WaitSeed;
       On TSectorSealPreCommit1Failed SealPreCommit1Failed;
       On TSectorPreCommitLanded WaitSeed;
       OnWithCB TSectorDealsExpired DealsExpired false "DealsExpired";
       On TSectorInvalidDealIDs RecoverDealIDs])
  | ComputeProofFailed => Some (PlanOne
      [On TSectorRetryComputeProof Committing;
       On TSectorSealPreCommit1Failed SealPreCommit1Failed])
  | RemoteCommitFailed => Some (PlanOne
      [On TSectorRetryComputeProof Committing])
  | CommitFinalizeFailed => Some (PlanOne
      [On TSectorRetryFinalize CommitFinalize])
  | CommitFailed => Some (PlanOne
      [On TSectorSealPreCommit1Failed SealPreCommit1Failed;
       On TSectorRetryWaitSeed WaitSeed; On TSectorRetryComputeProof Committing;
       On TSectorRetryInvalidProof Committing;
       On TSectorRetryPreCommitWait PreCommitWait;
       On TSectorChainPreCommitFailed PreCommitFailed;
       On TSectorRetryPreCommit PreCommitting; On TSectorRetryCommitWait CommitWait;
       On TSectorRetrySubmitCommit SubmitCommit;
       OnWithCB TSectorDealsExpired DealsExpired false "DealsExpired";
       On TSectorInvalidDealIDs RecoverDealIDs;
       OnWithCB TSectorTicketExpired Removing false "Removing"])
  | FinalizeFailed => Some (PlanOne
      [On TSectorRetryFinalize FinalizeSector])
  | PackingFailed => Some (PlanOne
      [])
  | DealsExpired => Some (PlanOne
      [])
  | RecoverDealIDs => Some (PlanOne
      [OnReturning TSectorUpdateDealIDs])
  | SnapDealsAddPieceFailed => Some (PlanOne
      [On TSectorRetryWaitDeals SnapDealsWaitDeals; ApplyOnly TSectorStartPacking;
       ApplyOnly TSectorAddPiece; On TSectorAbortUpgrade AbortUpgrade])
  | SnapDealsDealsExpired => Some (PlanOne
      [On TSectorAbortUpgrade AbortUpgrade])
  | SnapDealsRecoverDealIDs => Some (PlanOne
      [On TSectorUpdateDealIDs SubmitReplicaUpdate; On TSectorAbortUpgrade AbortUpgrade])
  | AbortUpgrade => Some (PlanOneOrIgnore
      [On TSectorRevertUpgradeToProving Proving])
  | ReplicaUpdateFailed => Some (PlanOne
      [On TSectorRetrySubmitReplicaUpdateWait ReplicaUpdateWait;
       On TSectorRetrySubmitReplicaUpdate SubmitReplicaUpdate;
       On TSectorRetryReplicaUpdate UpdateReplica;
       On TSectorRetryProveReplicaUpdate ProveReplicaUpdate;
       On TSectorInvalidDealIDs SnapDealsRecoverDealIDs;
       On TSectorDealsExpired SnapDealsDealsExpired;
       On TSectorAbortUpgrade AbortUpgrade])
  | ReleaseSectorKeyFailed => Some (PlanOne
      [On TSectorUpdateActive ReleaseSectorKey])
  | FinalizeReplicaUpdateFailed => Some (PlanOne
      [On TSectorRetryFinalize FinalizeReplicaUpdate])
  | _ => None
  end.

Definition fsmPlannersPost (st : SectorState) : option planner :=
  match st with
  | Proving => Some (PlanOne
      [On TSectorFaultReported FaultReported; On TSectorFaulty Faulty;
       On TSectorMarkForUpdate Available])
  | Available => Some (PlanOne
      [On TSectorStartCCUpdate SnapDealsWaitDeals; On TSectorAbortUpgrade Proving])
  | Terminating => Some (PlanOne
      [On TSectorTerminating TerminateWait; On TSectorTerminateFailed TerminateFailed])
  | TerminateWait => Some (PlanOne
      [On TSectorTerminated TerminateFinality;
       On TSectorTerminateFailed TerminateFailed])
  | TerminateFinality => Some (PlanOne
      [On TSectorTerminateFailed TerminateFailed])
  | TerminateFailed => Some (PlanOne
      [])
  | Removing => Some (PlanOneOrIgnore
      [On TSectorRemoved Removed; On TSectorRemoveFailed RemoveFailed])
  | RemoveFailed => Some (PlanOne
      [])
  | Faulty => Some (PlanOne
      [On TSectorFaultReported FaultReported])
  | FaultReported => Some Final
  | FaultedFinal => Some Final
  | Removed => Some FinalRemoved
  | FailedUnrecoverable => Some Final
  | _ => None
  end.

(** [fsmPlanners], a Go map literal with one entry per state. *)
Definition fsmPlanners (st : SectorState) : option planner :=
  match fsmPlannersSealing st with
  | Some p => Some p
  | None =>
      match fsmPlannersSnap st with
      | Some p => Some p
      | None => match fsmPlannersErrors st with Some p => Some p | None => fsmPlannersPost st end
      end
  end.

(** ** Running a planner *)

Section run.
(** [time.Now().Unix()] during the call. *)
Variable now : Z.

(** What a planner leaves: the sector, the number of processed events and the
    error. *)
Definition planned : Type := sector * (Z * option planErr).

(** [e.apply(state)] on the sector. *)
Definition applyTo (e : event) (s : sector) : outcome sector :=
  i ← apply now e (info s); Ret (mkSector i (sent s)).

(** The first transition for the type of the event. *)
Fixpoint findTransition (ts : list transition) (ty : eventType) : option transition :=
  match ts with
  | [] => None
  | t :: ts' => if decide (ty = mutOf t) then Some t else findTransition ts' ty
  end.

(** What the body of an event loop does with one event: it goes on with the
    next one, or returns with [k] more events processed. *)
Inductive verdict : Type :=
| Goes (s : sector)
| Returns (s : sector) (k : Z) (err : option planErr).

(** [for i, event := range events], with the index counting the events done. *)
Fixpoint eventLoop (body : event → sector → outcome verdict) (i : Z) (events : list event)
    (s : sector) : outcome planned :=
  match events with
  | [] => Ret (s, (i, None))
  | e :: rest =>
      v ← body e s;
      match v with
      | Goes s' => eventLoop body (i + 1) rest s'
      | Returns s' k err => Ret (s', (i + k, err))
      end
  end.

(** The body of [planOne]'s loop. *)
Definition oneEvent (ts : list transition) (e : event) (s : sector) : outcome verdict :=
  match applyGlobal e s with
  | Some (s', _) => Ret (Returns s' 1 None)
  | None =>
      match findTransition ts (typeOf e) with
      | Some t =>
          s' ← applyTo e s;
          match next t s' with
          | (s'', (true, None)) => Ret (Goes s'')
          | (s'', (_, err)) => Ret (Returns s'' 1 err)
          end
      | None =>
          if isIgnorable e then Ret (Goes s)
          else Ret (Returns s 1 (Some (UnexpectedEvent (State (info s)) (typeOf e))))
      end
  end.

Definition planOne (ts : list transition) (events : list event) (s : sector) : outcome planned :=
  eventLoop (oneEvent ts) 0 events s.

Definition planOneOrIgnore (ts : list transition) (events : list event) (s : sector) :
    outcome planned :=
  '(s', (cnt, _)) ← planOne ts events s; Ret (s', (cnt, None)).

(** The body of [planCommitting]'s loop. *)
Definition committingEvent (e : event) (s : sector) : outcome verdict :=
  match applyGlobal e s with
  | Some (s', true) => Ret (Returns s' 1 None)
  | Some (s', false) => Ret (Goes s')
  | None =>
      match e with
      | SectorCommitted _ => s' ← applyTo e s; Ret (Goes (setState SubmitCommit s'))
      | SectorProofReady _ => s' ← applyTo e s; Ret (Goes (setState CommitFinalize s'))
      | SectorSeedReady v ep =>
          if bool_decide (ep = SeedEpoch (info s)) && bool_decide (v = SeedValue (info s))
          then Ret (Goes s)
          else s' ← applyTo e s; Ret (Returns (setState Committing s') 1 None)
      | SectorComputeProofFailed _ => Ret (Goes (setState ComputeProofFailed s))
      | SectorRemoteCommit1Failed _ | SectorRemoteCommit2Failed _ =>
          Ret (Goes (setState RemoteCommitFailed s))
      | SectorSealPreCommit1Failed _ => Ret (Goes (setState SealPreCommit1Failed s))
      | SectorCommitFailed _ => Ret (Goes (setState CommitFailed s))
      | SectorRetryCommitWait => Ret (Goes (setState CommitWait s))
      | _ => Ret (Returns s 0 (Some (UnknownCommitting (typeOf e))))
      end
  end.

Definition planCommitting (events : list event) (s : sector) : outcome planned :=
  eventLoop committingEvent 0 events s.

Definition final (events : list event) (s : sector) : outcome planned :=
  match events with
  | e :: _ =>
      match applyGlobal e s with
      | Some (s', _) => Ret (s', (1, None))
      | None => Ret (s, (0, Some (NoEventsExpected (State (info s)))))
      end
  | [] => Ret (s, (0, Some (NoEventsExpected (State (info s)))))
  end.

Definition finalRemoved (events : list event) (s : sector) : outcome planned :=
  Ret (s, (Z.of_nat (length events), None)).

Definition runPlanner (p : planner) (events : list event) (s : sector) : outcome planned :=
  match p with
  | PlanOne ts => planOne ts events s
  | PlanOneOrIgnore ts => planOneOrIgnore ts events s
  | PlanCommitting => planCommitting events s
  | Final => final events s
  | FinalRemoved => finalRemoved events s
  end.
End run.

(** ** Logging *)

(** [logAppend]: a log of more than 8000 entries is cut before the entry is
    added.  The marker is written at index 2000 and the slice is then
    rebuilt from [Log[:2000]] and [Log[6000:]]. *)
Definition logAppend (now : Z) (l : Log) (logs : list Log) : list Log :=
  let logs' :=
    if decide (8000 < Z.of_nat (length logs)) then
      let marked := <[Z.to_nat 2000 := mkLog now "" "truncating log (above 8000 entries)" "truncate"]> logs in
      take (Z.to_nat 2000) marked ++ drop (Z.to_nat 6000) marked
    else logs in
  logs' ++ [l].

(** ** The machine *)

(** The functions [plan] returns. *)
Inductive handler : Type :=
| handleReceiveSector | handleWaitDeals | handleAddPiece | handlePacking | handleGetTicket
| handlePreCommit1 | handlePreCommit2 | handlePreCommitting | handleSubmitPreCommitBatch
| handlePreCommitWait | handleWaitSeed | handleCommitting | handleSubmitCommit
| handleSubmitCommitAggregate | handleCommitWait | handleFinalizeSector
| handleReplicaUpdate | handleProveReplicaUpdate | handleSubmitReplicaUpdate
| handleReplicaUpdateWait | handleFinalizeReplicaUpdate | handleUpdateActivating
| handleReleaseSectorKey | handleAddPieceFailed | handleSealPrecommit1Failed
| handleSealPrecommit2Failed | handlePreCommitFailed | handleComputeProofFailed
| handleRemoteCommitFailed | handleCommitFailed | handleFinalizeFailed
| handleDealsExpired | HandleRecoverDealIDs | handleDealsExpiredSnapDeals
| handleSnapDealsRecoverDealIDs | handleSubmitReplicaUpdateFailed
| handleReleaseSectorKeyFailed | handleAbortUpgrade | handleProvingSector
| handleAvailableSector | handleTerminating | handleTerminateWait
| handleTerminateFinality | handleTerminateFailed | handleRemoving | handleRemoveFailed
| handleFaulty | handleFaultReported.

(** The switch of [plan] on the state the planner left. *)
Definition handlerOf (st : SectorState) : option handler :=
  match st with
  | ReceiveSector => Some handleReceiveSector
  | Empty | WaitDeals | SnapDealsWaitDeals => Some handleWaitDeals
  | AddPiece | SnapDealsAddPiece => Some handleAddPiece
  | Packing | SnapDealsPacking => Some handlePacking
  | GetTicket => Some handleGetTicket
  | PreCommit1 => Some handlePreCommit1
  | PreCommit2 => Some handlePreCommit2
  | PreCommitting => Some handlePreCommitting
  | SubmitPreCommitBatch => Some handleSubmitPreCommitBatch
  | PreCommitBatchWait | PreCommitWait => Some handlePreCommitWait
  | WaitSeed => Some handleWaitSeed
  | Committing => Some handleCommitting
  | SubmitCommit => Some handleSubmitCommit
  | SubmitCommitAggregate => Some handleSubmitCommitAggregate
  | CommitAggregateWait | CommitWait => Some handleCommitWait
  | CommitFinalize | FinalizeSector => Some handleFinalizeSector
  | UpdateReplica => Some handleReplicaUpdate
  | ProveReplicaUpdate => Some handleProveReplicaUpdate
  | SubmitReplicaUpdate => Some handleSubmitReplicaUpdate
  | ReplicaUpdateWait => Some handleReplicaUpdateWait
  | FinalizeReplicaUpdate => Some handleFinalizeReplicaUpdate
  | UpdateActivating => Some handleUpdateActivating
  | ReleaseSectorKey => Some handleReleaseSectorKey
  | AddPieceFailed | SnapDealsAddPieceFailed => Some handleAddPieceFailed
  | SealPreCommit1Failed => Some handleSealPrecommit1Failed
  | SealPreCommit2Failed => Some handleSealPrecommit2Failed
  | PreCommitFailed => Some handlePreCommitFailed
  | ComputeProofFailed => Some handleComputeProofFailed
  | RemoteCommitFailed => Some handleRemoteCommitFailed
  | CommitFailed => Some handleCommitFailed
  | CommitFinalizeFailed | FinalizeFailed | FinalizeReplicaUpdateFailed => Some handleFinalizeFailed
  | PackingFailed | DealsExpired => Some handleDealsExpired
  | RecoverDealIDs => Some HandleRecoverDealIDs
  | SnapDealsDealsExpired => Some handleDealsExpiredSnapDeals
  | SnapDealsRecoverDealIDs => Some handleSnapDealsRecoverDealIDs
  | ReplicaUpdateFailed => Some handleSubmitReplicaUpdateFailed
  | ReleaseSectorKeyFailed => Some handleReleaseSectorKeyFailed
  | AbortUpgrade => Some handleAbortUpgrade
  | Proving => Some handleProvingSector
  | Available => Some handleAvailableSector
  | Terminating => Some handleTerminating
  | TerminateWait => Some handleTerminateWait
  | TerminateFinality => Some handleTerminateFinality
  | TerminateFailed => Some handleTerminateFailed
  | Removing => Some handleRemoving
  | RemoveFailed => Some handleRemoveFailed
  | Faulty => Some handleFaulty
  | FaultReported => Some handleFaultReported
  | Removed | UndefinedSectorState | FailedUnrecoverable | FaultedFinal | OtherState _ => None
  end.

(** What [Sealing] offers a planner call: the clock, the configuration (absent
    in tests, possibly failing), the current seal proof, the miner's id, whether
    a state-change notifee is set, and the log texts of events and errors. *)
Record env := mkEnv {
  eNow : Z;
  eConfig : option (option Config);
  eSealProof : option Z;
  eMiner : Z;
  eNotifee : bool;
  eMarshal : event → option string;
  eTrace : event → string;
  eTypeName : event → string;
  eErrText : option planErr → string;
  eErrKind : option planErr → string
}.

(** The state a call changes: the sector, the statistics, the pairs passed to
    the notifee and the seal proofs for which input processing was started. *)
Record machine := mkMachine {
  mSector : sector;
  mStats : SectorStats;
  mNotified : list (SectorInfo * SectorInfo);
  mInputs : list Z
}.

(** [len(e) > 8000] on the JSON text of an event. *)
Definition truncated (e : string) : string :=
  if decide (8000 < Z.of_nat (String.length e)) then String.substring 0 (Z.to_nat 8000) e +:+ "... truncated" else e.

Section machine_ops.
Variable env0 : env.

Definition appendLog (l : Log) (s : sector) : sector :=
  s {{ info := (info s) {{ Logs ::= logAppend (eNow env0) l }} }}.

(** [logEvents] *)
Fixpoint logEvents (events : list event) (s : sector) : sector :=
  match events with
  | [] => s
  | e :: rest =>
      match eMarshal env0 e with
      | None => logEvents rest s
      | Some text =>
          if decide (typeOf e = TSectorRestart) then logEvents rest s
          else
            let l := mkLog (eNow env0) (if isFormatter e then eTrace env0 e else "")
                       (truncated text) ("event;" +:+ eTypeName env0 e) in
            logEvents rest (appendLog l s)
      end
  end.

(** [onUpdateSector]: its error is only logged by the caller. *)
Definition onUpdateSector (m : machine) : machine :=
  match eConfig env0 with
  | None => m
  | Some None => m
  | Some (Some cfg) =>
      let st := info (mSector m) in
      let '(ss, upd) := updateSector cfg (eMiner env0, SectorNumber st) (State st) (mStats m) in
      let m' := m {{ mStats := ss }} in
      if upd then
        match eSealProof env0 with
        | Some sp => m' {{ mInputs ::= λ l, l ++ [sp] }}
        | None => m'
        end
      else m'
  end.

(** The planner of a call: in a state without one, a single global mutator is
    still planned. *)
Definition plannerFor (st : SectorState) (events : list event) : option planner :=
  match fsmPlanners st with
  | Some p => Some p
  | None => match events with
            | [e] => if isGlobal e then Some (PlanOne []) else None
            | _ => None
            end
  end.

(** What [plan] returns. *)
Definition planResult : Type := option handler * (Z * option planErr).

(** [plan] up to its deferred call of the notifee. *)
Definition planBody (events : list event) (m : machine) : outcome (machine * planResult) :=
  let st := State (info (mSector m)) in
  match plannerFor st events with
  | None => Ret (m, (None, (0, Some (PlannerNotFound st))))
  | Some p =>
      '(s, (processed, err)) ← runPlanner (eNow env0) p events (mSector m);
      let m1 := m {{ mSector := s }} in
      match err with
      | Some e => Ret (m1, (None, (processed, Some (PlannerFailed (State (info s)) e))))
      | None =>
          let m2 := onUpdateSector m1 in
          match State (info s) with
          | PackingFailed =>
              Ret (m2 {{ mSector := setState DealsExpired s }}, (Some handleDealsExpired, (processed, None)))
          | ReleaseSectorKeyFailed => Ret (m2, (Some handleReleaseSectorKeyFailed, (0, None)))
          | st' => Ret (m2, (handlerOf st', (processed, None)))
          end
      end
  end.

Definition plan (events : list event) (m : machine) : outcome (machine * planResult) :=
  let m0 := m {{ mSector := logEvents events (mSector m) }} in
  '(m1, r) ← planBody events m0;
  let m2 := if eNotifee env0 then m1 {{ mNotified ::= λ l, l ++ [(info (mSector m0), info (mSector m1))] }}
            else m1 in
  Ret (m2, r).

(** [Plan]: errors end in the sector's log, and no handler runs. *)
Definition Plan (events : list event) (m : machine) : outcome (machine * (option handler * Z)) :=
  '(m1, (nextH, (processed, err))) ← plan events m;
  match nextH, err with
  | Some h, None => Ret (m1, (Some h, processed))
  | _, _ =>
      let l := mkLog (eNow env0) "" ("state machine error: " +:+ eErrText env0 err)
                 ("error;" +:+ eErrKind env0 err) in
      Ret (m1 {{ mSector := appendLog l (mSector m1) }}, (None, processed))
  end.
End machine_ops.
