(* ===== verification/SectorInvariant.v ===== *)
(** * Invariants of the sealing state machine

    Preservation lemmas for the planners and for [Plan], and the invariants of
    reachable sectors: a sector past pre-commit 2 has its commitments, and a
    snap upgrade keeps the pieces of the sector it upgrades until it is
    finished or reverted. *)

From coqutil Require Import Datatypes.RecordSetters.
From stdpp Require Import strings numbers base gmap fin_maps list.
From S2P Require Import Prelude SectorTypes SectorEvents SectorStats SectorFsm.
Import DoubleBraceUpdate.
Local Open Scope Z_scope.

(** ** What events leave alone *)

Ltac inv_ret :=
  repeat match goal with
  | H : Ret _ = Ret _ |- _ => injection H as H
  | H : (_, _) = (_, _) |- _ => injection H as ? ?
  | H : Some _ = Some _ |- _ => injection H as H
  end; subst.

(** Every mutator other than an import keeps the state. *)
Lemma apply_State now e i i' :
  typeOf e ≠ TSectorReceive → apply now e i = Ret i' → State i' = State i.
Proof.
  intros He H. unfold apply in H. inv_bind. inv_ret.
  destruct i, e; simpl in E; inv_bind; inv_ret; try done; rsimpl; try done.
  by case_decide.
Qed.

Definition Sealed (i : SectorInfo) : Prop := CommD i ≠ None ∧ CommR i ≠ None.

#[global] Instance Sealed_dec i : Decision (Sealed i).
Proof. unfold Sealed. apply _. Defined.

Lemma apply_Sealed now e i i' :
  typeOf e ≠ TSectorReceive → Sealed i → apply now e i = Ret i' → Sealed i'.
Proof.
  intros He HS H. unfold apply in H. inv_bind. inv_ret. unfold Sealed in *.
  destruct i, e; simpl in E; inv_bind; inv_ret; try done; rsimpl; try done.
  by case_decide.
Qed.

Lemma apply_PreCommit2_Sealed now e i i' :
  typeOf e = TSectorPreCommit2 → apply now e i = Ret i' → Sealed i'.
Proof. destruct e; try done. intros _ H. cbv [apply] in H. simpl in H. inv_ret. by destruct i. Qed.

(** ** Preservation by the planners *)

Section preservation.
Variable I : SectorInfo → Prop.
(** The events that may reach a sector in the given state. *)
Variable ok : SectorState → event → Prop.

Definition tableOf (p : planner) : list transition :=
  match p with PlanOne ts | PlanOneOrIgnore ts => ts | _ => [] end.

(** The states [planCommitting] sets. *)
Definition commitTargets : list SectorState :=
  [SubmitCommit; CommitFinalize; Committing; ComputeProofFailed; RemoteCommitFailed;
   SealPreCommit1Failed; CommitFailed; CommitWait].

Hypothesis ok_import : ∀ st e, ok st e → typeOf e ≠ TSectorReceive.
Hypothesis I_global : ∀ st e s s' b,
  ok st e → I (info s) → applyGlobal e s = Some (s', b) → I (info s').
Hypothesis I_table : ∀ now st p e t s s1,
  fsmPlanners st = Some p → t ∈ tableOf p → typeOf e = mutOf t → ok st e →
  State (info s) = st → I (info s) → applyTo now e s = Ret s1 → I (info (next t s1).1).
Lemma findTransition_spec ts ty t : findTransition ts ty = Some t → t ∈ ts ∧ ty = mutOf t.
Proof.
  induction ts as [|t' ts IH]; simpl; [done|]. case_decide as E; intros H.
  - inv_ret. split; [left|done].
  - destruct (IH H). split; [by right|done].
Qed.

Lemma applyTo_State now e s s1 :
  typeOf e ≠ TSectorReceive → applyTo now e s = Ret s1 → State (info s1) = State (info s).
Proof. intros He H. unfold applyTo in H. inv_bind. inv_ret. simpl. by eapply apply_State. Qed.

(** The rule of the event loop: [J] holds at its head, [K] when it is left. *)
Lemma eventLoop_rule (J K : sector → Prop) body (events : list event) i s r :
  (∀ s, J s → K s) →
  (∀ e s v, e ∈ events → J s → body e s = Ret v →
     match v with Goes s' => J s' | Returns s' _ _ => K s' end) →
  J s → eventLoop body i events s = Ret r → K r.1.
Proof.
  intros HJK. revert i s. induction events as [|e rest IH]; intros i s Hb HJ H; simpl in H.
  - inv_ret. by apply HJK.
  - inv_bind. pose proof (Hb e s a ltac:(left) HJ E) as Hv. destruct a as [s'|s' k err].
    + eapply IH, H; [|done]. intros e' s1 v He. apply Hb. by right.
    + by inv_ret.
Qed.

Lemma planOne_inv now st p events s r :
  fsmPlanners st = Some p → Forall (ok st) events → State (info s) = st → I (info s) →
  planOne now (tableOf p) events s = Ret r → I (info r.1).
Proof.
  intros Hp Hev Hst HI.
  apply (eventLoop_rule (λ s, State (info s) = st ∧ I (info s)) (λ s, I (info s))); [by intros ? [_ ?]| |done].
  clear s Hst HI. intros e s v He [Hst HI] H. rewrite Forall_forall in Hev. specialize (Hev e He).
  unfold oneEvent in H.
  destruct (applyGlobal e s) as [[s' b]|] eqn:Eg; [inv_ret; by eapply I_global|].
  destruct (findTransition (tableOf p) (typeOf e)) as [t|] eqn:Ef.
  - apply findTransition_spec in Ef as [Ht Hty]. inv_bind.
    pose proof (I_table _ _ _ _ _ _ _ Hp Ht Hty Hev Hst HI E) as HI'.
    destruct t; simpl in *; [by inv_ret|by inv_ret| |case_decide; by inv_ret].
    inv_ret. split; [|done]. apply (applyTo_State now e); [by eapply ok_import|done].
  - destruct (isIgnorable e); by inv_ret.
Qed.

Lemma planCommitting_inv now events s r :
  (∀ s st, I (info s) → st ∈ commitTargets → I (info (setState st s))) →
  (∀ e s s1, ok Committing e → I (info s) → applyTo now e s = Ret s1 → I (info s1)) →
  Forall (ok Committing) events → I (info s) →
  planCommitting now events s = Ret r → I (info r.1).
Proof using I_global.
  clear I_table ok_import. intros Hset Happ Hev HI.
  apply (eventLoop_rule (λ s, I (info s)) (λ s, I (info s))); [done| |done].
  clear s HI. intros e s v He HI H. rewrite Forall_forall in Hev. specialize (Hev e He).
  unfold committingEvent in H.
  destruct (applyGlobal e s) as [[s' [|]]|] eqn:Eg; [inv_ret; by eapply I_global..|].
  destruct e; try (by inv_ret); try case_match; inv_bind; inv_ret; try done;
    (apply Hset; [|unfold commitTargets; set_solver]); eauto.
Qed.

Hypothesis I_committing : ∀ now events s r,
  Forall (ok Committing) events → State (info s) = Committing → I (info s) →
  planCommitting now events s = Ret r → I (info r.1).

Lemma runPlanner_inv now st p events s r :
  fsmPlanners st = Some p → Forall (ok st) events → State (info s) = st → I (info s) →
  runPlanner now p events s = Ret r → I (info r.1).
Proof.
  intros Hp Hev Hst HI H. destruct p as [ts|ts| | |]; simpl in H.
  - by eapply (planOne_inv now st (PlanOne ts)).
  - unfold planOneOrIgnore in H. inv_bind. destruct a as [s' [n err]]. inv_ret.
    eapply (planOne_inv now _ (PlanOneOrIgnore ts) events s (s', (n, err))); done.
  - assert (st = Committing) as Hc by (clear -Hp; by destruct st). rewrite Hc in *.
    by eapply I_committing.
  - destruct Hev as [|e rest He Hev]; simpl in H; [by inv_ret|].
    destruct (applyGlobal e s) as [[s' b]|] eqn:Eg; inv_ret; [by eapply I_global|done].
  - unfold finalRemoved in H. by inv_ret.
Qed.

Hypothesis I_logs : ∀ i now l, I i → I (i {{ Logs ::= logAppend now l }}).
Hypothesis I_expired : ∀ i, State i = PackingFailed → I i → I (i {{ State := DealsExpired }}).

Lemma logEvents_inv E events s : I (info s) → I (info (logEvents E events s)).
Proof.
  revert s. induction events as [|e rest IH]; intros s HI; simpl; [done|].
  repeat case_match; try (by apply IH); apply IH; destruct s; by apply I_logs.
Qed.

Lemma logEvents_State E events s : State (info (logEvents E events s)) = State (info s).
Proof.
  revert s. induction events as [|e rest IH]; intros s; simpl; [done|].
  repeat case_match; rewrite ?IH; done.
Qed.

Lemma onUpdateSector_mSector E m : mSector (onUpdateSector E m) = mSector m.
Proof. unfold onUpdateSector. destruct m. by repeat case_match. Qed.

Lemma planBody_inv E events m m' r :
  Forall (ok (State (info (mSector m)))) events → I (info (mSector m)) →
  planBody E events m = Ret (m', r) → I (info (mSector m')).
Proof.
  intros Hev HI H. unfold planBody, plannerFor in H.
  destruct (fsmPlanners (State (info (mSector m)))) as [p|] eqn:Hp.
  - inv_bind. destruct a as [s [n err]].
    eapply runPlanner_inv in E0; [|done..]. simpl in E0.
    destruct err; [inv_ret; by destruct m|].
    assert (I (info (mSector (onUpdateSector E (m {{ mSector := s }}))))) as HI'
      by (rewrite onUpdateSector_mSector; by destruct m).
    destruct (State (info s)) eqn:Est; inv_ret; try done.
    destruct s as [i sn], (onUpdateSector _ _). by apply I_expired.
  - destruct events as [|e [|]]; [by inv_ret| |by inv_ret].
    destruct (isGlobal e) eqn:Hg; [|by inv_ret]. inv_bind. destruct a as [s [n err]].
    unfold runPlanner, planOne in E0. simpl in E0. unfold oneEvent in E0.
    apply Forall_cons in Hev as [Hok _].
    destruct (applyGlobal e (mSector m)) as [[s' b]|] eqn:Eg; [|by destruct e].
    simpl in E0. inv_ret. eapply I_global in Eg; [|done..].
    assert (I (info (mSector (onUpdateSector E (m {{ mSector := s }}))))) as HI'
      by (rewrite onUpdateSector_mSector; by destruct m).
    destruct (State (info s)) eqn:Est; inv_ret; try done.
    destruct s as [i sn], (onUpdateSector _ _). by apply I_expired.
Qed.

Lemma Plan_inv E events m m' r :
  Forall (ok (State (info (mSector m)))) events → I (info (mSector m)) →
  Plan E events m = Ret (m', r) → I (info (mSector m')).
Proof.
  intros Hev HI H. unfold Plan, plan in H. inv_bind.
  destruct a as [m2 [nh [n err]]], a0 as [m1 r1]. apply planBody_inv in E1.
  - assert (I (info (mSector m2))) as HI2.
    { inv_ret. destruct m1, (eNotifee E); done. }
    clear E0. destruct nh, err; inv_ret; try done; destruct m2 as [[i sn] ? ? ?]; by apply I_logs.
  - destruct m. rsimpl. by rewrite logEvents_State.
  - destruct m. rsimpl. by apply logEvents_inv.
Qed.
End preservation.

(** ** Sectors past pre-commit 2 have their commitments *)

(** The states that are entered only after pre-commit 2 has succeeded. *)
Definition late (st : SectorState) : bool :=
  match st with
  | PreCommitting | SubmitPreCommitBatch | PreCommitBatchWait | PreCommitWait | WaitSeed
  | Committing | CommitFinalize | CommitFinalizeFailed | SubmitCommit
  | SubmitCommitAggregate | CommitWait | CommitAggregateWait | FinalizeSector
  | FinalizeFailed | PreCommitFailed | ComputeProofFailed | RemoteCommitFailed
  | CommitFailed | Proving | Available | Faulty | FaultReported | SnapDealsWaitDeals
  | SnapDealsAddPiece | SnapDealsPacking | UpdateReplica | ProveReplicaUpdate
  | FinalizeReplicaUpdate | SubmitReplicaUpdate | ReplicaUpdateWait | UpdateActivating
  | ReleaseSectorKey | SnapDealsAddPieceFailed | SnapDealsDealsExpired
  | SnapDealsRecoverDealIDs | AbortUpgrade | ReplicaUpdateFailed | ReleaseSectorKeyFailed
  | FinalizeReplicaUpdateFailed => true
  | _ => false
  end.

(** What the handlers and the operator commands send to a sector, apart from a
    forced state and an import: [handleGetTicket] reports a failed commit only
    for a sector with a commit message, and the return state of
    [SectorInvalidDealIDs] is the sending state ([preCommitInfo] uses
    [PreCommitting] for both of its callers). *)
Definition admissible (i : SectorInfo) (e : event) : Prop :=
  match e with
  | SectorForceState _ | SectorReceive _ => False
  | SectorCommitFailed _ => State i = GetTicket → CommitMessage i ≠ None
  | SectorInvalidDealIDs r =>
      r = UndefinedSectorState ∨ r = State i ∨ (State i = SubmitPreCommitBatch ∧ r = PreCommitting)
  | _ => True
  end.

(** The machines that calls of [Plan] reach from a new sector. *)
Inductive reachable : machine → Prop :=
| reachable_new ss : reachable (mkMachine (mkSector zeroSector []) ss [] [])
| reachable_plan E events m m' r :
    reachable m → Forall (admissible (info (mSector m))) events →
    Plan E events m = Ret (m', r) → reachable m'.

(** Where a transition leads; [OnReturning] leads where [Return] says. *)
Definition targetOf (t : transition) : option SectorState :=
  match t with On _ st | OnWithCB _ st _ _ => Some st | _ => None end.

(** [f] holds of every entry of [fsmPlanners]. *)
Definition allEntries (f : SectorState → transition → bool) : bool :=
  forallb (λ st, match fsmPlanners st with
                 | Some p => forallb (f st) (tableOf p)
                 | None => true
                 end) namedStates.

Lemma allEntries_spec f st p t :
  allEntries f = true → fsmPlanners st = Some p → t ∈ tableOf p → f st t = true.
Proof.
  intros H Hp Ht. assert (st ∈ namedStates) as Hst.
  { destruct st; try (by vm_compute in Hp); apply (bool_decide_unpack _); by vm_compute. }
  unfold allEntries in H. rewrite forallb_forall in H.
  specialize (H st). rewrite Hp, forallb_forall in H. apply H; by apply list_elem_of_In.
Qed.

(** Facts the preservation lemmas share. *)
Lemma applyTo_info now e s s1 : applyTo now e s = Ret s1 → apply now e (info s) = Ret (info s1).
Proof. intros H. unfold applyTo in H. inv_bind. by inv_ret. Qed.

Lemma setState_info st s : info (setState st s) = (info s) {{ State := st }}.
Proof. by destruct s. Qed.

Lemma maybeNotify_info b name s : info (maybeNotifyRemoteDone b name s) = info s.
Proof. unfold maybeNotifyRemoteDone. case_decide; by destruct s. Qed.

(** A global mutator changes at most the state. *)
Lemma applyGlobal_info e s s' b :
  applyGlobal e s = Some (s', b) →
  info s' = info s ∨
  ∃ st, info s' = (info s) {{ State := st }} ∧ (st = Terminating ∨ st = Removing ∨ e = SectorForceState st).
Proof.
  destruct e; simpl; intros H; inv_ret; try done; try (by left); right;
    rewrite setState_info, ?maybeNotify_info; eauto.
Qed.

(** A transition changes at most the state and the return state. *)
Lemma next_info t s :
  (targetOf t = None ∧ info (next t s).1 = info s) ∨
  (∃ st, targetOf t = Some st ∧ info (next t s).1 = (info s) {{ State := st }}) ∨
  (∃ ty, t = OnReturning ty ∧ info (next t s).1
     = (info s) {{ State := Return (info s); Return := UndefinedSectorState }}).
Proof.
  destruct t; simpl; rewrite ?setState_info, ?maybeNotify_info; eauto.
  case_decide; simpl; eauto.
Qed.

Lemma Sealed_set i st : Sealed (i {{ State := st }}) ↔ Sealed i.
Proof. by destruct i. Qed.

Lemma Sealed_return i st st' : Sealed (i {{ State := st; Return := st' }}) ↔ Sealed i.
Proof. by destruct i. Qed.

Lemma Sealed_global e s s' b : Sealed (info s) → applyGlobal e s = Some (s', b) → Sealed (info s').
Proof.
  intros HS H. apply applyGlobal_info in H as [->|(st&->&_)]; [done|by rewrite Sealed_set].
Qed.

Lemma Sealed_next t s : Sealed (info s) → Sealed (info (next t s).1).
Proof.
  intros HS. destruct (next_info t s) as [[_ ->]|[(st&_&->)|(ty&_&->)]];
    rewrite ?Sealed_set, ?Sealed_return; done.
Qed.

Lemma Sealed_Plan E events m m' r :
  Forall (λ e, typeOf e ≠ TSectorReceive) events → Sealed (info (mSector m)) →
  Plan E events m = Ret (m', r) → Sealed (info (mSector m')).
Proof.
  intros Hev. apply (Plan_inv Sealed (λ _ e, typeOf e ≠ TSectorReceive)); try done.
  - intros st0 e s s' b _. apply Sealed_global.
  - intros now st p e t s s1 _ _ _ He _ HS Ha%applyTo_info.
    apply Sealed_next. by eapply apply_Sealed.
  - intros now evs s r' He _ HS. apply (planCommitting_inv Sealed (λ _ e, typeOf e ≠ TSectorReceive)); try done.
    + intros st0 e s0 s' b _. apply Sealed_global.
    + intros e s0 s1 He' HS' Ha%applyTo_info. by eapply apply_Sealed.
Qed.

(** The invariant: a sector that is not sealed yet is not in a late state, has
    no commit message and does not return to a late state. *)
Definition early (i : SectorInfo) : Prop :=
  late (State i) = false ∧ CommitMessage i = None ∧
  (State i = RecoverDealIDs → late (Return i) = false ∧ Return i ≠ ReceiveSector) ∧
  State i ≠ ReceiveSector.

Definition sealInv (i : SectorInfo) : Prop := Sealed i ∨ early i.

(** An entry that leads to a late state starts in one, or finishes pre-commit
    2, or reports a failed commit from [GetTicket]. *)
Definition entersLate (st : SectorState) (t : transition) : bool :=
  match targetOf t with
  | Some st' =>
      negb (late st') || late st
      || bool_decide (st = PreCommit2 ∧ mutOf t = TSectorPreCommit2)
      || bool_decide (st = GetTicket ∧ mutOf t = TSectorCommitFailed)
  | None => match t with OnReturning _ => bool_decide (st = RecoverDealIDs ∨ st = ReceiveSector) | _ => true end
  end.

(** Commit messages are set in late states only; [RecoverDealIDs] is entered by
    [SectorInvalidDealIDs] only, and that event leads nowhere else early. *)
Definition setsReturn (st : SectorState) (t : transition) : bool :=
  (negb (bool_decide (mutOf t = TSectorCommitSubmitted ∨ mutOf t = TSectorCommitAggregateSent)) || late st)
  && match targetOf t with
     | Some RecoverDealIDs => bool_decide (mutOf t = TSectorInvalidDealIDs)
     | Some ReceiveSector => bool_decide (mutOf t = TSectorReceive)
     | _ => true
     end.

Lemma entersLate_all : allEntries entersLate = true.
Proof. vm_compute. reflexivity. Qed.

Lemma setsReturn_all : allEntries setsReturn = true.
Proof. vm_compute. reflexivity. Qed.

(** The admissible events as a property of the state, for a sector that is not
    sealed. *)
Definition okEarly (st : SectorState) (e : event) : Prop :=
  match e with
  | SectorForceState _ | SectorReceive _ => False
  | SectorCommitFailed _ => st ≠ GetTicket
  | SectorInvalidDealIDs r =>
      r = UndefinedSectorState ∨ r = st ∨ (st = SubmitPreCommitBatch ∧ r = PreCommitting)
  | _ => True
  end.

Lemma early_set i st :
  late st = false → st ≠ RecoverDealIDs → st ≠ ReceiveSector → CommitMessage i = None →
  early (i {{ State := st }}).
Proof. destruct i. unfold early. by rsimpl. Qed.

Lemma apply_CommitMessage now e i i' :
  typeOf e ≠ TSectorReceive → typeOf e ≠ TSectorCommitSubmitted → typeOf e ≠ TSectorCommitAggregateSent →
  apply now e i = Ret i' → CommitMessage i' = CommitMessage i.
Proof.
  intros H1 H2 H3 H. unfold apply in H. inv_bind. inv_ret.
  destruct i, e; simpl in E; inv_bind; inv_ret; try done; rsimpl; try done. by case_decide.
Qed.

(** Only [SectorInvalidDealIDs] sets the return state. *)
Lemma apply_Return now e i i' :
  typeOf e ≠ TSectorReceive → apply now e i = Ret i' →
  Return i' = match e with SectorInvalidDealIDs r => r | _ => Return i end.
Proof.
  intros H1 H. unfold apply in H. inv_bind. inv_ret.
  destruct i, e; simpl in E; inv_bind; inv_ret; try done; rsimpl; try done. by case_decide.
Qed.

Lemma early_global st e s s' b :
  okEarly st e → early (info s) → applyGlobal e s = Some (s', b) → early (info s').
Proof.
  intros Hok (H1&H2&H3&H4) H.
  apply applyGlobal_info in H as [->|(st'&->&[->|[->| ->]])]; [done| | |done];
    by apply early_set.
Qed.

Lemma early_table now st p e t s s1 :
  fsmPlanners st = Some p → t ∈ tableOf p → typeOf e = mutOf t → okEarly st e →
  State (info s) = st → early (info s) → applyTo now e s = Ret s1 →
  sealInv (info (next t s1).1).
Proof.
  intros Hp Ht Hty Hok Hst (H1&H2&H3&H4) Ha%applyTo_info.
  pose proof (allEntries_spec _ _ _ _ entersLate_all Hp Ht) as HL.
  pose proof (allEntries_spec _ _ _ _ setsReturn_all Hp Ht) as HR.
  unfold setsReturn in HR. apply andb_true_iff in HR as [HC HR].
  assert (typeOf e ≠ TSectorReceive) as Hrcv by (destruct e; done).
  assert (CommitMessage (info s1) = None) as Hcm.
  { rewrite Hst in H1. rewrite H1, orb_false_r, negb_true_iff, bool_decide_eq_false in HC.
    rewrite (apply_CommitMessage now e (info s)); [done|done| | |done];
      rewrite Hty; intros E; apply HC; auto. }
  pose proof (apply_State _ _ _ _ Hrcv Ha) as HS. pose proof (apply_Return _ _ _ _ Hrcv Ha) as HRet.
  rewrite Hst in *. subst st.
  destruct (next_info t s1) as [[Et Ei]|[(st'&Et&Ei)|(ty&Et&Ei)]]; rewrite Ei; clear Ei.
  - right. split_and!; rewrite ?HS; try done. intros E. rewrite HRet.
    destruct e; try (by apply H3). destruct Hok as [->|[->|[E' _]]]; [done|by rewrite E|congruence].
  - unfold entersLate in HL. rewrite Et in HL, HR.
    rewrite H1, !orb_true_iff, !bool_decide_eq_true in HL.
    destruct HL as [[[HL|HL]|[_ HL]]|[Hg HL]]; [|done| |].
    + apply negb_true_iff in HL. right. destruct (decide (st' = RecoverDealIDs)) as [->|Hr].
      * apply bool_decide_eq_true in HR. rewrite HR in Hty. destruct e; try done.
        destruct (info s1). unfold early. rsimpl. subst.
        split_and!; try done. intros _. destruct Hok as [->|[->|[E' ->]]]; [done|done|].
        by rewrite E' in H1.
      * apply early_set; try done. intros ->. apply bool_decide_eq_true in HR. congruence.
    + left. rewrite Sealed_set. eapply apply_PreCommit2_Sealed; [|done]. congruence.
    + rewrite HL in Hty. destruct e; try done.
  - subst t. unfold entersLate in HL. simpl in HL. apply bool_decide_eq_true in HL as [HL|HL]; [|done].
    right. destruct (H3 HL) as [HR1 HR2].
    assert (Return (info s1) = Return (info s)) as HRs.
    { rewrite HRet. rewrite HL in Hp. simpl in Hp. injection Hp as <-.
      apply list_elem_of_singleton in Ht. injection Ht as ->. by destruct e. }
    rewrite <- HRs in *. destruct (info s1). unfold early. rsimpl. done.
Qed.

Lemma sealInv_global st e s s' b :
  okEarly st e → sealInv (info s) → applyGlobal e s = Some (s', b) → sealInv (info s').
Proof.
  intros Hok [HS|HE] H; [left; by eapply Sealed_global|right; by eapply early_global].
Qed.

Lemma sealInv_table now st p e t s s1 :
  fsmPlanners st = Some p → t ∈ tableOf p → typeOf e = mutOf t → okEarly st e →
  State (info s) = st → sealInv (info s) → applyTo now e s = Ret s1 →
  sealInv (info (next t s1).1).
Proof.
  intros Hp Ht Hty Hok Hst [HS|HE] Ha; [|by eapply early_table].
  left. apply Sealed_next. apply applyTo_info in Ha. eapply apply_Sealed; [|done|done].
  by destruct e.
Qed.

Lemma sealInv_committing now events s r :
  Forall (okEarly Committing) events → State (info s) = Committing → sealInv (info s) →
  planCommitting now events s = Ret r → sealInv (info r.1).
Proof.
  intros Hev Hst [HS|(HE&_)]; [|by rewrite Hst in HE]. intros H. left.
  eapply (planCommitting_inv Sealed (λ _ e, typeOf e ≠ TSectorReceive)); [..|done|done].
  - intros st0 e s0 s' b _. apply Sealed_global.
  - done.
  - intros e s0 s1 He' HS' Ha%applyTo_info. by eapply apply_Sealed.
  - eapply Forall_impl; [done|]. by intros [].
Qed.

Lemma sealInv_Plan E events m m' r :
  Forall (admissible (info (mSector m))) events → sealInv (info (mSector m)) →
  Plan E events m = Ret (m', r) → sealInv (info (mSector m')).
Proof.
  intros Hev HI H. destruct (decide (Sealed (info (mSector m)))) as [HS|HS].
  { left. eapply Sealed_Plan; [|done|done]. eapply Forall_impl; [done|]. by intros []. }
  destruct HI as [HI|HE]; [done|].
  eapply (Plan_inv sealInv okEarly); [..|done].
  - intros st e. by destruct e.
  - apply sealInv_global.
  - apply sealInv_table.
  - apply sealInv_committing.
  - intros i now l. by destruct i.
  - intros i Hi [HS'|(H1&H2&_)]; [left; by rewrite Sealed_set|right; by apply early_set].
  - eapply Forall_impl; [done|]. intros e He. destruct HE as (_&Hc&_).
    destruct e; try done. simpl in *. intros Hg. by apply He.
  - by right.
Qed.

Lemma sealInv_reachable m : reachable m → sealInv (info (mSector m)).
Proof.
  induction 1 as [ss|E events m m' r _ IH Hev HP]; [by right|by eapply sealInv_Plan].
Qed.

(** C33. In every sector the machine reaches with the events its handlers send,
    being in a state after pre-commit 2 (pre-committing to proving, their
    failure states and every state of a snap upgrade) means that the sealed and
    unsealed commitments are known, and so does having a commit message: no
    path through failures, retries or deal-id recovery skips pre-commit 2. *)
Theorem late_sectors_have_commitments m :
  reachable m → late (State (info (mSector m))) = true ∨ CommitMessage (info (mSector m)) ≠ None →
  CommD (info (mSector m)) ≠ None ∧ CommR (info (mSector m)) ≠ None.
Proof.
  intros H%sealInv_reachable HL. destruct H as [H|(H1&H2&_)]; [done|].
  destruct HL; congruence.
Qed.

(** *** A concrete run *)

(** One call of [Plan] per event. *)
Fixpoint planEach (E : env) (events : list event) (m : machine) : outcome machine :=
  match events with
  | [] => Ret m
  | e :: rest => '(m', _) ← Plan E [e] m; planEach E rest m'
  end.

(** Events that are admissible in every state. *)
Definition plainEvent (e : event) : bool :=
  match e with
  | SectorForceState _ | SectorReceive _ | SectorCommitFailed _ | SectorInvalidDealIDs _ => false
  | _ => true
  end.

Lemma reachable_planEach E events m m' :
  reachable m → forallb plainEvent events = true → planEach E events m = Ret m' → reachable m'.
Proof.
  revert m. induction events as [|e rest IH]; intros m Hm Hev H; simpl in *; [by inv_ret|].
  apply andb_true_iff in Hev as [He Hev]. inv_bind. destruct a as [m1 r].
  apply (IH m1); [|done|done]. eapply reachable_plan; [done| |done].
  apply Forall_singleton. by destruct e.
Qed.

Definition demoEnv : env :=
  mkEnv 1700000000 (Some (Some (mkConfig 2 2 false))) (Some 8) 1000 false
    (λ _, Some "{}") (λ _, "") (λ _, "sealing.Event") (λ _, "error") (λ _, "error").

Definition newMachine : machine := mkMachine (mkSector zeroSector []) emptyStats [] [].

(** A deal sector sealed to [Proving], with one failed and retried proof. *)
Definition happyPath : list event :=
  [SectorStart 7 8; SectorAddPiece;
   SectorPieceAdded [mkPiece (mkPieceInfo 2048 "piece") (Some (mkDealInfo (Some "publish") 5 (mkProposal "piece" 100 900 "") true))];
   SectorStartPacking; SectorPacked []; SectorTicket "ticket" 100; SectorPreCommit1 "pc1";
   SectorPreCommit2 "sealed" "unsealed"; SectorPreCommitBatch; SectorPreCommitBatchSent "m1";
   SectorPreCommitLanded "ts"; SectorSeedReady "seed" 250; SectorComputeProofFailed "oom";
   SectorRetryComputeProof; SectorCommitted "proof"; SectorSubmitCommitAggregate;
   SectorCommitAggregateSent "m2"; SectorProving; SectorFinalized].

Definition stateAfter (o : outcome machine) : option SectorState :=
  match o with Ret m => Some (State (info (mSector m))) | _ => None end.

Lemma happyPath_proves : stateAfter (planEach demoEnv happyPath newMachine) = Some Proving.
Proof. vm_compute. reflexivity. Qed.

Lemma late_sectors_have_commitments_witness :
  match planEach demoEnv happyPath newMachine with
  | Ret m => late (State (info (mSector m))) = true ∧ CommR (info (mSector m)) ≠ None
  | _ => False
  end.
Proof.
  pose proof happyPath_proves as HP.
  destruct (planEach demoEnv happyPath newMachine) as [m| |] eqn:E;
    [|discriminate HP|discriminate HP].
  assert (late (State (info (mSector m))) = true) as HL.
  { cbn [stateAfter] in HP. by injection HP as ->. }
  split; [done|]. apply (late_sectors_have_commitments m); [|by left].
  eapply reachable_planEach, E; [constructor|reflexivity].
Defined.

(** ** Snap upgrades *)

(** The states of an upgrade, from [SectorStartCCUpdate] until the sector is
    proving again. *)
Definition inSnap (st : SectorState) : bool :=
  match st with
  | SnapDealsWaitDeals | SnapDealsAddPiece | SnapDealsPacking | UpdateReplica
  | ProveReplicaUpdate | FinalizeReplicaUpdate | SubmitReplicaUpdate | ReplicaUpdateWait
  | UpdateActivating | ReleaseSectorKey | SnapDealsAddPieceFailed | SnapDealsDealsExpired
  | SnapDealsRecoverDealIDs | AbortUpgrade | ReplicaUpdateFailed | ReleaseSectorKeyFailed
  | FinalizeReplicaUpdateFailed => true
  | _ => false
  end.

(** What an upgrade must not touch: the pieces set aside and the data of the
    original sealing. *)
Definition kept (i : SectorInfo) :=
  (CCUpdate i, CCPieces i, (CommD i, CommR i, Proof_ i, CommitMessage i),
   (TicketValue i, TicketEpoch i, SeedValue i, SeedEpoch i)).

(** The events whose mutator leaves [kept] alone. *)
Definition keeps (ty : eventType) : bool :=
  match ty with
  | TSectorTicket | TSectorPreCommit2 | TSectorSeedReady | TSectorCommitted | TSectorProofReady
  | TSectorCommitSubmitted | TSectorCommitAggregateSent | TSectorStartCCUpdate
  | TSectorRevertUpgradeToProving | TSectorReceive => false
  | _ => true
  end.

Lemma apply_kept now e i i' : keeps (typeOf e) = true → apply now e i = Ret i' → kept i' = kept i.
Proof.
  intros He H. unfold apply in H. inv_bind. inv_ret. unfold kept.
  destruct i, e; simpl in E; inv_bind; inv_ret; try done; rsimpl; try done. by case_decide.
Qed.

(** The entries of the upgrade states: those that stay in the upgrade keep the
    data, and none returns elsewhere. *)
Definition snapEntry (st : SectorState) (t : transition) : bool :=
  negb (inSnap st) ||
  match t with
  | OnReturning _ => false
  | ApplyOnly ty => keeps ty
  | On ty st' | OnWithCB ty st' _ _ => keeps ty || negb (inSnap st')
  end.

Lemma snapEntry_all : allEntries snapEntry = true.
Proof. vm_compute. reflexivity. Qed.

Lemma kept_set i st : kept (i {{ State := st }}) = kept i.
Proof. by destruct i. Qed.

Section upgrade.
(** The data of the sector when its upgrade started. *)
Variable kept0 : bool * list SectorPiece * (option string * option string * string * option string)
                 * (string * Z * string * Z).

Definition snapInv (i : SectorInfo) : Prop := inSnap (State i) = true → kept i = kept0.

(** No forced state and no import. *)
Definition unforced (e : event) : Prop :=
  typeOf e ≠ TSectorForceState ∧ typeOf e ≠ TSectorReceive.

Definition okSnap (st : SectorState) (e : event) : Prop := inSnap st = true ∧ unforced e.

Lemma snapInv_global st e s s' b :
  okSnap st e → snapInv (info s) → applyGlobal e s = Some (s', b) → snapInv (info s').
Proof.
  intros [_ [Hf _]] HI H. apply applyGlobal_info in H as [->|(st'&->&Hst)]; [done|].
  intros HS. exfalso. destruct Hst as [->|[->| ->]]; [..|done]; by destruct (info s).
Qed.

Lemma snapInv_table now st p e t s s1 :
  fsmPlanners st = Some p → t ∈ tableOf p → typeOf e = mutOf t → okSnap st e →
  State (info s) = st → snapInv (info s) → applyTo now e s = Ret s1 →
  snapInv (info (next t s1).1).
Proof.
  intros Hp Ht Hty [Hsnap [_ Hr]] Hst HI Ha%applyTo_info.
  pose proof (allEntries_spec _ _ _ _ snapEntry_all Hp Ht) as HE.
  unfold snapEntry in HE. rewrite Hsnap in HE. simpl in HE.
  rewrite <- Hst in Hsnap. specialize (HI Hsnap).
  destruct (next_info t s1) as [[Et Ei]|[(st'&Et&Ei)|(ty&Et&Ei)]]; rewrite Ei; [| |by subst t].
  - intros _. rewrite <- HI. eapply apply_kept; [|done]. destruct t; simplify_eq/=; congruence.
  - intros HS'. rewrite kept_set. rewrite <- HI. eapply apply_kept; [|done].
    replace (State ((info s1) {{ State := st' }})) with st' in HS' by (by destruct (info s1)).
    destruct t; simplify_eq/=; rewrite HS', orb_false_r in HE; congruence.
Qed.

Lemma snapInv_Plan E events m m' r :
  inSnap (State (info (mSector m))) = true → Forall unforced events → snapInv (info (mSector m)) →
  Plan E events m = Ret (m', r) → snapInv (info (mSector m')).
Proof.
  intros Hs Hev HI H. eapply (Plan_inv snapInv okSnap); [..|done].
  - by intros st e [_ [_ Hr]].
  - apply snapInv_global.
  - apply snapInv_table.
  - intros now evs s r' Hok Hst _ H'. destruct Hok as [|e es [Hc _]]; [|done].
    unfold planCommitting in H'. simpl in H'. inv_ret. simpl. unfold snapInv. by rewrite Hst.
  - intros i now l. by destruct i.
  - intros i Hst _ Hs'. by destruct i.
  - eapply Forall_impl; [done|]. intros e He. by split.
  - done.
Qed.
End upgrade.

(** An upgrade under way: it started from an available sector [i0], and every
    call of [Plan] since has left the sector in the upgrade. *)
Inductive upgrading (i0 : SectorInfo) : machine → Prop :=
| upgrading_start E m m' r :
    State i0 = Available → info (mSector m) = i0 →
    Plan E [SectorStartCCUpdate] m = Ret (m', r) → upgrading i0 m'
| upgrading_step E events m m' r :
    upgrading i0 m → Forall unforced events → Plan E events m = Ret (m', r) →
    inSnap (State (info (mSector m'))) = true → upgrading i0 m'.

(** [kept] with the pieces of [i] set aside. *)
Definition setAside (i : SectorInfo) :=
  (true, Pieces i, (CommD i, CommR i, Proof_ i, CommitMessage i),
   (TicketValue i, TicketEpoch i, SeedValue i, SeedEpoch i)).

(** The sector and the count that the switch of [plan] leaves. *)
Definition settled (s : sector) : sector :=
  match State (info s) with PackingFailed => setState DealsExpired s | _ => s end.

Definition processedOf (s : sector) (n : Z) : Z :=
  match State (info s) with ReleaseSectorKeyFailed => 0 | _ => n end.

(** A call of [Plan] that succeeds in its planner. *)
Lemma Plan_planner E events m p s1 n h :
  plannerFor (State (info (mSector m))) events = Some p →
  runPlanner (eNow E) p events (logEvents E events (mSector m)) = Ret (s1, (n, None)) →
  handlerOf (State (info s1)) = Some h →
  ∃ m', Plan E events m = Ret (m', (Some h, processedOf s1 n)) ∧ mSector m' = settled s1.
Proof.
  intros Hp Hr Hh. unfold Plan, plan, planBody.
  replace (State (info (mSector (m {{ mSector := logEvents E events (mSector m) }}))))
    with (State (info (mSector m))) by (destruct m; rsimpl; by rewrite logEvents_State).
  rewrite Hp. replace (mSector (m {{ mSector := logEvents E events (mSector m) }}))
    with (logEvents E events (mSector m)) by (by destruct m).
  rewrite Hr, bind_ret_l. set (m2 := onUpdateSector E _).
  assert (mSector m2 = s1) as Hm2 by (unfold m2; rewrite onUpdateSector_mSector; by destruct m).
  clearbody m2. unfold settled, processedOf. destruct (State (info s1)) eqn:Est;
    try discriminate Hh; injection Hh as <-; eexists; (split; [reflexivity|]);
    destruct (eNotifee E); destruct m2; done.
Qed.

(** A call that leaves the sector in a state without a handler logs so. *)
Lemma Plan_rests E events m p s1 n :
  plannerFor (State (info (mSector m))) events = Some p →
  runPlanner (eNow E) p events (logEvents E events (mSector m)) = Ret (s1, (n, None)) →
  handlerOf (State (info s1)) = None →
  ∃ m' l, Plan E events m = Ret (m', (None, n)) ∧ mSector m' = mkSector ((info s1) {{ Logs := l }}) (sent s1).
Proof.
  intros Hp Hr Hh. unfold Plan, plan, planBody.
  replace (State (info (mSector (m {{ mSector := logEvents E events (mSector m) }}))))
    with (State (info (mSector m))) by (destruct m; rsimpl; by rewrite logEvents_State).
  rewrite Hp. replace (mSector (m {{ mSector := logEvents E events (mSector m) }}))
    with (logEvents E events (mSector m)) by (by destruct m).
  rewrite Hr, bind_ret_l. set (m2 := onUpdateSector E _).
  assert (mSector m2 = s1) as Hm2 by (unfold m2; rewrite onUpdateSector_mSector; by destruct m).
  clearbody m2. destruct (State (info s1)) eqn:Est; try discriminate Hh; eexists; eexists;
    (split; [reflexivity|]); destruct (eNotifee E), m2 as [[[]]]; simpl in *; subst s1; reflexivity.
Qed.

Lemma logEvents_info E events s :
  ∃ l, logEvents E events s = mkSector ((info s) {{ Logs := l }}) (sent s).
Proof.
  revert s. induction events as [|e rest IH]; intros s; simpl.
  - exists (Logs (info s)). by destruct s as [[]].
  - destruct (eMarshal E e); [|apply IH]. case_decide; [apply IH|].
    match goal with |- context [appendLog E ?g s] => destruct (IH (appendLog E g s)) as [l ->] end.
    exists l. destruct s as [[]]. reflexivity.
Qed.

Lemma upgrading_kept i0 m :
  upgrading i0 m → inSnap (State (info (mSector m))) = true ∧ kept (info (mSector m)) = setAside i0.
Proof.
  induction 1 as [E m m' r Hst Hi H|E events m m' r _ [IH1 IH2] Hev H Hs].
  - destruct (logEvents_info E [SectorStartCCUpdate] (mSector m)) as [l Hl].
    destruct (Plan_planner E [SectorStartCCUpdate] m
      (PlanOne [On TSectorStartCCUpdate SnapDealsWaitDeals; On TSectorAbortUpgrade Proving])
      (mkSector ((info (mSector m)) {{ State := SnapDealsWaitDeals; CCUpdate := true;
         CCPieces := Pieces i0; Pieces := []; Logs := l }}) (sent (mSector m))) 1 handleWaitDeals)
      as (m1&HP&Hm1); [by rewrite Hi, Hst|rewrite Hl, Hi; by destruct i0|rewrite Hi; by destruct i0|].
    assert (m1 = m') as <- by congruence. rewrite Hm1, Hi. by destruct i0.
  - split; [done|]. eapply (snapInv_Plan (setAside i0)); [..|done|done]; [done|done|by intros _].
Qed.

(** C34. A snap upgrade can be reverted: from the moment an available sector
    starts its upgrade, whatever batches of events its pieces, proofs, messages,
    failures and retries bring, the sector keeps its original pieces aside and
    its seal data untouched while it is in the upgrade; and from [AbortUpgrade]
    the revert event takes it to [Proving] with exactly its original pieces,
    commitments and proof, and with nothing left of the upgrade. *)
Theorem aborted_upgrade_restores_sector i0 m E :
  upgrading i0 m →
  kept (info (mSector m)) = setAside i0 ∧
  (State (info (mSector m)) = AbortUpgrade →
   ∃ m', Plan E [SectorRevertUpgradeToProving] m = Ret (m', (Some handleProvingSector, 1)) ∧
     let i' := info (mSector m') in
     State i' = Proving ∧ Pieces i' = Pieces i0 ∧
     (CommD i', CommR i', Proof_ i', CommitMessage i')
       = (CommD i0, CommR i0, Proof_ i0, CommitMessage i0) ∧
     (CCUpdate i', CCPieces i', UpdateSealed i', UpdateUnsealed i',
      ReplicaUpdateProof i', ReplicaUpdateMessage i') = (false, [], None, None, "", None)).
Proof.
  intros [Hs Hk]%upgrading_kept. split; [done|]. intros Hst.
  destruct (logEvents_info E [SectorRevertUpgradeToProving] (mSector m)) as [l Hl].
  edestruct (Plan_planner E [SectorRevertUpgradeToProving] m) as (m'&HP&Hm').
  - by rewrite Hst.
  - rewrite Hl. reflexivity.
  - by destruct (info (mSector m)).
  - exists m'. split; [by destruct (info (mSector m))|]. rewrite Hm'. destruct (info (mSector m)).
    unfold kept, setAside in Hk. rsimpl. by simplify_eq.
Qed.

(** A committed-capacity sector, available for an upgrade. *)
Definition ccSector : SectorInfo :=
  zeroSector {{ State := Available; SectorNumber := 7; CommD := Some "unsealed"; CommR := Some "sealed";
                Pieces := [mkPiece (mkPieceInfo 2048 "zeroes") None] }}.

Definition testEnv : env :=
  mkEnv 1700000000 None None 1000 true (λ _, Some "{}") (λ _, "") (λ _, "sealing.Event")
    (λ _, "error") (λ _, "error").

Lemma aborted_upgrade_restores_sector_witness :
  ∃ m m', upgrading ccSector m ∧
    Plan testEnv [SectorRevertUpgradeToProving] m = Ret (m', (Some handleProvingSector, 1)) ∧
    Pieces (info (mSector m')) = [mkPiece (mkPieceInfo 2048 "zeroes") None].
Proof.
  assert (∃ m, upgrading ccSector m ∧ State (info (mSector m)) = AbortUpgrade) as (m&Hm&Hst).
  { eexists. split.
    - eapply (upgrading_step _ testEnv [SectorAbortUpgrade "expired"]).
      + eapply (upgrading_step _ testEnv
          [SectorAddPiece; SectorPieceAdded [mkPiece (mkPieceInfo 1024 "deal") None]]).
        * eapply (upgrading_start _ testEnv (mkMachine (mkSector ccSector []) emptyStats [] []));
            reflexivity.
        * repeat constructor; discriminate.
        * reflexivity.
        * reflexivity.
      + repeat constructor; discriminate.
      + reflexivity.
      + reflexivity.
    - reflexivity. }
  destruct (aborted_upgrade_restores_sector ccSector m testEnv Hm) as [_ HA].
  destruct (HA Hst) as (m'&HP&_&Hpieces&_). exists m, m'. split; [done|]. split; [done|].
  rewrite Hpieces. reflexivity.
Defined.
