(* ===== verification/SectorPlan.v ===== *)
(** * Behaviour of the planners and of [Plan]

    Which events a call consumes, removal and restart from every state, the
    coverage of the planner table, the sector log and the unsealed ranges. *)

From coqutil Require Import Datatypes.RecordSetters.
From stdpp Require Import strings numbers base gmap fin_maps list.
From S2P Require Import Prelude SectorTypes SectorEvents SectorStats SectorFsm SectorInvariant.
Import DoubleBraceUpdate.
Local Open Scope Z_scope.

(** ** Coverage of the table *)

(** The states in which a sector rests without a handler. *)
Definition resting (st : SectorState) : Prop :=
  st = UndefinedSectorState ∨ st = Removed ∨ st = FailedUnrecoverable ∨ st = FaultedFinal.

(** The table has a planner for exactly the states of
    [ExistSectorStateList] and the undefined start state, every entry of it
    leads to a state that has one too, and every state with a planner has a
    handler, except the start state and the three states in which a sector
    rests for good. *)
Theorem fsmPlanners_cover :
  (∀ st, is_Some (fsmPlanners st) ↔ st = UndefinedSectorState ∨ st ∈ ExistSectorStateList) ∧
  (∀ st p t st', fsmPlanners st = Some p → t ∈ tableOf p → targetOf t = Some st' →
     is_Some (fsmPlanners st')) ∧
  (∀ st, is_Some (fsmPlanners st) → handlerOf st = None ↔ resting st).
Proof.
  split_and!.
  - intros st. rewrite is_Some_alt.
    destruct st; (split; [intros H|intros [H|H]]); try done;
      try (right; apply (bool_decide_unpack _); by vm_compute);
      try (by left); apply (bool_decide_pack _) in H; by vm_compute in H.
  - intros st p t st' Hp Ht Et.
    assert (allEntries (λ _ t, match targetOf t with
              | Some st' => bool_decide (is_Some (fsmPlanners st'))
              | None => true end) = true) as HA by (vm_compute; reflexivity).
    pose proof (allEntries_spec _ _ _ _ HA Hp Ht) as H. simpl in H. rewrite Et in H.
    by apply bool_decide_eq_true in H.
  - unfold resting. intros st [p Hp]. destruct st; simpl;
      (split; [intros HH; try discriminate HH; auto|intros [HH|[HH|[HH|HH]]]; done]).
    by vm_compute in Hp.
Qed.

(** ** Consumed events *)

(** An event loop consumes a prefix of its events, and the rest plays no part
    in what it leaves. *)
Lemma eventLoop_consumes body events i s s' n err :
  (∀ e s s' k err, body e s = Ret (Returns s' k err) → k = 1 ∨ (k = 0 ∧ s' = s ∧ err ≠ None)) →
  eventLoop body i events s = Ret (s', (n, err)) →
  i ≤ n ≤ i + Z.of_nat (length events) ∧ (events ≠ [] → err = None → i + 1 ≤ n) ∧
  ∃ err', eventLoop body i (take (Z.to_nat (n - i)) events) s = Ret (s', (n, err')).
Proof.
  intros Hb. revert i s. induction events as [|e rest IH]; intros i s H; simpl in H.
  - inv_ret. rewrite take_nil. simpl. split_and!; [lia|lia|done|eauto].
  - inv_bind. destruct a as [s1|s1 k er].
    + destruct (IH _ _ H) as (Hn&_&err'&Ht).
      replace (Z.to_nat (n - i)) with (S (Z.to_nat (n - (i + 1)))) by lia.
      simpl. rewrite E. simpl. rewrite Ht. split_and!; [lia..|eauto].
    + inv_ret. destruct (Hb _ _ _ _ _ E) as [->|(->&->&He)].
      * replace (Z.to_nat (i + 1 - i)) with 1%nat by lia. simpl. rewrite E. simpl.
        split_and!; [lia..|eauto].
      * replace (Z.to_nat (i + 0 - i)) with 0%nat by lia. simpl.
        split_and!; [lia|lia|done|]. rewrite Z.add_0_r. eauto.
Qed.

Lemma oneEvent_returns now ts e s s' k err :
  oneEvent now ts e s = Ret (Returns s' k err) → k = 1.
Proof.
  unfold oneEvent. intros H. repeat case_match; inv_bind; inv_ret; try done.
  repeat case_match; by inv_ret.
Qed.

Lemma committingEvent_returns now e s s' k err :
  committingEvent now e s = Ret (Returns s' k err) → k = 1 ∨ (k = 0 ∧ s' = s ∧ err ≠ None).
Proof.
  unfold committingEvent. intros H. destruct (applyGlobal e s) as [[s1 [|]]|]; inv_ret; [by left|done|].
  destruct e; try (inv_ret; by right); repeat case_match; inv_bind; inv_ret; try done; by left.
Qed.

Lemma planOne_consumes now ts events s s' n err :
  planOne now ts events s = Ret (s', (n, err)) →
  0 ≤ n ≤ Z.of_nat (length events) ∧ (events ≠ [] → 1 ≤ n) ∧
  ∃ err', planOne now ts (take (Z.to_nat n) events) s = Ret (s', (n, err')).
Proof.
  intros H. unfold planOne in *. pose proof H as H0.
  apply eventLoop_consumes in H as (Hn&_&Ht); [|intros ????? ?%oneEvent_returns; by left].
  rewrite Z.sub_0_r in Ht. split_and!; [lia|lia| |done]. intros He.
  destruct events as [|e rest]; [done|]. simpl in H0. inv_bind. destruct a as [s1|s1 k er].
  - apply eventLoop_consumes in H0 as (Hn'&_); [lia|intros ????? ?%oneEvent_returns; by left].
  - apply oneEvent_returns in E. inv_ret. lia.
Qed.

(** A planner consumes a prefix of the events: the number it reports is
    within the list, at least one event is consumed when it succeeds on a
    non-empty list, and the sector it leaves depends on the consumed events only,
    so an event that is left over has had no effect and can be planned again. *)
Theorem runPlanner_consumes_prefix now p events s s' n err :
  runPlanner now p events s = Ret (s', (n, err)) →
  0 ≤ n ≤ Z.of_nat (length events) ∧ (events ≠ [] → err = None → 1 ≤ n) ∧
  ∃ err', runPlanner now p (take (Z.to_nat n) events) s = Ret (s', (n, err')).
Proof.
  destruct p as [ts|ts| | |]; simpl; intros H.
  - destruct (planOne_consumes _ _ _ _ _ _ _ H) as (H1&H2&H3). auto.
  - unfold planOneOrIgnore in *. inv_bind. destruct a as [s1 [n1 er]]. inv_ret.
    destruct (planOne_consumes _ _ _ _ _ _ _ E) as (H1&H2&err'&->). simpl. eauto.
  - apply eventLoop_consumes in H as (Hn&Hp&Ht); [|apply committingEvent_returns].
    rewrite Z.sub_0_r in Ht. split_and!; [lia|lia|intros; by apply Hp|done].
  - destruct events as [|e rest]; simpl in *; [inv_ret; split_and!; [lia|done|done|eauto]|].
    destruct (applyGlobal e s) as [[s1 b]|] eqn:Eg; inv_ret; simpl; rewrite ?Eg;
      split_and!; try lia; try done; eauto.
  - unfold finalRemoved in *. inv_ret. rewrite Nat2Z.id, firstn_all.
    split_and!; [lia|lia| |eauto]. destruct events; [done|simpl; lia].
Qed.

(** A batch of which the last event is left for the next state. *)
Lemma runPlanner_consumes_prefix_witness :
  let s := mkSector (zeroSector {{ State := AddPiece }}) [] in
  let piece := mkPiece (mkPieceInfo 2048 "piece") None in
  ∃ p s', fsmPlanners AddPiece = Some p ∧
    runPlanner 0 p [SectorStartPacking; SectorPieceAdded [piece]; SectorStartPacking] s
      = Ret (s', (2, None)) ∧
    ∃ err', runPlanner 0 p [SectorStartPacking; SectorPieceAdded [piece]] s = Ret (s', (2, err')).
Proof.
  eexists _, _. split; [reflexivity|]. split; [reflexivity|].
  apply (runPlanner_consumes_prefix 0 (PlanOne
    [On TSectorPieceAdded WaitDeals; ApplyOnly TSectorStartPacking;
     ApplyOnly TSectorAddPiece; On TSectorAddPieceFailed AddPieceFailed])
    [SectorStartPacking; SectorPieceAdded [mkPiece (mkPieceInfo 2048 "piece") None]; SectorStartPacking]
    _ _ 2 None).
  reflexivity.
Defined.

(** ** Removal and restart *)

(** Planning the removal with any planner but the one of [Removed]. *)
Lemma runPlanner_remove now p rest s :
  p ≠ FinalRemoved →
  runPlanner now p (SectorRemove :: rest) s
  = Ret (setState Removing (maybeNotifyRemoteDone false "Removing" s), (1, None)).
Proof. by destruct p. Qed.

Lemma runPlanner_restart now p s :
  p ≠ FinalRemoved → runPlanner now p [SectorRestart] s = Ret (s, (1, None)).
Proof. by destruct p. Qed.

Lemma fsmPlanners_FinalRemoved st : fsmPlanners st = Some FinalRemoved → st = Removed.
Proof. by destruct st. Qed.

Lemma plannerFor_global st e : isGlobal e = true → ∃ p, plannerFor st [e] = Some p ∧ (p = FinalRemoved → st = Removed).
Proof.
  intros He. unfold plannerFor. destruct (fsmPlanners st) as [p|] eqn:Hp.
  - exists p. split; [done|]. intros ->. by apply fsmPlanners_FinalRemoved.
  - rewrite He. by exists (PlanOne []).
Qed.

(** The notification a remote sealer gets on removal. *)
Definition removalNotice (i : SectorInfo) : list RemoteDone :=
  if decide (RemoteSealingDoneEndpoint i = "") then []
  else [mkRemoteDone (RemoteSealingDoneEndpoint i) false "Removing" (CommitMessage i)].

(** Removal works from everywhere: in every state but [Removed], known to
    the table or not, a removal request is consumed, takes the sector to
    [Removing], starts the removal handler, changes nothing else of the sector
    but its log, and reports the failure to the remote sealer exactly when the
    sector has an endpoint for it.  A removed sector ignores the request. *)
Theorem remove_from_every_state E m :
  (State (info (mSector m)) ≠ Removed →
   ∃ m' l, Plan E [SectorRemove] m = Ret (m', (Some handleRemoving, 1)) ∧
     info (mSector m') = (info (mSector m)) {{ State := Removing; Logs := l }} ∧
     sent (mSector m') = sent (mSector m) ++ removalNotice (info (mSector m))) ∧
  (State (info (mSector m)) = Removed →
   ∃ m' l, Plan E [SectorRemove] m = Ret (m', (None, 1)) ∧
     mSector m' = mkSector ((info (mSector m)) {{ Logs := l }}) (sent (mSector m))).
Proof.
  destruct (logEvents_info E [SectorRemove] (mSector m)) as [l Hl]. split; intros Hst.
  - destruct (plannerFor_global (State (info (mSector m))) SectorRemove eq_refl) as (p&Hp&Hf).
    destruct (Plan_planner E [SectorRemove] m p
      (setState Removing (maybeNotifyRemoteDone false "Removing" (logEvents E [SectorRemove] (mSector m))))
      1 handleRemoving) as (m'&HP&Hm');
      [done|apply runPlanner_remove; intros ->; by apply Hst, Hf|by rewrite setState_info|].
    exists m', l. rewrite Hm', Hl in *. split; [exact HP|].
    unfold settled, setState, maybeNotifyRemoteDone, removalNotice. simpl.
    destruct (mSector m) as [i sn], i; cbn. case_decide; cbn; by rewrite ?app_nil_r.
  - destruct (Plan_rests E [SectorRemove] m FinalRemoved (logEvents E [SectorRemove] (mSector m)) 1)
      as (m'&l'&HP&Hm'); [by rewrite Hst|done|by rewrite logEvents_State, Hst|].
    exists m', l'. split; [done|]. rewrite Hm', Hl. by destruct (mSector m) as [[] sn].
Qed.

(** A restart is harmless: for every state that has a handler, the restart
    event that is sent to each sector at start-up is consumed, starts the
    handler of that very state and leaves the sector as it was, log included;
    only the deprecated [PackingFailed] becomes [DealsExpired], and a sector in
    [ReleaseSectorKeyFailed] reports the event as not consumed. *)
Theorem restart_resumes_handler E m h :
  handlerOf (State (info (mSector m))) = Some h →
  ∃ m', Plan E [SectorRestart] m
        = Ret (m', (Some h, if decide (State (info (mSector m)) = ReleaseSectorKeyFailed) then 0 else 1)) ∧
    mSector m' = if decide (State (info (mSector m)) = PackingFailed)
                 then setState DealsExpired (mSector m) else mSector m.
Proof.
  intros Hh. destruct (plannerFor_global (State (info (mSector m))) SectorRestart eq_refl) as (p&Hp&Hf).
  assert (logEvents E [SectorRestart] (mSector m) = mSector m) as Hl.
  { simpl. by destruct (eMarshal E SectorRestart). }
  destruct (Plan_planner E [SectorRestart] m p (mSector m) 1 h) as (m'&HP&Hm'); [done| |done|].
  { rewrite Hl. apply runPlanner_restart. intros ->. by rewrite Hf in Hh. }
  exists m'. rewrite HP, Hm'. unfold processedOf, settled.
  destruct (State (info (mSector m))); done.
Qed.

Lemma restart_resumes_handler_witness :
  let m := mkMachine (mkSector ccSector []) emptyStats [] [] in
  ∃ m', Plan demoEnv [SectorRestart] m = Ret (m', (Some handleAvailableSector, 1)) ∧
    mSector m' = mkSector ccSector [].
Proof.
  apply (restart_resumes_handler demoEnv (mkMachine (mkSector ccSector []) emptyStats [] [])).
  reflexivity.
Defined.

(** A failed key release is reported with no event consumed: the planner
    has moved the sector to [ReleaseSectorKeyFailed] and yet the call returns
    0, so the event that was applied stays pending; planned again it is an
    unexpected event of the new state. *)
Theorem release_failure_not_consumed E m err :
  State (info (mSector m)) = ReleaseSectorKey →
  ∃ m1 m2, Plan E [SectorReleaseKeyFailed err] m = Ret (m1, (Some handleReleaseSectorKeyFailed, 0)) ∧
    State (info (mSector m1)) = ReleaseSectorKeyFailed ∧
    Plan E [SectorReleaseKeyFailed err] m1 = Ret (m2, (None, 1)).
Proof.
  intros Hst. destruct (logEvents_info E [SectorReleaseKeyFailed err] (mSector m)) as [l Hl].
  edestruct (Plan_planner E [SectorReleaseKeyFailed err] m) as (m1&HP&Hm1).
  - by rewrite Hst.
  - rewrite Hl. reflexivity.
  - by destruct (info (mSector m)).
  - assert (State (info (mSector m1)) = ReleaseSectorKeyFailed) as H1
      by (rewrite Hm1; by destruct (info (mSector m))).
    exists m1. eexists. split; [by destruct (info (mSector m))|]. split; [done|].
    unfold Plan, plan, planBody.
    replace (State (info (mSector (m1 {{ mSector := logEvents E [SectorReleaseKeyFailed err] (mSector m1) }}))))
      with ReleaseSectorKeyFailed by (rewrite <- H1; symmetry; destruct m1; apply logEvents_State).
    reflexivity.
Qed.

Lemma release_failure_not_consumed_witness :
  let i := zeroSector {{ State := ReleaseSectorKey; SectorNumber := 3 }} in
  let m := mkMachine (mkSector i []) emptyStats [] [] in
  ∃ m1 m2, Plan demoEnv [SectorReleaseKeyFailed "busy"] m = Ret (m1, (Some handleReleaseSectorKeyFailed, 0)) ∧
    State (info (mSector m1)) = ReleaseSectorKeyFailed ∧
    Plan demoEnv [SectorReleaseKeyFailed "busy"] m1 = Ret (m2, (None, 1)).
Proof.
  apply (release_failure_not_consumed demoEnv (mkMachine (mkSector
    (zeroSector {{ State := ReleaseSectorKey; SectorNumber := 3 }}) []) emptyStats [] []) "busy").
  reflexivity.
Defined.

(** ** The sector log *)

(** Cutting an overlong log: above 8000 entries, what remains is the first
    2000 entries and those from index 6000 on, followed by the new entry; the
    marker that is written at index 2000 just before is not among them, so the
    log does not tell that it was cut. *)
Theorem logAppend_cut now l logs :
  8000 < Z.of_nat (length logs) →
  logAppend now l logs = take (Z.to_nat 2000) logs ++ drop (Z.to_nat 6000) logs ++ [l].
Proof.
  intros H. unfold logAppend. rewrite decide_True by done.
  rewrite take_insert_ge by lia. rewrite drop_insert_lt by lia. by rewrite app_assoc.
Qed.

Lemma logAppend_cut_witness :
  let e := mkLog 1 "" "{}" "event" in
  let logs := replicate (Z.to_nat 8001) e in
  8000 < Z.of_nat (length logs) ∧ Z.of_nat (length (logAppend 2 e logs)) = 4002 ∧
  logAppend 2 e logs = take (Z.to_nat 2000) logs ++ drop (Z.to_nat 6000) logs ++ [e].
Proof.
  split; [reflexivity|]. split; [reflexivity|].
  apply (logAppend_cut 2). reflexivity.
Defined.

Lemma logAppend_bound now l logs :
  Z.of_nat (length logs) ≤ 8001 → Z.of_nat (length (logAppend now l logs)) ≤ 8001.
Proof.
  intros H. unfold logAppend. case_decide; rewrite !length_app; simpl; [|lia].
  rewrite length_take, length_drop, length_insert. lia.
Qed.

Lemma apply_Logs now e i i' :
  typeOf e ≠ TSectorReceive → apply now e i = Ret i' → Logs i' = Logs i.
Proof.
  intros H1 H. unfold apply in H. inv_bind. inv_ret.
  destruct i, e; simpl in E; inv_bind; inv_ret; try done; rsimpl; try done. by case_decide.
Qed.

Definition shortLog (i : SectorInfo) : Prop := Z.of_nat (length (Logs i)) ≤ 8001.

(** The log of a sector stays bounded: whatever batches of events are
    planned (imports of foreign sectors aside, which bring their own log), a
    log of at most 8001 entries never grows beyond 8001 entries. *)
Theorem log_stays_bounded E events m m' r :
  Forall (λ e, typeOf e ≠ TSectorReceive) events →
  Z.of_nat (length (Logs (info (mSector m)))) ≤ 8001 →
  Plan E events m = Ret (m', r) → Z.of_nat (length (Logs (info (mSector m')))) ≤ 8001.
Proof.
  intros Hev Hm HP. change (shortLog (info (mSector m'))).
  assert (∀ i st, shortLog i → shortLog (i {{ State := st }})) as Hset by (by intros []).
  assert (∀ e s s' b, typeOf e ≠ TSectorReceive → shortLog (info s) →
            applyGlobal e s = Some (s', b) → shortLog (info s')) as Hg.
  { intros e s s' b _ HS H. apply applyGlobal_info in H as [->|(st'&->&_)]; auto. }
  assert (∀ now e s s1, typeOf e ≠ TSectorReceive → shortLog (info s) →
            applyTo now e s = Ret s1 → shortLog (info s1)) as Ha.
  { intros now e s s1 He HS H%applyTo_info. unfold shortLog in *. by rewrite (apply_Logs _ _ _ _ He H). }
  apply (Plan_inv shortLog (λ _ e, typeOf e ≠ TSectorReceive)) in HP; try done.
  - intros now st p e t s s1 _ _ _ He _ HS H. specialize (Ha now e s s1 He HS H).
    destruct (next_info t s1) as [[_ ->]|[(st'&_&->)|(ty&_&->)]]; [done|by apply Hset|].
    by destruct (info s1).
  - intros now evs s r' Hok _ HS H.
    eapply (planCommitting_inv shortLog (λ _ e, typeOf e ≠ TSectorReceive)); [intros st; exact Hg| | |done|done|done].
    + intros s0 st HS' _. rewrite setState_info. by apply Hset.
    + intros e s0 s1. apply Ha.
  - intros i now l HS. destruct i. by apply logAppend_bound.
Qed.

Lemma log_stays_bounded_witness :
  let m := mkMachine (mkSector ccSector []) emptyStats [] [] in
  ∃ m' r, Plan testEnv [SectorAbortUpgrade "no deals"] m = Ret (m', r) ∧
    Z.of_nat (length (Logs (info (mSector m')))) ≤ 8001.
Proof.
  eexists _, _. split; [reflexivity|].
  eapply (log_stays_bounded testEnv [SectorAbortUpgrade "no deals"]
    (mkMachine (mkSector ccSector []) emptyStats [] [])); [| |reflexivity].
  - repeat constructor. discriminate.
  - simpl. lia.
Defined.

(** ** Unsealed ranges *)

(** The range of every piece that carries a deal, in order. *)
Fixpoint dealRanges (pieces : list SectorPiece) (off : Z) : list (Z * Z) :=
  match pieces with
  | [] => []
  | p :: rest =>
      let size := Unpadded (Size (Piece p)) in
      match DealInfo p with
      | Some _ => (off, size) :: dealRanges rest (off + size)
      | None => dealRanges rest (off + size)
      end
  end.

Lemma keepRanges_partition pieces alwaysKeep off :
  keepRanges pieces false alwaysKeep off ++ keepRanges pieces true alwaysKeep off
  ≡ₚ dealRanges pieces off.
Proof.
  revert off. induction pieces as [|p rest IH]; intros off; [done|]. simpl.
  destruct (DealInfo p) as [di|]; [|apply IH].
  replace (off + Unpadded (Size (Piece p)) - Unpadded (Size (Piece p))) with off by lia.
  destruct (KeepUnsealed di || alwaysKeep); simpl; [by rewrite IH|].
  by rewrite <- Permutation_middle, IH.
Qed.

(** What is kept unsealed and what is not are complementary: for every list
    of pieces the ranges to keep and the ranges to release are together exactly
    the ranges of the deal pieces, each once, at the offset that the sizes of
    the pieces before it give; with [alwaysKeep] nothing is released. *)
Theorem keepUnsealedRanges_partition pieces alwaysKeep :
  keepUnsealedRanges pieces false alwaysKeep ++ keepUnsealedRanges pieces true alwaysKeep
    ≡ₚ dealRanges pieces 0 ∧
  keepUnsealedRanges pieces true true = [].
Proof.
  split; [apply keepRanges_partition|]. unfold keepUnsealedRanges. generalize 0.
  induction pieces as [|p rest IH]; intros off; [done|]. simpl.
  destruct (DealInfo p) as [di|]; [rewrite orb_true_r; simpl|]; apply IH.
Qed.
