(* ===== verification/Versions.v ===== *)
(** * Version metadata of the client (cli/client.go, cli/client_retr.go)

    [deal --create] and [deal --update] record file versions in the working
    directory: [fileroots.log] lists the roots, and [<cid>_meta] holds two
    lines, the previous version and the next one ([NULL] when there is none).
    [list-root], [list-version] and [retrieve-version] read them.  The node
    API, CID parsing and the [bspatch] program are parameters. *)

From Stdlib Require Import Ascii.
From coqutil Require Import Datatypes.RecordSetters.
From stdpp Require Import strings numbers base gmap fin_maps list.
From S2P Require Import Prelude GoStrings.
Import DoubleBraceUpdate.
Local Open Scope Z_scope.

(** ** The world of a command *)

(** [lapi.StartDealParams], with the piece data of its [DataRef]. *)
Record Deal := mkDeal {
  dRoot : string; dManual : bool; dPieceCid : option string; dPieceSize : Z;
  dWallet : string; dMiner : string; dEpochPrice : Z; dMinBlocksDuration : Z;
  dDealStartEpoch : Z; dFastRetrieval : bool; dVerifiedDeal : bool;
  dProviderCollateral : option Z; dStateless : bool
}.

(** The files of the working directory, the printed lines, and the deals that
    were started.  File operations fail only when a file is missing. *)
Record world := mkWorld { wFiles : gmap string string; wOut : list string; wDeals : list Deal }.

Definition println (s : string) : io world unit := modify (λ w, w {{ wOut ::= λ o, o ++ [s] }}).
Definition exists_ (p : string) : io world bool := gets (λ w, bool_decide (is_Some (wFiles w !! p))).
Definition readFile (p : string) : io world string := λ w,
  (w, match wFiles w !! p with
      | Some c => Ret c
      | None => Fail ("open " +:+ p +:+ ": no such file or directory")
      end).
Definition writeFile (p content : string) : io world unit :=
  modify (λ w, w {{ wFiles ::= λ fs, <[p := content]> fs }}).
(** [os.Remove], with a missing file ignored as all callers do. *)
Definition removeFile (p : string) : io world unit :=
  modify (λ w, w {{ wFiles ::= λ fs, delete p fs }}).
(** Opening with [O_APPEND|O_CREATE] and writing a string. *)
Definition appendFile (p s : string) : io world unit :=
  modify (λ w, w {{ wFiles ::= λ fs, <[p := default "" (fs !! p) +:+ s]> fs }}).
Definition rename (from to : string) : io world unit := λ w,
  match wFiles w !! from with
  | Some c => (w {{ wFiles ::= λ fs, <[to := c]> (delete from fs) }}, Ret tt)
  | None => (w, Fail ("rename " +:+ from +:+ " " +:+ to +:+ ": no such file or directory"))
  end.

Definition IncorrectNumArgs {A} (n : Z) : io world A :=
  fail ("incorrect number of arguments, got " +:+ Itoa n).

(** ** list-root *)

Fixpoint printRoots (lines : list string) (rootIndex : Z) : io world unit :=
  match lines with
  | [] => mret tt
  | line :: rest =>
      let rootCid := TrimSpace line in
      if decide (rootCid = "") then printRoots rest rootIndex
      else println ("ROOT " +:+ Itoa rootIndex +:+ ": " +:+ rootCid);;
           printRoots rest (rootIndex + 1)
  end.

Definition listRootTip : string :=
  "Tip: Use 'lotus client list-version <root>' to inspect the head information of a file version chain.".

Definition clientListRoot (nArg : Z) : io world unit :=
  if decide (nArg ≠ 0) then IncorrectNumArgs nArg
  else
    present ← exists_ "fileroots.log";
    if negb present then
      println "DSN Roots";; println "---------";; println "";;
      println "No root files are currently recorded in the DSN.";;
      println "Tip: You can upload a new file with 'lotus client import' and 'lotus client deal --create'."
    else
      content ← readFile "fileroots.log";
      let normalized := TrimSpace (ReplaceCRLF content) in
      println "DSN Roots";; println "---------";;
      if decide (normalized = "") then println "(empty)";; println "";; println listRootTip
      else printRoots (Split NL normalized) 0;; println "";; println listRootTip.

(** ** Metadata files *)

Definition metaPath (c : string) : string := c +:+ "_meta".

(** [%q] of text without quotes, escapes or control characters. *)
Definition quoted (s : string) : string := String "034" (s +:+ String "034" "").

(** The lines of a metadata file. *)
Definition metaLines (content : string) : list string :=
  Split NL (TrimRightNL (ReplaceCRLF content)).

(** A loop that follows metadata from CID to CID: [step] handles one CID and
    names the next one.  The loop ends with an error on a CID seen before;
    running out of [fuel] is [Crash], which [walk_safe] excludes. *)
Fixpoint walk {S} (fuel : nat) (cycle : string) (step : string → S → io world (S * option string))
    (visited : gset string) (cur : string) (s : S) : io world S :=
  match fuel with
  | O => lift Crash
  | S fuel' =>
      if decide (cur ∈ visited) then fail (cycle +:+ cur)
      else
        '(s', nxt) ← step cur s;
        match nxt with
        | None => mret s'
        | Some c => walk fuel' cycle step ({[ cur ]} ∪ visited) c s'
        end
  end.

(** As many rounds as there are files, and one more. *)
Definition rounds (w : world) : nat := S (S (size (wFiles w))).

Lemma walk_S {S} fuel cycle (step : string → S → io world (S * option string)) visited cur s :
  walk (Datatypes.S fuel) cycle step visited cur s
  = if decide (cur ∈ visited) then fail (cycle +:+ cur)
    else '(s', nxt) ← step cur s;
         match nxt with
         | None => mret s'
         | Some c => walk fuel cycle step ({[ cur ]} ∪ visited) c s'
         end.
Proof. reflexivity. Qed.

Arguments walk : simpl never.
Arguments rounds : simpl never.

(** ** list-version *)

Section commands.
(** [cid.Parse], giving the canonical text, or the error text. *)
Variable cidParse : string → outcome string.

(** The body of the loop of [list-version]; the state is [versionIndex]. *)
Definition listStep (currentCid : string) (versionIndex : Z) : io world (Z * option string) :=
  let p := metaPath currentCid in
  content ← wrapErr ("reading " +:+ p +:+ ": ") (readFile p);
  let lines := metaLines content in
  if decide (length lines < 2)%nat then
    fail ("metadata file " +:+ p +:+ " is invalid: expected at least 2 lines")
  else
    second ← lift (index lines 1);
    let nextCid := TrimSpace second in
    if decide (nextCid = "") then fail ("metadata file " +:+ p +:+ " is invalid: second line is empty")
    else if decide (nextCid = "NULL") then mret (versionIndex, None)
    else
      _ ← wrapErr ("metadata file " +:+ p +:+ " has invalid head cid " +:+ quoted nextCid +:+ ": ")
            (lift (cidParse nextCid));
      println ("HEAD(v" +:+ Itoa (versionIndex + 2) +:+ "): " +:+ nextCid);;
      mret (versionIndex + 1, Some nextCid).

Definition clientListVersion (args : list string) : io world unit :=
  match args with
  | [arg] =>
      let rootCid := TrimSpace arg in
      if decide (rootCid = "") then fail "root cid cannot be empty"
      else
        _ ← wrapErr "parsing root cid: " (lift (cidParse rootCid));
        present ← exists_ (metaPath rootCid);
        if negb present then
          println "Version Chain";; println "-------------";;
          println "The file does not exist in the current directory metadata.";;
          println "";;
          println "Tip: Use 'lotus client list-root' to view files currently stored in the DSN."
        else
          println "Version Chain";; println "-------------";;
          println ("ROOT(v1): " +:+ rootCid);;
          fuel ← gets rounds;
          _ ← walk fuel "detected cycle in version metadata at cid " listStep ∅ rootCid 0;
          println "";;
          println "Tip: Use 'lotus client retrieve-version <head> <outputPath>' to retrieve any version of this file."
  | _ => IncorrectNumArgs (Z.of_nat (length args))
  end.

(** ** deal *)

(** The node API and parsers that [deal] calls, with their answers. *)
Record DealApi := mkDealApi {
  connect : outcome unit;
  addressParse : string → outcome string;
  parseFIL : string → outcome Z;
  bigFromString : string → outcome Z;
  walletDefaultAddress : outcome string;
  verifiedClient : string → outcome bool;
  startDeal : Deal → outcome string;
  encodeCid : string → outcome string;
  minDealDuration : Z;
  maxDealDuration : Z;
  interactiveDeal : io world unit
}.

(** The arguments and flags of [deal]. *)
Record DealFlags := mkDealFlags {
  fArgs : list string;
  fCreate : bool; fUpdate : bool; fPrevious : string;
  fStateless : bool; fManualPieceCid : string; fManualPieceSize : Z;
  fFrom : string; fStartEpoch : Z; fFastRetrieval : bool;
  fVerifiedDeal : option bool; fProviderCollateral : string
}.

(** [strconv.ParseInt(s, 10, 32)] *)
Definition ParseInt32 (s : string) : outcome Z :=
  match Atoi s with
  | Some z => if decide (- 2 ^ 31 ≤ z < 2 ^ 31) then Ret z
              else Fail ("strconv.ParseInt: parsing " +:+ quoted s +:+ ": value out of range")
  | None => Fail ("strconv.ParseInt: parsing " +:+ quoted s +:+ ": invalid syntax")
  end.

(** [lines[1] = v] for a slice of at least two lines. *)
Definition setSecond (lines : list string) (v : string) : list string := <[1%nat := v]> lines.

(** What [deal --create] records. *)
Definition recordCreate (dataCidArg : string) : io world unit :=
  appendFile "fileroots.log" (dataCidArg +:+ nl);;
  writeFile (metaPath dataCidArg) ("NULL" +:+ nl +:+ "NULL" +:+ nl).

(** What [deal --update --previous] records. *)
Definition recordUpdate (previousCid dataCidArg : string) : io world unit :=
  let previousMetaPath := metaPath previousCid in
  content ← wrapErr ("reading " +:+ previousMetaPath +:+ ": ") (readFile previousMetaPath);
  let lines := metaLines content in
  if decide (length lines < 2)%nat then
    fail ("metadata file " +:+ previousMetaPath +:+ " is invalid: expected at least 2 lines")
  else
    writeFile previousMetaPath (Join (setSecond lines dataCidArg) nl +:+ nl);;
    writeFile (metaPath dataCidArg) (previousCid +:+ nl +:+ "NULL" +:+ nl).

Section deal.
Variable api : DealApi.
Variable f : DealFlags.

(** The deal that the four arguments and the flags describe. *)
Definition dealParams (dataCidArg minerArg priceArg durArg : string) : io world Deal :=
  data ← lift (cidParse dataCidArg);
  miner ← lift (addressParse api minerArg);
  price ← lift (parseFIL api priceArg);
  dur ← lift (ParseInt32 durArg);
  provCol ← (if decide (fProviderCollateral f = "") then mret None
             else pc ← wrapErr "failed to parse provider-collateral: "
                         (lift (bigFromString api (fProviderCollateral f)));
                  mret (Some pc));
  if decide (dur < minDealDuration api) then
    fail ("minimum deal duration is " +:+ Itoa (minDealDuration api) +:+ " blocks")
  else if decide (maxDealDuration api < dur) then
    fail ("maximum deal duration is " +:+ Itoa (maxDealDuration api) +:+ " blocks")
  else
    a ← (if decide (fFrom f = "") then lift (walletDefaultAddress api)
         else wrapErr "failed to parse 'from' address: " (lift (addressParse api (fFrom f))));
    ref ← (if decide (fManualPieceCid f = "") then mret (false, None, 0)
           else c ← wrapErr "failed to parse provided manual piece cid: "
                      (lift (cidParse (fManualPieceCid f)));
                if decide (fManualPieceSize f = 0)
                then fail "must specify piece size when manually setting cid"
                else mret (true, Some c, fManualPieceSize f));
    dcap ← lift (verifiedClient api a);
    isVerified ← match fVerifiedDeal f with
                 | Some v => if v && negb dcap
                             then fail ("address " +:+ a +:+ " does not have verified client status")
                             else mret v
                 | None => mret dcap
                 end;
    mret (mkDeal data ref.1.1 ref.1.2 ref.2 a miner price dur (fStartEpoch f)
            (fFastRetrieval f) isVerified provCol (fStateless f)).

(** [api.ClientStatelessDeal] or [api.ClientStartDeal]. *)
Definition submitDeal (d : Deal) : io world string :=
  if fStateless f && (negb (dManual d) || negb (bool_decide (wrapInt64 (dEpochPrice d) = 0))) then
    fail "when manual-stateless-deal is enabled, you must also provide a 'price' of 0 and specify 'manual-piece-cid' and 'manual-piece-size'"
  else
    proposal ← lift (startDeal api d);
    modify (λ w, w {{ wDeals ::= λ l, l ++ [d] }});;
    mret proposal.

Definition expectedArgsMsg : string := "expected 4 args: dataCid, miner, price, duration".

Definition clientDeal : io world unit :=
  match fArgs f with
  | [] =>
      if fStateless f then
        fail ("--manual-stateless-deal can not be combined with interactive deal mode: you must specify the "
              +:+ expectedArgsMsg)
      else if fCreate f || fUpdate f || negb (bool_decide (fPrevious f = "")) then
        fail ("--create, --update, and --previous can not be combined with interactive deal mode: you must specify the "
              +:+ expectedArgsMsg)
      else interactiveDeal api
  | args =>
      lift (connect api);;
      match args with
      | [dataCidArg; minerArg; priceArg; durArg] =>
          if fCreate f && fUpdate f then fail "--create and --update cannot be used together"
          else if fCreate f && negb (bool_decide (fPrevious f = "")) then
            fail "--previous cannot be used when --create is set"
          else if fUpdate f && bool_decide (fPrevious f = "") then
            fail "--previous must be provided when --update is set"
          else
            d ← dealParams dataCidArg minerArg priceArg durArg;
            proposal ← submitDeal d;
            (if fCreate f then recordCreate dataCidArg else mret tt);;
            (if fUpdate f then recordUpdate (fPrevious f) dataCidArg else mret tt);;
            text ← lift (encodeCid api proposal);
            println text
      | _ => IncorrectNumArgs (Z.of_nat (length args))
      end
  end.
End deal.

(** ** retrieve-version *)

(** [lapi.QueryOffer]: its error, its price and the rest of it. *)
Record Offer := mkOffer { oErr : string; oMinPrice : Z; oTerms : string }.

(** The retrieval statuses the loop distinguishes. *)
Inductive DealStatus : Type :=
| DealStatusCompleted | DealStatusRejected | DealStatusCancelled
| DealStatusDealNotFound | DealStatusErrored | DealStatusOther (name : string).

Record RetrievalInfo := mkRetrievalInfo { rID : Z; rStatus : DealStatus; rMessage : string; rLine : string }.

(** [lapi.ExportRef] *)
Inductive ExportRef : Type :=
| FromLocalCAR (root carPath : string)
| FromDeal (root : string) (dealID : Z).

(** What [retrieve-version] uses of the node and of the system; [updates] is
    the stream of retrieval events until the command's context ends, and
    [rLine] the progress line printed for one. *)
Record RetrApi := mkRetrApi {
  rConnect : outcome unit;
  rAddressParse : string → outcome string;
  rWalletDefault : outcome string;
  rParseFIL : string → outcome Z;
  defaultMaxPrice : Z;
  listImports : outcome (list (option string * string));
  findData : string → outcome (list Offer);
  sortOffers : list Offer → list Offer;
  minerQueryOffer : string → string → outcome Offer;
  retrievalUpdates : string → outcome (list RetrievalInfo);
  clientRetrieve : Offer → string → outcome Z;
  clientExport : ExportRef → outcome string;
  lookPath : string → outcome unit;
  bspatch : string → string → outcome string
}.

Record RetrFlags := mkRetrFlags {
  qFrom : string; qProvider : string; qMaxPrice : string; qAllowLocal : bool
}.

(** The body of the loop that walks back to the root; the state is the chain
    found so far, oldest first. *)
Definition resolveStep (currentCid : string) (versionChain : list string) :
    io world (list string * option string) :=
  let p := metaPath currentCid in
  content ← wrapErr ("reading metadata file " +:+ p +:+ ": ") (readFile p);
  let lines := metaLines content in
  if decide (length lines < 2)%nat then
    fail ("metadata file " +:+ p +:+ " is invalid: expected at least 2 lines")
  else
    first ← lift (index lines 0);
    let previousCid := TrimSpace first in
    if decide (previousCid = "") then fail ("metadata file " +:+ p +:+ " is invalid: first line is empty")
    else
      let versionChain' := currentCid :: versionChain in
      if decide (previousCid = "NULL") then mret (versionChain', None)
      else
        _ ← wrapErr ("metadata file " +:+ p +:+ " has invalid previous cid " +:+ quoted previousCid +:+ ": ")
              (lift (cidParse previousCid));
        mret (versionChain', Some previousCid).

Definition resolveChain (targetCid : string) : io world (list string) :=
  fuel ← gets rounds;
  walk fuel "detected cycle in version metadata at cid " resolveStep ∅ targetCid [].

Section retrieve.
Variable api : RetrApi.
Variable q : RetrFlags.

(** The loop [readEvents]. *)
Fixpoint readEvents (chainCid : string) (dealID : Z) (evts : list RetrievalInfo) : io world unit :=
  match evts with
  | [] => fail "Retrieval Timed Out"
  | evt :: rest =>
      if decide (rID evt ≠ dealID) then readEvents chainCid dealID rest
      else
        println (rLine evt);;
        match rStatus evt with
        | DealStatusCompleted => mret tt
        | DealStatusRejected => fail ("retrieval proposal rejected for " +:+ chainCid +:+ ": " +:+ rMessage evt)
        | DealStatusCancelled => fail ("retrieval proposal cancelled for " +:+ chainCid +:+ ": " +:+ rMessage evt)
        | DealStatusDealNotFound | DealStatusErrored =>
            fail ("retrieval error for " +:+ chainCid +:+ ": " +:+ rMessage evt)
        | DealStatusOther _ => readEvents chainCid dealID rest
        end
  end.

Definition clean (offers : list Offer) : list Offer := filter (λ o, oErr o = "") offers.

(** The offer to retrieve [file] with. *)
Definition chooseOffer (chainCid file : string) (maxPrice : Z) : io world Offer :=
  offer ← (if decide (qProvider q = "") then
             offers ← lift (findData api file);
             match sortOffers api (clean offers) with
             | [] => fail ("failed to find providers for " +:+ chainCid)
             | o :: _ => mret o
             end
           else
             minerAddr ← lift (rAddressParse api (qProvider q));
             lift (minerQueryOffer api minerAddr file));
  if decide (oErr offer ≠ "") then fail ("offer error for " +:+ chainCid +:+ ": " +:+ oErr offer)
  else if decide (maxPrice < oMinPrice offer) then
    fail ("failed to find offer for " +:+ chainCid +:+ " satisfying maxPrice: " +:+ Itoa maxPrice)
  else mret offer.

Definition tmpPath (outputPath : string) (i : Z) : string := outputPath +:+ "_tmp_" +:+ Itoa i.
Definition workPath (outputPath : string) (i : Z) : string := outputPath +:+ "_work_" +:+ Itoa i.

(** One round of the loop over the version chain. *)
Definition fetchVersion (outputPath payer : string) (maxPrice : Z) (local : gmap string string)
    (i : Z) (chainCid : string) : io world unit :=
  file ← wrapErr ("parsing cid " +:+ chainCid +:+ " in version chain: ") (lift (cidParse chainCid));
  let tmp := tmpPath outputPath i in
  removeFile tmp;;
  eref ← match local !! file with
         | Some carPath =>
             println ("Using local import for " +:+ chainCid);; mret (FromLocalCAR file carPath)
         | None =>
             offer ← chooseOffer chainCid file maxPrice;
             evts ← wrapErr ("error setting up retrieval updates for " +:+ chainCid +:+ ": ")
                      (lift (retrievalUpdates api file));
             dealID ← wrapErr ("error setting up retrieval for " +:+ chainCid +:+ ": ")
                        (lift (clientRetrieve api offer payer));
             readEvents chainCid dealID evts;;
             mret (FromDeal file dealID)
         end;
  content ← wrapErr ("exporting " +:+ chainCid +:+ " to " +:+ tmp +:+ ": ") (lift (clientExport api eref));
  writeFile tmp content;;
  println ("Exported " +:+ chainCid +:+ " to " +:+ tmp).

Fixpoint fetchAll (outputPath payer : string) (maxPrice : Z) (local : gmap string string)
    (i : Z) (chain : list string) : io world unit :=
  match chain with
  | [] => mret tt
  | c :: rest =>
      fetchVersion outputPath payer maxPrice local i c;;
      fetchAll outputPath payer maxPrice local (i + 1) rest
  end.

(** One round of the patch loop. *)
Definition applyPatch (outputPath : string) (i : Z) : io world unit :=
  let patchPath := tmpPath outputPath i in
  let nextWorkPath := workPath outputPath i in
  removeFile nextWorkPath;;
  old ← wrapErr ("applying patch " +:+ patchPath +:+ ": ") (readFile outputPath);
  patch ← wrapErr ("applying patch " +:+ patchPath +:+ ": ") (readFile patchPath);
  new ← wrapErr ("applying patch " +:+ patchPath +:+ ": ") (lift (bspatch api old patch));
  writeFile nextWorkPath new;;
  removeFile outputPath;;
  wrapErr ("replacing " +:+ outputPath +:+ " with patched output " +:+ nextWorkPath +:+ ": ")
    (rename nextWorkPath outputPath);;
  removeFile patchPath;;
  println ("Applied patch " +:+ patchPath).

(** [for i := 1; i < len(versionChain); i++], with the rounds left. *)
Fixpoint applyPatches (outputPath : string) (i : Z) (left : nat) : io world unit :=
  match left with
  | O => mret tt
  | S left' => applyPatch outputPath i;; applyPatches outputPath (i + 1) left'
  end.

Definition localImports (imports : list (option string * string)) : gmap string string :=
  foldl (λ m i, match i.1 with Some root => <[root := i.2]> m | None => m end) ∅ imports.

Definition clientRetrieveVersion (args : list string) : io world unit :=
  match args with
  | [targetCid; outputPath] =>
      _ ← wrapErr "parsing target dataCid: " (lift (cidParse targetCid));
      present ← exists_ outputPath;
      if (present : bool) then fail ("output path already exists: " +:+ outputPath)
      else
        lift (rConnect api);;
        payer ← (if decide (qFrom q = "") then lift (rWalletDefault api)
                 else lift (rAddressParse api (qFrom q)));
        maxPrice ← (if decide (qMaxPrice q = "") then mret (defaultMaxPrice api)
                    else wrapErr "parsing maxPrice: " (lift (rParseFIL api (qMaxPrice q))));
        versionChain ← resolveChain targetCid;
        println ("Resolved version chain: " +:+ Join versionChain " -> ");;
        (if decide (1 < length versionChain)%nat then
           wrapErr "bspatch not found in PATH: " (lift (lookPath api "bspatch"))
         else mret tt);;
        imports ← (if qAllowLocal q then lift (listImports api) else mret []);
        fetchAll outputPath payer maxPrice (localImports imports) 0 versionChain;;
        wrapErr ("moving root file from " +:+ tmpPath outputPath 0 +:+ " to " +:+ outputPath +:+ ": ")
          (rename (tmpPath outputPath 0) outputPath);;
        applyPatches outputPath 1 (length versionChain - 1);;
        println ("Reconstructed version " +:+ targetCid +:+ " at " +:+ outputPath)
  | _ => IncorrectNumArgs (Z.of_nat (length args))
  end.
End retrieve.
End commands.

(** ** The versions endpoint of the HTTP API *)

(** [VersionInfo] *)
Record VersionInfo := mkVersionInfo { viLabel : string; viCID : string }.

(** The body of the loop of [loadVersionsFromMeta]; the state is [index] and
    the versions found. *)
Definition loadStep (repo : string → string) (current : string) (s : Z * list VersionInfo) :
    io world (Z * list VersionInfo * option string) :=
  let '(index_, versions) := s in
  content ← readFile (repo (metaPath current));
  let lines := metaLines content in
  if decide (length lines < 2)%nat then fail ("invalid metadata for " +:+ current)
  else
    second ← lift (index lines 1);
    let nextCID := TrimSpace second in
    if decide (nextCID = "") then fail ("invalid metadata for " +:+ current +:+ ": empty head")
    else if decide (nextCID = "NULL") then mret (index_, versions, None)
    else mret (index_ + 1,
               versions ++ [mkVersionInfo ("HEAD(v" +:+ Itoa (index_ + 1) +:+ ")") nextCID],
               Some nextCID).

(** [loadVersionsFromMeta]; [repo] is [filepath.Join(repoRoot, _)]. *)
Definition loadVersionsFromMeta (repo : string → string) (root : string) : io world (list VersionInfo) :=
  present ← exists_ (repo (metaPath root));
  if negb present then fail ("metadata file not found for root " +:+ root)
  else
    fuel ← gets rounds;
    '(_, versions) ← walk fuel "detected cycle in metadata at " (loadStep repo) ∅ root
                       (1, [mkVersionInfo "ROOT(v1)" root]);
    mret versions.
