(* ===== verification/VersionSpec.v ===== *)
(** * Correctness of the version metadata

    The metadata files are an implementation of a version history: a list of
    versions, each a root or an update of an earlier version.  The deal flags
    extend the history, [list-version] follows the newest update of each
    version, [retrieve-version] goes back to the root and patches forward. *)

From Stdlib Require Import Ascii.
From coqutil Require Import Datatypes.RecordSetters.
From stdpp Require Import strings numbers base gmap fin_maps list.
From S2P Require Import Prelude GoStrings Versions.
Import DoubleBraceUpdate.
Local Open Scope Z_scope.

(** ** The text of a metadata file *)

Definition render (prev head : string) : string := prev +:+ nl +:+ head +:+ nl.

Lemma render_app prev head : render prev head = (prev +:+ String NL head) +:+ nl.
Proof. unfold render, nl. by rewrite !app_assoc_str. Qed.

Lemma metaLines_render prev head :
  plain prev = true → plain head = true → head ≠ "" → metaLines (render prev head) = [prev; head].
Proof.
  intros Hp Hh Hne. unfold metaLines. rewrite ReplaceCRLF_noCR.
  2: { unfold render. rewrite !hasByte_app, (plain_noByte CR prev), (plain_noByte CR head) by done. reflexivity. }
  rewrite render_app, TrimRightNL_nl. replace (String NL head) with (nl +:+ head) by done.
  rewrite <- app_assoc_str, TrimRightNL_app by (by rewrite TrimRightNL_noNL by (by apply plain_noByte)).
  rewrite TrimRightNL_noNL by (by apply plain_noByte). rewrite app_assoc_str.
  change (nl +:+ head) with (String NL head). rewrite Split_app by (by apply plain_noByte). by rewrite Split_nosep by (by apply plain_noByte).
Qed.

Lemma Join_setSecond prev head d : Join (setSecond [prev; head] d) nl +:+ nl = render prev d.
Proof. unfold setSecond, render. simpl. by rewrite !app_assoc_str. Qed.

Lemma app_inj_r s t u : s +:+ u = t +:+ u → s = t.
Proof.
  revert t. induction s as [|a s IH]; intros [|b t] H; [done| | |].
  - apply (f_equal String.length) in H. rewrite !length_app_str in H. simpl in H. lia.
  - apply (f_equal String.length) in H. rewrite !length_app_str in H. simpl in H. lia.
  - rewrite !app_cons in H. injection H as -> H. f_equal. by apply IH.
Qed.

#[global] Instance metaPath_inj : Inj (=) (=) metaPath.
Proof. intros s t. apply app_inj_r. Qed.

(** ** Paths of a partial function *)

(** [l] follows [f] from [c] until [f] ends. *)
Inductive path (f : string → option string) : string → list string → Prop :=
| path_end c : f c = None → path f c [c]
| path_step c d l : f c = Some d → path f d l → path f c (c :: l).

Section paths.
Variable f : string → option string.
Variable D : string → Prop.
Variable rank : string → nat.
Hypothesis f_rank : ∀ c d, D c → f c = Some d → D d ∧ (rank d < rank c)%nat.

(** A function that decreases a rank has a path from everywhere, without
    repetition. *)
Lemma path_exists c :
  D c → ∃ l, path f c l ∧ Forall D l ∧ NoDup l ∧ Forall (λ x, rank x ≤ rank c)%nat l.
Proof.
  remember (rank c) as n eqn:Hn. revert c Hn. induction n as [n IH] using lt_wf_ind.
  intros c -> Hc. destruct (f c) as [d|] eqn:Hf.
  - destruct (f_rank _ _ Hc Hf) as [Hd Hr]. destruct (IH (rank d) Hr d eq_refl Hd) as (l&Hl&HD&Hnd&Hle).
    exists (c :: l). split; [by econstructor|]. split; [by constructor|]. split.
    + constructor; [|done]. intros Hin. rewrite Forall_forall in Hle. specialize (Hle c Hin). lia.
    + constructor; [lia|]. eapply Forall_impl; [done|]. simpl. lia.
  - exists [c]. split_and!; [by constructor|by apply Forall_singleton|apply NoDup_singleton|by apply Forall_singleton].
Qed.
End paths.

Lemma path_det f c l1 l2 : path f c l1 → path f c l2 → l1 = l2.
Proof.
  intros H. revert l2. induction H as [c Hc|c d l Hc _ IH]; intros l2 H2; inversion H2; simplify_eq;
    [done|]. f_equal. by apply IH.
Qed.

Lemma path_head f c l : path f c l → ∃ l', l = c :: l'.
Proof. inversion 1; eauto. Qed.

(** The lines printed along a path. *)
Fixpoint emitted {S} (upd : string → S → S) (emit : string → S → list string) (l : list string) (s : S) :
    list string :=
  match l with
  | [] => []
  | x :: l' => emit x s ++ emitted upd emit l' (upd x s)
  end.

(** What [walk] does when each step prints [emit], updates the state with
    [upd] and names the next CID by [f]. *)
Lemma walk_path {S} cycle (step : string → S → io world (S * option string)) f
    (upd : string → S → S) (emit : string → S → list string) fs D :
  (∀ c s w, D c → wFiles w = fs →
     step c s w = (w {{ wOut ::= λ o, o ++ emit c s }}, Ret (upd c s, f c))) →
  ∀ c l fuel visited s w,
    path f c l → Forall D l → NoDup l → Forall (λ x, x ∉ visited) l →
    (length l ≤ fuel)%nat → wFiles w = fs →
    walk fuel cycle step visited c s w
    = (w {{ wOut ::= λ o, o ++ emitted upd emit l s }},
       Ret (foldl (λ s x, upd x s) s l)).
Proof.
  intros Hstep c l fuel visited s w Hp. revert fuel visited s w.
  induction Hp as [c Hc|c d l Hc Hp IH]; intros fuel visited s w HD Hnd Hv Hfuel Hw;
    (destruct fuel as [|fuel]; [simpl in Hfuel; lia|]);
    apply Forall_cons in HD as [HDc HD]; apply Forall_cons in Hv as [Hvc Hv];
    apply NoDup_cons in Hnd as [Hcl Hnd]; rewrite walk_S;
    rewrite decide_False by done; unfold mbind at 1, io_bind at 1; rewrite (Hstep c s w HDc Hw), Hc.
  - simpl. rewrite app_nil_r. done.
  - rewrite IH; [|done|done| |simpl in Hfuel; lia|by destruct w].
    + destruct w. rsimpl. by rewrite app_assoc.
    + rewrite Forall_forall in *. set_solver.
Qed.

(** ** Version histories *)

(** A history, newest version first: a version is a root, or an update of the
    version it names. *)
Definition history : Type := list (string * option string).

Section histories.
Variable cidParse : string → outcome string.

(** A CID as the commands write it. *)
Definition goodCid (c : string) : Prop :=
  plain c = true ∧ c ≠ "" ∧ c ≠ "NULL" ∧ is_ret (cidParse c).

(** Every version is new when it is added, and updates a version that is there. *)
Fixpoint wfHistory (H : history) : Prop :=
  match H with
  | [] => True
  | (c, p) :: H' =>
      goodCid c ∧ (c ∉ H'.*1) ∧ (∀ q, p = Some q → q ∈ H'.*1) ∧ wfHistory H'
  end.

(** The version that [c] updates. *)
Fixpoint prevOf (H : history) (c : string) : option string :=
  match H with
  | [] => None
  | (d, p) :: H' => if decide (d = c) then p else prevOf H' c
  end.

(** The newest update of [c]. *)
Fixpoint headOf (H : history) (c : string) : option string :=
  match H with
  | [] => None
  | (d, p) :: H' => if decide (p = Some c) then Some d else headOf H' c
  end.

(** The position of a version in time. *)
Fixpoint age (H : history) (c : string) : nat :=
  match H with
  | [] => 0
  | (d, _) :: H' => if decide (d = c) then length H else age H' c
  end.

Lemma age_le H c : (age H c ≤ length H)%nat.
Proof. induction H as [|[d p] H IH]; simpl; [lia|]. case_decide; lia. Qed.

Lemma wfHistory_good H c : wfHistory H → c ∈ H.*1 → goodCid c.
Proof.
  induction H as [|[d p] H IH]; intros HH Hc; [by apply not_elem_of_nil in Hc|].
  destruct HH as (Hd&_&_&HH). simpl in Hc. apply elem_of_cons in Hc as [->|Hc]; auto.
Qed.

Lemma prevOf_older H c q :
  wfHistory H → c ∈ H.*1 → prevOf H c = Some q → q ∈ H.*1 ∧ (age H q < age H c)%nat.
Proof.
  induction H as [|[d p] H IH]; intros HH Hc Hq; [by apply not_elem_of_nil in Hc|].
  destruct HH as (_&Hd&Hp&HH). simpl in *. destruct (decide (d = c)) as [->|Hdc].
  - pose proof (Hp q Hq) as Hin. split; [by right|]. rewrite decide_False by (intros ->; done).
    pose proof (age_le H q). lia.
  - apply elem_of_cons in Hc as [->|Hc]; [done|]. destruct (IH HH Hc Hq) as [Hin Hlt].
    split; [by right|]. rewrite decide_False by (intros ->; done). lia.
Qed.

Lemma headOf_update H c d : wfHistory H → headOf H c = Some d → d ∈ H.*1 ∧ c ∈ H.*1 ∧ prevOf H d = Some c.
Proof.
  induction H as [|[e p] H IH]; intros HH Hd; [done|].
  destruct HH as (_&He&Hp&HH). simpl in *. case_decide as E.
  - injection Hd as ->. split; [by left|]. split; [right; by apply Hp|]. by rewrite decide_True.
  - destruct (IH HH Hd) as (H1&H2&H3). split; [by right|]. split; [by right|].
    rewrite decide_False by (intros ->; done). done.
Qed.

Lemma headOf_newer H c d :
  wfHistory H → headOf H c = Some d → d ∈ H.*1 ∧ (length H - age H d < length H - age H c)%nat.
Proof.
  intros HH Hd. destruct (headOf_update H c d HH Hd) as (H1&H2&H3).
  split; [done|]. destruct (prevOf_older H d c HH H1 H3) as [_ Hlt].
  pose proof (age_le H d). lia.
Qed.

(** The versions from [c] on that [list-version] shows, and those from [c]
    back to its root. *)
Definition trunk (H : history) : string → list string → Prop := path (headOf H).
Definition ancestry (H : history) : string → list string → Prop := path (prevOf H).

Lemma trunk_exists H c :
  wfHistory H → c ∈ H.*1 → ∃ l, trunk H c l ∧ Forall (λ x, x ∈ H.*1) l ∧ NoDup l.
Proof.
  intros HH Hc. destruct (path_exists (headOf H) (λ x, x ∈ H.*1) (λ x, length H - age H x)%nat) with c
    as (l&?&?&?&_); eauto. intros x y _ Hy. by apply headOf_newer.
Qed.

Lemma ancestry_exists H c :
  wfHistory H → c ∈ H.*1 → ∃ l, ancestry H c l ∧ Forall (λ x, x ∈ H.*1) l ∧ NoDup l.
Proof.
  intros HH Hc. destruct (path_exists (prevOf H) (λ x, x ∈ H.*1) (age H)) with c
    as (l&?&?&?&_); eauto. intros x y Hx Hy. by apply prevOf_older.
Qed.

(** ** Metadata files represent a history *)

Definition orNull (o : option string) : string := default "NULL" o.

(** The metadata of every version is in its file; [loc] is where. *)
Definition represents (loc : string → string) (H : history) (fs : gmap string string) : Prop :=
  ∀ c, c ∈ H.*1 → fs !! loc c = Some (render (orNull (prevOf H c)) (orNull (headOf H c))).

Lemma orNull_plain H o : wfHistory H → (∀ c, o = Some c → c ∈ H.*1) → plain (orNull o) = true ∧ orNull o ≠ "".
Proof.
  intros HH Ho. destruct o as [c|]; [|done]. by destruct (wfHistory_good H c HH (Ho c eq_refl)) as (?&?&_).
Qed.

Lemma represents_lines loc H fs c :
  wfHistory H → represents loc H fs → c ∈ H.*1 →
  ∃ content, fs !! loc c = Some content ∧
    metaLines content = [orNull (prevOf H c); orNull (headOf H c)].
Proof.
  intros HH HR Hc. eexists. split; [by apply HR|].
  destruct (orNull_plain H (prevOf H c) HH) as [H1 _].
  { intros q Hq. by apply (prevOf_older H c q). }
  destruct (orNull_plain H (headOf H c) HH) as [H2 H3].
  { intros d Hd. by apply (headOf_update H c d). }
  by apply metaLines_render.
Qed.

Lemma headOf_fresh H c : wfHistory H → c ∉ H.*1 → headOf H c = None.
Proof.
  intros HH Hc. destruct (headOf H c) as [d|] eqn:E; [|done].
  by destruct (headOf_update H c d HH E) as (_&?&_).
Qed.

Lemma fileroots_not_meta c : "fileroots.log" ≠ metaPath c.
Proof.
  unfold metaPath. intros H.
  repeat (destruct c as [|? c]; [discriminate H|rewrite app_cons in H; injection H as _ H]).
  destruct c; discriminate H.
Qed.

Lemma recordCreate_represents H c w :
  wfHistory ((c, None) :: H) → represents metaPath H (wFiles w) →
  ∃ w', recordCreate c w = (w', Ret tt) ∧ represents metaPath ((c, None) :: H) (wFiles w').
Proof.
  intros (Hc&Hf&_&HH) HR. eexists. split; [reflexivity|]. destruct w as [fs o ds]. rsimpl.
  intros x Hx. simpl. destruct (decide (c = x)) as [<-|Hne].
  - rewrite lookup_insert_eq, headOf_fresh by done. done.
  - rewrite lookup_insert_ne by (intros E%metaPath_inj; done).
    rewrite lookup_insert_ne by apply fileroots_not_meta.
    apply HR. simpl in Hx. apply elem_of_cons in Hx as [->|Hx]; done.
Qed.

Lemma recordUpdate_represents H q c w :
  wfHistory ((c, Some q) :: H) → represents metaPath H (wFiles w) →
  ∃ w', recordUpdate q c w = (w', Ret tt) ∧ represents metaPath ((c, Some q) :: H) (wFiles w').
Proof.
  intros (Hc&Hf&Hp&HH) HR. specialize (Hp q eq_refl).
  destruct (represents_lines metaPath H (wFiles w) q HH HR Hp) as (content&Hq&Hl).
  destruct w as [fs o ds]. eexists. split.
  - unfold recordUpdate, readFile, wrapErr. io_step. simpl in Hq. rewrite Hq, Hl. reflexivity.
  - change (represents metaPath ((c, Some q) :: H) (<[metaPath c := render q "NULL"]>
      (<[metaPath q := Join (setSecond [orNull (prevOf H q); orNull (headOf H q)] c) nl +:+ nl]> fs))).
    rewrite Join_setSecond. intros x Hx. simpl.
    destruct (decide (c = x)) as [<-|Hne].
    + rewrite lookup_insert_eq, decide_False by congruence. by rewrite headOf_fresh.
    + rewrite lookup_insert_ne by (intros E%metaPath_inj; done).
      simpl in Hx. apply elem_of_cons in Hx as [->|Hx]; [done|].
      destruct (decide (x = q)) as [->|Hxq].
      * rewrite lookup_insert_eq, decide_True by done. done.
      * rewrite lookup_insert_ne by (intros E%metaPath_inj; done).
        rewrite decide_False by congruence. by apply HR.
Qed.

(** ** list-version and the versions endpoint *)

Definition headLine (i : Z) (d : string) : string := "HEAD(v" +:+ Itoa (i + 2) +:+ "): " +:+ d.

Definition listEmit (H : history) (c : string) (i : Z) : list string :=
  match headOf H c with Some d => [headLine i d] | None => [] end.
Definition listUpd (H : history) (c : string) (i : Z) : Z :=
  match headOf H c with Some _ => i + 1 | None => i end.

Lemma headOf_good H c d : wfHistory H → headOf H c = Some d → goodCid d.
Proof. intros HH Hd. apply (wfHistory_good H); [done|]. by apply (headOf_update H c d). Qed.

Lemma listStep_represents H fs c i w :
  wfHistory H → represents metaPath H fs → c ∈ H.*1 → wFiles w = fs →
  listStep cidParse c i w
  = (w {{ wOut ::= λ o, o ++ listEmit H c i }}, Ret (listUpd H c i, headOf H c)).
Proof.
  intros HH HR Hc Hw. destruct (represents_lines metaPath H fs c HH HR Hc) as (content&Hf&Hl).
  destruct w as [fs' o ds]. simpl in Hw. subst fs'.
  unfold listStep, readFile, wrapErr, lift. io_step. rewrite Hf, Hl. io_step.
  unfold listEmit, listUpd. destruct (headOf H c) as [d|] eqn:Ed; simpl.
  - destruct (headOf_good H c d HH Ed) as (H1&H2&H3&[t Ht]).
    rewrite TrimSpace_plain by done. rewrite !decide_False by done. rewrite Ht. reflexivity.
  - rewrite app_nil_r. reflexivity.
Qed.

Lemma path_length loc H fs l :
  (∀ x y, loc x = loc y → x = y) → represents loc H fs → Forall (λ x, x ∈ H.*1) l → NoDup l →
  (length l ≤ size fs)%nat.
Proof.
  intros Hinj HR HD Hnd.
  rewrite <- (length_fmap loc l), <- (size_list_to_set (C := gset string) (loc <$> l))
    by (apply NoDup_fmap_2_strong; [auto|done]).
  rewrite <- (size_dom (D := gset string) fs). apply subseteq_size.
  intros p Hp. apply elem_of_list_to_set, list_elem_of_fmap in Hp as (x&->&Hx).
  rewrite Forall_forall in HD. apply elem_of_dom. rewrite (HR x (HD x Hx)). eauto.
Qed.

(** The lines for the updates of [c], numbered from [i]. *)
Fixpoint headLines (i : Z) (ds : list string) : list string :=
  match ds with
  | [] => []
  | d :: ds' => headLine i d :: headLines (i + 1) ds'
  end.

Lemma emitted_list H c l i :
  trunk H c l → emitted (listUpd H) (listEmit H) l i = headLines i (tail l).
Proof.
  intros Hp. revert i. induction Hp as [c Hc|c d l Hc Hp IH]; intros i; simpl; rewrite ?IH;
    unfold listEmit, listUpd; rewrite Hc; [done|]. by destruct (path_head _ _ _ Hp) as [l' ->].
Qed.

Definition versionTip : string :=
  "Tip: Use 'lotus client retrieve-version <head> <outputPath>' to retrieve any version of this file.".

(** The output of [list-version] for the versions [l] after [c]. *)
Definition listing (c : string) (l : list string) : list string :=
  ["Version Chain"; "-------------"; "ROOT(v1): " +:+ c] ++ headLines 0 l ++ [""; versionTip].

Lemma listVersion_trunk H w c :
  wfHistory H → represents metaPath H (wFiles w) → c ∈ H.*1 →
  ∃ l, trunk H c (c :: l) ∧
    clientListVersion cidParse [c] w
    = (w {{ wOut ::= λ o, o ++ listing c l }}, Ret tt).
Proof.
  intros HH HR Hc. destruct (trunk_exists H c HH Hc) as (l0&Hp&HD&Hnd).
  destruct (path_head _ _ _ Hp) as [l ->]. exists l. split; [done|].
  destruct (wfHistory_good H c HH Hc) as (Hpl&Hne&_&[t Ht]).
  destruct w as [fs o ds]. simpl in HR. unfold clientListVersion.
  rewrite TrimSpace_plain, decide_False by done. io_step.
  unfold wrapErr, lift. rewrite Ht. io_step.
  unfold exists_, gets. rewrite bool_decide_true by (simpl; rewrite (HR c Hc); eauto). simpl. io_step.
  rewrite (walk_path _ _ (headOf H) (listUpd H) (listEmit H) fs (λ x, x ∈ H.*1)) with (l := c :: l);
    [|intros; by eapply listStep_represents|done|done|done| | |done].
  - rewrite (emitted_list H c (c :: l) 0 Hp). rsimpl.
    unfold println, modify, listing. rsimpl. by rewrite <- !app_assoc.
  - rewrite Forall_forall. set_solver.
  - unfold rounds. simpl. pose proof (path_length metaPath H fs (c :: l) ltac:(apply metaPath_inj) HR HD Hnd) as Hlen.
    simpl in Hlen. lia.
Qed.

(** [list-version] shows the history: when the metadata files represent a
    version history, the command succeeds for each version [c] of it, changes no
    file, and prints [c] as root followed by its newest update, the newest
    update of that one, and so on, numbered from v2. *)
Theorem listVersion_shows_trunk H w c :
  wfHistory H → represents metaPath H (wFiles w) → c ∈ H.*1 →
  ∃ l, trunk H c (c :: l) ∧
    clientListVersion cidParse [c] w = (w {{ wOut ::= λ o, o ++ listing c l }}, Ret tt).
Proof. apply listVersion_trunk. Qed.

(** The endpoint's loop on represented metadata. *)
Definition loadUpd (H : history) (c : string) (s : Z * list VersionInfo) : Z * list VersionInfo :=
  match headOf H c with
  | Some d => (s.1 + 1, s.2 ++ [mkVersionInfo ("HEAD(v" +:+ Itoa (s.1 + 1) +:+ ")") d])
  | None => s
  end.

Lemma loadStep_represents H repo fs c s w :
  wfHistory H → represents (λ x, repo (metaPath x)) H fs → c ∈ H.*1 → wFiles w = fs →
  loadStep repo c s w = (w {{ wOut ::= λ o, o ++ [] }}, Ret (loadUpd H c s, headOf H c)).
Proof.
  intros HH HR Hc Hw. destruct (represents_lines _ H fs c HH HR Hc) as (content&Hf&Hl).
  destruct w as [fs' o ds], s as [i vs]. simpl in Hw. subst fs'.
  unfold loadStep, readFile, lift. io_step. rewrite Hf, Hl. io_step. rewrite app_nil_r.
  unfold loadUpd. destruct (headOf H c) as [d|] eqn:Ed; simpl; [|reflexivity].
  destruct (headOf_good H c d HH Ed) as (H1&H2&H3&_).
  rewrite TrimSpace_plain by done. by rewrite !decide_False by done.
Qed.

(** How a version is printed. *)
Definition showVersion (v : VersionInfo) : string := viLabel v +:+ ": " +:+ viCID v.

Lemma loadUpd_trunk H c l i vs :
  trunk H c l → ∃ n vs', foldl (λ s x, loadUpd H x s) (i, vs) l = (n, vs ++ vs') ∧
    map showVersion vs' = headLines (i - 1) (tail l) ∧ map viCID vs' = tail l.
Proof.
  intros Hp. revert i vs. induction Hp as [c Hc|c d l Hc Hp IH]; intros i vs; simpl.
  - exists i, []. unfold loadUpd. by rewrite Hc, app_nil_r.
  - destruct (path_head _ _ _ Hp) as [l' ->].
    destruct (IH (i + 1) (vs ++ [mkVersionInfo ("HEAD(v" +:+ Itoa (i + 1) +:+ ")") d])) as (n&vs'&E&E1&E2).
    replace (loadUpd H c (i, vs)) with (i + 1, vs ++ [mkVersionInfo ("HEAD(v" +:+ Itoa (i + 1) +:+ ")") d])
      by (unfold loadUpd; by rewrite Hc).
    simpl in E. simpl. rewrite E. eexists n, _. split; [by rewrite <- app_assoc|]. simpl.
    replace (i + 1 - 1) with (i - 1 + 1) in E1 by lia. simpl in E1, E2. rewrite E1, E2.
    split; [|done]. f_equal. unfold showVersion, headLine. simpl.
    replace (i - 1 + 2) with (i + 1) by lia. by rewrite !app_assoc_str.
Qed.

(** The versions endpoint and [list-version] agree: on metadata that
    represents a history, the endpoint returns for each version the same CIDs
    under the same labels that [list-version] prints, and touches nothing. *)
Theorem loadVersions_agrees_with_listVersion H repo w c :
  (∀ x y, repo x = repo y → x = y) →
  wfHistory H → represents (λ x, repo (metaPath x)) H (wFiles w) → c ∈ H.*1 →
  ∃ l vs, trunk H c (c :: l) ∧
    loadVersionsFromMeta repo c w = (w, Ret vs) ∧ map viCID vs = c :: l ∧
    map showVersion vs = ("ROOT(v1): " +:+ c) :: headLines 0 l.
Proof.
  intros Hinj HH HR Hc. destruct (trunk_exists H c HH Hc) as (l0&Hp&HD&Hnd).
  destruct (path_head _ _ _ Hp) as [l ->].
  destruct (loadUpd_trunk H c (c :: l) 1 [mkVersionInfo "ROOT(v1)" c] Hp) as (n&vs&E&E1&E2).
  exists l, (mkVersionInfo "ROOT(v1)" c :: vs). split; [done|]. split; [|simpl in *; by rewrite E1, E2].
  destruct w as [fs o ds]. simpl in HR. unfold loadVersionsFromMeta, exists_, gets. io_step.
  rewrite bool_decide_true by (rewrite (HR c Hc); eauto). simpl. io_step.
  rewrite (walk_path _ _ (headOf H) (loadUpd H) (λ _ _, []) fs (λ x, x ∈ H.*1)) with (l := c :: l);
    [|intros; by eapply loadStep_represents|done|done|done| | |done].
  - rewrite E. rsimpl. assert (∀ l s, emitted (loadUpd H) (λ _ _, []) l s = []) as Hem.
    { induction l0; simpl; auto. }
    by rewrite Hem, app_nil_r.
  - rewrite Forall_forall. set_solver.
  - unfold rounds. simpl.
    pose proof (path_length (λ x, repo (metaPath x)) H fs (c :: l)
      ltac:(intros x y Exy; by apply metaPath_inj, Hinj) HR HD Hnd) as Hlen.
    simpl in Hlen. lia.
Qed.

(** ** Termination on arbitrary metadata *)

(** A step that reads only, does not panic, and names a next CID only when the
    metadata of the current one exists. *)
Definition readsMeta {S} (loc : string → string) (step : string → S → io world (S * option string)) : Prop :=
  ∀ c s w, (step c s w).2 ≠ Crash ∧ wFiles (step c s w).1 = wFiles w ∧
    ∀ s' d, (step c s w).2 = Ret (s', Some d) → is_Some (wFiles w !! loc c).

Lemma walk_safe {S} loc cycle (step : string → S → io world (S * option string)) :
  (∀ x y, loc x = loc y → x = y) → readsMeta loc step →
  ∀ fuel visited c s w,
    (size (dom (wFiles w) ∖ set_map loc visited) < fuel)%nat →
    (walk fuel cycle step visited c s w).2 ≠ Crash ∧
    wFiles (walk fuel cycle step visited c s w).1 = wFiles w.
Proof.
  intros Hinj Hstep fuel. induction fuel as [|fuel IH]; intros visited c s w Hf; [lia|].
  rewrite walk_S. case_decide as Hv; [done|]. io_step.
  destruct (Hstep c s w) as (H1&H2&H3). destruct (step c s w) as [w' [[s' [d|]]|e|]]; simpl in *; try done.
  rewrite <- H2. apply IH. rewrite H2. destruct (H3 s' d eq_refl) as [content Hc].
  assert (loc c ∈ dom (wFiles w) ∖ set_map loc visited) as Hin.
  { apply elem_of_difference. split; [apply elem_of_dom; eauto|].
    rewrite elem_of_map. intros (x&Hx&Hxv). apply Hinj in Hx as ->. done. }
  apply Nat.lt_le_trans with (size (dom (wFiles w) ∖ set_map loc visited)); [|lia].
  apply subset_size. split; [set_solver|]. intros Hsub. apply Hsub in Hin. set_solver.
Qed.

Lemma walk_rounds_safe {S} loc cycle (step : string → S → io world (S * option string)) c s w :
  (∀ x y, loc x = loc y → x = y) → readsMeta loc step →
  (walk (rounds w) cycle step ∅ c s w).2 ≠ Crash ∧
  wFiles (walk (rounds w) cycle step ∅ c s w).1 = wFiles w.
Proof.
  intros Hinj Hs. apply (walk_safe loc); [done|done|]. unfold rounds.
  rewrite set_map_empty, difference_empty_L, size_dom. lia.
Qed.

(** Parsing gives a CID or an error. *)
Hypothesis cidParse_total : ∀ s, cidParse s ≠ Crash.

Lemma index_two (l : list string) (i : Z) :
  ¬ (length l < 2)%nat → 0 ≤ i < 2 → ∃ x, index l i = Ret x.
Proof. intros Hl Hi. destruct (index_lt l i) as (x&_&Hx); [lia|eauto]. Qed.

(** The common course of the three steps: line [i] of the metadata is read. *)
Ltac reads_line i x :=
  let content := fresh "content" in let Hl := fresh "Hl" in
  unfold readFile, wrapErr, fail, lift; io_step;
  match goal with |- context [match ?fs !! ?p with _ => _ end] => destruct (fs !! p) as [content|] end;
  [|done]; io_step;
  destruct (decide (length (metaLines content) < 2)%nat) as [Hl|Hl]; [done|];
  destruct (index_two (metaLines content) i Hl ltac:(lia)) as [x ->]; io_step;
  destruct (decide (TrimSpace x = "")); [done|]; destruct (decide (TrimSpace x = "NULL")); [done|];
  io_step.

Lemma listStep_reads : readsMeta metaPath (listStep cidParse).
Proof.
  intros c s [fs o ds]. unfold listStep. reads_line 1 x. pose proof (cidParse_total (TrimSpace x)).
  destruct (cidParse (TrimSpace x)); simpl; [|done|done]. split_and!; [done|done|eauto].
Qed.

Lemma resolveStep_reads : readsMeta metaPath (resolveStep cidParse).
Proof.
  intros c s [fs o ds]. unfold resolveStep. reads_line 0 x. pose proof (cidParse_total (TrimSpace x)).
  destruct (cidParse (TrimSpace x)); simpl; [|done|done]. split_and!; [done|done|eauto].
Qed.

Lemma loadStep_reads repo : readsMeta (λ x, repo (metaPath x)) (loadStep repo).
Proof.
  intros c [i vs] [fs o ds]. unfold loadStep. reads_line 1 x. split_and!; [done|done|eauto].
Qed.

(** Following version metadata always ends: whatever the metadata files
    contain, damaged, truncated or cyclic, [list-version], the chain resolution of
    [retrieve-version] and the versions endpoint return a result or an error,
    without an index panic or an endless loop, and leave every file as it is. *)
Theorem version_walks_terminate repo args c w :
  (∀ x y, repo x = repo y → x = y) →
  ((clientListVersion cidParse args w).2 ≠ Crash ∧ wFiles (clientListVersion cidParse args w).1 = wFiles w) ∧
  ((resolveChain cidParse c w).2 ≠ Crash ∧ wFiles (resolveChain cidParse c w).1 = wFiles w) ∧
  ((loadVersionsFromMeta repo c w).2 ≠ Crash ∧ wFiles (loadVersionsFromMeta repo c w).1 = wFiles w).
Proof.
  intros Hinj. split_and!.
  1,2: destruct args as [|a [|]]; try done; unfold clientListVersion; case_decide; [done|];
    io_step; unfold wrapErr, lift; pose proof (cidParse_total (TrimSpace a));
    destruct (cidParse (TrimSpace a)); try done; simpl; io_step; unfold exists_, gets;
    case_bool_decide; simpl; [|done]; io_step.
  1,2: match goal with |- context [walk (rounds ?w') ?cy ?st ∅ ?r ?s ?w'] =>
      destruct (walk_rounds_safe metaPath cy st r s w' ltac:(apply metaPath_inj) listStep_reads) as [Hw1 Hw2];
      destruct (walk (rounds w') cy st ∅ r s w') as [w1 [| |]] end; by simpl in *.
  1,2: unfold resolveChain, gets; io_step;
    by apply (walk_rounds_safe metaPath); [apply metaPath_inj|apply resolveStep_reads].
  1,2: unfold loadVersionsFromMeta, exists_, gets; io_step; case_bool_decide; simpl; [|done]; io_step;
    match goal with |- context [walk (rounds ?w') ?cy ?st ∅ ?r ?s ?w'] =>
      destruct (walk_rounds_safe (λ x, repo (metaPath x)) cy st r s w'
        ltac:(intros x y Exy; by apply metaPath_inj, Hinj) (loadStep_reads repo)) as [Hw1 Hw2];
      destruct (walk (rounds w') cy st ∅ r s w') as [w1 [[]| |]] end; by simpl in *.
Qed.
End histories.
