(* ===== verification/VersionRetrieve.v ===== *)
(** * Retrieval of versions and the deal command

    [retrieve-version] rebuilds a version from its root and its patches; the
    deal command extends the history that the metadata represents. *)

From Stdlib Require Import Ascii.
From coqutil Require Import Datatypes.RecordSetters.
From stdpp Require Import strings numbers base gmap fin_maps list.
From S2P Require Import Prelude GoStrings Versions VersionSpec.
Import DoubleBraceUpdate.
Local Open Scope Z_scope.

Section retrieval.
Variable cidParse : string → outcome string.
Variable H : history.
Hypothesis H_wf : wfHistory cidParse H.

(** ** Resolving the chain *)

Lemma prevOf_good c q : c ∈ H.*1 → prevOf H c = Some q → goodCid cidParse q.
Proof.
  intros Hc Hq. apply (wfHistory_good cidParse H); [done|]. by apply (prevOf_older cidParse H c q).
Qed.

Lemma resolveStep_represents fs c chain w :
  represents metaPath H fs → c ∈ H.*1 → wFiles w = fs →
  resolveStep cidParse c chain w = (w {{ wOut ::= λ o, o ++ [] }}, Ret (c :: chain, prevOf H c)).
Proof.
  intros HR Hc Hw. destruct (represents_lines cidParse metaPath H fs c H_wf HR Hc) as (content&Hf&Hl).
  destruct w as [fs' o ds]. simpl in Hw. subst fs'.
  unfold resolveStep, readFile, wrapErr, lift. io_step. rewrite Hf, Hl. io_step. rewrite app_nil_r.
  destruct (prevOf H c) as [q|] eqn:Eq; simpl; [|reflexivity].
  destruct (prevOf_good c q Hc Eq) as (H1&H2&H3&[t Ht]).
  rewrite TrimSpace_plain by done. rewrite !decide_False by done. by rewrite Ht.
Qed.

Lemma foldl_cons_reverse {A} (l acc : list A) : foldl (λ s x, x :: s) acc l = reverse l ++ acc.
Proof.
  revert acc. induction l as [|x l IH]; intros acc; [done|]. simpl. rewrite IH, reverse_cons.
  by rewrite <- app_assoc.
Qed.

Lemma resolveChain_ancestry w c :
  represents metaPath H (wFiles w) → c ∈ H.*1 →
  ∃ l, ancestry H c l ∧ Forall (λ x, x ∈ H.*1) l ∧ (length l ≤ size (wFiles w))%nat ∧
    resolveChain cidParse c w = (w, Ret (reverse l)).
Proof.
  intros HR Hc. destruct (ancestry_exists cidParse H c H_wf Hc) as (l&Hp&HD&Hnd).
  pose proof (path_length metaPath H (wFiles w) l ltac:(apply metaPath_inj) HR HD Hnd) as Hlen.
  exists l. split_and!; [done..|]. unfold resolveChain, gets. io_step.
  rewrite (walk_path _ _ (prevOf H) (λ c s, c :: s) (λ _ _, []) (wFiles w) (λ x, x ∈ H.*1)) with (l := l);
    [|intros; by eapply resolveStep_represents|done|done|done| | |done].
  - rewrite foldl_cons_reverse, app_nil_r.
    assert (∀ l s, emitted (λ c s, c :: s) (λ _ _, []) l s = @nil string) as Hem.
    { induction l0; simpl; auto. }
    rewrite Hem. destruct w. rsimpl. by rewrite app_nil_r.
  - rewrite Forall_forall. set_solver.
  - unfold rounds. lia.
Qed.

(** ** Temporary files *)

Lemma Itoa_inj_nonneg i j : 0 ≤ i → 0 ≤ j → Itoa i = Itoa j → i = j.
Proof.
  assert (∀ z, 0 ≤ z → Itoa z = digits (Z.to_N z)) as HI by (intros [|z|z] Hz; done || lia).
  intros Hi Hj E. rewrite !HI in E by done. apply (f_equal undigits) in E.
  rewrite !undigits_digits in E. injection E as E. lia.
Qed.

Lemma tmpPath_inj out i j : 0 ≤ i → 0 ≤ j → tmpPath out i = tmpPath out j → i = j.
Proof.
  unfold tmpPath. intros Hi Hj E. do 2 apply (inj (String.append _)) in E. by apply Itoa_inj_nonneg.
Qed.

Lemma longer_ne out t : t ≠ "" → out +:+ t ≠ out.
Proof.
  intros Ht E. apply (f_equal String.length) in E. rewrite length_app_str in E.
  destruct t; [done|]. simpl in E. lia.
Qed.

Lemma tmpPath_ne out i : tmpPath out i ≠ out.
Proof. by apply longer_ne. Qed.

Lemma workPath_ne out i : workPath out i ≠ out.
Proof. by apply longer_ne. Qed.

Lemma workPath_tmpPath out i j : workPath out i ≠ tmpPath out j.
Proof. unfold workPath, tmpPath. intros E. apply (inj (String.append _)) in E. discriminate. Qed.

(** ** Fetching and patching *)

Variable api : RetrApi.
Variable q : RetrFlags.
Variables (out payer : string) (maxPrice : Z) (local : gmap string string).
(** What is stored under a CID, and the version it stands for. *)
Variables payload version : string → string.

(** [x] can be obtained: a local import, or an acceptable offer and a retrieval
    that completes; its export is the stored data. *)
Definition obtainable (x : string) : Prop :=
  ∃ file, cidParse x = Ret file ∧
    match local !! file with
    | Some car => clientExport api (FromLocalCAR file car) = Ret (payload x)
    | None => ∃ offer evts dealID,
        (∀ w, chooseOffer api q x file maxPrice w = (w, Ret offer)) ∧
        retrievalUpdates api file = Ret evts ∧ clientRetrieve api offer payer = Ret dealID ∧
        (∀ w, ∃ o, readEvents x dealID evts w = (w {{ wOut ::= λ o', o' ++ o }}, Ret tt)) ∧
        clientExport api (FromDeal file dealID) = Ret (payload x)
    end.

Lemma fetchVersion_obtains i x w :
  obtainable x →
  ∃ o, fetchVersion cidParse api q out payer maxPrice local i x w
       = (mkWorld (<[tmpPath out i := payload x]> (wFiles w)) o (wDeals w), Ret tt).
Proof.
  intros (file&Hp&Hl). destruct w as [fs o ds].
  unfold fetchVersion, wrapErr, lift. rewrite Hp. io_step. rsimpl.
  destruct (local !! file) as [car|].
  - io_step. rewrite Hl. io_step. rsimpl. rewrite insert_delete_eq. eauto.
  - destruct Hl as (offer&evts&id&H1&H2&H3&H4&H5). io_step. rewrite H1, H2. io_step. rewrite H3. io_step.
    match goal with |- context [readEvents x id evts ?w0] => destruct (H4 w0) as [o' ->] end.
    rsimpl. rewrite H5. io_step. rsimpl. rewrite insert_delete_eq. eauto.
Qed.

(** The files after fetching a chain. *)
Fixpoint fetched (i : Z) (chain : list string) (fs : gmap string string) : gmap string string :=
  match chain with
  | [] => fs
  | x :: rest => fetched (i + 1) rest (<[tmpPath out i := payload x]> fs)
  end.

Lemma fetchAll_obtains chain i w :
  Forall obtainable chain →
  ∃ o, fetchAll cidParse api q out payer maxPrice local i chain w
       = (mkWorld (fetched i chain (wFiles w)) o (wDeals w), Ret tt).
Proof.
  intros Hc. revert i w. induction Hc as [|x rest Hx Hc IH]; intros i w; simpl.
  - destruct w. eauto.
  - io_step. destruct (fetchVersion_obtains i x w Hx) as [o ->].
    destruct (IH (i + 1) (mkWorld (<[tmpPath out i := payload x]> (wFiles w)) o (wDeals w))) as [o' ->].
    eauto.
Qed.

Lemma fetched_other chain i fs p :
  (∀ j, i ≤ j < i + Z.of_nat (length chain) → p ≠ tmpPath out j) → fetched i chain fs !! p = fs !! p.
Proof.
  revert i fs. induction chain as [|x rest IH]; intros i fs Hp; [done|]. simpl.
  rewrite IH; [|intros j Hj; apply Hp; simpl; lia].
  apply lookup_insert_ne. intros E. apply (Hp i); [simpl; lia|done].
Qed.

Lemma fetched_tmp chain i fs (k : nat) x :
  0 ≤ i → chain !! k = Some x → fetched i chain fs !! tmpPath out (i + Z.of_nat k) = Some (payload x).
Proof.
  revert i fs k. induction chain as [|y rest IH]; intros i fs k Hi Hk; [done|].
  destruct k as [|k]; simpl in *.
  - injection Hk as ->. rewrite Z.add_0_r, fetched_other; [by rewrite lookup_insert_eq|].
    intros j Hj E. apply tmpPath_inj in E; lia.
  - replace (i + Z.of_nat (S k)) with (i + 1 + Z.of_nat k) by lia. apply IH; [lia|done].
Qed.

Lemma applyPatch_replaces i w old patch new :
  0 ≤ i → wFiles w !! out = Some old → wFiles w !! tmpPath out i = Some patch →
  bspatch api old patch = Ret new →
  ∃ fs' o, applyPatch api out i w = (mkWorld fs' o (wDeals w), Ret tt) ∧
    fs' !! out = Some new ∧ fs' !! tmpPath out i = None ∧
    ∀ p, p ≠ out → p ≠ tmpPath out i → p ≠ workPath out i → fs' !! p = wFiles w !! p.
Proof.
  intros Hi Ho Ht Hb. destruct w as [fs o ds]. simpl in Ho, Ht.
  pose proof (workPath_ne out i) as N1. pose proof (workPath_tmpPath out i i) as N2.
  pose proof (tmpPath_ne out i) as N3.
  unfold applyPatch, removeFile, readFile, writeFile, rename, println, wrapErr, lift, modify. io_step. rsimpl.
  rewrite lookup_delete_ne, Ho by done. io_step. rewrite lookup_delete_ne, Ht by done. io_step.
  rewrite Hb. io_step. rsimpl. rewrite lookup_delete_ne, lookup_insert_eq by congruence. io_step. rsimpl.
  eexists _, _. split; [reflexivity|]. split_and!.
  - by rewrite lookup_delete_ne, lookup_insert_eq.
  - apply lookup_delete_eq.
  - intros p H1 H2 H3. by rewrite lookup_delete_ne, lookup_insert_ne, lookup_delete_ne,
      lookup_delete_ne, lookup_insert_ne, lookup_delete_ne.
Qed.

(** Each stored item is a patch from the version before. *)
Fixpoint patched (x : string) (rest : list string) : Prop :=
  match rest with
  | [] => True
  | y :: rest' => bspatch api (version x) (payload y) = Ret (version y) ∧ patched y rest'
  end.

Lemma applyPatches_replace rest i x w :
  1 ≤ i → patched x rest → wFiles w !! out = Some (version x) →
  (∀ (k : nat) y, rest !! k = Some y → wFiles w !! tmpPath out (i + Z.of_nat k) = Some (payload y)) →
  ∃ fs' o, applyPatches api out i (length rest) w = (mkWorld fs' o (wDeals w), Ret tt) ∧
    fs' !! out = version <$> last (x :: rest) ∧
    (∀ j, i ≤ j < i + Z.of_nat (length rest) → fs' !! tmpPath out j = None) ∧
    ∀ p, p ≠ out →
      (∀ j, i ≤ j < i + Z.of_nat (length rest) → p ≠ tmpPath out j ∧ p ≠ workPath out j) →
      fs' !! p = wFiles w !! p.
Proof.
  revert i x w. induction rest as [|y rest IH]; intros i x w Hi Hp Ho Ht.
  - destruct w as [fs o ds]. exists fs, o. split_and!; [done|done|simpl; lia|done].
  - destruct Hp as [Hb Hp]. pose proof (Ht O y eq_refl) as Ht0. rewrite Z.add_0_r in Ht0.
    destruct (applyPatch_replaces i w (version x) (payload y) (version y)) as (fs1&o1&E1&F1&F2&F3);
      [lia|done|done|done|].
    destruct (IH (i + 1) y (mkWorld fs1 o1 (wDeals w))) as (fs2&o2&E2&G1&G2&G3); [lia|done|done| |].
    { intros k z Hk. simpl. rewrite F3.
      - replace (i + 1 + Z.of_nat k) with (i + Z.of_nat (S k)) by lia. by apply Ht.
      - apply tmpPath_ne.
      - intros E. apply tmpPath_inj in E; lia.
      - intros E. by apply (workPath_tmpPath out i (i + 1 + Z.of_nat k)). }
    exists fs2, o2. simpl length. split_and!.
    + cbn [applyPatches]. io_step. rewrite E1. exact E2.
    + by rewrite G1.
    + intros j Hj. destruct (decide (j = i)) as [->|Hne]; [|apply G2; lia].
      rewrite G3; [done|apply tmpPath_ne|]. intros k Hk. split.
      * intros E. apply tmpPath_inj in E; lia.
      * intros E. by apply (workPath_tmpPath out k i).
    + intros p Hpo Hpj. rewrite G3; [|done|intros j Hj; apply Hpj; lia]. simpl.
      destruct (Hpj i) as [N1 N2]; [lia|]. by apply F3.
Qed.

(** ** The whole command *)

(** The data stored for the versions of the history: the content of a root, a
    patch from the previous version for an update. *)
Definition stored : Prop :=
  ∀ c, c ∈ H.*1 →
    match prevOf H c with
    | None => payload c = version c
    | Some p => bspatch api (version p) (payload c) = Ret (version c)
    end.

Lemma patched_snoc x rest y c :
  last (x :: rest) = Some y → patched x rest → bspatch api (version y) (payload c) = Ret (version c) →
  patched x (rest ++ [c]).
Proof.
  revert x. induction rest as [|z rest IH]; intros x Hl Hp Hb; simpl in *.
  - by injection Hl as ->.
  - destruct Hp as [Hz Hp]. split; [done|]. by apply IH.
Qed.

Lemma ancestry_patched c l :
  stored → ancestry H c l → Forall (λ x, x ∈ H.*1) l →
  ∃ r rest, reverse l = r :: rest ∧ payload r = version r ∧ patched r rest ∧ last (r :: rest) = Some c.
Proof.
  intros Hs Hp. induction Hp as [c Hc|c d l Hc Hp IH]; intros [Hin HD]%Forall_cons.
  - exists c, []. split_and!; [done| |done|done]. specialize (Hs c Hin). by rewrite Hc in Hs.
  - destruct (IH HD) as (r&rest&E&Hr&Hpt&Hl). exists r, (rest ++ [c]).
    rewrite reverse_cons, E. split_and!; [done|done| |].
    + apply patched_snoc with d; [done|done|]. specialize (Hs c Hin). by rewrite Hc in Hs.
    + rewrite app_comm_cons. apply last_snoc.
Qed.

(** The node answers what the command asks before it fetches anything. *)
Definition answers : Prop :=
  rConnect api = Ret tt ∧ lookPath api "bspatch" = Ret tt ∧
  (if decide (qFrom q = "") then rWalletDefault api else rAddressParse api (qFrom q)) = Ret payer ∧
  (if decide (qMaxPrice q = "") then Ret (defaultMaxPrice api) else rParseFIL api (qMaxPrice q)) = Ret maxPrice ∧
  ∃ imports, (if qAllowLocal q then listImports api else Ret []) = Ret imports ∧ local = localImports imports.

(** C28. [retrieve-version] rebuilds the requested version: when the metadata
    represents a history, the stored items are a root's content and patches from
    each version to its update, every item can be obtained and [bspatch] applies
    them, then for every version [c] and free output path the command succeeds,
    the output file is exactly the content of [c], no patch is left behind, and
    no file besides the output and its own temporary files changes. *)
Theorem retrieveVersion_rebuilds w c :
  represents metaPath H (wFiles w) → c ∈ H.*1 → wFiles w !! out = None →
  answers → stored → (∀ x, x ∈ H.*1 → obtainable x) →
  ∃ w' n, clientRetrieveVersion cidParse api q [c; out] w = (w', Ret tt) ∧
    wFiles w' !! out = Some (version c) ∧
    (∀ i, 0 ≤ i < n → wFiles w' !! tmpPath out i = None) ∧
    (∀ p, p ≠ out → (∀ i, 0 ≤ i < n → p ≠ tmpPath out i ∧ p ≠ workPath out i) →
       wFiles w' !! p = wFiles w !! p).
Proof.
  intros HR Hc Hout (A1&A2&A3&A4&imports&A5&A6) Hst Hob.
  destruct (resolveChain_ancestry w c HR Hc) as (l&Hp&HD&_&Hres).
  destruct (ancestry_patched c l Hst Hp HD) as (r&rest&El&Hr&Hpt&Hlast).
  assert (Forall obtainable (r :: rest)) as Hall.
  { rewrite <- El. apply Forall_forall. intros x Hx. apply Hob. rewrite elem_of_reverse in Hx.
    rewrite Forall_forall in HD. by apply HD. }
  destruct (wfHistory_good cidParse H c H_wf Hc) as (_&_&_&[t Ht]).
  set (w1 := w {{ wOut ::= λ o, o ++ ["Resolved version chain: " +:+ Join (r :: rest) " -> "] }}).
  destruct (fetchAll_obtains (r :: rest) 0 w1 Hall) as [o2 E2].
  set (fs2 := fetched 0 (r :: rest) (wFiles w)).
  assert (wFiles w1 = wFiles w) as Ew1 by (by destruct w). rewrite Ew1 in E2. fold fs2 in E2.
  assert (fs2 !! tmpPath out 0 = Some (version r)) as Et0.
  { rewrite <- Hr. apply (fetched_tmp (r :: rest) 0 _ 0 r); [lia|done]. }
  set (w3 := mkWorld (<[out := version r]> (delete (tmpPath out 0) fs2)) o2 (wDeals w1)).
  destruct (applyPatches_replace rest 1 r w3) as (fs4&o4&E4&F1&F2&F3); [lia|done|apply lookup_insert_eq| |].
  { intros k y Hk. simpl. rewrite lookup_insert_ne by (intros E; by apply (tmpPath_ne out (1 + Z.of_nat k))).
    rewrite lookup_delete_ne by (intros E; apply tmpPath_inj in E; lia).
    replace (1 + Z.of_nat k) with (0 + Z.of_nat (S k)) by lia. by apply fetched_tmp. }
  eexists _, (Z.of_nat (length (r :: rest))). split.
  - unfold clientRetrieveVersion.
    io_run_wrapped; [unfold lift; by rewrite Ht|]. io_run; [reflexivity|].
    rewrite bool_decide_false by (rewrite Hout; by intros [? ?]). cbv iota.
    io_run; [unfold lift; by rewrite A1|].
    io_run; [unfold lift; destruct (decide (qFrom q = "")); by rewrite A3|].
    io_run; [revert A4; destruct (decide (qMaxPrice q = "")); intros A4;
             [rewrite <- A4; reflexivity|apply wrapErr_ret; unfold lift; by rewrite A4]|].
    io_run; [exact Hres|]. rewrite El. io_run; [reflexivity|]. fold w1.
    io_run; [destruct (decide (1 < length (r :: rest))%nat); [apply wrapErr_ret; unfold lift; by rewrite A2|reflexivity]|].
    io_run; [revert A5; destruct (qAllowLocal q); intros A5; [unfold lift; by rewrite A5|rewrite <- A5; reflexivity]|].
    rewrite <- A6. io_run; [exact E2|].
    io_run_wrapped; [unfold rename; simpl; rewrite Et0; reflexivity|].
    replace (length (r :: rest) - 1)%nat with (length rest) by (simpl; lia).
    io_run; [exact E4|]. reflexivity.
  - simpl. rewrite F1, Hlast. split_and!; [done| |].
    + intros i Hi. destruct (decide (i = 0)) as [->|Hne]; [|apply F2; lia].
      rewrite F3; [|apply tmpPath_ne|].
      * simpl. rewrite lookup_insert_ne by (intros E; by apply (tmpPath_ne out 0)). apply lookup_delete_eq.
      * intros j Hj. split; [intros E; apply tmpPath_inj in E; lia|].
        intros E. by apply (workPath_tmpPath out j 0).
    + intros p Hpo Hpi. rewrite F3; [|done|intros j Hj; apply Hpi; lia]. simpl.
      rewrite lookup_insert_ne, lookup_delete_ne by (done || (destruct (Hpi 0); [lia|congruence])).
      apply fetched_other. intros j Hj. by apply Hpi; simpl in Hj; lia.
Qed.
End retrieval.
