(* ===== verification/VersionDeals.v ===== *)
(** * The deal command and the version history

    A successful [deal --create] or [deal --update] extends the history that
    the metadata represents; a deal without these flags leaves the metadata
    alone.  Then the cases in which the command records something the other
    commands cannot use. *)

From Stdlib Require Import Ascii.
From coqutil Require Import Datatypes.RecordSetters.
From stdpp Require Import strings numbers base gmap fin_maps sorting list.
From S2P Require Import Prelude GoStrings Versions VersionSpec VersionRetrieve.
Import DoubleBraceUpdate.
Local Open Scope Z_scope.

(** ** Commands that only read *)

(** A command that leaves the world as it is, whatever it returns. *)
Class ReadOnly {W A} (m : io W A) : Prop := read_only : ∀ w, (m w).1 = w.

#[global] Instance ReadOnly_ret {W A} (a : A) : ReadOnly (mret a : io W A).
Proof. done. Qed.
#[global] Instance ReadOnly_lift {W A} (o : outcome A) : ReadOnly (lift o : io W A).
Proof. done. Qed.
#[global] Instance ReadOnly_fail {W A} err : ReadOnly (fail err : io W A).
Proof. done. Qed.
#[global] Instance ReadOnly_wrapErr {W A} text (m : io W A) : ReadOnly m → ReadOnly (wrapErr text m).
Proof. intros Hm w. unfold wrapErr. pose proof (Hm w). by destruct (m w) as [w' [| |]]. Qed.
#[global] Instance ReadOnly_bind {W A B} (m : io W A) (f : A → io W B) :
  ReadOnly m → (∀ a, ReadOnly (f a)) → ReadOnly (mbind f m).
Proof.
  intros Hm Hf w. unfold mbind, io_bind. pose proof (Hm w) as E.
  destruct (m w) as [w' [a| |]]; simpl in E; subst; try done. apply Hf.
Qed.
#[global] Instance ReadOnly_decide {W A} (P : Prop) (d : Decision P) (m1 m2 : io W A) :
  ReadOnly m1 → ReadOnly m2 → ReadOnly (if @decide P d then m1 else m2).
Proof. intros. by destruct (decide P). Qed.
#[global] Instance ReadOnly_bool {W A} (b : bool) (m1 m2 : io W A) :
  ReadOnly m1 → ReadOnly m2 → ReadOnly (if b then m1 else m2).
Proof. intros. by destruct b. Qed.

Lemma ReadOnly_world {W A} (m : io W A) `{!ReadOnly m} w w' o : m w = (w', o) → w' = w.
Proof. intros E. pose proof (read_only (m := m) w) as R. by rewrite E in R. Qed.

Section deals.
Variable cidParse : string → outcome string.
Variable api : DealApi.

#[local] Instance dealParams_ReadOnly f a b c d : ReadOnly (dealParams cidParse api f a b c d).
Proof.
  unfold dealParams. repeat (apply ReadOnly_bind; [apply _|intros ?] || apply ReadOnly_decide || apply _).
  destruct (fVerifiedDeal f); apply _.
Qed.

Lemma dealParams_root f a b c d w w' deal :
  dealParams cidParse api f a b c d w = (w', Ret deal) → cidParse a = Ret (dRoot deal).
Proof.
  unfold dealParams. intros E. apply io_bind_ret in E as (w1&data&E1&E).
  injection E1 as -> E1. rewrite E1. f_equal.
  repeat (apply io_bind_ret in E as (?&?&_&E) || (destruct (decide _) in E; try discriminate E)).
  by injection E as _ <-.
Qed.

Lemma submitDeal_ret f d w w' p :
  submitDeal api f d w = (w', Ret p) → w' = w {{ wDeals ::= λ l, l ++ [d] }}.
Proof.
  unfold submitDeal. destruct (_ && _); [done|]. intros E.
  apply io_bind_ret in E as (w1&a&E1&E). injection E1 as <- E1. by injection E as <- _.
Qed.

(** What a successful deal with four arguments has done before it prints. *)
Lemma clientDeal_ret f a b c d w w' :
  fArgs f = [a; b; c; d] → clientDeal cidParse api f w = (w', Ret tt) →
  ∃ deal w1 w2 w3 text,
    cidParse a = Ret (dRoot deal) ∧ w1 = w {{ wDeals ::= λ l, l ++ [deal] }} ∧
    (fCreate f = true → fUpdate f = false) ∧
    (if fCreate f then recordCreate a else mret tt) w1 = (w2, Ret tt) ∧
    (if fUpdate f then recordUpdate (fPrevious f) a else mret tt) w2 = (w3, Ret tt) ∧
    w' = w3 {{ wOut ::= λ o, o ++ [text] }}.
Proof.
  intros Ha E. unfold clientDeal in E. rewrite Ha in E.
  apply io_bind_ret in E as (w0&[]&E0&E). injection E0 as <- E0.
  destruct (fCreate f && fUpdate f) eqn:Ecu; [done|].
  destruct (fCreate f && negb (bool_decide (fPrevious f = ""))); [done|].
  destruct (fUpdate f && bool_decide (fPrevious f = "")); [done|].
  apply io_bind_ret in E as (w1&deal&E1&E). pose proof (ReadOnly_world _ _ _ _ E1) as ->.
  apply dealParams_root in E1.
  apply io_bind_ret in E as (w2&prop&E2&E). apply submitDeal_ret in E2.
  apply io_bind_ret in E as (w3&[]&E3&E). apply io_bind_ret in E as (w4&[]&E4&E).
  apply io_bind_ret in E as (w5&text&E5&E). injection E5 as <- E5. injection E as <-.
  exists deal, w2, w3, w4, text. split_and!; try done.
  intros Hc. rewrite Hc in Ecu. done.
Qed.

Lemma represents_world loc H w (w' : world) :
  wFiles w' = wFiles w → represents loc H (wFiles w) → represents loc H (wFiles w').
Proof. by intros ->. Qed.

(** The entry a deal adds to the history. *)
Definition newVersion (f : DealFlags) (c : string) : string * option string :=
  (c, if fUpdate f then Some (fPrevious f) else None).

(** C29. The deal command keeps the metadata a faithful record: when the
    metadata represents a history and the command succeeds with [--create], or
    with [--update] for a known previous version, on a CID that is not yet in
    the history, the metadata afterwards represents the history with exactly
    this version added, and exactly one deal for this data was started. *)
Theorem deal_extends_history H f a b c d w w' :
  wfHistory cidParse H → represents metaPath H (wFiles w) →
  fArgs f = [a; b; c; d] → fCreate f || fUpdate f = true →
  goodCid cidParse a → (a ∉ H.*1) → (fUpdate f = true → fPrevious f ∈ H.*1) →
  clientDeal cidParse api f w = (w', Ret tt) →
  wfHistory cidParse (newVersion f a :: H) ∧
  represents metaPath (newVersion f a :: H) (wFiles w') ∧
  ∃ deal, cidParse a = Ret (dRoot deal) ∧ wDeals w' = wDeals w ++ [deal].
Proof.
  intros HH HR Ha Hcu Hg Hf Hp E.
  destruct (clientDeal_ret f a b c d w w' Ha E) as (deal&w1&w2&w3&text&Hr&->&Hx&E2&E3&->).
  assert (wfHistory cidParse (newVersion f a :: H)) as Hwf.
  { split_and!; [done..| |done]. intros q. destruct (fUpdate f) eqn:Eu; [|done].
    intros [= <-]. by apply Hp. }
  split; [done|]. unfold newVersion in *. destruct (fUpdate f) eqn:Eu.
  - destruct (fCreate f) eqn:Ec; [by specialize (Hx eq_refl)|]. injection E2 as <-.
    destruct (recordUpdate_represents cidParse H (fPrevious f) a (w {{ wDeals ::= λ l, l ++ [deal] }}) Hwf)
      as (w4&E4&HR'); [by destruct w|]. pose proof (eq_trans (eq_sym E4) E3) as E34. injection E34 as ->.
    split; [by destruct w3|]. exists deal. split; [done|].
    unfold recordUpdate in E3. apply io_bind_ret in E3 as (w5&content&E5&E3).
    assert (ReadOnly (readFile (metaPath (fPrevious f)))) as HRf by done.
    pose proof (ReadOnly_world _ _ _ _ E5) as ->.
    destruct (decide _) in E3; [done|]. injection E3 as <-. by destruct w.
  - destruct (fCreate f) eqn:Ec; [|done]. injection E3 as <-.
    destruct (recordCreate_represents cidParse H a (w {{ wDeals ::= λ l, l ++ [deal] }}) Hwf)
      as (w4&E4&HR'); [by destruct w|]. pose proof (eq_trans (eq_sym E4) E2) as E24. injection E24 as ->.
    split; [by destruct w2|]. exists deal. split; [done|]. injection E2 as <-. by destruct w.
Qed.

(** ** Histories the other commands cannot use *)

Lemma second_update_trunk H q c d :
  wfHistory cidParse ((c, Some q) :: H) → headOf H q = Some d →
  trunk ((c, Some q) :: H) q [q; c] ∧ d ≠ c ∧ d ∈ H.*1 ∧
  ∃ l, ancestry ((c, Some q) :: H) d (d :: q :: l).
Proof.
  intros HH Hd. pose proof HH as (_&Hc&_&HH'). destruct (headOf_update cidParse H q d HH' Hd) as (D1&Q1&Hp).
  assert (c ≠ q ∧ d ≠ c) as [Ncq Ndc] by (split; intros ->; done).
  split_and!; [|done|done|].
  - apply path_step with c; [simpl; by rewrite decide_True|]. apply path_end. simpl.
    rewrite decide_False by congruence. by apply (headOf_fresh cidParse).
  - destruct (ancestry_exists cidParse ((c, Some q) :: H) q HH) as (l&Hl&_); [by right|].
    destruct (path_head _ _ _ Hl) as [l' ->]. exists l'. apply path_step with q; [|done].
    simpl. by rewrite decide_False by congruence.
Qed.

(** A second update of the same version hides the first one: when [q] has
    an update [d] and another update [c] of [q] is recorded, [list-version] of
    [q] shows [c] alone and no longer [d], although the chain of [d] is still
    resolved through [q], so that [d] can be retrieved. *)
Theorem second_update_hides_first H w q c d :
  wfHistory cidParse ((c, Some q) :: H) → represents metaPath H (wFiles w) → headOf H q = Some d →
  ∃ w' l, recordUpdate q c w = (w', Ret tt) ∧ d ≠ c ∧
    clientListVersion cidParse [q] w' = (w' {{ wOut ::= λ o, o ++ listing q [c] }}, Ret tt) ∧
    resolveChain cidParse d w' = (w', Ret (l ++ [q; d])).
Proof.
  intros HH HR Hd. destruct (recordUpdate_represents cidParse H q c w HH HR) as (w'&E&HR').
  destruct (second_update_trunk H q c d HH Hd) as (Ht&Hne&Hdin&l&Ha).
  destruct (listVersion_trunk cidParse ((c, Some q) :: H) w' q HH HR') as (l1&Ht1&E1).
  { right. by apply (headOf_update cidParse H q d); [apply HH|]. }
  pose proof (path_det _ _ _ _ Ht1 Ht) as E2. injection E2 as ->.
  destruct (resolveChain_ancestry cidParse ((c, Some q) :: H) HH w' d HR') as (l2&Ha2&_&_&E3); [by right|].
  pose proof (path_det _ _ _ _ Ha2 Ha) as ->. exists w', (reverse l). split_and!; [done|done|done|].
  rewrite E3, !reverse_cons, <- app_assoc. done.
Qed.

(** The previous version is looked up only after the deal was made: with
    [--update] and a [--previous] that has no metadata, every check passes, the
    deal is started, and then the command fails without recording anything. *)
Theorem unknown_previous_after_deal f a b c d w deal prop :
  fArgs f = [a; b; c; d] → connect api = Ret tt →
  fCreate f = false → fUpdate f = true → fPrevious f ≠ "" →
  wFiles w !! metaPath (fPrevious f) = None →
  dealParams cidParse api f a b c d w = (w, Ret deal) →
  submitDeal api f deal w = (w {{ wDeals ::= λ l, l ++ [deal] }}, Ret prop) →
  ∃ err, clientDeal cidParse api f w = (w {{ wDeals ::= λ l, l ++ [deal] }}, Fail err).
Proof.
  intros Ha Hcon Hc Hu Hp Hm E1 E2. unfold clientDeal. rewrite Ha, Hc, Hu. simpl andb.
  rewrite bool_decide_false by done. eexists.
  io_run; [unfold lift; by rewrite Hcon|]. simpl. io_run; [exact E1|]. io_run; [exact E2|].
  io_run; [reflexivity|]. destruct w as [fs o ds]. simpl in Hm.
  unfold recordUpdate, readFile, wrapErr. io_step. by rewrite Hm.
Qed.

(** A version that is recorded as an update of itself is lost: nothing
    rejects a [--previous] equal to the data, and afterwards resolving the
    version's chain ends in the cycle error. *)
Theorem self_update_loses_version H w c :
  wfHistory cidParse H → represents metaPath H (wFiles w) → c ∈ H.*1 →
  ∃ w', recordUpdate c c w = (w', Ret tt) ∧
    (resolveChain cidParse c w').2 = Fail ("detected cycle in version metadata at cid " +:+ c).
Proof.
  intros HH HR Hc. destruct (represents_lines cidParse metaPath H (wFiles w) c HH HR Hc) as (content&Hq&Hl).
  destruct (wfHistory_good cidParse H c HH Hc) as (G1&G2&G3&[t Ht]).
  destruct w as [fs o ds]. simpl in Hq. eexists. split.
  - unfold recordUpdate, readFile, wrapErr. io_step. rewrite Hq, Hl. reflexivity.
  - unfold resolveChain, gets. io_step. unfold rounds. rewrite walk_S, decide_False by set_solver.
    match goal with |- context [mbind _ (resolveStep cidParse c []) ?w1] =>
      assert (resolveStep cidParse c [] w1 = (w1, Ret ([c], Some c))) as Es end.
    { unfold resolveStep, readFile, wrapErr, lift. io_step. rsimpl. rewrite lookup_insert_eq.
      match goal with |- context [metaLines ?x] => change x with (render c "NULL") end.
      rewrite metaLines_render by done. io_step. rewrite TrimSpace_plain, !decide_False by done. by rewrite Ht. }
    rewrite (io_bind_eq _ _ _ _ _ Es), walk_S, decide_True by set_solver. reflexivity.
Qed.
End deals.

(** ** A concrete history *)

Definition demoParse (s : string) : outcome string :=
  if bool_decide (is_Some (stripPrefix "baf" s)) then Ret s else Fail "invalid cid".

Lemma demoParse_total s : demoParse s ≠ Crash.
Proof. unfold demoParse. by case_bool_decide. Qed.

(** A root and two updates. *)
Definition demoHistory : history :=
  [("bafc", Some "bafb"); ("bafb", Some "bafa"); ("bafa", None)].

Definition demoFiles : gmap string string :=
  {[ "bafa_meta" := render "NULL" "bafb"; "bafb_meta" := render "bafa" "bafc";
     "bafc_meta" := render "bafb" "NULL"; "fileroots.log" := "bafa" +:+ nl ]}.

Definition demoWorld : world := mkWorld demoFiles [] [].

Lemma goodCid_demo c :
  plain c = true → c ≠ "" → c ≠ "NULL" → bool_decide (is_Some (stripPrefix "baf" c)) = true →
  goodCid demoParse c.
Proof. intros. split_and!; try done. exists c. unfold demoParse. by rewrite H2. Qed.

Lemma demoHistory_wf : wfHistory demoParse demoHistory.
Proof.
  repeat (split; [by apply goodCid_demo|split; [by apply (bool_decide_unpack _)|split;
    [intros q Hq; first [discriminate Hq|injection Hq as <-; by apply (bool_decide_unpack _)]|]]]).
  done.
Qed.

Lemma demoHistory_represented : represents metaPath demoHistory demoFiles.
Proof.
  intros c Hc. repeat (apply elem_of_cons in Hc as [->|Hc]; [reflexivity|]). by apply not_elem_of_nil in Hc.
Qed.

Lemma listVersion_shows_trunk_witness :
  ∃ l, trunk demoHistory "bafa" ("bafa" :: l) ∧
    (clientListVersion demoParse ["bafa"] demoWorld).2 = Ret tt.
Proof.
  destruct (listVersion_shows_trunk demoParse demoHistory demoWorld "bafa" demoHistory_wf
    demoHistory_represented) as (l&Hl&E); [by apply (bool_decide_unpack _)|].
  exists l. split; [exact Hl|exact (f_equal snd E)].
Defined.

Lemma loadVersions_agrees_witness :
  ∃ l vs, trunk demoHistory "bafa" ("bafa" :: l) ∧
    loadVersionsFromMeta id "bafa" demoWorld = (demoWorld, Ret vs) ∧ map viCID vs = "bafa" :: l.
Proof.
  destruct (loadVersions_agrees_with_listVersion demoParse demoHistory id demoWorld "bafa") as (l&vs&H1&H2&H3&_);
    [done|apply demoHistory_wf|apply demoHistory_represented|by apply (bool_decide_unpack _)|].
  exists l, vs. split; [exact H1|]. split; [exact H2|exact H3].
Defined.

(** Metadata that points at itself. *)
Lemma version_walks_terminate_witness :
  let w := mkWorld {[ "bafx_meta" := render "bafx" "bafx" ]} [] [] in
  (clientListVersion demoParse ["bafx"] w).2 ≠ Crash ∧
  (resolveChain demoParse "bafx" w).2 = Fail "detected cycle in version metadata at cid bafx".
Proof.
  split; [|reflexivity].
  apply (version_walks_terminate demoParse demoParse_total id ["bafx"] "bafx"). done.
Defined.

Lemma second_update_hides_first_witness :
  ∃ w' l, recordUpdate "bafa" "bafd" demoWorld = (w', Ret tt) ∧
    resolveChain demoParse "bafb" w' = (w', Ret (l ++ ["bafa"; "bafb"])).
Proof.
  destruct (second_update_hides_first demoParse demoHistory demoWorld "bafa" "bafd" "bafb")
    as (w'&l&H1&_&_&H2); [|apply demoHistory_represented|reflexivity|exists w', l; by split].
  split; [by apply goodCid_demo|]. split; [by apply (bool_decide_unpack _)|].
  split; [intros q [= <-]; by apply (bool_decide_unpack _)|]. apply demoHistory_wf.
Defined.

Lemma self_update_loses_version_witness :
  ∃ w', recordUpdate "bafb" "bafb" demoWorld = (w', Ret tt) ∧
    (resolveChain demoParse "bafb" w').2 = Fail ("detected cycle in version metadata at cid bafb").
Proof.
  apply (self_update_loses_version demoParse demoHistory demoWorld "bafb" demoHistory_wf
    demoHistory_represented). by apply (bool_decide_unpack _).
Defined.

Definition demoDealApi : DealApi :=
  mkDealApi (Ret tt) Ret (λ _, Ret 0) (λ _, Ret 0) (Ret "f1client") (λ _, Ret false)
    (λ _, Ret "bafproposal") Ret 518400 1555200 (mret tt).

Definition demoFlags (previous : string) : DealFlags :=
  mkDealFlags ["bafd"; "f01000"; "0"; "518400"] false true previous false "" 0 "" (-1) true None "".

Lemma deal_extends_history_witness :
  ∃ w', clientDeal demoParse demoDealApi (demoFlags "bafc") demoWorld = (w', Ret tt) ∧
    represents metaPath (("bafd", Some "bafc") :: demoHistory) (wFiles w').
Proof.
  assert ((clientDeal demoParse demoDealApi (demoFlags "bafc") demoWorld).2 = Ret tt) as E2
    by (vm_compute; reflexivity).
  destruct (clientDeal demoParse demoDealApi (demoFlags "bafc") demoWorld) as [w' o] eqn:E.
  simpl in E2. subst o. exists w'. split; [reflexivity|].
  eapply (deal_extends_history demoParse demoDealApi demoHistory (demoFlags "bafc") "bafd" "f01000" "0" "518400"
    demoWorld).
  - apply demoHistory_wf.
  - apply demoHistory_represented.
  - reflexivity.
  - reflexivity.
  - by apply goodCid_demo.
  - by apply (bool_decide_unpack _).
  - intros _. by apply (bool_decide_unpack _).
  - exact E.
Defined.

Lemma unknown_previous_after_deal_witness :
  ∃ deal err, clientDeal demoParse demoDealApi (demoFlags "bafz") demoWorld
    = (demoWorld {{ wDeals ::= λ l, l ++ [deal] }}, Fail err).
Proof.
  exists (mkDeal "bafd" false None 0 "f1client" "f01000" 0 518400 (-1) true false None false).
  eapply (unknown_previous_after_deal demoParse demoDealApi (demoFlags "bafz")
    "bafd" "f01000" "0" "518400" demoWorld _ "bafproposal"); vm_compute; reflexivity || discriminate.
Defined.

(** Patches that append their text, all imported locally. *)
Definition demoPayload (c : string) : string :=
  if decide (c = "bafa") then "A" else if decide (c = "bafb") then "B" else "C".
Definition demoVersion (c : string) : string :=
  if decide (c = "bafa") then "A" else if decide (c = "bafb") then "AB" else "ABC".

Definition demoImports : list (option string * string) :=
  [(Some "bafa", "a.car"); (Some "bafb", "b.car"); (Some "bafc", "c.car"); (None, "x.car")].

Definition demoRetrApi : RetrApi :=
  mkRetrApi (Ret tt) Ret (Ret "f1client") (λ _, Ret 0) 10 (Ret demoImports) (λ _, Ret []) id
    (λ _ _, Fail "offline") (λ _, Ret []) (λ _ _, Fail "offline")
    (λ r, match r with FromLocalCAR c _ => Ret (demoPayload c) | _ => Fail "offline" end)
    (λ _, Ret tt) (λ old patch, Ret (old +:+ patch)).

Lemma retrieveVersion_rebuilds_witness :
  ∃ w', clientRetrieveVersion demoParse demoRetrApi (mkRetrFlags "" "" "" true) ["bafc"; "out"] demoWorld
        = (w', Ret tt) ∧ wFiles w' !! "out" = Some "ABC".
Proof.
  destruct (retrieveVersion_rebuilds demoParse demoHistory demoHistory_wf demoRetrApi
    (mkRetrFlags "" "" "" true) "out" "f1client" 10 (localImports demoImports) demoPayload demoVersion
    demoWorld "bafc") as (w'&n&E&Hout&_).
  - apply demoHistory_represented.
  - by apply (bool_decide_unpack _).
  - reflexivity.
  - split_and!; try reflexivity. by exists demoImports.
  - intros c Hc. repeat (apply elem_of_cons in Hc as [->|Hc]; [reflexivity|]). by apply not_elem_of_nil in Hc.
  - intros c Hc. repeat (apply elem_of_cons in Hc as [->|Hc]; [eexists; split; reflexivity|]).
    by apply not_elem_of_nil in Hc.
  - exists w'. split; [exact E|exact Hout].
Defined.

(** ** Offers *)

Section offers.
Variable api : RetrApi.
Variable q : RetrFlags.
(** What [sort.Slice] promises. *)
Hypothesis sort_permutes : ∀ l, sortOffers api l ≡ₚ l.
Hypothesis sort_sorts : ∀ l, StronglySorted (λ x y, oMinPrice x ≤ oMinPrice y) (sortOffers api l).

(** No retrieval above the price limit: an offer that the command goes on
    with has no error and costs at most the maximum price; when no provider was
    named, it is the cheapest of the error-free offers that were found. *)
Theorem chosen_offer_is_cheapest chainCid file maxPrice w w' offer :
  chooseOffer api q chainCid file maxPrice w = (w', Ret offer) →
  w' = w ∧ oErr offer = "" ∧ oMinPrice offer ≤ maxPrice ∧
  (qProvider q = "" → ∃ offers, findData api file = Ret offers ∧ offer ∈ offers ∧
     ∀ o, o ∈ offers → oErr o = "" → oMinPrice offer ≤ oMinPrice o).
Proof.
  intros E. unfold chooseOffer in E. apply io_bind_ret in E as (w1&o&E1&E).
  destruct (decide (oErr o ≠ "")) as [He|He]; [done|].
  destruct (decide (maxPrice < oMinPrice o)) as [Hm|Hm]; [done|]. injection E as <- <-.
  apply dec_stable in He. destruct (decide (qProvider q = "")) as [Hq|Hq].
  - apply io_bind_ret in E1 as (w2&offers&E2&E1). injection E2 as <- E2.
    destruct (sortOffers api (clean offers)) as [|x l] eqn:Es; [done|]. injection E1 as <- <-.
    split_and!; [done|done|lia|]. intros _. exists offers. split; [done|].
    pose proof (sort_permutes (clean offers)) as HP. pose proof (sort_sorts (clean offers)) as HS.
    rewrite Es in HP, HS. split.
    + assert (x ∈ clean offers) as Hx by (rewrite <- HP; left). by apply list_elem_of_filter in Hx as [_ Hx].
    + intros y Hy Ey. assert (y ∈ x :: l) as Hin.
      { rewrite HP. apply list_elem_of_filter. done. }
      apply elem_of_cons in Hin as [->|Hin]; [lia|].
      apply StronglySorted_inv in HS as [_ HS]. rewrite Forall_forall in HS. by apply HS.
  - apply io_bind_ret in E1 as (w2&a&E2&E1). injection E2 as <- E2. injection E1 as <- E1.
    split_and!; [done|done|lia|done].
Qed.
End offers.

Definition cheaper (x y : Offer) : Prop := oMinPrice x ≤ oMinPrice y.

#[global] Instance cheaper_dec x y : Decision (cheaper x y).
Proof. unfold cheaper. apply _. Defined.
#[global] Instance cheaper_total : Total cheaper.
Proof. intros x y. unfold cheaper. lia. Qed.
#[global] Instance cheaper_trans : Transitive cheaper.
Proof. intros x y z. unfold cheaper. lia. Qed.

Definition offerApi : RetrApi :=
  mkRetrApi (Ret tt) Ret (Ret "f1client") (λ _, Ret 0) 10 (Ret [])
    (λ _, Ret [mkOffer "" 7 "x"; mkOffer "busy" 1 "y"; mkOffer "" 3 "z"]) (merge_sort cheaper)
    (λ _ _, Fail "offline") (λ _, Ret []) (λ _ _, Fail "offline") (λ _, Fail "offline")
    (λ _, Ret tt) (λ _ _, Fail "offline").

Lemma chosen_offer_is_cheapest_witness :
  chooseOffer offerApi (mkRetrFlags "" "" "" false) "bafa" "bafa" 10 demoWorld
  = (demoWorld, Ret (mkOffer "" 3 "z")) ∧ oMinPrice (mkOffer "" 3 "z") ≤ 10.
Proof.
  assert (chooseOffer offerApi (mkRetrFlags "" "" "" false) "bafa" "bafa" 10 demoWorld
          = (demoWorld, Ret (mkOffer "" 3 "z"))) as E by (vm_compute; reflexivity).
  split; [exact E|].
  apply (chosen_offer_is_cheapest offerApi (mkRetrFlags "" "" "" false)
    (λ l, merge_sort_Permutation cheaper l) (λ l, StronglySorted_merge_sort cheaper l) _ _ _ _ _ _ E).
Defined.
