(* ===== verification/Catalog.v ===== *)
(** * The version catalog of the HTTP API (cmd/opendsn-api/catalog.go)

    The catalog lists the files of the store with their versions.
    [normalizeVersions] gives each version a label by walking the tree of
    updates and sorts the versions; [upsertInitialVersion] and
    [appendPatchVersion] add versions.  [strings.ToLower] is modelled on
    ASCII text. *)

From Stdlib Require Import Ascii Sorted.
From coqutil Require Import Datatypes.RecordSetters.
From stdpp Require Import strings numbers base gmap fin_maps list.
From S2P Require Import Prelude GoStrings GoSort.
Import DoubleBraceUpdate.
Local Open Scope Z_scope.

Record CatalogVersion := mkCatalogVersion {
  CID : string; RootCID : string; VersionLabel : string; PreviousCID : string;
  PreviousVersionLabel : string; MinerIndex : string; SourceName : string;
  SizeBytes : Z; SizeMB : string; UploadedAt : string; Kind : string
}.

Record CatalogFile := mkCatalogFile {
  fRootCID : string; DisplayName : string; Extension : string; CreatedAt : string;
  Versions : list CatalogVersion
}.

Record Catalog := mkCatalog { Files : list CatalogFile }.

(** ** Version labels *)

Fixpoint atoiAll (raw : list string) : option (list Z) :=
  match raw with
  | [] => Some []
  | r :: raw' =>
      if decide (r = "") then None
      else match Atoi r with
           | None => None
           | Some v => match atoiAll raw' with Some vs => Some (v :: vs) | None => None end
           end
  end.

Definition parseVersionLabel (label0 : string) : option (list Z) :=
  let label := TrimSpace label0 in
  match label with
  | String a rest =>
      if decide (String.length label < 2)%nat then None
      else if decide (a ≠ "v"%char ∧ a ≠ "V"%char) then None
      else atoiAll (Split DOT rest)
  | "" => None
  end.

Definition formatVersionLabel (parts : list Z) : string :=
  match parts with
  | [] => "v1"
  | _ => "v" +:+ Join (map Itoa parts) "."
  end.

Definition nextGenerationLabel (label : string) : string :=
  match parseVersionLabel label with
  | Some (p :: parts) => formatVersionLabel (wrapInt64 (p + 1) :: parts)
  | _ => label +:+ ".1"
  end.

(** The loop of [compareVersionLabels] and its comparison of the lengths. *)
Fixpoint compareParts (l r : list Z) : Z :=
  match l, r with
  | [], [] => 0
  | [], _ :: _ => -1
  | _ :: _, [] => 1
  | x :: l', y :: r' => if decide (x = y) then compareParts l' r' else if decide (x < y) then -1 else 1
  end.

Definition compareVersionLabels (left right : string) : Z :=
  match parseVersionLabel left, parseVersionLabel right with
  | Some l, Some r => compareParts l r
  | Some _, None => -1
  | None, Some _ => 1
  | None, None => Compare left right
  end.

(** ** Lookups and derived fields *)

Fixpoint findVersionIndex (versions : list CatalogVersion) (cid : string) : option nat :=
  match versions with
  | [] => None
  | v :: rest => if decide (CID v = cid) then Some 0%nat else S <$> findVersionIndex rest cid
  end.

Fixpoint findFileIndexByRoot (files : list CatalogFile) (root : string) : option nat :=
  match files with
  | [] => None
  | f :: rest => if decide (fRootCID f = root) then Some 0%nat else S <$> findFileIndexByRoot rest root
  end.

Fixpoint findVersionLocation (files : list CatalogFile) (cid : string) : option (nat * nat) :=
  match files with
  | [] => None
  | f :: rest =>
      match findVersionIndex (Versions f) cid with
      | Some i => Some (0%nat, i)
      | None => (λ p, (S p.1, p.2)) <$> findVersionLocation rest cid
      end
  end.

Definition deriveSourceName (sourcePath displayName fallback : string) : string :=
  let candidate := TrimSpace displayName in
  if decide (candidate ≠ "") then Base candidate
  else if decide (TrimSpace sourcePath ≠ "") then Base sourcePath
  else fallback.

Definition formatSizeMB (sizeBytes : Z) : string :=
  if decide (sizeBytes ≤ 0) then "0.00" else sprintf2 (hundredths (float64OfInt sizeBytes)).

(** ** Normalisation of one file *)

(** The fields that [normalizeVersions] fills in. *)
Definition fillVersion (file : CatalogFile) (v : CatalogVersion) : CatalogVersion :=
  v {{ RootCID := fRootCID file;
       SourceName := if decide (TrimSpace (SourceName v) = "") then DisplayName file else SourceName v;
       Kind := if decide (Kind v = "")
               then (if decide (CID v = fRootCID file) then "initial" else "patch") else Kind v;
       SizeMB := if decide (SizeMB v = "") then formatSizeMB (SizeBytes v) else SizeMB v }}.

(** The order of the children of a version. *)
Definition childLess (l r : CatalogVersion) : bool :=
  if decide (UploadedAt l ≠ UploadedAt r) then ltb (UploadedAt l) (UploadedAt r)
  else if decide (SourceName l ≠ SourceName r) then ltb (SourceName l) (SourceName r)
  else ltb (CID l) (CID r).

(** [children[cid]]: the versions whose trimmed previous CID is [cid], sorted.
    A version stands for its index. *)
Definition childrenOf (versions : list CatalogVersion) (cid : string) : list CatalogVersion :=
  if decide (cid = "") then []
  else sortBy childLess (filter (λ v, TrimSpace (PreviousCID v) = cid) versions).

(** [visited] with [labelByCID], which has the same keys, and the versions
    reached, in order. *)
Record walkState := mkWalk { labelByCID : gmap string string; ordered : list CatalogVersion }.

Section tree.
Variable versions : list CatalogVersion.

(** The loop over the branches [childIndices[1:]]. *)
Fixpoint walkBranches (rec : CatalogVersion → string → walkState → outcome walkState)
    (continuation : string) (branchOffset : Z) (branches : list CatalogVersion) (st : walkState) :
    outcome walkState :=
  match branches with
  | [] => Ret st
  | b :: rest =>
      st' ← rec b (continuation +:+ "." +:+ Itoa (branchOffset + 1)) st;
      walkBranches rec continuation (branchOffset + 1) rest st'
  end.

(** [walkTree]; running out of fuel is [Crash], which is excluded below. *)
Fixpoint walkTree (fuel : nat) (v : CatalogVersion) (label : string) (st : walkState) :
    outcome walkState :=
  match fuel with
  | O => Crash
  | S fuel' =>
      if decide (is_Some (labelByCID st !! CID v)) then Ret st
      else
        let st1 := mkWalk (<[CID v := label]> (labelByCID st)) (ordered st ++ [v]) in
        match childrenOf versions (CID v) with
        | [] => Ret st1
        | c :: rest =>
            let continuation := nextGenerationLabel label in
            st2 ← walkTree fuel' c continuation st1;
            walkBranches (walkTree fuel') continuation 0 rest st2
        end
  end.

Definition depth : nat := S (length versions).

(** The loop over the versions that the root does not reach. *)
Fixpoint walkOrphans (rest : list CatalogVersion) (orphanCount : Z) (st : walkState) : outcome walkState :=
  match rest with
  | [] => Ret st
  | v :: rest' =>
      if decide (is_Some (labelByCID st !! CID v)) then walkOrphans rest' orphanCount st
      else
        let n := Z.of_nat (length versions) + 1 in
        st' ← walkTree depth v ("v" +:+ Itoa (n + orphanCount * n)) st;
        walkOrphans rest' (orphanCount + 1) st'
  end.
End tree.

(** The labels written into a version at the end. *)
Definition labelVersion (labels : gmap string string) (v : CatalogVersion) : CatalogVersion :=
  v {{ VersionLabel := default "" (labels !! CID v);
       PreviousVersionLabel := default "" (labels !! PreviousCID v) }}.

Definition versionLess (l r : CatalogVersion) : bool :=
  let compare := compareVersionLabels (VersionLabel l) (VersionLabel r) in
  if decide (compare ≠ 0) then bool_decide (compare < 0)
  else if decide (UploadedAt l ≠ UploadedAt r) then ltb (UploadedAt l) (UploadedAt r)
  else ltb (CID l) (CID r).

Definition normalizeVersions (file : CatalogFile) : outcome CatalogFile :=
  match Versions file with
  | [] => Ret file
  | v0 :: _ =>
      let versions := map (fillVersion file) (Versions file) in
      let rootIndex := default 0%nat (findVersionIndex (Versions file) (fRootCID file)) in
      root ← index versions (Z.of_nat rootIndex);
      st ← walkTree versions (depth versions) root "v1" (mkWalk ∅ []);
      st' ← (if decide (length (ordered st) < length versions)%nat
             then walkOrphans versions versions 0 st else Ret st);
      Ret (file {{ Versions := sortBy versionLess (map (labelVersion (labelByCID st')) (ordered st')) }})
  end.

(** ** The catalog *)

Definition fileLess (l r : CatalogFile) : bool :=
  let left := ToLower (DisplayName l) in
  let right := ToLower (DisplayName r) in
  if decide (left ≠ right) then ltb left right else ltb (CreatedAt l) (CreatedAt r).

Fixpoint normalizeFiles (files : list CatalogFile) : outcome (list CatalogFile) :=
  match files with
  | [] => Ret []
  | f :: rest => f' ← normalizeVersions f; rest' ← normalizeFiles rest; Ret (f' :: rest')
  end.

Definition normalize (catalog : Catalog) : outcome Catalog :=
  files ← normalizeFiles (Files catalog); Ret (mkCatalog (sortBy fileLess files)).

(** [catalog.Files[i]] and [.Versions[j]] for the results of the lookups, where
    -1 panics. *)
Definition fileAt (catalog : Catalog) (i : option nat) : outcome CatalogFile :=
  match i ≫= λ i, Files catalog !! i with Some f => Ret f | None => Crash end.

Definition versionAt (file : CatalogFile) (i : option nat) : outcome CatalogVersion :=
  match i ≫= λ i, Versions file !! i with Some v => Ret v | None => Crash end.

(** The file and version of [root] in the normalised catalog. *)
Definition locateInitial (catalog : Catalog) (root : string) :
    outcome (Catalog * (CatalogFile * CatalogVersion)) :=
  c ← normalize catalog;
  f ← fileAt c (findFileIndexByRoot (Files c) root);
  v ← versionAt f (findVersionIndex (Versions f) root);
  Ret (c, (f, v)).

Definition initialVersion (root sourceName : string) (sizeBytes : Z) (minerIndex uploadedAt : string) :
    CatalogVersion :=
  mkCatalogVersion root root "v1" "" "" minerIndex sourceName sizeBytes (formatSizeMB sizeBytes)
    uploadedAt "initial".

(** The fields of the file that an upload fills in when they are blank. *)
Definition fillFile (sourceName extension uploadedAt : string) (file : CatalogFile) : CatalogFile :=
  file {{ DisplayName := if decide (TrimSpace (DisplayName file) = "") then sourceName else DisplayName file;
          Extension := if decide (TrimSpace (Extension file) = "") then extension else Extension file;
          CreatedAt := if decide (TrimSpace (CreatedAt file) = "") then uploadedAt else CreatedAt file }}.

Definition upsertInitialVersion (catalog : Catalog) (root sourcePath displayName : string)
    (sizeBytes : Z) (minerIndex uploadedAt : string) :
    outcome (Catalog * (CatalogFile * CatalogVersion)) :=
  let sourceName := deriveSourceName sourcePath displayName root in
  let extension := ToLower (Ext sourceName) in
  let version := initialVersion root sourceName sizeBytes minerIndex uploadedAt in
  match findFileIndexByRoot (Files catalog) root with
  | Some fileIndex =>
      file ← fileAt catalog (Some fileIndex);
      let file1 := fillFile sourceName extension uploadedAt file in
      let file2 := match findVersionIndex (Versions file1) root with
                   | Some _ => file1
                   | None => file1 {{ Versions ::= λ l, l ++ [version] }}
                   end in
      locateInitial (mkCatalog (<[fileIndex := file2]> (Files catalog))) root
  | None =>
      let file := mkCatalogFile root sourceName extension uploadedAt [version] in
      locateInitial (mkCatalog (Files catalog ++ [file])) root
  end.

(** [appendPatchVersion]; an error leaves the catalog in memory as it is up to
    the last lookup. *)
Definition appendPatchVersion (catalog : Catalog) (cid previousCID sourcePath displayName : string)
    (sizeBytes : Z) (minerIndex uploadedAt : string) :
    outcome (Catalog * (CatalogFile * CatalogVersion)) :=
  match findVersionLocation (Files catalog) previousCID with
  | None => Fail ("previous version " +:+ previousCID +:+ " is not present in the catalog")
  | Some (fileIndex, previousVersionIndex) =>
      file ← fileAt catalog (Some fileIndex);
      match findVersionIndex (Versions file) cid with
      | Some i => v ← versionAt file (Some i); Ret (catalog, (file, v))
      | None =>
          previousVersion ← versionAt file (Some previousVersionIndex);
          let version :=
            mkCatalogVersion cid (fRootCID file) "" (CID previousVersion) "" minerIndex
              (deriveSourceName sourcePath displayName cid) sizeBytes (formatSizeMB sizeBytes)
              uploadedAt "patch" in
          let file' := file {{ Versions ::= λ l, l ++ [version] }} in
          c ← normalize (mkCatalog (<[fileIndex := file']> (Files catalog)));
          match findVersionLocation (Files c) cid with
          | None => Fail ("version " +:+ cid +:+ " was added but not found after normalization")
          | Some (i, j) => f ← fileAt c (Some i); v ← versionAt f (Some j); Ret (c, (f, v))
          end
      end
  end.

(** * Version labels

    Printing and parsing of labels, the order of [compareVersionLabels] and of
    the sort keys built on it, and the step to the next generation. *)

(** ** Printing and parsing *)

(** The parts of a label that fit an [int]. *)
Definition partsOk (parts : list Z) : Prop :=
  parts ≠ [] ∧ Forall (λ p, minInt64 ≤ p ≤ maxInt64) parts.

Lemma Join_plain l : Forall (λ s, plain s = true) l → plain (Join l ".") = true.
Proof.
  intros H. induction H as [|s l Hs Hl IH]; [done|]. destruct l as [|t l]; [done|].
  rewrite Join_cons by done. unfold plain in *. rewrite !allBytes_app, Hs, IH. done.
Qed.

Lemma atoiAll_Itoa parts :
  Forall (λ p, minInt64 ≤ p ≤ maxInt64) parts → atoiAll (map Itoa parts) = Some parts.
Proof.
  induction 1 as [|p parts Hp Hparts IH]; [done|]. simpl.
  rewrite decide_False by apply Itoa_plain. by rewrite Atoi_Itoa, IH by done.
Qed.

Lemma parse_format parts :
  partsOk parts → parseVersionLabel (formatVersionLabel parts) = Some parts.
Proof.
  intros [Hne Hp]. destruct parts as [|p parts]; [done|]. unfold formatVersionLabel.
  set (ps := p :: parts) in *. change ("v" +:+ Join (map Itoa ps) ".") with (String "v" (Join (map Itoa ps) ".")).
  assert (plain (Join (map Itoa ps) ".") = true) as Hpl.
  { apply Join_plain. apply Forall_forall. intros s (z&->&_)%list_elem_of_fmap. apply Itoa_plain. }
  clearbody ps. set (body := Join (map Itoa ps) ".") in *.
  unfold parseVersionLabel. rewrite TrimSpace_plain by (by change (plain body = true)).
  rewrite decide_False.
  2: { assert (body ≠ "") as Hj.
       { unfold body. destruct ps as [|z zs]; [done|]. simpl. destruct (Itoa_plain z) as (_&_&Hn).
         destruct (map Itoa zs); [done|]. destruct (Itoa z); done. }
       destruct body; [done|]. simpl. lia. }
  rewrite decide_False by tauto. unfold body.
  rewrite Split_Join; [by apply atoiAll_Itoa|by destruct ps|].
  apply Forall_forall. intros s (z&->&_)%list_elem_of_fmap. apply Itoa_plain.
Qed.

(** ** The order of labels *)

Lemma compareParts_refl l : compareParts l l = 0.
Proof. induction l as [|x l IH]; simpl; [done|]. by rewrite decide_True. Qed.

Lemma compareParts_antisym l r : compareParts r l = - compareParts l r.
Proof.
  revert r. induction l as [|x l IH]; intros [|y r]; simpl; try done.
  repeat case_decide; try lia; [apply IH|congruence..].
Qed.

Lemma compareParts_trans l m r : compareParts l m ≤ 0 → compareParts m r ≤ 0 → compareParts l r ≤ 0.
Proof.
  revert m r. induction l as [|x l IH]; intros [|y m] [|z r]; simpl; try lia.
  repeat case_decide; try lia. apply IH.
Qed.

Lemma Compare_trans a b c : Compare a b ≤ 0 → Compare b c ≤ 0 → Compare a c ≤ 0.
Proof.
  intros H1 H2. destruct (decide (Compare a c ≤ 0)) as [|Hn]; [done|]. exfalso.
  assert (ltb c a = true) as Hca by (unfold ltb; apply bool_decide_eq_true; rewrite Compare_antisym; lia).
  destruct (decide (Compare a b = 0)) as [E|E].
  - apply Compare_eq in E as ->. lia.
  - assert (ltb a b = true) as Hab by (unfold ltb; apply bool_decide_eq_true; lia).
    pose proof (ltb_trans _ _ _ Hca Hab) as Hcb. unfold ltb in Hcb. apply bool_decide_eq_true in Hcb.
    rewrite Compare_antisym in Hcb. lia.
Qed.

Lemma compareVersionLabels_antisym l r : compareVersionLabels r l = - compareVersionLabels l r.
Proof.
  unfold compareVersionLabels. destruct (parseVersionLabel l), (parseVersionLabel r); try done.
  - apply compareParts_antisym.
  - apply Compare_antisym.
Qed.

Lemma compareVersionLabels_trans l m r :
  compareVersionLabels l m ≤ 0 → compareVersionLabels m r ≤ 0 → compareVersionLabels l r ≤ 0.
Proof.
  unfold compareVersionLabels.
  destruct (parseVersionLabel l), (parseVersionLabel m), (parseVersionLabel r); try lia.
  - apply compareParts_trans.
  - apply Compare_trans.
Qed.

Lemma next_label_greater p parts :
  partsOk (p :: parts) → p < maxInt64 →
  compareVersionLabels (formatVersionLabel (p :: parts))
    (nextGenerationLabel (formatVersionLabel (p :: parts))) = -1.
Proof.
  intros Hok Hp. pose proof Hok as [_ [Hp' Hparts]%Forall_cons]. unfold nextGenerationLabel. rewrite parse_format by done.
  rewrite wrapInt64_id by (unfold minInt64, maxInt64 in *; lia).
  unfold compareVersionLabels. rewrite parse_format by done. rewrite parse_format.
  - simpl. rewrite decide_False by lia. by rewrite decide_True by lia.
  - split; [done|]. constructor; [|done]. unfold minInt64, maxInt64 in *. lia.
Qed.

(** ** Comparison functions *)

(** A three-way comparison that is a total preorder. *)
Definition ordered3 {A} (cmp : A → A → Z) : Prop :=
  (∀ x y, cmp y x = - cmp x y) ∧ (∀ x y z, cmp x y ≤ 0 → cmp y z ≤ 0 → cmp x z ≤ 0).

(** The first comparison that decides. *)
Definition cmpThen {A} (f g : A → A → Z) (x y : A) : Z := if decide (f x y ≠ 0) then f x y else g x y.

Lemma ordered3_then {A} (f g : A → A → Z) : ordered3 f → ordered3 g → ordered3 (cmpThen f g).
Proof.
  intros [F1 F2] [G1 G2]. split.
  - intros x y. unfold cmpThen. rewrite (F1 x y), (G1 x y). repeat case_decide; lia.
  - intros x y z. unfold cmpThen. pose proof (F2 x y z). pose proof (F2 y z x). pose proof (F2 z x y).
    pose proof (F2 z y x). pose proof (F2 y x z). pose proof (F2 x z y).
    pose proof (F1 x y). pose proof (F1 y z). pose proof (F1 x z). pose proof (G2 x y z).
    repeat case_decide; lia.
Qed.

Lemma ordered3_Compare {A} (key : A → string) : ordered3 (λ x y, Compare (key x) (key y)).
Proof. split; intros; [apply Compare_antisym|by eapply Compare_trans]. Qed.

Lemma ordered3_label {A} (key : A → string) : ordered3 (λ x y, compareVersionLabels (key x) (key y)).
Proof. split; intros; [apply compareVersionLabels_antisym|by eapply compareVersionLabels_trans]. Qed.

Lemma Compare_ne s t : Compare s t ≠ 0 ↔ s ≠ t.
Proof. split; [intros H ->; by rewrite Compare_refl in H|]. intros H E. by apply H, Compare_eq. Qed.

(** The sort functions of the catalog are comparisons. *)
Definition versionCmp : CatalogVersion → CatalogVersion → Z :=
  cmpThen (λ x y, compareVersionLabels (VersionLabel x) (VersionLabel y))
    (cmpThen (λ x y, Compare (UploadedAt x) (UploadedAt y)) (λ x y, Compare (CID x) (CID y))).

Lemma versionLess_cmp x y : versionLess x y = bool_decide (versionCmp x y < 0).
Proof.
  unfold versionLess, versionCmp, cmpThen, ltb. case_decide; [done|].
  destruct (decide (UploadedAt x ≠ UploadedAt y)) as [H1|H1].
  - rewrite decide_True; [done|by apply Compare_ne].
  - rewrite decide_False; [done|by rewrite Compare_ne].
Qed.

Lemma versionCmp_ordered : ordered3 versionCmp.
Proof.
  apply ordered3_then; [apply ordered3_label|]. apply ordered3_then; apply ordered3_Compare.
Qed.

(** Labels are a sound sort key: printing and parsing are inverse on the
    labels the catalog builds, [compareVersionLabels] is antisymmetric and
    transitive on all strings, and the next generation of a label comes strictly
    after it (as long as its number fits an [int]). *)
Theorem version_labels_ordered :
  (∀ parts, partsOk parts → parseVersionLabel (formatVersionLabel parts) = Some parts) ∧
  (∀ l r, compareVersionLabels r l = - compareVersionLabels l r) ∧
  (∀ l m r, compareVersionLabels l m ≤ 0 → compareVersionLabels m r ≤ 0 → compareVersionLabels l r ≤ 0) ∧
  (∀ p parts, partsOk (p :: parts) → p < maxInt64 →
     compareVersionLabels (formatVersionLabel (p :: parts))
       (nextGenerationLabel (formatVersionLabel (p :: parts))) = -1).
Proof.
  split_and!; [apply parse_format|apply compareVersionLabels_antisym|
    apply compareVersionLabels_trans|apply next_label_greater].
Qed.
