(* ===== verification/CatalogTree.v ===== *)
(** * The labelling walk of the catalog

    [normalizeVersions] terminates, keeps every version exactly once, and gives
    the label that the position in the tree of updates determines. *)

From Stdlib Require Import Ascii Sorted.
From coqutil Require Import Datatypes.RecordSetters.
From stdpp Require Import strings numbers base gmap fin_maps list.
From S2P Require Import Prelude GoStrings GoSort Catalog.
Import DoubleBraceUpdate.
Local Open Scope Z_scope.

Lemma size_list_to_set_le (l : list string) : (size (list_to_set l : gset string) ≤ length l)%nat.
Proof.
  induction l as [|x l IH]; [done|]. rewrite list_to_set_cons, size_union_alt, size_singleton. simpl.
  pose proof (subseteq_size (list_to_set l ∖ {[ x ]}) (list_to_set l : gset string) ltac:(set_solver)). lia.
Qed.

(** ** The walk *)

Section walk.
Variable versions : list CatalogVersion.

Abbreviation cids := (list_to_set (map CID versions) : gset string).

(** The labelled CIDs are those of the versions reached, each once. *)
Definition wfWalk (st : walkState) : Prop :=
  dom (labelByCID st) = list_to_set (map CID (ordered st)) ∧
  NoDup (map CID (ordered st)) ∧ Forall (λ v, v ∈ versions) (ordered st).

(** [st'] continues [st]. *)
Definition extends (st st' : walkState) : Prop :=
  labelByCID st ⊆ labelByCID st' ∧ ∃ new, ordered st' = ordered st ++ new.

Lemma extends_refl st : extends st st.
Proof. split; [done|]. exists []. by rewrite app_nil_r. Qed.

Lemma extends_trans st1 st2 st3 : extends st1 st2 → extends st2 st3 → extends st1 st3.
Proof.
  intros [H1 [n1 E1]] [H2 [n2 E2]]. split; [by etrans|]. exists (n1 ++ n2). by rewrite E2, E1, app_assoc.
Qed.

(** The CIDs that are still without a label. *)
Definition pending (st : walkState) : nat := size (cids ∖ dom (labelByCID st)).

Lemma pending_mono st st' : extends st st' → (pending st' ≤ pending st)%nat.
Proof. intros [H _]. unfold pending. apply subseteq_size. apply subseteq_dom in H. set_solver. Qed.

Lemma childrenOf_in c v : v ∈ childrenOf versions c → v ∈ versions ∧ TrimSpace (PreviousCID v) = c.
Proof.
  unfold childrenOf. case_decide; [by intros ?%not_elem_of_nil|]. rewrite sortBy_Permutation.
  intros [H1 H2]%list_elem_of_filter. done.
Qed.

(** Adding a label for a new version. *)
Definition addLabel (v : CatalogVersion) (label : string) (st : walkState) : walkState :=
  mkWalk (<[CID v := label]> (labelByCID st)) (ordered st ++ [v]).

Lemma addLabel_wf v label st :
  v ∈ versions → wfWalk st → labelByCID st !! CID v = None →
  wfWalk (addLabel v label st) ∧ extends st (addLabel v label st) ∧
  (pending (addLabel v label st) < pending st)%nat.
Proof.
  intros Hv (H1&H2&H3) Hn. split_and!.
  - split_and!; simpl.
    + rewrite dom_insert_L, H1, map_app, list_to_set_app_L. simpl. set_solver.
    + rewrite map_app. apply NoDup_app. split_and!; [done| |apply NoDup_singleton].
      intros x Hx Hx'. apply list_elem_of_singleton in Hx' as ->.
      apply not_elem_of_dom in Hn. rewrite H1 in Hn. set_solver.
    + apply Forall_app. split; [done|]. by apply Forall_singleton.
  - split; [by apply insert_subseteq|]. by exists [v].
  - unfold pending. apply subset_size. simpl. rewrite dom_insert_L. apply not_elem_of_dom in Hn.
    assert (CID v ∈ cids) as Hin by (apply elem_of_list_to_set, list_elem_of_fmap; eauto).
    split; [set_solver|]. intros Hs. specialize (Hs (CID v)). set_solver.
Qed.

(** What a walk from [v] leaves. *)
Definition reached (v : CatalogVersion) (st st' : walkState) : Prop :=
  wfWalk st' ∧ extends st st' ∧ is_Some (labelByCID st' !! CID v).

Lemma walkBranches_total rec fuel continuation off branches st :
  (∀ v label st, v ∈ versions → wfWalk st → (pending st < fuel)%nat →
     ∃ st', rec v label st = Ret st' ∧ reached v st st') →
  Forall (λ v, v ∈ versions) branches → wfWalk st → (pending st < fuel)%nat →
  ∃ st', walkBranches rec continuation off branches st = Ret st' ∧ wfWalk st' ∧ extends st st'.
Proof.
  intros Hrec Hb. revert off st. induction Hb as [|b rest Hb Hrest IH]; intros off st Hw Hp; simpl.
  - eauto using extends_refl.
  - destruct (Hrec b (continuation +:+ "." +:+ Itoa (off + 1)) st Hb Hw Hp) as (st1&->&Hw1&He1&_). simpl.
    pose proof (pending_mono _ _ He1). destruct (IH (off + 1) st1 Hw1 ltac:(lia)) as (st2&->&Hw2&He2).
    eauto using extends_trans.
Qed.

Lemma walkTree_total fuel v label st :
  v ∈ versions → wfWalk st → (pending st < fuel)%nat →
  ∃ st', walkTree versions fuel v label st = Ret st' ∧ reached v st st'.
Proof.
  revert v label st. induction fuel as [|fuel IH]; intros v label st Hv Hw Hp; [lia|].
  cbn [walkTree]. case_decide as Hl; [exists st; split; [done|]; split; [done|]; split; [apply extends_refl|done]|].
  apply (proj2 (eq_None_not_Some _)) in Hl. fold (addLabel v label st).
  destruct (addLabel_wf v label st Hv Hw Hl) as (Hw1&He1&Hp1).
  assert (labelByCID (addLabel v label st) !! CID v = Some label) as Hv1 by apply lookup_insert_eq.
  pose proof (childrenOf_in (CID v)) as Hch.
  destruct (childrenOf versions (CID v)) as [|c rest]; [exists (addLabel v label st); split; [done|]; split; [done|]; split; [done|eauto]|].
  destruct (IH c (nextGenerationLabel label) (addLabel v label st)) as (st2&->&Hw2&He2&_);
    [apply Hch; by left|done|lia|]. simpl.
  pose proof (pending_mono _ _ He2).
  destruct (walkBranches_total (walkTree versions fuel) fuel (nextGenerationLabel label) 0 rest st2 IH)
    as (st3&->&Hw3&He3); [|done|lia|].
  { apply Forall_forall. intros x Hx. apply Hch. by right. }
  exists st3. split; [done|]. split; [done|]. split; [eauto using extends_trans|].
  exists label. eapply lookup_weaken; [|apply He3]. eapply lookup_weaken; [done|apply He2].
Qed.

Lemma pending_depth st : (pending st < depth versions)%nat.
Proof.
  unfold pending, depth. apply Nat.lt_succ_r. etrans; [apply subseteq_size, subseteq_difference_l; reflexivity|].
  rewrite <- (length_map CID versions). apply size_list_to_set_le.
Qed.

Lemma walkOrphans_total rest n st :
  Forall (λ v, v ∈ versions) rest → wfWalk st →
  ∃ st', walkOrphans versions rest n st = Ret st' ∧ wfWalk st' ∧ extends st st' ∧
    Forall (λ v, is_Some (labelByCID st' !! CID v)) rest.
Proof.
  intros Hr. revert n st. induction Hr as [|v rest Hv Hrest IH]; intros n st Hw; cbn [walkOrphans].
  - exists st. split_and!; [done|done|apply extends_refl|done].
  - case_decide as Hl.
    + destruct (IH n st Hw) as (st'&->&Hw'&He&Hall). exists st'. split_and!; [done..|].
      constructor; [|done]. destruct Hl as [l Hl]. exists l. by eapply lookup_weaken, He.
    + cbv zeta. destruct (walkTree_total (depth versions) v ("v" +:+ Itoa (Z.of_nat (length versions) + 1 +
        n * (Z.of_nat (length versions) + 1))) st Hv Hw (pending_depth st)) as (st1&->&Hw1&He1&[l Hl1]). simpl.
      destruct (IH (n + 1) st1 Hw1) as (st'&->&Hw'&He&Hall). exists st'. split_and!; [done|done|by eapply extends_trans|].
      constructor; [|done]. exists l. by eapply lookup_weaken, He.
Qed.

(** *** The labels *)

(** The label that the walk gives the [i]-th child of a version labelled [label]: a notation for the proofs about
    the walk.  What the labels should be is [placeLabel] below, which uses none of the code's functions. *)
Definition branchLabel (label : string) (i : nat) : string :=
  match i with
  | O => nextGenerationLabel label
  | S _ => nextGenerationLabel label +:+ "." +:+ Itoa (Z.of_nat i)
  end.

(** The calls for the children from the [i]-th on. *)
Fixpoint runKids (rec : CatalogVersion → string → walkState → outcome walkState) (label : string)
    (i : nat) (kids : list CatalogVersion) (st : walkState) : outcome walkState :=
  match kids with
  | [] => Ret st
  | k :: rest => st' ← rec k (branchLabel label i) st; runKids rec label (S i) rest st'
  end.

Lemma walkBranches_runKids rec label i kids st :
  walkBranches rec (nextGenerationLabel label) (Z.of_nat i) kids st = runKids rec label (S i) kids st.
Proof.
  revert i st. induction kids as [|k rest IH]; intros i st; simpl; [done|].
  replace (Z.of_nat i + 1) with (Z.of_nat (S i)) by lia.
  destruct (rec k _ st); simpl; [apply IH|done|done].
Qed.

Lemma walkTree_runKids fuel v label st :
  labelByCID st !! CID v = None →
  walkTree versions (S fuel) v label st
  = runKids (walkTree versions fuel) label 0 (childrenOf versions (CID v)) (addLabel v label st).
Proof.
  intros Hn. cbn [walkTree]. rewrite decide_False by (by apply eq_None_not_Some).
  destruct (childrenOf versions (CID v)) as [|c rest]; [done|]. simpl.
  destruct (walkTree versions fuel c _ _) as [st2| |]; simpl; [|done|done].
  apply (walkBranches_runKids _ _ 0).
Qed.

Hypothesis cids_distinct : NoDup (map CID versions).

Lemma same_cid x y : x ∈ versions → y ∈ versions → CID x = CID y → x = y.
Proof.
  revert cids_distinct. induction versions as [|z l IH]; intros Hnd Hx Hy E; [by apply not_elem_of_nil in Hx|].
  apply NoDup_cons in Hnd as [Hz Hnd].
  apply elem_of_cons in Hx as [->|Hx]; apply elem_of_cons in Hy as [->|Hy]; [done| | |by apply IH].
  - exfalso. apply Hz. rewrite E. by apply list_elem_of_fmap_2.
  - exfalso. apply Hz. rewrite <- E. by apply list_elem_of_fmap_2.
Qed.

(** [x] got its label between [st] and [st']. *)
Definition newly (st st' : walkState) (x : string) : Prop :=
  labelByCID st !! x = None ∧ is_Some (labelByCID st' !! x).

(** New labels are those of [starts] or hang below a new label. *)
Definition hangs (starts : list string) (st st' : walkState) : Prop :=
  ∀ x, newly st st' x → x ∈ starts ∨
    ∃ y, y ∈ versions ∧ CID y = x ∧ newly st st' (TrimSpace (PreviousCID y)).

(** The children of newly labelled versions have the labels of their position. *)
Definition labelsBelow (starts : list string) (st st' : walkState) : Prop :=
  ∀ x lx i c, labelByCID st !! x = None → labelByCID st' !! x = Some lx →
    childrenOf versions x !! i = Some c → labelByCID st !! CID c = None → (CID c ∉ starts) →
    labelByCID st' !! CID c = Some (branchLabel lx i).

Definition labelled (starts : list string) (st st' : walkState) : Prop :=
  labelByCID st ⊆ labelByCID st' ∧ hangs starts st st' ∧ labelsBelow starts st st'.

Lemma newly_split st st1 st' x :
  labelByCID st ⊆ labelByCID st1 → labelByCID st1 ⊆ labelByCID st' →
  newly st st' x → newly st st1 x ∨ newly st1 st' x.
Proof.
  intros H1 H2 [Hn Hs]. destruct (labelByCID st1 !! x) eqn:E; [left; split; eauto|by right].
Qed.

Lemma newly_mono st st0 st' st1 x :
  labelByCID st0 ⊆ labelByCID st → labelByCID st1 ⊆ labelByCID st' → newly st st1 x → newly st0 st' x.
Proof.
  intros H0 H1 [Hn [l Hl]]. split; [|exists l; by eapply lookup_weaken].
  destruct (labelByCID st0 !! x) eqn:E; [|done]. by rewrite (lookup_weaken _ _ _ _ E H0) in Hn.
Qed.

(** The parent of a version. *)
Lemma child_parent x i c : childrenOf versions x !! i = Some c → c ∈ versions ∧ TrimSpace (PreviousCID c) = x.
Proof. intros H. apply childrenOf_in. by eapply list_elem_of_lookup_2. Qed.

(** Two stretches of a walk. *)
Lemma labelled_app s1 s2 st st1 st' :
  labelled s1 st st1 → labelled s2 st1 st' → labelled (s1 ++ s2) st st'.
Proof.
  intros (E1&H1&L1) (E2&H2&L2). split; [by etrans|]. split.
  - intros x Hx. destruct (newly_split st st1 st' x E1 E2 Hx) as [Hn|Hn].
    + destruct (H1 x Hn) as [?|(y&Hy&Ey&Hpar)]; [left; set_solver|].
      right. exists y. split_and!; [done..|]. by apply (newly_mono st st st' st1).
    + destruct (H2 x Hn) as [?|(y&Hy&Ey&Hpar)]; [left; set_solver|].
      right. exists y. split_and!; [done..|]. by apply (newly_mono st1 st st' st').
  - intros x lx i c Hx Hlx Hc Hcn Hnot. destruct (child_parent x i c Hc) as [Hcv Hpar].
    destruct (labelByCID st1 !! x) as [l1|] eqn:Ex1.
    + pose proof (lookup_weaken _ _ _ _ Ex1 E2) as Ex2. rewrite Hlx in Ex2. injection Ex2 as <-.
      eapply lookup_weaken; [|done]. apply (L1 x lx i c); try done. set_solver.
    + apply (L2 x lx i c); try done; [|set_solver].
      destruct (labelByCID st1 !! CID c) as [lc|] eqn:Ec; [|done]. exfalso.
      destruct (H1 (CID c)) as [?|(y&Hy&Ey&Hn)]; [split; eauto|set_solver|].
      assert (y = c) as -> by (by apply same_cid). rewrite Hpar in Hn. destruct Hn as [_ [? Hn]]. congruence.
Qed.

Lemma labelled_nil st : labelled [] st st.
Proof.
  split; [done|]. split.
  - intros x [Hn [l Hl]]. congruence.
  - intros x lx i c Hx Hlx. congruence.
Qed.

(** The children of one version, called in turn. *)
Lemma runKids_labels rec label parent i kids st st' :
  (∀ v l s s', v ∈ versions → rec v l s = Ret s' →
     labelled [CID v] s s' ∧ (labelByCID s !! CID v = None → labelByCID s' !! CID v = Some l)) →
  (∀ k, k ∈ kids → k ∈ versions ∧ TrimSpace (PreviousCID k) = parent) → NoDup (map CID kids) →
  is_Some (labelByCID st !! parent) → runKids rec label i kids st = Ret st' →
  labelled (map CID kids) st st' ∧
  (∀ (j : nat) k, kids !! j = Some k → labelByCID st !! CID k = None →
     labelByCID st' !! CID k = Some (branchLabel label (i + j))).
Proof.
  intros Hrec Hk. revert i st Hk. induction kids as [|k kids IH]; intros i st Hk Hnd Hpar H; simpl in H.
  - injection H as <-. split; [apply labelled_nil|done].
  - apply bind_ret_inv in H as (st1&E1&H). simpl in Hnd. apply NoDup_cons in Hnd as [Hk1 Hnd].
    destruct (Hk k) as [Hkv Hkp]; [by left|]. destruct (Hrec _ _ _ _ Hkv E1) as [HL1 Hl1].
    pose proof HL1 as (Hsub1&Hh1&_).
    destruct (IH (S i) st1) as [HL2 Hl2]; [intros; apply Hk; by right|done| |done|].
    { destruct Hpar as [l Hl]. exists l. by eapply lookup_weaken. }
    split; [by apply (labelled_app [CID k] (map CID kids) st st1)|].
    intros [|j] k' Hj Hn; simpl in Hj.
    + injection Hj as <-. rewrite Nat.add_0_r. eapply lookup_weaken; [by apply Hl1|apply HL2].
    + replace (i + S j)%nat with (S i + j)%nat by lia. apply Hl2; [done|].
      destruct (labelByCID st1 !! CID k') as [l|] eqn:El; [|done]. exfalso.
      assert (k' ∈ kids) as Hin by (by eapply list_elem_of_lookup_2).
      destruct (Hk k') as [Hkv' Hkp']; [by right|].
      destruct (Hh1 (CID k')) as [E|(y&Hy&Ey&[Hny _])]; [split; eauto| |].
      * apply list_elem_of_singleton in E. apply Hk1. rewrite <- E. by apply list_elem_of_fmap_2.
      * assert (y = k') as -> by (by apply same_cid). rewrite Hkp' in Hny. destruct Hpar. congruence.
Qed.

Lemma childrenOf_NoDup x : NoDup (map CID (childrenOf versions x)).
Proof.
  unfold childrenOf. case_decide; [by apply NoDup_nil_2|]. rewrite sortBy_Permutation.
  eapply sublist_NoDup; [exact cids_distinct|]. apply fmap_sublist, sublist_filter.
Qed.

Lemma walkTree_labels fuel v label st st' :
  v ∈ versions → walkTree versions fuel v label st = Ret st' →
  labelled [CID v] st st' ∧ (labelByCID st !! CID v = None → labelByCID st' !! CID v = Some label).
Proof.
  revert v label st st'. induction fuel as [|fuel IH]; intros v label st st' Hv H; [done|].
  destruct (labelByCID st !! CID v) as [l|] eqn:El.
  - cbn [walkTree] in H. rewrite decide_True in H by eauto. injection H as <-.
    split; [|done]. destruct (labelled_nil st) as (H1&H2&H3). split; [done|]. split.
    + intros x [Hn [l' Hl']]. congruence.
    + intros x lx i c Hx Hlx. congruence.
  - rewrite walkTree_runKids in H by done.
    destruct (runKids_labels (walkTree versions fuel) label (CID v) 0 (childrenOf versions (CID v))
      (addLabel v label st) st' IH) as [(Hsub&Hh&Hlb) Hkids];
      [apply childrenOf_in|apply childrenOf_NoDup|simpl; rewrite lookup_insert_eq; eauto|done|].
    assert (labelByCID st ⊆ labelByCID (addLabel v label st)) as Hs0 by (by apply insert_subseteq).
    assert (labelByCID st' !! CID v = Some label) as Hlv
      by (eapply lookup_weaken, Hsub; apply lookup_insert_eq).
    assert (∀ x, labelByCID st !! x = None → x ≠ CID v → labelByCID (addLabel v label st) !! x = None) as Hadd
      by (intros x Hx Hne; simpl; by rewrite lookup_insert_ne).
    split; [|done]. split; [by etrans|]. split.
    + intros x Hx. destruct (decide (x = CID v)) as [->|Hne]; [left; by left|]. right.
      destruct (Hh x) as [Hk|(y&Hy&Ey&Hpar)]; [split; [by apply Hadd, Hne; apply Hx|apply Hx]| |].
      * apply list_elem_of_fmap in Hk as (k&->&Hk). destruct (childrenOf_in _ _ Hk) as [Hkv Hkp].
        exists k. split_and!; [done|done|]. rewrite Hkp. split; eauto.
      * exists y. split_and!; [done..|]. by apply (newly_mono (addLabel v label st) st st' st').
    + intros x lx i c Hx Hlx Hc Hcn Hnot. destruct (child_parent x i c Hc) as [Hcv Hpar].
      assert (CID c ≠ CID v) as Hcne by set_solver.
      destruct (decide (x = CID v)) as [->|Hne].
      * rewrite Hlv in Hlx. injection Hlx as <-. apply (Hkids i c); auto.
      * apply (Hlb x lx i c); auto. intros (k&Ek&Hk)%list_elem_of_fmap.
        destruct (childrenOf_in _ _ Hk) as [Hkv Hkp]. assert (c = k) as -> by (by apply same_cid). congruence.
Qed.
End walk.

(** ** The normalised file *)

Definition filled (file : CatalogFile) : list CatalogVersion := map (fillVersion file) (Versions file).

Lemma fillVersion_CID file v : CID (fillVersion file v) = CID v.
Proof. by destruct v. Qed.

Lemma filled_CIDs file : map CID (filled file) = map CID (Versions file).
Proof. unfold filled. rewrite map_map. apply map_ext, fillVersion_CID. Qed.

Lemma labelVersion_CID labels v : CID (labelVersion labels v) = CID v.
Proof. by destruct v. Qed.

Lemma findVersionIndex_in versions c :
  match findVersionIndex versions c with
  | Some i => ∃ v, versions !! i = Some v ∧ CID v = c
  | None => c ∉ map CID versions
  end.
Proof.
  induction versions as [|v versions IH]; simpl; [apply not_elem_of_nil|].
  case_decide as E; [eauto|]. destruct (findVersionIndex versions c) as [i|]; simpl; [done|].
  apply not_elem_of_cons. split; [congruence|done].
Qed.

(** The version the walk starts from. *)
Definition startOf (file : CatalogFile) : option CatalogVersion :=
  filled file !! default 0%nat (findVersionIndex (Versions file) (fRootCID file)).

Lemma startOf_ex file :
  Versions file ≠ [] → ∃ v, startOf file = Some v ∧ (fRootCID file ∈ map CID (Versions file) → CID v = fRootCID file).
Proof.
  intros Hne. unfold startOf, filled. pose proof (findVersionIndex_in (Versions file) (fRootCID file)) as Hf.
  destruct (findVersionIndex (Versions file) (fRootCID file)) as [i|]; simpl.
  - destruct Hf as (v&Hv&Ev). exists (fillVersion file v). rewrite list_lookup_fmap, Hv. split; [done|].
    intros _. by rewrite fillVersion_CID.
  - destruct (Versions file) as [|v vs]; [done|]. exists (fillVersion file v). done.
Qed.

(** The state of the walk that labels the versions of a file. *)
Lemma normalizeVersions_walk file :
  Versions file ≠ [] →
  ∃ v st st', startOf file = Some v ∧
    walkTree (filled file) (depth (filled file)) v "v1" (mkWalk ∅ []) = Ret st ∧
    wfWalk (filled file) st' ∧ labelByCID st ⊆ labelByCID st' ∧
    (∀ c, c ∈ map CID (filled file) → is_Some (labelByCID st' !! c)) ∧
    normalizeVersions file
    = Ret (file {{ Versions := sortBy versionLess (map (labelVersion (labelByCID st')) (ordered st')) }}).
Proof.
  intros Hne. destruct (startOf_ex file Hne) as (v&Hv&_).
  assert (v ∈ filled file) as Hin by (by eapply list_elem_of_lookup_2).
  assert (wfWalk (filled file) (mkWalk ∅ [])) as Hw0.
  { split_and!; [apply dom_empty_L|apply NoDup_nil_2|apply Forall_nil_2]. }
  destruct (walkTree_total (filled file) (depth (filled file)) v "v1" (mkWalk ∅ []) Hin Hw0 (pending_depth _ _))
    as (st&E1&Hw1&_&_).
  assert (∃ st', (if decide (length (ordered st) < length (filled file))%nat
                  then walkOrphans (filled file) (filled file) 0 st else Ret st) = Ret st' ∧
    wfWalk (filled file) st' ∧ labelByCID st ⊆ labelByCID st' ∧
    ∀ c, c ∈ map CID (filled file) → is_Some (labelByCID st' !! c)) as (st'&E2&Hw2&Hsub&Hall).
  { case_decide as Hlen.
    - destruct (walkOrphans_total (filled file) (filled file) 0 st) as (st'&E2&Hw2&[Hs _]&Hall);
        [by apply Forall_forall|done|]. exists st'. split_and!; [done..|].
      intros c (x&->&Hx)%list_elem_of_fmap. rewrite Forall_forall in Hall. by apply Hall.
    - exists st. split_and!; [done..|]. intros c Hc. apply elem_of_dom.
      destruct Hw1 as (Hd&Hnd&Hv1). rewrite Hd. apply elem_of_list_to_set.
      assert (map CID (ordered st) ⊆ map CID (filled file)) as Hsub.
      { intros x (y&->&Hy)%list_elem_of_fmap. rewrite Forall_forall in Hv1. by apply list_elem_of_fmap_2, Hv1. }
      assert (map CID (ordered st) ≡ₚ map CID (filled file)) as HP.
      { apply submseteq_length_Permutation; [by apply NoDup_submseteq|rewrite !length_map; lia]. }
      by rewrite HP. }
  exists v, st, st'. split_and!; [done..|]. unfold normalizeVersions.
  destruct (Versions file) as [|v0 vs] eqn:Ev; [done|]. unfold filled in *. rewrite Ev in *.
  rewrite (index_ret _ _ v); [|lia|by rewrite Nat2Z.id; unfold startOf, filled in Hv; rewrite Ev in Hv].
  rewrite bind_ret_l, E1, bind_ret_l, E2. done.
Qed.

Lemma startOf_CID file v :
  startOf file = Some v → fRootCID file ∈ map CID (Versions file) → CID v = fRootCID file.
Proof.
  intros Hv Hin. assert (Versions file ≠ []) as Hne by (intros E; rewrite E in Hin; by apply not_elem_of_nil in Hin).
  destruct (startOf_ex file Hne) as (v'&Hv'&Hr). rewrite Hv in Hv'. injection Hv' as ->. auto.
Qed.

(** The label a version list gives a CID. *)
Definition labelOf (versions : list CatalogVersion) (c : string) : option string :=
  VersionLabel <$> (findVersionIndex versions c ≫= λ i, versions !! i).

Lemma labelOf_sorted (labels : gmap string string) (reached_ : list CatalogVersion) c :
  dom labels = list_to_set (map CID reached_) →
  labelOf (sortBy versionLess (map (labelVersion labels) reached_)) c = labels !! c.
Proof.
  intros Hd. unfold labelOf. set (out := sortBy versionLess (map (labelVersion labels) reached_)).
  assert (∀ v, v ∈ out → labels !! CID v = Some (VersionLabel v)) as Hv.
  { intros v Hin. unfold out in Hin. rewrite sortBy_Permutation in Hin.
    apply list_elem_of_fmap in Hin as (x&->&Hx). rewrite labelVersion_CID.
    assert (CID x ∈ dom labels) as [l Hl]%elem_of_dom.
    { rewrite Hd. apply elem_of_list_to_set, list_elem_of_fmap_2, Hx. }
    destruct x. rsimpl. by rewrite Hl. }
  pose proof (findVersionIndex_in out c) as Hf. destruct (findVersionIndex out c) as [i|]; simpl.
  - destruct Hf as (v&Ev&<-). rewrite Ev. simpl. symmetry. apply Hv. by eapply list_elem_of_lookup_2.
  - symmetry. apply not_elem_of_dom. rewrite Hd, elem_of_list_to_set. intros (x&->&Hx)%list_elem_of_fmap.
    apply Hf. unfold out. rewrite sortBy_Permutation. apply list_elem_of_fmap.
    exists (labelVersion labels x). rewrite labelVersion_CID. split; [done|]. by apply list_elem_of_fmap_2.
Qed.

Lemma fill_label_fields file labels v :
  let v' := labelVersion labels (fillVersion file v) in
  (CID v', PreviousCID v', MinerIndex v', SizeBytes v', UploadedAt v')
  = (CID v, PreviousCID v, MinerIndex v, SizeBytes v, UploadedAt v).
Proof. by destruct v. Qed.

Lemma versionLess_asym x y : versionLess x y = true → versionLess y x = false.
Proof.
  rewrite !versionLess_cmp, bool_decide_eq_true, bool_decide_eq_false.
  destruct versionCmp_ordered as [HA _]. rewrite (HA x y). lia.
Qed.

Lemma versionLess_trans x y z : versionLess y x = false → versionLess z y = false → versionLess z x = false.
Proof.
  rewrite !versionLess_cmp, !bool_decide_eq_false. destruct versionCmp_ordered as [HA HT].
  pose proof (HA x y). pose proof (HA y z). pose proof (HA x z). pose proof (HT x y z). lia.
Qed.

(** What normalising a file keeps and establishes. *)
Definition normalized (file file' : CatalogFile) : Prop :=
    (fRootCID file', DisplayName file', Extension file', CreatedAt file')
      = (fRootCID file, DisplayName file, Extension file, CreatedAt file) ∧
    (Versions file ≠ [] → NoDup (map CID (Versions file'))) ∧
    (∀ c, c ∈ map CID (Versions file') ↔ c ∈ map CID (Versions file)) ∧
    (Versions file ≠ [] → ∀ v', v' ∈ Versions file' →
      PreviousVersionLabel v' = default "" (labelOf (Versions file') (PreviousCID v')) ∧
      ∃ v, v ∈ Versions file ∧
        (CID v', PreviousCID v', MinerIndex v', SizeBytes v', UploadedAt v')
        = (CID v, PreviousCID v, MinerIndex v, SizeBytes v, UploadedAt v)) ∧
    (Versions file ≠ [] → StronglySorted (notAfter versionLess) (Versions file')).

Lemma normalizeVersions_normalized file :
  ∃ file', normalizeVersions file = Ret file' ∧ normalized file file'.
Proof.
  destruct (decide (Versions file = [])) as [E|Hne].
  { exists file. split; [|by unfold normalized; rewrite E]. unfold normalizeVersions. by rewrite E. }
  destruct (normalizeVersions_walk file Hne) as (v&st&st'&_&_&(Hd&Hnd&Hin)&_&Hall&->).
  eexists. split; [reflexivity|]. split; [by destruct file|].
  replace (Versions (file {{ Versions := sortBy versionLess (map (labelVersion (labelByCID st')) (ordered st')) }}))
    with (sortBy versionLess (map (labelVersion (labelByCID st')) (ordered st'))) by (by destruct file).
  assert (map CID (sortBy versionLess (map (labelVersion (labelByCID st')) (ordered st'))) ≡ₚ map CID (ordered st')) as HP.
  { rewrite sortBy_Permutation, map_map. by rewrite (map_ext _ CID) by (intros; apply labelVersion_CID). }
  split_and!.
  - intros _. by rewrite HP.
  - intros c. rewrite HP, <- filled_CIDs. split.
    + intros (x&->&Hx)%list_elem_of_fmap. rewrite Forall_forall in Hin. by apply list_elem_of_fmap_2, Hin.
    + intros Hc%Hall%elem_of_dom. rewrite Hd in Hc. by apply elem_of_list_to_set in Hc.
  - intros _ v' Hv'. rewrite labelOf_sorted by done. rewrite sortBy_Permutation in Hv'.
    apply list_elem_of_fmap in Hv' as (x&->&Hx). split; [by destruct x|].
    rewrite Forall_forall in Hin. apply Hin in Hx. apply list_elem_of_fmap in Hx as (y&->&Hy).
    exists y. split; [done|]. apply fill_label_fields.
  - intros _. apply (sortBy_sorted _ (λ _, True)); [|intros x y z _ _ _; apply versionLess_trans|by apply Forall_true].
    intros x y _ _. apply versionLess_asym.
Qed.

(** Normalising a file loses nothing: [normalizeVersions] always ends, also
    on cyclic or orphaned version data, and keeps the file's own fields; the
    result has every CID of the input exactly once and no other, each version
    keeps its CID, predecessor, miner, size and upload time, its previous label is
    the label of the version it names (empty when there is none), and the versions
    are sorted by label, upload time and CID. *)
Theorem normalizeVersions_keeps_versions file :
  ∃ file', normalizeVersions file = Ret file' ∧
    (fRootCID file', DisplayName file', Extension file', CreatedAt file')
      = (fRootCID file, DisplayName file, Extension file, CreatedAt file) ∧
    (Versions file ≠ [] → NoDup (map CID (Versions file'))) ∧
    (∀ c, c ∈ map CID (Versions file') ↔ c ∈ map CID (Versions file)) ∧
    (Versions file ≠ [] → ∀ v', v' ∈ Versions file' →
      PreviousVersionLabel v' = default "" (labelOf (Versions file') (PreviousCID v')) ∧
      ∃ v, v ∈ Versions file ∧
        (CID v', PreviousCID v', MinerIndex v', SizeBytes v', UploadedAt v')
        = (CID v, PreviousCID v, MinerIndex v, SizeBytes v, UploadedAt v)) ∧
    (Versions file ≠ [] → StronglySorted (notAfter versionLess) (Versions file')).
Proof. apply normalizeVersions_normalized. Qed.

(** The versions that updates lead to from the root. *)
Inductive descends (versions : list CatalogVersion) (root : string) : string → Prop :=
| descends_root : descends versions root root
| descends_child x i c : descends versions root x → childrenOf versions x !! i = Some c →
    CID c ≠ root → descends versions root (CID c).

Lemma normalizeVersions_labelled file :
  NoDup (map CID (Versions file)) → fRootCID file ∈ map CID (Versions file) →
  ∃ file', normalizeVersions file = Ret file' ∧
    labelOf (Versions file') (fRootCID file) = Some "v1" ∧
    ∀ x, descends (filled file) (fRootCID file) x →
      ∃ lx, labelOf (Versions file') x = Some lx ∧
        ∀ i c, childrenOf (filled file) x !! i = Some c → CID c ≠ fRootCID file →
          labelOf (Versions file') (CID c) = Some (branchLabel lx i).
Proof.
  intros Hnd Hroot. assert (Versions file ≠ []) as Hne by (intros E; rewrite E in Hroot; by apply not_elem_of_nil in Hroot).
  destruct (normalizeVersions_walk file Hne) as (v&st&st'&Hv&Ew&(Hd&_&_)&Hsub&_&->).
  eexists. split; [reflexivity|].
  replace (Versions (file {{ Versions := sortBy versionLess (map (labelVersion (labelByCID st')) (ordered st')) }}))
    with (sortBy versionLess (map (labelVersion (labelByCID st')) (ordered st'))) by (by destruct file).
  pose proof (startOf_CID file v Hv Hroot) as Hvc.
  rewrite <- filled_CIDs in Hnd.
  destruct (walkTree_labels (filled file) Hnd (depth (filled file)) v "v1" (mkWalk ∅ []) st) as [(_&_&HL) Hl];
    [by eapply list_elem_of_lookup_2|done|]. rewrite Hvc in HL, Hl.
  assert (∀ c l, labelByCID st !! c = Some l →
    labelOf (sortBy versionLess (map (labelVersion (labelByCID st')) (ordered st'))) c = Some l) as Hout.
  { intros c l Hc. rewrite labelOf_sorted by done. by eapply lookup_weaken. }
  assert (∀ x lx i c, labelByCID st !! x = Some lx → childrenOf (filled file) x !! i = Some c →
    CID c ≠ fRootCID file → labelByCID st !! CID c = Some (branchLabel lx i)) as Hchild.
  { intros x lx i c Hx Hc Hcr. apply (HL x lx i c); [done..|]. set_solver. }
  split; [apply Hout, Hl; done|]. intros x Hx.
  assert (∃ lx, labelByCID st !! x = Some lx) as [lx Hlx].
  { induction Hx as [|x i c Hx [lx IH] Hc Hcr]; [eauto|]. eexists. by eapply Hchild. }
  exists lx. split; [by apply Hout|]. intros i c Hc Hcr. by eapply Hout, Hchild.
Qed.

(** *** The place of a version in the tree of updates *)

(** [c] is an update of the version [x]. *)
Definition isUpdateOf (versions : list CatalogVersion) (x : string) (c : CatalogVersion) : Prop :=
  c ∈ versions ∧ TrimSpace (PreviousCID c) = x ∧ x ≠ "".

(** Earlier uploads come first; for equal times the name of the source and then the CID decide. *)
Definition comesBefore (u v : CatalogVersion) : bool :=
  ltb (UploadedAt u) (UploadedAt v) || bool_decide (UploadedAt u = UploadedAt v) &&
  (ltb (SourceName u) (SourceName v) || bool_decide (SourceName u = SourceName v) && ltb (CID u) (CID v)).

(** How many updates of [x] come before [c]. *)
Definition earlierUpdates (versions : list CatalogVersion) (x : string) (c : CatalogVersion) : nat :=
  length (filter (λ u, TrimSpace (PreviousCID u) = x ∧ comesBefore u c = true) versions).

(** [x] is reached from the root by [g - 1] updates; [bs] are the numbers of the branches that were taken on the
    way, where the first update of a version is no branch. *)
Inductive placed (versions : list CatalogVersion) (root : string) : string → Z → list Z → Prop :=
| placed_root : placed versions root root 1 []
| placed_update x g bs c : placed versions root x g bs → isUpdateOf versions x c → CID c ≠ root →
    placed versions root (CID c) (g + 1)
      (match earlierUpdates versions x c with O => bs | i => bs ++ [Z.of_nat i] end).

Definition placeLabel (g : Z) (bs : list Z) : string := "v" +:+ Join (map Itoa (g :: bs)) ".".

Lemma sorted_position {A} (less : A → A → bool) l i c : StronglySorted (notAfter less) l →
  (∀ x, less x x = false) → (∀ x y, x ∈ l → y ∈ l → x ≠ y → less y x = false → less x y = true) → NoDup l →
  l !! i = Some c → i = length (filter (λ u, less u c = true) l).
Proof.
  intros Hs Hirr. revert i. induction Hs as [|a l Hs IH Ha]; intros i Htot Hnd Hi; [done|].
  apply NoDup_cons in Hnd as [Hn Hnd]. rewrite Forall_forall in Ha. rewrite filter_cons. destruct i as [|i]; simpl in Hi.
  - injection Hi as ->. rewrite decide_False by (rewrite Hirr; done).
    destruct (filter _ l) as [|y ys] eqn:E; [done|]. assert (y ∈ filter (λ u, less u c = true) l) as Hy by (rewrite E; left).
    apply list_elem_of_filter in Hy as [H1 H2]. specialize (Ha y H2). unfold notAfter in Ha. congruence.
  - assert (c ∈ l) as Hc by (by eapply list_elem_of_lookup_2). rewrite decide_True.
    + simpl. f_equal. apply IH; [|done..]. intros x y Hx Hy. apply Htot; by right.
    + apply Htot; [left|by right|intros ->; done|by apply Ha].
Qed.

Definition childCmp : CatalogVersion → CatalogVersion → Z :=
  cmpThen (λ x y, Compare (UploadedAt x) (UploadedAt y))
    (cmpThen (λ x y, Compare (SourceName x) (SourceName y)) (λ x y, Compare (CID x) (CID y))).

Lemma childLess_cmp x y : childLess x y = bool_decide (childCmp x y < 0).
Proof.
  unfold childLess, childCmp, cmpThen, ltb. pose proof (Compare_ne (UploadedAt x) (UploadedAt y)). pose proof (Compare_ne (SourceName x) (SourceName y)).
  repeat case_decide; tauto.
Qed.

Lemma childCmp_ordered : ordered3 childCmp.
Proof. apply ordered3_then; [|apply ordered3_then]; apply ordered3_Compare. Qed.

Lemma childLess_before x y : childLess x y = comesBefore x y.
Proof.
  assert (∀ s, ltb s s = false) as Hirr by (intros s; unfold ltb; by rewrite Compare_refl).
  unfold childLess, comesBefore. destruct (decide (UploadedAt x ≠ UploadedAt y)) as [H1|H1].
  - by rewrite bool_decide_false, orb_false_r by done.
  - apply dec_stable in H1. rewrite H1, Hirr, bool_decide_true by done. simpl.
    destruct (decide (SourceName x ≠ SourceName y)) as [H2|H2]; [by rewrite bool_decide_false, orb_false_r by done|].
    apply dec_stable in H2. by rewrite H2, Hirr, bool_decide_true by done.
Qed.

Section places.
Variable versions : list CatalogVersion.
Variable root : string.
Hypothesis cids_distinct : NoDup (map CID versions).

(** The place of an update among the children that the walk goes through. *)
Lemma childrenOf_position x c : isUpdateOf versions x c → childrenOf versions x !! earlierUpdates versions x c = Some c.
Proof.
  intros (Hc&Hp&Hx). assert (c ∈ childrenOf versions x) as [i Hi]%list_elem_of_lookup_1.
  { unfold childrenOf. rewrite decide_False by done. rewrite sortBy_Permutation. by apply list_elem_of_filter. }
  enough (earlierUpdates versions x c = i) as -> by done. symmetry.
  destruct childCmp_ordered as [HA HT]. etrans.
  - apply (sorted_position childLess (childrenOf versions x) i c); [| | | |done].
    + unfold childrenOf. rewrite decide_False by done. apply (sortBy_sorted _ (λ _, True)); [..|by apply Forall_true].
      * intros u v _ _. rewrite !childLess_cmp, bool_decide_eq_true, bool_decide_eq_false. rewrite (HA u v). lia.
      * intros u v w _ _ _. rewrite !childLess_cmp, !bool_decide_eq_false. pose proof (HA u v). pose proof (HA v w). pose proof (HA u w).
        pose proof (HT u v w). lia.
    + intros u. rewrite childLess_cmp. apply bool_decide_eq_false. pose proof (HA u u). lia.
    + intros u v Hu Hv Hne. rewrite !childLess_cmp, bool_decide_eq_false, bool_decide_eq_true. intros Hge.
      enough (childCmp u v ≠ 0) by (rewrite (HA u v) in Hge; lia). unfold childCmp, cmpThen. intros E. apply Hne.
      apply (same_cid versions cids_distinct); [by apply (childrenOf_in _ x)..|].
      repeat case_decide; try done. by apply Compare_eq.
    + apply (NoDup_fmap_1 CID). by apply childrenOf_NoDup.
  - unfold earlierUpdates, childrenOf. rewrite decide_False by done. rewrite sortBy_Permutation, list_filter_filter.
    f_equal. apply list_filter_iff. intros u. rewrite childLess_before. tauto.
Qed.

Lemma placed_fun x g bs g' bs' : placed versions root x g bs → placed versions root x g' bs' → g = g' ∧ bs = bs'.
Proof.
  intros H. revert g' bs'. induction H as [|x g bs c H IH (Hc&Hp&Hx) Hr]; intros g' bs' H'.
  - inversion H' as [|x' g1 bs1 c' ? ? Hne E]; [done|]. by destruct Hne.
  - remember (CID c) as y eqn:Ey. destruct H' as [|x' g1 bs1 c' H1 (Hc'&Hp'&_) _]; [by destruct Hr|].
    apply (same_cid versions cids_distinct) in Ey as ->; [|done..]. assert (x' = x) as -> by congruence.
    by destruct (IH _ _ H1) as [-> ->].
Qed.

Lemma place_range x g bs : root ∈ map CID versions → placed versions root x g bs →
  1 ≤ g ≤ Z.of_nat (length versions) ∧ Forall (λ b, 0 ≤ b ≤ Z.of_nat (length versions)) bs.
Proof.
  intros Hroot H. assert (∃ l, NoDup l ∧ Z.of_nat (length l) = g ∧ (∀ y, y ∈ l → y ∈ map CID versions ∧ ∃ g' bs', placed versions root y g' bs' ∧ g' ≤ g)) as (l&Hnd&Hl&Hin).
  { induction H as [|x g bs c H (l&Hnd&Hl&Hin) (Hc&Hp&Hx) Hr].
    - exists [root]. split_and!; [apply NoDup_singleton|done|]. intros y ->%list_elem_of_singleton. split; [done|]. exists 1, []. by split; [constructor|].
    - exists (CID c :: l). split_and!; [|simpl; lia|].
      + constructor; [|done]. intros Hcl. destruct (Hin _ Hcl) as (_&g'&bs'&H1&Hle).
        destruct (placed_fun _ _ _ _ _ H1 (placed_update versions root x g bs c H (conj Hc (conj Hp Hx)) Hr)). lia.
      + intros y [->|Hy]%elem_of_cons; [split; [by apply list_elem_of_fmap_2|]; eexists _, _; split; [by constructor|lia]|].
        destruct (Hin y Hy) as (?&g'&bs'&?&?). split; [done|]. exists g', bs'. split; [done|lia]. }
  assert (length l ≤ length (map CID versions))%nat as Hle.
  { apply submseteq_length, NoDup_submseteq; [done|]. intros y Hy. by apply Hin. }
  rewrite length_map in Hle. split.
  - split; [|lia]. clear -H. induction H; lia.
  - clear -H. induction H as [|x g bs c H IH _ _]; [constructor|]. pose proof (length_filter (λ u, TrimSpace (PreviousCID u) = x ∧ comesBefore u c = true) versions) as Hf.
    fold (earlierUpdates versions x c) in Hf. destruct (earlierUpdates versions x c); [done|]. apply Forall_app. split; [done|]. apply Forall_singleton. lia.
Qed.
End places.

(** The label of an update, as the walk makes it. *)
Lemma branchLabel_place g bs i : 1 ≤ g < 2 ^ 62 → Forall (λ b, 0 ≤ b < 2 ^ 62) bs →
  branchLabel (placeLabel g bs) i = placeLabel (g + 1) (match i with O => bs | i => bs ++ [Z.of_nat i] end).
Proof.
  intros Hg Hbs. assert (nextGenerationLabel (placeLabel g bs) = placeLabel (g + 1) bs) as E.
  { unfold nextGenerationLabel. change (placeLabel g bs) with (formatVersionLabel (g :: bs)). rewrite parse_format.
    - by rewrite wrapInt64_id by (unfold minInt64, maxInt64; lia).
    - split; [done|]. constructor; [unfold minInt64, maxInt64; lia|]. eapply Forall_impl; [exact Hbs|]. intros b Hb. simpl in Hb. unfold minInt64, maxInt64. lia. }
  unfold branchLabel. rewrite E. destruct i as [|i]; [done|]. unfold placeLabel.
  change (g + 1 :: bs ++ [Z.of_nat (S i)]) with ((g + 1 :: bs) ++ [Z.of_nat (S i)]). rewrite map_app.
  change (map Itoa [Z.of_nat (S i)]) with [Itoa (Z.of_nat (S i))]. rewrite Join_snoc by done. by rewrite !app_assoc_str.
Qed.

(** C32. Labels tell the place in the tree of updates: for a file whose versions have distinct CIDs and include its root, the root
    is [v1], and a version that is reached from the root by a chain of updates has as label its generation (one more than the
    number of updates on the chain) and, for every update on the chain that was not the first one of its version, the number of
    updates of that version that were uploaded before it.  Nothing is said of versions that no chain links to the root. *)
Theorem normalizeVersions_labels file :
  NoDup (map CID (Versions file)) → fRootCID file ∈ map CID (Versions file) → Z.of_nat (length (Versions file)) < 2 ^ 62 →
  ∃ file', normalizeVersions file = Ret file' ∧
    ∀ x g bs, placed (filled file) (fRootCID file) x g bs → labelOf (Versions file') x = Some (placeLabel g bs).
Proof.
  intros Hnd Hroot Hlen. destruct (normalizeVersions_labelled file Hnd Hroot) as (file'&E&H1&Hall). exists file'. split; [done|].
  rewrite <- filled_CIDs in Hnd, Hroot. assert (length (filled file) = length (Versions file)) as El by apply length_map. rewrite <- El in Hlen.
  assert (∀ x g bs, placed (filled file) (fRootCID file) x g bs → descends (filled file) (fRootCID file) x) as Hdesc.
  { induction 1 as [|x g bs c _ IH Hup Hr]; [constructor|]. eapply descends_child; [exact IH|by apply childrenOf_position|done]. }
  intros x g bs Hp. induction Hp as [|x g bs c Hp IH Hup Hr]; [done|].
  destruct (Hall x (Hdesc _ _ _ Hp)) as (lx&Hlx&Hkids). rewrite IH in Hlx. injection Hlx as <-.
  rewrite (Hkids _ c (childrenOf_position _ Hnd x c Hup) Hr). destruct (place_range _ _ Hnd x g bs Hroot Hp) as [Hg Hbs].
  rewrite branchLabel_place; [by destruct (earlierUpdates _ _ _)|lia|]. eapply Forall_impl; [exact Hbs|]. intros b Hb. simpl in Hb. lia.
Qed.

(** Three generations with two branches. *)
Definition branched : CatalogFile :=
  mkCatalogFile "root" "report.txt" ".txt" "t0"
    (map (λ p, mkCatalogVersion p.1.1 "" "" p.1.2 "" "0" "report.txt" 1 "" p.2 "")
       [("root", "", "t0"); ("a", "root", "t1"); ("b", "root", "t2");
        ("c", "a", "t3"); ("d", "a", "t4"); ("e", "b", "t5")]).

Definition branchedVersion (cid previous time : string) : CatalogVersion :=
  fillVersion branched (mkCatalogVersion cid "" "" previous "" "0" "report.txt" 1 "" time "").

Lemma normalizeVersions_labels_witness :
  ∃ file', normalizeVersions branched = Ret file' ∧ labelOf (Versions file') "root" = Some "v1" ∧ labelOf (Versions file') "d" = Some "v3.1".
Proof.
  destruct (normalizeVersions_labels branched) as (file'&E&Hp); [apply (bool_decide_unpack _); by vm_compute..|done|].
  assert (∀ n c, filled branched !! n = Some c → c ∈ filled branched) as Hin by (intros n c Hn; by eapply list_elem_of_lookup_2).
  assert (placed (filled branched) "root" "a" 2 []) as Ha.
  { apply (placed_update (filled branched) "root" "root" 1 [] (branchedVersion "a" "root" "t1")); [apply placed_root|split; [by apply (Hin 1%nat)|by split]|done]. }
  assert (placed (filled branched) "root" "d" 3 [1]) as Hd.
  { apply (placed_update (filled branched) "root" "a" 2 [] (branchedVersion "d" "a" "t4")); [exact Ha|split; [by apply (Hin 4%nat)|by split]|done]. }
  exists file'. split; [exact E|]. split; [exact (Hp _ _ _ (placed_root _ _))|exact (Hp _ _ _ Hd)].
Defined.

(** Labels are not unique: in a file with two branches in which both the
    main line and a branch go on, the second update of the main line's version
    and the first update of the branch get the same label [v3.1], so a label
    does not name a version. *)
Theorem branch_labels_collide :
  ∃ file', normalizeVersions branched = Ret file' ∧
    labelOf (Versions file') "d" = Some "v3.1" ∧ labelOf (Versions file') "e" = Some "v3.1".
Proof. eexists. split; [vm_compute; reflexivity|]. split; vm_compute; reflexivity. Qed.
