(* ===== verification/CatalogOps.v ===== *)
(** * The operations of the catalog

    [upsertInitialVersion] and [appendPatchVersion] add one version and keep
    everything that is recorded.  The contents of a catalog are the entries of
    its files; normalisation changes labels and order only. *)

From coqutil Require Import Datatypes.RecordSetters.
From stdpp Require Import strings numbers base gmap fin_maps list.
From S2P Require Import Prelude GoStrings GoSort Catalog CatalogTree.
Import DoubleBraceUpdate.
Local Open Scope Z_scope.

(** ** The contents of a catalog *)

(** The recorded data of a version: its CID, the previous CID, miner, size and time. *)
Abbreviation Entry := (string * string * string * Z * string)%type.

Definition entry (v : CatalogVersion) : Entry :=
  (CID v, PreviousCID v, MinerIndex v, SizeBytes v, UploadedAt v).

(** The file with root [r] has a version with the data [e], or the CID [x]. *)
Definition holds (c : Catalog) (r : string) (e : Entry) : Prop :=
  ∃ f, f ∈ Files c ∧ fRootCID f = r ∧ e ∈ map entry (Versions f).

Definition has (c : Catalog) (r x : string) : Prop :=
  ∃ f, f ∈ Files c ∧ fRootCID f = r ∧ x ∈ map CID (Versions f).

(** A file has its root among its versions, which have distinct CIDs; files have
    distinct roots. *)
Definition fileOk (f : CatalogFile) : Prop :=
  NoDup (map CID (Versions f)) ∧ fRootCID f ∈ map CID (Versions f).

Definition catalogOk (c : Catalog) : Prop :=
  NoDup (map fRootCID (Files c)) ∧ Forall fileOk (Files c).

#[global] Instance fileOk_dec f : Decision (fileOk f).
Proof. unfold fileOk. apply _. Defined.

#[global] Instance catalogOk_dec c : Decision (catalogOk c).
Proof. unfold catalogOk. apply _. Defined.

#[global] Instance has_dec c r x : Decision (has c r x).
Proof.
  refine (cast_if (decide (Exists (λ f, fRootCID f = r ∧ x ∈ map CID (Versions f)) (Files c))));
    rewrite Exists_exists in *; unfold has; naive_solver.
Defined.

(** ** Normalisation keeps the contents *)

Lemma entry_CID v v' : entry v = entry v' → CID v = CID v'.
Proof. by intros [=]. Qed.

Lemma fileOk_ne f : fileOk f → Versions f ≠ [].
Proof. intros [_ H] E. rewrite E in H. by apply not_elem_of_nil in H. Qed.

(** A normalised file is fine and has the same root and the same entries. *)
Lemma normalized_file f f' :
  fileOk f → normalized f f' →
  fRootCID f' = fRootCID f ∧ fileOk f' ∧ ∀ e, e ∈ map entry (Versions f') ↔ e ∈ map entry (Versions f).
Proof.
  intros Hok (Hf&Hnd&Hin&Hv&_). pose proof (fileOk_ne f Hok) as Hne. specialize (Hnd Hne). specialize (Hv Hne).
  destruct Hok as [Hnd0 Hr]. injection Hf as Ef _ _ _. split; [done|].
  split; [split; [done|rewrite Ef; by apply Hin]|].
  intros e. split.
  - intros (v'&->&Hv')%list_elem_of_fmap. destruct (Hv v' Hv') as (_&v&Hvin&E).
    apply list_elem_of_fmap. exists v. done.
  - intros (v&->&Hvin)%list_elem_of_fmap.
    assert (CID v ∈ map CID (Versions f')) as (v'&Ec&Hv')%list_elem_of_fmap
      by (apply Hin, list_elem_of_fmap_2, Hvin).
    destruct (Hv v' Hv') as (_&v2&Hv2&E).
    assert (v2 = v) as -> by (apply (NoDup_map_inj CID (Versions f)); [done..|]; rewrite Ec; by injection E).
    apply list_elem_of_fmap. exists v'. done.
Qed.

Lemma normalizeFiles_ret files :
  ∃ files', normalizeFiles files = Ret files' ∧
    Forall2 (λ f f', normalized f f' ∧ normalizeVersions f = Ret f') files files'.
Proof.
  induction files as [|f files (files'&E&HF)]; [by exists []|]. simpl.
  destruct (normalizeVersions_normalized f) as (f'&Ef&Hf). rewrite Ef. simpl. rewrite E. simpl.
  exists (f' :: files'). split; [done|]. by constructor.
Qed.

(** [c'] is as good as [c] and has the same contents; the files of [c'] are
    normalised files of [c]. *)
Definition sameContents (c c' : Catalog) : Prop :=
  catalogOk c' ∧ (∀ r e, holds c' r e ↔ holds c r e) ∧
  (∀ f', f' ∈ Files c' → ∃ f, f ∈ Files c ∧ fRootCID f = fRootCID f' ∧ normalizeVersions f = Ret f').

Lemma Forall2_elem_l {A B} (P : A → B → Prop) l k x : Forall2 P l k → x ∈ l → ∃ y, y ∈ k ∧ P x y.
Proof.
  intros H [i Hi]%list_elem_of_lookup_1. destruct (Forall2_lookup_l _ _ _ _ _ H Hi) as (y&Hy&HP).
  exists y. split; [by eapply list_elem_of_lookup_2|done].
Qed.

Lemma Forall2_elem_r {A B} (P : A → B → Prop) l k y : Forall2 P l k → y ∈ k → ∃ x, x ∈ l ∧ P x y.
Proof.
  intros H Hy. apply Forall2_flip in H. by eapply Forall2_elem_l in H.
Qed.

Lemma normalize_same c :
  catalogOk c → ∃ c', normalize c = Ret c' ∧ sameContents c c'.
Proof.
  intros [Hr Hok]. destruct (normalizeFiles_ret (Files c)) as (files'&E&HF).
  unfold normalize. rewrite E. simpl. eexists. split; [reflexivity|].
  assert (Forall2 (λ f f', (fRootCID f' = fRootCID f ∧ fileOk f' ∧
    (∀ e, e ∈ map entry (Versions f') ↔ e ∈ map entry (Versions f))) ∧ normalizeVersions f = Ret f') (Files c) files') as H.
  { clear E Hr. induction HF as [|f f' l l' [Hn E] HF IH]; [done|]. apply Forall_cons in Hok as [Hf Hok].
    constructor; [by split; [apply normalized_file|]|by apply IH]. }
  clear HF E. split_and!.
  - split; simpl.
    + rewrite sortBy_Permutation. replace (map fRootCID files') with (map fRootCID (Files c)); [done|].
      clear Hr Hok. induction H as [|???? [(E&_) _] _ IH]; [done|]. simpl. by rewrite IH, E.
    + rewrite sortBy_Permutation. clear Hr Hok. induction H as [|???? [(_&?&_) _] _ IH]; by constructor.
  - intros r e. unfold holds. simpl. split.
    + intros (f'&Hf'&<-&He). rewrite sortBy_Permutation in Hf'.
      destruct (Forall2_elem_r _ _ _ _ H Hf') as (f&Hf&(->&_&Hee)&_). exists f. split_and!; [done..|by apply Hee].
    + intros (f&Hf&<-&He). destruct (Forall2_elem_l _ _ _ _ H Hf) as (f'&Hf'&(E&_&Hee)&_).
      exists f'. rewrite sortBy_Permutation. split_and!; [done..|by apply Hee].
  - intros f' Hf'. simpl in Hf'. rewrite sortBy_Permutation in Hf'.
    destruct (Forall2_elem_r _ _ _ _ H Hf') as (f&Hf&(E&_)&En). exists f. done.
Qed.

(** ** Lookups and replacements *)

Lemma findFileIndexByRoot_in files root :
  match findFileIndexByRoot files root with
  | Some i => ∃ f, files !! i = Some f ∧ fRootCID f = root
  | None => root ∉ map fRootCID files
  end.
Proof.
  induction files as [|f files IH]; simpl; [apply not_elem_of_nil|]. case_decide as E; [by exists f|].
  destruct (findFileIndexByRoot files root); simpl; [done|]. rewrite not_elem_of_cons. by split; [intros ->|].
Qed.

Lemma findVersionLocation_in files cid :
  match findVersionLocation files cid with
  | Some (i, j) => ∃ f v, files !! i = Some f ∧ Versions f !! j = Some v ∧ CID v = cid
  | None => ∀ f, f ∈ files → cid ∉ map CID (Versions f)
  end.
Proof.
  induction files as [|f files IH]; simpl; [by intros f ?%not_elem_of_nil|].
  pose proof (findVersionIndex_in (Versions f) cid) as Hf.
  destruct (findVersionIndex (Versions f) cid) as [j|]; [destruct Hf as (v&?&?); by exists f, v|].
  destruct (findVersionLocation files cid) as [[i j]|]; simpl; [done|].
  intros g [->|Hg]%elem_of_cons; [done|by apply IH].
Qed.

Lemma file_unique c f g :
  catalogOk c → f ∈ Files c → g ∈ Files c → fRootCID f = fRootCID g → f = g.
Proof. intros [H _]. by apply NoDup_map_inj. Qed.

Lemma holds_has c r x : has c r x ↔ ∃ e, holds c r e ∧ e.1.1.1.1 = x.
Proof.
  split.
  - intros (f&Hf&Er&(v&->&Hv)%list_elem_of_fmap). exists (entry v). split; [|done].
    exists f. split_and!; [done..|]. by apply list_elem_of_fmap_2.
  - intros (e&(f&Hf&Er&(v&->&Hv)%list_elem_of_fmap)&<-). exists f. split_and!; [done..|].
    apply list_elem_of_fmap. by exists v.
Qed.

(** Changing one file, to which the entries [new] are added. *)
Lemma replaceFile_holds c i f f' (new : list Entry) :
  catalogOk c → Files c !! i = Some f → fileOk f' → fRootCID f' = fRootCID f →
  (∀ e, e ∈ map entry (Versions f') ↔ e ∈ map entry (Versions f) ∨ e ∈ new) →
  let c' := mkCatalog (<[i := f']> (Files c)) in
  catalogOk c' ∧ ∀ r e, holds c' r e ↔ holds c r e ∨ (r = fRootCID f ∧ e ∈ new).
Proof.
  intros [Hr Hok] Hf Hok' Er Hnew c'. assert (i < length (Files c))%nat as Hi by by eapply lookup_lt_Some.
  split_and!.
  - split; simpl.
    + replace (map fRootCID (<[i := f']> (Files c))) with (map fRootCID (Files c)); [done|].
      apply list_eq. intros j. rewrite !list_lookup_fmap. destruct (decide (i = j)) as [<-|Hj].
      * rewrite list_lookup_insert_eq by done. rewrite Hf. simpl. by rewrite Er.
      * by rewrite list_lookup_insert_ne.
    + by apply Forall_insert.
  - intros r e. unfold holds. simpl. split.
    + intros (g&[j Hg]%list_elem_of_lookup_1&Eg&He). destruct (decide (i = j)) as [<-|Hj].
      * rewrite list_lookup_insert_eq in Hg by done. simplify_eq. apply Hnew in He as [He|He]; [left|right; by rewrite Er].
        exists f. split_and!; [by eapply list_elem_of_lookup_2|done..].
      * rewrite list_lookup_insert_ne in Hg by done. left. exists g. split_and!; [by eapply list_elem_of_lookup_2|done..].
    + intros [(g&[j Hg]%list_elem_of_lookup_1&Eg&He)|[-> He]].
      * destruct (decide (i = j)) as [<-|Hj]; [|exists g; split_and!; [|done..]; eapply list_elem_of_lookup_2; by rewrite list_lookup_insert_ne].
        simplify_eq. exists f'. split_and!; [|done|by apply Hnew; left]. eapply list_elem_of_lookup_2. by rewrite list_lookup_insert_eq.
      * exists f'. split_and!; [|done|by apply Hnew; right]. eapply list_elem_of_lookup_2. by rewrite list_lookup_insert_eq.
Qed.

Lemma addFile_holds c f :
  catalogOk c → fileOk f → fRootCID f ∉ map fRootCID (Files c) →
  let c' := mkCatalog (Files c ++ [f]) in
  catalogOk c' ∧ ∀ r e, holds c' r e ↔ holds c r e ∨ (r = fRootCID f ∧ e ∈ map entry (Versions f)).
Proof.
  intros [Hr Hok] Hf Hn c'. split_and!.
  - split; simpl; [|by apply Forall_app; split; [|apply Forall_singleton]].
    rewrite map_app. apply NoDup_app. split_and!; [done| |apply NoDup_singleton].
    intros x Hx Hx'. apply list_elem_of_singleton in Hx' as ->. done.
  - intros r e. unfold holds. simpl. setoid_rewrite elem_of_app. setoid_rewrite list_elem_of_singleton. naive_solver.
Qed.

Lemma label_at f c v :
  NoDup (map CID (Versions f)) → v ∈ Versions f → CID v = c → labelOf (Versions f) c = Some (VersionLabel v).
Proof.
  intros Hnd Hv <-. unfold labelOf. pose proof (findVersionIndex_in (Versions f) (CID v)) as H.
  destruct (findVersionIndex (Versions f) (CID v)) as [i|]; [|by destruct H; apply list_elem_of_fmap_2].
  destruct H as (w&E&Ew). simpl. rewrite E. simpl. do 2 f_equal.
  apply (NoDup_map_inj CID (Versions f)); [done|by eapply list_elem_of_lookup_2|done..].
Qed.

(** The root file of a normalised catalog, with its first version. *)
Lemma locateInitial_ret c root :
  catalogOk c → root ∈ map fRootCID (Files c) →
  ∃ c' f v, locateInitial c root = Ret (c', (f, v)) ∧ sameContents c c' ∧
    f ∈ Files c' ∧ fRootCID f = root ∧ v ∈ Versions f ∧ CID v = root ∧ VersionLabel v = "v1".
Proof.
  intros Hok Hr. destruct (normalize_same c Hok) as (c'&E&Hs). unfold locateInitial. rewrite E. simpl.
  pose proof Hs as ([Hr' Hok']&Hh&Hn). pose proof (findFileIndexByRoot_in (Files c') root) as Hf.
  destruct (findFileIndexByRoot (Files c') root) as [i|].
  2:{ apply list_elem_of_fmap in Hr as (g&->&Hg). destruct Hf.
      assert (has c (fRootCID g) (fRootCID g)) as (e&He&_)%holds_has.
      { exists g. split_and!; [done..|]. destruct Hok as [_ Hok]. rewrite Forall_forall in Hok. by apply Hok. }
      apply Hh in He as (g'&Hg'&<-&_). by apply list_elem_of_fmap_2. }
  destruct Hf as (f&Ef&Efr). unfold fileAt. simpl. rewrite Ef. simpl.
  assert (f ∈ Files c') as Hfin by by eapply list_elem_of_lookup_2.
  pose proof Hok' as Hfok. rewrite Forall_forall in Hfok. specialize (Hfok f Hfin). destruct Hfok as [Hnd Hroot].
  pose proof (findVersionIndex_in (Versions f) root) as Hv. destruct (findVersionIndex (Versions f) root) as [j|]; [|by rewrite Efr in Hroot].
  destruct Hv as (v&Ev&Evc). unfold versionAt. simpl. rewrite Ev. simpl. exists c', f, v.
  assert (v ∈ Versions f) as Hvin by by eapply list_elem_of_lookup_2. split_and!; try done.
  destruct (Hn f Hfin) as (g&Hg&Eg&En). destruct Hok as [_ Hok]. rewrite Forall_forall in Hok.
  destruct (Hok g Hg) as [Hgn Hgr]. destruct (normalizeVersions_labelled g Hgn Hgr) as (f2&En2&Hl&_).
  rewrite En in En2. injection En2 as <-. rewrite Eg, Efr in Hl. rewrite (label_at f root v) in Hl by done. congruence.
Qed.

(** ** Adding a version *)

(** A new version at the end of a file. *)
Lemma appendVersion_ok f v :
  NoDup (map CID (Versions f)) → CID v ∉ map CID (Versions f) →
  (fRootCID f ∈ map CID (Versions f) ∨ CID v = fRootCID f) →
  let f' := f {{ Versions ::= λ l, l ++ [v] }} in
  fileOk f' ∧ fRootCID f' = fRootCID f ∧
  ∀ e, e ∈ map entry (Versions f') ↔ e ∈ map entry (Versions f) ∨ e ∈ [entry v].
Proof.
  intros Hnd Hv Hr f'. destruct f as [r d x t l]. rsimpl. split_and!; [|done|].
  - split; rsimpl; rewrite map_app.
    + apply NoDup_app. split_and!; [done| |apply NoDup_singleton].
      intros y Hy Hy'. simpl in Hy'. apply list_elem_of_singleton in Hy' as ->. done.
    + rewrite elem_of_app. simpl. rewrite list_elem_of_singleton. by destruct Hr as [?| ->]; [left|right].
  - intros e. by rewrite map_app, elem_of_app.
Qed.

(** The result of an operation: the catalog stays fine and gains exactly the
    entry [e] in the file [r] when [new]; the file and the version returned are in it. *)
Definition adds (c : Catalog) (r : string) (e : Entry) (new : Prop) (out : Catalog * (CatalogFile * CatalogVersion)) : Prop :=
  let '(c', (f, v)) := out in
  catalogOk c' ∧ f ∈ Files c' ∧ v ∈ Versions f ∧ CID v = e.1.1.1.1 ∧
  ∀ r' e', holds c' r' e' ↔ holds c r' e' ∨ (new ∧ r' = r ∧ e' = e).

Lemma has_root c r : catalogOk c → r ∈ map fRootCID (Files c) ↔ has c r r.
Proof.
  intros [_ Hok]. rewrite Forall_forall in Hok. split.
  - intros (f&->&Hf)%list_elem_of_fmap. exists f. split_and!; [done..|]. by apply Hok.
  - intros (f&Hf&<-&_). by apply list_elem_of_fmap_2.
Qed.

Lemma fileAt_ret c i f : Files c !! i = Some f → fileAt c (Some i) = Ret f.
Proof. intros E. unfold fileAt. simpl. by rewrite E. Qed.

Lemma versionAt_ret f i v : Versions f !! i = Some v → versionAt f (Some i) = Ret v.
Proof. intros E. unfold versionAt. simpl. by rewrite E. Qed.

Lemma upsertInitialVersion_ret c root sourcePath displayName sizeBytes minerIndex uploadedAt :
  catalogOk c →
  ∃ c' f v, upsertInitialVersion c root sourcePath displayName sizeBytes minerIndex uploadedAt = Ret (c', (f, v)) ∧
    adds c root (root, "", minerIndex, sizeBytes, uploadedAt) (¬ has c root root) (c', (f, v)) ∧
    fRootCID f = root ∧ VersionLabel v = "v1".
Proof.
  intros Hok. unfold upsertInitialVersion. pose proof (findFileIndexByRoot_in (Files c) root) as Hf.
  destruct (findFileIndexByRoot (Files c) root) as [i|].
  - destruct Hf as (f&Ef&<-). rewrite (fileAt_ret _ _ _ Ef), bind_ret_l.
    assert (f ∈ Files c) as Hin by by eapply list_elem_of_lookup_2.
    assert (fileOk f) as Hfok by (destruct Hok as [_ H]; rewrite Forall_forall in H; by apply H).
    set (f1 := fillFile _ _ _ f).
    assert (fRootCID f1 = fRootCID f ∧ Versions f1 = Versions f) as [Er Ev] by (subst f1; by destruct f).
    rewrite Ev. pose proof (findVersionIndex_in (Versions f) (fRootCID f)) as Hv.
    destruct (findVersionIndex (Versions f) (fRootCID f)) as [j|]; [|by destruct Hv; apply Hfok].
    destruct (replaceFile_holds c i f f1 []) as [Hok1 Hh1]; [done..| |done| |].
    { unfold fileOk. by rewrite Er, Ev. }
    { intros e. rewrite Ev, elem_of_nil. tauto. }
    destruct (locateInitial_ret _ (fRootCID f) Hok1) as (c'&g&v&E&(Hok'&Hh&_)&Hg&Egr&Hvin&Evc&El).
    { simpl. rewrite <- Er. apply list_elem_of_fmap_2. eapply list_elem_of_lookup_2.
      rewrite list_lookup_insert_eq; [done|]. by eapply lookup_lt_Some. }
    rewrite E. exists c', g, v. split_and!; [done| |done..]. split_and!; try done.
    intros r e. rewrite Hh, Hh1, elem_of_nil. assert (has c (fRootCID f) (fRootCID f)) by
      (apply has_root; [done|]; by apply list_elem_of_fmap_2). tauto.
  - set (f := mkCatalogFile _ _ _ _ _).
    destruct (addFile_holds c f) as [Hok1 Hh1]; [done|..].
    { split; simpl; [apply NoDup_singleton|by apply list_elem_of_singleton]. }
    { done. }
    destruct (locateInitial_ret _ root Hok1) as (c'&g&v&E&(Hok'&Hh&_)&Hg&Egr&Hvin&Evc&El).
    { simpl. rewrite map_app. apply elem_of_app. right. simpl. by apply list_elem_of_singleton. }
    rewrite E. exists c', g, v. split_and!; [done| |done..]. split_and!; try done.
    intros r e. rewrite Hh, Hh1. simpl. rewrite list_elem_of_singleton. rewrite has_root in Hf by done. tauto.
Qed.

Lemma appendPatchVersion_ret c cid previousCID sourcePath displayName sizeBytes minerIndex uploadedAt :
  catalogOk c → (∃ r, has c r previousCID) →
  ∃ r c' f v, has c r previousCID ∧
    appendPatchVersion c cid previousCID sourcePath displayName sizeBytes minerIndex uploadedAt = Ret (c', (f, v)) ∧
    adds c r (cid, previousCID, minerIndex, sizeBytes, uploadedAt) (¬ has c r cid) (c', (f, v)) ∧
    ((∀ r', has c r' cid → r' = r) → fRootCID f = r).
Proof.
  intros Hok (r0&f0&Hf0&_&Hp). unfold appendPatchVersion.
  pose proof (findVersionLocation_in (Files c) previousCID) as Hl.
  destruct (findVersionLocation (Files c) previousCID) as [[i j]|]; [|by destruct (Hl f0 Hf0)].
  destruct Hl as (f&p&Ef&Ep&<-). assert (f ∈ Files c) as Hin by by eapply list_elem_of_lookup_2.
  assert (fileOk f) as [Hnd Hr] by (destruct Hok as [_ H]; rewrite Forall_forall in H; by apply H).
  rewrite (fileAt_ret _ _ _ Ef), bind_ret_l.
  assert (has c (fRootCID f) (CID p)) as Hhp.
  { exists f. split_and!; [done..|]. apply list_elem_of_fmap_2. by eapply list_elem_of_lookup_2. }
  pose proof (findVersionIndex_in (Versions f) cid) as Hv.
  destruct (findVersionIndex (Versions f) cid) as [k|].
  - destruct Hv as (v&Ev&<-). rewrite (versionAt_ret _ _ _ Ev), bind_ret_l.
    assert (v ∈ Versions f) as Hvin by by eapply list_elem_of_lookup_2.
    exists (fRootCID f), c, f, v. split_and!; [done..| |done]. split_and!; try done.
    intros r e. assert (has c (fRootCID f) (CID v)) by (exists f; split_and!; [done..|]; by apply list_elem_of_fmap_2). tauto.
  - rewrite (versionAt_ret _ _ _ Ep), bind_ret_l. set (v := mkCatalogVersion _ _ _ _ _ _ _ _ _ _ _).
    set (f1 := f {{ Versions ::= λ l, l ++ [v] }}).
    destruct (appendVersion_ok f v) as (Hok1&Er1&He1); [done..|by left|]. fold f1 in Hok1, Er1, He1.
    destruct (replaceFile_holds c i f f1 [entry v]) as [Hok2 Hh2]; [done..|].
    destruct (normalize_same _ Hok2) as (c'&E&Hok'&Hh&Hn). rewrite E, bind_ret_l.
    assert (∀ r e, holds c' r e ↔ holds c r e ∨ (r = fRootCID f ∧ e = entry v)) as Hc'.
    { intros r e. by rewrite Hh, Hh2, list_elem_of_singleton. }
    assert (¬ has c (fRootCID f) cid) as Hnew.
    { intros (g&Hg&Eg&Hgc). by rewrite (file_unique c g f) in Hgc. }
    pose proof (findVersionLocation_in (Files c') cid) as Hloc.
    destruct (findVersionLocation (Files c') cid) as [[i' j']|].
    2:{ assert (has c' (fRootCID f) cid) as (g&Hg&_&Hgc); [|by destruct (Hloc g Hg)].
        apply holds_has. exists (entry v). split; [|done]. apply Hc'. by right. }
    destruct Hloc as (g&w&Eg&Ew&Ewc). rewrite (fileAt_ret _ _ _ Eg), bind_ret_l, (versionAt_ret _ _ _ Ew), bind_ret_l.
    assert (g ∈ Files c') as Hg by by eapply list_elem_of_lookup_2.
    assert (w ∈ Versions g) as Hw by by eapply list_elem_of_lookup_2.
    exists (fRootCID f), c', g, w. split_and!; [done..| |].
    + split_and!; try done. intros r e. rewrite Hc'. unfold v, entry. simpl. tauto.
    + intros Ho. assert (holds c' (fRootCID g) (entry w)) as Hgw by (exists g; split_and!; [done..|]; by apply list_elem_of_fmap_2).
      apply Hc' in Hgw as [Hgw|[? _]]; [|done]. apply Ho, holds_has. exists (entry w). by split.
Qed.

Lemma appendPatchVersion_unknown c cid previousCID sourcePath displayName sizeBytes minerIndex uploadedAt :
  (¬ ∃ r, has c r previousCID) →
  appendPatchVersion c cid previousCID sourcePath displayName sizeBytes minerIndex uploadedAt
  = Fail ("previous version " +:+ previousCID +:+ " is not present in the catalog").
Proof.
  intros Hn. unfold appendPatchVersion. pose proof (findVersionLocation_in (Files c) previousCID) as Hl.
  destruct (findVersionLocation (Files c) previousCID) as [[i j]|]; [|done].
  destruct Hn, Hl as (f&p&Ef&Ep&<-). exists (fRootCID f), f. split_and!; [by eapply list_elem_of_lookup_2|done|].
  apply list_elem_of_fmap_2. by eapply list_elem_of_lookup_2.
Qed.
