(* ===== verification/CatalogStore.v ===== *)
(** * The catalog file (cmd/opendsn-api/catalog.go)

    The server keeps the catalog in one JSON file.  Each command holds
    [catalogMu] from reading the file to replacing it, so that a command is one
    step; a write goes to a temporary file that is renamed over the catalog. *)

From Stdlib Require Import Ascii.
From coqutil Require Import Datatypes.RecordSetters.
From stdpp Require Import strings numbers base gmap fin_maps list.
From S2P Require Import Prelude GoStrings GoFiles GoSort Catalog CatalogTree CatalogOps.
Local Open Scope Z_scope.

(** ** The server *)

Section server.
(** [json.MarshalIndent] and [json.Unmarshal] on catalogs, and the directory the
    server runs in, as a clean path. *)
Variable MarshalIndent : Catalog → outcome string.
Variable Unmarshal : string → outcome Catalog.
Variable RepoRoot : string.

Definition catalogPath : string := RepoRoot +:+ "/.opendsn_catalog/catalog.json".

Definition catalogTmp : string := catalogPath +:+ ".tmp".

Definition loadCatalogLocked (faults : Faults) : io Disk Catalog :=
  data ← wrapErr "read catalog: " (ReadFile faults catalogPath);
  match data with
  | None => mret (mkCatalog [])
  | Some data =>
      catalog ← wrapErr "parse catalog: " (lift (Unmarshal data));
      lift (normalize catalog)
  end.

Definition saveCatalogLocked (faults : Faults) (catalog : Catalog) : io Disk unit :=
  catalog ← lift (normalize catalog);
  _ ← wrapErr "create catalog directory: " (MkdirAll faults);
  data ← wrapErr "marshal catalog: " (lift (MarshalIndent catalog));
  _ ← wrapErr "write catalog temp file: " (WriteFile faults catalogTmp (data +:+ nl));
  wrapErr "replace catalog: " (Rename faults catalogTmp catalogPath).

Definition readCatalog (faults : Faults) : io Disk Catalog := loadCatalogLocked faults.

Definition recordInitialVersion (faults : Faults) (root sourcePath displayName : string) (sizeBytes : Z)
    (minerIndex uploadedAt : string) : io Disk (CatalogFile * CatalogVersion) :=
  catalog ← loadCatalogLocked faults;
  r ← lift (upsertInitialVersion catalog root sourcePath displayName sizeBytes minerIndex uploadedAt);
  _ ← saveCatalogLocked faults r.1;
  mret r.2.

Definition recordPatchVersion (faults : Faults) (cid previousCID sourcePath displayName : string) (sizeBytes : Z)
    (minerIndex uploadedAt : string) : io Disk (CatalogFile * CatalogVersion) :=
  catalog ← loadCatalogLocked faults;
  r ← lift (appendPatchVersion catalog cid previousCID sourcePath displayName sizeBytes minerIndex uploadedAt);
  _ ← saveCatalogLocked faults r.1;
  mret r.2.

(** The answer to [GET /api/catalog]: a status with the files or a message. *)
Definition handleCatalog (faults : Faults) (method : string) : io Disk (Z * (list CatalogFile + string)) := λ d,
  if decide (method ≠ "GET") then (d, Ret (405, inr "method not allowed"))
  else match readCatalog faults d with
       | (d', Ret catalog) => (d', Ret (200, inl (Files catalog)))
       | (d', Fail err) => (d', Ret (500, inr err))
       | (d', Crash) => (d', Crash)
       end.

(** ** What is stored *)

(** The catalog in the file, the empty one when there is no file. *)
Definition stored (d : Disk) (c : Catalog) : Prop :=
  match d !! catalogPath with
  | None => c = mkCatalog []
  | Some data => Unmarshal data = Ret c
  end.

Lemma catalogTmp_ne : catalogTmp ≠ catalogPath.
Proof. apply tmp_ne. Qed.

(** Saving never leaves a half-written catalog: on success the file has the
    normalised catalog, otherwise it is as before. *)
Lemma saveCatalogLocked_cases faults c d :
  let '(d', o) := saveCatalogLocked faults c d in
  match o with
  | Ret _ => ∃ c' data, normalize c = Ret c' ∧ MarshalIndent c' = Ret data ∧
      d' !! catalogPath = Some (data +:+ nl)
  | _ => d' !! catalogPath = d !! catalogPath
  end.
Proof.
  unfold saveCatalogLocked, lift, MkdirAll, mbind, io_bind. destruct (normalize c) as [c'| |]; [|done..].
  unfold wrapErr at 1. destruct (mkdirFault faults); [done|]. unfold wrapErr at 1.
  destruct (MarshalIndent c') as [data| |] eqn:Em; [|done..].
  pose proof (replaceFile_cases faults "write catalog temp file: " "replace catalog: " catalogTmp catalogPath
    (data +:+ nl) d catalogTmp_ne) as H. unfold mbind, io_bind in H.
  destruct (wrapErr _ _ d) as [d1 [[]| |]]; [|done..]. destruct (wrapErr _ _ d1) as [d2 [[]| |]]; [|done..]. eauto.
Qed.

Lemma loadCatalogLocked_world faults d : (loadCatalogLocked faults d).1 = d.
Proof.
  unfold loadCatalogLocked, wrapErr, ReadFile, lift. io_step. destruct (readFault faults catalogPath); [done|]. simpl.
  destruct (d !! catalogPath); [|done]. by destruct (Unmarshal s).
Qed.

(** Loading a fine catalog: its contents, or the reading fault. *)
Lemma loadCatalogLocked_stored faults d c :
  stored d c → catalogOk c →
  match readFault faults catalogPath with
  | Some e => loadCatalogLocked faults d = (d, Fail ("read catalog: " +:+ e))
  | None => ∃ c', loadCatalogLocked faults d = (d, Ret c') ∧ sameContents c c'
  end.
Proof.
  intros Hs Hok. unfold loadCatalogLocked, wrapErr, ReadFile, lift. io_step.
  destruct (readFault faults catalogPath); [done|]. unfold stored in Hs. destruct (d !! catalogPath).
  - rewrite Hs. destruct (normalize_same c Hok) as (c'&->&H). by exists c'.
  - subst c. eexists. split; [reflexivity|]. split_and!; [done..|]. intros f Hf. by apply not_elem_of_nil in Hf.
Qed.

(** A command that loads, changes and saves the catalog. *)
Definition update (faults : Faults) (change : Catalog → outcome (Catalog * (CatalogFile * CatalogVersion))) :
    io Disk (CatalogFile * CatalogVersion) :=
  catalog ← loadCatalogLocked faults;
  r ← lift (change catalog);
  _ ← saveCatalogLocked faults r.1;
  mret r.2.

Lemma update_failed faults change d :
  let '(d', o) := update faults change d in
  match o with Ret _ => True | _ => d' !! catalogPath = d !! catalogPath end.
Proof.
  unfold update. pose proof (loadCatalogLocked_world faults d) as Hl. unfold mbind, io_bind.
  destruct (loadCatalogLocked faults d) as [d1 [c| |]]; simpl in Hl; subst d1; [|done..].
  unfold lift. destruct (change c) as [r| |]; [|done..].
  pose proof (saveCatalogLocked_cases faults r.1 d) as Hsave.
  by destruct (saveCatalogLocked faults r.1 d) as [d2 [[]| |]].
Qed.

(** [encoding/json] encodes every catalog, which has only text and numbers, and reads
    back what it has written, with the final newline, when the text is UTF-8. *)
Variable utf8 : Catalog → Prop.
Hypothesis Marshal_total : ∀ c, is_ret (MarshalIndent c).
Hypothesis Unmarshal_Marshal : ∀ c data, utf8 c → MarshalIndent c = Ret data → Unmarshal (data +:+ nl) = Ret c.

Lemma saveCatalogLocked_total c d : catalogOk c → ∃ d', saveCatalogLocked noFaults c d = (d', Ret tt).
Proof.
  intros Hok. unfold saveCatalogLocked, lift, MkdirAll, WriteFile, Rename, wrapErr. io_step.
  destruct (normalize_same c Hok) as (c'&->&_). destruct (Marshal_total c') as [data ->]. simpl.
  rewrite lookup_insert_eq. eauto.
Qed.

(** What a successful update leaves: when [change] gives [out] on a catalog with
    the stored contents, the file holds a catalog with the contents of [out]. *)
Lemma update_saved faults change d d' r c :
  stored d c → catalogOk c →
  (∀ c1 out, sameContents c c1 → change c1 = Ret out → catalogOk out.1) →
  update faults change d = (d', Ret r) →
  ∃ c1 c2 c3, sameContents c c1 ∧ change c1 = Ret (c2, r) ∧ sameContents c2 c3 ∧ (utf8 c3 → stored d' c3).
Proof.
  intros Hs Hok Hch E. pose proof (loadCatalogLocked_stored faults d c Hs Hok) as Hl. unfold update in E.
  destruct (readFault faults catalogPath); [unfold mbind, io_bind in E; by rewrite Hl in E|].
  destruct Hl as (c1&Hl&Hc1). rewrite (io_bind_eq _ _ _ _ _ Hl) in E.
  apply io_bind_ret in E as (w&[c2 r']&[= <- Ec]&E). apply io_bind_ret in E as (w&[]&Es&[= -> ->]).
  simpl in *. specialize (Hch c1 _ Hc1 Ec). destruct (normalize_same c2 Hch) as (c3&En&Hc3).
  exists c1, c2, c3. split_and!; [done..|]. intros Hu. pose proof (saveCatalogLocked_cases faults c2 d) as Hsave.
  rewrite Es in Hsave. destruct Hsave as (c3'&data&En'&Em&Hd). rewrite En in En'. injection En' as <-.
  unfold stored. rewrite Hd. by apply Unmarshal_Marshal.
Qed.

Lemma update_returns change d c :
  stored d c → catalogOk c →
  (∀ c1, sameContents c c1 → ∃ out, change c1 = Ret out ∧ catalogOk out.1) →
  ∃ d' r, update noFaults change d = (d', Ret r).
Proof.
  intros Hs Hok Hch. destruct (loadCatalogLocked_stored noFaults d c Hs Hok) as (c1&Hl&Hc1).
  destruct (Hch c1 Hc1) as ([c2 r]&Ec&Hc2). destruct (saveCatalogLocked_total c2 d Hc2) as [d' Es].
  exists d', r. unfold update. io_run; [exact Hl|]. io_run; [unfold lift; by rewrite Ec|]. io_run; [exact Es|]. done.
Qed.

(** No update panics when the catalog in the file is fine. *)
Lemma update_no_panic faults change d c :
  stored d c → catalogOk c →
  (∀ c1, sameContents c c1 → change c1 ≠ Crash ∧ ∀ out, change c1 = Ret out → catalogOk out.1) →
  (update faults change d).2 ≠ Crash.
Proof.
  intros Hs Hok Hch. pose proof (loadCatalogLocked_stored faults d c Hs Hok) as Hl. unfold update, mbind, io_bind.
  destruct (readFault faults catalogPath); [by rewrite Hl|]. destruct Hl as (c1&->&Hc1).
  destruct (Hch c1 Hc1) as [Hn Hout]. unfold lift. destruct (change c1) as [[c2 r]| |]; [|done..].
  destruct (normalize_same c2 (Hout _ eq_refl)) as (c3&En&_). destruct (Marshal_total c3) as [data Em].
  unfold saveCatalogLocked, lift, MkdirAll, WriteFile, Rename, wrapErr. io_step. rewrite En.
  destruct (mkdirFault faults); [done|]. rewrite Em. destruct (writeFault faults) as [[]|]; [done|]. simpl.
  destruct (renameFault faults); [done|]. by rewrite lookup_insert_eq.
Qed.

Lemma sameContents_has c c' r x : sameContents c c' → has c' r x ↔ has c r x.
Proof. intros (_&H&_). rewrite !holds_has. by setoid_rewrite H. Qed.

Lemma recordInitialVersion_spec d c root sourcePath displayName sizeBytes minerIndex uploadedAt :
  stored d c → catalogOk c →
  (∃ d' r, recordInitialVersion noFaults root sourcePath displayName sizeBytes minerIndex uploadedAt d = (d', Ret r)) ∧
  ∀ faults d' f v,
    recordInitialVersion faults root sourcePath displayName sizeBytes minerIndex uploadedAt d = (d', Ret (f, v)) →
    fRootCID f = root ∧ CID v = root ∧ VersionLabel v = "v1" ∧
    ∃ c', catalogOk c' ∧ (utf8 c' → stored d' c') ∧
      ∀ r e, holds c' r e ↔
        holds c r e ∨ (¬ has c root root ∧ r = root ∧ e = (root, "", minerIndex, sizeBytes, uploadedAt)).
Proof.
  intros Hs Hok.
  set (change := λ c, upsertInitialVersion c root sourcePath displayName sizeBytes minerIndex uploadedAt).
  assert (∀ c1, sameContents c c1 → ∃ out, change c1 = Ret out ∧ catalogOk out.1) as Hch.
  { intros c1 [H1 _]. destruct (upsertInitialVersion_ret c1 root sourcePath displayName sizeBytes minerIndex
      uploadedAt H1) as (c2&f&v&E&(H2&_)&_). by exists (c2, (f, v)). }
  split; [exact (update_returns change d c Hs Hok Hch)|]. intros faults d' f v E.
  destruct (update_saved faults change d d' (f, v) c Hs Hok) as (c1&c2&c3&Hc1&Ec&(H3&Hh3&_)&Hst); [|exact E|].
  { intros c1 out H1 Eo. destruct (Hch c1 H1) as (out'&Eo'&?). rewrite Eo in Eo'. by injection Eo' as <-. }
  pose proof Hc1 as (Hok1&Hh1&_). unfold change in Ec.
  destruct (upsertInitialVersion_ret c1 root sourcePath displayName sizeBytes minerIndex uploadedAt Hok1)
    as (c2'&f'&v'&E'&(_&_&_&Hv&Hh2)&Hr&Hl). rewrite Ec in E'. injection E' as <- <- <-.
  split_and!; [done..|]. exists c3. split_and!; [done..|]. intros r e.
  rewrite Hh3, Hh2, Hh1, (sameContents_has c c1) by done. done.
Qed.

(** Uploads are kept: when the file holds a fine catalog and no call of the
    system fails, [recordInitialVersion] returns; whenever it returns, it returns
    the version [v1] of the file of [root], and the file then holds a fine catalog
    with all the earlier entries and, when the root was not there, one entry more,
    which is the upload's. *)
Theorem recordInitialVersion_stores d c root sourcePath displayName sizeBytes minerIndex uploadedAt :
  stored d c → catalogOk c →
  (∃ d' r, recordInitialVersion noFaults root sourcePath displayName sizeBytes minerIndex uploadedAt d = (d', Ret r)) ∧
  ∀ faults d' f v,
    recordInitialVersion faults root sourcePath displayName sizeBytes minerIndex uploadedAt d = (d', Ret (f, v)) →
    fRootCID f = root ∧ CID v = root ∧ VersionLabel v = "v1" ∧
    ∃ c', catalogOk c' ∧ (utf8 c' → stored d' c') ∧
      ∀ r e, holds c' r e ↔
        holds c r e ∨ (¬ has c root root ∧ r = root ∧ e = (root, "", minerIndex, sizeBytes, uploadedAt)).
Proof. apply recordInitialVersion_spec. Qed.

Lemma recordPatchVersion_spec d c cid previousCID sourcePath displayName sizeBytes minerIndex uploadedAt :
  stored d c → catalogOk c →
  let command faults :=
    recordPatchVersion faults cid previousCID sourcePath displayName sizeBytes minerIndex uploadedAt in
  ((¬ ∃ r, has c r previousCID) → command noFaults d
     = (d, Fail ("previous version " +:+ previousCID +:+ " is not present in the catalog"))) ∧
  ((∃ r, has c r previousCID) → ∃ d' r, command noFaults d = (d', Ret r)) ∧
  ∀ faults d' f v, command faults d = (d', Ret (f, v)) →
    CID v = cid ∧
    ∃ root c', has c root previousCID ∧ catalogOk c' ∧ (utf8 c' → stored d' c') ∧
      ∀ r e, holds c' r e ↔
        holds c r e ∨ (¬ has c root cid ∧ r = root ∧ e = (cid, previousCID, minerIndex, sizeBytes, uploadedAt)).
Proof.
  intros Hs Hok command.
  set (change := λ c, appendPatchVersion c cid previousCID sourcePath displayName sizeBytes minerIndex uploadedAt).
  assert (∀ c1, sameContents c c1 → (∃ r, has c r previousCID) ↔ ∃ r, has c1 r previousCID) as Hprev.
  { intros c1 H1. by setoid_rewrite (sameContents_has c c1). }
  assert (∀ c1 out, sameContents c c1 → change c1 = Ret out → ∃ r, has c r previousCID) as Hknown.
  { intros c1 out H1 E. destruct (findVersionLocation (Files c1) previousCID) as [[i j]|] eqn:El.
    - apply (Hprev c1 H1). pose proof (findVersionLocation_in (Files c1) previousCID) as Hl. rewrite El in Hl.
      destruct Hl as (f&p&Ef&Ep&<-). exists (fRootCID f), f. split_and!; [by eapply list_elem_of_lookup_2|done|].
      apply list_elem_of_fmap_2. by eapply list_elem_of_lookup_2.
    - unfold change, appendPatchVersion in E. by rewrite El in E. }
  assert (∀ c1, sameContents c c1 → (∃ r, has c r previousCID) → ∃ out, change c1 = Ret out ∧ catalogOk out.1) as Hch.
  { intros c1 H1 Hp. pose proof H1 as [Hok1 _]. apply (Hprev c1 H1) in Hp.
    destruct (appendPatchVersion_ret c1 cid previousCID sourcePath displayName sizeBytes minerIndex uploadedAt Hok1 Hp)
      as (r&c2&f&v&_&E&(H2&_)&_). by exists (c2, (f, v)). }
  split_and!.
  - intros Hn. destruct (loadCatalogLocked_stored noFaults d c Hs Hok) as (c1&Hl&H1).
    unfold command, recordPatchVersion. io_run; [exact Hl|]. unfold lift, mbind, io_bind.
    rewrite appendPatchVersion_unknown; [done|]. by rewrite <- Hprev.
  - intros Hp. apply (update_returns change d c Hs Hok). auto.
  - intros faults d' f v E.
    destruct (update_saved faults change d d' (f, v) c Hs Hok) as (c1&c2&c3&Hc1&Ec&(H3&Hh3&_)&Hst); [|exact E|].
    { intros c1 out H1 Eo. destruct (Hch c1 H1 (Hknown _ _ H1 Eo)) as (out'&Eo'&?). rewrite Eo in Eo'. by injection Eo' as <-. }
    pose proof Hc1 as (Hok1&Hh1&_). pose proof (Hknown _ _ Hc1 Ec) as Hp. apply (Hprev c1 Hc1) in Hp. unfold change in Ec.
    destruct (appendPatchVersion_ret c1 cid previousCID sourcePath displayName sizeBytes minerIndex uploadedAt Hok1 Hp)
      as (root&c2'&f'&v'&Hroot&E'&(_&_&_&Hv&Hh2)&_). rewrite Ec in E'. injection E' as <- <- <-.
    split; [done|]. exists root, c3. rewrite <- (sameContents_has c c1) by done. split_and!; [done..|].
    intros r e. rewrite Hh3, Hh2, Hh1, (sameContents_has c c1) by done. done.
Qed.

(** C30. Updates are kept: with a fine catalog in the file, [recordPatchVersion] of
    an unknown previous version fails and changes nothing, and of a known one
    returns when no call of the system fails; whenever it returns, it returns a
    version with the given CID, and the file then holds a fine catalog with all the
    earlier entries and, when the CID was not in the file of the previous version,
    one entry more in that file, whose previous version is the given one. *)
Theorem recordPatchVersion_stores d c cid previousCID sourcePath displayName sizeBytes minerIndex uploadedAt :
  stored d c → catalogOk c →
  let command faults :=
    recordPatchVersion faults cid previousCID sourcePath displayName sizeBytes minerIndex uploadedAt in
  ((¬ ∃ r, has c r previousCID) → command noFaults d
     = (d, Fail ("previous version " +:+ previousCID +:+ " is not present in the catalog"))) ∧
  ((∃ r, has c r previousCID) → ∃ d' r, command noFaults d = (d', Ret r)) ∧
  ∀ faults d' f v, command faults d = (d', Ret (f, v)) →
    CID v = cid ∧
    ∃ root c', has c root previousCID ∧ catalogOk c' ∧ (utf8 c' → stored d' c') ∧
      ∀ r e, holds c' r e ↔
        holds c r e ∨ (¬ has c root cid ∧ r = root ∧ e = (cid, previousCID, minerIndex, sizeBytes, uploadedAt)).
Proof. apply recordPatchVersion_spec. Qed.

Lemma recordInitialVersion_no_panic faults d c root sourcePath displayName sizeBytes minerIndex uploadedAt :
  stored d c → catalogOk c →
  (recordInitialVersion faults root sourcePath displayName sizeBytes minerIndex uploadedAt d).2 ≠ Crash.
Proof.
  intros Hs Hok. apply (update_no_panic faults
    (λ c, upsertInitialVersion c root sourcePath displayName sizeBytes minerIndex uploadedAt) d c Hs Hok).
  intros c1 [H1 _]. destruct (upsertInitialVersion_ret c1 root sourcePath displayName sizeBytes minerIndex uploadedAt H1)
    as (c2&f&v&->&(H2&_)&_). split; [done|]. by intros out [= <-].
Qed.

Lemma recordPatchVersion_no_panic faults d c cid previousCID sourcePath displayName sizeBytes minerIndex uploadedAt :
  stored d c → catalogOk c →
  (recordPatchVersion faults cid previousCID sourcePath displayName sizeBytes minerIndex uploadedAt d).2 ≠ Crash.
Proof.
  intros Hs Hok. apply (update_no_panic faults
    (λ c, appendPatchVersion c cid previousCID sourcePath displayName sizeBytes minerIndex uploadedAt) d c Hs Hok).
  intros c1 [H1 _]. pose proof (findVersionLocation_in (Files c1) previousCID) as Hl.
  destruct (findVersionLocation (Files c1) previousCID) as [[i j]|] eqn:El.
  - destruct Hl as (f&p&Ef&Ep&Ec).
    destruct (appendPatchVersion_ret c1 cid previousCID sourcePath displayName sizeBytes minerIndex uploadedAt H1)
      as (r&c2&g&v&_&->&(H2&_)&_); [|by split; [|intros out [= <-]]].
    exists (fRootCID f), f. split_and!; [by eapply list_elem_of_lookup_2|done|]. rewrite <- Ec.
    apply list_elem_of_fmap_2. by eapply list_elem_of_lookup_2.
  - unfold appendPatchVersion. by rewrite El.
Qed.

Lemma record_unchanged faults d root previousCID sourcePath displayName sizeBytes minerIndex uploadedAt :
  let unchanged (out : Disk * outcome (CatalogFile * CatalogVersion)) :=
    match out.2 with Ret _ => True | _ => out.1 !! catalogPath = d !! catalogPath end in
  unchanged (recordInitialVersion faults root sourcePath displayName sizeBytes minerIndex uploadedAt d) ∧
  unchanged (recordPatchVersion faults root previousCID sourcePath displayName sizeBytes minerIndex uploadedAt d).
Proof.
  intros unchanged. split.
  - pose proof (update_failed faults
      (λ c, upsertInitialVersion c root sourcePath displayName sizeBytes minerIndex uploadedAt) d) as H.
    unfold unchanged. change (recordInitialVersion _ _ _ _ _ _ _) with
      (update faults (λ c, upsertInitialVersion c root sourcePath displayName sizeBytes minerIndex uploadedAt)).
    by destruct (update _ _ d).
  - pose proof (update_failed faults
      (λ c, appendPatchVersion c root previousCID sourcePath displayName sizeBytes minerIndex uploadedAt) d) as H.
    unfold unchanged. change (recordPatchVersion _ _ _ _ _ _ _ _) with
      (update faults (λ c, appendPatchVersion c root previousCID sourcePath displayName sizeBytes minerIndex uploadedAt)).
    by destruct (update _ _ d).
Qed.

(** C31. A failure loses nothing: whatever call of the system fails, and whether the
    temporary file was written in full, in part or not at all, a command that does
    not return a version leaves the catalog file as it was. *)
Theorem failed_record_keeps_catalog faults d root previousCID sourcePath displayName sizeBytes minerIndex uploadedAt :
  let unchanged (out : Disk * outcome (CatalogFile * CatalogVersion)) :=
    match out.2 with Ret _ => True | _ => out.1 !! catalogPath = d !! catalogPath end in
  unchanged (recordInitialVersion faults root sourcePath displayName sizeBytes minerIndex uploadedAt d) ∧
  unchanged (recordPatchVersion faults root previousCID sourcePath displayName sizeBytes minerIndex uploadedAt d).
Proof. apply record_unchanged. Qed.

(** [GET /api/catalog] answers 200 with the stored contents, 500 with the
    message when the file cannot be read, 405 to other methods, and changes nothing. *)
Theorem handleCatalog_answers faults method d c :
  stored d c → catalogOk c →
  (method ≠ "GET" → handleCatalog faults method d = (d, Ret (405, inr "method not allowed"))) ∧
  (method = "GET" →
    match readFault faults catalogPath with
    | Some e => handleCatalog faults method d = (d, Ret (500, inr ("read catalog: " +:+ e)))
    | None => ∃ c', handleCatalog faults method d = (d, Ret (200, inl (Files c'))) ∧ sameContents c c'
    end).
Proof.
  intros Hs Hok. unfold handleCatalog, readCatalog. split; intros Hm.
  - by rewrite decide_True.
  - rewrite decide_False by tauto. pose proof (loadCatalogLocked_stored faults d c Hs Hok) as H.
    destruct (readFault faults catalogPath); [by rewrite H|]. destruct H as (c'&->&Hc). eauto.
Qed.
End server.

(** ** An encoding that is read back, for the examples *)

Fixpoint printPos (p : positive) : string :=
  match p with
  | xH => ""
  | xO p' => String "0"%char (printPos p')
  | xI p' => String "1"%char (printPos p')
  end.

Fixpoint scanPos (s : string) : positive :=
  match s with
  | String a s' =>
      if decide (a = "0"%char) then xO (scanPos s')
      else if decide (a = "1"%char) then xI (scanPos s') else xH
  | EmptyString => xH
  end.

Lemma scanPos_printPos p rest : scanPos (printPos p +:+ String NL rest) = p.
Proof. induction p as [p IH|p IH|]; simpl; by rewrite ?IH. Qed.

#[global] Instance CatalogVersion_eq_dec : EqDecision CatalogVersion.
Proof. solve_decision. Defined.
#[global] Instance CatalogFile_eq_dec : EqDecision CatalogFile.
Proof. solve_decision. Defined.
#[global] Instance Catalog_eq_dec : EqDecision Catalog.
Proof. solve_decision. Defined.

#[global] Instance CatalogVersion_countable : Countable CatalogVersion.
Proof.
  refine (inj_countable' (λ v, ([CID v; RootCID v; VersionLabel v; PreviousCID v; PreviousVersionLabel v;
      MinerIndex v; SourceName v; SizeMB v; UploadedAt v; Kind v], SizeBytes v))
    (λ p, match p with
          | ([a; b; c; d; e; f; g; h; i; j], z) => mkCatalogVersion a b c d e f g z h i j
          | _ => mkCatalogVersion "" "" "" "" "" "" "" 0 "" "" ""
          end) _).
  by intros [].
Defined.
#[global] Instance CatalogFile_countable : Countable CatalogFile.
Proof.
  refine (inj_countable' (λ f, (fRootCID f, DisplayName f, Extension f, CreatedAt f, Versions f))
    (λ '(a, b, c, d, l), mkCatalogFile a b c d l) _).
  by intros [].
Defined.
#[global] Instance Catalog_countable : Countable Catalog.
Proof. refine (inj_countable' Files mkCatalog _). by intros []. Defined.

Definition exMarshal (c : Catalog) : outcome string := Ret (printPos (encode c)).
Definition exUnmarshal (data : string) : outcome Catalog :=
  match decode (scanPos data) with Some c => Ret c | None => Fail "invalid character" end.

Lemma exMarshal_total c : is_ret (exMarshal c).
Proof. by eexists. Qed.

Lemma exUnmarshal_Marshal c data :
  True → exMarshal c = Ret data → exUnmarshal (data +:+ nl) = Ret c.
Proof.
  intros _ [= <-]. unfold exUnmarshal, nl. by rewrite scanPos_printPos, decode_encode.
Qed.

(** A catalog with one upload. *)
Definition exCatalog : Catalog :=
  mkCatalog [mkCatalogFile "root" "report.txt" ".txt" "t0"
    [initialVersion "root" "report.txt" 2048 "0" "t0"]].

Definition exDisk : Disk :=
  {[ catalogPath "/srv" := match exMarshal exCatalog with Ret data => data +:+ nl | _ => "" end ]}.

Lemma exStored : stored exUnmarshal "/srv" exDisk exCatalog.
Proof. unfold stored, exDisk. rewrite lookup_singleton_eq. by apply exUnmarshal_Marshal. Qed.

Lemma exCatalog_ok : catalogOk exCatalog.
Proof. apply (bool_decide_unpack _). by vm_compute. Qed.

(** An upload to an empty directory; an update of the upload. *)
Lemma recordInitialVersion_stores_witness :
  ∃ d' f v c', recordInitialVersion exMarshal exUnmarshal "/srv" noFaults "root" "/tmp/report.txt" "" 2048 "0" "t0" ∅
      = (d', Ret (f, v)) ∧ VersionLabel v = "v1" ∧ stored exUnmarshal "/srv" d' c' ∧
    holds c' "root" ("root", "", "0", 2048, "t0").
Proof.
  destruct (recordInitialVersion_stores exMarshal exUnmarshal "/srv" (λ _, True) exMarshal_total exUnmarshal_Marshal
    ∅ (mkCatalog []) "root" "/tmp/report.txt" "" 2048 "0" "t0") as [(d'&[f v]&E) H].
  - reflexivity.
  - apply (bool_decide_unpack _). by vm_compute.
  - destruct (H noFaults d' f v E) as (_&_&Hl&c'&_&Hst&Hh). exists d', f, v, c'. split_and!; [exact E|exact Hl|by apply Hst|].
    apply Hh. right. split_and!; [|reflexivity..]. intros (g&Hg&_). by apply not_elem_of_nil in Hg.
Defined.

Lemma recordPatchVersion_stores_witness :
  ∃ d' r, recordPatchVersion exMarshal exUnmarshal "/srv" noFaults "patch" "root" "/tmp/report.txt" "" 2100 "1" "t1" exDisk
      = (d', Ret r).
Proof.
  destruct (recordPatchVersion_stores exMarshal exUnmarshal "/srv" (λ _, True) exMarshal_total exUnmarshal_Marshal
    exDisk exCatalog "patch" "root" "/tmp/report.txt" "" 2100 "1" "t1" exStored exCatalog_ok) as (_&H&_).
  apply H. exists "root". eexists. split; [apply list_elem_of_here|]. split; [done|]. apply list_elem_of_here.
Defined.

Lemma handleCatalog_answers_witness :
  ∃ c', handleCatalog exUnmarshal "/srv" noFaults "GET" exDisk = (exDisk, Ret (200, inl (Files c'))) ∧
    sameContents exCatalog c'.
Proof. apply (handleCatalog_answers exUnmarshal "/srv" noFaults "GET" exDisk exCatalog exStored exCatalog_ok). reflexivity. Defined.
