(* ===== verification/ProofLog.v ===== *)
(** * The proof log of a miner (storage/prooflog/proof_log.go)

    [StartProof] and [CompleteProof] keep the state of the last storage proof
    and the last window PoSt in a text file of [key=value] lines, which the
    HTTP API reads.  Times are nanoseconds; the RFC 3339 text of a time comes
    with it. *)

From Stdlib Require Import Ascii SpecFloat.
From coqutil Require Import Datatypes.RecordSetters.
From stdpp Require Import strings numbers base gmap fin_maps list.
From S2P Require Import Prelude GoStrings GoFiles.
Import DoubleBraceUpdate.
Local Open Scope Z_scope.

Definition fileName : string := "proof_info.log".

Definition StorageProof : string := "storage_proof".
Definition WindowPoSt : string := "window_post".
Definition StatusProcessing : string := "processing".
Definition StatusCompleted : string := "completed".

Record ProofRecord := mkProofRecord {
  Type_ : string; Status : string; Timestamp : string;
  GenerateDurationSeconds : string; VerifyDurationMilliseconds : string
}.

Record proofInfoState := mkState { storageProof : ProofRecord; windowPoSt : ProofRecord }.

(** ** Durations *)

(** [float64] arithmetic. *)
Definition ofInt (z : Z) : spec_float := binary_normalize 53 1024 z 0 false.
Definition fadd := SFadd 53 1024.
Definition fdiv := SFdiv 53 1024.

(** [strconv.FormatFloat(x, 'f', 3, 64)]: the exact value rounded to thousandths,
    ties to even. *)
Definition thousandths (m : positive) (e : Z) : Z :=
  let num := Zpos m * 1000 * 2 ^ Z.max 0 e in
  let den := 2 ^ Z.max 0 (- e) in
  let q := num / den in
  let r := num mod den in
  if bool_decide (den < 2 * r) || (bool_decide (2 * r = den) && Z.odd q) then q + 1 else q.

Definition sprintf3 (t : Z) : string :=
  Itoa (t / 1000) +:+ "." +:+ Itoa (t / 100 mod 10) +:+ Itoa (t / 10 mod 10) +:+ Itoa (t mod 10).

Definition FormatFloat3 (x : spec_float) : string :=
  match x with
  | S754_zero s => (if s then "-" else "") +:+ "0.000"
  | S754_infinity s => if s then "-Inf" else "+Inf"
  | S754_nan => "NaN"
  | S754_finite s m e => (if s then "-" else "") +:+ sprintf3 (thousandths m e)
  end.

(** [time.Duration.Seconds] *)
Definition Seconds (d : Z) : spec_float :=
  fadd (ofInt (Z.quot d 1000000000)) (fdiv (ofInt (Z.rem d 1000000000)) (ofInt 1000000000)).

Definition formatSeconds (d : Z) : string := FormatFloat3 (Seconds d).

Definition formatMilliseconds (d : Z) : string := FormatFloat3 (fdiv (ofInt (Z.quot d 1000)) (ofInt 1000)).

Example formatSeconds_ex :
  formatSeconds 12345678901 = "12.346" ∧ formatSeconds 0 = "0.000" ∧ formatSeconds (-1500000000) = "-1.500".
Proof. vm_compute. auto. Qed.

Example formatMilliseconds_ex : formatMilliseconds 1234567 = "1.234" ∧ formatMilliseconds 999 = "0.000".
Proof. vm_compute. auto. Qed.

(** [t.Sub(u)], which saturates. *)
Definition Sub (t u : Z) : Z := Z.max minInt64 (Z.min maxInt64 (t - u)).

(** ** Reading the file *)

Definition setRecord (st : proofInfoState) (rec : ProofRecord) : proofInfoState :=
  if decide (Type_ rec = StorageProof) then st {{ storageProof := rec }}
  else if decide (Type_ rec = WindowPoSt) then st {{ windowPoSt := rec }}
  else st.

Definition emptyRecord (pt : string) : ProofRecord := mkProofRecord pt "" "" "0" "0".
Definition emptyState : proofInfoState := mkState (emptyRecord StorageProof) (emptyRecord WindowPoSt).

(** [switch key] *)
Definition setKey (key val : string) (st : proofInfoState) : proofInfoState :=
  if decide (key = "storage_proof_type") then st {{ storageProof := (storageProof st) {{ Type_ := val }} }}
  else if decide (key = "storage_proof_status") then st {{ storageProof := (storageProof st) {{ Status := val }} }}
  else if decide (key = "storage_proof_timestamp") then st {{ storageProof := (storageProof st) {{ Timestamp := val }} }}
  else if decide (key = "storage_proof_generate_duration_seconds") then
    st {{ storageProof := (storageProof st) {{ GenerateDurationSeconds := val }} }}
  else if decide (key = "storage_proof_verify_duration_milliseconds") then
    st {{ storageProof := (storageProof st) {{ VerifyDurationMilliseconds := val }} }}
  else if decide (key = "storage_proof_verify_duration_seconds") then
    st {{ storageProof := (storageProof st) {{ VerifyDurationMilliseconds := val }} }}
  else if decide (key = "window_post_type") then st {{ windowPoSt := (windowPoSt st) {{ Type_ := val }} }}
  else if decide (key = "window_post_status") then st {{ windowPoSt := (windowPoSt st) {{ Status := val }} }}
  else if decide (key = "window_post_timestamp") then st {{ windowPoSt := (windowPoSt st) {{ Timestamp := val }} }}
  else if decide (key = "window_post_generate_duration_seconds") then
    st {{ windowPoSt := (windowPoSt st) {{ GenerateDurationSeconds := val }} }}
  else if decide (key = "window_post_verify_duration_milliseconds") then
    st {{ windowPoSt := (windowPoSt st) {{ VerifyDurationMilliseconds := val }} }}
  else if decide (key = "window_post_verify_duration_seconds") then
    st {{ windowPoSt := (windowPoSt st) {{ VerifyDurationMilliseconds := val }} }}
  else st.

(** The key and the value of a line, if it has them. *)
Definition keyValue (text : string) : option (string * string) :=
  let line := TrimSpace text in
  if decide (line = "") then None
  else match SplitN2 "=" line with
       | None => None
       | Some (k, v) => Some (TrimSpace k, TrimSpace v)
       end.

Definition scanLine (st : proofInfoState) (text : string) : proofInfoState :=
  match keyValue text with Some (key, val) => setKey key val st | None => st end.

Definition loadState (faults : Faults) (path : string) : io Disk proofInfoState :=
  data ← wrapErr ("open " +:+ path +:+ ": ") (ReadFile faults path);
  match data with
  | None => mret emptyState
  | Some content =>
      lines ← wrapErr ("read " +:+ path +:+ ": ") (lift (scanLines content));
      mret (foldl scanLine emptyState lines)
  end.

(** ** Writing the file *)

Definition recordLines (prefix : string) (r : ProofRecord) : list string :=
  [prefix +:+ "_type=" +:+ Type_ r; prefix +:+ "_status=" +:+ Status r;
   prefix +:+ "_timestamp=" +:+ Timestamp r;
   prefix +:+ "_generate_duration_seconds=" +:+ GenerateDurationSeconds r;
   prefix +:+ "_verify_duration_milliseconds=" +:+ VerifyDurationMilliseconds r].

Definition stateLines (st : proofInfoState) : list string :=
  recordLines "storage_proof" (storageProof st) ++ [""] ++ recordLines "window_post" (windowPoSt st).

Definition writeState (faults : Faults) (path : string) (st : proofInfoState) : io Disk unit :=
  let data := Join (stateLines st) nl +:+ nl in
  let tmp := path +:+ ".tmp" in
  _ ← wrapErr ("write temp " +:+ tmp +:+ ": ") (WriteFile faults tmp data);
  wrapErr ("replace " +:+ path +:+ ": ") (Rename faults tmp path).

(** ** The two operations *)

(** A time and its RFC 3339 text. *)
Record Time := mkTime { ns : Z; text : string }.

Definition StartProof (faults : Faults) (now : Time) (pt : string) : io Disk Time :=
  let rec := mkProofRecord pt StatusProcessing (text now) "0" "0" in
  st ← loadState faults fileName;
  _ ← writeState faults fileName (setRecord st rec);
  mret now.

Definition CompleteProof (faults : Faults) (now : Time) (pt : string) (startedAt verifyStartedAt : Time) :
    io Disk unit :=
  let rec := mkProofRecord pt StatusCompleted (text now)
               (formatSeconds (Sub (ns verifyStartedAt) (ns startedAt)))
               (formatMilliseconds (Sub (ns now) (ns verifyStartedAt))) in
  st ← loadState faults fileName;
  writeState faults fileName (setRecord st rec).

(** * What the proof log keeps

    The file reads back as it was written, and the operations replace the record
    of one kind of proof, keep the other and never leave a partial file. *)

(** ** The file and its state *)

(** Values without white space that leave room for the key in a scanner's line. *)
Definition goodText (s : string) : Prop := plain s = true ∧ Z.of_nat (String.length s) ≤ 60000.

Definition goodRecord (r : ProofRecord) : Prop :=
  Forall goodText [Type_ r; Status r; Timestamp r; GenerateDurationSeconds r; VerifyDurationMilliseconds r].

Definition goodState (st : proofInfoState) : Prop := goodRecord (storageProof st) ∧ goodRecord (windowPoSt st).

(** The log file holds [st]; a missing file holds the empty state. *)
Definition logged (d : Disk) (st : proofInfoState) : Prop :=
  match d !! fileName with
  | None => st = emptyState
  | Some data => data = Join (stateLines st) nl +:+ nl
  end.

#[global] Instance goodText_dec s : Decision (goodText s).
Proof. unfold goodText. apply _. Defined.
#[global] Instance goodState_dec st : Decision (goodState st).
Proof. unfold goodState, goodRecord. apply _. Defined.

(** ** Reading what was written *)

Lemma Join_unlines l : l ≠ [] → Join l nl +:+ nl = unlines l.
Proof.
  intros H. induction l as [|s l IH]; [done|]. destruct l as [|t l]; [done|].
  rewrite Join_cons by done. rewrite unlines_cons, !app_assoc_str, IH by done. done.
Qed.

(** A key as [writeState] writes it, with its equals sign. *)
Definition goodKey (key : string) : Prop :=
  plain key = true ∧ hasByte "="%char key = false ∧ (String.length key ≤ 60)%nat.

Lemma keyValue_line key val :
  goodKey key → plain val = true → key ≠ "" → keyValue (key +:+ String "=" val) = Some (key, val).
Proof.
  intros (Hk&He&_) Hv Hne. unfold keyValue.
  assert (plain (key +:+ String "=" val) = true) as Hp by (unfold plain in *; rewrite allBytes_app, Hk; done).
  rewrite (TrimSpace_plain _ Hp), decide_False.
  - rewrite SplitN2_app by done. by rewrite !TrimSpace_plain.
  - destruct key; [done|]. done.
Qed.

Lemma line_scannable key val : goodKey key → goodText val → scannable (key +:+ String "=" val).
Proof.
  intros (Hk&_&Hl) [Hv Hlen]. apply plain_scannable; [unfold plain in *; rewrite allBytes_app, Hk; done|].
  unfold tooLong. rewrite length_app_str. simpl. apply bool_decide_eq_false. unfold maxScanTokenSize. lia.
Qed.

(** The lines as keys with values. *)
Definition line (key val : string) : string := key +:+ String "=" val.

Definition recordKeys (prefix : string) : list string :=
  [prefix +:+ "_type"; prefix +:+ "_status"; prefix +:+ "_timestamp";
   prefix +:+ "_generate_duration_seconds"; prefix +:+ "_verify_duration_milliseconds"].

Definition fields (r : ProofRecord) : list string :=
  [Type_ r; Status r; Timestamp r; GenerateDurationSeconds r; VerifyDurationMilliseconds r].

Lemma recordLines_kv prefix r : recordLines prefix r = zip_with line (recordKeys prefix) (fields r).
Proof. unfold recordLines, line. simpl. by rewrite !app_assoc_str. Qed.

Lemma storageKeys_good : Forall (λ k, goodKey k ∧ k ≠ "") (recordKeys "storage_proof").
Proof. unfold goodKey. repeat constructor; vm_compute; lia || done. Qed.

Lemma windowKeys_good : Forall (λ k, goodKey k ∧ k ≠ "") (recordKeys "window_post").
Proof. unfold goodKey. repeat constructor; vm_compute; lia || done. Qed.

Lemma lines_scannable ks vs :
  Forall (λ k, goodKey k ∧ k ≠ "") ks → Forall goodText vs → Forall scannable (zip_with line ks vs).
Proof.
  intros Hk. revert vs. induction Hk as [|k ks [Hk _] Hks IH]; intros [|v vs] Hv; simpl; [by constructor..|].
  apply Forall_cons in Hv as [Hv Hvs]. constructor; [by apply line_scannable|by apply IH].
Qed.

Lemma lines_scanned ks vs st :
  Forall (λ k, goodKey k ∧ k ≠ "") ks → Forall goodText vs →
  foldl scanLine st (zip_with line ks vs) = foldl (λ st kv, setKey kv.1 kv.2 st) st (zip ks vs).
Proof.
  intros Hk. revert vs st. induction Hk as [|k ks [Hk Hne] Hks IH]; intros [|v vs] st Hv; simpl; [done..|].
  apply Forall_cons in Hv as [[Hv _] Hvs]. unfold scanLine at 2, line.
  rewrite keyValue_line by done. by apply IH.
Qed.

Lemma stateLines_scanned st :
  goodState st → scanLines (Join (stateLines st) nl +:+ nl) = Ret (stateLines st) ∧
  foldl scanLine emptyState (stateLines st) = st.
Proof.
  intros [Hs Hw]. unfold stateLines. rewrite !recordLines_kv. split.
  - rewrite Join_unlines by done. apply scanLines_unlines.
    apply Forall_app. split; [by apply lines_scannable, Hs; apply storageKeys_good|].
    constructor; [by apply plain_scannable|]. by apply lines_scannable, Hw; apply windowKeys_good.
  - rewrite !foldl_app. rewrite (lines_scanned (recordKeys "storage_proof")) by (done || apply storageKeys_good).
    cbn [foldl]. change (scanLine ?x "") with x. rewrite (lines_scanned (recordKeys "window_post")) by (done || apply windowKeys_good).
    by destruct st as [[] []].
Qed.

(** ** Loading and saving *)

Lemma loadState_world faults path d : (loadState faults path d).1 = d.
Proof.
  unfold loadState, wrapErr, ReadFile, lift. io_step. destruct (readFault faults path); [done|]. simpl.
  destruct (d !! path) as [data|]; [|done]. by destruct (scanLines data).
Qed.

Lemma loadState_logged faults d st :
  logged d st → goodState st →
  loadState faults fileName d =
    match readFault faults fileName with
    | Some e => (d, Fail ("open " +:+ fileName +:+ ": " +:+ e))
    | None => (d, Ret st)
    end.
Proof.
  intros Hl Hg. unfold loadState, wrapErr, ReadFile, lift. io_step.
  destruct (readFault faults fileName); [done|]. unfold logged in Hl.
  destruct (d !! fileName) as [data|]; [|by subst]. subst data.
  destruct (stateLines_scanned st Hg) as [-> E]. by rewrite E.
Qed.

Lemma writeState_cases faults st d :
  let '(d', o) := writeState faults fileName st d in
  match o with Ret _ => logged d' st | _ => d' !! fileName = d !! fileName end.
Proof.
  unfold writeState.
  pose proof (replaceFile_cases faults ("write temp " +:+ (fileName +:+ ".tmp") +:+ ": ") ("replace " +:+ fileName +:+ ": ")
    (fileName +:+ ".tmp") fileName (Join (stateLines st) nl +:+ nl) d (tmp_ne fileName)) as H.
  unfold mbind, io_bind in *. destruct (wrapErr _ _ d) as [d1 [[]| |]]; [|done..].
  destruct (wrapErr _ _ d1) as [d2 [[]| |]]; [|done..]. unfold logged. by rewrite H.
Qed.

Lemma writeState_total st d : ∃ d', writeState noFaults fileName st d = (d', Ret tt).
Proof. unfold writeState, wrapErr, WriteFile, Rename. io_step. rewrite lookup_insert_eq. eauto. Qed.

(** ** The operations *)

(** Replacing the record of one kind of proof. *)
Definition replaceRecord (faults : Faults) (rec : ProofRecord) : io Disk unit :=
  st ← loadState faults fileName; writeState faults fileName (setRecord st rec).

Lemma setRecord_good st rec : goodState st → goodRecord rec → goodState (setRecord st rec).
Proof. intros [Hs Hw] Hr. unfold setRecord. destruct st. case_decide; [done|]. by case_decide. Qed.

(** What a change of the log does: it returns when nothing fails; when it returns the
    log holds the changed state, and otherwise the file is as before. *)
Lemma replaceRecord_spec rec d st :
  logged d st → goodState st →
  (∃ d', replaceRecord noFaults rec d = (d', Ret tt)) ∧
  ∀ faults, let '(d', o) := replaceRecord faults rec d in
    match o with Ret _ => logged d' (setRecord st rec) | _ => d' !! fileName = d !! fileName end.
Proof.
  intros Hl Hg. unfold replaceRecord. split.
  - pose proof (loadState_logged noFaults d st Hl Hg) as E. simpl in E. rewrite (io_bind_eq _ _ _ _ _ E).
    apply writeState_total.
  - intros faults. pose proof (loadState_logged faults d st Hl Hg) as E. unfold mbind, io_bind. rewrite E.
    destruct (readFault faults fileName); [done|]. apply writeState_cases.
Qed.

Lemma StartProof_replace faults now pt d :
  StartProof faults now pt d =
    let '(d', o) := replaceRecord faults (mkProofRecord pt StatusProcessing (text now) "0" "0") d in
    (d', _ ← o; Ret now).
Proof.
  unfold StartProof, replaceRecord, mbind, io_bind. destruct (loadState faults fileName d) as [d1 [st| |]]; [|done..].
  by destruct (writeState faults fileName _ d1) as [d2 [[]| |]].
Qed.

(** The proof log reads back: after [writeState] of records without white
    space has returned, [loadState] gives the same records and changes nothing. *)
Theorem proofLog_roundtrip faults st d d' :
  goodState st → writeState faults fileName st d = (d', Ret tt) →
  loadState noFaults fileName d' = (d', Ret st).
Proof.
  intros Hg E. pose proof (writeState_cases faults st d) as H. rewrite E in H.
  by apply (loadState_logged noFaults d' st).
Qed.

(** The record that [StartProof] and [CompleteProof] write. *)
Definition startedRecord (pt : string) (now : Time) : ProofRecord :=
  mkProofRecord pt StatusProcessing (text now) "0" "0".

Definition completedRecord (pt : string) (started verified now : Time) : ProofRecord :=
  mkProofRecord pt StatusCompleted (text now) (formatSeconds (Sub (ns verified) (ns started)))
    (formatMilliseconds (Sub (ns now) (ns verified))).

(** The life of a proof in the log: from a good log, [StartProof] returns the
    time of the start when nothing fails, and whenever it returns the log says that
    this proof is in progress; [CompleteProof] then leaves it completed with the time
    spent on the proof in seconds and on its verification in milliseconds.  The record of
    the other kind of proof stays as it is, and an operation that fails leaves the
    log as it was. *)
Theorem proof_lifecycle d st pt started verified now :
  logged d st → goodState st → pt = StorageProof ∨ pt = WindowPoSt →
  goodRecord (startedRecord pt started) → goodRecord (completedRecord pt started verified now) →
  let other st := if decide (pt = StorageProof) then windowPoSt st else storageProof st in
  let own st := if decide (pt = StorageProof) then storageProof st else windowPoSt st in
  (∃ d', StartProof noFaults started pt d = (d', Ret started)) ∧
  (∀ faults, let '(d', o) := StartProof faults started pt d in
    match o with
    | Ret t => t = started ∧ ∃ st', logged d' st' ∧ goodState st' ∧
        own st' = startedRecord pt started ∧ other st' = other st ∧
        (∃ d2, CompleteProof noFaults now pt started verified d' = (d2, Ret tt)) ∧
        ∀ faults', let '(d2, o2) := CompleteProof faults' now pt started verified d' in
          match o2 with
          | Ret _ => ∃ st2, logged d2 st2 ∧ goodState st2 ∧
              own st2 = completedRecord pt started verified now ∧ other st2 = other st
          | _ => d2 !! fileName = d' !! fileName
          end
    | _ => d' !! fileName = d !! fileName
    end).
Proof.
  intros Hl Hg Hpt Hr1 Hr2 other own.
  assert (∀ st rec, Type_ rec = pt → own (setRecord st rec) = rec ∧ other (setRecord st rec) = other st) as Hset.
  { intros [a b] rec Et. unfold own, other, setRecord. rewrite Et.
    destruct Hpt as [-> | ->]; simpl; done. }
  destruct (replaceRecord_spec (startedRecord pt started) d st Hl Hg) as [[d0 E0] H0]. split.
  - exists d0. rewrite StartProof_replace. unfold startedRecord in E0. by rewrite E0.
  - intros faults. rewrite StartProof_replace. specialize (H0 faults). unfold startedRecord in H0.
    destruct (replaceRecord faults _ d) as [d1 [[]| |]]; [|done..]. simpl. split; [done|].
    pose proof (setRecord_good st _ Hg Hr1) as Hg1. destruct (Hset st (startedRecord pt started) eq_refl) as [Ho1 Hx1].
    exists (setRecord st (startedRecord pt started)). split_and!; [done..| |].
    + apply (replaceRecord_spec (completedRecord pt started verified now) d1 _ H0 Hg1).
    + intros faults'. destruct (replaceRecord_spec (completedRecord pt started verified now) d1 _ H0 Hg1) as [_ H1].
      specialize (H1 faults'). change (CompleteProof faults' now pt started verified)
        with (replaceRecord faults' (completedRecord pt started verified now)).
      destruct (replaceRecord faults' _ d1) as [d2 [[]| |]]; [|done..].
      destruct (Hset (setRecord st (startedRecord pt started)) (completedRecord pt started verified now) eq_refl) as [Ho2 Hx2].
      eexists. split_and!; [exact H1|by apply setRecord_good|done|by etrans; [exact Hx2|]].
Qed.

(** ** A storage proof of 12.5 s, verified in 3.25 ms *)

Definition t0 : Time := mkTime 1700000000000000000 "2023-11-14T22:13:20Z".
Definition t1 : Time := mkTime 1700000012500000000 "2023-11-14T22:13:32Z".
Definition t2 : Time := mkTime 1700000012503250000 "2023-11-14T22:13:32Z".

Lemma proofLog_roundtrip_witness :
  ∃ d', writeState noFaults fileName (setRecord emptyState (completedRecord StorageProof t0 t1 t2)) ∅ = (d', Ret tt) ∧
    loadState noFaults fileName d' = (d', Ret (setRecord emptyState (completedRecord StorageProof t0 t1 t2))).
Proof.
  destruct (writeState_total (setRecord emptyState (completedRecord StorageProof t0 t1 t2)) ∅) as [d' E].
  exists d'. split; [exact E|]. apply (proofLog_roundtrip noFaults _ ∅ d'); [|exact E].
  apply (bool_decide_unpack _). by vm_compute.
Defined.

Lemma proof_lifecycle_witness :
  (∃ d', StartProof noFaults t0 StorageProof ∅ = (d', Ret t0)) ∧
  completedRecord StorageProof t0 t1 t2
  = mkProofRecord "storage_proof" "completed" "2023-11-14T22:13:32Z" "12.500" "3.250".
Proof.
  split; [|by vm_compute].
  apply (proof_lifecycle ∅ emptyState StorageProof t0 t1 t2); [reflexivity|..]; apply (bool_decide_unpack _); by vm_compute.
Defined.
