(* ===== verification/ApiInfo.v ===== *)
(** * What the HTTP API reports about miners and proofs (cmd/opendsn-api/handlers.go)

    The server reads its own [miner_info.log], [proof_info.log] and
    [miner_ip.log], and the first two from the other miners over HTTP. *)

From Stdlib Require Import Ascii.
From coqutil Require Import Datatypes.RecordSetters.
From stdpp Require Import strings numbers base gmap fin_maps list.
From S2P Require Import Prelude GoStrings GoFiles ProofLog.
Import DoubleBraceUpdate.
Local Open Scope Z_scope.

Record MinerInfo := mkMinerInfo {
  miNodeIP : string; Index : string; StoragePower : string;
  CommittedSpace : string; UserDataSize : string
}.

Record ProofInfo := mkProofInfo {
  piNodeIP : string; piProofType : string; piStatus : string; piTimestamp : string;
  piGenerateDurationSeconds : string; piVerifyDurationMilliseconds : string
}.

Record RootInfo := mkRootInfo { Root : string }.

(** ** The parsers *)

Definition setMinerKey (key val : string) (info : MinerInfo) : MinerInfo :=
  if decide (key = "ip") then info {{ miNodeIP := val }}
  else if decide (key = "miner") then info {{ Index := val }}
  else if decide (key = "quality_adjusted_power") then info {{ StoragePower := val }}
  else if decide (key = "committed_space") then info {{ CommittedSpace := val }}
  else if decide (key = "user_data_size") then info {{ UserDataSize := val }}
  else info.

Definition parseMinerInfo (content : string) : outcome MinerInfo :=
  lines ← scanLines content;
  Ret (foldl (λ info text, match keyValue text with
                           | Some (key, val) => setMinerKey key val info
                           | None => info
                           end) (mkMinerInfo "" "" "" "" "") lines).

(** The two entries of [records]. *)
Definition setProofKey (key val : string) (r : ProofInfo * ProofInfo) : ProofInfo * ProofInfo :=
  let '(storage, window) := r in
  if decide (key = "storage_proof_type") then (storage {{ piProofType := val }}, window)
  else if decide (key = "storage_proof_status") then (storage {{ piStatus := val }}, window)
  else if decide (key = "storage_proof_timestamp") then (storage {{ piTimestamp := val }}, window)
  else if decide (key = "storage_proof_generate_duration_seconds") then
    (storage {{ piGenerateDurationSeconds := val }}, window)
  else if decide (key = "storage_proof_verify_duration_milliseconds") then
    (storage {{ piVerifyDurationMilliseconds := val }}, window)
  else if decide (key = "storage_proof_verify_duration_seconds") then
    (storage {{ piVerifyDurationMilliseconds := val }}, window)
  else if decide (key = "window_post_type") then (storage, window {{ piProofType := val }})
  else if decide (key = "window_post_status") then (storage, window {{ piStatus := val }})
  else if decide (key = "window_post_timestamp") then (storage, window {{ piTimestamp := val }})
  else if decide (key = "window_post_generate_duration_seconds") then
    (storage, window {{ piGenerateDurationSeconds := val }})
  else if decide (key = "window_post_verify_duration_milliseconds") then
    (storage, window {{ piVerifyDurationMilliseconds := val }})
  else if decide (key = "window_post_verify_duration_seconds") then
    (storage, window {{ piVerifyDurationMilliseconds := val }})
  else r.

Definition parseProofInfo (content : string) : outcome (list ProofInfo) :=
  lines ← scanLines content;
  let r := foldl (λ r text, match keyValue text with
                            | Some (key, val) => setProofKey key val r
                            | None => r
                            end)
             (mkProofInfo "" "storage_proof" "" "" "0" "0", mkProofInfo "" "window_post" "" "" "0" "0") lines in
  Ret [r.1; r.2].

(** The non-blank lines, trimmed, each at its first place. *)
Fixpoint distinctLines (seen : gset string) (lines : list string) : list string :=
  match lines with
  | [] => []
  | line :: rest =>
      let ip := TrimSpace line in
      if decide (ip = "") then distinctLines seen rest
      else if decide (ip ∈ seen) then distinctLines seen rest
      else ip :: distinctLines ({[ ip ]} ∪ seen) rest
  end.

Section server.
(** [s.httpClient.Get]: the status code, the status text and the body, or an error;
    the directory of the server and the miners' port. *)
Variable Get : string → outcome (Z * string * string).
Variable RepoRoot : string.
Variable MinerHTTPPort : Z.

Definition inRepo (name : string) : string := RepoRoot +:+ "/" +:+ name.

(** ** Files *)

Definition loadIPs (faults : Faults) (path : string) : io Disk (list string) :=
  data ← ReadFile faults path;
  match data with
  | None => mret []
  | Some content => lines ← lift (scanLines content); mret (distinctLines ∅ lines)
  end.

Definition loadRoots (faults : Faults) (path : string) : io Disk (list RootInfo) :=
  data ← ReadFile faults path;
  match data with
  | None => mret []
  | Some content => lines ← lift (scanLines content); mret (map mkRootInfo (distinctLines ∅ lines))
  end.

(** [None] is the error of a missing file. *)
Definition readMinerInfoFile (faults : Faults) (path : string) : io Disk (option MinerInfo) :=
  data ← ReadFile faults path;
  match data with
  | None => mret None
  | Some content => info ← lift (parseMinerInfo content); mret (Some info)
  end.

Definition readProofInfoFile (faults : Faults) (path : string) : io Disk (option (list ProofInfo)) :=
  data ← ReadFile faults path;
  match data with
  | None => mret None
  | Some content => infos ← lift (parseProofInfo content); mret (Some infos)
  end.

(** ** Other miners *)

Definition minerURL (ip file : string) : string :=
  "http://" +:+ ip +:+ ":" +:+ Itoa MinerHTTPPort +:+ "/" +:+ file.

Definition fetchRemoteMinerInfo (ip : string) : outcome MinerInfo :=
  resp ← Get (minerURL ip "miner_info.log");
  let '(code, status, body) := resp in
  if decide (code ≠ 200) then Fail ("http status " +:+ status)
  else
    info ← parseMinerInfo body;
    Ret (if decide (miNodeIP info = "") then info {{ miNodeIP := ip }} else info).

Definition fetchRemoteProofInfo (ip : string) : outcome (list ProofInfo) :=
  resp ← Get (minerURL ip "proof_info.log");
  let '(code, status, body) := resp in
  if decide (code ≠ 200) then Fail ("http status " +:+ status) else parseProofInfo body.

(** ** The reports *)

(** The loop over the addresses: one's own is left out, as are the miners that do not answer. *)
Fixpoint collectRemote {A} (localIP : string) (fetch : string → outcome (list A)) (ips : list string) :
    outcome (list A) :=
  match ips with
  | [] => Ret []
  | ip :: rest =>
      if decide (ip = "") then collectRemote localIP fetch rest
      else if decide (localIP ≠ "" ∧ ip = localIP) then collectRemote localIP fetch rest
      else match fetch ip with
           | Ret infos => more ← collectRemote localIP fetch rest; Ret (infos ++ more)
           | Fail _ => collectRemote localIP fetch rest
           | Crash => Crash
           end
  end.

Definition collectMinerInfos (faults : Faults) : io Disk (list MinerInfo) :=
  loc ← readMinerInfoFile faults (inRepo "miner_info.log");
  let localIP := match loc with Some info => miNodeIP info | None => "" end in
  ips ← loadIPs faults (inRepo "miner_ip.log");
  remote ← lift (collectRemote localIP (λ ip, info ← fetchRemoteMinerInfo ip; Ret [info]) ips);
  mret (match loc with Some info => info :: remote | None => remote end).

(** The proofs with a status, with the address of their miner. *)
Definition shownProofs (ip : string) (proofs : list ProofInfo) : list ProofInfo :=
  map (λ p, p {{ piNodeIP := ip }}) (filter (λ p, TrimSpace (piStatus p) ≠ "") proofs).

(** An error of any kind on [miner_info.log] leaves the local address empty. *)
Definition localAddress (faults : Faults) : io Disk string := λ d,
  match readMinerInfoFile faults (inRepo "miner_info.log") d with
  | (d', Ret (Some info)) => (d', Ret (miNodeIP info))
  | (d', Crash) => (d', Crash)
  | (d', _) => (d', Ret "")
  end.

Definition collectProofInfos (faults : Faults) : io Disk (list ProofInfo) :=
  localIP ← localAddress faults;
  loc ← readProofInfoFile faults (inRepo "proof_info.log");
  ips ← loadIPs faults (inRepo "miner_ip.log");
  remote ← lift (collectRemote localIP (λ ip, proofs ← fetchRemoteProofInfo ip; Ret (shownProofs ip proofs)) ips);
  mret ((match loc with Some proofs => shownProofs localIP proofs | None => [] end) ++ remote).
End server.

(** * The reports of the HTTP API

    The API's parser agrees with the miner's own reader of the proof log, and the
    collected report has every answering miner once. *)

(** ** The parser of proof logs *)

(** A record as the API reports it. *)
Definition infoOf (r : ProofRecord) : ProofInfo :=
  mkProofInfo "" (Type_ r) (Status r) (Timestamp r) (GenerateDurationSeconds r) (VerifyDurationMilliseconds r).

Definition infosOf (st : proofInfoState) : ProofInfo * ProofInfo :=
  (infoOf (storageProof st), infoOf (windowPoSt st)).

Lemma setProofKey_setKey key val st : setProofKey key val (infosOf st) = infosOf (setKey key val st).
Proof.
  unfold setProofKey, setKey, infosOf. destruct st as [s w].
  repeat (case_decide; [by destruct s, w|]). done.
Qed.

Lemma parseProofInfo_scan content :
  parseProofInfo content =
    (lines ← scanLines content;
     let st := foldl scanLine emptyState lines in
     Ret [infoOf (storageProof st); infoOf (windowPoSt st)]).
Proof.
  unfold parseProofInfo. destruct (scanLines content) as [lines| |]; [|done..]. simpl.
  change (mkProofInfo "" "storage_proof" "" "" "0" "0", mkProofInfo "" "window_post" "" "" "0" "0")
    with (infosOf emptyState).
  match goal with |- context [foldl ?f _ lines] =>
    assert (∀ st, foldl f (infosOf st) lines = infosOf (foldl scanLine st lines)) as -> end; [|done].
  induction lines as [|l lines IH]; intros st; [done|]. simpl. rewrite <- IH. f_equal.
  unfold scanLine. destruct (keyValue l) as [[k v]|]; [apply setProofKey_setKey|done].
Qed.

(** The server reads a proof log as the miner does: on every content of the
    file, [parseProofInfo] gives the two records that [loadState] of the miner
    gives, and fails on the contents on which that fails; so after the operations of
    the miner it reports the state of the log. *)
Theorem parseProofInfo_agrees_with_loadState path content d :
  d !! path = Some content →
  match (loadState noFaults path d).2 with
  | Ret st => parseProofInfo content = Ret [infoOf (storageProof st); infoOf (windowPoSt st)]
  | Fail _ => ∃ e, parseProofInfo content = Fail e
  | Crash => False
  end ∧
  ∀ st, path = fileName → logged d st → goodState st →
    parseProofInfo content = Ret [infoOf (storageProof st); infoOf (windowPoSt st)].
Proof.
  intros Hd. split.
  - rewrite parseProofInfo_scan. unfold loadState, wrapErr, ReadFile, lift. io_step. rewrite Hd.
    unfold scanLines. destruct (existsb _ _); simpl; eauto.
  - intros st -> Hl Hg. unfold logged in Hl. rewrite Hd in Hl. subst content.
    rewrite parseProofInfo_scan. destruct (stateLines_scanned st Hg) as [-> E].
    rewrite bind_ret_l. cbv zeta. by rewrite E.
Qed.

Lemma parseProofInfo_agrees_witness :
  parseProofInfo "storage_proof_status=completed" =
    Ret [mkProofInfo "" "storage_proof" "completed" "" "0" "0"; mkProofInfo "" "window_post" "" "" "0" "0"].
Proof.
  destruct (parseProofInfo_agrees_with_loadState "log" "storage_proof_status=completed"
    {[ "log" := "storage_proof_status=completed" ]} (lookup_singleton_eq _ _)) as [H _].
  vm_compute in H. vm_compute. exact H.
Defined.

(** ** Lines without repetition *)

Lemma distinctLines_spec seen lines :
  NoDup (distinctLines seen lines) ∧
  ∀ x, x ∈ distinctLines seen lines ↔ x ≠ "" ∧ x ∉ seen ∧ x ∈ map TrimSpace lines.
Proof.
  revert seen. induction lines as [|l lines IH]; intros seen; simpl.
  { split; [apply NoDup_nil; done|]. intros x. rewrite !elem_of_nil. tauto. }
  case_decide as E1.
  { destruct (IH seen) as [H1 H2]. split; [done|]. intros x. rewrite H2, elem_of_cons. naive_solver. }
  case_decide as E2.
  { destruct (IH seen) as [H1 H2]. split; [done|]. intros x. rewrite H2, elem_of_cons. naive_solver. }
  destruct (IH ({[TrimSpace l]} ∪ seen)) as [H1 H2]. split.
  - apply NoDup_cons. split; [|done]. rewrite H2. set_solver.
  - intros x. rewrite elem_of_cons, H2, elem_of_cons. destruct (decide (x = TrimSpace l)); set_solver.
Qed.

(** ** Collecting *)

Section collect.
Variable localIP : string.
Variable fetch : string → outcome (list ProofInfo).

(** The entries of the address [ip]. *)
Definition ofIP (ip : string) (l : list ProofInfo) : list ProofInfo := filter (λ p, piNodeIP p = ip) l.

Lemma ofIP_app ip l k : ofIP ip (l ++ k) = ofIP ip l ++ ofIP ip k.
Proof. apply filter_app. Qed.

Lemma ofIP_other ip ip' l : Forall (λ p, piNodeIP p = ip') l → ip ≠ ip' → ofIP ip l = [].
Proof.
  intros H Hne. induction H as [|p l Hp Hl IH]; [done|]. unfold ofIP in *.
  rewrite filter_cons_False; [done|congruence].
Qed.

Hypothesis fetch_own : ∀ ip infos, fetch ip = Ret infos → Forall (λ p, piNodeIP p = ip) infos.

Lemma collectRemote_spec ips out :
  NoDup ips → collectRemote localIP fetch ips = Ret out →
  (∀ ip, ofIP ip out =
     if decide (ip ∈ ips ∧ ip ≠ "" ∧ ip ≠ localIP) then
       match fetch ip with Ret infos => infos | _ => [] end else []) ∧
  ∀ p, p ∈ out → ∃ ip infos, fetch ip = Ret infos ∧ p ∈ infos.
Proof.
  intros Hnd. revert out. induction Hnd as [|ip ips Hn Hnd IH]; intros out; cbn [collectRemote].
  { intros [= <-]. split; [|by intros p ?%not_elem_of_nil].
    intros ip. rewrite decide_False; [done|]. by intros [?%not_elem_of_nil _]. }
  assert (∀ out, ip = "" ∨ ip = localIP → collectRemote localIP fetch ips = Ret out →
    ∀ ip0, ofIP ip0 out = if decide (ip0 ∈ ip :: ips ∧ ip0 ≠ "" ∧ ip0 ≠ localIP) then
       match fetch ip0 with Ret infos => infos | _ => [] end else []) as Hskip.
  { intros o Hi E ip0. rewrite (proj1 (IH o E)). apply decide_ext. rewrite elem_of_cons. naive_solver. }
  case_decide as E1; [intros E; split; [apply Hskip; [by left|done]|by apply IH]|].
  case_decide as E2; [intros E; split; [apply Hskip; [right; tauto|done]|by apply IH]|].
  assert (ip ≠ localIP) as E3 by (intros ->; by apply E2).
  destruct (fetch ip) as [infos| |] eqn:Ef; [|..|done].
  - intros E. inv_bind. injection E as <-. destruct (IH a E0) as [H1 H2].
    pose proof (fetch_own ip infos Ef) as Hown. split.
    + intros ip0. rewrite ofIP_app, H1. destruct (decide (ip0 = ip)) as [->|Hne].
      * rewrite (decide_False (P := ip ∈ ips ∧ _)), app_nil_r by tauto.
        rewrite decide_True by (split; [apply elem_of_cons; by left|done]). rewrite Ef.
        clear Ef. induction Hown as [|p infos Hp Hl IH']; [done|]. unfold ofIP in *. rewrite filter_cons_True by done. by rewrite IH'.
      * rewrite (ofIP_other ip0 ip) by done. rewrite app_nil_l. apply decide_ext. rewrite elem_of_cons. naive_solver.
    + intros p [Hp|Hp]%elem_of_app; eauto.
  - intros E. destruct (IH out E) as [H1 H2]. split; [|done]. intros ip0. rewrite H1.
    destruct (decide (ip0 = ip)) as [->|Hne].
    + rewrite decide_False by tauto. by case_decide; [rewrite Ef|].
    + apply decide_ext. rewrite elem_of_cons. naive_solver.
Qed.
End collect.

Lemma parseProofInfo_two content infos : parseProofInfo content = Ret infos → length infos = 2%nat.
Proof. rewrite parseProofInfo_scan. intros H. inv_bind. by injection H as <-. Qed.

Lemma shownProofs_ip ip proofs : Forall (λ p, piNodeIP p = ip) (shownProofs ip proofs).
Proof. apply Forall_forall. intros p (q&->&_)%list_elem_of_fmap. by destruct q. Qed.

Lemma shownProofs_status ip proofs : Forall (λ p, TrimSpace (piStatus p) ≠ "") (shownProofs ip proofs).
Proof.
  apply Forall_forall. intros p (q&->&Hq)%list_elem_of_fmap. apply list_elem_of_filter in Hq as [Hq _].
  by destruct q.
Qed.

Lemma shownProofs_length ip proofs : (length (shownProofs ip proofs) ≤ length proofs)%nat.
Proof. unfold shownProofs. rewrite length_map. apply length_filter. Qed.

Lemma ofIP_own ip l : Forall (λ p, piNodeIP p = ip) l → ofIP ip l = l.
Proof.
  induction 1 as [|p l Hp Hl IH]; [done|]. unfold ofIP in *. rewrite filter_cons_True by done. by rewrite IH.
Qed.

Section report.
Variable Get : string → outcome (Z * string * string).
Variable RepoRoot : string.
Variable MinerHTTPPort : Z.

Definition shownBy (ip : string) : outcome (list ProofInfo) :=
  proofs ← fetchRemoteProofInfo Get MinerHTTPPort ip; Ret (shownProofs ip proofs).

Lemma shownBy_own ip infos : shownBy ip = Ret infos →
  Forall (λ p, piNodeIP p = ip) infos ∧ Forall (λ p, TrimSpace (piStatus p) ≠ "") infos ∧ (length infos ≤ 2)%nat.
Proof.
  unfold shownBy, fetchRemoteProofInfo. intros H. inv_bind. injection H as <-. destruct a0 as [[code status] body].
  destruct (decide (code ≠ 200)); [done|]. apply parseProofInfo_two in E.
  pose proof (shownProofs_length ip a). split_and!; [apply shownProofs_ip|apply shownProofs_status|lia].
Qed.

Lemma readProofInfoFile_two faults path d d' loc :
  readProofInfoFile faults path d = (d', Ret loc) →
  d' = d ∧ (length (match loc with Some proofs => proofs | None => [] end) ≤ 2)%nat.
Proof.
  unfold readProofInfoFile, ReadFile, lift. io_step. destruct (readFault faults path); [done|].
  destruct (d !! path) as [content|]; [|by intros [= <- <-]; split; [done|simpl; lia]].
  destruct (parseProofInfo content) as [infos| |] eqn:E; [|done..]. intros [= <- <-].
  apply parseProofInfo_two in E. split; [done|]. simpl. lia.
Qed.

Lemma loadIPs_distinct faults path d d' ips :
  loadIPs faults path d = (d', Ret ips) → d' = d ∧ NoDup ips ∧ "" ∉ ips.
Proof.
  unfold loadIPs, ReadFile, lift. io_step. destruct (readFault faults path); [done|].
  destruct (d !! path) as [content|].
  - destruct (scanLines content) as [lines| |]; [|done..]. intros [= <- <-].
    destruct (distinctLines_spec ∅ lines) as [H1 H2]. split_and!; [done..|]. rewrite H2. tauto.
  - intros [= <- <-]. split_and!; [done|by apply NoDup_nil|apply not_elem_of_nil].
Qed.

Lemma localAddress_world faults d d' ip : localAddress RepoRoot faults d = (d', Ret ip) → d' = d.
Proof.
  unfold localAddress, readMinerInfoFile, ReadFile, lift. io_step.
  destruct (readFault faults _); [by intros [= <- _]|]. destruct (d !! _); [|by intros [= <- _]].
  by destruct (parseMinerInfo _); intros [= <- _].
Qed.

(** The report of proofs: when [collectProofInfos] returns, it has changed
    nothing, every entry has a status, no address has more than its two proofs,
    and for each address of [miner_ip.log] that is not the server's own and whose log
    could be fetched, the entries of that address are exactly those of its log. *)
Theorem collectProofInfos_lists_once faults d d' out :
  collectProofInfos Get RepoRoot MinerHTTPPort faults d = (d', Ret out) →
  d' = d ∧ Forall (λ p, TrimSpace (piStatus p) ≠ "") out ∧
  (∀ ip, (length (ofIP ip out) ≤ 2)%nat) ∧
  ∃ localIP ips,
    localAddress RepoRoot faults d = (d, Ret localIP) ∧
    loadIPs faults (inRepo RepoRoot "miner_ip.log") d = (d, Ret ips) ∧
    ∀ ip proofs, ip ∈ ips → ip ≠ localIP → fetchRemoteProofInfo Get MinerHTTPPort ip = Ret proofs →
      ofIP ip out = shownProofs ip proofs.
Proof.
  unfold collectProofInfos. intros E. apply io_bind_ret in E as (w&localIP&E1&E).
  pose proof (localAddress_world _ _ _ _ E1) as ->.
  apply io_bind_ret in E as (w&loc&E2&E). apply readProofInfoFile_two in E2 as [-> H2].
  apply io_bind_ret in E as (w&ips&E3&E). pose proof (loadIPs_distinct _ _ _ _ _ E3) as (->&Hnd&Hne).
  apply io_bind_ret in E as (w&remote&[= <- E4]&[= <- <-]).
  set (own := match loc with Some proofs => shownProofs localIP proofs | None => [] end).
  assert (Forall (λ p, piNodeIP p = localIP) own ∧ Forall (λ p, TrimSpace (piStatus p) ≠ "") own ∧ (length own ≤ 2)%nat)
    as (Ho1&Ho2&Ho3).
  { unfold own. destruct loc as [proofs|]; [|split_and!; [apply Forall_nil; done..|simpl; lia]].
    pose proof (shownProofs_length localIP proofs). split_and!; [apply shownProofs_ip|apply shownProofs_status|lia]. }
  destruct (collectRemote_spec localIP shownBy (λ ip infos H, proj1 (shownBy_own ip infos H)) ips remote Hnd E4) as [Hr1 Hr2].
  split_and!; [done|..].
  - apply Forall_app. split; [done|]. apply Forall_forall. intros p Hp. destruct (Hr2 p Hp) as (ip&infos&Ei&Hi).
    destruct (shownBy_own _ _ Ei) as (_&Hst&_). rewrite Forall_forall in Hst. by apply Hst.
  - intros ip. rewrite ofIP_app, length_app, Hr1. destruct (decide (ip = localIP)) as [->|Hip].
    + rewrite decide_False by tauto. rewrite ofIP_own by done. simpl. lia.
    + rewrite (ofIP_other ip localIP) by done. destruct (decide _); [|simpl; lia].
      destruct (shownBy ip) eqn:Es; [|simpl; lia..]. destruct (shownBy_own _ _ Es) as (_&_&?). simpl. lia.
  - exists localIP, ips. split_and!; [done..|]. intros ip proofs Hin Hip Hf.
    rewrite ofIP_app, (ofIP_other ip localIP), Hr1 by done. rewrite decide_True; [|by split_and!; [..|intros ->|]].
    unfold shownBy. by rewrite Hf.
Qed.
End report.

(** A miner's answer and a server with two addresses, one of them its own. *)
Definition demoGet (url : string) : outcome (Z * string * string) :=
  if decide (url = "http://10.0.0.2:18080/proof_info.log")
  then Ret (200, "200 OK", "window_post_status=completed" +:+ nl)
  else Fail "connection refused".

Definition demoDisk : Disk :=
  {[ inRepo "/srv" "miner_ip.log" := unlines ["10.0.0.1"; "10.0.0.2"; "10.0.0.2"];
     inRepo "/srv" "miner_info.log" := unlines ["ip=10.0.0.1"];
     inRepo "/srv" "proof_info.log" := unlines ["storage_proof_status=processing"] ]}.

Lemma collectProofInfos_lists_once_witness :
  ∃ out, collectProofInfos demoGet "/srv" 18080 noFaults demoDisk = (demoDisk, Ret out) ∧
    map piNodeIP out = ["10.0.0.1"; "10.0.0.2"] ∧ (length (ofIP "10.0.0.2" out) ≤ 2)%nat.
Proof.
  eexists. split; [vm_compute; reflexivity|]. split; [reflexivity|].
  destruct (collectProofInfos_lists_once demoGet "/srv" 18080 noFaults demoDisk demoDisk
    [mkProofInfo "10.0.0.1" "storage_proof" "processing" "" "0" "0";
     mkProofInfo "10.0.0.2" "window_post" "completed" "" "0" "0"]) as (_&_&H&_); [vm_compute; reflexivity|].
  apply H.
Defined.
