(* ===== verification/ApiDeal.v ===== *)
(** * Deals over the HTTP API (cmd/opendsn-api/handlers.go)

    [POST /api/client/deal] checks the request, runs [lotus client deal] and
    records the new version in the catalog. *)

From Stdlib Require Import Ascii.
From coqutil Require Import Datatypes.RecordSetters.
From stdpp Require Import strings numbers base gmap fin_maps list.
From S2P Require Import Prelude GoStrings GoFiles GoSort Catalog CatalogTree CatalogOps CatalogStore ApiInfo.
Local Open Scope Z_scope.

Record DealRequest := mkDealRequest {
  drRoot : string; drMiner : string; drPreviousRoot : string;
  drSourcePath : string; drDisplayName : string; drSizeBytes : Z
}.

Record DealResponse := mkDealResponse {
  Success : bool; Message : string; ProposalCID : string; Output : string; InitialRoot : string;
  dVersionLabel : string; FileName : string; FileSizeMB : string; dUploadedAt : string
}.

(** What a handler writes: a status with an error text or with an answer. *)
Inductive reply (A : Type) : Type :=
| Error (status : Z) (msg : string)
| Answer (status : Z) (a : A).
Arguments Error {A} status msg.
Arguments Answer {A} status a.

(** ** Handlers that read *)

Definition handleHealth (method : string) : reply string :=
  if decide (method ≠ "GET") then Error 405 "method not allowed" else Answer 200 "ok".

(** [writeError] with the error of [m], or its result. *)
Definition answering {A B} (method : string) (m : io Disk A) (f : A → B) : io Disk (reply B) := λ d,
  if decide (method ≠ "GET") then (d, Ret (Error 405 "method not allowed"))
  else match m d with
       | (d', Ret a) => (d', Ret (Answer 200 (f a)))
       | (d', Fail err) => (d', Ret (Error 500 err))
       | (d', Crash) => (d', Crash)
       end.

Definition handleMiners Get RepoRoot port (faults : Faults) (method : string) : io Disk (reply (list MinerInfo)) :=
  answering method (collectMinerInfos Get RepoRoot port faults) id.

Definition handleProofs Get RepoRoot port (faults : Faults) (method : string) : io Disk (reply (list ProofInfo)) :=
  answering method (collectProofInfos Get RepoRoot port faults) id.

Definition handleClientRoots RepoRoot (faults : Faults) (method : string) : io Disk (reply (list RootInfo)) :=
  answering method (loadRoots faults (inRepo RepoRoot "fileroots.log")) id.

Section deal.
Variable MarshalIndent : Catalog → outcome string.
Variable Unmarshal : string → outcome Catalog.
Variable RepoRoot : string.
Variables DealPrice DealDuration : string.
(** Running the [lotus] binary in the server's directory: the combined output and
    whether it succeeded. *)
Variable lotus : list string → Disk → Disk * (string * bool).
(** The size that [os.Stat] reports for a path that is a file. *)
Variable stat : string → option Z.

Definition runLotusCommand (args : list string) : io Disk (string * bool) := λ d,
  let '(d', (out, ok)) := lotus args d in (d', Ret (TrimSpace out, ok)).

Definition trimRequest (req : DealRequest) : DealRequest :=
  mkDealRequest (TrimSpace (drRoot req)) (TrimSpace (drMiner req)) (TrimSpace (drPreviousRoot req))
    (TrimSpace (drSourcePath req)) (TrimSpace (drDisplayName req)) (drSizeBytes req).

Definition dealArgs (req : DealRequest) : list string :=
  ["client"; "deal"] ++
  (if decide (drPreviousRoot req = "") then ["--create"; drRoot req; drMiner req; DealPrice; DealDuration]
   else ["--update"; "--previous"; drPreviousRoot req; drRoot req; drMiner req; DealPrice; DealDuration]).

Definition dealSize (req : DealRequest) : Z :=
  if decide (drSizeBytes req ≤ 0 ∧ drSourcePath req ≠ "") then default (drSizeBytes req) (stat (drSourcePath req))
  else drSizeBytes req.

Definition recordDeal (faults : Faults) (req : DealRequest) (uploadedAt : string) :
    io Disk (CatalogFile * CatalogVersion) :=
  if decide (drPreviousRoot req = "") then
    recordInitialVersion MarshalIndent Unmarshal RepoRoot faults (drRoot req) (drSourcePath req) (drDisplayName req)
      (dealSize req) (drMiner req) uploadedAt
  else
    recordPatchVersion MarshalIndent Unmarshal RepoRoot faults (drRoot req) (drPreviousRoot req) (drSourcePath req)
      (drDisplayName req) (dealSize req) (drMiner req) uploadedAt.

(** The answer after a deal: [catalogFile] and [catalogVersion] are empty when the
    catalog could not be updated. *)
Definition dealFinished (req : DealRequest) (output uploadedAt message : string)
    (recorded : option (CatalogFile * CatalogVersion)) : DealResponse :=
  mkDealResponse true message (TrimSpace output) output
    (match recorded with Some (f, _) => fRootCID f | None => "" end)
    (match recorded with Some (_, v) => VersionLabel v | None => "" end)
    (match recorded with Some (_, v) => SourceName v | None => "" end)
    (formatSizeMB (dealSize req)) uploadedAt.

Definition handleClientDeal (faults : Faults) (now method : string) (body : option DealRequest) :
    io Disk (reply DealResponse) :=
  if decide (method ≠ "POST") then mret (Error 405 "method not allowed")
  else match body with
  | None => mret (Error 400 "invalid json body")
  | Some req0 =>
      let req := trimRequest req0 in
      if decide (drRoot req = "") then mret (Error 400 "root is required")
      else if decide (drMiner req = "") then mret (Error 400 "miner is required")
      else
        r ← runLotusCommand (dealArgs req);
        let '(output, ok) := r in
        if negb ok then
          mret (Answer 200 (mkDealResponse false "deal failed" (TrimSpace output) output "" "" "" "" ""))
        else λ d,
          match recordDeal faults req now d with
          | (d', Ret fv) => (d', Ret (Answer 200 (dealFinished req output now "deal finished" (Some fv))))
          | (d', Fail err) =>
              (d', Ret (Answer 200 (dealFinished req output now
                         ("deal finished, but catalog update failed: " +:+ err) None)))
          | (d', Crash) => (d', Crash)
          end
  end.

(** ** What a deal request leaves *)

(** [encoding/json] as for the catalog, and [lotus], which writes its own files and not
    those of the server. *)
Variable utf8 : Catalog → Prop.
Hypothesis Marshal_total : ∀ c, is_ret (MarshalIndent c).
Hypothesis Unmarshal_Marshal : ∀ c data, utf8 c → MarshalIndent c = Ret data → Unmarshal (data +:+ nl) = Ret c.
Hypothesis lotus_keeps : ∀ args d, (lotus args d).1 !! catalogPath RepoRoot = d !! catalogPath RepoRoot.

Abbreviation stored := (stored Unmarshal RepoRoot).

(** The catalog in [d'] has what [c] has, and the version of the request. *)
Definition recordedIn (c : Catalog) (req : DealRequest) (resp : DealResponse) (d' : Disk) : Prop :=
  ∃ root c', catalogOk c' ∧ (utf8 c' → stored d' c') ∧ (∀ r e, holds c r e → holds c' r e) ∧
    has c' root (drRoot req) ∧
    (if decide (drPreviousRoot req = "") then
       root = drRoot req ∧ InitialRoot resp = root ∧ dVersionLabel resp = "v1"
     else has c root (drPreviousRoot req)).

(** Contents that grow by one entry have the CID of the entry. *)
Lemma grown_has c c' root cid (e : Entry) :
  e.1.1.1.1 = cid →
  (∀ r x, holds c' r x ↔ holds c r x ∨ (¬ has c root cid ∧ r = root ∧ x = e)) →
  has c' root cid ∧ ∀ r x, holds c r x → holds c' r x.
Proof.
  intros Ee H. split; [|intros r x Hx; apply H; by left]. apply holds_has.
  destruct (decide (has c root cid)) as [Hh|Hh].
  - apply holds_has in Hh as (x&Hx&Ex). exists x. split; [|done]. apply H. by left.
  - exists e. split; [|done]. apply H. by right.
Qed.

Lemma recordDeal_spec d c faults req now :
  stored d c → catalogOk c →
  match recordDeal faults req now d with
  | (d', Ret fv) => ∀ output message, recordedIn c req (dealFinished req output now message (Some fv)) d'
  | (d', Fail err) => d' !! catalogPath RepoRoot = d !! catalogPath RepoRoot
  | (_, Crash) => False
  end.
Proof.
  intros Hs Hok. unfold recordDeal.
  pose proof (record_unchanged MarshalIndent Unmarshal RepoRoot faults d (drRoot req) (drPreviousRoot req)
    (drSourcePath req) (drDisplayName req) (dealSize req) (drMiner req) now) as [Hf1 Hf2].
  destruct (decide (drPreviousRoot req = "")) as [Ep|Ep].
  - pose proof (recordInitialVersion_no_panic MarshalIndent Unmarshal RepoRoot Marshal_total faults d c (drRoot req)
      (drSourcePath req) (drDisplayName req) (dealSize req) (drMiner req) now Hs Hok) as Hn.
    destruct (recordInitialVersion_spec MarshalIndent Unmarshal RepoRoot utf8 Marshal_total Unmarshal_Marshal d c
      (drRoot req) (drSourcePath req) (drDisplayName req) (dealSize req) (drMiner req) now Hs Hok) as [_ H].
    specialize (H faults).
    destruct (recordInitialVersion _ _ _ _ _ _ _ _ _ _ d) as [d' [[f v]| |]]; [|done..].
    destruct (H d' f v eq_refl) as (Hr&Hv&Hl&c'&Hok'&Hst&Hh). intros output message.
    apply grown_has in Hh as [Hh1 Hh2]; [|done]. exists (drRoot req), c'. rewrite decide_True by done. by split_and!.
  - pose proof (recordPatchVersion_no_panic MarshalIndent Unmarshal RepoRoot Marshal_total faults d c (drRoot req)
      (drPreviousRoot req) (drSourcePath req) (drDisplayName req) (dealSize req) (drMiner req) now Hs Hok) as Hn.
    destruct (recordPatchVersion_spec MarshalIndent Unmarshal RepoRoot utf8 Marshal_total Unmarshal_Marshal d c
      (drRoot req) (drPreviousRoot req) (drSourcePath req) (drDisplayName req) (dealSize req) (drMiner req) now Hs Hok)
      as (_&_&H). specialize (H faults).
    destruct (recordPatchVersion _ _ _ _ _ _ _ _ _ _ _ d) as [d' [[f v]| |]]; [|done..].
    destruct (H d' f v eq_refl) as (Hv&root&c'&Hp&Hok'&Hst&Hh). intros output message.
    apply grown_has in Hh as [Hh1 Hh2]; [|done]. exists root, c'. rewrite decide_False by done. by split_and!.
Qed.

(** A deal request over HTTP, with a fine catalog in the file: a request of the
    wrong form is refused without running anything; otherwise [lotus client deal] is
    run once, and the answer says whether it succeeded.  If it failed the catalog file
    is left alone.  If it succeeded, either the message is [deal finished] and the
    catalog has all earlier entries and the new version, under the root itself for a
    first upload and under the file of the previous version for an update, or the
    message says that the catalog update failed and the catalog file is as before. *)
Theorem handleClientDeal_records d c faults now req0 :
  stored d c → catalogOk c →
  let req := trimRequest req0 in
  let '(d', o) := handleClientDeal faults now "POST" (Some req0) d in
  if decide (drRoot req = "" ∨ drMiner req = "") then d' = d ∧ ∃ msg, o = Ret (Error 400 msg)
  else
    let '(d1, (_, ok)) := lotus (dealArgs req) d in
    ∃ resp, o = Ret (Answer 200 resp) ∧ Success resp = ok ∧
      (ok = false → d' = d1) ∧
      (ok = true →
        (Message resp = "deal finished" ∧ recordedIn c req resp d') ∨
        (∃ err, Message resp = "deal finished, but catalog update failed: " +:+ err) ∧
        d' !! catalogPath RepoRoot = d !! catalogPath RepoRoot).
Proof.
  intros Hs Hok req. unfold handleClientDeal. rewrite decide_False by tauto. fold req.
  destruct (decide (drRoot req = "" ∨ drMiner req = "")) as [E|E].
  { destruct (decide (drRoot req = "")); [simpl; eauto|]. destruct (decide (drMiner req = "")); [simpl; eauto|tauto]. }
  rewrite !decide_False by tauto. unfold mbind, io_bind, runLotusCommand.
  pose proof (lotus_keeps (dealArgs req) d) as Hk. destruct (lotus (dealArgs req) d) as [d1 [out ok]]. simpl in Hk.
  destruct ok; simpl; [|eexists; split_and!; done].
  assert (stored d1 c) as Hs1 by (unfold CatalogStore.stored in *; by rewrite Hk).
  pose proof (recordDeal_spec d1 c faults req now Hs1 Hok) as H.
  destruct (recordDeal faults req now d1) as [d' [fv|err|]]; [| |done].
  - eexists. split_and!; [done..|]. intros _. left. split; [done|]. apply H.
  - eexists. split_and!; [done..|]. intros _. right. split; [by exists err|]. by rewrite H.
Qed.
End deal.

(** An upload through a [lotus] that always answers the same. *)
Lemma handleClientDeal_records_witness :
  ∃ d' resp, handleClientDeal exMarshal exUnmarshal "/srv" "0.026" "518400" (λ _ d, (d, ("proposal", true)))
      (λ _, None) noFaults "t0" "POST" (Some (mkDealRequest " root " "1" "" "/tmp/report.txt" "" 2048)) ∅
    = (d', Ret (Answer 200 resp)) ∧ Success resp = true.
Proof.
  pose proof (handleClientDeal_records exMarshal exUnmarshal "/srv" "0.026" "518400" (λ _ d, (d, ("proposal", true)))
    (λ _, None) (λ _, True) exMarshal_total exUnmarshal_Marshal (λ _ _, eq_refl) ∅ (mkCatalog []) noFaults "t0"
    (mkDealRequest " root " "1" "" "/tmp/report.txt" "" 2048) eq_refl
    (bool_decide_unpack (catalogOk (mkCatalog [])) I)) as H.
  destruct (handleClientDeal _ _ _ _ _ _ _ _ _ _ _ ∅) as [d' o]. exists d'.
  rewrite decide_False in H by (by vm_compute; intros [|]).
  destruct H as (resp&->&Hs&_). exists resp. split; [reflexivity|exact Hs].
Defined.
