(* ===== verification/ApiBrowse.v ===== *)
(** * Browsing and previews over the HTTP API (cmd/opendsn-api/browse_preview.go)

    [GET /api/browse] lists a directory of the server's host, [GET /api/preview] shows a
    file as text or names a PDF to load with [GET /api/preview/raw], and Word documents are
    converted once and kept under [.opendsn_preview_cache]. *)

From Stdlib Require Import Ascii Sorted.
From coqutil Require Import Datatypes.RecordSetters.
From stdpp Require Import strings numbers base gmap fin_maps sets list.
From S2P Require Import Prelude GoStrings GoPaths GoSort GoTree ApiDeal.
Local Open Scope Z_scope.

Definition previewMaxTextSize : Z := 10 * 1024 * 1024.
Definition previewCacheDir : string := ".opendsn_preview_cache".

Record BrowseEntry := mkBrowseEntry { beName : string; beIsDir : bool; beSize : Z }.
Record BrowseResponse := mkBrowseResponse { brPath : string; brEntries : list BrowseEntry }.
Record PreviewResponse := mkPreviewResponse { Filename : string; Kind : string; Content : string; ResourceURL : string }.

(** What [handlePreviewRaw] sends: two headers and the file. *)
Record RawResponse := mkRawResponse { ContentType : string; ContentDisposition : string; Body : string }.

(** The bytes of a text, and [strings.HasPrefix] and [strings.TrimSuffix]. *)
Definition HasPrefix (s p : string) : bool := bool_decide (is_Some (stripPrefix p s)).

Definition dropSuffix (s suffix : string) : string :=
  let n := (String.length s - String.length suffix)%nat in
  if decide (String.substring n (String.length suffix) s = suffix) then String.substring 0 n s else s.

(** A handler with the error of [m] as an answer with [status]. *)
Definition orError {A B : Type} (status : Z) (m : io Tree A) (f : A → io Tree (reply B)) : io Tree (reply B) := λ t,
  match m t with
  | (t', Ret a) => f a t'
  | (t', Fail err) => (t', Ret (Error status err))
  | (t', Crash) => (t', Crash)
  end.

(** The same with a text of the handler's own in place of the error. *)
Definition said {W A : Type} (text : string) (m : io W A) : io W A := λ w,
  match m w with (w', Fail _) => (w', Fail text) | r => r end.

(** Going on after an error. *)
Definition onFail {A : Type} (m h : io Tree A) : io Tree A := λ t,
  match m t with (t', Fail _) => h t' | r => r end.

(** ** Browsing *)

Definition entryLess (a b : BrowseEntry) : bool :=
  if decide (beIsDir a ≠ beIsDir b) then beIsDir a else ltb (ToLower (beName a)) (ToLower (beName b)).

Section server.
Variable os : Os.

(** One entry of [entries]: hidden ones and those that have no [Info] are left out. *)
Definition browseEntry (dir : list string) (entry : string * node) : option BrowseEntry :=
  let '(name, n) := entry in
  if HasPrefix name "." then None
  else match statFails os (dir ++ [name]) with
       | Some _ => None
       | None => Some (mkBrowseEntry name (infoIsDir (infoOf n)) (infoSize (infoOf n)))
       end.

Definition handleBrowse (method query : string) : io Tree (reply BrowseResponse) :=
  if decide (method ≠ "GET") then mret (Error 405 "method not allowed")
  else
    let dir := QueryGet query "dir" in
    let dir := if decide (TrimSpace dir = "") then "/" else dir in
    orError 400 (said "invalid directory path" (lift (Abs (Getwd os) dir))) (λ absDir,
    orError 400 (said "cannot access directory" (Stat os absDir)) (λ info,
    if negb (infoIsDir info) then mret (Error 400 "path is not a directory")
    else orError 500 (said "cannot read directory" (ReadDir os absDir)) (λ entries,
      mret (Answer 200 (mkBrowseResponse absDir
        (sortBy entryLess (omap (browseEntry (locate os absDir)) entries))))))).

(** ** Files to preview *)

Definition resolvePreviewTarget (fileParam : string) : io Tree (string * FileInfo) :=
  if decide (TrimSpace fileParam = "") then fail "file parameter is required"
  else
    absPath ← said "invalid file path" (lift (Abs (Getwd os) fileParam));
    info ← said "cannot access file" (Stat os absPath);
    if infoIsDir info then fail "path is a directory, not a file" else mret (absPath, info).

Definition isWordDocument (ext : string) : bool := bool_decide (ext = ".doc" ∨ ext = ".docx").

(** A zero byte at an index from [i] on and below [limit]. *)
Fixpoint zeroByte (i limit : Z) (data : string) : bool :=
  match data with
  | "" => false
  | String a r => if decide (limit ≤ i) then false else if decide (a = zero) then true else zeroByte (i + 1) limit r
  end.

Definition isLikelyBinary (data : string) : bool :=
  let limit := Z.of_nat (String.length data) in
  zeroByte 0 (if decide (limit > 4096) then 4096 else limit) data.

Definition readPreviewText (absPath : string) (size : Z) : io Tree string :=
  if decide (size > previewMaxTextSize) then fail "file too large (max 10MB) for text preview"
  else
    file ← said "cannot open file" (Open os absPath);
    data ← said "cannot read file" (ReadLimited os absPath (previewMaxTextSize + 1) file);
    if isLikelyBinary data then fail "preview is supported for text, PDF, .doc, and .docx files" else mret data.

(** ** Word documents *)

Definition moveOrCopyFile (src dst : string) : io Tree unit :=
  onFail (Rename os src dst) (input ← Open os src; _ ← Create os dst; _ ← Copy os dst input; CloseFile os).

(** [sha256.Sum256], [exec.LookPath], and the run of a program with its arguments: what it
    leaves, its output, and the error when it fails. *)
Variable Sum256 : string → list ascii.
Variable LookPath : string → option string.
Variable run : string → list string → Tree → Tree * (string * option string).
Variable RepoRoot : string.

Definition normalized (sourcePath : string) (info : FileInfo) : string :=
  sourcePath +:+ "|" +:+ Itoa (infoModTime info) +:+ "|" +:+ Itoa (infoSize info).

(** [hex.EncodeToString] *)
Definition lowerhex (n : N) : ascii := ascii_of_N (if n <? 10 then 48 + n else 87 + n)%N.
Fixpoint hexEncode (l : list ascii) : string :=
  match l with
  | [] => ""
  | a :: l' => String (lowerhex (N_of_ascii a / 16)) (String (lowerhex (N_of_ascii a mod 16)) (hexEncode l'))
  end.

Definition previewCacheKey (sourcePath : string) (info : FileInfo) : string :=
  hexEncode (take 16 (Sum256 (normalized sourcePath info))).

Definition lookupLibreOfficeBinary : outcome string :=
  match omap LookPath ["libreoffice"; "soffice"] with
  | path :: _ => Ret path
  | [] => Fail "libreoffice is required for Word preview but was not found in PATH"
  end.

(** [defer os.RemoveAll(dir)] around [m]. *)
Definition deferRemove {A : Type} (dir : string) (m : io Tree A) : io Tree A := λ t,
  let '(t', o) := m t in (RemoveAll os dir t', o).

Definition cacheRoot : string := JoinPath [RepoRoot; previewCacheDir].
Definition cachedPDF (key : string) : string := JoinPath [cacheRoot; key +:+ ".pdf"].

(** The conversion into [tempDir] and the move into the cache. *)
Definition convertInto (converter tempDir sourcePath cached : string) : io Tree string :=
  _ ← (λ t, match run converter ["--headless"; "--convert-to"; "pdf"; "--outdir"; tempDir; sourcePath] t with
            | (t', (_, None)) => (t', Ret tt)
            | (t', (out, Some err)) =>
                (t', Fail ("convert word document to pdf: " +:+ err +:+ " (" +:+ TrimSpace out +:+ ")"))
            end);
  let generatedPDF := JoinPath [tempDir; dropSuffix (Base sourcePath) (Ext sourcePath) +:+ ".pdf"] in
  _ ← said "converted pdf not found" (Stat os generatedPDF);
  _ ← wrapErr "store preview pdf: " (moveOrCopyFile generatedPDF cached);
  mret cached.

Definition ensurePreviewPDF (sourcePath : string) (info : FileInfo) : io Tree string :=
  _ ← wrapErr "create preview cache: " (MkdirAll os cacheRoot);
  let cached := cachedPDF (previewCacheKey sourcePath info) in
  onFail (_ ← Stat os cached; mret cached)
    (converter ← lift lookupLibreOfficeBinary;
     tempDir ← wrapErr "create preview temp dir: " (MkdirTemp os cacheRoot "doc-preview-");
     deferRemove tempDir (convertInto converter tempDir sourcePath cached)).

(** ** The handlers *)

Definition rawURL (path : string) : string := "/api/preview/raw?file=" +:+ QueryEscape path.

Definition handlePreview (method query : string) : io Tree (reply PreviewResponse) :=
  if decide (method ≠ "GET") then mret (Error 405 "method not allowed")
  else orError 400 (resolvePreviewTarget (QueryGet query "file")) (λ '(absPath, info),
    let ext := ToLower (Ext absPath) in
    if isWordDocument ext then
      orError 500 (ensurePreviewPDF absPath info) (λ pdfPath,
        mret (Answer 200 (mkPreviewResponse (Base absPath) "pdf" "" (rawURL pdfPath))))
    else if decide (ext = ".pdf") then mret (Answer 200 (mkPreviewResponse (Base absPath) "pdf" "" (rawURL absPath)))
    else orError 400 (readPreviewText absPath (infoSize info)) (λ content,
      mret (Answer 200 (mkPreviewResponse (Base absPath) "text" content "")))).

(** [mime.TypeByExtension], with the host's tables, and [%q]. *)
Variable TypeByExtension : string → string.
Variable Quote : string → string.

(** [http.ServeFile] of a path that is not a directory, for a request without a range. *)
Definition ServeFile (path : string) : io Tree (reply string) := λ t,
  match Open os path t with
  | (t', Ret (NFile data _)) => (t', Ret (Answer 200 data))
  | (t', Fail e) =>
      (t', Ret (if decide (e = ENOENT) then Error 404 "404 page not found"
                else if decide (e = "permission denied") then Error 403 "403 Forbidden"
                else Error 500 "500 Internal Server Error"))
  | (t', _) => (t', Ret (Error 500 "500 Internal Server Error"))
  end.

Definition handlePreviewRaw (method query : string) : io Tree (reply RawResponse) :=
  if decide (method ≠ "GET") then mret (Error 405 "method not allowed")
  else orError 400 (resolvePreviewTarget (QueryGet query "file")) (λ '(absPath, _),
    let ext := ToLower (Ext absPath) in
    let contentType := TypeByExtension ext in
    let contentType := if decide (contentType = "") then
        (if decide (ext = ".pdf") then "application/pdf" else "application/octet-stream") else contentType in
    body ← ServeFile absPath;
    mret (match body with
          | Answer status data =>
              Answer status (mkRawResponse contentType ("inline; filename=" +:+ Quote (Base absPath)) data)
          | Error status msg => Error status msg
          end)).
End server.

(** * What browsing and previews show

    A listing has the visible entries of the directory, each once and in order; a text
    preview is the file itself, at most ten megabytes of it; a Word document is converted
    into the cache and nothing else of the server's directory changes; and the URL of a PDF
    preview leads to that PDF. *)

(** ** The order of a listing *)

Lemma entryLess_asym a b : entryLess a b = true → entryLess b a = false.
Proof.
  unfold entryLess. destruct a as [n [] s], b as [n' [] s']; simpl; try done; intros H;
    (destruct (ltb (ToLower n') (ToLower n)) eqn:E; [|done]);
    by rewrite <- (ltb_irrefl (ToLower n)), (ltb_trans _ _ _ H E).
Qed.

Lemma ltb_not_trans s u v : ltb u s = false → ltb v u = false → ltb v s = false.
Proof.
  intros H1 H2. destruct (ltb v s) eqn:E; [|done]. exfalso.
  destruct (ltb_total s u) as [->|[H|H]]; [congruence| |congruence].
  rewrite (ltb_trans _ _ _ E H) in H2. done.
Qed.

Lemma entryLess_trans a b c : entryLess b a = false → entryLess c b = false → entryLess c a = false.
Proof.
  unfold entryLess. destruct a as [n [] s], b as [n' [] s'], c as [n'' [] s'']; simpl; try done; apply ltb_not_trans.
Qed.

Section server.
Variable os : Os.

(** An entry of the listing of [dir]. *)
Definition shows (t : Tree) (dir : list string) (e : BrowseEntry) : Prop :=
  HasPrefix (beName e) "." = false ∧ statFails os (dir ++ [beName e]) = None ∧
  ∃ n, t !! (dir ++ [beName e]) = Some n ∧ beIsDir e = infoIsDir (infoOf n) ∧ beSize e = infoSize (infoOf n).

Lemma browseEntry_Some dir x e : browseEntry os dir x = Some e ↔
  HasPrefix (beName e) "." = false ∧ statFails os (dir ++ [beName e]) = None ∧ beName e = x.1 ∧
  beIsDir e = infoIsDir (infoOf x.2) ∧ beSize e = infoSize (infoOf x.2).
Proof.
  destruct x as [name n], e as [name' d s]. unfold browseEntry. simpl. split.
  - destruct (HasPrefix name ".") eqn:E; [done|]. destruct (statFails os (dir ++ [name])) eqn:Es; [done|]. naive_solver.
  - intros (H1&H2&->&->&->). by rewrite H1, H2.
Qed.

Lemma browse_entries t dir entries e : entries ≡ₚ children t dir →
  e ∈ sortBy entryLess (omap (browseEntry os dir) entries) ↔ shows t dir e.
Proof.
  intros Hp. rewrite sortBy_Permutation, list_elem_of_omap. unfold shows. split.
  - intros ([name n]&Hin&E). apply browseEntry_Some in E as (H1&H2&H3&H4&H5). simpl in *. rewrite H3 in *.
    rewrite Hp, elem_of_children in Hin. eauto 10.
  - intros (H1&H2&n&Hn&H3&H4). exists (beName e, n). rewrite Hp, elem_of_children. split; [done|]. by apply browseEntry_Some.
Qed.

Lemma browse_NoDup t dir entries : entries ≡ₚ children t dir →
  NoDup (beName <$> sortBy entryLess (omap (browseEntry os dir) entries)).
Proof.
  intros Hp. rewrite sortBy_Permutation. assert (NoDup entries.*1) as Hnd by (rewrite Hp; apply NoDup_children).
  clear Hp. induction entries as [|x l IH]; [constructor|]. simpl in *. apply NoDup_cons in Hnd as [Hx Hl].
  destruct (browseEntry os dir x) as [e|] eqn:E; [|by apply IH]. simpl. constructor; [|by apply IH].
  apply browseEntry_Some in E as (_&_&En&_). rewrite En. intros Hin. apply Hx. apply list_elem_of_fmap in Hin as (e'&Ee'&Hin).
  apply list_elem_of_omap in Hin as (y&Hy&Ey). apply browseEntry_Some in Ey as (_&_&Ey&_).
  apply list_elem_of_fmap. exists y. split; [congruence|done].
Qed.

Lemma browse_sorted l : StronglySorted (notAfter entryLess) (sortBy entryLess l).
Proof.
  apply (sortBy_sorted entryLess (λ _, True)).
  - intros x y _ _. apply entryLess_asym.
  - intros x y z _ _ _. apply entryLess_trans.
  - by apply Forall_forall.
Qed.

(** The directory that a request names. *)
Definition askedDir (query : string) : string :=
  if decide (TrimSpace (QueryGet query "dir") = "") then "/" else QueryGet query "dir".

(** The answer to a request for a directory that can be read has every visible entry of
    the directory that can be examined exactly once, with its kind and its size, directories
    before files and each group by name without regard to case; where no two names of a
    group differ only in case, there is only one such list.  No request for a listing
    changes the file system, and requests that name no readable directory are refused. *)
Theorem handleBrowse_lists t method query absDir :
  Abs (Getwd os) (askedDir query) = Ret absDir →
  (method ≠ "GET" → handleBrowse os method query t = (t, Ret (Error 405 "method not allowed"))) ∧
  (method = "GET" → (∀ n, t !! locate os absDir = Some n → infoIsDir (infoOf n) = false) →
     ∃ msg, handleBrowse os method query t = (t, Ret (Error 400 msg))) ∧
  (method = "GET" → isDirAt t (locate os absDir) = true → statFails os (locate os absDir) = None → readFails os (locate os absDir) = None →
     ∃ es, handleBrowse os method query t = (t, Ret (Answer 200 (mkBrowseResponse absDir es))) ∧
       (∀ e, e ∈ es ↔ shows t (locate os absDir) e) ∧ NoDup (beName <$> es) ∧ StronglySorted (notAfter entryLess) es ∧
       ((∀ e e', e ∈ es → e' ∈ es → beIsDir e = beIsDir e' → ToLower (beName e) = ToLower (beName e') → e = e') →
        ∀ es', es' ≡ₚ es → StronglySorted (notAfter entryLess) es' → es' = es)).
Proof.
  intros Ha. unfold handleBrowse. fold (askedDir query). split_and!.
  - intros Hm. by rewrite decide_True.
  - intros -> Hn. rewrite decide_False by (by intros []). unfold orError, said, lift. rewrite Ha. unfold Stat, raise, fail.
    destruct (statFails os (locate os absDir)); [by eexists|].
    destruct (t !! locate os absDir) as [n|]; [|by eexists]. rewrite (Hn n eq_refl). by eexists.
  - intros -> Hd Hs Hr. rewrite decide_False by (by intros []). unfold orError, said, lift. rewrite Ha. unfold Stat, ReadDir, raise.
    rewrite Hs, Hr. assert (∃ sz mt, t !! locate os absDir = Some (NDir sz mt)) as (sz&mt&->).
    { unfold isDirAt in Hd. destruct (t !! locate os absDir) as [[]|]; naive_solver. }
    cbn [infoOf infoIsDir negb]. rewrite Hd. eexists. split; [reflexivity|].
    set (entries := sortBy _ (children t (locate os absDir))).
    assert (entries ≡ₚ children t (locate os absDir)) as Hp by apply sortBy_Permutation.
    split_and!; [intros e; by apply browse_entries|by eapply browse_NoDup|apply browse_sorted|].
    intros Hu es' Hes Hsort. symmetry. apply (sorted_unique entryLess); [|apply browse_sorted|done|by symmetry].
    intros x y Hx Hy H1 H2. unfold entryLess in H1, H2. assert (beIsDir x = beIsDir y) as Ed.
    { destruct x as [? [] ?], y as [? [] ?]; simpl in *; done. }
    apply Hu; [done..|]. rewrite Ed in H1, H2. rewrite decide_False in H1, H2 by (by intros []).
    destruct (ltb_total (ToLower (beName x)) (ToLower (beName y))) as [|[]]; [done|congruence..].
Qed.

(** ** Text *)

(** The byte of a text at an index. *)
Lemma zeroByte_true i limit data : zeroByte i limit data = true ↔
  ∃ j, i + Z.of_nat j < limit ∧ String.get j data = Some zero.
Proof.
  revert i. induction data as [|a r IH]; intros i; cbn [zeroByte].
  - split; [done|]. intros (j&_&E). by destruct j.
  - case_decide as H1; [split; [done|intros (j&Hj&_); lia]|]. case_decide as H2.
    + subst. split; [|done]. intros _. exists 0%nat. split; [lia|done].
    + rewrite IH. split.
      * intros (j&Hj&E). exists (S j). split; [lia|done].
      * intros ([|j]&Hj&E); [by simplify_eq/=|]. exists j. split; [lia|done].
Qed.

Lemma get_Some_length j data a : String.get j data = Some a → (j < String.length data)%nat.
Proof. revert j. induction data as [|b r IH]; intros [|j] E; simpl in *; [done..|lia|]. apply IH in E. lia. Qed.

(** A zero byte among the first 4096 ones. *)
Lemma isLikelyBinary_true data : isLikelyBinary data = true ↔ ∃ j, Z.of_nat j < 4096 ∧ String.get j data = Some zero.
Proof.
  unfold isLikelyBinary. rewrite zeroByte_true. split; intros (j&Hj&E); exists j; (split; [|done]);
    pose proof (get_Some_length _ _ _ E); case_decide; lia.
Qed.

Lemma takeBytes_prefix n data : ∃ rest, data = takeBytes n data +:+ rest.
Proof.
  revert n. induction data as [|a r IH]; intros n; [by exists ""|]. cbn [takeBytes]. case_decide; [by exists (String a r)|].
  destruct (IH (n - 1)) as [rest Hr]. exists rest. by rewrite app_cons, <- Hr.
Qed.

(** A text preview is a beginning of the file of at most ten megabytes and one byte,
    whatever size the file was said to have, and has no zero byte in its first 4096 bytes. *)
Theorem readPreviewText_bounded absPath size t t' content :
  readPreviewText os absPath size t = (t', Ret content) →
  t' = t ∧ Z.of_nat (String.length content) ≤ previewMaxTextSize + 1 ∧
  (∀ j, Z.of_nat j < 4096 → String.get j content ≠ Some zero) ∧
  ∃ data mtime rest, t !! locate os absPath = Some (NFile data mtime) ∧ data = content +:+ rest.
Proof.
  unfold readPreviewText. case_decide; [done|]. unfold said, Open, ReadLimited, raise, fail. io_step.
  destruct (openFails os (locate os absPath)); [done|]. destruct (t !! locate os absPath) as [[data mtime|]|]; simpl; try done;
    destruct (readFails os (locate os absPath)); simpl; try done.
  destruct (isLikelyBinary (takeBytes (previewMaxTextSize + 1) data)) eqn:Hb; [done|]. intros [= <- <-]. split_and!; [done| | |].
  - rewrite takeBytes_length by (unfold previewMaxTextSize; lia). lia.
  - intros j Hj E. apply not_true_iff_false in Hb. apply Hb, isLikelyBinary_true. eauto.
  - destruct (takeBytes_prefix (previewMaxTextSize + 1) data) as [rest Hr]. eauto.
Qed.

(** A path that [os.Stat] and [os.Open] find, with the file there. *)
Definition readable (t : Tree) (path data : string) (mtime : Z) : Prop :=
  t !! locate os path = Some (NFile data mtime) ∧ statFails os (locate os path) = None ∧
  openFails os (locate os path) = None ∧ readFails os (locate os path) = None.

Lemma resolve_readable t file path data mtime :
  TrimSpace file ≠ "" → Abs (Getwd os) file = Ret path → readable t path data mtime →
  resolvePreviewTarget os file t = (t, Ret (path, infoOf (NFile data mtime))).
Proof.
  intros Hf Ha (Ht&Hs&_). unfold resolvePreviewTarget. rewrite decide_False by done. unfold said, lift, Stat, raise. io_step.
  rewrite Ha. simpl. by rewrite Hs, Ht.
Qed.

Variable Sum256 : string → list ascii.
Variable LookPath : string → option string.
Variable run : string → list string → Tree → Tree * (string * option string).
Variable RepoRoot : string.

Abbreviation handlePreview := (handlePreview os Sum256 LookPath run RepoRoot).
Abbreviation ensurePreviewPDF := (ensurePreviewPDF os Sum256 LookPath run RepoRoot).
Abbreviation cachedFor := (λ sourcePath info, cachedPDF RepoRoot (previewCacheKey Sum256 sourcePath info)).

(** The preview of a file that is neither a PDF nor a Word document is the whole file,
    when it has at most ten megabytes and no zero byte among its first 4096 bytes, and
    otherwise a refusal; the file system is not changed. *)
Theorem handlePreview_text t query path data mtime :
  TrimSpace (QueryGet query "file") ≠ "" → Abs (Getwd os) (QueryGet query "file") = Ret path → readable t path data mtime →
  ToLower (Ext path) ∉ [".doc"; ".docx"; ".pdf"] →
  let shown := Z.of_nat (String.length data) ≤ previewMaxTextSize ∧ ∀ j, Z.of_nat j < 4096 → String.get j data ≠ Some zero in
  (shown → handlePreview "GET" query t = (t, Ret (Answer 200 (mkPreviewResponse (Base path) "text" data "")))) ∧
  (¬ shown → ∃ msg, handlePreview "GET" query t = (t, Ret (Error 400 msg))).
Proof.
  intros Hf Ha Hr Hext shown. unfold ApiBrowse.handlePreview. rewrite decide_False by (by intros []). unfold orError.
  rewrite (resolve_readable _ _ _ _ _ Hf Ha Hr). unfold isWordDocument. rewrite bool_decide_false by set_solver.
  rewrite decide_False by set_solver. destruct Hr as (Ht&_&Ho&Hr). unfold readPreviewText. cbn [infoOf infoSize].
  case_decide as Hlen; [split; [intros [? _]; lia|by eexists]|]. unfold said, Open, ReadLimited, raise. io_step.
  rewrite Ho, Ht. simpl. rewrite Hr. unfold mret, io_ret. rewrite takeBytes_all by lia.
  destruct (isLikelyBinary data) eqn:Hb; (split; [intros Hs|intros Hs]); try done; [|by eexists|].
  - apply isLikelyBinary_true in Hb as (j&Hj&E). by apply Hs in E.
  - exfalso. apply Hs. split; [lia|]. intros j Hj E. apply not_true_iff_false in Hb. apply Hb, isLikelyBinary_true. eauto.
Qed.

(** ** From a preview to the raw file *)

Variable TypeByExtension : string → string.
Variable Quote : string → string.
Abbreviation handlePreviewRaw := (handlePreviewRaw os TypeByExtension Quote).

Lemma rooted_TrimSpace s : TrimSpace (String SLASH s) ≠ "".
Proof.
  unfold TrimSpace. rewrite TrimSpaceLeft_plain by done. change (String SLASH s) with (String SLASH "" +:+ s).
  by rewrite TrimSpaceRight_plain_app.
Qed.

Lemma rawURL_query path : QueryGet (rawQuery (rawURL path)) "file" = path.
Proof.
  change (rawURL path) with ("/api/preview/raw" +:+ String QUESTION ("file" +:+ String EQUALS (QueryEscape path))).
  apply QueryGet_QueryEscape; try done. by repeat constructor.
Qed.

(** A request for the URL of a clean absolute path is answered with the file there. *)
Lemma raw_serves t path l data mtime : absPath path l → readable t path data mtime →
  ∃ resp, handlePreviewRaw "GET" (rawQuery (rawURL path)) t = (t, Ret (Answer 200 resp)) ∧ Body resp = data.
Proof.
  intros [Ep Hl] Hr. unfold ApiBrowse.handlePreviewRaw. rewrite decide_False by (by intros []). rewrite rawURL_query. unfold orError.
  assert (Abs (Getwd os) path = Ret path) as Ha by (unfold Abs; destruct (absPath_elems _ _ (conj Ep Hl)) as (->&_&->); done).
  assert (TrimSpace path ≠ "") as Ht by (rewrite Ep; apply rooted_TrimSpace).
  rewrite (resolve_readable _ _ _ _ _ Ht Ha Hr). unfold ServeFile, Open, raise. io_step. destruct Hr as (Hf&_&Ho&_).
  rewrite Ho, Hf. by eexists.
Qed.

Lemma Abs_absPath wd l file path : absPath wd l → Getwd os = Ret wd → Abs (Getwd os) file = Ret path → ∃ l', absPath path l'.
Proof.
  intros Hwd Hg. unfold Abs. rewrite Hg. destruct (isRooted file) eqn:Er; simpl; intros [= <-].
  - exists (cleanElems true (Split SLASH file)). unfold Clean. rewrite Er. split; [done|].
    pose proof (Clean_elems file) as H. rewrite Er in H. by apply rooted_plain.
  - destruct (decide (file = "")) as [->|Hne].
    + exists l. destruct Hwd as [-> Hl]. split; [|done]. unfold JoinPath. rewrite filter_cons_True, filter_cons_False, filter_nil by naive_solver.
      cbn [GoStrings.Join]. by destruct (absPath_elems _ l (conj eq_refl Hl)) as (_&_&->).
    + destruct (JoinPath_elems _ _ _ Hwd Hne) as (k&rest&_&_&H). by eexists.
Qed.
End server.

(** ** A server with one document *)

Definition exOs : Os := goodOs "/srv" 7 "1".
Definition exTree : Tree :=
  list_to_map [([], NDir 4096 1); (["srv"], NDir 4096 2); (["srv"; "a.docx"], NFile "text" 5);
               (["srv"; "notes.txt"], NFile "hello" 6)].

Lemma handleBrowse_lists_witness :
  ∃ es, handleBrowse exOs "GET" "dir=%2Fsrv" exTree = (exTree, Ret (Answer 200 (mkBrowseResponse "/srv" es))) ∧
    ∀ e, e ∈ es ↔ shows exOs exTree ["srv"] e.
Proof.
  destruct (handleBrowse_lists exOs exTree "GET" "dir=%2Fsrv" "/srv" eq_refl) as (_&_&H).
  destruct (H eq_refl eq_refl eq_refl eq_refl) as (es&H1&H2&_). exists es. split; [exact H1|exact H2].
Defined.

Lemma readPreviewText_bounded_witness :
  readPreviewText exOs "/srv/notes.txt" 5 exTree = (exTree, Ret "hello") ∧ (5 ≤ previewMaxTextSize + 1).
Proof.
  split; [reflexivity|]. apply (readPreviewText_bounded exOs "/srv/notes.txt" 5 exTree exTree "hello" eq_refl).
Defined.

Lemma handlePreview_text_witness :
  handlePreview exOs (λ _, []) (λ _, None) (λ _ _ t, (t, ("", None))) "/srv" "GET" "file=notes.txt" exTree
  = (exTree, Ret (Answer 200 (mkPreviewResponse "notes.txt" "text" "hello" ""))).
Proof.
  apply (handlePreview_text exOs (λ _, []) (λ _, None) (λ _ _ t, (t, ("", None))) "/srv" exTree "file=notes.txt" "/srv/notes.txt" "hello" 6).
  - by vm_compute.
  - reflexivity.
  - by split_and!.
  - vm_compute. set_solver.
  - split; [by vm_compute|]. intros [|[|[|[|[|[|j]]]]]] _; by vm_compute.
Defined.
