(* ===== verification/ApiPreviewCache.v ===== *)
(** * The cache of converted documents

    A Word document is converted into a temporary directory and moved to a name made from
    its path, its time and its size.  Nothing else of the server's directory changes; after a
    conversion the answer leads to the PDF, and the next request finds it. *)

From Stdlib Require Import Ascii Sorted.
From stdpp Require Import strings numbers base gmap fin_maps sets list.
From S2P Require Import Prelude GoStrings GoPaths GoSort GoTree ApiDeal ApiBrowse.
Local Open Scope Z_scope.

(** ** Keys *)

(** The text that is hashed for the name of a converted document determines the path, the
    time and the size of the document, also for paths with a bar in them. *)
Theorem normalized_determines path info path' info' :
  minInt64 ≤ infoModTime info ≤ maxInt64 → minInt64 ≤ infoModTime info' ≤ maxInt64 →
  minInt64 ≤ infoSize info ≤ maxInt64 → minInt64 ≤ infoSize info' ≤ maxInt64 →
  normalized path info = normalized path' info' →
  path = path' ∧ infoModTime info = infoModTime info' ∧ infoSize info = infoSize info'.
Proof.
  intros H1 H2 H3 H4 E. unfold normalized in E. apply (f_equal (Split "|")) in E.
  assert (∀ x, "|" +:+ x = String "|" x) as Hb by done. rewrite !Hb in E. rewrite !Split_app_all in E.
  rewrite !(Split_nosep "|" (Itoa _)) in E by (apply Itoa_noByte; done).
  rewrite !(app_assoc (Split _ _)) in E. apply app_inj_tail in E as [E Es]. apply app_inj_tail in E as [E Em].
  split_and!; [by eapply Split_inj|by apply Itoa_inj|by apply Itoa_inj].
Qed.

Lemma lowerhex_noSlash n : (n < 16)%N → lowerhex n ≠ SLASH.
Proof.
  intros Hn E. apply (f_equal N_of_ascii) in E. unfold lowerhex in E.
  assert (∀ m, (m < 256)%N → N_of_ascii (ascii_of_N m) = m) as Hm by apply N_ascii_embedding.
  destruct (n <? 10)%N; rewrite Hm in E by lia; unfold SLASH in E; simpl in E; lia.
Qed.

Lemma hexEncode_noSlash l : hasByte SLASH (hexEncode l) = false.
Proof.
  induction l as [|a l IH]; [done|]. cbn [hexEncode hasByte]. rewrite IH, !bool_decide_false; [done|..]; apply lowerhex_noSlash.
  - by apply N.mod_lt.
  - pose proof (N_ascii_bounded a). apply N.Div0.div_lt_upper_bound. lia.
Qed.

(** A name with an ending is an element that stands for itself. *)
Lemma pdf_plain s : hasByte SLASH s = false → plainElem (s +:+ ".pdf").
Proof.
  intros Hs. assert (∀ u, (String.length u < 4)%nat → s +:+ ".pdf" ≠ u) as Hu.
  { intros u Hu E. rewrite <- E, length_app_str in Hu. simpl in Hu. lia. }
  split_and!; try (apply Hu; simpl; lia). by rewrite hasByte_app, Hs.
Qed.

Lemma substring_noByte c n m s : hasByte c s = false → hasByte c (String.substring n m s) = false.
Proof.
  revert n m. induction s as [|a s IH]; intros n m; destruct n as [|n], m as [|m]; simpl; try done; intros [Ha Hs]%orb_false_elim; try by apply IH.
  by rewrite Ha, IH.
Qed.

Lemma dropSuffix_noByte c s u : hasByte c s = false → hasByte c (dropSuffix s u) = false.
Proof. intros Hs. unfold dropSuffix. case_decide; [by apply substring_noByte|done]. Qed.

(** ** Places *)

Section cache.
Variable os : Os.
Variable Sum256 : string → list ascii.
Variable LookPath : string → option string.
Variable run : string → list string → Tree → Tree * (string * option string).
Variable RepoRoot : string.

(** The server's directory, and temporary names without a slash. *)
Variable root : list string.
Hypothesis RepoRoot_clean : absPath RepoRoot root.
Hypothesis random_plain : hasByte SLASH (random os) = false.

Abbreviation ensurePreviewPDF := (ensurePreviewPDF os Sum256 LookPath run RepoRoot).
Abbreviation cachedFor := (λ sourcePath info, cachedPDF RepoRoot (previewCacheKey Sum256 sourcePath info)).

Definition cacheElems : list string := root ++ [previewCacheDir].
Definition tempName : string := "doc-preview-" +:+ random os.
Definition tempPath : string := cacheRoot RepoRoot +:+ "/" +:+ tempName.
Definition tempElems : list string := cacheElems ++ [tempName].
Definition cachedElems (sourcePath : string) (info : FileInfo) : list string :=
  cacheElems ++ [previewCacheKey Sum256 sourcePath info +:+ ".pdf"].
Definition generatedPath (sourcePath : string) : string :=
  JoinPath [tempPath; dropSuffix (Base sourcePath) (Ext sourcePath) +:+ ".pdf"].

Lemma cacheRoot_abs : absPath (cacheRoot RepoRoot) cacheElems.
Proof. apply JoinPath_plain; [done|]. by split_and!. Qed.

Lemma cached_abs sourcePath info : absPath (cachedFor sourcePath info) (cachedElems sourcePath info).
Proof. apply JoinPath_plain; [apply cacheRoot_abs|]. apply pdf_plain, hexEncode_noSlash. Qed.

Lemma temp_abs : absPath tempPath tempElems.
Proof.
  apply absPath_append; [apply cacheRoot_abs|by intros [_ ?]%app_nil|]. unfold tempName. by split_and!.
Qed.

Lemma temp_not_cached sourcePath info : tempElems ≠ cachedElems sourcePath info.
Proof.
  intros E. apply app_inj_tail in E as [_ E]. unfold tempName, previewCacheKey in E.
  destruct (take 16 _) as [|a l]; simpl in E; [done|]. injection E as E1 E2 _. unfold lowerhex in E2.
  pose proof (N_ascii_bounded a) as Ha. apply (f_equal N_of_ascii) in E2. simpl in E2.
  assert (N_of_ascii a mod 16 < 16)%N as Hm by (by apply N.mod_lt).
  rewrite N_ascii_embedding in E2 by (destruct (_ <? 10)%N; lia). destruct (N.ltb_spec (N_of_ascii a mod 16) 10); lia.
Qed.

(** A document is not the root of the file system. *)
Lemma generated_abs sourcePath l : absPath sourcePath l → l ≠ [] →
  absPath (generatedPath sourcePath) (tempElems ++ [dropSuffix (Base sourcePath) (Ext sourcePath) +:+ ".pdf"]).
Proof.
  intros Ha Hne. apply JoinPath_plain; [apply temp_abs|]. apply pdf_plain, dropSuffix_noByte. by eapply Base_noSlash.
Qed.

(** ** What a conversion leaves alone *)

(** The converter writes below the temporary directory that it is given, and elsewhere not in
    the server's directory, nor does it replace that one. *)
Definition convertArgs (dir src : string) : list string := ["--headless"; "--convert-to"; "pdf"; "--outdir"; dir; src].
Hypothesis run_outdir : ∀ conv src t k, root `prefix_of` k ∨ k `prefix_of` root → ¬ (tempElems `prefix_of` k) →
  (run conv (convertArgs tempPath src) t).1 !! k = t !! k.

Lemma moveOrCopy_frame src dst t t' o k : moveOrCopyFile os src dst t = (t', o) →
  ¬ (locate os src `prefix_of` k) → ¬ (locate os dst `prefix_of` k) → t' !! k = t !! k.
Proof.
  intros H Hs Hd. assert (k ≠ locate os dst) as Hd' by (intros ->; by apply Hd). unfold moveOrCopyFile, onFail in H.
  destruct (Rename os src dst t) as [t1 o1] eqn:Er. pose proof (Rename_frame _ _ _ _ _ _ _ Er Hs Hd) as H1.
  destruct o1 as [u|e|]; [by simplify_eq/=| |by simplify_eq/=]. rewrite <- H1. clear H1 Er. unfold mbind, io_bind in H. unfold Open, raise, fail in H.
  destruct (openFails os (locate os src)); [by simplify_eq/=|]. destruct (t1 !! locate os src) as [n|]; [|by simplify_eq/=].
  destruct (Create os dst t1) as [t2 o2] eqn:Ec. pose proof (Create_frame _ _ _ _ _ _ Ec Hd') as H2.
  destruct o2; [|by simplify_eq/=..]. destruct (Copy os dst n t2) as [t3 o3] eqn:Ey. pose proof (Copy_frame _ _ _ _ _ _ _ Ey Hd') as H3.
  rewrite <- H2, <- H3. destruct o3; [|by simplify_eq/=..]. unfold CloseFile, raise, fail, mret, io_ret in H. by destruct (closeFails os); simplify_eq/=.
Qed.

Lemma prefix_weaken (a b k : list string) : a ++ b `prefix_of` k → a `prefix_of` k.
Proof. intros [c ->]. exists (b ++ c). by rewrite app_assoc. Qed.

Lemma convertInto_frame conv src l info t t' o k : absPath src l → l ≠ [] →
  convertInto os run conv tempPath src (cachedFor src info) t = (t', o) →
  root `prefix_of` k → ¬ (tempElems `prefix_of` k) → ¬ (cachedElems src info `prefix_of` k) → t' !! k = t !! k.
Proof.
  intros Ha Hne H Hroot Ht Hc. unfold convertInto, mbind, io_bind in H.
  pose proof (run_outdir conv src t k (or_introl Hroot) Ht) as Hrun.
  unfold convertArgs in Hrun. destruct (run conv _ t) as [t1 [out [err|]]]; simpl in Hrun; [by simplify_eq/=|].
  fold (generatedPath src) in H. unfold said, Stat, raise, fail in H. destruct (statFails os _); [by simplify_eq/=|].
  destruct (t1 !! locate os (generatedPath src)); [|by simplify_eq/=]. unfold wrapErr in H.
  destruct (moveOrCopyFile os (generatedPath src) (cachedFor src info) t1) as [t2 o2] eqn:Em.
  apply (moveOrCopy_frame _ _ _ _ _ k) in Em.
  - rewrite <- Hrun, <- Em. unfold mret, io_ret in H. by destruct o2; simplify_eq/=.
  - rewrite (locate_absPath os _ _ (generated_abs _ _ Ha Hne)). intros ?%prefix_weaken. done.
  - by rewrite (locate_absPath os _ _ (cached_abs _ _)).
Qed.

(** A preview of a Word document changes nothing of the server's directory but the cache
    directory and the cached PDF of that document, whatever fails on the way, and
    leaves no temporary file. *)
Theorem ensurePreviewPDF_frame src l info t t' o k :
  absPath src l → l ≠ [] → (∀ k, keeps os k = false) → (∀ k, tempElems `prefix_of` k → t !! k = None) →
  ensurePreviewPDF src info t = (t', o) →
  root `prefix_of` k → ¬ (k `prefix_of` cacheElems) → ¬ (cachedElems src info `prefix_of` k) → t' !! k = t !! k.
Proof.
  intros Ha Hne Hkeeps Hfresh H Hroot Hk Hc. unfold ApiBrowse.ensurePreviewPDF, mbind, io_bind, wrapErr in H.
  destruct (MkdirAll os (cacheRoot RepoRoot) t) as [t1 o1] eqn:E1. apply mkdirs_spec in E1 as (F1&_). cbn [app] in F1.
  rewrite (locate_absPath os _ _ cacheRoot_abs) in F1. specialize (F1 k Hk). destruct o1; [|by simplify_eq/=..].
  unfold onFail, Stat, raise, fail in H. set (m := match statFails os _ with Some _ => _ | None => _ end) in H.
  assert (∃ o2, m t1 = (t1, o2)) as [o2 Em].
  { unfold m, mret, io_ret. destruct (statFails os _); [by eexists|]. by destruct (t1 !! _); eexists. }
  rewrite Em in H. clear m Em. destruct o2; [by simplify_eq/=| |by simplify_eq/=]. unfold lift in H.
  destruct (lookupLibreOfficeBinary LookPath) as [conv|e0|]; [|by simplify_eq/=..].
  destruct (MkdirTemp os (cacheRoot RepoRoot) "doc-preview-" t1) as [t2 o2] eqn:E2.
  apply MkdirTemp_spec in E2 as (F2&Ho). fold tempName in F2, Ho. fold tempPath in F2, Ho. rewrite (locate_absPath os _ _ temp_abs) in F2.
  destruct Ho as [(e'&->&->)|(->&_&_)]; [by simplify_eq/=|]. unfold deferRemove in H.
  destruct (convertInto os run conv tempPath src (cachedFor src info) t2) as [t3 o3] eqn:E3. simplify_eq/=. rewrite <- F1.
  destruct (decide (tempElems `prefix_of` k)) as [Hin|Hout].
  - rewrite RemoveAll_gone by (by rewrite ?(locate_absPath os _ _ temp_abs)). rewrite F1. by rewrite Hfresh.
  - rewrite RemoveAll_frame by (by rewrite (locate_absPath os _ _ temp_abs)).
    rewrite (convertInto_frame _ _ _ _ _ _ _ _ Ha Hne E3 Hroot Hout Hc). apply F2. intros ->. by apply Hout.
Qed.

(** ** What a conversion makes *)

(** A run in which no call fails. *)
Definition healthy : Prop :=
  getwdFails os = None ∧ (∀ k, statFails os k = None) ∧ (∀ k, openFails os k = None) ∧ (∀ k, readFails os k = None) ∧
  (∀ k, mkdirFails os k = None) ∧ renameFails os = None ∧ (∀ k, keeps os k = false).

(** The converter makes a PDF of the document, with its name, in the temporary directory, and
    does not touch the document. *)
Definition converts (pdfOf : string → string) (src : string) : Prop := ∀ conv t data mtime,
  t !! locate os src = Some (NFile data mtime) → isDirAt t tempElems = true →
  ∃ t' out m, run conv (convertArgs tempPath src) t = (t', (out, None)) ∧ t' !! locate os src = t !! locate os src ∧
    t' !! locate os (generatedPath src) = Some (NFile (pdfOf data) m).

Lemma parent_snoc (l : list string) x : parent (l ++ [x]) = l.
Proof. unfold parent. rewrite length_app. simpl. rewrite Nat.add_sub. by rewrite take_app_length. Qed.

Lemma snoc_not_prefix (l l' : list string) x y : l ++ [x] ≠ l ++ [y] → ¬ (l ++ [x] `prefix_of` l ++ [y]).
Proof.
  intros Hne [r E]. rewrite <- app_assoc in E. apply app_inv_head in E. destruct r as [|z r]; simpl in E; [|done]. by simplify_eq.
Qed.

Lemma isDirAt_cong t t' k : t' !! k = t !! k → isDirAt t' k = isDirAt t k.
Proof. unfold isDirAt. by intros ->. Qed.

Section success.
Variable pdfOf : string → string.
Hypothesis Hhealthy : healthy.
Variable src : string.
Hypothesis Hconverts : converts pdfOf src.

(** The directories on the way to the cache. *)
Definition onTheWay (t : Tree) : Prop := ∀ k, k `prefix_of` cacheElems → isDirAt t k = true.

Lemma way_not_below k x : k `prefix_of` cacheElems → ¬ (cacheElems ++ [x] `prefix_of` k).
Proof. intros Hk%prefix_length Hx%prefix_length. rewrite length_app in Hx. simpl in Hx. lia. Qed.

Lemma way_guarded k : k `prefix_of` cacheElems → root `prefix_of` k ∨ k `prefix_of` root.
Proof. intros Hk. eapply prefix_weak_total; [|exact Hk]. by eexists. Qed.

Lemma convertInto_ok conv l info t data mtime :
  absPath src l → l ≠ [] → t !! l = Some (NFile data mtime) → ¬ (tempElems `prefix_of` l) →
  isDirAt t tempElems = true → onTheWay t → t !! cachedElems src info = None →
  ∃ t' m, convertInto os run conv tempPath src (cachedFor src info) t = (t', Ret (cachedFor src info)) ∧
    t' !! cachedElems src info = Some (NFile (pdfOf data) m) ∧ t' !! l = Some (NFile data mtime) ∧ onTheWay t'.
Proof.
  intros Ha Hne Hl Hlt Htemp Hway Hnone. destruct Hhealthy as (_&Hst&_&_&_&Hren&_).
  pose proof (locate_absPath os _ _ Ha) as El.
  pose proof (locate_absPath os _ _ (cached_abs src info)) as Ec. pose proof (locate_absPath os _ _ (generated_abs _ _ Ha Hne)) as Eg.
  destruct (Hconverts conv t data mtime) as (t1&out&m&Hrun&Hsrc&Hgen); [by rewrite El|done|].
  rewrite El in Hsrc. rewrite Eg in Hgen.
  assert (∀ k, root `prefix_of` k ∨ k `prefix_of` root → ¬ tempElems `prefix_of` k → t1 !! k = t !! k) as Hframe.
  { intros k Hr Ht. pose proof (run_outdir conv src t k Hr Ht) as H. by rewrite Hrun in H. }
  assert (onTheWay t1) as Hway1.
  { intros k Hk. rewrite <- (Hway k Hk). apply isDirAt_cong, Hframe; [by apply way_guarded|by apply way_not_below]. }
  unfold convertInto, mbind, io_bind. fold (convertArgs tempPath src). rewrite Hrun. fold (generatedPath src).
  unfold said, Stat, raise. rewrite Hst, Eg, Hgen. unfold wrapErr, moveOrCopyFile, onFail, Rename, raise. rewrite Hren, Eg, Ec, Hgen.
  assert (t1 !! cachedElems src info = None) as ->.
  { rewrite <- Hnone. apply Hframe; [left; unfold cachedElems, cacheElems; rewrite <- app_assoc; by eexists|].
    by apply (snoc_not_prefix cacheElems), (temp_not_cached src info). }
  unfold cachedElems at 1. rewrite parent_snoc, (Hway1 cacheElems) by done. cbn [negb]. eexists _, m. split; [reflexivity|].
  split_and!; [by rewrite lookup_insert_eq| |].
  - rewrite lookup_insert_ne, lookup_delete_ne; [by rewrite Hsrc| |].
    + intros E. apply Hlt. rewrite <- E. by eexists.
    + intros E. rewrite E in Hnone. congruence.
  - intros k Hk. rewrite <- (Hway1 k Hk). apply isDirAt_cong. rewrite lookup_insert_ne, lookup_delete_ne; [done| |].
    + intros E. apply (way_not_below _ tempName Hk). rewrite <- E. by eexists.
    + intros E. rewrite <- E in Hk. exact (way_not_below _ _ Hk (reflexivity _)).
Qed.

(** The directory of the cache can be made, its temporary name is free, and the document has not
    been converted yet. *)
Definition ready (t : Tree) (info : FileInfo) : Prop :=
  (∀ k, k `prefix_of` cacheElems → ∀ d m, t !! k ≠ Some (NFile d m)) ∧
  (∀ k, tempElems `prefix_of` k → t !! k = None) ∧ t !! cachedElems src info = None.

Lemma ensurePreviewPDF_converts conv l t data mtime :
  lookupLibreOfficeBinary LookPath = Ret conv → absPath src l → l ≠ [] → t !! l = Some (NFile data mtime) →
  ready t (infoOf (NFile data mtime)) →
  let info := infoOf (NFile data mtime) in
  ∃ t' m, ensurePreviewPDF src info t = (t', Ret (cachedFor src info)) ∧
    t' !! cachedElems src info = Some (NFile (pdfOf data) m) ∧ t' !! l = Some (NFile data mtime) ∧ onTheWay t'.
Proof.
  intros Hlook Ha Hne Hl (Hway&Hfresh&Hnone) info. pose proof Hhealthy as (_&Hst&_&_&Hmk&_&Hkeep).
  pose proof (locate_absPath os _ _ cacheRoot_abs) as Er. pose proof (locate_absPath os _ _ temp_abs) as Et.
  pose proof (locate_absPath os _ _ (cached_abs src info)) as Ec. fold info in Hnone.
  destruct (mkdirs_total os cacheElems [] t Hmk Hway) as [t1 E1]. pose proof (mkdirs_spec _ _ _ _ _ _ E1) as (F1&K1).
  assert (onTheWay t1) as D1 by (intros k; apply (mkdirs_dirs _ _ _ _ _ _ E1), prefix_nil). cbn [app] in F1.
  assert (∀ x, ¬ (cacheElems ++ [x] `prefix_of` cacheElems)) as Hnp by (intros; by apply way_not_below).
  assert (¬ tempElems `prefix_of` l) as Hlt by (intros H; by rewrite Hfresh in Hl).
  unfold ApiBrowse.ensurePreviewPDF, mbind, io_bind, wrapErr, MkdirAll. rewrite Er, E1. unfold onFail, Stat, raise. rewrite Hst, Ec.
  rewrite F1, Hnone by apply Hnp. unfold lift. rewrite Hlook. unfold MkdirTemp.
  change (cacheRoot RepoRoot +:+ "/" +:+ "doc-preview-" +:+ random os) with tempPath. rewrite Et, Hmk.
  rewrite (F1 tempElems), (Hfresh tempElems) by first [done|apply Hnp]. unfold tempElems at 1. rewrite parent_snoc, (D1 cacheElems) by done.
  unfold deferRemove. destruct (convertInto_ok conv l info (<[tempElems := newDir os]> t1) data mtime) as (t'&m&Ev&H1&H2&H3); try done.
  - rewrite lookup_insert_ne; [by apply K1|]. intros <-. by apply Hlt.
  - unfold isDirAt. by rewrite lookup_insert_eq.
  - intros k Hk. rewrite <- (D1 k Hk). apply isDirAt_cong. rewrite lookup_insert_ne; [done|]. intros E. rewrite <- E in Hk. exact (way_not_below _ _ Hk (reflexivity _)).
  - rewrite lookup_insert_ne by apply temp_not_cached. by rewrite F1 by apply Hnp.
  - rewrite Ev. eexists _, m. split; [reflexivity|].
    rewrite !RemoveAll_frame; [|by rewrite Et|rewrite Et; by apply (snoc_not_prefix cacheElems), (temp_not_cached src info)]. split_and!; [done..|].
    intros k Hk. rewrite <- (H3 k Hk). apply isDirAt_cong, RemoveAll_frame. rewrite Et. by apply way_not_below.
Qed.

(** A document whose PDF is in the cache: no program is run and nothing changes. *)
Lemma ensure_cached run' info t n : onTheWay t → t !! cachedElems src info = Some n →
  ApiBrowse.ensurePreviewPDF os Sum256 LookPath run' RepoRoot src info t = (t, Ret (cachedFor src info)).
Proof.
  intros Hway Hn. destruct Hhealthy as (_&Hst&_). unfold ApiBrowse.ensurePreviewPDF, mbind, io_bind, wrapErr, MkdirAll.
  rewrite (locate_absPath os _ _ cacheRoot_abs), mkdirs_id by (intros k _; apply Hway).
  unfold onFail, Stat, raise. by rewrite Hst, (locate_absPath os _ _ (cached_abs _ _)), Hn.
Qed.

Lemma preview_word run' query l t t' data mtime pdf :
  TrimSpace (QueryGet query "file") ≠ "" → Abs (Getwd os) (QueryGet query "file") = Ret src → absPath src l →
  isWordDocument (ToLower (Ext src)) = true → t !! l = Some (NFile data mtime) →
  ApiBrowse.ensurePreviewPDF os Sum256 LookPath run' RepoRoot src (infoOf (NFile data mtime)) t = (t', Ret pdf) →
  handlePreview os Sum256 LookPath run' RepoRoot "GET" query t = (t', Ret (Answer 200 (mkPreviewResponse (Base src) "pdf" "" (rawURL pdf)))).
Proof.
  intros Hf Hab Ha Hw Hl He. pose proof Hhealthy as (_&Hst&Ho&Hr&_). unfold handlePreview. rewrite decide_False by (by intros []). unfold orError.
  rewrite (resolve_readable os t _ src data mtime Hf Hab) by (unfold readable; by rewrite (locate_absPath os _ _ Ha)). by rewrite Hw, He.
Qed.

(** C27. A preview of a Word document that has not been converted yet answers with a URL from
    which the PDF of the document can be loaded, and a second preview gives the same answer
    without running a program and without changing a file. *)
Theorem preview_leads_to_pdf TypeByExtension Quote conv query l t data mtime :
  let info := infoOf (NFile data mtime) in
  let answer := Ret (Answer 200 (mkPreviewResponse (Base src) "pdf" "" (rawURL (cachedFor src info)))) in
  TrimSpace (QueryGet query "file") ≠ "" → Abs (Getwd os) (QueryGet query "file") = Ret src → absPath src l → l ≠ [] →
  isWordDocument (ToLower (Ext src)) = true → t !! l = Some (NFile data mtime) →
  lookupLibreOfficeBinary LookPath = Ret conv → ready t info →
  ∃ t', handlePreview os Sum256 LookPath run RepoRoot "GET" query t = (t', answer) ∧
    (∃ resp, handlePreviewRaw os TypeByExtension Quote "GET" (rawQuery (rawURL (cachedFor src info))) t' = (t', Ret (Answer 200 resp)) ∧
       Body resp = pdfOf data) ∧
    ∀ run', handlePreview os Sum256 LookPath run' RepoRoot "GET" query t' = (t', answer).
Proof.
  intros info answer Hf Hab Ha Hne Hw Hl Hlook Hready. pose proof Hhealthy as (_&Hst&Ho&Hr&_).
  destruct (ensurePreviewPDF_converts conv l t data mtime Hlook Ha Hne Hl Hready) as (t'&m&He&Hc&Hl'&Hway). exists t'. split_and!.
  - by eapply preview_word.
  - apply (raw_serves os TypeByExtension Quote t' _ _ _ m (cached_abs src info)). unfold readable.
    by rewrite (locate_absPath os _ _ (cached_abs src info)).
  - intros run'. eapply preview_word; try done. by eapply ensure_cached.
Qed.
End success.
End cache.

(** ** A converter for one document *)

Definition exSum (s : string) : list ascii := String.list_ascii_of_string s.
Definition exLook (name : string) : option string := if decide (name = "soffice") then Some "/usr/bin/soffice" else None.
Definition exTemp : list string := ["srv"; previewCacheDir; "doc-preview-1"].

(** It knows that document only. *)
Definition exRun (conv : string) (args : list string) (t : Tree) : Tree * (string * option string) :=
  if decide (args = convertArgs "/srv/.opendsn_preview_cache/doc-preview-1" "/srv/a.docx") then
    match t !! ["srv"; "a.docx"] with
    | Some (NFile data _) => (<[exTemp ++ ["a.pdf"] := NFile ("PDF of " +:+ data) 8]> t, ("", None))
    | _ => (t, ("", Some "exit status 1"))
    end
  else (t, ("", Some "exit status 1")).

Lemma exRoot : absPath "/srv" ["srv"].
Proof. split; [done|]. repeat constructor; done. Qed.

Lemma exDoc : absPath "/srv/a.docx" ["srv"; "a.docx"].
Proof. split; [done|]. repeat constructor; done. Qed.

Lemma exRun_outdir conv src t k : ["srv"] `prefix_of` k ∨ k `prefix_of` ["srv"] → ¬ (tempElems exOs ["srv"] `prefix_of` k) →
  (exRun conv (convertArgs (tempPath exOs "/srv") src) t).1 !! k = t !! k.
Proof.
  intros _ Hk. unfold exRun. case_decide; [|done]. destruct (t !! ["srv"; "a.docx"]) as [[]|]; try done.
  simpl fst. rewrite lookup_insert_ne; [done|]. intros <-. apply Hk. by exists ["a.pdf"].
Qed.

Lemma exRun_converts : converts exOs exRun "/srv" ["srv"] (λ data, "PDF of " +:+ data) "/srv/a.docx".
Proof.
  intros conv t data mtime Ht _. change (locate exOs "/srv/a.docx") with ["srv"; "a.docx"] in *. unfold exRun.
  rewrite decide_True by done. rewrite Ht. eexists _, _, 8. split; [reflexivity|]. split; [by rewrite lookup_insert_ne|].
  change (locate exOs (generatedPath exOs "/srv" "/srv/a.docx")) with (exTemp ++ ["a.pdf"]). by rewrite lookup_insert_eq.
Qed.

Lemma exReady : ready exOs exSum ["srv"] "/srv/a.docx" exTree (infoOf (NFile "text" 5)).
Proof.
  split_and!.
  - intros k Hk d m E. destruct k as [|a [|b [|c k]]].
    + by vm_compute in E.
    + apply prefix_cons_inv_1 in Hk as ->. by vm_compute in E.
    + apply prefix_cons_inv_1 in Hk as Ea. apply prefix_cons_inv_2, prefix_cons_inv_1 in Hk. subst. by vm_compute in E.
    + apply prefix_length in Hk. simpl in Hk. lia.
  - intros k [r ->]. unfold exTree. apply not_elem_of_list_to_map_1. simpl. set_solver.
  - by vm_compute.
Qed.

Lemma preview_leads_to_pdf_witness :
  let answer := Ret (Answer 200 (mkPreviewResponse "a.docx" "pdf" "" (rawURL (cachedPDF "/srv" (previewCacheKey exSum "/srv/a.docx" (infoOf (NFile "text" 5))))))) in
  ∃ t', handlePreview exOs exSum exLook exRun "/srv" "GET" "file=%2Fsrv%2Fa.docx" exTree = (t', answer) ∧
    (∃ resp, handlePreviewRaw exOs (λ _, "") (λ s, s) "GET"
        (rawQuery (rawURL (cachedPDF "/srv" (previewCacheKey exSum "/srv/a.docx" (infoOf (NFile "text" 5)))))) t' = (t', Ret (Answer 200 resp)) ∧
      Body resp = "PDF of text") ∧
    ∀ run', handlePreview exOs exSum exLook run' "/srv" "GET" "file=%2Fsrv%2Fa.docx" t' = (t', answer).
Proof.
  apply (preview_leads_to_pdf exOs exSum exLook exRun "/srv" ["srv"] exRoot eq_refl exRun_outdir (λ data, "PDF of " +:+ data)
    ltac:(by split_and!) "/srv/a.docx" exRun_converts (λ _, "") (λ s, s) "/usr/bin/soffice" "file=%2Fsrv%2Fa.docx"
    ["srv"; "a.docx"] exTree "text" 5); try done; [apply exDoc|apply exReady].
Defined.

Lemma normalized_determines_witness :
  normalized "/a|1" (mkFileInfo false 2 3) = normalized "/a|1" (mkFileInfo false 2 3) ∧ "/a|1" = "/a|1".
Proof.
  split; [done|]. apply (normalized_determines "/a|1" (mkFileInfo false 2 3) "/a|1" (mkFileInfo false 2 3)); done.
Defined.

Lemma ensurePreviewPDF_frame_witness :
  (ensurePreviewPDF exOs exSum exLook exRun "/srv" "/srv/a.docx" (infoOf (NFile "text" 5)) exTree).1 !! ["srv"; "notes.txt"]
  = exTree !! ["srv"; "notes.txt"].
Proof.
  eapply (ensurePreviewPDF_frame exOs exSum exLook exRun "/srv" ["srv"] exRoot eq_refl exRun_outdir "/srv/a.docx" ["srv"; "a.docx"]
    (infoOf (NFile "text" 5)) exTree).
  - apply exDoc.
  - discriminate.
  - reflexivity.
  - apply exReady.
  - apply surjective_pairing.
  - by exists ["notes.txt"].
  - by intros [r E].
  - by intros [r E].
Defined.

(** A disk that cannot rename into the cache and is full after three bytes. *)
Definition fullOs : Os :=
  mkOs "/srv" 7 4096 "1" None (λ _, None) (λ _, None) (λ _, None) (λ _, None) (Some "invalid cross-device link") None
    (Some ("no space left on device", "PDF")) None (λ _, false).

(** A copy into the cache that fails leaves what it had written under the name of the PDF,
    and later requests take it for the converted document. *)
Theorem broken_pdf_stays_cached :
  let '(t1, r1) := handlePreview fullOs exSum exLook exRun "/srv" "GET" "file=%2Fsrv%2Fa.docx" exTree in
  let '(t2, r2) := handlePreview exOs exSum exLook exRun "/srv" "GET" "file=%2Fsrv%2Fa.docx" t1 in
  r1 = Ret (Error 500 "store preview pdf: no space left on device") ∧
  match r2 with
  | Ret (Answer _ resp) =>
      (handlePreviewRaw exOs (λ _, "") (λ s, s) "GET" (rawQuery (ResourceURL resp)) t2).2
      = Ret (Answer 200 (mkRawResponse "application/pdf" ("inline; filename=" +:+ "2f7372762f612e646f63787c357c34.pdf") "PDF"))
  | _ => False
  end.
Proof. vm_compute. auto. Qed.
