(* ===== verification/ApiClient.v ===== *)
(** * Import, retrieval and routes of the HTTP API (cmd/opendsn-api/handlers.go, server.go)

    [POST /api/client/import] and [POST /api/client/retrieve-version] run the [lotus] binary
    on a file of the host; [GET /api/client/versions] reads the metadata files.  The requests
    come through [withCORS] and the table of routes. *)

From Stdlib Require Import Ascii.
From stdpp Require Import strings numbers base gmap fin_maps sets list.
From S2P Require Import Prelude GoStrings GoPaths GoSort GoTree Versions Catalog ApiDeal ApiBrowse.
Local Open Scope Z_scope.

(** ** Import *)

Record ImportResponse := mkImportResponse {
  imSuccess : bool; imMessage : string; imRoot : string; imOutput : string; imPath : string;
  imFileName : string; imFileExtension : string; imSizeBytes : Z; imSizeMB : string
}.

Record RetrieveVersionRequest := mkRetrieveVersionRequest { rvRoot : string; rvCID : string; rvOutputName : string }.

Record RetrieveVersionResponse := mkRetrieveVersionResponse {
  rvSuccess : bool; rvMessage : string; rvOutputPath : string; rvOutput : string;
  rvRetrievedCID : string; rvSizeBytes : Z; rvSizeMB : string
}.

Record VersionListResponse := mkVersionListResponse { vlRoot : string; vlVersions : list VersionInfo }.

Section client.
Variable os : Os.
Variable RepoRoot : string.
(** Running the [lotus] binary: its output and whether it succeeded. *)
Variable lotus : list string → Tree → Tree * (string * bool).

Definition runLotus (args : list string) : io Tree (string * bool) := λ t,
  let '(t', (out, ok)) := lotus args t in (t', Ret (TrimSpace out, ok)).

(** The path of a request that must name a file. *)
Definition importTarget (path : string) : io Tree (string * FileInfo) :=
  absPath ← said "invalid file path" (lift (Abs (Getwd os) path));
  info ← said "cannot access file" (Stat os absPath);
  if infoIsDir info then fail "path is a directory, not a file" else mret (absPath, info).

Definition handleClientImport (method : string) (body : option string) : io Tree (reply ImportResponse) :=
  if decide (method ≠ "POST") then mret (Error 405 "method not allowed")
  else match body with
  | None => mret (Error 400 "invalid json body")
  | Some path0 =>
      let path := TrimSpace path0 in
      if decide (path = "") then mret (Error 400 "path is required")
      else orError 400 (importTarget path) (λ '(absPath, info),
        r ← runLotus ["client"; "import"; "-q"; absPath];
        let '(output, ok) := r in
        mret (Answer 200 (mkImportResponse ok (if ok : bool then "import finished" else "import failed") (TrimSpace output) output absPath
               (Base absPath) (ToLower (Ext absPath)) (infoSize info) (formatSizeMB (infoSize info)))))
  end.

(** ** Retrieval *)

Definition retrievedSize (outputPath : string) : io Tree Z := λ t,
  match Stat os outputPath t with
  | (t', Ret info) => (t', Ret (if infoIsDir info then 0 else infoSize info))
  | (t', _) => (t', Ret 0)
  end.

Definition handleClientRetrieveVersion (method : string) (body : option RetrieveVersionRequest) : io Tree (reply RetrieveVersionResponse) :=
  if decide (method ≠ "POST") then mret (Error 405 "method not allowed")
  else match body with
  | None => mret (Error 400 "invalid json body")
  | Some req =>
      let targetCID := if decide (TrimSpace (rvCID req) = "") then TrimSpace (rvRoot req) else TrimSpace (rvCID req) in
      let outputName := TrimSpace (rvOutputName req) in
      if decide (targetCID = "") then mret (Error 400 "cid is required")
      else if decide (outputName = "") then mret (Error 400 "output_name is required")
      else
        let outputPath := JoinPath [RepoRoot; outputName] in
        r ← runLotus ["client"; "retrieve-version"; targetCID; outputPath];
        let '(output, ok) := r in
        if negb ok then
          mret (Answer 200 (mkRetrieveVersionResponse false "retrieve-version failed" outputPath output targetCID 0 ""))
        else
          sizeBytes ← retrievedSize outputPath;
          mret (Answer 200 (mkRetrieveVersionResponse true "retrieve-version finished" outputPath output targetCID sizeBytes (formatSizeMB sizeBytes)))
  end.

(** ** Versions *)

Definition handleClientVersions (repo : string → string) (method query : string) : io world (reply VersionListResponse) := λ w,
  if decide (method ≠ "GET") then (w, Ret (Error 405 "method not allowed"))
  else
    let root := TrimSpace (QueryGet query "root") in
    if decide (root = "") then (w, Ret (Error 400 "root is required"))
    else match loadVersionsFromMeta repo root w with
         | (w', Ret versions) => (w', Ret (Answer 200 (mkVersionListResponse root versions)))
         | (w', Fail err) => (w', Ret (Error 400 err))
         | (w', Crash) => (w', Crash)
         end.
End client.

(** ** Routes *)

Inductive endpoint :=
| Health | Miners | Proofs | ClientImport | ClientDeal | ClientRetrieveVersion | ClientRoots | ClientVersions
| CatalogList | Browse | Preview | PreviewRaw.

Definition Routes : list (string * endpoint) :=
  [("/healthz", Health); ("/api/miners", Miners); ("/api/proofs", Proofs); ("/api/client/import", ClientImport);
   ("/api/client/deal", ClientDeal); ("/api/client/retrieve-version", ClientRetrieveVersion);
   ("/api/client/roots", ClientRoots); ("/api/client/versions", ClientVersions); ("/api/catalog", CatalogList);
   ("/api/browse", Browse); ("/api/preview", Preview); ("/api/preview/raw", PreviewRaw)].

(** What [http.ServeMux] does with a clean path: the patterns have no trailing slash and match
    only themselves. *)
Definition route (path : string) : option endpoint := snd <$> find (λ pe, bool_decide (pe.1 = path)) Routes.

Definition corsHeaders : list (string * string) :=
  [("Access-Control-Allow-Origin", "*"); ("Access-Control-Allow-Methods", "GET, POST, OPTIONS");
   ("Access-Control-Allow-Headers", "Content-Type")].

(** What the server does with a request: the status of a preflight request, a missing page, or
    the handler to run; the headers are set in every case. *)
Inductive dispatch := NoContent | NotFound | Handler (e : endpoint).

Definition withCORS (method path : string) : list (string * string) * dispatch :=
  (corsHeaders,
   if decide (method = "OPTIONS") then NoContent
   else match route path with Some e => Handler e | None => NotFound end).

(** ** What a retrieval may overwrite *)

Section facts.
Variable os : Os.
Variable RepoRoot : string.
Variable root : list string.
Variable lotus : list string → Tree → Tree * (string * bool).
Hypothesis RepoRoot_clean : absPath RepoRoot root.

(** A request to retrieve a version is refused before anything is run, or runs [lotus] once,
    with the CID of the request, or else its root, and with a path that is made of the output
    name: its elements are appended to the server's directory after its leading dot-dots
    have taken elements of that directory away.  The path is below the directory when the
    name has no such dot-dots. *)
Theorem retrieve_output_path req t :
  let target := if decide (TrimSpace (rvCID req) = "") then TrimSpace (rvRoot req) else TrimSpace (rvCID req) in
  let name := TrimSpace (rvOutputName req) in
  let run := handleClientRetrieveVersion os RepoRoot lotus "POST" (Some req) t in
  (target = "" ∨ name = "" → ∃ msg, run = (t, Ret (Error 400 msg))) ∧
  (target ≠ "" → name ≠ "" → ∃ path k rest resp,
     run = ((lotus ["client"; "retrieve-version"; target; path] t).1, Ret (Answer 200 resp)) ∧
     rvSuccess resp = (lotus ["client"; "retrieve-version"; target; path] t).2.2 ∧
     rvOutputPath resp = path ∧ rvRetrievedCID resp = target ∧
     cleanElems false (Split SLASH name) = replicate k DOTDOT ++ rest ∧ absPath path (take (length root - k) root ++ rest) ∧
     (k = 0%nat → root `prefix_of` take (length root - k) root ++ rest)).
Proof.
  intros target name run. unfold run, handleClientRetrieveVersion. rewrite decide_False by (by intros []). fold target. fold name. split.
  - intros [Ht|Hn]; [rewrite decide_True by done; by eexists|]. rewrite Hn. case_decide; [by eexists|]. rewrite decide_True by done. by eexists.
  - intros Ht Hn. rewrite !decide_False by done. destruct (JoinPath_elems RepoRoot root name RepoRoot_clean Hn) as (k&rest&E&Hr&Hp).
    exists (JoinPath [RepoRoot; name]), k, rest. unfold runLotus, mbind, io_bind.
    destruct (lotus _ t) as [t' [out ok]]. assert (k = 0%nat → root `prefix_of` take (length root - k) root ++ rest) as Hpre.
    { intros ->. rewrite Nat.sub_0_r, firstn_all. by eexists. }
    destruct ok; cbn [negb]; [|by eexists]. unfold retrievedSize, Stat, raise, fail.
    destruct (statFails os _); [by eexists|]. by destruct (t' !! _); eexists.
Qed.
End facts.

(** The output name of a request can name a file anywhere on the host. *)
Theorem retrieve_escapes_directory lotus t :
  handleClientRetrieveVersion exOs "/srv/dsn" lotus "POST" (Some (mkRetrieveVersionRequest "" "bafy" "../../etc/passwd")) t
  = (let '(t', (out, ok)) := lotus ["client"; "retrieve-version"; "bafy"; "/etc/passwd"] t in
     if ok then
       let size := match t' !! ["etc"; "passwd"] with Some (NFile data _) => Z.of_nat (String.length data) | _ => 0 end in
       (t', Ret (Answer 200 (mkRetrieveVersionResponse true "retrieve-version finished" "/etc/passwd" (TrimSpace out) "bafy" size (formatSizeMB size))))
     else (t', Ret (Answer 200 (mkRetrieveVersionResponse false "retrieve-version failed" "/etc/passwd" (TrimSpace out) "bafy" 0 "")))).
Proof.
  unfold handleClientRetrieveVersion. rewrite decide_False by (by intros []). cbn [rvCID rvRoot rvOutputName].
  change (TrimSpace "bafy") with "bafy". change (TrimSpace "../../etc/passwd") with "../../etc/passwd".
  change (JoinPath ["/srv/dsn"; "../../etc/passwd"]) with "/etc/passwd".
  rewrite !decide_False by done. unfold runLotus, mbind, io_bind. destruct (lotus _ t) as [t' [out []]]; [|done].
  cbn [negb]. unfold retrievedSize, Stat, raise. change (locate exOs "/etc/passwd") with ["etc"; "passwd"]. cbn [statFails exOs goodOs].
  by destruct (t' !! ["etc"; "passwd"]) as [[]|].
Qed.

Lemma retrieve_output_path_witness :
  ∃ path k rest resp,
    handleClientRetrieveVersion exOs "/srv" (λ _ t, (t, ("done", true))) "POST" (Some (mkRetrieveVersionRequest "r" "" "out/../b.txt")) exTree
    = (exTree, Ret (Answer 200 resp)) ∧ rvOutputPath resp = path ∧ absPath path (take (1 - k) ["srv"] ++ rest).
Proof.
  destruct (retrieve_output_path exOs "/srv" ["srv"] (λ _ t, (t, ("done", true)))
    ltac:(split; [reflexivity|repeat constructor; discriminate]) (mkRetrieveVersionRequest "r" "" "out/../b.txt") exTree) as [_ H].
  destruct H as (path&k&rest&resp&H1&_&H2&_&_&H3&_); [discriminate..|]. exists path, k, rest, resp. split; [exact H1|]. split; [exact H2|exact H3].
Defined.

(** ** What an import reads *)

(** An import request is refused without running anything, or runs [lotus client import] once
    with the clean absolute path of a file that exists, and the answer describes that file. *)
Theorem import_runs_on_file os lotus path0 t :
  let run := handleClientImport os lotus "POST" (Some path0) t in
  (∃ msg, run = (t, Ret (Error 400 msg))) ∨
  ∃ path data mtime resp, Abs (Getwd os) (TrimSpace path0) = Ret path ∧ t !! locate os path = Some (NFile data mtime) ∧
    run = ((lotus ["client"; "import"; "-q"; path] t).1, Ret (Answer 200 resp)) ∧
    imSuccess resp = (lotus ["client"; "import"; "-q"; path] t).2.2 ∧ imPath resp = path ∧
    imRoot resp = TrimSpace (TrimSpace (lotus ["client"; "import"; "-q"; path] t).2.1) ∧
    imSizeBytes resp = Z.of_nat (String.length data).
Proof.
  intros run. unfold run, handleClientImport. rewrite decide_False by (by intros []). case_decide; [left; by eexists|].
  unfold orError, importTarget, said, lift, mbind, io_bind. destruct (Abs (Getwd os) (TrimSpace path0)) as [path|e|] eqn:Ea.
  - unfold Stat, raise, fail. destruct (statFails os _); [left; by eexists|]. destruct (t !! locate os path) as [[data mtime|]|] eqn:Et;
      [|left; by eexists..]. right. exists path, data, mtime. unfold runLotus, mret, io_ret. cbn [infoOf infoIsDir]. destruct (lotus _ t) as [t' [out ok]]. by eexists.
  - left. by eexists.
  - exfalso. unfold Abs, Getwd in Ea. destruct (isRooted _); [done|]. by destruct (getwdFails os).
Qed.
