(* ===== verification/Fr32.v ===== *)
(** * Fr32 padding (storage/sealer/fr32)

    Sectors are made of field elements of 254 bits in words of 256 bits.  [pad]
    turns 127 bytes into 128 by putting two zero bits after every 254 bits, and
    [unpad] takes them out; [padWriter] and [unpadReader] do so on streams.  A
    byte is a number below 256 and a [[]byte] a list of them. *)

From stdpp Require Import strings numbers base list.
From S2P Require Import Prelude.
Local Open Scope Z_scope.

(** ** Bytes *)

Definition byteOk (b : Z) : Prop := 0 ≤ b < 256.

(** [b << s], [b >> s] and [b & 0x3f] on [byte]. *)
Definition shl (b s : Z) : Z := Z.land (Z.shiftl b s) 255.
Definition shr (b s : Z) : Z := Z.shiftr b s.
Definition low6 (b : Z) : Z := Z.land b 0x3f.

(** [b[i]], where a chunk always has the byte. *)
Definition at_ (c : list Z) (i : nat) : Z := default 0 (c !! i).

(** [c[i:j]] *)
Definition slice (c : list Z) (i j : nat) : list Z := take (j - i) (drop i c).

(** ** Padding *)

(** [for .. { v = in[i]; out[i] = (v << s) | t; t = v >> (8 - s) }]; the bytes written
    and [v] after the loop. *)
Fixpoint padLoop (s t v : Z) (bytes : list Z) : list Z * Z :=
  match bytes with
  | [] => ([], v)
  | b :: rest =>
      let '(out, v') := padLoop s (shr b (8 - s)) b rest in
      (Z.lor (shl b s) t :: out, v')
  end.

(** A change of the last byte written, such as [out[63] &= 0x3f]. *)
Definition onLast (f : Z → Z) (out : list Z) : list Z := alter f (length out - 1)%nat out.

Definition padChunk (c : list Z) : list Z :=
  let out0 := take 31 c ++ [low6 (at_ c 31)] in
  let t := shr (at_ c 31) 6 in
  let '(out1, v1) := padLoop 2 t 0 (slice c 32 64) in
  let '(out2, v2) := padLoop 4 (shr v1 4) v1 (slice c 64 96) in
  let '(out3, v3) := padLoop 6 (shr v2 2) v2 (slice c 96 127) in
  out0 ++ onLast low6 out1 ++ onLast low6 out2 ++ out3 ++ [low6 (shr v3 2)].

(** [for .. { next := in[i+1]; out[i] = at >> r | next << (8 - r); at = next }]; the
    bytes written and [at] after the loop. *)
Fixpoint unpadLoop (r at0 : Z) (nexts : list Z) : list Z * Z :=
  match nexts with
  | [] => ([], at0)
  | next :: rest =>
      let '(out, at') := unpadLoop r next rest in
      (Z.lor (shr at0 r) (shl next (8 - r)) :: out, at')
  end.

(** The first loop only copies. *)
Fixpoint copyLoop (at0 : Z) (nexts : list Z) : list Z * Z :=
  match nexts with
  | [] => ([], at0)
  | next :: rest => let '(out, at') := copyLoop next rest in (at0 :: out, at')
  end.

Definition unpadChunk (c : list Z) : list Z :=
  let '(out0, a0) := copyLoop (at_ c 0) (slice c 1 33) in
  let out0' := onLast (λ o, Z.lor o (shl a0 6)) out0 in
  let '(out1, a1) := unpadLoop 2 a0 (slice c 33 65) in
  let out1' := onLast (λ o, Z.lxor o (Z.lxor (shl a1 6) (shl a1 4))) out1 in
  let '(out2, a2) := unpadLoop 4 a1 (slice c 65 97) in
  let out2' := onLast (λ o, Z.lxor o (Z.lxor (shl a2 4) (shl a2 2))) out2 in
  let '(out3, _) := unpadLoop 6 a2 (slice c 97 128) in
  out0' ++ out1' ++ out2' ++ out3.

(** The loop over the chunks of sizes [m] and [n]: a chunk that is not there is an index
    out of range. *)
Fixpoint chunks (f : list Z → list Z) (m : nat) (count : nat) (inp : list Z) : outcome (list Z) :=
  match count with
  | O => Ret []
  | S k =>
      if decide (length inp < m)%nat then Crash
      else rest ← chunks f m k (drop m inp); Ret (f (take m inp) ++ rest)
  end.

(** [pad(in, out)] and [unpad(out, in)]: the new contents of [out], whose bytes after
    the last chunk stay. *)
Definition pad (inp out : list Z) : outcome (list Z) :=
  let k := (length out / 128)%nat in
  o ← chunks padChunk 127 k inp; Ret (o ++ drop (128 * k) out).

Definition unpad (out inp : list Z) : outcome (list Z) :=
  let k := (length inp / 128)%nat in
  if decide (length out < 127 * k)%nat then Crash
  else o ← chunks unpadChunk 128 k inp; Ret (o ++ drop (127 * k) out).
