(* ===== verification/Fr32Spec.v ===== *)
(** * What the padding does to a chunk

    A list of bytes is a little-endian number.  The four words of a padded chunk
    are the 254-bit digits of the number of the chunk, and unpadding such a chunk
    gives the number back. *)

From stdpp Require Import strings numbers base sets list.
From S2P Require Import Prelude Fr32.
Local Open Scope Z_scope.

(** Evaluates the constant powers of two of the goal and the context. *)
Ltac eval_pow :=
  repeat match goal with
  | |- context [2 ^ ?e] => let v := eval vm_compute in (2 ^ e) in
      lazymatch v with Zpos _ => change (2 ^ e) with v end
  | H : context [2 ^ ?e] |- _ => let v := eval vm_compute in (2 ^ e) in
      lazymatch v with Zpos _ => change (2 ^ e) with v in H end
  end.

(** ** Little-endian numbers *)

Fixpoint le (l : list Z) : Z := match l with [] => 0 | b :: l' => b + 256 * le l' end.

Abbreviation bytes := (Forall byteOk).

#[global] Instance byteOk_dec b : Decision (byteOk b).
Proof. unfold byteOk. apply _. Defined.

Lemma pow256 n : 2 ^ (8 * Z.of_nat (S n)) = 256 * 2 ^ (8 * Z.of_nat n).
Proof. replace (8 * Z.of_nat (S n)) with (8 + 8 * Z.of_nat n) by lia. by rewrite Z.pow_add_r by lia. Qed.

Lemma le_app l k : le (l ++ k) = le l + 2 ^ (8 * Z.of_nat (length l)) * le k.
Proof. induction l as [|b l IH]; [simpl; lia|]. cbn [app le length]. rewrite IH, pow256. ring. Qed.

Lemma le_bound l : bytes l → 0 ≤ le l < 2 ^ (8 * Z.of_nat (length l)).
Proof.
  induction 1 as [|b l Hb Hl IH]; [done|]. cbn [le length]. rewrite pow256. unfold byteOk in Hb. lia.
Qed.

Lemma le_inj l k : length l = length k → bytes l → bytes k → le l = le k → l = k.
Proof.
  revert k. induction l as [|a l IH]; intros [|b k]; try done. cbn [le length].
  intros [= HL] [Ha Hl]%Forall_cons [Hb Hk]%Forall_cons E. unfold byteOk in *.
  assert (a = b) as -> by lia. f_equal. apply IH; [done..|lia].
Qed.

(** ** Facts about single bytes, by inspection of all of them *)

Definition allBytes2 (P : Z → Z → bool) : bool :=
  forallb (λ a, forallb (P a) (seqZ 0 256)) (seqZ 0 256).

Lemma allBytes2_spec P a b : allBytes2 P = true → byteOk a → byteOk b → P a b = true.
Proof.
  unfold allBytes2, byteOk. rewrite forallb_forall. intros H Ha Hb.
  assert (In a (seqZ 0 256)) as Ia by (apply list_elem_of_In, elem_of_seqZ; lia).
  specialize (H a Ia). rewrite forallb_forall in H. apply H, list_elem_of_In, elem_of_seqZ. lia.
Qed.

(** A byte shifted in with a carry, and out again. *)
Lemma pad_byte s b t :
  s ∈ [2; 4; 6] → byteOk b → 0 ≤ t < 2 ^ s →
  byteOk (Z.lor (shl b s) t) ∧ Z.lor (shl b s) t + 256 * shr b (8 - s) = b * 2 ^ s + t ∧
  0 ≤ shr b (8 - s) < 2 ^ s.
Proof.
  intros Hs Hb Ht.
  set (P := λ s b t, implb (t <? 2 ^ s) ((0 <=? Z.lor (shl b s) t) && (Z.lor (shl b s) t <? 256) &&
    (Z.lor (shl b s) t + 256 * shr b (8 - s) =? b * 2 ^ s + t) && (0 <=? shr b (8 - s)) && (shr b (8 - s) <? 2 ^ s))).
  assert (P s b t = true) as H.
  { assert (byteOk t) by (unfold byteOk; rewrite !elem_of_cons, elem_of_nil in Hs;
      destruct Hs as [->|[->|[->|[]]]]; simpl in Ht; lia).
    apply allBytes2_spec; [|done..]. rewrite !elem_of_cons, elem_of_nil in Hs.
    destruct Hs as [->|[->|[->|[]]]]; vm_cast_no_check (eq_refl true). }
  unfold P in H. rewrite (proj2 (Z.ltb_lt t (2 ^ s))) in H by lia. simpl in H. unfold byteOk. lia.
Qed.

Lemma unpad_byte r a next :
  r ∈ [2; 4; 6] → byteOk a → byteOk next →
  byteOk (Z.lor (shr a r) (shl next (8 - r))) ∧
  2 ^ r * Z.lor (shr a r) (shl next (8 - r)) = a - a mod 2 ^ r + 256 * (next mod 2 ^ r).
Proof.
  intros Hr Ha Hn.
  set (P := λ r a next, (0 <=? Z.lor (shr a r) (shl next (8 - r))) && (Z.lor (shr a r) (shl next (8 - r)) <? 256) &&
    (2 ^ r * Z.lor (shr a r) (shl next (8 - r)) =? a - a mod 2 ^ r + 256 * (next mod 2 ^ r))).
  assert (P r a next = true) as H.
  { apply allBytes2_spec; [|done..]. rewrite !elem_of_cons, elem_of_nil in Hr.
    destruct Hr as [->|[->|[->|[]]]]; vm_cast_no_check (eq_refl true). }
  unfold P in H. unfold byteOk. lia.
Qed.

(** ** The loops *)

(** The padding loop adds the carry [t] to the shifted number and carries the rest out. *)
Lemma padLoop_spec s t v l :
  s ∈ [2; 4; 6] → bytes l → 0 ≤ t < 2 ^ s →
  let '(out, v') := padLoop s t v l in
  length out = length l ∧ bytes out ∧ v' = default v (last l) ∧
  le out + 2 ^ (8 * Z.of_nat (length l)) * (match l with [] => t | _ => shr v' (8 - s) end) = le l * 2 ^ s + t.
Proof.
  intros Hs Hl. revert t v. induction Hl as [|b l Hb Hl IH]; intros t v Ht; [simpl; split_and!; done || lia|].
  cbn [padLoop]. destruct (pad_byte s b t Hs Hb Ht) as (Hbyte&Hsum&Hcarry).
  specialize (IH (shr b (8 - s)) b Hcarry). destruct (padLoop s (shr b (8 - s)) b l) as [out v'].
  destruct IH as (Hlen&Hbytes&Hv&Hle). split_and!.
  - simpl. by rewrite Hlen.
  - by constructor.
  - rewrite Hv, last_cons. by destruct (last l).
  - cbn [le length]. rewrite pow256. destruct l as [|c l'].
    + simpl in *. subst v'. simpl. lia.
    + cbn [le] in *. nia.
Qed.

(** The unpadding loop divides by [2 ^ r] and takes the low bits of the last byte in. *)
Lemma unpadLoop_spec r a l :
  r ∈ [2; 4; 6] → byteOk a → bytes l →
  let '(out, a') := unpadLoop r a l in
  length out = length l ∧ bytes out ∧ a' = default a (last l) ∧ byteOk a' ∧
  2 ^ r * le out = le (a :: l) - a mod 2 ^ r
    - 2 ^ (8 * Z.of_nat (length l)) * (a' - a' mod 2 ^ r).
Proof.
  intros Hr Ha Hl. revert a Ha. induction Hl as [|b l Hb Hl IH]; intros a Ha; [simpl; split_and!; done || lia|].
  cbn [unpadLoop]. destruct (unpad_byte r a b Hr Ha Hb) as (Hbyte&Hsum).
  specialize (IH b Hb). destruct (unpadLoop r b l) as [out a'].
  destruct IH as (Hlen&Hbytes&Hv&Ha'&Hle). split_and!; [by simpl; rewrite Hlen|by constructor| |done|].
  - rewrite Hv, last_cons. by destruct (last l).
  - cbn [le length] in *. rewrite pow256. nia.
Qed.

Lemma copyLoop_spec a l :
  copyLoop a l = (take (length l) (a :: l), default a (last l)).
Proof.
  revert a. induction l as [|b l IH]; intros a; [done|]. cbn [copyLoop]. rewrite IH, last_cons. by destruct (last l).
Qed.

(** ** Changing the last byte *)

Lemma onLast_snoc f l b : onLast f (l ++ [b]) = l ++ [f b].
Proof.
  unfold onLast. rewrite length_app. simpl. replace (length l + 1 - 1)%nat with (length l + 0)%nat by lia.
  by rewrite alter_app_r.
Qed.

Lemma snoc_of {A} (l : list A) n : length l = S n → ∃ k b, l = k ++ [b] ∧ length k = n.
Proof.
  intros H. destruct (exists_last (l := l)) as (k&b&->); [by destruct l|]. exists k, b.
  rewrite length_app in H. simpl in H. split; [done|lia].
Qed.

Lemma low6_mod b : low6 b = b mod 64.
Proof. unfold low6. change 0x3f with (Z.ones 6). by rewrite Z.land_ones. Qed.

(** Clearing the two top bits of a word. *)
Lemma clear_word l : length l = 32%nat → bytes l →
  length (onLast low6 l) = 32%nat ∧ bytes (onLast low6 l) ∧ le (onLast low6 l) = le l mod 2 ^ 254.
Proof.
  intros HL Hl. destruct (snoc_of l 31 HL) as (k&b&->&Hk). rewrite onLast_snoc, low6_mod.
  apply Forall_app in Hl as [Hkb Hb]. rewrite Forall_singleton in Hb. pose proof (le_bound k Hkb) as Hbk.
  rewrite !le_app, Hk in *. cbn [le]. unfold byteOk in *.
  change (2 ^ (8 * Z.of_nat 31)) with (2 ^ 248) in *. split_and!.
  - rewrite length_app, Hk. done.
  - apply Forall_app. split; [done|]. apply Forall_singleton. pose proof (Z.mod_pos_bound b 64 eq_refl). unfold byteOk. lia.
  - change (2 ^ 254) with (2 ^ 248 * 64). assert (0 < 2 ^ 248) by done. generalize dependent (2 ^ 248).
    intros M Hbk HM. rewrite Z.rem_mul_r by lia. rewrite !Z.mul_0_r, !Z.add_0_r.
    rewrite (Z.mul_comm M b), Z.div_add, Z.mod_add, Z.div_small, (Z.mod_small (le k)) by lia. done.
Qed.

(** ** The digits of a chunk *)

Lemma digit_mod x y p q : 0 ≤ q ≤ p → (x + 2 ^ p * y) mod 2 ^ q = x mod 2 ^ q.
Proof.
  intros Hq. replace p with (q + (p - q)) by lia. rewrite Z.pow_add_r by lia.
  rewrite <- Z.mul_assoc, (Z.mul_comm (2 ^ q)), Z.mod_add; [done|]. apply Z.pow_nonzero; lia.
Qed.

Lemma digit_div x y p q : 0 ≤ q ≤ p → (x + 2 ^ p * y) / 2 ^ q = x / 2 ^ q + 2 ^ (p - q) * y.
Proof.
  intros Hq. replace p with (q + (p - q)) at 1 by lia. rewrite Z.pow_add_r by lia.
  rewrite <- Z.mul_assoc, (Z.mul_comm (2 ^ q)), Z.div_add; [done|]. apply Z.pow_nonzero; lia.
Qed.

(** A carry below [2 ^ s] disappears in a division. *)
Lemma carry_div t x s q : 0 ≤ s ≤ q → 0 ≤ t < 2 ^ s → (x * 2 ^ s + t) / 2 ^ q = x / 2 ^ (q - s).
Proof.
  intros Hs Ht. replace q with (s + (q - s)) at 1 by lia. rewrite Z.pow_add_r by lia.
  rewrite <- Z.div_div by (try apply Z.pow_nonzero; try apply Z.pow_pos_nonneg; lia).
  f_equal. rewrite Z.div_add_l by (apply Z.pow_nonzero; lia). rewrite Z.div_small by done. lia.
Qed.

(** The top byte of a number, shifted. *)
Lemma top_byte k b e : bytes k → byteOk b → 0 ≤ e →
  le (k ++ [b]) / 2 ^ (8 * Z.of_nat (length k) + e) = shr b e.
Proof.
  intros Hk Hb He. rewrite le_app. cbn [le]. unfold shr. rewrite Z.shiftr_div_pow2 by lia.
  rewrite Z.pow_add_r by lia.
  rewrite <- Z.div_div by (try apply Z.pow_nonzero; try apply Z.pow_pos_nonneg; lia).
  f_equal. rewrite (Z.mul_comm (2 ^ _)), Z.div_add by (apply Z.pow_nonzero; lia).
  rewrite Z.div_small by (by apply le_bound). lia.
Qed.

Section chunk.
Variables A0 A1 A2 A3 : list Z.
Hypothesis L0 : length A0 = 32%nat.
Hypothesis L1 : length A1 = 32%nat.
Hypothesis L2 : length A2 = 32%nat.
Hypothesis L3 : length A3 = 31%nat.
Hypothesis B0 : bytes A0.
Hypothesis B1 : bytes A1.
Hypothesis B2 : bytes A2.
Hypothesis B3 : bytes A3.

Abbreviation c := (A0 ++ A1 ++ A2 ++ A3).
Abbreviation N := (le (A0 ++ A1 ++ A2 ++ A3)).

Lemma chunk_number : N = le A0 + 2 ^ 256 * (le A1 + 2 ^ 256 * (le A2 + 2 ^ 256 * le A3)).
Proof. rewrite !le_app, L0, L1, L2. done. Qed.

Lemma word_bound l : length l = 32%nat → bytes l → 0 ≤ le l < 2 ^ 256.
Proof. intros HL Hl. pose proof (le_bound l Hl) as H. rewrite HL in H. exact H. Qed.

(** The digits of the chunk in terms of its words. *)
Definition X1 : Z := le A1 * 4 + le A0 / 2 ^ 254.
Definition X2 : Z := le A2 * 16 + le A1 / 2 ^ 252.
Definition X3 : Z := le A3 * 64 + le A2 / 2 ^ 250.

Lemma carry0 : 0 ≤ le A0 / 2 ^ 254 < 2 ^ 2.
Proof.
  pose proof (word_bound A0 L0 B0). split; [apply Z.div_pos; [lia|done]|].
  apply Z.div_lt_upper_bound; [done|]. change (2 ^ 254 * 2 ^ 2) with (2 ^ 256). lia.
Qed.

Lemma carry1 : 0 ≤ le A1 / 2 ^ 252 < 2 ^ 4.
Proof.
  pose proof (word_bound A1 L1 B1). split; [apply Z.div_pos; [lia|done]|].
  apply Z.div_lt_upper_bound; [done|]. change (2 ^ 252 * 2 ^ 4) with (2 ^ 256). lia.
Qed.

Lemma carry2 : 0 ≤ le A2 / 2 ^ 250 < 2 ^ 6.
Proof.
  pose proof (word_bound A2 L2 B2). split; [apply Z.div_pos; [lia|done]|].
  apply Z.div_lt_upper_bound; [done|]. change (2 ^ 250 * 2 ^ 6) with (2 ^ 256). lia.
Qed.

Lemma N_254 : N / 2 ^ 254 = X1 + 2 ^ 258 * (le A2 + 2 ^ 256 * le A3).
Proof.
  rewrite chunk_number, digit_div by lia. unfold X1. change (2 ^ (256 - 254)) with 4.
  change (2 ^ 258) with (4 * 2 ^ 256). ring.
Qed.

Lemma N_508 : N / 2 ^ 508 = X2 + 2 ^ 260 * le A3.
Proof.
  change (2 ^ 508) with (2 ^ 254 * 2 ^ 254). rewrite <- Z.div_div by done.
  rewrite N_254, digit_div by lia. unfold X1. change 4 with (2 ^ 2).
  rewrite carry_div by (try apply carry0; lia). unfold X2. change (2 ^ (258 - 254)) with 16.
  change (254 - 2) with 252. change (2 ^ 260) with (16 * 2 ^ 256). ring.
Qed.

Lemma N_762 : N / 2 ^ 762 = X3.
Proof.
  change (2 ^ 762) with (2 ^ 508 * 2 ^ 254). rewrite <- Z.div_div by done.
  rewrite N_508, digit_div by lia. unfold X2. change 16 with (2 ^ 4).
  rewrite carry_div by (try apply carry1; lia). unfold X3. change (2 ^ (260 - 254)) with 64.
  change (254 - 4) with 250. ring.
Qed.

Lemma X3_bound : 0 ≤ X3 < 2 ^ 254.
Proof.
  pose proof carry2. pose proof (le_bound A3 B3) as H3. rewrite L3 in H3.
  change (2 ^ (8 * Z.of_nat 31)) with (2 ^ 248) in H3. change (2 ^ 6) with 64 in *. unfold X3.
  change (2 ^ 254) with (64 * 2 ^ 248). lia.
Qed.

Lemma digits_words :
  N mod 2 ^ 254 = le A0 mod 2 ^ 254 ∧ (N / 2 ^ 254) mod 2 ^ 254 = X1 mod 2 ^ 254 ∧
  (N / 2 ^ 508) mod 2 ^ 254 = X2 mod 2 ^ 254 ∧ (N / 2 ^ 762) mod 2 ^ 254 = X3.
Proof.
  split_and!.
  - by rewrite chunk_number, digit_mod by lia.
  - by rewrite N_254, digit_mod by lia.
  - by rewrite N_508, digit_mod by lia.
  - rewrite N_762. apply Z.mod_small, X3_bound.
Qed.

(** A word after a padding loop with its top bits cleared. *)
Lemma padded_word sh t v A :
  sh ∈ [2; 4; 6] → length A = 32%nat → bytes A → 0 ≤ t < 2 ^ sh →
  let '(out, v') := padLoop sh t v A in
  length (onLast low6 out) = 32%nat ∧ bytes (onLast low6 out) ∧
  le (onLast low6 out) = (le A * 2 ^ sh + t) mod 2 ^ 254 ∧ v' = default v (last A).
Proof.
  intros Hsh HA HB Ht. pose proof (padLoop_spec sh t v A Hsh HB Ht) as H.
  destruct (padLoop sh t v A) as [out v']. destruct H as (Hlen&Hb&Hv&Hle). rewrite HA in Hlen.
  destruct (clear_word out Hlen Hb) as (H1&H2&H3). split_and!; [done..| |done]. rewrite H3, <- Hle, HA.
  change (2 ^ (8 * Z.of_nat 32)) with (2 ^ 256). by rewrite digit_mod by lia.
Qed.

Lemma chunk_parts :
  take 31 c ++ [low6 (at_ c 31)] = onLast low6 A0 ∧ shr (at_ c 31) 6 = le A0 / 2 ^ 254 ∧
  slice c 32 64 = A1 ∧ slice c 64 96 = A2 ∧ slice c 96 127 = A3.
Proof.
  destruct (snoc_of A0 31 L0) as (k&b&E&Hk). pose proof B0 as HB. rewrite E in HB.
  apply Forall_app in HB as [Hkb Hb]. rewrite Forall_singleton in Hb.
  assert (at_ c 31 = b) as ->.
  { unfold at_. rewrite E, lookup_app_l by (rewrite length_app, Hk; simpl; lia).
    by rewrite lookup_app_r, Hk by lia. }
  split_and!.
  - rewrite E, <- app_assoc. rewrite take_app_le by lia. rewrite take_ge by lia. by rewrite onLast_snoc.
  - rewrite E. pose proof (top_byte k b 6 Hkb Hb ltac:(lia)) as H. rewrite Hk in H. exact (eq_sym H).
  - unfold slice. rewrite drop_app_length' by done. rewrite take_app_length'; [done|simpl; lia].
  - unfold slice. rewrite app_assoc, drop_app_length' by (rewrite length_app; lia).
    rewrite take_app_length'; [done|simpl; lia].
  - unfold slice. rewrite !app_assoc, drop_app_length' by (rewrite !length_app; lia). apply take_ge. simpl. lia.
Qed.

Lemma top_of A e : length A = 32%nat → bytes A → 0 ≤ e → ∀ v, shr (default v (last A)) e = le A / 2 ^ (248 + e).
Proof.
  intros HA HB He v. destruct (snoc_of A 31 HA) as (k&b&->&Hk). apply Forall_app in HB as [Hkb Hb].
  rewrite Forall_singleton in Hb. rewrite last_snoc. simpl. rewrite <- (top_byte k b e) by done. by rewrite Hk.
Qed.

Lemma padChunk_words :
  ∃ w0 w1 w2 w3, padChunk c = w0 ++ w1 ++ w2 ++ w3 ∧
    Forall (λ w, length w = 32%nat ∧ bytes w) [w0; w1; w2; w3] ∧
    le w0 = le A0 mod 2 ^ 254 ∧ le w1 = X1 mod 2 ^ 254 ∧ le w2 = X2 mod 2 ^ 254 ∧ le w3 = X3.
Proof.
  destruct chunk_parts as (E0&Et&E1&E2&E3). unfold padChunk. rewrite E0, Et, E1, E2, E3.
  destruct (clear_word A0 L0 B0) as (H01&H02&H03).
  pose proof (padded_word 2 _ 0 A1 ltac:(set_solver) L1 B1 carry0) as H1.
  destruct (padLoop 2 _ 0 A1) as [out1 v1]. destruct H1 as (H11&H12&H13&->).
  rewrite (top_of A1 4 L1 B1 ltac:(lia)). change (248 + 4) with 252.
  pose proof (padded_word 4 _ (default 0 (last A1)) A2 ltac:(set_solver) L2 B2 carry1) as H2.
  destruct (padLoop 4 _ _ A2) as [out2 v2]. destruct H2 as (H21&H22&H23&->).
  rewrite (top_of A2 2 L2 B2 ltac:(lia)). change (248 + 2) with 250.
  pose proof (padLoop_spec 6 _ (default (default 0 (last A1)) (last A2)) A3 ltac:(set_solver) B3 carry2) as H3.
  destruct (padLoop 6 _ _ A3) as [out3 v3]. destruct H3 as (H31&H32&H33&H34). rewrite L3 in H31, H34.
  assert (0 ≤ shr v3 2 < 64) as Hv3.
  { subst v3. destruct (snoc_of A3 30 L3) as (k&b&E&_). pose proof B3 as HB. rewrite E in HB.
    apply Forall_app in HB as [_ Hb]. rewrite Forall_singleton in Hb. rewrite E, last_snoc. simpl.
    unfold shr, byteOk in *. rewrite Z.shiftr_div_pow2 by lia. change (2 ^ 2) with 4.
    split; [apply Z.div_pos; lia|apply Z.div_lt_upper_bound; lia]. }
  exists (onLast low6 A0), (onLast low6 out1), (onLast low6 out2), (out3 ++ [low6 (shr v3 2)]).
  rewrite low6_mod, Z.mod_small by lia. split; [done|]. split; [|split_and!; [done..|]].
  - repeat (apply Forall_cons; split; [done|]). apply Forall_singleton. rewrite length_app. simpl. split; [lia|].
    apply Forall_app. split; [done|]. apply Forall_singleton. unfold byteOk. lia.
  - rewrite le_app, H31. cbn [le]. change (2 ^ (8 * Z.of_nat 31)) with (2 ^ 248) in *. unfold X3.
    destruct A3; [done|]. change (8 - 6) with 2 in H34. change (2 ^ 6) with 64 in H34. lia.
Qed.
End chunk.

(** The words of a padded chunk. *)
Definition word (p : list Z) (j : nat) : list Z := slice p (32 * j) (32 * j + 32).

Lemma split_words (l : list Z) n : length l = (96 + n)%nat → ∃ A0 A1 A2 A3, l = A0 ++ A1 ++ A2 ++ A3 ∧
  length A0 = 32%nat ∧ length A1 = 32%nat ∧ length A2 = 32%nat ∧ length A3 = n.
Proof.
  intros H. exists (take 32 l), (take 32 (drop 32 l)), (take 32 (drop 64 l)), (drop 96 l).
  rewrite !length_take, !length_drop. split_and!; [|lia..].
  replace (drop 96 l) with (drop 32 (drop 64 l)) by (by rewrite drop_drop). rewrite take_drop.
  replace (drop 64 l) with (drop 32 (drop 32 l)) by (by rewrite drop_drop). by rewrite !take_drop.
Qed.

Lemma word_app w0 w1 w2 w3 :
  length w0 = 32%nat → length w1 = 32%nat → length w2 = 32%nat → length w3 = 32%nat →
  let p := w0 ++ w1 ++ w2 ++ w3 in word p 0 = w0 ∧ word p 1 = w1 ∧ word p 2 = w2 ∧ word p 3 = w3.
Proof.
  intros H0 H1 H2 H3 p. unfold word, slice, p. split_and!.
  - simpl. rewrite drop_0. by apply take_app_length'.
  - rewrite drop_app_length' by (simpl; lia). by apply take_app_length'.
  - rewrite app_assoc, drop_app_length' by (rewrite length_app; simpl; lia). by apply take_app_length'.
  - rewrite !app_assoc, drop_app_length' by (rewrite !length_app; simpl; lia). apply take_ge. simpl. lia.
Qed.

Lemma padChunk_digits c :
  length c = 127%nat → bytes c →
  length (padChunk c) = 128%nat ∧ bytes (padChunk c) ∧
  ∀ j, (j < 4)%nat → le (word (padChunk c) j) = (le c / 2 ^ (254 * Z.of_nat j)) mod 2 ^ 254.
Proof.
  intros HL HB. destruct (split_words c 31 HL) as (A0&A1&A2&A3&->&L0&L1&L2&L3).
  rewrite !Forall_app in HB. destruct HB as (B0&B1&B2&B3).
  destruct (padChunk_words A0 A1 A2 A3 L0 L1 L2 L3 B0 B1 B2 B3) as (w0&w1&w2&w3&->&HW&H0&H1&H2&H3).
  rewrite !Forall_cons in HW. destruct HW as ([l0 b0]&[l1 b1]&[l2 b2]&[l3 b3]&_).
  destruct (digits_words A0 A1 A2 A3 L0 L1 L2 L3 B0 B1 B2 B3) as (D0&D1&D2&D3).
  destruct (word_app w0 w1 w2 w3 l0 l1 l2 l3) as (W0&W1&W2&W3). split_and!.
  - rewrite !length_app. lia.
  - by rewrite !Forall_app.
  - intros j Hj. destruct j as [|[|[|[|j]]]]; [..|lia].
    + rewrite W0, H0, <- D0. change (2 ^ (254 * Z.of_nat 0)) with 1. by rewrite Z.div_1_r.
    + by rewrite W1, H1, <- D1.
    + by rewrite W2, H2, <- D2.
    + by rewrite W3, H3, <- D3.
Qed.

(** ** Unpadding *)

(** A word whose two top bits are clear. *)
Definition fieldWord (w : list Z) : Prop := length w = 32%nat ∧ bytes w ∧ le w < 2 ^ 254.

Lemma unpadLoop_snoc r a l x :
  unpadLoop r a (l ++ [x]) =
    let '(out, a') := unpadLoop r a l in (out ++ [Z.lor (shr a' r) (shl x (8 - r))], x).
Proof.
  revert a. induction l as [|b l IH]; intros a; [done|]. cbn [app unpadLoop]. rewrite IH.
  by destruct (unpadLoop r b l).
Qed.

(** The corrections of the bytes at the end of a word. *)
Lemma fix_bytes b x : 0 ≤ b < 64 → byteOk x →
  Z.lor b (shl x 6) = b + 64 * (x mod 4) ∧
  Z.lor (shr b 2) (shl x 6) = shr b 2 + 64 * (x mod 4) ∧
  Z.lxor (Z.lor (shr b 2) (shl x 6)) (Z.lxor (shl x 6) (shl x 4)) = shr b 2 + 16 * (x mod 16) ∧
  Z.lor (shr b 4) (shl x 4) = shr b 4 + 16 * (x mod 16) ∧
  Z.lxor (Z.lor (shr b 4) (shl x 4)) (Z.lxor (shl x 4) (shl x 2)) = shr b 4 + 4 * (x mod 64) ∧
  0 ≤ shr b 2 < 16 ∧ 0 ≤ shr b 4 < 4.
Proof.
  intros Hb Hx.
  set (P := λ b x, implb (b <? 64) (
    (Z.lor b (shl x 6) =? b + 64 * (x mod 4)) && (Z.lor (shr b 2) (shl x 6) =? shr b 2 + 64 * (x mod 4)) &&
    (Z.lxor (Z.lor (shr b 2) (shl x 6)) (Z.lxor (shl x 6) (shl x 4)) =? shr b 2 + 16 * (x mod 16)) &&
    (Z.lor (shr b 4) (shl x 4) =? shr b 4 + 16 * (x mod 16)) &&
    (Z.lxor (Z.lor (shr b 4) (shl x 4)) (Z.lxor (shl x 4) (shl x 2)) =? shr b 4 + 4 * (x mod 64)) &&
    (0 <=? shr b 2) && (shr b 2 <? 16) && (0 <=? shr b 4) && (shr b 4 <? 4))).
  assert (P b x = true) as H.
  { apply allBytes2_spec; [vm_cast_no_check (eq_refl true)|unfold byteOk; lia|done]. }
  unfold P in H. rewrite (proj2 (Z.ltb_lt b 64)) in H by lia. simpl in H. lia.
Qed.

(** A field word, taken apart at its ends. *)
Lemma fieldWord_ends w : fieldWord w → ∃ x k b, w = x :: k ++ [b] ∧ length k = 30%nat ∧
  byteOk x ∧ bytes k ∧ 0 ≤ b < 64.
Proof.
  intros (HL&HB&Hle). destruct w as [|x w]; [done|]. destruct (snoc_of w 30) as (k&b&->&Hk); [simpl in HL; lia|].
  apply Forall_cons in HB as [Hx HB]. apply Forall_app in HB as [HB Hb]. rewrite Forall_singleton in Hb.
  exists x, k, b. split_and!; [done..|by destruct Hb|].
  change (x :: k ++ [b]) with ((x :: k) ++ [b]) in Hle. rewrite le_app in Hle. cbn [length] in Hle. rewrite Hk in Hle.
  change (2 ^ (8 * Z.of_nat 31)) with (2 ^ 248) in Hle. cbn [le] in Hle.
  pose proof (le_bound (x :: k)) as H0. cbn [le] in H0. destruct H0 as [H0 _]; [by constructor|].
  change (2 ^ 254) with (2 ^ 248 * 64) in Hle. assert (0 < 2 ^ 248) by done. nia.
Qed.

(** A middle word: the loop divides its number by [2 ^ r], and the correction puts the low
    bits of the next word on top. *)
Lemma unpadded_word r (f : Z → Z → Z) w y :
  r ∈ [2; 4] → fieldWord w → byteOk y →
  (∀ b, 0 ≤ b < 64 → f y (Z.lor (shr b r) (shl y (8 - r))) = shr b r + 2 ^ (6 - r) * (y mod 2 ^ (r + 2)) ∧
     Z.lor (shr b r) (shl y (8 - r)) = shr b r + 2 ^ (8 - r) * (y mod 2 ^ r) ∧ 0 ≤ shr b r < 2 ^ (6 - r)) →
  let '(out, a') := unpadLoop r (at_ w 0) (drop 1 w ++ [y]) in
  let out' := onLast (f y) out in
  a' = y ∧ length out' = 32%nat ∧ bytes out' ∧
  2 ^ r * le out' = le w - at_ w 0 mod 2 ^ r + 2 ^ 254 * (y mod 2 ^ (r + 2)).
Proof.
  intros Hr Hw Hy Hf. destruct (fieldWord_ends w Hw) as (x&k&b&E&Hk&Hx&Hkb&Hb). destruct Hw as (HL&HB&_). subst w.
  change (at_ (x :: k ++ [b]) 0) with x. change (drop 1 (x :: k ++ [b])) with (k ++ [b]).
  assert (r ∈ [2; 4; 6]) as Hr' by set_solver.
  assert (bytes (k ++ [b])) as Hkb' by (apply Forall_cons in HB as [_ HB]; done).
  pose proof (unpadLoop_spec r x ((k ++ [b]) ++ [y]) Hr' Hx) as H.
  rewrite unpadLoop_snoc in *. pose proof (unpadLoop_spec r x (k ++ [b]) Hr' Hx Hkb') as H0.
  destruct (unpadLoop r x (k ++ [b])) as [out a']. destruct H0 as (HO1&HO2&HO3&_&_).
  rewrite last_snoc in HO3. simpl in HO3. subst a'.
  destruct H as (_&_&_&_&Hle); [by apply Forall_app; split; [|by apply Forall_singleton]|].
  cbv zeta. rewrite onLast_snoc. destruct (Hf b Hb) as (Hf1&Hf2&Hf3). rewrite Hf1. rewrite Hf2 in Hle.
  rewrite !length_app in HO1. simpl in HO1. split_and!; [done| | |].
  - rewrite length_app. simpl. lia.
  - apply Forall_app. split; [done|]. apply Forall_singleton. unfold byteOk.
    rewrite elem_of_cons, list_elem_of_singleton in Hr. pose proof (Z.mod_pos_bound y 16 eq_refl).
    pose proof (Z.mod_pos_bound y 64 eq_refl). destruct Hr as [-> | ->]; clear Hle Hf Hf1 Hf2; eval_pow; lia.
  - change (x :: (k ++ [b]) ++ [y]) with ((x :: k ++ [b]) ++ [y]) in Hle. clear Hf Hf1.
    rewrite !le_app in Hle. rewrite !le_app. rewrite HO1, !length_app in *. cbn [le length] in *.
    rewrite !length_app, Hk in *. cbn [length] in *. rewrite elem_of_cons, list_elem_of_singleton in Hr.
    destruct Hr as [-> | ->]; eval_pow; lia.
Qed.

Lemma fieldWord_head w : fieldWord w → w = at_ w 0 :: drop 1 w ∧ byteOk (at_ w 0) ∧ length (drop 1 w) = 31%nat.
Proof. intros Hw. destruct (fieldWord_ends w Hw) as (x&k&b&->&Hk&Hx&_). split_and!; [done..|]. simpl. rewrite drop_0, length_app, Hk. done. Qed.

Section unchunk.
Variables W0 W1 W2 W3 : list Z.
Hypothesis F0 : fieldWord W0.
Hypothesis F1 : fieldWord W1.
Hypothesis F2 : fieldWord W2.
Hypothesis F3 : fieldWord W3.

Abbreviation y := (W0 ++ W1 ++ W2 ++ W3).

Lemma unchunk_parts :
  at_ y 0 = at_ W0 0 ∧ slice y 1 33 = drop 1 W0 ++ [at_ W1 0] ∧ slice y 33 65 = drop 1 W1 ++ [at_ W2 0] ∧
  slice y 65 97 = drop 1 W2 ++ [at_ W3 0] ∧ slice y 97 128 = drop 1 W3.
Proof.
  destruct (fieldWord_head W0 F0) as (E0&_&L0), (fieldWord_head W1 F1) as (E1&_&L1),
    (fieldWord_head W2 F2) as (E2&_&L2), (fieldWord_head W3 F3) as (E3&_&L3).
  set (x0 := at_ W0 0) in *. set (x1 := at_ W1 0) in *. set (x2 := at_ W2 0) in *. set (x3 := at_ W3 0) in *.
  set (k0 := drop 1 W0) in *. set (k1 := drop 1 W1) in *. set (k2 := drop 1 W2) in *. set (k3 := drop 1 W3) in *.
  assert (y = [x0] ++ (k0 ++ [x1]) ++ (k1 ++ [x2]) ++ (k2 ++ [x3]) ++ k3) as Ey.
  { rewrite E0, E1, E2, E3. simpl. by rewrite <- !app_assoc. }
  clearbody x0 x1 x2 x3 k0 k1 k2 k3. rewrite Ey. clear Ey E0 E1 E2 E3.
  split_and!; [done|..]; unfold slice.
  - rewrite drop_app_length' by done. apply take_app_length'. rewrite length_app, L0. done.
  - rewrite app_assoc, drop_app_length' by (rewrite !length_app, L0; done). apply take_app_length'. rewrite length_app, L1. done.
  - rewrite 2!app_assoc, drop_app_length' by (rewrite !length_app, L0, L1; done). apply take_app_length'. rewrite length_app, L2. done.
  - rewrite 3!app_assoc, drop_app_length' by (rewrite !length_app, L0, L1, L2; done). apply take_ge. simpl. lia.
Qed.

Lemma unpadChunk_number :
  length (unpadChunk y) = 127%nat ∧ bytes (unpadChunk y) ∧
  le (unpadChunk y) = le W0 + 2 ^ 254 * (le W1 + 2 ^ 254 * (le W2 + 2 ^ 254 * le W3)).
Proof.
  destruct unchunk_parts as (P0&P1&P2&P3&P4). unfold unpadChunk. rewrite P0, P1, P2, P3, P4. clear P0 P1 P2 P3 P4.
  destruct (fieldWord_head W1 F1) as (_&X1b&_), (fieldWord_head W2 F2) as (_&X2b&_), (fieldWord_head W3 F3) as (E3&X3b&L3).
  (* the first word *)
  rewrite copyLoop_spec, last_snoc. cbn [default from_option id].
  destruct (fieldWord_ends W0 F0) as (x0&k0&b0&E0&Hk0&Hx0&Hkb0&Hb0).
  assert (take (length (drop 1 W0 ++ [at_ W1 0])) (at_ W0 0 :: drop 1 W0 ++ [at_ W1 0]) = W0) as ->.
  { rewrite E0. change (at_ (x0 :: k0 ++ [b0]) 0) with x0. change (drop 1 (x0 :: k0 ++ [b0])) with (k0 ++ [b0]).
    change (x0 :: (k0 ++ [b0]) ++ [at_ W1 0]) with ((x0 :: k0 ++ [b0]) ++ [at_ W1 0]).
    apply take_app_length'. rewrite !length_app. simpl. rewrite length_app. simpl. lia. }
  set (out0 := onLast _ W0).
  assert (length out0 = 32%nat ∧ bytes out0 ∧ le out0 = le W0 + 2 ^ 254 * (at_ W1 0 mod 4)) as (O01&O02&O03).
  { unfold out0. rewrite E0. change (x0 :: k0 ++ [b0]) with ((x0 :: k0) ++ [b0]). rewrite onLast_snoc.
    destruct (fix_bytes b0 (at_ W1 0) Hb0 X1b) as (->&_). pose proof (Z.mod_pos_bound (at_ W1 0) 4 eq_refl).
    rewrite length_app. split_and!; [simpl; lia| |].
    - apply Forall_app. split; [by constructor|]. apply Forall_singleton. unfold byteOk. lia.
    - rewrite !le_app. cbn [length le]. rewrite Hk0. eval_pow. lia. }
  clearbody out0.
  (* the middle words *)
  pose proof (unpadded_word 2 (λ a o, Z.lxor o (Z.lxor (shl a 6) (shl a 4))) W1 (at_ W2 0) ltac:(set_solver) F1 X2b) as H1.
  destruct (unpadLoop 2 (at_ W1 0) (drop 1 W1 ++ [at_ W2 0])) as [out1 a1].
  destruct H1 as (->&O11&O12&O13).
  { intros b Hb. destruct (fix_bytes b (at_ W2 0) Hb X2b) as (_&H1&H2&_&_&H3&_).
    split; [exact H2|]. split; [exact H1|exact H3]. }
  pose proof (unpadded_word 4 (λ a o, Z.lxor o (Z.lxor (shl a 4) (shl a 2))) W2 (at_ W3 0) ltac:(set_solver) F2 X3b) as H2.
  destruct (unpadLoop 4 (at_ W2 0) (drop 1 W2 ++ [at_ W3 0])) as [out2 a2].
  destruct H2 as (->&O21&O22&O23).
  { intros b Hb. destruct (fix_bytes b (at_ W3 0) Hb X3b) as (_&_&_&H1&H2&_&H3).
    split; [exact H2|]. split; [exact H1|exact H3]. }
  (* the last word *)
  pose proof (unpadLoop_spec 6 (at_ W3 0) (drop 1 W3) ltac:(set_solver) X3b) as H3.
  destruct (unpadLoop 6 (at_ W3 0) (drop 1 W3)) as [out3 a3].
  destruct (fieldWord_ends W3 F3) as (x3&k3&b3&E3'&Hk3&Hx3&Hkb3&Hb3).
  destruct H3 as (O31&O32&O33&_&O34).
  { destruct F3 as (_&HB&_). rewrite E3 in HB. by apply Forall_cons in HB as [_ HB]. }
  rewrite <- E3 in O34. rewrite L3 in *. rewrite E3' in O33. change (drop 1 (x3 :: k3 ++ [b3])) with (k3 ++ [b3]) in O33.
  rewrite last_snoc in O33. simpl in O33. subst a3. split_and!.
  - rewrite !length_app. lia.
  - by rewrite !Forall_app.
  - rewrite !le_app, O01, O11, O21. rewrite (Z.mod_small b3) in O34 by (eval_pow; lia).
    change (2 + 2) with 4 in *. change (4 + 2) with 6 in *. eval_pow. lia.
Qed.
End unchunk.

(** ** Chunks, there and back *)

Definition paddedChunk (p : list Z) : Prop :=
  length p = 128%nat ∧ bytes p ∧ ∀ j, (j < 4)%nat → le (word p j) < 2 ^ 254.

Lemma paddedChunk_words p : paddedChunk p → ∃ w0 w1 w2 w3, p = w0 ++ w1 ++ w2 ++ w3 ∧
  Forall fieldWord [w0; w1; w2; w3].
Proof.
  intros (HL&HB&HW). destruct (split_words p 32 HL) as (w0&w1&w2&w3&->&L0&L1&L2&L3).
  rewrite !Forall_app in HB. destruct HB as (B0&B1&B2&B3).
  destruct (word_app w0 w1 w2 w3 L0 L1 L2 L3) as (W0&W1&W2&W3).
  pose proof (HW 0%nat ltac:(lia)) as H0. pose proof (HW 1%nat ltac:(lia)) as H1.
  pose proof (HW 2%nat ltac:(lia)) as H2. pose proof (HW 3%nat ltac:(lia)) as H3.
  rewrite W0 in H0. rewrite W1 in H1. rewrite W2 in H2. rewrite W3 in H3.
  exists w0, w1, w2, w3. split; [done|]. by repeat constructor.
Qed.

Lemma padChunk_padded c : length c = 127%nat → bytes c → paddedChunk (padChunk c).
Proof.
  intros HL HB. destruct (padChunk_digits c HL HB) as (H1&H2&H3). split_and!; [done..|].
  intros j Hj. rewrite H3 by done. by apply Z.mod_pos_bound.
Qed.

(** The value of a chunk from its padded words. *)
Lemma unpadChunk_value p : paddedChunk p →
  length (unpadChunk p) = 127%nat ∧ bytes (unpadChunk p) ∧
  le (unpadChunk p) = le (word p 0) + 2 ^ 254 * (le (word p 1) + 2 ^ 254 * (le (word p 2) + 2 ^ 254 * le (word p 3))).
Proof.
  intros Hp. destruct (paddedChunk_words p Hp) as (w0&w1&w2&w3&->&HF). rewrite !Forall_cons in HF.
  destruct HF as (F0&F1&F2&F3&_). pose proof F0 as (L0&_). pose proof F1 as (L1&_).
  pose proof F2 as (L2&_). pose proof F3 as (L3&_).
  destruct (word_app w0 w1 w2 w3 L0 L1 L2 L3) as (->&->&->&->). by apply unpadChunk_number.
Qed.

Lemma digits4 n : 0 ≤ n < 2 ^ 1016 →
  n mod 2 ^ 254 + 2 ^ 254 * ((n / 2 ^ 254) mod 2 ^ 254 + 2 ^ 254 * ((n / 2 ^ 508) mod 2 ^ 254 +
    2 ^ 254 * ((n / 2 ^ 762) mod 2 ^ 254))) = n.
Proof.
  intros Hn. assert (n / 2 ^ 508 = n / 2 ^ 254 / 2 ^ 254) as -> by (by rewrite Z.div_div).
  assert (n / 2 ^ 762 = n / 2 ^ 254 / 2 ^ 254 / 2 ^ 254) as -> by (by rewrite !Z.div_div).
  assert (0 ≤ n / 2 ^ 254 / 2 ^ 254 / 2 ^ 254 < 2 ^ 254) as H3.
  { rewrite !Z.div_div by done. split; [apply Z.div_pos; [lia|done]|].
    apply Z.div_lt_upper_bound; [done|]. exact (proj2 Hn). }
  rewrite (Z.mod_small (_ / 2 ^ 254 / 2 ^ 254 / 2 ^ 254)) by done.
  pose proof (Z.div_mod n (2 ^ 254) ltac:(done)) as D1.
  pose proof (Z.div_mod (n / 2 ^ 254) (2 ^ 254) ltac:(done)) as D2.
  pose proof (Z.div_mod (n / 2 ^ 254 / 2 ^ 254) (2 ^ 254) ltac:(done)) as D3. lia.
Qed.

Lemma unpad_padChunk c : length c = 127%nat → bytes c → unpadChunk (padChunk c) = c.
Proof.
  intros HL HB. destruct (unpadChunk_value _ (padChunk_padded c HL HB)) as (H1&H2&H3).
  destruct (padChunk_digits c HL HB) as (_&_&HD). apply le_inj; [lia|done..|].
  rewrite H3, !HD by lia. pose proof (le_bound c HB) as Hb. rewrite HL in Hb.
  change (2 ^ (254 * Z.of_nat 0)) with 1. rewrite Z.div_1_r. by apply digits4.
Qed.

Lemma digit_inj a b a' b' : 0 ≤ a < 2 ^ 254 → 0 ≤ a' < 2 ^ 254 →
  a + 2 ^ 254 * b = a' + 2 ^ 254 * b' → a = a' ∧ b = b'.
Proof. eval_pow. lia. Qed.

Lemma fieldWord_bound w : fieldWord w → 0 ≤ le w < 2 ^ 254.
Proof. intros (_&HB&Hlt). split; [by apply le_bound|done]. Qed.

Lemma fieldWord_inj w v : fieldWord w → fieldWord v → le w = le v → w = v.
Proof. intros (L&B&_) (L'&B'&_). apply le_inj; congruence || done. Qed.

Lemma unpadChunk_inj p q : paddedChunk p → paddedChunk q → unpadChunk p = unpadChunk q → p = q.
Proof.
  intros Hp Hq E%(f_equal le). destruct (paddedChunk_words p Hp) as (w0&w1&w2&w3&->&HF).
  destruct (paddedChunk_words q Hq) as (v0&v1&v2&v3&->&HG). rewrite !Forall_cons in HF, HG.
  destruct HF as (F0&F1&F2&F3&_), HG as (G0&G1&G2&G3&_).
  destruct (unpadChunk_number w0 w1 w2 w3 F0 F1 F2 F3) as (_&_&Ew).
  destruct (unpadChunk_number v0 v1 v2 v3 G0 G1 G2 G3) as (_&_&Ev). rewrite Ew, Ev in E.
  apply digit_inj in E as [E0 E]; [|by apply fieldWord_bound..].
  apply digit_inj in E as [E1 E]; [|by apply fieldWord_bound..].
  apply digit_inj in E as [E2 E3]; [|by apply fieldWord_bound..].
  by rewrite (fieldWord_inj w0 v0), (fieldWord_inj w1 v1), (fieldWord_inj w2 v2), (fieldWord_inj w3 v3).
Qed.

Lemma pad_unpadChunk p : paddedChunk p → padChunk (unpadChunk p) = p.
Proof.
  intros Hp. destruct (unpadChunk_value p Hp) as (H1&H2&_).
  apply unpadChunk_inj; [by apply padChunk_padded|done|]. by apply unpad_padChunk.
Qed.

(** ** Whole buffers *)

Lemma chunks_ret (f : list Z → list Z) m k inp : length inp = (m * k)%nat →
  ∃ out, chunks f m k inp = Ret out.
Proof.
  revert inp. induction k as [|k IH]; intros inp HL; simpl; [eauto|]. rewrite decide_False by lia.
  destruct (IH (drop m inp)) as [out ->]; [rewrite length_drop; lia|]. simpl. eauto.
Qed.

Lemma pad_cons c inp k :
  length c = 127%nat → chunks padChunk 127 (S k) (c ++ inp) = (rest ← chunks padChunk 127 k inp; Ret (padChunk c ++ rest)).
Proof.
  intros HL. cbn [chunks]. rewrite decide_False by (rewrite length_app; lia).
  by rewrite drop_app_length', take_app_length'.
Qed.

Lemma unpad_cons p inp k :
  length p = 128%nat → chunks unpadChunk 128 (S k) (p ++ inp) = (rest ← chunks unpadChunk 128 k inp; Ret (unpadChunk p ++ rest)).
Proof.
  intros HL. cbn [chunks]. rewrite decide_False by (rewrite length_app; lia).
  by rewrite drop_app_length', take_app_length'.
Qed.

(** The words of a padded buffer are the digits of the number of its bytes. *)
Lemma pad_chunks k inp : length inp = (127 * k)%nat → bytes inp →
  ∃ p, chunks padChunk 127 k inp = Ret p ∧ length p = (128 * k)%nat ∧ bytes p ∧
    (∀ m, (m < 4 * k)%nat → le (word p m) = (le inp / 2 ^ (254 * Z.of_nat m)) mod 2 ^ 254) ∧
    chunks unpadChunk 128 k p = Ret inp.
Proof.
  revert inp. induction k as [|k IH]; intros inp HL HB.
  { exists []. destruct inp; [|simpl in HL; lia]. split_and!; done || lia. }
  rewrite <- (take_drop 127 inp) in HB |- *. set (c := take 127 inp) in *. set (r := drop 127 inp) in *.
  assert (length c = 127%nat) as Lc by (unfold c; rewrite length_take; lia).
  assert (length r = (127 * k)%nat) as Lr by (unfold r; rewrite length_drop; lia). clearbody c r. clear HL inp.
  apply Forall_app in HB as [Bc Br]. destruct (IH r Lr Br) as (p&E&Lp&Bp&HD&HU).
  destruct (padChunk_digits c Lc Bc) as (L1&B1&D1). exists (padChunk c ++ p).
  rewrite pad_cons, E, bind_ret_l by done. rewrite length_app. split_and!; [done|lia|by apply Forall_app| |].
  - intros m Hm. rewrite le_app, Lc. change (2 ^ (8 * Z.of_nat 127)) with (2 ^ 1016).
    destruct (decide (m < 4)%nat) as [H4|H4].
    + assert (word (padChunk c ++ p) m = word (padChunk c) m) as ->.
      { unfold word, slice. rewrite drop_app_le, take_app_le by (rewrite ?length_drop; lia). done. }
      rewrite D1, digit_div, digit_mod by lia. done.
    + assert (word (padChunk c ++ p) m = word p (m - 4)) as ->.
      { unfold word, slice. rewrite drop_app_ge by lia. rewrite L1.
        replace (32 * m - 128)%nat with (32 * (m - 4))%nat by lia. f_equal. lia. }
      rewrite HD by lia. f_equal. replace (254 * Z.of_nat m) with (1016 + 254 * Z.of_nat (m - 4)) by lia.
      rewrite Z.pow_add_r, <- Z.div_div by (try apply Z.pow_nonzero; try apply Z.pow_pos_nonneg; lia).
      f_equal. pose proof (le_bound c Bc) as Hb. rewrite Lc in Hb.
      rewrite (digit_div (le c)), Z.div_small by (done || lia). change (2 ^ (1016 - 1016)) with 1. lia.
  - rewrite unpad_cons, HU by done. simpl. by rewrite unpad_padChunk.
Qed.

Lemma word_low p r m : length p = 128%nat → (m < 4)%nat → word (p ++ r) m = word p m.
Proof. intros HL Hm. unfold word, slice. by rewrite drop_app_le, take_app_le by (rewrite ?length_drop; lia). Qed.

Lemma word_high p r m : length p = 128%nat → word (p ++ r) (4 + m) = word r m.
Proof.
  intros HL. unfold word, slice. rewrite drop_app_ge by lia. rewrite HL.
  replace (32 * (4 + m) - 128)%nat with (32 * m)%nat by lia. f_equal. lia.
Qed.

(** A padded buffer of [k] chunks: the words are below [2 ^ 254]. *)
Definition paddedBuffer (k : nat) (p : list Z) : Prop :=
  length p = (128 * k)%nat ∧ bytes p ∧ ∀ m, (m < 4 * k)%nat → le (word p m) < 2 ^ 254.

Lemma unpad_chunks k p : paddedBuffer k p →
  ∃ u, chunks unpadChunk 128 k p = Ret u ∧ length u = (127 * k)%nat ∧ bytes u ∧ chunks padChunk 127 k u = Ret p.
Proof.
  revert p. induction k as [|k IH]; intros p (HL&HB&HW).
  { exists []. destruct p; [|simpl in HL; lia]. split_and!; done || lia. }
  rewrite <- (take_drop 128 p) in HB, HW |- *. set (c := take 128 p) in *. set (r := drop 128 p) in *.
  assert (length c = 128%nat) as Lc by (unfold c; rewrite length_take; lia).
  assert (length r = (128 * k)%nat) as Lr by (unfold r; rewrite length_drop; lia). clearbody c r. clear HL p.
  apply Forall_app in HB as [Bc Br].
  assert (paddedChunk c) as Hc.
  { split_and!; [done..|]. intros j Hj. rewrite <- (word_low c r) by done. apply HW. lia. }
  destruct (IH r) as (u&E&Lu&Bu&HU).
  { split_and!; [done..|]. intros m Hm. rewrite <- (word_high c r) by done. apply HW. lia. }
  destruct (unpadChunk_value c Hc) as (L1&B1&_). exists (unpadChunk c ++ u).
  rewrite unpad_cons, E, bind_ret_l by done. rewrite length_app. split_and!; [done|lia|by apply Forall_app|].
  rewrite pad_cons, HU, bind_ret_l by done. by rewrite pad_unpadChunk.
Qed.

Lemma div128 k : (128 * k / 128 = k)%nat.
Proof. by rewrite Nat.mul_comm, Nat.div_mul. Qed.

(** C4. Padding is a change of base: for [k] chunks, [pad] fills the output with words
    of 32 bytes of which the [m]-th is the [m]-th digit to the base [2 ^ 254] of the
    number that the input is in little-endian order, so that every word is a field
    element and no bit is lost or moved. *)
Theorem pad_is_base_change inp out k :
  length inp = (127 * k)%nat → bytes inp → length out = (128 * k)%nat →
  ∃ p, pad inp out = Ret p ∧ length p = (128 * k)%nat ∧ bytes p ∧
    ∀ m, (m < 4 * k)%nat → le (word p m) = (le inp / 2 ^ (254 * Z.of_nat m)) mod 2 ^ 254.
Proof.
  intros Hi HB Ho. destruct (pad_chunks k inp Hi HB) as (p&E&L&B&D&_). exists p.
  unfold pad. rewrite Ho, div128, E, bind_ret_l, drop_ge, app_nil_r by lia. done.
Qed.

(** C5. Padding and unpadding are inverse to each other: [unpad] gives back what was
    padded, and padding what was unpadded from words below [2 ^ 254] gives these
    words, whatever the buffers held before. *)
Theorem pad_unpad_inverse k :
  (∀ inp out out', length inp = (127 * k)%nat → bytes inp → length out = (128 * k)%nat → length out' = (127 * k)%nat →
     ∃ p, pad inp out = Ret p ∧ unpad out' p = Ret inp) ∧
  (∀ p out out', paddedBuffer k p → length out = (127 * k)%nat → length out' = (128 * k)%nat →
     ∃ u, unpad out p = Ret u ∧ pad u out' = Ret p).
Proof.
  split.
  - intros inp out out' Hi HB Ho Ho'. destruct (pad_chunks k inp Hi HB) as (p&E&L&_&_&U). exists p.
    unfold pad, unpad. rewrite Ho, L, div128, E, bind_ret_l, (drop_ge out), app_nil_r by lia. split; [done|].
    rewrite decide_False, U, bind_ret_l, drop_ge, app_nil_r by lia. done.
  - intros p out out' Hp Ho Ho'. destruct (unpad_chunks k p Hp) as (u&E&L&_&U). destruct Hp as (Lp&_). exists u.
    unfold pad, unpad. rewrite Ho', Lp, div128, E, decide_False, bind_ret_l, drop_ge, app_nil_r by lia. split; [done|].
    rewrite U, bind_ret_l, drop_ge, app_nil_r by lia. done.
Qed.

Definition exChunk : list Z := map Z.of_nat (seq 100 127).

Lemma pad_is_base_change_witness :
  ∃ p, pad exChunk (replicate 128 0) = Ret p ∧ le (word p 3) = (le exChunk / 2 ^ 762) mod 2 ^ 254.
Proof.
  destruct (pad_is_base_change exChunk (replicate 128 0) 1) as (p&E&_&_&H).
  - reflexivity.
  - apply (bool_decide_unpack _). by vm_compute.
  - reflexivity.
  - exists p. split; [exact E|]. apply (H 3%nat). lia.
Defined.

Lemma pad_unpad_inverse_witness :
  ∃ p, pad exChunk (replicate 128 0) = Ret p ∧ unpad (replicate 127 0) p = Ret exChunk.
Proof.
  apply (proj1 (pad_unpad_inverse 1)); [reflexivity| |reflexivity..].
  apply (bool_decide_unpack _). by vm_compute.
Defined.
