(* ===== verification/Fr32Stream.v ===== *)
(** * Fr32 on many threads and on streams (storage/sealer/fr32)

    [Pad] and [Unpad] split large buffers over goroutines; [padWriter] pads what
    is written to it in whatever portions it comes, and [unpadReader] unpads what
    it reads.  Piece sizes are those of go-state-types. *)

From stdpp Require Import strings numbers base sets list.
From S2P Require Import Prelude GoStrings Fr32 Fr32Spec.
Local Open Scope Z_scope.

(** ** Piece sizes *)

(** [abi.PaddedPieceSize] and [abi.UnpaddedPieceSize] of go-state-types: of 128 bytes
    of a sector 127 carry data, and a valid padded size is a power of two of at least
    128 bytes. *)
Class PieceSizes := {
  Unpadded : Z → Z;
  Padded : Z → Z;
  Validate : Z → bool;
  Unpadded_law : ∀ s, 0 ≤ s → Unpadded s = s - s / 128;
  Padded_law : ∀ s, 0 ≤ s → Padded s = s + s / 127;
  Validate_law : ∀ s, Validate s = true ↔ ∃ k, 7 ≤ k ∧ s = 2 ^ k
}.

(** ** Bits of machine words *)

(** [bits.Len32], [bits.OnesCount64], [bits.TrailingZeros64], [63 - bits.LeadingZeros64]. *)
Definition bitLen (w : Z) : Z := if decide (w ≤ 0) then 0 else Z.log2 w + 1.

Fixpoint onesPos (p : positive) : nat :=
  match p with xH => 1 | xO p' => onesPos p' | xI p' => S (onesPos p') end.
Definition onesCount (w : Z) : nat := match w with Zpos p => onesPos p | _ => 0 end.

Fixpoint zerosPos (p : positive) : Z :=
  match p with xO p' => 1 + zerosPos p' | _ => 0 end.
Definition trailingZeros (w : Z) : Z := match w with Zpos p => zerosPos p | _ => 64 end.

(** [1 << n] for an [int] shift: a negative count panics. *)
Definition shiftOne (n : Z) : outcome Z := if decide (n < 0) then Crash else Ret (2 ^ n).

Definition topBit (w : Z) : Z := if decide (w = 0) then -1 else Z.log2 w.

Section fr32.
Context `{PieceSizes}.
(** [runtime.NumCPU()] *)
Variable NumCPU : Z.

(** ** Threads *)

Definition MTTresh : Z := 524288.

Definition mtChunkCount (usz : Z) : Z :=
  let threads0 := usz / MTTresh in
  let threads := if decide (NumCPU < threads0) then 2 ^ bitLen NumCPU else threads0 in
  if decide (threads = 0) then 1 else if decide (32 < threads) then 32 else threads.

(** [b[i:j]], which panics when it is not in range. *)
Definition sliceAt (b : list Z) (i j : Z) : outcome (list Z) :=
  if decide (0 ≤ i ∧ i ≤ j ∧ j ≤ Z.of_nat (length b))
  then Ret (slice b (Z.to_nat i) (Z.to_nat j)) else Crash.

(** The buffer [b] after a goroutine has changed its part from [i] on to [part]. *)
Definition splice (b : list Z) (i : Z) (part : list Z) : list Z :=
  take (Z.to_nat i) b ++ part ++ drop (Z.to_nat i + length part) b.

(** The goroutine [thread] of [mt] for [Pad]. *)
Definition padThread (inp : list Z) (threadBytes thread : Z) (out : list Z) : outcome (list Z) :=
  let start := threadBytes * thread in
  let end_ := start + threadBytes in
  i ← sliceAt inp (Unpadded start) (Unpadded end_);
  o ← sliceAt out start end_;
  p ← pad i o;
  Ret (splice out start p).

(** The goroutine [thread] of [mt] for [Unpad], whose first buffer is the output. *)
Definition unpadThread (inp : list Z) (threadBytes thread : Z) (out : list Z) : outcome (list Z) :=
  let start := threadBytes * thread in
  let end_ := start + threadBytes in
  o ← sliceAt out (Unpadded start) (Unpadded end_);
  i ← sliceAt inp start end_;
  u ← unpad o i;
  Ret (splice out (Unpadded start) u).

(** The goroutines one after the other in some order; they write to disjoint parts. *)
Fixpoint runThreads (body : Z → list Z → outcome (list Z)) (order : list Z) (out : list Z) : outcome (list Z) :=
  match order with
  | [] => Ret out
  | thread :: rest => o ← body thread out; runThreads body rest o
  end.

(** [Pad] and [Unpad]; [order] is the order in which the goroutines are run. *)
Definition Pad (order : list Z) (inp out : list Z) : outcome (list Z) :=
  if decide (MTTresh < Z.of_nat (length out)) then
    let padLen := Z.of_nat (length out) in
    runThreads (padThread inp (padLen / mtChunkCount padLen)) order out
  else pad inp out.

Definition Unpad (order : list Z) (inp out : list Z) : outcome (list Z) :=
  if decide (MTTresh < Z.of_nat (length inp)) then
    let padLen := Z.of_nat (length inp) in
    runThreads (unpadThread inp (padLen / mtChunkCount padLen)) order out
  else unpad out inp.

(** ** Pieces *)

(** The loop over the set bits of [w]. *)
Fixpoint pieceLoop (count : nat) (w : Z) : list Z :=
  match count with
  | O => []
  | S k =>
      let psize := 2 ^ trailingZeros w in
      Unpadded psize :: pieceLoop k (Z.lxor w psize)
  end.

Definition subPieces (inp : Z) : list Z :=
  let w := Padded inp in pieceLoop (onesCount w) w.

(** ** The writer *)

(** The order in which [n] goroutines happen to run. *)
Variable sched : Z → list Z.

Definition PadNow (inp out : list Z) : outcome (list Z) :=
  Pad (sched (mtChunkCount (Z.of_nat (length out)))) inp out.

Definition UnpadNow (inp out : list Z) : outcome (list Z) :=
  Unpad (sched (mtChunkCount (Z.of_nat (length inp)))) inp out.

Section writer.
(** The destination: the number of bytes written and an error. *)
Variable D : Type.
Variable dstWrite : D → list Z → D * (Z * option string).

(** [padWriter] without its scratch buffer [work], which is overwritten before it is used. *)
Record padWriter := mkPadWriter { stash : list Z; dst : D }.

(** The loop of [Write] over the biggest pieces of [inp], for a call with [plen] bytes;
    running out of fuel is [Crash], which [writeLoop_spec] excludes. *)
Fixpoint writeLoop (fuel : nat) (plen : Z) (stash0 inp : list Z) (d : D) :
    outcome (padWriter * (Z * option string)) :=
  match fuel with
  | O => Crash
  | S f =>
      biggest ← (match last (subPieces (Z.of_nat (length inp))) with Some b => Ret b | None => Crash end);
      part ← sliceAt inp 0 biggest;
      work ← PadNow part (replicate (Z.to_nat (Padded biggest)) 0);
      let '(d', (n, err)) := dstWrite d work in
      match err with
      | Some e => Ret (mkPadWriter stash0 d', (Unpadded n, Some e))
      | None =>
          let inp' := drop (Z.to_nat biggest) inp in
          if decide (length inp' < 127)%nat then Ret (mkPadWriter inp' d', (plen, None))
          else writeLoop f plen stash0 inp' d'
      end
  end.

Definition Write (w : padWriter) (p : list Z) : outcome (padWriter * (Z * option string)) :=
  let plen := Z.of_nat (length p) in
  if decide (length p + length (stash w) < 127)%nat
  then Ret (mkPadWriter (stash w ++ p) (dst w), (plen, None))
  else
    let inp := stash w ++ p in
    writeLoop (S (length inp)) plen (stash w) inp (dst w).

(** [Close] reports bytes that do not fill a chunk. *)
Definition Close (w : padWriter) : option string :=
  if decide (0 < length (stash w))%nat
  then Some ("still have " +:+ Itoa (Z.of_nat (length (stash w))) +:+ " unprocessed bytes") else None.
End writer.

(** ** The reader *)

(** [unpadReader]: the bytes left, what the source still has, and the size of the work buffer. *)
Record unpadReader := mkUnpadReader { left : Z; src : list Z; workSize : Z }.

Definition BufSize (sz : Z) : Z := MTTresh * mtChunkCount sz.

Definition NewUnpadReaderBuf (source : list Z) (sz bufSize : Z) : outcome unpadReader :=
  if negb (Validate sz) then Fail "bad piece size" else Ret (mkUnpadReader sz source bufSize).

Definition NewUnpadReader (source : list Z) (sz : Z) : outcome unpadReader :=
  NewUnpadReaderBuf source sz (BufSize sz).

(** [Read] into a buffer of [outLen] bytes: the bytes written to it, the count and the
    error that are returned.  [io.ReadAtLeast] gives [io.EOF] when there is nothing and
    [io.ErrUnexpectedEOF] when there is too little. *)
Definition Read (r : unpadReader) (outLen : Z) : outcome (unpadReader * (list Z * Z * option string)) :=
  if decide (left r = 0) then Ret (r, ([], 0, Some "EOF"))
  else
    outTwoPow ← shiftOne (topBit (outLen / 127 * 128));
    if negb (Validate outTwoPow)
    then Ret (r, ([], 0, Some "output must be of valid padded piece size"))
    else
      todo ← (if decide (left r < outTwoPow) then shiftOne (topBit (left r)) else Ret outTwoPow);
      if decide (workSize r < todo) then Crash
      else
        let n := Z.min (Z.of_nat (length (src r))) todo in
        let r' := mkUnpadReader (left r - todo) (drop (Z.to_nat n) (src r)) (workSize r) in
        if decide (0 < n ∧ n < todo) then Ret (r', ([], n, Some "unexpected EOF"))
        else if decide (n < todo) then Ret (r', ([], 0, Some "didn't read enough"))
        else
          u ← UnpadNow (take (Z.to_nat todo) (src r)) (replicate (Z.to_nat (Unpadded todo)) 0);
          Ret (r', (u, Unpadded todo, None)).
End fr32.
