(* ===== verification/Fr32Threads.v ===== *)
(** * The goroutines of the padding

    On buffers whose size is a power of two, splitting the work over goroutines
    gives what the sequential loop gives, in whatever order they run. *)

From stdpp Require Import strings numbers base sets list.
From S2P Require Import Prelude GoStrings Fr32 Fr32Spec Fr32Stream.
Local Open Scope Z_scope.

(** ** Buffers made of parts of one size *)

Abbreviation sized n := (Forall (λ s : list Z, length s = n)).

Lemma length_concat_sized n (segs : list (list Z)) : sized n segs → length (concat segs) = (n * length segs)%nat.
Proof. induction 1 as [|s segs Hs Hl IH]; [simpl; lia|]. simpl. rewrite length_app, Hs, IH. lia. Qed.

Lemma drop_concat n segs i : sized n segs → (i ≤ length segs)%nat →
  drop (n * i) (concat segs) = concat (drop i segs) ∧ take (n * i) (concat segs) = concat (take i segs).
Proof.
  intros Hs Hi. assert (concat segs = concat (take i segs) ++ concat (drop i segs)) as ->
    by (by rewrite <- concat_app, take_drop).
  assert (length (concat (take i segs)) = (n * i)%nat) as HL.
  { rewrite (length_concat_sized n) by (by apply Forall_take). rewrite length_take. f_equal. lia. }
  by rewrite drop_app_length', take_app_length'.
Qed.

Lemma slice_concat n segs i s : sized n segs → segs !! i = Some s →
  slice (concat segs) (n * i) (n * i + n) = s.
Proof.
  intros Hs Hi. pose proof (lookup_lt_Some _ _ _ Hi) as Hlt. unfold slice.
  rewrite (proj1 (drop_concat n segs i Hs ltac:(lia))). rewrite (drop_S _ _ _ Hi). simpl.
  assert (length s = n) as Hn by (by eapply Forall_lookup_1 in Hs).
  apply take_app_length'. lia.
Qed.

Lemma splice_concat n segs i part : sized n segs → (i < length segs)%nat → length part = n →
  splice (concat segs) (Z.of_nat (n * i)) part = concat (<[i := part]> segs).
Proof.
  intros Hs Hi Hp. unfold splice. rewrite Nat2Z.id, Hp.
  replace (n * i + n)%nat with (n * S i)%nat by lia.
  rewrite (proj2 (drop_concat n segs i Hs ltac:(lia))), (proj1 (drop_concat n segs (S i) Hs ltac:(lia))).
  rewrite insert_take_drop by done. by rewrite concat_app.
Qed.

Lemma sized_insert n segs i part : sized n segs → length part = n → sized n (<[i := part]> segs).
Proof. intros. by apply Forall_insert. Qed.

(** Goroutines that each write their own part leave all the parts written. *)
Lemma runThreads_all body n (P segs : list (list Z)) order :
  (∀ i segs', sized n segs' → length segs' = length P → (i < length P)%nat →
     body (Z.of_nat i) (concat segs') = Ret (concat (<[i := default [] (P !! i)]> segs'))) →
  sized n P → sized n segs → length segs = length P → order ≡ₚ map Z.of_nat (seq 0 (length P)) →
  runThreads body order (concat segs) = Ret (concat P).
Proof.
  intros Hbody HP Hs HL Ho.
  assert (∀ order segs, Forall (λ t, ∃ i, t = Z.of_nat i ∧ (i < length P)%nat) order → sized n segs →
    length segs = length P → (∀ i, (i < length P)%nat → Z.of_nat i ∈ order ∨ segs !! i = P !! i) →
    runThreads body order (concat segs) = Ret (concat P)) as Hrun.
  { clear order segs Hs HL Ho. induction order as [|t order IH]; intros segs Hin Hs HL Hdone; cbn [runThreads].
    - f_equal. f_equal. apply list_eq_same_length with (length P); [done..|]. intros i x y Hi Hx Hy.
      destruct (Hdone i Hi) as [?%not_elem_of_nil|E]; [done|]. congruence.
    - apply Forall_cons in Hin as [(i&->&Hi) Hin]. rewrite Hbody by done. rewrite bind_ret_l.
      destruct (lookup_lt_is_Some_2 P i Hi) as [p Hp]. rewrite Hp. simpl. apply IH; [done|..].
      + apply sized_insert; [done|]. by eapply Forall_lookup_1 in HP.
      + by rewrite length_insert.
      + intros j Hj. destruct (decide (i = j)) as [->|Hne].
        * right. rewrite list_lookup_insert_eq by lia. done.
        * rewrite list_lookup_insert_ne by done. destruct (Hdone j Hj) as [[E|E]%elem_of_cons|E]; [lia|by left|by right]. }
  apply Hrun; [|done..|].
  - rewrite Ho. apply Forall_map, Forall_forall. intros i [_ Hi]%elem_of_seq. exists i. split; [done|lia].
  - intros i Hi. left. rewrite Ho. apply list_elem_of_fmap_2, elem_of_seq. lia.
Qed.

(** ** Chunk loops over parts *)

Lemma chunks_app f m a b x y : length x = (m * a)%nat →
  chunks f m (a + b) (x ++ y) = (p ← chunks f m a x; q ← chunks f m b y; Ret (p ++ q)).
Proof.
  revert x. induction a as [|a IH]; intros x HL.
  { destruct x; [|simpl in HL; lia]. simpl. by destruct (chunks f m b y). }
  cbn [Nat.add chunks]. rewrite !decide_False by (rewrite ?length_app; lia).
  rewrite drop_app_le, take_app_le by lia. rewrite IH by (rewrite length_drop; lia).
  destruct (chunks f m a (drop m x)) as [p| |]; [|done..]. simpl.
  destruct (chunks f m b y) as [q| |]; [|done..]. simpl. by rewrite app_assoc.
Qed.

Lemma chunks_concat f m a (segs P : list (list Z)) :
  Forall2 (λ s p, length s = (m * a)%nat ∧ chunks f m a s = Ret p) segs P →
  chunks f m (a * length segs) (concat segs) = Ret (concat P).
Proof.
  induction 1 as [|s p segs P [HL E] _ IH]; [by rewrite Nat.mul_0_r|].
  cbn [length concat]. replace (a * S (length segs))%nat with (a + a * length segs)%nat by lia.
  rewrite chunks_app by done. by rewrite E, bind_ret_l, IH, bind_ret_l.
Qed.

(** A list cut into parts of one size. *)
Lemma cut_parts n t (l : list Z) : length l = (n * t)%nat → ∃ segs, l = concat segs ∧ sized n segs ∧ length segs = t.
Proof.
  revert l. induction t as [|t IH]; intros l HL.
  { exists []. destruct l; [done|simpl in HL; lia]. }
  destruct (IH (drop n l)) as (segs&E&Hs&Ht); [rewrite length_drop; lia|]. exists (take n l :: segs).
  split_and!; [by simpl; rewrite <- E, take_drop| |by simpl; rewrite Ht].
  constructor; [rewrite length_take; lia|done].
Qed.

Lemma Forall2_map_chunks f (m a : nat) (segs : list (list Z)) :
  (∀ s, s ∈ segs → ∃ p, chunks f m a s = Ret p) → sized (m * a)%nat segs →
  ∃ P, Forall2 (λ s p, length s = (m * a)%nat ∧ chunks f m a s = Ret p) segs P.
Proof.
  intros Hr Hs. induction Hs as [|s segs Hs' Hs IH]; [by exists []|].
  destruct (Hr s) as [p Hp]; [apply elem_of_cons; by left|].
  destruct IH as [P HP]; [intros x Hx; apply Hr, elem_of_cons; by right|]. exists (p :: P). by constructor.
Qed.

Lemma padLoop_length s t v l : length (padLoop s t v l).1 = length l.
Proof.
  revert t v. induction l as [|b l IH]; intros t v; [done|]. simpl.
  specialize (IH (shr b (8 - s)) b). destruct (padLoop s _ b l). simpl in *. by rewrite IH.
Qed.

Lemma unpadLoop_length r a l : length (unpadLoop r a l).1 = length l.
Proof.
  revert a. induction l as [|b l IH]; intros a; [done|]. simpl.
  specialize (IH b). destruct (unpadLoop r b l). simpl in *. by rewrite IH.
Qed.

Lemma slice_length c i j : (i ≤ j ≤ length c)%nat → length (slice c i j) = (j - i)%nat.
Proof. intros H. unfold slice. rewrite length_take, length_drop. lia. Qed.

Lemma padChunk_length c : length c = 127%nat → length (padChunk c) = 128%nat.
Proof.
  intros HL. unfold padChunk.
  pose proof (padLoop_length 2 (shr (at_ c 31) 6) 0 (slice c 32 64)) as H1. destruct (padLoop 2 _ _ _) as [o1 v1].
  pose proof (padLoop_length 4 (shr v1 4) v1 (slice c 64 96)) as H2. destruct (padLoop 4 _ _ _) as [o2 v2].
  pose proof (padLoop_length 6 (shr v2 2) v2 (slice c 96 127)) as H3. destruct (padLoop 6 _ _ _) as [o3 v3].
  simpl in *. rewrite slice_length in H1, H2, H3 by lia. unfold onLast.
  rewrite !length_app, !length_alter, length_take. cbn [length]. lia.
Qed.

Lemma unpadChunk_length p : length p = 128%nat → length (unpadChunk p) = 127%nat.
Proof.
  intros HL. unfold unpadChunk. rewrite copyLoop_spec.
  pose proof (unpadLoop_length 2 (default (at_ p 0) (last (slice p 1 33))) (slice p 33 65)) as H1.
  destruct (unpadLoop 2 _ _) as [o1 a1].
  pose proof (unpadLoop_length 4 a1 (slice p 65 97)) as H2. destruct (unpadLoop 4 _ _) as [o2 a2].
  pose proof (unpadLoop_length 6 a2 (slice p 97 128)) as H3. destruct (unpadLoop 6 _ _) as [o3 a3].
  simpl in H1, H2, H3. rewrite slice_length in H1, H2, H3 by lia. unfold onLast.
  rewrite !length_app, !length_alter, length_take. cbn [length]. rewrite slice_length by lia. lia.
Qed.

Lemma chunks_length f m n k inp out : (∀ c, length c = m → length (f c) = n) →
  chunks f m k inp = Ret out → length out = (n * k)%nat.
Proof.
  intros Hf. revert inp out. induction k as [|k IH]; intros inp out; simpl; [intros [= <-]; simpl; lia|].
  case_decide; [done|]. intros E. inv_bind. injection E as <-. rewrite length_app, (IH _ _ E0), Hf; [lia|].
  rewrite length_take. lia.
Qed.

(** ** The split of a power of two *)

Section threads.
Context `{PieceSizes}.
Variable NumCPU : Z.
Hypothesis NumCPU_pos : 1 ≤ NumCPU.

Lemma mtChunkCount_pow k : 20 ≤ k → ∃ t, 0 ≤ t ≤ 5 ∧ mtChunkCount NumCPU (2 ^ k) = 2 ^ t.
Proof.
  intros Hk. unfold mtChunkCount. change MTTresh with (2 ^ 19).
  assert (2 ^ k / 2 ^ 19 = 2 ^ (k - 19)) as -> by (by rewrite <- Z.pow_sub_r by lia).
  assert (∃ t, 0 ≤ t ∧ (if decide (NumCPU < 2 ^ (k - 19)) then 2 ^ bitLen NumCPU else 2 ^ (k - 19)) = 2 ^ t) as (t&Ht&->).
  { case_decide; [|by exists (k - 19); split; [lia|]]. exists (bitLen NumCPU). split; [|done].
    unfold bitLen. rewrite decide_False by lia. pose proof (Z.log2_nonneg NumCPU). lia. }
  pose proof (Z.pow_pos_nonneg 2 t ltac:(lia) Ht). rewrite decide_False by lia.
  case_decide as H32; [by exists 5; split; [lia|]|]. exists t. split; [|done]. split; [done|].
  destruct (Z.le_gt_cases t 5) as [|Hgt]; [done|].
  pose proof (Z.pow_le_mono_r 2 6 t ltac:(lia) ltac:(lia)). change (2 ^ 6) with 64 in *. lia.
Qed.

(** The parts in numbers: [T] goroutines with [a] chunks each. *)
Lemma mt_parts k : 20 ≤ k → ∃ T a : nat, (0 < T)%nat ∧
  mtChunkCount NumCPU (2 ^ k) = Z.of_nat T ∧ 2 ^ k = Z.of_nat (128 * a * T)%nat ∧
  2 ^ k / mtChunkCount NumCPU (2 ^ k) = Z.of_nat (128 * a)%nat.
Proof.
  intros Hk. destruct (mtChunkCount_pow k Hk) as (t&Ht&E). exists (Z.to_nat (2 ^ t)), (Z.to_nat (2 ^ (k - t - 7))).
  pose proof (Z.pow_pos_nonneg 2 t ltac:(lia) ltac:(lia)).
  pose proof (Z.pow_pos_nonneg 2 (k - t - 7) ltac:(lia) ltac:(lia)).
  assert (2 ^ k = 128 * 2 ^ (k - t - 7) * 2 ^ t) as Ek.
  { change 128 with (2 ^ 7). rewrite <- !Z.pow_add_r by lia. f_equal. lia. }
  rewrite E. split_and!; [lia|lia|lia|]. rewrite Ek, Z.div_mul by lia. lia.
Qed.

Lemma Unpadded_chunks (j : nat) : Unpadded (Z.of_nat (128 * j)) = Z.of_nat (127 * j).
Proof.
  rewrite Unpadded_law by lia. replace (Z.of_nat (128 * j)) with (Z.of_nat j * 128) by lia.
  rewrite Z.div_mul by lia. lia.
Qed.

Lemma sliceAt_concat n (segs : list (list Z)) (i : nat) s : sized n segs → segs !! i = Some s →
  sliceAt (concat segs) (Z.of_nat (n * i)) (Z.of_nat (n * S i)) = Ret s.
Proof.
  intros Hs Hi. pose proof (lookup_lt_Some _ _ _ Hi). unfold sliceAt.
  rewrite decide_True by (rewrite (length_concat_sized n) by done; nia). rewrite !Nat2Z.id.
  replace (n * S i)%nat with (n * i + n)%nat by lia. by rewrite (slice_concat n segs i s).
Qed.

Lemma padThread_part a insegs P i segs :
  Forall2 (λ s p, length s = (127 * a)%nat ∧ chunks padChunk 127 a s = Ret p ∧ length p = (128 * a)%nat) insegs P →
  sized (128 * a)%nat segs → length segs = length P → (i < length P)%nat →
  padThread (concat insegs) (Z.of_nat (128 * a)) (Z.of_nat i) (concat segs)
  = Ret (concat (<[i := default [] (P !! i)]> segs)).
Proof.
  intros HF Hs HL Hi. unfold padThread.
  destruct (lookup_lt_is_Some_2 P i Hi) as [p Hp]. destruct (Forall2_lookup_r _ _ _ _ _ HF Hp) as (x&Hx&L1&E&L2).
  destruct (lookup_lt_is_Some_2 segs i) as [o Ho]; [lia|].
  assert (length o = (128 * a)%nat) as Lo by (by eapply Forall_lookup_1 in Hs).
  assert (sized (127 * a)%nat insegs) as Hin.
  { clear -HF. induction HF as [|s q l k (?&_) _ IH]; by constructor. }
  replace (Z.of_nat (128 * a) * Z.of_nat i + Z.of_nat (128 * a)) with (Z.of_nat (128 * (a * S i))) by lia.
  replace (Z.of_nat (128 * a) * Z.of_nat i) with (Z.of_nat (128 * (a * i))) by lia.
  rewrite !Unpadded_chunks. rewrite !Nat.mul_assoc.
  rewrite (sliceAt_concat _ _ _ _ Hin Hx), bind_ret_l, (sliceAt_concat _ _ _ _ Hs Ho), bind_ret_l.
  unfold pad. rewrite Lo. replace (128 * a / 128)%nat with a by (rewrite Nat.mul_comm, Nat.div_mul; lia).
  rewrite E, bind_ret_l, drop_ge, app_nil_r by lia. rewrite bind_ret_l.
  rewrite (splice_concat (128 * a)) by (done || lia). by rewrite Hp.
Qed.

Lemma unpadThread_part a insegs P i segs :
  Forall2 (λ s p, length s = (128 * a)%nat ∧ chunks unpadChunk 128 a s = Ret p ∧ length p = (127 * a)%nat) insegs P →
  sized (127 * a)%nat segs → length segs = length P → (i < length P)%nat →
  unpadThread (concat insegs) (Z.of_nat (128 * a)) (Z.of_nat i) (concat segs)
  = Ret (concat (<[i := default [] (P !! i)]> segs)).
Proof.
  intros HF Hs HL Hi. unfold unpadThread.
  destruct (lookup_lt_is_Some_2 P i Hi) as [p Hp]. destruct (Forall2_lookup_r _ _ _ _ _ HF Hp) as (x&Hx&L1&E&L2).
  destruct (lookup_lt_is_Some_2 segs i) as [o Ho]; [lia|].
  assert (length o = (127 * a)%nat) as Lo by (by eapply Forall_lookup_1 in Hs).
  assert (sized (128 * a)%nat insegs) as Hin.
  { clear -HF. induction HF as [|s q l k (?&_) _ IH]; by constructor. }
  replace (Z.of_nat (128 * a) * Z.of_nat i + Z.of_nat (128 * a)) with (Z.of_nat (128 * (a * S i))) by lia.
  replace (Z.of_nat (128 * a) * Z.of_nat i) with (Z.of_nat (128 * (a * i))) by lia.
  rewrite !Unpadded_chunks. rewrite !Nat.mul_assoc.
  rewrite (sliceAt_concat _ _ _ _ Hs Ho), bind_ret_l, (sliceAt_concat _ _ _ _ Hin Hx), bind_ret_l.
  unfold unpad. rewrite L1. replace (128 * a / 128)%nat with a by (rewrite Nat.mul_comm, Nat.div_mul; lia).
  rewrite decide_False by lia. rewrite E, bind_ret_l, drop_ge, app_nil_r by lia. rewrite bind_ret_l.
  rewrite (splice_concat (127 * a)) by (done || lia). by rewrite Hp.
Qed.

Lemma parts_of f m n a T l :
  (∀ c, length c = m → length (f c) = n) → length l = (m * a * T)%nat →
  ∃ segs P, l = concat segs ∧ length P = T ∧
    Forall2 (λ s p, length s = (m * a)%nat ∧ chunks f m a s = Ret p ∧ length p = (n * a)%nat) segs P ∧
    chunks f m (a * T) l = Ret (concat P).
Proof.
  intros Hf HL. destruct (cut_parts (m * a) T l HL) as (segs&->&Hs&HT).
  destruct (Forall2_map_chunks f m a segs) as [P HP]; [|done|].
  { intros s Hin. apply chunks_ret. rewrite Forall_forall in Hs. by apply Hs. }
  exists segs, P. split_and!; [done| | |].
  - by rewrite <- (Forall2_length _ _ _ HP).
  - eapply Forall2_impl; [exact HP|]. intros s p [? E]. split_and!; [done..|]. by eapply chunks_length.
  - rewrite <- HT. by apply chunks_concat.
Qed.

Lemma sized_r (m n a : nat) f segs P :
  Forall2 (λ s p, length s = (m * a)%nat ∧ chunks f m a s = Ret p ∧ length p = (n * a)%nat) segs P →
  sized (n * a)%nat P.
Proof. intros HF. induction HF as [|s p l k (_&_&?) _ IH]; by constructor. Qed.

Lemma Pad_split order inp out k :
  20 ≤ k → Z.of_nat (length out) = 2 ^ k → Z.of_nat (length inp) = Unpadded (2 ^ k) →
  order ≡ₚ seqZ 0 (mtChunkCount NumCPU (2 ^ k)) → Pad NumCPU order inp out = pad inp out.
Proof.
  intros Hk HLo HLi Ho. destruct (mt_parts k Hk) as (T&a&HT&ET&E2k&EB).
  assert (MTTresh < 2 ^ k) as Hbig.
  { change MTTresh with (2 ^ 19). apply Z.pow_lt_mono_r; lia. }
  unfold Pad. rewrite HLo, decide_True by done. rewrite EB. rewrite E2k in HLo, HLi.
  replace (128 * a * T)%nat with (128 * (a * T))%nat in HLo, HLi by lia. rewrite Unpadded_chunks in HLi.
  destruct (parts_of padChunk 127 128 a T inp padChunk_length) as (insegs&P&->&LP&HF&E); [lia|].
  destruct (cut_parts (128 * a) T out) as (segs&->&Hs&Hsl); [lia|].
  unfold pad. rewrite (length_concat_sized (128 * a)), Hsl by done.
  replace (128 * a * T / 128)%nat with (a * T)%nat by (replace (128 * a * T)%nat with (a * T * 128)%nat by lia; by rewrite Nat.div_mul).
  rewrite E, bind_ret_l, drop_ge, app_nil_r by (rewrite (length_concat_sized (128 * a)), Hsl by done; lia).
  apply (runThreads_all _ (128 * a)); [|by eapply sized_r|done|congruence|].
  - intros i segs' Hs' HL' Hi. by apply padThread_part.
  - rewrite Ho, ET, LP. unfold seqZ. rewrite Nat2Z.id. apply Permutation_refl'. apply map_ext. lia.
Qed.

Lemma Unpad_split order inp out k :
  20 ≤ k → Z.of_nat (length inp) = 2 ^ k → Z.of_nat (length out) = Unpadded (2 ^ k) →
  order ≡ₚ seqZ 0 (mtChunkCount NumCPU (2 ^ k)) → Unpad NumCPU order inp out = unpad out inp.
Proof.
  intros Hk HLi HLo Ho. destruct (mt_parts k Hk) as (T&a&HT&ET&E2k&EB).
  assert (MTTresh < 2 ^ k) as Hbig.
  { change MTTresh with (2 ^ 19). apply Z.pow_lt_mono_r; lia. }
  unfold Unpad. rewrite HLi, decide_True by done. rewrite EB. rewrite E2k in HLo, HLi.
  replace (128 * a * T)%nat with (128 * (a * T))%nat in HLo, HLi by lia. rewrite Unpadded_chunks in HLo.
  destruct (parts_of unpadChunk 128 127 a T inp unpadChunk_length) as (insegs&P&->&LP&HF&E); [lia|].
  destruct (cut_parts (127 * a) T out) as (segs&->&Hs&Hsl); [lia|].
  assert (length (concat insegs) = (a * T * 128)%nat) as Li by lia.
  unfold unpad. rewrite Li, Nat.div_mul by lia. rewrite (length_concat_sized (127 * a)), Hsl by done.
  rewrite decide_False by lia.
  rewrite E, bind_ret_l, drop_ge, app_nil_r by (rewrite (length_concat_sized (127 * a)), Hsl by done; lia).
  apply (runThreads_all _ (127 * a)); [|by eapply sized_r|done|congruence|].
  - intros i segs' Hs' HL' Hi. by apply unpadThread_part.
  - rewrite Ho, ET, LP. unfold seqZ. rewrite Nat2Z.id. apply Permutation_refl'. apply map_ext. lia.
Qed.
End threads.
