(* ===== verification/Fr32StreamSpec.v ===== *)
(** * Padding of streams

    What is written to a [padWriter], in whatever portions, comes out padded as a
    whole; reading it back through an [unpadReader] gives the bytes that were
    written. *)

From stdpp Require Import strings numbers base sets list.
From S2P Require Import Prelude GoStrings Fr32 Fr32Spec Fr32Stream Fr32Threads.
Local Open Scope Z_scope.

(** ** The pieces of a size *)

Lemma lxor_double a b : Z.lxor (2 * a) (2 * b) = 2 * Z.lxor a b.
Proof.
  rewrite !(Z.mul_comm 2), <- !(Z.shiftl_mul_pow2 _ 1) by lia. by rewrite Z.shiftl_lxor.
Qed.

Lemma zerosPos_nonneg p : 0 ≤ zerosPos p.
Proof. induction p; simpl; lia. Qed.

(** Clearing the lowest bit: nothing is left, or the top bit is as before and one bit fewer is set. *)
Lemma clear_lowest p :
  let r := Z.lxor (Zpos p) (2 ^ zerosPos p) in
  (r = 0 ∧ Zpos p = 2 ^ zerosPos p ∧ onesPos p = 1%nat) ∨
  ∃ q, r = Zpos q ∧ onesPos p = S (onesPos q) ∧ Z.log2 (Zpos q) = Z.log2 (Zpos p).
Proof.
  induction p as [p IH|p IH|]; intros r.
  - right. exists (xO p). split; [done|]. split; [done|].
    change (Zpos p~0) with (2 * Zpos p). change (Zpos p~1) with (2 * Zpos p + 1).
    by rewrite Z.log2_double, Z.log2_succ_double by lia.
  - assert (r = 2 * Z.lxor (Zpos p) (2 ^ zerosPos p)) as Er.
    { unfold r. cbn [zerosPos]. rewrite Z.pow_add_r by (try apply zerosPos_nonneg; lia).
      change (Zpos p~0) with (2 * Zpos p). change (2 ^ 1) with 2. apply lxor_double. }
    rewrite Er. destruct IH as [(E0&E1&E2)|(q&E0&E1&E2)].
    + left. rewrite E0. split; [done|]. split; [|done]. cbn [zerosPos].
      rewrite Z.pow_add_r by (try apply zerosPos_nonneg; lia). rewrite <- E1. done.
    + right. exists (xO q). rewrite E0. split; [done|]. split; [done|].
      change (Zpos q~0) with (2 * Zpos q). change (Zpos p~0) with (2 * Zpos p). rewrite !Z.log2_double by lia. by rewrite E2.
  - left. done.
Qed.

Section streams.
Context `{PieceSizes}.
Variable NumCPU : Z.
Hypothesis NumCPU_pos : 1 ≤ NumCPU.
Variable sched : Z → list Z.
Hypothesis sched_all : ∀ n, sched n ≡ₚ seqZ 0 n.

Lemma pieceLoop_last w : 0 < w → last (pieceLoop (onesCount w) w) = Some (Unpadded (2 ^ Z.log2 w)).
Proof.
  assert (∀ n p, onesPos p = n → last (pieceLoop n (Zpos p)) = Some (Unpadded (2 ^ Z.log2 (Zpos p)))) as Hn.
  { induction n as [|n IH]; intros p Hp.
    - destruct (clear_lowest p) as [(_&_&E)|(q&_&E&_)]; congruence.
    - cbn [pieceLoop trailingZeros]. destruct (clear_lowest p) as [(E0&E1&E2)|(q&E0&E1&E2)].
      + assert (n = 0%nat) as -> by congruence.
        assert (Z.log2 (Zpos p) = zerosPos p) as -> by (rewrite E1, Z.log2_pow2 by apply zerosPos_nonneg; done). done.
      + rewrite E0. assert (onesPos q = n) as Hq by congruence. specialize (IH q Hq).
        rewrite last_cons, IH, E2. done. }
  intros Hw. destruct w as [|p|p]; [lia| |lia]. by apply Hn.
Qed.

(** The biggest piece of at least 127 bytes: [a] chunks, a power of two. *)
Lemma biggest_piece (n : nat) : (127 ≤ n)%nat → ∃ (a : nat) k, (1 ≤ a)%nat ∧ (127 * a ≤ n)%nat ∧ 7 ≤ k ∧
  Z.of_nat (128 * a) = 2 ^ k ∧ last (subPieces (Z.of_nat n)) = Some (Z.of_nat (127 * a)).
Proof.
  intros Hn. unfold subPieces. rewrite Padded_law by lia. set (w := Z.of_nat n + Z.of_nat n / 127).
  assert (1 ≤ Z.of_nat n / 127) by (apply Z.div_le_lower_bound; lia).
  assert (128 ≤ w) as Hw by (unfold w; lia).
  pose proof (Z.log2_spec w ltac:(lia)) as [Hlo Hhi].
  assert (7 ≤ Z.log2 w) as H7 by (change 7 with (Z.log2 128); by apply Z.log2_le_mono).
  pose proof (Z.pow_pos_nonneg 2 (Z.log2 w - 7) ltac:(lia) ltac:(lia)).
  assert (2 ^ Z.log2 w = 128 * 2 ^ (Z.log2 w - 7)) as Ew.
  { change 128 with (2 ^ 7). rewrite <- Z.pow_add_r by lia. f_equal. lia. }
  exists (Z.to_nat (2 ^ (Z.log2 w - 7))), (Z.log2 w). split_and!; [lia| |done|lia|].
  - unfold w in Hlo at 2. pose proof (Z.div_mod (Z.of_nat n) 127 ltac:(lia)).
    pose proof (Z.mod_pos_bound (Z.of_nat n) 127 ltac:(lia)). lia.
  - rewrite pieceLoop_last by lia. f_equal. rewrite Unpadded_law by lia. rewrite Ew, Z.mul_comm, Z.div_mul by lia. lia.
Qed.

Lemma Padded_chunks (a : nat) : Padded (Z.of_nat (127 * a)) = Z.of_nat (128 * a).
Proof.
  rewrite Padded_law by lia. replace (Z.of_nat (127 * a)) with (Z.of_nat a * 127) by lia.
  rewrite Z.div_mul by lia. lia.
Qed.

(** Padding and unpadding of a power of two, on one thread or on many. *)
Lemma PadNow_chunks (a : nat) k inp out :
  Z.of_nat (128 * a) = 2 ^ k → 7 ≤ k → length inp = (127 * a)%nat → length out = (128 * a)%nat →
  PadNow NumCPU sched inp out = chunks padChunk 127 a inp.
Proof.
  intros Hk H7 Hi Ho. assert (PadNow NumCPU sched inp out = pad inp out) as ->.
  { unfold PadNow. rewrite Ho, Hk. destruct (decide (20 ≤ k)) as [H20|H20].
    - apply (Pad_split NumCPU NumCPU_pos _ _ _ k); [done|congruence| |apply sched_all].
      rewrite <- Hk, Unpadded_chunks. congruence.
    - unfold Pad. rewrite decide_False; [done|]. rewrite Ho, Hk. change MTTresh with (2 ^ 19).
      pose proof (Z.pow_le_mono_r 2 k 19 ltac:(lia) ltac:(lia)). lia. }
  unfold pad. rewrite Ho. replace (128 * a / 128)%nat with a by (rewrite Nat.mul_comm, Nat.div_mul; lia).
  rewrite drop_ge by lia. destruct (chunks padChunk 127 a inp); [|done..]. simpl. by rewrite app_nil_r.
Qed.

Lemma UnpadNow_chunks (a : nat) k inp out :
  Z.of_nat (128 * a) = 2 ^ k → 7 ≤ k → length inp = (128 * a)%nat → length out = (127 * a)%nat →
  UnpadNow NumCPU sched inp out = chunks unpadChunk 128 a inp.
Proof.
  intros Hk H7 Hi Ho. assert (UnpadNow NumCPU sched inp out = unpad out inp) as ->.
  { unfold UnpadNow. rewrite Hi, Hk. destruct (decide (20 ≤ k)) as [H20|H20].
    - apply (Unpad_split NumCPU NumCPU_pos _ _ _ k); [done|congruence| |apply sched_all].
      rewrite <- Hk, Unpadded_chunks. congruence.
    - unfold Unpad. rewrite decide_False; [done|]. rewrite Hi, Hk. change MTTresh with (2 ^ 19).
      pose proof (Z.pow_le_mono_r 2 k 19 ltac:(lia) ltac:(lia)). lia. }
  unfold unpad. rewrite Hi. replace (128 * a / 128)%nat with a by (rewrite Nat.mul_comm, Nat.div_mul; lia).
  rewrite decide_False, drop_ge by lia. destruct (chunks unpadChunk 128 a inp); [|done..]. simpl. by rewrite app_nil_r.
Qed.

(** ** The writer *)

(** A destination that takes everything. *)
Definition collect (d w : list Z) : list Z * (Z * option string) := (d ++ w, (Z.of_nat (length w), None)).

Abbreviation write := (Write NumCPU sched (list Z) collect).

Lemma writeLoop_spec fuel plen stash0 inp d :
  (length inp < fuel)%nat → (127 ≤ length inp)%nat →
  ∃ X S k P, inp = X ++ S ∧ (length S < 127)%nat ∧ length X = (127 * k)%nat ∧ chunks padChunk 127 k X = Ret P ∧
    writeLoop NumCPU sched (list Z) collect fuel plen stash0 inp d = Ret (mkPadWriter _ S (d ++ P), (plen, None)).
Proof.
  revert inp d. induction fuel as [|fuel IH]; intros inp d Hf Hi; [lia|]. cbn [writeLoop].
  destruct (biggest_piece (length inp) Hi) as (a&k&Ha&Hle&H7&Hk&->). rewrite bind_ret_l.
  unfold sliceAt. rewrite decide_True by lia. rewrite bind_ret_l, Nat2Z.id. change (Z.to_nat 0) with 0%nat.
  rewrite Padded_chunks, Nat2Z.id. unfold slice. rewrite drop_0, Nat.sub_0_r.
  set (X := take (127 * a) inp). assert (length X = (127 * a)%nat) as LX by (unfold X; rewrite length_take; lia).
  rewrite (PadNow_chunks a k) by (done || rewrite length_replicate; done).
  destruct (chunks_ret padChunk 127 a X LX) as [P HP]. rewrite HP, bind_ret_l. cbn [collect].
  assert (inp = X ++ drop (127 * a) inp) as E by (unfold X; by rewrite take_drop).
  case_decide as Hd.
  - exists X, (drop (127 * a) inp), a, P. done.
  - destruct (IH (drop (127 * a) inp) (d ++ P)) as (X'&S&k'&P'&E'&HS&LX'&HP'&->); [rewrite length_drop; lia|lia|].
    exists (X ++ X'), S, (a + k')%nat, (P ++ P'). split_and!; [by rewrite <- app_assoc, <- E'|done| | |].
    + rewrite length_app. lia.
    + rewrite chunks_app by done. by rewrite HP, bind_ret_l, HP', bind_ret_l.
    + by rewrite <- app_assoc.
Qed.

(** [w'] has taken in the bytes [p]. *)
Definition wrote (w : padWriter (list Z)) (p : list Z) (w' : padWriter (list Z)) : Prop :=
  ∃ X k P, stash _ w ++ p = X ++ stash _ w' ∧ (length (stash _ w') < 127)%nat ∧
    length X = (127 * k)%nat ∧ chunks padChunk 127 k X = Ret P ∧ dst _ w' = dst _ w ++ P.

Lemma Write_spec w p : ∃ w', write w p = Ret (w', (Z.of_nat (length p), None)) ∧ wrote w p w'.
Proof.
  unfold Write. case_decide as Hd.
  - eexists. split; [done|]. exists [], 0%nat, []. simpl. rewrite app_nil_r, length_app. split_and!; done || lia.
  - destruct (writeLoop_spec (S (length (stash _ w ++ p))) (Z.of_nat (length p)) (stash _ w) (stash _ w ++ p) (dst _ w))
      as (X&S&k&P&E&HS&LX&HP&->); [lia|rewrite length_app; lia|]. eexists. split; [done|]. by exists X, k, P.
Qed.

(** Writing several portions, all of which succeed. *)
Fixpoint writeAll (w : padWriter (list Z)) (ps : list (list Z)) : outcome (padWriter (list Z)) :=
  match ps with
  | [] => Ret w
  | p :: ps' =>
      r ← write w p;
      let '(w', (n, err)) := r in
      if decide (n = Z.of_nat (length p) ∧ err = None) then writeAll w' ps' else Fail "short write"
  end.

Lemma writeAll_spec ps w : (length (stash _ w) < 127)%nat → ∃ w', writeAll w ps = Ret w' ∧ wrote w (concat ps) w'.
Proof.
  revert w. induction ps as [|p ps IH]; intros w Hw; cbn [writeAll concat].
  { eexists. split; [done|]. exists [], 0%nat, []. rewrite !app_nil_r. simpl. split_and!; done || lia. }
  destruct (Write_spec w p) as (w1&->&X1&k1&P1&E1&H1&L1&C1&D1). rewrite bind_ret_l, decide_True by done.
  destruct (IH w1 H1) as (w2&->&X2&k2&P2&E2&H2&L2&C2&D2). eexists. split; [done|].
  exists (X1 ++ X2), (k1 + k2)%nat, (P1 ++ P2). split_and!; [|done| | |].
  - rewrite app_assoc, E1, <- app_assoc, E2. by rewrite app_assoc.
  - rewrite length_app. lia.
  - rewrite chunks_app by done. by rewrite C1, bind_ret_l, C2, bind_ret_l.
  - by rewrite D2, D1, app_assoc.
Qed.

(** ** The reader *)

Lemma topBit_pow (c : nat) : (1 ≤ c)%nat → ∃ (a : nat) k, 7 ≤ k ∧ (1 ≤ a ≤ c)%nat ∧ Z.of_nat (128 * a) = 2 ^ k ∧
  topBit (Z.of_nat (128 * c)) = k.
Proof.
  intros Hc. unfold topBit. rewrite decide_False by lia. set (w := Z.of_nat (128 * c)).
  assert (w = 128 * Z.of_nat c) as Ec by (unfold w; lia). clearbody w.
  assert (128 ≤ w) as Hw by lia. pose proof (Z.log2_spec w ltac:(lia)) as [Hlo _].
  assert (7 ≤ Z.log2 w) as H7 by (change 7 with (Z.log2 128); by apply Z.log2_le_mono).
  pose proof (Z.pow_pos_nonneg 2 (Z.log2 w - 7) ltac:(lia) ltac:(lia)).
  assert (2 ^ Z.log2 w = 128 * 2 ^ (Z.log2 w - 7)) as Ew.
  { change 128 with (2 ^ 7). rewrite <- Z.pow_add_r by lia. f_equal. lia. }
  exists (Z.to_nat (2 ^ (Z.log2 w - 7))), (Z.log2 w). split_and!; done || lia.
Qed.

Lemma shiftOne_ret n : 0 ≤ n → shiftOne n = Ret (2 ^ n).
Proof. intros Hn. unfold shiftOne. by rewrite decide_False by lia. Qed.

(** One call of [Read] with room for a chunk takes some chunks. *)
Lemma Read_spec P rest (c : nat) size outLen :
  (1 ≤ c)%nat → length P = (128 * c)%nat → 127 ≤ outLen → outLen / 127 * 128 ≤ size →
  ∃ (a : nat) u, (1 ≤ a ≤ c)%nat ∧ chunks unpadChunk 128 a (take (128 * a) P) = Ret u ∧
    Read NumCPU sched (mkUnpadReader (Z.of_nat (128 * c)) (P ++ rest) size) outLen
    = Ret (mkUnpadReader (Z.of_nat (128 * (c - a))) (drop (128 * a) P ++ rest) size,
           (u, Z.of_nat (127 * a), None)).
Proof.
  intros Hc HP Ho Hsize. unfold Read. cbn [left src workSize]. rewrite decide_False by lia.
  assert (1 ≤ outLen / 127) as Hq by (apply Z.div_le_lower_bound; lia).
  replace (outLen / 127 * 128) with (Z.of_nat (128 * Z.to_nat (outLen / 127))) in * by lia.
  destruct (topBit_pow (Z.to_nat (outLen / 127))) as (b&k&Hk&Hb&Eb&->); [lia|].
  rewrite (shiftOne_ret k), bind_ret_l by lia. rewrite (proj2 (Validate_law (2 ^ k))) by eauto. cbn [negb].
  assert (∃ a k', (1 ≤ a ≤ c)%nat ∧ 7 ≤ k' ∧ Z.of_nat (128 * a) = 2 ^ k' ∧ (a ≤ b)%nat ∧
    (if decide (Z.of_nat (128 * c) < 2 ^ k) then shiftOne (topBit (Z.of_nat (128 * c))) else Ret (2 ^ k))
    = Ret (Z.of_nat (128 * a))) as (a&k'&Ha&Hk'&Ea&Hab&->).
  { case_decide as Hlt.
    - destruct (topBit_pow c Hc) as (a&k'&?&?&Ea&->). exists a, k'. split_and!; try lia.
      rewrite shiftOne_ret by lia. by rewrite Ea.
    - exists b, k. split_and!; try lia. by rewrite Eb. }
  rewrite bind_ret_l, decide_False by lia. rewrite length_app, HP.
  rewrite Z.min_r by lia. rewrite decide_False, decide_False by lia. rewrite Nat2Z.id.
  rewrite take_app_le, drop_app_le by lia. rewrite Unpadded_chunks, Nat2Z.id.
  assert (length (take (128 * a) P) = (128 * a)%nat) as Lt by (rewrite length_take; lia).
  rewrite (UnpadNow_chunks a k') by (done || rewrite length_replicate; done).
  destruct (chunks_ret unpadChunk 128 a _ Lt) as [u Eu]. exists a, u. rewrite Eu, bind_ret_l.
  split_and!; [lia..|done|]. do 3 f_equal. lia.
Qed.

(** Reading into buffers of the given sizes until the end; the bytes read. *)
Fixpoint readAll (r : unpadReader) (lens : list Z) : outcome (unpadReader * list Z) :=
  match lens with
  | [] => Ret (r, [])
  | n :: lens' =>
      res ← Read NumCPU sched r n;
      let '(r', (bs, _, err)) := res in
      match err with
      | None => more ← readAll r' lens'; Ret (more.1, bs ++ more.2)
      | Some e => if decide (e = "EOF") then Ret (r', []) else Fail e
      end
  end.

Lemma readAll_spec lens P rest (c : nat) size :
  length P = (128 * c)%nat → Forall (λ n, 127 ≤ n ∧ n / 127 * 128 ≤ size) lens →
  ∃ (a : nat) u, (a ≤ c)%nat ∧ chunks unpadChunk 128 a (take (128 * a) P) = Ret u ∧
    ((c ≤ length lens)%nat → a = c) ∧
    readAll (mkUnpadReader (Z.of_nat (128 * c)) (P ++ rest) size) lens
    = Ret (mkUnpadReader (Z.of_nat (128 * (c - a))) (drop (128 * a) P ++ rest) size, u).
Proof.
  intros HP Hl. revert P c HP. induction Hl as [|n lens [Hn Hs] Hl IH]; intros P c HP; cbn [readAll].
  { exists 0%nat, []. rewrite Nat.sub_0_r, Nat.mul_0_r, drop_0. split_and!; [lia|done|simpl; lia|done]. }
  destruct (decide (c = 0)%nat) as [->|Hc].
  { exists 0%nat, []. destruct P; [|simpl in HP; lia]. split_and!; done. }
  destruct (Read_spec P rest c size n) as (a&u&Ha&Eu&->); [lia|done..|]. rewrite bind_ret_l.
  destruct (IH (drop (128 * a) P) (c - a)%nat) as (b&v&Hb&Ev&Hlen&->); [rewrite length_drop; lia|].
  rewrite bind_ret_l. cbn [fst snd]. exists (a + b)%nat, (u ++ v). split_and!; [lia| |simpl; lia|].
  - replace (128 * (a + b))%nat with (128 * a + 128 * b)%nat by lia. rewrite <- take_take_drop.
    rewrite chunks_app by (rewrite length_take; lia). by rewrite Eu, bind_ret_l, Ev, bind_ret_l.
  - rewrite drop_drop. do 3 f_equal; [lia|]. do 2 f_equal. lia.
Qed.

(** C7. The goroutines do not matter: on buffers whose padded size is a power of two
    of at least 128 bytes, [Pad] and [Unpad] give what the sequential loops give, for
    any number of processors and any order in which the goroutines run. *)
Theorem Pad_parallel_sequential order inp padded unpadded k :
  7 ≤ k → Z.of_nat (length padded) = 2 ^ k → Z.of_nat (length unpadded) = Unpadded (2 ^ k) →
  length inp = length unpadded → order ≡ₚ seqZ 0 (mtChunkCount NumCPU (2 ^ k)) →
  Pad NumCPU order inp padded = pad inp padded ∧ Unpad NumCPU order padded unpadded = unpad unpadded padded.
Proof.
  intros Hk Hp Hu Hi Ho. destruct (decide (20 ≤ k)) as [H20|H20].
  - split; [apply (Pad_split NumCPU NumCPU_pos _ _ _ k)|apply (Unpad_split NumCPU NumCPU_pos _ _ _ k)]; congruence || done.
  - pose proof (Z.pow_le_mono_r 2 k 19 ltac:(lia) ltac:(lia)).
    unfold Pad, Unpad. change MTTresh with (2 ^ 19). by rewrite Hp, !decide_False by lia.
Qed.

(** C6. A stream comes back: bytes that make up whole chunks of a valid piece size,
    written to a [padWriter] in any portions, leave nothing in its stash and are
    padded as a whole; an [unpadReader] of that size over the result, read into any
    buffers with room for a chunk that the work buffer can serve, gives the same bytes
    as soon as there were enough reads, for any number of processors and any
    scheduling. *)
Theorem stream_roundtrip ps (c : nat) lens size :
  bytes (concat ps) → length (concat ps) = (127 * c)%nat → Validate (Z.of_nat (128 * c)) = true →
  Forall (λ n, 127 ≤ n ∧ n / 127 * 128 ≤ size) lens → (c ≤ length lens)%nat →
  ∃ w r, writeAll (mkPadWriter _ [] []) ps = Ret w ∧ Close _ w = None ∧
    pad (concat ps) (dst _ w) = Ret (dst _ w) ∧
    NewUnpadReaderBuf (dst _ w) (Z.of_nat (128 * c)) size = Ret r ∧
    ∃ r', readAll r lens = Ret (r', concat ps) ∧ left r' = 0.
Proof.
  intros HB HL HV Hlens Hc.
  destruct (writeAll_spec ps (mkPadWriter _ [] [])) as (w&Ew&X&k&P&E&HS&LX&CP&Dw); [simpl; lia|].
  simpl in E, Dw. assert (stash _ w = []) as Hst.
  { apply nil_length_inv. pose proof (f_equal length E) as EL. rewrite length_app in EL. lia. }
  rewrite Hst, app_nil_r in E. subst X. assert (k = c) as -> by lia.
  destruct (pad_chunks c (concat ps) LX HB) as (P'&CP'&LP&_&_&CU). rewrite CP in CP'. injection CP' as <-.
  exists w. rewrite Dw. destruct (readAll_spec lens P [] c size LP Hlens) as (a&u&Ha&Eu&Hac&Er).
  rewrite (Hac Hc) in *. rewrite app_nil_r in Er. rewrite take_ge in Eu by lia. rewrite CU in Eu. injection Eu as <-.
  eexists. split_and!; [done| | | |].
  - unfold Close. by rewrite Hst.
  - unfold pad. by rewrite LP, div128, CP, bind_ret_l, drop_ge, app_nil_r by lia.
  - unfold NewUnpadReaderBuf. by rewrite HV.
  - eexists. split; [exact Er|]. simpl. lia.
Qed.

(** A buffer of less than a chunk makes [Read] panic, where an error is meant. *)
Theorem Read_small_buffer_panics r outLen :
  left r ≠ 0 → 0 ≤ outLen < 127 → Read NumCPU sched r outLen = Crash.
Proof.
  intros Hl Ho. unfold Read. rewrite decide_False by done. rewrite (Z.div_small outLen) by lia. done.
Qed.
End streams.

(** ** An instance *)

#[local] Instance pieceSizes : PieceSizes.
Proof.
  refine {| Unpadded s := s - s / 128; Padded s := s + s / 127;
            Validate s := (128 <=? s) && (s =? 2 ^ Z.log2 s) |}; [done..|].
  intros s. split.
  - intros [H1 H2]%andb_true_iff. apply Z.leb_le in H1. apply Z.eqb_eq in H2. exists (Z.log2 s). split; [|done].
    change 7 with (Z.log2 128). by apply Z.log2_le_mono.
  - intros (k&Hk&->). rewrite Z.log2_pow2 by lia. rewrite Z.eqb_refl, andb_true_r. apply Z.leb_le.
    change 128 with (2 ^ 7). apply Z.pow_le_mono_r; lia.
Defined.

(** A megabyte is padded by two goroutines, the second of which comes first. *)
Definition sevens (n : Z) : list Z := replicate (Z.to_nat n) 7.

Lemma length_sevens n : 0 ≤ n → Z.of_nat (length (sevens n)) = n.
Proof. intros Hn. unfold sevens. rewrite length_replicate. lia. Qed.

Lemma Pad_parallel_sequential_witness :
  mtChunkCount 4 (2 ^ 20) = 2 ∧
  Pad 4 [1; 0] (sevens (Unpadded (2 ^ 20))) (sevens (2 ^ 20)) = pad (sevens (Unpadded (2 ^ 20))) (sevens (2 ^ 20)).
Proof.
  split; [reflexivity|].
  refine (proj1 (Pad_parallel_sequential 4 _ [1; 0] (sevens (Unpadded (2 ^ 20))) (sevens (2 ^ 20)) (sevens (Unpadded (2 ^ 20))) 20 _ _ _ _ _)).
  - lia.
  - lia.
  - apply length_sevens. vm_compute. discriminate.
  - apply length_sevens. vm_compute. discriminate.
  - reflexivity.
  - apply perm_swap.
Defined.

Lemma stream_roundtrip_witness :
  ∃ w r, writeAll 4 (seqZ 0) (mkPadWriter _ [] []) [take 100 exChunk; drop 100 exChunk] = Ret w ∧
    NewUnpadReaderBuf (dst _ w) 128 1024 = Ret r ∧ ∃ r', readAll 4 (seqZ 0) r [200] = Ret (r', exChunk).
Proof.
  destruct (stream_roundtrip 4 ltac:(lia) (seqZ 0) (λ n, Permutation_refl _)
    [take 100 exChunk; drop 100 exChunk] 1 [200] 1024) as (w&r&Ew&_&_&Er&r'&E&_).
  - apply (bool_decide_unpack _). by vm_compute.
  - reflexivity.
  - reflexivity.
  - repeat constructor; vm_compute; congruence.
  - simpl. lia.
  - exists w, r. split; [exact Ew|]. split; [exact Er|]. exists r'. exact E.
Defined.

(** The buffers that [Pad] cuts wrongly: their length is a multiple of 128, as the
    comment in the code asks, but the parts of the goroutines are not. *)
Theorem Pad_misaligned_parts :
  ∃ len, len mod 128 = 0 ∧ (len / mtChunkCount 4 len) mod 128 ≠ 0.
Proof. exists 1048704. split; [reflexivity|]. by vm_compute. Qed.
