(* ===== verification/TipSets.v ===== *)
(** * Tipsets and their keys (chain/types/tipset.go, tipset_key.go, blockheader.go)

    A tipset is a set of blocks with the same height and the same parents, in the
    order of their tickets; its key is the concatenation of the CIDs of the blocks.
    A [cid.Cid] is a value that holds its bytes, so it is modelled by them. *)

From Stdlib Require Import Sorted.
From stdpp Require Import strings numbers base gmap sets list.
From S2P Require Import Prelude GoStrings GoSort.
Local Open Scope Z_scope.

(** ** CIDs *)

Abbreviation Cid := string (only parsing).

(** [cid.CidFromBytes] of go-cid gives the CID at the beginning of a slice, which is the
    bytes that were read, and their number.  A CID tells its own length: bytes that
    are a CID are read as that CID whatever follows them. *)
Class CidReader := {
  CidFromBytes : string → outcome (Z * Cid);
  cid_read : ∀ s n c, CidFromBytes s = Ret (n, c) →
    c ≠ "" ∧ n = Z.of_nat (String.length c) ∧ ∃ rest, s = c +:+ rest;
  cid_prefix : ∀ s n c rest, CidFromBytes s = Ret (n, c) → CidFromBytes (c +:+ rest) = Ret (n, c);
  cid_safe : ∀ s, CidFromBytes s ≠ Crash
}.

(** ** Tipset keys *)

(** [NewTipSetKey] and [encodeKey] *)
Fixpoint encodeKey (cids : list Cid) : string :=
  match cids with
  | [] => ""
  | c :: rest => c +:+ encodeKey rest
  end.

Definition NewTipSetKey (cids : list Cid) : string := encodeKey cids.
Definition EmptyTSK : string := "".
Definition IsEmpty (key : string) : bool := bool_decide (String.length key = 0%nat).

(** [s[n:]] *)
Fixpoint dropBytes (n : nat) (s : string) : string :=
  match n, s with
  | O, _ => s
  | S k, String _ rest => dropBytes k rest
  | S _, EmptyString => ""
  end.

Section keys.
Context `{CidReader}.

(** The loop of [decodeKey] on the bytes that are left; each turn reads some of them, so
    that the length is enough fuel, and running out of it is [Crash]. *)
Fixpoint decodeLoop (fuel : nat) (encoded : string) : outcome (list Cid) :=
  if decide (encoded = "") then Ret []
  else
    match fuel with
    | O => Crash
    | S f =>
        r ← CidFromBytes encoded;
        let '(nr, c) := r in
        cids ← decodeLoop f (dropBytes (Z.to_nat nr) encoded);
        Ret (c :: cids)
    end.

Definition decodeKey (encoded : string) : outcome (list Cid) := decodeLoop (String.length encoded) encoded.

Definition TipSetKeyFromBytes (encoded : string) : outcome string :=
  _ ← decodeKey encoded; Ret encoded.

(** [TipSetKey.Cids] *)
Definition KeyCids (key : string) : outcome (list Cid) :=
  match decodeKey key with Ret cids => Ret cids | _ => Crash end.
End keys.

(** ** Blocks *)

(** The fields of a header that tipsets use, with its CID and the proof of its ticket. *)
Record BlockHeader := mkBlockHeader {
  blkCid : Cid;
  Ticket : string;
  bParents : list Cid;
  bHeight : Z;
  Timestamp : Z;
  ParentBaseFee : Z;
  Miner : string;
  bParentWeight : Z
}.

(** The flags that [for _, c := range a { s[c] = true }] sets. *)
Definition cidSet (a : list Cid) : gset string := list_to_set a.

Definition CidArrsEqual (a b : list Cid) : bool :=
  if decide (length a ≠ length b) then false else forallb (λ c, bool_decide (c ∈ cidSet a)) b.

Definition CidArrsSubset (a b : list Cid) : bool := forallb (λ c, bool_decide (c ∈ cidSet b)) a.

Definition CidArrsContains (a : list Cid) (b : Cid) : bool := existsb (λ elem, bool_decide (elem = b)) a.

Section tickets.
(** The hash [blake2b.Sum256] *)
Variable Sum256 : string → string.

Definition TicketLess (t o : string) : bool := ltb (Sum256 t) (Sum256 o).
Definition TicketEquals (t o : string) : bool := bool_decide (t = o).

(** [tipsetSortFunc] *)
Definition tipsetLess (bi bj : BlockHeader) : bool :=
  if TicketEquals (Ticket bi) (Ticket bj) then bool_decide (Compare (blkCid bi) (blkCid bj) < 0)
  else TicketLess (Ticket bi) (Ticket bj).

Record TipSet := mkTipSet { cids : list Cid; blks : list BlockHeader; height : Z }.

(** [for i, cid := range b.Parents { if cid != blks[0].Parents[i] { .. } }], where both
    have the same length. *)
Fixpoint sameParents (ps qs : list Cid) : bool :=
  match ps, qs with
  | p :: ps', q :: qs' => if decide (p ≠ q) then false else sameParents ps' qs'
  | _, _ => true
  end.

(** The loop over [blks[1:]]. *)
Fixpoint checkBlocks (first : BlockHeader) (rest : list BlockHeader) : outcome (list Cid) :=
  match rest with
  | [] => Ret []
  | b :: rest' =>
      if decide (bHeight b ≠ bHeight first) then Fail "cannot create tipset with mismatching heights"
      else if decide (length (bParents first) ≠ length (bParents b))
      then Fail "cannot create tipset with mismatching number of parents"
      else if negb (sameParents (bParents b) (bParents first))
      then Fail "cannot create tipset with mismatching parents"
      else cs ← checkBlocks first rest'; Ret (blkCid b :: cs)
  end.

Definition NewTipSet (blocks : list BlockHeader) : outcome TipSet :=
  match blocks with
  | [] => Fail "NewTipSet called with zero length array of blocks"
  | _ =>
      let sorted := sortBy tipsetLess blocks in
      match sorted with
      | [] => Crash
      | first :: rest =>
          cs ← checkBlocks first rest;
          Ret (mkTipSet (blkCid first :: cs) sorted (bHeight first))
      end
  end.

(** [MinTicketBlock] *)
Fixpoint minTicket (min : BlockHeader) (rest : list BlockHeader) : BlockHeader :=
  match rest with
  | [] => min
  | b :: rest' => minTicket (if TicketLess (Ticket b) (Ticket min) then b else min) rest'
  end.

Definition MinTicketBlock (ts : TipSet) : outcome BlockHeader :=
  match blks ts with [] => Crash | b :: rest => Ret (minTicket b rest) end.
End tickets.

(** [Key] of a tipset that may be nil. *)
Definition Key (ts : option TipSet) : string :=
  match ts with None => EmptyTSK | Some t => NewTipSetKey (cids t) end.

(** [Parents]: [ts.blks[0]] panics when there are no blocks. *)
Definition Parents (ts : TipSet) : outcome string :=
  b ← index (blks ts) 0; Ret (NewTipSetKey (bParents b)).

Fixpoint sameCids (l l' : list Cid) : bool :=
  match l, l' with
  | c :: rest, c' :: rest' => if decide (c ≠ c') then false else sameCids rest rest'
  | _, _ => true
  end.

Definition Equals (ts ots : option TipSet) : bool :=
  match ts, ots with
  | None, None => true
  | Some t, Some o =>
      if decide (height t ≠ height o) then false
      else if decide (length (cids t) ≠ length (cids o)) then false
      else sameCids (cids t) (cids o)
  | _, _ => false
  end.

Definition MinTimestamp (ts : TipSet) : outcome Z :=
  b ← index (blks ts) 0;
  Ret (foldl (λ minTs bh, if decide (Timestamp bh < minTs) then Timestamp bh else minTs) (Timestamp b) (drop 1 (blks ts))).

Definition Contains (ts : TipSet) (oc : Cid) : bool := existsb (λ c, bool_decide (c = oc)) (cids ts).

Definition IsChildOf `{CidReader} (ts parent : TipSet) : outcome bool :=
  p ← Parents ts; ps ← KeyCids p;
  Ret (CidArrsEqual ps (cids parent) && bool_decide (height parent < height ts)).

(** * Tipsets: keys are read back, and the order of the blocks does not matter *)

(** ** Keys *)

Section keys.
Context `{CidReader}.

(** Bytes that are a CID. *)
Definition validCid (c : Cid) : Prop := ∃ n, CidFromBytes c = Ret (n, c).

Lemma read_valid s n c : CidFromBytes s = Ret (n, c) → validCid c.
Proof. intros E. exists n. rewrite <- (app_empty_r c) at 1. by eapply cid_prefix. Qed.

Lemma dropBytes_app s t : dropBytes (String.length s) (s +:+ t) = t.
Proof. induction s as [|a s IH]; [by destruct t|]. rewrite app_cons. simpl. done. Qed.

Lemma app_empty_inv s t : s +:+ t = "" → s = "".
Proof. destruct s; [done|]. rewrite app_cons. done. Qed.

(** What [decodeKey] reads is what [encodeKey] wrote. *)
Lemma decodeLoop_encode l fuel : Forall validCid l → (String.length (encodeKey l) ≤ fuel)%nat →
  decodeLoop fuel (encodeKey l) = Ret l.
Proof.
  intros Hv. revert fuel. induction Hv as [|c l (n&Hc) Hl IH]; intros fuel Hf.
  - by destruct fuel.
  - cbn [encodeKey] in *. destruct (cid_read _ _ _ Hc) as (Hne&Hn&_).
    rewrite length_app_str in Hf. destruct c as [|a c']; [done|]. destruct fuel as [|f]; [simpl in Hf; lia|].
    cbn [decodeLoop]. rewrite decide_False by (rewrite app_cons; done).
    rewrite (cid_prefix _ _ _ _ Hc), bind_ret_l. rewrite Hn, Nat2Z.id, dropBytes_app, IH by (simpl in Hf; lia). done.
Qed.

Lemma decodeLoop_inv fuel s l : decodeLoop fuel s = Ret l → Forall validCid l ∧ encodeKey l = s.
Proof.
  revert s l. induction fuel as [|f IH]; intros s l; cbn [decodeLoop]; (case_decide as Hs; [intros [= <-]; by subst|]); [done|].
  intros Hd. apply bind_ret_inv in Hd as ([n c]&Hc&Hd). apply bind_ret_inv in Hd as (l'&Hl&[= <-]).
  destruct (cid_read _ _ _ Hc) as (Hne&Hn&rest&->). rewrite Hn, Nat2Z.id, dropBytes_app in Hl.
  destruct (IH _ _ Hl) as [Hv He]. split; [constructor; [by eapply read_valid|done]|]. simpl. by rewrite He.
Qed.

(** The fuel is enough: each turn reads at least one byte. *)
Lemma decodeLoop_safe fuel s : (String.length s ≤ fuel)%nat → decodeLoop fuel s ≠ Crash.
Proof.
  revert s. induction fuel as [|f IH]; intros s Hf; cbn [decodeLoop]; (case_decide as Hs; [done|]).
  - by destruct s; [|simpl in Hf; lia].
  - destruct (CidFromBytes s) as [[n c]| |] eqn:Hc; [|done|by destruct (cid_safe s)]. rewrite bind_ret_l.
    destruct (cid_read _ _ _ Hc) as (Hne&Hn&rest&->). rewrite Hn, Nat2Z.id, dropBytes_app.
    rewrite length_app_str in Hf. destruct c as [|a c]; [done|]. simpl in Hf.
    specialize (IH rest ltac:(lia)). by destruct (decodeLoop f rest).
Qed.

(** Tipset keys are read back: the CIDs of a key are those it was made of, the bytes
    that are accepted as a key are exactly the encodings of CIDs, other bytes give an
    error and never a panic, and two keys are equal only for equal CIDs. *)
Theorem tipset_keys_roundtrip :
  (∀ l, Forall validCid l → decodeKey (NewTipSetKey l) = Ret l ∧ KeyCids (NewTipSetKey l) = Ret l) ∧
  (∀ s k, TipSetKeyFromBytes s = Ret k ↔ k = s ∧ ∃ l, Forall validCid l ∧ NewTipSetKey l = s) ∧
  (∀ s, TipSetKeyFromBytes s ≠ Crash) ∧
  (∀ l l', Forall validCid l → Forall validCid l' → NewTipSetKey l = NewTipSetKey l' → l = l').
Proof.
  assert (∀ l, Forall validCid l → decodeKey (NewTipSetKey l) = Ret l) as Hrt by (intros l Hl; by apply decodeLoop_encode).
  split_and!.
  - intros l Hl. split; [by apply Hrt|]. unfold KeyCids. by rewrite Hrt.
  - intros s k. unfold TipSetKeyFromBytes. split.
    + intros (l&Hd&[= <-])%bind_ret_inv. split; [done|]. exists l. by apply decodeLoop_inv in Hd.
    + intros (->&l&Hl&<-). by rewrite Hrt.
  - intros s. unfold TipSetKeyFromBytes, decodeKey. pose proof (decodeLoop_safe (String.length s) s (le_n _)).
    by destruct (decodeLoop _ s).
  - intros l l' Hl Hl' E. apply Hrt in Hl, Hl'. rewrite E, Hl' in Hl. by injection Hl.
Qed.
End keys.

(** ** Comparing *)

Lemma sameCids_eq l l' : length l = length l' → (sameCids l l' = true ↔ l = l').
Proof.
  revert l'. induction l as [|c l IH]; intros [|c' l'] Hl; simpl in *; try done.
  case_decide as Hc; [|subst; rewrite IH by lia]; naive_solver.
Qed.

Lemma sameParents_eq l l' : length l = length l' → (sameParents l l' = true ↔ l = l').
Proof.
  revert l'. induction l as [|c l IH]; intros [|c' l'] Hl; simpl in *; try done.
  case_decide as Hc; [|subst; rewrite IH by lia]; naive_solver.
Qed.

(** [Equals] compares heights and CIDs, and a nil tipset equals only itself. *)
Lemma Equals_iff ts ots : Equals ts ots = true ↔
  match ts, ots with
  | None, None => True
  | Some t, Some o => height t = height o ∧ cids t = cids o
  | _, _ => False
  end.
Proof.
  destruct ts as [t|], ots as [o|]; simpl; [|done..]. case_decide; [naive_solver|].
  case_decide as Hl; [split; [done|]; intros [_ E]; rewrite E in Hl; done|].
  rewrite sameCids_eq by done. naive_solver.
Qed.

(** ** The order of blocks *)

Section order.
Variable Sum256 : string → string.

(** The hash separates the tickets of the blocks. *)
Definition separated (l : list BlockHeader) : Prop :=
  ∀ b b', b ∈ l → b' ∈ l → Sum256 (Ticket b) = Sum256 (Ticket b') → Ticket b = Ticket b'.

(** The comparison is lexicographic: the hash of the ticket, then the CID. *)
Lemma tipsetLess_lex b b' : (Sum256 (Ticket b) = Sum256 (Ticket b') → Ticket b = Ticket b') →
  tipsetLess Sum256 b b' = true ↔
  ltb (Sum256 (Ticket b)) (Sum256 (Ticket b')) = true ∨ (Ticket b = Ticket b' ∧ ltb (blkCid b) (blkCid b') = true).
Proof.
  intros Hsep. unfold tipsetLess, TicketEquals, TicketLess. case_bool_decide as Ht.
  - rewrite Ht, ltb_irrefl. unfold ltb. naive_solver.
  - naive_solver.
Qed.

Lemma ltb_asym s t : ltb s t = true → ltb t s = false.
Proof. intros H. apply not_true_iff_false. intros H'. pose proof (ltb_trans _ _ _ H H') as E. by rewrite ltb_irrefl in E. Qed.

Context (l : list BlockHeader) (Hsep : separated l).

Lemma tipsetLess_asym b b' : b ∈ l → b' ∈ l → tipsetLess Sum256 b b' = true → tipsetLess Sum256 b' b = false.
Proof.
  intros Hb Hb' Hl. apply not_true_iff_false. intros Hl'.
  rewrite tipsetLess_lex in Hl, Hl' by auto.
  destruct Hl as [H1|[E1 H1]], Hl' as [H2|[E2 H2]].
  - by rewrite (ltb_asym _ _ H1) in H2.
  - rewrite E2, ltb_irrefl in H1. done.
  - rewrite E1, ltb_irrefl in H2. done.
  - by rewrite (ltb_asym _ _ H1) in H2.
Qed.

(** Blocks that come one before the other, or are equivalent. *)
Lemma tipsetLess_total b b' : b ∈ l → b' ∈ l → tipsetLess Sum256 b b' = false → tipsetLess Sum256 b' b = false →
  Ticket b = Ticket b' ∧ blkCid b = blkCid b'.
Proof.
  intros Hb Hb' Hl Hl'. apply not_true_iff_false in Hl, Hl'. rewrite tipsetLess_lex in Hl, Hl' by auto.
  destruct (ltb_total (Sum256 (Ticket b)) (Sum256 (Ticket b'))) as [E|[E|E]]; [|tauto..].
  assert (Ticket b = Ticket b') as Et by auto. split; [done|].
  destruct (ltb_total (blkCid b) (blkCid b')) as [Ec|[Ec|Ec]]; [done|exfalso; naive_solver..].
Qed.

Lemma tipsetLess_trans' a b c : a ∈ l → b ∈ l → c ∈ l →
  tipsetLess Sum256 a b = true → tipsetLess Sum256 b c = true → tipsetLess Sum256 a c = true.
Proof.
  intros Ha Hb Hc H1 H2. rewrite tipsetLess_lex in * by auto.
  destruct H1 as [H1|[E1 H1]], H2 as [H2|[E2 H2]].
  - left. by eapply ltb_trans.
  - left. by rewrite <- E2.
  - left. by rewrite E1.
  - right. split; [congruence|]. by eapply ltb_trans.
Qed.

Lemma tipsetLess_trans a b c : a ∈ l → b ∈ l → c ∈ l →
  tipsetLess Sum256 b a = false → tipsetLess Sum256 c b = false → tipsetLess Sum256 c a = false.
Proof.
  intros Ha Hb Hc H1 H2. apply not_true_iff_false. intros H3.
  destruct (tipsetLess Sum256 a b) eqn:H4.
  - by rewrite (tipsetLess_trans' c a b) in H2.
  - destruct (tipsetLess_total a b) as [Et Ec]; [done..|].
    assert (tipsetLess Sum256 c b = true); [|congruence].
    rewrite tipsetLess_lex in H3 |- * by auto. by rewrite <- Et, <- Ec.
Qed.
End order.

(** ** Making tipsets *)

Section making.
Variable Sum256 : string → string.

(** A block fits to the others of a tipset. *)
Definition fits (first b : BlockHeader) : Prop := bHeight b = bHeight first ∧ bParents b = bParents first.

Lemma checkBlocks_iff first rest cs :
  checkBlocks first rest = Ret cs ↔ Forall (fits first) rest ∧ cs = map blkCid rest.
Proof.
  revert cs. induction rest as [|b rest IH]; intros cs; cbn [checkBlocks map].
  - split; [intros [= <-]; by split|by intros [_ ->]].
  - rewrite Forall_cons. unfold fits at 1.
    case_decide as Hh; [split; [done|by intros [[[? ?] ?] ?]]|].
    case_decide as Hl; [split; [done|intros [[[_ E] _] _]; rewrite E in Hl; done]|].
    destruct (sameParents (bParents b) (bParents first)) eqn:Hp; simpl.
    + apply sameParents_eq in Hp; [|done]. split.
      * intros (cs'&Hcs&[= <-])%bind_ret_inv. apply IH in Hcs as [Hf ->]. done.
      * intros [[_ Hf] ->]. by rewrite (proj2 (IH (map blkCid rest))).
    + split; [done|]. intros [[[_ E] _] _]. apply not_true_iff_false in Hp. rewrite sameParents_eq in Hp by done. done.
Qed.

(** What a tipset is made of. *)
Definition wfTipSet (ts : TipSet) : Prop :=
  cids ts = map blkCid (blks ts) ∧ Forall (λ b, bHeight b = height ts) (blks ts) ∧
  ∃ ps, Parents ts = Ret (NewTipSetKey ps) ∧ Forall (λ b, bParents b = ps) (blks ts).

(** With distinct CIDs a block is determined by its CID. *)
Lemma cid_determines l b b' : NoDup (map blkCid l) → b ∈ l → b' ∈ l → blkCid b = blkCid b' → b = b'.
Proof.
  intros Hnd (i&Hi)%list_elem_of_lookup (j&Hj)%list_elem_of_lookup E. assert (i = j) as ->; [|congruence].
  eapply NoDup_lookup; [exact Hnd|..]; rewrite list_lookup_fmap; [by rewrite Hi|by rewrite Hj, E].
Qed.

Lemma sortBlocks_unique l l' : separated Sum256 l → NoDup (map blkCid l) → l ≡ₚ l' →
  sortBy (tipsetLess Sum256) l' = sortBy (tipsetLess Sum256) l.
Proof.
  intros Hsep Hnd Hp. symmetry. apply sortBy_unique; [..|done].
  - by apply tipsetLess_asym.
  - by apply tipsetLess_trans.
  - intros b b' Hb Hb' H1 H2. apply (cid_determines l); [done..|]. by eapply tipsetLess_total.
Qed.

(** A tipset is made of the sorted blocks. *)
Lemma NewTipSet_sorted l : l ≠ [] → ∃ first rest, sortBy (tipsetLess Sum256) l = first :: rest ∧ first :: rest ≡ₚ l ∧
  NewTipSet Sum256 l = (cs ← checkBlocks first rest; Ret (mkTipSet (blkCid first :: cs) (first :: rest) (bHeight first))).
Proof.
  intros Hne. pose proof (sortBy_Permutation (tipsetLess Sum256) l) as Hp. unfold NewTipSet.
  destruct l as [|b l]; [done|]. destruct (sortBy _ _) as [|first rest]; [by apply Permutation_nil_l in Hp|eauto].
Qed.

(** C24. A tipset does not depend on the order in which its blocks are given: with distinct
    blocks whose tickets the hash separates, all orders give the same tipset or the
    same error; a tipset is made exactly of blocks with one height and one list of
    parents, and of all of them. *)
Theorem NewTipSet_canonical l : separated Sum256 l → NoDup (map blkCid l) →
  (∀ l', l ≡ₚ l' → NewTipSet Sum256 l' = NewTipSet Sum256 l) ∧
  ((∃ ts, NewTipSet Sum256 l = Ret ts) ↔ ∃ b, b ∈ l ∧ Forall (fits b) l) ∧
  (∀ ts, NewTipSet Sum256 l = Ret ts → wfTipSet ts ∧ blks ts ≡ₚ l).
Proof.
  intros Hsep Hnd. destruct (decide (l = [])) as [->|Hne].
  { split_and!; [intros l' Hp; by apply Permutation_nil_l in Hp as <-|split; [by intros []|set_solver]|done]. }
  destruct (NewTipSet_sorted l Hne) as (first&rest&Es&Hperm&Enew). split_and!.
  - intros l' Hp. destruct (NewTipSet_sorted l') as (first'&rest'&Es'&_&Enew').
    { intros ->. by apply Permutation_nil_r in Hp. }
    rewrite (sortBlocks_unique l l' Hsep Hnd Hp), Es in Es'. injection Es' as <- <-. congruence.
  - rewrite Enew. split.
    + intros (ts&(cs&Hc&_)%bind_ret_inv). apply checkBlocks_iff in Hc as [Hf _]. exists first.
      split; [rewrite <- Hperm; by left|]. rewrite <- Hperm. by constructor.
    + intros (b&Hb&Hf). rewrite <- Hperm in Hf. apply Forall_cons in Hf as [[F1 F2] Hf].
      rewrite (proj2 (checkBlocks_iff first rest (map blkCid rest))); [eauto|]. split; [|done].
      eapply Forall_impl; [done|]. intros b' [F3 F4]. split; congruence.
  - intros ts Hts. rewrite Enew in Hts. apply bind_ret_inv in Hts as (cs&Hc&[= <-]). apply checkBlocks_iff in Hc as [Hf ->].
    split; [|done]. split_and!; simpl; [done|..].
    + constructor; [done|]. eapply Forall_impl; [done|]. by intros b' [? _].
    + exists (bParents first). split; [done|]. constructor; [done|]. eapply Forall_impl; [done|]. by intros b' [_ ?].
Qed.
End making.

(** ** Examples *)

(** CIDs of one byte. *)
#[local] Program Instance byteCids : CidReader := {|
  CidFromBytes := λ s, match s with String a _ => Ret (1, String a "") | "" => Fail "cid too short" end
|}.
Next Obligation. intros [|a s] n c; [done|]. intros [= <- <-]. split_and!; [done..|]. by exists s. Qed.
Next Obligation. intros [|a s] n c rest; [done|]. by intros [= <- <-]. Qed.
Next Obligation. by intros []. Qed.

Lemma tipset_keys_roundtrip_witness : decodeKey (NewTipSetKey ["a"; "b"]) = Ret ["a"; "b"].
Proof. apply (proj1 tipset_keys_roundtrip). repeat constructor; by exists 1. Defined.

Definition exHeader (c t : string) : BlockHeader := mkBlockHeader c t ["p"] 7 100 100 c 0.

Lemma NewTipSet_canonical_witness :
  NewTipSet id [exHeader "y" "u"; exHeader "x" "t"] = NewTipSet id [exHeader "x" "t"; exHeader "y" "u"] ∧
  ∃ ts, NewTipSet id [exHeader "x" "t"; exHeader "y" "u"] = Ret ts ∧ Key (Some ts) = "xy".
Proof.
  destruct (NewTipSet_canonical id [exHeader "x" "t"; exHeader "y" "u"]) as (Hp&_&_).
  - by intros b b' _ _ E.
  - by apply (bool_decide_unpack _).
  - split; [apply Hp; apply Permutation_swap|]. eexists. split; [vm_compute; reflexivity|reflexivity].
Defined.
