(* ===== verification/GasFees.v ===== *)
(** * Gas fees (chain/store/basefee.go, chain/vm/burn.go, chain/types/message.go)

    The base fee follows how full the blocks are, and the funds that a message
    brings for its gas are split into burns, the miner's tip and a refund.
    Amounts are big integers; gas is an [int64] with its wrap-around. *)

From stdpp Require Import strings numbers base gmap sets list.
From S2P Require Import Prelude GoStrings TipSets.
Local Open Scope Z_scope.

(** ** Arithmetic *)

(** [big.Div] of go-state-types is [Div] of math/big, which rounds down for a
    positive divisor. *)
Class BigDiv := {
  bigDiv : Z → Z → Z;
  bigDiv_law : ∀ a b, 0 < b → bigDiv a b = a / b
}.

(** [a / b] on [int64] *)
Definition divInt64 (a b : Z) : outcome Z :=
  if decide (b = 0) then Crash else Ret (wrapInt64 (Z.quot a b)).

Definition int64 (z : Z) : Prop := minInt64 ≤ z ≤ maxInt64.

(** ** Network parameters *)

Definition BlockGasLimit : Z := 10000000000.
Definition BlockGasTarget : Z := BlockGasLimit / 2.
Definition BaseFeeMaxChangeDenom : Z := 8.
Definition MinimumBaseFee : Z := 100.
Definition PackingEfficiencyNum : Z := 4.
Definition PackingEfficiencyDenom : Z := 5.
Definition FilBase : Z := 2000000000.
Definition FilecoinPrecision : Z := 1000000000000000000.
Definition TotalFilecoinInt : Z := FilBase * FilecoinPrecision.

(** ** The base fee *)

Section basefee.
Context `{BigDiv}.
(** The heights of the upgrades differ from network to network. *)
Variables UpgradeSmokeHeight UpgradeBreezeHeight BreezeGasTampingDuration : Z.

Definition ComputeNextBaseFee (baseFee gasLimitUsed noOfBlocks epoch : Z) : outcome Z :=
  delta0 ← (if decide (UpgradeSmokeHeight < epoch) then divInt64 gasLimitUsed noOfBlocks
            else divInt64 (wrapInt64 (PackingEfficiencyDenom * gasLimitUsed))
                          (wrapInt64 (noOfBlocks * PackingEfficiencyNum)));
  let delta1 := wrapInt64 (delta0 - BlockGasTarget) in
  let delta2 := if decide (BlockGasTarget < delta1) then BlockGasTarget else delta1 in
  let delta := if decide (delta2 < - BlockGasTarget) then - BlockGasTarget else delta2 in
  let change0 := baseFee * delta in
  let change1 := bigDiv change0 BlockGasTarget in
  let change := bigDiv change1 BaseFeeMaxChangeDenom in
  let nextBaseFee := baseFee + change in
  if decide (nextBaseFee < MinimumBaseFee) then Ret MinimumBaseFee else Ret nextBaseFee.

(** What the base fee needs of messages of either kind. *)
Record BlockMsg := mkBlockMsg { mCid : Cid; mGasLimit : Z }.

(** The chain store: the BLS and the secp messages of a block. *)
Variable MessagesForBlock : BlockHeader → outcome (list BlockMsg * list BlockMsg).

(** The loop over the messages of one kind. *)
Fixpoint addLimits (st : gset string * Z) (msgs : list BlockMsg) : gset string * Z :=
  match msgs with
  | [] => st
  | m :: rest =>
      let '(seen, totalLimit) := st in
      addLimits (if decide (mCid m ∈ seen) then st
                 else ({[mCid m]} ∪ seen, wrapInt64 (totalLimit + mGasLimit m))) rest
  end.

(** The loop over the blocks. *)
Fixpoint blockLimits (st : gset string * Z) (blocks : list BlockHeader) : outcome (gset string * Z) :=
  match blocks with
  | [] => Ret st
  | b :: rest =>
      match MessagesForBlock b with
      | Ret (msg1, msg2) => blockLimits (addLimits (addLimits st msg1) msg2) rest
      | Fail err => Fail ("error getting messages for: " +:+ blkCid b +:+ ": " +:+ err)
      | Crash => Crash
      end
  end.

Definition ComputeBaseFee (ts : TipSet) : outcome Z :=
  if decide (0 ≤ UpgradeBreezeHeight ∧ UpgradeBreezeHeight < height ts ∧
             height ts < UpgradeBreezeHeight + BreezeGasTampingDuration)
  then Ret 100
  else
    st ← blockLimits (∅, 0) (blks ts);
    b ← index (blks ts) 0;
    ComputeNextBaseFee (ParentBaseFee b) st.2 (Z.of_nat (length (blks ts))) (height ts).
End basefee.

(** ** Burns, tips and refunds *)

Definition gasOveruseNum : Z := 11.
Definition gasOveruseDenom : Z := 10.

Record GasOutputs := mkGasOutputs {
  BaseFeeBurn : Z;
  OverEstimationBurn : Z;
  MinerPenalty : Z;
  MinerTip : Z;
  Refund : Z;
  GasRefund : Z;
  GasBurned : Z
}.

Section burn.
Context `{BigDiv}.

(** The result is (refund, burn). *)
Definition ComputeGasOverestimationBurn (gasUsed gasLimit : Z) : outcome (Z * Z) :=
  if decide (gasUsed = 0) then Ret (0, gasLimit)
  else
    q ← divInt64 (wrapInt64 (gasOveruseNum * gasUsed)) gasOveruseDenom;
    let over0 := wrapInt64 (gasLimit - q) in
    if decide (over0 < 0) then Ret (wrapInt64 (gasLimit - gasUsed), 0)
    else
      let over := if decide (gasUsed < over0) then gasUsed else over0 in
      let gasToBurn := bigDiv (wrapInt64 (gasLimit - gasUsed) * over) gasUsed in
      Ret (wrapInt64 (wrapInt64 (gasLimit - gasUsed) - wrapInt64 gasToBurn), wrapInt64 gasToBurn).

Definition ComputeGasOutputs (gasUsed gasLimit baseFee feeCap gasPremium : Z) (chargeNetworkFee : bool) :
    outcome GasOutputs :=
  let baseFeeToPay := if decide (feeCap < baseFee) then feeCap else baseFee in
  let penalty0 := if decide (feeCap < baseFee) then (baseFee - feeCap) * gasUsed else 0 in
  let baseFeeBurn := if chargeNetworkFee then baseFeeToPay * gasUsed else 0 in
  let tip := if decide (feeCap < baseFeeToPay + gasPremium) then feeCap - baseFeeToPay else gasPremium in
  let minerTip := tip * gasLimit in
  r ← ComputeGasOverestimationBurn gasUsed gasLimit;
  let '(gasRefund, gasBurned) := r in
  let overBurn := if decide (gasBurned ≠ 0) then baseFeeToPay * gasBurned else 0 in
  let penalty := if decide (gasBurned ≠ 0) then penalty0 + (baseFee - baseFeeToPay) * gasBurned else penalty0 in
  let requiredFunds := gasLimit * feeCap in
  Ret (mkGasOutputs baseFeeBurn overBurn penalty minerTip
         (requiredFunds - baseFeeBurn - minerTip - overBurn) gasRefund gasBurned).
End burn.

(** ** Messages *)

Section message.
(** Addresses are those of go-address. *)
Context {Address : Type} `{EqDecision Address}.
Variables Undef ZeroAddress : Address.

(** The fields that are checked; an amount can be nil. *)
Record Message := mkMessage {
  Version : Z;
  To : Address;
  From : Address;
  Value : option Z;
  GasLimit : Z;
  GasFeeCap : option Z;
  GasPremium : option Z
}.

(** [None] is the error nil. *)
Definition ValidForBlockInclusion (m : Message) (minGas version : Z) : option string :=
  if decide (Version m ≠ 0) then Some "'Version' unsupported"
  else if decide (To m = Undef) then Some "'To' address cannot be empty"
  else if decide (To m = ZeroAddress ∧ 7 ≤ version) then Some "invalid 'To' address"
  else if decide (From m = Undef) then Some "'From' address cannot be empty"
  else
    match Value m with
    | None => Some "'Value' cannot be nil"
    | Some value =>
        if decide (value < 0) then Some "'Value' field cannot be negative"
        else if decide (TotalFilecoinInt < value) then Some "'Value' field cannot be greater than total filecoin supply"
        else
          match GasFeeCap m with
          | None => Some "'GasFeeCap' cannot be nil"
          | Some feeCap =>
              if decide (feeCap < 0) then Some "'GasFeeCap' field cannot be negative"
              else
                match GasPremium m with
                | None => Some "'GasPremium' cannot be nil"
                | Some premium =>
                    if decide (premium < 0) then Some "'GasPremium' field cannot be negative"
                    else if decide (feeCap < premium) then Some "'GasFeeCap' less than 'GasPremium'"
                    else if decide (BlockGasLimit < GasLimit m)
                    then Some ("'GasLimit' field cannot be greater than a block's gas limit (" +:+
                               Itoa (GasLimit m) +:+ " > " +:+ Itoa BlockGasLimit +:+ ")")
                    else if decide (GasLimit m < minGas)
                    then Some ("'GasLimit' field cannot be less than the cost of storing a message on chain " +:+
                               Itoa (GasLimit m) +:+ " < " +:+ Itoa minGas)
                    else None
                end
          end
    end.
End message.
