(* ===== verification/GasFeesSpec.v ===== *)
(** * Gas fees: the base fee is bounded and the funds of a message are conserved *)

From stdpp Require Import strings numbers base gmap sets list.
From S2P Require Import Prelude GoStrings TipSets GasFees.
Local Open Scope Z_scope.

(** ** Arithmetic *)

Lemma quot_pos a b : 0 ≤ a → 0 < b → Z.quot a b = a / b.
Proof. intros. apply Z.quot_div_nonneg; lia. Qed.

(** Division of non-negative numbers on [int64] is exact division. *)
Lemma divInt64_pos a b : int64 a → 0 ≤ a → 0 < b → divInt64 a b = Ret (a / b).
Proof.
  intros Ha H0 Hb. unfold divInt64. rewrite decide_False by lia. rewrite quot_pos by lia.
  rewrite wrapInt64_id; [done|]. unfold int64, minInt64, maxInt64 in *.
  pose proof (Z.div_pos a b H0 Hb). pose proof (Z.div_le_upper_bound a b a Hb ltac:(nia)). lia.
Qed.

Lemma wrapInt64_add a b : wrapInt64 (wrapInt64 a + b) = wrapInt64 (a + b).
Proof.
  unfold wrapInt64. f_equal.
  replace ((a + 2 ^ 63) mod 2 ^ 64 - 2 ^ 63 + b + 2 ^ 63) with ((a + 2 ^ 63) mod 2 ^ 64 + b) by lia.
  rewrite Zplus_mod_idemp_l. f_equal. lia.
Qed.

Lemma wrapInt64_idem a : wrapInt64 (wrapInt64 a) = wrapInt64 a.
Proof. rewrite <- (Z.add_0_r (wrapInt64 a)) at 1. by rewrite wrapInt64_add, Z.add_0_r. Qed.

(** ** The base fee *)

Section basefee.
Context `{BigDiv}.
Variables UpgradeSmokeHeight UpgradeBreezeHeight BreezeGasTampingDuration : Z.

(** The gas of a block on average, corrected for packing before the upgrade. *)
Definition blockFill (gas blocks epoch : Z) : Z :=
  if decide (UpgradeSmokeHeight < epoch) then gas / blocks else 5 * gas / (4 * blocks).

Definition clamp (lo hi x : Z) : Z := Z.max lo (Z.min hi x).

(** The fee after a change in proportion to how far the blocks are from the target. *)
Definition adjustedFee (baseFee fill : Z) : Z :=
  Z.max MinimumBaseFee
    (baseFee + baseFee * clamp (- BlockGasTarget) BlockGasTarget (fill - BlockGasTarget)
               / (BaseFeeMaxChangeDenom * BlockGasTarget)).

Lemma target_value : BlockGasTarget = 5000000000.
Proof. reflexivity. Qed.

(** The gas of a tipset, far from overflow. *)
Definition gasRange (gas blocks : Z) : Prop :=
  0 ≤ gas ∧ 5 * gas ≤ maxInt64 ∧ 0 < blocks ∧ 4 * blocks ≤ maxInt64.

Lemma ComputeNextBaseFee_adjusts baseFee gas blocks epoch : gasRange gas blocks →
  ComputeNextBaseFee UpgradeSmokeHeight baseFee gas blocks epoch = Ret (adjustedFee baseFee (blockFill gas blocks epoch)).
Proof.
  intros (Hg&Hg'&Hb&Hb'). unfold maxInt64 in *. unfold ComputeNextBaseFee, PackingEfficiencyDenom, PackingEfficiencyNum.
  assert ((if decide (UpgradeSmokeHeight < epoch) then divInt64 gas blocks
           else divInt64 (wrapInt64 (5 * gas)) (wrapInt64 (blocks * 4))) = Ret (blockFill gas blocks epoch)) as ->.
  { unfold blockFill. rewrite !wrapInt64_id by (unfold minInt64, maxInt64; lia).
    rewrite (Z.mul_comm blocks). case_decide; apply divInt64_pos; unfold int64, minInt64, maxInt64; lia. }
  rewrite bind_ret_l. assert (0 ≤ blockFill gas blocks epoch ≤ 5 * gas).
  { unfold blockFill. case_decide; (split; [apply Z.div_pos|apply Z.div_le_upper_bound]); nia. }
  generalize dependent (blockFill gas blocks epoch). intros fill Hfill.
  rewrite (wrapInt64_id (fill - BlockGasTarget)) by (rewrite target_value; unfold minInt64, maxInt64; lia).
  assert ((let d := if decide (BlockGasTarget < fill - BlockGasTarget) then BlockGasTarget else fill - BlockGasTarget in
           if decide (d < - BlockGasTarget) then - BlockGasTarget else d)
          = clamp (- BlockGasTarget) BlockGasTarget (fill - BlockGasTarget)) as Ec.
  { rewrite target_value. unfold clamp. cbv zeta. repeat case_decide; lia. }
  cbv zeta in *. rewrite Ec, !bigDiv_law by done. rewrite Z.div_div by done.
  rewrite (Z.mul_comm BlockGasTarget). unfold adjustedFee. clear Ec. case_decide; f_equal; lia.
Qed.

(** The bounds on an adjustment. *)
Lemma adjustedFee_bounds baseFee fill : MinimumBaseFee ≤ baseFee →
  MinimumBaseFee ≤ adjustedFee baseFee fill ∧
  7 * baseFee - 7 ≤ 8 * adjustedFee baseFee fill ≤ 9 * baseFee.
Proof.
  unfold adjustedFee, MinimumBaseFee, BaseFeeMaxChangeDenom. intros Hb.
  set (c := clamp _ _ _). assert (- BlockGasTarget ≤ c ≤ BlockGasTarget) as Hc.
  { unfold c, clamp. rewrite target_value. lia. }
  assert (- (baseFee + 7) ≤ 8 * (baseFee * c / (8 * BlockGasTarget)) ≤ baseFee) as Hd.
  { rewrite target_value in *. change (8 * 5000000000) with 40000000000. set (q := _ / 40000000000).
    pose proof (Z.mul_div_le (baseFee * c) 40000000000 eq_refl) as H1.
    pose proof (Z.mul_succ_div_gt (baseFee * c) 40000000000 eq_refl) as H2.
    fold q in H1, H2. split; nia. }
  lia.
Qed.

Lemma adjustedFee_mono baseFee fill fill' : 0 ≤ baseFee → fill ≤ fill' →
  adjustedFee baseFee fill ≤ adjustedFee baseFee fill'.
Proof.
  intros Hb Hf. unfold adjustedFee. apply Z.max_le_compat_l, Z.add_le_mono_l, Z.div_le_mono; [done|].
  apply Z.mul_le_mono_nonneg_l; [done|]. unfold clamp. lia.
Qed.

Lemma adjustedFee_points baseFee : MinimumBaseFee ≤ baseFee →
  adjustedFee baseFee BlockGasTarget = baseFee ∧
  adjustedFee baseFee BlockGasLimit = baseFee + baseFee / 8.
Proof.
  intros Hb. unfold adjustedFee, clamp, MinimumBaseFee in *. split.
  - change (Z.max _ (Z.min BlockGasTarget (BlockGasTarget - BlockGasTarget))) with 0.
    rewrite Z.mul_0_r, Z.div_0_l by done. lia.
  - change (Z.max _ (Z.min BlockGasTarget (BlockGasLimit - BlockGasTarget))) with BlockGasTarget.
    rewrite Z.div_mul_cancel_r by done. unfold BaseFeeMaxChangeDenom.
    pose proof (Z.div_pos baseFee 8 ltac:(lia) eq_refl). lia.
Qed.

(** C26. The next base fee is defined for every tipset within the range of gas, is never
    below the minimum, changes by at most an eighth, stays when the blocks are filled
    to the target, grows by an eighth when they are full, and is higher the fuller
    they are. *)
Theorem base_fee_follows_fill baseFee gas gas' blocks epoch :
  MinimumBaseFee ≤ baseFee → gasRange gas blocks → gasRange gas' blocks → gas ≤ gas' →
  let fill := blockFill gas blocks epoch in
  ∃ f f', ComputeNextBaseFee UpgradeSmokeHeight baseFee gas blocks epoch = Ret f ∧
    ComputeNextBaseFee UpgradeSmokeHeight baseFee gas' blocks epoch = Ret f' ∧ f ≤ f' ∧
    MinimumBaseFee ≤ f ∧ 7 * baseFee - 7 ≤ 8 * f ≤ 9 * baseFee ∧
    (fill = BlockGasTarget → f = baseFee) ∧ (fill = BlockGasLimit → f = baseFee + baseFee / 8).
Proof.
  intros Hb Hg Hg' Hle fill. exists (adjustedFee baseFee fill), (adjustedFee baseFee (blockFill gas' blocks epoch)).
  rewrite !ComputeNextBaseFee_adjusts by done. destruct (adjustedFee_bounds baseFee fill Hb) as [H1 H2].
  destruct (adjustedFee_points baseFee Hb) as [P1 P2]. split_and!; try done; try lia; try congruence.
  apply adjustedFee_mono; [unfold MinimumBaseFee in *; lia|]. destruct Hg as (?&?&?&?), Hg' as (?&?&?&?).
  unfold fill, blockFill. case_decide; apply Z.div_le_mono; lia.
Qed.

(** ** Gas of a tipset *)

Variable MessagesForBlock : BlockHeader → outcome (list BlockMsg * list BlockMsg).

Definition sumLimits (ms : list BlockMsg) : Z := foldr (λ m s, mGasLimit m + s) 0 ms.

(** A CID determines the message. *)
Definition addressed (ms : list BlockMsg) : Prop :=
  ∀ m m', m ∈ ms → m' ∈ ms → mCid m = mCid m' → m = m'.

(** The messages that are counted, in order. *)
Fixpoint counted (seen : gset string) (ms : list BlockMsg) : list BlockMsg :=
  match ms with
  | [] => []
  | m :: rest => if decide (mCid m ∈ seen) then counted seen rest else m :: counted ({[mCid m]} ∪ seen) rest
  end.

Lemma addLimits_counted ms seen total : wrapInt64 total = total →
  (addLimits (seen, total) ms).2 = wrapInt64 (total + sumLimits (counted seen ms)).
Proof.
  revert seen total. induction ms as [|m ms IH]; intros seen total Ht; simpl; [by rewrite Z.add_0_r|].
  case_decide; [by apply IH|]. rewrite IH; simpl.
  - rewrite wrapInt64_add. f_equal. lia.
  - apply wrapInt64_idem.
Qed.

Lemma addLimits_app st ms ms' : addLimits st (ms ++ ms') = addLimits (addLimits st ms) ms'.
Proof. revert st. induction ms as [|m ms IH]; intros [seen total]; [done|]. simpl. apply IH. Qed.

Lemma counted_spec ms seen :
  NoDup (mCid <$> counted seen ms) ∧
  (∀ m, m ∈ counted seen ms → m ∈ ms ∧ mCid m ∉ seen) ∧
  (∀ m, m ∈ ms → mCid m ∉ seen → ∃ m', m' ∈ counted seen ms ∧ mCid m' = mCid m).
Proof.
  revert seen. induction ms as [|m ms IH]; intros seen; simpl; [split_and!; [constructor|set_solver..]|].
  case_decide as Hm.
  - destruct (IH seen) as (N&I&C). split_and!; [done|set_solver|].
    intros m' [->|Hm']%elem_of_cons Hs; [done|eauto].
  - destruct (IH ({[mCid m]} ∪ seen)) as (N&I&C). split_and!.
    + simpl. constructor; [|done]. intros (m'&E&Hm'%I)%list_elem_of_fmap. set_solver.
    + intros m' [->|Hm'%I]%elem_of_cons; set_solver.
    + intros m' [->|Hm']%elem_of_cons Hs; [exists m; set_solver|].
      destruct (decide (mCid m' = mCid m)) as [E|E]; [exists m; set_solver|].
      destruct (C m' Hm') as (m''&?&?); set_solver.
Qed.

(** Under content addressing the counted messages are the distinct ones. *)
Lemma counted_distinct ms ms' : addressed ms → NoDup (mCid <$> ms') → (∀ m, m ∈ ms' ↔ m ∈ ms) →
  counted ∅ ms ≡ₚ ms'.
Proof.
  intros Ha N E. destruct (counted_spec ms ∅) as (Nc&I&C).
  apply NoDup_Permutation; [by eapply NoDup_fmap_1|by eapply NoDup_fmap_1|].
  intros m. rewrite E. split; [intros Hm; by apply I|].
  intros Hm. destruct (C m Hm) as (m'&Hm'&Em); [set_solver|].
  rewrite <- (Ha m' m); [done| |done..]. by apply I.
Qed.

Lemma sumLimits_perm ms ms' : ms ≡ₚ ms' → sumLimits ms = sumLimits ms'.
Proof. induction 1; unfold sumLimits in *; simpl in *; lia. Qed.

(** The messages of the blocks, when all of them load. *)
Fixpoint allMessages (blocks : list BlockHeader) : option (list BlockMsg) :=
  match blocks with
  | [] => Some []
  | b :: rest =>
      match MessagesForBlock b, allMessages rest with
      | Ret (m1, m2), Some ms => Some (m1 ++ m2 ++ ms)
      | _, _ => None
      end
  end.

Lemma blockLimits_all blocks st ms : allMessages blocks = Some ms →
  blockLimits MessagesForBlock st blocks = Ret (addLimits st ms).
Proof.
  revert st ms. induction blocks as [|b blocks IH]; simpl; intros st ms E; [by simplify_eq|].
  destruct (MessagesForBlock b) as [[m1 m2]| |]; [|done..].
  destruct (allMessages blocks) as [ms'|]; [|done]. simplify_eq. rewrite !addLimits_app. by apply IH.
Qed.

(** The base fee of a tipset counts every message once: however often and in whatever
    order the messages occur in the blocks, the fee is the one for the gas limits of
    the distinct messages. *)
Theorem ComputeBaseFee_counts_messages_once ts b blocks ms distinct :
  blks ts = b :: blocks → allMessages (blks ts) = Some ms → addressed ms →
  NoDup (mCid <$> distinct) → (∀ m, m ∈ distinct ↔ m ∈ ms) →
  height ts ≤ UpgradeBreezeHeight ∨ UpgradeBreezeHeight + BreezeGasTampingDuration ≤ height ts →
  ComputeBaseFee UpgradeSmokeHeight UpgradeBreezeHeight BreezeGasTampingDuration MessagesForBlock ts =
  ComputeNextBaseFee UpgradeSmokeHeight (ParentBaseFee b) (wrapInt64 (sumLimits distinct))
    (Z.of_nat (S (length blocks))) (height ts).
Proof.
  intros Eb Em Ha Hn Hd Hh. unfold ComputeBaseFee. rewrite decide_False by lia.
  rewrite (blockLimits_all _ _ _ Em), bind_ret_l, Eb. cbn [index]. rewrite addLimits_counted by done.
  by rewrite (sumLimits_perm _ distinct) by (by apply counted_distinct).
Qed.
End basefee.

(** ** Burns, tips and refunds *)

Section burn.
Context `{BigDiv}.

(** Gas far from overflow; a block has at most [BlockGasLimit] of it. *)
Definition gasOk (gasUsed gasLimit : Z) : Prop :=
  0 ≤ gasUsed ≤ gasLimit ∧ 11 * gasLimit ≤ maxInt64.

(** The gas that is paid for although it was not used: the unused gas times the
    overestimation beyond a tenth of the used gas, at most the whole. *)
Definition overestimated (gasUsed gasLimit : Z) : Z :=
  if decide (gasUsed = 0) then gasLimit
  else (gasLimit - gasUsed) * clamp 0 gasUsed (gasLimit - 11 * gasUsed / 10) / gasUsed.

Lemma overestimated_bounds gasUsed gasLimit : gasOk gasUsed gasLimit →
  0 ≤ overestimated gasUsed gasLimit ≤ gasLimit - gasUsed.
Proof.
  intros [[H0 H1] _]. unfold overestimated. case_decide; [lia|].
  assert (0 ≤ clamp 0 gasUsed (gasLimit - 11 * gasUsed / 10) ≤ gasUsed) as Hc by (unfold clamp; lia).
  split; [apply Z.div_pos; nia|]. apply Z.div_le_upper_bound; nia.
Qed.

Lemma ComputeGasOverestimationBurn_splits gasUsed gasLimit : gasOk gasUsed gasLimit →
  ComputeGasOverestimationBurn gasUsed gasLimit =
  Ret (gasLimit - gasUsed - overestimated gasUsed gasLimit, overestimated gasUsed gasLimit).
Proof.
  intros Hok. pose proof (overestimated_bounds _ _ Hok) as Hb. destruct Hok as [[H0 H1] H2].
  unfold ComputeGasOverestimationBurn, gasOveruseNum, gasOveruseDenom. unfold maxInt64 in *.
  destruct (decide (gasUsed = 0)) as [->|Hn].
  { unfold overestimated in *. rewrite decide_True by done. do 2 f_equal. lia. }
  rewrite (wrapInt64_id (11 * gasUsed)) by (unfold minInt64, maxInt64; lia).
  rewrite divInt64_pos, bind_ret_l by (unfold int64, minInt64, maxInt64; lia).
  assert (0 ≤ 11 * gasUsed / 10 ≤ 11 * gasUsed) by (split; [apply Z.div_pos|apply Z.div_le_upper_bound]; lia).
  rewrite (wrapInt64_id (gasLimit - 11 * gasUsed / 10)) by (unfold minInt64, maxInt64; lia).
  rewrite (wrapInt64_id (gasLimit - gasUsed)) by (unfold minInt64, maxInt64; lia).
  unfold overestimated in *. rewrite !(decide_False (P := gasUsed = 0)) in * by done.
  destruct (decide (gasLimit - 11 * gasUsed / 10 < 0)) as [Hneg|Hpos].
  { unfold clamp in *. rewrite Z.min_r, Z.max_l, Z.mul_0_r, Z.div_0_l by lia. by rewrite Z.sub_0_r. }
  replace (if decide (gasUsed < gasLimit - 11 * gasUsed / 10) then gasUsed else gasLimit - 11 * gasUsed / 10)
    with (clamp 0 gasUsed (gasLimit - 11 * gasUsed / 10)) by (unfold clamp; case_decide; lia).
  rewrite bigDiv_law by lia. set (burned := _ / gasUsed) in *.
  rewrite (wrapInt64_id burned), wrapInt64_id by (unfold minInt64, maxInt64; lia). done.
Qed.

(** What is paid and earned for the gas of a message. *)
Lemma ComputeGasOutputs_spec gasUsed gasLimit baseFee feeCap gasPremium (charge : bool) :
  gasOk gasUsed gasLimit → 0 ≤ baseFee → 0 ≤ feeCap → 0 ≤ gasPremium →
  let pay := Z.min baseFee feeCap in
  let burned := overestimated gasUsed gasLimit in
  ∃ o, ComputeGasOutputs gasUsed gasLimit baseFee feeCap gasPremium charge = Ret o ∧
    BaseFeeBurn o = (if charge then pay * gasUsed else 0) ∧
    OverEstimationBurn o = pay * burned ∧
    MinerPenalty o = (baseFee - pay) * (gasUsed + burned) ∧
    MinerTip o = Z.min gasPremium (feeCap - pay) * gasLimit ∧
    GasBurned o = burned ∧ GasRefund o = gasLimit - gasUsed - burned ∧
    Refund o = gasLimit * feeCap - BaseFeeBurn o - MinerTip o - OverEstimationBurn o.
Proof.
  intros Hok Hb Hf Hp pay burned. unfold ComputeGasOutputs.
  rewrite ComputeGasOverestimationBurn_splits, bind_ret_l by done. fold burned.
  assert ((if decide (feeCap < baseFee) then feeCap else baseFee) = pay) as -> by (unfold pay; case_decide; lia).
  eexists. split; [done|]. cbn [BaseFeeBurn OverEstimationBurn MinerPenalty MinerTip GasBurned GasRefund Refund].
  split_and!; try done.
  - case_decide as Hd; [done|]. destruct (decide (burned = 0)) as [->|]; [lia|done].
  - assert ((if decide (feeCap < baseFee) then (baseFee - feeCap) * gasUsed else 0) = (baseFee - pay) * gasUsed) as ->.
    { unfold pay. case_decide; [rewrite Z.min_r by lia|rewrite Z.min_l by lia]; lia. }
    case_decide as Hd; [lia|]. destruct (decide (burned = 0)) as [->|]; [lia|done].
  - f_equal. unfold pay. case_decide; lia.
Qed.

(** The parts of the funds are not negative. *)
Lemma gas_funds_nonneg gasUsed gasLimit baseFee feeCap gasPremium charge :
  gasOk gasUsed gasLimit → 0 ≤ baseFee → 0 ≤ feeCap → 0 ≤ gasPremium →
  ∃ o, ComputeGasOutputs gasUsed gasLimit baseFee feeCap gasPremium charge = Ret o ∧
    0 ≤ BaseFeeBurn o ∧ 0 ≤ OverEstimationBurn o ∧ 0 ≤ MinerTip o ≤ gasPremium * gasLimit ∧
    0 ≤ Refund o ≤ gasLimit * feeCap ∧ 0 ≤ MinerPenalty o ∧
    GasRefund o = gasLimit - gasUsed - overestimated gasUsed gasLimit.
Proof.
  intros Hok Hb Hf Hp. pose proof (overestimated_bounds _ _ Hok) as Hov.
  destruct (ComputeGasOutputs_spec gasUsed gasLimit baseFee feeCap gasPremium charge Hok Hb Hf Hp)
    as (o&E&B1&B2&B3&B4&B5&B6&B7). exists o. destruct Hok as [[H0 H1] _].
  set (pay := Z.min baseFee feeCap) in *. assert (0 ≤ pay ≤ feeCap ∧ pay ≤ baseFee) as [Hp1 Hp2] by (unfold pay; lia).
  set (burned := overestimated gasUsed gasLimit) in *. set (tip := Z.min gasPremium (feeCap - pay)) in *.
  assert (0 ≤ tip ≤ feeCap - pay ∧ tip ≤ gasPremium) as Htip by (unfold tip; lia).
  assert (0 ≤ BaseFeeBurn o ≤ pay * gasUsed) as Hbf by (rewrite B1; destruct charge; nia).
  assert (0 ≤ OverEstimationBurn o) by nia. assert (0 ≤ MinerTip o ≤ gasPremium * gasLimit) by nia.
  assert (pay * (gasUsed + burned) ≤ pay * gasLimit) by (apply Z.mul_le_mono_nonneg_l; lia).
  assert (tip * gasLimit ≤ (feeCap - pay) * gasLimit) by (apply Z.mul_le_mono_nonneg_r; lia).
  assert (0 ≤ MinerPenalty o) by nia. split_and!; done || nia.
Qed.

(** C25. The funds for the gas of a message are conserved: what is burned, the miner's tip
    and the refund are together what the sender brought, [gasLimit * feeCap], and
    none of them is negative; the gas is split the same way, and the sender pays at
    most the fee cap per unit. *)
Theorem gas_funds_are_conserved gasUsed gasLimit baseFee feeCap gasPremium charge :
  gasOk gasUsed gasLimit → 0 ≤ baseFee → 0 ≤ feeCap → 0 ≤ gasPremium →
  ∃ o, ComputeGasOutputs gasUsed gasLimit baseFee feeCap gasPremium charge = Ret o ∧
    BaseFeeBurn o + OverEstimationBurn o + MinerTip o + Refund o = gasLimit * feeCap ∧
    0 ≤ BaseFeeBurn o ∧ 0 ≤ OverEstimationBurn o ∧ 0 ≤ MinerTip o ∧ 0 ≤ Refund o ∧ 0 ≤ MinerPenalty o ∧
    gasUsed + GasBurned o + GasRefund o = gasLimit ∧ 0 ≤ GasBurned o ∧ 0 ≤ GasRefund o ∧
    (MinerPenalty o = 0 ∨ feeCap < baseFee).
Proof.
  intros Hok Hb Hf Hp. pose proof (overestimated_bounds _ _ Hok) as Hov.
  destruct (gas_funds_nonneg gasUsed gasLimit baseFee feeCap gasPremium charge Hok Hb Hf Hp) as (o&E&C1&C2&C3&C4&C5&C6).
  destruct (ComputeGasOutputs_spec gasUsed gasLimit baseFee feeCap gasPremium charge Hok Hb Hf Hp)
    as (o'&E'&B1&B2&B3&B4&B5&B6&B7). rewrite E in E'. injection E' as <-.
  exists o. rewrite B5, B6. split_and!; done || lia || idtac.
  destruct (decide (feeCap < baseFee)); [by right|left]. rewrite B3, Z.min_l by lia. lia.
Qed.

(** A generous limit is burned: from more than twice the used gas on, all unused gas is
    burned, and up to a tenth above the used gas nothing is. *)
Lemma overestimation_extremes gasUsed gasLimit : gasOk gasUsed gasLimit → 0 < gasUsed →
  (gasUsed + 11 * gasUsed / 10 ≤ gasLimit → overestimated gasUsed gasLimit = gasLimit - gasUsed) ∧
  (gasLimit ≤ 11 * gasUsed / 10 → overestimated gasUsed gasLimit = 0).
Proof.
  intros _ Hu. unfold overestimated, clamp. rewrite decide_False by lia. split; intros Hl.
  - rewrite Z.min_l, Z.max_r, Z.div_mul by lia. done.
  - rewrite Z.min_r, Z.max_l by lia. by rewrite Z.mul_0_r, Z.div_0_l by lia.
Qed.

Section valid.
Context {Address : Type} `{EqDecision Address}.
Variables Undef ZeroAddress : Address.

(** What the checks of a message establish. *)
Lemma ValidForBlockInclusion_accepts (m : @Message Address) minGas version :
  ValidForBlockInclusion Undef ZeroAddress m minGas version = None →
  ∃ value feeCap premium, Value m = Some value ∧ GasFeeCap m = Some feeCap ∧ GasPremium m = Some premium ∧
    0 ≤ value ≤ TotalFilecoinInt ∧ 0 ≤ premium ≤ feeCap ∧ minGas ≤ GasLimit m ≤ BlockGasLimit ∧
    To m ≠ Undef ∧ From m ≠ Undef.
Proof.
  unfold ValidForBlockInclusion. repeat (case_decide; [done|]).
  destruct (Value m) as [value|]; [|done]. repeat (case_decide; [done|]).
  destruct (GasFeeCap m) as [feeCap|]; [|done]. repeat (case_decide; [done|]).
  destruct (GasPremium m) as [premium|]; [|done]. repeat (case_decide; [done|]).
  intros _. exists value, feeCap, premium. split_and!; done || lia.
Qed.

(** The checks for inclusion in a block are enough for the fee accounting: a message
    that they accept never makes it overflow, whatever the message uses of its gas. *)
Theorem accepted_messages_can_pay (m : @Message Address) minGas version gasUsed baseFee charge :
  ValidForBlockInclusion Undef ZeroAddress m minGas version = None →
  0 ≤ gasUsed ≤ GasLimit m → 0 ≤ baseFee →
  ∃ feeCap premium o, GasFeeCap m = Some feeCap ∧ GasPremium m = Some premium ∧
    ComputeGasOutputs gasUsed (GasLimit m) baseFee feeCap premium charge = Ret o ∧
    0 ≤ Refund o ≤ GasLimit m * feeCap ∧ 0 ≤ MinerTip o ≤ premium * GasLimit m ∧
    GasRefund o = GasLimit m - gasUsed - overestimated gasUsed (GasLimit m).
Proof.
  intros Hv Hu Hb. destruct (ValidForBlockInclusion_accepts _ _ _ Hv) as (v&feeCap&premium&_&E1&E2&_&Hp&Hg&_).
  exists feeCap, premium. assert (gasOk gasUsed (GasLimit m)) as Hok.
  { unfold BlockGasLimit in Hg. unfold gasOk, maxInt64. lia. }
  destruct (gas_funds_nonneg gasUsed (GasLimit m) baseFee feeCap premium charge) as (o&E&?&?&?&?&?); [done|lia..|].
  exists o. split_and!; done || lia.
Qed.
End valid.
End burn.

(** ** Examples *)

#[local] Instance floorDiv : BigDiv := {| bigDiv := Z.div; bigDiv_law := λ _ _ _, eq_refl |}.

Lemma base_fee_follows_fill_witness :
  ∃ f f', ComputeNextBaseFee 51000 1000 25000000000 5 60000 = Ret f ∧
    ComputeNextBaseFee 51000 1000 50000000000 5 60000 = Ret f' ∧ f = 1000 ∧ f' ≤ 1125.
Proof.
  destruct (base_fee_follows_fill 51000 1000 25000000000 50000000000 5 60000)
    as (f&f'&E&E'&_&_&_&Et&_); [done|done|done|done|].
  exists f, f'. split_and!; [done|done|by apply Et|].
  vm_compute in E'. by injection E' as <-.
Defined.

(** Two blocks that share a message. *)
Definition sharedMsg : BlockMsg := mkBlockMsg "m1" 6000000000.
Definition otherMsg : BlockMsg := mkBlockMsg "m2" 9000000000.
Definition exBlock (c : string) : BlockHeader := mkBlockHeader c c ["p"] 60000 0 800 c 0.
Definition twoBlocks : TipSet := mkTipSet ["b1"; "b2"] [exBlock "b1"; exBlock "b2"] 60000.
Definition blockMsgs (b : BlockHeader) : outcome (list BlockMsg * list BlockMsg) :=
  if decide (blkCid b = "b1") then Ret ([sharedMsg], [otherMsg]) else Ret ([sharedMsg], []).

Lemma ComputeBaseFee_counts_messages_once_witness :
  ComputeBaseFee 51000 41280 120 blockMsgs twoBlocks = Ret 850.
Proof.
  etrans; [apply (ComputeBaseFee_counts_messages_once 51000 41280 120 blockMsgs twoBlocks
    (exBlock "b1") [exBlock "b2"] [sharedMsg; otherMsg; sharedMsg] [otherMsg; sharedMsg])|].
  - done.
  - done.
  - intros m m'. rewrite !list_elem_of_In. simpl. intuition (subst; done).
  - by apply (bool_decide_unpack _).
  - intros m. rewrite !list_elem_of_In. simpl. intuition.
  - right. done.
  - vm_compute. reflexivity.
Defined.

Lemma gas_funds_are_conserved_witness :
  ∃ o, ComputeGasOutputs 1000 2000 120 100 10 true = Ret o ∧
    BaseFeeBurn o + OverEstimationBurn o + MinerTip o + Refund o = 200000 ∧ 0 ≤ Refund o.
Proof.
  destruct (gas_funds_are_conserved 1000 2000 120 100 10 true) as (o&E&S&_&_&_&R&_); [done..|]. by exists o.
Defined.

Lemma accepted_messages_can_pay_witness :
  ∃ feeCap premium o, ComputeGasOutputs 1000 2000 50 feeCap premium true = Ret o ∧
    0 ≤ Refund o ≤ 2000 * feeCap ∧ feeCap = 100.
Proof.
  destruct (accepted_messages_can_pay "" "f3zero" (mkMessage 0 "f1a" "f1b" (Some 5) 2000 (Some 100) (Some 10)) 500 16 1000 50 true)
    as (feeCap&premium&o&E1&_&E&R&_); [vm_compute; done|done|done|].
  exists feeCap, premium, o. split_and!; [done|apply R|apply R|]. by injection E1.
Defined.
