(* ===== verification/FileTypes.v ===== *)
(** * Sector file types (storage/sealer/storiface/filetype.go)

    A [SectorFileType] is a set of the five kinds of files of a sector, as the bits
    of an [int]. *)

From stdpp Require Import strings numbers base gmap sets list.
From S2P Require Import Prelude GoStrings.
Local Open Scope Z_scope.

(** ** The types *)

Definition FTUnsealed : Z := 1.
Definition FTSealed : Z := 2.
Definition FTCache : Z := 4.
Definition FTUpdate : Z := 8.
Definition FTUpdateCache : Z := 16.
Definition FileTypes : nat := 5.

Definition PathTypes : list Z := [FTUnsealed; FTSealed; FTCache; FTUpdate; FTUpdateCache].
Definition FTNone : Z := 0.
Definition FTAll : Z := foldl Z.lor 0 PathTypes.

Definition FSOverheadDen : Z := 10.

(** The maps of overheads, in tenths of the sector size. *)
Definition FSOverheadSeal (t : Z) : option Z :=
  if decide (t = FTUnsealed) then Some FSOverheadDen
  else if decide (t = FTSealed) then Some FSOverheadDen
  else if decide (t = FTUpdate) then Some FSOverheadDen
  else if decide (t = FTUpdateCache) then Some (FSOverheadDen * 2 + 1)
  else if decide (t = FTCache) then Some 141
  else None.

Definition FsOverheadFinalized (t : Z) : option Z :=
  if decide (t = FTUnsealed) then Some FSOverheadDen
  else if decide (t = FTSealed) then Some FSOverheadDen
  else if decide (t = FTUpdate) then Some FSOverheadDen
  else if decide (t = FTUpdateCache) then Some 1
  else if decide (t = FTCache) then Some 1
  else None.

(** ** Names *)

Definition TypeFromString (s : string) : outcome Z :=
  if decide (s = "unsealed") then Ret FTUnsealed
  else if decide (s = "sealed") then Ret FTSealed
  else if decide (s = "cache") then Ret FTCache
  else if decide (s = "update") then Ret FTUpdate
  else if decide (s = "update-cache") then Ret FTUpdateCache
  else Fail ("unknown sector file type '" +:+ s +:+ "'").

Definition typeString (t : Z) : string :=
  if decide (t = FTUnsealed) then "unsealed"
  else if decide (t = FTSealed) then "sealed"
  else if decide (t = FTCache) then "cache"
  else if decide (t = FTUpdate) then "update"
  else if decide (t = FTUpdateCache) then "update-cache"
  else "<unknown " +:+ Itoa t +:+ ">".

(** [AllSet] and [Strings]: the types of a set, in order. *)
Definition AllSet (t : Z) : list Z := filter (λ fileType, Z.land fileType t ≠ 0) PathTypes.
Definition Strings (t : Z) : list string := map typeString (AllSet t).

Definition Has (t singleType : Z) : bool := bool_decide (Z.land t singleType = singleType).

(** [All]: an array of [FileTypes] flags. *)
Definition All (t : Z) : list bool := map (λ i, bool_decide (0 < Z.land t (2 ^ Z.of_nat i))) (seq 0 FileTypes).

(** ** Space *)

Definition wrapUint64 (z : Z) : Z := z mod 2 ^ 64.

(** The loop of [SealSpaceUse] and of [StoreSpaceUse] with the overheads [table]. *)
Fixpoint spaceUse (table : Z → option Z) (text : string) (t ssize need : Z) (types : list Z) : outcome Z :=
  match types with
  | [] => Ret need
  | pathType :: rest =>
      if negb (Has t pathType) then spaceUse table text t ssize need rest
      else
        match table pathType with
        | None => Fail (text +:+ typeString pathType)
        | Some oh => spaceUse table text t ssize (wrapUint64 (need + wrapUint64 (oh * ssize) / FSOverheadDen)) rest
        end
  end.

Definition SealSpaceUse (t ssize : Z) : outcome Z :=
  spaceUse FSOverheadSeal "no seal overhead info for " t ssize 0 PathTypes.

Definition StoreSpaceUse (t ssize : Z) : outcome Z :=
  spaceUse FsOverheadFinalized "no finalized overhead info for " t ssize 0 PathTypes.

(** ** Allowing and denying *)

(** [for _, allowType := range allowTypes { .. denyMask = denyMask & (^pt) }] *)
Fixpoint allowLoop (denyMask : Z) (allowTypes : list string) : Z :=
  match allowTypes with
  | [] => denyMask
  | a :: rest =>
      match TypeFromString a with
      | Ret pt => allowLoop (Z.land denyMask (Z.lnot pt)) rest
      | _ => allowLoop denyMask rest
      end
  end.

(** [for _, denyType := range denyTypes { .. denyMask |= pt }] *)
Fixpoint denyLoop (denyMask : Z) (denyTypes : list string) : Z :=
  match denyTypes with
  | [] => denyMask
  | d :: rest =>
      match TypeFromString d with
      | Ret pt => denyLoop (Z.lor denyMask pt) rest
      | _ => denyLoop denyMask rest
      end
  end.

Definition SubAllowed (t : Z) (allowTypes denyTypes : list string) : Z :=
  let denyMask := match allowTypes with [] => 0 | _ => allowLoop (Z.lnot 0) allowTypes end in
  Z.land t (denyLoop denyMask denyTypes).

Definition AnyAllowed (t : Z) (allowTypes denyTypes : list string) : bool :=
  bool_decide (SubAllowed t allowTypes denyTypes ≠ t).

Definition Allowed (t : Z) (allowTypes denyTypes : list string) : bool :=
  bool_decide (SubAllowed t allowTypes denyTypes = 0).

(** ** Paths *)

Record SectorID := mkSectorID { Miner : Z; Number : Z }.

#[global] Instance SectorID_eq_dec : EqDecision SectorID.
Proof. solve_decision. Defined.
#[global] Instance SectorID_countable : Countable SectorID.
Proof. by apply (inj_countable' (λ s, (Miner s, Number s)) (λ p, mkSectorID p.1 p.2)); intros []. Defined.

Definition SectorName (sid : SectorID) : string := "s-t0" +:+ Itoa (Miner sid) +:+ "-" +:+ Itoa (Number sid).

Record SectorPaths := mkSectorPaths {
  ID : SectorID;
  Unsealed : string;
  Sealed : string;
  Cache : string;
  Update : string;
  UpdateCache : string
}.

Definition PathByType (sps : SectorPaths) (fileType : Z) : outcome string :=
  if decide (fileType = FTUnsealed) then Ret (Unsealed sps)
  else if decide (fileType = FTSealed) then Ret (Sealed sps)
  else if decide (fileType = FTCache) then Ret (Cache sps)
  else if decide (fileType = FTUpdate) then Ret (Update sps)
  else if decide (fileType = FTUpdateCache) then Ret (UpdateCache sps)
  else Crash.

Definition SetPathByType (sps : SectorPaths) (fileType : Z) (p : string) : SectorPaths :=
  let '(mkSectorPaths i u s c up uc) := sps in
  if decide (fileType = FTUnsealed) then mkSectorPaths i p s c up uc
  else if decide (fileType = FTSealed) then mkSectorPaths i u p c up uc
  else if decide (fileType = FTCache) then mkSectorPaths i u s p up uc
  else if decide (fileType = FTUpdate) then mkSectorPaths i u s c p uc
  else if decide (fileType = FTUpdateCache) then mkSectorPaths i u s c up p
  else sps.

(** ** Facts on bits *)

(** Two sets of types have nothing in common. *)
Lemma land_disjoint a b : Z.land a b = 0 ↔ ∀ i, 0 ≤ i → Z.testbit a i = true → Z.testbit b i = false.
Proof.
  split.
  - intros E i Hi Ha. assert (Z.testbit (Z.land a b) i = false) as H by (by rewrite E, Z.bits_0).
    rewrite Z.land_spec, Ha in H. done.
  - intros H. apply Z.bits_inj'. intros i Hi. rewrite Z.land_spec, Z.bits_0.
    destruct (Z.testbit a i) eqn:Ha; [by rewrite H|done].
Qed.

(** Different numbers differ in a bit. *)
Lemma bit_differs a b : a ≠ b → ∃ i, 0 ≤ i ∧ Z.testbit a i ≠ Z.testbit b i.
Proof.
  intros Hne. assert (Z.lxor a b ≠ 0) as Hx by (intros E; by apply Hne, Z.lxor_eq).
  assert (∃ i, 0 ≤ i ∧ Z.testbit (Z.lxor a b) i = true) as (i&Hi&Hb).
  { destruct (decide (0 < Z.lxor a b)) as [Hp|Hp].
    - exists (Z.log2 (Z.lxor a b)). split; [apply Z.log2_nonneg|by apply Z.bit_log2].
    - assert (Z.lxor a b < 0) as Hneg by lia. apply Z.bits_iff_neg_ex in Hneg as (n&Hn).
      exists (Z.max 0 (n + 1)). split; [lia|]. apply Hn. lia. }
  exists i. split; [done|]. rewrite Z.lxor_spec in Hb. intros E. rewrite E in Hb. by destruct (Z.testbit b i).
Qed.

(** The flags of [All] are the low bits. *)
Lemma land_bit t i : 0 ≤ i → bool_decide (0 < Z.land t (2 ^ i)) = Z.testbit t i.
Proof.
  intros Hi. assert (Z.land t (2 ^ i) = if Z.testbit t i then 2 ^ i else 0) as ->.
  { apply Z.bits_inj'. intros j Hj. rewrite Z.land_spec.
    destruct (decide (i = j)) as [->|Hne].
    - rewrite Z.pow2_bits_true by done. destruct (Z.testbit t j); [by rewrite Z.pow2_bits_true|by rewrite Z.bits_0].
    - rewrite Z.pow2_bits_false, andb_false_r by done.
      destruct (Z.testbit t i); [by rewrite Z.pow2_bits_false|by rewrite Z.bits_0]. }
  destruct (Z.testbit t i); [|done]. apply bool_decide_true. apply Z.pow_pos_nonneg; lia.
Qed.

Lemma All_bits t : All t = map (λ i, Z.testbit t (Z.of_nat i)) (seq 0 FileTypes).
Proof. unfold All. apply map_ext. intros i. apply land_bit. lia. Qed.

(** ** Which types are allowed *)

(** The name [s] stands for the file type with number [i]. *)
Definition namesType (s : string) (i : Z) : bool :=
  match TypeFromString s with Ret t => bool_decide (t = 2 ^ i) | _ => false end.

Lemma TypeFromString_cases s :
  (∃ k, 0 ≤ k ∧ TypeFromString s = Ret (2 ^ k)) ∨ ∃ e, TypeFromString s = Fail e.
Proof.
  unfold TypeFromString. repeat case_decide; [left..|right; eauto].
  - by exists 0.
  - by exists 1.
  - by exists 2.
  - by exists 3.
  - by exists 4.
Qed.

Lemma allowLoop_bits allow mask i : 0 ≤ i →
  Z.testbit (allowLoop mask allow) i = Z.testbit mask i && negb (existsb (λ a, namesType a i) allow).
Proof.
  intros Hi. revert mask. induction allow as [|a allow IH]; intros mask; simpl; [by rewrite andb_true_r|].
  unfold namesType at 1. destruct (TypeFromString_cases a) as [(k&Hk&->)|[e ->]]; rewrite IH; [|done].
  rewrite Z.land_spec, Z.lnot_spec, Z.pow2_bits_eqb by done. rewrite <- andb_assoc. f_equal.
  rewrite negb_orb. f_equal. destruct (Z.eqb_spec k i) as [->|Hne]; [by rewrite bool_decide_true|].
  rewrite bool_decide_false; [done|]. intros E%Z.pow_inj_r; lia.
Qed.

Lemma denyLoop_bits deny mask i : 0 ≤ i →
  Z.testbit (denyLoop mask deny) i = Z.testbit mask i || existsb (λ d, namesType d i) deny.
Proof.
  intros Hi. revert mask. induction deny as [|d deny IH]; intros mask; simpl; [by rewrite orb_false_r|].
  unfold namesType at 1. destruct (TypeFromString_cases d) as [(k&Hk&->)|[e ->]]; rewrite IH; [|done].
  rewrite Z.lor_spec, Z.pow2_bits_eqb by done. rewrite <- orb_assoc. f_equal. f_equal.
  destruct (Z.eqb_spec k i) as [->|Hne]; [by rewrite bool_decide_true|].
  rewrite bool_decide_false; [done|]. intros E%Z.pow_inj_r; lia.
Qed.

(** A file type may be stored when the lists name it, or allow all, and do not deny it. *)
Definition mayStore (allow deny : list string) (i : Z) : Prop :=
  (allow = [] ∨ Exists (λ a, namesType a i = true) allow) ∧ Forall (λ d, namesType d i = false) deny.

#[global] Instance mayStore_dec allow deny i : Decision (mayStore allow deny i).
Proof. unfold mayStore. apply _. Defined.

Lemma existsb_names l i : existsb (λ a, namesType a i) l = true ↔ Exists (λ a, namesType a i = true) l.
Proof. rewrite existsb_exists, Exists_exists. by setoid_rewrite list_elem_of_In. Qed.

Lemma SubAllowed_bits t allow deny i : 0 ≤ i →
  (Z.testbit (SubAllowed t allow deny) i = true ↔ Z.testbit t i = true ∧ ¬ mayStore allow deny i).
Proof.
  intros Hi. unfold SubAllowed. rewrite Z.land_spec, denyLoop_bits by done.
  rewrite andb_true_iff, orb_true_iff, existsb_names.
  assert (Z.testbit (match allow with [] => 0 | _ => allowLoop (Z.lnot 0) allow end) i = true ↔
          ¬ (allow = [] ∨ Exists (λ a, namesType a i = true) allow)) as ->.
  { destruct allow as [|a allow]; [rewrite Z.bits_0; naive_solver|].
    rewrite allowLoop_bits, Z.lnot_spec, Z.bits_0, andb_true_l, negb_true_iff, <- not_true_iff_false, existsb_names by done.
    naive_solver. }
  unfold mayStore. assert (Forall (λ d, namesType d i = false) deny ↔ ¬ Exists (λ d, namesType d i = true) deny) as ->.
  { rewrite <- Forall_Exists_neg by (intros; apply _). apply Forall_iff. intros d. by rewrite not_true_iff_false. }
  destruct (decide (Exists (λ d, namesType d i = true) deny)); naive_solver.
Qed.

(** The lists of allowed and denied types mean what they say: a set of file types is
    allowed exactly when each of its types may be stored, and some of it is allowed
    exactly when one of its types may; a name that is not known allows and denies
    nothing. *)
Theorem Allowed_means_storable t allow deny :
  (Allowed t allow deny = true ↔ ∀ i, 0 ≤ i → Z.testbit t i = true → mayStore allow deny i) ∧
  (AnyAllowed t allow deny = true ↔ ∃ i, 0 ≤ i ∧ Z.testbit t i = true ∧ mayStore allow deny i).
Proof.
  assert (∀ i, 0 ≤ i → Z.testbit t i = true → Z.testbit (SubAllowed t allow deny) i = false → mayStore allow deny i) as Hdec.
  { intros i Hi Ht Hs. apply not_true_iff_false in Hs. rewrite SubAllowed_bits in Hs by done.
    apply dec_stable. naive_solver. }
  unfold Allowed, AnyAllowed. rewrite !bool_decide_eq_true. split; split.
  - intros E i Hi Ht. apply Hdec; [done..|]. by rewrite E, Z.bits_0.
  - intros H. apply Z.bits_inj'. intros i Hi. rewrite Z.bits_0. apply not_true_iff_false.
    rewrite SubAllowed_bits by done. intros [Ht Hn]. by apply Hn, H.
  - intros Hne. destruct (bit_differs (SubAllowed t allow deny) t Hne) as (i&Hi&Hd). exists i.
    destruct (Z.testbit t i) eqn:Ht; [|exfalso].
    + split_and!; [done..|]. apply Hdec; [done..|]. by destruct (Z.testbit (SubAllowed _ _ _) i).
    + destruct (Z.testbit (SubAllowed _ _ _) i) eqn:Hs; [|done]. apply SubAllowed_bits in Hs as [? _]; congruence.
  - intros (i&Hi&Ht&Hm) E. rewrite <- E in Ht. apply SubAllowed_bits in Ht as [_ Hn]; [|done]. by apply Hn.
Qed.

(** ** Names, paths and space *)

(** Case analysis over the five types. *)
Ltac each_type :=
  repeat match goal with
  | H : _ ∈ PathTypes |- _ => unfold PathTypes in H
  | H : _ ∈ _ :: _ |- _ => apply elem_of_cons in H as [->|H]
  | H : _ ∈ [] |- _ => by apply elem_of_nil in H
  end.

Lemma TypeFromString_typeString t : t ∈ PathTypes → TypeFromString (typeString t) = Ret t.
Proof. intros H. each_type; reflexivity. Qed.

(** A path that was set is read back, and the paths of the other types stay. *)
Lemma PathByType_set sps t t' p : t ∈ PathTypes → t' ∈ PathTypes →
  PathByType (SetPathByType sps t p) t' = if decide (t = t') then Ret p else PathByType sps t'.
Proof. intros H H'. destruct sps. each_type; reflexivity. Qed.

(** The space for a set of types is the sum of the overheads, as long as it fits. *)
Lemma spaceUse_sum table text t ssize types need :
  (∀ x, x ∈ types → ∃ oh, table x = Some oh ∧ 0 ≤ oh ≤ 141) →
  0 ≤ ssize → 0 ≤ need → need + 141 * ssize * Z.of_nat (length types) < 2 ^ 64 →
  spaceUse table text t ssize need types =
  Ret (need + foldr (λ x n, (if Has t x then default 0 (table x) * ssize / 10 else 0) + n) 0 types).
Proof.
  intros Ht Hs. revert need. induction types as [|x types IH]; intros need Hn Hb; [by rewrite Z.add_0_r|].
  cbn [spaceUse foldr length] in *. destruct (Ht x) as (oh&Eo&Ho); [set_solver|]. rewrite Eo.
  destruct (Has t x); simpl; [|rewrite IH; [done|set_solver|done|nia]].
  assert (0 ≤ oh * ssize ≤ 141 * ssize) as Hm by nia.
  assert (0 ≤ oh * ssize / FSOverheadDen ≤ oh * ssize) as Hd.
  { unfold FSOverheadDen. split; [apply Z.div_pos|apply Z.div_le_upper_bound]; lia. }
  unfold wrapUint64. rewrite (Z.mod_small (oh * ssize)), Z.mod_small by lia. rewrite IH; [|set_solver|lia..].
  f_equal. unfold FSOverheadDen. lia.
Qed.

Lemma SealSpaceUse_sum t ssize : 0 ≤ ssize < 2 ^ 54 →
  SealSpaceUse t ssize =
  Ret (foldr (λ x n, (if Has t x then default 0 (FSOverheadSeal x) * ssize / 10 else 0) + n) 0 PathTypes).
Proof.
  intros Hs. unfold SealSpaceUse. rewrite spaceUse_sum; [done| |lia|done|simpl length; lia].
  intros x H. each_type; eexists; (split; [reflexivity|done]) || (split; [reflexivity|]; unfold FSOverheadDen; lia).
Qed.
