(* ===== verification/IndexLocks.v ===== *)
(** * Locks on sector files (storage/paths/index_locks.go, index_locks_util.go)

    Calls of [StorageLock] and [StorageTryLock] take read and write locks on the file
    types of a sector until their context is done.  A step of the model is what a
    goroutine does between taking and giving back the mutex of the index or of a
    sector lock, so that the steps of concurrent calls interleave freely. *)

From stdpp Require Import strings numbers base gmap fin_maps sets list.
From S2P Require Import Prelude GoSort FileTypes.
Local Open Scope Z_scope.

(** ** One sector lock *)

(** [sectorLock] with the channel of its [ctxCond].  The counters are [uint]s; they count
    calls, and the invariant below shows that they are never decreased below zero. *)
Record sectorLock := mkSectorLock {
  notif : option nat;
  r : list Z;
  w : Z;
  refs : Z
}.

Definition newSectorLock : sectorLock := mkSectorLock None (replicate FileTypes 0) 0 0.

(** [for i, b := range write.All() { if b && l.r[i] > 0 { return false } }] *)
Definition noReaders (flags : list bool) (counts : list Z) : bool :=
  forallb id (zip_with (λ (b : bool) n, negb (b && bool_decide (0 < n))) flags counts).

Definition canLock (l : sectorLock) (read write : Z) : bool :=
  noReaders (All write) (r l) && bool_decide (Z.land (w l) read = 0) && bool_decide (Z.land (w l) write = 0).

(** [for i, set := range read.All() { if set { l.r[i] += d } }] *)
Definition addReads (d : Z) (flags : list bool) (counts : list Z) : list Z :=
  zip_with (λ (set : bool) n, if set then n + d else n) flags counts.

Definition tryLock (l : sectorLock) (read write : Z) : option sectorLock :=
  if canLock l read write
  then Some (mkSectorLock (notif l) (addReads 1 (All read) (r l)) (Z.lor (w l) write) (refs l))
  else None.

(** [ctxCond.Broadcast]: the channel is closed and forgotten. *)
Definition Broadcast (l : sectorLock) : sectorLock * gset nat :=
  (mkSectorLock None (r l) (w l) (refs l), match notif l with Some ch => {[ch]} | None => ∅ end).

(** The beginning of [ctxCond.Wait]: the channel to wait for, made with number [next] when
    there is none. *)
Definition register (l : sectorLock) (next : nat) : sectorLock * nat * nat :=
  match notif l with
  | Some ch => (l, ch, next)
  | None => (mkSectorLock (Some next) (r l) (w l) (refs l), next, S next)
  end.

Definition unlock (l : sectorLock) (read write : Z) : sectorLock * gset nat :=
  Broadcast (mkSectorLock (notif l) (addReads (-1) (All read) (r l)) (Z.land (w l) (Z.lnot write)) (refs l)).

Definition addRef (d : Z) (l : sectorLock) : sectorLock := mkSectorLock (notif l) (r l) (w l) (refs l + d).

(** ** Calls *)

(** Where a call is: past the guards with a lock, waiting for a channel, with the lock
    taken, done, or returned without the lock, which it may have looked up. *)
Inductive status :=
| Entered (l : nat)
| Asleep (l ch : nat)
| Held (l : nat)
| Released
| NotLocked (l : option nat) (err : option string).

(** [wait] tells [StorageLock] from [StorageTryLock]. *)
Record call := mkCall { sector : SectorID; read : Z; write : Z; wait : bool; st : status }.

Definition setSt (k : call) (s : status) : call := mkCall (sector k) (read k) (write k) (wait k) s.

(** The index, the sector locks it points to, the closed channels and the calls. *)
Record world := mkWorld {
  locks : gmap SectorID nat;
  heap : gmap nat sectorLock;
  closed : gset nat;
  nextChan : nat;
  nextLock : nat;
  calls : gmap nat call
}.

Definition noCalls : world := mkWorld ∅ ∅ ∅ 0 0 ∅.

(** The first half of [lockWith]: the guards and the look-up under [i.lk]. *)
Definition enter (c : nat) (s : SectorID) (rd wr : Z) (wt : bool) (x : world) : option world :=
  match calls x !! c with
  | Some _ => None
  | None =>
      let returns err := mkWorld (locks x) (heap x) (closed x) (nextChan x) (nextLock x)
                           (<[c := mkCall s rd wr wt (NotLocked None err)]> (calls x)) in
      if decide (Z.lor rd wr = 0) then Some (returns None)
      else if decide (2 ^ Z.of_nat FileTypes - 1 < Z.lor rd wr) then Some (returns (Some "unknown file types specified"))
      else
        match locks x !! s with
        | Some l =>
            match heap x !! l with
            | Some slk => Some (mkWorld (locks x) (<[l := addRef 1 slk]> (heap x)) (closed x) (nextChan x) (nextLock x)
                                  (<[c := mkCall s rd wr wt (Entered l)]> (calls x)))
            | None => None
            end
        | None =>
            let l := nextLock x in
            Some (mkWorld (<[s := l]> (locks x)) (<[l := addRef 1 newSectorLock]> (heap x)) (closed x) (nextChan x) (S l)
                    (<[c := mkCall s rd wr wt (Entered l)]> (calls x)))
        end
  end.

(** [tryLockSafe] and one turn of the loop of [lock], under the mutex of the lock. *)
Definition attempt (c : nat) (x : world) : option world :=
  match calls x !! c with
  | Some (mkCall s rd wr wt (Entered l) as k) =>
      match heap x !! l with
      | None => None
      | Some slk =>
          match tryLock slk rd wr with
          | Some slk' => Some (mkWorld (locks x) (<[l := slk']> (heap x)) (closed x) (nextChan x) (nextLock x)
                                 (<[c := setSt k (Held l)]> (calls x)))
          | None =>
              if wt then
                let '(slk', ch, next) := register slk (nextChan x) in
                Some (mkWorld (locks x) (<[l := slk']> (heap x)) (closed x) next (nextLock x)
                        (<[c := setSt k (Asleep l ch)]> (calls x)))
              else
                Some (mkWorld (locks x) (heap x) (closed x) (nextChan x) (nextLock x)
                        (<[c := setSt k (NotLocked (Some l) None)]> (calls x)))
          end
      end
  | _ => None
  end.

(** The two cases of the [select] of [Wait]. *)
Definition wake (c : nat) (x : world) : option world :=
  match calls x !! c with
  | Some (mkCall s rd wr wt (Asleep l ch) as k) =>
      if decide (ch ∈ closed x)
      then Some (mkWorld (locks x) (heap x) (closed x) (nextChan x) (nextLock x) (<[c := setSt k (Entered l)]> (calls x)))
      else None
  | _ => None
  end.

Definition cancel (c : nat) (x : world) : option world :=
  match calls x !! c with
  | Some (mkCall s rd wr wt (Asleep l ch) as k) =>
      Some (mkWorld (locks x) (heap x) (closed x) (nextChan x) (nextLock x)
              (<[c := setSt k (NotLocked (Some l) (Some "context canceled"))]> (calls x)))
  | _ => None
  end.

(** The goroutine of a call that has the lock, when the context is done. *)
Definition release (c : nat) (x : world) : option world :=
  match calls x !! c with
  | Some (mkCall s rd wr wt (Held l) as k) =>
      match heap x !! l with
      | None => None
      | Some slk =>
          let '(slk1, chans) := unlock slk rd wr in
          let slk' := addRef (-1) slk1 in
          Some (mkWorld (if decide (refs slk' = 0) then delete s (locks x) else locks x)
                  (<[l := slk']> (heap x)) (chans ∪ closed x) (nextChan x) (nextLock x)
                  (<[c := setSt k Released]> (calls x)))
      end
  | _ => None
  end.

(** What [StorageLock] returns to its caller; [None] while the call is under way. *)
Definition StorageLock_reply (k : call) : option (option string) :=
  match st k with
  | Held _ | Released => Some None
  | NotLocked _ (Some err) => Some (Some err)
  | NotLocked _ None => Some (Some "failed to acquire lock")
  | Entered _ | Asleep _ _ => None
  end.

Definition StorageTryLock_reply (k : call) : option (bool * option string) :=
  match st k with
  | Held _ | Released => Some (true, None)
  | NotLocked _ err => Some (false, err)
  | Entered _ | Asleep _ _ => None
  end.

(** ** The report *)

Record SectorLock := mkSectorLockInfo { Sector : SectorID; Write : list Z; Read : list Z }.

Definition lockInfo (x : world) (s : SectorID) (l : nat) : option SectorLock :=
  match heap x !! l with
  | Some slk => Some (mkSectorLockInfo s (map (λ b : bool, if b then 1 else 0) (All (w slk))) (r slk))
  | None => None
  end.

Definition StorageGetLocks (x : world) : list SectorLock :=
  sortBy (λ i j, bool_decide (Number (Sector i) < Number (Sector j)))
    (omap (λ sl, lockInfo x sl.1 sl.2) (map_to_list (locks x))).

(** ** Runs *)

Inductive action :=
| Enter (c : nat) (s : SectorID) (rd wr : Z) (wt : bool)
| Attempt (c : nat)
| Wake (c : nat)
| Cancel (c : nat)
| Release (c : nat).

Definition step (x : world) (a : action) : option world :=
  match a with
  | Enter c s rd wr wt => enter c s rd wr wt x
  | Attempt c => attempt c x
  | Wake c => wake c x
  | Cancel c => cancel c x
  | Release c => release c x
  end.

Fixpoint run (x : world) (l : list action) : option world :=
  match l with
  | [] => Some x
  | a :: rest => match step x a with Some y => run y rest | None => None end
  end.

Inductive reachable : world → Prop :=
| reachable_init : reachable noCalls
| reachable_step x a y : reachable x → step x a = Some y → reachable y.
