(* ===== verification/IndexLocksSpec.v ===== *)
(** * Locks on sector files: exclusion, exact counters and no lost wake-ups *)

From stdpp Require Import strings numbers base gmap fin_maps sets list.
From S2P Require Import Prelude FileTypes IndexLocks.
Local Open Scope Z_scope.

#[local] Arguments All : simpl never.
#[local] Arguments addReads : simpl never.
#[local] Arguments noReaders : simpl never.

(** ** Counting calls *)

Definition countCalls (P : call → bool) (cs : gmap nat call) : Z :=
  Z.of_nat (size (filter (λ kv, P kv.2 = true) cs)).

Definition one (b : bool) : Z := if b then 1 else 0.

Lemma count_new P cs c k : cs !! c = None → countCalls P (<[c := k]> cs) = countCalls P cs + one (P k).
Proof.
  intros Hc. unfold countCalls, one. destruct (P k) eqn:E.
  - rewrite map_filter_insert_True by done. rewrite map_size_insert_None; [lia|].
    apply map_lookup_filter_None. by left.
  - rewrite map_filter_insert_not', Z.add_0_r; [done|simpl; congruence|]. intros y Hy. congruence.
Qed.

Lemma count_set P cs c k k' : cs !! c = Some k →
  countCalls P (<[c := k']> cs) = countCalls P cs - one (P k) + one (P k').
Proof.
  intros Hc. rewrite <- (insert_delete_id cs c k Hc) at 2. rewrite <- insert_delete_eq.
  rewrite !count_new by apply lookup_delete_eq. lia.
Qed.

Lemma count_nonneg P cs : 0 ≤ countCalls P cs.
Proof. unfold countCalls. lia. Qed.

Lemma count_pos P cs : 0 < countCalls P cs ↔ ∃ c k, cs !! c = Some k ∧ P k = true.
Proof.
  unfold countCalls. split.
  - intros H. destruct (map_choose (filter (λ kv, P kv.2 = true) cs)) as (c&k&Hk).
    { intros E. rewrite E, map_size_empty in H. done. }
    apply map_lookup_filter_Some in Hk as [Hk Pk]. eauto.
  - intros (c&k&Hc&Hk). assert (filter (λ kv, P kv.2 = true) cs !! c = Some k) as Hf by (by apply map_lookup_filter_Some).
    destruct (decide (size (filter (λ kv, P kv.2 = true) cs) = 0%nat)) as [E|]; [|lia].
    apply map_size_empty_inv in E. by rewrite E in Hf.
Qed.

Lemma count_ge1 P cs c k : cs !! c = Some k → P k = true → 1 ≤ countCalls P cs.
Proof. intros. assert (0 < countCalls P cs) by (apply count_pos; eauto). lia. Qed.

Lemma count_zero P cs : (∀ c k, cs !! c = Some k → P k = false) → countCalls P cs = 0.
Proof.
  intros H. pose proof (count_nonneg P cs). destruct (decide (0 < countCalls P cs)) as [Hp|]; [|lia].
  apply count_pos in Hp as (c&k&Hc&Hk). by rewrite (H _ _ Hc) in Hk.
Qed.

(** ** What calls have *)

Definition usesLock (l : nat) (k : call) : bool :=
  match st k with
  | Entered l' | Asleep l' _ | Held l' | NotLocked (Some l') _ => bool_decide (l = l')
  | Released | NotLocked None _ => false
  end.

Definition holdsLock (l : nat) (k : call) : bool :=
  match st k with Held l' => bool_decide (l = l') | _ => false end.

Definition readsType (l : nat) (i : Z) (k : call) : bool := holdsLock l k && Z.testbit (read k) i.
Definition writesType (l : nat) (i : Z) (k : call) : bool := holdsLock l k && Z.testbit (write k) i.

(** One of the five file types. *)
Abbreviation fileType i := (0 ≤ i < Z.of_nat FileTypes) (only parsing).

(** Two sets of locks exclude each other. *)
Definition conflict (rd wr rd' wr' : Z) : Prop :=
  ∃ i, fileType i ∧ ((Z.testbit wr i = true ∧ (Z.testbit rd' i = true ∨ Z.testbit wr' i = true)) ∨
                     (Z.testbit rd i = true ∧ Z.testbit wr' i = true)).

(** ** One lock *)

Lemma All_nth t (i : nat) : (i < FileTypes)%nat → All t !! i = Some (Z.testbit t (Z.of_nat i)).
Proof. intros Hi. rewrite All_bits. rewrite list_lookup_fmap, lookup_seq_lt by done. done. Qed.

Lemma length_All t : length (All t) = FileTypes.
Proof. reflexivity. Qed.

Lemma addReads_nth d t counts (i : nat) n : (i < FileTypes)%nat → counts !! i = Some n →
  addReads d (All t) counts !! i = Some (n + d * one (Z.testbit t (Z.of_nat i))).
Proof.
  intros Hi Hn. unfold addReads. rewrite lookup_zip_with, All_nth by done. simpl. rewrite Hn. simpl.
  f_equal. unfold one. destruct (Z.testbit t _); lia.
Qed.

Lemma length_addReads d t counts : length counts = FileTypes → length (addReads d (All t) counts) = FileTypes.
Proof. intros Hl. unfold addReads. rewrite length_zip_with_l_eq; [done|]. by rewrite Hl. Qed.

Lemma noReaders_iff t counts : length counts = FileTypes →
  (noReaders (All t) counts = true ↔
   ∀ (i : nat) n, (i < FileTypes)%nat → counts !! i = Some n → Z.testbit t (Z.of_nat i) = true → n ≤ 0).
Proof.
  intros Hl. unfold noReaders. rewrite forallb_forall. split.
  - intros H i n Hi Hn Ht. specialize (H (negb (true && bool_decide (0 < n)))).
    rewrite <- list_elem_of_In, list_elem_of_lookup in H. destruct (decide (0 < n)) as [Hp|]; [|lia].
    rewrite bool_decide_true in H by done. assert (id (negb (true && true)) = true); [|done]. apply H.
    exists i. rewrite lookup_zip_with, All_nth by done. simpl. rewrite Hn. simpl. by rewrite Ht, bool_decide_true.
  - intros H b Hb. rewrite <- list_elem_of_In in Hb. apply list_elem_of_lookup in Hb as (i&Hi).
    apply lookup_zip_with_Some in Hi as (f&n&->&Hf&Hn). assert (i < FileTypes)%nat as Hlt.
    { apply lookup_lt_Some in Hn. lia. }
    rewrite All_nth in Hf by done. injection Hf as <-. unfold id.
    destruct (Z.testbit t (Z.of_nat i)) eqn:Ht; [|done]. simpl. rewrite bool_decide_false; [done|].
    specialize (H _ _ Hlt Hn Ht). lia.
Qed.

(** Taking more locks does not make a lock available. *)
Lemma tryLock_keeps_busy slk slk' rd wr rd' wr' :
  length (r slk) = FileTypes → tryLock slk rd' wr' = Some slk' → canLock slk rd wr = false → canLock slk' rd wr = false.
Proof.
  intros Hl Ht Hc. unfold tryLock in Ht. destruct (canLock slk rd' wr') eqn:E; [|done]. injection Ht as <-.
  apply not_true_iff_false. apply not_true_iff_false in Hc. contradict Hc. unfold canLock in *. cbn [r w] in *.
  rewrite !andb_true_iff, !bool_decide_eq_true in *. destruct Hc as [[Hn Hr] Hw].
  rewrite (noReaders_iff wr (addReads 1 (All rd') (r slk))) in Hn by (by rewrite length_addReads).
  split; [split|].
  - apply noReaders_iff; [done|]. intros i n Hi Hin Hb.
    specialize (Hn i _ Hi (addReads_nth 1 rd' _ i n Hi Hin) Hb). unfold one in Hn. case_match; lia.
  - rewrite land_disjoint in *. intros i Hi Hb. apply Hr; [done|]. by rewrite Z.lor_spec, Hb.
  - rewrite land_disjoint in *. intros i Hi Hb. apply Hw; [done|]. by rewrite Z.lor_spec, Hb.
Qed.

(** ** The invariant *)

(** The counters of a lock count the calls that have it. *)
Record lockOk (cs : gmap nat call) (l : nat) (slk : sectorLock) : Prop := {
  ok_refs : refs slk = countCalls (usesLock l) cs;
  ok_length : length (r slk) = FileTypes;
  ok_reads : ∀ i : nat, (i < FileTypes)%nat → r slk !! i = Some (countCalls (readsType l (Z.of_nat i)) cs);
  ok_writer : ∀ i, 0 ≤ i → Z.testbit (w slk) i = true → ∃ c k, cs !! c = Some k ∧ writesType l i k = true;
  ok_writes : ∀ c k i, cs !! c = Some k → fileType i → writesType l i k = true → Z.testbit (w slk) i = true
}.

(** The index has a lock exactly for the sectors of calls that use one. *)
Record mapOk (x : world) : Prop := {
  map_uses : ∀ c k l, calls x !! c = Some k → usesLock l k = true → locks x !! sector k = Some l;
  map_used : ∀ s l, locks x !! s = Some l → ∃ c k, calls x !! c = Some k ∧ sector k = s ∧ usesLock l k = true;
  map_heap : ∀ s l, locks x !! s = Some l → is_Some (heap x !! l);
  map_inj : ∀ s s' l, locks x !! s = Some l → locks x !! s' = Some l → s = s'
}.

Record inv (x : world) : Prop := {
  inv_map : mapOk x;
  inv_heap : ∀ l, is_Some (heap x !! l) → (l < nextLock x)%nat;
  inv_lock : ∀ l slk, heap x !! l = Some slk → lockOk (calls x) l slk;
  inv_excl : ∀ c c' k k' l, calls x !! c = Some k → calls x !! c' = Some k' → c ≠ c' →
    holdsLock l k = true → holdsLock l k' = true → ¬ conflict (read k) (write k) (read k') (write k');
  inv_sleep : ∀ c k l ch, calls x !! c = Some k → st k = Asleep l ch →
    ch ∈ closed x ∨ ∃ slk, heap x !! l = Some slk ∧ notif slk = Some ch ∧ canLock slk (read k) (write k) = false
}.

Lemma conflict_sym rd wr rd' wr' : conflict rd wr rd' wr' → conflict rd' wr' rd wr.
Proof. intros (i&Hi&H). exists i. naive_solver. Qed.

Lemma holds_uses l k : holdsLock l k = true → usesLock l k = true.
Proof. unfold holdsLock, usesLock. by destruct (st k). Qed.

(** What a call said before a step, when it was there. *)
Definition before (P : call → bool) (cs : gmap nat call) (c : nat) : bool :=
  match cs !! c with Some k => P k | None => false end.

Lemma count_upd P cs c k : countCalls P (<[c := k]> cs) = countCalls P cs - one (before P cs c) + one (P k).
Proof.
  unfold before. destruct (cs !! c) as [k0|] eqn:E; [by apply count_set|].
  rewrite count_new by done. simpl. lia.
Qed.

Lemma reads_before l i cs c : before (holdsLock l) cs c = false → before (readsType l i) cs c = false.
Proof. unfold before, readsType. destruct (cs !! c); [|done]. by intros ->. Qed.

Lemma reads_if b l i k : holdsLock l k = b → readsType l i k = b && Z.testbit (read k) i.
Proof. unfold readsType. by intros ->. Qed.

(** A step of a call that neither had the lock nor has it then. *)
Lemma lockOk_idle cs c k l slk slk' : lockOk cs l slk →
  before (holdsLock l) cs c = false → holdsLock l k = false →
  refs slk' = refs slk - one (before (usesLock l) cs c) + one (usesLock l k) → r slk' = r slk → w slk' = w slk →
  lockOk (<[c := k]> cs) l slk'.
Proof.
  intros [Hr Hl Hrd Hw1 Hw2] Hb Hk Er Ec Ew. constructor.
  - by rewrite Er, Hr, count_upd.
  - by rewrite Ec.
  - intros i Hi. rewrite Ec, Hrd, count_upd, reads_before, (reads_if _ _ _ _ Hk) by done. simpl. f_equal. lia.
  - intros i Hi Hb'. rewrite Ew in Hb'. destruct (Hw1 i Hi Hb') as (c0&k0&Hc0&Hk0). exists c0, k0.
    split; [|done]. rewrite lookup_insert_ne; [done|]. intros <-. unfold before in Hb. rewrite Hc0 in Hb.
    unfold writesType in Hk0. by rewrite Hb in Hk0.
  - intros c0 k0 i Hc0 Hi Hk0. rewrite Ew. destruct (decide (c = c0)) as [<-|Hne].
    + rewrite lookup_insert_eq in Hc0. injection Hc0 as <-. unfold writesType in Hk0. by rewrite Hk in Hk0.
    + rewrite lookup_insert_ne in Hc0 by done. by eapply Hw2.
Qed.

(** A lock that is granted conflicts with no call that has one. *)
Lemma canLock_sound cs l slk rd wr c k : lockOk cs l slk → canLock slk rd wr = true →
  cs !! c = Some k → holdsLock l k = true → ¬ conflict rd wr (read k) (write k).
Proof.
  intros Hok Hc Hk Hh (i&Hi&Hcon). unfold canLock in Hc. rewrite !andb_true_iff, !bool_decide_eq_true in Hc.
  destruct Hc as [[Hn Hr] Hw]. rewrite land_disjoint in Hr, Hw.
  assert (Z.testbit (write k) i = true → Z.testbit (w slk) i = true) as Hwr.
  { intros E. eapply ok_writes; [done..|]. unfold writesType. by rewrite Hh, E. }
  destruct Hcon as [[Hwi [Hrk|Hwk]]|[Hri Hwk]].
  - rewrite (noReaders_iff wr (r slk) (ok_length _ _ _ Hok)) in Hn.
    specialize (Hn (Z.to_nat i) _ ltac:(lia) (ok_reads _ _ _ Hok (Z.to_nat i) ltac:(lia))).
    rewrite Z2Nat.id in Hn by lia. specialize (Hn Hwi).
    pose proof (count_ge1 (readsType l i) cs c k Hk). unfold readsType in *. rewrite Hh, Hrk in *. simpl in *. lia.
  - rewrite (Hw i) in Hwi; [done|lia|auto].
  - rewrite (Hr i) in Hri; [done|lia|auto].
Qed.

(** Taking a lock. *)
Lemma lockOk_take cs c k l slk slk' : lockOk cs l slk → cs !! c = Some k → st k = Entered l →
  tryLock slk (read k) (write k) = Some slk' → lockOk (<[c := setSt k (Held l)]> cs) l slk'.
Proof.
  intros Hok Hc Hs Ht. unfold tryLock in Ht. destruct (canLock _ _ _) eqn:Hcan; [|done]. injection Ht as <-.
  assert (before (holdsLock l) cs c = false) as Hb by (unfold before, holdsLock; by rewrite Hc, Hs).
  assert (holdsLock l (setSt k (Held l)) = true) as Hh by (by apply bool_decide_true).
  constructor; cbn [refs r w].
  - rewrite (ok_refs _ _ _ Hok), count_upd. unfold before. rewrite Hc, (holds_uses _ _ Hh). replace (usesLock l k) with true; [simpl; lia|].
    unfold usesLock. rewrite Hs. symmetry. by apply bool_decide_true.
  - apply length_addReads, Hok.
  - intros i Hi. rewrite (addReads_nth _ _ _ _ _ Hi (ok_reads _ _ _ Hok i Hi)).
    rewrite count_upd, reads_before, (reads_if _ _ _ _ Hh) by done. simpl. f_equal. unfold one. case_match; lia.
  - intros i Hi Hb'. rewrite Z.lor_spec, orb_true_iff in Hb'. destruct Hb' as [Hb'|Hb'].
    + destruct (ok_writer _ _ _ Hok i Hi Hb') as (c0&k0&Hc0&Hk0). exists c0, k0. split; [|done].
      rewrite lookup_insert_ne; [done|]. intros <-. unfold before in Hb. rewrite Hc0 in Hb.
      unfold writesType in Hk0. by rewrite Hb in Hk0.
    + exists c, (setSt k (Held l)). rewrite lookup_insert_eq. split; [done|]. unfold writesType. rewrite Hh. done.
  - intros c0 k0 i Hc0 Hi Hk0. rewrite Z.lor_spec, orb_true_iff. destruct (decide (c = c0)) as [<-|Hne].
    + rewrite lookup_insert_eq in Hc0. injection Hc0 as <-. right. unfold writesType in Hk0. by rewrite Hh in Hk0.
    + rewrite lookup_insert_ne in Hc0 by done. left. by eapply ok_writes.
Qed.

(** Giving a lock back. *)
Lemma lockOk_give cs c k l slk : lockOk cs l slk → cs !! c = Some k → st k = Held l →
  (∀ c' k', cs !! c' = Some k' → c' ≠ c → holdsLock l k' = true → ¬ conflict (read k) (write k) (read k') (write k')) →
  lockOk (<[c := setSt k Released]> cs) l (addRef (-1) (unlock slk (read k) (write k)).1).
Proof.
  intros Hok Hc Hs Hex. assert (holdsLock l k = true) as Hh by (unfold holdsLock; rewrite Hs; by apply bool_decide_true).
  constructor; cbn [refs r w addRef unlock Broadcast fst].
  - rewrite (ok_refs _ _ _ Hok), count_upd. unfold before. rewrite Hc, (holds_uses _ _ Hh). simpl. lia.
  - apply length_addReads, Hok.
  - intros i Hi. rewrite (addReads_nth _ _ _ _ _ Hi (ok_reads _ _ _ Hok i Hi)), count_upd.
    unfold before. rewrite Hc, (reads_if _ _ _ _ Hh), (reads_if false) by done. simpl. f_equal. unfold one. case_match; lia.
  - intros i Hi Hb. rewrite Z.land_spec, Z.lnot_spec, andb_true_iff, negb_true_iff in Hb by done. destruct Hb as [Hb Hn].
    destruct (ok_writer _ _ _ Hok i Hi Hb) as (c0&k0&Hc0&Hk0). exists c0, k0. split; [|done].
    rewrite lookup_insert_ne; [done|]. intros <-. rewrite Hc in Hc0. injection Hc0 as <-.
    unfold writesType in Hk0. rewrite Hn, andb_false_r in Hk0. done.
  - intros c0 k0 i Hc0 Hi Hk0. destruct (decide (c = c0)) as [<-|Hne].
    + rewrite lookup_insert_eq in Hc0. injection Hc0 as <-. done.
    + rewrite lookup_insert_ne in Hc0 by done.
      rewrite Z.land_spec, Z.lnot_spec, (ok_writes _ _ _ Hok _ _ _ Hc0 Hi Hk0) by lia. simpl. apply negb_true_iff.
      unfold writesType in Hk0. apply andb_true_iff in Hk0 as [Hh0 Hw0]. apply not_true_iff_false. intros Hwk.
      apply (Hex _ _ Hc0 ltac:(done) Hh0). exists i. auto.
Qed.

(** ** Preservation *)

(** A step of call [c], from the calls of [x] to those of [y], that touches only lock [l]. *)
Lemma inv_step x y c k l slk' : inv x →
  calls y = <[c := k]> (calls x) → heap y = <[l := slk']> (heap x) → closed x ⊆ closed y →
  (nextLock x ≤ nextLock y)%nat → (l < nextLock y)%nat → mapOk y → lockOk (calls y) l slk' →
  (∀ l', l' ≠ l → before (holdsLock l') (calls x) c = false ∧ holdsLock l' k = false ∧
                  before (usesLock l') (calls x) c = usesLock l' k) →
  (holdsLock l k = true → ∀ c' k', calls x !! c' = Some k' → c' ≠ c → holdsLock l k' = true →
     ¬ conflict (read k) (write k) (read k') (write k')) →
  (∀ slk ch rd wr, heap x !! l = Some slk → notif slk = Some ch → canLock slk rd wr = false →
     ch ∈ closed y ∨ (notif slk' = Some ch ∧ canLock slk' rd wr = false)) →
  (∀ l0 ch, st k = Asleep l0 ch → l0 = l ∧ (ch ∈ closed y ∨ (notif slk' = Some ch ∧ canLock slk' (read k) (write k) = false))) →
  inv y.
Proof.
  intros Hx Ec Eh Hcl Hnl Hl Hm Hok Hoth Hex Hsl Hslk. constructor; [done|..].
  - intros l0. rewrite Eh. destruct (decide (l = l0)) as [<-|Hne]; [done|].
    rewrite lookup_insert_ne by done. intros H%(inv_heap _ Hx). lia.
  - intros l0 slk. rewrite Eh. destruct (decide (l = l0)) as [<-|Hne].
    + rewrite lookup_insert_eq. intros [= <-]. done.
    + rewrite lookup_insert_ne by done. intros H. destruct (Hoth l0 ltac:(done)) as (B1&B2&B3).
      rewrite Ec. eapply lockOk_idle; [by apply inv_lock|done..| |done|done]. rewrite B3. lia.
  - intros c1 c2 k1 k2 l0. rewrite Ec. intros H1 H2 Hne Hh1 Hh2.
    destruct (decide (c = c1)) as [<-|N1]; [|destruct (decide (c = c2)) as [<-|N2]].
    + rewrite lookup_insert_eq in H1. injection H1 as <-. rewrite lookup_insert_ne in H2 by done.
      destruct (decide (l0 = l)) as [->|Hl0]; [|destruct (Hoth l0 Hl0); naive_solver congruence]. by eapply Hex.
    + rewrite lookup_insert_eq in H2. injection H2 as <-. rewrite lookup_insert_ne in H1 by done.
      destruct (decide (l0 = l)) as [->|Hl0]; [|destruct (Hoth l0 Hl0); naive_solver congruence].
      intros Hc%conflict_sym. revert Hc. by eapply Hex.
    + rewrite lookup_insert_ne in H1, H2 by done. by eapply inv_excl.
  - intros c0 k0 l0 ch. rewrite Ec. destruct (decide (c = c0)) as [<-|Hne].
    + rewrite lookup_insert_eq. intros [= <-] Hst. destruct (Hslk _ _ Hst) as [-> [?|[? ?]]]; [by left|right].
      exists slk'. by rewrite Eh, lookup_insert_eq.
    + rewrite lookup_insert_ne by done. intros Hk Hst.
      destruct (inv_sleep _ Hx _ _ _ _ Hk Hst) as [Hc|(slk&Hs&Hn&Hcan)]; [left; set_solver|].
      rewrite Eh. destruct (decide (l = l0)) as [<-|Hnl0].
      * destruct (Hsl _ _ _ _ Hs Hn Hcan) as [?|[? ?]]; [by left|right]. exists slk'. by rewrite lookup_insert_eq.
      * right. exists slk. by rewrite lookup_insert_ne.
Qed.

(** The index when a call goes on with the same lock. *)
Lemma mapOk_same x y c k k' : mapOk x → calls x !! c = Some k → calls y = <[c := k']> (calls x) →
  sector k' = sector k → (∀ l, usesLock l k' = usesLock l k) → locks y = locks x →
  (∀ l, is_Some (heap x !! l) → is_Some (heap y !! l)) → mapOk y.
Proof.
  intros [M1 M2 M3 M4] Hc Ec Es Eu El Eh. constructor.
  - intros c0 k0 l. rewrite Ec, El. destruct (decide (c = c0)) as [<-|Hne].
    + rewrite lookup_insert_eq. intros [= <-]. rewrite Eu, Es. by apply (M1 c).
    + rewrite lookup_insert_ne by done. apply M1.
  - intros s l. rewrite Ec, El. intros H. destruct (M2 _ _ H) as (c0&k0&H0&Hs&Hu).
    destruct (decide (c = c0)) as [<-|Hne].
    + exists c, k'. rewrite lookup_insert_eq. rewrite Hc in H0. injection H0 as <-. by rewrite Es, Eu.
    + exists c0, k0. by rewrite lookup_insert_ne.
  - intros s l. rewrite El. intros H. eauto.
  - intros s s' l. rewrite El. apply M4.
Qed.

(** Reads off the call that a step is about. *)
Ltac step_call H :=
  match type of H with
  | match calls ?x !! ?c with _ => _ end = Some _ =>
      let s := fresh "s" in let rd := fresh "rd" in let wr := fresh "wr" in let wt := fresh "wt" in
      let E := fresh "Ecall" in
      destruct (calls x !! c) as [[s rd wr wt []]|] eqn:E; try discriminate H
  end.

(** A step of a call that goes on waiting or gives up, with its lock as before or with a
    new channel. *)
Lemma inv_idle x y c k k' l slk slk' : inv x → calls x !! c = Some k → heap x !! l = Some slk →
  holdsLock l k = false → holdsLock l k' = false → sector k' = sector k → usesLock l k = true → usesLock l k' = true →
  calls y = <[c := k']> (calls x) → heap y = <[l := slk']> (heap x) → closed y = closed x → nextLock y = nextLock x →
  locks y = locks x → refs slk' = refs slk → r slk' = r slk → w slk' = w slk →
  (∀ ch, notif slk = Some ch → notif slk' = Some ch) →
  (∀ l0 ch, st k' = Asleep l0 ch → l0 = l ∧ notif slk' = Some ch ∧ canLock slk (read k') (write k') = false) → inv y.
Proof.
  intros Hx Hc Hl H1 H2 Es U1 U2 Ec Eh Ecl En El E1 E2 E3 Hn Hs.
  assert (∀ l', usesLock l' k = bool_decide (l' = l)) as V1.
  { intros l'. unfold usesLock in *. destruct (st k) as [| | | |[]]; try done; apply bool_decide_eq_true in U1; by subst. }
  assert (∀ l', usesLock l' k' = bool_decide (l' = l)) as V2.
  { intros l'. unfold usesLock in *. destruct (st k') as [| | | |[]]; try done; apply bool_decide_eq_true in U2; by subst. }
  assert (∀ rd wr, canLock slk' rd wr = canLock slk rd wr) as Hcan by (intros; unfold canLock; by rewrite E2, E3).
  assert (∀ l' k0, usesLock l' k0 = false → holdsLock l' k0 = false) as Hhu.
  { intros l' k0 E. apply not_true_iff_false. intros ?%holds_uses. congruence. }
  eapply (inv_step x y c k' l slk'); [done|done|done|set_solver|lia|rewrite En; eapply inv_heap; eauto|..].
  - eapply mapOk_same; [by apply inv_map|done..| |done|].
    + intros l'. by rewrite V1, V2.
    + intros l' Hl'. rewrite Eh. apply lookup_insert_is_Some. destruct (decide (l = l')); [by left|by right].
  - rewrite Ec. eapply lockOk_idle; [by apply inv_lock| |done| |done|done].
    + unfold before. by rewrite Hc.
    + unfold before. rewrite Hc, U1, U2, E1. lia.
  - intros l' Hl'. unfold before. rewrite Hc, V1, V2. split_and!; [|apply Hhu|done].
    + apply Hhu. rewrite V1. by apply bool_decide_false.
    + rewrite V2. by apply bool_decide_false.
  - congruence.
  - intros slk0 ch rd wr Hs0 Hn0 Hc0. right. rewrite Hl in Hs0. injection Hs0 as <-. rewrite Hcan. auto.
  - intros l0 ch Hst. destruct (Hs _ _ Hst) as (->&Hn'&Hc'). split; [done|]. right. by rewrite Hcan.
Qed.

(** The use of [inv_idle] when the lock itself does not change. *)
Ltac gives_up s rd wr wt status :=
  match goal with
  | Hx : inv ?x, Ec : calls ?x !! ?c = Some _, El : heap ?x !! ?l = Some ?slk |- _ =>
      apply (inv_idle x _ c _ (mkCall s rd wr wt status) l slk slk Hx Ec El); try done;
      [by apply bool_decide_true|by apply bool_decide_true|simpl; by rewrite insert_id]
  end.

Lemma inv_attempt x y c : inv x → attempt c x = Some y → inv y.
Proof.
  intros Hx Hst. unfold attempt in Hst. step_call Hst.
  destruct (heap x !! l) as [slk|] eqn:El; [|done].
  assert (∀ l', l' ≠ l → bool_decide (l' = l) = false) as Hbd by (intros; by apply bool_decide_false).
  destruct (tryLock slk rd wr) as [slk'|] eqn:Et; [|destruct wt].
  - injection Hst as <-. set (k := mkCall s rd wr wt (Entered l)) in *.
    eapply (inv_step x _ c (setSt k (Held l)) l slk'); [done|done|done|done|done|by apply (inv_heap x Hx), (mk_is_Some _ slk)|..].
    + eapply mapOk_same; [by apply inv_map|done..|]. intros l' Hl'. apply lookup_insert_is_Some.
      destruct (decide (l = l')); [by left|by right].
    + eapply lockOk_take; [by apply inv_lock|done..].
    + intros l' Hl'. unfold before. rewrite Ecall. unfold holdsLock, usesLock. simpl. auto.
    + intros _ c' k' Hc' Hne Hh. eapply canLock_sound; [by apply inv_lock| |done..].
      unfold tryLock in Et. by destruct (canLock slk rd wr) eqn:E.
    + intros slk0 ch rd0 wr0 Hs0 Hn0 Hc0. rewrite El in Hs0. injection Hs0 as <-. right.
      split; [|by eapply tryLock_keeps_busy; [eapply ok_length, inv_lock|..]].
      unfold tryLock in Et. destruct (canLock slk rd wr); [|done]. by injection Et as <-.
    + done.
  - destruct (register slk (nextChan x)) as [[slk' ch] next] eqn:Er. injection Hst as <-.
    assert (canLock slk rd wr = false) as Hcan by (unfold tryLock in Et; by destruct (canLock slk rd wr)).
    assert (notif slk' = Some ch ∧ refs slk' = refs slk ∧ r slk' = r slk ∧ w slk' = w slk ∧
            ∀ ch', notif slk = Some ch' → notif slk' = Some ch') as (R1&R2&R3&R4&R5).
    { unfold register in Er. destruct (notif slk) eqn:En; injection Er as <- <- <-; split_and!; simpl; done || congruence. }
    eapply (inv_idle x _ c _ (mkCall s rd wr true (Asleep l ch)) l slk slk' Hx Ecall El); try done.
    + by apply bool_decide_true.
    + by apply bool_decide_true.
    + intros l0 ch0 [= <- <-]. done.
  - injection Hst as <-. gives_up s rd wr false (NotLocked (Some l) None).
Qed.

Lemma inv_wake x y c : inv x → wake c x = Some y → inv y.
Proof.
  intros Hx Hst. unfold wake in Hst. step_call Hst. case_decide; [|done]. injection Hst as <-.
  destruct (map_heap _ (inv_map _ Hx) s l) as [slk El].
  { eapply (map_uses _ (inv_map _ Hx) _ _ l Ecall). by apply bool_decide_true. }
  gives_up s rd wr wt (Entered l).
Qed.

Lemma inv_cancel x y c : inv x → cancel c x = Some y → inv y.
Proof.
  intros Hx Hst. unfold cancel in Hst. step_call Hst. injection Hst as <-.
  destruct (map_heap _ (inv_map _ Hx) s l) as [slk El].
  { eapply (map_uses _ (inv_map _ Hx) _ _ l Ecall). by apply bool_decide_true. }
  gives_up s rd wr wt (NotLocked (Some l) (Some "context canceled")).
Qed.

(** A call that the guards turn away. *)
Lemma inv_rejected x c s rd wr wt err : inv x → calls x !! c = None →
  inv (mkWorld (locks x) (heap x) (closed x) (nextChan x) (nextLock x)
         (<[c := mkCall s rd wr wt (NotLocked None err)]> (calls x))).
Proof.
  intros Hx Hc. set (k := mkCall s rd wr wt (NotLocked None err)). destruct Hx as [[M1 M2 M3 M4] H1 H2 H3 H4].
  assert (∀ c' k', <[c := k]> (calls x) !! c' = Some k' → (c' = c ∧ k' = k) ∨ calls x !! c' = Some k') as Hl.
  { intros c' k' H. destruct (decide (c = c')) as [<-|]; [rewrite lookup_insert_eq in H|rewrite lookup_insert_ne in H by done];
      [left; by simplify_eq|by right]. }
  constructor; [constructor|..]; simpl.
  - intros c' k' l [[-> ->]|Hk]%Hl Hu; [done|eauto].
  - intros s0 l (c0&k0&H0&?)%M2. exists c0, k0. rewrite lookup_insert_ne; [done|]. intros <-. congruence.
  - done.
  - done.
  - done.
  - intros l slk Hs. eapply lockOk_idle; [by apply H2| |done| |done|done]; unfold before; rewrite Hc; simpl; [done|lia].
  - intros c1 c2 k1 k2 l [[-> ->]|K1]%Hl [[-> ->]|K2]%Hl Hne Hh1 Hh2; [done..|]. by eapply H3.
  - intros c0 k0 l ch [[-> ->]|Hk]%Hl Hst; [done|eauto].
Qed.

(** The index after a new call for sector [s] has looked up the lock [l]. *)
Lemma mapOk_enter x y c k l : mapOk x → calls x !! c = None → calls y = <[c := k]> (calls x) → st k = Entered l →
  locks y = <[sector k := l]> (locks x) → (∀ s, locks x !! s = Some l → s = sector k) →
  (∀ l', locks x !! sector k = Some l' → l' = l) →
  (∀ l', is_Some (heap x !! l') → is_Some (heap y !! l')) → is_Some (heap y !! l) → mapOk y.
Proof.
  intros [M1 M2 M3 M4] Hc Ec Est El Hinj Hsame Hh Hl.
  assert (∀ l', usesLock l' k = true → l' = l) as Hu.
  { intros l'. unfold usesLock. rewrite Est. apply bool_decide_eq_true. }
  constructor.
  - intros c0 k0 l0. rewrite Ec, El. destruct (decide (c = c0)) as [<-|Hne].
    + rewrite lookup_insert_eq. intros [= <-] ->%Hu. by rewrite lookup_insert_eq.
    + rewrite lookup_insert_ne by done. intros H0 Hu0. pose proof (M1 _ _ _ H0 Hu0) as Hs.
      destruct (decide (sector k = sector k0)) as [E|E]; [|by rewrite lookup_insert_ne].
      rewrite E, lookup_insert_eq. rewrite <- E in Hs. by rewrite (Hsame _ Hs).
  - intros s l0. rewrite Ec, El. destruct (decide (sector k = s)) as [<-|Hne].
    + rewrite lookup_insert_eq. intros [= <-]. exists c, k. rewrite lookup_insert_eq. split_and!; [done..|].
      unfold usesLock. rewrite Est. by apply bool_decide_true.
    + rewrite lookup_insert_ne by done. intros (c0&k0&H0&?)%M2. exists c0, k0.
      rewrite lookup_insert_ne; [done|]. intros <-. congruence.
  - intros s l0. rewrite El, lookup_insert_Some. intros [[_ <-]|[_ H]]; eauto.
  - intros s s' l0. rewrite El, !lookup_insert_Some. intros [[<- <-]|[? H]] [[<- E]|[? H']]; eauto; subst.
    + by rewrite (Hinj _ H').
    + by apply Hinj.
Qed.

Lemma lockOk_new cs l : (∀ c k, cs !! c = Some k → usesLock l k = false) → lockOk cs l newSectorLock.
Proof.
  intros Hu. assert (∀ c k, cs !! c = Some k → holdsLock l k = false) as Hh.
  { intros c k Hc. apply not_true_iff_false. intros H%holds_uses. by rewrite (Hu _ _ Hc) in H. }
  constructor; cbn [refs r w newSectorLock].
  - symmetry. by apply count_zero.
  - done.
  - intros i Hi. rewrite count_zero; [by apply lookup_replicate_2|]. intros c k Hc. unfold readsType. by rewrite (Hh _ _ Hc).
  - intros i _. by rewrite Z.bits_0.
  - intros c k i Hc Hi. unfold writesType. by rewrite (Hh _ _ Hc).
Qed.

(** A new call that has looked up lock [l], as it is or just made. *)
Lemma inv_entered x y c k l slk : inv x → calls x !! c = None → calls y = <[c := k]> (calls x) → st k = Entered l →
  lockOk (calls x) l slk → (heap x !! l = Some slk ∨ heap x !! l = None) → heap y = <[l := addRef 1 slk]> (heap x) →
  closed y = closed x → (nextLock x ≤ nextLock y)%nat → (l < nextLock y)%nat → mapOk y → inv y.
Proof.
  intros Hx Hc Ec Est Hok Hh Eh Ecl Hn Hl Hm.
  assert (∀ l', usesLock l' k = bool_decide (l' = l)) as Hu by (intros l'; unfold usesLock; by rewrite Est).
  assert (∀ l', holdsLock l' k = false) as Hho by (intros l'; unfold holdsLock; by rewrite Est).
  assert (∀ P, before P (calls x) c = false) as Hb by (intros P; unfold before; by rewrite Hc).
  eapply (inv_step x y c k l (addRef 1 slk)); [done|done|done|set_solver|done..| | | | |].
  - rewrite Ec. eapply lockOk_idle; [exact Hok|by rewrite Hb|done| |done|done]. rewrite Hb, Hu, bool_decide_true by done. simpl. lia.
  - intros l' Hne. rewrite !Hb, Hho, Hu, bool_decide_false; done.
  - by rewrite Hho.
  - intros slk0 ch rd wr Hs Hn0 Hc0. right. destruct Hh as [Hh|Hh]; [|congruence]. rewrite Hh in Hs. by injection Hs as <-.
  - rewrite Est. done.
Qed.

Lemma inv_enter x y c s rd wr wt : inv x → enter c s rd wr wt x = Some y → inv y.
Proof.
  intros Hx Hst. unfold enter in Hst. destruct (calls x !! c) eqn:Hc; [done|].
  case_decide; [injection Hst as <-; by apply inv_rejected|].
  case_decide; [injection Hst as <-; by apply inv_rejected|].
  pose proof (inv_map _ Hx) as Hm.
  destruct (locks x !! s) as [l|] eqn:Hs.
  - destruct (heap x !! l) as [slk|] eqn:Hl; [|done]. injection Hst as <-.
    eapply (inv_entered x _ c _ l slk); [done|done|done|done|by apply inv_lock|by left|done..|by apply (inv_heap x Hx), (mk_is_Some _ slk)|].
    eapply (mapOk_enter x _ c _ l); [done|done|done|done|by simpl; rewrite insert_id|..]; simpl.
    + intros s' Hs'. by eapply map_inj.
    + intros l' Hl'. congruence.
    + intros l' Hl'. apply lookup_insert_is_Some. destruct (decide (l = l')); [by left|by right].
    + by rewrite lookup_insert_eq.
  - injection Hst as <-. set (l := nextLock x).
    assert (heap x !! l = None) as Hl.
    { apply eq_None_not_Some. intros Hlt%(inv_heap _ Hx). unfold l in Hlt. lia. }
    eapply (inv_entered x _ c _ l newSectorLock); [done|done|done|done| |by right|done..|simpl; lia|simpl; unfold l; lia|].
    + apply lockOk_new. intros c0 k0 Hk0. apply not_true_iff_false. intros Hu.
      destruct (map_heap _ Hm _ _ (map_uses _ Hm _ _ _ Hk0 Hu)). congruence.
    + eapply (mapOk_enter x _ c _ l); [done|done|done|done|done|..]; simpl.
      * intros s' Hs'. destruct (map_heap _ Hm _ _ Hs'). congruence.
      * intros l' Hl'. congruence.
      * intros l' Hl'. apply lookup_insert_is_Some. destruct (decide (l = l')); [by left|by right].
      * by rewrite lookup_insert_eq.
Qed.

Lemma mapOk_release x y c k l : mapOk x → calls x !! c = Some k → st k = Held l →
  calls y = <[c := setSt k Released]> (calls x) → (∀ l', is_Some (heap x !! l') → is_Some (heap y !! l')) →
  (locks y = locks x ∧ 0 < countCalls (usesLock l) (calls y)) ∨
  (locks y = delete (sector k) (locks x) ∧ countCalls (usesLock l) (calls y) = 0) → mapOk y.
Proof.
  intros [M1 M2 M3 M4] Hc Hst Ec Eh Hor.
  assert (locks x !! sector k = Some l) as Hk.
  { eapply M1; [done|]. unfold usesLock. rewrite Hst. by apply bool_decide_true. }
  assert (∀ s l0, locks y !! s = Some l0 → locks x !! s = Some l0) as Hsub.
  { intros s l0. destruct Hor as [[-> _]|[-> _]]; [done|]. by intros [_ ?]%lookup_delete_Some. }
  constructor.
  - intros c0 k0 l0 H0 Hu0. rewrite Ec in H0. apply lookup_insert_Some in H0 as [[<- <-]|[Hne H0]]; [done|].
    pose proof (M1 _ _ _ H0 Hu0) as Hs. destruct Hor as [[-> _]|[-> Hz]]; [done|].
    apply lookup_delete_Some. split; [|done]. intros E. rewrite E in Hk. assert (l0 = l) as -> by congruence.
    pose proof (count_ge1 (usesLock l) (calls y) c0 k0) as Hge. rewrite Ec, lookup_insert_ne in Hge by done.
    specialize (Hge H0 Hu0). rewrite <- Ec in Hge. lia.
  - intros s l0 Hs. pose proof (Hsub _ _ Hs) as Hx. destruct (M2 _ _ Hx) as (c0&k0&H0&Es&Hu).
    destruct (decide (c0 = c)) as [->|Hne]; [|exists c0, k0; by rewrite Ec, lookup_insert_ne].
    rewrite Hc in H0. injection H0 as <-. unfold usesLock in Hu. rewrite Hst in Hu. apply bool_decide_eq_true in Hu as ->.
    destruct Hor as [[_ Hp]|[E _]].
    + apply count_pos in Hp as (c1&k1&H1&Hu1). exists c1, k1. split; [done|]. split; [|done].
      rewrite Ec in H1. apply lookup_insert_Some in H1 as [[<- <-]|[Hne H1]]; [done|]. eapply M4; [by eapply M1|done].
    + rewrite E, <- Es, lookup_delete_eq in Hs. done.
  - intros s l0 Hs%Hsub. eauto.
  - intros s s' l0 Hs%Hsub Hs'%Hsub. eauto.
Qed.

Lemma inv_release x y c : inv x → release c x = Some y → inv y.
Proof.
  intros Hx Hst. unfold release in Hst. step_call Hst. destruct (heap x !! l) as [slk|] eqn:El; [|done].
  destruct (unlock slk rd wr) as [slk1 chans] eqn:Eu. injection Hst as <-.
  set (k := mkCall s rd wr wt (Held l)) in *. set (slk' := addRef (-1) slk1).
  assert (lockOk (<[c := setSt k Released]> (calls x)) l slk') as Hok.
  { replace slk' with (addRef (-1) (unlock slk (read k) (write k)).1) by (unfold k, slk'; cbn [read write]; by rewrite Eu).
    apply lockOk_give; [by apply inv_lock|done..|]. intros c' k' Hc' Hne Hh.
    eapply inv_excl; [done..|by apply bool_decide_true|done]. }
  eapply (inv_step x _ c (setSt k Released) l slk'); [done|done|done|simpl; set_solver|done|by apply (inv_heap x Hx), (mk_is_Some _ slk)|..].
  - eapply (mapOk_release x _ c k l); [by apply inv_map|done..| |]; simpl.
    + intros l' Hl'. apply lookup_insert_is_Some. destruct (decide (l = l')); [by left|by right].
    + pose proof (ok_refs _ _ _ Hok) as Hr. pose proof (count_nonneg (usesLock l) (<[c := setSt k Released]> (calls x))).
      assert (refs slk' = refs slk1 + -1) by done. case_decide; [right|left]; (split; [done|]); lia.
  - done.
  - intros l' Hl'. unfold before. rewrite Ecall. unfold holdsLock, usesLock. simpl. by rewrite bool_decide_false.
  - done.
  - intros slk0 ch rd0 wr0 Hs0 Hn0 _. rewrite El in Hs0. injection Hs0 as <-. left. simpl.
    unfold unlock, Broadcast in Eu. injection Eu as _ <-. simpl. rewrite Hn0. set_solver.
  - done.
Qed.

Lemma inv_reachable x : reachable x → inv x.
Proof.
  induction 1 as [|x [] y Hr IH Hs].
  - constructor; [constructor|..]; simpl; intros *; rewrite ?lookup_empty; [done..|by intros []|done|done|done].
  - by eapply inv_enter.
  - by eapply inv_attempt.
  - by eapply inv_wake.
  - by eapply inv_cancel.
  - by eapply inv_release.
Qed.
