(* ===== verification/IndexLocksLive.v ===== *)
(** * Locks on sector files: what callers can rely on *)

From stdpp Require Import strings numbers base gmap fin_maps sets list.
From S2P Require Import Prelude GoSort FileTypes IndexLocks IndexLocksSpec.
Local Open Scope Z_scope.

#[local] Arguments All : simpl never.
#[local] Arguments addReads : simpl never.
#[local] Arguments noReaders : simpl never.

(** ** The file types of calls *)

(** The callers ask for sets of types, not for negative numbers. *)
Definition typed (x : world) : Prop := map_Forall (λ _ k, 0 ≤ read k ∧ 0 ≤ write k) (calls x).

(** A call changes neither what it asks for nor its sector. *)
Definition sameRequest (k k' : call) : Prop :=
  sector k' = sector k ∧ read k' = read k ∧ write k' = write k ∧ wait k' = wait k.

(** What a step does to the calls: one call is new and within the guards, or goes on. *)
Lemma step_calls x a y : step x a = Some y → ∃ c k', calls y = <[c := k']> (calls x) ∧
  ((calls x !! c = None ∧ (∀ l, usesLock l k' = true → Z.lor (read k') (write k') ≤ 31)) ∨
   ∃ k, calls x !! c = Some k ∧ sameRequest k k' ∧ ∀ l, usesLock l k' = true → usesLock l k = true).
Proof.
  destruct a as [c s rd wr wt|c|c|c|c]; simpl; intros Hs; exists c.
  - unfold enter in Hs. destruct (calls x !! c) eqn:Hc; [done|]. change (2 ^ Z.of_nat FileTypes - 1) with 31 in Hs.
    case_decide; [injection Hs as <-; eexists; (split; [done|]); by left|].
    case_decide; [injection Hs as <-; eexists; (split; [done|]); by left|].
    destruct (locks x !! s) as [l|]; [destruct (heap x !! l); [|done]|];
      injection Hs as <-; eexists; (split; [done|]); left; (split; [done|]); simpl; intros; lia.
  - unfold attempt in Hs. step_call Hs. destruct (heap x !! l); [|done].
    destruct (tryLock _ _ _); [|destruct wt; [destruct (register _ _) as [[? ?] ?]|]];
      injection Hs as <-; eexists; (split; [done|]); right; eexists; split_and!; done.
  - unfold wake in Hs. step_call Hs. case_decide; [|done].
    injection Hs as <-; eexists; (split; [done|]); right; eexists; split_and!; done.
  - unfold cancel in Hs. step_call Hs. injection Hs as <-; eexists; (split; [done|]); right; eexists; split_and!; done.
  - unfold release in Hs. step_call Hs. destruct (heap x !! l); [|done]. destruct (unlock _ _ _).
    injection Hs as <-; eexists; (split; [done|]); right; eexists; split_and!; done.
Qed.

(** The guard on unknown file types. *)
Lemma range_reachable x : reachable x →
  ∀ c k l, calls x !! c = Some k → usesLock l k = true → Z.lor (read k) (write k) ≤ 31.
Proof.
  induction 1 as [|x a y Hr IH Hs]; [intros *; simpl; by rewrite lookup_empty|].
  intros c0 k0 l Hc Hu. destruct (step_calls _ _ _ Hs) as (c&k'&E&Hor). rewrite E in Hc.
  apply lookup_insert_Some in Hc as [[<- <-]|[Hne Hc]]; [|by eapply IH].
  destruct Hor as [[_ H]|(k&Hk&(_&->&->&_)&H)]; eauto.
Qed.

Lemma typed_bits rd wr i : 0 ≤ rd → 0 ≤ wr → Z.lor rd wr ≤ 31 → 5 ≤ i → Z.testbit rd i = false ∧ Z.testbit wr i = false.
Proof.
  intros Hr Hw Hl Hi. assert (0 ≤ Z.lor rd wr) as H0 by (by apply Z.lor_nonneg).
  assert (Z.testbit (Z.lor rd wr) i = false) as Hb.
  { destruct (decide (Z.lor rd wr = 0)) as [->|]; [apply Z.bits_0|]. apply Z.bits_above_log2; [done|].
    apply Z.log2_lt_pow2; [lia|]. pose proof (Z.pow_le_mono_r 2 5 i ltac:(lia) Hi). lia. }
  rewrite Z.lor_spec in Hb. by apply orb_false_iff in Hb.
Qed.

(** A lock that no call conflicts with is granted. *)
Lemma canLock_complete cs l slk rd wr : lockOk cs l slk → 0 ≤ rd → 0 ≤ wr → Z.lor rd wr ≤ 31 →
  (∀ c k, cs !! c = Some k → holdsLock l k = true → ¬ conflict rd wr (read k) (write k)) → canLock slk rd wr = true.
Proof.
  intros Hok Hr Hw Hl Hn.
  assert (∀ i t, 0 ≤ i → Z.testbit (w slk) i = true → t = rd ∨ t = wr → Z.testbit t i = true → False) as Hwr.
  { intros i t Hi Hb Ht Hti. destruct (ok_writer _ _ _ Hok i Hi Hb) as (c&k&Hc&Hk). apply andb_true_iff in Hk as [Hh Hk].
    destruct (decide (5 ≤ i)) as [H5|H5].
    - destruct (typed_bits rd wr i) as [E1 E2]; [done..|]. destruct Ht; congruence.
    - apply (Hn _ _ Hc Hh). exists i. split; [unfold FileTypes; lia|]. destruct Ht as [->| ->]; auto. }
  unfold canLock. rewrite !andb_true_iff, !bool_decide_eq_true, !land_disjoint.
  rewrite (noReaders_iff wr (r slk) (ok_length _ _ _ Hok)). split_and!.
  - intros i n Hi Hin Hb. rewrite (ok_reads _ _ _ Hok i Hi) in Hin. injection Hin as <-.
    apply Z.nlt_ge. intros (c&k&Hc&Hk)%count_pos. apply andb_true_iff in Hk as [Hh Hk].
    apply (Hn _ _ Hc Hh). exists (Z.of_nat i). split; [lia|]. auto.
  - intros i Hi Hb. apply not_true_iff_false. intros Ht. by apply (Hwr i rd Hi Hb); [left|].
  - intros i Hi Hb. apply not_true_iff_false. intros Ht. by apply (Hwr i wr Hi Hb); [right|].
Qed.

(** The lock of a call and the lock of its sector are the same. *)
Lemma same_lock x c c' k k' l l' : inv x → calls x !! c = Some k → calls x !! c' = Some k' →
  usesLock l k = true → usesLock l' k' = true → sector k = sector k' → l = l'.
Proof.
  intros Hx Hc Hc' Hu Hu' Hs. pose proof (map_uses _ (inv_map _ Hx) _ _ _ Hc Hu) as E.
  pose proof (map_uses _ (inv_map _ Hx) _ _ _ Hc' Hu') as E'. rewrite Hs in E. congruence.
Qed.

Lemma held_holds k l : st k = Held l → holdsLock l k = true.
Proof. unfold holdsLock. intros ->. by apply bool_decide_true. Qed.

Lemma holds_held l k : holdsLock l k = true → st k = Held l.
Proof. unfold holdsLock. destruct (st k); try done. intros E%bool_decide_eq_true. by subst. Qed.

(** C19. Mutual exclusion: at every point of every interleaving of calls, two calls that
    have locks on the same sector do not conflict: a file type that one of them
    writes is neither read nor written by the other. *)
Theorem locks_exclude x c c' k k' l l' : reachable x →
  calls x !! c = Some k → calls x !! c' = Some k' → c ≠ c' → sector k = sector k' →
  st k = Held l → st k' = Held l' → ¬ conflict (read k) (write k) (read k') (write k').
Proof.
  intros Hr%inv_reachable Hc Hc' Hne Hs Hl%held_holds Hl'%held_holds.
  rewrite <- (same_lock _ _ _ _ _ l l' Hr Hc Hc') in Hl' by (done || by apply holds_uses).
  by eapply inv_excl.
Qed.

(** No call that has the lock of [k] conflicts with it. *)
Definition free (x : world) (l : nat) (k : call) : Prop :=
  ∀ c k', calls x !! c = Some k' → st k' = Held l → ¬ conflict (read k) (write k) (read k') (write k').

Lemma canLock_free x c k l slk : reachable x → typed x → calls x !! c = Some k → usesLock l k = true →
  heap x !! l = Some slk → (canLock slk (read k) (write k) = true ↔ free x l k).
Proof.
  intros Hr Ht Hc Hu Hl. pose proof (inv_lock _ (inv_reachable _ Hr) _ _ Hl) as Hok. split.
  - intros Hcan c' k' Hc' Hh%held_holds. by eapply canLock_sound.
  - intros Hf. destruct (Ht _ _ Hc) as [H1 H2]. eapply canLock_complete; [done..|by eapply range_reachable|].
    intros c' k' Hc' Hh%holds_held. by eapply Hf.
Qed.

Lemma used_lock x c k l : reachable x → calls x !! c = Some k → usesLock l k = true → ∃ slk, heap x !! l = Some slk.
Proof.
  intros Hr%inv_reachable Hc Hu. by apply (map_heap _ (inv_map _ Hr) (sector k)), (map_uses _ (inv_map _ Hr) c).
Qed.

Lemma attempt_result x c k l : reachable x → typed x → calls x !! c = Some k → st k = Entered l →
  ∃ y k', attempt c x = Some y ∧ calls y !! c = Some k' ∧ (st k' = Held l ↔ free x l k) ∧
    (st k' ≠ Held l → if wait k then ∃ ch, st k' = Asleep l ch else StorageTryLock_reply k' = Some (false, None)).
Proof.
  intros Hr Ht Hc Hs. assert (usesLock l k = true) as Hu by (unfold usesLock; rewrite Hs; by apply bool_decide_true).
  destruct (used_lock _ _ _ _ Hr Hc Hu) as [slk Hl]. pose proof (canLock_free _ _ _ _ _ Hr Ht Hc Hu Hl) as Hf.
  unfold attempt. rewrite Hc. destruct k as [s rd wr wt stk]. simpl in Hs. subst stk. rewrite Hl. unfold tryLock.
  cbn [read write] in Hf. destruct (canLock slk rd wr).
  - eexists _, _. split; [done|]. split; [apply lookup_insert_eq|]. simpl. naive_solver.
  - assert (¬ free x l (mkCall s rd wr wt (Entered l))) as Hnf by (intros ?%Hf; done).
    destruct wt; [destruct (register _ _) as [[slk' ch] next]|]; eexists _, _; (split; [done|]);
      (split; [apply lookup_insert_eq|]); simpl; naive_solver.
Qed.

(** A lock is granted exactly when it may be: an attempt takes it when no call that
    has the lock of the sector conflicts; otherwise [StorageTryLock] returns false
    without an error and [StorageLock] goes to sleep. *)
Theorem attempt_grants_exactly x c k l : reachable x → typed x → calls x !! c = Some k → st k = Entered l →
  ∃ y k', attempt c x = Some y ∧ calls y !! c = Some k' ∧ (st k' = Held l ↔ free x l k) ∧
    (st k' ≠ Held l → if wait k then ∃ ch, st k' = Asleep l ch else StorageTryLock_reply k' = Some (false, None)).
Proof. apply attempt_result. Qed.

(** ** Waiting *)

Lemma run_app x y l l' : run x l = Some y → run x (l ++ l') = run y l'.
Proof.
  revert x. induction l as [|a l IH]; simpl; intros x E; [by injection E as ->|].
  destruct (step x a); [|done]. auto.
Qed.

Lemma typed_set x y c k s : typed x → calls x !! c = Some k → calls y = <[c := setSt k s]> (calls x) → typed y.
Proof. intros Ht Hc E. unfold typed. rewrite E. apply map_Forall_insert_2; [|done]. apply (Ht _ _ Hc). Qed.

Lemma release_result x c k l : reachable x → calls x !! c = Some k → st k = Held l →
  ∃ y, release c x = Some y ∧ calls y = <[c := setSt k Released]> (calls x).
Proof.
  intros Hr Hc Hs. destruct (used_lock x c k l Hr Hc) as [slk Hl]; [by apply holds_uses, held_holds|].
  unfold release. rewrite Hc. destruct k as [s rd wr wt stk]. simpl in Hs. subst stk. rewrite Hl.
  destruct (unlock slk rd wr). eauto.
Qed.

Lemma wake_result x c k l ch : calls x !! c = Some k → st k = Asleep l ch → ch ∈ closed x →
  ∃ y, wake c x = Some y ∧ calls y = <[c := setSt k (Entered l)]> (calls x).
Proof.
  intros Hc Hs Hin. unfold wake. rewrite Hc. destruct k as [s rd wr wt stk]. simpl in Hs. subst stk.
  rewrite decide_True by done. eauto.
Qed.

(** When the calls that have a lock are done one after the other, it is free. *)
Lemma release_all l n : ∀ x, reachable x → typed x → countCalls (holdsLock l) (calls x) = Z.of_nat n →
  ∃ cs y, run x (map Release cs) = Some y ∧ reachable y ∧ typed y ∧
    (∀ c, c ∈ cs → ∃ k, calls x !! c = Some k ∧ st k = Held l) ∧
    (∀ c k, calls y !! c = Some k → st k ≠ Held l) ∧ (∀ c k, calls x !! c = Some k → st k ≠ Held l → calls y !! c = Some k).
Proof.
  induction n as [|n IH]; intros x Hr Ht Hn.
  - exists [], x. split_and!; try done; [set_solver|].
    intros c k Hc Hs%held_holds. pose proof (count_ge1 _ _ _ _ Hc Hs). lia.
  - destruct (proj1 (count_pos (holdsLock l) (calls x))) as (c&k&Hc&Hh); [lia|].
    destruct (release_result x c k l Hr Hc) as (x1&E1&Ec1); [by apply holds_held|].
    assert (step x (Release c) = Some x1) as Hs1 by done.
    assert (reachable x1) as Hr1 by (by eapply reachable_step).
    destruct (IH x1 Hr1) as (cs&y&Ey&Hry&Hty&Hcs&Hno&Hk); [by eapply typed_set| |].
    { rewrite Ec1, (count_set _ _ _ _ _ Hc), Hh. simpl. lia. }
    exists (c :: cs), y. split_and!; [simpl; by rewrite E1|done..| |done|].
    + intros c0 [->|H0]%elem_of_cons; [exists k; split; [done|by apply holds_held]|].
      destruct (Hcs _ H0) as (k0&H0'&Hs0). rewrite Ec1 in H0'.
      apply lookup_insert_Some in H0' as [[<- <-]|[_ H0']]; [done|eauto].
    + intros c0 k0 H0 Hs0. apply Hk; [|done]. rewrite Ec1, lookup_insert_ne; [done|]. intros <-.
      rewrite Hc in H0. injection H0 as <-. by apply Hs0, holds_held.
Qed.

(** C20. No wake-up is lost: a call that sleeps can be woken now, or some call that has
    the lock still conflicts with it; and from every state, once the calls that have
    the lock of its sector are done, the sleeping call wakes up and takes it. *)
Theorem sleeping_call_can_proceed x c k l ch : reachable x → typed x →
  calls x !! c = Some k → st k = Asleep l ch →
  (ch ∈ closed x ∨ ¬ free x l k) ∧
  ∃ cs y k', (∀ c', c' ∈ cs → ∃ k', calls x !! c' = Some k' ∧ sector k' = sector k ∧ st k' = Held l) ∧
    run x (map Release cs ++ [Wake c; Attempt c]) = Some y ∧ calls y !! c = Some k' ∧ st k' = Held l.
Proof.
  assert (∀ x, reachable x → typed x → calls x !! c = Some k → st k = Asleep l ch → ch ∈ closed x ∨ ¬ free x l k) as Hwake.
  { intros x0 Hr Ht Hc Hs. destruct (inv_sleep _ (inv_reachable _ Hr) _ _ _ _ Hc Hs) as [|(slk&Hl&_&Hcan)]; [by left|right].
    intros Hf. rewrite <- (canLock_free x0 c k l slk), Hcan in Hf; [done..| |done].
    unfold usesLock. rewrite Hs. by apply bool_decide_true. }
  intros Hr Ht Hc Hs. split; [by apply Hwake|].
  destruct (release_all l (Z.to_nat (countCalls (holdsLock l) (calls x))) x Hr Ht) as (cs&y&Ey&Hry&Hty&Hcs&Hno&Hk).
  { pose proof (count_nonneg (holdsLock l) (calls x)). lia. }
  assert (calls y !! c = Some k) as Hcy by (apply Hk; [done|congruence]).
  destruct (Hwake y Hry Hty Hcy Hs) as [Hin|Hnf]; [|exfalso; apply Hnf; intros c' k' Hc' Hh; by destruct (Hno _ _ Hc')].
  destruct (wake_result y c k l ch Hcy Hs Hin) as (y1&E1&Ec1).
  assert (step y (Wake c) = Some y1) as Hs1 by done. assert (reachable y1) as Hr1 by (by eapply reachable_step).
  destruct (attempt_result y1 c (setSt k (Entered l)) l) as (y2&k'&E2&Ec2&Hiff&_); [done|by eapply typed_set| |done|].
  { by rewrite Ec1, lookup_insert_eq. }
  exists cs, y2, k'. split_and!.
  - intros c' Hc'. destruct (Hcs _ Hc') as (k0&Hk0&Hs0). exists k0. split_and!; [done| |done].
    eapply (map_inj _ (inv_map _ (inv_reachable _ Hr)) _ _ l); eapply map_uses; try (by apply inv_map, inv_reachable); try done.
    + by apply holds_uses, held_holds.
    + unfold usesLock. rewrite Hs. by apply bool_decide_true.
  - rewrite (run_app _ _ _ _ Ey). simpl. by rewrite E1, E2.
  - done.
  - apply Hiff. intros c' k0 Hk0 Hs0. rewrite Ec1 in Hk0. apply lookup_insert_Some in Hk0 as [[<- <-]|[_ Hk0]]; [done|].
    by destruct (Hno _ _ Hk0).
Qed.

(** ** The index and its report *)

(** The report is exact: [StorageGetLocks] lists a sector exactly when a call uses its
    lock or has failed to get it, with the number of calls that read each file type
    and a mark at each type that a call writes. *)
Theorem StorageGetLocks_reports_holders x : reachable x →
  (∀ s, (∃ i, i ∈ StorageGetLocks x ∧ Sector i = s) ↔ ∃ c k l, calls x !! c = Some k ∧ sector k = s ∧ usesLock l k = true) ∧
  ∀ i, i ∈ StorageGetLocks x → ∃ l, locks x !! Sector i = Some l ∧ ∀ t : nat, (t < FileTypes)%nat →
    Read i !! t = Some (countCalls (readsType l (Z.of_nat t)) (calls x)) ∧
    ((∃ c k, calls x !! c = Some k ∧ writesType l (Z.of_nat t) k = true) ↔ Write i !! t = Some 1).
Proof.
  intros Hr%inv_reachable. pose proof (inv_map _ Hr) as Hm.
  assert (∀ i, i ∈ StorageGetLocks x ↔ ∃ s l, locks x !! s = Some l ∧ lockInfo x s l = Some i) as Hin.
  { intros i. unfold StorageGetLocks. rewrite sortBy_Permutation, list_elem_of_omap. split.
    - intros ([s l]&Hs%elem_of_map_to_list&Hi). eauto.
    - intros (s&l&Hs&Hi). exists (s, l). by rewrite elem_of_map_to_list. }
  split.
  - intros s. split.
    + intros (i&(s'&l&Hs&Hi)%Hin&Es). destruct (map_used _ Hm _ _ Hs) as (c&k&Hc&Hk&Hu). exists c, k, l.
      split_and!; [done| |done]. unfold lockInfo in Hi. destruct (heap x !! l); [|done]. injection Hi as <-. simpl in Es. congruence.
    + intros (c&k&l&Hc&Hs&Hu). pose proof (map_uses _ Hm _ _ _ Hc Hu) as Hl. destruct (map_heap _ Hm _ _ Hl) as [slk Hh].
      eexists. split; [apply Hin; exists (sector k), l; split; [done|unfold lockInfo; by rewrite Hh]|done].
  - intros i (s&l&Hs&Hi)%Hin. unfold lockInfo in Hi. destruct (heap x !! l) as [slk|] eqn:Hh; [|done].
    assert (Sector i = s ∧ Read i = r slk ∧ Write i = map (λ b : bool, if b then 1 else 0) (All (w slk))) as (->&->&->)
      by (by injection Hi as <-).
    exists l. split; [done|]. intros t Hlt. pose proof (inv_lock _ Hr _ _ Hh) as Hok.
    split; [by apply ok_reads|]. 
    assert (map (λ b : bool, if b then 1 else 0) (All (w slk)) !! t = Some (if Z.testbit (w slk) (Z.of_nat t) then 1 else 0)) as ->.
    { etrans; [apply list_lookup_fmap|]. by rewrite All_nth. }
    split.
    + intros (c&k&Hc&Hk). by rewrite (ok_writes _ _ _ Hok c k (Z.of_nat t)) by (done || lia).
    + intros E. eapply ok_writer; [done|lia|]. by destruct (Z.testbit (w slk) (Z.of_nat t)).
Qed.

(** ** Examples *)

Lemma run_reachable l : ∀ x y, reachable x → run x l = Some y → reachable y.
Proof.
  induction l as [|a l IH]; simpl; intros x y Hr E; [by injection E as <-|].
  destruct (step x a) as [z|] eqn:Es; [|done]. eapply IH; [|done]. by eapply reachable_step.
Qed.

(** Two calls read the unsealed file, one of them writes the sealed one, and a third that
    wants to write the unsealed file sleeps. *)
Definition exSector : SectorID := mkSectorID 1000 7.
Definition exActions : list action :=
  [Enter 1 exSector FTUnsealed FTSealed true; Attempt 1; Enter 2 exSector FTUnsealed 0 false; Attempt 2;
   Enter 3 exSector 0 FTUnsealed true; Enter 4 exSector 0 FTCache false; Attempt 3].
Definition exWorld : world := default noCalls (run noCalls exActions).
Definition exCall (c : nat) : call := default (mkCall exSector 0 0 false Released) (calls exWorld !! c).

Ltac by_run := vm_compute; reflexivity.

Lemma exWorld_reachable : reachable exWorld.
Proof. apply (run_reachable exActions noCalls); [constructor|]. vm_compute. reflexivity. Qed.

Lemma exWorld_typed : typed exWorld.
Proof. unfold typed. apply map_Forall_to_list. vm_compute. repeat constructor; discriminate. Qed.

Lemma locks_exclude_witness :
  ¬ conflict (read (exCall 1)) (write (exCall 1)) (read (exCall 2)) (write (exCall 2)).
Proof.
  apply (locks_exclude exWorld 1 2 (exCall 1) (exCall 2) 0 0); [apply exWorld_reachable|by_run|by_run|done|by_run..].
Defined.

Lemma attempt_grants_exactly_witness :
  ∃ y k', attempt 4 exWorld = Some y ∧ calls y !! 4%nat = Some k' ∧ (st k' = Held 0 ↔ free exWorld 0 (exCall 4)).
Proof.
  destruct (attempt_grants_exactly exWorld 4 (exCall 4) 0) as (y&k'&E&Ek&Hiff&_);
    [apply exWorld_reachable|apply exWorld_typed|by_run|by_run|].
  exists y, k'. exact (conj E (conj Ek Hiff)).
Defined.

Lemma sleeping_call_can_proceed_witness :
  ∃ cs y k', run exWorld (map Release cs ++ [Wake 3; Attempt 3]) = Some y ∧ calls y !! 3%nat = Some k' ∧ st k' = Held 0.
Proof.
  destruct (sleeping_call_can_proceed exWorld 3 (exCall 3) 0 0) as (_&cs&y&k'&_&E&Ek&Es);
    [apply exWorld_reachable|apply exWorld_typed|by_run|by_run|].
  exists cs, y, k'. exact (conj E (conj Ek Es)).
Defined.

Lemma StorageGetLocks_reports_holders_witness :
  StorageGetLocks exWorld = [mkSectorLockInfo exSector [0; 1; 0; 0; 0] [2; 0; 0; 0; 0]] ∧
  ∃ c k l, calls exWorld !! c = Some k ∧ sector k = exSector ∧ usesLock l k = true.
Proof.
  split; [vm_compute; reflexivity|]. apply (proj1 (StorageGetLocks_reports_holders exWorld exWorld_reachable) exSector).
  eexists. split; [vm_compute; by left|reflexivity].
Defined.

(** An attempt that fails keeps its reference: after [StorageTryLock] has returned false
    and the call that had the lock is done, the lock stays in the index for ever. *)
Lemma failed_attempt_keeps_entry :
  ∃ y, run noCalls [Enter 1 exSector 0 FTSealed false; Attempt 1; Enter 2 exSector 0 FTSealed false; Attempt 2; Release 1] = Some y ∧
    reachable y ∧ locks y !! exSector = Some 0%nat ∧
    map_Forall (λ _ k, StorageTryLock_reply k ≠ None ∧ ∀ l, st k ≠ Held l) (calls y).
Proof.
  eexists. split; [vm_compute; reflexivity|]. split_and!.
  - eapply (run_reachable [Enter 1 exSector 0 FTSealed false; Attempt 1; Enter 2 exSector 0 FTSealed false; Attempt 2; Release 1] noCalls);
      [constructor|]. vm_compute. reflexivity.
  - by_run.
  - apply map_Forall_to_list. vm_compute. repeat constructor; discriminate.
Qed.
