(* ===== verification/TsCache.v ===== *)
(** * The cache of recent tipsets (chain/events/tscache.go)

    A ring buffer holds the tipsets of the last epochs, with nil for epochs that have
    none, and a map finds them by key.  The mutex makes every operation atomic. *)

From stdpp Require Import strings numbers base gmap fin_maps sets list.
From S2P Require Import Prelude GoStrings TipSets.
Local Open Scope Z_scope.

(** [tsCacheAPI]: where to ask for what the cache does not have. *)
Record tsCacheAPI := mkAPI {
  apiGetTipSetAfterHeight : Z → string → outcome (option TipSet);
  apiGetTipSetByHeight : Z → string → outcome (option TipSet);
  apiGetTipSet : string → outcome (option TipSet);
  apiHead : outcome (option TipSet)
}.

Record tipSetCache := mkCache {
  byKey : gmap string TipSet;
  byHeight : list (option TipSet);
  start : Z;
  len : Z
}.

Definition newTSCache (cap : nat) : tipSetCache := mkCache ∅ (replicate cap None) 0 0.

(** [((n % m) + m) % m], where [%] truncates and [m = 0] panics. *)
Definition normalModulo (n m : Z) : outcome Z :=
  if decide (m = 0) then Crash else Ret (Z.rem (Z.rem n m + m) m).

Definition cap (c : tipSetCache) : Z := Z.of_nat (length (byHeight c)).

(** [tsc.byHeight[i] = o] *)
Definition setSlot (i : Z) (o : option TipSet) (slots : list (option TipSet)) : list (option TipSet) :=
  <[Z.to_nat i := o]> slots.

(** [Height] of a tipset, which panics on nil. *)
Definition heightOf (ts : option TipSet) : outcome Z :=
  match ts with Some t => Ret (height t) | None => Crash end.

(** ** Reading *)

Section reading.
Variable storage : tsCacheAPI.

Definition ChainGetTipSet (c : tipSetCache) (tsk : string) : outcome (option TipSet) :=
  match byKey c !! tsk with
  | Some ts => Ret (Some ts)
  | None => apiGetTipSet storage tsk
  end.

(** [for i := 0; i < tsc.len && ts == nil; i += direction { .. }] from slot [from]; when no
    slot of the ring has a tipset the loop with direction [-1] does not end, which is
    [Crash]. *)
Fixpoint searchLoop (fuel : nat) (c : tipSetCache) (from i direction : Z) (ts : option TipSet) : outcome (option TipSet) :=
  if decide (i < len c ∧ ts = None) then
    match fuel with
    | O => Crash
    | S f =>
        slot ← normalModulo (from + i) (cap c);
        ts' ← index (byHeight c) slot;
        searchLoop f c from (i + direction) direction ts'
    end
  else Ret ts.

Definition get (c : tipSetCache) (h : Z) (tsk : string) (prev : bool) : outcome (option TipSet) :=
  let fallback := if prev then apiGetTipSetByHeight storage else apiGetTipSetAfterHeight storage in
  if decide (len c = 0) then fallback h tsk
  else
    best ← index (byHeight c) (start c);
    let head := if IsEmpty tsk then Some best
                else match byKey c !! tsk with Some t => Some (Some t) | None => None end in
    match head with
    | None => fallback h tsk
    | Some head =>
        headH ← heightOf head;
        let tailH := headH - len c in
        if decide (headH = h) then Ret head
        else if decide (headH < h) then Fail "requested epoch is in the future"
        else if decide (h < tailH) then fallback h (Key head)
        else
          let direction := if prev then -1 else 1 in
          searchLoop (S (length (byHeight c))) c (start c - (headH - h)) 0 direction None
    end.

Definition ChainGetTipSetByHeight (c : tipSetCache) (h : Z) (tsk : string) : outcome (option TipSet) := get c h tsk true.
Definition ChainGetTipSetAfterHeight (c : tipSetCache) (h : Z) (tsk : string) : outcome (option TipSet) := get c h tsk false.

Definition ChainHead (c : tipSetCache) : outcome (option TipSet) :=
  best ← index (byHeight c) (start c);
  match best with None => apiHead storage | Some t => Ret (Some t) end.
End reading.

(** ** Adding *)

(** [tsc.start = normalModulo(tsc.start+1, len(tsc.byHeight))], writing [o] there and
    forgetting the tipset that was in the slot. *)
Definition push (o : option TipSet) (c : tipSetCache) : outcome tipSetCache :=
  start' ← normalModulo (start c + 1) (cap c);
  was ← index (byHeight c) start';
  Ret (mkCache (match was with Some t => delete (Key (Some t)) (byKey c) | None => byKey c end)
         (setSlot start' o (byHeight c)) start'
         (if decide (len c < cap c) then len c + 1 else len c)).

(** [for nextH != to.Height() { .. nextH++ }] *)
Fixpoint fillNulls (fuel : nat) (nextH toH : Z) (c : tipSetCache) : outcome tipSetCache :=
  if decide (nextH = toH) then Ret c
  else
    match fuel with
    | O => Crash
    | S f => c' ← push None c; fillNulls f (nextH + 1) toH c'
    end.

(** The rest of [add] once the new tipset is known to follow the head, from epoch [nextH]. *)
Definition append (nextH : Z) (to : TipSet) (c : tipSetCache) : outcome (tipSetCache * option string) :=
  c1 ← fillNulls (Z.to_nat (height to - nextH)) nextH (height to) c;
  c2 ← push (Some to) c1;
  Ret (mkCache (<[Key (Some to) := to]> (byKey c2)) (byHeight c2) (start c2) (len c2), None).

(** [add]: the cache then and the error, if any. *)
Definition add (to : TipSet) (c : tipSetCache) : outcome (tipSetCache * option string) :=
  if decide (0 < len c) then
    best ← index (byHeight c) (start c);
    bestH ← heightOf best;
    if decide (height to ≤ bestH)
    then Ret (c, Some ("tipSetCache.add: expected new tipset height to be at least " +:+ Itoa (bestH + 1)
                       +:+ ", was " +:+ Itoa (height to)))
    else
      parents ← Parents to;
      if decide (Key best ≠ parents)
      then Ret (c, Some "tipSetCache.add: expected new tipset to follow the head")
      else append (bestH + 1) to c
  else append (height to) to c.

(** ** Reverting *)

(** [revertUnlocked]; the recursive call, whose error is dropped, reverts the nil slots. *)
Fixpoint revertUnlocked (fuel : nat) (ts : option TipSet) (c : tipSetCache) : outcome (tipSetCache * option string) :=
  if decide (len c = 0) then Ret (c, None)
  else
    was ← index (byHeight c) (start c);
    if negb (Equals was ts) then Ret (c, Some "tipSetCache.revert: revert tipset didn't match cache head")
    else
      match fuel with
      | O => Crash
      | S f =>
          start' ← normalModulo (start c - 1) (cap c);
          r ← revertUnlocked f None
                (mkCache (delete (Key was) (byKey c)) (setSlot (start c) None (byHeight c)) start' (len c - 1));
          Ret (r.1, None)
      end.

Definition revert (from : option TipSet) (c : tipSetCache) : outcome (tipSetCache * option string) :=
  revertUnlocked (Z.to_nat (len c)) from c.

(** [tipSetCacheObserver] *)
Definition Apply (to : TipSet) (c : tipSetCache) : outcome (tipSetCache * option string) := add to c.
Definition Revert (from : TipSet) (c : tipSetCache) : outcome (tipSetCache * option string) := revert (Some from) c.
