(* ===== verification/TsCacheSpec.v ===== *)
(** * The tipset cache refines a list of the last epochs

    The ring buffer represents a window: the list of the last epochs, newest first, with
    [None] for an epoch without a tipset.  [add] puts epochs in front of the window and
    cuts it to the capacity, [revert] takes the head and the empty epochs below it
    away, and [get] reads the window. *)

From stdpp Require Import strings numbers base gmap fin_maps sets list.
From S2P Require Import Prelude GoStrings TipSets TsCache.
Local Open Scope Z_scope.

Abbreviation window := (list (option TipSet)) (only parsing).

(** ** Slots of the ring *)

Lemma normalModulo_mod n m : 0 < m → normalModulo n m = Ret (n mod m).
Proof.
  intros Hm. unfold normalModulo. rewrite decide_False by lia. f_equal.
  pose proof (Z.rem_bound_abs n m ltac:(lia)). rewrite (Z.rem_mod_nonneg (Z.rem n m + m)) by lia.
  rewrite <- Z.add_mod_idemp_r, Z.mod_same, Z.add_0_r by lia.
  pose proof (Z.quot_rem' n m) as E. rewrite E at 2. rewrite Z.mul_comm, Z.add_comm, Z.mod_add by lia. done.
Qed.

(** Two slots of the ring are different when their distance is less than the capacity. *)
Lemma slot_ne s i j m : 0 < m → 0 ≤ i < m → 0 ≤ j < m → i ≠ j → (s - i) mod m ≠ (s - j) mod m.
Proof.
  intros Hm Hi Hj Hne E. assert ((j - i) mod m = 0) as H0.
  { replace (j - i) with ((s - i) - (s - j)) by lia. rewrite Zminus_mod, E, Z.sub_diag. by apply Z.mod_0_l; lia. }
  apply Z.mod_divide in H0 as [q Hq]; [|lia]. assert (q = 0) as -> by nia. lia.
Qed.

Definition slotAt (c : tipSetCache) (i : Z) : nat := Z.to_nat ((start c - i) mod cap c).

(** ** Windows *)

(** The epoch [i] below the head. *)
Definition epoch (W : window) (i : nat) : option TipSet := default None (W !! i).

Record ringOk (c : tipSetCache) (W : window) : Prop := {
  ring_cap : 0 < cap c;
  ring_start : 0 ≤ start c < cap c;
  ring_len : len c = Z.of_nat (length W);
  ring_fits : Z.of_nat (length W) ≤ cap c;
  ring_slots : ∀ i : nat, Z.of_nat i < cap c → byHeight c !! slotAt c (Z.of_nat i) = Some (epoch W i);
  ring_keys : ∀ k t, byKey c !! k = Some t ↔ Some t ∈ W ∧ Key (Some t) = k;
  ring_named : ∀ t, Some t ∈ W → Key (Some t) ≠ EmptyTSK;
  ring_distinct : ∀ i j a b, W !! i = Some (Some a) → W !! j = Some (Some b) → Key (Some a) = Key (Some b) → i = j
}.

(** A window is a part of a chain: its head is a tipset, the epochs are consecutive, and
    each tipset is the parent of the next one. *)
Definition linked (a b : TipSet) : Prop := Parents a = Ret (Key (Some b)).

Record chainOk (W : window) : Prop := {
  chain_head : W = [] ∨ ∃ t, W !! 0%nat = Some (Some t);
  chain_heights : ∀ i j a b, W !! i = Some (Some a) → W !! j = Some (Some b) →
    height a + Z.of_nat i = height b + Z.of_nat j;
  chain_links : ∀ i j a b, W !! i = Some (Some a) → W !! j = Some (Some b) → (i < j)%nat →
    (∀ k, (i < k < j)%nat → epoch W k = None) → linked a b
}.

(** ** The operations on windows *)

Definition pushed (capacity : nat) (o : option TipSet) (W : window) : window := take capacity (o :: W).

(** The head and its height. *)
Definition windowAdd (capacity : nat) (to : TipSet) (W : window) : window :=
  match W with
  | Some best :: _ => take capacity (Some to :: replicate (Z.to_nat (height to - height best - 1)) None ++ W)
  | _ => [Some to]
  end.

Fixpoint dropNulls (W : window) : window :=
  match W with
  | None :: W' => dropNulls W'
  | _ => W
  end.

(** ** Pushing *)

Lemma index_slot c W (i : nat) : ringOk c W → Z.of_nat i < cap c →
  index (byHeight c) ((start c - Z.of_nat i) mod cap c) = Ret (epoch W i).
Proof.
  intros Hr Hi. apply index_ret; [apply Z.mod_pos_bound, Hr|]. by apply (ring_slots _ _ Hr).
Qed.

Lemma index_start c W : ringOk c W → index (byHeight c) (start c) = Ret (epoch W 0).
Proof.
  intros Hr. pose proof (index_slot c W 0 Hr (ring_cap _ _ Hr)) as E.
  rewrite Z.sub_0_r, Z.mod_small in E by apply Hr. done.
Qed.

Lemma epoch_pushed capacity o W (i : nat) : (i < capacity)%nat → epoch (pushed capacity o W) i = epoch (o :: W) i.
Proof. intros Hi. unfold epoch, pushed. by rewrite lookup_take_lt. Qed.

(** The map with the key of a tipset that was pushed. *)
Definition withKey (o : option TipSet) (c : tipSetCache) : tipSetCache :=
  match o with
  | Some t => mkCache (<[Key (Some t) := t]> (byKey c)) (byHeight c) (start c) (len c)
  | None => c
  end.

(** What a push of [t] forgets of a full window. *)
Lemma evicted W m t : (length W ≤ S m)%nat → Some t ∈ W ↔ Some t ∈ take m W ∨ epoch W m = Some t.
Proof.
  intros Hl. rewrite <- (take_drop m W) at 1. rewrite elem_of_app. f_equiv. unfold epoch.
  rewrite <- (Nat.add_0_r m) at 2. rewrite <- lookup_drop.
  assert (length (drop m W) ≤ 1)%nat as Hd by (rewrite length_drop; lia).
  destruct (drop m W) as [|o [|o' l]]; simpl in *; [set_solver| |lia]. rewrite list_elem_of_singleton. naive_solver.
Qed.

Lemma taken_key c W m t e : ringOk c W → Some t ∈ take m W → epoch W m = Some e → Key (Some t) ≠ Key (Some e).
Proof.
  intros Hr (i&Hi)%list_elem_of_lookup He Hk. apply lookup_take_Some in Hi as [Hi Hlt].
  unfold epoch in He. destruct (W !! m) as [o|] eqn:Hm; simpl in He; [|done]. subst o.
  pose proof (ring_distinct _ _ Hr _ _ _ _ Hi Hm Hk). lia.
Qed.

(** The map after the evicted tipset is forgotten. *)
Lemma keys_evicted c W m : ringOk c W → (length W ≤ S m)%nat → ∀ k t,
  match epoch W m with Some e => delete (Key (Some e)) (byKey c) | None => byKey c end !! k = Some t ↔
  Some t ∈ take m W ∧ Key (Some t) = k.
Proof.
  intros Hr Hl k t. destruct (epoch W m) as [e|] eqn:He.
  - rewrite lookup_delete_Some, (ring_keys _ _ Hr), (evicted W m t Hl). split.
    + intros [Hne [[Ht|Ht] <-]]; [done|]. rewrite He in Ht. by injection Ht as ->.
    + intros [Ht <-]. split_and!; [|by left|done]. intros E. by eapply taken_key.
  - rewrite (ring_keys _ _ Hr), (evicted W m t Hl), He. naive_solver.
Qed.

(** The slots after a push. *)
Lemma push_slots c W o (i : nat) : ringOk c W → Z.of_nat i < cap c →
  let s' := (start c + 1) mod cap c in
  setSlot s' o (byHeight c) !! Z.to_nat ((s' - Z.of_nat i) mod cap c) = Some (epoch (o :: W) i).
Proof.
  intros Hr Hi s'. pose proof (ring_cap _ _ Hr) as Hcap. unfold setSlot.
  assert (0 ≤ s' < cap c) as Hs' by (by apply Z.mod_pos_bound). destruct i as [|i].
  - rewrite Z.sub_0_r, Z.mod_small by done. apply list_lookup_insert_eq. unfold cap in Hs'. lia.
  - replace ((s' - Z.of_nat (S i)) mod cap c) with ((start c - Z.of_nat i) mod cap c).
    2:{ unfold s'. rewrite Zminus_mod_idemp_l. f_equal. lia. }
    rewrite list_lookup_insert_ne; [by apply (ring_slots _ _ Hr); lia|].
    assert (s' = (start c - (cap c - 1)) mod cap c) as Es.
    { unfold s'. replace (start c + 1) with (start c - (cap c - 1) + 1 * cap c) by lia. apply Z.mod_add. lia. }
    assert (s' ≠ (start c - Z.of_nat i) mod cap c) as Hne by (rewrite Es; apply slot_ne; lia).
    pose proof (Z.mod_pos_bound (start c - Z.of_nat i) (cap c) Hcap). lia.
Qed.

Lemma push_ok c W o : ringOk c W →
  (∀ t, o = Some t → Key (Some t) ≠ EmptyTSK ∧ ∀ t', Some t' ∈ W → Key (Some t') ≠ Key (Some t)) →
  ∃ c', push o c = Ret c' ∧ cap c' = cap c ∧ ringOk (withKey o c') (pushed (Z.to_nat (cap c)) o W).
Proof.
  intros Hr Hfresh. pose proof (ring_cap _ _ Hr) as Hcap. pose proof (ring_start _ _ Hr) as Hst.
  set (m := Z.to_nat (cap c - 1)). assert (Z.to_nat (cap c) = S m) as Em by (unfold m; lia).
  pose proof (ring_fits _ _ Hr) as Hfit.
  assert ((start c + 1) mod cap c = (start c - Z.of_nat m) mod cap c) as Es.
  { replace (start c + 1) with (start c - Z.of_nat m + 1 * cap c) by (unfold m; lia). apply Z.mod_add. lia. }
  unfold push. rewrite normalModulo_mod, bind_ret_l by done.
  rewrite Es, (index_slot c W m Hr) by (unfold m; lia). rewrite bind_ret_l, <- Es.
  eexists. split; [done|]. set (s' := (start c + 1) mod cap c). set (slots' := setSlot s' o (byHeight c)).
  assert (0 ≤ s' < cap c) as Hs' by (by apply Z.mod_pos_bound).
  assert (length slots' = length (byHeight c)) as Hls by apply length_insert.
  set (c' := mkCache _ slots' s' _). assert (cap c' = cap c) as Ec by (unfold cap; simpl; by rewrite Hls).
  split; [done|]. assert (byHeight (withKey o c') = slots' ∧ start (withKey o c') = s' ∧ len (withKey o c') = len c' ∧ cap (withKey o c') = cap c) as (W1&W2&W3&W4).
  { destruct o; split_and!; done. }
  assert (pushed (Z.to_nat (cap c)) o W = o :: take m W) as Ep by (unfold pushed; by rewrite Em).
  pose proof (keys_evicted c W m Hr ltac:(unfold m; lia)) as Hkeys. constructor.
  - by rewrite W4.
  - by rewrite W2, W4.
  - rewrite W3, Ep. simpl. rewrite length_take. rewrite (ring_len _ _ Hr). case_decide; unfold m; lia.
  - rewrite W4, Ep. simpl. rewrite length_take. unfold m. lia.
  - rewrite W4. intros i Hi. unfold slotAt. rewrite W1, W2, W4, epoch_pushed by lia. by apply push_slots.
  - intros k t. rewrite Ep, elem_of_cons. destruct o as [to|]; simpl.
    + rewrite lookup_insert_Some, Hkeys. split.
      * intros [[<- <-]|[_ [Ht <-]]]; auto.
      * intros [[[= ->]|Ht] <-]; [by left|]. right. split; [|done]. intros E. eapply (proj2 (Hfresh _ eq_refl)); [|done].
        apply (evicted W m t); [unfold m; lia|by left].
    + rewrite Hkeys. naive_solver.
  - intros t. rewrite Ep, elem_of_cons. intros [<-|Ht]; [by apply (Hfresh t)|].
    apply (ring_named _ _ Hr), (evicted W m t); [unfold m; lia|by left].
  - rewrite Ep. intros i j a b Hi Hj Hk. destruct i as [|i], j as [|j]; simpl in *; [done|..].
    + injection Hi as ->. exfalso. apply lookup_take_Some in Hj as [Hj _].
      eapply (proj2 (Hfresh _ eq_refl)); [by eapply list_elem_of_lookup_2|by symmetry].
    + injection Hj as ->. exfalso. apply lookup_take_Some in Hi as [Hi _].
      eapply (proj2 (Hfresh _ eq_refl)); [by eapply list_elem_of_lookup_2|done].
    + apply lookup_take_Some in Hi as [Hi _], Hj as [Hj _]. f_equal. by eapply ring_distinct.
Qed.

(** ** Adding *)

Lemma pushed_take k o W : pushed k o (take k W) = pushed k o W.
Proof. unfold pushed. destruct k; [done|]. simpl. f_equal. rewrite take_take. f_equal. lia. Qed.

Lemma ring_take c W : ringOk c W → take (Z.to_nat (cap c)) W = W.
Proof. intros Hr. apply take_ge. pose proof (ring_fits _ _ Hr). lia. Qed.

Lemma fillNulls_ok n : ∀ c W nextH, ringOk c W → ∃ c', fillNulls n nextH (nextH + Z.of_nat n) c = Ret c' ∧
  cap c' = cap c ∧ ringOk c' (take (Z.to_nat (cap c)) (replicate n None ++ W)).
Proof.
  induction n as [|n IH]; intros c W nextH Hr.
  - exists c. cbn [fillNulls]. rewrite decide_True by lia. split_and!; [done..|]. simpl. by rewrite ring_take.
  - cbn [fillNulls]. rewrite decide_False by lia. destruct (push_ok c W None Hr) as (c1&E1&Ec1&Hr1); [done|].
    simpl in Hr1. rewrite E1, bind_ret_l. replace (nextH + Z.of_nat (S n)) with (nextH + 1 + Z.of_nat n) by lia.
    destruct (IH c1 _ (nextH + 1) Hr1) as (c'&E'&Ec'&Hr'). exists c'. split_and!; [done|congruence|].
    rewrite Ec1 in Hr'. unfold pushed in Hr'.
    replace (take (Z.to_nat (cap c)) (replicate (S n) None ++ W)) with
      (take (Z.to_nat (cap c)) (replicate n None ++ take (Z.to_nat (cap c)) (None :: W))); [done|].
    rewrite replicate_S_end, <- app_assoc. simpl. clear. generalize (Z.to_nat (cap c)) (None :: W). intros k l.
    rewrite !take_app. f_equal. rewrite take_take. f_equal. lia.
Qed.

Lemma append_ok c W (n : nat) nextH to : ringOk c W → height to = nextH + Z.of_nat n →
  Key (Some to) ≠ EmptyTSK → (∀ t', Some t' ∈ W → Key (Some t') ≠ Key (Some to)) →
  ∃ c', append nextH to c = Ret (c', None) ∧ cap c' = cap c ∧
    ringOk c' (take (Z.to_nat (cap c)) (Some to :: replicate n None ++ W)).
Proof.
  intros Hr Hh Hne Hf. unfold append. replace (Z.to_nat (height to - nextH)) with n by lia. rewrite Hh.
  destruct (fillNulls_ok n c W nextH Hr) as (c1&E1&Ec1&Hr1). rewrite E1, bind_ret_l.
  destruct (push_ok c1 _ (Some to) Hr1) as (c2&E2&Ec2&Hr2).
  - intros t [= <-]. split; [done|]. intros t' Ht'. apply Hf. apply elem_of_take in Ht' as (i&Hi%list_elem_of_lookup_2&_). apply elem_of_app in Hi as [Ht'|Ht']; [|done].
    by apply elem_of_replicate in Ht' as [? _].
  - rewrite E2, bind_ret_l. eexists. split; [done|]. split; [unfold cap in *; simpl in *; lia|].
    rewrite Ec1, pushed_take in Hr2. exact Hr2.
Qed.

(** The tipsets of a window extended by [n] empty epochs and a new head. *)
Lemma extended_lookup (to : TipSet) n (W : window) i a : (Some to :: replicate n None ++ W) !! i = Some (Some a) →
  (i = 0%nat ∧ a = to) ∨ ∃ j, i = S (n + j) ∧ W !! j = Some (Some a).
Proof.
  destruct i as [|i]; simpl; [intros [= ->]; by left|]. intros Hi. right.
  destruct (decide (i < n)%nat) as [Hlt|Hge].
  - rewrite lookup_app_l in Hi by (by rewrite length_replicate). by apply lookup_replicate in Hi as [? _].
  - exists (i - n)%nat. split; [lia|]. rewrite lookup_app_r, length_replicate in Hi by (rewrite length_replicate; lia). done.
Qed.

Lemma epoch_extended (to : TipSet) n (W : window) j : epoch (Some to :: replicate n None ++ W) (S (n + j)) = epoch W j.
Proof.
  unfold epoch. simpl. rewrite lookup_app_r by (rewrite length_replicate; lia). rewrite length_replicate. do 2 f_equal. lia.
Qed.

Lemma chainOk_extended to best n W : chainOk W → W !! 0%nat = Some (Some best) → linked to best →
  height to = height best + 1 + Z.of_nat n → chainOk (Some to :: replicate n None ++ W).
Proof.
  intros [Ch Chh Cl] Hb Hl Hh. constructor.
  - right. by exists to.
  - intros i j a b [[-> ->]|(i'&->&Hi)]%extended_lookup [[-> ->]|(j'&->&Hj)]%extended_lookup; [done|..].
    + pose proof (Chh _ _ _ _ Hb Hj). lia.
    + pose proof (Chh _ _ _ _ Hb Hi). lia.
    + pose proof (Chh _ _ _ _ Hi Hj). lia.
  - intros i j a b Hi Hj Hlt Hnone.
    apply extended_lookup in Hi as [[-> ->]|(i'&->&Hi)], Hj as [[-> ->]|(j'&->&Hj)]; try lia.
    + destruct j' as [|j']; [congruence|]. exfalso.
      specialize (Hnone (S (n + 0)) ltac:(lia)). rewrite epoch_extended in Hnone. unfold epoch in Hnone. by rewrite Hb in Hnone.
    + eapply (Cl i' j'); [done..|lia|]. intros k Hk. rewrite <- (epoch_extended to n W k). apply Hnone. lia.
Qed.

Lemma chainOk_take k W : (0 < k)%nat → chainOk W → chainOk (take k W).
Proof.
  intros Hk [Ch Chh Cl]. constructor.
  - destruct Ch as [->|[t Ht]]; [left; by rewrite take_nil|right]. exists t. by rewrite lookup_take_lt.
  - intros i j a b [Hi _]%lookup_take_Some [Hj _]%lookup_take_Some. eauto.
  - intros i j a b [Hi _]%lookup_take_Some [Hj Hjk]%lookup_take_Some Hlt Hn. eapply Cl; [done..|].
    intros l Hl. rewrite <- (Hn l Hl). unfold epoch. by rewrite lookup_take_lt by lia.
Qed.

(** ** Reverting *)

Lemma ring_pop c o W : ringOk c (o :: W) →
  ringOk (mkCache (delete (Key o) (byKey c)) (setSlot (start c) None (byHeight c)) ((start c - 1) mod cap c) (len c - 1)) W.
Proof.
  intros Hr. pose proof (ring_cap _ _ Hr) as Hcap. pose proof (ring_start _ _ Hr) as Hst. pose proof (ring_fits _ _ Hr) as Hfit.
  set (s' := (start c - 1) mod cap c). set (c' := mkCache _ _ s' _).
  assert (cap c' = cap c) as Ec by (unfold cap, c'; simpl; unfold setSlot; by rewrite length_insert). simpl in Hfit.
  constructor; rewrite ?Ec.
  - done.
  - by apply Z.mod_pos_bound.
  - simpl. rewrite (ring_len _ _ Hr). simpl. lia.
  - lia.
  - intros i Hi. unfold slotAt. rewrite Ec. simpl. unfold setSlot.
    replace ((s' - Z.of_nat i) mod cap c) with ((start c - Z.of_nat (S i)) mod cap c).
    2:{ unfold s'. rewrite Zminus_mod_idemp_l. f_equal. lia. }
    destruct (decide (Z.of_nat (S i) = cap c)) as [E|E].
    + rewrite E. replace (start c - cap c) with (start c + (-1) * cap c) by lia. rewrite Z.mod_add, Z.mod_small by lia.
      rewrite list_lookup_insert_eq by (unfold cap in Hst; lia). f_equal. unfold epoch. by rewrite lookup_ge_None_2 by lia.
    + rewrite list_lookup_insert_ne; [apply (ring_slots _ _ Hr (S i)); lia|].
      assert ((start c - 0) mod cap c ≠ (start c - Z.of_nat (S i)) mod cap c) as Hne by (apply slot_ne; lia).
      rewrite Z.sub_0_r, Z.mod_small in Hne by lia. pose proof (Z.mod_pos_bound (start c - Z.of_nat (S i)) (cap c) Hcap). lia.
  - intros k t. simpl. rewrite lookup_delete_Some, (ring_keys _ _ Hr), elem_of_cons. split.
    + intros [Hne [[<-|Ht] <-]]; done.
    + intros [Ht <-]. split_and!; [|by right|done]. destruct o as [e|].
      * intros E. apply list_elem_of_lookup in Ht as [j Hj].
        pose proof (ring_distinct _ _ Hr 0%nat (S j) e t eq_refl Hj E). done.
      * intros E. by destruct (ring_named _ _ Hr t ltac:(by right)).
  - intros t Ht. apply (ring_named _ _ Hr). by right.
  - intros i j a b Hi Hj Hk. pose proof (ring_distinct _ _ Hr (S i) (S j) a b Hi Hj Hk). lia.
Qed.

(** Reverting nil takes the empty epochs away. *)
Lemma revert_nulls fuel : ∀ c W, ringOk c W → (length W ≤ fuel)%nat →
  ∃ c' e, revertUnlocked fuel None c = Ret (c', e) ∧ cap c' = cap c ∧ ringOk c' (dropNulls W).
Proof.
  induction fuel as [|f IH]; intros c W Hr Hf; cbn [revertUnlocked].
  - destruct W; [|simpl in Hf; lia]. rewrite decide_True by (rewrite (ring_len _ _ Hr); done). eauto.
  - case_decide as Hl.
    { rewrite (ring_len _ _ Hr) in Hl. destruct W; [eauto|done]. }
    rewrite (index_start c W Hr), bind_ret_l. destruct W as [|[t|] W]; [by rewrite (ring_len _ _ Hr) in Hl|simpl; eauto|].
    change (epoch (None :: W) 0) with (@None TipSet). cbn [Equals negb]. rewrite normalModulo_mod, bind_ret_l by apply Hr.
    destruct (IH _ _ (ring_pop c None W Hr)) as (c'&e&E'&Ec'&Hr'); [simpl in Hf; lia|].
    rewrite E', bind_ret_l. eexists _, _. split; [done|]. split; [|done].
    simpl. rewrite Ec'. unfold cap. simpl. unfold setSlot. by rewrite length_insert.
Qed.

Lemma revert_ok c t W ts : ringOk c (Some t :: W) → Equals (Some t) ts = true →
  ∃ c', revert ts c = Ret (c', None) ∧ cap c' = cap c ∧ ringOk c' (dropNulls W).
Proof.
  intros Hr He. unfold revert. rewrite (ring_len _ _ Hr), Nat2Z.id. cbn [length revertUnlocked].
  rewrite decide_False by (rewrite (ring_len _ _ Hr); simpl; lia). rewrite (index_start _ _ Hr), bind_ret_l.
  change (epoch (Some t :: W) 0) with (Some t). rewrite He. cbn [negb]. rewrite normalModulo_mod, bind_ret_l by apply Hr.
  destruct (revert_nulls (length W) _ _ (ring_pop c (Some t) W Hr) (le_n _)) as (c'&e&E'&Ec'&Hr').
  rewrite E', bind_ret_l. eexists. split; [done|]. split; [|done]. simpl. rewrite Ec'. unfold cap. simpl. unfold setSlot.
  by rewrite length_insert.
Qed.

Lemma dropNulls_drop W : ∃ k, dropNulls W = drop k W ∧ (dropNulls W = [] ∨ ∃ t, dropNulls W !! 0%nat = Some (Some t)).
Proof.
  induction W as [|[t|] W (k&E&Hh)]; [by exists 0%nat; auto|exists 0%nat; simpl; eauto|]. by exists (S k).
Qed.

Lemma chainOk_dropNulls o W : chainOk (o :: W) → chainOk (dropNulls W).
Proof.
  intros [_ Chh Cl]. destruct (dropNulls_drop W) as (k&E&Hh). constructor; [done|..]; rewrite E.
  - intros i j a b. rewrite !lookup_drop. intros Hi Hj. pose proof (Chh (S (k + i)) (S (k + j)) a b Hi Hj). lia.
  - intros i j a b. rewrite !lookup_drop. intros Hi Hj Hlt Hn. eapply (Cl (S (k + i)) (S (k + j)) a b Hi Hj); [lia|].
    intros [|l] Hl; [lia|]. specialize (Hn (l - k)%nat ltac:(lia)). unfold epoch in *. rewrite lookup_drop in Hn.
    simpl. by replace (k + (l - k))%nat with l in Hn by lia.
Qed.

(** ** Refinement *)

Section refinement.
(** The tipsets of the chain: the key tells the height and is not empty. *)
Variable known : TipSet → Prop.
Hypothesis known_named : ∀ t, known t → Key (Some t) ≠ EmptyTSK.
Hypothesis known_height : ∀ t t', known t → known t' → Key (Some t) = Key (Some t') → height t = height t'.

Definition cacheOk (c : tipSetCache) (W : window) : Prop :=
  ringOk c W ∧ chainOk W ∧ ∀ t, Some t ∈ W → known t.

(** The new tipset is a child of the head. *)
Definition follows (W : window) (to : TipSet) : Prop :=
  match W with
  | Some best :: _ => height best < height to ∧ linked to best
  | _ => True
  end.

#[global] Instance follows_dec W to : Decision (follows W to).
Proof.
  unfold follows, linked. destruct W as [|[best|] ?]; [left; done| |left; done].
  apply and_dec; [apply _|]. destruct (Parents to) as [p| |]; [|by right..].
  destruct (decide (p = Key (Some best))) as [->|]; [by left|right; congruence].
Defined.

Lemma newTSCache_ok n : (0 < n)%nat → cacheOk (newTSCache n) [].
Proof using Type.
  clear known_named known_height. intros Hn. assert (cap (newTSCache n) = Z.of_nat n) as Ec by (unfold cap; simpl; by rewrite length_replicate).
  split_and!; [|constructor; [by left|done..]|set_solver]. constructor; rewrite ?Ec; simpl; try done; try lia.
  - intros i Hi. unfold slotAt. rewrite Ec. simpl. apply lookup_replicate_2.
    pose proof (Z.mod_pos_bound (0 - Z.of_nat i) (Z.of_nat n) ltac:(lia)). lia.
  - intros k t. rewrite lookup_empty. set_solver.
  - set_solver.
Qed.

Lemma chainOk_singleton t : chainOk [Some t].
Proof.
  constructor; [right; by exists t|..]; intros [|i] [|j] a b Hi Hj; simpl in *; try done; [|lia].
  by simplify_eq.
Qed.

(** The head of a window is its highest tipset. *)
Lemma head_highest best W t : chainOk (Some best :: W) → Some t ∈ Some best :: W → height t ≤ height best.
Proof. intros Hc (i&Hi)%list_elem_of_lookup. pose proof (chain_heights _ Hc i 0%nat t best Hi eq_refl). lia. Qed.

Lemma add_follows c W to : cacheOk c W → known to → follows W to →
  ∃ c', add to c = Ret (c', None) ∧ cap c' = cap c ∧ cacheOk c' (windowAdd (Z.to_nat (cap c)) to W).
Proof.
  intros (Hr&Hc&Hk) Hto Hf. pose proof (ring_cap _ _ Hr) as Hcap. unfold add.
  destruct W as [|o W]; [|destruct (chain_head _ Hc) as [?|[best [= ->]]]; [done|]].
  - rewrite decide_False by (rewrite (ring_len _ _ Hr); simpl; lia).
    destruct (append_ok c [] 0 (height to) to Hr) as (c'&E&Ec&Hr'); [lia|by apply known_named|set_solver|].
    replace (Z.to_nat (cap c)) with (S (Z.to_nat (cap c - 1))) in * by lia. simpl in Hr'.
    exists c'. split_and!; [done..|]. simpl. rewrite take_nil in Hr'.
    split_and!; [done|apply chainOk_singleton|]. intros t Ht%list_elem_of_singleton. by injection Ht as ->.
  - destruct Hf as [Hh Hl]. rewrite decide_True by (rewrite (ring_len _ _ Hr); simpl; lia).
    rewrite (index_start _ _ Hr), bind_ret_l. change (epoch (Some best :: W) 0) with (Some best).
    cbn [heightOf]. rewrite bind_ret_l, decide_False by lia. rewrite Hl, bind_ret_l, decide_False by tauto.
    set (n := Z.to_nat (height to - height best - 1)).
    destruct (append_ok c _ n (height best + 1) to Hr) as (c'&E&Ec&Hr'); [unfold n; lia|by apply known_named| |].
    { intros t Ht Ek. apply known_height in Ek; [|by apply Hk|done]. pose proof (head_highest _ _ _ Hc Ht). lia. }
    exists c'. split_and!; [done..|]. cbn [windowAdd]. fold n. split_and!; [done| |].
    + apply chainOk_take; [lia|]. by eapply (chainOk_extended to best); [| |done|unfold n; lia].
    + intros t (i&Hi&_)%elem_of_take. apply extended_lookup in Hi as [[_ ->]|(j&_&Hj)]; [done|].
      apply Hk. by eapply list_elem_of_lookup_2.
Qed.

Lemma add_rejected c W to p : cacheOk c W → Parents to = Ret p → ¬ follows W to → ∃ e, add to c = Ret (c, Some e).
Proof.
  intros (Hr&Hc&_) Hp Hf. unfold add. destruct W as [|[best|] W]; [by destruct Hf| |by destruct Hf].
  rewrite decide_True by (rewrite (ring_len _ _ Hr); simpl; lia). rewrite (index_start _ _ Hr), bind_ret_l.
  change (epoch (Some best :: W) 0) with (Some best). cbn [heightOf]. rewrite bind_ret_l.
  case_decide; [eauto|]. rewrite Hp, bind_ret_l. case_decide as Hk; [eauto|]. destruct Hf. split; [lia|].
  unfold linked. by rewrite Hp, Hk.
Qed.

(** C23. The ring buffer with its map refines the window of the last epochs: a new cache
    has the empty window; [add] extends the window by the new head, with empty epochs
    in between and cut to the capacity, or fails and changes nothing when the tipset
    is not a child of the head; [revert] takes the head and the empty epochs below
    it away, fails and changes nothing for another tipset, and does nothing on an
    empty window.  The window always stays a part of one chain. *)
Theorem cache_refines_window :
  (∀ n, (0 < n)%nat → cacheOk (newTSCache n) []) ∧
  (∀ c W to p, cacheOk c W → known to → Parents to = Ret p → ∃ c' e, add to c = Ret (c', e) ∧
     if decide (follows W to) then e = None ∧ cap c' = cap c ∧ cacheOk c' (windowAdd (Z.to_nat (cap c)) to W)
     else e ≠ None ∧ c' = c) ∧
  (∀ c W from, cacheOk c W → ∃ c' e, revert from c = Ret (c', e) ∧
     match W with
     | [] => c' = c ∧ e = None
     | best :: W' => if Equals best from then e = None ∧ cap c' = cap c ∧ cacheOk c' (dropNulls W')
                     else e ≠ None ∧ c' = c
     end).
Proof.
  split; [apply newTSCache_ok|]. split.
  - intros c W to p Hok Hto Hp. case_decide as Hf.
    + destruct (add_follows c W to Hok Hto Hf) as (c'&E&?&?). by exists c', None.
    + destruct (add_rejected c W to p Hok Hp Hf) as (e&E). by exists c, (Some e).
  - intros c W from (Hr&Hc&Hk). pose proof (ring_len _ _ Hr) as Hlen. destruct W as [|o W].
    + exists c, None. unfold revert. rewrite Hlen. simpl. by rewrite decide_True.
    + destruct (chain_head _ Hc) as [?|[best [= ->]]]; [done|]. destruct (Equals (Some best) from) eqn:He.
      * destruct (revert_ok c best W from Hr He) as (c'&E&Ec&Hr'). exists c', None. split_and!; [done..|].
        split_and!; [done|by eapply chainOk_dropNulls|]. destruct (dropNulls_drop W) as (k&->&_).
        intros t (i&Hi)%list_elem_of_lookup. rewrite lookup_drop in Hi. apply Hk. right. by eapply list_elem_of_lookup_2.
      * exists c. eexists. unfold revert. rewrite Hlen, Nat2Z.id. cbn [length revertUnlocked].
        rewrite decide_False by (rewrite Hlen; simpl; lia). rewrite (index_start _ _ Hr), bind_ret_l.
        change (epoch (Some best :: W) 0) with (Some best). rewrite He. done.
Qed.
End refinement.

(** ** Reading *)

(** A search that comes to a tipset after [steps] empty epochs. *)
Lemma searchLoop_found c W k d t steps : ringOk c W → ∀ fuel i,
  (∀ s, 0 ≤ s ≤ Z.of_nat steps → 0 ≤ k - (i + s * d) < cap c ∧ i + s * d < len c) →
  (∀ s, 0 ≤ s < Z.of_nat steps → epoch W (Z.to_nat (k - (i + s * d))) = None) →
  epoch W (Z.to_nat (k - (i + Z.of_nat steps * d))) = Some t → (steps < fuel)%nat →
  searchLoop fuel c (start c - k) i d None = Ret (Some t).
Proof.
  intros Hr. induction steps as [|n IH]; intros [|f] i Hb Hn Ht Hf; try lia; cbn [searchLoop].
  all: pose proof (Hb 0 ltac:(lia)) as [H1 H2]; rewrite Z.mul_0_l, Z.add_0_r in H1, H2.
  all: rewrite decide_True by done; rewrite normalModulo_mod, bind_ret_l by apply Hr.
  all: replace (start c - k + i) with (start c - Z.of_nat (Z.to_nat (k - i))) by lia.
  all: rewrite (index_slot c W _ Hr), bind_ret_l by lia.
  - rewrite Z.mul_0_l, Z.add_0_r in Ht. rewrite Ht. destruct f; cbn [searchLoop]; by rewrite decide_False by naive_solver.
  - pose proof (Hn 0 ltac:(lia)) as H0. rewrite Z.mul_0_l, Z.add_0_r in H0. rewrite H0. apply IH; [| | |lia].
    + intros s Hs. specialize (Hb (s + 1) ltac:(lia)). replace (i + d + s * d) with (i + (s + 1) * d) by lia. done.
    + intros s Hs. specialize (Hn (s + 1) ltac:(lia)). replace (i + d + s * d) with (i + (s + 1) * d) by lia. done.
    + rewrite <- Ht. do 2 f_equal. lia.
Qed.

Section reading.
Variable storage : tsCacheAPI.
Context (c : tipSetCache) (best : TipSet) (W : window).
Abbreviation win := (Some best :: W).
Hypothesis Hring : ringOk c win.
Hypothesis Hchain : chainOk win.

(** The key of the head, or no key. *)
Definition headKey (tsk : string) : Prop := tsk = EmptyTSK ∨ tsk = Key (Some best).

(** How [get] goes on once the head is known. *)
Lemma get_head h tsk prev : headKey tsk → get storage c h tsk prev =
  if decide (height best = h) then Ret (Some best)
  else if decide (height best < h) then Fail "requested epoch is in the future"
  else if decide (h < height best - len c)
  then (if prev then apiGetTipSetByHeight storage else apiGetTipSetAfterHeight storage) h (Key (Some best))
  else searchLoop (S (length (byHeight c))) c (start c - (height best - h)) 0 (if prev then -1 else 1) None.
Proof.
  intros Hk. unfold get. rewrite decide_False by (rewrite (ring_len _ _ Hring); simpl; lia).
  rewrite (index_start _ _ Hring), bind_ret_l. change (epoch win 0) with (Some best).
  assert ((if IsEmpty tsk then Some (Some best) else match byKey c !! tsk with Some t => Some (Some t) | None => None end)
          = Some (Some best)) as ->; [|done].
  unfold IsEmpty. case_bool_decide as He; [done|]. destruct Hk as [->| ->]; [done|].
  rewrite (proj2 (ring_keys _ _ Hring (Key (Some best)) best)); [done|]. split; [by left|done].
Qed.

(** The epochs between a tipset of the window and the requested height have none. *)
Lemma epoch_tipset (i : nat) t : epoch win i = Some t → win !! i = Some (Some t) ∧ height t = height best - Z.of_nat i.
Proof.
  unfold epoch. destruct (win !! i) as [o|] eqn:E; simpl; [intros ->|done].
  split; [done|]. pose proof (chain_heights _ Hchain i 0%nat t best E eq_refl). lia.
Qed.

Lemma window_index t : Some t ∈ win → ∃ i : nat, win !! i = Some (Some t) ∧ height t = height best - Z.of_nat i ∧
  Z.of_nat i < cap c ∧ Z.of_nat i < len c.
Proof.
  intros (i&Hi)%list_elem_of_lookup. exists i. destruct (epoch_tipset i t) as [_ Hh]; [unfold epoch; by rewrite Hi|].
  apply lookup_lt_Some in Hi as Hlt. pose proof (ring_fits _ _ Hring). rewrite (ring_len _ _ Hring). split_and!; done || lia.
Qed.

Lemma get_prev h tsk t : headKey tsk → Some t ∈ win → height t ≤ h ≤ height best →
  (∀ t', Some t' ∈ win → height t' ≤ h → height t' ≤ height t) → get storage c h tsk true = Ret (Some t).
Proof.
  intros Hk Ht Hh Hmax. rewrite get_head by done. case_decide as He.
  { destruct (window_index t Ht) as (i&Hi&Hih&_). assert (height best ≤ height t) by (apply Hmax; [by left|lia]).
    assert (i = 0%nat) as -> by lia. by injection Hi as ->. }
  rewrite decide_False by lia. destruct (window_index t Ht) as (i&Hi&Hih&Hc1&Hc2). rewrite decide_False by lia.
  set (k := height best - h). eapply (searchLoop_found c win k (-1) t (i - Z.to_nat k)); [done|..].
  - intros s Hs. pose proof (ring_len _ _ Hring). simpl in *. unfold k in *. lia.
  - intros s Hs. destruct (epoch win _) as [t'|] eqn:Ee; [|done]. apply epoch_tipset in Ee as [Hw He'].
    assert (height t' ≤ height t) by (apply Hmax; [by eapply list_elem_of_lookup_2|unfold k in *; lia]). unfold k in *. lia.
  - unfold epoch. replace (Z.to_nat (k - (0 + Z.of_nat (i - Z.to_nat k) * -1))) with i by (unfold k in *; lia). by rewrite Hi.
  - unfold cap, k in *. lia.
Qed.

Lemma get_after h tsk t : headKey tsk → Some t ∈ win → h ≤ height t → height best - len c < h →
  (∀ t', Some t' ∈ win → h ≤ height t' → height t ≤ height t') → get storage c h tsk false = Ret (Some t).
Proof.
  intros Hk Ht Hh Hlow Hmin. destruct (window_index t Ht) as (i&Hi&Hih&Hc1&Hc2). rewrite get_head by done. case_decide as He.
  { assert (i = 0%nat) as -> by lia. by injection Hi as ->. }
  rewrite !decide_False by lia. set (k := height best - h). pose proof (ring_fits _ _ Hring). pose proof (ring_len _ _ Hring).
  eapply (searchLoop_found c win k 1 t (Z.to_nat k - i)); [done|..].
  - intros s Hs. unfold k in *. lia.
  - intros s Hs. destruct (epoch win _) as [t'|] eqn:Ee; [|done]. apply epoch_tipset in Ee as [Hw He'].
    assert (height t ≤ height t') by (apply Hmin; [by eapply list_elem_of_lookup_2|unfold k in *; lia]). unfold k in *. lia.
  - unfold epoch. replace (Z.to_nat (k - (0 + Z.of_nat (Z.to_nat k - i) * 1))) with i by (unfold k in *; lia). by rewrite Hi.
  - unfold cap, k in *. lia.
Qed.

(** Reading below the head gives what the window has: [ChainGetTipSetByHeight] finds
    the last tipset at or before a height, [ChainGetTipSetAfterHeight] the first one at
    or after it, when the window has it; heights below the window are asked from the
    storage, and heights above the head are an error. *)
Theorem get_reads_window h tsk : headKey tsk →
  (∀ t, Some t ∈ win → height t ≤ h ≤ height best → (∀ t', Some t' ∈ win → height t' ≤ h → height t' ≤ height t) →
     ChainGetTipSetByHeight storage c h tsk = Ret (Some t)) ∧
  (∀ t, Some t ∈ win → h ≤ height t → height best - len c < h → (∀ t', Some t' ∈ win → h ≤ height t' → height t ≤ height t') →
     ChainGetTipSetAfterHeight storage c h tsk = Ret (Some t)) ∧
  (h < height best - len c → ChainGetTipSetByHeight storage c h tsk = apiGetTipSetByHeight storage h (Key (Some best))) ∧
  (height best < h → ChainGetTipSetByHeight storage c h tsk = Fail "requested epoch is in the future").
Proof.
  intros Hk. pose proof (ring_len _ _ Hring) as Hl. split_and!.
  - intros t Ht Hh Hmax. by apply get_prev.
  - intros t Ht Hh Hlow Hmin. by apply get_after.
  - intros Hh. unfold ChainGetTipSetByHeight. rewrite get_head by done. by rewrite !decide_False, decide_True by (simpl in *; lia).
  - intros Hh. unfold ChainGetTipSetByHeight. rewrite get_head by done. by rewrite decide_False, decide_True by lia.
Qed.
End reading.

(** ** Examples *)

(** A tipset of one block [c] at height [h] on the block [p]. *)
Definition exTipSet (c p : string) (h : Z) : TipSet := mkTipSet [c] [mkBlockHeader c c [p] h 0 100 c 0] h.
Definition ts1 : TipSet := exTipSet "a" "g" 1.
Definition ts2 : TipSet := exTipSet "b" "a" 2.
Definition ts3 : TipSet := exTipSet "c" "b" 3.
Definition ts4 : TipSet := exTipSet "d" "c" 4.
Definition ts4' : TipSet := exTipSet "e" "a" 4.

Definition exKnown (t : TipSet) : Prop := t ∈ [ts1; ts2; ts3; ts4; ts4'].

Lemma exKnown_named t : exKnown t → Key (Some t) ≠ EmptyTSK.
Proof. unfold exKnown. rewrite !elem_of_cons, elem_of_nil. naive_solver. Qed.

Lemma exKnown_height t t' : exKnown t → exKnown t' → Key (Some t) = Key (Some t') → height t = height t'.
Proof. unfold exKnown. rewrite !elem_of_cons, elem_of_nil. intros Ht Ht' Hk.
  destruct_or!; subst; done || by apply elem_of_nil in Ht'.
Qed.

(** The cache of capacity [n] after tipsets were added in order. *)
Definition addAll (n : nat) (l : list TipSet) : outcome tipSetCache :=
  foldl (λ o t, c ← o; r ← add t c; Ret r.1) (Ret (newTSCache n)) l.
Definition exCache (n : nat) (l : list TipSet) : tipSetCache :=
  match addAll n l with Ret c => c | _ => newTSCache n end.

Lemma cache_refines_window_witness :
  ∃ c', add ts2 (exCache 3 [ts1]) = Ret (c', None) ∧ cacheOk exKnown c' [Some ts2; Some ts1].
Proof.
  destruct (cache_refines_window exKnown exKnown_named exKnown_height) as (H0&Hadd&_).
  destruct (Hadd (newTSCache 3) [] ts1 "g") as (c1&e1&E1&Hc1); [apply H0; lia|by left|done|].
  rewrite decide_True in Hc1 by done. destruct Hc1 as (->&_&Hok1).
  assert (exCache 3 [ts1] = c1) as -> by (unfold exCache, addAll; cbn [foldl]; by rewrite bind_ret_l, E1).
  destruct (Hadd c1 [Some ts1] ts2 "a" Hok1) as (c2&e2&E2&Hc2); [by right; left|done|].
  rewrite decide_True in Hc2 by done. destruct Hc2 as (->&Ec&Hok2). exists c2. split; [done|].
  assert (cap c1 = 3) as Ec1 by (vm_compute in E1; by injection E1 as <-). by rewrite Ec1 in Hok2.
Defined.

(** A storage that knows the whole chain up to [ts4'], which follows [ts1]. *)
Definition exStorage : tsCacheAPI :=
  mkAPI (λ h _, Ret (Some (if decide (h ≤ 1) then ts1 else ts4'))) (λ h _, Ret (Some (if decide (h < 4) then ts1 else ts4')))
    (λ _, Ret None) (Ret (Some ts4')).

Lemma exCache_ok : cacheOk exKnown (exCache 5 [ts1; ts4']) [Some ts4'; None; None; Some ts1].
Proof.
  pose proof (add_follows exKnown exKnown_named exKnown_height) as Hadd.
  destruct (Hadd (newTSCache 5) [] ts1) as (c1&E1&Ec1&Hok1); [apply (newTSCache_ok exKnown 5%nat ltac:(lia))|by left|done|].
  destruct (Hadd c1 [Some ts1] ts4' Hok1) as (c2&E2&_&Hok2); [unfold exKnown; rewrite !elem_of_cons; tauto|done|].
  assert (exCache 5 [ts1; ts4'] = c2) as ->.
  { unfold exCache, addAll. cbn [foldl]. rewrite bind_ret_l, E1, !bind_ret_l. cbn [fst]. by rewrite E2. }
  rewrite Ec1 in Hok2. exact Hok2.
Qed.

Lemma get_reads_window_witness :
  ChainGetTipSetByHeight exStorage (exCache 5 [ts1; ts4']) 3 "" = Ret (Some ts1).
Proof.
  destruct exCache_ok as (Hr&Hc&_).
  destruct (get_reads_window exStorage _ ts4' [None; None; Some ts1] Hr Hc 3 "") as (Hp&_); [by left|].
  apply Hp; [rewrite !elem_of_cons; tauto|done|].
  intros t. rewrite !elem_of_cons, elem_of_nil. intros Ht Hh. destruct_or!; simplify_eq; vm_compute in *; done.
Defined.

(** [get] with the key of a tipset below the head counts epochs from that tipset but slots
    from the head: asked for height 1 below [ts2] it returns [ts2] itself. *)
Lemma get_below_head_is_wrong :
  ChainGetTipSetByHeight exStorage (exCache 5 [ts1; ts2; ts3]) 1 (Key (Some ts2)) = Ret (Some ts2).
Proof. vm_compute. reflexivity. Qed.

(** The window is taken for one epoch longer than it is: asked for height 1 below a window
    of the heights 2 to 4, [get] returns the head instead of asking the storage. *)
Lemma get_below_window_returns_head :
  ChainGetTipSetByHeight exStorage (exCache 3 [ts1; ts2; ts3; ts4]) 1 "" = Ret (Some ts4).
Proof. vm_compute. reflexivity. Qed.

(** When the epochs down to the end of the window are empty, the search goes round the ring
    and returns the head, whose height is above the requested one; the storage has
    [ts1]. *)
Lemma get_past_nulls_returns_head :
  ChainGetTipSetByHeight exStorage (exCache 3 [ts1; ts4']) 3 "" = Ret (Some ts4') ∧
  apiGetTipSetByHeight exStorage 3 "" = Ret (Some ts1).
Proof. split; vm_compute; reflexivity. Qed.
