(* ===== verification/SealTasks.v ===== *)
(** * Sealing tasks and what they need (storage/sealer/sealtasks/task.go,
    storage/sealer/storiface/resources.go, storage/sealer/storiface/worker.go)

    The kinds of tasks with their order of urgency, and the table of the memory, processors and
    GPUs that a task of a kind takes for a proof, which a worker may override from its
    environment. *)

From Stdlib Require Import Ascii SpecFloat.
From stdpp Require Import strings numbers base gmap list.
From S2P Require Import Prelude GoStrings ProofLog.
Local Open Scope Z_scope.

(** A 64-bit unsigned integer. *)
Definition u64 (z : Z) : Z := z mod 2 ^ 64.

Lemma u64_small z : 0 ≤ z < 2 ^ 64 → u64 z = z.
Proof. apply Z.mod_small. Qed.

(** ** Kinds of tasks *)

Definition TTDataCid : string := "seal/v0/datacid".
Definition TTAddPiece : string := "seal/v0/addpiece".
Definition TTPreCommit1 : string := "seal/v0/precommit/1".
Definition TTPreCommit2 : string := "seal/v0/precommit/2".
Definition TTCommit1 : string := "seal/v0/commit/1".
Definition TTCommit2 : string := "seal/v0/commit/2".
Definition TTFinalize : string := "seal/v0/finalize".
Definition TTFetch : string := "seal/v0/fetch".
Definition TTUnseal : string := "seal/v0/unseal".
Definition TTReplicaUpdate : string := "seal/v0/replicaupdate".
Definition TTProveReplicaUpdate1 : string := "seal/v0/provereplicaupdate/1".
Definition TTProveReplicaUpdate2 : string := "seal/v0/provereplicaupdate/2".
Definition TTRegenSectorKey : string := "seal/v0/regensectorkey".
Definition TTFinalizeReplicaUpdate : string := "seal/v0/finalize/replicaupdate".
Definition TTDownloadSector : string := "seal/v0/download/sector".
Definition TTGenerateWindowPoSt : string := "post/v0/windowproof".
Definition TTGenerateWinningPoSt : string := "post/v0/winningproof".

(** A missing key of a map of numbers reads as zero. *)
Definition assoc {A} (d : A) (l : list (string * A)) (k : string) : A :=
  match find (λ x, bool_decide (x.1 = k)) l with Some (_, a) => a | None => d end.

Definition orderTable : list (string * Z) :=
  [(TTRegenSectorKey, 11); (TTDataCid, 10); (TTAddPiece, 9); (TTReplicaUpdate, 8);
   (TTProveReplicaUpdate2, 7); (TTProveReplicaUpdate1, 6); (TTPreCommit1, 5); (TTPreCommit2, 4);
   (TTCommit2, 3); (TTCommit1, 2); (TTUnseal, 1); (TTFetch, -1);
   (TTDownloadSector, -2); (TTFinalize, -3); (TTGenerateWindowPoSt, -4); (TTGenerateWinningPoSt, -5)].
Definition order (tt : string) : Z := assoc 0 orderTable tt.

Definition shortNames : list (string * string) :=
  [(TTDataCid, "DC"); (TTAddPiece, "AP"); (TTPreCommit1, "PC1"); (TTPreCommit2, "PC2");
   (TTCommit1, "C1"); (TTCommit2, "C2"); (TTFinalize, "FIN"); (TTFetch, "GET");
   (TTUnseal, "UNS"); (TTReplicaUpdate, "RU"); (TTProveReplicaUpdate1, "PR1"); (TTProveReplicaUpdate2, "PR2");
   (TTRegenSectorKey, "GSK"); (TTFinalizeReplicaUpdate, "FRU"); (TTDownloadSector, "DL"); (TTGenerateWindowPoSt, "WDP");
   (TTGenerateWinningPoSt, "WNP")].
Definition Short (tt : string) : string := assoc "UNK" shortNames tt.

Definition SectorSized (tt : string) : bool := bool_decide (tt ≠ TTDataCid).

Definition MuchLess (a b : string) : bool * bool :=
  (bool_decide (Z.lxor (order a) (order b) < 0), bool_decide (order a < order b)).
Definition Less (a b : string) : bool := bool_decide (order a < order b).

(** ** Resources *)

(** [abi.RegisteredSealProof] *)
Inductive SealProof :=
| StackedDrg2KiBV1 | StackedDrg8MiBV1 | StackedDrg512MiBV1 | StackedDrg32GiBV1 | StackedDrg64GiBV1
| StackedDrg2KiBV1_1 | StackedDrg8MiBV1_1 | StackedDrg512MiBV1_1 | StackedDrg32GiBV1_1 | StackedDrg64GiBV1_1.

#[global] Instance SealProof_eq_dec : EqDecision SealProof.
Proof. solve_decision. Defined.
#[global] Instance SealProof_countable : Countable SealProof.
Proof.
  refine (inj_countable'
    (λ p, match p with StackedDrg2KiBV1 => 0 | StackedDrg8MiBV1 => 1 | StackedDrg512MiBV1 => 2 | StackedDrg32GiBV1 => 3
          | StackedDrg64GiBV1 => 4 | StackedDrg2KiBV1_1 => 5 | StackedDrg8MiBV1_1 => 6 | StackedDrg512MiBV1_1 => 7
          | StackedDrg32GiBV1_1 => 8 | StackedDrg64GiBV1_1 => 9 end)%nat
    (λ n, match n with 0 => StackedDrg2KiBV1 | 1 => StackedDrg8MiBV1 | 2 => StackedDrg512MiBV1 | 3 => StackedDrg32GiBV1
          | 4 => StackedDrg64GiBV1 | 5 => StackedDrg2KiBV1_1 | 6 => StackedDrg8MiBV1_1 | 7 => StackedDrg512MiBV1_1
          | 8 => StackedDrg32GiBV1_1 | _ => StackedDrg64GiBV1_1 end)%nat _).
  by intros [].
Defined.

Record Resources := mkResources {
  MinMemory : Z; MaxMemory : Z; GPUUtilization : spec_float; MaxParallelism : Z; MaxParallelismGPU : Z;
  BaseMinMemory : Z; MaxConcurrent : Z
}.

Definition fzero : spec_float := S754_zero false.
Definition noResources : Resources := mkResources 0 0 fzero 0 0 0 0.

Definition ParallelNum : Z := 92.
Definition ParallelDenom : Z := 100.

(** A comparison of floats that is false on NaN. *)
Definition fpos (x : spec_float) : bool := SFltb fzero x.

Definition Threads (r : Resources) (wcpus gpus : Z) : Z :=
  let mp := if fpos (GPUUtilization r) && bool_decide (gpus > 0) && bool_decide (MaxParallelismGPU r ≠ 0)
            then MaxParallelismGPU r else MaxParallelism r in
  if decide (mp = -1) then
    let n := u64 (wcpus * ParallelNum) `div` ParallelDenom in
    if decide (n = 0) then wcpus else n
  else u64 mp.

(** ** The table *)

Local Infix "<<" := Z.shiftl (at level 35).

(** An entry: memory, GPUs, processors without and with a GPU, shared memory. *)
Definition entry (min max gpu par parGPU base : Z) : Resources := mkResources min max (ofInt gpu) par parGPU base 0.

Definition resources_TTAddPiece : list (SealProof * Resources) :=
  [(StackedDrg64GiBV1, entry (8 << 30) (8 << 30) 0 1 0 (1 << 30));
   (StackedDrg32GiBV1, entry (4 << 30) (4 << 30) 0 1 0 (1 << 30));
   (StackedDrg512MiBV1, entry (1 << 30) (1 << 30) 0 1 0 (1 << 30));
   (StackedDrg2KiBV1, entry (2 << 10) (2 << 10) 0 1 0 (2 << 10));
   (StackedDrg8MiBV1, entry (8 << 20) (8 << 20) 0 1 0 (8 << 20))].

Definition resources_TTPreCommit1 : list (SealProof * Resources) :=
  [(StackedDrg64GiBV1, entry (112 << 30) (128 << 30) 0 1 0 (10 << 20));
   (StackedDrg32GiBV1, entry (56 << 30) (64 << 30) 0 1 0 (10 << 20));
   (StackedDrg512MiBV1, entry (768 << 20) (1 << 30) 0 1 0 (1 << 20));
   (StackedDrg2KiBV1, entry (2 << 10) (2 << 10) 0 1 0 (2 << 10));
   (StackedDrg8MiBV1, entry (8 << 20) (8 << 20) 0 1 0 (8 << 20))].

Definition resources_TTPreCommit2 : list (SealProof * Resources) :=
  [(StackedDrg64GiBV1, entry (30 << 30) (30 << 30) 1 (-1) 6 (1 << 30));
   (StackedDrg32GiBV1, entry (15 << 30) (15 << 30) 1 (-1) 6 (1 << 30));
   (StackedDrg512MiBV1, entry (1 << 30) (3 << 29) 0 (-1) 0 (1 << 30));
   (StackedDrg2KiBV1, entry (2 << 10) (2 << 10) 0 (-1) 0 (2 << 10));
   (StackedDrg8MiBV1, entry (8 << 20) (8 << 20) 0 (-1) 0 (8 << 20))].

Definition resources_TTCommit1 : list (SealProof * Resources) :=
  [(StackedDrg64GiBV1, entry (1 << 30) (1 << 30) 0 0 0 (1 << 30));
   (StackedDrg32GiBV1, entry (1 << 30) (1 << 30) 0 0 0 (1 << 30));
   (StackedDrg512MiBV1, entry (1 << 30) (1 << 30) 0 0 0 (1 << 30));
   (StackedDrg2KiBV1, entry (2 << 10) (2 << 10) 0 0 0 (2 << 10));
   (StackedDrg8MiBV1, entry (8 << 20) (8 << 20) 0 0 0 (8 << 20))].

Definition resources_TTCommit2 : list (SealProof * Resources) :=
  [(StackedDrg64GiBV1, entry (60 << 30) (190 << 30) 1 (-1) 6 (64 << 30));
   (StackedDrg32GiBV1, entry (30 << 30) (150 << 30) 1 (-1) 6 (32 << 30));
   (StackedDrg512MiBV1, entry (1 << 30) (3 << 29) 1 1 0 (10 << 30));
   (StackedDrg2KiBV1, entry (2 << 10) (2 << 10) 1 1 0 (2 << 10));
   (StackedDrg8MiBV1, entry (8 << 20) (8 << 20) 1 1 0 (8 << 20))].

Definition resources_TTFetch : list (SealProof * Resources) :=
  [(StackedDrg64GiBV1, entry (1 << 20) (1 << 20) 0 0 0 0);
   (StackedDrg32GiBV1, entry (1 << 20) (1 << 20) 0 0 0 0);
   (StackedDrg512MiBV1, entry (1 << 20) (1 << 20) 0 0 0 0);
   (StackedDrg2KiBV1, entry (1 << 20) (1 << 20) 0 0 0 0);
   (StackedDrg8MiBV1, entry (1 << 20) (1 << 20) 0 0 0 0)].

Definition resources_TTReplicaUpdate : list (SealProof * Resources) :=
  [(StackedDrg64GiBV1, entry (8 << 30) (8 << 30) 0 1 0 (1 << 30));
   (StackedDrg32GiBV1, entry (4 << 30) (4 << 30) 0 1 0 (1 << 30));
   (StackedDrg512MiBV1, entry (1 << 30) (1 << 30) 0 1 0 (1 << 30));
   (StackedDrg2KiBV1, entry (2 << 10) (2 << 10) 0 1 0 (2 << 10));
   (StackedDrg8MiBV1, entry (8 << 20) (8 << 20) 0 1 0 (8 << 20))].

Definition resources_TTProveReplicaUpdate1 : list (SealProof * Resources) :=
  [(StackedDrg64GiBV1, entry (1 << 30) (1 << 30) 0 0 0 (1 << 30));
   (StackedDrg32GiBV1, entry (1 << 30) (1 << 30) 0 0 0 (1 << 30));
   (StackedDrg512MiBV1, entry (1 << 30) (1 << 30) 0 0 0 (1 << 30));
   (StackedDrg2KiBV1, entry (2 << 10) (2 << 10) 0 0 0 (2 << 10));
   (StackedDrg8MiBV1, entry (8 << 20) (8 << 20) 0 0 0 (8 << 20))].

Definition resources_TTProveReplicaUpdate2 : list (SealProof * Resources) :=
  [(StackedDrg64GiBV1, entry (60 << 30) (190 << 30) 1 (-1) 6 (64 << 30));
   (StackedDrg32GiBV1, entry (30 << 30) (150 << 30) 1 (-1) 6 (32 << 30));
   (StackedDrg512MiBV1, entry (1 << 30) (3 << 29) 1 1 0 (10 << 30));
   (StackedDrg2KiBV1, entry (2 << 10) (2 << 10) 1 1 0 (2 << 10));
   (StackedDrg8MiBV1, entry (8 << 20) (8 << 20) 1 1 0 (8 << 20))].

Definition resources_TTGenerateWindowPoSt : list (SealProof * Resources) :=
  [(StackedDrg64GiBV1, entry (60 << 30) (120 << 30) 1 (-1) 6 (64 << 30));
   (StackedDrg32GiBV1, entry (30 << 30) (96 << 30) 1 (-1) 6 (32 << 30));
   (StackedDrg512MiBV1, entry (1 << 30) (3 << 29) 1 1 0 (10 << 30));
   (StackedDrg2KiBV1, entry (2 << 10) (2 << 10) 1 1 0 (2 << 10));
   (StackedDrg8MiBV1, entry (8 << 20) (8 << 20) 1 1 0 (8 << 20))].

Definition resources_TTGenerateWinningPoSt : list (SealProof * Resources) :=
  [(StackedDrg64GiBV1, entry (1 << 30) (1 << 30) 1 (-1) 6 (64 << 30));
   (StackedDrg32GiBV1, entry (1 << 30) (1 << 30) 1 (-1) 6 (32 << 30));
   (StackedDrg512MiBV1, entry (2 << 10) (2 << 10) 1 1 0 (10 << 30));
   (StackedDrg2KiBV1, entry (2 << 10) (2 << 10) 1 1 0 (2 << 10));
   (StackedDrg8MiBV1, entry (8 << 20) (8 << 20) 1 1 0 (8 << 20))].

Definition baseTable : list (string * list (SealProof * Resources)) :=
  [(TTAddPiece, resources_TTAddPiece); (TTPreCommit1, resources_TTPreCommit1);
   (TTPreCommit2, resources_TTPreCommit2); (TTCommit1, resources_TTCommit1);
   (TTCommit2, resources_TTCommit2); (TTFetch, resources_TTFetch);
   (TTReplicaUpdate, resources_TTReplicaUpdate); (TTProveReplicaUpdate1, resources_TTProveReplicaUpdate1);
   (TTProveReplicaUpdate2, resources_TTProveReplicaUpdate2); (TTGenerateWindowPoSt, resources_TTGenerateWindowPoSt);
   (TTGenerateWinningPoSt, resources_TTGenerateWinningPoSt)].

Definition find_proof (m : list (SealProof * Resources)) (spt : SealProof) : option Resources :=
  snd <$> find (λ x, bool_decide (x.1 = spt)) m.

(** What [init] adds: entries for three more kinds, and the second version of each proof with
    the entry of the first. *)
Definition secondVersions : list (SealProof * SealProof) :=
  [(StackedDrg2KiBV1_1, StackedDrg2KiBV1); (StackedDrg8MiBV1_1, StackedDrg8MiBV1); (StackedDrg512MiBV1_1, StackedDrg512MiBV1);
   (StackedDrg32GiBV1_1, StackedDrg32GiBV1); (StackedDrg64GiBV1_1, StackedDrg64GiBV1)].

Definition withSecond (m : list (SealProof * Resources)) : list (SealProof * Resources) :=
  m ++ map (λ vw, (vw.1, default noResources (find_proof m vw.2))) secondVersions.

Definition ResourceTable : list (string * list (SealProof * Resources)) :=
  map (λ tm, (tm.1, withSecond tm.2))
    (baseTable ++ [(TTUnseal, resources_TTPreCommit1); (TTRegenSectorKey, resources_TTReplicaUpdate);
       (TTDataCid, map (λ pr, (pr.1, default noResources (find_proof resources_TTAddPiece StackedDrg32GiBV1))) resources_TTAddPiece)]).

Definition defaultSpec (spt : SealProof) (tt : string) : Resources :=
  default noResources (find_proof (assoc [] ResourceTable tt) spt).

(** ** Workers *)

Record WorkerResources := mkWorkerResources {
  MemPhysical : Z; MemUsed : Z; MemSwap : Z; MemSwapUsed : Z; CPUs : Z; GPUs : list string;
  wrResources : option (list (string * list (SealProof * Resources)))
}.

Record WorkerInfo := mkWorkerInfo { Hostname : string; IgnoreResources : bool; wiResources : WorkerResources }.

Definition ResourceSpec (wr : WorkerResources) (spt : SealProof) (tt : string) : Resources :=
  match wrResources wr with
  | None => defaultSpec spt tt
  | Some table =>
      match find (λ x, bool_decide (x.1 = tt)) table with
      | None => defaultSpec spt tt
      | Some (_, tr) => default (defaultSpec spt tt) (find_proof tr spt)
      end
  end.

(** ** Overrides from the environment *)

Section env.
(** [os.LookupEnv], and [strconv.ParseFloat] with the value that it returns also with an error. *)
Variable lookup : string → option string.
Variable ParseFloat : string → spec_float.

(** [strconv.ParseUint] and [strconv.Atoi] with the value that they return also with an error. *)
Definition ParseUint (s : string) : Z :=
  if allBytes decimalByte s && negb (bool_decide (s = "")) then
    Z.min (2 ^ 64 - 1) (default 0 (undigits s))
  else 0.
Definition AtoiValue (s : string) : Z := default 0 (Atoi s).

(** The short name of the sector size of a proof. *)
Definition shortSize (spt : SealProof) : string :=
  match spt with
  | StackedDrg2KiBV1 | StackedDrg2KiBV1_1 => "2K"
  | StackedDrg8MiBV1 | StackedDrg8MiBV1_1 => "8M"
  | StackedDrg512MiBV1 | StackedDrg512MiBV1_1 => "512M"
  | StackedDrg32GiBV1 | StackedDrg32GiBV1_1 => "32G"
  | StackedDrg64GiBV1 | StackedDrg64GiBV1_1 => "64G"
  end.

Definition getSDRThreads : outcome Z :=
  if decide (lookup "FIL_PROOFS_USE_MULTICORE_SDR" = Some "1") then
    match lookup "FIL_PROOFS_MULTICORE_SDR_PRODUCERS" with
    | Some penv => match Atoi penv with
                   | Some producers => Ret (wrapInt64 (producers + 1))
                   | None => Fail "parsing (atoi) FIL_PROOFS_MULTICORE_SDR_PRODUCERS"
                   end
    | None => Ret 4
    end
  else Ret 1.

(** The value of the environment for one field of an entry. *)
Definition envValue (taskType : string) (spt : SealProof) (envname : string) : option string :=
  match lookup (Short taskType +:+ "_" +:+ shortSize spt +:+ "_" +:+ envname) with
  | Some v => Some v
  | None => lookup (Short taskType +:+ "_" +:+ envname)
  end.

Definition field {A} (taskType : string) (spt : SealProof) (envname : string) (parse : string → A) (old : A) : A :=
  match envValue taskType spt envname with Some v => parse v | None => old end.

(** The fields in the order of the struct. *)
Definition envResources (taskType : string) (spt : SealProof) (r : Resources) : outcome Resources :=
  maxParallelism ←
    (match envValue taskType spt "MAX_PARALLELISM" with
     | Some v => Ret (AtoiValue v)
     | None => if decide (taskType = TTPreCommit1 ∨ taskType = TTUnseal) then getSDRThreads else Ret (MaxParallelism r)
     end);
  Ret (mkResources (field taskType spt "MIN_MEMORY" ParseUint (MinMemory r)) (field taskType spt "MAX_MEMORY" ParseUint (MaxMemory r))
         (field taskType spt "GPU_UTILIZATION" ParseFloat (GPUUtilization r)) maxParallelism
         (field taskType spt "MAX_PARALLELISM_GPU" AtoiValue (MaxParallelismGPU r))
         (field taskType spt "BASE_MIN_MEMORY" ParseUint (BaseMinMemory r)) (field taskType spt "MAX_CONCURRENT" AtoiValue (MaxConcurrent r))).

Fixpoint traverse {A B} (f : A → outcome B) (l : list A) : outcome (list B) :=
  match l with [] => Ret [] | a :: l' => b ← f a; bs ← traverse f l'; Ret (b :: bs) end.

Definition ParseResourceEnv : outcome (list (string * list (SealProof * Resources))) :=
  traverse (λ tm, m ← traverse (λ pr, r ← envResources tm.1 pr.1 pr.2; Ret (pr.1, r)) tm.2; Ret (tm.1, m)) ResourceTable.
End env.

Example ParseResourceEnv_default : ParseResourceEnv (λ _, None) (λ _, fzero) = Ret ResourceTable.
Proof. vm_compute. reflexivity. Qed.

(** ** Facts about the tables *)

(** Every entry of the table is within what the sums of the scheduler can hold. *)
Definition sane (r : Resources) : Prop :=
  0 ≤ MinMemory r ≤ MaxMemory r ∧ MaxMemory r < 2 ^ 40 ∧ 0 ≤ BaseMinMemory r < 2 ^ 40 ∧ -1 ≤ MaxParallelism r < 2 ^ 10 ∧
  0 ≤ MaxParallelismGPU r < 2 ^ 10 ∧ 0 ≤ MaxConcurrent r.

#[global] Instance sane_dec r : Decision (sane r).
Proof. unfold sane. apply _. Defined.

Lemma table_sane : Forall (λ tm, Forall (λ pr, sane pr.2) tm.2) ResourceTable.
Proof. apply (bool_decide_unpack _). vm_compute. exact I. Qed.

Lemma assoc_In {A} (d : A) l k : assoc d l k = d ∨ ∃ k', (k', assoc d l k) ∈ l.
Proof.
  unfold assoc. destruct (find _ l) as [[k' a]|] eqn:E; [|by left]. right. exists k'.
  apply find_some in E as [E _]. by apply list_elem_of_In.
Qed.

Lemma find_proof_In m spt r : find_proof m spt = Some r → ∃ p, (p, r) ∈ m.
Proof.
  unfold find_proof. destruct (find _ m) as [[p r']|] eqn:E; [|done]. intros [= ->]. exists p.
  apply find_some in E as [E _]. by apply list_elem_of_In.
Qed.

(** What a task needs by default is sane, also for kinds and proofs that have no entry. *)
Lemma defaultSpec_sane spt tt : sane (defaultSpec spt tt).
Proof.
  unfold defaultSpec. destruct (find_proof (assoc [] ResourceTable tt) spt) as [r|] eqn:E; [|by vm_compute].
  apply find_proof_In in E as [p Hp]. destruct (assoc_In [] ResourceTable tt) as [H|[k H]]; [rewrite H in Hp; by apply elem_of_nil in Hp|].
  pose proof table_sane as Ht. rewrite Forall_forall in Ht. specialize (Ht _ H). rewrite Forall_forall in Ht. by apply (Ht _ Hp).
Qed.

(** The number of processors of a task: at least one, and at most those of the worker, for a task
    that may use several. *)
Lemma Threads_bounds r wcpus gpus : 0 < wcpus < 2 ^ 32 → sane r →
  0 ≤ Threads r wcpus gpus < 2 ^ 32 ∧
  (MaxParallelism r = -1 → MaxParallelismGPU r = 0 → 0 < Threads r wcpus gpus ≤ wcpus).
Proof.
  intros Hc (_&_&_&Hp&Hg&_). unfold Threads, ParallelNum, ParallelDenom, u64.
  assert ((wcpus * 92) mod 2 ^ 64 = wcpus * 92) as -> by (apply Z.mod_small; lia).
  assert (0 ≤ (wcpus * 92) `div` 100 ≤ wcpus) as Hd by (split; [apply Z.div_pos; lia|apply Z.div_le_upper_bound; lia]).
  set (mp := if (_ : bool) then MaxParallelismGPU r else MaxParallelism r).
  assert (-1 ≤ mp < 2 ^ 10 ∧ (MaxParallelismGPU r = 0 → mp = MaxParallelism r)) as [Hmp Hmp'].
  { unfold mp. destruct (fpos _ && _ && _) eqn:E; [|split; [lia|done]]. split; [lia|]. intros H0.
    apply andb_prop in E as [_ E]. apply bool_decide_eq_true in E. done. }
  case_decide as E1; [case_decide as E2; split; [lia|intros; lia|lia|intros; lia]|].
  rewrite Z.mod_small by lia. split; [lia|]. intros H1 H2. rewrite Hmp' in E1 by done. done.
Qed.

(** A value of the environment that is not a number is not reported: it reads as zero. *)
Theorem malformed_env_reads_zero :
  let env := λ k, if decide (k = "PC1_32G_MIN_MEMORY") then Some "56GiB" else None in
  MinMemory (defaultSpec StackedDrg32GiBV1 TTPreCommit1) = 56 * 2 ^ 30 ∧
  ∃ table, ParseResourceEnv env (λ _, fzero) = Ret table ∧
    MinMemory <$> find_proof (assoc [] table TTPreCommit1) StackedDrg32GiBV1 = Some 0.
Proof. split; [by vm_compute|]. eexists. split; [vm_compute; reflexivity|]. by vm_compute. Qed.
