(* ===== verification/SealResources.v ===== *)
(** * Accounting of a worker's resources (storage/sealer/sched_resources.go)

    [ActiveResources] adds up what the tasks of a worker use.  The sums are 64-bit integers,
    and a float for the GPUs; they are exact modulo their width, and a task is admitted only
    when it fits beside the others. *)

From Stdlib Require Import Ascii SpecFloat.
From coqutil Require Import Datatypes.RecordSetters.
From stdpp Require Import strings numbers base gmap fin_maps sets list.
From S2P Require Import Prelude GoStrings ProofLog SealTasks.
Import DoubleBraceUpdate.
Local Open Scope Z_scope.

(** [sealtasks.SealTaskType] *)
Abbreviation SealTaskType := (string * SealProof)%type.

(** The condition variable is modelled with the calls that wait. *)
Record ActiveResources := mkActiveResources {
  memUsedMin : Z; memUsedMax : Z; gpuUsed : spec_float; cpuUse : Z;
  taskCounters : gmap SealTaskType Z; waiting : Z
}.

Definition NewActiveResources : ActiveResources := mkActiveResources 0 0 fzero 0 ∅ 0.

Definition counter (a : ActiveResources) (tt : SealTaskType) : Z := default 0 (taskCounters a !! tt).

Definition gpus (wr : WorkerResources) : Z := Z.of_nat (length (GPUs wr)).
Definition threads (wr : WorkerResources) (r : Resources) : Z := Threads r (CPUs wr) (gpus wr).

Definition fsub : spec_float → spec_float → spec_float := SFsub 53 1024.

Definition utilization (a : ActiveResources) (wr : WorkerResources) : spec_float :=
  let grow max x := if SFltb max x then x else max in
  let cpu := fdiv (ofInt (cpuUse a)) (ofInt (CPUs wr)) in
  let memUsed := if decide (memUsedMin a < MemUsed wr) then MemUsed wr else memUsedMin a in
  let memMin := fdiv (ofInt memUsed) (ofInt (MemPhysical wr)) in
  let reserved := u64 (MemUsed wr + MemSwapUsed wr) in
  let vmemUsed := if decide (memUsedMax a < reserved) then reserved else memUsedMax a in
  let memMax := fdiv (ofInt vmemUsed) (ofInt (u64 (MemPhysical wr + MemSwap wr))) in
  let max := grow (grow cpu memMin) memMax in
  if decide (0 < gpus wr) then grow max (fdiv (gpuUsed a) (ofInt (gpus wr))) else max.

(** [Add] on the state; its result is [addUtil]. *)
Definition Add (a : ActiveResources) (tt : SealTaskType) (wr : WorkerResources) (r : Resources) : ActiveResources :=
  mkActiveResources (u64 (memUsedMin a + MinMemory r)) (u64 (memUsedMax a + MaxMemory r))
    (if fpos (GPUUtilization r) then fadd (gpuUsed a) (GPUUtilization r) else gpuUsed a)
    (u64 (cpuUse a + threads wr r)) (<[tt := counter a tt + 1]> (taskCounters a)) (waiting a).

Definition addUtil (a : ActiveResources) (tt : SealTaskType) (wr : WorkerResources) (r : Resources) : spec_float :=
  fsub (utilization (Add a tt wr r) wr) (utilization a wr).

Definition Free (a : ActiveResources) (tt : SealTaskType) (wr : WorkerResources) (r : Resources) : ActiveResources :=
  mkActiveResources (u64 (memUsedMin a - MinMemory r)) (u64 (memUsedMax a - MaxMemory r))
    (if fpos (GPUUtilization r) then fsub (gpuUsed a) (GPUUtilization r) else gpuUsed a)
    (u64 (cpuUse a - threads wr r)) (<[tt := counter a tt - 1]> (taskCounters a)) (waiting a).

Definition hasWorkWaiting (a : ActiveResources) : bool := bool_decide (0 < waiting a).

Definition CanHandleRequest (a : ActiveResources) (tt : SealTaskType) (needRes : Resources) (info : WorkerInfo) : bool :=
  if decide (0 < MaxConcurrent needRes ∧ MaxConcurrent needRes ≤ counter a tt) then false
  else if IgnoreResources info then true
  else
    let res := wiResources info in
    let memNeeded := u64 (MinMemory needRes + BaseMinMemory needRes) in
    let memAvail := u64 (MemPhysical res - memUsedMin a) in
    if decide (memAvail < memNeeded) then false
    else
      let vmemNeeded := u64 (MaxMemory needRes + BaseMinMemory needRes) in
      let workerMemoryReserved := u64 (MemUsed res + MemSwapUsed res) in
      let vmemUsed := if decide (memUsedMax a < workerMemoryReserved) then workerMemoryReserved else memUsedMax a in
      let vmemAvail := u64 (u64 (MemPhysical res + MemSwap res) - vmemUsed) in
      if decide (vmemAvail < vmemNeeded) then false
      else if decide (CPUs res < u64 (cpuUse a + threads res needRes)) then false
      else if decide (0 < gpus res) then
        negb (fpos (GPUUtilization needRes) && SFltb (ofInt (gpus res)) (fadd (gpuUsed a) (GPUUtilization needRes)))
      else true.

(** ** The sums are exact *)

(** A task with what it needs. *)
Abbreviation Job := (SealTaskType * Resources)%type.

Definition sumOf {A} (f : A → Z) (l : list A) : Z := foldr (λ x s, f x + s) 0 l.

Lemma sumOf_Permutation {A} (f : A → Z) l l' : l ≡ₚ l' → sumOf f l = sumOf f l'.
Proof. induction 1; simpl; lia. Qed.

Lemma sumOf_app {A} (f : A → Z) l l' : sumOf f (l ++ l') = sumOf f l + sumOf f l'.
Proof. induction l; simpl; lia. Qed.

Lemma sumOf_nonneg {A} (f : A → Z) l : (∀ x, x ∈ l → 0 ≤ f x) → 0 ≤ sumOf f l.
Proof.
  induction l as [|x l IH]; intros H; simpl; [lia|]. assert (0 ≤ f x) by (apply H; by left).
  assert (0 ≤ sumOf f l) by (apply IH; intros y Hy; apply H; by right). lia.
Qed.

Definition countOf (tt : SealTaskType) (jobs : list Job) : Z := sumOf (λ j, if decide (j.1 = tt) then 1 else 0) jobs.

(** [a] holds the sums of [jobs]. *)
Record accounts (wr : WorkerResources) (a : ActiveResources) (jobs : list Job) : Prop := mkAccounts {
  acc_min : memUsedMin a = u64 (sumOf (λ j, MinMemory j.2) jobs);
  acc_max : memUsedMax a = u64 (sumOf (λ j, MaxMemory j.2) jobs);
  acc_cpu : cpuUse a = u64 (sumOf (λ j, threads wr j.2) jobs);
  acc_count : ∀ tt, counter a tt = countOf tt jobs
}.

Lemma u64_add_l x y : u64 (u64 x + y) = u64 (x + y).
Proof. unfold u64. apply Zplus_mod_idemp_l. Qed.

Lemma u64_sub_l x y : u64 (u64 x - y) = u64 (x - y).
Proof. unfold u64. apply Zminus_mod_idemp_l. Qed.

Lemma accounts_nil wr : accounts wr NewActiveResources [].
Proof. split; [reflexivity..|]. intros tt. unfold counter, NewActiveResources. cbn [taskCounters]. by rewrite lookup_empty. Qed.

Lemma accounts_Permutation wr a l l' : l ≡ₚ l' → accounts wr a l → accounts wr a l'.
Proof.
  intros Hp [H1 H2 H3 H4]. split.
  - by rewrite H1, (sumOf_Permutation _ _ _ Hp).
  - by rewrite H2, (sumOf_Permutation _ _ _ Hp).
  - by rewrite H3, (sumOf_Permutation _ _ _ Hp).
  - intros tt. rewrite H4. unfold countOf. apply sumOf_Permutation, Hp.
Qed.

Lemma counter_insert a tt tt' c m M g p w :
  counter (mkActiveResources m M g p (<[tt := c]> (taskCounters a)) w) tt' = if decide (tt = tt') then c else counter a tt'.
Proof. unfold counter. simpl. rewrite lookup_insert. by case_decide. Qed.

Lemma Add_accounts wr a tt r jobs : accounts wr a jobs → accounts wr (Add a tt wr r) ((tt, r) :: jobs).
Proof.
  intros [H1 H2 H3 H4]. split; simpl.
  - rewrite H1, u64_add_l. f_equal. lia.
  - rewrite H2, u64_add_l. f_equal. lia.
  - rewrite H3, u64_add_l. f_equal. lia.
  - intros tt'. unfold Add. rewrite counter_insert, !H4. unfold countOf. simpl. case_decide; subst; lia.
Qed.

Lemma Free_accounts wr a tt r jobs jobs' : jobs ≡ₚ (tt, r) :: jobs' → accounts wr a jobs → accounts wr (Free a tt wr r) jobs'.
Proof.
  intros Hp [H1 H2 H3 H4]%(accounts_Permutation _ _ _ _ Hp). split; simpl in *.
  - rewrite H1, u64_sub_l. f_equal. lia.
  - rewrite H2, u64_sub_l. f_equal. lia.
  - rewrite H3, u64_sub_l. f_equal. lia.
  - intros tt'. unfold Free. rewrite counter_insert, !H4. unfold countOf. simpl. case_decide; subst; [rewrite decide_True by done|]; lia.
Qed.

(** ** Admission *)

(** A worker whose memory fits in 64 bits and whose use is at most what it has. *)
Definition saneWorker (wr : WorkerResources) : Prop :=
  0 ≤ MemUsed wr ≤ MemPhysical wr ∧ 0 ≤ MemSwapUsed wr ≤ MemSwap wr ∧ MemPhysical wr + MemSwap wr < 2 ^ 63 ∧ 0 < CPUs wr < 2 ^ 32.

(** The jobs fit on the worker together. *)
Record fits (wr : WorkerResources) (jobs : list Job) : Prop := mkFits {
  fits_min : sumOf (λ j, MinMemory j.2) jobs ≤ MemPhysical wr;
  fits_max : sumOf (λ j, MaxMemory j.2) jobs ≤ MemPhysical wr + MemSwap wr;
  fits_cpu : sumOf (λ j, threads wr j.2) jobs ≤ CPUs wr
}.

Definition saneJobs (jobs : list Job) : Prop := ∀ j, j ∈ jobs → sane j.2.

Lemma threads_range wr r : saneWorker wr → sane r → 0 ≤ threads wr r < 2 ^ 32.
Proof. intros (_&_&_&Hc) Hr. by apply Threads_bounds. Qed.

Lemma saneJobs_sums wr jobs : saneWorker wr → saneJobs jobs →
  0 ≤ sumOf (λ j, MinMemory j.2) jobs ∧ 0 ≤ sumOf (λ j, MaxMemory j.2) jobs ∧ 0 ≤ sumOf (λ j, threads wr j.2) jobs.
Proof.
  intros Hw Hj. split_and!; apply sumOf_nonneg; intros j Hin; pose proof (Hj j Hin) as Hs; pose proof (threads_range _ _ Hw Hs);
    destruct Hs as (?&?&_); lia.
Qed.

(** What an admission has checked, for jobs that fit so far. *)
Lemma CanHandleRequest_fits info a tt r jobs :
  let wr := wiResources info in
  saneWorker wr → saneJobs jobs → sane r → IgnoreResources info = false → accounts wr a jobs → fits wr jobs →
  CanHandleRequest a tt r info = true → fits wr ((tt, r) :: jobs) ∧ (0 < MaxConcurrent r → countOf tt jobs < MaxConcurrent r).
Proof.
  intros wr Hw Hj Hr Hi [A1 A2 A3 A4] [F1 F2 F3]. destruct (saneJobs_sums _ _ Hw Hj) as (N1&N2&N3).
  pose proof (threads_range _ _ Hw Hr) as Ht. destruct Hw as (W1&W2&W3&W4). destruct Hr as (R1&R2&R3&_).
  unfold CanHandleRequest. rewrite Hi, A1, A2, A3, A4. fold wr. case_decide as C1; [done|].
  rewrite !(u64_small (sumOf _ jobs)) by lia. rewrite !(u64_small (_ + BaseMinMemory r)), (u64_small (MemPhysical wr - _)) by lia.
  case_decide as C2; [done|]. rewrite (u64_small (MemUsed wr + _)), (u64_small (MemPhysical wr + _)) by lia.
  match goal with |- context [MemPhysical wr + MemSwap wr - ?x] => set (vm := x) end.
  assert (sumOf (λ j, MaxMemory j.2) jobs ≤ vm ≤ MemPhysical wr + MemSwap wr) as Hvm by (unfold vm; case_decide; lia).
  clearbody vm. rewrite (u64_small (_ - vm)) by lia. case_decide as C3; [done|]. rewrite (u64_small (_ + threads wr r)) by lia.
  case_decide as C4; [done|]. intros _. split; [|lia]. split; simpl; lia.
Qed.

(** A job that fits alone is admitted on an idle worker without GPUs. *)
Lemma CanHandleRequest_idle info a tt r :
  let wr := wiResources info in
  saneWorker wr → sane r → GPUs wr = [] → accounts wr a [] →
  MinMemory r + BaseMinMemory r ≤ MemPhysical wr → MaxMemory r + BaseMinMemory r ≤ MemPhysical wr + MemSwap wr - (MemUsed wr + MemSwapUsed wr) →
  threads wr r ≤ CPUs wr → CanHandleRequest a tt r info = true.
Proof.
  intros wr Hw Hr Hg [A1 A2 A3 A4] H1 H2 H3. pose proof (threads_range _ _ Hw Hr) as Ht. destruct Hw as (W1&W2&W3&W4). destruct Hr as (R1&R2&R3&_).
  unfold CanHandleRequest. rewrite A1, A2, A3, A4. fold wr. cbn [sumOf foldr countOf] in *. rewrite decide_False by (unfold countOf; simpl; lia).
  destruct (IgnoreResources info); [done|]. change (u64 0) with 0.
  rewrite !(u64_small (_ + BaseMinMemory r)), (u64_small (MemPhysical wr - 0)), (u64_small (MemUsed wr + _)), (u64_small (MemPhysical wr + _)) by lia.
  rewrite decide_False by lia. rewrite (u64_small (_ - _)) by (case_decide; lia).
  rewrite decide_False by (case_decide; lia). rewrite (u64_small (0 + threads wr r)) by lia.
  rewrite decide_False by lia. unfold gpus. rewrite Hg. done.
Qed.

(** ** Fractions of a GPU *)

(** The float that a decimal fraction of tenths reads as. *)
Definition tenths (n : Z) : spec_float := fdiv (ofInt n) (ofInt 10).

Definition gpuJob (g : spec_float) : Resources := mkResources 0 0 g 0 0 0 0.
Definition oneGPU : WorkerInfo := mkWorkerInfo "" false (mkWorkerResources (2 ^ 30) 0 0 0 8 ["gpu"] None).

(** Fractions of a GPU do not add up exactly: after tasks with 0.2, 0.4 and 0.3 of a GPU have ended,
    the idle worker still counts a part of its GPU as used, and refuses a task that needs all
    of it. *)
Theorem gpu_fractions_drift :
  let wr := wiResources oneGPU in
  let add g a := Add a (TTCommit2, StackedDrg2KiBV1) wr (gpuJob (tenths g)) in
  let free g a := Free a (TTCommit2, StackedDrg2KiBV1) wr (gpuJob (tenths g)) in
  let idle := free 4 (free 3 (free 2 (add 3 (add 4 (add 2 NewActiveResources))))) in
  accounts wr idle [] ∧
  CanHandleRequest NewActiveResources (TTCommit2, StackedDrg2KiBV1) (gpuJob (ofInt 1)) oneGPU = true ∧
  CanHandleRequest idle (TTCommit2, StackedDrg2KiBV1) (gpuJob (ofInt 1)) oneGPU = false.
Proof.
  intros wr add free idle. split; [|split; by vm_compute]. unfold idle, free, add.
  do 3 (eapply Free_accounts; [reflexivity|]).
  eapply accounts_Permutation; [|do 3 apply Add_accounts; apply accounts_nil]. symmetry. apply (Permutation_cons_append [_; _]).
Qed.
