(* ===== verification/SchedQueue.v ===== *)
(** * The queue of the sealing scheduler (storage/sealer/request_queue.go, storage/sealer/sched.go)

    Requests are kept sorted by urgency.  [sort.Sort] only promises a sorted permutation: the
    order of requests that compare equal may change with every call. *)

From Stdlib Require Import Ascii Sorted.
From stdpp Require Import strings numbers base gmap sets list.
From S2P Require Import Prelude GoSort SealTasks SealResources.
Local Open Scope Z_scope.

(** A request with the fields that the scheduler looks at; the actions and the channel of the
    caller belong to [SchedId]. *)
Record WorkerRequest := mkWorkerRequest {
  SectorNumber : Z; ProofType : SealProof; TaskType : string; Priority : Z; SchedId : string
}.

#[global] Instance WorkerRequest_eq_dec : EqDecision WorkerRequest.
Proof. solve_decision. Defined.

Definition SealTask (r : WorkerRequest) : SealTaskType := (TaskType r, ProofType r).

Definition queueLess (x y : WorkerRequest) : bool :=
  let '(oneMuchLess, muchLess) := MuchLess (TaskType x) (TaskType y) in
  if oneMuchLess then muchLess
  else if decide (Priority x ≠ Priority y) then bool_decide (Priority x > Priority y)
  else if decide (TaskType x ≠ TaskType y) then Less (TaskType x) (TaskType y)
  else bool_decide (SectorNumber x < SectorNumber y).

Section queue.
(** [sort.Sort] with [queueLess]. *)
Variable Sort : list WorkerRequest → list WorkerRequest.

Definition Push (q : list WorkerRequest) (x : WorkerRequest) : list WorkerRequest := Sort (q ++ [x]).

(** The last element takes the place of the removed one before sorting. *)
Definition Remove (q : list WorkerRequest) (i : nat) : outcome (WorkerRequest * list WorkerRequest) :=
  match q !! i, last q with
  | Some item, Some x => Ret (item, Sort (take (length q - 1) (<[i := x]> q)))
  | _, _ => Crash
  end.

(** [removeRequest]: whether a request was found. *)
Definition removeRequest (q : list WorkerRequest) (id : string) : outcome (bool * list WorkerRequest) :=
  match list_find (λ r, SchedId r = id) q with
  | Some (i, _) => '(_, q') ← Remove q i; Ret (true, q')
  | None => Ret (false, q)
  end.

(** Removing the requests at ascending indices, the last one first. *)
Fixpoint removeIndices (q : list WorkerRequest) (descending : list nat) : outcome (list WorkerRequest) :=
  match descending with
  | [] => Ret q
  | i :: rest => '(_, q') ← Remove q i; removeIndices q' rest
  end.
End queue.

(** ** The order *)

Definition allTasks : list string :=
  [TTDataCid; TTAddPiece; TTPreCommit1; TTPreCommit2; TTCommit1; TTCommit2; TTFinalize; TTFetch; TTUnseal; TTReplicaUpdate;
   TTProveReplicaUpdate1; TTProveReplicaUpdate2; TTRegenSectorKey; TTFinalizeReplicaUpdate; TTDownloadSector;
   TTGenerateWindowPoSt; TTGenerateWinningPoSt].

Definition known (r : WorkerRequest) : Prop := TaskType r ∈ allTasks.

(** No two kinds share a place in the order. *)
Lemma order_inj a b : a ∈ allTasks → b ∈ allTasks → order a = order b → a = b.
Proof.
  assert (Forall (λ a, Forall (λ b, order a = order b → a = b) allTasks) allTasks) as H by (apply (bool_decide_unpack _); vm_compute; exact I).
  rewrite Forall_forall in H. intros Ha Hb. specialize (H a Ha). rewrite Forall_forall in H. by apply H.
Qed.

(** The place of a request in the order: urgent kinds first, then by priority, kind and sector. *)
Definition rank (r : WorkerRequest) : Z * Z * Z * Z :=
  (if decide (order (TaskType r) < 0) then 0 else 1, - Priority r, order (TaskType r), SectorNumber r).

Definition lexlt (x y : Z * Z * Z * Z) : Prop :=
  let '(a, b, c, d) := x in let '(a', b', c', d') := y in
  a < a' ∨ (a = a' ∧ (b < b' ∨ (b = b' ∧ (c < c' ∨ (c = c' ∧ d < d'))))).

Lemma queueLess_rank x y : known x → known y → queueLess x y = true ↔ lexlt (rank x) (rank y).
Proof.
  intros Hx Hy. unfold queueLess, MuchLess, Less, rank, lexlt. pose proof (order_inj _ _ Hx Hy) as Hinj.
  set (a := order (TaskType x)) in *. set (b := order (TaskType y)) in *.
  rewrite (bool_decide_ext (Z.lxor a b < 0) ((a < 0 ∧ ¬ b < 0) ∨ (¬ a < 0 ∧ b < 0))) by (pose proof (Z.lxor_nonneg a b); lia).
  destruct (decide (a < 0)), (decide (b < 0)).
  all: first [rewrite bool_decide_true by lia | rewrite bool_decide_false by lia].
  all: repeat case_decide; rewrite ?bool_decide_eq_true; try lia.
  all: try (assert (a ≠ b) by (intros E; by apply Hinj in E); lia).
  all: assert (a = b) by (unfold a, b; congruence); lia.
Qed.

Lemma lexlt_total x y : x = y ∨ lexlt x y ∨ lexlt y x.
Proof.
  destruct x as [[[a b] c] d], y as [[[a' b'] c'] d']. unfold lexlt.
  destruct (decide (a = a')), (decide (b = b')), (decide (c = c')), (decide (d = d')); subst; try (by left); right; lia.
Qed.

Lemma queueLess_false x y : known x → known y → queueLess x y = false ↔ ¬ lexlt (rank x) (rank y).
Proof. intros Hx Hy. rewrite <- (queueLess_rank x y) by done. by destruct (queueLess x y). Qed.

Lemma lexlt_trans x y z : lexlt x y → lexlt y z → lexlt x z.
Proof. destruct x as [[[a b] c] d], y as [[[a' b'] c'] d'], z as [[[a'' b''] c''] d'']. unfold lexlt. lia. Qed.

Lemma lexlt_irrefl x : ¬ lexlt x x.
Proof. destruct x as [[[a b] c] d]. unfold lexlt. lia. Qed.

(** On known kinds the order is a strict weak one, whose classes are the requests of one rank. *)
Lemma queueLess_asym x y : known x → known y → queueLess x y = true → queueLess y x = false.
Proof.
  intros Hx Hy. rewrite queueLess_rank, queueLess_false by done. intros H1 H2.
  by apply (lexlt_irrefl (rank x)), (lexlt_trans _ (rank y)).
Qed.

Lemma queueLess_trans x y z : known x → known y → known z → queueLess y x = false → queueLess z y = false → queueLess z x = false.
Proof.
  intros Hx Hy Hz. rewrite !queueLess_false by done. intros H1 H2 H3.
  destruct (lexlt_total (rank x) (rank y)) as [E|[H|H]]; [by rewrite E in H3| |done].
  by apply H2, (lexlt_trans _ (rank x)).
Qed.

Lemma queueLess_tie x y : known x → known y → queueLess x y = false → queueLess y x = false → rank x = rank y.
Proof. intros Hx Hy. rewrite !queueLess_false by done. intros H1 H2. by destruct (lexlt_total (rank x) (rank y)) as [|[]]. Qed.

(** [order] has no entry for [TTFinalizeReplicaUpdate], which so is not among the urgent kinds: every
    fetch goes before it, whatever its priority. *)
Theorem finalize_update_behind_fetch x y : TaskType x = TTFetch → TaskType y = TTFinalizeReplicaUpdate →
  queueLess x y = true ∧ queueLess y x = false.
Proof. intros Hx Hy. unfold queueLess. by rewrite Hx, Hy. Qed.

(** ** The queue stays sorted *)

Definition sortedQueue (q : list WorkerRequest) : Prop := StronglySorted (notAfter queueLess) q ∧ Forall known q.

(** What [sort.Sort] promises. *)
Definition sorts (Sort : list WorkerRequest → list WorkerRequest) : Prop :=
  ∀ l, Forall known l → Sort l ≡ₚ l ∧ StronglySorted (notAfter queueLess) (Sort l).

Lemma sortBy_sorts : sorts (sortBy queueLess).
Proof.
  intros l Hl. split; [apply sortBy_Permutation|]. apply (sortBy_sorted queueLess known); [|apply queueLess_trans|done].
  apply queueLess_asym.
Qed.

(** No two requests of the queue have one rank. *)
Definition noTies (q : list WorkerRequest) : Prop := ∀ x y, x ∈ q → y ∈ q → rank x = rank y → x = y.

Lemma removed_Permutation {A} (q : list A) i x z : q !! i = Some x → last q = Some z →
  take (length q - 1) (<[i := z]> q) ≡ₚ delete i q.
Proof.
  intros Hi [q' ->]%last_Some. rewrite length_app. simpl. rewrite Nat.add_sub.
  assert (i < length q' ∨ i = length q')%nat as [Hlt | ->].
  { apply lookup_lt_Some in Hi. rewrite length_app in Hi. simpl in Hi. lia. }
  - rewrite insert_app_l by done. rewrite <- (length_insert q' i z), take_app_length.
    rewrite insert_take_drop, !delete_take_drop by done. rewrite take_app_le, drop_app_le by lia.
    rewrite <- Permutation_middle, Permutation_cons_append. by rewrite <- app_assoc.
  - rewrite insert_app_r_alt by lia. rewrite Nat.sub_diag. simpl. rewrite take_app_length.
    rewrite delete_take_drop, take_app_length, drop_ge, app_nil_r by (rewrite length_app; simpl; lia). done.
Qed.

Lemma omap_ext_in {A B} (f g : A → option B) (l : list A) : (∀ x, x ∈ l → f x = g x) → omap f l = omap g l.
Proof.
  intros H. induction l as [|x l IH]; [done|]. change (x :: l) with ([x] ++ l). rewrite !omap_app.
  f_equal; [cbn; by rewrite H by (by left)|]. apply IH. intros; apply H; by right.
Qed.

Section sorted.
Variable Sort : list WorkerRequest → list WorkerRequest.
Hypothesis Sort_sorts : sorts Sort.

Lemma Push_sorted q x : sortedQueue q → known x → sortedQueue (Push Sort q x) ∧ Push Sort q x ≡ₚ x :: q.
Proof.
  intros [_ Hk] Hx. assert (Forall known (q ++ [x])) as Hall by (apply Forall_app; by split; [|constructor]).
  destruct (Sort_sorts _ Hall) as [Hp Hs]. unfold Push. split; [split; [done|by rewrite Hp]|].
  by rewrite Hp, <- Permutation_cons_append.
Qed.

Lemma sorted_delete (R : WorkerRequest → WorkerRequest → Prop) q i : StronglySorted R q → StronglySorted R (delete i q).
Proof.
  intros Hs. revert i. induction Hs as [|x q Hs IH Hx]; intros [|i]; simpl; [constructor..|done|].
  constructor; [apply IH|]. by apply Forall_delete.
Qed.

(** A removal takes the request at the index and leaves the others, sorted. *)
Lemma Remove_sorted q i x : sortedQueue q → q !! i = Some x →
  ∃ q', Remove Sort q i = Ret (x, q') ∧ sortedQueue q' ∧ q ≡ₚ x :: q' ∧ (noTies q → q' = delete i q).
Proof.
  intros [Hs Hk] Hi. unfold Remove. rewrite Hi. destruct (last q) as [z|] eqn:Hz; [|by apply last_None in Hz; subst].
  pose proof (removed_Permutation _ _ _ _ Hi Hz) as Hp. set (l := take _ _) in *.
  assert (Forall known (delete i q)) as Hkd by (by apply Forall_delete).
  assert (Forall known l) as Hkl by (by rewrite Hp). destruct (Sort_sorts _ Hkl) as [Hp' Hs']. exists (Sort l).
  split; [done|]. split; [split; [done|by rewrite Hp']|]. split; [rewrite Hp', Hp; by apply delete_Permutation|].
  intros Hn. apply (sorted_unique queueLess); [|done|by apply sorted_delete|by rewrite Hp', Hp].
  rewrite Forall_forall in Hk. assert (∀ y, y ∈ Sort l → y ∈ q) as Hin.
  { intros y. rewrite Hp', Hp, delete_take_drop. intros [Hy|Hy]%elem_of_app.
    - by eapply elem_of_take in Hy as (j&Hy&_); apply list_elem_of_lookup; eauto.
    - apply list_elem_of_lookup in Hy as [j Hy]. rewrite lookup_drop in Hy. apply list_elem_of_lookup. eauto. }
  intros a b Ha%Hin Hb%Hin H1 H2. apply Hn; [done..|]. apply queueLess_tie; auto.
Qed.

(** Removing at descending indices of a queue without ties takes exactly the requests there. *)
Lemma removeIndices_exact q idxs : sortedQueue q → noTies q → StronglySorted (λ i j, (j < i)%nat) idxs → Forall (λ i, (i < length q)%nat) idxs →
  ∃ q', removeIndices Sort q idxs = Ret q' ∧ sortedQueue q' ∧ q ≡ₚ omap (λ i, q !! i) idxs ++ q'.
Proof.
  intros Hq Hn Hs Hlt. revert q Hq Hn Hlt. induction Hs as [|i idxs Hs IH Hi]; intros q Hq Hn Hlt; simpl.
  { exists q. by split_and!. }
  apply Forall_cons in Hlt as [Hi' Hlt]. apply lookup_lt_is_Some_2 in Hi' as [x Hx].
  destruct (Remove_sorted _ _ _ Hq Hx) as (q'&E&Hq'&Hp&Ed). specialize (Ed Hn). rewrite E. simpl. subst q'.
  assert (∀ j, j ∈ idxs → delete i q !! j = q !! j) as Hj.
  { intros j Hj. rewrite Forall_forall in Hi. apply list_lookup_delete_lt. by apply Hi. }
  destruct (IH (delete i q) Hq') as (q'&E'&Hs'&Hp').
  - intros a b Ha Hb. apply Hn; rewrite Hp; by right.
  - rewrite Forall_forall in Hlt, Hi |- *. intros j Hin. rewrite length_delete by eauto. specialize (Hi j Hin). apply lookup_lt_Some in Hx. lia.
  - assert (omap (λ i0, delete i q !! i0) idxs = omap (λ i0, q !! i0) idxs) as Eo.
    { by apply omap_ext_in. }
    exists q'. split; [done|]. split; [done|]. rewrite Hx. change (q ≡ₚ x :: omap (λ i0, q !! i0) idxs ++ q').
    rewrite <- Eo. etrans; [exact Hp|]. by constructor.
Qed.
End sorted.

(** ** Ties *)

(** With a sort that changes the order of requests that compare equal, removing by index takes the
    wrong request: of the requests at the indices 0 and 2, the second is removed, and then
    the one that was at index 1. *)
Definition tieA : WorkerRequest := mkWorkerRequest 7 StackedDrg32GiBV1 TTFetch 0 "a".
Definition tieB : WorkerRequest := mkWorkerRequest 7 StackedDrg32GiBV1 TTFetch 0 "b".
Definition tieC : WorkerRequest := mkWorkerRequest 9 StackedDrg32GiBV1 TTFetch 0 "c".

Definition swappingSort (l : list WorkerRequest) : list WorkerRequest :=
  if decide (l = [tieA; tieB]) then [tieB; tieA] else sortBy queueLess l.

Theorem ties_remove_wrong_request :
  sorts swappingSort ∧ sortedQueue [tieA; tieB; tieC] ∧ removeIndices swappingSort [tieA; tieB; tieC] [2; 0]%nat = Ret [tieA].
Proof.
  assert (∀ r, r ∈ [tieA; tieB; tieC] → known r) as Hk.
  { intros r Hr. unfold known. repeat (apply elem_of_cons in Hr as [->|Hr]; [apply (bool_decide_unpack _); by vm_compute|]).
    by apply elem_of_nil in Hr. }
  split; [|split; [split|]].
  - intros l Hl. unfold swappingSort. case_decide as E; [|by apply sortBy_sorts]. subst. split; [apply Permutation_swap|].
    repeat constructor.
  - repeat constructor.
  - by apply Forall_forall.
  - by vm_compute.
Qed.
