(* ===== verification/SchedAssign.v ===== *)
(** * Assigning requests to workers (storage/sealer/sched_assigner_common.go,
    sched_assigner_spread.go, sched_assigner_utilization.go)

    Workers ask for windows; the scheduler fills open windows with requests from the queue, in
    the order of the queue, and sends the windows that got some to their workers.  Which of
    the acceptable windows a request gets is up to a window selector. *)

From Stdlib Require Import Ascii SpecFloat Sorted.
From coqutil Require Import Datatypes.RecordSetters.
From stdpp Require Import strings numbers base gmap fin_maps sets list.
From S2P Require Import Prelude GoStrings GoSort ProofLog SealTasks SealResources SchedQueue.
Import DoubleBraceUpdate.
Local Open Scope Z_scope.

Record SchedWindow := mkSchedWindow { Allocated : ActiveResources; Todo : list WorkerRequest }.

Record WorkerHandle := mkWorkerHandle {
  whInfo : WorkerInfo; preparing : ActiveResources; active : ActiveResources;
  activeWindows : list SchedWindow; Enabled : bool
}.

(** The part of the scheduler that assigning works on; an open window is the request of a
    worker. *)
Record Scheduler := mkScheduler {
  Workers : gmap string WorkerHandle; schedQueue : list WorkerRequest; OpenWindows : list string
}.

Definition Utilization (wh : WorkerHandle) : spec_float :=
  let wr := wiResources (whInfo wh) in
  foldl (λ u w, fadd u (utilization (Allocated w) wr))
    (fadd (utilization (active wh) wr) (utilization (preparing wh) wr)) (activeWindows wh).

Definition needOf (w : WorkerHandle) (task : WorkerRequest) : Resources :=
  ResourceSpec (wiResources (whInfo w)) (ProofType task) (TaskType task).

Definition emptyWindow : SchedWindow := mkSchedWindow NewActiveResources [].

(** The worker of an open window, with the window as it is filled so far. *)
Definition windowAt (sh : Scheduler) (windows : list SchedWindow) (wnd : nat) : option (string * WorkerHandle * SchedWindow) :=
  wid ← OpenWindows sh !! wnd; w ← Workers sh !! wid; win ← windows !! wnd; Some (wid, w, win).

Definition canTake (w : WorkerHandle) (win : SchedWindow) (task : WorkerRequest) : bool :=
  CanHandleRequest (Allocated win) (SealTask task) (needOf w task) (whInfo w).

(** ** Window selectors *)

(** The state of a selector during one round, the window it chooses for a task out of the
    acceptable ones, and what it notes of an assignment. *)
Class WindowSelector (S : Type) := mkWindowSelector {
  wsInit : S;
  wsChoose : Scheduler → S → WorkerRequest → list nat → list SchedWindow → S * option nat;
  wsNote : S → string → SealTaskType → WorkerHandle → SchedWindow → Resources → S
}.

(** [SpreadWS]: the number of tasks that each worker has got. *)
Definition spreadStep (sh : Scheduler) (assigned : gmap string Z) (task : WorkerRequest) (windows : list SchedWindow)
    (best : option nat * Z) (wnd : nat) : option nat * Z :=
  match windowAt sh windows wnd with
  | Some (wid, w, win) =>
      if negb (canTake w win task) then best
      else
        let wu := default 0 (assigned !! wid) in
        if decide (best.2 ≤ wu) then best else (Some wnd, wu)
  | None => best
  end.

#[global] Instance SpreadWS : WindowSelector (gmap string Z) := {
  wsInit := ∅;
  wsChoose sh assigned task acceptable windows :=
    (assigned, (foldl (spreadStep sh assigned task windows) (None, maxInt64) acceptable).1);
  wsNote assigned wid _ _ _ _ := <[wid := default 0 (assigned !! wid) + 1]> assigned
}.

(** [LowestUtilizationWS]: the utilization of the workers looked at. *)
Definition MaxFloat64 : spec_float := S754_finite false (2 ^ 53 - 1) 971.

Fixpoint utilLoop (sh : Scheduler) (task : WorkerRequest) (windows : list SchedWindow) (acceptable : list nat)
    (workerUtil : gmap string spec_float) (best : option nat) (bestUtilization : spec_float) : gmap string spec_float * option nat :=
  match acceptable with
  | [] => (workerUtil, best)
  | wnd :: rest =>
      match windowAt sh windows wnd with
      | Some (wid, w, win) =>
          if negb (canTake w win task) then utilLoop sh task windows rest workerUtil best bestUtilization
          else
            let wu := default (Utilization w) (workerUtil !! wid) in
            let workerUtil' := <[wid := wu]> workerUtil in
            if SFleb bestUtilization wu then (workerUtil', best)
            else utilLoop sh task windows rest workerUtil' (Some wnd) wu
      | None => utilLoop sh task windows rest workerUtil best bestUtilization
      end
  end.

#[global] Instance LowestUtilizationWS : WindowSelector (gmap string spec_float) := {
  wsInit := ∅;
  wsChoose sh workerUtil task acceptable windows := utilLoop sh task windows acceptable workerUtil None MaxFloat64;
  wsNote workerUtil wid tt w win needRes :=
    <[wid := fadd (default fzero (workerUtil !! wid)) (addUtil (Allocated win) tt (wiResources (whInfo w)) needRes)]> workerUtil
}.

(** ** One round of assigning *)

Section assign.
(** [task.Sel.Ok] and [task.Sel.Cmp] of the requests, [rand.Shuffle], and [sort.Sort]. *)
Variable selOk : WorkerRequest → string → outcome (bool * bool).
Variable selCmp : WorkerRequest → string → string → bool.
Variable Shuffle : list nat → list nat.
Variable Sort : list WorkerRequest → list WorkerRequest.
Context {S : Type} {sel : WindowSelector S}.

(** One open window for a task: [havePreferred] and the windows found so far. *)
Definition acceptStep (sh : Scheduler) (task : WorkerRequest) (st : bool * list nat) (ow : nat * string) : bool * list nat :=
  let '(havePreferred, found) := st in
  let '(wnd, wid) := ow in
  match Workers sh !! wid with
  | None => st
  | Some worker =>
      if negb (Enabled worker) then st
      else if negb (canTake worker emptyWindow task) then st
      else match selOk task wid with
           | Ret (ok, preferred) =>
               if negb ok then st
               else if havePreferred && negb preferred then st
               else (havePreferred || preferred, (if preferred && negb havePreferred then [] else found) ++ [wnd])
           | _ => st
           end
  end.

Definition windowLess (sh : Scheduler) (task : WorkerRequest) (i j : nat) : bool :=
  match OpenWindows sh !! i, OpenWindows sh !! j with
  | Some wii, Some wji => if decide (wii = wji) then bool_decide (i < j)%nat else selCmp task wii wji
  | _, _ => false
  end.

Definition acceptableWindows (sh : Scheduler) (task : WorkerRequest) : list nat :=
  let found := (foldl (acceptStep sh task) (false, []) (imap pair (OpenWindows sh))).2 in
  sortBy (windowLess sh task) (Shuffle found).

(** The state of step 2: the windows, the indices to remove from the queue, newest first, and the
    selector. *)
Definition assignOne (sh : Scheduler) (st : list SchedWindow * list nat * S) (it : nat * WorkerRequest) :
    list SchedWindow * list nat * S :=
  let '(windows, rmQueue, s) := st in
  let '(sqi, task) := it in
  let '(s', selected) := wsChoose sh s task (acceptableWindows sh task) windows in
  match selected with
  | None => (windows, rmQueue, s')
  | Some wnd =>
      match windowAt sh windows wnd with
      | Some (wid, w, win) =>
          let win' := mkSchedWindow (Add (Allocated win) (SealTask task) (wiResources (whInfo w)) (needOf w task)) (Todo win ++ [task]) in
          (<[wnd := win']> windows, sqi :: rmQueue, wsNote s' wid (SealTask task) w win (needOf w task))
      | None => (windows, rmQueue, s')
      end
  end.

(** Windows with tasks, with their places and workers. *)
Definition scheduledWindows (sh : Scheduler) (windows : list SchedWindow) : list (string * SchedWindow) :=
  filter (λ ww, Todo ww.2 ≠ []) (zip (OpenWindows sh) windows).

(** [TrySched]: the scheduler afterwards and the windows that were sent. *)
Definition TrySched (sh : Scheduler) : outcome (Scheduler * list (string * SchedWindow)) :=
  if decide (OpenWindows sh = [] ∨ schedQueue sh = []) then Ret (sh, [])
  else
    let windows := replicate (length (OpenWindows sh)) emptyWindow in
    let '(windows', rmQueue, _) := foldl (assignOne sh) (windows, [], wsInit) (imap pair (schedQueue sh)) in
    queue' ← removeIndices Sort (schedQueue sh) rmQueue;
    Ret (mkScheduler (Workers sh) queue' ((filter (λ ww, Todo ww.2 = []) (zip (OpenWindows sh) windows')).*1),
         scheduledWindows sh windows').
End assign.

(** * What a round of assigning does

    Every request of the queue stays in the queue or goes to exactly one window, whose worker is
    enabled and acceptable for it; the tasks of a window fit on its worker together; the
    spreading selector takes a worker with the fewest tasks. *)

(** ** Selectors *)

(** What a round needs of a selector: it chooses an acceptable window that can take the task. *)
Class SelectorLaws (S : Type) {sel : WindowSelector S} : Prop :=
  wsChoose_ok : ∀ sh (s : S) task acceptable windows wnd, (wsChoose sh s task acceptable windows).2 = Some wnd →
    wnd ∈ acceptable ∧ ∃ wid w win, windowAt sh windows wnd = Some (wid, w, win) ∧ canTake w win task = true.

Definition offers (sh : Scheduler) (windows : list SchedWindow) (task : WorkerRequest) (wnd : nat) : Prop :=
  ∃ wid w win, windowAt sh windows wnd = Some (wid, w, win) ∧ canTake w win task = true.

(** What the loop of [SpreadWS] has found: a window of those looked at with the fewest tasks. *)
Lemma spread_fold sh assigned task windows acceptable best :
  (∀ wid, default 0 (assigned !! wid) < maxInt64) →
  (match best.1 with
   | Some wnd => ∃ wid w win, windowAt sh windows wnd = Some (wid, w, win) ∧ canTake w win task = true ∧ best.2 = default 0 (assigned !! wid)
   | None => best.2 = maxInt64
   end) →
  let r := foldl (spreadStep sh assigned task windows) best acceptable in
  (match r.1 with
   | Some wnd => (best.1 = Some wnd ∨ wnd ∈ acceptable) ∧
       ∃ wid w win, windowAt sh windows wnd = Some (wid, w, win) ∧ canTake w win task = true ∧ r.2 = default 0 (assigned !! wid)
   | None => r.2 = maxInt64
   end) ∧ r.2 ≤ best.2 ∧
  ∀ wnd wid w win, wnd ∈ acceptable → windowAt sh windows wnd = Some (wid, w, win) → canTake w win task = true →
    r.2 ≤ default 0 (assigned !! wid).
Proof.
  intros Hmax. revert best. induction acceptable as [|wnd0 acceptable IH]; intros best Hb; simpl.
  { split_and!; [|lia|by intros ? ? ? ? ?%elem_of_nil]. destruct best.1; [|done]. split; [by left|done]. }
  set (best' := spreadStep sh assigned task windows best wnd0).
  assert (best' = best ∧ (∀ wid w win, windowAt sh windows wnd0 = Some (wid, w, win) → canTake w win task = true → best.2 ≤ default 0 (assigned !! wid)) ∨
    ∃ wid w win, windowAt sh windows wnd0 = Some (wid, w, win) ∧ canTake w win task = true ∧ best' = (Some wnd0, default 0 (assigned !! wid)) ∧
      default 0 (assigned !! wid) < best.2) as Hstep.
  { unfold best', spreadStep. destruct (windowAt sh windows wnd0) as [[[wid w] win]|] eqn:Ew; [|left; split; [done|naive_solver]].
    destruct (canTake w win task) eqn:Ec; simpl; [|left; split; [done|naive_solver congruence]].
    case_decide; [left; split; [done|naive_solver]|]. right. exists wid, w, win. split_and!; try done. lia. }
  destruct (IH best') as (H1&H2&H3).
  { destruct Hstep as [[-> _]|(wid&w&win&Hw&Hc&->&_)]; [done|]. by exists wid, w, win. }
  split_and!.
  - destruct (foldl _ best' acceptable) as [[wnd|] n]; simpl in *; [|done]. destruct H1 as [[E|Hin] H1]; (split; [|done]); [|right; by right].
    destruct Hstep as [[Eb _]|(wid&w&win&_&_&Eb&_)]; rewrite Eb in E; [by left|]. simpl in E. simplify_eq. right. by left.
  - destruct Hstep as [[Eb _]|(wid&w&win&_&_&Eb&Hlt)]; rewrite Eb in H2 |- *; simpl in *; lia.
  - intros wnd wid w win [->|Hin]%elem_of_cons Hw Hc; [|by eapply H3].
    destruct Hstep as [[Eb Hle]|(wid'&w'&win'&Hw'&Hc'&Eb&_)]; [specialize (Hle _ _ _ Hw Hc); rewrite Eb in H2 |- *; lia|].
    rewrite Eb in H2 |- *. simplify_eq. simpl in H2. lia.
Qed.

Lemma utilLoop_ok sh task windows acceptable util best bestU wnd :
  (utilLoop sh task windows acceptable util best bestU).2 = Some wnd → best = Some wnd ∨ (wnd ∈ acceptable ∧ offers sh windows task wnd).
Proof.
  revert util best bestU. induction acceptable as [|wnd0 acceptable IH]; intros util best bestU; cbn [utilLoop]; [by left|].
  destruct (windowAt sh windows wnd0) as [[[wid w] win]|] eqn:Ew.
  - destruct (canTake w win task) eqn:Ec; simpl.
    + destruct (SFleb bestU _); [by left|]. intros [E|[Hin Ho]]%IH; [simplify_eq; right|right; split; [by right|done]].
      split; [by left|]. by exists wid, w, win.
    + intros [E|[Hin Ho]]%IH; [by left|right; split; [by right|done]].
  - intros [E|[Hin Ho]]%IH; [by left|right; split; [by right|done]].
Qed.

#[global] Instance LowestUtilization_laws : SelectorLaws (gmap string spec_float).
Proof. intros sh s task acceptable windows wnd H. apply utilLoop_ok in H as [|[Hin Ho]]; [done|]. by split. Qed.

Lemma spreadStep_ok sh assigned task windows acceptable best wnd :
  (foldl (spreadStep sh assigned task windows) best acceptable).1 = Some wnd → best.1 = Some wnd ∨ (wnd ∈ acceptable ∧ offers sh windows task wnd).
Proof.
  revert best. induction acceptable as [|wnd0 acceptable IH]; intros best; simpl; [by left|]. intros [E|[Hin Ho]]%IH; [|right; split; [by right|done]].
  unfold spreadStep in E. destruct (windowAt sh windows wnd0) as [[[wid w] win]|] eqn:Ew; [|by left].
  destruct (canTake w win task) eqn:Ec; simpl in E; [|by left]. case_decide; [by left|]. simpl in E. simplify_eq. right.
  split; [by left|]. by exists wid, w, win.
Qed.

#[global] Instance Spread_laws : SelectorLaws (gmap string Z).
Proof. intros sh s task acceptable windows wnd H. apply spreadStep_ok in H as [|[Hin Ho]]; [done|]. by split. Qed.

(** ** A round *)

(** The tasks of a window as jobs of its worker. *)
Definition jobsOf (w : WorkerHandle) (tasks : list WorkerRequest) : list Job := map (λ t, (SealTask t, needOf w t)) tasks.

(** A worker that takes its resources into account, with values in range. *)
Definition saneHandle (w : WorkerHandle) : Prop :=
  saneWorker (wiResources (whInfo w)) ∧ IgnoreResources (whInfo w) = false ∧ ∀ task, sane (needOf w task).

Lemma saneHandle_jobs w tasks : saneHandle w → saneJobs (jobsOf w tasks).
Proof. intros (_&_&Hs) j Hj. apply list_elem_of_In, in_map_iff in Hj as (t&<-&_). apply Hs. Qed.

(** A window with tasks of a worker: the sums are those of its tasks, and they fit together. *)
Definition goodWindow (w : WorkerHandle) (win : SchedWindow) : Prop :=
  accounts (wiResources (whInfo w)) (Allocated win) (jobsOf w (Todo win)) ∧
  (saneHandle w → fits (wiResources (whInfo w)) (jobsOf w (Todo win))).

Lemma emptyWindow_good w : goodWindow w emptyWindow.
Proof.
  split; [apply accounts_nil|]. intros ((?&?&?&?)&_). split; simpl; lia.
Qed.

(** Adding a task that can be taken. *)
Lemma goodWindow_add w win task : goodWindow w win → canTake w win task = true →
  goodWindow w (mkSchedWindow (Add (Allocated win) (SealTask task) (wiResources (whInfo w)) (needOf w task)) (Todo win ++ [task])).
Proof.
  intros [Ha Hf] Hc. assert (jobsOf w (Todo win ++ [task]) ≡ₚ (SealTask task, needOf w task) :: jobsOf w (Todo win)) as Hp.
  { unfold jobsOf. rewrite map_app. simpl. by rewrite <- Permutation_cons_append. }
  split; cbn [Allocated Todo].
  - eapply accounts_Permutation; [symmetry; exact Hp|]. by apply Add_accounts.
  - intros Hs. pose proof Hs as (Hw&Hi&Hn). destruct (CanHandleRequest_fits _ _ _ _ _ Hw (saneHandle_jobs _ _ Hs) (Hn task) Hi Ha (Hf Hs) Hc) as [[F1 F2 F3] _].
    split; by rewrite (sumOf_Permutation _ _ _ Hp).
Qed.

Section round.
Variable selOk : WorkerRequest → string → outcome (bool * bool).
Variable selCmp : WorkerRequest → string → string → bool.
Variable Shuffle : list nat → list nat.
Variable Sort : list WorkerRequest → list WorkerRequest.
Hypothesis Shuffle_Permutation : ∀ l, Shuffle l ≡ₚ l.
Hypothesis Sort_sorts : sorts Sort.
Context {S : Type} {sel : WindowSelector S} {laws : SelectorLaws S}.
Variable sh : Scheduler.

Abbreviation acceptableWindows := (acceptableWindows selOk selCmp Shuffle sh).
Abbreviation assignOne := (assignOne selOk selCmp Shuffle sh).

(** A worker that a task may go to. *)
Definition acceptable (task : WorkerRequest) (wid : string) : Prop :=
  ∃ w preferred, Workers sh !! wid = Some w ∧ Enabled w = true ∧ selOk task wid = Ret (true, preferred).

Lemma acceptStep_ok task ows st wnd : wnd ∈ (foldl (acceptStep selOk sh task) st ows).2 →
  wnd ∈ st.2 ∨ ∃ wid, (wnd, wid) ∈ ows ∧ acceptable task wid.
Proof.
  revert st. induction ows as [|[i wid] ows IH]; intros st Hin; simpl in *; [by left|].
  apply IH in Hin as [Hin|(wid'&H1&H2)]; [|right; exists wid'; split; [by right|done]].
  unfold acceptStep in Hin. destruct st as [hp found]. destruct (Workers sh !! wid) as [w|] eqn:Ew; [|by left].
  destruct (Enabled w) eqn:Ee; simpl in Hin; [|by left]. destruct (canTake w emptyWindow task); simpl in Hin; [|by left].
  destruct (selOk task wid) as [[[] preferred]| |] eqn:Es; simpl in Hin; try (by left).
  destruct (hp && negb preferred); [by left|]. cbn [snd] in Hin. apply elem_of_app in Hin as [Hin|Hin%list_elem_of_singleton].
  - left. destruct (preferred && negb hp); [by apply elem_of_nil in Hin|done].
  - subst. right. exists wid. split; [by left|]. by exists w, preferred.
Qed.

Lemma acceptableWindows_ok task wnd : wnd ∈ acceptableWindows task → ∃ wid, OpenWindows sh !! wnd = Some wid ∧ acceptable task wid.
Proof.
  unfold SchedAssign.acceptableWindows. rewrite sortBy_Permutation, Shuffle_Permutation. intros [Hin|(wid&Hin&Ha)]%acceptStep_ok;
    [by apply elem_of_nil in Hin|]. exists wid. split; [|done]. apply elem_of_lookup_imap in Hin as (i&x&[= -> ->]&Hx). done.
Qed.

(** The state of step 2 after the first [k] requests of the queue. *)
Definition roundInv (k : nat) (st : list SchedWindow * list nat * S) : Prop :=
  let '(windows, rmQueue, _) := st in
  length windows = length (OpenWindows sh) ∧
  StronglySorted (λ i j, (j < i)%nat) rmQueue ∧ Forall (λ i, (i < k)%nat) rmQueue ∧
  concat (Todo <$> windows) ≡ₚ omap (λ i, schedQueue sh !! i) rmQueue ∧
  (∀ wnd win wid w, windows !! wnd = Some win → OpenWindows sh !! wnd = Some wid → Workers sh !! wid = Some w → goodWindow w win) ∧
  (∀ wnd win wid task, windows !! wnd = Some win → OpenWindows sh !! wnd = Some wid → task ∈ Todo win → acceptable task wid).

Lemma roundInv_start : roundInv 0 (replicate (length (OpenWindows sh)) emptyWindow, [], wsInit).
Proof.
  split_and!; [by rewrite length_replicate|constructor|constructor| | |].
  - induction (length (OpenWindows sh)); [done|]. simpl. done.
  - intros wnd win wid w [-> _]%lookup_replicate _ _. apply emptyWindow_good.
  - intros wnd win wid task [-> _]%lookup_replicate _ []%elem_of_nil.
Qed.

Lemma concat_insert_snoc {A} (l : list (list A)) i x t : l !! i = Some x → concat (<[i := x ++ [t]]> l) ≡ₚ t :: concat l.
Proof.
  intros Hi. pose proof (lookup_lt_Some _ _ _ Hi). rewrite insert_take_drop by done. rewrite <- (take_drop_middle l i x Hi) at 3.
  rewrite !concat_app. simpl. rewrite <- app_assoc. simpl. rewrite <- !Permutation_middle. done.
Qed.

Lemma roundInv_step k task st : schedQueue sh !! k = Some task → roundInv k st → roundInv (Datatypes.S k) (assignOne st (k, task)).
Proof.
  destruct st as [[windows rmQueue] s]. intros Hk (I1&I2&I3&I4&I5&I6). unfold SchedAssign.assignOne.
  pose proof (wsChoose_ok sh s task (acceptableWindows task) windows) as Hok.
  assert (Forall (λ i, (i < Datatypes.S k)%nat) rmQueue) as I3' by (eapply Forall_impl; [exact I3|]; simpl; lia).
  destruct (wsChoose sh s task (acceptableWindows task) windows) as [s' [wnd|]]; [|by split_and!].
  destruct (Hok wnd eq_refl) as (Hin&wid&w&win&Hw&Hc). rewrite Hw. clear Hok.
  unfold windowAt in Hw. apply bind_Some in Hw as (wid'&How&Hw). apply bind_Some in Hw as (w'&Hww&Hw). apply bind_Some in Hw as (win'&Hwin&[= -> -> ->]).
  apply acceptableWindows_ok in Hin as (wid''&How'&Hacc). assert (wid'' = wid) as -> by congruence.
  set (win2 := mkSchedWindow _ _). split_and!.
  - by rewrite length_insert.
  - by constructor.
  - constructor; [lia|done].
  - rewrite list_fmap_insert. unfold win2. cbn [Todo]. rewrite (concat_insert_snoc _ _ (Todo win)) by (by rewrite list_lookup_fmap, Hwin).
    rewrite I4. cbn. by rewrite Hk.
  - intros wnd0 win0 wid0 w0 [(<-&<-&_)|[_ H]]%list_lookup_insert_Some Ho Hw0; [|by eapply I5].
    assert (w0 = w) as -> by congruence. apply goodWindow_add; [by eapply I5|done].
  - intros wnd0 win0 wid0 task0 [(<-&<-&_)|[_ H]]%list_lookup_insert_Some Ho Ht; [|by eapply I6].
    unfold win2 in Ht. cbn [Todo] in Ht. apply elem_of_app in Ht as [Ht|Ht%list_elem_of_singleton]; [by eapply I6|]. subst task0. congruence.
Qed.

Lemma foldl_imap {A B} (P : nat → A → Prop) (f : A → nat * B → A) (q : list B) a :
  (∀ k x a, q !! k = Some x → P k a → P (Datatypes.S k) (f a (k, x))) → P 0%nat a → P (length q) (foldl f a (imap pair q)).
Proof.
  induction q as [|x q IH] using rev_ind; intros Hs H0; [done|]. rewrite imap_app, foldl_app, length_app. simpl. rewrite Nat.add_0_r, Nat.add_1_r.
  apply Hs; [by rewrite lookup_app_r, Nat.sub_diag by lia|]. apply IH; [|done]. intros k y b Hk. apply Hs. by apply lookup_app_l_Some.
Qed.

Lemma roundInv_end : roundInv (length (schedQueue sh))
  (foldl assignOne (replicate (length (OpenWindows sh)) emptyWindow, [], wsInit) (imap pair (schedQueue sh))).
Proof. apply (foldl_imap roundInv); [|apply roundInv_start]. intros k x a. apply roundInv_step. Qed.

(** A window that is sent: its worker is enabled and acceptable for each of its tasks, which fit on it
    together. *)
Definition sentTo (ww : string * SchedWindow) : Prop :=
  Todo ww.2 ≠ [] ∧ (∀ task, task ∈ Todo ww.2 → acceptable task ww.1) ∧ ∀ w, Workers sh !! ww.1 = Some w → goodWindow w ww.2.

Lemma zip_todo (ows : list string) (windows : list SchedWindow) : length windows = length ows →
  concat (Todo <$> windows) = concat ((λ ww, Todo ww.2) <$> filter (λ ww, Todo ww.2 ≠ []) (zip ows windows)).
Proof.
  revert ows. induction windows as [|win windows IH]; intros [|o ows] Hl; try done. simpl in Hl.
  rewrite fmap_cons. cbn [concat]. rewrite (IH ows) by lia. change (zip (o :: ows) (win :: windows)) with ((o, win) :: zip ows windows).
  destruct (decide (Todo win = [])) as [E|E]; [rewrite filter_cons_False by (simpl; naive_solver); by rewrite E|].
  by rewrite filter_cons_True by done.
Qed.

Lemma round_ok : sortedQueue (schedQueue sh) → noTies (schedQueue sh) →
  ∃ sh' sent, TrySched selOk selCmp Shuffle Sort sh = Ret (sh', sent) ∧ Workers sh' = Workers sh ∧ sortedQueue (schedQueue sh') ∧
    schedQueue sh ≡ₚ concat ((λ ww, Todo ww.2) <$> sent) ++ schedQueue sh' ∧
    OpenWindows sh ≡ₚ sent.*1 ++ OpenWindows sh' ∧ Forall sentTo sent.
Proof.
  intros Hq Hn. unfold TrySched. case_decide as H0.
  { exists sh, []. by split_and!. }
  pose proof roundInv_end as Hinv. destruct (foldl _ _ _) as [[windows rmQueue] s]. destruct Hinv as (I1&I2&I3&I4&I5&I6).
  destruct (removeIndices_exact Sort Sort_sorts _ _ Hq Hn I2 I3) as (q'&E&Hq'&Hp). rewrite E. simpl.
  eexists _, _. split; [done|]. split_and!; [done|done| | |].
  - cbn [schedQueue]. unfold scheduledWindows. rewrite <- zip_todo by done. by rewrite I4.
  - cbn [OpenWindows]. unfold scheduledWindows. rewrite <- (fst_zip (OpenWindows sh) windows) at 1 by lia. rewrite <- fmap_app. f_equiv.
    clear. induction (zip (OpenWindows sh) windows) as [|x l IH]; [done|].
    destruct (decide (Todo x.2 = [])); [rewrite filter_cons_False, filter_cons_True by naive_solver|rewrite filter_cons_True, filter_cons_False by naive_solver].
    + rewrite <- Permutation_middle. by constructor.
    + by constructor.
  - apply Forall_forall. intros [wid win] Hin. apply list_elem_of_filter in Hin as [Ht Hin]. apply list_elem_of_lookup in Hin as [wnd Hin].
    apply lookup_zip_Some in Hin as [Ho Hw]. split_and!; [done|intros task; by eapply I6|intros w; by eapply I5].
Qed.
End round.

(** One round of assigning, with either selector: every request of the queue is afterwards
    still in the queue or in exactly one of the windows that are sent, every open window is
    still open or sent, each task of a sent window was acceptable for the enabled worker of
    the window, the sums of the window are those of its tasks, and on a worker that minds its
    resources the tasks fit together.  No two requests of the queue may compare equal. *)
Theorem TrySched_assigns {S : Type} {sel : WindowSelector S} {laws : SelectorLaws S} selOk selCmp Shuffle Sort sh :
  (∀ l, Shuffle l ≡ₚ l) → sorts Sort → sortedQueue (schedQueue sh) → noTies (schedQueue sh) →
  ∃ sh' sent, TrySched (S:=S) selOk selCmp Shuffle Sort sh = Ret (sh', sent) ∧ Workers sh' = Workers sh ∧ sortedQueue (schedQueue sh') ∧
    schedQueue sh ≡ₚ concat ((λ ww, Todo ww.2) <$> sent) ++ schedQueue sh' ∧
    OpenWindows sh ≡ₚ sent.*1 ++ OpenWindows sh' ∧ Forall (sentTo selOk sh) sent.
Proof. intros H1 H2. by apply round_ok. Qed.

(** The spreading selector takes a window of a worker with the fewest tasks of this round among the
    acceptable windows that can take the task, and none only when none of them can. *)
Theorem SpreadWS_least sh (assigned : gmap string Z) task acceptable windows :
  (∀ wid, default 0 (assigned !! wid) < maxInt64) →
  match (wsChoose sh assigned task acceptable windows).2 with
  | Some wnd => wnd ∈ acceptable ∧ ∃ wid w win, windowAt sh windows wnd = Some (wid, w, win) ∧ canTake w win task = true ∧
      ∀ wnd' wid' w' win', wnd' ∈ acceptable → windowAt sh windows wnd' = Some (wid', w', win') → canTake w' win' task = true →
        default 0 (assigned !! wid) ≤ default 0 (assigned !! wid')
  | None => ∀ wnd, wnd ∈ acceptable → ¬ offers sh windows task wnd
  end.
Proof.
  intros Hmax. destruct (spread_fold sh assigned task windows acceptable (None, maxInt64) Hmax eq_refl) as (H1&_&H3). cbn.
  destruct (foldl _ _ _) as [[wnd|] n]; simpl in *.
  - destruct H1 as [[?|Hin] (wid&w&win&Hw&Hc&->)]; [done|]. split; [done|]. exists wid, w, win. split_and!; [done..|].
    intros wnd' wid' w' win' Hin' Hw' Hc'. by eapply H3.
  - intros wnd Hin (wid&w&win&Hw&Hc). specialize (H3 _ _ _ _ Hin Hw Hc). specialize (Hmax wid). lia.
Qed.

(** ** Two workers *)

Definition exInfo : WorkerInfo := mkWorkerInfo "host" false (mkWorkerResources (3 * 2 ^ 36) 0 0 0 16 [] None).
Definition exWorker : WorkerHandle := mkWorkerHandle exInfo NewActiveResources NewActiveResources [] true.
Definition exTask (n : Z) : WorkerRequest := mkWorkerRequest n StackedDrg32GiBV1 TTPreCommit1 0 "".
Definition exSched : Scheduler := mkScheduler {[ "w1" := exWorker; "w2" := exWorker ]} [exTask 1; exTask 2; exTask 3] ["w1"; "w2"].

(** Each worker has the memory for two pre-commits, and the three are spread. *)
Example exSched_spread :
  match TrySched (S:=gmap string Z) (λ _ _, Ret (true, false)) (λ _ _ _, false) id (sortBy queueLess) exSched with
  | Ret (sh', sent) => schedQueue sh' = [] ∧ map (λ ww, (ww.1, map SectorNumber (Todo ww.2))) sent = [("w1", [1; 3]); ("w2", [2])]
  | _ => False
  end.
Proof. vm_compute. auto. Qed.

Lemma exSched_queue : sortedQueue (schedQueue exSched) ∧ noTies (schedQueue exSched).
Proof.
  split; [split; [repeat constructor|]|].
  - apply Forall_forall. intros r Hr. unfold known. repeat (apply elem_of_cons in Hr as [->|Hr]; [apply (bool_decide_unpack _); by vm_compute|]).
    by apply elem_of_nil in Hr.
  - intros x y Hx Hy. repeat (apply elem_of_cons in Hx as [->|Hx]); try (by apply elem_of_nil in Hx);
      repeat (apply elem_of_cons in Hy as [->|Hy]); try (by apply elem_of_nil in Hy); done.
Qed.

Lemma TrySched_assigns_witness :
  ∃ sh' sent, TrySched (S:=gmap string Z) (λ _ _, Ret (true, false)) (λ _ _ _, false) id (sortBy queueLess) exSched = Ret (sh', sent) ∧
    schedQueue exSched ≡ₚ concat ((λ ww, Todo ww.2) <$> sent) ++ schedQueue sh'.
Proof.
  destruct (TrySched_assigns (S:=gmap string Z) (λ _ _, Ret (true, false)) (λ _ _ _, false) id (sortBy queueLess) exSched
    (λ l, reflexivity l) sortBy_sorts (proj1 exSched_queue) (proj2 exSched_queue)) as (sh'&sent&H1&_&_&H2&_).
  exists sh', sent. split; [exact H1|exact H2].
Defined.

Lemma SpreadWS_least_witness :
  match (wsChoose exSched (∅ : gmap string Z) (exTask 1) [0; 1]%nat [emptyWindow; emptyWindow]).2 with
  | Some wnd => wnd ∈ [0; 1]%nat
  | None => False
  end.
Proof.
  pose proof (SpreadWS_least exSched ∅ (exTask 1) [0; 1]%nat [emptyWindow; emptyWindow]) as H.
  assert (∀ wid, default 0 ((∅ : gmap string Z) !! wid) < maxInt64) as Hm by (intros wid; by rewrite lookup_empty).
  specialize (H Hm). assert ((wsChoose exSched (∅ : gmap string Z) (exTask 1) [0; 1]%nat [emptyWindow; emptyWindow]).2 = Some 0%nat) as E by (by vm_compute).
  rewrite E in H |- *. exact (proj1 H).
Defined.
