(* ===== verification/SchedWorker.v ===== *)
(** * A worker of the sealing scheduler (storage/sealer/sched_worker.go)

    The tasks of the windows that a worker has got are started when their resources are free:
    first the preparation of a task (such as fetching a sector), then its work.  A prepared task
    that has to wait for resources sleeps on the condition variable of [active] and keeps
    what it holds of [preparing]. *)

From Stdlib Require Import Ascii SpecFloat Sorted.
From coqutil Require Import Datatypes.RecordSetters.
From stdpp Require Import strings numbers base gmap fin_maps sets list.
From S2P Require Import Prelude GoSort ProofLog SealTasks SealResources SchedQueue SchedAssign.
Import DoubleBraceUpdate.
Local Open Scope Z_scope.

(** The handle of the worker, its number of requested windows, and the goroutines of its tasks: those
    that prepare, those that sleep, with whether they have been woken, and those that work. *)
Record worker := mkWorker {
  handle : WorkerHandle; windowsRequested : Z;
  preps : list WorkerRequest; sleepers : list (WorkerRequest * bool); runs : list WorkerRequest
}.

Definition wr (w : worker) : WorkerResources := wiResources (whInfo (handle w)).
Definition need (w : worker) (req : WorkerRequest) : Resources := needOf (handle w) req.

(** Changes of the two accounts. *)
Definition onPreparing (f : ActiveResources → ActiveResources) (w : worker) : worker :=
  w {{ handle := (handle w) {{ preparing := f (preparing (handle w)) }} }}.
Definition onActive (f : ActiveResources → ActiveResources) (w : worker) : worker :=
  w {{ handle := (handle w) {{ active := f (active (handle w)) }} }}.
Definition setWindows (ws : list SchedWindow) (w : worker) : worker :=
  w {{ handle := (handle w) {{ activeWindows := ws }} }}.

Definition addTo (w : worker) (req : WorkerRequest) (a : ActiveResources) : ActiveResources := Add a (SealTask req) (wr w) (need w req).
Definition freeFrom (w : worker) (req : WorkerRequest) (a : ActiveResources) : ActiveResources := Free a (SealTask req) (wr w) (need w req).

(** ** Starting tasks *)

Definition canPrepare (w : worker) (req : WorkerRequest) : bool :=
  CanHandleRequest (preparing (handle w)) (SealTask req) (need w req) (whInfo (handle w)).
Definition canRun (w : worker) (req : WorkerRequest) : bool :=
  CanHandleRequest (active (handle w)) (SealTask req) (need w req) (whInfo (handle w)).

Definition startProcessingTask (w : worker) (req : WorkerRequest) : worker :=
  (onPreparing (addTo w req) w) {{ preps ::= λ l, l ++ [req] }}.

Definition startProcessingReadyTask (w : worker) (req : WorkerRequest) : worker :=
  (onActive (addTo w req) w) {{ runs ::= λ l, l ++ [req] }}.

(** The inner loop of both assignments: start the first task that can be started, as long as there
    is one; [n] rounds are enough for [n] tasks.  The tasks that are left come with the result. *)
Fixpoint drain (n : nat) (can : worker → WorkerRequest → bool) (start : worker → WorkerRequest → worker)
    (w : worker) (todo : list WorkerRequest) : worker * list WorkerRequest :=
  match n with
  | O => (w, todo)
  | S n' => match list_find (λ t, can w t = true) todo with
            | Some (tidx, t) => drain n' can start (start w t) (delete tidx todo)
            | None => (w, todo)
            end
  end.

(** The outer loop: a window whose tasks have all been started is dropped. *)
Fixpoint drainWindows (can : worker → WorkerRequest → bool) (start : worker → WorkerRequest → worker)
    (w : worker) (windows : list SchedWindow) : worker :=
  match windows with
  | [] => setWindows [] w
  | win :: rest =>
      let '(w', remaining) := drain (length (Todo win)) can start w (Todo win) in
      match remaining with
      | [] => drainWindows can start (w' {{ windowsRequested ::= λ n, n - 1 }}) rest
      | _ => setWindows (mkSchedWindow (Allocated win) remaining :: rest) w'
      end
  end.

Definition assignPreparingWork (w : worker) : worker :=
  drainWindows canPrepare startProcessingTask w (activeWindows (handle w)).

Definition readyTask (w : worker) (req : WorkerRequest) : bool :=
  bool_decide (TaskType req = TTCommit1 ∨ TaskType req = TTCommit2) && canRun w req.

Definition assignReadyWork (w : worker) : worker :=
  if hasWorkWaiting (active (handle w)) then w
  else drainWindows readyTask startProcessingReadyTask w (activeWindows (handle w)).

Definition processAssignedWindows (w : worker) : worker := assignPreparingWork (assignReadyWork w).

(** ** Compaction *)

(** The tasks of a window that the window before it can take. *)
Definition compactTask (h : WorkerHandle) (st : SchedWindow * SchedWindow) (todo : WorkerRequest) : SchedWindow * SchedWindow :=
  let '(lower, window) := st in
  if canTake h lower todo then
    (mkSchedWindow (Add (Allocated lower) (SealTask todo) (wiResources (whInfo h)) (needOf h todo)) (Todo lower ++ [todo]),
     mkSchedWindow (Free (Allocated window) (SealTask todo) (wiResources (whInfo h)) (needOf h todo)) (Todo window))
  else (lower, mkSchedWindow (Allocated window) (Todo window ++ [todo])).

Definition compactPair (h : WorkerHandle) (lower window : SchedWindow) : SchedWindow * SchedWindow :=
  foldl (compactTask h) (lower, mkSchedWindow (Allocated window) []) (Todo window).

Fixpoint compactFrom (h : WorkerHandle) (lower : SchedWindow) (rest : list SchedWindow) : list SchedWindow :=
  match rest with
  | [] => [lower]
  | window :: rest' => let '(lower', window') := compactPair h lower window in lower' :: compactFrom h window' rest'
  end.

Definition workerCompactWindows (w : worker) : worker :=
  let ws := match activeWindows (handle w) with [] => [] | win :: rest => compactFrom (handle w) win rest end in
  let kept := filter (λ win, Todo win ≠ []) ws in
  (setWindows kept w) {{ windowsRequested ::= λ n, n - Z.of_nat (length ws - length kept) }}.

(** ** The life of a task *)

(** Entering the work of a prepared task: [withResources] and the part of its callback before the
    lock is released. *)
Definition startWork (w : worker) (req : WorkerRequest) : worker :=
  (onPreparing (freeFrom w req) (onActive (addTo w req) w)) {{ runs ::= λ l, l ++ [req] }}.

Definition goToSleep (w : worker) (req : WorkerRequest) : worker :=
  (onActive (λ a, a {{ waiting := waiting a + 1 }}) w) {{ sleepers ::= λ l, l ++ [(req, false)] }}.

(** The test of [withResources]. *)
Definition tryWork (w : worker) (req : WorkerRequest) : worker := if canRun w req then startWork w req else goToSleep w req.

(** [a.cond.Broadcast] of [active]. *)
Definition BroadcastActive (w : worker) : worker := w {{ sleepers ::= map (λ s, (s.1, true)) }}.

Inductive workerStep : worker → worker → Prop :=
| step_receive w win : (* a window from the scheduler *)
    goodWindow (handle w) win →
    workerStep w (setWindows (activeWindows (handle w) ++ [win]) w)
| step_process w : (* compaction and assignment *)
    workerStep w (processAssignedWindows (workerCompactWindows w))
| step_prepare_fails w req i : (* [req.prepare] returns an error *)
    preps w !! i = Some req →
    workerStep w ((onPreparing (freeFrom w req) w) {{ preps := delete i (preps w) }})
| step_prepared w req i : (* [req.prepare] returns *)
    preps w !! i = Some req →
    workerStep w (tryWork (w {{ preps := delete i (preps w) }}) req)
| step_resume w req i : (* a woken goroutine takes the lock *)
    sleepers w !! i = Some (req, true) →
    workerStep w (tryWork ((onActive (λ a, a {{ waiting := waiting a - 1 }}) w) {{ sleepers := delete i (sleepers w) }}) req)
| step_finish w req i : (* [req.work] has ended *)
    runs w !! i = Some req →
    workerStep w (BroadcastActive ((onActive (freeFrom w req) w) {{ runs := delete i (runs w) }})).

(** A new worker. *)
Definition newWorker (info : WorkerInfo) : worker :=
  mkWorker (mkWorkerHandle info NewActiveResources NewActiveResources [] true) 0 [] [] [].

Inductive workerReachable (info : WorkerInfo) : worker → Prop :=
| reachable_new : workerReachable info (newWorker info)
| reachable_step w w' : workerReachable info w → workerStep w w' → workerReachable info w'.

(** * Resources and progress of a worker

    In every reachable state of a worker, the two accounts hold exactly the sums of the tasks that
    prepare or wait, and of those that run; they fit on the worker; no task is lost by compaction
    or assignment; and a task does not sleep on an idle worker. *)

Section worker.
Variable info : WorkerInfo.

Abbreviation res := (wiResources info).
Abbreviation needs := (λ t, ResourceSpec res (ProofType t) (TaskType t)).

(** ** An account with its tasks *)

Definition jobs (l : list WorkerRequest) : list Job := map (λ t, (SealTask t, needs t)) l.

Definition goodInfo : Prop := saneWorker res ∧ IgnoreResources info = false ∧ ∀ spt tt, sane (ResourceSpec res spt tt).

(** [a] holds the tasks [l], and they fit on a good worker. *)
Definition holds (a : ActiveResources) (l : list WorkerRequest) : Prop := accounts res a (jobs l) ∧ (goodInfo → fits res (jobs l)).

Lemma jobs_Permutation l l' : l ≡ₚ l' → jobs l ≡ₚ jobs l'.
Proof. apply Permutation_map. Qed.

Lemma goodInfo_jobs l : goodInfo → saneJobs (jobs l).
Proof. intros (_&_&Hs) j Hj. apply list_elem_of_In, in_map_iff in Hj as (t&<-&_). apply Hs. Qed.

Lemma holds_Permutation a l l' : l ≡ₚ l' → holds a l → holds a l'.
Proof.
  intros Hp%jobs_Permutation [Ha Hf]. split; [by eapply accounts_Permutation|]. intros Hg. destruct (Hf Hg) as [F1 F2 F3].
  split; by rewrite <- (sumOf_Permutation _ _ _ Hp).
Qed.

Lemma holds_nil : holds NewActiveResources [].
Proof. split; [apply accounts_nil|]. intros ((?&?&?&?)&_). split; simpl; lia. Qed.

Lemma holds_add a l t : holds a l → CanHandleRequest a (SealTask t) (needs t) info = true → holds (Add a (SealTask t) res (needs t)) (t :: l).
Proof.
  intros [Ha Hf] Hc. split; [by apply Add_accounts|]. intros Hg. pose proof Hg as (Hw&Hi&Hn).
  by eapply CanHandleRequest_fits; [| |apply Hn| | |apply Hf|]; eauto using goodInfo_jobs.
Qed.

Lemma holds_free a l l' t : l ≡ₚ t :: l' → holds a l → holds (Free a (SealTask t) res (needs t)) l'.
Proof.
  intros Hp [Ha Hf]. split; [eapply Free_accounts; [|done]; by apply (jobs_Permutation _ (t :: l'))|]. intros Hg.
  destruct (Hf Hg) as [F1 F2 F3]. apply jobs_Permutation in Hp. rewrite (sumOf_Permutation _ _ _ Hp) in F1. rewrite (sumOf_Permutation _ _ _ Hp) in F2. rewrite (sumOf_Permutation _ _ _ Hp) in F3.
  pose proof Hg as (Hw&_&Hn). pose proof (threads_range _ _ Hw (Hn (ProofType t) (TaskType t))). destruct (Hn (ProofType t) (TaskType t)) as (?&_).
  split; simpl in *; lia.
Qed.

(** The counter of waiting calls is no part of the sums. *)
Lemma holds_waiting a l f : holds a l → holds (a {{ waiting := f }}) l.
Proof. intros [[H1 H2 H3 H4] Hf]. split; [|done]. by split. Qed.

(** ** The invariant *)

(** A task that fits on the worker when nothing else runs; the worker has no GPUs. *)
Definition fitsAlone (t : WorkerRequest) : Prop :=
  saneWorker res ∧ sane (needs t) ∧ GPUs res = [] ∧ MinMemory (needs t) + BaseMinMemory (needs t) ≤ MemPhysical res ∧
  MaxMemory (needs t) + BaseMinMemory (needs t) ≤ MemPhysical res + MemSwap res - (MemUsed res + MemSwapUsed res) ∧
  threads res (needs t) ≤ CPUs res.

Record coreInv (w : worker) : Prop := mkCoreInv {
  inv_info : whInfo (handle w) = info;
  inv_preparing : holds (preparing (handle w)) (preps w ++ (sleepers w).*1);
  inv_active : holds (active (handle w)) (runs w);
  inv_waiting : waiting (active (handle w)) = Z.of_nat (length (sleepers w));
  inv_awake : ∀ t, (t, false) ∈ sleepers w → fitsAlone t → runs w ≠ []
}.

(** The allocation of a window is that of its tasks and of some that have been started. *)
Definition windowsInv (ws : list SchedWindow) : Prop := ∀ win, win ∈ ws → ∃ gone, holds (Allocated win) (Todo win ++ gone).

Lemma canRun_idle w t : coreInv w → runs w = [] → fitsAlone t → canRun w t = true.
Proof.
  intros [Hi _ [Ha _] _ _] Hr (H1&H2&H3&H4&H5&H6). rewrite Hr in Ha. unfold canRun, need, needOf. rewrite Hi.
  by apply CanHandleRequest_idle.
Qed.

Lemma startTask_inv w t : coreInv w → canPrepare w t = true → coreInv (startProcessingTask w t).
Proof.
  intros [Hi Hp Ha Hw Hs] Hc. unfold canPrepare, need, needOf in Hc. rewrite Hi in Hc. split; rsimpl; try done.
  unfold addTo, wr, need, needOf. rewrite Hi. eapply holds_Permutation; [|by apply holds_add]. rewrite <- app_assoc. apply Permutation_middle.
Qed.

Lemma startReady_inv w t : coreInv w → canRun w t = true → coreInv (startProcessingReadyTask w t).
Proof.
  intros [Hi Hp Ha Hw Hs] Hc. unfold canRun, need, needOf in Hc. rewrite Hi in Hc. split; rsimpl; try done.
  - unfold addTo, wr, need, needOf. rewrite Hi. eapply holds_Permutation; [|by apply holds_add]. apply Permutation_cons_append.
  - by intros t' _ _ [_ ?]%app_nil.
Qed.

(** Entering the work or going to sleep, for a task that [preparing] holds beside [rest]. *)
Lemma tryWork_inv w t : whInfo (handle w) = info → holds (preparing (handle w)) (t :: preps w ++ (sleepers w).*1) →
  holds (active (handle w)) (runs w) → waiting (active (handle w)) = Z.of_nat (length (sleepers w)) →
  (∀ t', (t', false) ∈ sleepers w → fitsAlone t' → runs w ≠ []) → coreInv (tryWork w t).
Proof.
  destruct w as [[i pr ac ws en] n ps sl rs]. simpl. intros Hi Hp Ha Hw Hs. unfold tryWork. destruct (canRun _ t) eqn:Hc.
  - unfold canRun, need, needOf in Hc. rewrite Hi in Hc. split; rsimpl; try done.
    + unfold freeFrom, wr, need, needOf. simpl. rewrite Hi. by eapply holds_free.
    + unfold addTo, wr, need, needOf. rewrite Hi. eapply holds_Permutation; [|by apply holds_add]. apply Permutation_cons_append.
    + by intros t' _ _ [_ ?]%app_nil.
  - split; rsimpl; try done.
    + eapply holds_Permutation; [|exact Hp]. rewrite fmap_app. simpl. by rewrite app_assoc, <- Permutation_cons_append.
    + by apply holds_waiting.
    + rewrite length_app. rsimpl. lia.
    + intros t' [H|H%list_elem_of_singleton]%elem_of_app Hf; [by eapply Hs|]. injection H as ->. intros Hr. rewrite Hr in Ha.
      destruct Hf as (F1&F2&F3&F4&F5&F6). unfold canRun, need, needOf in Hc. rewrite Hi in Hc.
      rewrite CanHandleRequest_idle in Hc; try done. apply Ha.
Qed.

(** ** Assignment *)

Definition busy (w : worker) : list WorkerRequest := preps w ++ (sleepers w).*1 ++ runs w.
Definition windowTasks (ws : list SchedWindow) : list WorkerRequest := concat (Todo <$> ws).

(** Every task that the worker has. *)
Definition tasksOf (w : worker) : list WorkerRequest := windowTasks (activeWindows (handle w)) ++ busy w.

(** Windows that were requested and have not come yet. *)
Definition outstanding (w : worker) : Z := windowsRequested w - Z.of_nat (length (activeWindows (handle w))).

Lemma setWindows_inv ws w : coreInv w → coreInv (setWindows ws w).
Proof. intros [H1 H2 H3 H4 H5]. by split. Qed.

Lemma requested_inv f w : coreInv w → coreInv (w {{ windowsRequested ::= f }}).
Proof. intros [H1 H2 H3 H4 H5]. by split. Qed.

Lemma outstanding_set ws w : outstanding (setWindows ws w) = windowsRequested w - Z.of_nat (length ws).
Proof. reflexivity. Qed.

Lemma requested_update f w : windowsRequested (w {{ windowsRequested ::= f }}) = f (windowsRequested w).
Proof. reflexivity. Qed.

(** A way to start tasks keeps the invariant and takes the task over. *)
Definition starts (can : worker → WorkerRequest → bool) (start : worker → WorkerRequest → worker) : Prop :=
  ∀ w t, coreInv w → can w t = true → coreInv (start w t) ∧ busy (start w t) ≡ₚ t :: busy w ∧ windowsRequested (start w t) = windowsRequested w.

Lemma start_preparing : starts canPrepare startProcessingTask.
Proof.
  intros w t Hw Hc. split; [by apply startTask_inv|]. split; [|done]. unfold busy. rsimpl. rewrite <- app_assoc. symmetry. apply Permutation_middle.
Qed.

Lemma start_ready : starts readyTask startProcessingReadyTask.
Proof.
  intros w t Hw [_ Hc]%andb_prop. split; [by apply startReady_inv|]. split; [|done]. unfold busy. rsimpl.
  by rewrite !app_assoc, <- Permutation_cons_append.
Qed.

Section draining.
Variable can : worker → WorkerRequest → bool.
Variable start : worker → WorkerRequest → worker.
Hypothesis Hstarts : starts can start.

Lemma drain_spec n w todo : coreInv w →
  let '(w', rest) := drain n can start w todo in
  coreInv w' ∧ windowsRequested w' = windowsRequested w ∧ (∃ started, todo ≡ₚ rest ++ started ∧ busy w' ≡ₚ started ++ busy w) ∧
  ((length todo ≤ n)%nat → ∀ t, t ∈ rest → can w' t = false).
Proof.
  revert w todo. induction n as [|n IH]; intros w todo Hw; simpl.
  { split_and!; [done..| |]; [exists []; by rewrite app_nil_r|]. intros Hl t Ht. destruct todo; [by apply elem_of_nil in Ht|simpl in Hl; lia]. }
  destruct (list_find _ todo) as [[i t]|] eqn:Ef.
  - apply list_find_Some in Ef as (Hi&Hc&_). destruct (Hstarts w t Hw Hc) as (Hs&Hb&Hr). specialize (IH (start w t) (delete i todo) Hs).
    destruct (drain n can start (start w t) (delete i todo)) as [w' rest]. destruct IH as (I1&I2&(st&I3&I4)&I5).
    split_and!; [done|by rewrite I2| |].
    + exists (t :: st). split.
      * etrans; [by apply delete_Permutation|]. rewrite I3. apply Permutation_middle.
      * rewrite I4, Hb. symmetry. apply Permutation_middle.
    + intros Hl. apply I5. rewrite length_delete by eauto. lia.
  - split_and!; [done..| |]; [exists []; by rewrite app_nil_r|]. intros _ t Ht. apply list_find_None in Ef. rewrite Forall_forall in Ef.
    specialize (Ef t Ht). by destruct (can w t).
Qed.

Lemma drainWindows_spec ws w : coreInv w → windowsInv ws →
  let w' := drainWindows can start w ws in
  coreInv w' ∧ windowsInv (activeWindows (handle w')) ∧ tasksOf w' ≡ₚ windowTasks ws ++ busy w ∧
  outstanding w' = windowsRequested w - Z.of_nat (length ws).
Proof.
  revert w. induction ws as [|win ws IH]; intros w Hw Hws; cbn [drainWindows].
  { split_and!; [by apply setWindows_inv|by intros ? ?%elem_of_nil|done|rewrite outstanding_set; simpl; lia]. }
  pose proof (drain_spec (length (Todo win)) w (Todo win) Hw) as Hd. destruct (drain _ can start w (Todo win)) as [w' rest].
  destruct Hd as (D1&D2&(st&D3&D4)&D5). destruct rest as [|t0 rest].
  - destruct (IH (w' {{ windowsRequested ::= λ n, n - 1 }})) as (I1&I2&I3&I4); [by apply requested_inv|intros x Hx; apply Hws; by right|].
    split_and!; [done|done| |].
    + rewrite I3. unfold windowTasks. rewrite fmap_cons. cbn [concat]. rewrite D3.
      change (busy (w' {{ windowsRequested ::= λ n, n - 1 }})) with (busy w'). rewrite D4. simpl.
      rewrite (app_assoc _ st), (Permutation_app_comm _ st). by rewrite <- app_assoc.
    + rewrite I4, requested_update, D2. simpl. lia.
  - split_and!; [by apply setWindows_inv| | |].
    + simpl. intros x [->|Hx]%elem_of_cons; [|apply Hws; by right]. destruct (Hws win ltac:(by left)) as [gone Hg]. exists (st ++ gone). cbn [Allocated Todo].
      eapply holds_Permutation; [|exact Hg]. rewrite D3. by rewrite app_assoc.
    + unfold tasksOf, windowTasks. simpl. change (busy (setWindows _ w')) with (busy w'). rewrite D4, D3. simpl. constructor.
      rewrite <- !app_assoc. apply Permutation_app_head. rewrite !app_assoc. apply Permutation_app_tail, Permutation_app_comm.
    + rewrite outstanding_set, D2. simpl. lia.
Qed.
End draining.

(** ** Compaction *)

Definition windowInv (win : SchedWindow) : Prop := ∃ gone, holds (Allocated win) (Todo win ++ gone).

Section compaction.
Variable h : WorkerHandle.
Hypothesis h_info : whInfo h = info.

Lemma compactTask_spec todos lower window gone :
  windowInv lower → holds (Allocated window) (Todo window ++ todos ++ gone) →
  let '(lower', window') := foldl (compactTask h) (lower, window) todos in
  windowInv lower' ∧ windowInv window' ∧ Todo lower' ++ Todo window' ≡ₚ Todo lower ++ Todo window ++ todos.
Proof.
  revert lower window. induction todos as [|t todos IH]; intros lower window Hl Hw; simpl.
  { split_and!; [done|by exists gone|by rewrite app_nil_r]. }
  destruct (canTake h lower t) eqn:Hc.
  - specialize (IH (mkSchedWindow (Add (Allocated lower) (SealTask t) (wiResources (whInfo h)) (needOf h t)) (Todo lower ++ [t]))
      (mkSchedWindow (Free (Allocated window) (SealTask t) (wiResources (whInfo h)) (needOf h t)) (Todo window))).
    destruct (foldl _ _ todos) as [lower' window']. destruct IH as (I1&I2&I3).
    + destruct Hl as [g Hg]. exists g. cbn [Allocated Todo]. unfold needOf. rewrite h_info. eapply holds_Permutation; [|apply holds_add; [exact Hg|]].
      * rewrite <- app_assoc. apply Permutation_middle.
      * unfold canTake, needOf in Hc. by rewrite h_info in Hc.
    + cbn [Allocated Todo]. unfold needOf. rewrite h_info. eapply holds_free; [|exact Hw]. symmetry. apply Permutation_middle.
    + split_and!; [done..|]. rewrite I3. cbn [Todo]. rewrite <- app_assoc. apply Permutation_app_head. apply (Permutation_middle (Todo window)).
  - specialize (IH lower (mkSchedWindow (Allocated window) (Todo window ++ [t])) Hl).
    destruct (foldl _ _ todos) as [lower' window']. destruct IH as (I1&I2&I3).
    + cbn [Allocated Todo]. by rewrite <- app_assoc.
    + split_and!; [done..|]. rewrite I3. cbn [Todo]. by rewrite <- (app_assoc (Todo window)).
Qed.

Lemma compactPair_spec lower window : windowInv lower → windowInv window →
  let '(lower', window') := compactPair h lower window in
  windowInv lower' ∧ windowInv window' ∧ Todo lower' ++ Todo window' ≡ₚ Todo lower ++ Todo window.
Proof.
  intros Hl [gone Hg]. pose proof (compactTask_spec (Todo window) lower (mkSchedWindow (Allocated window) []) gone Hl Hg) as H.
  unfold compactPair. destruct (foldl _ _ (Todo window)) as [lower' window']. cbn [Todo app] in H. done.
Qed.

Lemma compactFrom_spec rest lower : windowInv lower → windowsInv rest →
  windowsInv (compactFrom h lower rest) ∧ windowTasks (compactFrom h lower rest) ≡ₚ Todo lower ++ windowTasks rest ∧
  length (compactFrom h lower rest) = Datatypes.S (length rest).
Proof.
  revert lower. induction rest as [|window rest IH]; intros lower Hl Hr; simpl.
  { split_and!; [intros win ->%list_elem_of_singleton; exact Hl|done|done]. }
  pose proof (compactPair_spec lower window Hl (Hr window ltac:(by left))) as Hp. destruct (compactPair h lower window) as [lower' window'].
  destruct Hp as (P1&P2&P3). destruct (IH window' P2) as (I1&I2&I3); [intros x Hx; apply Hr; by right|]. split_and!.
  - intros win [->|Hwin]%elem_of_cons; [exact P1|by apply I1].
  - unfold windowTasks in *. simpl. rewrite I2, app_assoc, P3. by rewrite <- app_assoc.
  - simpl. by rewrite I3.
Qed.
End compaction.

Lemma windowTasks_filter ws : windowTasks (filter (λ win, Todo win ≠ []) ws) = windowTasks ws.
Proof.
  unfold windowTasks. induction ws as [|win ws IH]; [done|]. destruct (decide (Todo win = [])) as [E|E].
  - rewrite filter_cons_False by naive_solver. rewrite IH, fmap_cons. cbn [concat]. by rewrite E.
  - rewrite filter_cons_True by done. rewrite !fmap_cons. cbn [concat]. by rewrite IH.
Qed.

(** What the worker can do with its tasks: none is lost, and what it waits for stays the same. *)
Definition keepsTasks (w w' : worker) : Prop :=
  coreInv w' ∧ windowsInv (activeWindows (handle w')) ∧ tasksOf w' ≡ₚ tasksOf w ∧ outstanding w' = outstanding w.

Lemma compact_keeps w : coreInv w → windowsInv (activeWindows (handle w)) → keepsTasks w (workerCompactWindows w).
Proof.
  intros Hw Hws. unfold workerCompactWindows. set (ws := match activeWindows (handle w) with [] => [] | _ => _ end).
  assert (windowsInv ws ∧ windowTasks ws ≡ₚ windowTasks (activeWindows (handle w)) ∧ length ws = length (activeWindows (handle w))) as (W1&W2&W3).
  { unfold ws. destruct (activeWindows (handle w)) as [|win rest]; [done|]. apply compactFrom_spec; [apply Hw|apply Hws; by left|].
    intros x Hx. apply Hws. by right. }
  clearbody ws. split_and!.
  - by apply requested_inv, setWindows_inv.
  - intros win Hwin. apply W1. by apply list_elem_of_filter in Hwin as [_ ?].
  - unfold tasksOf. rewrite <- W2, <- (windowTasks_filter ws). done.
  - change (windowsRequested w - Z.of_nat (length ws - length (filter (λ win, Todo win ≠ []) ws)) - Z.of_nat (length (filter (λ win, Todo win ≠ []) ws)) = outstanding w).
    unfold outstanding. rewrite <- W3. pose proof (length_filter (λ win, Todo win ≠ []) ws). lia.
Qed.

Lemma ready_keeps w : coreInv w → windowsInv (activeWindows (handle w)) → keepsTasks w (assignReadyWork w).
Proof.
  intros Hw Hws. unfold assignReadyWork. destruct (hasWorkWaiting _); [by split_and!|].
  by apply (drainWindows_spec _ _ start_ready).
Qed.

Lemma preparing_keeps w : coreInv w → windowsInv (activeWindows (handle w)) → keepsTasks w (assignPreparingWork w).
Proof. intros Hw Hws. by apply (drainWindows_spec _ _ start_preparing). Qed.

Lemma process_keeps w : coreInv w → windowsInv (activeWindows (handle w)) → keepsTasks w (processAssignedWindows (workerCompactWindows w)).
Proof.
  intros Hw Hws. destruct (compact_keeps w Hw Hws) as (A1&A2&A3&A4). destruct (ready_keeps _ A1 A2) as (B1&B2&B3&B4).
  destruct (preparing_keeps _ B1 B2) as (C1&C2&C3&C4). unfold processAssignedWindows.
  split_and!; [done..| |]; [by rewrite C3, B3, A3|by rewrite C4, B4, A4].
Qed.

(** ** Reachable states *)

Definition workerInv (w : worker) : Prop := coreInv w ∧ windowsInv (activeWindows (handle w)).

Lemma goodWindow_holds h win : whInfo h = info → goodWindow h win → holds (Allocated win) (Todo win).
Proof.
  intros Hi [Ha Hf]. unfold jobsOf, needOf in Ha, Hf. rewrite Hi in Ha, Hf. split; [exact Ha|]. intros (G1&G2&G3). apply Hf.
  unfold saneHandle, needOf. rewrite Hi. by split_and!.
Qed.

Lemma delete_split {A} (l : list A) i x : l !! i = Some x → l ≡ₚ x :: delete i l.
Proof. apply delete_Permutation. Qed.

Lemma prepared_inv w t i : preps w !! i = Some t → coreInv w → coreInv (tryWork (w {{ preps := delete i (preps w) }}) t).
Proof.
  intros Hi [H1 H2 H3 H4 H5]. apply tryWork_inv; try done. eapply holds_Permutation; [|exact H2]. by rewrite (delete_split _ _ _ Hi) at 1.
Qed.

Lemma resume_inv w t i : sleepers w !! i = Some (t, true) → coreInv w →
  coreInv (tryWork ((onActive (λ a, a {{ waiting := waiting a - 1 }}) w) {{ sleepers := delete i (sleepers w) }}) t).
Proof.
  intros Hi [H1 H2 H3 H4 H5]. apply tryWork_inv; try done.
  - eapply holds_Permutation; [|exact H2]. rewrite (delete_split _ _ _ Hi) at 1. simpl. symmetry. apply Permutation_middle.
  - change (holds ((active (handle w)) {{ waiting := waiting (active (handle w)) - 1 }}) (runs w)). by apply holds_waiting.
  - change (waiting (active (handle w)) - 1 = Z.of_nat (length (delete i (sleepers w)))). rewrite H4, length_delete by eauto.
    apply lookup_lt_Some in Hi. lia.
  - intros t' Ht'. apply (H5 t'). change ((t', false) ∈ delete i (sleepers w)) in Ht'. rewrite (delete_split _ _ _ Hi). by right.
Qed.

Lemma fails_inv w t i : preps w !! i = Some t → coreInv w → coreInv ((onPreparing (freeFrom w t) w) {{ preps := delete i (preps w) }}).
Proof.
  intros Hi [H1 H2 H3 H4 H5]. split; try done.
  change (holds (freeFrom w t (preparing (handle w))) (delete i (preps w) ++ (sleepers w).*1)). unfold freeFrom, wr, need, needOf. rewrite H1.
  eapply holds_free; [|exact H2]. by rewrite (delete_split _ _ _ Hi) at 1.
Qed.

Lemma finish_inv w t i : runs w !! i = Some t → coreInv w → coreInv (BroadcastActive ((onActive (freeFrom w t) w) {{ runs := delete i (runs w) }})).
Proof.
  intros Hi [H1 H2 H3 H4 H5]. split; try done.
  - change (holds (preparing (handle w)) (preps w ++ (map (λ s, (s.1, true)) (sleepers w)).*1)).
    assert ((map (λ s, (s.1, true)) (sleepers w)).*1 = (sleepers w).*1) as ->; [|done].
    clear. induction (sleepers w) as [|x l IH]; [done|]. cbn [map]. rewrite !fmap_cons. by rewrite IH.
  - change (holds (freeFrom w t (active (handle w))) (delete i (runs w))). unfold freeFrom, wr, need, needOf. rewrite H1.
    eapply holds_free; [|exact H3]. by apply delete_split.
  - change (waiting (active (handle w)) = Z.of_nat (length (map (λ s, (s.1, true)) (sleepers w)))). by rewrite length_map.
  - intros t' Ht' _. change ((t', false) ∈ map (λ s, (s.1, true)) (sleepers w)) in Ht'. by apply list_elem_of_In, in_map_iff in Ht' as (?&?&_).
Qed.

Lemma tryWork_windows w t : activeWindows (handle (tryWork w t)) = activeWindows (handle w).
Proof. unfold tryWork. by destruct (canRun w t). Qed.

Lemma step_inv w w' : workerStep w w' → workerInv w → workerInv w'.
Proof.
  intros Hs [Hw Hws]. destruct Hs as [w win Hg|w|w t i Hi|w t i Hi|w t i Hi|w t i Hi].
  - split; [by apply setWindows_inv|]. change (windowsInv (activeWindows (handle w) ++ [win])).
    intros x [Hx|Hx%list_elem_of_singleton]%elem_of_app; [by apply Hws|]. subst. exists []. rewrite app_nil_r.
    eapply goodWindow_holds; [|done]. apply Hw.
  - destruct (process_keeps w Hw Hws) as (?&?&_). by split.
  - split; [by apply fails_inv|exact Hws].
  - split; [by apply prepared_inv|]. by rewrite tryWork_windows.
  - split; [by apply resume_inv|]. by rewrite tryWork_windows.
  - split; [by apply finish_inv|exact Hws].
Qed.

Lemma reachable_inv w : workerReachable info w → workerInv w.
Proof.
  induction 1 as [|w w' _ IH Hs]; [|by eapply step_inv]. split; [|by intros ? ?%elem_of_nil].
  split; simpl; try done; [apply holds_nil|apply holds_nil|by intros ? ?%elem_of_nil].
Qed.

(** On a good worker the sums have not wrapped around. *)
Definition within (a : ActiveResources) (l : list WorkerRequest) : Prop :=
  memUsedMin a = sumOf (λ t, MinMemory (needs t)) l ∧ memUsedMin a ≤ MemPhysical res ∧
  memUsedMax a = sumOf (λ t, MaxMemory (needs t)) l ∧ memUsedMax a ≤ MemPhysical res + MemSwap res ∧
  cpuUse a = sumOf (λ t, threads res (needs t)) l ∧ cpuUse a ≤ CPUs res ∧
  ∀ tt, counter a tt = Z.of_nat (length (filter (λ t, SealTask t = tt) l)).

Lemma sumOf_jobs (f : Resources → Z) l : sumOf (λ j, f j.2) (jobs l) = sumOf (λ t, f (needs t)) l.
Proof. unfold sumOf, jobs. induction l as [|t l IH]; [done|]. simpl. by rewrite IH. Qed.

Lemma countOf_jobs tt l : countOf tt (jobs l) = Z.of_nat (length (filter (λ t, SealTask t = tt) l)).
Proof.
  unfold countOf, sumOf, jobs. induction l as [|t l IH]; [done|]. simpl. rewrite IH. case_decide.
  - rewrite filter_cons_True by done. simpl. lia.
  - rewrite filter_cons_False by done. lia.
Qed.

Lemma holds_within a l : goodInfo → holds a l → within a l.
Proof.
  intros Hg [[A1 A2 A3 A4] Hf]. destruct (Hf Hg) as [F1 F2 F3]. pose proof Hg as (Hw&_).
  destruct (saneJobs_sums _ _ Hw (goodInfo_jobs l Hg)) as (N1&N2&N3). destruct Hw as (W1&W2&W3&W4).
  rewrite u64_small in A1, A2, A3 by lia. rewrite (sumOf_jobs MinMemory) in A1, F1. rewrite (sumOf_jobs MaxMemory) in A2, F2.
  rewrite (sumOf_jobs (threads res)) in A3, F3. unfold within. rewrite A1, A2, A3. split_and!; try done.
  intros tt. by rewrite A4, countOf_jobs.
Qed.
End worker.

(** C21. In every reachable state of a worker that does not ignore resources and whose table of resources is in
    range, [active] holds exactly the memory, processors and counts of the tasks that run, and [preparing]
    those of the tasks that prepare or wait; both stay within what the worker has, so no sum wraps around; and
    [waiting] is the number of tasks that wait.  The account of GPU fractions, floats that are rounded at every
    step, is left out: [gpu_fractions_drift] shows that it does not hold the sum. *)
Theorem worker_resources_exact info w : goodInfo info → workerReachable info w →
  within info (active (handle w)) (runs w) ∧ within info (preparing (handle w)) (preps w ++ (sleepers w).*1) ∧
  waiting (active (handle w)) = Z.of_nat (length (sleepers w)).
Proof.
  intros Hg Hr. destruct (reachable_inv info w Hr) as [[H1 H2 H3 H4 H5] _]. split_and!; [by apply holds_within..|done].
Qed.

(** Compaction and assignment lose no task of a worker and invent none, and do not change the
    number of windows that it still waits for. *)
Theorem processing_keeps_tasks info w : workerReachable info w →
  tasksOf (processAssignedWindows (workerCompactWindows w)) ≡ₚ tasksOf w ∧
  outstanding (processAssignedWindows (workerCompactWindows w)) = outstanding w.
Proof. intros Hr. destruct (reachable_inv info w Hr) as [Hc Hw]. by destruct (process_keeps info w Hc Hw) as (_&_&?&?). Qed.

(** C22. A task that waits for resources and fits on the worker alone, which has no GPUs, is not
    forgotten: some task runs, whose end wakes it, or it has been woken and its next step
    starts its work. *)
Theorem waiting_task_gets_its_turn info w t woken : workerReachable info w → (t, woken) ∈ sleepers w → fitsAlone info t →
  runs w ≠ [] ∨ (woken = true ∧ ∃ w', workerStep w w' ∧ t ∈ runs w').
Proof.
  intros Hr Hin Hf. destruct (decide (runs w = [])) as [E|E]; [|by left]. right. destruct (reachable_inv info w Hr) as [Hc _].
  destruct woken; [|exfalso; by eapply (inv_awake _ _ Hc)]. split; [done|]. apply list_elem_of_lookup in Hin as [i Hi].
  eexists. split; [by apply (step_resume w t i)|]. pose proof (canRun_idle _ w t Hc E Hf) as Hcan. unfold tryWork.
  assert (∀ ws f n, canRun ((onActive (λ a, a {{ waiting := waiting a - n }}) w) {{ sleepers := f }}) t = canRun (setWindows ws w) t) as Hsame by reflexivity.
  rewrite (Hsame (activeWindows (handle w))). assert (canRun (setWindows (activeWindows (handle w)) w) t = canRun w t) as -> by reflexivity.
  rewrite Hcan. change (t ∈ runs w ++ [t]). apply elem_of_app. right. by apply list_elem_of_singleton.
Qed.

(** ** A worker with room for one task *)

Definition smallInfo : WorkerInfo := mkWorkerInfo "host" false (mkWorkerResources (2 ^ 37) 0 0 0 16 [] None).

Lemma smallInfo_good : goodInfo smallInfo.
Proof. split_and!; [by vm_compute..|done|]. intros spt tt. apply defaultSpec_sane. Qed.

(** A window with one pre-commit. *)
Definition smallWindow (n : Z) : SchedWindow :=
  mkSchedWindow (Add NewActiveResources (SealTask (exTask n)) (wiResources smallInfo) (needOf (handle (newWorker smallInfo)) (exTask n))) [exTask n].

Lemma smallWindow_good n h : whInfo h = smallInfo → goodWindow h (smallWindow n).
Proof.
  intros Hi. unfold smallWindow. change [exTask n] with (Todo emptyWindow ++ [exTask n]).
  assert (needOf (handle (newWorker smallInfo)) (exTask n) = needOf h (exTask n)) as -> by (unfold needOf; by rewrite Hi).
  rewrite <- Hi. apply (goodWindow_add h emptyWindow); [apply emptyWindow_good|]. unfold canTake, needOf. rewrite Hi. by vm_compute.
Qed.

(** The first task runs, the second one is prepared and sleeps, and the first one ends. *)
Definition small0 : worker := newWorker smallInfo.
Definition small1 : worker := setWindows (activeWindows (handle small0) ++ [smallWindow 1]) small0.
Definition small2 : worker := processAssignedWindows (workerCompactWindows small1).
Definition small3 : worker := tryWork (small2 {{ preps := delete 0%nat (preps small2) }}) (exTask 1).
Definition small4 : worker := setWindows (activeWindows (handle small3) ++ [smallWindow 2]) small3.
Definition small5 : worker := processAssignedWindows (workerCompactWindows small4).
Definition small6 : worker := tryWork (small5 {{ preps := delete 0%nat (preps small5) }}) (exTask 2).
Definition small7 : worker := BroadcastActive ((onActive (freeFrom small6 (exTask 1)) small6) {{ runs := delete 0%nat (runs small6) }}).

Lemma small6_reachable : workerReachable smallInfo small6.
Proof.
  eapply reachable_step; [|apply (step_prepared small5 (exTask 2) 0); by vm_compute].
  eapply reachable_step; [|apply (step_process small4)].
  eapply reachable_step; [|apply (step_receive small3 (smallWindow 2)), smallWindow_good; by vm_compute].
  eapply reachable_step; [|apply (step_prepared small2 (exTask 1) 0); by vm_compute].
  eapply reachable_step; [|apply (step_process small1)].
  eapply reachable_step; [|apply (step_receive small0 (smallWindow 1)), smallWindow_good; by vm_compute].
  apply reachable_new.
Qed.

Lemma small7_reachable : workerReachable smallInfo small7.
Proof. eapply reachable_step; [apply small6_reachable|]. apply (step_finish small6 (exTask 1) 0). by vm_compute. Qed.

Lemma small_states : (map SectorNumber (runs small6), map (λ s, (SectorNumber s.1, s.2)) (sleepers small6)) = ([1], [(2, false)]) ∧
  (map SectorNumber (runs small7), map (λ s, (SectorNumber s.1, s.2)) (sleepers small7)) = ([], [(2, true)]).
Proof. by vm_compute. Qed.

Lemma worker_resources_exact_witness :
  memUsedMin (active (handle small6)) = 56 * 2 ^ 30 ∧ within smallInfo (active (handle small6)) (runs small6).
Proof. split; [by vm_compute|]. apply (worker_resources_exact smallInfo small6 smallInfo_good small6_reachable). Defined.

Lemma processing_keeps_tasks_witness : tasksOf (processAssignedWindows (workerCompactWindows small7)) ≡ₚ tasksOf small7.
Proof. apply (processing_keeps_tasks smallInfo small7 small7_reachable). Defined.

Lemma waiting_task_gets_its_turn_witness : ∃ w', workerStep small7 w' ∧ exTask 2 ∈ runs w'.
Proof.
  assert (fitsAlone smallInfo (exTask 2)) as Hf by (split_and!; by vm_compute).
  assert ((exTask 2, true) ∈ sleepers small7) as Hin by (apply list_elem_of_lookup; exists 0%nat; by vm_compute).
  destruct (waiting_task_gets_its_turn smallInfo small7 (exTask 2) true small7_reachable Hin Hf) as [H|[_ H]]; [|exact H].
  exfalso. by apply H; vm_compute.
Defined.
