(* ===== verification/SchedLoop.v ===== *)
(** * The loop of the sealing scheduler (storage/sealer/sched.go)

    One goroutine owns the queue and the open windows.  A round takes an event, and once the
    scheduler is initialised it also takes the events that are pending, disables workers, and
    assigns requests to windows. *)

From Stdlib Require Import Ascii SpecFloat Sorted.
From coqutil Require Import Datatypes.RecordSetters.
From stdpp Require Import strings numbers base gmap fin_maps sets list.
From S2P Require Import Prelude GoSort ProofLog SealTasks SealResources SchedQueue SchedAssign.
Import DoubleBraceUpdate.
Local Open Scope Z_scope.

(** [workerDisableReq]: the worker and the windows that it gives back. *)
Record workerDisableReq := mkDisable { dActiveWindows : list SchedWindow; dWid : string }.

(** What the loop receives. *)
Inductive event :=
| EvRemove (id : string)
| EvWorkerChange
| EvDisable (dreq : workerDisableReq)
| EvSchedule (req : WorkerRequest)
| EvWindow (wid : string)
| EvInitialised.

Section loop.
Variable selOk : WorkerRequest → string → outcome (bool * bool).
Variable selCmp : WorkerRequest → string → string → bool.
Variable Shuffle : list nat → list nat.
Variable Sort : list WorkerRequest → list WorkerRequest.
Context {S : Type} {sel : WindowSelector S}.

(** An event with the disable requests gathered so far; a removal answers whether it found the
    request. *)
Definition receive (ev : event) (st : Scheduler * list workerDisableReq) : outcome (Scheduler * list workerDisableReq) :=
  let '(sh, toDisable) := st in
  match ev with
  | EvRemove id => '(_, q) ← removeRequest Sort (schedQueue sh) id; Ret (sh {{ schedQueue := q }}, toDisable)
  | EvWorkerChange | EvInitialised => Ret st
  | EvDisable dreq => Ret (sh, toDisable ++ [dreq])
  | EvSchedule req => Ret (sh {{ schedQueue := Push Sort (schedQueue sh) req }}, toDisable)
  | EvWindow wid => Ret (sh {{ OpenWindows := OpenWindows sh ++ [wid] }}, toDisable)
  end.

Fixpoint receiveAll (evs : list event) (st : Scheduler * list workerDisableReq) : outcome (Scheduler * list workerDisableReq) :=
  match evs with [] => Ret st | ev :: evs' => st' ← receive ev st; receiveAll evs' st' end.

(** The tasks of the worker go back to the queue, its windows are closed, and it is disabled.  A worker
    that is not in the map is a nil pointer. *)
Definition disableWorker (dreq : workerDisableReq) (sh : Scheduler) : outcome Scheduler :=
  match Workers sh !! dWid dreq with
  | None => Crash
  | Some w =>
      Ret (mkScheduler (<[dWid dreq := w {{ Enabled := false }}]> (Workers sh))
             (foldl (Push Sort) (schedQueue sh) (concat (Todo <$> dActiveWindows dreq)))
             (filter (λ wid, wid ≠ dWid dreq) (OpenWindows sh)))
  end.

Fixpoint disableAll (dreqs : list workerDisableReq) (sh : Scheduler) : outcome Scheduler :=
  match dreqs with [] => Ret sh | d :: ds => sh' ← disableWorker d sh; disableAll ds sh' end.

(** The result of a round: the scheduler, the windows sent, and the disable requests answered. *)
Record round := mkRound { rSched : Scheduler; rSent : list (string * SchedWindow); rDone : list workerDisableReq }.

(** A round of [runSched] with its first event and the pending ones, which are only looked at by an
    initialised scheduler. *)
Definition schedRound (initialised : bool) (first : event) (pending : list event) (sh : Scheduler) : outcome round :=
  '(sh1, toDisable1) ← receive first (sh, []);
  if initialised then
    '(sh2, toDisable) ← receiveAll pending (sh1, toDisable1);
    sh3 ← disableAll toDisable sh2;
    '(sh4, sent) ← TrySched selOk selCmp Shuffle Sort sh3;
    Ret (mkRound sh4 sent toDisable)
  else Ret (mkRound sh1 [] []).

(** A request to disable a worker that comes before the scheduler is initialised is dropped: it is never
    answered, nothing is given back to the queue, and the worker stays enabled. *)
Theorem early_disable_is_dropped dreq pending sh : schedRound false (EvDisable dreq) pending sh = Ret (mkRound sh [] []).
Proof. done. Qed.

(** ** What a round keeps *)

Hypothesis Shuffle_Permutation : ∀ l, Shuffle l ≡ₚ l.
Hypothesis Sort_sorts : sorts Sort.
Context {laws : SelectorLaws S}.

(** The requests that an event brings. *)
Definition brings (ev : event) : list WorkerRequest :=
  match ev with
  | EvSchedule req => [req]
  | EvDisable dreq => concat (Todo <$> dActiveWindows dreq)
  | _ => []
  end.

(** Events after the first one: no removals, which the inner loop does not take. *)
Definition gathered (ev : event) : Prop := match ev with EvRemove _ | EvInitialised => False | _ => True end.

Definition given (dreqs : list workerDisableReq) : list WorkerRequest := concat ((λ d, concat (Todo <$> dActiveWindows d)) <$> dreqs).

Lemma pushAll l q : sortedQueue q → Forall known l → sortedQueue (foldl (Push Sort) q l) ∧ foldl (Push Sort) q l ≡ₚ l ++ q.
Proof.
  revert q. induction l as [|x l IH]; intros q Hq Hl; simpl; [done|]. apply Forall_cons in Hl as [Hx Hl].
  destruct (Push_sorted Sort Sort_sorts q x Hq Hx) as [Hs Hp]. destruct (IH _ Hs Hl) as [H1 H2]. split; [done|].
  rewrite H2, Hp. symmetry. apply Permutation_middle.
Qed.

Lemma receive_gathered ev sh ds : gathered ev → sortedQueue (schedQueue sh) → Forall known (brings ev) →
  ∃ sh' ds', receive ev (sh, ds) = Ret (sh', ds') ∧ Workers sh' = Workers sh ∧ sortedQueue (schedQueue sh') ∧
    schedQueue sh' ++ given ds' ≡ₚ brings ev ++ schedQueue sh ++ given ds ∧
    (∀ d, d ∈ ds' ↔ d ∈ ds ∨ ev = EvDisable d).
Proof.
  destruct ev as [id| |dreq|req|wid|]; try done; intros _ Hq Hk; cbn [receive].
  - exists sh, ds. split_and!; try done. naive_solver.
  - exists sh, (ds ++ [dreq]). split_and!; try done.
    + unfold given. rewrite fmap_app, concat_app. simpl. rewrite app_nil_r, app_assoc. apply Permutation_app_comm.
    + intros d. rewrite elem_of_app, list_elem_of_singleton. naive_solver.
  - eexists _, ds. split; [reflexivity|]. cbn [brings] in Hk. apply Forall_cons in Hk as [Hk _].
    destruct (Push_sorted Sort Sort_sorts _ req Hq Hk) as [Hs Hp]. split_and!; [done|exact Hs| |naive_solver].
    change (Push Sort (schedQueue sh) req ++ given ds ≡ₚ req :: schedQueue sh ++ given ds). by rewrite Hp.
  - eexists _, ds. split; [reflexivity|]. split_and!; [done|exact Hq|done|naive_solver].
Qed.

Lemma receiveAll_gathered evs sh ds : Forall gathered evs → sortedQueue (schedQueue sh) → Forall (λ ev, Forall known (brings ev)) evs →
  ∃ sh' ds', receiveAll evs (sh, ds) = Ret (sh', ds') ∧ Workers sh' = Workers sh ∧ sortedQueue (schedQueue sh') ∧
    schedQueue sh' ++ given ds' ≡ₚ (evs ≫= brings) ++ schedQueue sh ++ given ds ∧
    (∀ d, d ∈ ds' ↔ d ∈ ds ∨ EvDisable d ∈ evs).
Proof.
  intros Hg. revert sh ds. induction Hg as [|ev evs He Hg IH]; intros sh ds Hq Hk; cbn [receiveAll].
  { exists sh, ds. split_and!; try done. intros d. rewrite elem_of_nil. naive_solver. }
  apply Forall_cons in Hk as [Hk1 Hk]. destruct (receive_gathered ev sh ds He Hq Hk1) as (sh1&ds1&E1&W1&Q1&P1&D1). rewrite E1.
  destruct (IH sh1 ds1 Q1 Hk) as (sh2&ds2&E2&W2&Q2&P2&D2). exists sh2, ds2. split; [done|]. split_and!; [congruence|done| |].
  - rewrite P2, P1. cbn. rewrite !app_assoc. do 2 apply Permutation_app_tail. apply Permutation_app_comm.
  - intros d. rewrite D2, D1, elem_of_cons. naive_solver.
Qed.

Lemma disableAll_gives ds sh : sortedQueue (schedQueue sh) → Forall known (given ds) → (∀ d, d ∈ ds → is_Some (Workers sh !! dWid d)) →
  ∃ sh', disableAll ds sh = Ret sh' ∧ sortedQueue (schedQueue sh') ∧ schedQueue sh' ≡ₚ schedQueue sh ++ given ds ∧
    (∀ d, d ∈ ds → (∃ w, Workers sh' !! dWid d = Some w ∧ Enabled w = false) ∧ dWid d ∉ OpenWindows sh') ∧
    (∀ wid, wid ∈ OpenWindows sh' → wid ∈ OpenWindows sh) ∧
    (∀ wid w, Workers sh !! wid = Some w → Enabled w = false → Workers sh' !! wid = Some w).
Proof.
  revert sh. induction ds as [|d ds IH]; intros sh Hq Hk Hw; cbn [disableAll].
  { exists sh. split_and!; try done; [by rewrite app_nil_r|by intros ? ?%elem_of_nil]. }
  unfold given in Hk. rewrite fmap_cons in Hk. cbn [concat] in Hk. apply Forall_app in Hk as [Hk1 Hk].
  destruct (Hw d ltac:(by left)) as [w Hd]. unfold disableWorker. rewrite Hd. cbn [mbind outcome_bind].
  destruct (pushAll _ _ Hq Hk1) as [Hs Hp]. set (sh1 := mkScheduler _ _ _). destruct (IH sh1) as (sh'&E&Q&P&D&O&K); [exact Hs|done| |].
  { intros d' Hd'. unfold sh1. cbn [Workers]. destruct (decide (dWid d = dWid d')) as [<-|Hne]; [rewrite lookup_insert_eq; eauto|].
    rewrite lookup_insert_ne by done. apply Hw. by right. }
  exists sh'. split; [exact E|]. split; [exact Q|]. split_and!.
  - rewrite P. unfold sh1. cbn [schedQueue]. rewrite Hp. unfold given. rewrite fmap_cons. cbn [concat]. rewrite !app_assoc.
    apply Permutation_app_tail, Permutation_app_comm.
  - intros d' [->|Hd']%elem_of_cons; [|by apply D]. split.
    + exists (w {{ Enabled := false }}). split; [|done]. apply K; [unfold sh1; cbn [Workers]; by rewrite lookup_insert_eq|done].
    + intros Ho%O. unfold sh1 in Ho. cbn [OpenWindows] in Ho. by apply list_elem_of_filter in Ho as [? _].
  - intros wid Ho%O. unfold sh1 in Ho. cbn [OpenWindows] in Ho. by apply list_elem_of_filter in Ho as [_ ?].
  - intros wid w' Hw' He. apply K; [|done]. unfold sh1. cbn [Workers]. destruct (decide (dWid d = wid)) as [<-|Hne]; [|by rewrite lookup_insert_ne].
    assert (w' = w) as -> by congruence. rewrite lookup_insert_eq. f_equal. destruct w. simpl in He. by rewrite He.
Qed.

Lemma removeRequest_takes q id : sortedQueue q →
  ∃ found q', removeRequest Sort q id = Ret (found, q') ∧ sortedQueue q' ∧
    (if found : bool then ∃ r, SchedId r = id ∧ q ≡ₚ r :: q' else q' = q ∧ ∀ r, r ∈ q → SchedId r ≠ id).
Proof.
  intros Hq. unfold removeRequest. destruct (list_find _ q) as [[i r]|] eqn:Ef.
  - apply list_find_Some in Ef as (Hi&Hr&_). destruct (Remove_sorted Sort Sort_sorts _ _ _ Hq Hi) as (q'&E&Hs&Hp&_). rewrite E.
    exists true, q'. split_and!; [done|done|]. by exists r.
  - apply list_find_None in Ef. rewrite Forall_forall in Ef. exists false, q. by split_and!.
Qed.

Lemma round_keeps first pending sh :
  Forall gathered (first :: pending) → sortedQueue (schedQueue sh) → Forall (λ ev, Forall known (brings ev)) (first :: pending) →
  (∀ d, EvDisable d ∈ first :: pending → is_Some (Workers sh !! dWid d)) →
  noTies (((first :: pending) ≫= brings) ++ schedQueue sh) →
  ∃ r, schedRound true first pending sh = Ret r ∧
    ((first :: pending) ≫= brings) ++ schedQueue sh ≡ₚ concat ((λ ww, Todo ww.2) <$> rSent r) ++ schedQueue (rSched r) ∧
    sortedQueue (schedQueue (rSched r)) ∧ (∀ d, d ∈ rDone r ↔ EvDisable d ∈ first :: pending) ∧
    (∀ d, d ∈ rDone r → dWid d ∉ OpenWindows (rSched r) ∧ dWid d ∉ (rSent r).*1).
Proof.
  intros Hg Hq Hk Hw Hn. destruct (receiveAll_gathered (first :: pending) sh [] Hg Hq Hk) as (sh2&ds&E&W&Q&P&D).
  assert (schedRound true first pending sh =
    ('(sh2, toDisable) ← receiveAll (first :: pending) (sh, []); sh3 ← disableAll toDisable sh2;
     '(sh4, sent) ← TrySched selOk selCmp Shuffle Sort sh3; Ret (mkRound sh4 sent toDisable))) as ->.
  { unfold schedRound. cbn [receiveAll]. by destruct (receive first (sh, [])) as [[]| |]. }
  rewrite E. cbn [mbind outcome_bind]. change (given []) with (@nil WorkerRequest) in P. rewrite app_nil_r in P.
  assert (∀ d, d ∈ ds ↔ EvDisable d ∈ first :: pending) as D' by (intros d; rewrite D, elem_of_nil; naive_solver).
  assert (Forall known (schedQueue sh2 ++ given ds)) as Hall.
  { rewrite P. apply Forall_app. split; [|apply Hq]. clear -Hk. induction Hk as [|ev evs H _ IH]; [constructor|]. cbn. by apply Forall_app. }
  destruct (disableAll_gives ds sh2 Q) as (sh3&E3&Q3&P3&D3&O3&_); [by apply Forall_app in Hall as [_ ?]|intros d Hd; rewrite W; by apply Hw, D'|].
  rewrite E3. cbn [mbind outcome_bind]. assert (noTies (schedQueue sh3)) as Hn3.
  { intros x y Hx Hy. apply Hn; rewrite <- P, <- P3; done. }
  destruct (round_ok selOk selCmp Shuffle Sort Shuffle_Permutation Sort_sorts sh3 Q3 Hn3) as (sh4&sent&E4&W4&Q4&P4&O4&S4).
  rewrite E4. eexists. split; [reflexivity|]. cbn [rSent rSched rDone]. split_and!; [by rewrite <- P, <- P3|done|done|].
  intros d Hd. destruct (D3 d Hd) as [(w&Hdw&He) Ho]. split.
  - intros Hin. apply Ho. rewrite O4. apply elem_of_app. by right.
  - intros Hin. apply Ho. rewrite O4. apply elem_of_app. by left.
Qed.
End loop.

(** A round of the initialised scheduler, with either selector and without ties in the order of the queue (see
    [ties_remove_wrong_request] for ties, and [early_disable_is_dropped] for the time before): the requests of the queue, the new ones
    and the tasks that disabled workers give back are afterwards in the queue or in exactly one of
    the windows that are sent; every request to disable a worker is answered, and that worker has
    no open window and is sent none. *)
Theorem schedRound_loses_nothing {S : Type} {sel : WindowSelector S} {laws : SelectorLaws S} selOk selCmp Shuffle Sort first pending sh :
  (∀ l, Shuffle l ≡ₚ l) → sorts Sort →
  Forall gathered (first :: pending) → sortedQueue (schedQueue sh) → Forall (λ ev, Forall known (brings ev)) (first :: pending) →
  (∀ d, EvDisable d ∈ first :: pending → is_Some (Workers sh !! dWid d)) →
  noTies (((first :: pending) ≫= brings) ++ schedQueue sh) →
  ∃ r, schedRound (S:=S) selOk selCmp Shuffle Sort true first pending sh = Ret r ∧
    ((first :: pending) ≫= brings) ++ schedQueue sh ≡ₚ concat ((λ ww, Todo ww.2) <$> rSent r) ++ schedQueue (rSched r) ∧
    sortedQueue (schedQueue (rSched r)) ∧ (∀ d, d ∈ rDone r ↔ EvDisable d ∈ first :: pending) ∧
    (∀ d, d ∈ rDone r → dWid d ∉ OpenWindows (rSched r) ∧ dWid d ∉ (rSent r).*1).
Proof. intros H1 H2. by apply round_keeps. Qed.

Definition exDisable : workerDisableReq := mkDisable [mkSchedWindow NewActiveResources [exTask 4]] "w2".

Lemma schedRound_loses_nothing_witness :
  ∃ r, schedRound (S:=gmap string Z) (λ _ _, Ret (true, false)) (λ _ _ _, false) id (sortBy queueLess) true (EvDisable exDisable) [EvSchedule (exTask 5)] exSched = Ret r ∧
    [exTask 4; exTask 5; exTask 1; exTask 2; exTask 3] ≡ₚ concat ((λ ww, Todo ww.2) <$> rSent r) ++ schedQueue (rSched r).
Proof.
  assert (∀ n, known (exTask n)) as Hk by (intros n; apply (bool_decide_unpack _); by vm_compute).
  destruct (schedRound_loses_nothing (S:=gmap string Z) (λ _ _, Ret (true, false)) (λ _ _ _, false) id (sortBy queueLess) (EvDisable exDisable)
    [EvSchedule (exTask 5)] exSched (λ l, reflexivity l) sortBy_sorts) as (r&H1&H2&_).
  - repeat constructor.
  - apply exSched_queue.
  - repeat constructor; apply Hk.
  - intros d [[= ->]|[?|[]%elem_of_nil]%elem_of_cons]%elem_of_cons; [|done]. exists exWorker. by vm_compute.
  - intros x y Hx Hy. cbn in Hx, Hy. repeat (apply elem_of_cons in Hx as [->|Hx]); try (by apply elem_of_nil in Hx);
      repeat (apply elem_of_cons in Hy as [->|Hy]); try (by apply elem_of_nil in Hy); done.
  - exists r. split; [exact H1|exact H2].
Defined.
