(* ===== verification/MsgSet.v ===== *)
(** * Pending messages of one sender (chain/messagepool/messagepool.go, [msgSet])

    The messages of a sender by nonce, with the next nonce to use and the funds that they need.
    Messages have come through the CBOR codec, so that their amounts are not nil and that they
    can be serialized; the codec and the hash are parameters. *)

From coqutil Require Import Datatypes.RecordSetters.
From stdpp Require Import strings numbers base gmap fin_maps sets list.
From S2P Require Import Prelude GoStrings GoSort TipSets GasFees FileTypes.
Import DoubleBraceUpdate.
Local Open Scope Z_scope.

(** ** Messages *)

(** An [address.Address] is a string of bytes. *)
Abbreviation Address := string (only parsing).
Definition AddressUndef : Address := "".

(** [crypto.SigType] of go-state-types *)
Inductive SigType := SigTypeUnknown | SigTypeSecp256k1 | SigTypeBLS | SigTypeDelegated.
#[global] Instance SigType_eq_dec : EqDecision SigType.
Proof. solve_decision. Defined.

Record Signature := mkSignature { sigType : SigType; sigData : string }.
#[global] Instance Signature_eq_dec : EqDecision Signature.
Proof. solve_decision. Defined.

(** The fields of [types.Message] and the signature. *)
Record SignedMessage := mkSignedMessage {
  smVersion : Z;
  smTo : Address;
  smFrom : Address;
  smNonce : Z;
  smValue : Z;
  smGasLimit : Z;
  smGasFeeCap : Z;
  smGasPremium : Z;
  smMethod : Z;
  smParams : string;
  smSignature : Signature
}.
#[global] Instance SignedMessage_eq_dec : EqDecision SignedMessage.
Proof. solve_decision. Defined.

(** [&types.SignedMessage{Message: *msg, Signature: sig}] *)
Definition withSignature (m : SignedMessage) (sig : Signature) : SignedMessage :=
  mkSignedMessage (smVersion m) (smTo m) (smFrom m) (smNonce m) (smValue m) (smGasLimit m) (smGasFeeCap m)
    (smGasPremium m) (smMethod m) (smParams m) sig.

(** The generated codec and [abi.CidBuilder.Sum]; the message alone is written without the
    signature. *)
Class MessageCodec := {
  Serialize : SignedMessage → string;
  SerializeMessage : SignedMessage → string;
  SerializeMessage_unsigned m sig : SerializeMessage (withSignature m sig) = SerializeMessage m;
  Sum : string → Cid
}.

Section codec.
Context `{MessageCodec}.

Definition MessageCid (m : SignedMessage) : Cid := Sum (SerializeMessage m).

(** [SignedMessage.Cid] *)
Definition SignedCid (m : SignedMessage) : Cid :=
  if decide (sigType (smSignature m) = SigTypeBLS) then MessageCid m else Sum (Serialize m).

Definition ChainLength (m : SignedMessage) : Z :=
  if decide (sigType (smSignature m) = SigTypeBLS)
  then Z.of_nat (String.length (SerializeMessage m)) else Z.of_nat (String.length (Serialize m)).

Definition Size (m : SignedMessage) : Z := Z.of_nat (String.length (Serialize m)).
End codec.

(** [Message.RequiredFunds]; the gas limit is read as a [uint64]. *)
Definition RequiredFunds (m : SignedMessage) : Z := smGasFeeCap m * wrapUint64 (smGasLimit m).

Definition VMMessage (m : SignedMessage) : Message (Address := Address) :=
  mkMessage (smVersion m) (smTo m) (smFrom m) (Some (smValue m)) (smGasLimit m)
    (Some (smGasFeeCap m)) (Some (smGasPremium m)).

(** ** Errors *)

(** The errors that callers tell apart; the text around them is left out. *)
Inductive Sentinel :=
| ErrMessageTooBig | ErrMessageValueTooHigh | ErrNonceTooLow | ErrGasFeeCapTooLow | ErrNotEnoughFunds
| ErrInvalidToAddr | ErrSoftValidationFailure | ErrRBFTooLowPremium | ErrTooManyPendingMessages | ErrNonceGap.

Inductive poolErr := Wraps (err : Sentinel) | OtherErr (text : string).

(** ** Replacing by fee *)

Definition RbfDenom : Z := 256.
(** [uint64((ReplaceByFeeRatioDefault - 1) * RbfDenom)] with the ratio 1.25 *)
Definition rbfNum : Z := 64.

Definition ComputeMinRBF (curPrem : Z) : Z := curPrem + curPrem * rbfNum / RbfDenom + 1.

(** The result is the message; [mff] is the configured default, [sendSpec] the caller's limit, of
    which the inner option is a nil amount. *)
Definition CapGasFee `{BigDiv} (mff : outcome Z) (msg : SignedMessage) (sendSpec : option (option Z)) : outcome SignedMessage :=
  let given := match sendSpec with Some (Some z) => if decide (z = 0) then None else Some z | _ => None end in
  maxFee ← match given, mff with
           | Some z, _ => Ret z
           | None, Ret z => Ret z
           | None, Fail _ => Ret 0
           | None, Crash => Crash
           end;
  let gl := wrapUint64 (smGasLimit msg) in
  if decide (smGasFeeCap msg * gl ≤ maxFee) then Ret msg
  else if decide (gl = 0) then Crash
  else
    let feeCap := bigDiv maxFee gl in
    Ret (mkSignedMessage (smVersion msg) (smTo msg) (smFrom msg) (smNonce msg) (smValue msg) (smGasLimit msg)
           feeCap (Z.min feeCap (smGasPremium msg)) (smMethod msg) (smParams msg) (smSignature msg)).

(** ** The set *)

Definition MaxActorPendingMessages : Z := 1000.
Definition MaxUntrustedActorPendingMessages : Z := 10.
Definition MaxNonceGap : Z := 4.

Record msgSet := mkMsgSet {
  msgs : gmap Z SignedMessage;
  nextNonce : Z;
  requiredFunds : Z
}.

Definition newMsgSet (nonce : Z) : msgSet := mkMsgSet ∅ nonce 0.

(** [for _, fillGap := ms.msgs[nextNonce]; fillGap; ... { nextNonce++ }] *)
Fixpoint fillGaps (fuel : nat) (m : gmap Z SignedMessage) (n : Z) : option Z :=
  match fuel with
  | O => None
  | S fuel' => if decide (is_Some (m !! n)) then fillGaps fuel' m (wrapUint64 (n + 1)) else Some n
  end.

(** One turn per message and one to stop; [None] stands for a loop that does not end. *)
Definition skipPending (m : gmap Z SignedMessage) (n : Z) : option Z := fillGaps (S (size m)) m n.

Section add.
Context `{MessageCodec}.

(** The test of a message that replaces [exms]. *)
Definition checkReplace (exms m : SignedMessage) : option poolErr :=
  if decide (SignedCid m ≠ SignedCid exms) then
    if decide (ComputeMinRBF (smGasPremium exms) ≤ smGasPremium m) then None else Some (Wraps ErrRBFTooLowPremium)
  else Some (Wraps ErrSoftValidationFailure).

(** [None] stands for a loop that does not end. *)
Definition add (ms : msgSet) (m : SignedMessage) (strict untrusted : bool) : option (msgSet * (bool + poolErr)) :=
  let maxNonceGap := if untrusted then 0 else MaxNonceGap in
  let maxPending := if untrusted then MaxUntrustedActorPendingMessages else MaxActorPendingMessages in
  next ← (if decide (smNonce m = nextNonce ms) then skipPending (msgs ms) (wrapUint64 (nextNonce ms + 1))
          else Some (nextNonce ms));
  if decide (smNonce m ≠ nextNonce ms ∧ strict = true ∧ wrapUint64 (nextNonce ms + maxNonceGap) < smNonce m)
  then Some (ms, inr (Wraps ErrNonceGap))
  else
    let nonceGap := bool_decide (nextNonce ms < smNonce m) in
    match msgs ms !! smNonce m with
    | Some exms =>
        if strict && nonceGap then Some (ms, inr (Wraps ErrNonceGap))
        else match checkReplace exms m with
             | Some err => Some (ms, inr err)
             | None =>
                 Some (mkMsgSet (<[smNonce m := m]> (msgs ms)) next
                         (requiredFunds ms - RequiredFunds exms + RequiredFunds m), inl false)
             end
    | None =>
        if strict && bool_decide (maxPending ≤ Z.of_nat (size (msgs ms)))
        then Some (ms, inr (Wraps ErrTooManyPendingMessages))
        else Some (mkMsgSet (<[smNonce m := m]> (msgs ms)) next (requiredFunds ms + RequiredFunds m), inl true)
    end.

Definition rm (ms : msgSet) (nonce : Z) (applied : bool) : option msgSet :=
  match msgs ms !! nonce with
  | None =>
      if applied && bool_decide (nextNonce ms ≤ nonce) then
        next ← skipPending (msgs ms) (wrapUint64 (nonce + 1));
        Some (mkMsgSet (msgs ms) next (requiredFunds ms))
      else Some ms
  | Some m =>
      let next :=
        if applied then (if decide (nextNonce ms ≤ nonce) then wrapUint64 (nonce + 1) else nextNonce ms)
        else (if decide (nonce < nextNonce ms) then nonce else nextNonce ms) in
      Some (mkMsgSet (delete nonce (msgs ms)) next (requiredFunds ms - RequiredFunds m))
  end.
End add.

Definition getRequiredFunds (ms : msgSet) (nonce : Z) : Z :=
  match msgs ms !! nonce with
  | Some m => requiredFunds ms - RequiredFunds m
  | None => requiredFunds ms
  end.

(** The map is read in any order and then sorted by nonce. *)
Definition nonceLess (a b : SignedMessage) : bool := bool_decide (smNonce a < smNonce b).
Definition toSlice (ms : msgSet) : list SignedMessage := sortBy nonceLess (map snd (map_to_list (msgs ms))).

(** * What the pending messages of a sender keep

    The funds are the sum over the messages.  While the chain applies the sender's messages in the
    order of their nonces, takes them back in a reorganisation, and messages are added and
    pruned in between, the next nonce is the first nonce from the sender's state that is not
    pending. *)

(** ** Sums over messages *)

Definition fundsOf (m : gmap Z SignedMessage) : Z := map_fold (λ _ x acc, RequiredFunds x + acc) 0 m.

Lemma fundsOf_insert m n x : m !! n = None → fundsOf (<[n := x]> m) = RequiredFunds x + fundsOf m.
Proof. intros Hn. unfold fundsOf. rewrite map_fold_insert_L; [done| |done]. intros. lia. Qed.

Lemma fundsOf_delete m n x : m !! n = Some x → fundsOf (delete n m) = fundsOf m - RequiredFunds x.
Proof.
  intros Hn. rewrite <- (insert_delete_id m n x Hn) at 2. rewrite fundsOf_insert; [lia|apply lookup_delete_eq].
Qed.

Lemma fundsOf_replace m n x y : m !! n = Some x → fundsOf (<[n := y]> m) = fundsOf m - RequiredFunds x + RequiredFunds y.
Proof.
  intros Hn. rewrite <- insert_delete_eq, fundsOf_insert, (fundsOf_delete m n x) by (done || apply lookup_delete_eq). lia.
Qed.

(** ** The first free nonce *)

Definition firstFree (s : Z) (m : gmap Z SignedMessage) (n : Z) : Prop :=
  s ≤ n ∧ m !! n = None ∧ ∀ k, s ≤ k < n → is_Some (m !! k).

(** The largest nonces are left out, because the nonces up to the allowed gap above them would
    wrap around. *)
Definition nonceOk (n : Z) : Prop := 0 ≤ n < 2 ^ 64 - 5.

Definition keysOk (s : Z) (m : gmap Z SignedMessage) : Prop :=
  ∀ n x, m !! n = Some x → smNonce x = n ∧ s ≤ n ∧ nonceOk n.

Lemma wrapUint64_succ n : nonceOk n → wrapUint64 (n + 1) = n + 1.
Proof. unfold nonceOk, wrapUint64. intros. rewrite Z.mod_small; lia. Qed.

Section keys.
Variables (s : Z) (m : gmap Z SignedMessage).
Hypothesis Hm : keysOk s m.

Lemma key_nonceOk n : is_Some (m !! n) → nonceOk n.
Proof. intros [x Hx]. by apply (Hm n x). Qed.

Lemma fillGaps_run fuel n :
  match fillGaps fuel m n with
  | Some k => firstFree n m k
  | None => ∀ i, 0 ≤ i < Z.of_nat fuel → is_Some (m !! (n + i))
  end.
Proof using Hm.
  revert n. induction fuel as [|fuel IH]; intros n; simpl; [intros; lia|].
  case_decide as Hn; [|split_and!; [lia|by apply eq_None_not_Some|intros; lia]].
  rewrite (wrapUint64_succ n) by by apply key_nonceOk. specialize (IH (n + 1)). destruct fillGaps as [k|].
  - destruct IH as (?&?&IH). split_and!; [lia|done|]. intros j Hj.
    destruct (decide (j = n)) as [->|]; [done|]. apply IH. lia.
  - intros i Hi. destruct (decide (i = 0)) as [->|]; [by rewrite Z.add_0_r|].
    replace (n + i) with (n + 1 + (i - 1)) by lia. apply IH. lia.
Qed.

(** The loop over pending nonces ends at the first free one. *)
Lemma skipPending_spec n : ∃ k, skipPending m n = Some k ∧ firstFree n m k.
Proof using Hm.
  unfold skipPending. pose proof (fillGaps_run (S (size m)) n) as H.
  destruct fillGaps as [k|]; [eauto|exfalso].
  assert (list_to_set (seqZ n (Z.of_nat (S (size m)))) ⊆ dom m) as Hs.
  { intros k Hk. rewrite elem_of_list_to_set, elem_of_seqZ in Hk. apply elem_of_dom.
    replace k with (n + (k - n)) by lia. apply H. lia. }
  apply subseteq_size in Hs. rewrite size_list_to_set in Hs by apply NoDup_seqZ.
  rewrite size_dom, length_seqZ in Hs. lia.
Qed.
End keys.

Lemma firstFree_unique s m n k : firstFree s m n → firstFree s m k → n = k.
Proof.
  intros (?&Hn&Fn) (?&Hk&Fk). destruct (Z.lt_trichotomy n k) as [?|[?|?]]; [|done|].
  - destruct (Fk n) as [? E]; [lia|]. congruence.
  - destruct (Fn k) as [? E]; [lia|]. congruence.
Qed.

(** ** The invariant *)

Definition setOk (s : Z) (ms : msgSet) : Prop :=
  0 ≤ s ≤ 2 ^ 64 - 5 ∧ requiredFunds ms = fundsOf (msgs ms) ∧ keysOk s (msgs ms) ∧ firstFree s (msgs ms) (nextNonce ms).

Lemma newMsgSet_ok s : 0 ≤ s ≤ 2 ^ 64 - 5 → setOk s (newMsgSet s).
Proof.
  intros Hs. split_and!; [lia..|done| |].
  - intros n x Hx. simpl in Hx. by rewrite lookup_empty in Hx.
  - split_and!; [simpl; lia|apply lookup_empty|simpl; intros; lia].
Qed.

Lemma keysOk_insert s m x : keysOk s m → s ≤ smNonce x → nonceOk (smNonce x) → keysOk s (<[smNonce x := x]> m).
Proof.
  intros Hm Hs Hx n y. destruct (decide (n = smNonce x)) as [->|Hn].
  - rewrite lookup_insert_eq. by intros [= <-].
  - rewrite lookup_insert_ne by done. apply Hm.
Qed.

Lemma keysOk_delete s m n : keysOk s m → keysOk s (delete n m).
Proof. intros Hm k x [_ Hk]%lookup_delete_Some. by apply Hm. Qed.

Lemma firstFree_insert s m n k x : firstFree s m n → k ≠ n → firstFree s (<[k := x]> m) n.
Proof.
  intros (?&Hn&F) Hk. split_and!; [done|by rewrite lookup_insert_ne|]. intros j Hj.
  apply lookup_insert_is_Some'. right. by apply F.
Qed.

Lemma firstFree_fill s m n k x : firstFree s m n → firstFree (n + 1) m k → firstFree s (<[n := x]> m) k.
Proof.
  intros (?&_&F) (?&Hk&G). split_and!; [lia|rewrite lookup_insert_ne by lia; done|]. intros j Hj.
  apply lookup_insert_is_Some'. destruct (Z.lt_trichotomy j n) as [?|[->|?]]; [|by left|].
  - right. apply F. lia.
  - right. apply G. lia.
Qed.

Lemma firstFree_bound s m n : 0 ≤ s ≤ 2 ^ 64 - 5 → keysOk s m → firstFree s m n → 0 ≤ n ≤ 2 ^ 64 - 5.
Proof.
  intros Hs Hm (?&_&F). split; [lia|]. destruct (decide (n = s)) as [->|Hne]; [lia|].
  destruct (F (n - 1)) as [x Hx]; [lia|]. apply Hm in Hx as (_&_&?). unfold nonceOk in *. lia.
Qed.

Section ops.
Context `{MessageCodec}.

(** What a message must pay and keep to be added with the given checks. *)
Definition admissible (ms : msgSet) (m : SignedMessage) (strict untrusted : bool) : Prop :=
  match msgs ms !! smNonce m with
  | Some ex => SignedCid m ≠ SignedCid ex ∧ smGasPremium ex + smGasPremium ex / 4 + 1 ≤ smGasPremium m
  | None =>
      strict = true → Z.of_nat (size (msgs ms)) < (if untrusted then 10 else 1000)
  end ∧
  (strict = true → smNonce m ≤ nextNonce ms ∨
     (smNonce m ≤ nextNonce ms + (if untrusted then 0 else 4) ∧ msgs ms !! smNonce m = None)).

Lemma ComputeMinRBF_quarter p : ComputeMinRBF p = p + p / 4 + 1.
Proof.
  unfold ComputeMinRBF, rbfNum, RbfDenom.
  replace 256 with (4 * 64) by done. rewrite Z.div_mul_cancel_r; lia.
Qed.

Lemma wrapUint64_gap (untrusted : bool) n : 0 ≤ n ≤ 2 ^ 64 - 5 →
  wrapUint64 (n + if untrusted then 0 else MaxNonceGap) = n + if untrusted then 0 else 4.
Proof. unfold wrapUint64, MaxNonceGap. intros. rewrite Z.mod_small; destruct untrusted; lia. Qed.

(** The nonce that [add] goes on to. *)
Lemma add_next s ms m : setOk s ms → s ≤ smNonce m → nonceOk (smNonce m) →
  ∃ next, (if decide (smNonce m = nextNonce ms) then skipPending (msgs ms) (wrapUint64 (nextNonce ms + 1))
           else Some (nextNonce ms)) = Some next ∧
    firstFree s (<[smNonce m := m]> (msgs ms)) next.
Proof.
  intros (Hs&Hf&Hk&Hn) Hsm Hm. case_decide as E; [|by eauto using firstFree_insert].
  rewrite <- E, (wrapUint64_succ _ Hm). destruct (skipPending_spec s (msgs ms) Hk (smNonce m + 1)) as (k&->&F).
  exists k. split; [done|]. apply firstFree_fill; [by rewrite E|done].
Qed.

(** [add] returns; it stores the message and replaces one of the same nonce when the message is
    admissible, and otherwise changes nothing. *)
Lemma add_run s ms m strict untrusted : setOk s ms → s ≤ smNonce m → nonceOk (smNonce m) →
  ∃ ms' r, add ms m strict untrusted = Some (ms', r) ∧ setOk s ms' ∧
    match r with
    | inl incr => admissible ms m strict untrusted ∧ msgs ms' = <[smNonce m := m]> (msgs ms) ∧
                  incr = bool_decide (msgs ms !! smNonce m = None)
    | inr _ => ms' = ms ∧ ¬ admissible ms m strict untrusted
    end.
Proof.
  intros Hok Hsm Hm. destruct (add_next s ms m Hok Hsm Hm) as (next&E&Hnext).
  pose proof Hok as (Hs&Hf&Hk&Hn). pose proof (firstFree_bound _ _ _ Hs Hk Hn) as Hb.
  unfold add, admissible. rewrite E; cbn [mbind option_bind]. rewrite (wrapUint64_gap untrusted) by done. clear E.
  assert (∀ funds, funds = fundsOf (<[smNonce m := m]> (msgs ms)) →
            setOk s (mkMsgSet (<[smNonce m := m]> (msgs ms)) next funds)) as Hok'.
  { intros funds ->. split_and!; [lia..|done|by apply keysOk_insert|done]. }
  destruct (decide (_ ∧ _ ∧ _)) as [Hgap|Hgap].
  { exists ms, (inr (Wraps ErrNonceGap)). split_and!; [done..|]. intros [_ Hx]. destruct Hgap as (?&->&?).
    destruct Hx; [done|destruct untrusted; lia..]. }
  destruct (msgs ms !! smNonce m) as [ex|] eqn:Ex.
  - destruct (strict && bool_decide (nextNonce ms < smNonce m)) eqn:Eg.
    { exists ms, (inr (Wraps ErrNonceGap)). apply andb_prop in Eg as [-> Eg%bool_decide_eq_true].
      split_and!; [done..|]. intros [_ Hx]. destruct Hx as [|[_ ?]]; [done|lia|done]. }
    unfold checkReplace. rewrite ComputeMinRBF_quarter.
    destruct (decide (SignedCid m ≠ SignedCid ex)) as [Hc|Hc]; [destruct (decide (_ ≤ smGasPremium m)) as [Hp|Hp]|];
      (eexists _, _; split; [reflexivity|]).
    + split; [apply Hok'; by rewrite (fundsOf_replace _ _ ex), Hf|].
      split; [split; [done|]|by rewrite bool_decide_false].
      intros ->. left. apply andb_false_iff in Eg as [?|Eg%bool_decide_eq_false]; [done|lia].
    + split_and!; [done..|]. intros [[_ ?] _]. lia.
    + split_and!; [done..|]. by intros [[? _] _].
  - assert (strict && bool_decide ((if untrusted then MaxUntrustedActorPendingMessages else MaxActorPendingMessages)
              ≤ Z.of_nat (size (msgs ms))) = true ↔ ¬ (strict = true → Z.of_nat (size (msgs ms)) < if untrusted then 10 else 1000)) as Heq.
    { rewrite andb_true_iff, bool_decide_eq_true. unfold MaxUntrustedActorPendingMessages, MaxActorPendingMessages.
      destruct strict, untrusted; lia. }
    destruct (strict && bool_decide _) eqn:Eg; (eexists _, _; split; [reflexivity|]).
    { split_and!; [done..|]. intros [Hx _]. by apply Heq. }
    split; [apply Hok'; rewrite fundsOf_insert by done; lia|].
    split; [split|by rewrite bool_decide_true]; [apply dec_stable; by rewrite <- Heq|].
    intros ->. right. split; [|done]. destruct (decide (smNonce m = nextNonce ms)); destruct untrusted; lia.
Qed.

(** ** Removal *)

Lemma rm_prune s ms n : setOk s ms →
  ∃ ms', rm ms n false = Some ms' ∧ setOk s ms' ∧ msgs ms' = delete n (msgs ms).
Proof.
  intros Hok. pose proof Hok as (Hs&Hf&Hk&Hn). unfold rm. destruct (msgs ms !! n) as [x|] eqn:Ex.
  - eexists. split; [reflexivity|]. split; [|done]. split_and!; simpl; [lia..| |by apply keysOk_delete|].
    + by rewrite (fundsOf_delete _ _ x), Hf.
    + destruct Hn as (?&?&F). destruct (Hk _ _ Ex) as (_&?&_). case_decide as Hlt.
      * split_and!; [lia|apply lookup_delete_eq|]. intros k Hk'. rewrite lookup_delete_ne by lia. apply F. lia.
      * split_and!; [lia|by rewrite lookup_delete_None; right|]. intros k Hk'. rewrite lookup_delete_ne by lia. by apply F.
  - exists ms. split_and!; [done..|]. by rewrite delete_id.
Qed.

Lemma rm_apply s ms : setOk s ms → nonceOk s →
  ∃ ms', rm ms s true = Some ms' ∧ setOk (s + 1) ms' ∧ msgs ms' = delete s (msgs ms).
Proof.
  intros Hok Hsn. pose proof Hok as (Hs&Hf&Hk&Hn). unfold rm.
  assert (keysOk (s + 1) (delete s (msgs ms))) as Hk'.
  { intros n x [? Hx]%lookup_delete_Some. destruct (Hk n x Hx) as (?&?&?). split_and!; [done|lia|done]. }
  destruct (msgs ms !! s) as [x|] eqn:Ex.
  - assert (s < nextNonce ms) as Hlt.
    { destruct Hn as (?&Hn&_). destruct (decide (s = nextNonce ms)) as [E|]; [|lia]. rewrite <- E in Hn. congruence. }
    eexists. split; [reflexivity|]. split; [|done]. rewrite decide_False by lia.
    split_and!; simpl; [unfold nonceOk in *; lia..|by rewrite (fundsOf_delete _ _ x), Hf|done|].
    destruct Hn as (?&?&F). split_and!; [lia|by rewrite lookup_delete_None; right|].
    intros k ?. rewrite lookup_delete_ne by lia. apply F. lia.
  - assert (nextNonce ms = s) as E.
    { apply (firstFree_unique s (msgs ms)); [done|]. split_and!; [lia|done|intros; lia]. }
    rewrite bool_decide_true by lia. cbn [andb]. rewrite (wrapUint64_succ s Hsn).
    destruct (skipPending_spec s (msgs ms) Hk (s + 1)) as (k&->&F). eexists. split; [reflexivity|].
    rewrite delete_id in * by done. split; [|done]. split_and!; simpl; [unfold nonceOk in *; lia..|done|done|done].
Qed.

(** ** Messages that come back in a reorganisation *)

(** The additions of [HeadChange], which are not strict. *)
Fixpoint readd (ms : msgSet) (l : list SignedMessage) : option msgSet :=
  match l with
  | [] => Some ms
  | m :: l' => r ← add ms m false false; readd r.1 l'
  end.

Lemma add_below ms m s : smNonce m < s → firstFree s (msgs ms) (nextNonce ms) → msgs ms !! smNonce m = None →
  add ms m false false
  = Some (mkMsgSet (<[smNonce m := m]> (msgs ms)) (nextNonce ms) (requiredFunds ms + RequiredFunds m), inl true).
Proof.
  intros Hlt (?&_) Hm. unfold add. rewrite decide_False by lia. cbn [mbind option_bind].
  rewrite decide_False by (intros (_&?&_); done). by rewrite Hm.
Qed.

Lemma readd_run s' s ms l :
  requiredFunds ms = fundsOf (msgs ms) → keysOk s' (msgs ms) → firstFree s (msgs ms) (nextNonce ms) →
  NoDup (map smNonce l) → Forall (λ m, s' ≤ smNonce m < s ∧ nonceOk (smNonce m) ∧ msgs ms !! smNonce m = None) l →
  ∃ ms', readd ms l = Some ms' ∧ requiredFunds ms' = fundsOf (msgs ms') ∧ keysOk s' (msgs ms') ∧
    firstFree s (msgs ms') (nextNonce ms') ∧ (∀ n, is_Some (msgs ms !! n) ∨ n ∈ map smNonce l → is_Some (msgs ms' !! n)).
Proof.
  revert ms. induction l as [|m l IH]; intros ms Hf Hk Hn Hd Hl.
  { exists ms. split_and!; [done..|]. intros n [?|?%elem_of_nil]; done. }
  simpl in Hd. apply NoDup_cons in Hd as [Hm Hd]. apply Forall_cons in Hl as [((?&?)&?&Hnone) Hl].
  simpl. rewrite (add_below ms m s) by done. cbn [mbind option_bind fst].
  destruct (IH (mkMsgSet (<[smNonce m := m]> (msgs ms)) (nextNonce ms) (requiredFunds ms + RequiredFunds m)))
    as (ms'&->&?&?&?&Hall); simpl; [|by apply keysOk_insert| |done| |].
  - rewrite fundsOf_insert by done. lia.
  - apply firstFree_insert; [done|]. destruct Hn. lia.
  - rewrite Forall_forall in *. intros y Hy. destruct (Hl y Hy) as (?&?&?). do 2 (split; [done|]).
    rewrite lookup_insert_ne; [done|]. intros E. apply Hm. rewrite E. by apply list_elem_of_fmap_2.
  - exists ms'. split_and!; [done..|]. intros n Hin. apply Hall. simpl. rewrite lookup_insert_is_Some'.
    destruct Hin as [?|[->|?]%elem_of_cons]; auto.
Qed.

Lemma readd_ok s' s ms l : setOk s ms → 0 ≤ s' ≤ s → map smNonce l ≡ₚ seqZ s' (s - s') →
  ∃ ms', readd ms l = Some ms' ∧ setOk s' ms'.
Proof.
  intros (Hs&Hf&Hk&Hn) Hs' Hl.
  assert (∀ m, m ∈ l → s' ≤ smNonce m < s) as Hrange.
  { intros m Hm. assert (smNonce m ∈ seqZ s' (s - s')) as ?%elem_of_seqZ by (rewrite <- Hl; by apply list_elem_of_fmap_2).
    lia. }
  destruct (readd_run s' s ms l) as (ms'&E&Hf'&Hk'&Hn'&Hall).
  - done.
  - intros n x Hx. destruct (Hk n x Hx) as (?&?&?). split_and!; [done|lia|done].
  - done.
  - rewrite Hl. apply NoDup_seqZ.
  - apply Forall_forall. intros m Hm%Hrange. split_and!; [lia..|unfold nonceOk; lia|].
    destruct (msgs ms !! smNonce m) as [x|] eqn:Ex; [|done]. apply Hk in Ex. lia.
  - exists ms'. split; [done|]. destruct Hn' as (?&?&F). split_and!; [lia..|done|done|]. split_and!; [lia|done|].
    intros k Hk''. destruct (decide (k < s)); [|apply F; lia]. apply Hall. right. rewrite Hl. apply elem_of_seqZ. lia.
Qed.

(** ** Histories of a sender *)

(** A state is the nonce of the sender on the chain and the pending messages. *)
Inductive setStep : Z * msgSet → Z * msgSet → Prop :=
| step_add s ms m strict untrusted ms' r :
    s ≤ smNonce m → nonceOk (smNonce m) → add ms m strict untrusted = Some (ms', r) → setStep (s, ms) (s, ms')
| step_prune s ms n ms' : rm ms n false = Some ms' → setStep (s, ms) (s, ms')
| step_apply s ms ms' : nonceOk s → rm ms s true = Some ms' → setStep (s, ms) (s + 1, ms')
| step_revert s s' ms l ms' :
    0 ≤ s' ≤ s → map smNonce l ≡ₚ seqZ s' (s - s') → readd ms l = Some ms' → setStep (s, ms) (s', ms').

Lemma setStep_ok st st' : setStep st st' → setOk st.1 st.2 → setOk st'.1 st'.2.
Proof.
  destruct 1 as [s ms m strict untrusted ms' r ?? E|s ms n ms' E|s ms ms' ? E|s s' ms l ms' ?? E]; simpl; intros Hok.
  - destruct (add_run s ms m strict untrusted) as (?&?&E'&?&_); [done..|]. rewrite E in E'. by simplify_eq.
  - destruct (rm_prune s ms n) as (?&E'&?&_); [done..|]. rewrite E in E'. by simplify_eq.
  - destruct (rm_apply s ms) as (?&E'&?&_); [done..|]. rewrite E in E'. by simplify_eq.
  - destruct (readd_ok s' s ms l) as (?&E'&?); [done..|]. rewrite E in E'. by simplify_eq.
Qed.

Lemma reachable_ok s0 st : 0 ≤ s0 ≤ 2 ^ 64 - 5 → rtc setStep (s0, newMsgSet s0) st → setOk st.1 st.2.
Proof.
  intros Hs. assert (∀ a b, rtc setStep a b → setOk a.1 a.2 → setOk b.1 b.2) as Hrtc.
  { induction 1 as [|a b c Hab _ IH]; [done|]. intros Ha. by apply IH, (setStep_ok a). }
  intros Hr. apply (Hrtc _ _ Hr). by apply newMsgSet_ok.
Qed.

(** For a sender whose messages are added, pruned, applied by the chain in the order of their
    nonces and taken back completely in reorganisations ([applied_above_gap_leaves_pending_next] shows what happens
    otherwise), the next nonce of the set is always the first
    nonce, counted from the one on the chain, that is not pending; the required funds are the sum
    over the pending messages.  A further message is added exactly when it is admissible: it pays a
    quarter more than a message that it replaces, and under strict checks keeps the limits of gap and number; what it
    changes is its own entry. *)
Theorem nextNonce_is_first_free s0 s ms : 0 ≤ s0 ≤ 2 ^ 64 - 5 → rtc setStep (s0, newMsgSet s0) (s, ms) →
  firstFree s (msgs ms) (nextNonce ms) ∧ requiredFunds ms = fundsOf (msgs ms) ∧
  ∀ m strict untrusted, s ≤ smNonce m → nonceOk (smNonce m) →
    ∃ ms' r, add ms m strict untrusted = Some (ms', r) ∧
      match r with
      | inl incr => admissible ms m strict untrusted ∧ msgs ms' = <[smNonce m := m]> (msgs ms) ∧
                    incr = bool_decide (msgs ms !! smNonce m = None)
      | inr _ => ms' = ms ∧ ¬ admissible ms m strict untrusted
      end.
Proof.
  intros Hs Hr. pose proof (reachable_ok s0 (s, ms) Hs Hr) as Hok. pose proof Hok as (_&Hf&_&Hn).
  split_and!; [done..|]. intros m strict untrusted Hm Hm'.
  destruct (add_run s ms m strict untrusted Hok Hm Hm') as (ms'&r&?&_&?). eauto.
Qed.
End ops.

(** ** Examples *)

(** A codec for the examples: a message is told apart by its sender, nonce and premium. *)
Definition testCodec : MessageCodec := {|
  Serialize m := smFrom m +:+ "/" +:+ Itoa (smNonce m) +:+ "/" +:+ Itoa (smGasPremium m) +:+ "/signed";
  SerializeMessage m := smFrom m +:+ "/" +:+ Itoa (smNonce m) +:+ "/" +:+ Itoa (smGasPremium m);
  SerializeMessage_unsigned m sig := eq_refl;
  Sum s := s
|}.

Definition testMsg (from : Address) (nonce gasLimit premium : Z) : SignedMessage :=
  mkSignedMessage 0 "t01" from nonce 0 gasLimit 1000 premium 0 "" (mkSignature SigTypeSecp256k1 "").

Definition testSet (l : list SignedMessage) (next : Z) : msgSet :=
  mkMsgSet (list_to_map (map (λ m, (smNonce m, m)) l)) next (fundsOf (list_to_map (map (λ m, (smNonce m, m)) l))).

(** One addition of an example, and the end of a history. *)
Ltac test_add s n :=
  eapply rtc_l; [eapply (step_add s _ (testMsg "a" n 10 100) true false);
                   [simpl; lia|unfold nonceOk; simpl; lia|vm_compute; reflexivity]|].
Ltac same_state :=
  match goal with |- rtc _ ?a ?b => replace a with b by (vm_compute; reflexivity) end; apply rtc_refl.

(** A sender with nonce 5 on the chain adds 5, 7 and 6, is applied once and reverted once. *)
Lemma nextNonce_is_first_free_witness :
  firstFree 5 (msgs (testSet (map (λ n, testMsg "a" n 10 100) [5; 6; 7]) 8)) 8.
Proof.
  pose (H := testCodec).
  refine (proj1 (nextNonce_is_first_free 5 5 (testSet (map (λ n, testMsg "a" n 10 100) [5; 6; 7]) 8) _ _)); [lia|].
  test_add 5 5.
  test_add 5 7.
  test_add 5 6.
  eapply rtc_l; [eapply step_apply; [unfold nonceOk; lia|vm_compute; reflexivity]|].
  eapply rtc_l; [eapply (step_revert _ 5 _ [testMsg "a" 5 10 100]); [lia|done|vm_compute; reflexivity]|].
  same_state.
Defined.

(** When a message above a gap is applied although the gap was never seen, the set goes on with
    the nonce after it, also when that one is pending. *)
Lemma applied_above_gap_leaves_pending_next :
  ∃ ms ms', rtc (setStep (H := testCodec)) (4, newMsgSet 4) (4, ms) ∧ rm ms 5 true = Some ms' ∧ is_Some (msgs ms' !! nextNonce ms').
Proof.
  exists (testSet (map (λ n, testMsg "a" n 10 100) [5; 6]) 4), (testSet (map (λ n, testMsg "a" n 10 100) [6]) 6).
  split_and!.
  - test_add 4 5.
    test_add 4 6.
    same_state.
  - vm_compute. reflexivity.
  - vm_compute. eauto.
Qed.
