(* ===== verification/MsgChains.v ===== *)
(** * Chains of pending messages (chain/messagepool/selection.go, chain/vm/gas.go, gas_v0.go)

    For a block, the messages of a sender are cut into chains such that the gas performance (the
    reward for a block full of such messages) falls from chain to chain.  A chain depends on
    the chains of its sender before it. *)

From Stdlib Require Import SpecFloat Sorted.
From coqutil Require Import Datatypes.RecordSetters.
From stdpp Require Import strings numbers base gmap fin_maps sets list.
From S2P Require Import Prelude GoStrings GoSort GoFloat FileTypes TipSets GasFees ProofLog SealTasks MsgSet.
Import DoubleBraceUpdate.
Local Open Scope Z_scope.

(** ** The price of a message on the chain *)

Record GasCharge := mkGasCharge { ComputeGas : Z; StorageGas : Z }.

(** [GasCharge.Total] *)
Definition Total (g : GasCharge) : Z := wrapInt64 (ComputeGas g + StorageGas g).

(** The fields of [pricelistV0] that the price of a message uses. *)
Record pricelistV0 := mkPricelist {
  storageGasMulti : Z;
  onChainMessageComputeBase : Z;
  onChainMessageStorageBase : Z;
  onChainMessageStoragePerByte : Z
}.

Definition OnChainMessage (pl : pricelistV0) (msgSize : Z) : GasCharge :=
  mkGasCharge (onChainMessageComputeBase pl)
    (wrapInt64 (wrapInt64 (onChainMessageStorageBase pl + wrapInt64 (onChainMessageStoragePerByte pl * msgSize)) *
                storageGasMulti pl)).

(** [Prices]: from the first epoch, and from the Calico upgrade.  An upgrade at epoch 0 takes the
    place of the first entry. *)
Definition firstPrices (UpgradeCalicoHeight : Z) : pricelistV0 :=
  mkPricelist (if decide (UpgradeCalicoHeight = 0) then 1300 else 1000) 38863 36 1.
Definition Prices (UpgradeCalicoHeight : Z) : list (Z * pricelistV0) :=
  [(0, firstPrices UpgradeCalicoHeight); (UpgradeCalicoHeight, mkPricelist 1300 38863 36 1)].

(** The loop over the prices. *)
Definition betterPrice (epoch : Z) (best p : Z * pricelistV0) : Z * pricelistV0 :=
  if decide (best.1 < p.1 ∧ p.1 ≤ epoch) then p else best.

Definition PricelistByEpoch (UpgradeCalicoHeight epoch : Z) : pricelistV0 :=
  (foldl (betterPrice epoch) (0, firstPrices UpgradeCalicoHeight) (Prices UpgradeCalicoHeight)).2.

(** ** Reward and performance *)

Definition BlockMessageLimit : Z := 10000.
Definition MinGas : Z := 1298450.

Definition getGasReward (m : SignedMessage) (baseFee : Z) : Z :=
  let over := smGasFeeCap m - baseFee in
  let maxPremium := if decide (smGasPremium m < over) then smGasPremium m else over in
  let gasReward := maxPremium * wrapUint64 (smGasLimit m) in
  if decide (gasReward < 0) then gasReward * 3 else gasReward.

(** For a gas limit that is not 0. *)
Definition gasPerfOf (gasReward gasLimit : Z) : spec_float := ratFloat64 (gasReward * BlockGasLimit) gasLimit.

(** [big.NewRat(1, gasLimit)] panics on 0. *)
Definition getGasPerf (gasReward gasLimit : Z) : outcome spec_float :=
  if decide (gasLimit = 0) then Crash else Ret (gasPerfOf gasReward gasLimit).

(** ** Chains *)

(** [next] and [prev] are the places of chains in a list that holds all of them. *)
Record msgChain := mkChain {
  cmsgs : list SignedMessage;
  gasReward : Z;
  cgasLimit : Z;
  gasPerf : spec_float;
  effPerf : spec_float;
  bp : spec_float;
  parentOffset : spec_float;
  valid : bool;
  merged : bool;
  cnext : option nat;
  cprev : option nat;
  csigType : SigType
}.

(** [msgChain.Before] *)
Definition Before (mc other : msgChain) : bool :=
  SFltb (gasPerf other) (gasPerf mc) ||
  (SFeqb (gasPerf mc) (gasPerf other) && bool_decide (gasReward other < gasReward mc)).

Record Actor := mkActor { actNonce : Z; actBalance : Z }.

Section chains.
Context `{MessageCodec}.
(** The height of the Calico upgrade differs from network to network. *)
Variable UpgradeCalicoHeight : Z.

(** The gas that the chain takes for the message alone. *)
Definition minGasOf (epoch : Z) (m : SignedMessage) : Z :=
  Total (OnChainMessage (PricelistByEpoch UpgradeCalicoHeight epoch) (ChainLength m)).

(** The loop that checks the sorted messages: how many were skipped, where it stopped, and the
    rewards of the others. *)
Fixpoint scanMsgs (baseFee epoch : Z) (l : list SignedMessage) (curNonce balance gasLimit : Z) (skip i : nat)
    (rewards : list Z) : nat * nat * list Z :=
  match l with
  | [] => (skip, i, rewards)
  | m :: l' =>
      if decide (smNonce m < curNonce)
      then scanMsgs baseFee epoch l' curNonce balance gasLimit (S skip) (S i) rewards
      else if decide (smNonce m ≠ curNonce) then (skip, i, rewards)
      else if decide (smGasLimit m < minGasOf epoch m) then (skip, i, rewards)
      else
        let gasLimit' := wrapInt64 (gasLimit + smGasLimit m) in
        if decide (BlockGasLimit < gasLimit') then (skip, i, rewards)
        else if decide (balance < RequiredFunds m) then (skip, i, rewards)
        else scanMsgs baseFee epoch l' (wrapUint64 (curNonce + 1)) (balance - RequiredFunds m - smValue m) gasLimit'
               skip (S i) (rewards ++ [getGasReward m baseFee])
  end.

(** The closure [newChain]. *)
Definition newChain (m : SignedMessage) (reward : Z) : outcome msgChain :=
  perf ← getGasPerf reward (smGasLimit m);
  Ret (mkChain [m] reward (smGasLimit m) perf fzero fzero fzero true false None None (sigType (smSignature m))).

(** The loop that puts messages on the current chain while the performance does not fall. *)
Fixpoint cutChains (cur : option msgChain) (ms : list SignedMessage) (rewards : list Z) : outcome (list msgChain) :=
  match ms, rewards with
  | [], _ => Ret (match cur with Some c => [c] | None => [] end)
  | _ :: _, [] => Crash
  | m :: ms', r :: rewards' =>
      match cur with
      | None => c ← newChain m r; cutChains (Some c) ms' rewards'
      | Some c =>
          let reward := gasReward c + r in
          let limit := wrapInt64 (cgasLimit c + smGasLimit m) in
          perf ← getGasPerf reward limit;
          if SFltb perf (gasPerf c) then
            d ← newChain m r; rest ← cutChains (Some d) ms' rewards'; Ret (c :: rest)
          else
            cutChains (Some (c {{ cmsgs := cmsgs c ++ [m]; gasReward := reward; cgasLimit := limit; gasPerf := perf }}))
              ms' rewards'
      end
  end.

(** [chains[i]] is put behind [chains[i-1]]. *)
Definition mergeChains (c d : msgChain) : outcome msgChain :=
  let reward := gasReward c + gasReward d in
  let limit := wrapInt64 (cgasLimit c + cgasLimit d) in
  perf ← getGasPerf reward limit;
  Ret (c {{ cmsgs := cmsgs c ++ cmsgs d; gasReward := reward; cgasLimit := limit; gasPerf := perf }}).

(** One pass from the last chain to the first, with the chains that were put behind another one dropped. *)
Fixpoint mergePass (l : list msgChain) : outcome (list msgChain) :=
  match l with
  | [] => Ret []
  | c :: l' =>
      rest ← mergePass l';
      match rest with
      | [] => Ret [c]
      | d :: rest' => if SFleb (gasPerf c) (gasPerf d) then e ← mergeChains c d; Ret (e :: rest') else Ret (c :: rest)
      end
  end.

(** Passes until nothing is merged. *)
Fixpoint mergeLoop (fuel : nat) (l : list msgChain) : option (outcome (list msgChain)) :=
  match fuel with
  | O => None
  | S fuel' =>
      match mergePass l with
      | Ret l' => if decide (length l' = length l) then Some (Ret l') else mergeLoop fuel' l'
      | Fail e => Some (Fail e)
      | Crash => Some Crash
      end
  end.

(** The chains are allocated behind [base] others. *)
Definition linkChains (base : nat) (l : list msgChain) : list msgChain :=
  imap (λ i c, c {{ cnext := if decide (S i < length l)%nat then Some (base + S i)%nat else None;
                    cprev := if decide (0 < i)%nat then Some (base + (i - 1))%nat else None }}) l.

Variable GetActorAfter : Address → TipSet → outcome Actor.

(** The messages that can go into a block and the rewards. *)
Definition candidates (a : Actor) (mset : gmap Z SignedMessage) (baseFee epoch : Z) : list SignedMessage * list Z :=
  let sorted := sortBy nonceLess (map snd (map_to_list mset)) in
  let '(skip, i, rewards) := scanMsgs baseFee epoch sorted (actNonce a) (actBalance a) 0 0 0 [] in
  if decide (skip < i)%nat then (take (Z.to_nat BlockMessageLimit) (take (i - skip) (drop skip sorted)), rewards)
  else ([], []).

(** The outer [option] is a loop that does not end. *)
Definition createMessageChains (base : nat) (actor : Address) (mset : gmap Z SignedMessage) (baseFee : Z)
    (ts : TipSet) : option (outcome (list msgChain)) :=
  match GetActorAfter actor ts with
  | Crash => Some Crash
  | Fail _ => Some (Ret [])
  | Ret a =>
      match candidates a mset baseFee (height ts) with
      | ([], _) => Some (Ret [])
      | (ms, rewards) =>
          match cutChains None ms rewards with
          | Ret cs =>
              match mergeLoop (S (length cs)) cs with
              | Some (Ret l) => Some (Ret (linkChains base l))
              | r => r
              end
          | Fail e => Some (Fail e)
          | Crash => Some Crash
          end
      end
  end.
End chains.
