(* ===== verification/MsgChainsSpec.v ===== *)
(** * What the chains of a sender are

    The chains hold, in order, the longest run of messages from the sender's nonce that the chain
    would accept, and their performance falls strictly. *)

From Stdlib Require Import SpecFloat Sorted.
From coqutil Require Import Datatypes.RecordSetters.
From stdpp Require Import strings numbers base gmap fin_maps sets list.
From S2P Require Import Prelude GoStrings GoSort GoFloat FileTypes TipSets GasFees ProofLog SealTasks MsgSet MsgChains.
Import DoubleBraceUpdate.
Local Open Scope Z_scope.

(** ** Filters that keep nothing or everything *)

Section filters.
Context {A : Type} (P : A → Prop) `{!∀ x, Decision (P x)}.

Lemma filter_none l : Forall (λ x, ¬ P x) l → filter P l = [].
Proof. induction 1 as [|x l Hx _ IH]; [done|]. by rewrite filter_cons_False. Qed.

Lemma filter_all l : Forall P l → filter P l = l.
Proof. induction 1 as [|x l Hx _ IH]; [done|]. rewrite filter_cons_True by done. by rewrite IH. Qed.
End filters.

(** ** Sorting by nonce *)

Lemma sortBy_nonce_sorted l : NoDup (map smNonce l) → StronglySorted (λ a b, smNonce a < smNonce b) (sortBy nonceLess l).
Proof.
  intros Hd. assert (NoDup (map smNonce (sortBy nonceLess l))) as Hd'.
  { eapply NoDup_Permutation_proper; [|exact Hd]. apply fmap_Permutation, sortBy_Permutation. }
  assert (StronglySorted (notAfter nonceLess) (sortBy nonceLess l)) as Hs.
  { apply (sortBy_sorted nonceLess (λ _, True)); [| |by apply Forall_forall]; unfold nonceLess; intros *; intros;
      rewrite ?bool_decide_eq_true, ?bool_decide_eq_false in *; lia. }
  induction Hs as [|x l' Hs IH Hx]; [constructor|]. simpl in Hd'. apply NoDup_cons in Hd' as [Hn Hd'].
  constructor; [by apply IH|]. rewrite Forall_forall in *. intros y Hy. specialize (Hx y Hy).
  unfold notAfter, nonceLess in Hx. rewrite bool_decide_eq_false in Hx.
  assert (smNonce x ≠ smNonce y) by (intros E; apply Hn; rewrite E; by apply list_elem_of_fmap_2). lia.
Qed.

(** The messages of a map, by nonce. *)
Definition byNonce (mset : gmap Z SignedMessage) : list SignedMessage :=
  sortBy nonceLess (map snd (map_to_list mset)).

Lemma elem_of_byNonce mset m : m ∈ byNonce mset ↔ ∃ n, mset !! n = Some m.
Proof.
  unfold byNonce. rewrite sortBy_Permutation, list_elem_of_fmap. split.
  - intros ([n x]&->&Hx%elem_of_map_to_list). eauto.
  - intros [n Hn%elem_of_map_to_list]. by exists (n, m).
Qed.

Lemma byNonce_sorted mset : (∀ n m, mset !! n = Some m → smNonce m = n) →
  StronglySorted (λ a b, smNonce a < smNonce b) (byNonce mset).
Proof.
  intros Hk. apply sortBy_nonce_sorted. rewrite map_map.
  rewrite (map_ext_in _ fst); [apply NoDup_fst_map_to_list|].
  intros [n m] Hi. by apply Hk, elem_of_map_to_list, list_elem_of_In.
Qed.

Section spec.
Context `{MessageCodec}.
Variable UpgradeCalicoHeight : Z.

Abbreviation minGas := (minGasOf UpgradeCalicoHeight).

(** What has been checked of every message before: [ValidForBlockInclusion] and the size. *)
Definition msgOk (m : SignedMessage) : Prop :=
  nonceOk (smNonce m) ∧ 0 ≤ smGasLimit m ≤ BlockGasLimit ∧ ChainLength m ≤ 65536.

Definition msetOk (mset : gmap Z SignedMessage) : Prop :=
  ∀ n m, mset !! n = Some m → smNonce m = n ∧ msgOk m.

Lemma PricelistByEpoch_cases epoch : ∃ mult, (mult = 1000 ∨ mult = 1300) ∧
  PricelistByEpoch UpgradeCalicoHeight epoch = mkPricelist mult 38863 36 1.
Proof.
  unfold PricelistByEpoch, Prices, firstPrices, betterPrice. simpl.
  repeat case_decide; simpl; eauto.
Qed.

Lemma minGas_eq epoch m : msgOk m → ∃ mult, (mult = 1000 ∨ mult = 1300) ∧
  minGas epoch m = 38863 + (36 + ChainLength m) * mult.
Proof.
  intros (_&_&Hl). destruct (PricelistByEpoch_cases epoch) as (mult&Hmult&E). exists mult. split; [done|].
  assert (0 ≤ ChainLength m) by (unfold ChainLength; case_decide; lia).
  unfold minGasOf, Total, OnChainMessage. rewrite E. simpl.
  rewrite Z.mul_1_l, (wrapInt64_id (ChainLength m)), (wrapInt64_id (36 + _)), (wrapInt64_id (_ * mult)), wrapInt64_id;
    [done|unfold minInt64, maxInt64; destruct Hmult as [-> | ->]; lia..].
Qed.

Lemma minGas_pos epoch m : msgOk m → 0 < minGas epoch m.
Proof.
  intros Hm. destruct (minGas_eq epoch m Hm) as (mult&?&->).
  assert (0 ≤ ChainLength m) by (unfold ChainLength; case_decide; lia). nia.
Qed.

(** The longest run of messages that are due, one after the other, as long as the gas and the
    balance last. *)
Fixpoint runFrom (epoch nonce balance gas : Z) (l : list SignedMessage) : list SignedMessage :=
  match l with
  | [] => []
  | m :: l' =>
      if decide (smNonce m = nonce ∧ minGas epoch m ≤ smGasLimit m ∧ gas + smGasLimit m ≤ BlockGasLimit ∧
                 RequiredFunds m ≤ balance)
      then m :: runFrom epoch (nonce + 1) (balance - RequiredFunds m - smValue m) (gas + smGasLimit m) l'
      else []
  end.

Lemma scan_run baseFee epoch l : ∀ cur balance gas skip i rewards,
  Forall msgOk l → StronglySorted (λ a b, smNonce a < smNonce b) l → Forall (λ m, cur ≤ smNonce m) l →
  0 ≤ gas ≤ BlockGasLimit →
  let run := runFrom epoch cur balance gas l in
  scanMsgs UpgradeCalicoHeight baseFee epoch l cur balance gas skip i rewards
  = (skip, (i + length run)%nat, rewards ++ map (λ m, getGasReward m baseFee) run).
Proof.
  induction l as [|m l IH]; intros cur balance gas skip i rewards Hl Hs Hc Hg; simpl.
  { by rewrite Nat.add_0_r, app_nil_r. }
  apply Forall_cons in Hl as [Hm Hl], Hc as [Hcm Hc]. apply StronglySorted_inv in Hs as [Hs Hlt].
  pose proof Hm as (Hn&Hgl&_). rewrite (decide_False (P := _ < cur)) by lia.
  destruct (decide (smNonce m = cur)) as [E|E]; [rewrite decide_False by (intros X; by apply X)|
    rewrite decide_True by done; rewrite decide_False by tauto; simpl; by rewrite Nat.add_0_r, app_nil_r].
  rewrite wrapInt64_id by (unfold minInt64, maxInt64, BlockGasLimit in *; lia).
  destruct (decide (smGasLimit m < _)); [rewrite decide_False by lia; simpl; by rewrite Nat.add_0_r, app_nil_r|].
  destruct (decide (BlockGasLimit < _)); [rewrite decide_False by lia; simpl; by rewrite Nat.add_0_r, app_nil_r|].
  destruct (decide (balance < _)); [rewrite decide_False by lia; simpl; by rewrite Nat.add_0_r, app_nil_r|].
  rewrite decide_True by lia. rewrite <- E, (wrapUint64_succ _ Hn). rewrite IH; [|done|done| |lia].
  - simpl. by rewrite Nat.add_succ_r, <- app_assoc.
  - eapply Forall_impl; [exact Hlt|]. simpl. intros. lia.
Qed.

(** Messages below the nonce come first and are skipped. *)
Lemma scan_skip baseFee epoch l : ∀ cur balance skip i,
  Forall msgOk l → StronglySorted (λ a b, smNonce a < smNonce b) l →
  let old := filter (λ m, smNonce m < cur) l in
  let due := filter (λ m, ¬ smNonce m < cur) l in
  let run := runFrom epoch cur balance 0 due in
  l = old ++ due ∧
  scanMsgs UpgradeCalicoHeight baseFee epoch l cur balance 0 skip i []
  = ((skip + length old)%nat, (i + length old + length run)%nat, map (λ m, getGasReward m baseFee) run).
Proof.
  induction l as [|m l IH]; intros cur balance skip i Hl Hs; simpl.
  { split; [done|]. by rewrite !Nat.add_0_r. }
  destruct (decide (smNonce m < cur)) as [Hlt|Hge].
  - apply Forall_cons in Hl as [_ Hl]. apply StronglySorted_inv in Hs as [Hs _].
    destruct (IH cur balance (S skip) (S i) Hl Hs) as [E IH'].
    rewrite (filter_cons_True _ m l) by done. rewrite (filter_cons_False (λ m, ¬ smNonce m < cur) m l) by tauto.
    split; [simpl; by rewrite E at 1|]. rewrite IH'. simpl. repeat f_equal; lia.
  - assert (Forall (λ x, cur ≤ smNonce x) (m :: l)) as Hc.
    { apply StronglySorted_inv in Hs as [_ Hx]. constructor; [lia|]. eapply Forall_impl; [exact Hx|]. simpl. intros. lia. }
    rewrite (filter_none (λ m, smNonce m < cur)) by (eapply Forall_impl; [exact Hc|]; simpl; lia).
    rewrite (filter_all (λ m, ¬ smNonce m < cur)) by (eapply Forall_impl; [exact Hc|]; simpl; lia).
    split; [done|]. pose proof (scan_run baseFee epoch (m :: l) cur balance 0 skip i [] Hl Hs Hc) as E.
    simpl in E. rewrite decide_False in E by lia. rewrite E by done. by rewrite !Nat.add_0_r.
Qed.

(** ** Candidates *)

Definition sumGas (l : list SignedMessage) : Z := foldr (λ m acc, smGasLimit m + acc) 0 l.
Definition sumReward (baseFee : Z) (l : list SignedMessage) : Z := foldr (λ m acc, getGasReward m baseFee + acc) 0 l.

Lemma sumGas_app l l' : sumGas (l ++ l') = sumGas l + sumGas l'.
Proof. induction l as [|m l IH]; simpl; [done|]. lia. Qed.

Lemma sumReward_app baseFee l l' : sumReward baseFee (l ++ l') = sumReward baseFee l + sumReward baseFee l'.
Proof. induction l as [|m l IH]; simpl; [done|]. lia. Qed.

(** A sequence of messages that the chain accepts from a nonce, balance and use of gas on. *)
Fixpoint runOk (epoch nonce balance gas : Z) (l : list SignedMessage) : Prop :=
  match l with
  | [] => gas ≤ BlockGasLimit
  | m :: l' =>
      smNonce m = nonce ∧ minGas epoch m ≤ smGasLimit m ∧ RequiredFunds m ≤ balance ∧
      runOk epoch (nonce + 1) (balance - RequiredFunds m - smValue m) (gas + smGasLimit m) l'
  end.

Lemma runFrom_ok epoch l : ∀ nonce balance gas, gas ≤ BlockGasLimit →
  runOk epoch nonce balance gas (runFrom epoch nonce balance gas l).
Proof.
  induction l as [|m l IH]; intros nonce balance gas Hg; simpl; [done|]. case_decide as Hm; [|done].
  destruct Hm as (?&?&?&?). simpl. split_and!; [done..|]. by apply IH.
Qed.

Lemma runFrom_sub epoch l : ∀ nonce balance gas m, m ∈ runFrom epoch nonce balance gas l → m ∈ l.
Proof.
  induction l as [|x l IH]; intros nonce balance gas m; simpl; [done|]. case_decide; [|by intros ?%elem_of_nil].
  rewrite !elem_of_cons. intros [->|Hm]; [by left|right]. by eapply IH.
Qed.

(** The messages for a block: the longest run, cut to the limit of a block. *)
Definition due (a : Actor) (mset : gmap Z SignedMessage) (epoch : Z) : list SignedMessage :=
  take (Z.to_nat BlockMessageLimit)
    (runFrom epoch (actNonce a) (actBalance a) 0 (filter (λ m, ¬ smNonce m < actNonce a) (byNonce mset))).

Lemma candidates_due a mset baseFee epoch : msetOk mset →
  ∃ extra, candidates UpgradeCalicoHeight a mset baseFee epoch
           = (due a mset epoch, map (λ m, getGasReward m baseFee) (due a mset epoch) ++ extra).
Proof.
  intros Hm. unfold candidates, due. fold (byNonce mset).
  assert (Forall msgOk (byNonce mset)) as Hall.
  { apply Forall_forall. intros m [n Hn]%elem_of_byNonce. by apply (Hm n). }
  assert (StronglySorted (λ a b, smNonce a < smNonce b) (byNonce mset)) as Hs.
  { apply byNonce_sorted. intros n m Hn. by apply (Hm n). }
  destruct (scan_skip baseFee epoch (byNonce mset) (actNonce a) (actBalance a) 0 0 Hall Hs) as [Esplit ->].
  set (old := filter (λ m, smNonce m < actNonce a) (byNonce mset)) in *.
  set (rest := filter (λ m, ¬ smNonce m < actNonce a) (byNonce mset)) in *.
  set (run := runFrom epoch (actNonce a) (actBalance a) 0 rest).
  assert (∃ tail, rest = run ++ tail) as [tail Et].
  { unfold run. generalize rest (actNonce a) (actBalance a) 0. intros l. induction l as [|x l IH]; intros n b g; simpl; [by exists []|].
    case_decide; [|by eexists]. destruct (IH (n + 1) (b - RequiredFunds x - smValue x) (g + smGasLimit x)) as [t Ht].
    exists t. by rewrite Ht at 1. }
  exists (map (λ m, getGasReward m baseFee) (drop (Z.to_nat BlockMessageLimit) run)).
  rewrite <- map_app, take_drop. simpl. case_decide as Hlt.
  - f_equal. rewrite Esplit, Et. replace (length old + length run - length old)%nat with (length run) by lia.
    rewrite drop_app_length. by rewrite take_app_length.
  - assert (run = []) as -> by (apply nil_length_inv; lia). by rewrite take_nil.
Qed.

(** ** Cutting and merging *)

Section cut.
Variable baseFee : Z.

(** The totals of a chain belong to its messages. *)
Definition chainOk (c : msgChain) : Prop :=
  cmsgs c ≠ [] ∧ Forall (λ m, 0 < smGasLimit m) (cmsgs c) ∧ cgasLimit c = sumGas (cmsgs c) ∧
  gasReward c = sumReward baseFee (cmsgs c) ∧ gasPerf c = gasPerfOf (gasReward c) (cgasLimit c).

(** The type of a chain is that of its first message. *)
Definition headType (l : list SignedMessage) : SigType :=
  match l with m :: _ => sigType (smSignature m) | [] => SigTypeUnknown end.

Lemma headType_app l l' : l ≠ [] → headType (l ++ l') = headType l.
Proof. by destruct l. Qed.

(** A chain as it is made. *)
Definition freshChain (c : msgChain) : Prop :=
  chainOk c ∧ valid c = true ∧ merged c = false ∧ csigType c = headType (cmsgs c).

Lemma sumGas_pos l : l ≠ [] → Forall (λ m, 0 < smGasLimit m) l → 0 < sumGas l.
Proof.
  intros Hne Hl. induction Hl as [|m l Hm Hl IH]; [done|]. simpl. destruct l as [|m' l]; simpl in *; [lia|].
  apply Z.add_pos_pos; [done|]. by apply IH.
Qed.

Lemma sumGas_nonneg l : Forall (λ m, 0 < smGasLimit m) l → 0 ≤ sumGas l.
Proof. induction 1 as [|m l Hm Hl IH]; simpl; lia. Qed.

Lemma wrapGas z : 0 ≤ z ≤ BlockGasLimit → wrapInt64 z = z.
Proof. intros. apply wrapInt64_id. unfold minInt64, maxInt64, BlockGasLimit in *. lia. Qed.

Lemma getGasPerf_pos r g : 0 < g → getGasPerf r g = Ret (gasPerfOf r g).
Proof. intros. unfold getGasPerf. by rewrite decide_False by lia. Qed.

Lemma newChain_ok m : 0 < smGasLimit m → ∃ c, newChain m (getGasReward m baseFee) = Ret c ∧ freshChain c ∧ cmsgs c = [m].
Proof.
  intros Hm. unfold newChain. rewrite getGasPerf_pos by done. eexists. split; [reflexivity|].
  split; [|done]. split; [|done]. split_and!; simpl; [done|by constructor|lia|lia|done].
Qed.

Lemma cutChains_ok ms : ∀ c extra, freshChain c → Forall (λ m, 0 < smGasLimit m) ms →
  sumGas (cmsgs c ++ ms) ≤ BlockGasLimit →
  ∃ cs, cutChains (Some c) ms (map (λ m, getGasReward m baseFee) ms ++ extra) = Ret cs ∧
        Forall freshChain cs ∧ concat (map cmsgs cs) = cmsgs c ++ ms.
Proof.
  induction ms as [|m ms IH]; intros c extra Hc Hms Hg; simpl.
  { exists [c]. split; [by destruct extra|]. split; [by constructor|]. done. }
  apply Forall_cons in Hms as [Hm Hms]. pose proof Hc as ((Hne&Hpos&El&Er&Ep)&Hv&Hmg&Ht).
  rewrite sumGas_app in Hg. simpl in Hg. pose proof (sumGas_nonneg ms Hms). pose proof (sumGas_pos _ Hne Hpos).
  rewrite wrapGas by lia. rewrite getGasPerf_pos by lia. cbn [mbind outcome_bind].
  destruct (SFltb _ (gasPerf c)).
  - destruct (newChain_ok m Hm) as (d&->&Hd&Ed). cbn [mbind outcome_bind].
    destruct (IH d extra Hd Hms) as (cs&->&Hcs&Ecs); [rewrite Ed; simpl; lia|]. cbn [mbind outcome_bind].
    exists (c :: cs). split; [done|]. split; [by constructor|]. simpl. by rewrite Ecs, Ed.
  - destruct (IH (c {{ cmsgs := cmsgs c ++ [m]; gasReward := gasReward c + getGasReward m baseFee;
      cgasLimit := cgasLimit c + smGasLimit m;
      gasPerf := gasPerfOf (gasReward c + getGasReward m baseFee) (cgasLimit c + smGasLimit m) }}) extra) as (cs&E&Hcs&Ecs).
    + split; [|by rsimpl; rewrite headType_app]. split_and!; rsimpl; [by destruct (cmsgs c)| | | |done].
      * apply Forall_app. by split; [|constructor].
      * rewrite sumGas_app. simpl. lia.
      * rewrite sumReward_app. simpl. lia.
    + done.
    + rsimpl. rewrite !sumGas_app. simpl. lia.
    + exists cs. split; [exact E|]. split; [done|]. rewrite Ecs. rsimpl. by rewrite <- app_assoc.
Qed.

(** ** Merging *)

Definition falling (c d : msgChain) : Prop := SFleb (gasPerf c) (gasPerf d) = false.

Lemma mergeChains_ok c d : freshChain c → freshChain d → sumGas (cmsgs c ++ cmsgs d) ≤ BlockGasLimit →
  ∃ e, mergeChains c d = Ret e ∧ freshChain e ∧ cmsgs e = cmsgs c ++ cmsgs d.
Proof.
  intros ((Hne&Hpos&El&Er&Ep)&Hv&Hmg&Ht) ((Hne'&Hpos'&El'&Er'&Ep')&_) Hg. unfold mergeChains.
  rewrite sumGas_app in Hg. pose proof (sumGas_pos _ Hne Hpos). pose proof (sumGas_pos _ Hne' Hpos').
  rewrite wrapGas by lia. rewrite getGasPerf_pos by lia. eexists. split; [reflexivity|]. split; [|done].
  split; [|by rsimpl; rewrite headType_app]. split_and!; rsimpl; [by destruct (cmsgs c)|by apply Forall_app| | |done].
  - rewrite sumGas_app. lia.
  - rewrite sumReward_app. lia.
Qed.

Lemma mergePass_ok l : Forall freshChain l → sumGas (concat (map cmsgs l)) ≤ BlockGasLimit →
  ∃ l', mergePass l = Ret l' ∧ Forall freshChain l' ∧ concat (map cmsgs l') = concat (map cmsgs l) ∧
    (length l' ≤ length l)%nat ∧ (length l' = length l → Sorted falling l') ∧ (l ≠ [] → l' ≠ []).
Proof.
  induction l as [|c l IH]; intros Hl Hg; simpl.
  { exists []. split_and!; try done. }
  apply Forall_cons in Hl as [Hc Hl]. simpl in Hg. rewrite sumGas_app in Hg.
  pose proof Hc as ((Hne&Hpos&_)&_). pose proof (sumGas_pos _ Hne Hpos).
  destruct IH as (rest&->&Hrest&Erest&Hlen&Hsort&_); [done|lia|]. cbn [mbind outcome_bind].
  destruct rest as [|d rest].
  { exists [c]. simpl in *. split_and!; [done|by constructor|by rewrite <- Erest|lia|repeat constructor|done]. }
  destruct (SFleb (gasPerf c) (gasPerf d)) eqn:E.
  - apply Forall_cons in Hrest as [Hd Hrest].
    assert (0 ≤ sumGas (concat (map cmsgs rest))) as Hnn.
    { apply sumGas_nonneg. apply Forall_concat, Forall_map. eapply Forall_impl; [exact Hrest|]. by intros x ((_&?&_)&_). }
    rewrite <- Erest in Hg. simpl in Hg. rewrite sumGas_app in Hg.
    destruct (mergeChains_ok c d Hc Hd) as (e&->&He&Ee); [rewrite sumGas_app; lia|]. cbn [mbind outcome_bind].
    exists (e :: rest). simpl in *. split_and!; [done|by constructor| |lia|lia|done].
    by rewrite Ee, <- Erest, app_assoc.
  - exists (c :: d :: rest). split_and!; [done|by constructor| |simpl in *; lia| |done].
    + rewrite <- Erest. done.
    + intros [= ?]. constructor; [apply Hsort; simpl; lia|]. by constructor.
Qed.

Lemma mergeLoop_ok fuel l : (length l < fuel)%nat → Forall freshChain l → sumGas (concat (map cmsgs l)) ≤ BlockGasLimit →
  ∃ l', mergeLoop fuel l = Some (Ret l') ∧ Forall freshChain l' ∧ concat (map cmsgs l') = concat (map cmsgs l) ∧
    Sorted falling l' ∧ (l ≠ [] → l' ≠ []).
Proof.
  revert l. induction fuel as [|fuel IH]; intros l Hf Hl Hg; [lia|]. simpl.
  destruct (mergePass_ok l Hl Hg) as (l'&->&Hl'&E&Hle&Hsort&Hne). case_decide as Hlen.
  - exists l'. split_and!; auto.
  - destruct (IH l') as (l2&->&?&E2&?&?); [lia|done|by rewrite E|].
    exists l2. split_and!; [done..|by rewrite E2|done|auto].
Qed.

(** ** The order of the chains *)

Lemma chainOk_notNaN c : chainOk c → notNaN (gasPerf c).
Proof. intros (_&_&_&_&->). apply ratFloat64_notNaN. Qed.

(** The performance falls from [c] to [d]. *)
Definition fallsTo (c d : msgChain) : Prop := SFltb (gasPerf d) (gasPerf c) = true.

Lemma falling_sorted l : Forall freshChain l → Sorted falling l → StronglySorted fallsTo l.
Proof.
  intros Hl Hs. set (R := λ c d : msgChain, keyLt (fkey (gasPerf d)) (fkey (gasPerf c))).
  assert (StronglySorted R l) as HR.
  { apply Sorted_StronglySorted; [unfold R, keyLt; intros x y z; lia|].
    induction Hs as [|c l Hs IH Hc]; constructor; [apply IH; by apply Forall_cons in Hl as []|].
    destruct Hc as [|d l Hd]; constructor. apply Forall_cons in Hl as [[Hc _] [[Hd' _] _]%Forall_cons].
    apply SFltb_key; [by apply chainOk_notNaN..|]. unfold falling in Hd.
    rewrite SFleb_ltb in Hd by by apply chainOk_notNaN. by apply negb_false_iff. }
  clear Hs. induction HR as [|c l HR IH Hc]; [constructor|]. apply Forall_cons in Hl as [[Hc' _] Hl].
  constructor; [by apply IH|]. rewrite Forall_forall in *. intros d Hd.
  destruct (Hl d Hd) as [Hd' _]. apply SFltb_key; [by apply chainOk_notNaN..|by apply Hc].
Qed.
End cut.

Lemma Forall_imap {A B} (P : A → Prop) (Q : B → Prop) (f : nat → A → B) l :
  (∀ i x, P x → Q (f i x)) → Forall P l → Forall Q (imap f l).
Proof.
  intros Hf Hl. revert f Hf. induction Hl as [|x l Hx _ IH]; intros f Hf; [constructor|].
  rewrite imap_cons. constructor; [by apply Hf|]. apply IH. intros i y. apply Hf.
Qed.

Lemma StronglySorted_imap {A B} (R : A → A → Prop) (Q : B → B → Prop) (f : nat → A → B) l :
  (∀ i j x y, R x y → Q (f i x) (f j y)) → StronglySorted R l → StronglySorted Q (imap f l).
Proof.
  intros Hf Hl. revert f Hf. induction Hl as [|x l _ IH Hx]; intros f Hf; [constructor|].
  rewrite imap_cons. constructor; [by apply IH; intros; apply Hf|].
  eapply Forall_imap; [|exact Hx]. simpl. intros i y. apply Hf.
Qed.

(** The chains from place [base] on point to their neighbours. *)
Definition linked (base : nat) (cs : list msgChain) : Prop :=
  ∀ i c, cs !! i = Some c →
    cnext c = (if decide (S i < length cs)%nat then Some (base + S i)%nat else None) ∧
    cprev c = (if decide (0 < i)%nat then Some (base + (i - 1))%nat else None).

Lemma linkChains_spec baseFee base l : Forall (freshChain baseFee) l → StronglySorted fallsTo l →
  map cmsgs (linkChains base l) = map cmsgs l ∧ Forall (freshChain baseFee) (linkChains base l) ∧
  StronglySorted fallsTo (linkChains base l) ∧ linked base (linkChains base l).
Proof.
  intros Hl Hs. unfold linkChains. split_and!.
  - apply list_eq. intros i. rewrite !list_lookup_fmap, list_lookup_imap. by destruct (l !! i).
  - eapply Forall_imap; [|exact Hl]. done.
  - eapply StronglySorted_imap; [|exact Hs]. done.
  - intros i c Hi. rewrite length_imap. rewrite list_lookup_imap in Hi.
    apply fmap_Some in Hi as (d&_&->). done.
Qed.

(** ** What [createMessageChains] makes *)

Lemma runOk_take epoch k l : ∀ nonce balance gas, Forall (λ m, 0 ≤ smGasLimit m) l →
  runOk epoch nonce balance gas l → runOk epoch nonce balance gas (take k l).
Proof.
  revert k. induction l as [|m l IH]; intros k nonce balance gas Hl Hr; [by rewrite take_nil|].
  apply Forall_cons in Hl as [Hm Hl]. destruct Hr as (?&?&?&Hr). destruct k as [|k]; simpl.
  - clear -Hm Hl Hr. assert (gas + smGasLimit m ≤ BlockGasLimit) as ?; [|lia]. revert Hr.
    generalize (nonce + 1) (balance - RequiredFunds m - smValue m) (gas + smGasLimit m).
    induction Hl as [|x l Hx Hl IH]; simpl; intros n b g; [done|]. intros (_&_&_&Hr). specialize (IH _ _ _ Hr). lia.
  - split_and!; [done..|]. by apply IH.
Qed.

Lemma runOk_gas epoch l : ∀ nonce balance gas, runOk epoch nonce balance gas l → gas + sumGas l ≤ BlockGasLimit.
Proof.
  induction l as [|m l IH]; intros nonce balance gas; simpl; [lia|]. intros (_&_&_&Hr). specialize (IH _ _ _ Hr). lia.
Qed.

Lemma due_ok a mset epoch : msetOk mset →
  runOk epoch (actNonce a) (actBalance a) 0 (due a mset epoch) ∧ (∀ m, m ∈ due a mset epoch → ∃ n, mset !! n = Some m) ∧
  Forall (λ m, 0 < smGasLimit m) (due a mset epoch) ∧ (length (due a mset epoch) ≤ Z.to_nat BlockMessageLimit)%nat.
Proof.
  intros Hm. unfold due. set (run := runFrom _ _ _ _ _).
  assert (runOk epoch (actNonce a) (actBalance a) 0 run) as Hrun by (apply runFrom_ok; unfold BlockGasLimit; lia).
  assert (∀ m, m ∈ run → ∃ n, mset !! n = Some m) as Hsub.
  { intros m [_ ?%elem_of_byNonce]%runFrom_sub%list_elem_of_filter. done. }
  assert (Forall (λ m, 0 < smGasLimit m) run) as Hpos.
  { apply Forall_forall. intros m Hin. destruct (Hsub m Hin) as [n Hn]. destruct (Hm n m Hn) as [_ Hok].
    assert (minGas epoch m ≤ smGasLimit m); [|pose proof (minGas_pos epoch m Hok); lia].
    revert Hrun Hin. generalize run, (actNonce a), (actBalance a), 0. intros l. induction l as [|x l IH]; intros nn b g.
    - intros _ ?%elem_of_nil. done.
    - intros (_&?&_&Hr) [->|Hin]%elem_of_cons; [done|]. by eapply IH. }
  split_and!.
  - apply runOk_take; [|done]. eapply Forall_impl; [exact Hpos|]. simpl. lia.
  - intros m Hin. apply Hsub. by eapply elem_of_take in Hin as (?&?%list_elem_of_lookup_2&_).
  - by apply Forall_take.
  - rewrite length_take. lia.
Qed.

Variable GetActorAfter : Address → TipSet → outcome Actor.

Lemma createMessageChains_ok base actor mset baseFee ts a : GetActorAfter actor ts = Ret a → msetOk mset →
  ∃ cs, createMessageChains UpgradeCalicoHeight GetActorAfter base actor mset baseFee ts = Some (Ret cs) ∧
    concat (map cmsgs cs) = due a mset (height ts) ∧ Forall (freshChain baseFee) cs ∧
    StronglySorted fallsTo cs ∧ linked base cs.
Proof.
  intros Ha Hm. unfold createMessageChains. rewrite Ha.
  destruct (candidates_due a mset baseFee (height ts) Hm) as [extra ->].
  destruct (due_ok a mset (height ts) Hm) as (Hrun&_&Hpos&_). apply runOk_gas in Hrun.
  destruct (due a mset (height ts)) as [|m ms].
  { exists []. split_and!; [done..|constructor|constructor|]. intros i c Hi. by rewrite lookup_nil in Hi. }
  apply Forall_cons in Hpos as [Hm0 Hms]. cbn [map app cutChains].
  destruct (newChain_ok baseFee m Hm0) as (c&->&Hc&Ec). cbn [mbind outcome_bind].
  destruct (cutChains_ok baseFee ms c extra Hc Hms) as (cs&->&Hcs&Ecs); [rewrite Ec; simpl in *; lia|].
  destruct (mergeLoop_ok baseFee (S (length cs)) cs) as (l&->&Hl&El&Hs&_); [lia|done|rewrite Ecs, Ec; simpl in *; lia|].
  apply (falling_sorted baseFee) in Hs; [|done].
  destruct (linkChains_spec baseFee base l Hl Hs) as (Emap&?&?&?).
  exists (linkChains base l). split_and!; [done| |done..]. by rewrite Emap, El, Ecs, Ec.
Qed.
End spec.
