(* ===== verification/MsgSelect.v ===== *)
(** * Selecting messages for a block (chain/messagepool/selection.go, block_proba.go)

    The chains live in a heap, a list in which a chain is found by its place; the code keeps
    pointers to them.  A result [None] is a call that panics or does not end.  Of package sort, the
    order of a map, random numbers and package math, only what their documentation says is used. *)

From Stdlib Require Import SpecFloat Sorted.
From coqutil Require Import Datatypes.RecordSetters.
From stdpp Require Import strings numbers base gmap fin_maps sets list.
From S2P Require Import Prelude GoStrings GoSort GoFloat FileTypes TipSets GasFees ProofLog SealTasks SealResources MsgSet MsgChains.
Import DoubleBraceUpdate.
Local Open Scope Z_scope.

Definition fmul : spec_float → spec_float → spec_float := SFmul 53 1024.

(** ** Operations on chains *)

Abbreviation heap := (list msgChain) (only parsing).

(** Changes the chain at a place. *)
Definition onChain (p : nat) (f : msgChain → msgChain) (h : heap) : heap := alter f p h.

(** [msgChain.Invalidate]; it follows the chains that depend on it. *)
Fixpoint Invalidate (fuel : nat) (h : heap) (p : nat) : option heap :=
  match fuel with
  | O => None
  | S fuel' =>
      mc ← h !! p;
      let h1 := onChain p (λ c, c {{ valid := false; cmsgs := [] }}) h in
      match cnext mc with
      | None => Some h1
      | Some q => h2 ← Invalidate fuel' h1 q; Some (onChain p (λ c, c {{ cnext := None }}) h2)
      end
  end.

(** [msgChain.setEffPerf] *)
Definition setEffPerf (h : heap) (mc : msgChain) : msgChain :=
  let eff := fmul (gasPerf mc) (bp mc) in
  match SFltb fzero eff, cprev mc ≫= λ p, h !! p with
  | true, Some prev =>
      let withParent :=
        fdiv (fadd (fmul eff (ofInt (cgasLimit mc))) (fmul (effPerf prev) (ofInt (cgasLimit prev))))
             (ofInt (wrapInt64 (cgasLimit mc + cgasLimit prev))) in
      mc {{ parentOffset := fsub eff withParent; effPerf := withParent }}
  | _, _ => mc {{ effPerf := eff }}
  end.

(** [msgChain.SetEffectivePerf] and [msgChain.SetNullEffectivePerf] *)
Definition SetEffectivePerf (h : heap) (p : nat) (b : spec_float) : heap :=
  onChain p (λ mc, setEffPerf h (mc {{ bp := b }})) h.
Definition SetNullEffectivePerf (h : heap) (p : nat) : heap :=
  onChain p (λ mc, mc {{ effPerf := if SFltb (gasPerf mc) fzero then gasPerf mc else fzero }}) h.

(** The loop of [msgChain.Trim] with [n] messages left; the result has the number that stays. *)
Fixpoint trimLoop (h : heap) (baseFee gasLimit msgLimit : Z) (n : nat) (mc : msgChain) : msgChain * nat :=
  match n with
  | O => (mc, O)
  | S i =>
      if decide (gasLimit < cgasLimit mc ∨ SFltb (gasPerf mc) fzero = true ∨ msgLimit ≤ Z.of_nat i) then
        match cmsgs mc !! i with
        | None => (mc, n)
        | Some m =>
            let reward := gasReward mc - getGasReward m baseFee in
            let limit := wrapInt64 (cgasLimit mc - smGasLimit m) in
            let mc1 := mc {{ gasReward := reward; cgasLimit := limit }} in
            let mc2 :=
              if decide (0 < limit) then
                let mc3 := mc1 {{ gasPerf := gasPerfOf reward limit }} in
                if SFeqb (bp mc) fzero then mc3 else setEffPerf h mc3
              else mc1 {{ gasPerf := fzero; effPerf := fzero }} in
            trimLoop h baseFee gasLimit msgLimit i mc2
        end
      else (mc, n)
  end.

(** The chain after the loop. *)
Definition trimmed (h : heap) (baseFee gasLimit msgLimit : Z) (mc : msgChain) : msgChain :=
  let '(mc1, n) := trimLoop h baseFee gasLimit msgLimit (length (cmsgs mc)) mc in
  if decide (n = O) then mc1 {{ cmsgs := []; valid := false }} else mc1 {{ cmsgs := take n (cmsgs mc1) }}.

(** [msgChain.Trim] *)
Definition Trim (h : heap) (p : nat) (gasLimit msgLimit baseFee : Z) : option heap :=
  mc ← h !! p;
  let h1 := onChain p (λ _, trimmed h baseFee gasLimit msgLimit mc) h in
  match cnext mc with
  | None => Some h1
  | Some q => h2 ← Invalidate (length h) h1 q; Some (onChain p (λ c, c {{ cnext := None }}) h2)
  end.

(** [msgChain.BeforeEffective] *)
Definition BeforeEffective (mc other : msgChain) : bool :=
  (merged mc && negb (merged other)) ||
  (SFleb fzero (gasPerf mc) && SFltb (gasPerf other) fzero) ||
  SFltb (effPerf other) (effPerf mc) ||
  (SFeqb (effPerf mc) (effPerf other) && SFltb (gasPerf other) (gasPerf mc)) ||
  (SFeqb (effPerf mc) (effPerf other) && SFeqb (gasPerf mc) (gasPerf other) &&
   bool_decide (gasReward other < gasReward mc)).

(** A comparison of the chains at two places. *)
Definition lessAt (less : msgChain → msgChain → bool) (h : heap) (p q : nat) : bool :=
  match h !! p, h !! q with
  | Some a, Some b => less a b
  | _, _ => false
  end.

(** ** The selected messages *)

Record selectedMessages := mkSelected {
  smsgs : list SignedMessage;
  sgasLimit : Z;
  secpLimit : Z;
  blsLimit : Z
}.

Definition tryToAdd (sm : selectedMessages) (mc : msgChain) : selectedMessages * bool :=
  let l := Z.of_nat (length (cmsgs mc)) in
  if decide (BlockMessageLimit < l + Z.of_nat (length (smsgs sm)) ∨ sgasLimit sm < cgasLimit mc) then (sm, false)
  else
    match csigType mc with
    | SigTypeBLS =>
        if decide (blsLimit sm < l) then (sm, false)
        else (mkSelected (smsgs sm ++ cmsgs mc) (wrapInt64 (sgasLimit sm - cgasLimit mc)) (secpLimit sm) (blsLimit sm - l), true)
    | SigTypeSecp256k1 =>
        if decide (secpLimit sm < l) then (sm, false)
        else (mkSelected (smsgs sm ++ cmsgs mc) (wrapInt64 (sgasLimit sm - cgasLimit mc)) (secpLimit sm - l) (blsLimit sm), true)
    | _ => (sm, true)
    end.

(** How many messages of the kind of the chain the block still takes. *)
Definition msgRoom (sm : selectedMessages) (mc : msgChain) : Z :=
  let room := BlockMessageLimit - Z.of_nat (length (smsgs sm)) in
  match csigType mc with
  | SigTypeBLS => Z.min room (blsLimit sm)
  | SigTypeSecp256k1 => Z.min room (secpLimit sm)
  | _ => room
  end.

(** [trimChain]: trims the chain to what is left of the block. *)
Definition trimChain (sm : selectedMessages) (h : heap) (p : nat) (baseFee : Z) : option heap :=
  mc ← h !! p;
  if decide (sgasLimit sm < cgasLimit mc ∨ msgRoom sm mc < Z.of_nat (length (cmsgs mc)))
  then Trim h p (sgasLimit sm) (msgRoom sm mc) baseFee else Some h.

(** The chains that a chain depends on and that are not merged, the nearest first. *)
Fixpoint chainDeps (fuel : nat) (h : heap) (p : option nat) : option (list nat) :=
  match fuel, p with
  | _, None => Some []
  | O, Some _ => None
  | S fuel', Some q =>
      c ← h !! q;
      if merged c then Some [] else rest ← chainDeps fuel' h (cprev c); Some (q :: rest)
  end.

Definition gasAt (h : heap) (p : nat) : Z := match h !! p with Some c => cgasLimit c | None => 0 end.
Definition msgsAt (h : heap) (p : nat) : list SignedMessage := match h !! p with Some c => cmsgs c | None => [] end.

(** The sums [depGasLimit] and [depMsgLimit]. *)
Definition gasOf (h : heap) (ps : list nat) : Z := foldl (λ acc p, wrapInt64 (acc + gasAt h p)) 0 ps.
Definition countOf (h : heap) (ps : list nat) : Z := foldl (λ acc p, acc + Z.of_nat (length (msgsAt h p))) 0 ps.

(** The loop that takes the dependencies, the first chain of the sender first. *)
Definition mergeDeps (h : heap) (sm : selectedMessages) (ps : list nat) : heap * list SignedMessage :=
  (foldr (λ p h, onChain p (λ c, c {{ merged := true }}) h) h ps,
   smsgs sm ++ concat (map (msgsAt h) (rev ps))).

(** What is left of the limits after a chain with [count] messages and [gas]. *)
Definition spend (sm : selectedMessages) (mc : msgChain) (newMsgs : list SignedMessage) (gas count : Z) : selectedMessages :=
  mkSelected newMsgs (wrapInt64 (sgasLimit sm - gas))
    (if decide (csigType mc = SigTypeSecp256k1) then secpLimit sm - count else secpLimit sm)
    (if decide (csigType mc = SigTypeBLS) then blsLimit sm - count else blsLimit sm).

(** [tryToAddWithDeps] for a chain of a known type, with [smMsgLimit] and the dependencies. *)
Definition addWithDeps (h : heap) (sm : selectedMessages) (p : nat) (mc : msgChain) (smMsgLimit : Z) (deps : list nat)
    (baseFee : Z) : option (heap * selectedMessages * bool) :=
  let depGasLimit := gasOf h deps in
  let depMsgLimit := countOf h deps in
  let chainGasLimit := wrapInt64 (cgasLimit mc + depGasLimit) in
  let chainMsgLimit := Z.of_nat (length (cmsgs mc)) + depMsgLimit in
  if decide (sgasLimit sm < chainGasLimit ∨ smMsgLimit < chainMsgLimit) then
    h' ← (if decide (sgasLimit sm < depGasLimit ∨ smMsgLimit ≤ depMsgLimit) then Invalidate (length h) h p
          else Trim h p (wrapInt64 (sgasLimit sm - depGasLimit)) (smMsgLimit - depMsgLimit) baseFee);
    Some (h', sm, false)
  else
    let '(h1, msgs1) := mergeDeps h sm deps in
    Some (onChain p (λ c, c {{ merged := true }}) h1, spend sm mc (msgs1 ++ cmsgs mc) chainGasLimit chainMsgLimit, true).

Definition tryToAddWithDeps (h : heap) (sm : selectedMessages) (p : nat) (baseFee : Z) :
    option (heap * selectedMessages * bool) :=
  mc ← h !! p;
  match csigType mc with
  | SigTypeBLS | SigTypeSecp256k1 =>
      deps ← chainDeps (length h) h (cprev mc);
      addWithDeps h sm p mc (msgRoom sm mc) deps baseFee
  | _ => Some (h, sm, false)
  end.

(** ** Greedy selection *)

(** [sort.Slice] puts the elements into an order that its comparison allows, if the comparison is a
    strict weak order, and only moves them in any case.  [sortTail less k l] is
    [sort.SliceStable] on [l[k:]] with a comparison that takes its indices for indices of [l]:
    it moves the elements of [l[k:]].  A map is read in any order. *)
Class Library := {
  sortSlice : (nat → nat → bool) → list nat → list nat;
  sortSlice_perm less l : sortSlice less l ≡ₚ l;
  sortSlice_sorted (less : nat → nat → bool) l :
    (∀ x y, x ∈ l → y ∈ l → less x y = true → less y x = false) →
    (∀ x y z, x ∈ l → y ∈ l → z ∈ l → less y x = false → less z y = false → less z x = false) →
    StronglySorted (notAfter less) (sortSlice less l);
  sortTail : (nat → nat → bool) → nat → list nat → list nat;
  sortTail_front less k l : take k (sortTail less k l) = take k l;
  sortTail_perm less k l : drop k (sortTail less k l) ≡ₚ drop k l;
  rangeMap : gmap Address (gmap Z SignedMessage) → list (Address * gmap Z SignedMessage);
  rangeMap_perm m : rangeMap m ≡ₚ map_to_list m
}.

Section select.
Context `{MessageCodec} `{Library}.
Variable UpgradeCalicoHeight : Z.
Variable GetActorAfter : Address → TipSet → outcome Actor.
(** [cbg.MaxLength] *)
Variable MaxLength : Z.
Variables (baseFee : Z) (ts : TipSet).

Definition negPerf (h : heap) (p : nat) : bool :=
  match h !! p with Some c => SFltb (gasPerf c) fzero | None => false end.
Definition isValid (h : heap) (p : nat) : bool := match h !! p with Some c => valid c | None => false end.
Definition isMerged (h : heap) (p : nat) : bool := match h !! p with Some c => merged c | None => false end.

(** The loop that creates the chains of all senders. *)
Fixpoint collectChains (h : heap) (l : list (Address * gmap Z SignedMessage)) : option (heap * list nat) :=
  match l with
  | [] => Some (h, [])
  | (actor, mset) :: l' =>
      match createMessageChains UpgradeCalicoHeight GetActorAfter (length h) actor mset baseFee ts with
      | Some (Ret cs) =>
          r ← collectChains (h ++ cs) l';
          Some (r.1, seq (length h) (length cs) ++ r.2)
      | _ => None
      end
  end.

(** Merges the head chains; the result has the chains from the first one that did not fit on. *)
Fixpoint addHead (h : heap) (sm : selectedMessages) (l : list nat) : selectedMessages * list nat :=
  match l with
  | [] => (sm, [])
  | p :: l' =>
      match h !! p with
      | None => (sm, [])
      | Some c =>
          if SFltb (gasPerf c) fzero then (sm, [])
          else match tryToAdd sm c with
               | (sm', true) => addHead h sm' l'
               | (_, false) => (sm, l)
               end
      end
  end.

(** Moves a chain down to where it is before the next one. *)
Fixpoint pushDown (less : nat → nat → bool) (p : nat) (l : list nat) : list nat :=
  match l with
  | [] => [p]
  | q :: l' => if less p q then p :: l else q :: pushDown less p l'
  end.

(** The inner loop: what follows is [None] when the outer loop is left. *)
Fixpoint addTail (h : heap) (sm : selectedMessages) (l : list nat) : selectedMessages * option (list nat) :=
  match l with
  | [] => (sm, None)
  | p :: l' =>
      match h !! p with
      | None => (sm, None)
      | Some c =>
          if negb (valid c) then addTail h sm l'
          else if SFltb (gasPerf c) fzero then (sm, None)
          else match tryToAdd sm c with
               | (sm', true) => addTail h sm' l'
               | (_, false) => (sm, Some l)
               end
      end
  end.

Fixpoint tailLoop (fuel : nat) (h : heap) (sm : selectedMessages) (l : list nat) : option (heap * selectedMessages) :=
  match fuel with
  | O => None
  | S fuel' =>
      match l with
      | [] => Some (h, sm)
      | p :: l' =>
          if decide (sgasLimit sm < MinGas) then Some (h, sm)
          else
            h1 ← trimChain sm h p baseFee;
            let l1 := if isValid h1 p then pushDown (lessAt Before h1) p l' else l in
            match addTail h1 sm l1 with
            | (sm', None) => Some (h1, sm')
            | (sm', Some l2) => tailLoop fuel' h1 sm' l2
            end
      end
  end.

(** One turn of the tail loop takes at least one message off a chain. *)
Definition tailFuel (h : heap) : nat := S (length (concat (map cmsgs h))).

(** Steps 2 to 4 on the chains of a heap. *)
Definition greedy (h : heap) (sm : selectedMessages) (chains : list nat) : option selectedMessages :=
  let sorted := sortSlice (lessAt Before h) chains in
  if match sorted with p :: _ => negPerf h p | [] => false end then Some sm
  else
    let '(sm1, l) := addHead h sm sorted in
    r ← tailLoop (tailFuel h) h sm1 l;
    Some r.2.

(** ** Messages of preferred senders *)

Variable resolveToKey : Address → outcome Address.
Variable PriorityAddrs : list Address.

Definition emptySelection : selectedMessages := mkSelected [] BlockGasLimit MaxLength MaxLength.

Abbreviation pendingMap := (gmap Address (gmap Z SignedMessage)) (only parsing).

(** The loop over the preferred senders: [None] in the inner option when an address is not resolved. *)
Fixpoint priorityChains (h : heap) (pending : pendingMap) (addrs : list Address) :
    option (pendingMap * option (heap * list nat)) :=
  match addrs with
  | [] => Some (pending, Some (h, []))
  | actor :: addrs' =>
      match resolveToKey actor with
      | Crash => None
      | Fail _ => Some (pending, None)
      | Ret pk =>
          match pending !! pk with
          | None => priorityChains h pending addrs'
          | Some mset =>
              r ← collectChains h [(actor, mset)];
              rest ← priorityChains r.1 (delete pk pending) addrs';
              Some (rest.1, match rest.2 with Some (h', ps) => Some (h', r.2 ++ ps) | None => None end)
          end
      end
  end.

Definition selectPriorityMessages (pending : pendingMap) : option (pendingMap * selectedMessages) :=
  r ← priorityChains [] pending PriorityAddrs;
  match r.2 with
  | None | Some (_, []) => Some (r.1, emptySelection)
  | Some (h, chains) => sm ← greedy h emptySelection chains; Some (r.1, sm)
  end.

Definition selectMessagesGreedy (pending : pendingMap) : option (option selectedMessages) :=
  if decide (pending = ∅) then Some None
  else
    '(pending', result) ← selectPriorityMessages pending;
    if decide (sgasLimit result < MinGas ∨ BlockMessageLimit < Z.of_nat (length (smsgs result))) then Some (Some result)
    else
      '(h, chains) ← collectChains [] (rangeMap pending');
      sm ← greedy h result chains;
      Some (Some sm).
End select.
