(* ===== verification/MsgSelectGroups.v ===== *)
(** * Chains of senders in a heap

    The chains of a sender are neighbours in the heap.  However chains are trimmed, invalidated and
    merged, what has been taken of a sender is a beginning of its messages, and a chain that is
    still valid can be taken after the chains before it. *)

From Stdlib Require Import SpecFloat Sorted.
From coqutil Require Import Datatypes.RecordSetters.
From stdpp Require Import strings numbers base functions gmap fin_maps sets list.
From S2P Require Import Prelude GoStrings GoSort GoFloat FileTypes TipSets GasFees ProofLog SealTasks SealResources.
From S2P Require Import MsgSet MsgChains MsgChainsSpec MsgSelect.
Import DoubleBraceUpdate.
Local Open Scope Z_scope.

(** The chains of a sender: the sender, their first place and the messages they were made with. *)
Record group := mkGroup { gowner : Address; gbase : nat; gchunks : list (list SignedMessage) }.

#[global] Instance group_eq_dec : EqDecision group.
Proof. solve_decision. Defined.

Definition inGroup (g : group) (p : nat) : Prop := (gbase g ≤ p < gbase g + length (gchunks g))%nat.

Definition knownType (c : msgChain) : Prop := csigType c = SigTypeBLS ∨ csigType c = SigTypeSecp256k1.

(** What the chain [i] of a group keeps.  The first [k] chains have been taken. *)
Record cellInv (h : list msgChain) (g : group) (k i : nat) (c : msgChain) : Prop := {
  cell_next : cnext c = None ∨ (cnext c = Some (gbase g + S i)%nat ∧ (S i < length (gchunks g))%nat);
  cell_prev : cprev c = if decide (0 < i)%nat then Some (gbase g + (i - 1))%nat else None;
  cell_type : knownType c;
  cell_nonempty : valid c = true → cmsgs c ≠ [];
  cell_gas : valid c = true → cgasLimit c = sumGas (cmsgs c) ∧ Forall (λ m, 0 < smGasLimit m) (cmsgs c);
  cell_msgs : valid c = true → ∃ C, gchunks g !! i = Some C ∧ cmsgs c `prefix_of` C;
  cell_linked : valid c = true → ∀ j d, (j < i)%nat → h !! (gbase g + j)%nat = Some d →
    cnext d = Some (gbase g + S j)%nat;
  cell_before : valid c = true → (k ≤ i)%nat → ∀ j d, (k ≤ j < i)%nat → h !! (gbase g + j)%nat = Some d →
    valid d = true ∧ gchunks g !! j = Some (cmsgs d)
}.

Record groupInv (h : list msgChain) (g : group) (k : nat) (R : list SignedMessage) : Prop := {
  group_k : (k ≤ length (gchunks g))%nat;
  group_taken : R `prefix_of` concat (take k (gchunks g));
  group_whole : R = concat (take k (gchunks g)) ∨
    ∀ i c, (k ≤ i < length (gchunks g))%nat → h !! (gbase g + i)%nat = Some c → valid c = false;
  group_cells : ∀ i, (i < length (gchunks g))%nat → ∃ c, h !! (gbase g + i)%nat = Some c ∧ cellInv h g k i c
}.

(** The invariant only reads the places of the group. *)
Lemma groupInv_frame h h' g k R : (∀ p, inGroup g p → h' !! p = h !! p) → groupInv h g k R → groupInv h' g k R.
Proof.
  intros Hf [Hk Ht Hw Hc]. split; [done|done| |].
  - destruct Hw as [?|Hw]; [by left|right]. intros i c Hi. rewrite Hf by (unfold inGroup; lia). by apply Hw.
  - intros i Hi. destruct (Hc i Hi) as (c&Hlk&[]). exists c. split; [rewrite Hf by (unfold inGroup; lia); done|].
    split; try done.
    + intros Hv j d Hj. rewrite Hf by (unfold inGroup; lia). by eauto.
    + intros Hv Hki j d Hj. rewrite Hf by (unfold inGroup; lia). by eauto.
Qed.

(** ** Taking a chain *)

Lemma prefix_cut {A} (l1 l2 l3 : list A) : l2 `prefix_of` l3 → l1 ++ l2 `prefix_of` l1 ++ l3.
Proof. apply prefix_app. Qed.

(** A valid chain is taken with the chains before it that are not taken yet. *)
Lemma groupInv_take h g k R i c : groupInv h g k R → (k ≤ i < length (gchunks g))%nat →
  h !! (gbase g + i)%nat = Some c → valid c = true →
  groupInv h g (S i) (R ++ concat (drop k (take i (gchunks g))) ++ cmsgs c).
Proof.
  intros [Hk Ht Hw Hc] Hi Hlk Hv. destruct (Hc i) as (c'&Hlk'&Hcell); [lia|]. simplify_eq.
  destruct (cell_msgs _ _ _ _ _ Hcell Hv) as (C&HC&Hp).
  assert (R = concat (take k (gchunks g))) as ->.
  { destruct Hw as [?|Hw]; [done|]. specialize (Hw i c). rewrite Hw in Hv; [done|lia|done]. }
  assert (concat (take k (gchunks g)) ++ concat (drop k (take i (gchunks g))) ++ cmsgs c
          = concat (take i (gchunks g)) ++ cmsgs c) as E.
  { rewrite app_assoc, <- concat_app. do 2 f_equal. rewrite <- (take_drop k (take i (gchunks g))) at 2.
    f_equal. by rewrite take_take, Nat.min_l by lia. }
  split.
  - lia.
  - rewrite E, (take_S_r _ _ _ HC), concat_app. simpl. rewrite app_nil_r. by apply prefix_cut.
  - destruct (decide (cmsgs c = C)) as [<-|Hne].
    + left. rewrite E, (take_S_r _ _ _ HC), concat_app. simpl. by rewrite app_nil_r.
    + right. intros j d Hj Hd. destruct (valid d) eqn:Ev; [|done]. exfalso. destruct (Hc j) as (d'&Hd'&Hcd); [lia|].
      simplify_eq. destruct (cell_before _ _ _ _ _ Hcd Ev ltac:(lia) i c ltac:(lia) Hlk) as [_ HC'].
      rewrite HC in HC'. by simplify_eq.
  - intros j Hj. destruct (Hc j Hj) as (d&Hd&[]). exists d. split; [done|]. split; try done.
    intros Hvd Hsi j' d' Hj'. apply cell_before0; [done|lia|lia].
Qed.

(** ** Cutting at a chain *)

(** Links, owner and signature type stay, and links are at most cut. *)
Definition cellFrame (c c' : msgChain) : Prop :=
  merged c' = merged c ∧ cprev c' = cprev c ∧ csigType c' = csigType c ∧ (cnext c' = None ∨ cnext c' = cnext c).

Lemma cellFrame_refl c : cellFrame c c.
Proof. split_and!; auto. Qed.

Lemma cellFrame_trans c d e : cellFrame c d → cellFrame d e → cellFrame c e.
Proof.
  intros (?&?&?&Hcd) (?&?&?&Hde). split_and!; [congruence..|]. destruct Hde as [?|E]; [by left|]. by rewrite E.
Qed.

(** The heap [h'] has the chain [i] of the group shortened and all later ones invalid. *)
Record cutAt (g : group) (i : nat) (h h' : list msgChain) : Prop := {
  cut_length : length h' = length h;
  cut_frame : ∀ p, (p < gbase g + i ∨ gbase g + length (gchunks g) ≤ p)%nat → h' !! p = h !! p;
  cut_here : ∀ c, h !! (gbase g + i)%nat = Some c → ∃ c', h' !! (gbase g + i)%nat = Some c' ∧ cellFrame c c' ∧
    (length (cmsgs c') ≤ length (cmsgs c))%nat ∧
    (valid c' = true → valid c = true ∧ cmsgs c' ≠ [] ∧ cmsgs c' `prefix_of` cmsgs c ∧ cgasLimit c' = sumGas (cmsgs c'));
  cut_later : ∀ j c, (i < j < length (gchunks g))%nat → h !! (gbase g + j)%nat = Some c →
    ∃ c', h' !! (gbase g + j)%nat = Some c' ∧ cellFrame c c' ∧ (length (cmsgs c') ≤ length (cmsgs c))%nat ∧ valid c' = false
}.

Lemma Forall_prefix {A} (P : A → Prop) (l l' : list A) : l `prefix_of` l' → Forall P l' → Forall P l.
Proof. intros [k ->]. by intros [? _]%Forall_app. Qed.

Lemma cutAt_groupInv g i h h' k R : (i < length (gchunks g))%nat → groupInv h g k R → cutAt g i h h' → groupInv h' g k R.
Proof.
  intros Hi [Hk Ht Hw Hc] [_ Hf Hh Hl].
  (* the chains of the new heap *)
  assert (∀ j, (j < length (gchunks g))%nat → ∃ c c', h !! (gbase g + j)%nat = Some c ∧ cellInv h g k j c ∧
     h' !! (gbase g + j)%nat = Some c' ∧ cellFrame c c' ∧
     (valid c' = true → (j ≤ i)%nat ∧ valid c = true ∧ cmsgs c' ≠ [] ∧ cmsgs c' `prefix_of` cmsgs c ∧ cgasLimit c' = sumGas (cmsgs c') ∧
       ((j < i)%nat → c' = c))) as Hcells.
  { intros j Hj. destruct (Hc j Hj) as (c&Hlk&Hcell). exists c. destruct (Nat.lt_trichotomy j i) as [?|[->|?]].
    - exists c. split_and!; [done|done|by rewrite Hf by lia|apply cellFrame_refl|]. intros Hv.
      destruct (cell_gas _ _ _ _ _ Hcell Hv) as [? _].
      split_and!; [lia|done|by apply (cell_nonempty _ _ _ _ _ Hcell)|done|done|done].
    - destruct (Hh c Hlk) as (c'&?&?&?&Hv). exists c'. split_and!; [done..|]. intros Hv'.
      destruct (Hv Hv') as (?&?&?&?). split_and!; [lia|done..|lia].
    - destruct (Hl j c) as (c'&?&?&?&Hv); [lia|done|]. exists c'. split_and!; [done..|]. congruence. }
  split; [done|done| |].
  - destruct Hw as [?|Hw]; [by left|right]. intros j c' Hj Hc'. destruct (Hcells j) as (c&c2&?&_&?&_&Hv); [lia|].
    simplify_eq. destruct (valid c') eqn:Ev; [|done]. destruct (Hv eq_refl) as (_&Hvc&_). specialize (Hw j c). rewrite Hw in Hvc; [done|lia|done].
  - intros j Hj. destruct (Hcells j Hj) as (c&c'&Hlk&Hcell&Hlk'&(Hm&Hpr&Hty&Hn)&Hv). exists c'. split; [done|].
    destruct Hcell as [Hcn Hcp Hct Hne Hg Hms Hli Hbe]. split.
    + destruct Hn as [?|Hn]; [by left|]. by rewrite Hn.
    + by rewrite Hpr.
    + unfold knownType in *. by rewrite Hty.
    + intros Hv'. by destruct (Hv Hv') as (_&_&?&_).
    + intros Hv'. destruct (Hv Hv') as (_&Hvc&_&Hp&Hgas&_). destruct (Hg Hvc) as [_ Hpos]. split; [done|].
      by eapply Forall_prefix.
    + intros Hv'. destruct (Hv Hv') as (_&Hvc&_&Hp&_). destruct (Hms Hvc) as (C&?&?). exists C. split; [done|by etrans].
    + intros Hv' j' d Hj' Hd. destruct (Hv Hv') as (?&Hvc&_). rewrite Hf in Hd by lia. by eapply Hli.
    + intros Hv' Hkj j' d Hj' Hd. destruct (Hv Hv') as (?&Hvc&_). rewrite Hf in Hd by lia. by eapply Hbe.
Qed.

(** ** [Invalidate] *)

Lemma lookup_onChain p f (h : list msgChain) q :
  onChain p f h !! q = if decide (q = p) then f <$> h !! q else h !! q.
Proof.
  unfold onChain. case_decide as E; [subst; apply list_lookup_alter_eq|]. by apply list_lookup_alter_ne.
Qed.

Lemma length_onChain p f (h : list msgChain) : length (onChain p f h) = length h.
Proof. apply length_alter. Qed.

(** The links of the chains from [i] on. *)
Definition linksFrom (h : list msgChain) (g : group) (i : nat) : Prop :=
  ∀ j, (i ≤ j < length (gchunks g))%nat → ∃ c, h !! (gbase g + j)%nat = Some c ∧
    (cnext c = None ∨ (cnext c = Some (gbase g + S j)%nat ∧ (S j < length (gchunks g))%nat)).

Record invalidated (g : group) (i : nat) (h h' : list msgChain) : Prop := {
  inv_length : length h' = length h;
  inv_frame : ∀ p, (p < gbase g + i ∨ gbase g + length (gchunks g) ≤ p)%nat → h' !! p = h !! p;
  inv_cells : ∀ j c, (i ≤ j < length (gchunks g))%nat → h !! (gbase g + j)%nat = Some c →
    ∃ c', h' !! (gbase g + j)%nat = Some c' ∧ cellFrame c c' ∧ (length (cmsgs c') ≤ length (cmsgs c))%nat ∧
      (valid c = false → valid c' = false) ∧
      ((∀ j' d, (i ≤ j' < j)%nat → h !! (gbase g + j')%nat = Some d → cnext d ≠ None) → valid c' = false ∧ cmsgs c' = [])
}.

Lemma Invalidate_run g fuel : ∀ i h, (i < length (gchunks g))%nat → (length (gchunks g) - i ≤ fuel)%nat →
  linksFrom h g i → ∃ h', Invalidate fuel h (gbase g + i) = Some h' ∧ invalidated g i h h'.
Proof.
  induction fuel as [|fuel IH]; intros i h Hi Hfuel Hl; [lia|]. cbn [Invalidate].
  destruct (Hl i) as (c&Hc&Hn); [lia|]. rewrite Hc. cbn [mbind option_bind].
  set (h1 := onChain (gbase g + i) (λ c, c {{ valid := false; cmsgs := [] }}) h).
  assert (∀ p, p ≠ (gbase g + i)%nat → h1 !! p = h !! p) as Hf1.
  { intros p Hp. unfold h1. by rewrite lookup_onChain, decide_False. }
  assert (h1 !! (gbase g + i)%nat = Some (c {{ valid := false; cmsgs := [] }})) as Hh1.
  { unfold h1. by rewrite lookup_onChain, decide_True, Hc. }
  destruct Hn as [Hn|[Hn Hlen]]; rewrite Hn; cbn [mbind option_bind].
  - exists h1. split; [done|]. split; [apply length_onChain|intros p Hp; apply Hf1; lia|].
    intros j d Hj Hd. destruct (decide (j = i)) as [->|Hne].
    + simplify_eq. eexists. split; [exact Hh1|]. split; [split_and!; rsimpl; auto|]. rsimpl. split; [lia|done].
    + exists d. split; [rewrite Hf1 by lia; done|]. split_and!; [apply cellFrame_refl|lia|done|].
      intros Hp. exfalso. by apply (Hp i c); [lia|..].
  - destruct (IH (S i) h1) as (h2&->&[Hlen2 Hf2 Hc2]); [lia|lia| |].
    { intros j Hj. rewrite Hf1 by lia. apply Hl. lia. }
    cbn [mbind option_bind]. eexists. split; [done|]. split.
    + rewrite length_onChain, Hlen2. apply length_onChain.
    + intros p Hp. rewrite lookup_onChain, decide_False by lia. rewrite Hf2 by lia. apply Hf1. lia.
    + intros j d Hj Hd. rewrite lookup_onChain. destruct (decide (j = i)) as [->|Hne].
      * simplify_eq. rewrite decide_True by done. rewrite Hf2, Hh1 by lia. eexists. split; [done|].
        split; [split_and!; rsimpl; auto|]. rsimpl. split; [lia|done].
      * rewrite decide_False by lia. destruct (Hc2 j d) as (d'&?&?&?&?&Hp); [lia|by rewrite Hf1 by lia|].
        exists d'. split_and!; [done..|]. intros Hpath. apply Hp. intros j' e Hj'. rewrite Hf1 by lia. apply Hpath. lia.
Qed.

Lemma groupInv_links h g k R i : groupInv h g k R → linksFrom h g i.
Proof.
  intros [_ _ _ Hc] j Hj. destruct (Hc j) as (c&?&[]); [lia|]. eauto.
Qed.

(** The place of the later chains of a group is in the heap, so that the fuel is enough. *)
Lemma groupInv_fuel h g k R : groupInv h g k R → (length (gchunks g) ≤ length h)%nat.
Proof.
  intros [_ _ _ Hc]. destruct (length (gchunks g)) as [|n] eqn:E; [lia|].
  destruct (Hc n) as (c&Hlk&_); [lia|]. apply lookup_lt_Some in Hlk. lia.
Qed.

Lemma Invalidate_cut h g k R i : groupInv h g k R → (i < length (gchunks g))%nat →
  ∃ h', Invalidate (length h) h (gbase g + i) = Some h' ∧ cutAt g i h h' ∧
    ∀ c', h' !! (gbase g + i)%nat = Some c' → valid c' = false ∧ cmsgs c' = [].
Proof.
  intros Hg Hi. pose proof (groupInv_fuel _ _ _ _ Hg). destruct (Invalidate_run g (length h) i h) as (h'&->&[Hlen Hf Hc]);
    [lia|lia|by eapply groupInv_links|].
  exists h'. split; [done|]. destruct (group_cells _ _ _ _ Hg i Hi) as (c&Hlk&_).
  destruct (Hc i c) as (c'&Hlk'&Hfr&Hle&_&Hinv); [lia|done|]. destruct Hinv as [Hv Hm]; [lia|].
  split; [|intros ??; by simplify_eq]. split; [done|done| |].
  - intros d Hd. simplify_eq. exists c'. split_and!; [done..|]. congruence.
  - intros j d Hj Hd. destruct (Hc j d) as (d'&?&?&?&Hf'&Hp); [lia|done|]. exists d'. split_and!; [done..|].
    destruct (valid d) eqn:Ev; [|by apply Hf']. destruct (group_cells _ _ _ _ Hg j) as (d2&?&Hcell); [lia|]. simplify_eq.
    apply Hp. intros j' e Hj' He. by rewrite (cell_linked _ _ _ _ _ Hcell Ev j' e) by (done || lia).
Qed.

(** ** [Trim] *)

(** All but the totals and the performance. *)
Definition sameCell (c c' : msgChain) : Prop :=
  cmsgs c' = cmsgs c ∧ valid c' = valid c ∧ merged c' = merged c ∧ cnext c' = cnext c ∧ cprev c' = cprev c ∧
  csigType c' = csigType c.

Lemma sameCell_trans c d e : sameCell c d → sameCell d e → sameCell c e.
Proof. unfold sameCell. intros (?&?&?&?&?&?) (?&?&?&?&?&?). split_and!; congruence. Qed.

Lemma setEffPerf_same h c : sameCell c (setEffPerf h c) ∧ cgasLimit (setEffPerf h c) = cgasLimit c ∧
  gasPerf (setEffPerf h c) = gasPerf c ∧ gasReward (setEffPerf h c) = gasReward c.
Proof. unfold setEffPerf. destruct (SFltb _ _); [destruct (_ ≫= _)|]; by split_and!. Qed.

(** One turn of the loop of [Trim]. *)
Definition trimOne (h : list msgChain) (baseFee : Z) (mc : msgChain) (m : SignedMessage) : msgChain :=
  let reward := gasReward mc - getGasReward m baseFee in
  let limit := wrapInt64 (cgasLimit mc - smGasLimit m) in
  let mc1 := mc {{ gasReward := reward; cgasLimit := limit }} in
  if decide (0 < limit) then
    let mc3 := mc1 {{ gasPerf := gasPerfOf reward limit }} in
    if SFeqb (bp mc) fzero then mc3 else setEffPerf h mc3
  else mc1 {{ gasPerf := fzero; effPerf := fzero }}.

Lemma trimOne_same h baseFee mc m : sameCell mc (trimOne h baseFee mc m) ∧
  cgasLimit (trimOne h baseFee mc m) = wrapInt64 (cgasLimit mc - smGasLimit m).
Proof.
  unfold trimOne. case_decide; [|by split_and!]. destruct (SFeqb _ _); [by split_and!|].
  set (mc3 := mc {{ gasReward := _; cgasLimit := _ }} {{ gasPerf := _ }}).
  destruct (setEffPerf_same h mc3) as (?&?&_). by split.
Qed.

Lemma trimLoop_S h baseFee gl ml i mc m : cmsgs mc !! i = Some m →
  trimLoop h baseFee gl ml (S i) mc
  = if decide (gl < cgasLimit mc ∨ SFltb (gasPerf mc) fzero = true ∨ ml ≤ Z.of_nat i)
    then trimLoop h baseFee gl ml i (trimOne h baseFee mc m) else (mc, S i).
Proof. intros Hm. cbn [trimLoop]. by rewrite Hm. Qed.

Lemma sumGas_take_le n l : Forall (λ m, 0 < smGasLimit m) l → 0 ≤ sumGas (take n l) ≤ sumGas l.
Proof.
  intros Hl. rewrite <- (take_drop n l) at 3. rewrite sumGas_app.
  pose proof (sumGas_nonneg (take n l) (Forall_take _ _ _ Hl)). pose proof (sumGas_nonneg (drop n l) (Forall_drop _ _ _ Hl)). lia.
Qed.

Lemma trimLoop_run h baseFee gl ml n : ∀ mc mc' n', (n ≤ length (cmsgs mc))%nat →
  trimLoop h baseFee gl ml n mc = (mc', n') →
  sameCell mc mc' ∧ (n' ≤ n)%nat ∧
  ((0 < n)%nat → gl < cgasLimit mc ∨ ml ≤ Z.of_nat (n - 1) → (n' < n)%nat) ∧
  (Forall (λ m, 0 < smGasLimit m) (cmsgs mc) → sumGas (cmsgs mc) ≤ BlockGasLimit →
   cgasLimit mc = sumGas (take n (cmsgs mc)) → cgasLimit mc' = sumGas (take n' (cmsgs mc))).
Proof.
  induction n as [|i IH]; intros mc mc' n' Hn E.
  { simpl in E. simplify_eq. split_and!; [done..|lia|lia|done]. }
  destruct (lookup_lt_is_Some_2 (cmsgs mc) i) as [m Hm]; [lia|]. rewrite (trimLoop_S _ _ _ _ _ _ m) in E by done.
  destruct (decide _) as [Hc|Hc]; [|simplify_eq; split_and!; [done..|lia| |done]].
  - destruct (trimOne_same h baseFee mc m) as [Hsame Hgas]. pose proof Hsame as (Em&_).
    apply IH in E as (Hs&?&_&Hg); [|rewrite Em; lia].
    split_and!; [by eapply sameCell_trans|lia|lia|]. intros Hpos Hlim Hsum. rewrite Em in Hg. apply Hg; [done..|].
    rewrite Hgas, Hsum, (take_S_r _ _ _ Hm), sumGas_app. simpl.
    pose proof (sumGas_take_le i _ Hpos). rewrite wrapGas; lia.
  - intros _ [?|?]; exfalso; apply Hc; [by left|right; right].
    replace (S i - 1)%nat with i in * by lia. done.
Qed.

(** Every chunk of a group takes gas, and together they fit in a block. *)
Definition groupOk (g : group) : Prop :=
  Forall (Forall (λ m, 0 < smGasLimit m)) (gchunks g) ∧ sumGas (concat (gchunks g)) ≤ BlockGasLimit.

Lemma sumGas_prefix l l' : l `prefix_of` l' → Forall (λ m, 0 < smGasLimit m) l' → sumGas l ≤ sumGas l'.
Proof. intros [k ->] [_ Hk]%Forall_app. rewrite sumGas_app. pose proof (sumGas_nonneg k Hk). lia. Qed.

Lemma sumGas_concat_nonneg ls : Forall (Forall (λ m, 0 < smGasLimit m)) ls → 0 ≤ sumGas (concat ls).
Proof. intros Hl. by apply sumGas_nonneg, Forall_concat. Qed.

Lemma sumGas_concat_lookup ls i C : Forall (Forall (λ m, 0 < smGasLimit m)) ls → ls !! i = Some C →
  sumGas C ≤ sumGas (concat ls).
Proof.
  intros Hl HC. apply list_elem_of_split_length in HC as (l1&l2&->&_).
  apply Forall_app in Hl as [H1 [_ H2]%Forall_cons]. rewrite concat_app, sumGas_app. simpl. rewrite sumGas_app.
  pose proof (sumGas_concat_nonneg l1 H1). pose proof (sumGas_concat_nonneg l2 H2). lia.
Qed.

(** A trimmed chain keeps a beginning of its messages; it loses one when it was too large. *)
Lemma trimmed_spec h baseFee gl ml c : let c' := trimmed h baseFee gl ml c in
  cellFrame c c' ∧ cnext c' = cnext c ∧ (length (cmsgs c') ≤ length (cmsgs c))%nat ∧
  (cmsgs c ≠ [] → gl < cgasLimit c ∨ ml < Z.of_nat (length (cmsgs c)) → (length (cmsgs c') < length (cmsgs c))%nat) ∧
  (valid c' = true → valid c = true ∧ cmsgs c' ≠ [] ∧ cmsgs c' `prefix_of` cmsgs c) ∧
  (Forall (λ m, 0 < smGasLimit m) (cmsgs c) → cgasLimit c = sumGas (cmsgs c) ∧ sumGas (cmsgs c) ≤ BlockGasLimit → valid c' = true →
   cgasLimit c' = sumGas (cmsgs c')).
Proof.
  unfold trimmed. destruct (trimLoop h baseFee gl ml (length (cmsgs c)) c) as [mc1 n] eqn:E.
  apply trimLoop_run in E as ((Em&Ev&Emg&En&Ep&Et)&Hn&Hstrict&Hgas); [|done].
  assert (cmsgs c ≠ [] → gl < cgasLimit c ∨ ml < Z.of_nat (length (cmsgs c)) → (n < length (cmsgs c))%nat) as Hshort.
  { intros Hne Hbig. assert (0 < length (cmsgs c))%nat by (destruct (cmsgs c); simpl; [done|lia]).
    apply Hstrict; [done|]. destruct Hbig; [by left|right; lia]. }
  destruct mc1; simpl in Em, Ev, Emg, En, Ep, Et, Hgas. unfold cellFrame.
  destruct (decide (n = 0)%nat) as [->|Hn0]; rsimpl.
  - split_and!; auto; done.
  - rewrite Em, length_take, Nat.min_l, Ev by done. split_and!; auto; [intros Hv; split_and!; [done| |apply prefix_take]|].
    + intros E0. apply (f_equal length) in E0. rewrite length_take in E0. simpl in E0. lia.
    + intros Hpos (Hsum&?) _. apply Hgas; [done|lia|]. by rewrite firstn_all.
Qed.

(** The gas of a valid chain is that of its messages, and it fits in a block. *)
Lemma cell_gas_bound h g k i c : groupOk g → cellInv h g k i c → valid c = true →
  Forall (λ m, 0 < smGasLimit m) (cmsgs c) ∧ cgasLimit c = sumGas (cmsgs c) ∧ sumGas (cmsgs c) ≤ BlockGasLimit.
Proof.
  intros [Hpos Hlim] Hcell Hv. destruct (cell_gas _ _ _ _ _ Hcell Hv) as [Hgc Hpc].
  destruct (cell_msgs _ _ _ _ _ Hcell Hv) as (C&HC&Hpre). split; [done|]. split; [done|].
  pose proof (sumGas_concat_lookup _ i C Hpos HC). rewrite Forall_lookup in Hpos.
  pose proof (sumGas_prefix _ _ Hpre (Hpos _ _ HC)). lia.
Qed.

(** A chain replaced and the later ones invalidated. *)
Lemma replace_cut h g k R i c c' : groupInv h g k R → (i < length (gchunks g))%nat → h !! (gbase g + i)%nat = Some c →
  cellFrame c c' → cnext c' = cnext c → (length (cmsgs c') ≤ length (cmsgs c))%nat →
  (valid c' = true → valid c = true ∧ cmsgs c' ≠ [] ∧ cmsgs c' `prefix_of` cmsgs c ∧ cgasLimit c' = sumGas (cmsgs c')) →
  ∃ h', match cnext c with
        | None => Some (onChain (gbase g + i) (λ _, c') h)
        | Some q => h2 ← Invalidate (length h) (onChain (gbase g + i) (λ _, c') h) q;
                    Some (onChain (gbase g + i) (λ c, c {{ cnext := None }}) h2)
        end = Some h' ∧ cutAt g i h h' ∧
    ∃ d, h' !! (gbase g + i)%nat = Some d ∧ cmsgs d = cmsgs c' ∧ valid d = valid c' ∧ cgasLimit d = cgasLimit c'.
Proof.
  intros Hg Hi Hlk Hfr En Hlen Hv. set (h1 := onChain (gbase g + i) (λ _, c') h).
  assert (∀ p, p ≠ (gbase g + i)%nat → h1 !! p = h !! p) as Hf1.
  { intros p Hp. unfold h1. by rewrite lookup_onChain, decide_False. }
  assert (h1 !! (gbase g + i)%nat = Some c') as Hh1 by (unfold h1; by rewrite lookup_onChain, decide_True, Hlk).
  assert (length h1 = length h) as Hl1 by apply length_onChain.
  pose proof (groupInv_fuel _ _ _ _ Hg) as Hfuel. destruct (group_cells _ _ _ _ Hg i Hi) as (c0&?&Hcell). simplify_eq.
  destruct (cell_next _ _ _ _ _ Hcell) as [En0|[En0 Hsi]]; rewrite En0.
  - exists h1. split; [done|]. split; [|by eauto]. split; [done|intros p Hp; apply Hf1; lia|intros d Hd; simplify_eq; by eauto 10|].
    intros j d Hj Hd. exists d. rewrite Hf1 by lia. split_and!; [done|apply cellFrame_refl|lia|].
    destruct (valid d) eqn:Ev; [exfalso|done]. destruct (group_cells _ _ _ _ Hg j) as (d2&?&Hcd); [lia|]. simplify_eq.
    rewrite (cell_linked _ _ _ _ _ Hcd Ev i c) in En0 by (done || lia). done.
  - destruct (Invalidate_run g (length h) (S i) h1) as (h2&->&[Hl2 Hf2 Hc2]); [lia|lia| |].
    { intros j Hj. rewrite Hf1 by lia. apply (groupInv_links _ _ _ _ (S i) Hg). lia. }
    cbn [mbind option_bind]. eexists. split; [done|].
    assert (h2 !! (gbase g + i)%nat = Some c') as Hh2 by (rewrite Hf2 by lia; done).
    split; [|eexists; split; [rewrite lookup_onChain, decide_True, Hh2 by done; reflexivity|done]].
    split; [rewrite length_onChain; lia| | |].
    + intros p Hp. rewrite lookup_onChain, decide_False, Hf2, Hf1 by lia. done.
    + intros d Hd. simplify_eq. rewrite lookup_onChain, decide_True, Hh2 by done. eexists. split; [done|].
      split; [eapply cellFrame_trans; [exact Hfr|]; split_and!; rsimpl; auto|]. by rsimpl.
    + intros j d Hj Hd. rewrite lookup_onChain, decide_False by lia.
      destruct (Hc2 j d) as (d'&?&?&?&Hf'&Hp); [lia|by rewrite Hf1 by lia|]. exists d'. split_and!; [done..|].
      destruct (valid d) eqn:Ev; [|by apply Hf']. destruct (group_cells _ _ _ _ Hg j) as (d2&?&Hcd); [lia|]. simplify_eq.
      apply Hp. intros j' e Hj'. rewrite Hf1 by lia. intros He. by rewrite (cell_linked _ _ _ _ _ Hcd Ev j' e) by (done || lia).
Qed.

(** Trimming cuts the group at the chain. *)
Lemma Trim_cut h g k R i c gl ml baseFee : groupOk g → groupInv h g k R → (i < length (gchunks g))%nat →
  h !! (gbase g + i)%nat = Some c →
  ∃ h' c', Trim h (gbase g + i) gl ml baseFee = Some h' ∧ cutAt g i h h' ∧ h' !! (gbase g + i)%nat = Some c' ∧
    (cmsgs c ≠ [] → gl < cgasLimit c ∨ ml < Z.of_nat (length (cmsgs c)) → (length (cmsgs c') < length (cmsgs c))%nat).
Proof.
  intros Hok Hg Hi Hlk. unfold Trim. rewrite Hlk. cbn [mbind option_bind].
  destruct (group_cells _ _ _ _ Hg i Hi) as (c0&?&Hcell). simplify_eq.
  destruct (trimmed_spec h baseFee gl ml c) as (Hfr&En&Hlen&Hstrict&Hv&Hgas).
  destruct (replace_cut h g k R i c (trimmed h baseFee gl ml c)) as (h'&->&Hcut&d&Hd&Ed&_); [done..| |].
  - intros Hv'. destruct (Hv Hv') as (Hvc&?&?). destruct (cell_gas_bound _ _ _ _ _ Hok Hcell Hvc). auto.
  - exists h', d. split_and!; [done..|]. by rewrite Ed.
Qed.

(** ** How many messages are left *)

Definition msgCount (h : list msgChain) : nat := length (concat (map cmsgs h)).

Lemma msgCount_cons c h : msgCount (c :: h) = (length (cmsgs c) + msgCount h)%nat.
Proof. unfold msgCount. simpl. by rewrite length_app. Qed.

Lemma msgCount_le h h' : length h' = length h →
  (∀ p c c', h !! p = Some c → h' !! p = Some c' → (length (cmsgs c') ≤ length (cmsgs c))%nat) →
  (msgCount h' ≤ msgCount h)%nat.
Proof.
  revert h'. induction h as [|c h IH]; intros [|c' h'] Hl Hp; try done. rewrite !msgCount_cons.
  pose proof (Hp 0%nat c c' eq_refl eq_refl). assert (msgCount h' ≤ msgCount h)%nat; [|lia].
  apply IH; [by simplify_eq/=|]. intros p. apply (Hp (S p)).
Qed.

Lemma msgCount_lt h h' q d d' : length h' = length h →
  (∀ p c c', h !! p = Some c → h' !! p = Some c' → (length (cmsgs c') ≤ length (cmsgs c))%nat) →
  h !! q = Some d → h' !! q = Some d' → (length (cmsgs d') < length (cmsgs d))%nat → (msgCount h' < msgCount h)%nat.
Proof.
  revert h' q. induction h as [|c h IH]; intros [|c' h'] q Hl Hp Hd Hd' Hlt; try done.
  rewrite !msgCount_cons. pose proof (Hp 0%nat c c' eq_refl eq_refl). destruct q as [|q]; simplify_eq/=.
  - assert (msgCount h' ≤ msgCount h)%nat; [|lia]. apply msgCount_le; [done|]. intros p. apply (Hp (S p)).
  - assert (msgCount h' < msgCount h)%nat; [|lia]. apply (IH h' q); [done| |done..]. intros p. apply (Hp (S p)).
Qed.

Lemma cutAt_shrinks g i h h' p c c' : cutAt g i h h' → h !! p = Some c → h' !! p = Some c' →
  (length (cmsgs c') ≤ length (cmsgs c))%nat.
Proof.
  intros [_ Hf Hh Hl] Hc Hc'.
  destruct (decide (p < gbase g + i ∨ gbase g + length (gchunks g) ≤ p)%nat) as [Ho|Ho].
  { rewrite Hf in Hc' by done. by simplify_eq. }
  destruct (decide (p = gbase g + i)%nat) as [->|Hne].
  - destruct (Hh c Hc) as (?&?&_&?&_). by simplify_eq.
  - replace p with (gbase g + (p - gbase g))%nat in * by lia.
    destruct (Hl (p - gbase g)%nat c) as (?&?&_&?&_); [lia|done|]. by simplify_eq.
Qed.

(** A cut shortens no chain of another group and makes no chain valid. *)
Lemma cutAt_valid g i h h' p : (i < length (gchunks g))%nat → (∀ j, (j < length (gchunks g))%nat → is_Some (h !! (gbase g + j)%nat)) →
  cutAt g i h h' → isValid h' p = true → isValid h p = true ∧ ¬ (gbase g + i < p < gbase g + length (gchunks g))%nat.
Proof.
  intros Hi Hall [_ Hf Hh Hl] Hv.
  destruct (decide (p < gbase g + i ∨ gbase g + length (gchunks g) ≤ p)%nat) as [Ho|Ho].
  { unfold isValid in *. rewrite Hf in Hv by done. split; [done|lia]. }
  destruct (decide (p = gbase g + i)%nat) as [->|Hne].
  - destruct (Hall i Hi) as [c Hc]. destruct (Hh c Hc) as (c'&Hc'&_&_&Hvc). unfold isValid in *. rewrite Hc' in Hv.
    rewrite Hc. destruct (Hvc Hv). split; [done|lia].
  - replace p with (gbase g + (p - gbase g))%nat in * by lia. destruct (Hall (p - gbase g)%nat) as [c Hc]; [lia|].
    destruct (Hl (p - gbase g)%nat c) as (c'&Hc'&_&_&Hvc); [lia|done|]. unfold isValid in Hv. rewrite Hc' in Hv. congruence.
Qed.

(** ** All senders *)

Section senders.
(** The sender of a message, under one name. *)
Variable own : SignedMessage → Address.
Variable gs : list group.
(** The messages of other senders that have been selected before. *)
Variable rest : list SignedMessage.

(** The groups fill the heap, one for each sender. *)
Record layout (h : list msgChain) : Prop := {
  lay_cover : ∀ p, (p < length h)%nat → ∃ g, g ∈ gs ∧ inGroup g p;
  lay_disjoint : ∀ g g' p, g ∈ gs → g' ∈ gs → inGroup g p → inGroup g' p → g = g';
  lay_owner : ∀ g g', g ∈ gs → g' ∈ gs → gowner g = gowner g' → g = g';
  lay_own : ∀ g m, g ∈ gs → m ∈ concat (gchunks g) → own m = gowner g;
  lay_ok : ∀ g, g ∈ gs → groupOk g
}.

(** What has been taken of every sender, in the list of the messages taken so far. *)
Record takenInv (h : list msgChain) (out : list SignedMessage) (ks : Address → nat) : Prop := {
  tk_layout : layout h;
  tk_groups : ∀ g, g ∈ gs → groupInv h g (ks (gowner g)) (filter (λ m, own m = gowner g) out);
  tk_rest : filter (λ m, own m ∉ map gowner gs) out = rest
}.

Lemma filter_own_all a l : Forall (λ m, own m = a) l → filter (λ m, own m = a) l = l.
Proof. apply filter_all. Qed.

Lemma filter_own_none a b l : a ≠ b → Forall (λ m, own m = a) l → filter (λ m, own m = b) l = [].
Proof. intros Hab Hl. apply filter_none. eapply Forall_impl; [exact Hl|]. simpl. intros m ->. done. Qed.

(** The messages of a chain and of those before it are the sender's. *)
Lemma chain_own h out ks g i c : takenInv h out ks → g ∈ gs → (i < length (gchunks g))%nat →
  h !! (gbase g + i)%nat = Some c → valid c = true →
  Forall (λ m, own m = gowner g) (concat (drop (ks (gowner g)) (take i (gchunks g))) ++ cmsgs c).
Proof.
  intros [Hlay Hgs _] Hg Hi Hc Hv. apply Forall_forall. intros m Hm. apply (lay_own _ Hlay g m Hg).
  destruct (group_cells _ _ _ _ (Hgs g Hg) i) as (c'&?&Hcell); [lia|]. simplify_eq.
  destruct (cell_msgs _ _ _ _ _ Hcell Hv) as (C&HC&[t ->]). apply elem_of_app in Hm as [Hm|Hm].
  - apply list_elem_of_In, in_concat in Hm as (x&Hx&Hm). apply list_elem_of_In, in_concat. exists x. split; [|done].
    apply list_elem_of_In. apply list_elem_of_In in Hx.
    rewrite <- (take_drop i (gchunks g)), <- (take_drop (ks (gowner g)) (take i (gchunks g))), !elem_of_app. by left; right.
  - apply list_elem_of_In, in_concat. exists (cmsgs c ++ t). split; [|apply list_elem_of_In, elem_of_app; by left].
    apply list_elem_of_In. by apply list_elem_of_lookup_2 in HC.
Qed.

(** Messages of one sender are added to those that are taken. *)
Lemma takenInv_app h out ks g k l : takenInv h out ks → g ∈ gs → Forall (λ m, own m = gowner g) l →
  groupInv h g k (filter (λ m, own m = gowner g) out ++ l) → takenInv h (out ++ l) (<[gowner g := k]> ks).
Proof.
  intros [Hlay Hgs Hrest] Hg Hown Htake. split; [done| |].
  2: { rewrite filter_app, Hrest, (filter_none _ l); [by rewrite app_nil_r|].
       eapply Forall_impl; [exact Hown|]. simpl. intros m ->. intros Hn. apply Hn. by apply list_elem_of_fmap_2. }
  intros g' Hg'. rewrite filter_app. destruct (decide (gowner g' = gowner g)) as [E|Hne].
  - assert (g' = g) as -> by by apply (lay_owner _ Hlay). rewrite fn_lookup_insert, (filter_own_all _ _ Hown). done.
  - rewrite fn_lookup_insert_ne by done. rewrite (filter_own_none (gowner g) _ _ (not_eq_sym Hne) Hown). rewrite app_nil_r. by apply Hgs.
Qed.

(** A chain and the chains it waits for are taken. *)
Lemma takenInv_take h out ks g i c : takenInv h out ks → g ∈ gs → (ks (gowner g) ≤ i < length (gchunks g))%nat →
  h !! (gbase g + i)%nat = Some c → valid c = true →
  takenInv h (out ++ concat (drop (ks (gowner g)) (take i (gchunks g))) ++ cmsgs c) (<[gowner g := S i]> ks).
Proof.
  intros Ht Hg Hi Hc Hv. apply (takenInv_app h out ks g); [done|done|by apply (chain_own h out ks); [..|lia|done|done]|].
  apply groupInv_take; [by apply (tk_groups _ _ _ Ht)|done..].
Qed.

(** A group is cut. *)
Lemma takenInv_cut h out ks g i h' : takenInv h out ks → g ∈ gs → (i < length (gchunks g))%nat → cutAt g i h h' → takenInv h' out ks.
Proof.
  intros [Hlay Hgs Hrest] Hg Hi Hcut. split; [|intros g' Hg'|done].
  - destruct Hlay. split; [|done..]. by rewrite (cut_length _ _ _ _ Hcut).
  - destruct (decide (g' = g)) as [->|Hne]; [by eapply cutAt_groupInv; eauto|].
    apply (groupInv_frame h); [|by apply Hgs]. intros p Hp. apply (cut_frame _ _ _ _ Hcut).
    destruct (decide (p < gbase g + i ∨ gbase g + length (gchunks g) ≤ p)%nat); [done|].
    exfalso. apply Hne. apply (lay_disjoint _ Hlay g' g p); [done..|]. unfold inGroup. lia.
Qed.

(** ** Selection within the limits of a block *)

(** What has been taken of a sender. *)
Definition taken (a : Address) (sm : selectedMessages) : list SignedMessage := filter (λ m, own m = a) (smsgs sm).

(** The limits of the block are kept. *)
Definition budgetOk (sm : selectedMessages) : Prop :=
  0 ≤ sgasLimit sm ≤ BlockGasLimit ∧ sgasLimit sm + sumGas (smsgs sm) = BlockGasLimit ∧ Z.of_nat (length (smsgs sm)) ≤ BlockMessageLimit.

Record selInv (h : list msgChain) (sm : selectedMessages) (ks : Address → nat) : Prop := {
  sel_taken : takenInv h (smsgs sm) ks;
  sel_budget : budgetOk sm
}.

Lemma sel_layout h sm ks : selInv h sm ks → layout h.
Proof. intros [[] _]. done. Qed.

Lemma sel_groups h sm ks : selInv h sm ks → ∀ g, g ∈ gs → groupInv h g (ks (gowner g)) (taken (gowner g) sm).
Proof. intros [[] _]. done. Qed.

Lemma selInv_take h sm ks g i c sm' : selInv h sm ks → g ∈ gs → (ks (gowner g) ≤ i < length (gchunks g))%nat →
  h !! (gbase g + i)%nat = Some c → valid c = true → budgetOk sm' →
  smsgs sm' = smsgs sm ++ concat (drop (ks (gowner g)) (take i (gchunks g))) ++ cmsgs c →
  selInv h sm' (<[gowner g := S i]> ks).
Proof. intros [Ht _] Hg Hi Hc Hv Hb Em. split; [|done]. rewrite Em. by apply takenInv_take. Qed.

Lemma selInv_cut h sm ks g i h' : selInv h sm ks → g ∈ gs → (i < length (gchunks g))%nat → cutAt g i h h' → selInv h' sm ks.
Proof. intros [Ht Hb] Hg Hi Hcut. split; [by eapply takenInv_cut|done]. Qed.
End senders.
