(* ===== verification/MsgSelectGreedy.v ===== *)
(** * Greedy selection makes valid blocks

    The chains are tried by performance; a chain that does not fit is trimmed, and the chains that
    depend on it are dropped. *)

From Stdlib Require Import SpecFloat Sorted.
From coqutil Require Import Datatypes.RecordSetters.
From stdpp Require Import strings numbers base functions gmap fin_maps sets list.
From S2P Require Import Prelude GoStrings GoSort GoFloat FileTypes TipSets GasFees ProofLog SealTasks SealResources.
From S2P Require Import MsgSet MsgChains MsgChainsSpec MsgSelect MsgSelectGroups.
Local Open Scope Z_scope.

(** ** Adding one chain *)

Definition tooLarge (sm : selectedMessages) (c : msgChain) : Prop :=
  sgasLimit sm < cgasLimit c ∨ msgRoom sm c < Z.of_nat (length (cmsgs c)).

Lemma tryToAdd_cases sm c : knownType c →
  (tooLarge sm c ∧ tryToAdd sm c = (sm, false)) ∨
  (¬ tooLarge sm c ∧ ∃ sm', tryToAdd sm c = (sm', true) ∧ smsgs sm' = smsgs sm ++ cmsgs c ∧
     sgasLimit sm' = wrapInt64 (sgasLimit sm - cgasLimit c)).
Proof.
  intros Ht. unfold tryToAdd, tooLarge, msgRoom.
  destruct (decide (BlockMessageLimit < _ ∨ _)) as [Hc|Hc].
  { left. split; [|done]. destruct Hc; [right|by left]. destruct (csigType c); lia. }
  destruct Ht as [-> | ->]; case_decide; [left|right|left|right]; (split; [lia|]); by eauto.
Qed.

Lemma tryToAdd_budget sm c sm' : knownType c → budgetOk sm → Forall (λ m, 0 < smGasLimit m) (cmsgs c) →
  cgasLimit c = sumGas (cmsgs c) → tryToAdd sm c = (sm', true) → budgetOk sm' ∧ smsgs sm' = smsgs sm ++ cmsgs c.
Proof.
  intros Ht (Hg0&Hg1&Hn) Hpos Hgas E. destruct (tryToAdd_cases sm c Ht) as [[_ E']|(Hfit&sm2&E'&Em&Eg)]; [congruence|].
  rewrite E in E'. simplify_eq. split; [|done]. pose proof (sumGas_nonneg _ Hpos). unfold tooLarge, msgRoom in Hfit.
  assert (Z.of_nat (length (cmsgs c)) ≤ BlockMessageLimit - Z.of_nat (length (smsgs sm))) as Hroom.
  { destruct Ht as [Ht|Ht]; rewrite Ht in Hfit; lia. }
  unfold budgetOk. rewrite Em, Eg, length_app, sumGas_app, wrapGas by lia. lia.
Qed.

Section greedy.
Variable own : SignedMessage → Address.
Variable gs : list group.
Variable rest : list SignedMessage.

(** ** The chains that are left *)

(** Of two valid chains of a sender the earlier one comes first. *)
Definition orderOk (h : list msgChain) (x y : nat) : Prop :=
  ∀ g, g ∈ gs → inGroup g x → inGroup g y → isValid h x = true → isValid h y = true → (x < y)%nat.

(** The list has every valid chain that was not taken, and none that was. *)
Record listInv (h : list msgChain) (ks : Address → nat) (L : list nat) : Prop := {
  list_nodup : NoDup L;
  list_heap : ∀ p, p ∈ L → (p < length h)%nat;
  list_taken : ∀ g i, g ∈ gs → (i < ks (gowner g))%nat → (i < length (gchunks g))%nat → (gbase g + i)%nat ∉ L;
  list_rest : ∀ g i, g ∈ gs → (ks (gowner g) ≤ i < length (gchunks g))%nat → isValid h (gbase g + i) = true →
    (gbase g + i)%nat ∈ L;
  list_order : StronglySorted (orderOk h) L
}.

(** The group and the index of a place. *)
Lemma place h out ks p : takenInv own gs rest h out ks → (p < length h)%nat →
  ∃ g i c, g ∈ gs ∧ (i < length (gchunks g))%nat ∧ p = (gbase g + i)%nat ∧ h !! p = Some c ∧
    cellInv h g (ks (gowner g)) i c.
Proof.
  intros [Hlay Hgs _] Hp. destruct (lay_cover _ _ _ Hlay p Hp) as (g&Hg&Hin). unfold inGroup in Hin.
  destruct (group_cells _ _ _ _ (Hgs g Hg) (p - gbase g)%nat) as (c&Hc&Hcell); [lia|].
  exists g, (p - gbase g)%nat, c. replace (gbase g + (p - gbase g))%nat with p in * by lia. split_and!; [done|lia|done|done|done].
Qed.

Lemma listInv_skip h ks p L : listInv h ks (p :: L) → isValid h p = false → listInv h ks L.
Proof.
  intros [Hd Hh Ht Hr Ho] Hv. apply NoDup_cons in Hd as [_ Hd]. apply StronglySorted_inv in Ho as [Ho _]. split; [done| | | |done].
  - intros q Hq. apply Hh. by right.
  - intros g i Hg Hi Hi' Hin. apply (Ht g i); [done..|by right].
  - intros g i Hg Hi Hvi. destruct (elem_of_cons L (gbase g + i)%nat p) as [[E|?] _]; [by apply Hr|congruence|done].
Qed.

(** The first chain of the list, if it is valid, is the next one of its sender. *)
Lemma head_is_next h out ks p L g i c : takenInv own gs rest h out ks → listInv h ks (p :: L) → g ∈ gs →
  (i < length (gchunks g))%nat → p = (gbase g + i)%nat → h !! p = Some c → valid c = true →
  cellInv h g (ks (gowner g)) i c → i = ks (gowner g).
Proof.
  intros Hsel [Hd Hh Ht Hr Ho] Hg Hi Ep Hc Hv Hcell. set (k := ks (gowner g)) in *.
  destruct (Nat.lt_trichotomy i k) as [Hlt|[?|Hgt]]; [|done|].
  { exfalso. apply (Ht g i); [done..|]. rewrite <- Ep. by left. }
  exfalso. destruct (tk_groups _ _ _ _ _ _ Hsel g Hg) as [_ _ _ Hcs]. destruct (Hcs k) as (d&Hd'&_); [lia|].
  destruct (cell_before _ _ _ _ _ Hcell Hv ltac:(lia) k d ltac:(lia) Hd') as [Hvd _].
  assert (isValid h (gbase g + k) = true) as Hvk by (unfold isValid; by rewrite Hd').
  assert ((gbase g + k)%nat ∈ p :: L) as Hin by (apply Hr; [done|lia|done]).
  apply elem_of_cons in Hin as [E|Hin]; [lia|]. apply StronglySorted_inv in Ho as [_ Ho].
  rewrite Forall_forall in Ho. assert (isValid h p = true) as Hvp by (unfold isValid; by rewrite Hc).
  assert (p < gbase g + k)%nat; [|lia]. apply (Ho _ Hin g Hg); [unfold inGroup; lia..|done|done].
Qed.

(** The first chain of the list is taken. *)
Lemma listInv_take h out ks p L g i : takenInv own gs rest h out ks → listInv h ks (p :: L) → g ∈ gs →
  (i < length (gchunks g))%nat → p = (gbase g + i)%nat → i = ks (gowner g) → listInv h (<[gowner g := S i]> ks) L.
Proof.
  intros Htk [Hd Hh Ht Hr Ho] Hg Hi -> Hik. pose proof (tk_layout _ _ _ _ _ _ Htk) as Hlay.
  apply NoDup_cons in Hd as [Hn Hd]. apply StronglySorted_inv in Ho as [Ho _].
  split; [done|intros q Hq; apply Hh; by right| | |done].
  - intros g' j Hg' Hj Hj' Hin. destruct (decide (gowner g' = gowner g)) as [Eo|Hne].
    + assert (g' = g) as -> by by apply (lay_owner _ _ _ Hlay).
      rewrite fn_lookup_insert in Hj. destruct (decide (j = i)) as [->|]; [done|]. apply (Ht g j); [done|lia|done|by right].
    + rewrite fn_lookup_insert_ne in Hj by done. apply (Ht g' j); [done..|by right].
  - intros g' j Hg' Hj Hvj. destruct (decide (gowner g' = gowner g)) as [Eo|Hne].
    + assert (g' = g) as -> by by apply (lay_owner _ _ _ Hlay).
      rewrite fn_lookup_insert in Hj. destruct (elem_of_cons L (gbase g + j)%nat (gbase g + i)%nat) as [[?|?] _];
        [apply Hr; [done|lia|done]|lia|done].
    + rewrite fn_lookup_insert_ne in Hj by done.
      destruct (elem_of_cons L (gbase g' + j)%nat (gbase g + i)%nat) as [[E'|?] _]; [by apply Hr| |done].
      exfalso. apply Hne. f_equal. apply (lay_disjoint _ _ _ Hlay g' g (gbase g + i)%nat); [done..| |]; unfold inGroup; lia.
Qed.

Lemma greedy_add h sm ks p L c sm' : selInv own gs rest h sm ks → listInv h ks (p :: L) → h !! p = Some c → valid c = true →
  tryToAdd sm c = (sm', true) → ∃ ks', selInv own gs rest h sm' ks' ∧ listInv h ks' L.
Proof.
  intros Hsel Hl Hc Hv E. destruct (place h (smsgs sm) ks p (sel_taken _ _ _ _ _ _ Hsel)) as (g&i&c'&Hg&Hi&Ep&Hc'&Hcell).
  { apply (list_heap _ _ _ Hl). by left. }
  simplify_eq. assert (i = ks (gowner g)) as Hik by by eapply head_is_next; eauto using sel_taken.
  destruct (cell_gas_bound _ _ _ _ _ (lay_ok _ _ _ (sel_layout _ _ _ _ _ _ Hsel) g Hg) Hcell Hv) as (Hpos&Hgas&_).
  destruct (tryToAdd_budget sm c sm') as [Hb Em]; [by apply (cell_type _ _ _ _ _ Hcell)|by apply (sel_budget _ _ _ _ _ _ Hsel)|done..|].
  exists (<[gowner g := S i]> ks). split; [|by eapply listInv_take; eauto using sel_taken].
  apply (selInv_take own gs rest h sm ks g i c); [done|done|lia|done..|].
  rewrite <- Hik, drop_ge by (rewrite length_take; lia). done.
Qed.

(** ** Trimming and pushing down *)

Lemma pushDown_perm less p L : pushDown less p L ≡ₚ p :: L.
Proof.
  induction L as [|q L IH]; simpl; [done|]. destruct (less p q); [done|]. rewrite IH. apply Permutation_swap.
Qed.

Lemma pushDown_sorted (R : nat → nat → Prop) less p L : StronglySorted R (p :: L) → Forall (λ q, R q p) L →
  StronglySorted R (pushDown less p L).
Proof.
  induction L as [|q L IH]; intros Hs Hq; simpl; [done|]. destruct (less p q); [done|].
  apply StronglySorted_inv in Hs as [Hs Hp]. apply StronglySorted_inv in Hs as [Hs Hql].
  apply Forall_cons in Hp as [_ Hp], Hq as [Hqp Hq]. constructor; [apply IH; [by constructor|done]|].
  rewrite pushDown_perm. by constructor.
Qed.

Lemma sorted_impl (R Q : nat → nat → Prop) L : (∀ x y, R x y → Q x y) → StronglySorted R L → StronglySorted Q L.
Proof.
  intros HRQ. induction 1 as [|x L _ IH Hx]; constructor; [done|]. eapply Forall_impl; [exact Hx|]. simpl. auto.
Qed.

(** The first chain of the list is cut, and pushed down or not. *)
Lemma listInv_cut h h' out ks p L g i L' : takenInv own gs rest h out ks → listInv h ks (p :: L) → g ∈ gs →
  (i < length (gchunks g))%nat → p = (gbase g + i)%nat → cutAt g i h h' →
  L' = p :: L ∨ (∃ less, L' = pushDown less p L) → listInv h' ks L'.
Proof.
  intros Htk [Hd' Hh Ht Hr Ho] Hg Hi -> Hcut EL.
  assert (∀ q, isValid h' q = true → isValid h q = true ∧ ¬ (gbase g + i < q < gbase g + length (gchunks g))%nat) as Hvalid.
  { intros q. apply (cutAt_valid g i); [done| |done]. intros j Hj.
    destruct (group_cells _ _ _ _ (tk_groups _ _ _ _ _ _ Htk g Hg) j Hj) as (e&He&_). eauto. }
  assert (L' ≡ₚ (gbase g + i)%nat :: L) as HL' by (destruct EL as [->|[less ->]]; [done|apply pushDown_perm]).
  split.
  - by rewrite HL'.
  - intros q. rewrite HL', (cut_length _ _ _ _ Hcut). apply Hh.
  - intros g' j. rewrite HL'. apply Ht.
  - intros g' j Hg' Hj Hvj. rewrite HL'. apply Hr; [done..|]. by apply Hvalid.
  - assert (StronglySorted (orderOk h') ((gbase g + i)%nat :: L)) as Ho'.
    { eapply sorted_impl; [|exact Ho]. intros x y Hxy g' ??? [Hx _]%Hvalid [Hy _]%Hvalid. by apply (Hxy g'). }
    destruct EL as [->|[less ->]]; [done|]. apply pushDown_sorted; [done|].
    apply Forall_forall. intros q Hq g' Hg' Hq' Hp' Hvq _. destruct (Hvalid q Hvq) as [_ Hn].
    assert (g' = g) as ->.
    { apply (lay_disjoint _ _ _ (tk_layout _ _ _ _ _ _ Htk) g' g (gbase g + i)%nat); [done..|]. unfold inGroup. lia. }
    assert (q ≠ gbase g + i)%nat by (intros ->; by apply NoDup_cons in Hd' as []). unfold inGroup in Hq'. lia.
Qed.

Lemma greedy_trim h sm ks p L c baseFee : selInv own gs rest h sm ks → listInv h ks (p :: L) → h !! p = Some c →
  valid c = true → tooLarge sm c →
  ∃ h', trimChain sm h p baseFee = Some h' ∧ (msgCount h' < msgCount h)%nat ∧ selInv own gs rest h' sm ks ∧
    listInv h' ks (if isValid h' p then pushDown (lessAt Before h') p L else p :: L).
Proof.
  intros Hsel Hl Hc Hv Hlarge. destruct (place h (smsgs sm) ks p (sel_taken _ _ _ _ _ _ Hsel)) as (g&i&c'&Hg&Hi&Ep&Hc'&Hcell).
  { apply (list_heap _ _ _ Hl). by left. }
  rewrite Hc in Hc'. simplify_eq. pose proof (sel_groups _ _ _ _ _ _ Hsel g Hg) as Hinv.
  destruct (Trim_cut h g (ks (gowner g)) (taken own (gowner g) sm) i c' (sgasLimit sm) (msgRoom sm c') baseFee) as (h'&d&E&Hcut&Hd&Hshort);
    [by apply (lay_ok _ _ _ (sel_layout _ _ _ _ _ _ Hsel))|done..|].
  exists h'. unfold trimChain. rewrite Hc. cbn [mbind option_bind]. rewrite decide_True by done.
  split_and!; [done| |by eapply selInv_cut|].
  - eapply (msgCount_lt h h'); [by apply (cut_length _ _ _ _ Hcut)|by intros; eapply cutAt_shrinks|exact Hc|exact Hd|].
    apply Hshort; [by apply (cell_nonempty _ _ _ _ _ Hcell)|done].
  - eapply listInv_cut; [by apply (sel_taken _ _ _ _ _ _ Hsel)|done|done|done|done|done|].
    destruct (isValid h' _); [right; by eexists|by left].
Qed.

(** ** The loops *)

(** The first chain of a list waits to be trimmed. *)
Definition waiting (h : list msgChain) (sm : selectedMessages) (ks : Address → nat) (L : list nat) : Prop :=
  L = [] ∨ (listInv h ks L ∧ ∃ p L' c, L = p :: L' ∧ h !! p = Some c ∧ valid c = true ∧ tooLarge sm c).

Lemma lookup_head h ks p L : listInv h ks (p :: L) → ∃ c, h !! p = Some c.
Proof. intros Hl. apply lookup_lt_is_Some_2. apply (list_heap _ _ _ Hl). by left. Qed.

Lemma addHead_run L : ∀ h sm ks, selInv own gs rest h sm ks → listInv h ks L → Forall (λ p, isValid h p = true) L →
  ∃ sm' L' ks', addHead h sm L = (sm', L') ∧ selInv own gs rest h sm' ks' ∧ waiting h sm' ks' L'.
Proof.
  induction L as [|p L IH]; intros h sm ks Hsel Hl Hv; simpl; [exists sm, [], ks; by split_and!; [..|left]|].
  destruct (lookup_head _ _ _ _ Hl) as [c Hc]. rewrite Hc. apply Forall_cons in Hv as [Hvp Hv].
  unfold isValid in Hvp. rewrite Hc in Hvp.
  destruct (SFltb (gasPerf c) fzero); [exists sm, [], ks; by split_and!; [..|left]|].
  destruct (place h (smsgs sm) ks p (sel_taken _ _ _ _ _ _ Hsel)) as (g&i&c'&Hg&Hi&Ep&Hc'&Hcell); [by apply lookup_lt_Some in Hc|].
  destruct (tryToAdd_cases sm c) as [[Hlarge E]|(_&sm'&E&_)].
  - simplify_eq. by apply (cell_type _ _ _ _ _ Hcell).
  - rewrite E. exists sm, (p :: L), ks. split_and!; [done..|]. right. split; [done|]. by eauto 10.
  - rewrite E. destruct (greedy_add h sm ks p L c sm') as (ks'&Hsel'&Hl'); [done..|]. by apply (IH h sm' ks').
Qed.

Lemma addTail_run L : ∀ h sm ks, selInv own gs rest h sm ks → listInv h ks L →
  ∃ sm' o ks', addTail h sm L = (sm', o) ∧ selInv own gs rest h sm' ks' ∧
    match o with None => True | Some L' => waiting h sm' ks' L' end.
Proof.
  induction L as [|p L IH]; intros h sm ks Hsel Hl; simpl; [by exists sm, None, ks|].
  destruct (lookup_head _ _ _ _ Hl) as [c Hc]. rewrite Hc. destruct (valid c) eqn:Hv; simpl.
  2: { apply (IH h sm ks Hsel). apply (listInv_skip _ _ p); [done|]. unfold isValid. by rewrite Hc. }
  destruct (SFltb (gasPerf c) fzero); [by exists sm, None, ks|].
  destruct (place h (smsgs sm) ks p (sel_taken _ _ _ _ _ _ Hsel)) as (g&i&c'&Hg&Hi&Ep&Hc'&Hcell); [by apply lookup_lt_Some in Hc|].
  destruct (tryToAdd_cases sm c) as [[Hlarge E]|(_&sm'&E&_)].
  - simplify_eq. by apply (cell_type _ _ _ _ _ Hcell).
  - rewrite E. exists sm, (Some (p :: L)), ks. split_and!; [done..|]. right. split; [done|]. by eauto 10.
  - rewrite E. destruct (greedy_add h sm ks p L c sm') as (ks'&Hsel'&Hl'); [done..|]. by apply (IH h sm' ks').
Qed.

(** The tail loop ends: every turn shortens a chain. *)
Lemma tailLoop_run baseFee fuel : ∀ h sm ks L, (msgCount h < fuel)%nat → selInv own gs rest h sm ks → waiting h sm ks L →
  ∃ h' sm' ks', tailLoop baseFee fuel h sm L = Some (h', sm') ∧ selInv own gs rest h' sm' ks'.
Proof.
  induction fuel as [|fuel IH]; intros h sm ks L Hf Hsel Hw; [lia|].
  destruct Hw as [->|(Hl&p&L'&c&->&Hc&Hv&Hlarge)]; simpl; [by eauto|].
  destruct (decide (sgasLimit sm < MinGas)); [by eauto|].
  destruct (greedy_trim h sm ks p L' c baseFee) as (h1&->&Hcount&Hsel1&Hl1); [done..|]. cbn [mbind option_bind].
  destruct (addTail_run _ h1 sm ks Hsel1 Hl1) as (sm'&[L2|]&ks'&->&Hsel'&Hw'); [|by eauto].
  apply (IH h1 sm' ks' L2); [lia|done..].
Qed.
End greedy.
