(* ===== verification/MsgSelectSpec.v ===== *)
(** * Blocks of selected messages are valid

    The chains of all senders are laid out in a heap; greedy selection, with the preferred senders
    first, takes from every sender a beginning of the messages that are due. *)

From Stdlib Require Import SpecFloat Sorted.
From coqutil Require Import Datatypes.RecordSetters.
From stdpp Require Import strings numbers base functions gmap fin_maps sets list.
From S2P Require Import Prelude GoStrings GoSort GoFloat FileTypes TipSets GasFees ProofLog SealTasks SealResources.
From S2P Require Import MsgSet MsgChains MsgChainsSpec MsgSelect MsgSelectGroups MsgSelectGreedy.
Local Open Scope Z_scope.

(** ** Groups side by side *)

Fixpoint placed (base : nat) (gs : list group) : Prop :=
  match gs with
  | [] => True
  | g :: gs' => gbase g = base ∧ placed (base + length (gchunks g)) gs'
  end.

Definition extent (gs : list group) : nat := foldr (λ g n, (length (gchunks g) + n)%nat) 0%nat gs.

Lemma placed_range gs : ∀ base g, placed base gs → g ∈ gs →
  (base ≤ gbase g)%nat ∧ (gbase g + length (gchunks g) ≤ base + extent gs)%nat.
Proof.
  induction gs as [|g0 gs IH]; intros base g; [by intros _ ?%elem_of_nil|]. simpl. intros [Hb Hp] [->|Hg]%elem_of_cons.
  - lia.
  - destruct (IH _ _ Hp Hg). lia.
Qed.

Lemma placed_cover gs : ∀ base p, placed base gs → (base ≤ p < base + extent gs)%nat → ∃ g, g ∈ gs ∧ inGroup g p.
Proof.
  induction gs as [|g gs IH]; intros base p; simpl; [lia|]. intros [Hb Hp] Hr.
  destruct (decide (p < base + length (gchunks g))%nat).
  - exists g. split; [by left|]. unfold inGroup. lia.
  - destruct (IH _ p Hp) as (g'&?&?); [lia|]. exists g'. split; [by right|done].
Qed.

Lemma placed_disjoint gs : ∀ base g g' p, placed base gs → g ∈ gs → g' ∈ gs → inGroup g p → inGroup g' p → g = g'.
Proof.
  induction gs as [|g0 gs IH]; intros base g g' p; [by intros _ ?%elem_of_nil|]. simpl. unfold inGroup.
  intros [Hb Hp] [->|Hg]%elem_of_cons [->|Hg']%elem_of_cons H1 H2; [done| | |by eapply IH].
  - destruct (placed_range _ _ _ Hp Hg'). lia.
  - destruct (placed_range _ _ _ Hp Hg). lia.
Qed.

(** ** A group as it is made *)

Definition freshCells (baseFee : Z) (h : list msgChain) (g : group) : Prop :=
  ∃ cs, gchunks g = map cmsgs cs ∧ (∀ i, (i < length cs)%nat → h !! (gbase g + i)%nat = cs !! i) ∧
    Forall (freshChain baseFee) cs ∧ Forall knownType cs ∧ StronglySorted fallsTo cs ∧ linked (gbase g) cs.

Lemma freshCells_inv baseFee h g : freshCells baseFee h g → groupInv h g 0 [].
Proof.
  intros (cs&Eg&Hh&Hf&Ht&_&Hl). rewrite Forall_lookup in Hf, Ht. split; [lia|done|by left|].
  rewrite Eg, length_map. intros i Hi. destruct (lookup_lt_is_Some_2 cs i Hi) as [c Hc]. exists c.
  rewrite Hh by done. split; [done|]. destruct (Hf i c Hc) as ((Hne&Hpos&Hgas&_)&Hv&_). destruct (Hl i c Hc) as [Hn Hp].
  split; [|done|by eapply Ht|done|done| | |].
  - rewrite Hn, Eg, length_map. destruct (decide (S i < length cs)%nat); [right; by split|by left].
  - intros _. exists (cmsgs c). split; [|done]. by rewrite Eg, list_lookup_fmap, Hc.
  - intros _ j d Hj. rewrite Hh by lia. intros Hd. destruct (Hl j d Hd) as [-> _]. by rewrite decide_True by lia.
  - intros _ _ j d Hj. rewrite Hh by lia. intros Hd. destruct (Hf j d Hd) as (_&?&_). split; [done|].
    by rewrite Eg, list_lookup_fmap, Hd.
Qed.

Lemma freshCells_app baseFee h h' g : freshCells baseFee h g → freshCells baseFee (h ++ h') g.
Proof.
  intros (cs&Eg&Hh&?&?&?&?). exists cs. split_and!; [done| |done..]. intros i Hi. rewrite <- Hh by done.
  destruct (lookup_lt_is_Some_2 cs i Hi) as [c Hc]. apply lookup_app_l. rewrite <- Hh in Hc by done. by apply lookup_lt_Some in Hc.
Qed.

Section fresh.
Context `{MessageCodec}.
Variable UpgradeCalicoHeight : Z.
Variable GetActorAfter : Address → TipSet → outcome Actor.
Variables (baseFee : Z) (ts : TipSet).
Variable own : SignedMessage → Address.
(** The name under which the messages of an entry are owned. *)
Variable ownerOf : Address → Address.

(** What an entry of the pending messages must be. *)
Definition entryOk (e : Address * gmap Z SignedMessage) : Prop :=
  GetActorAfter e.1 ts ≠ Crash ∧ msetOk e.2 ∧
  ∀ n m, e.2 !! n = Some m → own m = ownerOf e.1 ∧
    (sigType (smSignature m) = SigTypeBLS ∨ sigType (smSignature m) = SigTypeSecp256k1).

(** The messages of an entry that are due. *)
Definition dueOf (e : Address * gmap Z SignedMessage) : list SignedMessage :=
  match GetActorAfter e.1 ts with
  | Ret a => due UpgradeCalicoHeight a e.2 (height ts)
  | _ => []
  end.

Definition groupFor (h : list msgChain) (e : Address * gmap Z SignedMessage) (g : group) : Prop :=
  gowner g = ownerOf e.1 ∧ concat (gchunks g) = dueOf e ∧ freshCells baseFee h g ∧ groupOk g ∧
  (∀ m, m ∈ concat (gchunks g) → own m = gowner g).

Lemma headType_known c (l : list SignedMessage) : cmsgs c ≠ [] → csigType c = headType (cmsgs c) →
  (∀ m, m ∈ l → sigType (smSignature m) = SigTypeBLS ∨ sigType (smSignature m) = SigTypeSecp256k1) →
  (∀ m, m ∈ cmsgs c → m ∈ l) → knownType c.
Proof.
  intros Hne Ht Hl Hsub. destruct (cmsgs c) as [|m ms]; [done|]. unfold knownType. rewrite Ht. apply Hl, Hsub. by left.
Qed.

Lemma createMessageChains_group h e : entryOk e →
  ∃ cs g, createMessageChains UpgradeCalicoHeight GetActorAfter (length h) e.1 e.2 baseFee ts = Some (Ret cs) ∧
    gbase g = length h ∧ length (gchunks g) = length cs ∧ groupFor (h ++ cs) e g.
Proof.
  destruct e as [actor mset]. simpl. intros (Hcrash&Hm&Hall). simpl in *. unfold groupFor, dueOf. simpl.
  destruct (GetActorAfter actor ts) as [a|err|] eqn:Ea; [| |done].
  - destruct (createMessageChains_ok UpgradeCalicoHeight GetActorAfter (length h) actor mset baseFee ts a Ea Hm)
      as (cs&->&Econ&Hf&Hs&Hl).
    exists cs, (mkGroup (ownerOf actor) (length h) (map cmsgs cs)). split; [done|]. simpl.
    destruct (due_ok UpgradeCalicoHeight a mset (height ts) Hm) as (Hrun&Hsub&Hpos&_).
    split_and!; [done|by rewrite length_map|done|done| | |].
    + exists cs. simpl. split_and!; [done| |done| |done|done].
      * intros i Hi. rewrite lookup_app_r by lia. by replace (length h + i - length h)%nat with i by lia.
      * rewrite Forall_forall in *. intros c Hc. destruct (Hf c Hc) as ((Hne&_)&_&_&Ht).
        apply (headType_known c (due UpgradeCalicoHeight a mset (height ts)) Hne Ht).
        -- intros m [n Hn]%Hsub. by apply (Hall n).
        -- intros m Hin. rewrite <- Econ. apply list_elem_of_In, in_concat. exists (cmsgs c).
           split; [apply in_map|]; by apply list_elem_of_In.
    + split; [|simpl; rewrite Econ; apply runOk_gas in Hrun; simpl; lia]. simpl. apply Forall_map.
      eapply Forall_impl; [exact Hf|]. by intros c ((_&?&_)&_).
    + intros m. rewrite Econ. intros [n Hn]%Hsub. by apply (Hall n).
  - exists [], (mkGroup (ownerOf actor) (length h) []). unfold createMessageChains. rewrite Ea. simpl.
    split_and!; [done..| | |].
    + exists []. split_and!; [done|simpl; lia|constructor|constructor|constructor|]. intros i c Hi. by rewrite lookup_nil in Hi.
    + split; [constructor|]. simpl. unfold BlockGasLimit. lia.
    + by intros m ?%elem_of_nil.
Qed.

Lemma groupFor_app h h' e g : groupFor h e g → groupFor (h ++ h') e g.
Proof. intros (?&?&?&?&?). split_and!; auto using freshCells_app. Qed.

Lemma collectChains_ok l : ∀ h, Forall entryOk l →
  ∃ h' gs, collectChains UpgradeCalicoHeight GetActorAfter baseFee ts h l = Some (h ++ h', seq (length h) (length h')) ∧
    Forall2 (groupFor (h ++ h')) l gs ∧ placed (length h) gs ∧ extent gs = length h'.
Proof.
  induction l as [|e l IH]; intros h Hl.
  { exists [], []. rewrite app_nil_r. split_and!; [done|constructor|done..]. }
  apply Forall_cons in Hl as [He Hl]. destruct (createMessageChains_group h e He) as (cs&g&E&Eb&Elen&Hg).
  destruct (IH (h ++ cs) Hl) as (h'&gs&E'&Hgs&Hp&Hext). exists (cs ++ h'), (g :: gs).
  destruct e as [actor mset]. simpl in *. rewrite E, E'. cbn [mbind option_bind fst snd]. rewrite !length_app, <- app_assoc in *.
  split_and!; [|constructor; [|done]|done|simpl; by rewrite Elen|simpl; lia].
  - by rewrite seq_app.
  - rewrite app_assoc. by apply groupFor_app.
Qed.
End fresh.

(** ** The order of [Before] *)

Lemma Before_key a b : notNaN (gasPerf a) → notNaN (gasPerf b) →
  Before a b = true ↔ keyLt (fkey (gasPerf b)) (fkey (gasPerf a)) ∨
    (fkey (gasPerf a) = fkey (gasPerf b) ∧ gasReward b < gasReward a).
Proof.
  intros Ha Hb. unfold Before. rewrite orb_true_iff, andb_true_iff, bool_decide_eq_true, SFltb_key, SFeqb_key by done. done.
Qed.

Lemma Before_asym a b : notNaN (gasPerf a) → notNaN (gasPerf b) → Before a b = true → Before b a = false.
Proof.
  intros Ha Hb Hab. apply not_true_iff_false. rewrite Before_key in * by done. unfold keyLt in *. intros Hba.
  destruct Hab as [Hab|[E ?]]; [|rewrite E in Hba; lia]. destruct Hba as [Hba|[E ?]]; [lia|]. rewrite E in Hab. lia.
Qed.

Lemma keyLt_total a b : keyLt a b ∨ a = b ∨ keyLt b a.
Proof.
  destruct a as [[a1 a2] a3], b as [[b1 b2] b3]. unfold keyLt. simpl.
  destruct (Z.lt_trichotomy a1 b1) as [?|[->|?]]; [lia| |lia].
  destruct (Z.lt_trichotomy a2 b2) as [?|[->|?]]; [lia| |lia].
  destruct (Z.lt_trichotomy a3 b3) as [?|[->|?]]; [lia|by right; left|lia].
Qed.

Lemma not_Before_key a b : notNaN (gasPerf a) → notNaN (gasPerf b) →
  Before b a = false ↔ keyLt (fkey (gasPerf b)) (fkey (gasPerf a)) ∨
    (fkey (gasPerf a) = fkey (gasPerf b) ∧ gasReward b ≤ gasReward a).
Proof.
  intros Ha Hb. rewrite <- not_true_iff_false, Before_key by done. split.
  - intros Hn. destruct (keyLt_total (fkey (gasPerf b)) (fkey (gasPerf a))) as [?|[E|?]]; [by left| |exfalso; apply Hn; by left].
    right. split; [done|]. apply Z.nlt_ge. intros ?. apply Hn. right. split; [done|lia].
  - intros Hab Hba. unfold keyLt in *. destruct Hab as [Hab|[E ?]], Hba as [Hba|[E' ?]]; try lia.
    + rewrite E' in Hab. lia.
    + rewrite E in Hba. lia.
Qed.

Lemma Before_trans a b c : notNaN (gasPerf a) → notNaN (gasPerf b) → notNaN (gasPerf c) →
  Before b a = false → Before c b = false → Before c a = false.
Proof.
  intros Ha Hb Hc. rewrite !not_Before_key by done. unfold keyLt.
  intros [Hab|[E ?]] [Hbc|[E' ?]].
  - left. lia.
  - left. rewrite <- E'. lia.
  - left. rewrite E. lia.
  - right. split; [congruence|lia].
Qed.

Lemma StronglySorted_ne {A} (R : A → A → Prop) l : StronglySorted R l → NoDup l → StronglySorted (λ x y, R x y ∧ x ≠ y) l.
Proof.
  induction 1 as [|x l _ IH Hx]; intros Hd; [constructor|]. apply NoDup_cons in Hd as [Hn Hd]. constructor; [by apply IH|].
  rewrite Forall_forall in *. intros y Hy. split; [by apply Hx|]. by intros ->.
Qed.

Lemma StronglySorted_lookup {A} (R : A → A → Prop) l i j x y : StronglySorted R l →
  l !! i = Some x → l !! j = Some y → (i < j)%nat → R x y.
Proof.
  intros Hs. revert i j. induction Hs as [|z l _ IH Hz]; intros i j Hx Hy Hij; [done|].
  destruct i as [|i], j as [|j]; simpl in *; [lia| |lia|apply (IH i j); auto; lia].
  simplify_eq. rewrite Forall_forall in Hz. apply Hz. by eapply list_elem_of_lookup_2.
Qed.

Section start.
Context `{MessageCodec} `{Library}.
Variable UpgradeCalicoHeight : Z.
Variable GetActorAfter : Address → TipSet → outcome Actor.
Variables (baseFee : Z) (ts : TipSet).
Variable own : SignedMessage → Address.
Variable ownerOf : Address → Address.

Abbreviation groupsFor := (λ h, Forall2 (groupFor UpgradeCalicoHeight GetActorAfter baseFee ts own ownerOf h)).

(** Chains as they come from [collectChains], beside messages of other senders. *)
Record started (h : list msgChain) (l : list (Address * gmap Z SignedMessage)) (gs : list group) (sm : selectedMessages) : Prop := {
  start_groups : groupsFor h l gs;
  start_placed : placed 0 gs;
  start_extent : extent gs = length h;
  start_owners : NoDup (map gowner gs);
  start_budget : budgetOk sm;
  start_others : Forall (λ m, own m ∉ map gowner gs) (smsgs sm)
}.

Lemma groupsFor_elem h l gs g : groupsFor h l gs → g ∈ gs → ∃ e, e ∈ l ∧
  groupFor UpgradeCalicoHeight GetActorAfter baseFee ts own ownerOf h e g.
Proof.
  induction 1 as [|e g' l gs Hg _ IH]; [by intros ?%elem_of_nil|]. intros [->|Hin]%elem_of_cons.
  - exists e. split; [by left|done].
  - destruct (IH Hin) as (e'&?&?). exists e'. split; [by right|done].
Qed.

Lemma started_sel h l gs sm : started h l gs sm → selInv own gs (smsgs sm) h sm (λ _, 0%nat).
Proof.
  intros [Hg Hp He Ho Hb Hr]. split; [split; [split| |]|done].
  - intros p Hlt. apply (placed_cover gs 0); [done|lia].
  - intros g g' p. by apply (placed_disjoint gs 0).
  - intros g g'. by apply (NoDup_map_inj gowner).
  - intros g m Hin. destruct (groupsFor_elem _ _ _ _ Hg Hin) as (e&_&_&_&_&_&?). auto.
  - intros g Hin. by destruct (groupsFor_elem _ _ _ _ Hg Hin) as (e&_&_&_&_&?&_).
  - intros g Hin. destruct (groupsFor_elem _ _ _ _ Hg Hin) as (e&_&_&_&Hf&_).
    rewrite filter_none; [by eapply freshCells_inv|]. eapply Forall_impl; [exact Hr|]. simpl.
    intros m Hm E. apply Hm. rewrite E. by apply list_elem_of_fmap_2.
  - by apply filter_all.
Qed.

(** The chain at a place of a fresh heap. *)
Lemma started_chain h l gs sm p : started h l gs sm → (p < length h)%nat →
  ∃ c, h !! p = Some c ∧ notNaN (gasPerf c) ∧ valid c = true ∧ merged c = false.
Proof.
  intros [Hg Hp He _ _ _] Hlt. destruct (placed_cover gs 0 p Hp) as (g&Hin&Hr); [lia|].
  destruct (groupsFor_elem _ _ _ _ Hg Hin) as (e&_&_&_&(cs&Eg&Hh&Hf&_)&_). unfold inGroup in Hr. rewrite Eg, length_map in Hr.
  destruct (lookup_lt_is_Some_2 cs (p - gbase g)) as [c Hc]; [lia|]. exists c.
  replace p with (gbase g + (p - gbase g))%nat by lia. rewrite Hh by lia. split; [done|].
  rewrite Forall_lookup in Hf. destruct (Hf _ _ Hc) as (Hok&?&?&_). split; [by eapply chainOk_notNaN|done].
Qed.

(** In a group an earlier chain is before a later one. *)
Lemma started_before h l gs sm g x y : started h l gs sm → g ∈ gs → inGroup g x → inGroup g y → (x < y)%nat →
  lessAt Before h x y = true.
Proof.
  intros [Hg _ _ _ _ _] Hin Hx Hy Hlt. destruct (groupsFor_elem _ _ _ _ Hg Hin) as (e&_&_&_&(cs&Eg&Hh&Hf&_&Hs&_)&_).
  unfold inGroup in *. rewrite Eg, length_map in *.
  destruct (lookup_lt_is_Some_2 cs (x - gbase g)) as [c Hc]; [lia|].
  destruct (lookup_lt_is_Some_2 cs (y - gbase g)) as [d Hd]; [lia|].
  unfold lessAt. replace x with (gbase g + (x - gbase g))%nat by lia. replace y with (gbase g + (y - gbase g))%nat by lia.
  rewrite !Hh, Hc, Hd by lia. unfold Before. apply orb_true_iff. left.
  apply (StronglySorted_lookup fallsTo cs (x - gbase g) (y - gbase g) c d); [done..|lia].
Qed.

Lemma started_list h l gs sm chains : started h l gs sm → chains ≡ₚ seq 0 (length h) →
  listInv gs h (λ _, 0%nat) (sortSlice (lessAt Before h) chains) ∧
  Forall (λ p, isValid h p = true) (sortSlice (lessAt Before h) chains).
Proof.
  intros Hst Hch. set (L := sortSlice _ _). assert (L ≡ₚ seq 0 (length h)) as HL by (unfold L; by rewrite sortSlice_perm).
  assert (∀ p, p ∈ L ↔ (p < length h)%nat) as Hin by (intros p; rewrite HL, elem_of_seq; lia).
  assert (∀ x, x ∈ chains → ∃ c, h !! x = Some c ∧ notNaN (gasPerf c)) as Hc.
  { intros x Hx. rewrite Hch, elem_of_seq in Hx. destruct (started_chain h l gs sm x Hst) as (c&?&?&_); [lia|eauto]. }
  assert (NoDup L) as Hd by (rewrite HL; apply NoDup_seq).
  split; [split; [done|intros p; by rewrite Hin|intros; lia| |]|].
  - intros g i Hg Hi Hv. rewrite Hin. unfold isValid in Hv. destruct (h !! _) eqn:E; [|done]. by apply lookup_lt_Some in E.
  - assert (StronglySorted (notAfter (lessAt Before h)) L) as Hs.
    { apply sortSlice_sorted; unfold lessAt.
      - intros x y (c&->&?)%Hc (d&->&?)%Hc. by apply Before_asym.
      - intros x y z (c&->&?)%Hc (d&->&?)%Hc (e&->&?)%Hc. by apply Before_trans. }
    eapply sorted_impl; [|apply (StronglySorted_ne _ _ Hs Hd)]. intros x y [Hxy Hne] g Hg Hx Hy _ _.
    destruct (Nat.lt_trichotomy x y) as [?|[?|?]]; [done|done|]. exfalso.
    unfold notAfter in Hxy. by rewrite (started_before h l gs sm g y x) in Hxy.
  - apply Forall_forall. intros p Hp%Hin. destruct (started_chain h l gs sm p Hst Hp) as (c&E&_&Hv&_).
    unfold isValid. by rewrite E.
Qed.

(** Greedy selection returns and keeps the invariant. *)
Lemma greedy_run h l gs sm chains : started h l gs sm → chains ≡ₚ seq 0 (length h) →
  ∃ sm' h' ks, greedy baseFee h sm chains = Some sm' ∧ selInv own gs (smsgs sm) h' sm' ks.
Proof.
  intros Hst Hch. pose proof (started_sel _ _ _ _ Hst) as Hsel. destruct (started_list _ _ _ _ _ Hst Hch) as [Hl Hv].
  unfold greedy. destruct (match sortSlice _ _ with [] => false | p :: _ => negPerf h p end); [by eauto|].
  destruct (addHead_run own gs (smsgs sm) _ h sm _ Hsel Hl Hv) as (sm1&L&ks&->&Hsel1&Hw).
  destruct (tailLoop_run own gs (smsgs sm) baseFee (tailFuel h) h sm1 ks L) as (h'&sm'&ks'&->&?); [unfold tailFuel, msgCount; lia|done..|].
  cbn [mbind option_bind snd]. by eauto.
Qed.
End start.

(** ** Results *)

Lemma prefix_concat_take {A} k (ls : list (list A)) : concat (take k ls) `prefix_of` concat ls.
Proof. rewrite <- (take_drop k ls) at 2. rewrite concat_app. by apply prefix_app_r. Qed.

Lemma selInv_result own gs rest h sm ks : selInv own gs rest h sm ks →
  budgetOk sm ∧ (∀ g, g ∈ gs → taken own (gowner g) sm `prefix_of` concat (gchunks g)) ∧
  (∀ a, a ∉ map gowner gs → taken own a sm = filter (λ m, own m = a) rest) ∧
  (∀ m, m ∈ smsgs sm → own m ∈ map gowner gs ∨ m ∈ rest).
Proof.
  intros [[_ Hgs Hr] Hb]. split_and!; [done| | |].
  - intros g Hg. destruct (Hgs g Hg) as [_ Ht _ _]. etrans; [done|apply prefix_concat_take].
  - intros a Ha. unfold taken. rewrite <- Hr. symmetry. apply list_filter_filter_l. by intros m ->.
  - intros m Hm. destruct (decide (own m ∈ map gowner gs)); [by left|right]. rewrite <- Hr. by apply list_elem_of_filter.
Qed.

Section block.
Context `{MessageCodec} `{Library}.
Variable UpgradeCalicoHeight : Z.
Variable GetActorAfter : Address → TipSet → outcome Actor.
Variables (MaxLength baseFee : Z) (ts : TipSet).
Variable resolveToKey : Address → outcome Address.
Variable PriorityAddrs : list Address.
Variable own : SignedMessage → Address.

(** The node answers; an address and its key are the same actor. *)
Hypothesis actor_answers : ∀ a, GetActorAfter a ts ≠ Crash.
Hypothesis resolve_answers : ∀ a, resolveToKey a ≠ Crash.
Hypothesis resolve_actor : ∀ a k, resolveToKey a = Ret k → GetActorAfter a ts = GetActorAfter k ts.

Abbreviation pendingMap := (gmap Address (gmap Z SignedMessage)) (only parsing).

(** The pending messages as the pool keeps them: by key of the sender and by nonce. *)
Definition pendingOk (pending : pendingMap) : Prop :=
  ∀ a mset, pending !! a = Some mset → msetOk mset ∧ ∀ n m, mset !! n = Some m → own m = a ∧
    (sigType (smSignature m) = SigTypeBLS ∨ sigType (smSignature m) = SigTypeSecp256k1).

Abbreviation dueFor := (dueOf UpgradeCalicoHeight GetActorAfter ts).

(** A selection that makes a valid block: the limits are kept, and of every sender a beginning of
    its due messages is taken, in their order. *)
Definition blockOk (pending : pendingMap) (sm : selectedMessages) : Prop :=
  budgetOk sm ∧ (∀ a mset, pending !! a = Some mset → taken own a sm `prefix_of` dueFor (a, mset)) ∧
  (∀ m, m ∈ smsgs sm → is_Some (pending !! own m)).

Definition keyOf (a : Address) : Address := match resolveToKey a with Ret k => k | _ => a end.

Lemma groupFor_keys h l gs (ownerOf : Address → Address) :
  Forall2 (groupFor UpgradeCalicoHeight GetActorAfter baseFee ts own ownerOf h) l gs →
  map gowner gs = map (λ e, ownerOf e.1) l.
Proof. induction 1 as [|e g l gs (E&_) _ IH]; [done|]. simpl. by rewrite E, IH. Qed.

(** ** Preferred senders *)

Lemma priorityChains_run addrs : ∀ h pending, pendingOk pending →
  ∃ pending' r, priorityChains UpgradeCalicoHeight GetActorAfter baseFee ts resolveToKey h pending addrs = Some (pending', r) ∧
    pending' ⊆ pending ∧
    match r with
    | None => True
    | Some (h', ps) => ∃ hx l gs, h' = h ++ hx ∧ ps = seq (length h) (length hx) ∧
        Forall2 (groupFor UpgradeCalicoHeight GetActorAfter baseFee ts own keyOf h') l gs ∧
        placed (length h) gs ∧ extent gs = length hx ∧ NoDup (map gowner gs) ∧
        (∀ e, e ∈ l → pending !! keyOf e.1 = Some e.2 ∧ pending' !! keyOf e.1 = None ∧ GetActorAfter e.1 ts = GetActorAfter (keyOf e.1) ts) ∧
        (∀ a, is_Some (pending !! a) → is_Some (pending' !! a) ∨ a ∈ map gowner gs)
    end.
Proof.
  induction addrs as [|actor addrs IH]; intros h pending Hp; cbn [priorityChains].
  { eexists _, _. split; [reflexivity|]. split; [done|]. exists [], [], []. rewrite app_nil_r.
    split_and!; [done..|constructor|done|done|constructor|by intros e ?%elem_of_nil|auto]. }
  destruct (resolveToKey actor) as [pk|err|] eqn:Er; [|by eauto|by destruct (resolve_answers actor)].
  destruct (pending !! pk) as [mset|] eqn:Ep; [|by apply IH].
  assert (keyOf actor = pk) as Ekey by (unfold keyOf; by rewrite Er).
  destruct (collectChains_ok UpgradeCalicoHeight GetActorAfter baseFee ts own keyOf [(actor, mset)] h)
    as (h1&gs1&E&Hg1&Hp1&He1).
  { constructor; [|constructor]. destruct (Hp pk mset Ep) as [? Ho]. split_and!; simpl; [done..|]. rewrite Ekey. done. }
  rewrite E. cbn [mbind option_bind fst snd].
  destruct (IH (h ++ h1) (delete pk pending)) as (pending'&r&->&Hsub&Hr).
  { intros a ms [_ Ha]%lookup_delete_Some. by apply Hp. }
  cbn [mbind option_bind fst snd]. eexists pending', _. split; [reflexivity|].
  split; [etrans; [done|apply delete_subseteq]|]. destruct r as [[h' ps]|]; [|done].
  destruct Hr as (hx&l&gs&->&->&Hg&Hpl&Hext&Hnd&Hl&Hcov).
  apply Forall2_cons_inv_l in Hg1 as (g1&gs1'&Hg1&Hnil&->). apply Forall2_nil_inv_l in Hnil as ->.
  destruct Hp1 as [Eb _]. simpl in He1. rewrite Nat.add_0_r in He1.
  assert (pending' !! pk = None) as Hnone.
  { destruct (pending' !! pk) as [x|] eqn:Ex; [|done]. eapply lookup_weaken in Ex; [|done]. by rewrite lookup_delete_eq in Ex. }
  exists (h1 ++ hx), ((actor, mset) :: l), (g1 :: gs).
  assert (gowner g1 = pk) as Eo by (destruct Hg1 as (->&_); done).
  rewrite length_app in *. split_and!.
  - by rewrite app_assoc.
  - by rewrite length_app, seq_app.
  - constructor; [by apply groupFor_app|done].
  - simpl. by rewrite He1.
  - simpl. by rewrite He1, Hext, length_app.
  - simpl. constructor; [|done]. rewrite (groupFor_keys _ _ _ _ Hg), Eo. intros (e&E'&Hin)%list_elem_of_fmap.
    destruct (Hl e Hin) as (Hx&_). rewrite <- E' in Hx. by rewrite lookup_delete_eq in Hx.
  - intros e [->|Hin]%elem_of_cons; simpl.
    + rewrite Ekey. split_and!; [done..|]. by apply resolve_actor.
    + destruct (Hl e Hin) as ([_ ?]%lookup_delete_Some&?&?). done.
  - intros a Ha. destruct (decide (a = pk)) as [->|Hne]; [right; simpl; rewrite Eo; by left|].
    destruct (Hcov a) as [?|?]; [by rewrite lookup_delete_ne|by left|right; by right].
Qed.

Lemma emptySelection_budget : budgetOk (emptySelection MaxLength).
Proof. unfold budgetOk, emptySelection, BlockMessageLimit. simpl. unfold BlockGasLimit. lia. Qed.

(** The preferred senders are taken out of the pending messages, and what is selected is theirs. *)
Lemma selectPriority_run pending : pendingOk pending →
  ∃ pending' sm, selectPriorityMessages UpgradeCalicoHeight GetActorAfter MaxLength baseFee ts resolveToKey PriorityAddrs pending
                 = Some (pending', sm) ∧
    pending' ⊆ pending ∧ blockOk pending sm ∧ (∀ m, m ∈ smsgs sm → pending' !! own m = None).
Proof.
  intros Hp. unfold selectPriorityMessages. destruct (priorityChains_run PriorityAddrs [] pending Hp) as (pending'&r&->&Hsub&Hr).
  cbn [mbind option_bind fst snd].
  assert (blockOk pending (emptySelection MaxLength) ∧ ∀ m, m ∈ smsgs (emptySelection MaxLength) → pending' !! own m = None) as Hempty.
  { split; [split_and!|]; [apply emptySelection_budget|intros; apply prefix_nil|by intros m ?%elem_of_nil|by intros m ?%elem_of_nil]. }
  destruct r as [[h [|p ps]]|]; [by eauto| |by eauto].
  destruct Hr as (hx&l&gs&Eh&Eps&Hg&Hpl&Hext&Hnd&Hl&_). simpl in Eh, Eps, Hpl. subst hx.
  destruct (greedy_run UpgradeCalicoHeight GetActorAfter baseFee ts own keyOf h l gs (emptySelection MaxLength) (p :: ps))
    as (sm'&h'&ks&->&Hsel).
  { split; [done..|apply emptySelection_budget|constructor]. }
  { by rewrite Eps. }
  cbn [mbind option_bind]. apply selInv_result in Hsel as (Hb&Htaken&Hnone&Hin). simpl in *.
  exists pending', sm'. split_and!; [done..|split_and!; [done| |]|].
  - intros a mset Ha. destruct (decide (a ∈ map gowner gs)) as [(g&->&Hgin)%list_elem_of_fmap|Hna];
      [|rewrite Hnone by done; apply prefix_nil].
    destruct (groupsFor_elem _ _ _ _ _ _ _ _ _ _ Hg Hgin) as (e&He&Eo&Econ&_). destruct (Hl e He) as (Hpe&_&Eact).
    rewrite <- Eo, Ha in Hpe. injection Hpe as ->. etrans; [by apply Htaken|]. rewrite Econ. unfold dueOf. simpl.
    rewrite Eact, <- Eo. done.
  - intros m Hm. destruct (Hin m Hm) as [Ho|?%elem_of_nil]; [|done]. rewrite (groupFor_keys _ _ _ _ Hg) in Ho.
    apply list_elem_of_fmap in Ho as (e&->&He). destruct (Hl e He) as (->&_). by eauto.
  - intros m Hm. destruct (Hin m Hm) as [Ho|?%elem_of_nil]; [|done]. rewrite (groupFor_keys _ _ _ _ Hg) in Ho.
    apply list_elem_of_fmap in Ho as (e&->&He). by destruct (Hl e He) as (_&?&_).
Qed.

(** ** The other senders *)

(** The chains of the senders that are left, beside what has been selected. *)
Lemma rest_started pending pending' sm : pendingOk pending → pending' ⊆ pending → blockOk pending sm →
  (∀ m, m ∈ smsgs sm → pending' !! own m = None) →
  ∃ h gs, collectChains UpgradeCalicoHeight GetActorAfter baseFee ts [] (rangeMap pending') = Some (h, seq 0 (length h)) ∧
    started UpgradeCalicoHeight GetActorAfter baseFee ts own id h (rangeMap pending') gs sm.
Proof.
  intros Hp Hsub (Hb&_&_) Hnone.
  destruct (collectChains_ok UpgradeCalicoHeight GetActorAfter baseFee ts own id (rangeMap pending') [])
    as (h&gs&E&Hg&Hpl&Hext).
  { apply Forall_forall. intros [a mset] Hin. rewrite rangeMap_perm, elem_of_map_to_list in Hin.
    destruct (Hp a mset) as [? Ho]; [by eapply lookup_weaken|]. split_and!; simpl; [done..|]. done. }
  exists h, gs. split; [exact E|]. simpl in *. pose proof (groupFor_keys _ _ _ _ Hg) as Ek.
  split; [done..| |done|].
  - rewrite Ek. eapply NoDup_Permutation_proper; [apply fmap_Permutation, rangeMap_perm|]. apply NoDup_fst_map_to_list.
  - apply Forall_forall. intros m Hm. rewrite Ek. intros ([a mset]&E'&Hin)%list_elem_of_fmap. simpl in E'.
    rewrite rangeMap_perm, elem_of_map_to_list in Hin. specialize (Hnone m Hm). rewrite E' in Hnone. congruence.
Qed.

(** A selection that goes on with the other senders makes a valid block. *)
Lemma rest_block pending pending' sm h gs h' sm' ks : pending' ⊆ pending → blockOk pending sm →
  (∀ m, m ∈ smsgs sm → pending' !! own m = None) →
  started UpgradeCalicoHeight GetActorAfter baseFee ts own id h (rangeMap pending') gs sm →
  selInv own gs (smsgs sm) h' sm' ks → blockOk pending sm'.
Proof.
  intros Hsub (_&Hpre&Hfrom) Hnone [Hg _ _ _ _ _] Hsel. pose proof (groupFor_keys _ _ _ _ Hg) as Ek.
  apply selInv_result in Hsel as (Hb&Htaken&Hrest&Hin). split_and!; [done| |].
  - intros a mset Ha. destruct (decide (a ∈ map gowner gs)) as [(g&->&Hgin)%list_elem_of_fmap|Hna].
    + destruct (groupsFor_elem _ _ _ _ _ _ _ _ _ _ Hg Hgin) as ([b mset']&He&Eo&Econ&_). simpl in Eo.
      rewrite rangeMap_perm, elem_of_map_to_list in He. eapply lookup_weaken in He; [|done].
      rewrite <- Eo in *. rewrite Ha in He. injection He as ->. etrans; [by apply Htaken|]. by rewrite Econ.
    + rewrite Hrest by done. by apply Hpre.
  - intros m Hm. destruct (Hin m Hm) as [Ho|?]; [|by apply Hfrom]. rewrite Ek in Ho.
    apply list_elem_of_fmap in Ho as ([a mset]&Eo&He). simpl in Eo. rewrite Eo.
    rewrite rangeMap_perm, elem_of_map_to_list in He. eapply lookup_weaken in He; [|done]. by eauto.
Qed.

(** What is taken of a sender can be executed from the sender's nonce and balance. *)
Lemma block_runs pending sm a mset act : pendingOk pending → blockOk pending sm → pending !! a = Some mset →
  GetActorAfter a ts = Ret act →
  runOk UpgradeCalicoHeight (height ts) (actNonce act) (actBalance act) 0 (taken own a sm).
Proof.
  intros Hp (_&Hpre&_) Ha Hact. specialize (Hpre a mset Ha). unfold dueOf in Hpre. simpl in Hpre. rewrite Hact in Hpre.
  destruct (Hp a mset Ha) as [Hm _]. destruct (due_ok UpgradeCalicoHeight act mset (height ts) Hm) as (Hrun&_&Hpos&_).
  destruct Hpre as [k Ek]. rewrite Ek in Hrun, Hpos. apply (runOk_take _ _ (length (taken own a sm))) in Hrun.
  - by rewrite take_app_length in Hrun.
  - eapply Forall_impl; [exact Hpos|]. simpl. lia.
Qed.

(** What a selection returns. *)
Definition selectionOk (pending : pendingMap) (r : option (option selectedMessages)) : Prop :=
  ∃ o, r = Some o ∧ match o with None => pending = ∅ | Some sm => blockOk pending sm end.

Lemma selection_executes pending r : pendingOk pending → selectionOk pending r →
  ∃ o, r = Some o ∧
    match o with
    | None => pending = ∅
    | Some sm => blockOk pending sm ∧ ∀ a mset act, pending !! a = Some mset → GetActorAfter a ts = Ret act →
        runOk UpgradeCalicoHeight (height ts) (actNonce act) (actBalance act) 0 (taken own a sm)
    end.
Proof.
  intros Hp (o&->&Ho). exists o. split; [done|]. destruct o as [sm|]; [|done]. split; [done|].
  intros. by eapply block_runs.
Qed.

Lemma selectMessagesGreedy_run pending : pendingOk pending → selectionOk pending
  (selectMessagesGreedy UpgradeCalicoHeight GetActorAfter MaxLength baseFee ts resolveToKey PriorityAddrs pending).
Proof.
  intros Hp. unfold selectMessagesGreedy, selectionOk. case_decide as He; [by eauto|].
  destruct (selectPriority_run pending Hp) as (pending'&sm&->&Hsub&Hbl&Hnone). cbn [mbind option_bind].
  case_decide; [by eauto|]. destruct (rest_started pending pending' sm Hp Hsub Hbl Hnone) as (h&gs&->&Hst).
  cbn [mbind option_bind]. destruct (greedy_run _ _ _ _ _ _ _ _ _ _ (seq 0 (length h)) Hst) as (sm'&h'&ks&->&Hsel); [done|].
  cbn [mbind option_bind]. eexists. split; [done|]. by eapply rest_block.
Qed.
End block.
