(* ===== verification/MsgSelectOptimal.v ===== *)
(** * Selection by expected reward (chain/messagepool/selection.go, block_proba.go)

    Other miners make blocks for the same tipset and their messages count first when their tickets
    are better.  Chains are tried by their performance times the probability of the block that
    they would fall into, and with their dependencies. *)

From Stdlib Require Import SpecFloat Sorted.
From coqutil Require Import Datatypes.RecordSetters.
From stdpp Require Import strings numbers base functions gmap fin_maps sets list.
From S2P Require Import Prelude GoStrings GoSort GoFloat FileTypes TipSets GasFees ProofLog SealTasks SealResources.
From S2P Require Import MsgSet MsgChains MsgSelect.
Import DoubleBraceUpdate.
Local Open Scope Z_scope.

Definition MaxBlocks : nat := 15.

(** ** Probabilities of blocks *)

(** Package math. *)
Class MathLib := {
  mathLog : spec_float → spec_float;
  mathExp : spec_float → spec_float;
  mathLgamma : spec_float → spec_float;
  mathPow : spec_float → spec_float → spec_float
}.

Section proba.
Context `{MathLib}.

Definition poissMu : spec_float := ofInt 5.

(** The closures [poissPdf] differ in the constant of the exponent. *)
Definition poissPdf (const x : spec_float) : spec_float :=
  mathExp (fsub (fsub (fmul (mathLog poissMu) x) (mathLgamma (fadd x (ofInt 1)))) const).

Definition noWinnersProb : list spec_float :=
  map (λ i, poissPdf poissMu (ofInt (Z.of_nat i))) (seq 0 MaxBlocks).

Definition noWinnersProbAssumingMoreThanOne : list spec_float :=
  let cond := mathLog (fadd (ofInt (-1)) (mathExp (ofInt 5))) in
  map (λ i, poissPdf cond (ofInt (Z.of_nat (i + 1)))) (seq 0 MaxBlocks).

(** The loop of [binomialCoefficient] runs [d] from 1 to [k]; both are whole numbers here. *)
Fixpoint binomialLoop (steps : nat) (d n r : spec_float) : spec_float :=
  match steps with
  | O => r
  | S steps' => binomialLoop steps' (fadd d (ofInt 1)) (fsub n (ofInt 1)) (fdiv (fmul r n) d)
  end.

Definition binomialCoefficient (n k : nat) : spec_float :=
  if decide (n < k)%nat then S754_nan
  else binomialLoop k (ofInt 1) (ofInt (Z.of_nat n)) (ofInt 1).

Definition isInf (x : spec_float) : bool := match x with S754_infinity _ => true | _ => false end.

(** The closure [binoPdf]. *)
Definition binoPdf (p : spec_float) (x trials : nat) : spec_float :=
  if decide (trials < x)%nat then fzero
  else if SFeqb p fzero then (if decide (x = 0%nat) then ofInt 1 else fzero)
  else if SFeqb p (ofInt 1) then (if decide (x = trials) then ofInt 1 else fzero)
  else
    let coef := binomialCoefficient trials x in
    let pow := fmul (mathPow p (ofInt (Z.of_nat x))) (mathPow (fsub (ofInt 1) p) (ofInt (Z.of_nat (trials - x)))) in
    if isInf coef then fzero else fmul coef pow.

Definition blockProbabilities (tq : spec_float) : list spec_float :=
  let p := fsub (ofInt 1) tq in
  map (λ place, foldl (λ pPlace c, fadd pPlace (fmul c.2 (binoPdf p place c.1))) fzero
                  (imap pair noWinnersProbAssumingMoreThanOne))
      (seq 0 MaxBlocks).
End proba.

(** ** Partition into blocks *)

Section optimal.
Context `{MessageCodec} `{Library}.
Variable baseFee : Z.

(** The chains of one block, and the chains that are left. *)
Fixpoint takeBlock (h : list msgChain) (gasLimit msgLimit : Z) (l : list nat) : list nat * list nat :=
  match l with
  | [] => ([], [])
  | p :: l' =>
      let gas := wrapInt64 (gasLimit - gasAt h p) in
      let room := msgLimit - Z.of_nat (length (msgsAt h p)) in
      if decide (gas < MinGas ∨ room ≤ 0) then ([p], l')
      else let '(b, l2) := takeBlock h gas room l' in (p :: b, l2)
  end.

(** At most [n] blocks. *)
Fixpoint partitionChains (h : list msgChain) (n : nat) (l : list nat) : list (list nat) * list nat :=
  match n, l with
  | O, _ | _, [] => ([], l)
  | S n', _ =>
      let '(b, l2) := takeBlock h BlockGasLimit BlockMessageLimit l in
      let '(bs, l3) := partitionChains h n' l2 in (b :: bs, l3)
  end.

(** Steps 3 and 4. *)
Definition setEffective (h : list msgChain) (blockProb : list spec_float) (l : list nat) : list msgChain :=
  let '(bs, l') := partitionChains h MaxBlocks l in
  let h1 := foldl (λ h bp, foldl (λ h p, SetEffectivePerf h p bp.2) h bp.1) h (zip bs blockProb) in
  foldl SetNullEffectivePerf h1 l'.

(** ** Merging by effective performance *)

(** The effective performance of the chains after a merged one. *)
Fixpoint adjustNext (fuel : nat) (h : list msgChain) (q : option nat) : option (list msgChain) :=
  match fuel, q with
  | _, None => Some h
  | O, Some _ => None
  | S fuel', Some p =>
      c ← h !! p;
      if SFltb fzero (effPerf c) then adjustNext fuel' (onChain p (λ c, setEffPerf h c) h) (cnext c) else Some h
  end.

Definition adjustAfter (h : list msgChain) (p : nat) : option (list msgChain) :=
  c ← h !! p;
  match cnext c with
  | None => Some h
  | Some q =>
      d ← h !! q;
      if SFltb fzero (effPerf d)
      then adjustNext (length h) (onChain q (λ d, d {{ effPerf := fadd (effPerf d) (parentOffset d) }}) h) (cnext d)
      else Some h
  end.

(** Step 6.  The result has the chains before and from the first one that did not fit. *)
Fixpoint mergeHead (n : nat) (h : list msgChain) (sm : selectedMessages) (front l : list nat) :
    option (list msgChain * selectedMessages * list nat * list nat) :=
  match n, l with
  | _, [] => Some (h, sm, front, [])
  | O, _ => None
  | S n', p :: l' =>
      if negPerf h p then Some (h, sm, front ++ l, [])
      else if isMerged h p then mergeHead n' h sm (front ++ [p]) l'
      else
        '(h1, sm1, added) ← tryToAddWithDeps h sm p baseFee;
        if (added : bool) then
          h2 ← adjustAfter h1 p;
          let k := S (length front) in
          mergeHead n' h2 sm1 (front ++ [p]) (drop k (sortTail (lessAt BeforeEffective h2) k (front ++ l)))
        else Some (h1, sm1, front, l)
  end.

(** The inner loop of step 7: [true] when the outer loop goes on. *)
Fixpoint mergeTail (h : list msgChain) (sm : selectedMessages) (l : list nat) :
    option (list msgChain * selectedMessages * bool) :=
  match l with
  | [] => Some (h, sm, false)
  | p :: l' =>
      if negb (isValid h p) then mergeTail h sm l'
      else if isMerged h p then mergeTail h sm l'
      else if negPerf h p then Some (h, sm, false)
      else
        '(h1, sm1, added) ← tryToAddWithDeps h sm p baseFee;
        if (added : bool) then mergeTail h1 sm1 l' else Some (h1, sm1, true)
  end.

(** Step 7. *)
Fixpoint packTail (fuel : nat) (h : list msgChain) (sm : selectedMessages) (front l : list nat) :
    option (list msgChain * selectedMessages * list nat) :=
  match fuel with
  | O => None
  | S fuel' =>
      match l with
      | [] => Some (h, sm, front)
      | p :: l' =>
          if decide (sgasLimit sm < MinGas) then Some (h, sm, front ++ l)
          else if negb (isValid h p) then packTail fuel' h sm (front ++ [p]) l'
          else
            h1 ← trimChain sm h p baseFee;
            let l1 := if isValid h1 p then pushDown (lessAt BeforeEffective h1) p l' else l in
            '(h2, sm2, more) ← mergeTail h1 sm l1;
            if (more : bool) then packTail fuel' h2 sm2 front l1 else Some (h2, sm2, front ++ l1)
      end
  end.

(** [shuffleChains]; [rnd i] stands for the random number of turn [i]. *)
Definition swapAt (l : list nat) (i j : nat) : list nat :=
  match l !! i, l !! j with
  | Some x, Some y => <[i := y]> (<[j := x]> l)
  | _, _ => l
  end.
Definition shuffleChains (rnd : nat → nat) (l : list nat) : list nat :=
  foldl (λ l i, swapAt l i (rnd i mod S i)%nat) l (seq 0 (length l)).

(** The loop over the shuffled chains. *)
Fixpoint fillRandom (h : list msgChain) (sm : selectedMessages) (l : list nat) : option selectedMessages :=
  match l with
  | [] => Some sm
  | p :: l' =>
      if decide (sgasLimit sm < MinGas ∨ BlockMessageLimit ≤ Z.of_nat (length (smsgs sm))) then Some sm
      else if isMerged h p || negb (isValid h p) || negPerf h p then fillRandom h sm l'
      else
        '(h1, sm1, added) ← tryToAddWithDeps h sm p baseFee;
        if negb added && isValid h1 p then
          '(h2, sm2, _) ← tryToAddWithDeps h1 sm1 p baseFee;
          fillRandom h2 sm2 l'
        else fillRandom h1 sm1 l'
  end.

(** Steps 2 to 7 and the random rest. *)
Definition optimal (rnd : nat → nat) (blockProb : list spec_float) (h : list msgChain) (sm : selectedMessages)
    (chains : list nat) : option selectedMessages :=
  let sorted := sortSlice (lessAt Before h) chains in
  if match sorted with p :: _ => negPerf h p | [] => false end then Some sm
  else
    let h1 := setEffective h blockProb sorted in
    let resorted := sortSlice (lessAt BeforeEffective h1) sorted in
    '(h2, sm2, front, l) ← mergeHead (length resorted) h1 sm [] resorted;
    '(h3, sm3, l3) ← packTail (S (length resorted + length (concat (map cmsgs h2)))) h2 sm2 front l;
    if decide (MinGas ≤ sgasLimit sm3 ∧ Z.of_nat (length (smsgs sm3)) ≤ BlockMessageLimit)
    then fillRandom h3 sm3 (shuffleChains rnd l3) else Some sm3.

Variable UpgradeCalicoHeight : Z.
Variable GetActorAfter : Address → TipSet → outcome Actor.
Variables (MaxLength : Z) (ts : TipSet).
Variable resolveToKey : Address → outcome Address.
Variable PriorityAddrs : list Address.
Context `{MathLib}.

Definition selectMessagesOptimal (rnd : nat → nat) (tq : spec_float) (pending : gmap Address (gmap Z SignedMessage)) :
    option (option selectedMessages) :=
  if decide (pending = ∅) then Some None
  else
    '(pending', result) ← selectPriorityMessages UpgradeCalicoHeight GetActorAfter MaxLength baseFee ts resolveToKey PriorityAddrs pending;
    if decide (sgasLimit result < MinGas ∨ BlockMessageLimit ≤ Z.of_nat (length (smsgs result))) then Some (Some result)
    else
      '(h, chains) ← collectChains UpgradeCalicoHeight GetActorAfter baseFee ts [] (rangeMap pending');
      sm ← optimal rnd (blockProbabilities tq) h result chains;
      Some (Some sm).

(** [SelectMessages] with the pending messages loaded: the messages of the block, none when nothing is pending. *)
Definition SelectMessages (rnd : nat → nat) (tq : spec_float) (pending : gmap Address (gmap Z SignedMessage)) :
    option (list SignedMessage) :=
  r ← (if SFltb (ratFloat64 84 100) tq
       then selectMessagesGreedy UpgradeCalicoHeight GetActorAfter MaxLength baseFee ts resolveToKey PriorityAddrs pending
       else selectMessagesOptimal rnd tq pending);
  Some (match r with
        | None => []
        | Some sm => if decide (BlockMessageLimit < Z.of_nat (length (smsgs sm)))
                     then take (Z.to_nat BlockMessageLimit) (smsgs sm) else smsgs sm
        end).
End optimal.
