(* ===== verification/MsgSelectOptimalSpec.v ===== *)
(** * Selection by expected reward makes valid blocks

    Whatever order the effective performances give, a chain is only taken with the chains before
    it, and every failed attempt shortens a chain, so that the selection ends. *)

From Stdlib Require Import SpecFloat Sorted.
From coqutil Require Import Datatypes.RecordSetters.
From stdpp Require Import strings numbers base functions gmap fin_maps sets list.
From S2P Require Import Prelude GoStrings GoSort GoFloat FileTypes TipSets GasFees ProofLog SealTasks SealResources.
From S2P Require Import MsgSet MsgChains MsgChainsSpec MsgSelect MsgSelectGroups MsgSelectGreedy MsgSelectSpec MsgSelectOptimal.
Import DoubleBraceUpdate.
Local Open Scope Z_scope.

(** ** Changes of performance and merge marks *)

(** The heaps differ in performance and in merge marks only. *)
Definition likeCell (c c' : msgChain) : Prop :=
  cmsgs c' = cmsgs c ∧ valid c' = valid c ∧ cnext c' = cnext c ∧ cprev c' = cprev c ∧ csigType c' = csigType c ∧
  cgasLimit c' = cgasLimit c.

Definition likeHeap (h h' : list msgChain) : Prop := Forall2 likeCell h h'.

Lemma likeCell_refl c : likeCell c c.
Proof. by split_and!. Qed.

Lemma likeHeap_refl h : likeHeap h h.
Proof. induction h; constructor; [apply likeCell_refl|done]. Qed.

Lemma likeHeap_trans h1 h2 h3 : likeHeap h1 h2 → likeHeap h2 h3 → likeHeap h1 h3.
Proof.
  intros H12. revert h3. induction H12 as [|c d h1 h2 Hcd _ IH]; intros h3 H23.
  { apply Forall2_nil_inv_l in H23 as ->. constructor. }
  apply Forall2_cons_inv_l in H23 as (e&h3'&Hde&H23&->). constructor; [|by apply IH].
  destruct Hcd as (?&?&?&?&?&?), Hde as (?&?&?&?&?&?). split_and!; congruence.
Qed.

Lemma likeHeap_onChain p f h : (∀ c, h !! p = Some c → likeCell c (f c)) → likeHeap h (onChain p f h).
Proof.
  intros Hf. apply Forall2_same_length_lookup. split; [by rewrite length_onChain|].
  intros i c c' Hc Hc'. rewrite lookup_onChain in Hc'. case_decide as E; [subst|by simplify_eq; apply likeCell_refl].
  rewrite Hc in Hc'. simplify_eq/=. by apply Hf.
Qed.

Lemma likeHeap_lookup h h' p c : likeHeap h h' → h !! p = Some c → ∃ c', h' !! p = Some c' ∧ likeCell c c'.
Proof. intros Hh Hc. by eapply Forall2_lookup_l. Qed.

Lemma likeHeap_lookup_r h h' p c' : likeHeap h h' → h' !! p = Some c' → ∃ c, h !! p = Some c ∧ likeCell c c'.
Proof. intros Hh Hc. by eapply Forall2_lookup_r. Qed.

Lemma likeHeap_groupInv h h' g k R : likeHeap h h' → groupInv h g k R → groupInv h' g k R.
Proof.
  intros Hh [Hk Ht Hw Hc]. split; [done|done| |].
  - destruct Hw as [?|Hw]; [by left|right]. intros i c' Hi Hc'.
    destruct (likeHeap_lookup_r _ _ _ _ Hh Hc') as (c&Hlk&(_&->&_)). by eapply Hw.
  - intros i Hi. destruct (Hc i Hi) as (c&Hlk&[Hn Hp Ht' Hne Hg Hm Hl Hb]).
    destruct (likeHeap_lookup _ _ _ _ Hh Hlk) as (c'&Hlk'&(Em&Ev&En&Ep&Ety&Eg)). exists c'. split; [done|].
    split; rewrite ?Ev, ?Em, ?En, ?Ep, ?Eg; [done|done|unfold knownType; by rewrite Ety|done|done|done| |].
    + intros Hv j d' Hj Hd'. destruct (likeHeap_lookup_r _ _ _ _ Hh Hd') as (d&Hd&(_&_&->&_)). by eapply Hl.
    + intros Hv Hki j d' Hj Hd'. destruct (likeHeap_lookup_r _ _ _ _ Hh Hd') as (d&Hd&(Emd&Evd&_)).
      rewrite Emd, Evd. by eapply Hb.
Qed.

Lemma likeHeap_count h h' : likeHeap h h' → msgCount h' = msgCount h.
Proof.
  induction 1 as [|c c' h h' (E&_) _ IH]; [done|]. by rewrite !msgCount_cons, E, IH.
Qed.

Section optimal.
Variable own : SignedMessage → Address.
Variable gs : list group.
Variable rest : list SignedMessage.

Lemma likeHeap_selInv h h' sm ks : likeHeap h h' → selInv own gs rest h sm ks → selInv own gs rest h' sm ks.
Proof.
  intros Hh [[Hlay Hgs Hr] Hb]. split; [|done]. split; [|intros g Hg; by eapply likeHeap_groupInv, Hgs|done].
  destruct Hlay. split; [|done..]. by rewrite <- (Forall2_length _ _ _ Hh).
Qed.

(** The merged chains are those that have been taken. *)
Definition marksOk (h : list msgChain) (ks : Address → nat) : Prop :=
  ∀ g i c, g ∈ gs → (i < length (gchunks g))%nat → h !! (gbase g + i)%nat = Some c →
    merged c = bool_decide (i < ks (gowner g))%nat.

Definition optInv (h : list msgChain) (sm : selectedMessages) (ks : Address → nat) : Prop :=
  selInv own gs rest h sm ks ∧ marksOk h ks.

Lemma marksOk_like h h' ks : likeHeap h h' → (∀ p c c', h !! p = Some c → h' !! p = Some c' → merged c' = merged c) →
  marksOk h ks → marksOk h' ks.
Proof.
  intros Hh Hm Hk g i c' Hg Hi Hc'. destruct (likeHeap_lookup_r _ _ _ _ Hh Hc') as (c&Hc&_).
  rewrite (Hm _ _ _ Hc Hc'). by eapply Hk.
Qed.

Lemma optInv_cut h sm ks g i h' : optInv h sm ks → g ∈ gs → (i < length (gchunks g))%nat → cutAt g i h h' → optInv h' sm ks.
Proof.
  intros [Hsel Hm] Hg Hi Hcut. split; [by eapply selInv_cut|]. intros g' j c' Hg' Hj Hc'.
  assert ((gbase g' + j)%nat < length h)%nat as Hlt.
  { rewrite <- (cut_length _ _ _ _ Hcut). by apply lookup_lt_Some in Hc'. }
  destruct (lookup_lt_is_Some_2 h (gbase g' + j) Hlt) as [c Hc]. rewrite <- (Hm g' j c Hg' Hj Hc).
  destruct (decide (gbase g' + j < gbase g + i ∨ gbase g + length (gchunks g) ≤ gbase g' + j)%nat) as [Ho|Ho].
  { rewrite (cut_frame _ _ _ _ Hcut) in Hc' by done. by simplify_eq. }
  destruct (decide (gbase g' + j = gbase g + i)%nat) as [E|Hne].
  - rewrite E in *. destruct (cut_here _ _ _ _ Hcut c Hc) as (d&Hd&(?&_)&_). by simplify_eq.
  - destruct (cut_later _ _ _ _ Hcut (gbase g' + j - gbase g)%nat c) as (d&Hd&(?&_)&_); [lia| |].
    + by replace (gbase g + (gbase g' + j - gbase g))%nat with (gbase g' + j)%nat by lia.
    + replace (gbase g + (gbase g' + j - gbase g))%nat with (gbase g' + j)%nat in Hd by lia. by simplify_eq.
Qed.

(** ** Dependencies *)

Lemma chainDeps_run h sm ks g fuel : ∀ i, optInv h sm ks → g ∈ gs → (ks (gowner g) ≤ i ≤ length (gchunks g))%nat → (i ≤ fuel)%nat →
  chainDeps fuel h (if decide (0 < i)%nat then Some (gbase g + (i - 1))%nat else None)
  = Some (rev (seq (gbase g + ks (gowner g)) (i - ks (gowner g)))).
Proof.
  set (k := ks (gowner g)). revert fuel. intros fuel i. revert fuel. induction i as [|i IH]; intros fuel Hinv Hg Hi Hf.
  { rewrite decide_False by lia. replace (0 - k)%nat with 0%nat by lia. by destruct fuel. }
  rewrite decide_True by lia. replace (S i - 1)%nat with i by lia. destruct fuel as [|fuel]; [lia|]. cbn [chainDeps].
  destruct Hinv as [Hsel Hm]. destruct (group_cells _ _ _ _ (sel_groups _ _ _ _ _ _ Hsel g Hg) i) as (c&Hc&Hcell); [lia|].
  rewrite Hc. cbn [mbind option_bind]. rewrite (Hm g i c Hg ltac:(lia) Hc). fold k. case_bool_decide as Hlt.
  - by replace (S i - k)%nat with 0%nat by lia.
  - rewrite (cell_prev _ _ _ _ _ Hcell), IH by (done || lia). cbn [mbind option_bind].
    replace (S i - k)%nat with (S (i - k)) by lia. rewrite seq_S, rev_app_distr. simpl. do 2 f_equal. lia.
Qed.

(** ** Sums over places *)

Definition sumOver (f : nat → Z) (ps : list nat) : Z := foldr (λ p acc, f p + acc) 0 ps.

Lemma sumOver_perm f ps ps' : ps ≡ₚ ps' → sumOver f ps = sumOver f ps'.
Proof. induction 1; simpl; lia. Qed.

Lemma gasOf_sum h ps : (∀ p, p ∈ ps → 0 ≤ gasAt h p) → sumOver (gasAt h) ps ≤ BlockGasLimit → gasOf h ps = sumOver (gasAt h) ps.
Proof.
  intros Hpos Hle. unfold gasOf. enough (∀ acc, 0 ≤ acc → acc + sumOver (gasAt h) ps ≤ BlockGasLimit →
    foldl (λ acc p, wrapInt64 (acc + gasAt h p)) acc ps = acc + sumOver (gasAt h) ps) as E by (rewrite E; lia).
  clear Hle. induction ps as [|p ps IH]; intros acc Ha Hle; simpl; [lia|]. simpl in Hle.
  assert (0 ≤ gasAt h p) by (apply Hpos; by left).
  assert (0 ≤ sumOver (gasAt h) ps).
  { clear -Hpos. induction ps as [|q ps IH]; simpl; [lia|]. assert (0 ≤ gasAt h q) by (apply Hpos; right; by left).
    assert (0 ≤ sumOver (gasAt h) ps); [|lia]. apply IH. intros x Hx. apply Hpos. rewrite !elem_of_cons in *. tauto. }
  rewrite wrapGas by lia. rewrite IH; [lia| |lia|lia]. intros q Hq. apply Hpos. by right.
Qed.

Lemma countOf_sum h ps : countOf h ps = sumOver (λ p, Z.of_nat (length (msgsAt h p))) ps.
Proof.
  unfold countOf. enough (∀ acc, foldl (λ acc p, acc + Z.of_nat (length (msgsAt h p))) acc ps
    = acc + sumOver (λ p, Z.of_nat (length (msgsAt h p))) ps) as E by (rewrite E; lia).
  induction ps as [|p ps IH]; intros acc; simpl; [lia|]. rewrite IH. lia.
Qed.

Lemma sumOver_gas h ps : (∀ p, p ∈ ps → gasAt h p = sumGas (msgsAt h p)) →
  sumOver (gasAt h) ps = sumGas (concat (map (msgsAt h) ps)).
Proof.
  induction ps as [|p ps IH]; intros Hp; simpl; [done|]. rewrite sumGas_app, Hp by by left.
  rewrite IH; [done|]. intros q Hq. apply Hp. by right.
Qed.

Lemma sumOver_count h ps : sumOver (λ p, Z.of_nat (length (msgsAt h p))) ps = Z.of_nat (length (concat (map (msgsAt h) ps))).
Proof. induction ps as [|p ps IH]; simpl; [done|]. rewrite length_app, IH. lia. Qed.

Lemma sumGas_part k i ls : Forall (Forall (λ m, 0 < smGasLimit m)) ls →
  0 ≤ sumGas (concat (drop k (take i ls))) ≤ sumGas (concat ls).
Proof.
  intros Hpos. assert (sumGas (concat ls) = sumGas (concat (take k (take i ls))) + sumGas (concat (drop k (take i ls))) +
    sumGas (concat (drop i ls))) as E by (by rewrite <- !sumGas_app, <- !concat_app, !take_drop).
  pose proof (sumGas_concat_nonneg (take k (take i ls)) ltac:(by apply Forall_take, Forall_take)).
  pose proof (sumGas_concat_nonneg (drop k (take i ls)) ltac:(by apply Forall_drop, Forall_take)).
  pose proof (sumGas_concat_nonneg (drop i ls) ltac:(by apply Forall_drop)). lia.
Qed.

(** The chains that a valid chain waits for have their messages whole. *)
Lemma deps_msgs h sm ks g i c : selInv own gs rest h sm ks → g ∈ gs → (ks (gowner g) ≤ i < length (gchunks g))%nat →
  h !! (gbase g + i)%nat = Some c → valid c = true →
  let k := ks (gowner g) in
  let deps := rev (seq (gbase g + k) (i - k)) in
  map (msgsAt h) (rev deps) = drop k (take i (gchunks g)) ∧
  gasOf h deps = sumGas (concat (drop k (take i (gchunks g)))) ∧
  countOf h deps = Z.of_nat (length (concat (drop k (take i (gchunks g))))).
Proof.
  intros Hsel Hg Hi Hc Hv k deps. pose proof (sel_groups _ _ _ _ _ _ Hsel g Hg) as Hinv.
  destruct (lay_ok _ _ _ (sel_layout _ _ _ _ _ _ Hsel) g Hg) as [Hpos Hlim].
  destruct (group_cells _ _ _ _ Hinv i) as (c'&Hc'&Hcell); [lia|]. simplify_eq.
  assert (∀ j, (k ≤ j < i)%nat → ∃ d, h !! (gbase g + j)%nat = Some d ∧ gchunks g !! j = Some (cmsgs d) ∧ cgasLimit d = sumGas (cmsgs d)) as Hd.
  { intros j Hj. destruct (group_cells _ _ _ _ Hinv j) as (d&Hd&Hcd); [lia|]. exists d.
    destruct (cell_before _ _ _ _ _ Hcell Hv ltac:(lia) j d ltac:(lia) Hd) as [Hvd ?].
    destruct (cell_gas _ _ _ _ _ Hcd Hvd). done. }
  assert (map (msgsAt h) (seq (gbase g + k) (i - k)) = drop k (take i (gchunks g))) as Emap.
  { apply list_eq. intros j. rewrite list_lookup_fmap, lookup_drop. destruct (decide (j < i - k)%nat) as [Hj|Hj].
    - rewrite lookup_seq_lt by done. destruct (Hd (k + j)%nat) as (d&Hlk&HC&_); [lia|]. rewrite lookup_take_lt, HC by lia. simpl.
      unfold msgsAt. by replace (gbase g + k + j)%nat with (gbase g + (k + j))%nat by lia; rewrite Hlk.
    - rewrite lookup_seq_ge, lookup_take_ge by lia. done. }
  assert (∀ p, p ∈ deps → gasAt h p = sumGas (msgsAt h p) ∧ 0 ≤ gasAt h p) as Hgas.
  { intros p Hp%list_elem_of_In%in_rev%list_elem_of_In. apply elem_of_seq in Hp.
    destruct (Hd (p - gbase g)%nat) as (d&Hlk&HC&Eg); [lia|]. replace (gbase g + (p - gbase g))%nat with p in Hlk by lia.
    unfold gasAt, msgsAt. rewrite Hlk, Eg. split; [done|]. apply sumGas_nonneg. rewrite Forall_lookup in Hpos. by eapply Hpos. }
  pose proof (sumGas_part k i (gchunks g) Hpos) as Hle.
  assert (sumOver (gasAt h) deps = sumGas (concat (drop k (take i (gchunks g))))) as Esum.
  { rewrite (sumOver_perm _ deps (seq (gbase g + k) (i - k))) by (unfold deps; symmetry; apply Permutation_rev).
    rewrite sumOver_gas, Emap; [done|]. intros p Hp. apply Hgas. unfold deps. apply list_elem_of_In, in_rev. rewrite rev_involutive. by apply list_elem_of_In. }
  unfold deps at 1. rewrite rev_involutive. split; [done|]. split.
  - rewrite gasOf_sum; [done|intros p Hp; by apply Hgas|lia].
  - rewrite countOf_sum, (sumOver_perm _ deps (seq (gbase g + k) (i - k))) by (unfold deps; symmetry; apply Permutation_rev).
    by rewrite sumOver_count, Emap.
Qed.

(** ** Taking a chain with its dependencies *)

Definition mark (p : nat) (h : list msgChain) : list msgChain := onChain p (λ c, c {{ merged := true }}) h.

Lemma mark_like p h : likeHeap h (mark p h).
Proof. apply likeHeap_onChain. intros c _. by split_and!. Qed.

Lemma marks_like ps h : likeHeap h (foldr mark h ps).
Proof. induction ps as [|p ps IH]; simpl; [apply likeHeap_refl|]. eapply likeHeap_trans; [exact IH|apply mark_like]. Qed.

Lemma lookup_marks ps h q c : h !! q = Some c →
  ∃ c', foldr mark h ps !! q = Some c' ∧ merged c' = (merged c || bool_decide (q ∈ ps)).
Proof.
  intros Hc. induction ps as [|p ps (c'&Hc'&Hm)]; simpl; [exists c; by rewrite orb_false_r|].
  unfold mark at 1. rewrite lookup_onChain, Hc'. destruct (decide (q = p)) as [E|E]; cbn [fmap option_fmap option_map].
  - subst. eexists. split; [done|]. rsimpl. rewrite bool_decide_true by by left. by rewrite orb_true_r.
  - exists c'. split; [done|]. rewrite Hm. f_equal. apply bool_decide_ext. rewrite elem_of_cons. tauto.
Qed.

(** A chain that does not fit with its dependencies loses a message. *)
Lemma deps_too_large h sm ks g i c l baseFee : optInv h sm ks → g ∈ gs → (ks (gowner g) ≤ i < length (gchunks g))%nat →
  h !! (gbase g + i)%nat = Some c → valid c = true →
  let deps := rev (seq (gbase g + ks (gowner g)) (i - ks (gowner g))) in
  sgasLimit sm < cgasLimit c + gasOf h deps ∨ l < Z.of_nat (length (cmsgs c)) + countOf h deps →
  ∃ h', (if decide (sgasLimit sm < gasOf h deps ∨ l ≤ countOf h deps) then Invalidate (length h) h (gbase g + i)
         else Trim h (gbase g + i) (wrapInt64 (sgasLimit sm - gasOf h deps)) (l - countOf h deps) baseFee) = Some h' ∧
    optInv h' sm ks ∧ (msgCount h' < msgCount h)%nat ∧ length h' = length h.
Proof.
  intros Hinv Hg Hi Hc Hv deps Hlarge. pose proof Hinv as [Hsel _].
  pose proof (lay_ok _ _ _ (sel_layout _ _ _ _ _ _ Hsel) g Hg) as Hok. pose proof (sel_groups _ _ _ _ _ _ Hsel g Hg) as Hgi.
  destruct (group_cells _ _ _ _ Hgi i) as (c'&Hc'&Hcell); [lia|]. rewrite Hc in Hc'. injection Hc' as <-.
  pose proof (cell_nonempty _ _ _ _ _ Hcell Hv) as Hne. pose proof (sel_budget _ _ _ _ _ _ Hsel) as (Hg0&_&_).
  destruct (deps_msgs h sm ks g i c Hsel Hg Hi Hc Hv) as (_&Egas&_). fold deps in Egas.
  pose proof (sumGas_part (ks (gowner g)) i (gchunks g) (proj1 Hok)) as [Hpart _]. rewrite <- Egas in Hpart.
  case_decide as Hd.
  - destruct (Invalidate_cut h g _ _ i Hgi ltac:(lia)) as (h'&->&Hcut&Hempty). exists h'. split; [done|].
    split; [by apply (optInv_cut h sm ks g i); [| |lia|]|]. split; [|by apply (cut_length _ _ _ _ Hcut)].
    destruct (cut_here _ _ _ _ Hcut c Hc) as (d&Hd'&_). destruct (Hempty d Hd') as [_ Ed].
    eapply (msgCount_lt h h'); [by apply (cut_length _ _ _ _ Hcut)|by intros; eapply cutAt_shrinks|exact Hc|exact Hd'|].
    rewrite Ed. destruct (cmsgs c); simpl; [done|lia].
  - rewrite wrapGas by lia.
    destruct (Trim_cut h g _ _ i c (sgasLimit sm - gasOf h deps) (l - countOf h deps) baseFee Hok Hgi ltac:(lia) Hc)
      as (h'&d&->&Hcut&Hd'&Hshort). exists h'. split; [done|]. split; [by apply (optInv_cut h sm ks g i); [| |lia|]|].
    split; [|by apply (cut_length _ _ _ _ Hcut)].
    eapply (msgCount_lt h h'); [by apply (cut_length _ _ _ _ Hcut)|by intros; eapply cutAt_shrinks|exact Hc|exact Hd'|].
    apply Hshort; [done|]. lia.
Qed.

(** A chain that fits is taken with its dependencies. *)
Lemma deps_fit h sm ks g i c : optInv h sm ks → g ∈ gs → (ks (gowner g) ≤ i < length (gchunks g))%nat →
  h !! (gbase g + i)%nat = Some c → valid c = true → knownType c →
  let deps := rev (seq (gbase g + ks (gowner g)) (i - ks (gowner g))) in
  cgasLimit c + gasOf h deps ≤ sgasLimit sm → Z.of_nat (length (cmsgs c)) + countOf h deps ≤ msgRoom sm c →
  let h' := mark (gbase g + i) (foldr mark h deps) in
  let sm' := spend sm c ((smsgs sm ++ concat (map (msgsAt h) (rev deps))) ++ cmsgs c) (cgasLimit c + gasOf h deps)
               (Z.of_nat (length (cmsgs c)) + countOf h deps) in
  optInv h' sm' (<[gowner g := S i]> ks) ∧ likeHeap h h'.
Proof.
  intros [Hsel Hmarks] Hg Hi Hc Hv Hkt deps Hgasfit Hcountfit h' sm'.
  pose proof (lay_ok _ _ _ (sel_layout _ _ _ _ _ _ Hsel) g Hg) as Hok. pose proof (sel_groups _ _ _ _ _ _ Hsel g Hg) as Hgi.
  destruct (group_cells _ _ _ _ Hgi i) as (c'&Hc'&Hcell); [lia|]. rewrite Hc in Hc'. injection Hc' as <-.
  destruct (cell_gas_bound _ _ _ _ _ Hok Hcell Hv) as (Hpos&Hgas&_). pose proof (sumGas_nonneg _ Hpos) as Hnn.
  destruct (deps_msgs h sm ks g i c Hsel Hg Hi Hc Hv) as (Emap&Egas&Ecount). fold deps in Emap, Egas, Ecount.
  pose proof (sumGas_part (ks (gowner g)) i (gchunks g) (proj1 Hok)) as [Hpart _]. rewrite <- Egas in Hpart.
  assert (likeHeap h h') as Hlike.
  { eapply likeHeap_trans; [apply marks_like|apply mark_like]. }
  split; [|done]. split.
  - apply (likeHeap_selInv h); [done|]. apply (selInv_take own gs rest h sm ks g i c); [done|done|lia|done|done| |].
    + pose proof (sel_budget _ _ _ _ _ _ Hsel) as (Hg0&Hg1&Hn). unfold sm', budgetOk. simpl.
      rewrite Emap, !sumGas_app, !length_app, wrapGas by lia.
      assert (msgRoom sm c ≤ BlockMessageLimit - Z.of_nat (length (smsgs sm))).
      { unfold msgRoom. destruct Hkt as [-> | ->]; lia. }
      lia.
    + unfold sm'. simpl. by rewrite Emap, app_assoc.
  - intros g' j d' Hg' Hj Hd'. change h' with (foldr mark h ((gbase g + i)%nat :: deps)) in Hd'.
    destruct (likeHeap_lookup_r _ _ _ _ Hlike Hd') as (d&Hd&_).
    destruct (lookup_marks ((gbase g + i)%nat :: deps) h (gbase g' + j) d Hd) as (d2&Hd2&Hm2). simplify_eq. rewrite Hm2.
    rewrite (Hmarks g' j d Hg' Hj Hd). unfold deps.
    set (deps' := _ :: rev _). assert ((gbase g' + j)%nat ∈ deps' ↔ (gbase g + ks (gowner g) ≤ gbase g' + j ≤ gbase g + i)%nat) as Hmem.
    { unfold deps'. rewrite elem_of_cons, <- Permutation_rev, elem_of_seq. lia. }
    rewrite <- bool_decide_or. apply bool_decide_ext. rewrite Hmem. destruct (decide (gowner g' = gowner g)) as [Eo|Hne].
    + assert (g' = g) as -> by by apply (lay_owner _ _ _ (sel_layout _ _ _ _ _ _ Hsel)). rewrite fn_lookup_insert. lia.
    + rewrite fn_lookup_insert_ne by done. split; [|by left]. intros [?|Hr]; [done|]. exfalso. apply Hne. f_equal.
      apply (lay_disjoint _ _ _ (sel_layout _ _ _ _ _ _ Hsel) g' g (gbase g' + j)%nat); [done..| |]; unfold inGroup; lia.
Qed.

(** A valid chain that is not merged is taken with its dependencies, or it loses a message. *)
Lemma tryToAddWithDeps_run h sm ks p c baseFee : optInv h sm ks → h !! p = Some c → valid c = true → merged c = false →
  ∃ h' sm' b ks', tryToAddWithDeps h sm p baseFee = Some (h', sm', b) ∧ optInv h' sm' ks' ∧ length h' = length h ∧
    if (b : bool) then likeHeap h h' else sm' = sm ∧ ks' = ks ∧ (msgCount h' < msgCount h)%nat.
Proof.
  intros Hinv Hc Hv Hm. pose proof Hinv as [Hsel Hmarks].
  destruct (place own gs rest h (smsgs sm) ks p (sel_taken _ _ _ _ _ _ Hsel)) as (g&i&c'&Hg&Hi&Ep&Hc'&Hcell); [by apply lookup_lt_Some in Hc|].
  rewrite Hc in Hc'. injection Hc' as <-. subst p.
  assert (ks (gowner g) ≤ i)%nat as Hki by (rewrite (Hmarks g i c Hg Hi Hc) in Hm; apply bool_decide_eq_false in Hm; lia).
  pose proof (lay_ok _ _ _ (sel_layout _ _ _ _ _ _ Hsel) g Hg) as Hok. pose proof (cell_type _ _ _ _ _ Hcell) as Hkt.
  destruct (cell_gas_bound _ _ _ _ _ Hok Hcell Hv) as (Hpos&Hgas&_). pose proof (sumGas_nonneg _ Hpos) as Hnn.
  set (deps := rev (seq (gbase g + ks (gowner g)) (i - ks (gowner g)))).
  assert (tryToAddWithDeps h sm (gbase g + i) baseFee = addWithDeps h sm (gbase g + i) c (msgRoom sm c) deps baseFee) as ->.
  { unfold tryToAddWithDeps. rewrite Hc. cbn [mbind option_bind].
    rewrite (cell_prev _ _ _ _ _ Hcell), (chainDeps_run h sm ks g); [by destruct Hkt as [-> | ->]|done|done|lia|].
    pose proof (groupInv_fuel _ _ _ _ (sel_groups _ _ _ _ _ _ Hsel g Hg)). lia. }
  destruct (deps_msgs h sm ks g i c Hsel Hg ltac:(lia) Hc Hv) as (_&Egas&_). fold deps in Egas.
  pose proof (sumGas_part (ks (gowner g)) i (gchunks g) (proj1 Hok)) as [Hpart Hpart2]. rewrite <- Egas in Hpart, Hpart2.
  assert (cgasLimit c + gasOf h deps ≤ 2 * BlockGasLimit) as Hsum.
  { destruct Hok as [Hp Hl]. destruct (cell_msgs _ _ _ _ _ Hcell Hv) as (C&HC&Hpre).
    pose proof (sumGas_concat_lookup _ _ _ Hp HC). rewrite Forall_lookup in Hp. pose proof (sumGas_prefix _ _ Hpre (Hp _ _ HC)). lia. }
  unfold addWithDeps. rewrite (wrapInt64_id (cgasLimit c + _)) by (unfold minInt64, maxInt64, BlockGasLimit in *; lia).
  case_decide as Hd.
  - destruct (deps_too_large h sm ks g i c (msgRoom sm c) baseFee) as (h'&E&?&?&?); [done|done|lia|done|done|done|].
    fold deps in E. rewrite E. cbn [mbind option_bind]. by exists h', sm, false, ks.
  - destruct (deps_fit h sm ks g i c) as [? Hlike]; [done|done|lia|done|done|done|fold deps; lia|fold deps; lia|].
    cbn [mergeDeps]. eexists _, _, true, _. split; [reflexivity|]. split; [done|]. split; [|done].
    symmetry. by apply (Forall2_length _ _ _ Hlike).
Qed.

(** ** Changes of performance *)

Definition perfHeap (h h' : list msgChain) : Prop := likeHeap h h' ∧ map merged h' = map merged h.

Lemma perfHeap_refl h : perfHeap h h.
Proof. split; [apply likeHeap_refl|done]. Qed.

Lemma perfHeap_trans h1 h2 h3 : perfHeap h1 h2 → perfHeap h2 h3 → perfHeap h1 h3.
Proof. intros [H12 E12] [H23 E23]. split; [by eapply likeHeap_trans|congruence]. Qed.

Lemma perfHeap_onChain p f h : (∀ c, likeCell c (f c) ∧ merged (f c) = merged c) → perfHeap h (onChain p f h).
Proof.
  intros Hf. split; [apply likeHeap_onChain; intros; apply Hf|]. apply list_eq. intros i.
  rewrite !list_lookup_fmap, lookup_onChain. case_decide; [|done]. destruct (h !! i) as [c|]; [|done]. simpl. f_equal. apply Hf.
Qed.

Lemma perfHeap_optInv h h' sm ks : perfHeap h h' → optInv h sm ks → optInv h' sm ks.
Proof.
  intros [Hl Hm] [Hsel Hmarks]. split; [by eapply likeHeap_selInv|]. eapply marksOk_like; [done| |done].
  intros p c c' Hc Hc'. apply (f_equal (lookup p)) in Hm. rewrite !list_lookup_fmap, Hc, Hc' in Hm. by injection Hm.
Qed.

Lemma perfHeap_length h h' : perfHeap h h' → length h' = length h.
Proof. intros [Hl _]. symmetry. apply (Forall2_length _ _ _ Hl). Qed.

Lemma setEffPerf_like h c : likeCell c (setEffPerf h c) ∧ merged (setEffPerf h c) = merged c.
Proof. destruct (setEffPerf_same h c) as ((?&?&?&?&?&?)&?&_). by split_and!. Qed.

Lemma foldl_perf {B} (f : list msgChain → B → list msgChain) l : (∀ h b, perfHeap h (f h b)) → ∀ h, perfHeap h (foldl f h l).
Proof.
  intros Hf. induction l as [|b l IH]; intros h; simpl; [apply perfHeap_refl|]. eapply perfHeap_trans; [apply Hf|apply IH].
Qed.

Lemma setEffective_perf h probs l : perfHeap h (setEffective h probs l).
Proof.
  unfold setEffective. destruct (partitionChains _ _ _) as [bs l'].
  eapply perfHeap_trans; [|apply foldl_perf].
  - apply foldl_perf. intros h1 [ps b]. apply foldl_perf. intros h2 p. apply perfHeap_onChain. intros c. simpl.
    destruct (setEffPerf_like h2 (c {{ bp := b }})) as [Hl Hm]. split; [|done]. exact Hl.
  - intros h1 p. apply perfHeap_onChain. intros c. by split.
Qed.

Lemma adjustNext_run h sm ks g i fuel : optInv h sm ks → g ∈ gs → (i < length (gchunks g))%nat → (length (gchunks g) - i ≤ fuel)%nat →
  ∃ h', adjustNext fuel h (Some (gbase g + i)%nat) = Some h' ∧ perfHeap h h'.
Proof.
  revert h i. induction fuel as [|fuel IH]; intros h i Hinv Hg Hi Hf; [lia|]. cbn [adjustNext].
  pose proof Hinv as [Hsel _]. destruct (group_cells _ _ _ _ (sel_groups _ _ _ _ _ _ Hsel g Hg) i Hi) as (c&Hc&Hcell).
  rewrite Hc. cbn [mbind option_bind]. destruct (SFltb _ _); [|by exists h; split; [|apply perfHeap_refl]].
  set (h1 := onChain _ _ h). assert (perfHeap h h1) as Hp by (apply perfHeap_onChain; intros d; apply setEffPerf_like).
  destruct (cell_next _ _ _ _ _ Hcell) as [-> |[-> ?]]; [destruct fuel; by eauto|].
  destruct (IH h1 (S i)) as (h'&->&?); [by eapply perfHeap_optInv|done|lia|lia|].
  exists h'. split; [done|by eapply perfHeap_trans].
Qed.

Lemma adjustAfter_run h sm ks p : optInv h sm ks → (p < length h)%nat → ∃ h', adjustAfter h p = Some h' ∧ perfHeap h h'.
Proof.
  intros Hinv Hp. pose proof Hinv as [Hsel _]. destruct (place own gs rest h (smsgs sm) ks p (sel_taken _ _ _ _ _ _ Hsel) Hp) as (g&i&c&Hg&Hi&->&Hc&Hcell).
  unfold adjustAfter. rewrite Hc. cbn [mbind option_bind].
  destruct (cell_next _ _ _ _ _ Hcell) as [-> |[-> Hsi]]; [by exists h; split; [|apply perfHeap_refl]|].
  pose proof (sel_groups _ _ _ _ _ _ Hsel g Hg) as Hgi.
  destruct (group_cells _ _ _ _ Hgi (S i) Hsi) as (d&Hd&Hcd). rewrite Hd. cbn [mbind option_bind].
  destruct (SFltb _ _); [|by exists h; split; [|apply perfHeap_refl]].
  set (h1 := onChain _ _ h). assert (perfHeap h h1) as Hp1 by (apply perfHeap_onChain; intros; by split).
  destruct (cell_next _ _ _ _ _ Hcd) as [-> |[-> ?]]; [destruct (length h); by eauto|].
  pose proof (groupInv_fuel _ _ _ _ Hgi).
  destruct (adjustNext_run h1 sm ks g (S (S i)) (length h)) as (h'&->&?); [by eapply perfHeap_optInv|done|lia|lia|].
  exists h'. split; [done|by eapply perfHeap_trans].
Qed.

(** ** The loops *)

Context `{MessageCodec} `{Library}.
Variable baseFee : Z.

Definition inHeap (h : list msgChain) (l : list nat) : Prop := Forall (λ p, (p < length h)%nat) l.

Lemma likeHeap_isValid h h' p : likeHeap h h' → isValid h' p = isValid h p.
Proof.
  intros Hl. unfold isValid. destruct (h' !! p) as [c'|] eqn:E.
  - destruct (likeHeap_lookup_r _ _ _ _ Hl E) as (c&->&(_&->&_)). done.
  - apply lookup_ge_None in E. rewrite <- (Forall2_length _ _ _ Hl) in E. by rewrite (proj2 (lookup_ge_None h p)).
Qed.

(** The chain at a place, with its marks. *)
Lemma chain_at h p : (p < length h)%nat → ∃ c, h !! p = Some c ∧ isValid h p = valid c ∧ isMerged h p = merged c.
Proof. intros Hp. destruct (lookup_lt_is_Some_2 h p Hp) as [c Hc]. exists c. unfold isValid, isMerged. by rewrite Hc. Qed.

Lemma mergeHead_run n : ∀ h sm ks front l, (length l ≤ n)%nat → optInv h sm ks → (∀ p, (p < length h)%nat → isValid h p = true) →
  inHeap h (front ++ l) →
  ∃ h' sm' front' l' ks', mergeHead baseFee n h sm front l = Some (h', sm', front', l') ∧ optInv h' sm' ks' ∧
    inHeap h' (front' ++ l') ∧ (length l' ≤ length l)%nat.
Proof.
  induction n as [|n IH]; intros h sm ks front l Hn Hinv Hv Hin.
  { destruct l; [|simpl in Hn; lia]. by exists h, sm, front, [], ks. }
  destruct l as [|p l]; [by exists h, sm, front, [], ks|]. cbn [mergeHead].
  destruct (negPerf h p); [exists h, sm, (front ++ p :: l), [], ks; rewrite app_nil_r; split_and!; [done..|simpl; lia]|].
  assert (p < length h)%nat as Hp by (apply Forall_app in Hin as [_ [? _]%Forall_cons]; done).
  destruct (chain_at h p Hp) as (c&Hc&Evc&Emc). rewrite Hv in Evc by done. rewrite Emc.
  destruct (merged c) eqn:Em.
  { destruct (IH h sm ks (front ++ [p]) l) as (h'&sm'&f'&l'&ks'&E&?&?&?); [simpl in Hn; lia|done|done|by rewrite <- app_assoc|].
    exists h', sm', f', l', ks'. split_and!; [done..|simpl; lia]. }
  destruct (tryToAddWithDeps_run h sm ks p c baseFee Hinv Hc (eq_sym Evc) Em) as (h1&sm1&b&ks1&->&Hinv1&Hlen1&Hb).
  cbn [mbind option_bind]. destruct b.
  2: { exists h1, sm1, front, (p :: l), ks1. split_and!; [done..|unfold inHeap; by rewrite Hlen1|lia]. }
  destruct (adjustAfter_run h1 sm1 ks1 p Hinv1) as (h2&->&Hp2); [lia|]. cbn [mbind option_bind].
  pose proof (perfHeap_length _ _ Hp2) as Hlen2. set (k := S (length front)).
  set (l2 := drop k (sortTail (lessAt BeforeEffective h2) k (front ++ p :: l))).
  assert (l2 ≡ₚ l) as Hl2.
  { unfold l2. rewrite sortTail_perm. unfold k. replace (front ++ p :: l) with ((front ++ [p]) ++ l) by by rewrite <- app_assoc.
    rewrite drop_app_length'; [done|]. rewrite length_app. simpl. lia. }
  destruct (IH h2 sm1 ks1 (front ++ [p]) l2) as (h'&sm'&f'&l'&ks'&E&?&?&?).
  - rewrite Hl2. simpl in Hn. lia.
  - by eapply perfHeap_optInv.
  - intros q Hq. rewrite (likeHeap_isValid _ _ _ (proj1 Hp2)), (likeHeap_isValid _ _ _ Hb). apply Hv. lia.
  - unfold inHeap in *. rewrite Hl2, <- app_assoc, Hlen2, Hlen1. done.
  - exists h', sm', f', l', ks'. split_and!; [done..|]. rewrite Hl2 in *. simpl. lia.
Qed.

Lemma mergeTail_run l : ∀ h sm ks, optInv h sm ks → inHeap h l →
  ∃ h' sm' b ks', mergeTail baseFee h sm l = Some (h', sm', b) ∧ optInv h' sm' ks' ∧ length h' = length h ∧
    (if (b : bool) then (msgCount h' < msgCount h)%nat else True).
Proof.
  induction l as [|p l IH]; intros h sm ks Hinv Hin; cbn [mergeTail]; [by exists h, sm, false, ks|].
  apply Forall_cons in Hin as [Hp Hin]. destruct (chain_at h p Hp) as (c&Hc&Ev&Em). rewrite Ev, Em.
  destruct (valid c) eqn:Evc; simpl; [|by apply (IH h sm ks)]. destruct (merged c) eqn:Emc; [by apply (IH h sm ks)|].
  destruct (negPerf h p); [by exists h, sm, false, ks|].
  destruct (tryToAddWithDeps_run h sm ks p c baseFee Hinv Hc Evc Emc) as (h1&sm1&b&ks1&->&Hinv1&Hlen1&Hb).
  cbn [mbind option_bind]. destruct b; [|destruct Hb as (_&_&?); by exists h1, sm1, true, ks1].
  destruct (IH h1 sm1 ks1 Hinv1) as (h'&sm'&b&ks'&->&?&?&Hcount); [unfold inHeap; by rewrite Hlen1|].
  exists h', sm', b, ks'. split_and!; [done..|congruence|]. destruct b; [|done]. by rewrite <- (likeHeap_count _ _ Hb).
Qed.

Lemma trimChain_run h sm ks p : optInv h sm ks → (p < length h)%nat →
  ∃ h', trimChain sm h p baseFee = Some h' ∧ optInv h' sm ks ∧ length h' = length h ∧ (msgCount h' ≤ msgCount h)%nat.
Proof.
  intros Hinv Hp. pose proof Hinv as [Hsel _]. destruct (place own gs rest h (smsgs sm) ks p (sel_taken _ _ _ _ _ _ Hsel) Hp) as (g&i&c&Hg&Hi&->&Hc&Hcell).
  unfold trimChain. rewrite Hc. cbn [mbind option_bind]. case_decide; [|by exists h; split_and!].
  destruct (Trim_cut h g _ _ i c (sgasLimit sm) (msgRoom sm c) baseFee (lay_ok _ _ _ (sel_layout _ _ _ _ _ _ Hsel) g Hg)
              (sel_groups _ _ _ _ _ _ Hsel g Hg) Hi Hc) as (h'&d&->&Hcut&_).
  exists h'. split_and!; [done|by eapply optInv_cut|by apply (cut_length _ _ _ _ Hcut)|].
  apply msgCount_le; [by apply (cut_length _ _ _ _ Hcut)|]. by intros; eapply cutAt_shrinks.
Qed.

(** The tail loop ends: a turn passes a chain or shortens one. *)
Lemma packTail_run fuel : ∀ h sm ks front l, (length l + msgCount h < fuel)%nat → optInv h sm ks → inHeap h (front ++ l) →
  ∃ h' sm' l' ks', packTail baseFee fuel h sm front l = Some (h', sm', l') ∧ optInv h' sm' ks' ∧ inHeap h' l'.
Proof.
  induction fuel as [|fuel IH]; intros h sm ks front l Hf Hinv Hin; [lia|]. cbn [packTail].
  destruct l as [|p l]; [exists h, sm, front, ks; by rewrite app_nil_r in Hin|].
  case_decide; [by exists h, sm, (front ++ p :: l), ks|].
  assert (p < length h)%nat as Hp by (apply Forall_app in Hin as [_ [? _]%Forall_cons]; done).
  destruct (isValid h p) eqn:Ev; simpl; [|apply (IH h sm ks); [simpl in Hf; lia|done|by rewrite <- app_assoc]].
  destruct (trimChain_run h sm ks p Hinv Hp) as (h1&->&Hinv1&Hlen1&Hcount1). cbn [mbind option_bind].
  set (l1 := if isValid h1 p then _ else _).
  assert (l1 ≡ₚ p :: l) as Hl1 by (unfold l1; destruct (isValid h1 p); [apply pushDown_perm|done]).
  assert (inHeap h1 (front ++ l1)) as Hin1 by (unfold inHeap; by rewrite Hl1, Hlen1).
  destruct (mergeTail_run l1 h1 sm ks Hinv1) as (h2&sm2&b&ks2&->&Hinv2&Hlen2&Hb); [by apply Forall_app in Hin1 as []|].
  cbn [mbind option_bind]. destruct b.
  - apply (IH h2 sm2 ks2); [rewrite Hl1; simpl in *; lia|done|]. unfold inHeap in *. by rewrite Hlen2.
  - exists h2, sm2, (front ++ l1), ks2. split_and!; [done..|]. unfold inHeap in *. by rewrite Hlen2.
Qed.

(** The marks say what has been taken. *)
Lemma marks_agree h h' sm ks p c c' : optInv h sm ks → optInv h' sm ks → h !! p = Some c → h' !! p = Some c' →
  merged c' = merged c.
Proof.
  intros [Hsel Hm] [Hsel' Hm'] Hc Hc'.
  destruct (place own gs rest h (smsgs sm) ks p (sel_taken _ _ _ _ _ _ Hsel)) as (g&i&d&Hg&Hi&->&_); [by apply lookup_lt_Some in Hc|].
  by rewrite (Hm g i c), (Hm' g i c').
Qed.

Lemma fillRandom_run l : ∀ h sm ks, optInv h sm ks → inHeap h l →
  ∃ h' sm' ks', fillRandom baseFee h sm l = Some sm' ∧ optInv h' sm' ks'.
Proof.
  induction l as [|p l IH]; intros h sm ks Hinv Hin; cbn [fillRandom]; [by exists h, sm, ks|].
  case_decide; [by exists h, sm, ks|]. apply Forall_cons in Hin as [Hp Hin].
  destruct (chain_at h p Hp) as (c&Hc&Ev&Em). rewrite Ev, Em. destruct (merged c) eqn:Emc; [by apply (IH h sm ks)|].
  destruct (valid c) eqn:Evc; [|by apply (IH h sm ks)]. simpl. destruct (negPerf h p); [by apply (IH h sm ks)|].
  destruct (tryToAddWithDeps_run h sm ks p c baseFee Hinv Hc Evc Emc) as (h1&sm1&b&ks1&->&Hinv1&Hlen1&Hb).
  cbn [mbind option_bind]. assert (inHeap h1 l) as Hin1 by (unfold inHeap; by rewrite Hlen1).
  destruct (negb b && isValid h1 p) eqn:E; [|by apply (IH h1 sm1 ks1)]. apply andb_prop in E as [Eb Ev1].
  apply negb_true_iff in Eb as ->. destruct (chain_at h1 p) as (c1&Hc1&Ev2&_); [lia|]. rewrite Ev2 in Ev1.
  destruct Hb as (->&->&_).
  assert (merged c1 = false) as Em1 by (rewrite <- Emc; by apply (marks_agree h h1 sm ks p)).
  destruct (tryToAddWithDeps_run h1 sm ks p c1 baseFee Hinv1 Hc1 Ev1 Em1) as (h2&sm2&b&ks2&->&Hinv2&Hlen2&_).
  cbn [mbind option_bind]. apply (IH h2 sm2 ks2); [done|]. unfold inHeap. by rewrite Hlen2, Hlen1.
Qed.

(** ** The whole selection *)

Lemma swapAt_perm l i j : swapAt l i j ≡ₚ l.
Proof.
  unfold swapAt. destruct (l !! i) as [x|] eqn:Ex, (l !! j) as [y|] eqn:Ey; try done.
  by apply Permutation_insert_swap.
Qed.

Lemma shuffleChains_perm rnd l : shuffleChains rnd l ≡ₚ l.
Proof.
  unfold shuffleChains. generalize (seq 0 (length l)). intros idx. revert l. induction idx as [|i idx IH]; intros l; simpl; [done|].
  rewrite IH. apply swapAt_perm.
Qed.

Lemma optimal_run rnd probs h sm ks chains : optInv h sm ks → (∀ p, (p < length h)%nat → isValid h p = true) → inHeap h chains →
  ∃ sm' h' ks', optimal baseFee rnd probs h sm chains = Some sm' ∧ selInv own gs rest h' sm' ks'.
Proof.
  intros Hinv Hv Hin. unfold optimal. set (sorted := sortSlice (lessAt Before h) chains).
  assert (sorted ≡ₚ chains) as Hs by apply sortSlice_perm.
  destruct (match sorted with [] => false | p :: _ => negPerf h p end); [destruct Hinv; by eauto|].
  set (h1 := setEffective h probs sorted). pose proof (setEffective_perf h probs sorted) as Hp1. fold h1 in Hp1.
  set (l1 := sortSlice (lessAt BeforeEffective h1) sorted). assert (l1 ≡ₚ chains) as Hl1 by (unfold l1; by rewrite sortSlice_perm).
  pose proof (perfHeap_length _ _ Hp1) as Hlen1.
  destruct (mergeHead_run (length l1) h1 sm ks [] l1) as (h2&sm2&front&l2&ks2&->&Hinv2&Hin2&Hlen2).
  { done. } { by eapply perfHeap_optInv. }
  { intros p Hp. rewrite (likeHeap_isValid _ _ _ (proj1 Hp1)). apply Hv. lia. }
  { unfold inHeap. simpl. by rewrite Hl1, Hlen1. }
  cbn [mbind option_bind].
  destruct (packTail_run (S (length l1 + length (concat (map cmsgs h2)))) h2 sm2 ks2 front l2) as (h3&sm3&l3&ks3&->&Hinv3&Hin3);
    [unfold msgCount; lia|done..|]. cbn [mbind option_bind].
  case_decide; [|destruct Hinv3; by eauto].
  destruct (fillRandom_run (shuffleChains rnd l3) h3 sm3 ks3) as (h4&sm4&ks4&->&[??]);
    [done|unfold inHeap; by rewrite shuffleChains_perm|by eauto].
Qed.
End optimal.

(** ** [SelectMessages] *)

Section block.
Context `{MessageCodec} `{Library} `{MathLib}.
Variable UpgradeCalicoHeight : Z.
Variable GetActorAfter : Address → TipSet → outcome Actor.
Variables (MaxLength baseFee : Z) (ts : TipSet).
Variable resolveToKey : Address → outcome Address.
Variable PriorityAddrs : list Address.
Variable own : SignedMessage → Address.

(** The node answers; an address and its key are the same actor. *)
Hypothesis actor_answers : ∀ a, GetActorAfter a ts ≠ Crash.
Hypothesis resolve_answers : ∀ a, resolveToKey a ≠ Crash.
Hypothesis resolve_actor : ∀ a k, resolveToKey a = Ret k → GetActorAfter a ts = GetActorAfter k ts.

Lemma started_opt h l gs sm : started UpgradeCalicoHeight GetActorAfter baseFee ts own id h l gs sm →
  optInv own gs (smsgs sm) h sm (λ _, 0%nat).
Proof.
  intros Hst. split; [by eapply started_sel|]. intros g i c _ _ Hc. rewrite bool_decide_false by lia.
  destruct (started_chain _ _ _ _ _ _ _ _ _ _ (gbase g + i) Hst) as (d&Hd&_&_&?); [by apply lookup_lt_Some in Hc|]. congruence.
Qed.

Lemma selectMessagesOptimal_run rnd tq pending : pendingOk own pending →
  selectionOk UpgradeCalicoHeight GetActorAfter ts own pending
    (selectMessagesOptimal baseFee UpgradeCalicoHeight GetActorAfter MaxLength ts resolveToKey PriorityAddrs rnd tq pending).
Proof using All.
  intros Hp. unfold selectMessagesOptimal, selectionOk. case_decide as He; [by eauto|].
  destruct (selectPriority_run UpgradeCalicoHeight GetActorAfter MaxLength baseFee ts resolveToKey PriorityAddrs own
              actor_answers resolve_answers resolve_actor pending Hp) as (pending'&sm&->&Hsub&Hbl&Hnone).
  cbn [mbind option_bind]. case_decide; [by eauto|].
  destruct (rest_started UpgradeCalicoHeight GetActorAfter baseFee ts own actor_answers pending pending' sm Hp Hsub Hbl Hnone)
    as (h&gs&->&Hst). cbn [mbind option_bind].
  destruct (optimal_run own gs (smsgs sm) baseFee rnd (blockProbabilities tq) h sm (λ _, 0%nat) (seq 0 (length h)))
    as (sm'&h'&ks&->&Hsel).
  - by eapply started_opt.
  - intros p Hpl. destruct (started_chain _ _ _ _ _ _ _ _ _ _ p Hst Hpl) as (c&E&_&Hv&_). unfold isValid. by rewrite E.
  - apply Forall_forall. intros p Hin%elem_of_seq. lia.
  - cbn [mbind option_bind]. eexists. split; [done|]. by eapply rest_block.
Qed.

(** C11. [SelectMessages] returns, by both ways of selection, for every order that maps and sorting
    give and for all random numbers.  The selected messages keep the limits of a block for gas and
    number.  Of each sender they are a beginning of the longest run of messages from the sender's nonce
    that the chain would accept, in the order of the nonces, so that the block can be executed. *)
Theorem SelectMessages_valid rnd tq pending : pendingOk own pending →
  ∃ l, SelectMessages baseFee UpgradeCalicoHeight GetActorAfter MaxLength ts resolveToKey PriorityAddrs rnd tq pending = Some l ∧
    Z.of_nat (length l) ≤ BlockMessageLimit ∧ sumGas l ≤ BlockGasLimit ∧ (∀ m, m ∈ l → is_Some (pending !! own m)) ∧
    ∀ a mset act, pending !! a = Some mset → GetActorAfter a ts = Ret act →
      filter (λ m, own m = a) l `prefix_of` due UpgradeCalicoHeight act mset (height ts) ∧
      runOk UpgradeCalicoHeight (height ts) (actNonce act) (actBalance act) 0 (filter (λ m, own m = a) l).
Proof using All.
  intros Hp. unfold SelectMessages. set (sel := if SFltb _ tq then _ else _).
  assert (selectionOk UpgradeCalicoHeight GetActorAfter ts own pending sel) as Hsel.
  { unfold sel. destruct (SFltb _ tq); [by apply selectMessagesGreedy_run|by apply selectMessagesOptimal_run]. }
  destruct (selection_executes _ _ _ _ _ _ Hp Hsel) as (o&->&Ho). cbn [mbind option_bind]. eexists. split; [done|].
  destruct o as [sm|].
  - destruct Ho as [((?&Hgas&Hn)&Hpre&Hfrom) Hrun]. rewrite decide_False by lia. split_and!; [done|lia|done|].
    intros a mset act Ha Hact. split; [|by eapply Hrun]. specialize (Hpre a mset Ha). unfold dueOf in Hpre. simpl in Hpre.
    by rewrite Hact in Hpre.
  - simpl. split_and!; [unfold BlockMessageLimit; lia|unfold BlockGasLimit; lia|by intros m ?%elem_of_nil|].
    intros a mset act Ha. subst. by rewrite lookup_empty in Ha.
Qed.
End block.
