(* ===== verification/MsgSelectExamples.v ===== *)
(** * Selection with the sort routines of Go

    Short slices are sorted by insertion.  With it the selection runs on examples, and the sort of
    the chains that are left, whose comparison takes its indices for indices of the whole slice, is
    seen not to sort. *)

From Stdlib Require Import SpecFloat Sorted.
From coqutil Require Import Datatypes.RecordSetters.
From stdpp Require Import strings numbers base functions gmap fin_maps sets list.
From S2P Require Import Prelude GoStrings GoSort GoFloat FileTypes TipSets GasFees ProofLog SealTasks SealResources.
From S2P Require Import MsgSet MsgChains MsgChainsSpec MsgSelect MsgSelectGroups MsgSelectGreedy MsgSelectSpec.
From S2P Require Import MsgSelectOptimal MsgSelectOptimalSpec.
Import DoubleBraceUpdate.
Local Open Scope Z_scope.

(** ** Insertion sort on a part of a slice *)

(** [for ; j > 0 && less(j, j-1); j-- { swap(j, j-1) }], where [swap] counts from [k] and [less]
    from the start of the slice. *)
Fixpoint bubble (less : nat → nat → bool) (k j : nat) (l : list nat) : list nat :=
  match j with
  | O => l
  | S j' =>
      match l !! j, l !! j' with
      | Some x, Some y => if less x y then bubble less k j' (swapAt l (k + j) (k + j')) else l
      | _, _ => l
      end
  end.

Definition insertionTail (less : nat → nat → bool) (k : nat) (l : list nat) : list nat :=
  foldl (λ l i, bubble less k i l) l (seq 1 (length l - k - 1)).

Lemma swapAt_front l k i j : (k ≤ i)%nat → (k ≤ j)%nat → take k (swapAt l i j) = take k l.
Proof.
  intros Hi Hj. unfold swapAt. destruct (l !! i), (l !! j); try done. by rewrite !take_insert_ge.
Qed.

Lemma bubble_front less k j l : take k (bubble less k j l) = take k l ∧ bubble less k j l ≡ₚ l.
Proof.
  revert l. induction j as [|j IH]; intros l; cbn [bubble]; [done|].
  destruct (l !! S j), (l !! j); try done. destruct (less _ _); [|done].
  destruct (IH (swapAt l (k + S j) (k + j))) as [-> ->]. split; [apply swapAt_front; lia|apply swapAt_perm].
Qed.

Lemma insertionTail_front less k l : take k (insertionTail less k l) = take k l ∧ insertionTail less k l ≡ₚ l.
Proof.
  unfold insertionTail. generalize (seq 1 (length l - k - 1)). intros idx. revert l.
  induction idx as [|i idx IH]; intros l; simpl; [done|]. destruct (IH (bubble less k i l)) as [-> ->]. apply bubble_front.
Qed.

Lemma insertionTail_perm less k l : drop k (insertionTail less k l) ≡ₚ drop k l.
Proof.
  destruct (insertionTail_front less k l) as [Et Ep]. apply (Permutation_app_inv_l (take k l)).
  rewrite <- Et at 1. by rewrite !take_drop.
Qed.

Lemma sortBy_library (less : nat → nat → bool) l :
  (∀ x y, x ∈ l → y ∈ l → less x y = true → less y x = false) →
  (∀ x y z, x ∈ l → y ∈ l → z ∈ l → less y x = false → less z y = false → less z x = false) →
  StronglySorted (notAfter less) (sortBy less l).
Proof. intros Ha Ht. apply (sortBy_sorted less (λ x, x ∈ l)); [done..|]. by apply Forall_forall. Qed.

Definition goLibrary : Library := {|
  sortSlice := sortBy;
  sortSlice_perm := sortBy_Permutation;
  sortSlice_sorted := sortBy_library;
  sortTail := insertionTail;
  sortTail_front less k l := proj1 (insertionTail_front less k l);
  sortTail_perm := insertionTail_perm;
  rangeMap m := map_to_list m;
  rangeMap_perm m := Permutation_refl _
|}.

(** ** The chains that are left are not sorted *)

Definition testChain (eff : Z) (isMerged : bool) : msgChain :=
  mkChain [testMsg "a" 0 2000000 100] 1 2000000 (ofInt 1) (ofInt eff) (ofInt 1) fzero true isMerged None None SigTypeSecp256k1.

(** After the first chain is merged, the chain at place 2 has the better effective performance, but
    it stays behind the one at place 1. *)
Lemma resort_compares_wrong_chains :
  let h := [testChain 9 true; testChain 3 false; testChain 5 false] in
  lessAt BeforeEffective h 2 1 = true ∧ sortTail (Library := goLibrary) (lessAt BeforeEffective h) 1 [0; 1; 2]%nat = [0; 1; 2]%nat.
Proof. vm_compute. done. Qed.

(** ** An example *)

(** A stand-in for package math: the results only change the order of the chains. *)
Definition testMath : MathLib := {| mathLog x := x; mathExp x := x; mathLgamma x := x; mathPow x _ := x |}.

Definition testTipSet : TipSet := mkTipSet [] [] 10.
Definition testActor (a : Address) (_ : TipSet) : outcome Actor :=
  if decide (a = "a") then Ret (mkActor 5 (10 ^ 15)) else if decide (a = "b") then Ret (mkActor 0 (10 ^ 15)) else Fail "actor not found".
Definition testPending : gmap Address (gmap Z SignedMessage) :=
  {["a" := {[5 := testMsg "a" 5 2000000 10; 6 := testMsg "a" 6 3000000 100]};
    "b" := {[0 := testMsg "b" 0 2000000 50]}]}.

(** What is asked of every pending message, as a computation. *)
Definition messageChecked (a : Address) (n : Z) (m : SignedMessage) : bool :=
  bool_decide (smFrom m = a ∧ smNonce m = n ∧ 0 ≤ n < 2 ^ 64 - 5 ∧ 0 ≤ smGasLimit m ≤ BlockGasLimit ∧
               ChainLength (H := testCodec) m ≤ 65536 ∧ sigType (smSignature m) = SigTypeSecp256k1).

Lemma messageChecked_ok pending :
  forallb (λ e : Address * gmap Z SignedMessage, forallb (λ f, messageChecked e.1 f.1 f.2) (map_to_list e.2)) (map_to_list pending) = true →
  pendingOk (H := testCodec) smFrom pending.
Proof.
  rewrite forallb_forall. intros Hall a mset Ha.
  assert (∀ n m, mset !! n = Some m → messageChecked a n m = true) as Hm.
  { intros n m Hn. specialize (Hall (a, mset)). rewrite forallb_forall in Hall.
    apply (Hall (proj1 (list_elem_of_In _ _) (proj2 (elem_of_map_to_list _ _ _) Ha)) (n, m)).
    apply list_elem_of_In. simpl. by apply elem_of_map_to_list. }
  split; intros n m Hn; specialize (Hm n m Hn); apply bool_decide_eq_true in Hm as (?&?&?&?&?&?).
  - split; [done|]. unfold msgOk, nonceOk. subst. split; [assumption|by split].
  - auto.
Qed.

Lemma testPending_ok : pendingOk (H := testCodec) smFrom testPending.
Proof. apply messageChecked_ok. vm_compute. reflexivity. Qed.

(** The selection of the example, with a preferred sender and an expected reward. *)
Definition testSelect (tq : spec_float) : option (list SignedMessage) :=
  SelectMessages (H := testCodec) (H0 := goLibrary) (H1 := testMath) 100 0 testActor 8192 testTipSet Ret ["b"] (λ _, 0%nat) tq testPending.

Lemma SelectMessages_valid_witness : ∃ l, testSelect (ofInt 0) = Some l ∧ sumGas l ≤ BlockGasLimit ∧
  runOk (H := testCodec) 0 10 5 (10 ^ 15) 0 (filter (λ m, smFrom m = "a") l).
Proof.
  destruct (SelectMessages_valid (H := testCodec) (H0 := goLibrary) (H1 := testMath) 0 testActor 8192 100 testTipSet Ret ["b"] smFrom)
    with (rnd := λ _ : nat, 0%nat) (tq := ofInt 0) (pending := testPending) as (l&E&_&Hgas&_&Hrun).
  - intros a. unfold testActor. by repeat case_decide.
  - done.
  - by intros a k [= ->].
  - apply testPending_ok.
  - exists l. split; [exact E|]. split; [exact Hgas|].
    exact (proj2 (Hrun "a" {[5 := testMsg "a" 5 2000000 10; 6 := testMsg "a" 6 3000000 100]} (mkActor 5 (10 ^ 15)) eq_refl eq_refl)).
Defined.

(** Both ways take all three messages, the preferred sender's first. *)
Example testSelect_runs : map (λ o, map (λ m, (smFrom m, smNonce m)) (default [] o)) [testSelect (ofInt 0); testSelect (ofInt 1)] = [[("b", 0); ("a", 5); ("a", 6)]; [("b", 0); ("a", 5); ("a", 6)]].
Proof. vm_compute. reflexivity. Qed.
