(* ===== verification/ChainStore.v ===== *)
(** * Head of the chain and walks along it (chain/store/store.go, chain/store/index.go)

    Tipsets are linked by the keys of their parents and loaded by key.  The store walks back from
    two tipsets to their common ancestor, keeps the heaviest tipset as the head and a checkpoint
    that the head must not leave, and finds tipsets by height with an index that skips over epochs.
    Loading, the weight of a tipset and the datastore are parameters; [None] stands for a
    loop that does not end. *)

From coqutil Require Import Datatypes.RecordSetters.
From stdpp Require Import strings numbers base gmap fin_maps sets list.
From S2P Require Import Prelude GoStrings GoSort GoLru FileTypes TipSets.
Import DoubleBraceUpdate.
Local Open Scope Z_scope.

(** A call whose loops may not end. *)
Definition walk (A : Type) : Type := option (outcome A).
#[global] Instance walk_ret : MRet walk := λ A a, Some (Ret a).
#[global] Instance walk_bind : MBind walk := λ A B f m,
  match m with
  | Some (Ret a) => f a
  | Some (Fail e) => Some (Fail e)
  | Some Crash => Some Crash
  | None => None
  end.

Section store.
(** [LoadTipSet] *)
Variable lts : string → outcome TipSet.

Definition parentOf (ts : TipSet) : outcome TipSet := k ← Parents ts; lts k.

Definition same (a b : TipSet) : bool := Equals (Some a) (Some b).

(** ** Forks *)

Fixpoint reorgLoop (fuel : nat) (left right : TipSet) (leftChain rightChain : list TipSet) :
    walk (list TipSet * list TipSet) :=
  match fuel with
  | O => None
  | S fuel' =>
      if same left right then Some (Ret (leftChain, rightChain))
      else if decide (height right < height left) then
        par ← Some (parentOf left); reorgLoop fuel' par right (leftChain ++ [left]) rightChain
      else
        par ← Some (parentOf right); reorgLoop fuel' left par leftChain (rightChain ++ [right])
  end.

Definition ReorgOps (a b : TipSet) : walk (list TipSet * list TipSet) :=
  reorgLoop (S (Z.to_nat (height a) + Z.to_nat (height b))) a b [] [].

Fixpoint ancestorLoop (fuel : nat) (a cur : TipSet) : walk bool :=
  match fuel with
  | O => None
  | S fuel' =>
      if negb (same a cur) && bool_decide (height a < height cur)
      then next ← Some (parentOf cur); ancestorLoop fuel' a next
      else Some (Ret (same cur a))
  end.

Definition IsAncestorOf (a b : TipSet) : walk bool :=
  if decide (height b ≤ height a) then Some (Ret false) else ancestorLoop (S (Z.to_nat (height b))) a b.

Definition NearestCommonAncestor (a b : TipSet) : walk TipSet :=
  '(l, _) ← ReorgOps a b;
  last ← Some (index l (Z.of_nat (length l) - 1));
  Some (parentOf last).

(** [HCRevert] and [HCApply] of the changes of the head. *)
Inductive HeadChange := HCRevert (ts : TipSet) | HCApply (ts : TipSet).

Definition GetPath (from to : string) : walk (list HeadChange) :=
  fts ← Some (lts from);
  tts ← Some (lts to);
  '(revert, apply) ← ReorgOps fts tts;
  Some (Ret (map HCRevert revert ++ map HCApply (rev apply))).

(** ** The index by height *)

Fixpoint walkLoop (fuel : nat) (ts : TipSet) (to : Z) : walk TipSet :=
  match fuel with
  | O => None
  | S fuel' =>
      pts ← Some (parentOf ts);
      if decide (height pts < to) then Some (Ret ts)
      else if decide (to = height pts) then Some (Ret pts)
      else walkLoop fuel' pts to
  end.

Definition walkBack (from : TipSet) (to : Z) : walk TipSet :=
  if decide (height from < to) then Some (Fail "looking for tipset with height greater than start point")
  else if decide (to = height from) then Some (Ret from)
  else walkLoop (S (Z.to_nat (height from))) from to.

Definition skipLength : Z := 20.
Definition roundHeight (h : Z) : Z := Z.quot h skipLength * skipLength.
Definition roundDown (ts : TipSet) : walk TipSet := walkBack ts (roundHeight (height ts)).

Record lbEntry := mkLbEntry { lbTs : TipSet; parentHeight : Z; targetHeight : Z; target : string }.

Context `{LruCache}.
Abbreviation skipCache := (lru string lbEntry) (only parsing).

(** The target of the entry. *)
Definition skipTarget (parent : TipSet) (rheight : Z) : walk TipSet :=
  if decide (height parent < rheight) then Some (Ret parent) else walkBack parent rheight.

Definition fillCache (cache : skipCache) (tsk : string) : walk (lbEntry * skipCache) :=
  ts ← Some (lts tsk);
  if decide (height ts = 0) then Some (Ret (mkLbEntry ts 0 0 EmptyTSK, cache))
  else
    parent ← Some (parentOf ts);
    let rheight := Z.max 0 (roundHeight (height ts) - skipLength) in
    t ← skipTarget parent rheight;
    let lbe := mkLbEntry ts (height parent) (height t) (Key (Some t)) in
    Some (Ret (lbe, lruAdd cache tsk lbe)).

(** The entry of a key, made when the cache has none. *)
Definition entryAt (cache : skipCache) (cur : string) : walk (lbEntry * skipCache) :=
  match lruGet cache cur with
  | (Some lbe, cache1) => Some (Ret (lbe, cache1))
  | (None, cache1) => fillCache cache1 cur
  end.

Fixpoint indexLoop (fuel : nat) (cache : skipCache) (cur : string) (to : Z) : walk (TipSet * skipCache) :=
  match fuel with
  | O => None
  | S fuel' =>
      '(lbe, cache2) ← entryAt cache cur;
      if decide (height (lbTs lbe) = to ∨ parentHeight lbe < to) then Some (Ret (lbTs lbe, cache2))
      else if decide (targetHeight lbe < to) then ts ← walkBack (lbTs lbe) to; Some (Ret (ts, cache2))
      else indexLoop fuel' cache2 (target lbe) to
  end.

(** [ChainIndex.GetTipsetByHeight] *)
Definition indexByHeight (cache : skipCache) (from : TipSet) (to : Z) : walk (TipSet * skipCache) :=
  if decide (height from - to ≤ skipLength) then ts ← walkBack from to; Some (Ret (ts, cache))
  else
    rounded ← roundDown from;
    indexLoop (S (Z.to_nat (height from))) cache (Key (Some rounded)) to.

(** [ChainStore.GetTipsetByHeight] for a tipset that is not nil. *)
Definition GetTipsetByHeight (cache : skipCache) (h : Z) (ts : TipSet) (prev : bool) : walk (TipSet * skipCache) :=
  if decide (height ts < h) then Some (Fail "looking for tipset with height greater than start point")
  else if decide (h = height ts) then Some (Ret (ts, cache))
  else
    '(lbts0, cache') ← indexByHeight cache ts h;
    lbts ← (if decide (height lbts0 < h) then walkBack ts h else Some (Ret lbts0));
    if decide (height lbts = h) then Some (Ret (lbts, cache'))
    else if prev then p ← Some (parentOf lbts); Some (Ret (p, cache'))
    else Some (Ret (lbts, cache')).

(** ** The head *)

(** The head, the checkpoint, the reorganisations that wait for the worker, and what the datastore
    has of the first two. *)
Record ChainHead := mkChainHead {
  heaviest : option TipSet;
  checkpoint : option TipSet;
  reorgCh : list (TipSet * TipSet);
  storedHead : option (list Cid);
  storedCheckpoint : option string
}.

Variable ForkLengthThreshold : Z.

(** The walk back of the external chain to the height of the other one; [inl true] when it
    reaches the genesis. *)
Fixpoint matchHeight (fuel : nat) (external : TipSet) (h : Z) : walk (bool + TipSet) :=
  match fuel with
  | O => None
  | S fuel' =>
      if decide (h < height external) then
        if decide (height external = 0) then Some (Ret (inl true))
        else next ← Some (parentOf external); matchHeight fuel' next h
      else Some (Ret (inr external))
  end.

(** [n] more turns; the result tells whether the fork is too long. *)
Fixpoint forkLoop (n : nat) (chk : option TipSet) (synced external : TipSet) : walk bool :=
  match n with
  | O => Some (Ret true)
  | S n' =>
      r ← matchHeight (S (Z.to_nat (height external))) external (height synced);
      match r with
      | inl b => Some (Ret b)
      | inr external' =>
          if same synced external' then Some (Ret false)
          else if Equals (Some synced) chk then Some (Ret true)
          else if decide (height synced = 0) then Some (Ret true)
          else synced' ← Some (parentOf synced); forkLoop n' chk synced' external'
      end
  end.

Definition exceedsForkLength (chk : option TipSet) (synced external : option TipSet) : walk bool :=
  match synced, external with
  | Some s, Some e => forkLoop (Z.to_nat ForkLengthThreshold) chk s e
  | _, _ => Some (Ret false)
  end.

(** The hash of tickets, the weight of a tipset, and the errors of the datastore. *)
Variable Sum256 : string → string.
Variable weight : option TipSet → outcome Z.
Variables (putHeadError putCheckpointError deleteCheckpointError : option string).

Fixpoint lessTicket (l1 l2 : list BlockHeader) : bool :=
  match l1, l2 with
  | b1 :: l1', b2 :: l2' => if TicketLess Sum256 (Ticket b1) (Ticket b2) then true else lessTicket l1' l2'
  | _, _ => false
  end.

Definition breakWeightTie (ts1 ts2 : TipSet) : bool := lessTicket (blks ts1) (blks ts2).

Definition writeHead (cs : ChainHead) (ts : TipSet) : ChainHead :=
  match putHeadError with
  | Some _ => cs
  | None => cs {{ storedHead := Some (cids ts) }}
  end.

(** An error of [writeHead] is only logged. *)
Definition takeHeaviestTipSet (cs : ChainHead) (ts : TipSet) : ChainHead :=
  let cs1 := match heaviest cs with
             | Some old => cs {{ reorgCh := reorgCh cs ++ [(old, ts)] }}
             | None => cs
             end in
  writeHead (cs1 {{ heaviest := Some ts }}) ts.

(** With the same weight as the head; a nil head has no blocks to compare. *)
Definition heavierThan (ts : TipSet) (head : option TipSet) (w heaviestW : Z) : outcome bool :=
  if decide (w = heaviestW ∧ Equals (Some ts) head = false) then
    match head with Some h => Ret (breakWeightTie ts h) | None => Crash end
  else Ret (bool_decide (heaviestW < w)).

(** [MaybeTakeHeavierTipSet], once the channel has room. *)
Definition MaybeTakeHeavierTipSet (cs : ChainHead) (ts : TipSet) : walk ChainHead :=
  w ← Some (weight (Some ts));
  heaviestW ← Some (weight (heaviest cs));
  heavier ← Some (heavierThan ts (heaviest cs) w heaviestW);
  if (heavier : bool) then
    exceeds ← exceedsForkLength (checkpoint cs) (heaviest cs) (Some ts);
    if (exceeds : bool) then Some (Ret cs) else Some (Ret (takeHeaviestTipSet cs ts))
  else Some (Ret cs).

Definition removeCheckpoint (cs : ChainHead) : outcome ChainHead :=
  match deleteCheckpointError with
  | Some e => Fail e
  | None => Ret (cs {{ checkpoint := None; storedCheckpoint := None }})
  end.

Definition SetHead (cs : ChainHead) (ts : TipSet) : outcome ChainHead :=
  cs1 ← removeCheckpoint cs;
  Ret (takeHeaviestTipSet cs1 ts).

(** The error of [writeHead] is returned after the head has changed, so that the state is a
    part of the result. *)
Definition ForceHeadSilent (cs : ChainHead) (ts : TipSet) : ChainHead * option string :=
  match removeCheckpoint cs with
  | Ret cs1 =>
      (writeHead (cs1 {{ heaviest := Some ts }}) ts,
       match putHeadError with Some e => Some ("failed to write chain head: " +:+ e) | None => None end)
  | Fail e => (cs, Some e)
  | Crash => (cs, None)
  end.

(** [jsonKey] is the key as JSON. *)
Definition SetCheckpoint (jsonKey : string) (cs : ChainHead) (ts : TipSet) : walk ChainHead :=
  match heaviest cs with
  | None => Some Crash
  | Some head =>
      if decide (height head < height ts) then Some (Fail "cannot set a checkpoint in the future")
      else if decide (ForkLengthThreshold < height head - height ts)
      then Some (Fail "cannot set a checkpoint before the fork threshold")
      else
        anc ← (if same ts head then Some (Ret true) else IsAncestorOf ts head);
        if negb anc then Some (Fail "cannot mark tipset as checkpoint, since it isn't in the main-chain")
        else match putCheckpointError with
             | Some e => Some (Fail e)
             | None => Some (Ret (cs {{ checkpoint := Some ts; storedCheckpoint := Some jsonKey }}))
             end
  end.
End store.
