(* ===== verification/ChainStoreSpec.v ===== *)
(** * Walks along the chain end where they should

    With tipsets that are stored under their own keys and lie above their parents, a
    reorganisation goes through the highest common ancestor, the index by height agrees with a walk
    through all tipsets whatever its cache has kept, and the head never leaves a checkpoint. *)

From coqutil Require Import Datatypes.RecordSetters.
From stdpp Require Import strings numbers base gmap fin_maps sets list relations.
From S2P Require Import Prelude GoStrings GoSort GoLru FileTypes TipSets ChainStore.
Import DoubleBraceUpdate.
Local Open Scope Z_scope.

(** What the chain promises: a tipset is loaded under its own key, has blocks, and lies above its
    parents, as the validation of blocks makes sure. *)
Class ChainLaws (lts : string → outcome TipSet) : Prop := {
  lts_key k ts : lts k = Ret ts → Key (Some ts) = k;
  lts_blocks k ts : lts k = Ret ts → blks ts ≠ [] ∧ 0 ≤ height ts;
  lts_answers k : lts k ≠ Crash;
  lts_lower k ts p : lts k = Ret ts → parentOf lts ts = Ret p → height p < height ts
}.

Section chain.
Context (lts : string → outcome TipSet) `{!ChainLaws lts}.

Definition stored (ts : TipSet) : Prop := lts (Key (Some ts)) = Ret ts.
Definition child (ts p : TipSet) : Prop := parentOf lts ts = Ret p.
(** [d] is [ts] or one of its ancestors. *)
Abbreviation anc := (rtc child) (only parsing).

Lemma child_stored ts p : child ts p → stored p.
Proof using Type*.
  unfold child, parentOf. intros (k&_&E)%bind_ret_inv. unfold stored. by rewrite (lts_key k p E).
Qed.

Lemma anc_stored ts d : stored ts → anc ts d → stored d.
Proof using Type*. intros Hs. induction 1 as [|x y z Hxy _ IH]; [done|]. by apply IH, (child_stored x). Qed.

Lemma child_lower ts p : stored ts → child ts p → height p < height ts.
Proof using Type*. intros Hs. by apply lts_lower with (k := Key (Some ts)). Qed.

Lemma stored_height ts : stored ts → 0 ≤ height ts.
Proof using Type*. by intros [_ ?]%lts_blocks. Qed.

Lemma parentOf_answers ts : stored ts → parentOf lts ts ≠ Crash.
Proof using Type*.
  intros [Hb _]%lts_blocks. unfold parentOf, Parents. destruct (blks ts) as [|b l]; [done|].
  change (lts (NewTipSetKey (bParents b)) ≠ Crash). apply lts_answers.
Qed.

Lemma anc_cases ts d : anc ts d → ts = d ∨ ∃ p, child ts p ∧ anc p d.
Proof. inversion 1; subst; eauto. Qed.

Lemma anc_height ts d : stored ts → anc ts d → height d < height ts ∨ ts = d.
Proof using Type*.
  intros Hs Ha. induction Ha as [|x y z Hxy Ha IH]; [by right|]. left.
  pose proof (child_lower x y Hs Hxy). destruct (IH (child_stored x y Hxy)); [lia|by subst].
Qed.

Lemma child_fun ts p q : child ts p → child ts q → p = q.
Proof. unfold child. congruence. Qed.

(** Of two ancestors the lower one is an ancestor of the other. *)
Lemma anc_linear ts d e : stored ts → anc ts d → anc ts e → height e ≤ height d → anc d e.
Proof using Type*.
  intros Hs Hd. induction Hd as [|x y z Hxy Hd IH]; [done|]. intros He Hh.
  destruct (anc_cases x e He) as [<-|(p&Hp&Hpe)].
  - pose proof (child_lower x y Hs Hxy). destruct (anc_height y z (child_stored x y Hxy) Hd); [lia|subst; lia].
  - rewrite (child_fun x p y Hp Hxy) in Hpe. by apply IH; [apply (child_stored x)|..].
Qed.

Lemma same_true a b : stored a → stored b → same a b = true → a = b.
Proof.
  unfold same. intros Ha Hb [_ Hc]%Equals_iff. unfold stored, Key in *. rewrite Hc in Ha. congruence.
Qed.

Lemma same_refl a : same a a = true.
Proof. unfold same. by apply Equals_iff. Qed.

Lemma same_false a b : stored a → stored b → same a b = false → a ≠ b.
Proof. intros _ _ Hs ->. by rewrite same_refl in Hs. Qed.

(** ** Forks *)

(** [l] is the part of the chain from [a] down to before [c]. *)
Inductive path : TipSet → list TipSet → TipSet → Prop :=
| path_nil a : path a [] a
| path_cons a p l c : child a p → path p l c → path a (a :: l) c.

Lemma path_snoc a l b p : path a l b → child b p → path a (l ++ [b]) p.
Proof. induction 1; intros; simpl; eauto using path_nil, path_cons. Qed.

Lemma path_anc a l c : path a l c → anc a c.
Proof. induction 1; [done|]. by eapply rtc_l. Qed.

Lemma path_elem a l c d : path a l c → d ∈ l → anc a d ∧ ∃ p, child d p ∧ anc p c.
Proof.
  induction 1 as [|a p l c Hp Hl IH]; [by intros ?%elem_of_nil|]. intros [->|Hin]%elem_of_cons.
  - split; [done|]. exists p. split; [done|]. by eapply path_anc.
  - destruct (IH Hin) as [? ?]. split; [by eapply rtc_l|done].
Qed.

(** The common ancestors of two tipsets are those of [c]. *)
Definition meet (a b c : TipSet) : Prop := ∀ d, anc a d → anc b d → anc c d.

Lemma meet_left a b p : stored a → stored b → child a p → height b < height a →
  ∀ d, anc a d → anc b d → anc p d.
Proof using Type*.
  intros Ha Hb Hp Hh d [->|(q&Hq&Hqd)]%anc_cases Hbd.
  - destruct (anc_height b d Hb Hbd); [lia|subst; lia].
  - by rewrite <- (child_fun a q p Hq Hp).
Qed.

Lemma meet_right a b p : stored a → stored b → child b p → a ≠ b → height a ≤ height b →
  ∀ d, anc a d → anc b d → anc p d.
Proof using Type*.
  intros Ha Hb Hp Hne Hh d Had [->|(q&Hq&Hqd)]%anc_cases.
  - destruct (anc_height a d Ha Had); [lia|by subst].
  - by rewrite <- (child_fun b q p Hq Hp).
Qed.

(** The result of a walk that is at [left] and [right]. *)
Definition forkOk (a b left right : TipSet) (lc rc : list TipSet) (r : walk (list TipSet * list TipSet)) : Prop :=
  match r with
  | Some (Ret (l, r)) => ∃ c, path a l c ∧ path b r c ∧ meet left right c
  | Some (Fail _) => ∀ d, ¬ (anc left d ∧ anc right d)
  | _ => False
  end.

Lemma reorgLoop_run a b fuel : ∀ left right lc rc, stored left → stored right →
  (Z.to_nat (height left) + Z.to_nat (height right) < fuel)%nat →
  path a lc left → path b rc right →
  forkOk a b left right lc rc (reorgLoop lts fuel left right lc rc).
Proof using Type*.
  induction fuel as [|fuel IH]; intros left right lc rc Hl Hr Hf Hlc Hrc; [lia|]. cbn [reorgLoop].
  pose proof (stored_height left Hl). pose proof (stored_height right Hr).
  destruct (same left right) eqn:Es.
  { apply same_true in Es; [|done..]. subst. simpl. exists right. split_and!; [done..|]. by intros d ? ?. }
  apply same_false in Es; [|done..]. case_decide as Hh.
  - destruct (parentOf lts left) as [p|e|] eqn:Ep; [|simpl|by destruct (parentOf_answers left Hl)].
    + pose proof (child_lower left p Hl Ep). pose proof (stored_height p (child_stored left p Ep)).
      cbn [mbind walk_bind]. pose proof (IH p right (lc ++ [left]) rc (child_stored left p Ep) Hr ltac:(lia)
        ltac:(by eapply path_snoc) Hrc) as Hrun.
      destruct (reorgLoop lts fuel p right _ _) as [[[l r]|e|]|]; simpl in *; [|..|done|done].
      * destruct Hrun as (c&?&?&Hm). exists c. split_and!; [done..|]. intros d ? ?. apply Hm; [|done].
        by eapply (meet_left left right p).
      * intros d [? ?]. apply (Hrun d). split; [|done]. by eapply (meet_left left right p).
    + intros d [[->|(p&Hp&_)]%anc_cases Hd]; [|unfold child in Hp; congruence].
      destruct (anc_height right d Hr Hd); [lia|subst; lia].
  - destruct (parentOf lts right) as [p|e|] eqn:Ep; [|simpl|by destruct (parentOf_answers right Hr)].
    + pose proof (child_lower right p Hr Ep). pose proof (stored_height p (child_stored right p Ep)).
      cbn [mbind walk_bind]. pose proof (IH left p lc (rc ++ [right]) Hl (child_stored right p Ep) ltac:(lia)
        Hlc ltac:(by eapply path_snoc)) as Hrun.
      destruct (reorgLoop lts fuel left p _ _) as [[[l r]|e|]|]; simpl in *; [|..|done|done].
      * destruct Hrun as (c&?&?&Hm). exists c. split_and!; [done..|]. intros d ? ?. apply Hm; [done|].
        eapply (meet_right left right p); [done..|lia|done|done].
      * intros d [? ?]. apply (Hrun d). split; [done|]. eapply (meet_right left right p); [done..|lia|done|done].
    + intros d [Hd [->|(p&Hp&_)]%anc_cases]; [|unfold child in Hp; congruence].
      destruct (anc_height left d Hl Hd); [lia|by subst].
Qed.

Lemma ReorgOps_run a b : stored a → stored b →
  match ReorgOps lts a b with
  | Some (Ret (l, r)) => ∃ c, path a l c ∧ path b r c ∧ meet a b c
  | Some (Fail _) => ∀ d, ¬ (anc a d ∧ anc b d)
  | _ => False
  end.
Proof using Type*.
  intros Ha Hb. apply (reorgLoop_run a b (S (Z.to_nat (height a) + Z.to_nat (height b))) a b [] []); [done|done|lia|apply path_nil|apply path_nil].
Qed.


(** ** Ancestors *)

Lemma ancestorLoop_run a fuel : ∀ cur, stored a → stored cur → (Z.to_nat (height cur) < fuel)%nat →
  match ancestorLoop lts fuel a cur with
  | Some (Ret b) => b = true ↔ anc cur a
  | Some (Fail _) => ¬ anc cur a
  | _ => False
  end.
Proof using Type*.
  induction fuel as [|fuel IH]; intros cur Ha Hc Hf; [lia|]. cbn [ancestorLoop].
  pose proof (stored_height cur Hc).
  destruct (same a cur) eqn:Es; simpl.
  { apply same_true in Es; [|done..]. subst. by rewrite same_refl. }
  apply same_false in Es; [|done..]. case_bool_decide as Hh.
  - destruct (parentOf lts cur) as [p|e|] eqn:Ep; [|simpl|by destruct (parentOf_answers cur Hc)].
    + pose proof (child_lower cur p Hc Ep). pose proof (stored_height p (child_stored cur p Ep)).
      cbn [mbind walk_bind]. specialize (IH p Ha (child_stored cur p Ep) ltac:(lia)).
      assert (anc cur a ↔ anc p a) as Hiff.
      { split; [|by intros; eapply rtc_l]. intros [?|(q&Hq&?)]%anc_cases; [by subst|]. by rewrite <- (child_fun cur q p). }
      destruct (ancestorLoop lts fuel a p) as [[]|]; rewrite ?Hiff; done.
    + intros [?|(q&Hq&?)]%anc_cases; [by subst|]. unfold child in Hq. congruence.
  - destruct (same cur a) eqn:Ec; [apply same_true in Ec; [by subst|done..]|].
    split; [done|]. intros Han. destruct (anc_height cur a Hc Han); [lia|by subst].
Qed.

Lemma IsAncestorOf_run a b : stored a → stored b →
  match IsAncestorOf lts a b with
  | Some (Ret r) => r = true ↔ a ≠ b ∧ anc b a
  | Some (Fail _) => ¬ anc b a
  | _ => False
  end.
Proof using Type*.
  intros Ha Hb. unfold IsAncestorOf. pose proof (stored_height b Hb). case_decide as Hh.
  - split; [done|]. intros [Hne Han]. destruct (anc_height b a Hb Han); [lia|by subst].
  - pose proof (ancestorLoop_run a (S (Z.to_nat (height b))) b Ha Hb ltac:(lia)) as Hrun.
    destruct (ancestorLoop lts _ a b) as [[]|]; [|done..]. rewrite Hrun. split; [|tauto].
    intros ?. split; [|done]. intros ->. lia.
Qed.

(** ** Tipsets by height *)

(** The chain behind [ts] can be loaded to the first tipset. *)
Definition whole (ts : TipSet) : Prop := stored ts ∧ ∀ d, anc ts d → 0 < height d → ∃ p, child d p.

Lemma whole_anc ts d : whole ts → anc ts d → whole d.
Proof using Type*.
  intros [Hs Hall] Hd. split; [by eapply anc_stored|]. intros e He. apply Hall. by etrans.
Qed.

Lemma whole_child ts p : whole ts → child ts p → whole p.
Proof using Type*. intros Hw Hp. by eapply whole_anc, rtc_once. Qed.

(** The first tipset of the chain behind [from] that is not below [h]. *)
Definition firstFrom (from : TipSet) (h : Z) (ts : TipSet) : Prop :=
  anc from ts ∧ h ≤ height ts ∧ ∀ p, child ts p → h < height ts → height p < h.

Lemma firstFrom_anc from mid h ts : anc from mid → firstFrom mid h ts → firstFrom from h ts.
Proof. intros Ha (?&?&?). split_and!; [by etrans|done..]. Qed.

Lemma firstFrom_unique from h ts ts' : stored from → firstFrom from h ts → firstFrom from h ts' → ts = ts'.
Proof using Type*.
  intros Hs.
  assert (∀ x y, firstFrom from h x → firstFrom from h y → height y ≤ height x → x = y) as Hle.
  { intros x y (Hx&Hhx&Hpx) (Hy&Hhy&_) Hxy. pose proof (anc_stored from x Hs Hx) as Hsx.
    destruct (anc_cases x y (anc_linear from x y Hs Hx Hy Hxy)) as [|(p&Hp&Hpy)]; [done|].
    pose proof (child_lower x p Hsx Hp). pose proof (child_stored x p Hp) as Hsp.
    destruct (decide (h < height x)); [|destruct (anc_height p y Hsp Hpy); [|subst]; lia].
    pose proof (Hpx p Hp ltac:(done)). destruct (anc_height p y Hsp Hpy); [|subst]; lia. }
  intros H1 H2. destruct (decide (height ts' ≤ height ts)); [by apply Hle|symmetry; apply Hle; [done..|lia]].
Qed.

Lemma walkLoop_run fuel : ∀ ts to, whole ts → 0 ≤ to < height ts → (Z.to_nat (height ts) < fuel)%nat →
  ∃ r, walkLoop lts fuel ts to = Some (Ret r) ∧ firstFrom ts to r.
Proof using Type*.
  induction fuel as [|fuel IH]; intros ts to Hw Hto Hf; [lia|]. cbn [walkLoop].
  destruct (proj2 Hw ts) as [p Hp]; [done|lia|]. rewrite Hp. cbn [mbind walk_bind].
  pose proof (child_lower ts p (proj1 Hw) Hp). pose proof (stored_height p (child_stored ts p Hp)).
  assert (anc ts p) as Han by by apply rtc_once.
  destruct (decide (height p < to)).
  { exists ts. split; [done|]. split_and!; [done|lia|]. intros q Hq _. by rewrite (child_fun ts q p). }
  case_decide.
  { exists p. split; [done|]. split_and!; [done|lia|]. intros. lia. }
  destruct (IH p to) as (r&->&Hr); [by eapply whole_anc|lia|lia|]. exists r. split; [done|]. by eapply firstFrom_anc.
Qed.

Lemma walkBack_run from to : whole from → 0 ≤ to ≤ height from →
  ∃ r, walkBack lts from to = Some (Ret r) ∧ firstFrom from to r.
Proof using Type*.
  intros Hw Hto. unfold walkBack. rewrite decide_False by lia. case_decide.
  - exists from. split; [done|]. split_and!; [done|lia|]. intros. lia.
  - apply walkLoop_run; [done|lia|lia].
Qed.

(** ** The index *)

Context `{LruCache}.

(** An entry that tells the truth about a tipset. *)
Definition entryOk (k : string) (e : lbEntry) : Prop :=
  lts k = Ret (lbTs e) ∧
  ((height (lbTs e) = 0 ∧ parentHeight e = 0) ∨
   ∃ p t, child (lbTs e) p ∧ parentHeight e = height p ∧ anc p t ∧ target e = Key (Some t) ∧ targetHeight e = height t).

Definition cacheOk (c : lru string lbEntry) : Prop := ∀ k e, lruHolds c k e → entryOk k e.

Lemma roundHeight_bounds h : 0 ≤ h → 0 ≤ roundHeight h ≤ h ∧ h < roundHeight h + skipLength.
Proof.
  intros Hh. unfold roundHeight, skipLength. rewrite Z.quot_div_nonneg by lia.
  pose proof (Z.div_mod h 20). pose proof (Z.mod_pos_bound h 20). lia.
Qed.

Lemma skipTarget_run p h : whole p → 0 ≤ h → ∃ t, skipTarget lts p h = Some (Ret t) ∧ anc p t.
Proof using Type*.
  intros Hw Hh. unfold skipTarget. case_decide; [by exists p|].
  destruct (walkBack_run p h Hw ltac:(lia)) as (t&->&(?&_&_)). by exists t.
Qed.

Lemma fillCache_run c ts : whole ts → cacheOk c →
  ∃ e c', fillCache lts c (Key (Some ts)) = Some (Ret (e, c')) ∧ lbTs e = ts ∧ entryOk (Key (Some ts)) e ∧ cacheOk c'.
Proof using Type*.
  intros Hw Hc. pose proof (proj1 Hw) as Hs. pose proof (stored_height ts Hs). unfold fillCache.
  unfold stored in Hs. rewrite Hs. cbn [mbind walk_bind]. case_decide as Hz.
  { eexists _, _. split; [reflexivity|]. split_and!; [done| |done]. split; [done|by left]. }
  destruct (proj2 Hw ts) as [p Hp]; [done|lia|]. rewrite Hp. cbn [mbind walk_bind].
  destruct (skipTarget_run p (Z.max 0 (roundHeight (height ts) - skipLength))) as (t&->&Ht); [|lia|].
  { by eapply whole_child. }
  cbn [mbind walk_bind]. eexists _, _. split; [reflexivity|].
  assert (entryOk (Key (Some ts)) (mkLbEntry ts (height p) (height t) (Key (Some t)))) as He.
  { split; [done|]. right. exists p, t. by split_and!. }
  split_and!; [done|done|]. intros k e [[-> ->]|?]%lruAdd_holds; [done|by apply Hc].
Qed.

(** The entry of a tipset, from the cache or made for it. *)
Lemma entry_run c ts : whole ts → cacheOk c →
  ∃ e c', entryAt lts c (Key (Some ts)) = Some (Ret (e, c')) ∧ lbTs e = ts ∧ entryOk (Key (Some ts)) e ∧ cacheOk c'.
Proof using Type*.
  intros Hw Hc. unfold entryAt. destruct (lruGet c (Key (Some ts))) as [cval c1] eqn:Eg.
  assert (cacheOk c1) as Hc1. { intros k e Hh. apply Hc. apply (lruGet_holds c (Key (Some ts))). by rewrite Eg. }
  destruct cval as [e|]; [|by apply fillCache_run].
  assert (entryOk (Key (Some ts)) e) as He by (apply Hc, lruGet_some; by rewrite Eg).
  exists e, c1. split_and!; [done| |done|done]. pose proof (proj1 Hw) as Hs. unfold stored in Hs.
  destruct He as [He _]. congruence.
Qed.

Lemma indexLoop_run fuel : ∀ c ts to, whole ts → cacheOk c → 0 ≤ to ≤ height ts → (Z.to_nat (height ts) < fuel)%nat →
  ∃ r c', indexLoop lts fuel c (Key (Some ts)) to = Some (Ret (r, c')) ∧ firstFrom ts to r ∧ cacheOk c'.
Proof using Type*.
  induction fuel as [|fuel IH]; intros c ts to Hw Hc Hto Hf; [lia|]. cbn [indexLoop].
  destruct (entry_run c ts Hw Hc) as (e&c2&->&<-&[_ He]&Hc2). cbn [mbind walk_bind]. pose proof (proj1 Hw) as Hs.
  case_decide as Hret.
  { eexists _, _. split; [reflexivity|]. split; [|done]. split_and!; [done|lia|]. intros p Hp Hlt.
    destruct He as [[? ?]|(q&t&Hq&?&_)]; [lia|]. rewrite (child_fun _ _ _ Hp Hq). lia. }
  destruct (decide (targetHeight e < to)).
  { destruct (walkBack_run (lbTs e) to Hw Hto) as (r&->&Hr). by eexists _, _. }
  destruct He as [[? ?]|(p&t&Hp&?&Ht&->&Eh)]; [lia|].
  pose proof (child_lower _ p Hs Hp). pose proof (child_stored _ p Hp) as Hsp.
  assert (anc (lbTs e) t) as Han by by eapply rtc_l.
  assert (height t ≤ height p) by (destruct (anc_height p t Hsp Ht); [lia|by subst]).
  destruct (IH c2 t to) as (r&c'&->&Hr&?); [by eapply whole_anc|done|lia|..].
  { pose proof (stored_height t (anc_stored _ t Hs Han)). lia. }
  eexists _, _. split; [reflexivity|]. split; [by eapply firstFrom_anc|done].
Qed.

Lemma indexByHeight_run c from to : whole from → cacheOk c → 0 ≤ to ≤ height from →
  ∃ r c', indexByHeight lts c from to = Some (Ret (r, c')) ∧ firstFrom from to r ∧ cacheOk c'.
Proof using Type*.
  intros Hw Hc Hto. unfold indexByHeight. case_decide as Hd.
  { destruct (walkBack_run from to Hw Hto) as (r&->&?). by eexists _, _. }
  pose proof (roundHeight_bounds (height from) ltac:(lia)) as [? ?]. unfold roundDown.
  destruct (walkBack_run from (roundHeight (height from)) Hw ltac:(lia)) as (t&->&Ht). cbn [mbind walk_bind].
  destruct Ht as (Ha&Hh&_). pose proof (proj1 Hw) as Hs.
  assert (height t ≤ height from) by (destruct (anc_height from t Hs Ha); [lia|by subst]).
  destruct (indexLoop_run (S (Z.to_nat (height from))) c t to) as (r&c'&->&Hr&?); [by eapply whole_anc|done|lia|lia|].
  eexists _, _. split; [reflexivity|]. split; [by eapply firstFrom_anc|done].
Qed.

(** The last tipset of the chain behind [from] that is not above [h]. *)
Definition lastUpTo (from : TipSet) (h : Z) (ts : TipSet) : Prop :=
  anc from ts ∧ height ts ≤ h ∧ ∀ d, anc from d → height d ≤ h → height d ≤ height ts.

Lemma parent_is_last from h ts p : stored from → firstFrom from h ts → height ts ≠ h → child ts p → lastUpTo from h p.
Proof using Type*.
  intros Hs (Ha&Hh&Hp) Hne Hc. pose proof (Hp p Hc ltac:(lia)). split_and!; [by eapply rtc_r|lia|].
  intros d Hd Hdh. pose proof (anc_stored from ts Hs Ha) as Hts.
  destruct (anc_cases ts d (anc_linear from ts d Hs Ha Hd ltac:(lia))) as [->|(q&Hq&Hqd)]; [lia|].
  rewrite (child_fun ts q p Hq Hc) in Hqd. destruct (anc_height p d (child_stored ts p Hc) Hqd); [lia|by subst].
Qed.

(** The tipset at the height, or the one next to a height without a tipset. *)
Definition tipsetAt (from : TipSet) (h : Z) (prev : bool) (ts : TipSet) : Prop :=
  if prev then lastUpTo from h ts else firstFrom from h ts.

Lemma firstFrom_at from h ts prev : stored from → firstFrom from h ts → height ts = h → tipsetAt from h prev ts.
Proof using Type*. intros Hs Hf Hh. destruct prev; [|done]. destruct Hf as (?&_&_). split_and!; [done|lia|]. intros. lia. Qed.

Lemma GetTipsetByHeight_run c h ts prev : whole ts → cacheOk c → 0 ≤ h ≤ height ts →
  ∃ r c', GetTipsetByHeight lts c h ts prev = Some (Ret (r, c')) ∧ tipsetAt ts h prev r ∧ cacheOk c'.
Proof using Type*.
  intros Hw Hc Hh. pose proof (proj1 Hw) as Hs. unfold GetTipsetByHeight. rewrite decide_False by lia. case_decide as Eh.
  { eexists _, _. split; [reflexivity|]. split; [|done]. apply firstFrom_at; [done| |done]. split_and!; [done|lia|]. intros. lia. }
  destruct (indexByHeight_run c ts h Hw Hc Hh) as (r&c'&->&Hr&Hc'). cbn [mbind walk_bind].
  pose proof Hr as (Ha&Hrh&Hrp). rewrite decide_False by lia. cbn [mbind walk_bind]. case_decide as Er.
  { eexists _, _. split; [reflexivity|]. split; [by apply firstFrom_at|done]. }
  destruct prev; [|by eexists _, _].
  destruct (proj2 Hw r Ha) as [p Hp]; [lia|]. rewrite Hp. cbn [mbind walk_bind]. eexists _, _. split; [reflexivity|].
  split; [|done]. by apply (parent_is_last ts h r).
Qed.

(** The caches that lookups can leave behind. *)
Inductive cacheReach : lru string lbEntry → Prop :=
| reach_new : cacheReach lruNew
| reach_lookup c c' h ts prev r : cacheReach c → whole ts → 0 ≤ h ≤ height ts →
    GetTipsetByHeight lts c h ts prev = Some (Ret (r, c')) → cacheReach c'.

Lemma cacheReach_ok c : cacheReach c → cacheOk c.
Proof using Type*.
  induction 1 as [|c c' h ts prev r _ IH Hw Hh Hr]; [by intros k e ?%lruNew_holds|].
  destruct (GetTipsetByHeight_run c h ts prev Hw IH Hh) as (r'&c2&E&_&?). rewrite E in Hr. by injection Hr as <- <-.
Qed.


(** C14. Looking a tipset up by height returns for every height up to the start, with every cache
    that earlier lookups left and whatever the cache dropped: it is the tipset at that height, or
    next to a height without a tipset the one below or above as asked, like a walk through all
    parents would find it. *)
Theorem GetTipsetByHeight_agrees c h ts prev : cacheReach c → whole ts → 0 ≤ h ≤ height ts →
  ∃ r c', GetTipsetByHeight lts c h ts prev = Some (Ret (r, c')) ∧ cacheReach c' ∧
    (if prev then lastUpTo ts h r else walkBack lts ts h = Some (Ret r) ∧ firstFrom ts h r).
Proof using Type*.
  intros Hc Hw Hh. destruct (GetTipsetByHeight_run c h ts prev Hw (cacheReach_ok c Hc) Hh) as (r&c'&E&Ht&_).
  exists r, c'. split_and!; [done|by eapply reach_lookup|]. destruct prev; [done|]. split; [|done].
  destruct (walkBack_run ts h Hw Hh) as (r'&->&Hr'). by rewrite (firstFrom_unique ts h r' r (proj1 Hw) Hr' Ht).
Qed.

(** [NearestCommonAncestor] reads the last element of an empty list when one tipset is behind the
    other one. *)
Lemma NearestCommonAncestor_crashes a b : stored a → stored b → anc b a → NearestCommonAncestor lts a b = Some Crash.
Proof using Type*.
  intros Ha Hb Hab. unfold NearestCommonAncestor. pose proof (ReorgOps_run a b Ha Hb) as Hrun.
  destruct (ReorgOps lts a b) as [[[l r]|e|]|]; [|by destruct (Hrun a)|done..].
  destruct Hrun as (c&Hl&Hr&Hm). assert (l = []) as ->; [|done].
  destruct Hl as [|a p l c Hp Hl]; [done|]. exfalso. pose proof (child_lower a p Ha Hp).
  pose proof (child_stored a p Hp) as Hps. pose proof (path_anc p l c Hl) as Hpc.
  destruct (anc_height c a (anc_stored p c Hps Hpc) (Hm a (rtc_refl _ _) Hab)), (anc_height p c Hps Hpc); subst; lia.
Qed.

(** The common ancestor is in neither list. *)
Lemma ReorgOps_omits_ancestor a l c : stored a → path a l c → c ∉ l.
Proof using Type*.
  intros Ha Hl Hin. destruct (path_elem a l c c Hl Hin) as [Hac (p&Hp&Hpc)].
  pose proof (anc_stored a c Ha Hac) as Hc. pose proof (child_lower c p Hc Hp).
  destruct (anc_height p c (child_stored c p Hp) Hpc); subst; lia.
Qed.
End chain.
