(* ===== verification/ChainHeadSpec.v ===== *)
(** * The head and its checkpoint

    A fork is followed when its common ancestor with the head is less than the threshold behind
    the head and not behind the checkpoint.  Hence the checkpoint stays on the chain of the head
    through every history of head changes. *)

From coqutil Require Import Datatypes.RecordSetters.
From stdpp Require Import strings numbers base gmap fin_maps sets list relations.
From S2P Require Import Prelude GoStrings GoSort GoLru TipSets FileTypes ChainStore ChainStoreSpec.
Import DoubleBraceUpdate.
Local Open Scope Z_scope.

Section head.
Context (lts : string → outcome TipSet) `{!ChainLaws lts}.

Abbreviation childOf := (child lts).
Abbreviation anc := (rtc (child lts)) (only parsing).

Lemma nsteps_anc n ts d : nsteps childOf n ts d → anc ts d.
Proof. apply rtc_nsteps_2. Qed.

Lemma nsteps_le n m ts c d : nsteps childOf n ts c → nsteps childOf m ts d → (n ≤ m)%nat → anc c d.
Proof.
  intros Hn. revert m. induction Hn as [|n x y z Hxy Hn IH]; intros m Hm Hle; [by eapply nsteps_anc|].
  inversion Hm as [|m' ? y' ? Hxy' Hm']; subst; [lia|]. rewrite (child_fun lts x y' y Hxy' Hxy) in Hm'. apply (IH m'); [done|lia].
Qed.

(** ** The length of a fork *)

Lemma matchHeight_run fuel : ∀ ext h, whole lts ext → 0 ≤ h → (Z.to_nat (height ext) < fuel)%nat →
  ∃ e, matchHeight lts fuel ext h = Some (Ret (inr e)) ∧ anc ext e ∧ height e ≤ h ∧
    ∀ d, anc ext d → height d ≤ h → anc e d.
Proof using Type*.
  induction fuel as [|fuel IH]; intros ext h Hw Hh Hf; [lia|]. cbn [matchHeight]. case_decide as Hlt.
  2: { exists ext. split_and!; [done..|lia|done]. }
  rewrite decide_False by lia. destruct (proj2 Hw ext) as [p Hp]; [done|lia|]. rewrite Hp. cbn [mbind walk_bind].
  pose proof (child_lower lts ext p (proj1 Hw) Hp). pose proof (stored_height lts p (child_stored lts ext p Hp)).
  destruct (IH p h) as (e&->&?&?&Hall); [by eapply (whole_child lts)|done|lia|].
  exists e. split_and!; [done|by eapply rtc_l|done|]. intros d [->|(q&Hq&?)]%anc_cases Hd; [lia|].
  apply Hall; [|done]. by rewrite <- (child_fun lts ext q p).
Qed.

(** The common ancestor is [k] tipsets behind the head, and none of those before it is the checkpoint. *)
Definition shortFork (n : nat) (chk : option TipSet) (synced external : TipSet) : Prop :=
  ∃ k c, (k < n)%nat ∧ nsteps childOf k synced c ∧ anc external c ∧
    ∀ j d, (j < k)%nat → nsteps childOf j synced d → Equals (Some d) chk = false.

Lemma shortFork_here n chk synced external : anc external synced → shortFork (S n) chk synced external.
Proof. intros Ha. exists 0%nat, synced. split_and!; [lia|constructor|done|]. intros j d ?. lia. Qed.

Lemma shortFork_back n chk synced external e p : whole lts synced → anc external e →
  (∀ d, anc external d → height d ≤ height synced → anc e d) → childOf synced p → Equals (Some synced) chk = false →
  ¬ anc external synced → shortFork (S n) chk synced external ↔ shortFork n chk p e.
Proof using Type*.
  intros Hw He Hall Hp Hchk Hno. split.
  - intros (k&c&Hk&Hc&Hext&Hj). inversion Hc as [|k' ? y ? Hy Hc']; subst; [done|].
    rewrite (child_fun lts synced y p Hy Hp) in Hc'. exists k', c. split_and!; [lia|done| |].
    + apply Hall; [done|]. destruct (anc_height lts synced c (proj1 Hw) (nsteps_anc _ _ _ Hc)); [lia|by subst].
    + intros j d Hlt Hd. apply (Hj (S j)); [lia|]. by eapply (nsteps_l _ _ _ p).
  - intros (k&c&Hk&Hc&Hext&Hj). exists (S k), c. split_and!; [lia|by eapply (nsteps_l _ _ _ p)|by etrans|].
    intros [|j] d Hlt Hd; inversion Hd as [|j' ? y ? Hy Hd']; subst; [done|].
    rewrite (child_fun lts synced y p Hy Hp) in Hd'. apply (Hj j); [lia|done].
Qed.

Lemma forkLoop_run n chk : ∀ synced external, whole lts synced → whole lts external →
  ∃ b, forkLoop lts n chk synced external = Some (Ret b) ∧ (b = false ↔ shortFork n chk synced external).
Proof using Type*.
  induction n as [|n IH]; intros synced external Hs He; cbn [forkLoop].
  { exists true. split; [done|]. split; [done|]. intros (k&_&?&_). lia. }
  pose proof (proj1 Hs) as Hss. pose proof (stored_height lts synced Hss).
  destruct (matchHeight_run (S (Z.to_nat (height external))) external (height synced)) as (e&->&Hae&Hhe&Hall); [done|done|lia|].
  cbn [mbind walk_bind]. pose proof (anc_stored lts external e (proj1 He) Hae) as Hse.
  destruct (same synced e) eqn:Es.
  { apply (same_true lts) in Es; [|done..]. subst. exists false. split; [done|]. split; [|done]. intros _. by apply shortFork_here. }
  assert (¬ anc external synced) as Hno.
  { intros Ha. pose proof (Hall synced Ha ltac:(lia)) as Hes. destruct (anc_height lts e synced Hse Hes); [lia|].
    subst. by rewrite same_refl in Es. }
  destruct (Equals (Some synced) chk) eqn:Ec.
  { exists true. split; [done|]. split; [done|]. intros ([|k]&c&_&Hc&Hext&Hj).
    - inversion Hc; subst. done.
    - rewrite (Hj 0%nat synced) in Ec; [done|lia|constructor]. }
  case_decide as Hz.
  { exists true. split; [done|]. split; [done|]. intros (k&c&_&Hc&Hext&_). apply nsteps_anc in Hc.
    destruct (anc_height lts synced c Hss Hc); [|by subst]. pose proof (stored_height lts c (anc_stored lts synced c Hss Hc)). lia. }
  destruct (proj2 Hs synced) as [p Hp]; [done|lia|]. rewrite Hp. cbn [mbind walk_bind].
  destruct (IH p e) as (b&->&Hb); [by apply (whole_child lts synced)|by apply (whole_anc lts external)|].
  exists b. split; [done|]. rewrite Hb. symmetry. by apply shortFork_back.
Qed.

(** ** Head changes *)

(** The checkpoint is on the chain of the head. *)
Definition headOk (cs : ChainHead) : Prop :=
  (∀ h, heaviest cs = Some h → whole lts h) ∧
  ∀ c, checkpoint cs = Some c → ∃ h, heaviest cs = Some h ∧ anc h c.

Lemma takeHeaviest_fields err cs ts :
  heaviest (takeHeaviestTipSet err cs ts) = Some ts ∧ checkpoint (takeHeaviestTipSet err cs ts) = checkpoint cs.
Proof. unfold takeHeaviestTipSet, writeHead. by destruct (heaviest cs), err. Qed.

Lemma short_fork_keeps_checkpoint n h ts c : shortFork n (Some c) h ts → anc h c → anc ts c.
Proof.
  intros (k&m&_&Hk&Hm&Hj) (i&Hi)%rtc_nsteps. destruct (decide (i < k)%nat) as [Hlt|].
  - specialize (Hj i c Hlt Hi). pose proof (same_refl c) as Hr. unfold same in Hr. congruence.
  - trans m; [done|]. apply (nsteps_le k i h m c Hk Hi). lia.
Qed.

Variable ForkLengthThreshold : Z.
Variable Sum256 : string → string.

(** The steps of a head; weights and the datastore can answer anything. *)
Inductive headStep : ChainHead → ChainHead → Prop :=
| step_maybe weight putErr cs cs' ts : whole lts ts →
    MaybeTakeHeavierTipSet lts ForkLengthThreshold Sum256 weight putErr cs ts = Some (Ret cs') → headStep cs cs'
| step_checkpoint putErr key cs cs' ts : stored lts ts →
    SetCheckpoint lts ForkLengthThreshold putErr key cs ts = Some (Ret cs') → headStep cs cs'
| step_head putErr delErr cs cs' ts : whole lts ts → SetHead putErr delErr cs ts = Ret cs' → headStep cs cs'
| step_remove delErr cs cs' : removeCheckpoint delErr cs = Ret cs' → headStep cs cs'
| step_force putErr delErr cs ts : whole lts ts → headStep cs (ForceHeadSilent putErr delErr cs ts).1.

Lemma maybe_ok weight putErr cs cs' ts : whole lts ts → headOk cs →
  MaybeTakeHeavierTipSet lts ForkLengthThreshold Sum256 weight putErr cs ts = Some (Ret cs') → headOk cs'.
Proof using Type*.
  intros Hw [Hh Hc]. unfold MaybeTakeHeavierTipSet.
  destruct (weight (Some ts)) as [w|e|]; [|discriminate..]. destruct (weight (heaviest cs)) as [hw|e|]; [|discriminate..].
  cbn [mbind walk_bind]. destruct (heavierThan _ _ _ _ _) as [b|e|]; [|discriminate..]. cbn [mbind walk_bind].
  destruct b; [|by intros [= <-]]. unfold exceedsForkLength. destruct (heaviest cs) as [h|] eqn:Eh.
  - destruct (forkLoop_run (Z.to_nat ForkLengthThreshold) (checkpoint cs) h ts (Hh h eq_refl) Hw) as (b&->&Hb).
    cbn [mbind walk_bind]. destruct b; [intros [= <-]; by split; rewrite ?Eh|]. intros [= <-].
    destruct (takeHeaviest_fields putErr cs ts) as [E1 E2]. split; rewrite E1; [by intros ? [= <-]|].
    intros c Ec. rewrite E2 in Ec. exists ts. split; [done|]. destruct (Hc c Ec) as (h'&[= <-]&Ha).
    eapply short_fork_keeps_checkpoint; [|done]. rewrite <- Ec. by apply Hb.
  - cbn [mbind walk_bind]. intros [= <-]. destruct (takeHeaviest_fields putErr cs ts) as [E1 E2].
    split; rewrite E1; [by intros ? [= <-]|]. intros c Ec. rewrite E2 in Ec. destruct (Hc c Ec) as (?&?&_). congruence.
Qed.

Lemma setCheckpoint_ok putErr key cs cs' ts : stored lts ts → headOk cs →
  SetCheckpoint lts ForkLengthThreshold putErr key cs ts = Some (Ret cs') → headOk cs'.
Proof using Type*.
  intros Hs [Hh Hc]. unfold SetCheckpoint. destruct (heaviest cs) as [h|] eqn:Eh; [|done].
  do 2 (case_decide; [done|]). pose proof (proj1 (Hh h eq_refl)) as Hsh.
  assert (∀ r : walk bool, (∀ b, r = Some (Ret b) → b = true → anc h ts) →
    (anc0 ← r; if negb anc0 then Some (Fail "cannot mark tipset as checkpoint, since it isn't in the main-chain")
               else match putErr with Some e => Some (Fail e)
                    | None => Some (Ret (cs {{ checkpoint := Some ts; storedCheckpoint := Some key }})) end) = Some (Ret cs') →
    headOk cs') as Hgo.
  { intros [[b|e|]|] Hr; [|discriminate..]. cbn [mbind walk_bind]. destruct b; simpl; [|done].
    destruct putErr; [done|]. intros [= <-]. destruct cs; rsimpl; subst. split; simpl; [done|]. intros c [= <-]. eauto. }
  apply Hgo. destruct (same ts h) eqn:Es; [apply (same_true lts) in Es; [|done..]; by subst|].
  intros b Er Hb. pose proof (IsAncestorOf_run lts ts h Hs Hsh) as Hrun. rewrite Er in Hrun. by apply Hrun.
Qed.

Lemma headStep_ok cs cs' : headStep cs cs' → headOk cs → headOk cs'.
Proof using Type*.
  intros [] Hok.
  - by eapply maybe_ok.
  - by eapply setCheckpoint_ok.
  - unfold SetHead in *. destruct (removeCheckpoint delErr cs0) as [cs1|e|] eqn:Er; [|done..].
    cbn [mbind outcome_bind] in *. simplify_eq. destruct (takeHeaviest_fields putErr cs1 ts) as [E1 E2].
    split; rewrite E1; [by intros ? [= <-]|]. intros c Ec. rewrite E2 in Ec. unfold removeCheckpoint in Er.
    destruct delErr; by simplify_eq.
  - unfold removeCheckpoint in *. destruct delErr; [done|]. simplify_eq. destruct Hok. by split.
  - unfold ForceHeadSilent, removeCheckpoint. destruct delErr; [done|]. simpl. unfold writeHead.
    by destruct putErr; (split; simpl; [by intros ? [= <-]|]).
Qed.

(** The check of a fork returns, and lets exactly those forks pass whose common ancestor with
    the head is less than the threshold behind it, with no checkpoint in between. *)
Theorem exceedsForkLength_exact chk synced external : whole lts synced → whole lts external →
  ∃ b, exceedsForkLength lts ForkLengthThreshold chk (Some synced) (Some external) = Some (Ret b) ∧
    (b = false ↔ shortFork (Z.to_nat ForkLengthThreshold) chk synced external).
Proof using Type*. intros Hs He. by apply forkLoop_run. Qed.

Lemma reachable_headOk cs cs' : rtc headStep cs cs' → headOk cs → headOk cs'.
Proof using Type*. induction 1 as [|x y z Hxy _ IH]; [done|]. intros Hok. by eapply IH, headStep_ok. Qed.

(** C15. Through every sequence of new tipsets, set heads and set or removed checkpoints, for all
    weights and whatever the datastore answers, the checkpoint is the head or one of its ancestors. *)
Theorem checkpoint_stays_on_chain g cs c : whole lts g →
  rtc headStep (mkChainHead (Some g) None [] None None) cs → checkpoint cs = Some c →
  ∃ h, heaviest cs = Some h ∧ anc h c.
Proof using Type*.
  intros Hg Hr Hc. apply (reachable_headOk _ cs Hr); [|done]. split; simpl; [by intros ? [= <-]|done].
Qed.
End head.

(** * A small chain

    A chain with a fork and heights without a tipset, on which the walks and the head run. *)

(** ** Stores that are lists of tipsets *)

Definition loadFrom (l : list TipSet) (k : string) : outcome TipSet :=
  match list_find (λ ts, Key (Some ts) = k) l with
  | Some (_, ts) => Ret ts
  | None => Fail "tipset not found"
  end.

Definition tipsetChecked (l : list TipSet) (ts : TipSet) : bool :=
  match blks ts with [] => false | _ => true end && bool_decide (0 ≤ height ts) &&
  match parentOf (loadFrom l) ts with
  | Ret p => bool_decide (height p < height ts)
  | _ => bool_decide (height ts = 0)
  end.

Lemma loadFrom_elem l k ts : loadFrom l k = Ret ts → ts ∈ l ∧ Key (Some ts) = k.
Proof.
  unfold loadFrom. destruct (list_find _ l) as [[i ts']|] eqn:E; [|done]. intros [= ->].
  apply list_find_Some in E as (Hl&Hk&_). split; [|done]. by eapply list_elem_of_lookup_2.
Qed.

Section checked.
Variable l : list TipSet.
Hypothesis Hall : forallb (tipsetChecked l) l = true.

Lemma checked_elem ts : ts ∈ l → tipsetChecked l ts = true.
Proof using Hall. rewrite forallb_forall in Hall. intros Hin. apply Hall. by apply list_elem_of_In. Qed.

Lemma loadFrom_laws : ChainLaws (loadFrom l).
Proof using Hall.
  assert (∀ k ts, loadFrom l k = Ret ts → blks ts ≠ [] ∧ 0 ≤ height ts ∧ ∀ p, parentOf (loadFrom l) ts = Ret p → height p < height ts) as Hts.
  { intros k ts [Hin _]%loadFrom_elem. pose proof (checked_elem ts Hin) as Hc. unfold tipsetChecked in Hc.
    apply andb_true_iff in Hc as [[Hb Hh%bool_decide_eq_true]%andb_true_iff Hp]. split_and!; [by destruct (blks ts)|done|].
    intros p E. rewrite E in Hp. by apply bool_decide_eq_true in Hp. }
  split.
  - by intros k ts [_ ?]%loadFrom_elem.
  - intros k ts E. destruct (Hts k ts E) as (?&?&_). auto.
  - intros k. unfold loadFrom. by destruct (list_find _ l) as [[]|].
  - intros k ts p E. destruct (Hts k ts E) as (_&_&?). auto.
Qed.

Lemma loadFrom_whole ts : stored (loadFrom l) ts → whole (loadFrom l) ts.
Proof using Hall.
  intros Hs. split; [done|]. intros d Hd Hh. pose proof loadFrom_laws.
  pose proof (anc_stored _ ts d Hs Hd) as [Hin _]%loadFrom_elem. pose proof (checked_elem d Hin) as Hc.
  unfold tipsetChecked in Hc. apply andb_true_iff in Hc as [_ Hp]. unfold child.
  destruct (parentOf (loadFrom l) d) as [p| |]; [by exists p|apply bool_decide_eq_true in Hp; lia..].
Qed.
End checked.

(** ** The chain *)

(** A tipset of one block with the name [c]. *)
Definition testBlock (c ticket parent : string) (h : Z) : TipSet :=
  mkTipSet [c] [mkBlockHeader c ticket [parent] h h 100 "m" 0] h.

(** Heights 0, 2, 4 up to 60 of the chain, and a fork at 56. *)
Definition trunk : list TipSet :=
  map (λ n, testBlock (Itoa (2 * Z.of_nat n)) "t" (Itoa (2 * Z.of_nat n - 2)) (2 * Z.of_nat n)) (seq 0 31).
Definition fork57 : TipSet := testBlock "57" "t" "56" 57.
Definition fork61 : TipSet := testBlock "61" "t" "57" 61.
Definition testChain61 : list TipSet := trunk ++ [fork57; fork61].
Definition at56 : TipSet := testBlock "56" "t" "54" 56.
Definition at60 : TipSet := testBlock "60" "t" "58" 60.

Lemma testChain61_checked : forallb (tipsetChecked testChain61) testChain61 = true.
Proof. vm_compute. reflexivity. Qed.

Lemma testChain61_laws : ChainLaws (loadFrom testChain61).
Proof. apply loadFrom_laws, testChain61_checked. Qed.

Lemma testChain61_whole ts : stored (loadFrom testChain61) ts → whole (loadFrom testChain61) ts.
Proof. apply loadFrom_whole, testChain61_checked. Qed.


(** Height 13 has no tipset: the tipsets at 12 and 14 are next to it. *)
Lemma GetTipsetByHeight_agrees_witness :
  ∃ r c', GetTipsetByHeight (loadFrom testChain61) (H := listCache) (lruNew (LruCache := listCache)) 13 at60 true = Some (Ret (r, c')) ∧
    lastUpTo (loadFrom testChain61) at60 13 r ∧ height r = 12.
Proof.
  pose proof testChain61_laws as Hlaws.
  destruct (GetTipsetByHeight_agrees (H := listCache) (loadFrom testChain61) (lruNew (LruCache := listCache)) 13 at60 true)
    as (r&c'&E&_&Hr).
  - apply reach_new.
  - apply testChain61_whole. vm_compute. reflexivity.
  - vm_compute. split; discriminate.
  - exists r, c'. split; [exact E|]. split; [exact Hr|]. vm_compute in E. injection E as <- _. reflexivity.
Defined.

Lemma exceedsForkLength_exact_witness :
  exceedsForkLength (loadFrom testChain61) 3 None (Some at60) (Some fork61) = Some (Ret false) ∧
  shortFork (loadFrom testChain61) 3 None at60 fork61.
Proof.
  pose proof testChain61_laws as Hlaws.
  destruct (exceedsForkLength_exact (loadFrom testChain61) 3 None at60 fork61) as (b&E&Hb).
  - apply testChain61_whole. vm_compute. reflexivity.
  - apply testChain61_whole. vm_compute. reflexivity.
  - assert (b = false) as -> by (vm_compute in E; congruence). split; [exact E|]. apply Hb. reflexivity.
Defined.

Definition headAt (ts : TipSet) (chk : option TipSet) (reorgs : list (TipSet * TipSet)) (stored : TipSet) (key : option string) :
    ChainHead := mkChainHead (Some ts) chk reorgs (Some (cids stored)) key.

(** The weight of a tipset is its height here.  A checkpoint at 56 lets the fork that starts there pass. *)
Definition testWeight (o : option TipSet) : outcome Z := match o with Some ts => Ret (height ts) | None => Ret 0 end.

Lemma checkpoint_stays_on_chain_witness :
  ∃ h, Some fork61 = Some h ∧ rtc (child (loadFrom testChain61)) h at56.
Proof.
  pose proof testChain61_laws as Hlaws.
  refine (checkpoint_stays_on_chain (loadFrom testChain61) 5 (λ s, s) at56
            (headAt fork61 (Some at56) [(at56, at60); (at60, fork61)] fork61 (Some "key")) at56 _ _ _).
  - apply testChain61_whole. vm_compute. reflexivity.
  - eapply rtc_l; [apply (step_maybe _ _ _ testWeight None _ (headAt at60 None [(at56, at60)] at60 None) at60)|].
    { apply testChain61_whole. vm_compute. reflexivity. }
    { vm_compute. reflexivity. }
    eapply rtc_l; [apply (step_checkpoint _ _ _ None "key" _ (headAt at60 (Some at56) [(at56, at60)] at60 (Some "key")) at56)|].
    { vm_compute. reflexivity. }
    { vm_compute. reflexivity. }
    eapply rtc_l; [apply (step_maybe _ _ _ testWeight None _
      (headAt fork61 (Some at56) [(at56, at60); (at60, fork61)] fork61 (Some "key")) fork61)|apply rtc_refl].
    { apply testChain61_whole. vm_compute. reflexivity. }
    { vm_compute. reflexivity. }
  - reflexivity.
Defined.

(** ** Ties of weight *)

(** With the tickets 2, 3 and 1, 4 each tipset is preferred over the other one, so that nodes that
    see them in a different order keep different heads. *)
Lemma breakWeightTie_not_antisymmetric :
  let tied c1 t1 c2 t2 := mkTipSet [c1; c2] [mkBlockHeader c1 t1 ["p"] 7 7 100 "m" 0; mkBlockHeader c2 t2 ["p"] 7 7 100 "n" 0] 7 in
  let ts1 := tied "a" "2" "b" "3" in
  let ts2 := tied "c" "1" "d" "4" in
  breakWeightTie (λ s, s) ts1 ts2 = true ∧ breakWeightTie (λ s, s) ts2 ts1 = true.
Proof. vm_compute. done. Qed.
