(* ===== verification/SyncManager.v ===== *)
(** * Choice of the chains to synchronise (chain/sync_manager.go, chain/syncstate.go)

    Peers report the heads of their chains.  The manager starts workers that synchronise to some of
    them and keeps others in two sets of buckets, a bucket for each chain: [pend] for extensions of
    chains that are being synchronised, [deferred] for other chains.  All its state belongs to one
    goroutine, so that its history is a sequence of handlers.  A map can be read in another order
    each time.  Tipsets come from [NewTipSet], so that they have a first block. *)

From coqutil Require Import Datatypes.RecordSetters.
From stdpp Require Import strings numbers base gmap fin_maps sets list relations.
From S2P Require Import Prelude GoStrings GoSort FileTypes TipSets.
Import DoubleBraceUpdate.
Local Open Scope Z_scope.

Definition RecentSyncBufferSize : nat := 10.
Definition MaxSyncWorkers : nat := 5.
Definition SyncWorkerHistory : nat := 3.
(** 15 minutes in nanoseconds *)
Definition InitialSyncTimeThreshold : Z := 15 * 60 * 10 ^ 9.

(** ** Progress of a worker (syncstate.go) *)

Inductive SyncStateStage :=
| StageIdle | StageHeaders | StagePersistHeaders | StageMessages | StageSyncComplete | StageSyncErrored | StageFetchingMessages.

(** Times are numbers; [time.Time{}] is 0. *)
Record SyncerStateSnapshot := mkSnapshot {
  WorkerID : Z; Target : option TipSet; Base : option TipSet; Stage : SyncStateStage;
  ssHeight : Z; ssMessage : string; Start : Z; End_ : Z
}.

Definition SetStage (now : Z) (v : SyncStateStage) (ss : SyncerStateSnapshot) : SyncerStateSnapshot :=
  let ss1 := ss {{ Stage := v }} in
  match v with StageSyncComplete => ss1 {{ End_ := now }} | _ => ss1 end.

Definition Init (now : Z) (base target : TipSet) (ss : SyncerStateSnapshot) : SyncerStateSnapshot :=
  mkSnapshot (WorkerID ss) (Some target) (Some base) StageHeaders 0 "" now 0.

Definition SetHeight (h : Z) (ss : SyncerStateSnapshot) : SyncerStateSnapshot := ss {{ ssHeight := h }}.

Definition Error (now : Z) (err : string) (ss : SyncerStateSnapshot) : SyncerStateSnapshot :=
  ss {{ ssMessage := err; Stage := StageSyncErrored; End_ := now }}.

Inductive progress :=
| ToStage (now : Z) (v : SyncStateStage)
| ToStart (now : Z) (base target : TipSet)
| ToHeight (h : Z)
| ToError (now : Z) (err : string).

Definition report (p : progress) : SyncerStateSnapshot → SyncerStateSnapshot :=
  match p with
  | ToStage now v => SetStage now v
  | ToStart now base target => Init now base target
  | ToHeight h => SetHeight h
  | ToError now err => Error now err
  end.

(** ** Tipsets *)

(** [ts.blks[0]] *)
Definition firstParents (ts : TipSet) : list Cid := match blks ts with b :: _ => bParents b | [] => [] end.
Definition parentsKey (ts : TipSet) : string := NewTipSetKey (firstParents ts).
Definition ParentWeight (ts : TipSet) : Z := match blks ts with b :: _ => bParentWeight b | [] => 0 end.
Definition tsKey (ts : TipSet) : string := Key (Some ts).
Definition sameTs (ts ts' : TipSet) : bool := Equals (Some ts) (Some ts').

Definition isHeavier (a b : TipSet) : bool := bool_decide (ParentWeight b < ParentWeight a).

(** ** Recently synchronised tipsets *)

Record syncBuffer := mkSyncBuffer { buf : list (option TipSet); next : nat }.

Definition newSyncBuffer (size : nat) : syncBuffer := mkSyncBuffer (replicate size None) 0.

(** The index is in range, otherwise it panics. *)
Definition Push (sb : syncBuffer) (ts : TipSet) : outcome syncBuffer :=
  if decide (next sb < length (buf sb))%nat
  then Ret (mkSyncBuffer (<[next sb := Some ts]> (buf sb)) ((next sb + 1) mod length (buf sb)))
  else Crash.

Definition Synced (sb : syncBuffer) (ts : TipSet) : bool :=
  existsb (λ o, match o with Some rts => sameTs rts ts || isHeavier rts ts | None => false end) (buf sb).

(** ** Buckets *)

Abbreviation bucket := (list TipSet) (only parsing).
Abbreviation bucketSet := (list (list TipSet)) (only parsing).

(** The first block of each miner. *)
Fixpoint distinctMiners (miners : gset string) (l : list BlockHeader) : list BlockHeader :=
  match l with
  | [] => []
  | b :: l' => if decide (Miner b ∈ miners) then distinctMiners miners l' else b :: distinctMiners ({[Miner b]} ∪ miners) l'
  end.

Section sync.
Variable coalesceTipsets : bool.
Variable Sum256 : string → string.
Variable BootstrapPeerThreshold : Z.

Definition coalesces (t ts : TipSet) : bool :=
  coalesceTipsets && bool_decide (height t = height ts) && CidArrsEqual (firstParents t) (firstParents ts).

(** [syncTargetBucket.add] *)
Fixpoint addTip (b : bucket) (ts : TipSet) : bucket :=
  match b with
  | [] => [ts]
  | t :: b' =>
      if sameTs t ts then b
      else if coalesces t ts then
        match NewTipSet Sum256 (distinctMiners ∅ (blks t ++ blks ts)) with
        | Ret ts2 => ts2 :: b'
        | _ => t :: addTip b' ts
        end
      else t :: addTip b' ts
  end.

Definition newSyncTargetBucket (tipsets : list TipSet) : bucket := foldl addTip [] tipsets.

Definition sameChainAs (b : bucket) (ts : TipSet) : bool :=
  existsb (λ t, sameTs ts t || bool_decide (tsKey ts = parentsKey t) || bool_decide (parentsKey ts = tsKey t)) b.

(** The first of the heaviest ones. *)
Definition heavierOf (best : option TipSet) (ts : TipSet) : option TipSet :=
  match best with Some x => if isHeavier ts x then Some ts else best | None => Some ts end.
Definition heaviestTipSet (b : bucket) : option TipSet := foldl heavierOf None b.

Definition RelatedToAny (sbs : bucketSet) (ts : TipSet) : bool := existsb (λ b, sameChainAs b ts) sbs.

Fixpoint Insert (sbs : bucketSet) (ts : TipSet) : bucketSet :=
  match sbs with
  | [] => [newSyncTargetBucket [ts]]
  | b :: sbs' => if sameChainAs b ts then addTip b ts :: sbs' else b :: Insert sbs' ts
  end.

(** The position of the bucket with the heaviest tipset, and that tipset, which is nil for an empty bucket. *)
Fixpoint bestBucket (i : nat) (best : option (nat * option TipSet)) (sbs : bucketSet) : outcome (option (nat * option TipSet)) :=
  match sbs with
  | [] => Ret best
  | b :: sbs' =>
      match best, heaviestTipSet b with
      | None, hts => bestBucket (S i) (Some (i, hts)) sbs'
      | Some (j, Some x), Some hts => bestBucket (S i) (if isHeavier hts x then Some (i, Some hts) else best) sbs'
      | Some _, _ => Crash
      end
  end.

(** [removeBucket] of an empty set makes a slice with a negative capacity. *)
Definition Pop (sbs : bucketSet) : outcome (bucket * bucketSet) :=
  r ← bestBucket 0 None sbs;
  match r with
  | Some (i, _) => match sbs !! i with Some b => Ret (b, delete i sbs) | None => Crash end
  | None => Crash
  end.

Definition PopRelated (sbs : bucketSet) (ts : TipSet) : option bucket * bucketSet :=
  let related := filter (λ b, sameChainAs b ts = true) sbs in
  (match related with [] => None | _ => Some (concat related) end, filter (λ b, sameChainAs b ts ≠ true) sbs).

Fixpoint Heaviest (best : option TipSet) (sbs : bucketSet) : outcome (option TipSet) :=
  match sbs with
  | [] => Ret best
  | b :: sbs' =>
      match best, heaviestTipSet b with
      | None, bhts => Heaviest bhts sbs'
      | Some x, Some bhts => Heaviest (if isHeavier bhts x then Some bhts else best) sbs'
      | Some _, None => Crash
      end
  end.

(** ** The manager *)

Record workerState := mkWorkerState { wsId : Z; wsTs : TipSet; wsSs : SyncerStateSnapshot; wsDt : Z }.

(** [ticking] is true until the ticker of the scheduler is stopped. *)
Record syncManager := mkSyncManager {
  nextWorker : Z;
  pend : bucketSet;
  deferred : bucketSet;
  heads : option (gmap string TipSet);
  recent : syncBuffer;
  initialSyncDone : bool;
  state : gmap Z workerState;
  history : list (option workerState);
  historyI : nat;
  ticking : bool
}.

Definition NewSyncManager : syncManager :=
  mkSyncManager 0 [] [] (Some ∅) (newSyncBuffer RecentSyncBufferSize) false ∅ (replicate SyncWorkerHistory None) 0 true.

(** The orders in which maps are read, at the different places of a handler. *)
Abbreviation orders := (nat → MapRange) (only parsing).
Definition workersIn (r : MapRange) (sm : syncManager) : list workerState := map snd (rangeOf (state sm)).

Definition spawnWorker (target : TipSet) (sm : syncManager) : syncManager :=
  let id := nextWorker sm in
  let ws := mkWorkerState id target (mkSnapshot id None None StageIdle 0 "" 0 0) 0 in
  sm {{ nextWorker := wrapUint64 (id + 1); state := <[id := ws]> (state sm) }}.

Definition heightLess (a b : TipSet) : bool := bool_decide (height a < height b).

Definition selectInitialSyncTarget (r : MapRange) (sm : syncManager) : outcome (syncManager * option TipSet) :=
  let peerHeads := map snd (rangeOf (default ∅ (heads sm))) in
  target ← Heaviest None (foldl Insert [] (sortBy heightLess peerHeads));
  Ret (sm {{ heads := None }}, target).

(** What is found among the workers: [Some false] when one has the same target, [Some true] when the tipset
    extends the target of one. *)
Fixpoint relatedActive (l : list workerState) (ts : TipSet) : option bool :=
  match l with
  | [] => None
  | ws :: l' =>
      if sameTs ts (wsTs ws) then Some false
      else if decide (parentsKey ts = tsKey (wsTs ws)) then Some true
      else relatedActive l' ts
  end.

(** A tipset is returned when there is work to do. *)
Definition addSyncTarget (r : orders) (ts : TipSet) (sm : syncManager) : outcome (syncManager * option TipSet) :=
  if Synced (recent sm) ts then Ret (sm, None)
  else if decide (size (state sm) = 0%nat) then Ret (sm, Some ts)
  else
    match relatedActive (workersIn (r 0%nat) sm) ts with
    | Some false => Ret (sm, None)
    | Some true => Ret (sm {{ pend := Insert (pend sm) ts }}, None)
    | None =>
        if RelatedToAny (pend sm) ts then Ret (sm {{ pend := Insert (pend sm) ts }}, None)
        else if existsb (λ ws, isHeavier (wsTs ws) ts) (workersIn (r 1%nat) sm) then Ret (sm, None)
        else
          pendHeaviest ← Heaviest None (pend sm);
          if match pendHeaviest with Some x => isHeavier x ts | None => false end then Ret (sm, None)
          else if negb (initialSyncDone sm) || bool_decide (MaxSyncWorkers ≤ size (state sm))%nat
          then Ret (sm {{ deferred := Insert (deferred sm) ts }}, None)
          else Ret (sm, Some ts)
    end.

(** Every turn takes a bucket away, so that the number of buckets is enough fuel.  The loop over the
    workers looks only at the first one, and without workers nothing is returned. *)
Fixpoint deferredLoop (fuel : nat) (r : orders) (sm : syncManager) : outcome (syncManager * option TipSet) :=
  match deferred sm with
  | [] => Ret (sm, None)
  | _ =>
      match fuel with
      | O => Crash
      | S fuel' =>
          '(b, rest) ← Pop (deferred sm);
          let sm1 := sm {{ deferred := rest }} in
          match heaviestTipSet b with
          | None => Crash
          | Some heaviest =>
              if Synced (recent sm1) heaviest then deferredLoop fuel' r sm1
              else if RelatedToAny (pend sm1) heaviest then deferredLoop fuel' r (sm1 {{ pend := Insert (pend sm1) heaviest }})
              else
                match workersIn (r fuel) sm1 with
                | [] => deferredLoop fuel' r sm1
                | ws :: _ =>
                    if sameTs (wsTs ws) heaviest || isHeavier (wsTs ws) heaviest then deferredLoop fuel' r sm1
                    else if decide (parentsKey heaviest = tsKey (wsTs ws))
                    then deferredLoop fuel' r (sm1 {{ pend := Insert (pend sm1) heaviest }})
                    else Ret (sm1, Some heaviest)
                end
          end
      end
  end.

Definition selectDeferredSyncTarget (r : orders) (sm : syncManager) : outcome (syncManager * option TipSet) :=
  deferredLoop (length (deferred sm)) r sm.

Definition selectSyncTarget (r : orders) (done : TipSet) (sm : syncManager) : outcome (syncManager * option TipSet) :=
  let '(related, rest) := PopRelated (pend sm) done in
  let sm1 := sm {{ pend := rest }} in
  match related with
  | None => selectDeferredSyncTarget r sm1
  | Some b =>
      match heaviestTipSet b with
      | None => Crash
      | Some heaviest =>
          if isHeavier done heaviest || existsb (λ ws, isHeavier (wsTs ws) heaviest) (workersIn (r 0%nat) sm1) || Synced (recent sm1) heaviest
          then selectDeferredSyncTarget r sm1
          else Ret (sm1, Some heaviest)
      end
  end.

Definition startIf (p : syncManager * option TipSet) : syncManager :=
  match p with (sm, Some target) => spawnWorker target sm | (sm, None) => sm end.

(** *** Handlers *)

(** A write to the map of heads panics when it is nil, and so does a worker without a target. *)
Definition handlePeerHead (r : orders) (p : string) (ts : TipSet) (sm : syncManager) : outcome syncManager :=
  if decide (nextWorker sm = 0) then
    match heads sm with
    | None => Crash
    | Some hs =>
        let sm1 := sm {{ heads := Some (<[p := ts]> hs) }} in
        if decide (Z.of_nat (size (<[p := ts]> hs)) < BootstrapPeerThreshold) then Ret sm1
        else
          '(sm2, target) ← selectInitialSyncTarget (r 0%nat) sm1;
          match target with Some t => Ret (spawnWorker t sm2) | None => Crash end
    end
  else res ← addSyncTarget r ts sm; Ret (startIf res).

Definition handleWorkerStatus (r : orders) (id : Z) (err : option string) (dt : Z) (sm : syncManager) : outcome syncManager :=
  match state sm !! id with
  | None => Crash
  | Some ws0 =>
      let ws := ws0 {{ wsDt := dt }} in
      if decide (historyI sm < length (history sm))%nat then
        let sm1 := sm {{ state := delete id (state sm); history := <[historyI sm := Some ws]> (history sm);
                         historyI := ((historyI sm + 1) mod length (history sm))%nat }} in
        sm2 ← match err with
              | Some _ => Ret sm1
              | None =>
                  rec ← Push (recent sm1) (wsTs ws);
                  Ret (sm1 {{ recent := rec; initialSyncDone := initialSyncDone sm1 || bool_decide (dt < InitialSyncTimeThreshold) }})
              end;
        res ← selectSyncTarget r (wsTs ws) sm2;
        Ret (startIf res)
      else Crash
  end.

(** Every turn but the last starts a worker, so that one turn more than the limit is enough. *)
Fixpoint rampUp (fuel : nat) (r : nat → orders) (sm : syncManager) : outcome syncManager :=
  if decide (size (state sm) < MaxSyncWorkers)%nat then
    match fuel with
    | O => Crash
    | S fuel' =>
        '(sm1, target) ← selectDeferredSyncTarget (r fuel) sm;
        match target with
        | None => Ret sm1
        | Some t => rampUp fuel' r (spawnWorker t sm1)
        end
    end
  else Ret sm.

Definition handleInitialSyncDone (r : nat → orders) (sm : syncManager) : outcome syncManager := rampUp MaxSyncWorkers r sm.

(** What the scheduler waits for, and the progress that a running worker reports. *)
Inductive syncEvent :=
| PeerHead (p : string) (ts : TipSet)
| WorkerStatus (id : Z) (err : option string) (dt : Z)
| Tick
| Progress (id : Z) (p : progress).

Definition scheduler (r : nat → orders) (e : syncEvent) (sm : syncManager) : outcome syncManager :=
  match e with
  | PeerHead p ts => handlePeerHead (r 0%nat) p ts sm
  | WorkerStatus id err dt => handleWorkerStatus (r 0%nat) id err dt sm
  | Tick =>
      if ticking sm && initialSyncDone sm then handleInitialSyncDone r (sm {{ ticking := false }}) else Ret sm
  | Progress id p => Ret (sm {{ state := alter (λ ws, ws {{ wsSs := report p (wsSs ws) }}) id (state sm) }})
  end.

Definition idLess (a b : workerState) : bool := bool_decide (wsId a < wsId b).

Definition State (r : MapRange) (sm : syncManager) : list SyncerStateSnapshot :=
  map wsSs (sortBy idLess (workersIn r sm ++ omap id (history sm))).
End sync.

(** * What the manager keeps *)

(** ** Buckets *)

Section buckets.
Variable coalesceTipsets : bool.
Variable Sum256 : string → string.

Abbreviation addTip := (addTip coalesceTipsets Sum256).
Abbreviation Insert := (Insert coalesceTipsets Sum256).

Lemma addTip_nonempty b ts : addTip b ts ≠ [].
Proof. destruct b as [|t b]; simpl; [done|]. destruct (sameTs t ts); [done|]. destruct (coalesces _ _ _); [|done]. by destruct (NewTipSet _ _). Qed.

Lemma distinctMiners_incl l : ∀ miners b, b ∈ distinctMiners miners l → b ∈ l.
Proof.
  induction l as [|x l IH]; simpl; intros miners b Hb; [done|]. case_decide; [right; by eapply IH|].
  apply elem_of_cons in Hb as [->|Hb]; [by left|right; by eapply IH].
Qed.

(** A tipset made of the blocks of two has the parents of the first. *)
Lemma combined_parents t ts ts2 : CidArrsEqual (firstParents t) (firstParents ts) = true →
  NewTipSet Sum256 (distinctMiners ∅ (blks t ++ blks ts)) = Ret ts2 → firstParents ts2 = firstParents t.
Proof.
  intros He Hn. set (l := distinctMiners ∅ (blks t ++ blks ts)) in *.
  destruct (decide (l = [])) as [El|Hne]; [rewrite El in Hn; done|].
  destruct (NewTipSet_sorted Sum256 l Hne) as (first&rest&_&Hp&E). rewrite E in Hn. apply bind_ret_inv in Hn as (cs&Hc&Hn).
  apply checkBlocks_iff in Hc as [Hfits _]. simplify_eq. unfold firstParents at 1. simpl.
  assert (∀ b, b ∈ l → bParents b = bParents first) as Hall.
  { intros b Hb. rewrite <- Hp in Hb. apply elem_of_cons in Hb as [->|Hb]; [done|]. rewrite Forall_forall in Hfits. by apply Hfits. }
  clear E Hp Hfits. unfold l in Hall, Hne. destruct (blks t) as [|b0 bt] eqn:Et.
  - unfold firstParents in He |- *. rewrite Et in He |- *. unfold CidArrsEqual in He. case_decide as Hlen; [done|].
    destruct (blks ts) as [|b0 bs]; simpl in *; [|symmetry; rewrite <- (Hall b0) by (rewrite decide_False by set_solver; by left)].
    + done.
    + destruct (bParents b0); [done|simpl in Hlen; lia].
  - simpl in Hall. rewrite decide_False in Hall by set_solver. unfold firstParents. rewrite Et. symmetry. apply Hall. by left.
Qed.

(** Adding keeps the parents of the tipsets of a bucket. *)
Lemma addTip_parents b ts t : t ∈ b → ∃ t', t' ∈ addTip b ts ∧ parentsKey t' = parentsKey t.
Proof.
  induction b as [|x b IH]; simpl; [by intros ?%elem_of_nil|]. intros Ht. destruct (sameTs x ts); [eauto|].
  assert (∃ t', t' ∈ x :: addTip b ts ∧ parentsKey t' = parentsKey t) as Hkeep.
  { apply elem_of_cons in Ht as [->|Ht]; [exists x; split; [by left|done]|]. destruct (IH Ht) as (t'&?&?). exists t'. split; [by right|done]. }
  destruct (coalesces coalesceTipsets x ts) eqn:Hc; [|done].
  destruct (NewTipSet _ _) as [ts2|e|] eqn:En; [|done..]. apply elem_of_cons in Ht as [->|Ht].
  - exists ts2. split; [by left|]. unfold parentsKey. f_equal. eapply combined_parents; [|done].
    unfold coalesces in Hc. by apply andb_true_iff in Hc as [_ ?].
  - exists t. split; [by right|done].
Qed.

Lemma Insert_Forall (P : list TipSet → Prop) sbs ts : (∀ b, P b → P (addTip b ts)) → Forall P sbs →
  RelatedToAny sbs ts = true ∨ P [ts] → Forall P (Insert sbs ts).
Proof.
  intros Hadd Hs Hts. induction Hs as [|b sbs Hb Hs IH]; simpl.
  - destruct Hts as [?|Hts]; [done|]. by constructor.
  - destruct (sameChainAs b ts) eqn:E; [constructor; auto|]. constructor; [done|]. apply IH.
    destruct Hts as [Hr|?]; [left|by right]. unfold RelatedToAny in Hr. simpl in Hr. by rewrite E in Hr.
Qed.

Lemma Insert_nonempty sbs ts : Forall (.≠ []) sbs → Forall (.≠ []) (Insert sbs ts).
Proof. intros Hs. apply Insert_Forall; [intros ? _; apply addTip_nonempty|done|by right]. Qed.

Lemma Insert_not_nil sbs ts : Insert sbs ts ≠ [].
Proof. destruct sbs as [|b sbs]; simpl; [done|]. by destruct (sameChainAs b ts). Qed.
End buckets.

(** The heaviest tipset of a list. *)
Definition isHeaviest (l : list TipSet) (t : TipSet) : Prop := t ∈ l ∧ ∀ t', t' ∈ l → ParentWeight t' ≤ ParentWeight t.

Lemma heavierOf_fold l : ∀ x, ∃ t, foldl heavierOf (Some x) l = Some t ∧ isHeaviest (x :: l) t.
Proof.
  induction l as [|y l IH]; intros x; simpl.
  { exists x. split; [done|]. split; [by left|]. intros t' ->%list_elem_of_singleton. lia. }
  unfold isHeavier. case_bool_decide as Hw.
  - destruct (IH y) as (t&E&Ht&Hmax). exists t. split; [done|]. split; [by right|].
    intros t' [->|Ht']%elem_of_cons; [|by apply Hmax]. specialize (Hmax y (list_elem_of_here _ _)). lia.
  - destruct (IH x) as (t&E&Ht&Hmax). exists t. split; [done|]. split; [set_solver|].
    intros t' [->|[->|Ht']%elem_of_cons]%elem_of_cons; [by apply Hmax; left| |by apply Hmax; right].
    specialize (Hmax x (list_elem_of_here _ _)). lia.
Qed.

Lemma heaviestTipSet_some b : b ≠ [] → ∃ t, heaviestTipSet b = Some t ∧ isHeaviest b t.
Proof. destruct b as [|x b]; [done|]. intros _. apply (heavierOf_fold b x). Qed.

Lemma bestBucket_some sbs : ∀ i j x, Forall (.≠ []) sbs →
  ∃ k t, bestBucket i (Some (j, Some x)) sbs = Ret (Some (k, t)) ∧ (k = j ∨ (i ≤ k < i + length sbs)%nat).
Proof.
  induction sbs as [|b sbs IH]; intros i j x Hs; simpl; [eauto|]. apply Forall_cons in Hs as [Hb Hs].
  destruct (heaviestTipSet_some b Hb) as (hts&E&_). rewrite E. destruct (isHeavier hts x).
  - destruct (IH (S i) i hts Hs) as (k&t&->&Hk). exists k, t. split; [done|lia].
  - destruct (IH (S i) j x Hs) as (k&t&->&Hk). exists k, t. split; [done|lia].
Qed.

Lemma Pop_some sbs : sbs ≠ [] → Forall (.≠ []) sbs → ∃ i b, sbs !! i = Some b ∧ Pop sbs = Ret (b, delete i sbs).
Proof.
  destruct sbs as [|b0 sbs]; [done|]. intros _ Hs. unfold Pop. simpl. apply Forall_cons in Hs as [Hb Hs].
  destruct (heaviestTipSet_some b0 Hb) as (hts&E&_). rewrite E.
  destruct (bestBucket_some sbs 1 0 hts Hs) as (k&t&->&Hk). cbn [mbind outcome_bind].
  destruct (lookup_lt_is_Some_2 (b0 :: sbs) k) as [b Hlk]; [simpl; lia|]. rewrite Hlk. eauto.
Qed.

Lemma Heaviest_some sbs : ∀ x, Forall (.≠ []) sbs → ∃ t, Heaviest (Some x) sbs = Ret (Some t) ∧ isHeaviest (x :: concat sbs) t.
Proof.
  induction sbs as [|b sbs IH]; intros x Hs; simpl.
  { exists x. split; [done|]. split; [by left|]. intros t' ->%list_elem_of_singleton. lia. }
  apply Forall_cons in Hs as [Hb Hs]. destruct (heaviestTipSet_some b Hb) as (hts&E&Hin&Hmaxb). rewrite E.
  assert (∀ y t, isHeaviest (y :: concat sbs) t → ParentWeight x ≤ ParentWeight y → ParentWeight hts ≤ ParentWeight y →
    y = x ∨ y = hts → isHeaviest (x :: b ++ concat sbs) t) as Hlift.
  { intros y t [Ht Hmax] Hx Hh Hy. split; [set_solver|]. intros t' Ht'.
    specialize (Hmax y (list_elem_of_here _ _)) as Hyt. apply elem_of_cons in Ht' as [->|[Ht'|Ht']%elem_of_app]; [lia| |].
    - specialize (Hmaxb t' Ht'). lia.
    - apply Hmax. by right. }
  unfold isHeavier. case_bool_decide as Hw.
  - destruct (IH hts Hs) as (t&->&Ht). exists t. split; [done|]. apply (Hlift hts); [done|lia|lia|by right].
  - destruct (IH x Hs) as (t&->&Ht). exists t. split; [done|]. apply (Hlift x); [done|lia|lia|by left].
Qed.

(** The heaviest tipset of all buckets. *)
Lemma Heaviest_none sbs : Forall (.≠ []) sbs →
  ∃ o, Heaviest None sbs = Ret o ∧ match o with Some t => isHeaviest (concat sbs) t | None => sbs = [] end.
Proof.
  destruct sbs as [|b sbs]; intros Hs; simpl; [by exists None|]. apply Forall_cons in Hs as [Hb Hs].
  destruct (heaviestTipSet_some b Hb) as (hts&E&Hin&Hmaxb). rewrite E. destruct (Heaviest_some sbs hts Hs) as (t&->&Ht&Hmax).
  exists (Some t). split; [done|]. split; [set_solver|]. intros t' [Ht'|Ht']%elem_of_app; [|apply Hmax; by right].
  specialize (Hmax hts (list_elem_of_here _ _)). specialize (Hmaxb t' Ht'). lia.
Qed.

(** ** The state of the manager *)

(** A bucket of [pend] waits for a worker: one of its tipsets extends the target of that worker. *)
Definition waitsFor (st : gmap Z workerState) (b : list TipSet) : Prop :=
  ∃ t id ws, t ∈ b ∧ st !! id = Some ws ∧ parentsKey t = tsKey (wsTs ws).

Definition queuesOk (sm : syncManager) : Prop := Forall (waitsFor (state sm)) (pend sm) ∧ Forall (.≠ []) (deferred sm).

Definition ringOk {A} (size : nat) (l : list A) (i : nat) : Prop := length l = size ∧ (i < size)%nat.

Record syncOk (sm : syncManager) : Prop := {
  so_ids : map_Forall (λ id ws, wsId ws = id ∧ 0 ≤ id < nextWorker sm) (state sm);
  so_limit : (size (state sm) ≤ MaxSyncWorkers)%nat;
  so_initial : initialSyncDone sm = false → (size (state sm) ≤ 1)%nat;
  so_start : nextWorker sm = 0 → is_Some (heads sm);
  so_next : 0 ≤ nextWorker sm;
  so_queues : queuesOk sm;
  so_recent : ringOk RecentSyncBufferSize (buf (recent sm)) (next (recent sm));
  so_history : ringOk SyncWorkerHistory (history sm) (historyI sm)
}.

(** What the choice of a target leaves alone. *)
Definition frame (sm : syncManager) :=
  (nextWorker sm, heads sm, recent sm, initialSyncDone sm, state sm, history sm, historyI sm, ticking sm).

Lemma waitsFor_nonempty st b : waitsFor st b → b ≠ [].
Proof. intros (t&_&_&Ht&_). by destruct b; [apply elem_of_nil in Ht|]. Qed.

Lemma waitsFor_mono st st' b : st ⊆ st' → waitsFor st b → waitsFor st' b.
Proof. intros Hs (t&id&ws&?&Hl&?). exists t, id, ws. split_and!; [done|by eapply lookup_weaken|done]. Qed.

Lemma syncOk_frame sm sm' : frame sm' = frame sm → queuesOk sm' → syncOk sm → syncOk sm'.
Proof. unfold frame. intros Hf Hq []. simplify_eq. split; by repeat match goal with E : _ sm' = _ |- _ => rewrite E end. Qed.

Lemma wrapUint64_next id : 0 ≤ id → id + 1 < 2 ^ 64 → wrapUint64 (id + 1) = id + 1.
Proof. intros. unfold wrapUint64. rewrite Z.mod_small; lia. Qed.

(** A new worker has a number of its own. *)
Lemma spawnWorker_ok target sm : syncOk sm → (size (state sm) < MaxSyncWorkers)%nat →
  (initialSyncDone sm = false → size (state sm) = 0%nat) → nextWorker sm + 1 < 2 ^ 64 →
  syncOk (spawnWorker target sm) ∧ nextWorker (spawnWorker target sm) = nextWorker sm + 1 ∧
  size (state (spawnWorker target sm)) = S (size (state sm)) ∧ state sm ⊆ state (spawnWorker target sm).
Proof.
  intros [Hids Hlim Hinit Hstart Hnext [Hp Hd] Hrec Hhist] Hsize Hone Hwrap.
  assert (state sm !! nextWorker sm = None) as Hfresh.
  { apply eq_None_not_Some. intros [ws Hws]. specialize (Hids _ _ Hws). simpl in Hids. lia. }
  set (ws := mkWorkerState (nextWorker sm) target (mkSnapshot (nextWorker sm) None None StageIdle 0 "" 0 0) 0).
  assert (state (spawnWorker target sm) = <[nextWorker sm := ws]> (state sm)) as Est by done.
  assert (nextWorker (spawnWorker target sm) = nextWorker sm + 1) as En by by apply wrapUint64_next.
  assert (size (state (spawnWorker target sm)) = S (size (state sm))) as Es by (rewrite Est; by apply map_size_insert_None).
  assert (state sm ⊆ state (spawnWorker target sm)) as Hsub by (rewrite Est; by apply insert_subseteq).
  split_and!; [|done..]. split; [| | | | |split| |].
  - rewrite Est, En. apply map_Forall_insert_2; [simpl; lia|]. eapply map_Forall_impl; [exact Hids|]. simpl. intros id w. lia.
  - rewrite Es. lia.
  - rewrite Es. intros Hi. rewrite (Hone Hi). done.
  - rewrite En. lia.
  - rewrite En. lia.
  - eapply Forall_impl; [exact Hp|]. intros b. by apply waitsFor_mono.
  - exact Hd.
  - exact Hrec.
  - exact Hhist.
Qed.

Section manager.
Variable coalesceTipsets : bool.
Variable Sum256 : string → string.
Variable BootstrapPeerThreshold : Z.

Abbreviation Insert := (Insert coalesceTipsets Sum256).
Abbreviation deferredLoop := (deferredLoop coalesceTipsets Sum256).
Abbreviation scheduler := (scheduler coalesceTipsets Sum256 BootstrapPeerThreshold).

Lemma Insert_waits st sbs ts : Forall (waitsFor st) sbs →
  RelatedToAny sbs ts = true ∨ (∃ id ws, st !! id = Some ws ∧ parentsKey ts = tsKey (wsTs ws)) → Forall (waitsFor st) (Insert sbs ts).
Proof.
  intros Hs Hts. apply Insert_Forall; [|done|].
  - intros b (t&id&ws&Ht&Hl&E). destruct (addTip_parents coalesceTipsets Sum256 b ts t Ht) as (t'&Ht'&E').
    exists t', id, ws. split_and!; [done..|congruence].
  - destruct Hts as [?|(id&ws&Hl&E)]; [by left|right]. exists ts, id, ws. split_and!; [by left|done..].
Qed.

Lemma workersIn_elem (r : MapRange) sm ws : ws ∈ workersIn r sm ↔ ∃ id, state sm !! id = Some ws.
Proof.
  unfold workersIn. rewrite list_elem_of_fmap. split.
  - intros ([id w]&->&Hin%rangeOf_elem). by exists id.
  - intros [id Hid]. exists (id, ws). split; [done|]. by apply rangeOf_elem.
Qed.

(** The choice of a deferred target ends. *)
Lemma deferredLoop_ok r fuel : ∀ sm, queuesOk sm → (length (deferred sm) ≤ fuel)%nat →
  ∃ sm' o, deferredLoop fuel r sm = Ret (sm', o) ∧ frame sm' = frame sm ∧ queuesOk sm'.
Proof.
  induction fuel as [|fuel IH]; intros sm [Hp Hd] Hlen.
  { destruct sm as [? ? [|? ?]]; simpl in *; [|lia]. eexists _, _. by split_and!. }
  cbn [SyncManager.deferredLoop]. destruct (deferred sm) as [|b0 rest0] eqn:Ed; [eexists _, _; split_and!; [done|done|by split; rewrite ?Ed]|]. rewrite <- Ed in *.
  destruct (Pop_some (deferred sm)) as (i&b&Hi&->); [by rewrite Ed|done|]. cbn [mbind outcome_bind].
  assert (Forall (.≠ []) (delete i (deferred sm))) as Hd' by by apply Forall_delete.
  assert (length (delete i (deferred sm)) ≤ fuel)%nat as Hlen'.
  { rewrite length_delete by by eexists. assert (length (deferred sm) ≠ 0)%nat; [by rewrite Ed|lia]. }
  rewrite Forall_lookup in Hd. destruct (heaviestTipSet_some b (Hd i b Hi)) as (h&->&_).
  set (sm1 := sm {{ deferred := delete i (deferred sm) }}).
  assert (∀ pend', Forall (waitsFor (state sm)) pend' → ∃ sm' o,
    deferredLoop fuel r (sm1 {{ pend := pend' }}) = Ret (sm', o) ∧ frame sm' = frame sm ∧ queuesOk sm') as Hloop.
  { intros pend' Hp'. destruct (IH (sm1 {{ pend := pend' }})) as (sm'&o&->&Hf&Hq); [by split|done|]. by exists sm', o. }
  destruct (Synced (recent sm1) h); [exact (Hloop (pend sm) Hp)|].
  destruct (RelatedToAny (pend sm1) h) eqn:Hrel; [apply Hloop, Insert_waits; [done|by left]|].
  destruct (workersIn (r (S fuel)) sm1) as [|ws l] eqn:Ew; [exact (Hloop (pend sm) Hp)|].
  destruct (_ || _); [exact (Hloop (pend sm) Hp)|]. case_decide as Hpar.
  - apply Hloop, Insert_waits; [done|]. right. destruct (workersIn_elem (r (S fuel)) sm1 ws) as [Hin _].
    destruct Hin as [id Hid]; [rewrite Ew; by left|]. by exists id, ws.
  - exists sm1, (Some h). split_and!; [done|done|by split].
Qed.

(** ** The handlers *)

Abbreviation selectSyncTarget := (selectSyncTarget coalesceTipsets Sum256).
Abbreviation addSyncTarget := (addSyncTarget coalesceTipsets Sum256).
Abbreviation handleWorkerStatus := (handleWorkerStatus coalesceTipsets Sum256).
Abbreviation handlePeerHead := (handlePeerHead coalesceTipsets Sum256 BootstrapPeerThreshold).

(** When a worker ends, the buckets that waited for it are taken, and the others wait for other workers. *)
Lemma PopRelated_waits st id ws sbs : st !! id = Some ws → Forall (waitsFor st) sbs →
  Forall (waitsFor (delete id st)) (PopRelated sbs (wsTs ws)).2.
Proof.
  intros Hid Hs. apply Forall_forall. intros b [Hb Hin]%list_elem_of_filter. rewrite Forall_forall in Hs.
  destruct (Hs b Hin) as (t&id'&ws'&Ht&Hl&E). exists t, id', ws'. split_and!; [done| |done].
  rewrite lookup_delete_ne; [done|]. intros <-. simplify_eq. destruct Hb. apply existsb_exists. exists t.
  split; [by apply list_elem_of_In|]. rewrite (bool_decide_true (_ = parentsKey t)) by done. by rewrite orb_true_r.
Qed.

Lemma selectSyncTarget_ok r done sm : Forall (waitsFor (state sm)) (PopRelated (pend sm) done).2 →
  Forall (.≠ []) (pend sm) → Forall (.≠ []) (deferred sm) →
  ∃ sm' o, selectSyncTarget r done sm = Ret (sm', o) ∧ frame sm' = frame sm ∧ queuesOk sm'.
Proof.
  intros Hp Hne Hd. unfold SyncManager.selectSyncTarget. destruct (PopRelated (pend sm) done) as [related rest] eqn:E. simpl in Hp.
  set (sm1 := sm {{ pend := rest }}). assert (queuesOk sm1) as Hq by by split.
  destruct (deferredLoop_ok r (length (deferred sm1)) sm1 Hq) as (sm2&o2&Edef&Hf2&Hq2); [lia|].
  change (frame sm1) with (frame sm) in Hf2. unfold selectDeferredSyncTarget.
  destruct related as [b|]; [|rewrite Edef; eauto 6].
  assert (b ≠ []) as Hb.
  { unfold PopRelated in E. destruct (filter (λ b, sameChainAs b done = true) (pend sm)) as [|b1 l] eqn:Ef; simplify_eq.
    assert (b1 ∈ pend sm) as Hin by (eapply list_elem_of_filter; rewrite Ef; by left). rewrite Forall_forall in Hne.
    specialize (Hne b1 Hin). by destruct b1. }
  destruct (heaviestTipSet_some b Hb) as (h&->&_). destruct (_ || _ || _); [rewrite Edef; eauto 6|]. by exists sm1, (Some h).
Qed.

Lemma handleWorkerStatus_ok r id err dt sm : syncOk sm → nextWorker sm + 1 < 2 ^ 64 → is_Some (state sm !! id) →
  ∃ sm', handleWorkerStatus r id err dt sm = Ret sm' ∧ syncOk sm' ∧ nextWorker sm' ≤ nextWorker sm + 1.
Proof.
  intros Hok Hwrap [ws0 Hws]. pose proof Hok as [Hids Hlim Hinit Hstart Hnext [Hp Hd] [Hr1 Hr2] [Hh1 Hh2]].
  unfold SyncManager.handleWorkerStatus. rewrite Hws. rewrite decide_True by (rewrite Hh1; exact Hh2). cbv zeta.
  set (ws := ws0 {{ wsDt := dt }}). set (sm1 := sm {{ state := _; history := _; historyI := _ }}).
  assert (S (size (state sm1)) = size (state sm)) as Hsize.
  { change (state sm1) with (delete id (state sm)). rewrite map_size_delete_Some by by eexists.
    assert (size (state sm) ≠ 0)%nat; [|lia]. intros H0%map_size_empty_inv. by rewrite H0 in Hws. }
  assert (∀ rec init, ringOk RecentSyncBufferSize (buf rec) (next rec) → (init = false → initialSyncDone sm = false) →
    ∃ sm', (res ← selectSyncTarget r (wsTs ws) (sm1 {{ recent := rec; initialSyncDone := init }}); Ret (startIf res)) = Ret sm' ∧
      syncOk sm' ∧ nextWorker sm' ≤ nextWorker sm + 1) as Hrest.
  { intros rec init Hrec Hi. set (sm2 := sm1 {{ recent := rec; initialSyncDone := init }}).
    destruct (selectSyncTarget_ok r (wsTs ws) sm2) as (sm3&o&Es&Hf3&Hq3).
    { exact (PopRelated_waits (state sm) id ws0 (pend sm) Hws Hp). }
    { eapply Forall_impl; [exact Hp|]. intros b. apply waitsFor_nonempty. }
    { exact Hd. }
    rewrite Es. cbn [mbind outcome_bind]. eexists. split; [done|].
    assert (nextWorker sm3 = nextWorker sm ∧ state sm3 = state sm1 ∧ initialSyncDone sm3 = init) as (En&Est&Ein) by by injection Hf3.
    assert (syncOk sm3) as Hok3.
    { apply (syncOk_frame (sm2 {{ pend := [] }})); [exact Hf3|exact Hq3|]. split; [| | |exact Hstart|exact Hnext|by split|exact Hrec|].
      - change (map_Forall (λ id ws, wsId ws = id ∧ 0 ≤ id < nextWorker sm) (delete id (state sm))). by apply map_Forall_delete.
      - change (size (state sm1) ≤ MaxSyncWorkers)%nat. lia.
      - intros H0. specialize (Hinit (Hi H0)). change (size (state sm1) ≤ 1)%nat. lia.
      - split; [by etrans; [apply length_insert|]|]. cbn. rewrite Hh1. by apply Nat.mod_upper_bound. }
    destruct o as [t|]; cbn [startIf]; [|split; [done|lia]]. destruct (spawnWorker_ok t sm3) as (?&->&_); [done|rewrite Est; lia| |lia|split; [done|lia]].
    rewrite Ein, Est. intros H0. specialize (Hinit (Hi H0)). lia. }
  destruct err as [e|]; cbn [mbind outcome_bind].
  - exact (Hrest (recent sm) (initialSyncDone sm) (conj Hr1 Hr2) (λ H, H)).
  - unfold Push. change (recent sm1) with (recent sm). rewrite decide_True by (rewrite Hr1; exact Hr2). cbn [mbind outcome_bind].
    apply Hrest; [|by intros [? _]%orb_false_iff]. split; simpl; [by rewrite length_insert|]. rewrite Hr1. by apply Nat.mod_upper_bound.
Qed.

Lemma relatedActive_some l ts b : relatedActive l ts = Some b →
  ∃ ws, ws ∈ l ∧ if b then parentsKey ts = tsKey (wsTs ws) else sameTs ts (wsTs ws) = true.
Proof.
  induction l as [|ws l IH]; simpl; [done|]. destruct (sameTs ts (wsTs ws)) eqn:E; [intros [= <-]; exists ws; split; [by left|done]|].
  case_decide; [intros [= <-]; exists ws; split; [by left|done]|]. intros (w&?&?)%IH. exists w. split; [by right|done].
Qed.

Lemma pend_nonempty sm : queuesOk sm → Forall (.≠ []) (pend sm).
Proof. intros [Hp _]. eapply Forall_impl; [exact Hp|]. intros b. apply waitsFor_nonempty. Qed.

(** What is done with a head that a peer reports; [o] is the target of a new worker. *)
Lemma addSyncTarget_ok r ts sm : syncOk sm → ∃ sm' o, addSyncTarget r ts sm = Ret (sm', o) ∧ frame sm' = frame sm ∧ queuesOk sm' ∧
  (o = None ∨ o = Some ts ∧ sm' = sm ∧ (size (state sm) < MaxSyncWorkers)%nat ∧ (initialSyncDone sm = false → size (state sm) = 0%nat)).
Proof.
  intros Hok. pose proof (so_queues sm Hok) as Hq. unfold SyncManager.addSyncTarget.
  destruct (Synced (recent sm) ts); [exists sm, None; split_and!; auto|].
  case_decide as Hsize.
  { exists sm, (Some ts). split_and!; [done..|]. right. split_and!; [done..|rewrite Hsize; unfold MaxSyncWorkers; lia|done]. }
  assert (∀ Hrel : RelatedToAny (pend sm) ts = true ∨ ∃ id ws, state sm !! id = Some ws ∧ parentsKey ts = tsKey (wsTs ws),
    queuesOk (sm {{ pend := Insert (pend sm) ts }})) as Hins.
  { intros Hrel. split; [|exact (proj2 Hq)]. by apply Insert_waits; [apply Hq|]. }
  destruct (relatedActive (workersIn (r 0%nat) sm) ts) as [[]|] eqn:Erel.
  - apply relatedActive_some in Erel as (ws&[id Hid]%workersIn_elem&E). eexists _, None. split_and!; [done|done| |by left].
    apply Hins. right. by exists id, ws.
  - exists sm, None. split_and!; auto.
  - destruct (RelatedToAny (pend sm) ts) eqn:Erelp; [eexists _, None; split_and!; [done|done|by apply Hins; left|by left]|].
    destruct (existsb _ _); [exists sm, None; split_and!; auto|].
    destruct (Heaviest_none (pend sm) (pend_nonempty sm Hq)) as (o&->&_). cbn [mbind outcome_bind].
    destruct (match o with Some _ => _ | None => _ end); [exists sm, None; split_and!; auto|].
    destruct (negb (initialSyncDone sm) || _) eqn:Edef.
    + eexists _, None. split_and!; [done|done| |by left]. split; [exact (proj1 Hq)|]. apply Insert_nonempty, Hq.
    + apply orb_false_iff in Edef as [Hi%negb_false_iff Hs%bool_decide_eq_false]. exists sm, (Some ts). split_and!; [done..|].
      right. split_and!; [done..|lia|by rewrite Hi].
Qed.

Lemma so_empty sm : syncOk sm → nextWorker sm = 0 → state sm = ∅.
Proof.
  intros Hok H0. apply map_empty. intros id. apply eq_None_not_Some. intros [ws Hws].
  pose proof (so_ids sm Hok id ws Hws) as Hid. simpl in Hid. lia.
Qed.

Lemma initialBuckets l : ∀ sbs, Forall (.≠ []) sbs → sbs ≠ [] ∨ l ≠ [] →
  Forall (.≠ []) (foldl Insert sbs l) ∧ foldl Insert sbs l ≠ [].
Proof.
  induction l as [|ts l IH]; intros sbs Hs Hne; simpl; [by destruct Hne|].
  apply IH; [by apply Insert_nonempty|]. left. apply Insert_not_nil.
Qed.

Lemma handlePeerHead_ok r p ts sm : syncOk sm → nextWorker sm + 1 < 2 ^ 64 →
  ∃ sm', handlePeerHead r p ts sm = Ret sm' ∧ syncOk sm' ∧ nextWorker sm' ≤ nextWorker sm + 1.
Proof.
  intros Hok Hwrap. unfold SyncManager.handlePeerHead. case_decide as Hn.
  - destruct (so_start sm Hok Hn) as [hs Ehs]. rewrite Ehs. pose proof (so_empty sm Hok Hn) as Hempty.
    assert (∀ o, (o = None → nextWorker sm = 0 → False) → syncOk (sm {{ heads := o }})) as Hheads.
    { intros o Ho. destruct Hok. split; try done. intros H0. destruct o; [done|]. by destruct (Ho eq_refl). }
    case_decide as Hfew; [eexists; split; [done|]; split; [apply Hheads; done|change (nextWorker sm ≤ nextWorker sm + 1); lia]|].
    unfold selectInitialSyncTarget. set (sm1 := sm {{ heads := _ }}). set (peerHeads := map snd _).
    destruct (initialBuckets (sortBy heightLess peerHeads) []) as [Hne Hnil]; [done| |].
    { right. intros E. assert (peerHeads ≡ₚ []) as Hp by (rewrite <- E; symmetry; apply sortBy_Permutation).
      apply Permutation_nil_r in Hp. apply fmap_nil_inv in Hp.
      assert ((p, ts) ∈ @rangeOf (r 0%nat) _ _ _ _ (default ∅ (heads sm1))) as Hin by (apply rangeOf_elem; apply lookup_insert_eq).
      rewrite Hp in Hin. by apply elem_of_nil in Hin. }
    destruct (Heaviest_none _ Hne) as ([t|]&->&Hbest); [|done]. cbn [mbind outcome_bind].
    set (sm2 := sm1 {{ heads := None }}). eexists. split; [done|].
    assert (syncOk (sm {{ heads := Some ∅ }})) as Hok1 by by apply Hheads.
    assert (size (state sm) = 0%nat) as Hsize by (rewrite Hempty; apply map_size_empty).
    destruct (spawnWorker_ok t (sm {{ heads := Some ∅ }})) as ([]&En&_); [done| |intros _; exact Hsize|exact Hwrap|].
    { change (size (state sm) < MaxSyncWorkers)%nat. rewrite Hsize. unfold MaxSyncWorkers. lia. }
    change (nextWorker (spawnWorker t sm2)) with (nextWorker (spawnWorker t (sm {{ heads := Some ∅ }}))). split.
    + split; try done. change (nextWorker (spawnWorker t sm2)) with (nextWorker (spawnWorker t (sm {{ heads := Some ∅ }}))).
      rewrite En. change (nextWorker (sm {{ heads := Some ∅ }})) with (nextWorker sm). lia.
    + rewrite En. change (nextWorker (sm {{ heads := Some ∅ }})) with (nextWorker sm). lia.
  - destruct (addSyncTarget_ok r ts sm Hok) as (sm1&o&->&Hf&Hq&Ho). cbn [mbind outcome_bind]. eexists. split; [done|].
    destruct Ho as [->|(->&->&Hsize&Hone)]; cbn [startIf].
    + split; [by apply (syncOk_frame sm)|]. injection Hf as ->. lia.
    + destruct (spawnWorker_ok ts sm Hok Hsize Hone Hwrap) as (?&->&_). split; [done|lia].
Qed.

Lemma rampUp_ok (r : nat → nat → MapRange) fuel : ∀ sm, syncOk sm → initialSyncDone sm = true → (MaxSyncWorkers ≤ size (state sm) + fuel)%nat →
  nextWorker sm + Z.of_nat fuel < 2 ^ 64 →
  ∃ sm', rampUp coalesceTipsets Sum256 fuel r sm = Ret sm' ∧ syncOk sm' ∧ nextWorker sm' ≤ nextWorker sm + Z.of_nat fuel.
Proof.
  induction fuel as [|fuel IH]; intros sm Hok Hi Hfuel Hwrap; cbn [rampUp].
  { rewrite decide_False by lia. exists sm. split_and!; [done..|lia]. }
  case_decide as Hs; [|exists sm; split_and!; [done..|lia]]. unfold selectDeferredSyncTarget.
  destruct (deferredLoop_ok (r (S fuel)) (length (deferred sm)) sm (so_queues sm Hok)) as (sm1&o&->&Hf&Hq); [lia|].
  cbn [mbind outcome_bind]. assert (syncOk sm1) as Hok1 by by apply (syncOk_frame sm).
  assert (nextWorker sm1 = nextWorker sm ∧ state sm1 = state sm ∧ initialSyncDone sm1 = initialSyncDone sm) as (En&Est&Ei) by by injection Hf.
  destruct o as [t|]; [|exists sm1; split_and!; [done..|lia]].
  destruct (spawnWorker_ok t sm1 Hok1) as (Hok2&En2&Es2&_); [by rewrite Est|by rewrite Ei, Hi|lia|].
  destruct (IH (spawnWorker t sm1) Hok2) as (sm'&->&Hok'&Hle); [exact (eq_trans Ei Hi)|rewrite Es2, Est; lia|lia|].
  exists sm'. split_and!; [done..|lia].
Qed.

(** A worker reports its end once, while it is in the state. *)
Definition possible (sm : syncManager) (e : syncEvent) : Prop :=
  match e with WorkerStatus id _ _ => is_Some (state sm !! id) | _ => True end.

Definition syncStep (sm sm' : syncManager) : Prop := ∃ r e, possible sm e ∧ scheduler r e sm = Ret sm'.

Lemma progress_ok id p sm : syncOk sm → syncOk (sm {{ state := alter (λ ws, ws {{ wsSs := report p (wsSs ws) }}) id (state sm) }}).
Proof.
  set (f := λ ws, ws {{ wsSs := report p (wsSs ws) }}). intros [Hids Hlim Hinit Hstart Hnext [Hp Hd] Hrec Hhist].
  assert (size (alter f id (state sm)) = size (state sm)) as Hsize.
  { rewrite <- !size_dom. f_equal. apply dom_alter_L. }
  split; [| | |exact Hstart|exact Hnext|split; [|exact Hd]|exact Hrec|exact Hhist].
  - intros id' ws. change (alter f id (state sm) !! id' = Some ws → wsId ws = id' ∧ 0 ≤ id' < nextWorker sm).
    rewrite lookup_alter_Some. intros [(<-&w&Hw&->)|[_ Hw]]; [|by apply Hids]. exact (Hids id w Hw).
  - exact (eq_ind_r (λ n, (n ≤ MaxSyncWorkers)%nat) Hlim Hsize).
  - intros Hi. exact (eq_ind_r (λ n, (n ≤ 1)%nat) (Hinit Hi) Hsize).
  - eapply Forall_impl; [exact Hp|]. intros b (t&id'&ws&Ht&Hl&E). destruct (decide (id = id')) as [<-|Hne].
    + exists t, id, (f ws). split_and!; [done| |done]. change (alter f id (state sm) !! id = Some (f ws)). by rewrite lookup_alter_eq, Hl.
    + exists t, id', ws. split_and!; [done| |done]. change (alter f id (state sm) !! id' = Some ws). by rewrite lookup_alter_ne.
Qed.

Lemma scheduler_ok r e sm : syncOk sm → nextWorker sm + 5 < 2 ^ 64 → possible sm e →
  ∃ sm', scheduler r e sm = Ret sm' ∧ syncOk sm' ∧ nextWorker sm' ≤ nextWorker sm + 5.
Proof.
  intros Hok Hwrap Hpos. destruct e as [p ts|id err dt| |id p]; cbn [SyncManager.scheduler].
  - destruct (handlePeerHead_ok (r 0%nat) p ts sm Hok) as (sm'&->&?&?); [lia|]. exists sm'. split_and!; [done..|lia].
  - destruct (handleWorkerStatus_ok (r 0%nat) id err dt sm Hok) as (sm'&->&?&?); [lia|done|]. exists sm'. split_and!; [done..|lia].
  - destruct (ticking sm && initialSyncDone sm) eqn:E; [|exists sm; split_and!; [done..|lia]].
    apply andb_true_iff in E as [_ Hi].
    destruct (rampUp_ok r MaxSyncWorkers (sm {{ ticking := false }})) as (sm'&E&?&Hle); [by destruct Hok|done|lia|done|].
    unfold handleInitialSyncDone. rewrite E. exists sm'. split_and!; [done..|]. exact Hle.
  - eexists. split; [done|]. split; [by apply progress_ok|]. change (nextWorker sm ≤ nextWorker sm + 5). lia.
Qed.

Lemma NewSyncManager_ok : syncOk NewSyncManager.
Proof.
  assert (size (state NewSyncManager) = 0%nat) as H0 by apply map_size_empty.
  split; [apply map_Forall_empty|rewrite H0; unfold MaxSyncWorkers; lia|rewrite H0; lia|by eexists|done|by split|..];
    (split; [done|]; by apply Nat.lt_0_succ).
Qed.

Lemma syncReachable_ok n : ∀ sm, 5 * Z.of_nat n < 2 ^ 64 → nsteps syncStep n NewSyncManager sm →
  syncOk sm ∧ nextWorker sm ≤ 5 * Z.of_nat n.
Proof.
  induction n as [|n IH]; intros sm Hn Hs.
  - inversion Hs; subst. split; [apply NewSyncManager_ok|done].
  - apply nsteps_inv_r in Hs as (sm1&Hs1&r&e&Hpos&E). destruct (IH sm1) as [Hok1 Hle]; [lia|done|].
    destruct (scheduler_ok r e sm1 Hok1) as (sm'&E'&?&?); [lia|done|]. rewrite E in E'. injection E' as <-. split; [done|lia].
Qed.

(** C16. In every state that the manager reaches, whatever peers and workers report and in whatever order the
    maps are read, at most 5 workers run, and one before the initial synchronisation is done; their
    numbers are different; every bucket that is pending has a tipset that extends the target of a
    running worker, so that nothing is pending when no worker runs; and every handler returns without
    a panic.  (The numbers of the workers are 64-bit, which is enough for n events.) *)
Theorem sync_manager_invariant n sm : 5 * (Z.of_nat n + 1) < 2 ^ 64 → nsteps syncStep n NewSyncManager sm →
  syncOk sm ∧ (state sm = ∅ → pend sm = []) ∧ ∀ r e, possible sm e → is_ret (scheduler r e sm).
Proof.
  intros Hn Hs. destruct (syncReachable_ok n sm) as [Hok Hnext]; [lia|done|].
  split_and!; [done| |].
  - intros Hst. destruct (so_queues sm Hok) as [Hp _]. rewrite Hst in Hp. destruct (pend sm) as [|b l]; [done|].
    apply Forall_cons in Hp as [(t&id&ws&_&Hl&_) _]. done.
  - intros r e Hpos. destruct (scheduler_ok r e sm Hok) as (sm'&->&_); [lia|done|by eexists].
Qed.
End manager.

(** ** Heads that are reported *)

Lemma sameTs_iff ts ts' : sameTs ts ts' = true ↔ height ts = height ts' ∧ cids ts = cids ts'.
Proof. unfold sameTs. by rewrite Equals_iff. Qed.

Lemma sameTs_sym ts ts' : sameTs ts ts' = true → sameTs ts' ts = true.
Proof. rewrite !sameTs_iff. by intros [-> ->]. Qed.

(** A tipset that was synchronised lately, is being synchronised or is kept for later. *)
Definition tracked (sm : syncManager) (t : TipSet) : Prop :=
  Some t ∈ buf (recent sm) ∨ (∃ id ws, state sm !! id = Some ws ∧ wsTs ws = t) ∨ t ∈ concat (pend sm) ∨ t ∈ concat (deferred sm).

(** The tipset itself or a heavier one is. *)
Definition covered (sm : syncManager) (ts : TipSet) : Prop :=
  ∃ t, tracked sm t ∧ (sameTs ts t = true ∨ ParentWeight ts < ParentWeight t).

Section heads.
Variable Sum256 : string → string.
Variable BootstrapPeerThreshold : Z.

Abbreviation Insert := (Insert false Sum256).
Abbreviation handlePeerHead := (handlePeerHead false Sum256 BootstrapPeerThreshold).

Lemma addTip_elem b ts : ∃ t, t ∈ addTip false Sum256 b ts ∧ sameTs ts t = true.
Proof.
  induction b as [|x b (t&Ht&E)]; simpl; [exists ts; split; [by left|by apply sameTs_iff]|].
  destruct (sameTs x ts) eqn:Ex; [exists x; split; [by left|by apply sameTs_sym]|]. exists t. split; [by right|done].
Qed.

Lemma Insert_elem sbs ts : ∃ t, t ∈ concat (Insert sbs ts) ∧ sameTs ts t = true.
Proof.
  induction sbs as [|b sbs (t&Ht&E)]; simpl; [exists ts; split; [by left|by apply sameTs_iff]|].
  destruct (sameChainAs b ts); simpl.
  - destruct (addTip_elem b ts) as (t'&Ht'&E'). exists t'. split; [apply elem_of_app; by left|done].
  - exists t. split; [apply elem_of_app; by right|done].
Qed.

Lemma Synced_covered sm ts : Synced (recent sm) ts = true → covered sm ts.
Proof.
  intros ([t|]&Hin&Ht)%existsb_exists; [|done]. apply list_elem_of_In in Hin. exists t. split; [by left|].
  apply orb_true_iff in Ht as [Ht|Ht]; [left; by apply sameTs_sym|right]. by apply bool_decide_eq_true in Ht.
Qed.

Lemma pend_covered sm ts : covered (sm {{ pend := Insert (pend sm) ts }}) ts.
Proof. destruct (Insert_elem (pend sm) ts) as (t&Ht&E). exists t. split; [right; right; by left|by left]. Qed.

Lemma deferred_covered sm ts : covered (sm {{ deferred := Insert (deferred sm) ts }}) ts.
Proof. destruct (Insert_elem (deferred sm) ts) as (t&Ht&E). exists t. split; [by do 3 right|by left]. Qed.

Lemma spawned_covered ts sm : covered (spawnWorker ts sm) ts.
Proof.
  exists ts. split; [|left; by apply sameTs_iff]. right. left. eexists (nextWorker sm), _. split; [apply lookup_insert_eq|done].
Qed.

(** No tipset that is being synchronised or pending is heavier. *)
Definition heaviestKnown (sm : syncManager) (ts : TipSet) : Prop :=
  (∀ id ws, state sm !! id = Some ws → ParentWeight (wsTs ws) ≤ ParentWeight ts) ∧
  (∀ t, t ∈ concat (pend sm) → ParentWeight t ≤ ParentWeight ts).

Lemma addSyncTarget_covered r ts sm : syncOk sm → ∃ sm' o, addSyncTarget false Sum256 r ts sm = Ret (sm', o) ∧
  ((o = None ∧ covered sm' ts ∧ state sm' = state sm) ∨ (o = Some ts ∧ sm' = sm ∧ heaviestKnown sm ts)).
Proof.
  intros Hok. unfold addSyncTarget. destruct (Synced (recent sm) ts) eqn:Esync.
  { eexists sm, None. split; [done|]. left. split_and!; [done|by apply Synced_covered|done]. }
  case_decide as Hsize.
  { apply map_size_empty_inv in Hsize. exists sm, (Some ts). split; [done|]. right. split_and!; [done..|].
    destruct (so_queues sm Hok) as [Hp _]. split; [intros id ws; by rewrite Hsize|].
    rewrite Hsize in Hp. destruct (pend sm) as [|b l]; [by intros t ?%elem_of_nil|]. by apply Forall_cons in Hp as [(?&?&?&_&?&_) _]. }
  destruct (relatedActive (workersIn (r 0%nat) sm) ts) as [[]|] eqn:Erel.
  - eexists _, None. split; [done|]. left. split_and!; [done|apply pend_covered|done].
  - apply relatedActive_some in Erel as (ws&[id Hid]%workersIn_elem&E). eexists _, None. split; [done|]. left.
    split_and!; [done| |done]. exists (wsTs ws). split; [|by left]. right. left. by exists id, ws.
  - destruct (RelatedToAny (pend sm) ts); [eexists _, None; split; [done|]; left; split_and!; [done|apply pend_covered|done]|].
    destruct (existsb _ _) eqn:Eact.
    { apply existsb_exists in Eact as (ws&Hin%list_elem_of_In&Hw%bool_decide_eq_true). apply workersIn_elem in Hin as [id Hid].
      eexists _, None. split; [done|]. left. split_and!; [done| |done]. exists (wsTs ws). split; [|by right]. right. left. by exists id, ws. }
    destruct (Heaviest_none (pend sm) (pend_nonempty sm (so_queues sm Hok))) as (o&->&Ho). cbn [mbind outcome_bind].
    destruct (match o with Some _ => _ | None => _ end) eqn:Epend.
    { destruct o as [x|]; [|done]. apply bool_decide_eq_true in Epend. destruct Ho as [Hx _]. eexists _, None. split; [done|]. left.
      split_and!; [done| |done]. exists x. split; [right; right; by left|by right]. }
    destruct (_ || _); [eexists _, None; split; [done|]; left; split_and!; [done|apply deferred_covered|done]|].
    exists sm, (Some ts). split; [done|]. right. split_and!; [done..|]. split.
    + intros id ws Hid. destruct (decide (ParentWeight (wsTs ws) ≤ ParentWeight ts)) as [|Hw]; [done|]. exfalso.
      apply not_true_iff_false in Eact. apply Eact, existsb_exists. exists ws. split; [apply list_elem_of_In, workersIn_elem; by exists id|].
      apply bool_decide_eq_true. lia.
    + intros t Ht. destruct o as [x|]; [|rewrite Ho in Ht; by apply elem_of_nil in Ht]. apply bool_decide_eq_false in Epend.
      destruct Ho as [_ Hmax]. specialize (Hmax t Ht). lia.
Qed.

(** No head is lost when it is reported after the bootstrap: afterwards the tipset itself or a heavier one was synchronised
    lately, is being synchronised, or is kept in one of the two sets of buckets.  At most one worker is
    started; its target is the reported tipset, and no tipset that is being synchronised or pending
    is heavier.  (Without the coalescing of tipsets, which an environment variable turns on.) *)
Theorem reported_head_is_covered r p ts sm : syncOk sm → nextWorker sm ≠ 0 →
  ∃ sm', handlePeerHead r p ts sm = Ret sm' ∧ covered sm' ts ∧
    (state sm' = state sm ∨
     ∃ ws, state sm' = <[nextWorker sm := ws]> (state sm) ∧ wsTs ws = ts ∧ heaviestKnown sm ts).
Proof.
  intros Hok Hn. unfold SyncManager.handlePeerHead. rewrite decide_False by done.
  destruct (addSyncTarget_covered r ts sm Hok) as (sm'&o&->&Ho). cbn [mbind outcome_bind]. eexists. split; [done|].
  destruct Ho as [(->&Hc&Hs)|(->&->&Hh)]; cbn [startIf]; [split; [done|by left]|].
  split; [apply spawned_covered|]. right. eexists. by split_and!.
Qed.
End heads.

(** ** Where deferred chains are lost, and what is synchronised twice *)

(** Without workers the loop over them does not return a target: all deferred buckets are thrown away. *)
Lemma deferred_lost_without_workers coalesce hash r sm : queuesOk sm → state sm = ∅ → pend sm = [] →
  ∃ sm', selectDeferredSyncTarget coalesce hash r sm = Ret (sm', None) ∧ deferred sm' = [].
Proof.
  intros [_ Hd] Hst Hp. unfold selectDeferredSyncTarget. remember (length (deferred sm)) as fuel eqn:Ef.
  assert (length (deferred sm) ≤ fuel)%nat as Hlen by lia. clear Ef. revert sm Hd Hst Hp Hlen. induction fuel as [|fuel IH]; intros sm Hd Hst Hp Hlen.
  { destruct sm as [? ? [|? ?]]; simpl in *; [by eexists|lia]. }
  cbn [deferredLoop]. destruct (deferred sm) as [|b0 rest0] eqn:Ed; [by exists sm|]. rewrite <- Ed in *.
  destruct (Pop_some (deferred sm)) as (i&b&Hi&->); [by rewrite Ed|done|]. cbn [mbind outcome_bind].
  rewrite Forall_lookup in Hd. destruct (heaviestTipSet_some b (Hd i b Hi)) as (h&->&_). rewrite <- Forall_lookup in Hd.
  set (sm1 := sm {{ deferred := delete i (deferred sm) }}). change (pend sm1) with (pend sm). rewrite Hp. cbn [RelatedToAny existsb].
  assert (workersIn (r (S fuel)) sm1 = []) as ->.
  { destruct (workersIn (r (S fuel)) sm1) as [|ws l] eqn:Ew; [done|]. destruct (workersIn_elem (r (S fuel)) sm1 ws) as [[id Hid] _]; [rewrite Ew; by left|].
    change (state sm !! id = Some ws) in Hid. by rewrite Hst in Hid. }
  destruct (IH sm1) as (sm'&E&Hnil); [by apply Forall_delete|done|done| |destruct (Synced (recent sm1) h); eauto].
  change (length (delete i (deferred sm)) ≤ fuel)%nat. rewrite length_delete by by eexists. assert (length (deferred sm) ≠ 0)%nat; [by rewrite Ed|lia].
Qed.

(** ** Small histories *)

Definition tip (c p : string) (h w : Z) : TipSet := mkTipSet [c] [mkBlockHeader c c [p] h 0 100 "m" w] h.

#[local] Instance possible_dec sm e : Decision (possible sm e).
Proof. destruct e; simpl; apply _. Defined.

Abbreviation step1 := (scheduler false id 1 (λ _ _, inOrderOfKeys)).

Fixpoint runAll (l : list syncEvent) (sm : syncManager) : outcome syncManager :=
  match l with
  | [] => Ret sm
  | e :: l' => if decide (possible sm e) then sm1 ← step1 e sm; runAll l' sm1 else Crash
  end.

Lemma runAll_steps l : ∀ sm sm', runAll l sm = Ret sm' → nsteps (syncStep false id 1) (length l) sm sm'.
Proof.
  induction l as [|e l IH]; simpl; intros sm sm' H; [by simplify_eq; constructor|]. case_decide as Hp; [|done].
  apply bind_ret_inv in H as (sm1&H1&H). econstructor; [|by apply IH]. by exists (λ _ _, inOrderOfKeys), e.
Qed.

(** The targets of the workers *)
Definition targets (sm : syncManager) : list (Z * list string) := map (λ p, (p.1, cids (wsTs p.2))) (map_to_list (state sm)).

Definition firstHistory : list syncEvent :=
  [PeerHead "p" (tip "a" "g" 1 10); PeerHead "q" (tip "f" "x" 1 20); PeerHead "p" (tip "b" "a" 2 15);
   Progress 0 (ToHeight 1); WorkerStatus 0 None 7].

(** The extension b of a is synchronised next; the heavier fork f waits. *)
Lemma firstHistory_runs : ∃ sm, runAll firstHistory NewSyncManager = Ret sm ∧ targets sm = [(1, ["b"])] ∧
  map (map cids) (deferred sm) = [[["f"]]] ∧ pend sm = [].
Proof. eexists. split; [vm_compute; reflexivity|]. vm_compute. done. Qed.

Lemma sync_manager_invariant_witness : ∃ sm, nsteps (syncStep false id 1) 5 NewSyncManager sm ∧ targets sm = [(1, ["b"])] ∧ syncOk sm.
Proof.
  destruct firstHistory_runs as (sm&Hrun&Ht&_). exists sm. pose proof (runAll_steps _ _ _ Hrun) as Hs.
  split_and!; [exact Hs|exact Ht|]. exact (proj1 (sync_manager_invariant false id 1 5 sm ltac:(lia) Hs)).
Defined.

Lemma reported_head_is_covered_witness : ∃ sm sm', nextWorker sm ≠ 0 ∧
  handlePeerHead false id 1 (λ _, inOrderOfKeys) "q" (tip "f" "x" 1 20) sm = Ret sm' ∧ covered sm' (tip "f" "x" 1 20).
Proof.
  destruct (handlePeerHead_ok false id 1 (λ _, inOrderOfKeys) "p" (tip "a" "g" 1 10) NewSyncManager NewSyncManager_ok) as (sm&E&Hok&_); [done|].
  assert (nextWorker sm ≠ 0) as Hn by (vm_compute in E; injection E as <-; done).
  destruct (reported_head_is_covered id 1 (λ _, inOrderOfKeys) "q" (tip "f" "x" 1 20) sm Hok Hn) as (sm'&E'&Hc&_).
  exists sm, sm'. split_and!; [exact Hn|exact E'|exact Hc].
Defined.

(** The fork is dropped when the last worker ends: no worker is left and nothing is kept. *)
Lemma deferred_fork_is_lost : ∃ sm,
  runAll [PeerHead "p" (tip "a" "g" 1 10); PeerHead "q" (tip "f" "x" 1 20); WorkerStatus 0 None 7] NewSyncManager = Ret sm ∧
  state sm = ∅ ∧ deferred sm = [] ∧ pend sm = [].
Proof. eexists. split; [vm_compute; reflexivity|]. by vm_compute. Qed.

(** A head that was deferred and later pending is synchronised by two workers at once. *)
Definition doubleHistory : list syncEvent :=
  [PeerHead "p" (tip "a" "g" 1 10); WorkerStatus 0 None 7;
   PeerHead "p" (tip "f1" "x1" 2 11); PeerHead "p" (tip "f2" "x2" 2 12); PeerHead "p" (tip "f3" "x3" 2 13);
   PeerHead "p" (tip "f4" "x4" 2 14); PeerHead "p" (tip "f5" "x5" 2 15);
   PeerHead "q" (tip "t" "s" 4 30); PeerHead "q" (tip "s" "f5" 3 16); PeerHead "r" (tip "t" "s" 4 30);
   WorkerStatus 5 None 7; WorkerStatus 1 (Some "failed") 7].

Lemma same_target_twice : ∃ sm, runAll doubleHistory NewSyncManager = Ret sm ∧ (6, ["t"]) ∈ targets sm ∧ (7, ["t"]) ∈ targets sm.
Proof. eexists. split; [vm_compute; reflexivity|]. vm_compute. split; repeat (first [by left|right]). Qed.
