(* ===== verification/MsgPool.v ===== *)
(** * The message pool (chain/messagepool/messagepool.go, config.go)

    The pool keeps a set of pending messages per sender, where senders are known by their key
    addresses.  The chain, the datastore of local messages, the signature schemes and the caches are
    reached through interfaces, which are classes here.  A call has its errors as values; [None]
    stands for a loop that does not end.  The journal and the metrics are left out. *)

From coqutil Require Import Datatypes.RecordSetters.
From stdpp Require Import strings numbers base gmap fin_maps sets list.
From S2P Require Import Prelude GoStrings GoSort GoFloat GoLru FileTypes TipSets GasFees ProofLog SealTasks SealResources.
From S2P Require Import MsgSet MsgChains MsgSelect.
Import DoubleBraceUpdate.
Local Open Scope Z_scope.

(** ** What the pool uses *)

(** [types.ChainMsg]: a message with or without its signature. *)
Inductive ChainMsg := SignedMsg (m : SignedMessage) | PlainMsg (m : SignedMessage).

(** The interface [Provider] (provider.go); a result on the right is an error.  The messages of a
    block are those of BLS senders, whose signatures are not looked at, and the others. *)
Class Provider := {
  GetActorAfter : Address → TipSet → Actor + string;
  StateAccountKeyAtFinality : Address → TipSet → Address + string;
  MessagesForBlock : BlockHeader → (list SignedMessage * list SignedMessage) + string;
  LoadTipSet : string → TipSet + string;
  ChainComputeBaseFee : TipSet → Z + string;
  PutMessage : ChainMsg → option string;
  PubSubPublish : string → option string
}.

(** The datastore of local messages and the decoder of its entries: errors of writing and
    deleting, and what a query reads. *)
Class LocalDatastore := {
  NewKey : string → string;
  putError : string → option string;
  deleteError : string → option string;
  Query : gmap string string → list (string + string) + string;
  UnmarshalSigned : string → SignedMessage + string
}.

(** The registered signature schemes, the protocol of an address and the hash of the signature
    cache. *)
Class SigShims := {
  shimVerify : SigType → option (string → Address → string → option string);
  Protocol : Address → Z;
  Sum256 : string → string
}.

(** ** State *)

Record MpoolConfig := mkMpoolConfig {
  PriorityAddrs : list Address;
  SizeLimitHigh : Z;
  SizeLimitLow : Z;
  ReplaceByFeeRatio : SpecFloat.spec_float;
  PruneCooldown : Z;
  GasLimitOverestimation : SpecFloat.spec_float
}.

Inductive MpoolUpdate := MpoolAdd (m : SignedMessage) | MpoolRemove (m : SignedMessage).

(** The channels [pruneTrigger], [repubTrigger] and [pruneCooldown] hold at most one element;
    [published] is what went to the network, [changes] to the subscribers. *)
Record MessagePool `{LruCache} := mkMessagePool {
  localAddrs : gset Address;
  pending : gmap Address msgSet;
  keyCache : gmap Address Address;
  curTs : TipSet;
  cfg : MpoolConfig;
  currentSize : Z;
  pruneTrigger : bool;
  pruneCooldown : bool;
  repubTrigger : bool;
  republished : gset Cid;
  localMsgs : gmap string string;
  blsSigCache : lru Cid Signature;
  sigValCache : lru string unit;
  nonceCache : lru (string * Address) Z;
  changes : list MpoolUpdate;
  published : list string
}.

(** ** Calls *)

Definition pool `{LruCache} (A : Type) : Type := MessagePool → option (MessagePool * (A + poolErr)).

Section monad.
Context `{LruCache}.

#[global] Instance pool_ret : MRet pool := λ A a mp, Some (mp, inl a).
#[global] Instance pool_bind : MBind pool := λ A B f m mp,
  match m mp with
  | None => None
  | Some (mp', inl a) => f a mp'
  | Some (mp', inr e) => Some (mp', inr e)
  end.

Definition throw {A} (e : poolErr) : pool A := λ mp, Some (mp, inr e).
Definition read {A} (f : MessagePool → A) : pool A := λ mp, Some (mp, inl (f mp)).
Definition update (f : MessagePool → MessagePool) : pool unit := λ mp, Some (f mp, inl tt).

(** A result of another component, and an error that is wrapped. *)
Definition ask {A} (r : A + string) : pool A := λ mp,
  Some (mp, match r with inl a => inl a | inr e => inr (OtherErr e) end).
Definition askSoft {A} (m : pool A) : pool A := λ mp,
  match m mp with
  | Some (mp', inr _) => Some (mp', inr (Wraps ErrSoftValidationFailure))
  | r => r
  end.
Definition must (err : option string) : pool unit := λ mp,
  Some (mp, match err with None => inl tt | Some e => inr (OtherErr e) end).

(** The error is looked at and not returned. *)
Definition attempt {A} (m : pool A) : pool (A + poolErr) := λ mp,
  match m mp with Some (mp', r) => Some (mp', inl r) | None => None end.

(** Only an error leaves the loop. *)
Fixpoint forEach {A} (f : A → pool unit) (l : list A) : pool unit :=
  match l with
  | [] => mret tt
  | a :: l' => f a ;; forEach f l'
  end.
End monad.

(** ** Addresses and sets *)

Section pool.
Context `{LruCache} `{Provider}.

Definition resolveToKey (addr : Address) : pool Address :=
  cached ← read keyCache;
  match cached !! addr with
  | Some a => mret a
  | None =>
      ts ← read curTs;
      ka ← ask (StateAccountKeyAtFinality addr ts);
      update (λ mp, mp {{ keyCache := <[ka := ka]> (<[addr := ka]> (keyCache mp)) }}) ;;
      mret ka
  end.

(** A pointer to a set is the key that it is pending for. *)
Definition getPendingMset (addr : Address) : pool (option (Address * msgSet)) :=
  ra ← resolveToKey addr;
  sets ← read pending;
  mret (match sets !! ra with Some ms => Some (ra, ms) | None => None end).

Definition storeMset (ra : Address) (ms : msgSet) : pool unit :=
  update (λ mp, mp {{ pending := <[ra := ms]> (pending mp) }}).

Definition setPendingMset (addr : Address) (ms : msgSet) : pool Address :=
  ra ← resolveToKey addr;
  storeMset ra ms ;;
  mret ra.

Definition deletePendingMset (addr : Address) : pool unit :=
  ra ← resolveToKey addr;
  update (λ mp, mp {{ pending := delete ra (pending mp) }}).

Definition clearPending : pool unit := update (λ mp, mp {{ pending := ∅ }}).

Definition isLocal (addr : Address) : pool bool :=
  ra ← resolveToKey addr;
  locals ← read localAddrs;
  mret (bool_decide (ra ∈ locals)).

Definition setLocal (addr : Address) : pool unit :=
  ra ← resolveToKey addr;
  update (λ mp, mp {{ localAddrs := {[ra]} ∪ localAddrs mp }}).

(** ** State of the sender on the chain *)

Definition getStateNonce (addr : Address) (ts : TipSet) : pool Z :=
  let nk := (Key (Some ts), addr) in
  cache ← read nonceCache;
  let '(n, cache') := lruGet cache nk in
  update (λ mp, mp {{ nonceCache := cache' }}) ;;
  match n with
  | Some n => mret n
  | None =>
      act ← ask (GetActorAfter addr ts);
      update (λ mp, mp {{ nonceCache := lruAdd (nonceCache mp) nk (actNonce act) }}) ;;
      mret (actNonce act)
  end.

Definition getStateBalance (addr : Address) (ts : TipSet) : pool Z :=
  act ← ask (GetActorAfter addr ts);
  mret (actBalance act).

Definition getNonceLocked (addr : Address) (ts : TipSet) : pool Z :=
  stateNonce ← getStateNonce addr ts;
  o ← getPendingMset addr;
  mret (match o with
        | Some (_, ms) => if decide (nextNonce ms < stateNonce) then stateNonce else nextNonce ms
        | None => stateNonce
        end).

Definition GetNonce (addr : Address) : pool Z :=
  ts ← read curTs;
  getNonceLocked addr ts.

(** ** Checks *)

Definition minimumBaseFee : Z := MinimumBaseFee.
Definition baseFeeLowerBoundFactor : Z := 10.
Definition baseFeeLowerBoundFactorConservative : Z := 100.
Definition MaxMessageSize : Z := 65536.
Definition NewestNetworkVersion : Z := 17.

Definition getBaseFeeLowerBound (baseFee factor : Z) : Z :=
  let lower := baseFee / factor in
  if decide (lower < minimumBaseFee) then minimumBaseFee else lower.

Context `{MessageCodec} `{SigShims} `{LocalDatastore}.
(** [build.ZeroAddress] *)
Variable ZeroAddress : Address.
Variable UpgradeCalicoHeight : Z.

Definition sigCacheKey (m : SignedMessage) : string + string :=
  match sigType (smSignature m) with
  | SigTypeBLS =>
      if decide (String.length (sigData (smSignature m)) ≠ 96%nat) then inr "bls signature incorrectly sized"
      else inl (Sum256 (SignedCid m +:+ sigData (smSignature m)))
  | SigTypeSecp256k1 => inl (SignedCid m)
  | _ => inr "unrecognized signature type"
  end.

(** [sigs.Verify] (lib/sigs/sigs.go) *)
Definition Verify (sig : Signature) (addr : Address) (msg : string) : option string :=
  if decide (Protocol addr = 0) then Some "must resolve ID addresses before using them to verify a signature"
  else match shimVerify (sigType sig) with
       | None => Some "cannot verify signature of unsupported type"
       | Some verify => verify (sigData sig) addr msg
       end.

Definition VerifyMsgSig (m : SignedMessage) : pool unit :=
  sck ← ask (sigCacheKey m);
  cache ← read sigValCache;
  let '(seen, cache') := lruGet cache sck in
  update (λ mp, mp {{ sigValCache := cache' }}) ;;
  match seen with
  | Some _ => mret tt
  | None =>
      must (Verify (smSignature m) (smFrom m) (MessageCid m)) ;;
      update (λ mp, mp {{ sigValCache := lruAdd (sigValCache mp) sck tt }})
  end.

Definition checkMessage (m : SignedMessage) : pool unit :=
  if decide (MaxMessageSize < Size m) then throw (Wraps ErrMessageTooBig)
  else
    must (ValidForBlockInclusion AddressUndef ZeroAddress (VMMessage m) 0 NewestNetworkVersion) ;;
    if decide (smTo m = AddressUndef) then throw (Wraps ErrInvalidToAddr)
    else if decide (TotalFilecoinInt ≤ smValue m) then throw (Wraps ErrMessageValueTooHigh)
    else if decide (smGasFeeCap m < minimumBaseFee) then throw (Wraps ErrGasFeeCapTooLow)
    else VerifyMsgSig m.

(** The result tells whether the message is to be published now. *)
Definition verifyMsgBeforeAdd (m : SignedMessage) (ts : TipSet) (local : bool) : pool bool :=
  let minGas := Total (OnChainMessage (PricelistByEpoch UpgradeCalicoHeight (height ts + 1)) (ChainLength m)) in
  must (ValidForBlockInclusion AddressUndef ZeroAddress (VMMessage m) minGas NewestNetworkVersion) ;;
  baseFee ← match blks ts with
            | b :: _ => mret (ParentBaseFee b)
            | [] => ask (ChainComputeBaseFee ts)
            end;
  if decide (smGasFeeCap m < getBaseFeeLowerBound baseFee baseFeeLowerBoundFactorConservative)
  then if local then mret false else throw (Wraps ErrSoftValidationFailure)
  else mret local.

Definition checkBalance (m : SignedMessage) (ts : TipSet) : pool unit :=
  balance ← askSoft (getStateBalance (smFrom m) ts);
  if decide (balance < RequiredFunds m) then throw (Wraps ErrNotEnoughFunds)
  else
    o ← getPendingMset (smFrom m);
    let required := RequiredFunds m + match o with Some (_, ms) => getRequiredFunds ms (smNonce m) | None => 0 end in
    if decide (balance < required) then throw (Wraps ErrSoftValidationFailure) else mret tt.

(** ** Adding *)

Definition addLocal (m : SignedMessage) : pool unit :=
  setLocal (smFrom m) ;;
  let k := NewKey (SignedCid m) in
  must (putError k) ;;
  update (λ mp, mp {{ localMsgs := <[k := Serialize m]> (localMsgs mp) }}).

(** [mset.add] on the set that is pending for [ra]. *)
Definition addToMset (ra : Address) (ms : msgSet) (m : SignedMessage) (strict untrusted : bool) : pool bool := λ mp,
  match add ms m strict untrusted with
  | None => None
  | Some (ms', r) => Some (mp {{ pending := <[ra := ms']> (pending mp) }}, r)
  end.

Definition countAdded (mp : MessagePool) : MessagePool :=
  let size := currentSize mp + 1 in
  mp {{ currentSize := size; pruneTrigger := pruneTrigger mp || bool_decide (SizeLimitHigh (cfg mp) < size) }}.

(** The last part of [addLocked], with the set of the sender at hand. *)
Definition addToSet (ra : Address) (ms : msgSet) (m : SignedMessage) (strict untrusted : bool) : pool unit :=
  incr ← addToMset ra ms m strict untrusted;
  (if (incr : bool) then update countAdded else mret tt) ;;
  update (λ mp, mp {{ changes := changes mp ++ [MpoolAdd m] }}).

(** The set of a sender, made with the nonce of the chain when there is none. *)
Definition getOrCreateMset (from : Address) : pool (Address * msgSet) :=
  o ← getPendingMset from;
  match o with
  | Some p => mret p
  | None =>
      ts ← read curTs;
      nonce ← getStateNonce from ts;
      ra ← setPendingMset from (newMsgSet nonce);
      mret (ra, newMsgSet nonce)
  end.

Definition addLocked (m : SignedMessage) (strict untrusted : bool) : pool unit :=
  (if decide (sigType (smSignature m) = SigTypeBLS)
   then update (λ mp, mp {{ blsSigCache := lruAdd (blsSigCache mp) (SignedCid m) (smSignature m) }}) else mret tt) ;;
  must (PutMessage (SignedMsg m)) ;;
  must (PutMessage (PlainMsg m)) ;;
  '(ra, ms) ← getOrCreateMset (smFrom m);
  addToSet ra ms m strict untrusted.

Definition checkNonce (m : SignedMessage) (ts : TipSet) : pool unit :=
  snonce ← askSoft (getStateNonce (smFrom m) ts);
  if decide (smNonce m < snonce) then throw (Wraps ErrNonceTooLow) else mret tt.

Definition addTs (m : SignedMessage) (ts : TipSet) (local untrusted : bool) : pool bool :=
  checkNonce m ts ;;
  publish ← verifyMsgBeforeAdd m ts local;
  checkBalance m ts ;;
  addLocked m (negb local) untrusted ;;
  (if local then addLocal m else mret tt) ;;
  mret publish.

(** The pool is made with a head, so the test of [curTs] for nil is left out. *)
Definition addLoaded (m : SignedMessage) : pool unit :=
  checkMessage m ;;
  ts ← read curTs;
  checkNonce m ts ;;
  verifyMsgBeforeAdd m ts true ;;
  checkBalance m ts ;;
  addLocked m false false.

Definition addSkipChecks (m : SignedMessage) : pool unit := addLocked m false false.

Definition publishMsg (m : SignedMessage) : pool unit :=
  must (PubSubPublish (Serialize m)) ;;
  update (λ mp, mp {{ published := published mp ++ [Serialize m] }}).

(** [Push] and [PushUntrusted] differ in the last argument of [addTs]. *)
Definition pushWith (untrusted : bool) (m : SignedMessage) : pool Cid :=
  checkMessage m ;;
  ts ← read curTs;
  publish ← addTs m ts true untrusted;
  (if (publish : bool) then publishMsg m else mret tt) ;;
  mret (SignedCid m).
Definition Push : SignedMessage → pool Cid := pushWith false.
Definition PushUntrusted : SignedMessage → pool Cid := pushWith true.

Definition Add (m : SignedMessage) : pool unit :=
  checkMessage m ;;
  ts ← read curTs;
  addTs m ts false false ;;
  mret tt.

(** ** Removing *)

Definition rmFromMset (ra : Address) (ms : msgSet) (nonce : Z) (applied : bool) : pool msgSet := λ mp,
  match rm ms nonce applied with
  | None => None
  | Some ms' => Some (mp {{ pending := <[ra := ms']> (pending mp) }}, inl ms')
  end.

Definition countRemoved (m : SignedMessage) (mp : MessagePool) : MessagePool :=
  mp {{ currentSize := currentSize mp - 1; changes := changes mp ++ [MpoolRemove m] }}.

(** The part of [remove] that changes the set. *)
Definition removeFromSet (ra : Address) (ms : msgSet) (nonce : Z) (applied : bool) : pool msgSet :=
  match msgs ms !! nonce with Some m => update (countRemoved m) | None => mret tt end ;;
  rmFromMset ra ms nonce applied.

Definition remove (from : Address) (nonce : Z) (applied : bool) : pool unit :=
  o ← attempt (getPendingMset from);
  match o with
  | inr _ | inl None => mret tt
  | inl (Some (ra, ms)) =>
      ms' ← removeFromSet ra ms nonce applied;
      if decide (size (msgs ms') = 0%nat) then attempt (deletePendingMset from) ;; mret tt else mret tt
  end.

Definition Remove : Address → Z → bool → pool unit := remove.

(** ** Reading *)

Context `{MapRange}.

Definition allPending : pool (list SignedMessage * TipSet) :=
  sets ← read pending;
  ts ← read curTs;
  mret (concat (map (λ e, toSlice e.2) (rangeOf sets)), ts).

Definition pendingFor (a : Address) : pool (list SignedMessage) :=
  o ← attempt (getPendingMset a);
  mret (match o with
        | inl (Some (_, ms)) => if decide (size (msgs ms) = 0%nat) then [] else toSlice ms
        | _ => []
        end).

(** [RecoverSig]: the message with the signature that the cache has for it. *)
Definition RecoverSig (m : SignedMessage) : pool (option SignedMessage) :=
  cache ← read blsSigCache;
  let '(sig, cache') := lruGet cache (MessageCid m) in
  update (λ mp, mp {{ blsSigCache := cache' }}) ;;
  mret (match sig with Some s => Some (withSignature m s) | None => None end).

Fixpoint recoverAll (bmsgs : list SignedMessage) : pool (list SignedMessage) :=
  match bmsgs with
  | [] => mret []
  | m :: rest =>
      o ← RecoverSig m;
      out ← recoverAll rest;
      mret (match o with Some sm => sm :: out | None => out end)
  end.

Fixpoint MessagesForBlocks (blocks : list BlockHeader) : pool (list SignedMessage) :=
  match blocks with
  | [] => mret []
  | b :: rest =>
      '(bmsgs, smsgs) ← ask (MessagesForBlock b);
      recovered ← recoverAll bmsgs;
      out ← MessagesForBlocks rest;
      mret (smsgs ++ recovered ++ out)
  end.

(** ** Clearing and loading *)

Definition dropLocalMsg (m : SignedMessage) : pool unit :=
  let k := NewKey (SignedCid m) in
  match deleteError k with
  | Some _ => mret tt
  | None => update (λ mp, mp {{ localMsgs := delete k (localMsgs mp) }})
  end.

Definition dropLocalOf (la : Address) : pool unit :=
  o ← attempt (getPendingMset la);
  match o with
  | inl (Some (_, ms)) => forEach dropLocalMsg (map snd (rangeOf (msgs ms)))
  | _ => mret tt
  end.

(** One turn of the loop over the pending sets. *)
Definition dropForeign (a : Address) : pool unit :=
  r ← attempt (isLocal a);
  match r with
  | inl false => attempt (deletePendingMset a) ;; mret tt
  | _ => mret tt
  end.

Definition Clear (local : bool) : pool unit :=
  if local then
    locals ← read localAddrs;
    forEach dropLocalOf (map fst (rangeOf (gset_to_gmap () locals))) ;;
    clearPending ;;
    update (λ mp, mp {{ republished := ∅ }})
  else
    sets ← read pending;
    forEach dropForeign (map fst (rangeOf sets)).

Definition loadEntry (r : string + string) : pool unit :=
  value ← ask r;
  sm ← ask (UnmarshalSigned value);
  o ← attempt (addLoaded sm);
  match o with
  | inr (Wraps ErrNonceTooLow) => mret tt
  | _ => setLocal (smFrom sm)
  end.

Definition loadLocal : pool unit :=
  store ← read localMsgs;
  res ← ask (Query store);
  forEach loadEntry res.
End pool.
