(* ===== verification/MsgHead.v ===== *)
(** * The message pool follows the head (chain/messagepool/messagepool.go, pruning.go, repub.go, selection.go)

    Messages of reverted tipsets come back into the pool, those of applied ones leave it.  A pool
    that is too large is pruned to its low water mark, and the messages of local senders are
    sent to the network again. *)

From Stdlib Require Import SpecFloat.
From coqutil Require Import Datatypes.RecordSetters.
From stdpp Require Import strings numbers base gmap fin_maps sets list.
From S2P Require Import Prelude GoStrings GoSort GoFloat GoLru FileTypes TipSets GasFees ProofLog SealTasks SealResources ChainStore.
From S2P Require Import MsgSet MsgChains MsgSelect MsgSelectOptimal MsgPool.
Import DoubleBraceUpdate.
Local Open Scope Z_scope.

Section head.
Context `{LruCache} `{Provider} `{MessageCodec} `{MapRange} `{Library}.

(** Messages by sender and nonce. *)
Abbreviation senderMap := (gmap Address (gmap Z SignedMessage)) (only parsing).

(** The code panics. *)
Definition crash {A} : pool A := λ _, None.

(** ** Changes of the head *)

(** The closure [add]. *)
Definition addReverted (rmsgs : senderMap) (m : SignedMessage) : senderMap :=
  <[smFrom m := <[smNonce m := m]> (default ∅ (rmsgs !! smFrom m))]> rmsgs.

(** The closure [rm] of [HeadChange]. *)
Definition rmApplied (rmsgs : senderMap) (from : Address) (nonce : Z) : pool senderMap :=
  match rmsgs !! from ≫= λ s, s !! nonce with
  | Some _ => mret (alter (delete nonce) from rmsgs)
  | None => Remove from nonce true ;; mret rmsgs
  end.

(** The closure [maybeRepub]. *)
Definition maybeRepub (trigger : bool) (c : Cid) : pool bool :=
  set ← read republished;
  mret (trigger || bool_decide (c ∈ set)).

(** The loop over the reverted tipsets; an error is added to [merr] and the loop goes on. *)
Fixpoint revertAll (revert : list TipSet) (rmsgs : senderMap) (merr : list poolErr) : pool (senderMap * list poolErr) :=
  match revert with
  | [] => mret (rmsgs, merr)
  | ts :: rest =>
      match Parents ts with
      | Ret k =>
          p ← attempt (ask (LoadTipSet k));
          match p with
          | inr e => revertAll rest rmsgs (merr ++ [e])
          | inl pts =>
              update (λ mp, mp {{ curTs := pts }}) ;;
              r ← attempt (MessagesForBlocks (blks ts));
              match r with
              | inr e => revertAll rest rmsgs (merr ++ [e])
              | inl ms => revertAll rest (foldl addReverted rmsgs ms) merr
              end
          end
      | _ => crash
      end
  end.

(** The messages of one kind of an applied block, by sender, nonce and CID. *)
Fixpoint applyMsgs (l : list (Address * Z * Cid)) (rmsgs : senderMap) (trigger : bool) : pool (senderMap * bool) :=
  match l with
  | [] => mret (rmsgs, trigger)
  | (from, nonce, c) :: rest =>
      rmsgs' ← rmApplied rmsgs from nonce;
      trigger' ← maybeRepub trigger c;
      applyMsgs rest rmsgs' trigger'
  end.

(** The secp messages of a block come before the BLS messages. *)
Definition blockEntries (bmsgs smsgs : list SignedMessage) : list (Address * Z * Cid) :=
  map (λ m, (smFrom m, smNonce m, SignedCid m)) smsgs ++ map (λ m, (smFrom m, smNonce m, MessageCid m)) bmsgs.

Fixpoint applyBlocks (blocks : list BlockHeader) (rmsgs : senderMap) (trigger : bool) (merr : list poolErr) :
    pool (senderMap * bool * list poolErr) :=
  match blocks with
  | [] => mret (rmsgs, trigger, merr)
  | b :: rest =>
      r ← attempt (ask (MessagesForBlock b));
      match r with
      | inr e => applyBlocks rest rmsgs trigger (merr ++ [e])
      | inl (bmsgs, smsgs) =>
          '(rmsgs', trigger') ← applyMsgs (blockEntries bmsgs smsgs) rmsgs trigger;
          applyBlocks rest rmsgs' trigger' merr
      end
  end.

Fixpoint applyAll (apply : list TipSet) (rmsgs : senderMap) (trigger : bool) (merr : list poolErr) :
    pool (senderMap * bool * list poolErr) :=
  match apply with
  | [] => mret (rmsgs, trigger, merr)
  | ts :: rest =>
      update (λ mp, mp {{ curTs := ts }}) ;;
      '(rmsgs', trigger', merr') ← applyBlocks (blks ts) rmsgs trigger merr;
      applyAll rest rmsgs' trigger' merr'
  end.

(** Errors of the messages that are put back are only logged. *)
Definition readd (m : SignedMessage) : pool unit := attempt (addSkipChecks m) ;; mret tt.

Definition leftOver (rmsgs : senderMap) : list SignedMessage :=
  concat (map (λ e, map snd (rangeOf e.2)) (rangeOf rmsgs)).

(** The result is the list of errors. *)
Definition HeadChange (revert apply : list TipSet) : pool (list poolErr) :=
  '(rmsgs, merr) ← revertAll revert ∅ [];
  '(rmsgs', trigger, merr') ← applyAll apply rmsgs false merr;
  (if (trigger : bool) then update (λ mp, mp {{ repubTrigger := true }}) else mret tt) ;;
  forEach readd (leftOver rmsgs') ;;
  mret merr'.

(** ** Pending messages for another head *)

(** The closure [rm] of [runHeadChange]. *)
Definition dropApplied (rmsgs : senderMap) (from : Address) (nonce : Z) : senderMap := alter (delete nonce) from rmsgs.

Fixpoint revertInto (revert : list TipSet) (rmsgs : senderMap) (merr : list poolErr) : pool (senderMap * list poolErr) :=
  match revert with
  | [] => mret (rmsgs, merr)
  | ts :: rest =>
      r ← attempt (MessagesForBlocks (blks ts));
      match r with
      | inr e => revertInto rest rmsgs (merr ++ [e])
      | inl ms => revertInto rest (foldl addReverted rmsgs ms) merr
      end
  end.

Fixpoint applyInto (blocks : list BlockHeader) (rmsgs : senderMap) (merr : list poolErr) : pool (senderMap * list poolErr) :=
  match blocks with
  | [] => mret (rmsgs, merr)
  | b :: rest =>
      r ← attempt (ask (MessagesForBlock b));
      match r with
      | inr e => applyInto rest rmsgs (merr ++ [e])
      | inl (bmsgs, smsgs) =>
          applyInto rest (foldl (λ acc e, dropApplied acc e.1.1 e.1.2) rmsgs (blockEntries bmsgs smsgs)) merr
      end
  end.

(** Tipsets as the store loads them. *)
Definition loadTs (k : string) : outcome TipSet := match LoadTipSet k with inl ts => Ret ts | inr e => Fail e end.

Definition runHeadChange (from to : TipSet) (rmsgs : senderMap) : pool senderMap :=
  match ReorgOps loadTs from to with
  | Some (Ret (revert, apply)) =>
      '(rmsgs1, merr) ← revertInto revert rmsgs [];
      '(rmsgs2, merr') ← applyInto (concat (map blks apply)) rmsgs1 merr;
      match merr' with [] => mret rmsgs2 | e :: _ => throw e end
  | Some (Fail e) => throw (OtherErr e)
  | _ => crash
  end.

Definition getPendingMessages (cur ts : TipSet) : pool senderMap :=
  sets ← read pending;
  let result := msgs <$> sets in
  if decide (height cur = height ts ∧ Equals (Some cur) (Some ts) = true) then mret result
  else runHeadChange cur ts result.

(** ** Pruning *)

Variable UpgradeCalicoHeight : Z.

Definition actorAfter (a : Address) (ts : TipSet) : outcome Actor :=
  match GetActorAfter a ts with inl act => Ret act | inr e => Fail e end.

(** [protected]: an address that is not resolved protects the empty address. *)
Fixpoint protectedAddrs (addrs : list Address) : pool (gset Address) :=
  match addrs with
  | [] => mret ∅
  | a :: rest =>
      r ← attempt (resolveToKey a);
      s ← protectedAddrs rest;
      mret ({[match r with inl pk => pk | inr _ => AddressUndef end]} ∪ s)
  end.

(** The messages of the senders that are not protected, by CID, and the number of the others. *)
Definition trackMsgs (protected : gset Address) (pend : list (Address * gmap Z SignedMessage)) : gmap Cid SignedMessage * Z :=
  foldl (λ acc e, if decide (e.1 ∈ protected) then (acc.1, acc.2 + Z.of_nat (size e.2))
                  else (foldl (λ pm m, <[MessageCid m := m]> pm) acc.1 (map snd (rangeOf e.2)), acc.2)) (∅, 0) pend.

Definition unprotected (protected : gset Address) (pend : list (Address * gmap Z SignedMessage)) :
    list (Address * gmap Z SignedMessage) := filter (λ e, e.1 ∉ protected) pend.

(** The loop over the messages of the sorted chains, while fewer than [lo] are kept. *)
Fixpoint keepLoop (l : list SignedMessage) (lo : Z) (pruneMsgs : gmap Cid SignedMessage) (keepCount : Z) :
    gmap Cid SignedMessage :=
  match l with
  | [] => pruneMsgs
  | m :: l' =>
      if decide (keepCount < lo) then keepLoop l' lo (delete (MessageCid m) pruneMsgs) (keepCount + 1) else pruneMsgs
  end.

Definition pruneMessages (ts : TipSet) : pool unit :=
  baseFee ← ask (ChainComputeBaseFee ts);
  let baseFeeLowerBound := getBaseFeeLowerBound baseFee baseFeeLowerBoundFactor in
  r ← attempt (getPendingMessages ts ts);
  let pend := match r with inl p => rangeOf p | inr _ => [] end in
  conf ← read cfg;
  prio ← protectedAddrs (PriorityAddrs conf);
  locals ← read localAddrs;
  let protected := prio ∪ locals in
  let '(pruneMsgs, keepCount) := trackMsgs protected pend in
  match collectChains UpgradeCalicoHeight actorAfter baseFeeLowerBound ts [] (unprotected protected pend) with
  | None => crash
  | Some (h, chains) =>
      let sorted := sortSlice (lessAt Before h) chains in
      let rest := keepLoop (concat (map (msgsAt h) sorted)) (SizeLimitLow conf) pruneMsgs keepCount in
      forEach (λ m, remove (smFrom m) (smNonce m) false) (map snd (rangeOf rest))
  end.

(** The cooldown starts again when the pruning is over. *)
Definition pruneExcessMessages : pool unit :=
  ts ← read curTs;
  size ← read currentSize;
  conf ← read cfg;
  if decide (size < SizeLimitHigh conf) then mret tt
  else
    ready ← read pruneCooldown;
    if (ready : bool) then
      update (λ mp, mp {{ pruneCooldown := false }}) ;;
      pruneMessages ts
    else throw (OtherErr "cannot prune before cooldown").

(** ** Sending again *)

Definition repubMsgLimit : Z := 30.

(** The sets of the local senders that are not empty. *)
Fixpoint localPending (addrs : list Address) : pool senderMap :=
  match addrs with
  | [] => mret ∅
  | a :: rest =>
      o ← attempt (getPendingMset a);
      out ← localPending rest;
      mret (match o with
            | inl (Some (_, ms)) => if decide (size (msgs ms) = 0%nat) then out else <[a := msgs ms]> out
            | _ => out
            end)
  end.

(** The messages of a chain up to one whose fee cap is too low; [true] when there is none. *)
Fixpoint takeMsgs (l : list SignedMessage) (lower gasLimit : Z) (out : list SignedMessage) : Z * list SignedMessage * bool :=
  match l with
  | [] => (gasLimit, out, true)
  | m :: l' =>
      if decide (smGasFeeCap m < lower) then (gasLimit, out, false)
      else takeMsgs l' lower (wrapInt64 (gasLimit - smGasLimit m)) (out ++ [m])
  end.

Fixpoint repubLoop (fuel : nat) (lower baseFee : Z) (h : list msgChain) (l : list nat) (gasLimit : Z)
    (out : list SignedMessage) : option (list SignedMessage) :=
  match fuel with
  | O => None
  | S fuel' =>
      match l with
      | [] => Some out
      | p :: l' =>
          if decide (repubMsgLimit < Z.of_nat (length out) ∨ gasLimit ≤ MinGas) then Some out
          else
            mc ← h !! p;
            if negb (valid mc) then repubLoop fuel' lower baseFee h l' gasLimit out
            else if decide (cgasLimit mc ≤ gasLimit) then
              match takeMsgs (cmsgs mc) lower gasLimit out with
              | (gas, out', true) => repubLoop fuel' lower baseFee h l' gas out'
              | (gas, out', false) =>
                  h1 ← Invalidate (length h) h p;
                  repubLoop fuel' lower baseFee h1 l gas out'
              end
            else
              h1 ← Trim h p gasLimit repubMsgLimit baseFee;
              repubLoop fuel' lower baseFee h1 (pushDown (lessAt Before h1) p l') gasLimit out
      end
  end.

(** Every turn drops a chain from the list or messages from a chain. *)
Definition repubFuel (h : list msgChain) (l : list nat) : nat := S (length l + length (concat (map cmsgs h))).

(** The messages to send, of which the first 30 are kept. *)
Definition repubMessages (baseFee : Z) (ts : TipSet) (pend : senderMap) : option (list SignedMessage) :=
  let lower := getBaseFeeLowerBound baseFee baseFeeLowerBoundFactor in
  '(h, chains) ← collectChains UpgradeCalicoHeight actorAfter lower ts [] (rangeOf pend);
  let sorted := sortSlice (lessAt Before h) chains in
  out ← repubLoop (repubFuel h sorted) lower baseFee h sorted BlockGasLimit [];
  Some (take (Z.to_nat repubMsgLimit) out).

Definition republishPendingMessages : pool unit :=
  ts ← read curTs;
  baseFee ← ask (ChainComputeBaseFee ts);
  update (λ mp, mp {{ republished := ∅ }}) ;;
  locals ← read localAddrs;
  pend ← localPending (map fst (rangeOf (gset_to_gmap () locals)));
  if decide (pend = ∅) then mret tt
  else
    match repubMessages baseFee ts pend with
    | None => crash
    | Some ms =>
        forEach publishMsg ms ;;
        update (λ mp, mp {{ republished := list_to_set (map SignedCid ms) }})
    end.

(** ** Selecting for the head *)

Context `{MathLib}.
(** [cbg.MaxLength] *)
Variable MaxLength : Z.

(** [resolveToKey] as the selection calls it; that it fills the cache of keys is left out. *)
Definition keyOrFail (mp : MessagePool) (a : Address) : outcome Address :=
  match resolveToKey a mp with
  | Some (_, inl ka) => Ret ka
  | Some (_, inr (OtherErr e)) => Fail e
  | _ => Fail ""
  end.

(** [SelectMessages] on pending messages that are loaded. *)
Definition selectFrom (baseFee : Z) (ts : TipSet) (rnd : nat → nat) (tq : spec_float) (conf : MpoolConfig)
    (pend : senderMap) : pool (list SignedMessage) := λ mp,
  match SelectMessages baseFee UpgradeCalicoHeight actorAfter MaxLength ts (keyOrFail mp) (PriorityAddrs conf) rnd tq pend with
  | Some l => Some (mp, inl l)
  | None => None
  end.

(** [MessagePool.SelectMessages] *)
Definition selectForHead (ts : TipSet) (rnd : nat → nat) (tq : spec_float) : pool (list SignedMessage) :=
  baseFee ← ask (ChainComputeBaseFee ts);
  cur ← read curTs;
  pend ← getPendingMessages cur ts;
  conf ← read cfg;
  selectFrom baseFee ts rnd tq conf pend.
End head.
