(* ===== verification/MsgPoolSpec.v ===== *)
(** * The pool as a map from sender and nonce to messages

    Whatever the chain, the datastore and the caches answer, every call returns, keeps the set
    of each sender in order and the size of the pool exact, and changes the pool like an insertion
    into or a deletion from a map. *)

From coqutil Require Import Datatypes.RecordSetters.
From stdpp Require Import strings numbers base gmap fin_maps sets list.
From S2P Require Import Prelude GoStrings GoSort GoFloat GoLru FileTypes TipSets GasFees ProofLog SealTasks SealResources.
From S2P Require Import MsgSet MsgChains MsgSelect MsgPool.
Import DoubleBraceUpdate.
Local Open Scope Z_scope.

(** ** Loops over nonces end *)

Lemma fillGaps_None fuel m n : fillGaps fuel m n = None →
  ∀ i, (i < fuel)%nat → is_Some (m !! (if decide (i = 0%nat) then n else wrapUint64 (n + Z.of_nat i))).
Proof.
  revert n. induction fuel as [|fuel IH]; intros n; simpl; [lia|]. case_decide as Hn; [|done].
  intros Hf [|i] Hi; [done|]. specialize (IH _ Hf i ltac:(lia)). rewrite decide_False by done.
  destruct (decide (i = 0%nat)) as [->|]; [done|].
  replace (wrapUint64 (n + Z.of_nat (S i))) with (wrapUint64 (wrapUint64 (n + 1) + Z.of_nat i)); [done|].
  unfold wrapUint64. rewrite Zplus_mod_idemp_l. f_equal. lia.
Qed.

(** With fewer pending messages than nonces the loop ends. *)
Lemma skipPending_total m n : 0 ≤ n < 2 ^ 64 → Z.of_nat (size m) < 2 ^ 64 → ∃ k, skipPending m n = Some k.
Proof.
  intros Hn Hs. unfold skipPending. destruct (fillGaps (S (size m)) m n) as [k|] eqn:E; [by exists k|]. exfalso.
  pose proof (fillGaps_None _ _ _ E) as Hall. clear E.
  set (f := λ i : nat, wrapUint64 (n + Z.of_nat i)).
  assert (∀ i, (i < S (size m))%nat → is_Some (m !! f i)) as Hin.
  { intros i Hi. specialize (Hall i Hi). destruct (decide (i = 0%nat)) as [->|]; [|done].
    simpl in Hall. unfold f, wrapUint64. rewrite Z.mod_small by lia. by replace (n + Z.of_nat 0) with n by lia. }
  assert (NoDup (map f (seq 0 (S (size m))))) as Hnd.
  { apply NoDup_fmap_2_strong; [|apply NoDup_seq]. intros i j Hi%elem_of_seq Hj%elem_of_seq Hf. unfold f, wrapUint64 in Hf.
    apply Z.cong_iff_ex in Hf as [q Hq]. destruct (decide (q = 0)); [lia|nia]. }
  assert (list_to_set (map f (seq 0 (S (size m)))) ⊆@{gset Z} dom m) as Hsub.
  { intros x. rewrite elem_of_list_to_set. intros (i&->&Hi%elem_of_seq)%list_elem_of_fmap. apply elem_of_dom, Hin. lia. }
  apply subseteq_size in Hsub. rewrite size_list_to_set in Hsub by done. rewrite length_map, length_seq, size_dom in Hsub. lia.
Qed.

(** ** Sets of any senders *)

Definition setWf (ms : msgSet) : Prop :=
  requiredFunds ms = fundsOf (msgs ms) ∧ ∀ n x, msgs ms !! n = Some x → smNonce x = n.

Lemma newMsgSet_wf n : setWf (newMsgSet n).
Proof. split; [done|]. intros k x. simpl. by rewrite lookup_empty. Qed.

Lemma wrapUint64_range z : 0 ≤ wrapUint64 z < 2 ^ 64.
Proof. apply Z.mod_pos_bound. lia. Qed.

Lemma keyed_insert (m : gmap Z SignedMessage) x : (∀ n y, m !! n = Some y → smNonce y = n) →
  ∀ n y, <[smNonce x := x]> m !! n = Some y → smNonce y = n.
Proof. intros Hk n y [[<- <-]|[_ ?]]%lookup_insert_Some; [done|by apply Hk]. Qed.

Section sets.
Context `{MessageCodec}.

Lemma add_total ms m strict untrusted : setWf ms → Z.of_nat (size (msgs ms)) < 2 ^ 64 →
  ∃ ms' r, add ms m strict untrusted = Some (ms', r) ∧ setWf ms' ∧
    match r with
    | inl incr => msgs ms' = <[smNonce m := m]> (msgs ms) ∧ incr = bool_decide (msgs ms !! smNonce m = None)
    | inr _ => ms' = ms
    end.
Proof.
  intros [Hf Hk] Hs. unfold add.
  assert (∃ next, (if decide (smNonce m = nextNonce ms) then skipPending (msgs ms) (wrapUint64 (nextNonce ms + 1))
                   else Some (nextNonce ms)) = Some next) as [next ->].
  { case_decide; [|by eexists]. by apply skipPending_total; [apply wrapUint64_range|]. }
  cbn [mbind option_bind].
  assert (∀ funds, funds = fundsOf (<[smNonce m := m]> (msgs ms)) → setWf (mkMsgSet (<[smNonce m := m]> (msgs ms)) next funds)) as Hwf.
  { intros funds ->. split; [done|]. by apply keyed_insert. }
  destruct (decide (_ ∧ _ ∧ _)); [by eexists _, _|].
  destruct (msgs ms !! smNonce m) as [ex|] eqn:Ex.
  - destruct (strict && _); [by eexists _, _|]. destruct (checkReplace ex m); [by eexists _, _|].
    eexists _, _. split; [reflexivity|]. split; [|by rewrite bool_decide_false]. apply Hwf. by rewrite (fundsOf_replace _ _ ex), Hf.
  - destruct (strict && _); [by eexists _, _|]. eexists _, _. split; [reflexivity|].
    split; [|by rewrite bool_decide_true]. apply Hwf. rewrite fundsOf_insert by done. lia.
Qed.

Lemma rm_total ms n applied : setWf ms → Z.of_nat (size (msgs ms)) < 2 ^ 64 →
  ∃ ms', rm ms n applied = Some ms' ∧ setWf ms' ∧ msgs ms' = delete n (msgs ms).
Proof.
  intros [Hf Hk] Hs. unfold rm. destruct (msgs ms !! n) as [x|] eqn:Ex.
  - eexists. split; [reflexivity|]. split; [|done]. split; simpl; [by rewrite (fundsOf_delete _ _ x), Hf|].
    intros k y [_ ?]%lookup_delete_Some. by apply Hk.
  - rewrite delete_id by done. destruct (applied && _); [|by eexists].
    destruct (skipPending_total (msgs ms) (wrapUint64 (n + 1))) as (k&->); [apply wrapUint64_range|done|].
    cbn [mbind option_bind]. by eexists.
Qed.
End sets.

(** ** Calls that return *)

(** The call returns, with a result and a pool that satisfy [Q]. *)
Definition runs `{LruCache} {A} (m : pool A) (mp : MessagePool) (Q : MessagePool → A + poolErr → Prop) : Prop :=
  ∃ mp' r, m mp = Some (mp', r) ∧ Q mp' r.

Section runs.
Context `{LruCache}.

Lemma runs_bind {A B} (m : pool A) (f : A → pool B) mp Q :
  runs m mp (λ mp' r, match r with inl a => runs (f a) mp' Q | inr e => Q mp' (inr e) end) → runs (m ≫= f) mp Q.
Proof.
  intros (mp'&r&E&Hr). unfold runs, mbind, pool_bind. rewrite E. destruct r as [a|e]; [done|by eauto].
Qed.

Lemma runs_mono {A} (m : pool A) mp (Q Q' : MessagePool → A + poolErr → Prop) :
  runs m mp Q → (∀ mp' r, Q mp' r → Q' mp' r) → runs m mp Q'.
Proof. intros (mp'&r&?&?) HQ. exists mp', r. auto. Qed.

Lemma runs_ret {A} (a : A) mp (Q : MessagePool → A + poolErr → Prop) : Q mp (inl a) → runs (mret a) mp Q.
Proof. intros. by exists mp, (inl a). Qed.

Lemma runs_throw {A} e mp (Q : MessagePool → A + poolErr → Prop) : Q mp (inr e) → runs (throw e) mp Q.
Proof. intros. by exists mp, (inr e). Qed.

Lemma runs_read {A} (f : MessagePool → A) mp (Q : MessagePool → A + poolErr → Prop) : Q mp (inl (f mp)) → runs (read f) mp Q.
Proof. intros. by exists mp, (inl (f mp)). Qed.

Lemma runs_update f mp (Q : MessagePool → () + poolErr → Prop) : Q (f mp) (inl ()) → runs (update f) mp Q.
Proof. intros. by exists (f mp), (inl ()). Qed.

Lemma runs_ask {A} (o : A + string) mp (Q : MessagePool → A + poolErr → Prop) :
  match o with inl a => Q mp (inl a) | inr e => Q mp (inr (OtherErr e)) end → runs (ask o) mp Q.
Proof. intros. unfold runs, ask. destruct o; eauto. Qed.

Lemma runs_must o mp (Q : MessagePool → () + poolErr → Prop) :
  match o with None => Q mp (inl ()) | Some e => Q mp (inr (OtherErr e)) end → runs (must o) mp Q.
Proof. intros. unfold runs, must. destruct o; eauto. Qed.

Lemma runs_askSoft {A} (m : pool A) mp (Q : MessagePool → A + poolErr → Prop) :
  runs m mp (λ mp' r, match r with inl a => Q mp' (inl a) | inr _ => Q mp' (inr (Wraps ErrSoftValidationFailure)) end) →
  runs (askSoft m) mp Q.
Proof. intros (mp'&r&E&?). unfold runs, askSoft. rewrite E. destruct r; eauto. Qed.

Lemma runs_attempt {A} (m : pool A) mp (Q : MessagePool → (A + poolErr) + poolErr → Prop) :
  runs m mp (λ mp' r, Q mp' (inl r)) → runs (attempt m) mp Q.
Proof. intros (mp'&r&E&?). unfold runs, attempt. rewrite E. eauto. Qed.

Lemma runs_and {A} (m : pool A) mp (Q Q' : MessagePool → A + poolErr → Prop) :
  runs m mp Q → runs m mp Q' → runs m mp (λ mp' r, Q mp' r ∧ Q' mp' r).
Proof. intros (mp'&r&E&?) (mp2&r2&E2&?). rewrite E in E2. injection E2 as <- <-. by exists mp', r. Qed.

(** A loop keeps what each turn keeps. *)
Lemma runs_forEach {A} (f : A → pool ()) (I : list A → MessagePool → Prop) (Q : MessagePool → () + poolErr → Prop) l mp :
  (∀ a rest mp, I (a :: rest) mp → runs (f a) mp (λ mp' r, match r with inl _ => I rest mp' | inr e => Q mp' (inr e) end)) →
  (∀ mp, I [] mp → Q mp (inl ())) → I l mp → runs (forEach f l) mp Q.
Proof.
  intros Hf Hnil. revert mp. induction l as [|a l IH]; intros mp Hl; simpl; [by apply runs_ret, Hnil|].
  apply runs_bind. eapply runs_mono; [by apply Hf|]. intros mp' [[]|e] HI; [by apply IH|done].
Qed.
End runs.

(** ** Pending messages as one map *)

Definition viewOf (sets : gmap Address msgSet) : gmap (Address * Z) SignedMessage := map_uncurry (msgs <$> sets).

Lemma lookup_viewOf sets a n : viewOf sets !! (a, n) = sets !! a ≫= λ ms, msgs ms !! n.
Proof. unfold viewOf. rewrite lookup_map_uncurry, lookup_fmap. by destruct (sets !! a). Qed.

Lemma viewOf_change sets a (f : gmap Z SignedMessage → gmap Z SignedMessage) ms ms' :
  msgs (default (newMsgSet 0) (sets !! a)) = msgs ms → msgs ms' = f (msgs ms) →
  ∀ b n, viewOf (<[a := ms']> sets) !! (b, n) =
    if decide (b = a) then f (msgs (default (newMsgSet 0) (sets !! a))) !! n else viewOf sets !! (b, n).
Proof.
  intros E E' b n. rewrite !lookup_viewOf. case_decide as Hb; subst.
  - rewrite lookup_insert_eq. simpl. by rewrite E', E.
  - by rewrite lookup_insert_ne.
Qed.

Lemma viewOf_default sets a n : viewOf sets !! (a, n) = msgs (default (newMsgSet 0) (sets !! a)) !! n.
Proof. rewrite lookup_viewOf. destruct (sets !! a); simpl; [done|]. by rewrite lookup_empty. Qed.

Lemma viewOf_insert sets a n x ms ms' : msgs (default (newMsgSet 0) (sets !! a)) = msgs ms →
  msgs ms' = <[n := x]> (msgs ms) → viewOf (<[a := ms']> sets) = <[(a, n) := x]> (viewOf sets).
Proof.
  intros E E'. apply map_eq. intros [b k]. rewrite (viewOf_change sets a (<[n := x]>) ms ms' E E').
  case_decide as Hb; [subst b|by rewrite lookup_insert_ne by congruence].
  destruct (decide (k = n)) as [->|]; [by rewrite !lookup_insert_eq|].
  rewrite !lookup_insert_ne by congruence. by rewrite viewOf_default.
Qed.

Lemma viewOf_remove sets a n ms ms' : sets !! a = Some ms → msgs ms' = delete n (msgs ms) →
  viewOf (<[a := ms']> sets) = delete (a, n) (viewOf sets).
Proof.
  intros E E'. apply map_eq. intros [b k]. rewrite (viewOf_change sets a (delete n) ms ms'); [|by rewrite E|done].
  case_decide as Hb; [subst b|by rewrite lookup_delete_ne by congruence].
  destruct (decide (k = n)) as [->|]; [by rewrite !lookup_delete_eq|].
  rewrite !lookup_delete_ne by congruence. by rewrite viewOf_default.
Qed.

(** Sets without messages do not count. *)
Lemma viewOf_empty sets a ms : msgs (default (newMsgSet 0) (sets !! a)) = ∅ → msgs ms = ∅ →
  viewOf (<[a := ms]> sets) = viewOf sets.
Proof.
  intros E E'. apply map_eq. intros [b k]. rewrite (viewOf_change sets a id (newMsgSet 0) ms E E').
  case_decide; [subst; by rewrite viewOf_default|done].
Qed.

Lemma viewOf_delete sets a : msgs (default (newMsgSet 0) (sets !! a)) = ∅ → viewOf (delete a sets) = viewOf sets.
Proof.
  intros E. apply map_eq. intros [b k]. rewrite !viewOf_default.
  destruct (decide (b = a)) as [->|]; [by rewrite lookup_delete_eq, E|by rewrite lookup_delete_ne].
Qed.

Lemma viewOf_size sets a ms : sets !! a = Some ms → (size (msgs ms) ≤ size (viewOf sets))%nat.
Proof.
  intros E. trans (size (kmap (pair a) (msgs ms) : gmap (Address * Z) SignedMessage)).
  { by rewrite <- !length_map_to_list, (map_to_list_kmap (pair a)), length_fmap. }
  apply map_subseteq_size, map_subseteq_spec.
  intros [b n] x (k&[= -> ->]&Hx)%lookup_kmap_Some; [|apply _]. by rewrite lookup_viewOf, E.
Qed.

(** ** The invariant *)

Section pool.
Context `{LruCache}.

(** The key address of an address, as the chain tells it once it is final, and the nonce of an
    address after a tipset. *)
Variable key : Address → Address.
Variable nonceAt : Address → string → Z.

(** What providers promise: they may fail, but do not contradict each other. *)
Class KeyedProvider (P : Provider) : Prop := {
  resolve_key a ts k : StateAccountKeyAtFinality a ts = inl k → k = key a;
  actor_nonce a ts act : GetActorAfter a ts = inl act → actNonce act = nonceAt a (Key (Some ts))
}.

Hypothesis key_idem : ∀ a, key (key a) = key a.

Definition view (mp : MessagePool) : gmap (Address * Z) SignedMessage := viewOf (pending mp).

Context `{MessageCodec} `{SigShims}.

(** A signature that was checked for a message with the same key in the cache. *)
Definition verifiedAs (sck : string) : Prop :=
  ∃ m, sigCacheKey m = inl sck ∧ Verify (smSignature m) (smFrom m) (MessageCid m) = None.

(** The caches hold what the chain and the signature schemes told. *)
Record cachesTrue (mp : MessagePool) : Prop := {
  true_keys a k : keyCache mp !! a = Some k → k = key a;
  true_nonces k a n : lruHolds (nonceCache mp) (k, a) n → n = nonceAt a k;
  true_sigs sck u : lruHolds (sigValCache mp) sck u → verifiedAs sck
}.

Record poolOk (mp : MessagePool) : Prop := {
  ok_caches : cachesTrue mp;
  ok_sets a ms : pending mp !! a = Some ms → setWf ms ∧ ∀ n x, msgs ms !! n = Some x → key (smFrom x) = a;
  ok_size : currentSize mp = Z.of_nat (size (view mp))
}.

(** Only caches differ. *)
Record quiet (mp mp' : MessagePool) : Prop := {
  q_local : localAddrs mp' = localAddrs mp;
  q_pending : pending mp' = pending mp;
  q_ts : curTs mp' = curTs mp;
  q_cfg : cfg mp' = cfg mp;
  q_size : currentSize mp' = currentSize mp;
  q_prune : pruneTrigger mp' = pruneTrigger mp;
  q_cool : pruneCooldown mp' = pruneCooldown mp;
  q_repub : repubTrigger mp' = repubTrigger mp;
  q_republished : republished mp' = republished mp;
  q_localMsgs : localMsgs mp' = localMsgs mp;
  q_changes : changes mp' = changes mp;
  q_published : published mp' = published mp
}.

#[export] Instance quiet_preorder : PreOrder quiet.
Proof. split; [by split|]. intros x y z [] []. split; congruence. Qed.

(** Only caches differ, and the pool stays in order. *)
Definition calm (mp mp' : MessagePool) : Prop := quiet mp mp' ∧ poolOk mp'.

Lemma poolOk_quiet mp mp' : quiet mp mp' → cachesTrue mp' → poolOk mp → poolOk mp'.
Proof.
  intros Hq Hk [_ Hsets Hsize]. split; [done| |].
  - rewrite (q_pending _ _ Hq). done.
  - unfold view. by rewrite (q_size _ _ Hq), (q_pending _ _ Hq).
Qed.

Lemma calm_refl mp : poolOk mp → calm mp mp.
Proof. by split. Qed.

Lemma calm_trans mp mp' mp'' : calm mp mp' → calm mp' mp'' → calm mp mp''.
Proof. intros [? _] [? ?]. split; [by etrans|done]. Qed.

(** A change of a cache. *)
Lemma calm_cache mp mp' : poolOk mp → quiet mp mp' → cachesTrue mp' → calm mp mp'.
Proof. intros Hok Hq Ht. split; [done|]. by apply (poolOk_quiet mp). Qed.

Lemma calm_bls c mp : poolOk mp → calm mp (mp {{ blsSigCache := c }}).
Proof. intros Hok. apply calm_cache; [done|by split|]. by destruct (ok_caches mp Hok). Qed.

Lemma calm_nonces c mp : poolOk mp → (∀ k a n, lruHolds c (k, a) n → n = nonceAt a k) → calm mp (mp {{ nonceCache := c }}).
Proof. intros Hok Hc. apply calm_cache; [done|by split|]. by destruct (ok_caches mp Hok). Qed.

Lemma calm_sigs c mp : poolOk mp → (∀ k u, lruHolds c k u → verifiedAs k) → calm mp (mp {{ sigValCache := c }}).
Proof. intros Hok Hc. apply calm_cache; [done|by split|]. by destruct (ok_caches mp Hok). Qed.

Context (P : Provider) `{!KeyedProvider P}.

Definition unresolved (a : Address) (ts : TipSet) : Prop := ∃ e, StateAccountKeyAtFinality a ts = inr e.

Lemma resolveToKey_runs a mp : poolOk mp →
  runs (resolveToKey a) mp (λ mp' r, calm mp mp' ∧ match r with inl k => k = key a | inr _ => unresolved a (curTs mp) end).
Proof using Type*.
  intros Hok. unfold resolveToKey. apply runs_bind, runs_read. destruct (keyCache mp !! a) as [k|] eqn:E.
  { apply runs_ret. split; [by apply calm_refl|]. by apply (true_keys mp (ok_caches mp Hok)). }
  apply runs_bind, runs_read, runs_bind, runs_ask.
  destruct (StateAccountKeyAtFinality a (curTs mp)) as [k|e] eqn:Er; [|split; [by apply calm_refl|by exists e]].
  apply resolve_key in Er. subst k. apply runs_bind, runs_update, runs_ret. split; [|done]. split; [by split|].
  apply (poolOk_quiet mp); [by split| |done]. destruct (ok_caches mp Hok) as [Hk Hn Hs]. split; [|done..]. intros b k Hb.
  change (<[key a := key a]> (<[a := key a]> (keyCache mp)) !! b = Some k) in Hb.
  apply lookup_insert_Some in Hb as [[<- <-]|[_ [[<- <-]|[_ ?]]%lookup_insert_Some]]; [by rewrite key_idem|done|by apply Hk].
Qed.

Lemma getPendingMset_runs a mp : poolOk mp →
  runs (getPendingMset a) mp (λ mp' r, calm mp mp' ∧
    match r with
    | inl (Some (ra, ms)) => ra = key a ∧ pending mp !! ra = Some ms
    | inl None => pending mp !! key a = None
    | inr _ => unresolved a (curTs mp)
    end).
Proof using Type*.
  intros Hok. unfold getPendingMset. apply runs_bind. eapply runs_mono; [by apply resolveToKey_runs|].
  intros mp1 [k|e] [Hc Hk]; [|done]. subst k. apply runs_bind, runs_read, runs_ret. split; [done|].
  rewrite (q_pending _ _ (proj1 Hc)). by destruct (pending mp !! key a) as [ms|] eqn:E.
Qed.

Lemma getStateNonce_runs a ts mp : poolOk mp →
  runs (getStateNonce a ts) mp (λ mp' r, calm mp mp' ∧ match r with inl n => n = nonceAt a (Key (Some ts)) | inr _ => ∃ e, GetActorAfter a ts = inr e end).
Proof using Type*.
  intros Hok. unfold getStateNonce. apply runs_bind, runs_read.
  destruct (lruGet (nonceCache mp) (Key (Some ts), a)) as [o c'] eqn:E. apply runs_bind, runs_update.
  assert (∀ k b n, lruHolds c' (k, b) n → n = nonceAt b k) as Hc'.
  { intros k b n Hh. apply (true_nonces mp (ok_caches mp Hok)). apply (lruGet_holds _ (Key (Some ts), a)). by rewrite E. }
  pose proof (calm_nonces c' mp Hok Hc') as Hc. destruct o as [n|].
  { apply runs_ret. split; [done|]. apply (true_nonces mp (ok_caches mp Hok)), lruGet_some. by rewrite E. }
  apply runs_bind, runs_ask. destruct (GetActorAfter a ts) as [act|e] eqn:Ea; [|by split; [|exists e]].
  pose proof (actor_nonce a ts act Ea) as En.
  apply runs_bind, runs_update, runs_ret. split; [|done]. eapply calm_trans; [done|].
  apply (calm_nonces (lruAdd c' (Key (Some ts), a) (actNonce act))); [apply Hc|].
  intros k b n [[[= -> ->] ->]|?]%lruAdd_holds; [done|by apply Hc'].
Qed.

(** ** Adding and removing *)

(** Neither the head, the configuration nor the local senders change. *)
Definition steady (mp mp' : MessagePool) : Prop :=
  localAddrs mp' = localAddrs mp ∧ curTs mp' = curTs mp ∧ cfg mp' = cfg mp.

Lemma steady_trans mp mp' mp'' : steady mp mp' → steady mp' mp'' → steady mp mp''.
Proof. unfold steady. intros (->&->&->). done. Qed.

Lemma quiet_steady mp mp' : quiet mp mp' → steady mp mp'.
Proof. intros []. done. Qed.

Lemma quiet_view mp mp' : quiet mp mp' → view mp' = view mp.
Proof. intros Hq. unfold view. by rewrite (q_pending _ _ Hq). Qed.

(** The pool after the set of one sender has changed. *)
(** The caches that have something to keep. *)
Definition caches (mp : MessagePool) := (keyCache mp, nonceCache mp, sigValCache mp).

Lemma caches_true mp mp' : caches mp' = caches mp → cachesTrue mp → cachesTrue mp'.
Proof. unfold caches. intros [= Ek En Es] [Hk Hn Hs]. split; rewrite ?Ek, ?En, ?Es; done. Qed.

Lemma poolOk_store mp mp' a ms : poolOk mp → caches mp' = caches mp → pending mp' = <[a := ms]> (pending mp) →
  setWf ms → (∀ n x, msgs ms !! n = Some x → key (smFrom x) = a) → currentSize mp' = Z.of_nat (size (view mp')) → poolOk mp'.
Proof.
  intros [Ht Hsets _] Ek Ep Hwf Hkey Hsize. split; [by apply (caches_true mp)| |done].
  intros b ms'. rewrite Ep. intros [[<- <-]|[_ ?]]%lookup_insert_Some; [done|by apply Hsets].
Qed.

Lemma set_size mp a ms : poolOk mp → currentSize mp < 2 ^ 64 → pending mp !! a = Some ms → Z.of_nat (size (msgs ms)) < 2 ^ 64.
Proof. intros Hok Hs Hp. rewrite (ok_size mp Hok) in Hs. pose proof (viewOf_size _ _ _ Hp). unfold view in Hs. lia. Qed.

(** The pool after a call that may add a message. *)
Definition added (m : SignedMessage) (mp mp' : MessagePool) (ok : bool) : Prop :=
  poolOk mp' ∧ steady mp mp' ∧ currentSize mp' ≤ currentSize mp + 1 ∧
  view mp' = if ok then <[(key (smFrom m), smNonce m) := m]> (view mp) else view mp.

Lemma added_store ms ms' m mp mp' : poolOk mp → pending mp !! key (smFrom m) = Some ms → setWf ms' →
  msgs ms' = <[smNonce m := m]> (msgs ms) → caches mp' = caches mp → pending mp' = <[key (smFrom m) := ms']> (pending mp) →
  steady mp mp' → currentSize mp' = currentSize mp + (if decide (msgs ms !! smNonce m = None) then 1 else 0) → added m mp mp' true.
Proof.
  intros Hok Hp Hwf' Em Ek Ep Hst Es. destruct (ok_sets mp Hok _ _ Hp) as [_ Hkey].
  assert (view mp' = <[(key (smFrom m), smNonce m) := m]> (view mp)) as Ev.
  { unfold view. rewrite Ep. apply (viewOf_insert _ _ _ _ ms); [by rewrite Hp|done]. }
  assert (view mp !! (key (smFrom m), smNonce m) = msgs ms !! smNonce m) as El.
  { unfold view. by rewrite lookup_viewOf, Hp. }
  split_and!; [|done|case_decide; lia|done]. eapply poolOk_store; [done..| |].
  - intros n x. rewrite Em. intros [[_ <-]|[_ ?]]%lookup_insert_Some; [done|by eapply Hkey].
  - rewrite Ev, Es, (ok_size mp Hok). case_decide as Hd.
    + rewrite map_size_insert_None by by rewrite El. lia.
    + rewrite map_size_insert_Some by (rewrite El; by apply not_eq_None_Some). lia.
Qed.

Lemma added_none m mp mp' : poolOk mp → calm mp mp' → added m mp mp' false.
Proof.
  intros Hok [Hq Hok']. split_and!; [done|by apply quiet_steady|rewrite (q_size _ _ Hq); lia|by apply quiet_view].
Qed.

Definition okOf {A B} (r : A + B) : bool := match r with inl _ => true | inr _ => false end.

Lemma addToSet_runs ms m strict untrusted mp : poolOk mp → currentSize mp < 2 ^ 64 →
  pending mp !! key (smFrom m) = Some ms →
  runs (addToSet (key (smFrom m)) ms m strict untrusted) mp (λ mp' r, added m mp mp' (okOf r)).
Proof.
  intros Hok Hs Hp. destruct (ok_sets mp Hok _ _ Hp) as [Hwf _].
  destruct (add_total ms m strict untrusted Hwf (set_size _ _ _ Hok Hs Hp)) as (ms'&r&E&Hwf'&Hr).
  unfold addToSet. apply runs_bind. unfold runs at 1, addToMset. rewrite E. eexists _, r. split; [reflexivity|].
  destruct r as [incr|e].
  - destruct Hr as [Em ->]. apply runs_bind.
    case_bool_decide as Hn; [apply runs_update|apply runs_ret]; apply runs_update;
      (eapply (added_store ms ms'); [done..|reflexivity|reflexivity|by split_and!|]).
    + by rewrite decide_True.
    + rewrite decide_False by done. change (currentSize mp = currentSize mp + 0). lia.
  - subst ms'. split_and!; [|done|change (currentSize mp ≤ currentSize mp + 1); lia|].
    + destruct Hok as [Hk Hsets Hsize]. split; [by destruct Hk| |].
      * intros a ms2. change (<[key (smFrom m) := ms]> (pending mp) !! a = Some ms2 → setWf ms2 ∧ ∀ n x, msgs ms2 !! n = Some x → key (smFrom x) = a).
        rewrite insert_id by done. apply Hsets.
      * change (currentSize mp = Z.of_nat (size (viewOf (<[key (smFrom m) := ms]> (pending mp))))). by rewrite insert_id.
    + change (viewOf (<[key (smFrom m) := ms]> (pending mp)) = view mp). by rewrite insert_id.
Qed.

(** A set that holds nothing yet. *)
Lemma storeMset_new a n mp : poolOk mp → pending mp !! a = None →
  poolOk (mp {{ pending := <[a := newMsgSet n]> (pending mp) }}) ∧ view (mp {{ pending := <[a := newMsgSet n]> (pending mp) }}) = view mp.
Proof.
  intros Hok Ha. set (mp' := mp {{ pending := _ }}).
  assert (view mp' = view mp) as Ev. { apply (viewOf_empty (pending mp)); [by rewrite Ha|done]. }
  split; [|done]. apply (poolOk_store mp mp' a (newMsgSet n)); [done..|apply newMsgSet_wf|intros k x; simpl; by rewrite lookup_empty|].
  rewrite Ev. apply (ok_size mp Hok).
Qed.

(** The pending messages stay what they are. *)
Definition kept (mp mp' : MessagePool) : Prop :=
  poolOk mp' ∧ steady mp mp' ∧ view mp' = view mp ∧ currentSize mp' = currentSize mp.

Lemma calm_kept mp mp' : calm mp mp' → kept mp mp'.
Proof. intros [Hq ?]. split_and!; [done|by apply quiet_steady|by apply quiet_view|by apply q_size]. Qed.

Lemma kept_trans mp mp' mp'' : kept mp mp' → kept mp' mp'' → kept mp mp''.
Proof. intros (_&?&E1&E2) (?&?&E3&E4). split_and!; [done|by eapply steady_trans|congruence..]. Qed.

(** The chain does not answer for the address. *)
Definition silent (a : Address) : Prop := ∃ ts, unresolved a ts ∨ ∃ e, GetActorAfter a ts = inr e.

Lemma getOrCreateMset_runs a mp : poolOk mp →
  runs (getOrCreateMset a) mp (λ mp' r, kept mp mp' ∧
    match r with inl (ra, ms) => ra = key a ∧ pending mp' !! ra = Some ms | inr _ => silent a end).
Proof using Type*.
  intros Hok. unfold getOrCreateMset. apply runs_bind. eapply runs_mono; [by apply getPendingMset_runs|].
  intros mp1 [[[ra ms]|]|e] [Hc Hr]; [| |split; [by apply calm_kept|by eexists; left]].
  { apply runs_ret. rewrite <- (q_pending _ _ (proj1 Hc)) in Hr. by split; [apply calm_kept|]. }
  apply runs_bind, runs_read, runs_bind. eapply runs_mono; [by apply getStateNonce_runs, Hc|].
  intros mp2 [n|e] [Hc2 Hn]; pose proof (calm_trans _ _ _ Hc Hc2) as Hc02; [|split; [by apply calm_kept|by eexists; right]].
  unfold setPendingMset. apply runs_bind, runs_bind. eapply runs_mono; [by apply resolveToKey_runs, Hc2|].
  intros mp3 [k|e] [Hc3 Hk]; pose proof (calm_trans _ _ _ Hc02 Hc3) as Hc03;
    [subst k|split; [by apply calm_kept|by eexists; left]].
  apply runs_bind, runs_update, runs_ret, runs_ret.
  destruct (storeMset_new (key a) n mp3 (proj2 Hc3)) as [? Ev]; [by rewrite (q_pending _ _ (proj1 Hc03))|].
  split; [|split; [done|apply lookup_insert_eq]]. eapply kept_trans; [by apply calm_kept|]. by split_and!.
Qed.

(** What a call says of a message that it may add. *)
Definition adds (m : SignedMessage) (call : pool ()) : Prop :=
  ∀ mp, poolOk mp → currentSize mp < 2 ^ 64 → runs call mp (λ mp' r, added m mp mp' (okOf r)).

Lemma addLocked_runs m strict untrusted : adds m (addLocked m strict untrusted).
Proof using Type*.
  intros mp Hok Hs. unfold addLocked.
  assert (∀ mp1, calm mp mp1 → runs ('(ra, ms) ← getOrCreateMset (smFrom m); addToSet ra ms m strict untrusted) mp1
            (λ mp' r, added m mp mp' (okOf r))) as Hgo.
  { intros mp1 [Hq Hok1]. apply runs_bind. eapply runs_mono; [by apply getOrCreateMset_runs|].
    intros mp2 [[ra ms]|e] [Hk2 Hr]; pose proof (kept_trans _ _ _ (calm_kept _ _ (conj Hq Hok1)) Hk2) as (?&?&Ev2&Es2).
    - destruct Hr as [-> Hp]. eapply runs_mono; [apply addToSet_runs; [done|by rewrite Es2|done]|].
      intros mp' r (?&?&?&Ev). unfold added. rewrite Ev, Ev2. split_and!; [done|by eapply steady_trans|lia|done].
    - split_and!; [done..|lia|done]. }
  assert (∀ mp1, calm mp mp1 → runs (must (PutMessage (SignedMsg m)) ;; must (PutMessage (PlainMsg m)) ;;
            '(ra, ms) ← getOrCreateMset (smFrom m); addToSet ra ms m strict untrusted) mp1 (λ mp' r, added m mp mp' (okOf r))) as Hput.
  { intros mp1 Hc. apply runs_bind, runs_must. destruct (PutMessage (SignedMsg m)); [by apply added_none|].
    apply runs_bind, runs_must. destruct (PutMessage (PlainMsg m)); [by apply added_none|]. by apply Hgo. }
  apply runs_bind. case_decide; [apply runs_update|apply runs_ret]; apply Hput; [|by apply calm_refl].
  by apply calm_bls.
Qed.

Lemma removeFromSet_runs a ms n applied mp : poolOk mp → currentSize mp < 2 ^ 64 → pending mp !! key a = Some ms →
  runs (removeFromSet (key a) ms n applied) mp
    (λ mp' r, poolOk mp' ∧ steady mp mp' ∧ view mp' = delete (key a, n) (view mp) ∧
      match r with inl ms' => pending mp' !! key a = Some ms' | inr _ => False end).
Proof using Type*.
  intros Hok Hs Hp. destruct (ok_sets mp Hok _ _ Hp) as [Hwf Hkey].
  destruct (rm_total ms n applied Hwf (set_size _ _ _ Hok Hs Hp)) as (ms'&E&Hwf'&Em).
  assert (∀ mp1, caches mp1 = caches mp → pending mp1 = <[key a := ms']> (pending mp) → steady mp mp1 →
    currentSize mp1 = currentSize mp - (if decide (is_Some (msgs ms !! n)) then 1 else 0) →
    poolOk mp1 ∧ steady mp mp1 ∧ view mp1 = delete (key a, n) (view mp) ∧ pending mp1 !! key a = Some ms') as Hgo.
  { intros mp1 Ek Ep Hst Es. assert (view mp1 = delete (key a, n) (view mp)) as Ev.
    { unfold view. rewrite Ep. by apply (viewOf_remove _ _ _ ms). }
    split_and!; [|done..|rewrite Ep; apply lookup_insert_eq]. eapply (poolOk_store mp); [done..| |].
    - intros k x. rewrite Em. intros [_ ?]%lookup_delete_Some. by eapply Hkey.
    - assert (view mp !! (key a, n) = msgs ms !! n) as El by (unfold view; by rewrite lookup_viewOf, Hp).
      rewrite Ev, Es, (ok_size mp Hok). case_decide as Hd.
      + rewrite map_size_delete_Some by by rewrite El. destruct Hd as [x Hx]. rewrite Hx in El.
        assert (size (view mp) ≠ 0%nat); [|lia]. intros Hz%map_size_empty_inv. by rewrite Hz, lookup_empty in El.
      + rewrite map_size_delete_None; [lia|]. by rewrite El, eq_None_not_Some. }
  unfold removeFromSet. apply runs_bind. destruct (msgs ms !! n) as [x|] eqn:Ex; [apply runs_update|apply runs_ret];
    unfold runs, rmFromMset; rewrite E; eexists _, _; (split; [reflexivity|]); apply Hgo; [done|done|done| |done|done|done|].
  - by rewrite decide_True.
  - rewrite decide_False by by intros []. change (currentSize mp = currentSize mp - 0). lia.
Qed.

Lemma deletePendingMset_runs a ms mp : poolOk mp → pending mp !! key a = Some ms → msgs ms = ∅ →
  runs (deletePendingMset a) mp (λ mp' _, kept mp mp').
Proof using Type*.
  intros Hok Hp Em. unfold deletePendingMset. apply runs_bind. eapply runs_mono; [by apply resolveToKey_runs|].
  intros mp1 [k|e] [Hc Hk]; [subst k|by apply calm_kept]. apply runs_update.
  eapply kept_trans; [by apply calm_kept|]. rewrite <- (q_pending _ _ (proj1 Hc)) in Hp.
  set (mp' := mp1 {{ pending := _ }}).
  assert (view mp' = view mp1) as Ev by (apply (viewOf_delete (pending mp1)); by rewrite Hp).
  split_and!; [|done|done|done]. destruct (proj2 Hc) as [Hkk Hsets Hsize]. split; [by destruct Hkk| |by rewrite Ev].
  intros b ms' Hb. change (delete (key a) (pending mp1) !! b = Some ms') in Hb.
  apply lookup_delete_Some in Hb as [_ ?]. by apply Hsets.
Qed.

(** The pool after a call that removes a message: nothing is removed when the address has no key. *)
Definition removed (a : Address) (n : Z) (mp mp' : MessagePool) : Prop :=
  poolOk mp' ∧ steady mp mp' ∧ (view mp' = delete (key a, n) (view mp) ∨ (view mp' = view mp ∧ unresolved a (curTs mp))).

Lemma remove_runs a n applied mp : poolOk mp → currentSize mp < 2 ^ 64 →
  runs (remove a n applied) mp (λ mp' r, r = inl tt ∧ removed a n mp mp').
Proof using Type*.
  intros Hok Hs. unfold remove. apply runs_bind, runs_attempt. eapply runs_mono; [by apply getPendingMset_runs|].
  intros mp1 o [Hc Hr]. pose proof (calm_kept _ _ Hc) as (Hok1&Hst1&Ev1&Es1). destruct o as [[[ra ms]|]|e].
  - destruct Hr as [-> Hp]. rewrite <- (q_pending _ _ (proj1 Hc)) in Hp.
    apply runs_bind. eapply runs_mono; [apply (removeFromSet_runs a ms n applied); [done|by rewrite Es1|done]|].
    intros mp3 r (Hok3&Hst3&Ev3&Hr).
    destruct r as [ms'|]; [|done]. rewrite Ev1 in Ev3. pose proof (steady_trans _ _ _ Hst1 Hst3) as Hst.
    case_decide as Hz; [|apply runs_ret; split; [done|]; split_and!; auto].
    apply runs_bind, runs_attempt. eapply runs_mono; [apply (deletePendingMset_runs a ms'); [done|done|by apply map_size_empty_inv]|].
    intros mp4 _ (Hok4&Hst4&Ev4&_). apply runs_ret. split; [done|]. split_and!; [done|by eapply steady_trans|left; congruence].
  - apply runs_ret. split; [done|]. split_and!; [done..|]. left. rewrite Ev1, delete_id; [done|].
    unfold view. by rewrite lookup_viewOf, Hr.
  - apply runs_ret. split; [done|]. split_and!; [done..|]. by right.
Qed.
End pool.
