(* ===== verification/MsgPoolAdmit.v ===== *)
(** * Which messages the pool accepts

    A message that is accepted is well formed and signed, is not behind the sender's nonce, pays
    for its place in a block, and the balance of the sender covers the gas of all its pending
    messages.  A message that is refused leaves the pending messages as they are. *)

From coqutil Require Import Datatypes.RecordSetters.
From stdpp Require Import strings numbers base gmap fin_maps sets list.
From S2P Require Import Prelude GoStrings GoSort GoFloat GoLru FileTypes TipSets GasFees GasFeesSpec ProofLog SealTasks SealResources.
From S2P Require Import MsgSet MsgChains MsgChainsSpec MsgSelect MsgPool MsgPoolSpec.
Import DoubleBraceUpdate.
Local Open Scope Z_scope.

(** ** [PushUntrusted] *)

Section untrusted.
Context `{LruCache} `{Provider} `{MessageCodec} `{SigShims} `{LocalDatastore}.

Lemma pool_bind_ext {A B} (m : pool A) (f g : A → pool B) mp : (∀ a mp', f a mp' = g a mp') → (m ≫= f) mp = (m ≫= g) mp.
Proof. intros Hfg. unfold mbind, pool_bind. by destruct (m mp) as [[mp' [a|e]]|]. Qed.

Lemma pool_bind_l {A B} (m m' : pool A) (f : A → pool B) mp : m mp = m' mp → (m ≫= f) mp = (m' ≫= f) mp.
Proof. intros E. unfold mbind, pool_bind. by rewrite E. Qed.

(** Without the strict checks the limits for untrusted senders are not looked at. *)
Lemma add_not_strict ms m : add ms m false true = add ms m false false.
Proof.
  unfold add. destruct (if decide (smNonce m = nextNonce ms) then _ else _) as [next|]; [|done]. cbn [mbind option_bind andb].
  by rewrite !(decide_False (P := _ ∧ false = true ∧ _)) by (intros (_&?&_); done).
Qed.

Lemma addLocked_not_strict m mp : addLocked m false true mp = addLocked m false false mp.
Proof.
  unfold addLocked. do 3 (apply pool_bind_ext; intros _ ?). apply pool_bind_ext. intros [ra ms] mp4.
  unfold addToSet. apply pool_bind_l. unfold addToMset. by rewrite add_not_strict.
Qed.

(** [PushUntrusted] is [Push]: it passes its flag on with the strict checks switched off. *)
Lemma PushUntrusted_is_Push ZeroAddress UpgradeCalicoHeight m mp :
  PushUntrusted ZeroAddress UpgradeCalicoHeight m mp = Push ZeroAddress UpgradeCalicoHeight m mp.
Proof.
  unfold PushUntrusted, Push, pushWith. apply pool_bind_ext. intros _ mp1. apply pool_bind_ext. intros ts mp2.
  apply pool_bind_l. unfold addTs. do 3 (apply pool_bind_ext; intros ? ?). apply pool_bind_l, addLocked_not_strict.
Qed.
End untrusted.

(** ** Checks *)

Section adding.
Context `{LruCache} `{MessageCodec} `{SigShims} `{LocalDatastore}.
Variable key : Address → Address.
Variable nonceAt : Address → string → Z.
Hypothesis key_idem : ∀ a, key (key a) = key a.
Context (P : Provider) `{!KeyedProvider key nonceAt P}.
Variable ZeroAddress : Address.
Variable UpgradeCalicoHeight : Z.

Abbreviation poolOk := (poolOk key nonceAt).
Abbreviation calm := (calm key nonceAt).
Abbreviation kept := (kept key nonceAt).

Definition inclusion (m : SignedMessage) (minGas : Z) : Prop :=
  ValidForBlockInclusion AddressUndef ZeroAddress (VMMessage m) minGas NewestNetworkVersion = None.

(** Hashes without collisions, and a serialisation that can be read back; a hash of 32 bytes is no CID, which is longer. *)
Class IdealHashes : Prop := {
  Sum_inj x y : Sum x = Sum y → x = y;
  Sum256_inj x y : Sum256 x = Sum256 y → x = y;
  Sum256_no_cid x y : Sum256 x ≠ Sum y;
  Serialize_inj m m' : Serialize m = Serialize m' → m = m';
  SerializeMessage_from m m' : SerializeMessage m = SerializeMessage m' → smFrom m = smFrom m'
}.

Lemma string_app_tail (a b c d : string) : String.length c = String.length d → a +:+ c = b +:+ d → a = b ∧ c = d.
Proof.
  intros Hl. revert b. induction a as [|x a IH]; intros [|y b] E.
  - done.
  - apply (f_equal String.length) in E. rewrite !length_app_str in E. simpl in E. lia.
  - apply (f_equal String.length) in E. rewrite !length_app_str in E. simpl in E. lia.
  - injection E as -> E. by destruct (IH b E) as [-> ->].
Qed.

(** What [checkMessage] makes sure of. *)
Definition messageOk (m : SignedMessage) : Prop :=
  Size m ≤ MaxMessageSize ∧ inclusion m 0 ∧ smValue m < TotalFilecoinInt ∧ MinimumBaseFee ≤ smGasFeeCap m ∧
  Verify (smSignature m) (smFrom m) (MessageCid m) = None.

(** Two messages with the same key in the signature cache have the same sender, content and signature. *)
Lemma verified_itself m sck : IdealHashes → sigCacheKey m = inl sck → verifiedAs sck → Verify (smSignature m) (smFrom m) (MessageCid m) = None.
Proof.
  intros HI Em (m'&Em'&Hv). revert Em Em'. unfold sigCacheKey, SignedCid.
  destruct (smSignature m) as [t data] eqn:Es, (smSignature m') as [t' data'] eqn:Es'. cbn [sigType sigData].
  destruct t', t; repeat case_decide; try done; intros [= <-] [= E].
  - apply Sum_inj, Serialize_inj in E as ->. congruence.
  - by apply eq_sym, Sum256_no_cid in E.
  - by apply Sum256_no_cid in E.
  - apply Sum256_inj in E. apply string_app_tail in E as [E ->]; [|lia].
    unfold MessageCid in *. rewrite E in Hv. apply Sum_inj, SerializeMessage_from in E. by rewrite <-E.
Qed.

Lemma VerifyMsgSig_runs m mp : IdealHashes → poolOk mp →
  runs (VerifyMsgSig m) mp (λ mp' r, calm mp mp' ∧
    match r with inl _ => Verify (smSignature m) (smFrom m) (MessageCid m) = None | inr _ => True end).
Proof.
  intros HI Hok. unfold VerifyMsgSig. apply runs_bind, runs_ask. destruct (sigCacheKey m) as [sck|e] eqn:Es; [|split; [by apply calm_refl|done]].
  apply runs_bind, runs_read. destruct (lruGet (sigValCache mp) sck) as [seen c'] eqn:E. apply runs_bind, runs_update.
  assert (∀ k u, lruHolds c' k u → verifiedAs k) as Hc'.
  { intros k u Hh. apply (true_sigs _ _ mp (ok_caches _ _ mp Hok) k u). apply (lruGet_holds _ sck). by rewrite E. }
  pose proof (calm_sigs key nonceAt c' mp Hok Hc') as Hc. destruct seen as [u|].
  { apply runs_ret. split; [done|]. apply (verified_itself m sck HI Es).
    apply (true_sigs _ _ mp (ok_caches _ _ mp Hok) sck u), lruGet_some. by rewrite E. }
  apply runs_bind, runs_must. destruct (Verify _ _ _) as [e|] eqn:Ev; [done|].
  assert (verifiedAs sck) as Hv by by exists m.
  apply runs_update. split; [|done]. eapply calm_trans; [done|].
  apply (calm_sigs key nonceAt (lruAdd c' sck tt)); [apply Hc|]. intros k u [[-> _]|?]%lruAdd_holds; [done|by eapply Hc'].
Qed.

Lemma checkMessage_runs m mp : IdealHashes → poolOk mp →
  runs (checkMessage ZeroAddress m) mp (λ mp' r, calm mp mp' ∧ match r with inl _ => messageOk m | inr _ => True end).
Proof.
  intros HI Hok. pose proof (calm_refl key nonceAt mp Hok) as Hc. unfold checkMessage.
  case_decide; [by apply runs_throw|]. apply runs_bind, runs_must.
  destruct (ValidForBlockInclusion _ _ _ 0 _) eqn:Ev; [done|]. do 3 (case_decide; [by apply runs_throw|]).
  eapply runs_mono; [by apply VerifyMsgSig_runs|]. intros mp' [[]|e] [? Hsig]; [|done]. split; [done|].
  unfold messageOk, minimumBaseFee in *. split_and!; [lia|done|lia|lia|done].
Qed.

Lemma checkNonce_runs m ts mp : poolOk mp →
  runs (checkNonce m ts) mp (λ mp' r, calm mp mp' ∧
    match r with inl _ => nonceAt (smFrom m) (Key (Some ts)) ≤ smNonce m | inr _ => True end).
Proof using Type*.
  intros Hok. unfold checkNonce. apply runs_bind, runs_askSoft. eapply runs_mono; [by apply getStateNonce_runs|].
  intros mp' [n|e] [? Hn]; [subst n|done]. case_decide; [by apply runs_throw|]. apply runs_ret. split; [done|lia].
Qed.

(** The base fee that the fee cap is compared with. *)
Definition headBaseFee (ts : TipSet) (fee : Z) : Prop :=
  match blks ts with b :: _ => fee = ParentBaseFee b | [] => ChainComputeBaseFee ts = inl fee end.

(** The gas of the message alone and, for messages of others, the lower bound of the fee cap. *)
Definition feesOk (m : SignedMessage) (ts : TipSet) (local : bool) : Prop :=
  inclusion m (minGasOf UpgradeCalicoHeight (height ts + 1) m) ∧
  (local = false → ∃ fee, headBaseFee ts fee ∧ Z.max (fee / 100) MinimumBaseFee ≤ smGasFeeCap m).

Lemma verifyMsgBeforeAdd_runs m ts local mp : poolOk mp →
  runs (verifyMsgBeforeAdd ZeroAddress UpgradeCalicoHeight m ts local) mp (λ mp' r, calm mp mp' ∧
    match r with inl publish => feesOk m ts local ∧ (publish = true → local = true) | inr _ => True end).
Proof.
  intros Hok. pose proof (calm_refl key nonceAt mp Hok) as Hc. unfold verifyMsgBeforeAdd. apply runs_bind, runs_must.
  destruct (ValidForBlockInclusion _ _ _ _ _) eqn:Ev; [done|].
  assert (∀ fee, headBaseFee ts fee → runs (if decide (smGasFeeCap m < getBaseFeeLowerBound fee baseFeeLowerBoundFactorConservative)
      then if local then mret false else throw (Wraps ErrSoftValidationFailure) else mret local) mp (λ mp' r, calm mp mp' ∧
    match r with inl publish => feesOk m ts local ∧ (publish = true → local = true) | inr _ => True end)) as Hgo.
  { intros fee Hfee. destruct (decide (smGasFeeCap m < _)) as [Hl|Hl].
    - destruct local; [|by apply runs_throw]. apply runs_ret. split; [done|]. split; [|done]. by split.
    - apply runs_ret. split; [done|]. split; [|done]. split; [done|]. intros _. exists fee. split; [done|].
      unfold getBaseFeeLowerBound, baseFeeLowerBoundFactorConservative, minimumBaseFee in Hl. case_decide; lia. }
  apply runs_bind. unfold headBaseFee in Hgo. destruct (blks ts) as [|b l].
  - apply runs_ask. destruct (ChainComputeBaseFee ts) as [fee|e] eqn:Ef; [by apply Hgo|done].
  - apply runs_ret. by apply Hgo.
Qed.

(** The funds that the pending messages of a sender need with [m] among them. *)
Definition fundsWith (mp : MessagePool) (m : SignedMessage) : Z :=
  fundsOf (<[smNonce m := m]> (msgs (default (newMsgSet 0) (pending mp !! key (smFrom m))))).

Lemma fundsWith_eq mp m : poolOk mp → fundsWith mp m =
  RequiredFunds m + match pending mp !! key (smFrom m) with Some ms => getRequiredFunds ms (smNonce m) | None => 0 end.
Proof.
  intros Hok. unfold fundsWith. destruct (pending mp !! key (smFrom m)) as [ms|] eqn:E; simpl.
  - destruct (ok_sets _ _ mp Hok _ _ E) as [[Hf _] _]. unfold getRequiredFunds. rewrite Hf.
    destruct (msgs ms !! smNonce m) as [x|] eqn:Ex; [rewrite (fundsOf_replace _ _ x)|rewrite fundsOf_insert]; (done || lia).
  - rewrite fundsOf_insert by apply lookup_empty. unfold fundsOf. rewrite map_fold_empty. lia.
Qed.

Definition covered (mp : MessagePool) (m : SignedMessage) (ts : TipSet) : Prop :=
  ∃ act, GetActorAfter (smFrom m) ts = inl act ∧ fundsWith mp m ≤ actBalance act.

Lemma checkBalance_runs m ts mp : poolOk mp →
  runs (checkBalance m ts) mp (λ mp' r, calm mp mp' ∧ match r with inl _ => covered mp m ts | inr _ => True end).
Proof using Type*.
  intros Hok. pose proof (calm_refl key nonceAt mp Hok) as Hc. unfold checkBalance, getStateBalance.
  apply runs_bind, runs_askSoft, runs_bind, runs_ask. destruct (GetActorAfter (smFrom m) ts) as [act|e] eqn:Ea; [|done].
  apply runs_ret. case_decide; [by apply runs_throw|]. apply runs_bind. eapply runs_mono; [by apply getPendingMset_runs|].
  intros mp1 [o|e] [Hc1 Ho]; [|done]. case_decide as Hb; [by apply runs_throw|]. apply runs_ret. split; [done|].
  exists act. split; [done|]. rewrite fundsWith_eq by done. destruct o as [[ra ms]|].
  - destruct Ho as [-> ->]. lia.
  - rewrite Ho. lia.
Qed.

(** ** Acceptance *)

Lemma view_set mp mp' m : view mp' = <[(key (smFrom m), smNonce m) := m]> (view mp) →
  ∃ ms, pending mp' !! key (smFrom m) = Some ms ∧
    msgs ms = <[smNonce m := m]> (msgs (default (newMsgSet 0) (pending mp !! key (smFrom m)))).
Proof.
  intros Ev. pose proof (lookup_insert_eq (view mp) (key (smFrom m), smNonce m) m) as El. rewrite <- Ev in El.
  unfold view in El. rewrite lookup_viewOf in El. destruct (pending mp' !! key (smFrom m)) as [ms|] eqn:Ep; [|done].
  exists ms. split; [done|]. apply map_eq. intros k.
  assert (msgs ms !! k = view mp' !! (key (smFrom m), k)) as -> by (unfold view; by rewrite lookup_viewOf, Ep).
  rewrite Ev. destruct (decide (k = smNonce m)) as [->|]; [by rewrite !lookup_insert_eq|].
  rewrite !lookup_insert_ne by congruence. unfold view. by rewrite viewOf_default.
Qed.

(** What holds of a message that was added for the tipset. *)
Definition accepted (m : SignedMessage) (ts : TipSet) (local : bool) (mp mp' : MessagePool) : Prop :=
  nonceAt (smFrom m) (Key (Some ts)) ≤ smNonce m ∧ feesOk m ts local ∧ covered mp m ts ∧
  view mp' = <[(key (smFrom m), smNonce m) := m]> (view mp) ∧ (local = true → key (smFrom m) ∈ localAddrs mp').

(** Only persisting a local message can fail after the message was added. *)
Definition refused (m : SignedMessage) (local : bool) (mp mp' : MessagePool) : Prop :=
  view mp' = view mp ∨ (local = true ∧ view mp' = <[(key (smFrom m), smNonce m) := m]> (view mp)).

(** The pool after a call that was to add a message. *)
Definition after (mp mp' : MessagePool) : Prop :=
  poolOk mp' ∧ curTs mp' = curTs mp ∧ cfg mp' = cfg mp ∧ currentSize mp' ≤ currentSize mp + 1.

Lemma calm_after mp mp' : calm mp mp' → after mp mp'.
Proof. intros [Hq ?]. split_and!; [done|by apply q_ts|by apply q_cfg|rewrite (q_size _ _ Hq); lia]. Qed.

Lemma setLocal_runs a mp : poolOk mp →
  runs (setLocal a) mp (λ mp' r, poolOk mp' ∧ curTs mp' = curTs mp ∧ cfg mp' = cfg mp ∧ currentSize mp' = currentSize mp ∧
    view mp' = view mp ∧ match r with inl _ => key a ∈ localAddrs mp' | inr _ => True end).
Proof using Type*.
  intros Hok. unfold setLocal. apply runs_bind. eapply runs_mono; [by apply resolveToKey_runs|].
  intros mp1 [k|e] [[Hq Hok1] Hk]; pose proof (quiet_view _ _ Hq) as Ev; pose proof (quiet_steady _ _ Hq) as (_&?&?);
    pose proof (q_size _ _ Hq); [subst k|by split_and!].
  apply runs_update. split_and!; [|done..|]; [by destruct Hok1 as [[]]|].
  change (key a ∈ {[key a]} ∪ localAddrs mp1). set_solver.
Qed.

Lemma addLocal_runs m mp : poolOk mp →
  runs (addLocal m) mp (λ mp' r, poolOk mp' ∧ curTs mp' = curTs mp ∧ cfg mp' = cfg mp ∧ currentSize mp' = currentSize mp ∧
    view mp' = view mp ∧ match r with inl _ => key (smFrom m) ∈ localAddrs mp' | inr _ => True end).
Proof using Type*.
  intros Hok. unfold addLocal. apply runs_bind. eapply runs_mono; [by apply setLocal_runs|].
  intros mp1 [[]|e] (Hok1&?&?&?&?&Hin); [|by split_and!]. apply runs_bind, runs_must.
  destruct (putError _); [by split_and!|]. apply runs_update. split_and!; [|done..]. by destruct Hok1 as [[]].
Qed.

Lemma covered_quiet mp mp' m ts : quiet mp mp' → covered mp' m ts → covered mp m ts.
Proof. intros Hq. unfold covered, fundsWith. by rewrite (q_pending _ _ Hq). Qed.

Lemma addTs_runs m ts local untrusted mp : poolOk mp → currentSize mp < 2 ^ 64 →
  runs (addTs ZeroAddress UpgradeCalicoHeight m ts local untrusted) mp (λ mp' r, after mp mp' ∧
    match r with inl _ => accepted m ts local mp mp' | inr _ => refused m local mp mp' end).
Proof using Type*.
  intros Hok Hs. unfold addTs.
  assert (∀ mp', calm mp mp' → after mp mp' ∧ refused m local mp mp') as Hno.
  { intros mp' Hc. split; [by apply calm_after|]. left. by apply quiet_view, Hc. }
  apply runs_bind. eapply runs_mono; [by apply checkNonce_runs|]. intros mp1 [[]|e] [Hc1 Hn]; [|by apply Hno].
  apply runs_bind. eapply runs_mono; [by apply verifyMsgBeforeAdd_runs, Hc1|].
  intros mp2 [publish|e] [Hc2 Hf]; pose proof (calm_trans _ _ _ _ _ Hc1 Hc2) as Hc02; [|by apply Hno].
  apply runs_bind. eapply runs_mono; [by apply checkBalance_runs, Hc2|].
  intros mp3 [[]|e] [Hc3 Hb]; pose proof (calm_trans _ _ _ _ _ Hc02 Hc3) as Hc03; [|by apply Hno].
  apply (covered_quiet _ _ _ _ (proj1 Hc02)) in Hb. pose proof (proj1 Hc03) as Hq.
  apply runs_bind. eapply runs_mono; [apply addLocked_runs; [done|done|apply Hc3|by rewrite (q_size _ _ Hq)]|].
  intros mp4 r (Hok4&(El&Et&Ec)&Hs4&Ev). rewrite (quiet_view _ _ Hq) in Ev. rewrite (q_size _ _ Hq) in Hs4.
  rewrite (q_ts _ _ Hq) in Et. rewrite (q_cfg _ _ Hq) in Ec. destruct r as [[]|e]; [|by split; [split_and!|left]].
  apply runs_bind. destruct local; [|apply runs_ret, runs_ret; split; split_and!; naive_solver].
  eapply runs_mono; [by apply addLocal_runs|]. intros mp5 r (Hok5&Et5&Ec5&Es5&Ev5&Hin).
  assert (after mp mp5) by (split_and!; [done|congruence|congruence|lia]).
  assert (view mp5 = <[(key (smFrom m), smNonce m) := m]> (view mp)) by by rewrite Ev5.
  destruct r as [[]|e]; [|by split; [|right]]. apply runs_ret. split; [done|]. by destruct Hf.
Qed.

(** C8. [Add] returns.  When it accepts a message, the message is well formed and its signature is that of its
    sender on its content (also when the cache of signatures answers, for hashes without collisions), its nonce is not behind the sender's state, it pays the gas for its own bytes and a
    fee cap for the coming blocks, and the sender's balance covers the gas of all of its pending
    messages with this one; the pool has the message in the place of its nonce.  When it refuses
    the message, the pending messages are the same as before.  Either way the pool stays in order. *)
Theorem Add_admits m mp : IdealHashes → poolOk mp → currentSize mp < 2 ^ 64 →
  runs (Add ZeroAddress UpgradeCalicoHeight m) mp (λ mp' r, poolOk mp' ∧
    match r with
    | inr _ => view mp' = view mp
    | inl _ =>
        messageOk m ∧ feesOk m (curTs mp) false ∧ nonceAt (smFrom m) (Key (Some (curTs mp))) ≤ smNonce m ∧
        view mp' = <[(key (smFrom m), smNonce m) := m]> (view mp) ∧
        ∃ act ms, GetActorAfter (smFrom m) (curTs mp) = inl act ∧ pending mp' !! key (smFrom m) = Some ms ∧
          msgs ms !! smNonce m = Some m ∧ fundsOf (msgs ms) ≤ actBalance act
    end).
Proof using Type*.
  intros HI Hok Hs.
  unfold Add. apply runs_bind. eapply runs_mono; [by apply checkMessage_runs|].
  intros mp1 [[]|e] [[Hq Hok1] Hm]; [|by split; [|apply quiet_view]].
  apply runs_bind, runs_read. rewrite (q_ts _ _ Hq). apply runs_bind.
  eapply runs_mono; [apply addTs_runs; [done|by rewrite (q_size _ _ Hq)]|].
  intros mp2 r [(Hok2&_) Hr]. destruct r as [publish|e].
  - apply runs_ret. split; [done|]. destruct Hr as (Hn&Hf&Hb&Ev&_). rewrite (quiet_view _ _ Hq) in Ev.
    apply (covered_quiet _ _ _ _ Hq) in Hb as (act&Ea&Hle). split_and!; [done..|].
    destruct (view_set mp mp2 m Ev) as (ms&Ep&Em). exists act, ms. split_and!; [done|done|by rewrite Em, lookup_insert_eq|].
    rewrite Em. done.
  - split; [done|]. destruct Hr as [->|[? _]]; [by apply quiet_view|done].
Qed.
End adding.
