(* ===== verification/MsgHeadSpec.v ===== *)
(** * The pool after a change of the head

    Applied messages leave the pool, reverted ones that are not applied again come back, and all
    others stay. *)

From coqutil Require Import Datatypes.RecordSetters.
From stdpp Require Import strings numbers base gmap fin_maps sets list.
From S2P Require Import Prelude GoStrings GoSort GoFloat GoLru FileTypes TipSets GasFees ProofLog SealTasks SealResources ChainStore.
From S2P Require Import MsgSet MsgChains MsgSelect MsgPool MsgHead MsgPoolSpec MsgPoolAdmit.
Import DoubleBraceUpdate.
Local Open Scope Z_scope.

(** ** Messages by sender and nonce *)

Abbreviation senderMap := (gmap Address (gmap Z SignedMessage)) (only parsing).

Definition flat (rm : senderMap) : gmap (Address * Z) SignedMessage := map_uncurry (M1 := gmap Address) (M2 := gmap Z) rm.

Definition slot (m : SignedMessage) : Address * Z := (smFrom m, smNonce m).

Lemma lookup_flat rm a n : flat rm !! (a, n) = rm !! a ≫= λ s, s !! n.
Proof. unfold flat. by rewrite lookup_map_uncurry. Qed.

Lemma flat_addReverted rm m : flat (addReverted rm m) = <[slot m := m]> (flat rm).
Proof.
  apply map_eq. intros [a n]. unfold addReverted, slot. rewrite lookup_flat.
  destruct (decide (a = smFrom m)) as [->|Ha].
  - rewrite lookup_insert_eq. simpl. destruct (decide (n = smNonce m)) as [->|Hn]; [by rewrite !lookup_insert_eq|].
    rewrite !lookup_insert_ne by congruence. rewrite lookup_flat. by destruct (rm !! smFrom m).
  - rewrite !lookup_insert_ne by congruence. by rewrite lookup_flat.
Qed.

Lemma flat_delete rm a n : flat (alter (delete n) a rm) = delete (a, n) (flat rm).
Proof.
  apply map_eq. intros [b k]. rewrite lookup_flat. destruct (decide (b = a)) as [->|Hb].
  - rewrite lookup_alter_eq. destruct (decide (k = n)) as [->|Hk].
    + rewrite lookup_delete_eq. destruct (rm !! a); simpl; [|done]. apply lookup_delete_eq.
    + rewrite lookup_delete_ne by congruence. rewrite lookup_flat. destruct (rm !! a); simpl; [|done]. by apply lookup_delete_ne.
  - rewrite lookup_alter_ne, lookup_delete_ne by congruence. by rewrite lookup_flat.
Qed.

(** The messages are in their slots. *)
Definition slotted (R : gmap (Address * Z) SignedMessage) : Prop := ∀ k m, R !! k = Some m → slot m = k.

Lemma slotted_insert R m : slotted R → slotted (<[slot m := m]> R).
Proof. intros Hs k x [[<- <-]|[_ ?]]%lookup_insert_Some; [done|by apply Hs]. Qed.

Lemma slotted_delete R k : slotted R → slotted (delete k R).
Proof. intros Hs j x [_ ?]%lookup_delete_Some. by apply Hs. Qed.

Lemma foldl_addReverted_slotted l rm : slotted (flat rm) → slotted (flat (foldl addReverted rm l)).
Proof.
  revert rm. induction l as [|m l IH]; intros rm Hs; simpl; [done|]. apply IH. rewrite flat_addReverted. by apply slotted_insert.
Qed.

Lemma foldl_addReverted_dom l rm k : is_Some (flat (foldl addReverted rm l) !! k) ↔ is_Some (flat rm !! k) ∨ k ∈ map slot l.
Proof.
  revert rm. induction l as [|m l IH]; intros rm; simpl; [set_solver|].
  rewrite IH, flat_addReverted, lookup_insert_is_Some', elem_of_cons. naive_solver.
Qed.

Lemma foldl_addReverted_lookup l rm k m : flat (foldl addReverted rm l) !! k = Some m → flat rm !! k = Some m ∨ m ∈ l.
Proof.
  revert rm. induction l as [|x l IH]; intros rm; simpl; [by left|]. intros [E|?]%IH; [|right; by right].
  rewrite flat_addReverted in E. apply lookup_insert_Some in E as [[_ ->]|[_ ?]]; [right; by left|by left].
Qed.

Section order.
Context `{MapRange}.

Lemma leftOver_elem rm m : m ∈ leftOver rm ↔ ∃ k, flat rm !! k = Some m.
Proof.
  unfold leftOver. rewrite list_elem_of_In, in_concat. split.
  - intros (l&(e&<-&He)%in_map_iff&(x&Hx&Hin)%in_map_iff). destruct e as [a s], x as [n m']. simpl in *. subst m'.
    apply list_elem_of_In, rangeOf_elem in He, Hin. exists (a, n). by rewrite lookup_flat, He.
  - intros [[a n] E]. rewrite lookup_flat in E. destruct (rm !! a) as [s|] eqn:Es; [|done]. simpl in E.
    exists (map snd (rangeOf s)). split; [apply in_map_iff; exists (a, s)|apply in_map_iff; exists (n, m)];
      (split; [done|apply list_elem_of_In; by rewrite rangeOf_elem]).
Qed.

Lemma NoDup_concat_map {A B} (f : A → list B) l : NoDup l → (∀ x, x ∈ l → NoDup (f x)) →
  (∀ x y b, x ∈ l → y ∈ l → b ∈ f x → b ∈ f y → x = y) → NoDup (concat (map f l)).
Proof.
  induction l as [|x l IH]; intros Hnd Hf Hdis; simpl; [constructor|]. apply NoDup_cons in Hnd as [Hx Hnd]. apply NoDup_app. split_and!.
  - apply Hf. by left.
  - intros b Hb Hin. apply list_elem_of_In, in_concat in Hin as (fy&(y&<-&Hy)%in_map_iff&Hby). apply list_elem_of_In in Hy, Hby.
    assert (x = y) as -> by (apply (Hdis x y b); [by left|by right|done..]). done.
  - apply IH; [done|intros; apply Hf; by right|]. intros y z b ? ?. apply Hdis; by right.
Qed.

Lemma rangeOf_NoDup {K A} `{Countable K} (m : gmap K A) : NoDup (rangeOf m).
Proof. rewrite rangeOf_perm. apply NoDup_map_to_list. Qed.

Lemma leftOver_slots rm (slots : list (Address * Z)) : slotted (flat rm) → (∀ k, is_Some (flat rm !! k) → k ∈ slots) →
  (length (leftOver rm) ≤ length slots)%nat.
Proof.
  intros Hsl Hin. rewrite <- (length_map slot). apply submseteq_length, NoDup_submseteq.
  2: { intros k (m&->&(j&Hj)%leftOver_elem)%list_elem_of_fmap. apply Hin. rewrite (Hsl j m Hj). by eexists. }
  assert (∀ a s n m, (a, s) ∈ rangeOf rm → (n, m) ∈ rangeOf s → slot m = (a, n)) as Hslot.
  { intros a s n m Ha%rangeOf_elem Hn%rangeOf_elem. apply Hsl. by rewrite lookup_flat, Ha. }
  apply NoDup_fmap_2_strong.
  { intros m m' (k&Hk)%leftOver_elem (k'&Hk')%leftOver_elem E. rewrite (Hsl k m Hk), (Hsl k' m' Hk') in E. congruence. }
  unfold leftOver. apply NoDup_concat_map; [apply rangeOf_NoDup|..].
  - intros [a s] Ha. simpl. apply NoDup_fmap_2_strong; [|apply rangeOf_NoDup]. intros [n m] [n' m'] Hn Hn' ?. simpl in *. subst m'.
    pose proof (Hslot a s n m Ha Hn). pose proof (Hslot a s n' m Ha Hn'). congruence.
  - intros [a s] [a' s'] m Ha Ha' ([n m1]&->&Hn)%list_elem_of_fmap ([n' m2]&E&Hn')%list_elem_of_fmap. simpl in *. subst m2.
    pose proof (Hslot a s n m1 Ha Hn) as E1. pose proof (Hslot a' s' n' m1 Ha' Hn') as E2. rewrite E1 in E2. injection E2 as <- _.
    apply rangeOf_elem in Ha, Ha'. congruence.
Qed.
End order.

(** ** What a change of the head does to a map *)

Section abstract.
Variable key : Address → Address.

(** An applied message takes the reverted one of its slot away, or else the pending one. *)
Definition absApply (st : gmap (Address * Z) SignedMessage * gmap (Address * Z) SignedMessage) (e : Address * Z) :=
  match st.1 !! e with
  | Some _ => (delete e st.1, st.2)
  | None => (st.1, delete (key e.1, e.2) st.2)
  end.

Lemma absApply_slotted es R V : slotted R → slotted (foldl absApply (R, V) es).1.
Proof.
  revert R V. induction es as [|e es IH]; intros R V Hs; simpl; [done|]. unfold absApply at 2. simpl.
  destruct (R !! e); apply IH; [by apply slotted_delete|done].
Qed.

(** Nothing is added to the reverted messages. *)
Lemma absApply_sub es R V k m : (foldl absApply (R, V) es).1 !! k = Some m → R !! k = Some m.
Proof.
  revert R V. induction es as [|e es IH]; intros R V; simpl; [done|]. unfold absApply at 2. simpl.
  destruct (R !! e); intros E%IH; [by apply lookup_delete_Some in E as [_ ?]|done].
Qed.

(** What is not applied stays. *)
Lemma absApply_other es R V k : k ∉ es → (∀ e, e ∈ es → (key e.1, e.2) ≠ k) →
  (foldl absApply (R, V) es).1 !! k = R !! k ∧ (foldl absApply (R, V) es).2 !! k = V !! k.
Proof.
  revert R V. induction es as [|e es IH]; intros R V Hk Hkey; simpl; [done|]. apply not_elem_of_cons in Hk as [Hne Hk].
  assert ((key e.1, e.2) ≠ k) by (apply Hkey; by left).
  unfold absApply at 2 4. simpl. destruct (R !! e) as [x|].
  - destruct (IH (delete e R) V) as [-> ->]; [done|intros; apply Hkey; by right|]. by rewrite lookup_delete_ne.
  - destruct (IH R (delete (key e.1, e.2) V)) as [-> ->]; [done|intros; apply Hkey; by right|]. by rewrite lookup_delete_ne.
Qed.

Lemma absApply_None es R V k : R !! k = None → (foldl absApply (R, V) es).1 !! k = None.
Proof.
  revert R V. induction es as [|e es IH]; intros R V Hk; simpl; [done|]. unfold absApply at 2. simpl.
  destruct (R !! e); apply IH; [by apply lookup_delete_None; right|done].
Qed.

Lemma absApply_none es R V k : V !! k = None → (foldl absApply (R, V) es).2 !! k = None.
Proof.
  revert R V. induction es as [|e es IH]; intros R V Hk; simpl; [done|]. unfold absApply at 2. simpl.
  destruct (R !! e); apply IH; [done|by apply lookup_delete_None; right].
Qed.

(** A slot that is applied is in neither map, if it was not in both. *)
Lemma absApply_gone es R V a n : key a = a → (a, n) ∈ es → R !! (a, n) = None ∨ V !! (a, n) = None →
  (foldl absApply (R, V) es).1 !! (a, n) = None ∧ (foldl absApply (R, V) es).2 !! (a, n) = None.
Proof.
  intros Ha. revert R V. induction es as [|e es IH]; intros R V Hin Hone; [by apply elem_of_nil in Hin|].
  simpl. unfold absApply at 2 4. simpl. destruct (decide (e = (a, n))) as [->|Hne].
  - simpl. rewrite Ha. destruct (R !! (a, n)) as [x|] eqn:Er.
    + destruct Hone as [|Hv]; [congruence|]. split; [apply absApply_None, lookup_delete_eq|by apply absApply_none].
    + split; [by apply absApply_None|apply absApply_none, lookup_delete_eq].
  - apply elem_of_cons in Hin as [|Hin]; [congruence|].
    destruct (R !! e); apply IH; [done| |done|]; rewrite !lookup_delete_None; tauto.
Qed.
End abstract.

(** ** The calls *)

Section pool.
Context `{LruCache} `{MessageCodec} `{SigShims} `{MapRange}.
Variable key : Address → Address.
Variable nonceAt : Address → string → Z.
Hypothesis key_idem : ∀ a, key (key a) = key a.
Context (P : Provider) `{!KeyedProvider key nonceAt P}.

Abbreviation poolOk := (poolOk key nonceAt).
Abbreviation calm := (calm key nonceAt).

(** Nothing but the caches and the head changes. *)
Definition moved (mp mp' : MessagePool) : Prop :=
  poolOk mp' ∧ localAddrs mp' = localAddrs mp ∧ cfg mp' = cfg mp ∧ view mp' = view mp ∧ currentSize mp' = currentSize mp.

Lemma calm_moved mp mp' : calm mp mp' → moved mp mp'.
Proof. intros [Hq ?]. destruct (quiet_steady _ _ Hq) as (?&?&?). split_and!; [done..|by apply quiet_view|by apply q_size]. Qed.

Lemma moved_trans mp mp' mp'' : moved mp mp' → moved mp' mp'' → moved mp mp''.
Proof. intros (_&E1&E2&E3&E4) (?&E5&E6&E7&E8). split_and!; [done|congruence..]. Qed.

Lemma moved_head ts mp : poolOk mp → moved mp (mp {{ curTs := ts }}).
Proof. intros [[] ? ?]. by split_and!. Qed.

Lemma recoverAll_runs bmsgs : ∀ mp, poolOk mp →
  runs (recoverAll bmsgs) mp (λ mp' r, calm mp mp' ∧
    match r with inl out => ∀ m, m ∈ out → ∃ x s, x ∈ bmsgs ∧ m = withSignature x s | inr _ => False end).
Proof.
  induction bmsgs as [|m bmsgs IH]; intros mp Hok; cbn [recoverAll].
  { apply runs_ret. split; [by apply calm_refl|]. by intros m ?%elem_of_nil. }
  apply runs_bind. unfold RecoverSig. apply runs_bind, runs_read. destruct (lruGet (blsSigCache mp) (MessageCid m)) as [sig c'].
  apply runs_bind, runs_update, runs_ret. pose proof (calm_bls key nonceAt c' mp Hok) as Hc.
  apply runs_bind. eapply runs_mono; [by apply IH, Hc|]. intros mp2 [out|e] [Hc2 Hout]; [|done]. apply runs_ret.
  split; [by eapply calm_trans|]. intros x Hx.
  assert (x ∈ out → ∃ y s, y ∈ m :: bmsgs ∧ x = withSignature y s) as Hrest.
  { intros (y&s&?&->)%Hout. exists y, s. split; [by right|done]. }
  destruct sig as [s|]; [|by apply Hrest]. apply elem_of_cons in Hx as [->|?]; [|by apply Hrest].
  exists m, s. split; [by left|done].
Qed.

(** The messages of a block in the two lists of the chain store. *)
Definition inBlock (b : BlockHeader) (k : Address * Z) : Prop :=
  ∃ bm sm, MessagesForBlock b = inl (bm, sm) ∧ k ∈ map slot (bm ++ sm).
Definition secpIn (b : BlockHeader) (k : Address * Z) : Prop :=
  ∃ bm sm, MessagesForBlock b = inl (bm, sm) ∧ k ∈ map slot sm.

(** A message of a block: one of its secp messages, or one of its BLS messages with a signature. *)
Definition ofBlock (b : BlockHeader) (m : SignedMessage) : Prop :=
  ∃ bm sm, MessagesForBlock b = inl (bm, sm) ∧ (m ∈ sm ∨ ∃ x s, x ∈ bm ∧ m = withSignature x s).

Lemma ofBlock_slot b m : ofBlock b m → inBlock b (slot m).
Proof.
  intros (bm&sm&E&Hm). exists bm, sm. split; [done|]. rewrite map_app, elem_of_app.
  destruct Hm as [Hm|(x&s&Hx&->)]; [right|left]; (eapply list_elem_of_fmap; eexists; split; [|done]; done).
Qed.

Lemma MessagesForBlocks_runs blocks : ∀ mp, poolOk mp →
  runs (MessagesForBlocks blocks) mp (λ mp' r, calm mp mp' ∧
    match r with
    | inl out => (∀ m, m ∈ out → ∃ b, b ∈ blocks ∧ ofBlock b m) ∧ (∀ b k, b ∈ blocks → secpIn b k → k ∈ map slot out)
    | inr _ => ∃ b e, b ∈ blocks ∧ MessagesForBlock b = inr e
    end).
Proof.
  induction blocks as [|b blocks IH]; intros mp Hok; cbn [MessagesForBlocks].
  { apply runs_ret. split; [by apply calm_refl|]. split; [by intros m ?%elem_of_nil|by intros b k ?%elem_of_nil]. }
  apply runs_bind, runs_ask. destruct (MessagesForBlock b) as [[bm sm]|e] eqn:Eb.
  2: { split; [by apply calm_refl|]. exists b, e. split; [by left|done]. }
  apply runs_bind. eapply runs_mono; [by apply recoverAll_runs|]. intros mp1 [rec|e] [Hc1 Hrec]; [|done].
  apply runs_bind. eapply runs_mono; [by apply IH, Hc1|].
  intros mp2 [out|e] [Hc2 Hout]; pose proof (calm_trans _ _ _ _ _ Hc1 Hc2) as Hc.
  2: { split; [done|]. destruct Hout as (b'&e'&?&?). exists b', e'. split; [by right|done]. }
  apply runs_ret. split; [done|]. destruct Hout as [Hin Hsecp]. split.
  - intros m. rewrite !elem_of_app. intros [Hm|[Hm%Hrec|Hm]].
    + exists b. split; [by left|]. exists bm, sm. split; [done|by left].
    + exists b. split; [by left|]. exists bm, sm. split; [done|by right].
    + destruct (Hin m Hm) as (b'&?&?). exists b'. split; [by right|done].
  - rewrite !map_app. intros b' k [->|Hb']%elem_of_cons Hk; rewrite !elem_of_app; [|right; right; by apply (Hsecp b')].
    destruct Hk as (bm'&sm'&E&?). rewrite Eb in E. injection E as <- <-. by left.
Qed.

(** The messages of the reverted tipsets: the secp messages of those that can be loaded, and at most
    all messages of their blocks. *)
Definition loadable (ts : TipSet) : Prop :=
  (∃ k p, Parents ts = Ret k ∧ LoadTipSet k = inl p) ∧ ∀ b, b ∈ blks ts → ∃ x, MessagesForBlock b = inl x.

Definition revertedOf (revert : list TipSet) (R : gmap (Address * Z) SignedMessage) : Prop :=
  (∀ k, is_Some (R !! k) → ∃ ts b, ts ∈ revert ∧ b ∈ blks ts ∧ inBlock b k) ∧
  (∀ ts b k, ts ∈ revert → loadable ts → b ∈ blks ts → secpIn b k → is_Some (R !! k)).

(** The same for the messages that are added to [rm]. *)
Definition gathers (revert : list TipSet) (rm rm' : senderMap) : Prop :=
  slotted (flat rm') ∧
  (∀ k m, flat rm' !! k = Some m → flat rm !! k = Some m ∨ ∃ ts b, ts ∈ revert ∧ b ∈ blks ts ∧ ofBlock b m) ∧
  (∀ k, is_Some (flat rm !! k) → is_Some (flat rm' !! k)) ∧
  (∀ ts b k, ts ∈ revert → loadable ts → b ∈ blks ts → secpIn b k → is_Some (flat rm' !! k)).

Lemma gathers_nil rm : slotted (flat rm) → gathers [] rm rm.
Proof. intros Hs. split_and!; [done|intros k m ?; by left|done|by intros ts b k ?%elem_of_nil]. Qed.

Lemma gathers_cons ts revert l rm rm' : (∀ m, m ∈ l → ∃ b, b ∈ blks ts ∧ ofBlock b m) →
  (loadable ts → ∀ b k, b ∈ blks ts → secpIn b k → k ∈ map slot l) →
  gathers revert (foldl addReverted rm l) rm' → gathers (ts :: revert) rm rm'.
Proof.
  intros Hl Hsecp (Hsl&Hup&Hmono&Hlow). setoid_rewrite foldl_addReverted_dom in Hmono.
  split_and!; [done| |naive_solver|].
  - intros j m Hj. destruct (Hup j m Hj) as [[?|Hin]%foldl_addReverted_lookup|(ts'&b&?&?)]; [by left| |right; exists ts', b; split; [by right|done]].
    right. destruct (Hl m Hin) as (b&?&?). exists ts, b. split; [by left|done].
  - intros ts' b j [->|Hin]%elem_of_cons Hld Hbb Hj; [|by eapply Hlow]. apply Hmono. right. by eapply Hsecp.
Qed.

Lemma revertAll_runs revert : ∀ rm merr mp, Forall (λ ts, blks ts ≠ []) revert → slotted (flat rm) → poolOk mp →
  runs (revertAll revert rm merr) mp (λ mp' r, moved mp mp' ∧ match r with inl (rm', _) => gathers revert rm rm' | inr _ => False end).
Proof.
  induction revert as [|ts revert IH]; intros rm merr mp Hb Hsl Hok; cbn [revertAll].
  { apply runs_ret. split; [by apply calm_moved, calm_refl|by apply gathers_nil]. }
  apply Forall_cons in Hb as [Hb Hbs]. destruct (Parents ts) as [k| |] eqn:Ep.
  2-3: unfold Parents in Ep; by destruct (blks ts).
  assert (∀ mp1 merr1 l, moved mp mp1 → (∀ m, m ∈ l → ∃ b, b ∈ blks ts ∧ ofBlock b m) →
    (loadable ts → ∀ b k, b ∈ blks ts → secpIn b k → k ∈ map slot l) →
    runs (revertAll revert (foldl addReverted rm l) merr1) mp1 (λ mp' r, moved mp mp' ∧
      match r with inl (rm', _) => gathers (ts :: revert) rm rm' | inr _ => False end)) as Hrest.
  { intros mp1 merr1 l Hm Hl Hsecp. eapply runs_mono; [apply IH; [done|by apply foldl_addReverted_slotted|apply Hm]|].
    intros mp' [[rm' merr']|e] [Hm' Hr]; [|done]. split; [by eapply moved_trans|by eapply gathers_cons]. }
  apply runs_bind, runs_attempt, runs_ask. destruct (LoadTipSet k) as [pts|e] eqn:El.
  2: { apply (Hrest mp _ []); [by apply calm_moved, calm_refl|by intros j ?%elem_of_nil|].
       intros [(k'&p&E&?) _]. congruence. }
  apply runs_bind, runs_update, runs_bind, runs_attempt. pose proof (moved_head pts mp Hok) as Hm1.
  eapply runs_mono; [apply MessagesForBlocks_runs, Hm1|]. intros mp2 [out|e] [Hc2 Hout];
    pose proof (moved_trans _ _ _ Hm1 (calm_moved _ _ Hc2)) as Hm2.
  - destruct Hout as [Hin Hsecp]. by apply Hrest.
  - apply (Hrest mp2 _ []); [done|by intros j ?%elem_of_nil|]. intros [_ Hall]. destruct Hout as (b&e'&Hbb&E).
    destruct (Hall b Hbb) as [x ?]. congruence.
Qed.

(** ** Applied blocks *)

(** Addresses have keys, and the store and the state answer. *)
Class Answers : Prop := {
  resolves a ts : ¬ unresolved P a ts;
  stores c : PutMessage c = None;
  knows a ts : ∃ act, GetActorAfter a ts = inl act
}.
Context `{!Answers}.

(** The pool with the given pending messages. *)
Definition holds (V : gmap (Address * Z) SignedMessage) (n : Z) (mp : MessagePool) : Prop :=
  poolOk mp ∧ view mp = V ∧ currentSize mp ≤ n.

Lemma rmApplied_runs rm a n V N mp : holds V N mp → N < 2 ^ 64 →
  runs (rmApplied rm a n) mp (λ mp' r, curTs mp' = curTs mp ∧
    match r with
    | inl rm' => holds (absApply key (flat rm, V) (a, n)).2 N mp' ∧ flat rm' = (absApply key (flat rm, V) (a, n)).1
    | inr _ => False
    end).
Proof using Type*.
  intros (Hok&Hv&Hs) HN. unfold rmApplied, absApply. simpl. rewrite lookup_flat.
  destruct (rm !! a ≫= λ s, s !! n) as [x|].
  { apply runs_ret. split; [done|]. split; [done|]. apply flat_delete. }
  apply runs_bind. eapply runs_mono; [apply (remove_runs key nonceAt key_idem P a n true); [done|lia]|].
  intros mp' r [-> (Hok'&(_&Et&_)&Hv')]. apply runs_ret. split; [done|]. split; [|done].
  destruct Hv' as [Hv'|[_ Hun]]; [|by destruct (resolves a (curTs mp))]. subst V. split_and!; [done..|].
  rewrite (ok_size _ _ mp' Hok'), Hv'. rewrite (ok_size _ _ mp Hok) in Hs.
  pose proof (map_subseteq_size _ _ (delete_subseteq (view mp) (key a, n))). lia.
Qed.

Lemma applyMsgs_runs l : ∀ rm trig V N mp, holds V N mp → N < 2 ^ 64 →
  runs (applyMsgs l rm trig) mp (λ mp' r, curTs mp' = curTs mp ∧
    match r with
    | inl (rm', _) => holds (foldl (absApply key) (flat rm, V) (map fst l)).2 N mp' ∧
                      flat rm' = (foldl (absApply key) (flat rm, V) (map fst l)).1
    | inr _ => False
    end).
Proof using Type*.
  induction l as [|[[a n] c] l IH]; intros rm trig V N mp Hh HN; cbn [applyMsgs]; [by apply runs_ret|].
  apply runs_bind. eapply runs_mono; [by apply rmApplied_runs|]. intros mp1 [rm1|e] [Et Hr]; [|by destruct Hr].
  destruct Hr as [Hh1 Ef]. apply runs_bind. unfold maybeRepub. apply runs_bind, runs_read, runs_ret.
  eapply runs_mono; [by apply IH|]. intros mp2 [[rm2 t2]|e] [Et2 Hr2]; [|by destruct Hr2]. split; [congruence|].
  cbn [map foldl]. by rewrite Ef, <- surjective_pairing in Hr2.
Qed.

(** The slots of the applied messages, in the order of the blocks. *)
Definition appliedIn (blocks : list BlockHeader) : list (Address * Z) :=
  concat (map (λ b, match MessagesForBlock b with
                    | inl (bm, sm) => map fst (blockEntries bm sm)
                    | inr _ => []
                    end) blocks).

Lemma applyBlocks_runs blocks : ∀ rm trig merr V N mp, holds V N mp → N < 2 ^ 64 →
  runs (applyBlocks blocks rm trig merr) mp (λ mp' r, curTs mp' = curTs mp ∧
    match r with
    | inl (rm', _, _) => holds (foldl (absApply key) (flat rm, V) (appliedIn blocks)).2 N mp' ∧
                         flat rm' = (foldl (absApply key) (flat rm, V) (appliedIn blocks)).1
    | inr _ => False
    end).
Proof using Type*.
  induction blocks as [|b blocks IH]; intros rm trig merr V N mp Hh HN; cbn [applyBlocks]; [by apply runs_ret|].
  unfold appliedIn. cbn [map concat]. fold (appliedIn blocks).
  apply runs_bind, runs_attempt, runs_ask. destruct (MessagesForBlock b) as [[bm sm]|e]; [|by apply IH].
  apply runs_bind. eapply runs_mono; [by apply applyMsgs_runs|]. intros mp1 [[rm1 t1]|e] [Et Hr]; [|by destruct Hr].
  destruct Hr as [Hh1 Ef]. eapply runs_mono; [by apply IH|]. intros mp2 [[[rm2 t2] e2]|e] [Et2 Hr2]; [|by destruct Hr2].
  split; [congruence|]. rewrite foldl_app. by rewrite Ef, <- surjective_pairing in Hr2.
Qed.

Lemma appliedIn_app l l' : appliedIn (l ++ l') = appliedIn l ++ appliedIn l'.
Proof. unfold appliedIn. by rewrite map_app, concat_app. Qed.

Lemma holds_head V N ts mp : holds V N mp → holds V N (mp {{ curTs := ts }}).
Proof. intros (Hok&Hv&Hs). destruct (moved_head ts mp Hok) as (?&_&_&Ev&Es). split_and!; [done|by rewrite Ev|by rewrite Es]. Qed.

Lemma applyAll_runs apply : ∀ rm trig merr V N mp, holds V N mp → N < 2 ^ 64 →
  runs (applyAll apply rm trig merr) mp (λ mp' r, curTs mp' = foldl (λ _ ts, ts) (curTs mp) apply ∧
    match r with
    | inl (rm', _, _) => holds (foldl (absApply key) (flat rm, V) (appliedIn (concat (map blks apply)))).2 N mp' ∧
                         flat rm' = (foldl (absApply key) (flat rm, V) (appliedIn (concat (map blks apply)))).1
    | inr _ => False
    end).
Proof using Type*.
  induction apply as [|ts apply IH]; intros rm trig merr V N mp Hh HN; cbn [applyAll]; [by apply runs_ret|].
  cbn [map concat foldl]. rewrite appliedIn_app. apply runs_bind, runs_update, runs_bind.
  eapply runs_mono; [apply applyBlocks_runs; [by apply holds_head|done]|].
  intros mp1 [[[rm1 t1] e1]|e] [Et Hr]; [|by destruct Hr]. destruct Hr as [Hh1 Ef].
  eapply runs_mono; [by apply IH|]. intros mp2 [[[rm2 t2] e2]|e] [Et2 Hr2]; [|by destruct Hr2].
  split; [by rewrite Et2, Et|]. rewrite foldl_app. by rewrite Ef, <- surjective_pairing in Hr2.
Qed.

(** ** Messages that come back *)

(** Where a message belongs in the pool. *)
Definition place (m : SignedMessage) : Address * Z := (key (smFrom m), smNonce m).

Lemma add_lenient ms ms' m e : add ms m false false = Some (ms', inr e) → is_Some (msgs ms !! smNonce m).
Proof.
  unfold add. destruct (if decide (smNonce m = nextNonce ms) then _ else _); [|done]. cbn [mbind option_bind andb].
  rewrite (decide_False (P := _ ∧ false = true ∧ _)) by (intros (_&?&_); done). by destruct (msgs ms !! smNonce m).
Qed.

(** A message that is added without checks is pending afterwards, or another one in its place. *)
Lemma addToSet_lenient ms m mp : poolOk mp → currentSize mp < 2 ^ 64 → pending mp !! key (smFrom m) = Some ms →
  runs (addToSet (key (smFrom m)) ms m false false) mp (λ mp' _, is_Some (view mp' !! place m)).
Proof.
  intros Hok Hs Hp. destruct (addToSet_runs key nonceAt ms m false false mp Hok Hs Hp) as (mp'&r&E&_&_&_&Ev).
  exists mp', r. split; [done|]. rewrite Ev. destruct r as [[]|e]; simpl; [rewrite lookup_insert_eq; by eexists|].
  unfold addToSet, addToMset, mbind, pool_bind in E. destruct (add ms m false false) as [[ms' [incr|e']]|] eqn:Ea; [|..|done].
  - by destruct incr.
  - unfold view, place. rewrite lookup_viewOf, Hp. by eapply add_lenient.
Qed.

Lemma addLocked_lenient m mp : poolOk mp → currentSize mp < 2 ^ 64 →
  runs (addLocked m false false) mp (λ mp' _, is_Some (view mp' !! place m)).
Proof using Type*.
  intros Hok Hs. unfold addLocked.
  assert (∀ mp1, calm mp mp1 → runs (must (PutMessage (SignedMsg m)) ;; must (PutMessage (PlainMsg m)) ;;
            '(ra, ms) ← getOrCreateMset (smFrom m); addToSet ra ms m false false) mp1 (λ mp' _, is_Some (view mp' !! place m))) as Hgo.
  { intros mp1 [Hq Hok1]. apply runs_bind, runs_must. rewrite stores. apply runs_bind, runs_must. rewrite stores.
    apply runs_bind. eapply runs_mono; [by apply (getOrCreateMset_runs key nonceAt key_idem P)|].
    intros mp2 [[ra ms]|e] [(Hok2&_&_&Es2) Hr].
    - destruct Hr as [-> Hp]. eapply runs_mono; [apply addToSet_lenient; [done|by rewrite Es2, (q_size _ _ Hq)|done]|done].
    - destruct Hr as (ts&[Hun|[e' He]]); [by destruct (resolves (smFrom m) ts)|].
      destruct (knows (smFrom m) ts) as [act ?]. congruence. }
  apply runs_bind. case_decide; [apply runs_update|apply runs_ret]; apply Hgo; [by apply calm_bls|by apply calm_refl].
Qed.

(** The pool while messages come back: those in [back] or others in their
    places are pending, and nothing else changed. *)
Definition backTo (V : gmap (Address * Z) SignedMessage) (back : list SignedMessage) (n : Z) (mp : MessagePool) : Prop :=
  poolOk mp ∧ currentSize mp ≤ n ∧ (∀ m, m ∈ back → is_Some (view mp !! place m)) ∧
  (∀ k x, view mp !! k = Some x → V !! k = Some x ∨ (x ∈ back ∧ place x = k)) ∧
  (∀ k, (∀ m, m ∈ back → place m ≠ k) → view mp !! k = V !! k).

Lemma readd_runs V back m N mp : backTo V back N mp → N < 2 ^ 64 →
  runs (readd m) mp (λ mp' r, r = inl tt ∧ backTo V (back ++ [m]) (N + 1) mp' ∧ curTs mp' = curTs mp).
Proof using Type*.
  intros (Hok&Hs&Hin&Hfrom&Hother) HN. unfold readd, addSkipChecks. apply runs_bind, runs_attempt.
  eapply runs_mono; [apply runs_and; [apply (addLocked_runs key nonceAt key_idem P m false false); [done|lia]|apply addLocked_lenient; [done|lia]]|].
  intros mp' r [(Hok'&(_&Et&_)&Hs'&Ev) Hm]. apply runs_ret. split; [done|]. split; [|done]. split_and!; [done|lia|..].
  - intros x [Hx|Hx]%elem_of_app; [|apply list_elem_of_singleton in Hx as ->; done]. rewrite Ev. destruct (okOf r); [|by apply Hin].
    destruct (decide (place x = place m)) as [->|]; [rewrite lookup_insert_eq; by eexists|].
    rewrite lookup_insert_ne by (unfold place in *; congruence). by apply Hin.
  - intros k x. rewrite Ev. assert (view mp !! k = Some x → V !! k = Some x ∨ (x ∈ back ++ [m] ∧ place x = k)) as Hold.
    { intros [?|[? ?]]%Hfrom; [by left|right; split; [apply elem_of_app; by left|done]]. }
    destruct (okOf r); [|done]. intros [[<- <-]|[_ ?]]%lookup_insert_Some; [|by apply Hold].
    right. split; [apply elem_of_app; right; by left|done].
  - intros k Hk. rewrite <- Hother by (intros x ?; apply Hk; set_solver). rewrite Ev. destruct (okOf r); [|done].
    apply lookup_insert_ne. apply (Hk m). set_solver.
Qed.

Lemma readdAll_runs V l : ∀ back N mp, backTo V back N mp → N + Z.of_nat (length l) < 2 ^ 64 →
  runs (forEach readd l) mp (λ mp' r, r = inl tt ∧ backTo V (back ++ l) (N + Z.of_nat (length l)) mp' ∧ curTs mp' = curTs mp).
Proof using Type*.
  induction l as [|m l IH]; intros back N mp Hb HN; cbn [forEach].
  { apply runs_ret. rewrite app_nil_r. simpl. by rewrite Z.add_0_r. }
  simpl in HN. apply runs_bind. eapply runs_mono; [apply readd_runs; [done|lia]|]. intros mp1 r (->&Hb1&Et).
  eapply runs_mono; [apply IH; [done|lia]|]. intros mp2 r (->&Hb2&Et2). split; [done|].
  rewrite <- app_assoc in Hb2. split; [|congruence]. simpl.
  by replace (N + Z.of_nat (S (length l))) with (N + 1 + Z.of_nat (length l)) by lia.
Qed.

(** ** Changes of the head *)

Lemma appliedIn_elem blocks k : k ∈ appliedIn blocks ↔ ∃ b, b ∈ blocks ∧ inBlock b k.
Proof.
  unfold appliedIn. rewrite list_elem_of_In, in_concat. split.
  - intros (l&(b&<-&Hb)%in_map_iff&Hk). apply list_elem_of_In in Hb. exists b. split; [done|].
    destruct (MessagesForBlock b) as [[bm sm]|] eqn:E; [|done]. exists bm, sm. split; [done|]. apply list_elem_of_In in Hk.
    unfold blockEntries in Hk. rewrite map_app, !map_map in Hk. rewrite map_app, elem_of_app. apply elem_of_app in Hk. tauto.
  - intros (b&Hb&bm&sm&E&Hk). eexists. split; [apply in_map_iff; exists b; split; [reflexivity|by apply list_elem_of_In]|].
    rewrite E. apply list_elem_of_In. unfold blockEntries. rewrite map_app, !map_map. rewrite map_app, elem_of_app in Hk.
    apply elem_of_app. tauto.
Qed.

Definition applied (apply : list TipSet) (k : Address * Z) : Prop := ∃ ts b, ts ∈ apply ∧ b ∈ blks ts ∧ inBlock b k.
Definition reverted (revert : list TipSet) (k : Address * Z) : Prop := applied revert k.
Definition revertedSecp (revert : list TipSet) (k : Address * Z) : Prop :=
  ∃ ts b, ts ∈ revert ∧ loadable ts ∧ b ∈ blks ts ∧ secpIn b k.

(** A message that a reverted tipset gives back. *)
Definition comesBack (revert : list TipSet) (m : SignedMessage) : Prop := ∃ ts b, ts ∈ revert ∧ b ∈ blks ts ∧ ofBlock b m.

Lemma comesBack_slot revert m : comesBack revert m → reverted revert (slot m).
Proof. intros (ts&b&?&?&?%ofBlock_slot). by exists ts, b. Qed.

Lemma applied_elem apply k : k ∈ appliedIn (concat (map blks apply)) ↔ applied apply k.
Proof.
  rewrite appliedIn_elem. split.
  - intros (b&Hb&Hk). apply list_elem_of_In, in_concat in Hb as (l&(ts&<-&Hts)%in_map_iff&Hb). exists ts, b.
    by rewrite <- !list_elem_of_In in *.
  - intros (ts&b&Hts&Hb&Hk). exists b. split; [|done]. apply list_elem_of_In, in_concat. exists (blks ts).
    split; [apply in_map_iff; exists ts; split; [done|]|]; by apply list_elem_of_In.
Qed.

(** The pending messages after the head has changed. *)
Definition follows (revert apply : list TipSet) (V V' : gmap (Address * Z) SignedMessage) : Prop := ∀ k, key k.1 = k.1 →
  (¬ applied apply k → ¬ reverted revert k → V' !! k = V !! k) ∧
  (applied apply k → ¬ reverted revert k ∨ V !! k = None → V' !! k = None) ∧
  (¬ applied apply k → revertedSecp revert k →
     ∃ m, V' !! k = Some m ∧ (V !! k = Some m ∨ comesBack revert m ∧ slot m = k)).

Lemma follows_back revert apply R V V' (back : list SignedMessage) : slotted R →
  (∀ k m, R !! k = Some m → comesBack revert m) → (∀ k, revertedSecp revert k → is_Some (R !! k)) →
  (∀ k, reverted revert k ∨ applied apply k → key k.1 = k.1) →
  (∀ m, m ∈ back ↔ ∃ k, (foldl (absApply key) (R, V) (appliedIn (concat (map blks apply)))).1 !! k = Some m) →
  (∀ m, m ∈ back → is_Some (V' !! place m)) →
  (∀ k x, V' !! k = Some x → (foldl (absApply key) (R, V) (appliedIn (concat (map blks apply)))).2 !! k = Some x ∨ (x ∈ back ∧ place x = k)) →
  (∀ k, (∀ m, m ∈ back → place m ≠ k) → V' !! k = (foldl (absApply key) (R, V) (appliedIn (concat (map blks apply)))).2 !! k) →
  follows revert apply V V'.
Proof.
  intros Hsl Hcome Hlow Hkeys. pose proof (applied_elem apply) as Hap.
  assert (∀ k, is_Some (R !! k) → reverted revert k) as Hup.
  { intros k [m Hm]. rewrite <- (Hsl k m Hm). by apply comesBack_slot, (Hcome k). } set (es := appliedIn _) in *.
  pose proof (absApply_slotted key es R V Hsl) as Hsl1. set (st := foldl _ _ es) in *. intros Hback Hin Hfrom Hother [a n] Hka. simpl in Hka.
  (** a message that comes back is in its slot *)
  assert (∀ m, m ∈ back → is_Some (st.1 !! place m) ∧ is_Some (R !! place m)) as Hplace.
  { intros m (k&Hk)%Hback. pose proof (Hsl1 k m Hk) as Es. assert (is_Some (R !! k)) as HR.
    { destruct (R !! k) eqn:E; [by eexists|]. unfold st in Hk. by rewrite (absApply_None key es R V k E) in Hk. }
    assert (key k.1 = k.1) as Ek by (apply Hkeys; left; by apply Hup).
    assert (place m = k) as -> by (unfold place; subst k; simpl in *; by rewrite Ek). split; [by eexists|done]. }
  assert (¬ applied apply (a, n) → st.1 !! (a, n) = R !! (a, n) ∧ st.2 !! (a, n) = V !! (a, n)) as Hkeep.
  { intros Hna. apply absApply_other; [by rewrite Hap|]. intros e He. assert (key e.1 = e.1) as -> by (apply Hkeys; right; by apply Hap).
    intros E. apply Hna, Hap. rewrite <- E. by destruct e. }
  split_and!.
  - intros Hna Hnr. rewrite Hother; [by apply Hkeep|]. intros m Hm Ep. destruct (Hplace m Hm) as [_ HR]. rewrite Ep in HR. by apply Hnr, Hup.
  - intros Ha Hone. destruct (absApply_gone key es R V a n Hka) as [E1 E2]; [by apply Hap|..].
    { destruct Hone as [Hnr|?]; [left|by right]. apply eq_None_not_Some. intros ?. by apply Hnr, Hup. }
    rewrite Hother; [done|]. intros m Hm Ep. destruct (Hplace m Hm) as [[x Hx] _]. rewrite Ep in Hx. unfold st in Hx. congruence.
  - intros Hna Hrs. destruct (Hlow _ Hrs) as [m Hm]. destruct (Hkeep Hna) as [E1 _]. rewrite <- E1 in Hm.
    assert (m ∈ back) as Hb by (apply Hback; by exists (a, n)). pose proof (Hsl1 _ _ Hm) as Es. unfold slot in Es. injection Es as Ea En.
    specialize (Hin m Hb). unfold place in Hin. rewrite Ea, En, Hka in Hin. destruct Hin as [x Hx]. exists x. split; [done|].
    destruct (Hfrom _ _ Hx) as [Hv|[Hxb Hxp]]; [left; by rewrite <- (proj2 (Hkeep Hna))|right].
    apply Hback in Hxb as (k&Hk%absApply_sub). split; [by eapply Hcome|].
    assert (key (smFrom x) = smFrom x) as Ekx.
    { pose proof (Hsl _ _ Hk) as Es. apply (Hkeys (slot x)). left. apply Hup. rewrite Es. by eexists. }
    unfold place in Hxp. by rewrite Ekx in Hxp.
Qed.

(** All slots of the messages of reverted blocks. *)
Definition slotsOf (revert : list TipSet) : list (Address * Z) := appliedIn (concat (map blks revert)).

(** C9. A change of the head returns, however the caches and the chain store answer, and leaves the pool
    in order; when tipsets are applied, it stands at the last of them.  A slot is a sender with a nonce, and the
    senders in the blocks are key addresses.  A slot that no block touches is as before.  The slot of an applied
    message is empty, unless it was also reverted in this change and a message was pending in it.  The slot of a
    secp message of a reverted tipset that could be loaded, and that is not applied again, holds a message
    of a reverted block or the one that was pending there.  Addresses resolve, and the stores of actors and
    messages answer. *)
Theorem HeadChange_follows revert apply mp : poolOk mp → Forall (λ ts, blks ts ≠ []) revert →
  currentSize mp + Z.of_nat (length (slotsOf revert)) < 2 ^ 64 →
  (∀ k, reverted revert k ∨ applied apply k → key k.1 = k.1) →
  runs (HeadChange revert apply) mp (λ mp' r, poolOk mp' ∧ (∃ errs, r = inl errs) ∧
    (∀ ts rest, apply = rest ++ [ts] → curTs mp' = ts) ∧ follows revert apply (view mp) (view mp')).
Proof using Type*.
  intros Hok Hb Hs Hkeys. unfold HeadChange. apply runs_bind. eapply runs_mono; [apply (revertAll_runs revert ∅); [done| |done]|].
  { intros [a n] m. by rewrite lookup_flat, lookup_empty. }
  intros mp1 [[rm merr]|e] [(Hok1&_&_&Ev1&Es1) Hg]; [|done]. destruct Hg as (Hsl&Hup&_&Hlow).
  assert (∀ k m, flat rm !! k = Some m → comesBack revert m) as Hcome.
  { intros k m Hk. destruct (Hup k m Hk) as [Hx|?]; [|done]. destruct k. by rewrite lookup_flat, lookup_empty in Hx. }
  apply runs_bind. eapply runs_mono; [apply (applyAll_runs apply rm false merr (view mp) (currentSize mp)); [|lia]|].
  { split_and!; [done|done|lia]. }
  intros mp2 [[[rm2 trig] merr2]|e] [Et Hr]; [|by destruct Hr]. destruct Hr as [(Hok2&Ev2&Es2) Ef].
  set (st := foldl (absApply key) (flat rm, view mp) (appliedIn (concat (map blks apply)))) in *.
  assert (length (leftOver rm2) ≤ length (slotsOf revert))%nat as Hlen.
  { apply leftOver_slots; rewrite Ef; [by apply absApply_slotted|]. intros k [x Hx%absApply_sub].
    apply applied_elem. rewrite <- (Hsl k x Hx). by apply comesBack_slot, (Hcome k). }
  assert (∀ mp3, poolOk mp3 → view mp3 = view mp2 → currentSize mp3 = currentSize mp2 → curTs mp3 = curTs mp2 →
    runs (forEach readd (leftOver rm2) ;; mret merr2) mp3 (λ mp' r, poolOk mp' ∧ (∃ errs, r = inl errs) ∧
    (∀ ts rest, apply = rest ++ [ts] → curTs mp' = ts) ∧ follows revert apply (view mp) (view mp'))) as Hback.
  { intros mp3 Hok3 Ev3 Es3 Et3. apply runs_bind.
    eapply runs_mono; [apply (readdAll_runs st.2 (leftOver rm2) [] (currentSize mp) mp3); [|lia]|].
    { split_and!; [done|lia|by intros m ?%elem_of_nil|intros k x; left; by rewrite <- Ev2, <- Ev3|].
      intros k _. by rewrite Ev3, Ev2. }
    intros mp4 r (->&(Hok4&_&Hin&Hfrom&Hother)&Et4). simpl in Hin, Hfrom, Hother. apply runs_ret. split_and!; [done|by eexists|..].
    - intros ts rest ->. by rewrite Et4, Et3, Et, foldl_app.
    - eapply follows_back; [done|done| |done| |done|done|done].
      + intros k (ts&b&?&?&?&?). by eapply Hlow.
      + intros m. rewrite leftOver_elem. by setoid_rewrite Ef. }
  apply runs_bind. destruct trig; [apply runs_update|apply runs_ret]; apply Hback; try done. by destruct Hok2 as [[]].
Qed.
End pool.
