(* ===== verification/MsgPruneSpec.v ===== *)
(** * Pruning the pool

    Pruning brings the pool down to its low water mark, or to the messages of protected senders
    where these are more, and never touches the messages of local and preferred senders. *)

From Stdlib Require Import SpecFloat.
From coqutil Require Import Datatypes.RecordSetters.
From stdpp Require Import strings numbers base gmap fin_maps sets list.
From S2P Require Import Prelude GoStrings GoSort GoFloat GoLru FileTypes TipSets GasFees ProofLog SealTasks SealResources ChainStore.
From S2P Require Import MsgSet MsgChains MsgChainsSpec MsgSelect MsgSelectGroups MsgSelectGreedy MsgSelectSpec.
From S2P Require Import MsgSelectOptimal MsgPool MsgHead MsgPoolSpec MsgPoolAdmit MsgHeadSpec.
Import DoubleBraceUpdate.
Local Open Scope Z_scope.

Abbreviation messages := (gmap (Address * Z) SignedMessage) (only parsing).

(** ** Which messages are tracked *)

Section track.
Context `{MessageCodec} `{MapRange}.

Definition ofProtected (prot : gset Address) (V : messages) : messages := filter (λ e, e.1.1 ∈ prot) V.

Lemma track_insert_elem (l : list SignedMessage) (pm : gmap Cid SignedMessage) c m :
  foldl (λ pm m, <[MessageCid m := m]> pm) pm l !! c = Some m → pm !! c = Some m ∨ (m ∈ l ∧ MessageCid m = c).
Proof.
  revert pm. induction l as [|x l IH]; intros pm; simpl; [by left|]. intros [Hpm|[? ?]]%IH; [|right; split; [by right|done]].
  apply lookup_insert_Some in Hpm as [[<- <-]|[_ ?]]; [right; split; [by left|done]|by left].
Qed.

Lemma track_insert_cids (l : list SignedMessage) (pm : gmap Cid SignedMessage) c : is_Some (pm !! c) ∨ (∃ m, m ∈ l ∧ MessageCid m = c) →
  is_Some (foldl (λ pm m, <[MessageCid m := m]> pm) pm l !! c).
Proof.
  revert pm. induction l as [|x l IH]; intros pm; simpl; [intros [?|(m&?%elem_of_nil&_)]; done|].
  intros [Hpm|(m&[->|Hm]%elem_of_cons&Hc)]; apply IH; [left|left|right; by exists m].
  - rewrite lookup_insert_is_Some'. by right.
  - subst c. rewrite lookup_insert_eq. by eexists.
Qed.

Section sets.
Variable prot : gset Address.

Abbreviation trackStep := (λ (acc : gmap Cid SignedMessage * Z) (e : Address * gmap Z SignedMessage),
  if decide (e.1 ∈ prot) then (acc.1, acc.2 + Z.of_nat (size e.2))
  else (foldl (λ pm m, <[MessageCid m := m]> pm) acc.1 (map snd (rangeOf e.2)), acc.2)).

Lemma track_elem l acc c m : (foldl trackStep acc l).1 !! c = Some m →
  acc.1 !! c = Some m ∨ (MessageCid m = c ∧ ∃ a s n, (a, s) ∈ l ∧ a ∉ prot ∧ (s !! n = Some m)).
Proof.
  revert acc. induction l as [|[a s] l IH]; intros acc; simpl; [by left|]. intros [Hacc|(?&b&t&n&?&?&?)]%IH.
  2: { right. split; [done|]. exists b, t, n. split_and!; [by right|done..]. }
  destruct (decide (a ∈ prot)) as [|Hnp]; [by left|]. simpl in Hacc.
  apply track_insert_elem in Hacc as [?|[([n m']&->&Hn)%list_elem_of_fmap ?]]; [by left|]. right. split; [done|].
  exists a, s, n. apply rangeOf_elem in Hn. split_and!; [by left|done|done].
Qed.

Lemma track_cids l acc c : is_Some (acc.1 !! c) ∨ (∃ a s n m, (a, s) ∈ l ∧ a ∉ prot ∧ s !! n = Some m ∧ MessageCid m = c) →
  is_Some ((foldl trackStep acc l).1 !! c).
Proof.
  revert acc. induction l as [|[a s] l IH]; intros acc; simpl; [intros [?|(a&s&n&m&?%elem_of_nil&_)]; done|].
  intros [Hacc|(b&t&n&m&[[= -> ->]|Hin]%elem_of_cons&Hb&Hn&Hc)]; apply IH; simpl in *; [left|left|right; by exists b, t, n, m].
  - case_decide; [done|]. simpl. apply track_insert_cids. by left.
  - rewrite decide_False by done. simpl. apply track_insert_cids. right. exists m. split; [|done].
    apply list_elem_of_fmap. exists (n, m). split; [done|]. by apply rangeOf_elem.
Qed.

(** How many messages of protected senders a list of sets has. *)
Definition protectedIn (l : list (Address * gmap Z SignedMessage)) : nat :=
  foldr (λ e acc, if decide (e.1 ∈ prot) then size e.2 + acc else acc)%nat 0%nat l.

Lemma track_count l acc : (foldl trackStep acc l).2 = acc.2 + Z.of_nat (protectedIn l).
Proof.
  revert acc. induction l as [|e l IH]; intros acc; simpl; [lia|]. rewrite IH. case_decide; simpl; lia.
Qed.

#[export] Instance protectedIn_perm : Proper ((≡ₚ) ==> (=)) protectedIn.
Proof. intros l l' Hp. unfold protectedIn. induction Hp; simpl; [done| | |congruence]; repeat case_decide; lia. Qed.

Lemma protectedIn_view (sets : gmap Address msgSet) :
  protectedIn (map_to_list (msgs <$> sets)) = size (ofProtected prot (viewOf sets)).
Proof.
  induction sets as [|a ms sets Ha IH] using map_ind.
  { unfold ofProtected, viewOf. rewrite fmap_empty, map_to_list_empty. simpl.
    assert (map_uncurry (∅ : gmap Address (gmap Z SignedMessage)) = (∅ : messages)) as ->.
    { apply map_eq. intros [b n]. by rewrite lookup_map_uncurry, !lookup_empty. }
    by rewrite map_filter_empty, map_size_empty. }
  rewrite fmap_insert, map_to_list_insert by (by rewrite lookup_fmap, Ha). cbn [protectedIn foldr fst snd]. fold protectedIn.
  set (mine := kmap (pair a) (msgs ms) : messages).
  assert (viewOf (<[a := ms]> sets) = mine ∪ viewOf sets) as Ev.
  { apply map_eq. intros [b n]. rewrite lookup_viewOf, lookup_union. destruct (decide (b = a)) as [->|Hne].
    - rewrite lookup_insert_eq. simpl. unfold mine. rewrite (lookup_kmap (pair a)), lookup_viewOf, Ha. simpl. by destruct (msgs ms !! n).
    - rewrite lookup_insert_ne, lookup_viewOf by done. assert (mine !! (b, n) = None) as ->; [|by rewrite (left_id_L None _)].
      apply (lookup_kmap_None (pair a)). congruence. }
  assert (mine ##ₘ viewOf sets) as Hdis.
  { apply map_disjoint_spec. intros [b n] x y (k&[= -> ->]&_)%(lookup_kmap_Some (pair a)) Hy. by rewrite lookup_viewOf, Ha in Hy. }
  assert (size mine = size (msgs ms)) as Es by (unfold mine; by rewrite <- !length_map_to_list, (map_to_list_kmap (pair a)), length_fmap).
  unfold ofProtected in *. rewrite Ev, map_filter_union by done.
  assert (filter (λ e : (Address * Z) * SignedMessage, e.1.1 ∈ prot) mine = if decide (a ∈ prot) then mine else ∅) as ->.
  { case_decide; [apply map_filter_id|apply map_empty_filter_2]; intros k x (n&->&_)%(lookup_kmap_Some (pair a)); done. }
  rewrite map_size_disj_union.
  - rewrite <- IH. unfold protectedIn. case_decide; [lia|]. rewrite map_size_empty. lia.
  - case_decide; [|apply map_disjoint_empty_l]. eapply map_disjoint_weaken_r; [done|apply map_filter_subseteq].
Qed.
End sets.
End track.

(** ** Which messages are kept *)

Section prune.
Context `{LruCache} `{MessageCodec} `{SigShims} `{MapRange} `{Library}.
Variable key : Address → Address.
Variable nonceAt : Address → string → Z.
Hypothesis key_idem : ∀ a, key (key a) = key a.
Context (P : Provider) `{!KeyedProvider key nonceAt P}.
Variable UpgradeCalicoHeight : Z.

Abbreviation poolOk := (poolOk key nonceAt).
Abbreviation calm := (calm key nonceAt).
Abbreviation place := (place key).

Hypothesis resolves : ∀ a ts, ¬ unresolved P a ts.

Lemma keepLoop_lookup l lo pm cnt c m : keepLoop l lo pm cnt !! c = Some m ↔
  pm !! c = Some m ∧ c ∉ map MessageCid (take (Z.to_nat (lo - cnt)) l).
Proof.
  revert pm cnt. induction l as [|x l IH]; intros pm cnt; cbn [keepLoop]; [rewrite take_nil; simpl; set_solver|].
  case_decide.
  - replace (Z.to_nat (lo - cnt)) with (S (Z.to_nat (lo - (cnt + 1)))) by lia. cbn [take map].
    rewrite IH, lookup_delete_Some, not_elem_of_cons. naive_solver.
  - replace (Z.to_nat (lo - cnt)) with 0%nat by lia. simpl. set_solver.
Qed.

Lemma protectedAddrs_runs addrs : ∀ mp, poolOk mp →
  runs (protectedAddrs addrs) mp (λ mp' r, calm mp mp' ∧ r = inl (list_to_set (map key addrs))).
Proof using Type*.
  induction addrs as [|a addrs IH]; intros mp Hok; cbn [protectedAddrs].
  { apply runs_ret. split; [by apply calm_refl|done]. }
  apply runs_bind, runs_attempt. eapply runs_mono; [by apply (resolveToKey_runs key nonceAt key_idem P)|].
  intros mp1 [k|e] [Hc1 Hk]; [subst k|by destruct (resolves a (curTs mp))].
  apply runs_bind. eapply runs_mono; [by apply IH, Hc1|]. intros mp2 r [Hc2 ->]. apply runs_ret.
  split; [by eapply calm_trans|done].
Qed.

(** The pending messages after removing a list of them. *)
Definition without (V : messages) (l : list SignedMessage) : messages := foldl (λ V m, delete (place m) V) V l.

Lemma without_lookup l V k : without V l !! k = if decide (k ∈ map place l) then None else V !! k.
Proof.
  unfold without. revert V. induction l as [|m l IH]; intros V; cbn [foldl map]; [by rewrite decide_False by apply not_elem_of_nil|].
  rewrite IH. destruct (decide (k = place m)) as [->|Hne].
  - rewrite lookup_delete_eq. rewrite (decide_True (P := _ ∈ _ :: _)) by by left. by case_decide.
  - rewrite lookup_delete_ne by done. apply decide_ext. rewrite elem_of_cons. naive_solver.
Qed.

Lemma without_subseteq V l : without V l ⊆ V.
Proof. apply map_subseteq_spec. intros k m. rewrite without_lookup. by case_decide. Qed.

Lemma removeAll_runs l : ∀ mp, poolOk mp → currentSize mp < 2 ^ 64 →
  runs (forEach (λ m, remove (smFrom m) (smNonce m) false) l) mp (λ mp' r, r = inl tt ∧ poolOk mp' ∧ steady mp mp' ∧
    view mp' = without (view mp) l).
Proof using Type*.
  induction l as [|m l IH]; intros mp Hok Hs; cbn [forEach]; [by apply runs_ret|].
  apply runs_bind. eapply runs_mono; [by apply (remove_runs key nonceAt key_idem P)|].
  intros mp1 r (->&Hok1&Hst1&Hv1). destruct Hv1 as [Hv1|[_ Hun]]; [|by destruct (resolves (smFrom m) (curTs mp))].
  assert (currentSize mp1 < 2 ^ 64).
  { rewrite (ok_size _ _ mp1 Hok1), Hv1. rewrite (ok_size _ _ mp Hok) in Hs.
    pose proof (map_subseteq_size _ _ (delete_subseteq (view mp) (key (smFrom m), smNonce m))). lia. }
  eapply runs_mono; [by apply IH|]. intros mp2 r (->&Hok2&Hst2&Hv2). split_and!; [done|done|by eapply steady_trans|].
  by rewrite Hv2, Hv1.
Qed.

(** ** The size that is left *)

(** Senders are in their places, and no two pending messages have the same CID. *)
Definition placed (V : messages) : Prop := ∀ k m, V !! k = Some m → place m = k.
Definition cidsDiffer (V : messages) : Prop :=
  ∀ k k' m m', V !! k = Some m → V !! k' = Some m' → MessageCid m = MessageCid m' → k = k'.

Lemma pool_placed mp : poolOk mp → placed (view mp).
Proof.
  intros Hok [a n] m Hm. unfold view in Hm. rewrite lookup_viewOf in Hm. destruct (pending mp !! a) as [ms|] eqn:Ep; [|done].
  destruct (ok_sets _ _ mp Hok a ms Ep) as [[_ Hn] Hk]. unfold MsgHeadSpec.place. by rewrite (Hk n m Hm), (Hn n m Hm).
Qed.

Section count.
Variables (V : messages) (prot : gset Address) (pm : gmap Cid SignedMessage).
Hypothesis Hplaced : placed V.
Hypothesis Hcids : cidsDiffer V.
(** [pm] has the messages of the senders that are not protected. *)
Hypothesis Hpm : ∀ c m, pm !! c = Some m ↔ MessageCid m = c ∧ ∃ k, V !! k = Some m ∧ k.1 ∉ prot.
Variable kept : list Cid.
Variable l : list SignedMessage.
Hypothesis Hl : ∀ m, m ∈ l ↔ ∃ c, pm !! c = Some m ∧ c ∉ kept.

Lemma without_protected k : k.1 ∈ prot → without V l !! k = V !! k.
Proof using Hplaced Hpm Hl.
  intros Hp. rewrite without_lookup. apply decide_False. intros (m&->&(c&[_ (j&Hj&Hnp)]%Hpm&_)%Hl)%list_elem_of_fmap.
  by rewrite (Hplaced j m Hj) in Hp.
Qed.

Lemma without_kept k m : without V l !! k = Some m → k.1 ∉ prot → MessageCid m ∈ kept.
Proof using Hplaced Hpm Hl.
  rewrite without_lookup. case_decide as Hin; [done|]. intros Hk Hnp. destruct (decide (MessageCid m ∈ kept)) as [|Hno]; [done|].
  destruct Hin. rewrite <- (Hplaced k m Hk). apply list_elem_of_fmap. exists m. split; [done|]. apply Hl. exists (MessageCid m).
  split; [|done]. apply Hpm. split; [done|]. by exists k.
Qed.

Lemma without_size : (size (without V l) ≤ size (ofProtected prot V) + length kept)%nat.
Proof using All.
  set (W := without V l). rewrite <- (map_filter_union_complement (λ e, e.1.1 ∈ prot) W).
  rewrite map_size_disj_union by apply map_disjoint_filter_complement.
  assert (size (filter (λ e, e.1.1 ∈ prot) W) ≤ size (ofProtected prot V))%nat.
  { apply map_subseteq_size. unfold ofProtected. apply map_subseteq_spec. intros k m [Hk Hp]%map_lookup_filter_Some.
    apply map_lookup_filter_Some. split; [|done]. by rewrite <- without_protected. }
  set (U := filter (λ e, e.1.1 ∉ prot) W).
  assert (size U ≤ length kept)%nat; [|lia].
  rewrite <- length_map_to_list, <- (length_fmap (λ e, MessageCid e.2)). apply submseteq_length, NoDup_submseteq.
  - apply NoDup_fmap_2_strong; [|apply NoDup_map_to_list]. intros [k m] [k' m'] Hk Hk' E. simpl in E.
    apply elem_of_map_to_list, map_lookup_filter_Some in Hk as [Hk _], Hk' as [Hk' _].
    assert (k = k') as ->; [|congruence]. apply (Hcids k k' m m'); [..|done]; (eapply lookup_weaken; [done|apply without_subseteq]).
  - intros c ([k m]&->&Hk)%list_elem_of_fmap. apply elem_of_map_to_list, map_lookup_filter_Some in Hk as [Hk Hnp].
    by apply (without_kept k).
Qed.
End count.

(** ** Pruning *)

Lemma range_view (sets : gmap Address msgSet) a s n m : (a, s) ∈ rangeOf (msgs <$> sets) → s !! n = Some m →
  viewOf sets !! (a, n) = Some m.
Proof.
  rewrite rangeOf_elem, lookup_fmap. intros Ha Hn. rewrite lookup_viewOf. destruct (sets !! a) as [ms|]; [|done].
  by injection Ha as <-.
Qed.

Lemma view_range (sets : gmap Address msgSet) a n m : viewOf sets !! (a, n) = Some m →
  ∃ s, (a, s) ∈ rangeOf (msgs <$> sets) ∧ s !! n = Some m.
Proof.
  rewrite lookup_viewOf. destruct (sets !! a) as [ms|] eqn:E; [|done]. intros Hn. exists (msgs ms).
  split; [|done]. apply rangeOf_elem. by rewrite lookup_fmap, E.
Qed.

Lemma trackMsgs_spec prot sets : cidsDiffer (viewOf sets) →
  ∀ c m, (trackMsgs prot (rangeOf (msgs <$> sets))).1 !! c = Some m ↔
    MessageCid m = c ∧ ∃ k, viewOf sets !! k = Some m ∧ k.1 ∉ prot.
Proof.
  intros Hc.
  assert (∀ c m, (trackMsgs prot (rangeOf (msgs <$> sets))).1 !! c = Some m →
    MessageCid m = c ∧ ∃ k, viewOf sets !! k = Some m ∧ k.1 ∉ prot) as Hto.
  { intros c m [Hno|(Em&a&s&n&Ha&Hp&Hn)]%track_elem; [simpl in Hno; by rewrite lookup_empty in Hno|]. split; [done|].
    exists (a, n). split; [by eapply range_view|done]. }
  intros c m. split; [apply Hto|]. intros (<-&[a n]&Hk&Hp). destruct (view_range sets a n m Hk) as (s&Ha&Hn).
  destruct (track_cids prot (rangeOf (msgs <$> sets)) (∅, 0) (MessageCid m)) as [m' Hm']; [right; by exists a, s, n, m|].
  pose proof Hm' as (E&k'&Hk'&_)%Hto. rewrite (Hc k' (a, n) m' m Hk' Hk E) in Hk'. rewrite Hk in Hk'. injection Hk' as <-. done.
Qed.

Lemma trackMsgs_count prot sets :
  (trackMsgs prot (rangeOf (msgs <$> sets))).2 = Z.of_nat (size (ofProtected prot (viewOf sets))).
Proof. unfold trackMsgs. rewrite track_count, rangeOf_perm, protectedIn_view. simpl. lia. Qed.

(** Messages that have been checked, as far as chains need it. *)
Definition checked (V : messages) : Prop := ∀ k m, V !! k = Some m →
  msgOk m ∧ (sigType (smSignature m) = SigTypeBLS ∨ sigType (smSignature m) = SigTypeSecp256k1).

Lemma chains_run prot baseFee ts mp : poolOk mp → checked (view mp) →
  ∃ h chains, collectChains UpgradeCalicoHeight actorAfter baseFee ts [] (unprotected prot (rangeOf (msgs <$> pending mp)))
              = Some (h, chains).
Proof.
  intros Hok Hch.
  destruct (collectChains_ok UpgradeCalicoHeight actorAfter baseFee ts (λ m, key (smFrom m)) id
              (unprotected prot (rangeOf (msgs <$> pending mp))) []) as (h&gs&E&_); [|by eexists _, _].
  apply Forall_forall. intros [a s] [_ Ha]%list_elem_of_filter. split_and!; simpl.
  - unfold actorAfter. by destruct (GetActorAfter a ts).
  - intros n m Hn. pose proof (range_view _ a s n m Ha Hn) as Hv.
    split; [|by apply (Hch (a, n))]. pose proof (pool_placed mp Hok _ _ Hv) as Hpl. unfold MsgHeadSpec.place in Hpl. congruence.
  - intros n m Hn. pose proof (range_view _ a s n m Ha Hn) as Hv. split; [|by apply (Hch (a, n))].
    pose proof (pool_placed mp Hok _ _ Hv) as Hpl. unfold MsgHeadSpec.place in Hpl. unfold id. congruence.
Qed.

(** Senders whose messages stay. *)
Definition protectedBy (mp : MessagePool) : gset Address := list_to_set (map key (PriorityAddrs (cfg mp))) ∪ localAddrs mp.

Lemma getPendingMessages_insync ts mp : getPendingMessages ts ts mp = Some (mp, inl (msgs <$> pending mp)).
Proof.
  unfold getPendingMessages. unfold mbind, pool_bind, read. rewrite decide_True; [done|]. split; [done|]. by apply Equals_iff.
Qed.

(** C10. Pruning returns.  It only removes messages, and none of local or preferred senders; what is left
    is not more than the low water mark, or the messages of these senders where they are more.
    The counter of the pool stays exact. *)
Theorem pruneMessages_prunes ts fee mp : poolOk mp → currentSize mp < 2 ^ 64 → ChainComputeBaseFee ts = inl fee →
  checked (view mp) → cidsDiffer (view mp) →
  runs (pruneMessages UpgradeCalicoHeight ts) mp (λ mp' r, r = inl tt ∧ poolOk mp' ∧ view mp' ⊆ view mp ∧
    (∀ k, k.1 ∈ protectedBy mp → view mp' !! k = view mp !! k) ∧
    currentSize mp' ≤ Z.max (SizeLimitLow (cfg mp)) (Z.of_nat (size (ofProtected (protectedBy mp) (view mp))))).
Proof using Type*.
  intros Hok Hs Hfee Hch Hcid. unfold pruneMessages. apply runs_bind, runs_ask. rewrite Hfee. apply runs_bind, runs_attempt.
  eexists mp, _. split; [apply getPendingMessages_insync|]. apply runs_bind, runs_read, runs_bind.
  eapply runs_mono; [by apply protectedAddrs_runs|]. intros mp1 r [[Hq Hok1] ->]. apply runs_bind, runs_read.
  rewrite (q_local _ _ Hq). fold (protectedBy mp). set (prot := protectedBy mp).
  pose proof (trackMsgs_spec prot (pending mp) Hcid) as Hpm. pose proof (trackMsgs_count prot (pending mp)) as Hcnt.
  destruct (trackMsgs prot (rangeOf (msgs <$> pending mp))) as [pm cnt]. simpl in Hpm, Hcnt.
  destruct (chains_run prot (getBaseFeeLowerBound fee baseFeeLowerBoundFactor) ts mp Hok Hch) as (h&chains&->).
  set (order := concat (map (msgsAt h) _)). set (kept := map MessageCid (take (Z.to_nat (SizeLimitLow (cfg mp) - cnt)) order)).
  set (rest := keepLoop order (SizeLimitLow (cfg mp)) pm cnt).
  assert (∀ m, m ∈ map snd (rangeOf rest) ↔ ∃ c, pm !! c = Some m ∧ c ∉ kept) as Hl.
  { intros m. split.
    - intros ([c x]&->&Hc)%list_elem_of_fmap. exists c. by apply rangeOf_elem, keepLoop_lookup in Hc.
    - intros (c&Hc). apply list_elem_of_fmap. exists (c, m). split; [done|]. apply rangeOf_elem. by apply keepLoop_lookup. }
  eapply runs_mono; [apply (removeAll_runs (map snd (rangeOf rest))); [done|by rewrite (q_size _ _ Hq)]|].
  intros mp2 r (->&Hok2&_&Hv2). rewrite (quiet_view _ _ Hq) in Hv2. pose proof (pool_placed mp Hok) as Hpl.
  split_and!; [done|done|rewrite Hv2; apply without_subseteq| |].
  - intros k Hk. rewrite Hv2. by apply (without_protected (view mp) prot pm Hpl Hpm kept).
  - rewrite (ok_size _ _ mp2 Hok2), Hv2. pose proof (without_size (view mp) prot pm Hpl Hcid Hpm kept _ Hl) as Hsz.
    unfold kept in Hsz. rewrite length_map, length_take in Hsz. fold (view mp) in Hcnt. lia.
Qed.
End prune.
