(* ===== verification/MsgRepubSpec.v ===== *)
(** * Messages that are sent again

    The loop over the chains of the local senders ends; it takes of each sender the first messages
    that are due, so that the network gets them without gaps. *)

From Stdlib Require Import SpecFloat Sorted.
From coqutil Require Import Datatypes.RecordSetters.
From stdpp Require Import strings numbers base functions gmap fin_maps sets list.
From S2P Require Import Prelude GoStrings GoSort GoFloat GoLru FileTypes TipSets GasFees ProofLog SealTasks SealResources ChainStore.
From S2P Require Import MsgSet MsgChains MsgChainsSpec MsgSelect MsgSelectGroups MsgSelectGreedy MsgSelectSpec.
From S2P Require Import MsgSelectOptimal MsgPool MsgHead MsgPoolSpec MsgPoolAdmit MsgHeadSpec MsgPruneSpec.
Import DoubleBraceUpdate.
Local Open Scope Z_scope.

Lemma filter_prefix {A} (P : A → Prop) `{!∀ x, Decision (P x)} (l l' : list A) : l `prefix_of` l' → filter P l `prefix_of` filter P l'.
Proof. intros [k ->]. rewrite filter_app. by apply prefix_app_r. Qed.

Lemma prefix_take_self {A} n (l : list A) : take n l `prefix_of` l.
Proof. exists (drop n l). by rewrite take_drop. Qed.

Lemma concat_perm {A} (ls ls' : list (list A)) : ls ≡ₚ ls' → concat ls ≡ₚ concat ls'.
Proof.
  induction 1 as [|l ls ls' _ IH|l l' ls|? ? ? _ IH1 _ IH2]; simpl; [done|by rewrite IH| |by etrans].
  rewrite !app_assoc. by rewrite (Permutation_app_comm l' l).
Qed.

Lemma sumGas_perm l l' : l ≡ₚ l' → sumGas l = sumGas l'.
Proof. unfold sumGas. induction 1; simpl; lia. Qed.

(** Elements without messages do not count. *)
Lemma concat_elements {A} (f : Address → list A) (X : gset Address) xs : NoDup xs → (∀ x, x ∈ xs → x ∈ X) →
  (∀ x, x ∈ X → x ∉ xs → f x = []) → concat (map f xs) ≡ₚ concat (map f (elements X)).
Proof.
  intros Hnd Hsub Hnone. set (ys := filter (λ x, x ∉ xs) (elements X)).
  assert (elements X ≡ₚ xs ++ ys) as HX.
  { apply NoDup_Permutation; [apply NoDup_elements| |].
    - apply NoDup_app. split_and!; [done| |apply NoDup_filter, NoDup_elements]. intros x Hx [? _]%list_elem_of_filter. done.
    - intros x. rewrite elem_of_elements, elem_of_app. unfold ys. rewrite list_elem_of_filter, elem_of_elements.
      destruct (decide (x ∈ xs)); naive_solver. }
  rewrite (concat_perm _ _ (fmap_Permutation f _ _ HX)). unfold fmap. rewrite map_app, concat_app.
  replace (concat (map f ys)) with (@nil A); [by rewrite app_nil_r|].
  assert (Forall (λ y, f y = []) ys) as Hys.
  { apply Forall_forall. intros y [Hy Hin%elem_of_elements]%list_elem_of_filter. by apply Hnone. }
  clear HX. induction Hys as [|y ys Hy _ IH]; [done|]. simpl. by rewrite Hy, <- IH.
Qed.

(** ** Messages of one chain *)

Lemma takeMsgs_spec l lower : ∀ gas out, Forall (λ m, 0 < smGasLimit m) l → sumGas l ≤ gas ≤ BlockGasLimit →
  ∃ pre b, takeMsgs l lower gas out = (gas - sumGas pre, out ++ pre, b) ∧ pre `prefix_of` l ∧
    Forall (λ m, lower ≤ smGasFeeCap m) pre ∧ (b = true → pre = l) ∧ (Forall (λ m, lower ≤ smGasFeeCap m) l → b = true).
Proof.
  induction l as [|m l IH]; intros gas out Hpos Hgas; cbn [takeMsgs].
  { exists [], true. simpl. rewrite app_nil_r, Z.sub_0_r. by split_and!. }
  apply Forall_cons in Hpos as [Hm Hpos]. pose proof (sumGas_nonneg l Hpos) as Hl. change (sumGas (m :: l)) with (smGasLimit m + sumGas l) in Hgas.
  case_decide as Hcap.
  { exists [], false. simpl. rewrite app_nil_r, Z.sub_0_r. split_and!; [done|by apply prefix_nil|done|done|]. intros [? _]%Forall_cons. lia. }
  rewrite wrapGas by lia. destruct (IH (gas - smGasLimit m) (out ++ [m]) Hpos) as (pre&b&->&Hpre&Hcaps&Hb&Hall); [lia|].
  exists (m :: pre), b. split_and!.
  - rewrite <- app_assoc. change (sumGas (m :: pre)) with (smGasLimit m + sumGas pre). do 2 f_equal. lia.
  - by apply prefix_cons.
  - constructor; [lia|done].
  - intros ->. by rewrite Hb.
  - intros [_ ?]%Forall_cons. by apply Hall.
Qed.

(** ** The loop *)

(** The rest of a group is given up after a part of a chain. *)
Lemma groupInv_shorten h g k R R' : groupInv h g k R → R' `prefix_of` R →
  (∀ i c, (k ≤ i < length (gchunks g))%nat → h !! (gbase g + i)%nat = Some c → valid c = false) → groupInv h g k R'.
Proof. intros [Hk Ht Hw Hc] Hp Hinv. split; [done|by etrans|by right|done]. Qed.

Section loop.
Variable own : SignedMessage → Address.
Variable gs : list group.
Variables lower baseFee : Z.

Record repubOk (h : list msgChain) (ks : Address → nat) (gas : Z) (out : list SignedMessage) : Prop := {
  rp_taken : takenInv own gs [] h out ks;
  rp_gas : 0 ≤ gas;
  rp_sum : gas + sumGas out = BlockGasLimit;
  rp_caps : Forall (λ m, lower ≤ smGasFeeCap m ∧ 0 < smGasLimit m) out
}.

Lemma rp_bound h ks gas out : repubOk h ks gas out → gas ≤ BlockGasLimit.
Proof.
  intros [_ _ Hs Hc]. assert (0 ≤ sumGas out); [|lia]. apply sumGas_nonneg. eapply Forall_impl; [exact Hc|]. by intros m [].
Qed.

Lemma repubOk_app h h' ks ks' gas out pre : repubOk h ks gas out → takenInv own gs [] h' (out ++ pre) ks' → sumGas pre ≤ gas →
  Forall (λ m, 0 < smGasLimit m) pre → Forall (λ m, lower ≤ smGasFeeCap m) pre → repubOk h' ks' (gas - sumGas pre) (out ++ pre).
Proof.
  intros [_ Hg Hs Hc] Ht Hle Hpos Hcaps. split; [done|lia|rewrite sumGas_app; lia|].
  apply Forall_app. split; [done|]. rewrite Forall_forall in *. auto.
Qed.

(** A chain that fits. *)
Lemma repub_take h ks p L gas out c : repubOk h ks gas out → listInv gs h ks (p :: L) → h !! p = Some c → valid c = true →
  cgasLimit c ≤ gas →
  ∃ pre b, takeMsgs (cmsgs c) lower gas out = (gas - sumGas pre, out ++ pre, b) ∧
    if (b : bool) then ∃ ks', repubOk h ks' (gas - sumGas pre) (out ++ pre) ∧ listInv gs h ks' L
    else ∃ h' ks', Invalidate (length h) h p = Some h' ∧ repubOk h' ks' (gas - sumGas pre) (out ++ pre) ∧ listInv gs h' ks' L ∧
      isValid h' p = false ∧ (msgCount h' < msgCount h)%nat ∧ is_Some (h' !! p).
Proof.
  intros Hrp Hl Hc Hv Hfit. pose proof (rp_bound _ _ _ _ Hrp) as Hbound. pose proof (rp_taken _ _ _ _ Hrp) as Htk.
  destruct (MsgSelectGreedy.place own gs [] h out ks p Htk) as (g&i&c'&Hg&Hi&Ep&Hc'&Hcell); [apply (list_heap _ _ _ _ Hl); by left|].
  rewrite Hc in Hc'. injection Hc' as <-.
  assert (i = ks (gowner g)) as Hik by by eapply (head_is_next own gs []).
  pose proof (tk_layout _ _ _ _ _ _ Htk) as Hlay.
  destruct (cell_gas_bound _ _ _ _ _ (lay_ok _ _ _ Hlay g Hg) Hcell Hv) as (Hpos&Hgas&_).
  destruct (takeMsgs_spec (cmsgs c) lower gas out Hpos) as (pre&b&E&Hpre&Hcaps&Hb&_); [lia|]. exists pre, b. split; [done|].
  assert (sumGas pre ≤ gas) as Hle by (pose proof (sumGas_prefix pre (cmsgs c) Hpre Hpos); lia).
  assert (Forall (λ m, 0 < smGasLimit m) pre) as Hpos' by by eapply Forall_prefix.
  subst p. assert (takenInv own gs [] h (out ++ cmsgs c) (<[gowner g := S i]> ks)) as Hall.
  { pose proof (takenInv_take own gs [] h out ks g i c Htk Hg ltac:(lia) Hc Hv) as Ht.
    rewrite <- Hik, drop_ge in Ht by (rewrite length_take; lia). done. }
  assert (listInv gs h (<[gowner g := S i]> ks) L) as Hl' by by eapply (listInv_take own gs []).
  destruct b; [rewrite (Hb eq_refl) in *; eexists; split; [by apply (repubOk_app h h ks)|done]|].
  destruct (Invalidate_cut h g _ _ i (tk_groups _ _ _ _ _ _ Htk g Hg) Hi) as (h'&Einv&Hcut&Hgone).
  pose proof (takenInv_cut own gs [] h _ _ g i h' Hall Hg Hi Hcut) as Hall'.
  destruct (cut_here _ _ _ _ Hcut c Hc) as (c1&Hc1&_). destruct (Hgone c1 Hc1) as [Hv1 Hm1].
  exists h', (<[gowner g := S i]> ks). split_and!; [done| | | | |by eexists].
  - apply (repubOk_app h h' ks); [done| |done..]. pose proof (takenInv_cut own gs [] h out ks g i h' Htk Hg Hi Hcut) as Htk'.
    apply (takenInv_app own gs [] h' out ks g); [done|done| |].
    + eapply Forall_prefix; [done|]. pose proof (chain_own own gs [] h out ks g i c Htk Hg Hi Hc Hv) as Hown. by apply Forall_app in Hown as [_ ?].
    + pose proof (tk_groups _ _ _ _ _ _ Hall' g Hg) as Hgrp. rewrite fn_lookup_insert, filter_app, (filter_own_all own _ (cmsgs c)) in Hgrp.
      2: { pose proof (chain_own own gs [] h out ks g i c Htk Hg Hi Hc Hv) as Hown. by apply Forall_app in Hown as [_ ?]. }
      apply (groupInv_shorten h' g (S i) _ _ Hgrp); [by apply prefix_app|]. intros j d Hj Hd.
      destruct (group_cells _ _ _ _ (tk_groups _ _ _ _ _ _ Htk g Hg) j) as (d0&Hd0&_); [lia|].
      destruct (cut_later _ _ _ _ Hcut j d0 ltac:(lia) Hd0) as (d'&Hd'&_&_&?). congruence.
  - apply (listInv_take own gs [] h' out ks (gbase g + i) L g i); [by eapply takenInv_cut| |done..].
    apply (listInv_cut own gs [] h h' out ks (gbase g + i) L g i); [done..|by left].
  - unfold isValid. by rewrite Hc1.
  - eapply (msgCount_lt h h'); [by apply (cut_length _ _ _ _ Hcut)|by intros; eapply cutAt_shrinks|exact Hc|exact Hc1|].
    rewrite Hm1. pose proof (cell_nonempty _ _ _ _ _ Hcell Hv). destruct (cmsgs c); [done|simpl; lia].
Qed.

(** A chain that does not fit. *)
Lemma repub_trim h ks p L gas out c : repubOk h ks gas out → listInv gs h ks (p :: L) → h !! p = Some c → valid c = true →
  gas < cgasLimit c →
  ∃ h', Trim h p gas repubMsgLimit baseFee = Some h' ∧ repubOk h' ks gas out ∧
    listInv gs h' ks (pushDown (lessAt Before h') p L) ∧ (msgCount h' < msgCount h)%nat.
Proof.
  intros Hrp Hl Hc Hv Hlarge. pose proof Hrp as [Htk Hg0 Hs Hcaps].
  destruct (MsgSelectGreedy.place own gs [] h out ks p Htk) as (g&i&c'&Hg&Hi&->&Hc'&Hcell); [apply (list_heap _ _ _ _ Hl); by left|].
  rewrite Hc in Hc'. injection Hc' as <-.
  destruct (Trim_cut h g _ _ i c gas repubMsgLimit baseFee (lay_ok _ _ _ (tk_layout _ _ _ _ _ _ Htk) g Hg)
              (tk_groups _ _ _ _ _ _ Htk g Hg) Hi Hc) as (h'&d&E&Hcut&Hd&Hshort).
  exists h'. split_and!; [done|by split; [by eapply takenInv_cut|..]| |].
  - eapply (listInv_cut own gs []); [done..|right; by eexists].
  - eapply (msgCount_lt h h'); [by apply (cut_length _ _ _ _ Hcut)|by intros; eapply cutAt_shrinks|exact Hc|exact Hd|].
    apply Hshort; [by apply (cell_nonempty _ _ _ _ _ Hcell)|by left].
Qed.

(** The loop ends: every turn drops a chain or messages. *)
Lemma repubLoop_run fuel : ∀ h ks L gas out, (length L + msgCount h < fuel)%nat → repubOk h ks gas out → listInv gs h ks L →
  ∃ h' ks' gas' out', repubLoop fuel lower baseFee h L gas out = Some out' ∧ repubOk h' ks' gas' out'.
Proof.
  induction fuel as [fuel IH] using lt_wf_ind. intros h ks L gas out Hf Hrp Hl. destruct fuel as [|fuel]; [lia|].
  cbn [repubLoop]. destruct L as [|p L]; [by eauto 10|]. case_decide; [by eauto 10|].
  destruct (lookup_head _ _ _ _ _ Hl) as [c Hc]. rewrite Hc. cbn [mbind option_bind]. destruct (valid c) eqn:Hv; cbn [negb].
  2: { apply (IH fuel ltac:(lia) h ks); [simpl in Hf; lia|done|]. eapply listInv_skip; [done|]. unfold isValid. by rewrite Hc. }
  case_decide as Hfit.
  - destruct (repub_take h ks p L gas out c Hrp Hl Hc Hv Hfit) as (pre&[]&->&Hnext).
    + destruct Hnext as (ks'&Hrp'&Hl'). apply (IH fuel ltac:(lia) h ks'); [simpl in Hf; lia|done..].
    + destruct Hnext as (h'&ks'&->&Hrp'&Hl'&Hinv&Hcount&[d Hd]). cbn [mbind option_bind]. simpl in Hf.
      destruct fuel as [|fuel]; [lia|]. cbn [repubLoop]. case_decide; [by eauto 10|].
      unfold isValid in Hinv. rewrite Hd in Hinv |- *. cbn [mbind option_bind]. rewrite Hinv. cbn [negb].
      apply (IH fuel ltac:(lia) h' ks'); [lia|done..].
  - destruct (repub_trim h ks p L gas out c Hrp Hl Hc Hv) as (h'&->&Hrp'&Hl'&Hcount); [lia|]. cbn [mbind option_bind].
    apply (IH fuel ltac:(lia) h' ks); [rewrite pushDown_perm; simpl in *; lia|done..].
Qed.

(** When all messages fit, all are taken. *)
Lemma repubLoop_all h L : ∀ fuel gas out, (length L < fuel)%nat →
  Forall (λ p, ∃ c, h !! p = Some c ∧ valid c = true ∧ cgasLimit c = sumGas (cmsgs c) ∧ Forall (λ m, 0 < smGasLimit m) (cmsgs c)) L →
  sumGas (concat (map (msgsAt h) L)) + MinGas < gas ≤ BlockGasLimit →
  (length out + length (concat (map (msgsAt h) L)) ≤ Z.to_nat repubMsgLimit)%nat →
  Forall (λ m, lower ≤ smGasFeeCap m) (concat (map (msgsAt h) L)) →
  repubLoop fuel lower baseFee h L gas out = Some (out ++ concat (map (msgsAt h) L)).
Proof.
  induction L as [|p L IH]; intros [|fuel] gas out Hf Hok Hgas Hlen Hcaps; simpl in Hf; try lia; cbn [repubLoop map concat].
  { by rewrite app_nil_r. }
  apply Forall_cons in Hok as [(c&Hc&Hv&Hg&Hpos) Hok]. cbn [map concat] in *.
  assert (msgsAt h p = cmsgs c) as Em by (unfold msgsAt; by rewrite Hc). rewrite Em in *. rewrite Hc, sumGas_app in *. rewrite length_app in Hlen. apply Forall_app in Hcaps as [Hcap Hcaps].
  assert (0 ≤ sumGas (concat (map (msgsAt h) L))) as H0.
  { apply sumGas_nonneg, Forall_concat, Forall_map. eapply Forall_impl; [exact Hok|]. intros q (d&Hd&_&_&?). unfold msgsAt. by rewrite Hd. }
  pose proof (sumGas_nonneg _ Hpos). assert (0 < MinGas) by (unfold MinGas; lia). unfold repubMsgLimit in *. rewrite decide_False by lia. cbn [mbind option_bind]. rewrite Hv. cbn [negb].
  rewrite decide_True by lia. destruct (takeMsgs_spec (cmsgs c) lower gas out Hpos) as (pre&b&->&_&_&Hb&Hall); [lia|].
  rewrite (Hall Hcap) in *. rewrite (Hb eq_refl). rewrite app_assoc. apply IH; [lia|done|lia|rewrite length_app; lia|done].
Qed.
End loop.

(** ** All chains of a fresh heap *)

Lemma group_messages fee h g : freshCells fee h g →
  concat (map (msgsAt h) (seq (gbase g) (length (gchunks g)))) = concat (gchunks g).
Proof.
  intros (cs&Eg&Hh&_). rewrite Eg, length_map. f_equal. apply list_eq. intros i. rewrite !list_lookup_fmap.
  destruct (decide (i < length cs)%nat) as [Hi|Hi].
  - rewrite lookup_seq_lt by done. simpl. unfold msgsAt. rewrite Hh by done. destruct (lookup_lt_is_Some_2 cs i Hi) as [c ->]. done.
  - rewrite (lookup_ge_None_2 cs) by lia. by rewrite lookup_seq_ge by lia.
Qed.

Lemma placed_messages fee h gs : ∀ base, MsgSelectSpec.placed base gs → Forall (freshCells fee h) gs →
  concat (map (msgsAt h) (seq base (extent gs))) = concat (map (λ g, concat (gchunks g)) gs).
Proof.
  induction gs as [|g gs IH]; intros base; simpl; [done|]. intros [<- Hp] [Hg Hgs]%Forall_cons.
  rewrite seq_app, map_app, concat_app, (group_messages fee h g Hg). by rewrite IH.
Qed.

(** ** Republishing *)

Section repub.
Context `{LruCache} `{MessageCodec} `{SigShims} `{MapRange} `{Library}.
Variable key : Address → Address.
Variable nonceAt : Address → string → Z.
Hypothesis key_idem : ∀ a, key (key a) = key a.
Context (P : Provider) `{!KeyedProvider key nonceAt P}.
Variable UpgradeCalicoHeight : Z.

Abbreviation poolOk := (poolOk key nonceAt).
Abbreviation calm := (calm key nonceAt).
Abbreviation own := (λ m, key (smFrom m)).
Abbreviation dueOf := (dueOf UpgradeCalicoHeight actorAfter).

(** Pending messages of senders that are their own keys. *)
Definition localOk (pend : gmap Address (gmap Z SignedMessage)) : Prop := ∀ a s, pend !! a = Some s → msetOk s ∧
  ∀ n m, s !! n = Some m → own m = a ∧ (sigType (smSignature m) = SigTypeBLS ∨ sigType (smSignature m) = SigTypeSecp256k1).

(** The messages that are due, sender by sender. *)
Definition dueIn (ts : TipSet) (pend : gmap Address (gmap Z SignedMessage)) (a : Address) : list SignedMessage :=
  match pend !! a with Some s => dueOf ts (a, s) | None => [] end.
Definition allDue (ts : TipSet) (pend : gmap Address (gmap Z SignedMessage)) : list SignedMessage :=
  concat (map (dueOf ts) (rangeOf pend)).

Lemma local_started lower ts pend : localOk pend →
  ∃ h gs, collectChains UpgradeCalicoHeight actorAfter lower ts [] (rangeOf pend) = Some (h, seq 0 (length h)) ∧
    started UpgradeCalicoHeight actorAfter lower ts own id h (rangeOf pend) gs (emptySelection 0).
Proof.
  intros Hp. destruct (collectChains_ok UpgradeCalicoHeight actorAfter lower ts own id (rangeOf pend) []) as (h&gs&E&Hg&Hpl&Hext).
  { apply Forall_forall. intros [a s] Ha%rangeOf_elem. destruct (Hp a s Ha) as [Hm Ho]. split_and!; simpl; [|done..].
    unfold actorAfter. by destruct (GetActorAfter a ts). }
  exists h, gs. split; [exact E|]. simpl in *. split; [done..| | |constructor].
  - rewrite (groupFor_keys UpgradeCalicoHeight actorAfter lower ts own h (rangeOf pend) gs id Hg).
    eapply NoDup_Permutation_proper; [apply fmap_Permutation, rangeOf_perm|]. apply NoDup_fst_map_to_list.
  - unfold budgetOk, emptySelection, BlockMessageLimit. simpl. unfold BlockGasLimit. lia.
Qed.

(** What the loop has taken of a sender is due. *)
Lemma taken_due lower ts pend h gs h' ks out a : started UpgradeCalicoHeight actorAfter lower ts own id h (rangeOf pend) gs (emptySelection 0) →
  takenInv own gs [] h' out ks → filter (λ m, own m = a) out `prefix_of` dueIn ts pend a.
Proof.
  intros [Hg _ _ _ _ _] [_ Hgs Hrest]. destruct (decide (a ∈ map gowner gs)) as [(g&->&Hin)%list_elem_of_fmap|Hna].
  - destruct (groupsFor_elem _ _ _ _ _ _ _ _ _ _ Hg Hin) as ([b s]&He%rangeOf_elem&Eo&Econ&_). simpl in Eo. unfold id in Eo.
    unfold dueIn. rewrite Eo, He. rewrite <- Econ. rewrite <- Eo.
    destruct (Hgs g Hin) as [_ Ht _ _]. etrans; [exact Ht|apply prefix_concat_take].
  - rewrite filter_none; [apply prefix_nil|]. apply Forall_forall. intros m Hm E.
    apply (not_elem_of_nil m). rewrite <- Hrest. apply list_elem_of_filter. by rewrite E.
Qed.

Lemma fresh_messages lower ts pend h gs : started UpgradeCalicoHeight actorAfter lower ts own id h (rangeOf pend) gs (emptySelection 0) →
  concat (map (msgsAt h) (seq 0 (length h))) = allDue ts pend.
Proof.
  intros [Hg Hp He _ _ _]. rewrite <- He. rewrite (placed_messages lower h gs 0 Hp).
  - unfold allDue. f_equal. clear Hp He. induction Hg as [|e g l gs (_&E&_) _ IH]; [done|]. simpl. by rewrite E, IH.
  - clear Hp He. induction Hg as [|e g l gs (_&_&?&_) _ IH]; by constructor.
Qed.

(** The messages to send again: at most 30, of each sender the first ones that are due, and all
    that are due when they fit. *)
Lemma repubMessages_run fee ts pend : let lower := getBaseFeeLowerBound fee baseFeeLowerBoundFactor in localOk pend →
  ∃ ms, repubMessages UpgradeCalicoHeight fee ts pend = Some ms ∧ (length ms ≤ Z.to_nat repubMsgLimit)%nat ∧
    Forall (λ m, lower ≤ smGasFeeCap m) ms ∧ (∀ a, filter (λ m, own m = a) ms `prefix_of` dueIn ts pend a) ∧
    ((length (allDue ts pend) ≤ Z.to_nat repubMsgLimit)%nat → sumGas (allDue ts pend) + MinGas < BlockGasLimit →
     Forall (λ m, lower ≤ smGasFeeCap m) (allDue ts pend) → ms ≡ₚ allDue ts pend).
Proof.
  intros lower Hp. unfold repubMessages. fold lower. destruct (local_started lower ts pend Hp) as (h&gs&->&Hst). cbn [mbind option_bind].
  destruct (started_list _ _ _ _ _ _ _ _ _ _ (seq 0 (length h)) Hst (Permutation_refl _)) as [Hl Hv].
  set (L := sortSlice (lessAt Before h) (seq 0 (length h))) in *.
  pose proof (sel_taken _ _ _ _ _ _ (started_sel _ _ _ _ _ _ _ _ _ _ Hst)) as Htk. simpl in Htk.
  assert (repubOk own gs lower h (λ _, 0%nat) BlockGasLimit []) as Hrp by (split; [done|unfold BlockGasLimit; lia|done|constructor]).
  destruct (repubLoop_run own gs lower fee (repubFuel h L) h (λ _, 0%nat) L BlockGasLimit []) as (h'&ks'&gas'&out&Eo&[Htk' _ _ Hcaps]);
    [unfold repubFuel, msgCount; lia|done|done|].
  rewrite Eo. cbn [mbind option_bind]. eexists. split; [reflexivity|]. split_and!.
  - rewrite length_take. lia.
  - apply Forall_take. eapply Forall_impl; [exact Hcaps|]. by intros m [].
  - intros a. etrans; [apply filter_prefix, prefix_take_self|]. by eapply taken_due.
  - intros Hlen Hgas Hcap. rewrite <- (fresh_messages _ _ _ _ _ Hst) in *.
    assert (concat (map (msgsAt h) L) ≡ₚ concat (map (msgsAt h) (seq 0 (length h)))) as HL.
    { apply concat_perm, fmap_Permutation. unfold L. by rewrite sortSlice_perm. }
    rewrite (repubLoop_all lower fee h L) in Eo; [injection Eo as <-|..].
    + rewrite take_ge; [done|]. simpl. rewrite HL. lia.
    + unfold repubFuel. lia.
    + eapply Forall_impl; [exact Hv|]. intros p Hvp. unfold isValid in Hvp. destruct (h !! p) as [c|] eqn:Hc; [|done]. exists c.
      destruct (MsgSelectGreedy.place own gs [] h [] _ p Htk) as (g&i&c'&_&_&_&Hc'&Hcell); [by apply lookup_lt_Some in Hc|].
      rewrite Hc in Hc'. injection Hc' as <-. by destruct (cell_gas _ _ _ _ _ Hcell Hvp).
    + rewrite (sumGas_perm _ _ HL). unfold BlockGasLimit in *. lia.
    + simpl. rewrite HL. lia.
    + by rewrite HL.
Qed.

(** ** The local senders *)

(** The sets of local senders that are known under their keys. *)
Definition localSets (mp : MessagePool) (addrs : list Address) (pend : gmap Address (gmap Z SignedMessage)) : Prop :=
  (∀ a s, pend !! a = Some s → a ∈ addrs ∧ ∃ ms, pending mp !! a = Some ms ∧ msgs ms = s) ∧
  (∀ a ms, a ∈ addrs → ¬ unresolved P a (curTs mp) → pending mp !! a = Some ms → msgs ms ≠ ∅ → pend !! a = Some (msgs ms)).

Lemma localSets_quiet mp mp' addrs pend : quiet mp mp' → localSets mp' addrs pend → localSets mp addrs pend.
Proof. intros Hq [H4 H5]. split; [|]; [rewrite <- (q_pending _ _ Hq)|rewrite <- (q_pending _ _ Hq), <- (q_ts _ _ Hq)]; done. Qed.

Lemma localPending_runs addrs : ∀ mp, poolOk mp → Forall (λ a, key a = a) addrs →
  runs (localPending addrs) mp (λ mp' r, calm mp mp' ∧ ∃ pend, r = inl pend ∧ localSets mp addrs pend).
Proof using Type*.
  induction addrs as [|a addrs IH]; intros mp Hok Hk; cbn [localPending].
  { apply runs_ret. split; [by apply calm_refl|]. exists ∅. split; [done|]. split; [by intros a s|by intros a ms ?%elem_of_nil]. }
  apply Forall_cons in Hk as [Ha Hk]. apply runs_bind, runs_attempt. eapply runs_mono; [by apply (getPendingMset_runs key nonceAt key_idem P)|].
  intros mp1 o [Hc1 Ho]. apply runs_bind. eapply runs_mono; [apply IH; [apply Hc1|done]|].
  intros mp2 r (Hc2&pend&->&Hsets). apply (localSets_quiet _ _ _ _ (proj1 Hc1)) in Hsets. destruct Hsets as [Hin Hall].
  apply runs_ret. split; [by eapply calm_trans|]. eexists. split; [reflexivity|]. rewrite Ha in Ho.
  assert (∀ pend', (∀ b s, pend' !! b = Some s → pend !! b = Some s ∨ (b = a ∧ ∃ ms, pending mp !! a = Some ms ∧ msgs ms = s)) →
    (∀ ms, ¬ unresolved P a (curTs mp) → pending mp !! a = Some ms → msgs ms ≠ ∅ → pend' !! a = Some (msgs ms)) →
    (∀ b, b ≠ a → pend' !! b = pend !! b) → localSets mp (a :: addrs) pend') as Hset.
  { intros pend' Hsub Hhere Hother. split.
    - intros b s Hb. destruct (Hsub b s Hb) as [Hb'|[-> ?]]; [|split; [by left|done]]. destruct (Hin b s Hb'). split; [by right|done].
    - intros b ms Hb Hr Hms Hne. destruct (decide (b = a)) as [->|Hba]; [by apply Hhere|].
      apply elem_of_cons in Hb as [?|Hb]; [done|]. rewrite Hother by done. by apply Hall. }
  destruct o as [[[ra ms]|]|e].
  - destruct Ho as [-> Hp]. case_decide as Hsz; apply Hset; try done; try (by intros; left).
    + intros ms' _ Hms' Hne. rewrite Hp in Hms'. injection Hms' as <-. apply map_size_empty_iff in Hsz. done.
    + intros b s [[<- <-]|[_ ?]]%lookup_insert_Some; [right; by eauto|by left].
    + intros ms' _ Hms' _. rewrite Hp in Hms'. injection Hms' as <-. by rewrite lookup_insert_eq.
    + intros b Hb. by rewrite lookup_insert_ne.
  - apply Hset; [by intros; left| |done]. intros ms _ Hms. congruence.
  - apply Hset; [by intros; left| |done]. intros ms Hr. done.
Qed.

(** What a local sender is due to have sent. *)
Definition localDue (mp : MessagePool) (a : Address) : list SignedMessage :=
  match pending mp !! a with Some ms => dueOf (curTs mp) (a, msgs ms) | None => [] end.
Definition allLocalDue (mp : MessagePool) : list SignedMessage := concat (map (localDue mp) (elements (localAddrs mp))).

Lemma localDue_in mp addrs pend a : localSets mp addrs pend → dueIn (curTs mp) pend a `prefix_of` localDue mp a.
Proof.
  intros [Hin _]. unfold dueIn, localDue. destruct (pend !! a) as [s|] eqn:E; [|apply prefix_nil].
  by destruct (Hin a s E) as (_&ms&->&->).
Qed.

Lemma dueOf_empty ts a : dueOf ts (a, ∅) = [].
Proof. unfold MsgSelectSpec.dueOf. simpl. destruct (actorAfter a ts); [|done..]. unfold due. done. Qed.

(** Nothing that is due is left out when all senders are resolved. *)
Lemma allDue_local mp addrs pend : localSets mp addrs pend → (∀ a, a ∈ addrs ↔ a ∈ localAddrs mp) →
  (∀ a, a ∈ localAddrs mp → ¬ unresolved P a (curTs mp)) → allDue (curTs mp) pend ≡ₚ allLocalDue mp.
Proof.
  intros [Hin Hall] Haddrs Hres. unfold allDue, allLocalDue.
  rewrite (concat_perm _ (map (λ e, localDue mp e.1) (map_to_list pend))).
  2: { rewrite rangeOf_perm. erewrite (map_ext_in (dueOf (curTs mp))); [done|]. intros [a s] Ha%list_elem_of_In%elem_of_map_to_list.
       unfold localDue. simpl. by destruct (Hin a s Ha) as (_&ms&->&->). }
  rewrite <- (map_map fst (localDue mp)). apply concat_elements.
  - apply NoDup_fst_map_to_list.
  - intros a ([b s]&->&Ha%elem_of_map_to_list)%list_elem_of_fmap. apply Haddrs. by apply (Hin b s).
  - intros a Ha Hna. unfold localDue. destruct (pending mp !! a) as [ms|] eqn:Ep; [|done].
    destruct (decide (msgs ms = ∅)) as [->|Hne]; [apply dueOf_empty|]. destruct Hna. apply list_elem_of_fmap. exists (a, msgs ms).
    split; [done|]. apply elem_of_map_to_list. apply Hall; [by apply Haddrs|by apply Hres|done|done].
Qed.

(** ** Sending *)

Lemma publishAll_runs ms : ∀ mp, poolOk mp →
  runs (forEach publishMsg ms) mp (λ mp' r, poolOk mp' ∧ pending mp' = pending mp ∧ republished mp' = republished mp ∧
    ∃ sent, sent `prefix_of` ms ∧ published mp' = published mp ++ map Serialize sent ∧ (r = inl tt → sent = ms)).
Proof.
  induction ms as [|m ms IH]; intros mp Hok; cbn [forEach].
  { apply runs_ret. split_and!; [done..|]. exists []. simpl. by rewrite app_nil_r. }
  apply runs_bind. unfold publishMsg at 1. apply runs_bind, runs_must. destruct (PubSubPublish (Serialize m)) as [e|].
  { split_and!; [done..|]. exists []. simpl. rewrite app_nil_r. split_and!; [by apply prefix_nil|done|done]. }
  apply runs_update. eapply runs_mono; [apply IH; by destruct Hok as [[]]|]. intros mp2 r (Hok2&Ep&Er&sent&Hpre&Es&Hr).
  split_and!; [done..|]. exists (m :: sent). split_and!; [by apply prefix_cons| |intros E; by rewrite (Hr E)].
  rewrite Es. change (published (mp {{ published := _ }})) with (published mp ++ [Serialize m]). by rewrite <- app_assoc.
Qed.

Lemma localOk_pool mp addrs pend : poolOk mp → checked (view mp) → localSets mp addrs pend → localOk pend.
Proof.
  intros Hok Hch [Hin _] a s Ha. destruct (Hin a s Ha) as (_&ms&Ep&<-). destruct (ok_sets _ _ mp Hok a ms Ep) as [[_ Hn] Hk].
  assert (∀ n m, msgs ms !! n = Some m → view mp !! (a, n) = Some m) as Hv by (intros n m Hm; unfold view; by rewrite lookup_viewOf, Ep).
  split; [intros n m Hm; split; [by apply Hn|]|intros n m Hm; split; [by apply (Hk n)|]]; by apply (Hch (a, n) m), Hv.
Qed.

Lemma rangeOf_set (X : gset Address) a : a ∈ map fst (rangeOf (gset_to_gmap () X)) ↔ a ∈ X.
Proof.
  rewrite list_elem_of_fmap. split.
  - intros ([b []]&->&Hb%rangeOf_elem). by apply lookup_gset_to_gmap_Some in Hb as [? _].
  - intros Ha. exists (a, ()). split; [done|]. apply rangeOf_elem. by apply lookup_gset_to_gmap_Some.
Qed.

Lemma localSets_sender mp addrs pend ms m : localSets mp addrs pend →
  (∀ a, filter (λ m, key (smFrom m) = a) ms `prefix_of` dueIn (curTs mp) pend a) → m ∈ ms → key (smFrom m) ∈ addrs.
Proof.
  intros [Hin _] Hpre Hm. specialize (Hpre (key (smFrom m))).
  assert (m ∈ filter (λ m', key (smFrom m') = key (smFrom m)) ms) as Hf by by apply list_elem_of_filter.
  destruct Hpre as [k Ek]. unfold dueIn in Ek. destruct (pend !! key (smFrom m)) as [s|] eqn:E; [by apply (Hin _ s)|].
  symmetry in Ek. apply app_nil in Ek as [Ek _]. rewrite Ek in Hf. by apply elem_of_nil in Hf.
Qed.

(** What is sent again of the messages that are due. *)
Record resent (mp : MessagePool) (lower : Z) (ms : list SignedMessage) : Prop := {
  re_limit : Z.of_nat (length ms) ≤ 30;
  re_pays : Forall (λ m, lower ≤ smGasFeeCap m ∧ key (smFrom m) ∈ localAddrs mp) ms;
  re_first a : filter (λ m, key (smFrom m) = a) ms `prefix_of` localDue mp a;
  re_all : (∀ a, a ∈ localAddrs mp → ¬ unresolved P a (curTs mp)) → Z.of_nat (length (allLocalDue mp)) ≤ 30 →
    sumGas (allLocalDue mp) + MinGas < BlockGasLimit → Forall (λ m, lower ≤ smGasFeeCap m) (allLocalDue mp) → ms ≡ₚ allLocalDue mp
}.

Lemma repubMessages_resent mp fee addrs pend : poolOk mp → checked (view mp) → localSets mp addrs pend →
  (∀ a, a ∈ addrs ↔ a ∈ localAddrs mp) →
  ∃ ms, repubMessages UpgradeCalicoHeight fee (curTs mp) pend = Some ms ∧
    resent mp (getBaseFeeLowerBound fee baseFeeLowerBoundFactor) ms ∧ (pend = ∅ → ms = []).
Proof.
  intros Hok Hch Hsets Haddrs.
  destruct (repubMessages_run fee (curTs mp) pend (localOk_pool mp addrs pend Hok Hch Hsets)) as (ms&Ems&Hlen&Hcaps&Hpre&Hall).
  exists ms. split_and!; [done|split|].
  - unfold repubMsgLimit in Hlen. lia.
  - apply Forall_forall. intros m Hm. split; [by rewrite Forall_forall in Hcaps; apply Hcaps|]. apply Haddrs.
    eapply localSets_sender; [exact Hsets|exact Hpre|done].
  - intros a. etrans; [apply Hpre|by eapply localDue_in].
  - intros Hres. pose proof (allDue_local mp addrs pend Hsets Haddrs Hres) as Hp. rewrite <- (sumGas_perm _ _ Hp).
    intros Hn Hg Hc. rewrite <- Hp in Hn, Hc |- *. apply Hall; [unfold repubMsgLimit; lia|done..].
  - intros ->. destruct ms as [|m ms]; [done|]. specialize (Hpre (key (smFrom m))). unfold dueIn in Hpre.
    rewrite lookup_empty, filter_cons_True in Hpre by done. destruct Hpre as [k Hk]. done.
Qed.

(** C12. Sending again returns, whatever the network answers, and keeps the pool.  It sends at most 30
    messages; they pay the base fee of the coming blocks, and of every local sender they are the first
    ones that are due, in the order of their nonces, so that none is received before the one it
    waits for.  When all that is due pays enough and fits into a block and the limit, all of it is sent.
    The messages sent are remembered, so that a block with one of them triggers the next turn. *)
Theorem republish_sends mp fee : poolOk mp → checked (view mp) → (∀ a, a ∈ localAddrs mp → key a = a) →
  ChainComputeBaseFee (curTs mp) = inl fee →
  runs (republishPendingMessages UpgradeCalicoHeight) mp (λ mp' r, poolOk mp' ∧ pending mp' = pending mp ∧ ∃ ms sent,
    resent mp (getBaseFeeLowerBound fee baseFeeLowerBoundFactor) ms ∧ sent `prefix_of` ms ∧
    published mp' = published mp ++ map Serialize sent ∧
    (r = inl tt → sent = ms ∧ republished mp' = list_to_set (map SignedCid ms))).
Proof using Type*.
  intros Hok Hch Hlocal Hfee. unfold republishPendingMessages. apply runs_bind, runs_read, runs_bind, runs_ask. rewrite Hfee.
  apply runs_bind, runs_update. set (mp1 := mp {{ republished := ∅ }}). assert (poolOk mp1) as Hok1 by by destruct Hok as [[]].
  apply runs_bind, runs_read. set (addrs := map fst _). change (localAddrs mp1) with (localAddrs mp) in addrs.
  assert (∀ a, a ∈ addrs ↔ a ∈ localAddrs mp) as Haddrs by (intros a; unfold addrs; apply rangeOf_set).
  apply runs_bind. eapply runs_mono; [apply (localPending_runs addrs mp1 Hok1)|].
  { apply Forall_forall. intros a Ha. by apply Hlocal, Haddrs. }
  intros mp2 r ([Hq2 Hok2]&pend&->&Hsets).
  destruct (repubMessages_resent mp fee addrs pend Hok Hch Hsets Haddrs) as (ms&Ems&Hre&Hnil). case_decide as Hempty.
  - apply runs_ret. split; [done|]. split; [by rewrite (q_pending _ _ Hq2)|]. rewrite (Hnil Hempty) in Hre.
    exists [], []. split_and!; [done..| |].
    + simpl. rewrite app_nil_r. by rewrite (q_published _ _ Hq2).
    + intros _. split; [done|]. by rewrite (q_republished _ _ Hq2).
  - rewrite Ems. apply runs_bind. eapply runs_mono; [apply (publishAll_runs ms mp2 Hok2)|].
    intros mp3 r (Hok3&Ep&Er&sent&Hsent&Es&Hr). rewrite (q_published _ _ Hq2) in Es. rewrite (q_pending _ _ Hq2) in Ep.
    destruct r as [[]|e].
    + apply runs_update. split; [by destruct Hok3 as [[]]|]. split; [done|]. exists ms, sent. split_and!; [done..|].
      intros _. split; [by apply Hr|done].
    + split; [done|]. split; [done|]. exists ms, sent. by split_and!.
Qed.
End repub.
