(* ===== verification/MsgCheck.v ===== *)
(** * Checks of messages before they are sent (chain/messagepool/check.go)

    Clients ask which of their messages the pool would accept.  For every message there is a list of
    checks, each with its outcome; the nonces and the funds of a sender are counted along the list.
    The hints of the checks are left out. *)

From coqutil Require Import Datatypes.RecordSetters.
From stdpp Require Import strings numbers base functions gmap fin_maps sets list.
From S2P Require Import Prelude GoStrings GoSort GoFloat GoLru ProofLog TipSets GasFees FileTypes SealTasks SealResources MsgSet.
From S2P Require Import MsgChains MsgSelect MsgPool MsgHead MsgPoolSpec MsgPoolAdmit MsgHeadSpec.
Local Open Scope Z_scope.

Inductive CheckStatusCode :=
| CheckStatusMessageSerialize | CheckStatusMessageSize | CheckStatusMessageValidity | CheckStatusMessageMinGas
| CheckStatusMessageMinBaseFee | CheckStatusMessageBaseFee | CheckStatusMessageBaseFeeLowerBound
| CheckStatusMessageBaseFeeUpperBound | CheckStatusMessageGetStateNonce | CheckStatusMessageNonce
| CheckStatusMessageGetStateBalance | CheckStatusMessageBalance.

Record MessageCheckStatus := mkCheck { ckCid : Cid; ckCode : CheckStatusCode; ckOK : bool; ckErr : string }.

(** A message is given without its signature, which is not looked at. *)
Record MessagePrototype := mkPrototype { protoMessage : SignedMessage; ValidNonce : bool }.

(** The next nonce of a sender and the funds that its messages need. *)
Record actorState := mkActorState { asNonce : Z; asFunds : Z }.

(** [UpgradeSchedule.GetNtwkVersion] (chain/stmgr/forks.go): the heights and versions of the schedule. *)
Definition GetNtwkVersion (GenesisNetworkVersion : Z) (us : list (Z * Z)) (e : Z) : Z :=
  match filter (λ u, u.1 < e) (rev us) with u :: _ => u.2 | [] => GenesisNetworkVersion end.

Section check.
Context `{LruCache} `{Provider} `{MessageCodec} `{MapRange}.
Variable ZeroAddress : Address.
Variable UpgradeCalicoHeight : Z.
(** [mp.getNtwkVersion]; the schedule never gives an error. *)
Variable getNtwkVersion : Z → Z.
(** [Provider.IsLite] *)
Variable IsLite : bool.

Definition baseFeeUpperBoundFactor : Z := 10.

Definition passed (m : SignedMessage) (code : CheckStatusCode) : MessageCheckStatus := mkCheck (MessageCid m) code true "".
Definition failed (m : SignedMessage) (code : CheckStatusCode) (err : string) : MessageCheckStatus := mkCheck (MessageCid m) code false err.
Definition verdict (m : SignedMessage) (code : CheckStatusCode) (ok : bool) (err : string) : MessageCheckStatus :=
  if ok then passed m code else failed m code err.

(** The text of an error of the chain. *)
Definition errText (e : poolErr) : string := match e with OtherErr text => text | Wraps _ => "" end.

(** ** The sender *)

Abbreviation states := (gmap Address actorState) (only parsing).
Abbreviation balances := (gmap Address (option Z)) (only parsing).

(** The pending messages are looked up under the address as it is given. *)
Definition checkStateNonce (interned : bool) (ts : TipSet) (m : SignedMessage) (st : states) : pool (states * MessageCheckStatus) :=
  match st !! smFrom m with
  | Some _ => mret (st, passed m CheckStatusMessageGetStateNonce)
  | None =>
      sets ← read pending;
      match sets !! smFrom m, interned with
      | Some ms, false =>
          let funds := foldl (λ acc x, acc + smValue x) (requiredFunds ms) (map snd (rangeOf (msgs ms))) in
          mret (<[smFrom m := mkActorState (nextNonce ms) funds]> st, passed m CheckStatusMessageGetStateNonce)
      | _, _ =>
          r ← attempt (getStateNonce (smFrom m) ts);
          mret (match r with
                | inl n => (<[smFrom m := mkActorState n 0]> st, passed m CheckStatusMessageGetStateNonce)
                | inr e => (<[smFrom m := mkActorState 0 0]> st,
                            failed m CheckStatusMessageGetStateNonce ("error retrieving state nonce: " +:+ errText e))
                end)
      end
  end.

(** [None] is the empty integer, which is kept when the balance is not known. *)
Definition checkStateBalance (ts : TipSet) (m : SignedMessage) (bal : balances) : pool (balances * option Z * MessageCheckStatus) :=
  match bal !! smFrom m with
  | Some b => mret (bal, b, passed m CheckStatusMessageGetStateBalance)
  | None =>
      r ← attempt (getStateBalance (smFrom m) ts);
      mret (match r with
            | inl b => (<[smFrom m := Some b]> bal, Some b, passed m CheckStatusMessageGetStateBalance)
            | inr e => (<[smFrom m := None]> bal, None,
                        failed m CheckStatusMessageGetStateBalance ("error retrieving state balance: " +:+ errText e))
            end)
  end.

(** ** The message *)

Definition checkSize (m : SignedMessage) : MessageCheckStatus :=
  verdict m CheckStatusMessageSize (bool_decide (Z.of_nat (String.length (SerializeMessage m)) ≤ MaxMessageSize - 128)) "message too big".

Definition checkValidity (epoch : Z) (m : SignedMessage) : MessageCheckStatus :=
  match ValidForBlockInclusion AddressUndef ZeroAddress (VMMessage m) 0 (getNtwkVersion epoch) with
  | None => passed m CheckStatusMessageValidity
  | Some err => failed m CheckStatusMessageValidity ("syntactically invalid message: " +:+ err)
  end.

Definition messageMinGas (epoch : Z) (m : SignedMessage) : Z :=
  Total (OnChainMessage (PricelistByEpoch UpgradeCalicoHeight epoch) (Z.of_nat (String.length (SerializeMessage m)))).

Definition checkMinGas (epoch : Z) (m : SignedMessage) : MessageCheckStatus :=
  verdict m CheckStatusMessageMinGas (bool_decide (messageMinGas epoch m ≤ smGasLimit m)) "GasLimit less than epoch minimum gas".

(** The checks of the fee cap; below the minimum there is only one.  The last one is a warning. *)
Definition checkFees (baseFee : Z) (m : SignedMessage) : list MessageCheckStatus :=
  if decide (smGasFeeCap m < minimumBaseFee) then [failed m CheckStatusMessageMinBaseFee "GasFeeCap less than minimum base fee"]
  else
    let lower := getBaseFeeLowerBound baseFee baseFeeLowerBoundFactor in
    let upper := baseFee * baseFeeUpperBoundFactor in
    [passed m CheckStatusMessageMinBaseFee;
     verdict m CheckStatusMessageBaseFee (bool_decide (baseFee ≤ smGasFeeCap m)) "GasFeeCap less than current base fee";
     verdict m CheckStatusMessageBaseFeeLowerBound (bool_decide (lower ≤ smGasFeeCap m))
       "GasFeeCap less than base fee lower bound for inclusion in next 20 epochs";
     mkCheck (MessageCid m) CheckStatusMessageBaseFeeUpperBound true
       (if decide (smGasFeeCap m < upper) then "GasFeeCap less than base fee upper bound for inclusion in next 20 epochs" else "")].

(** ** Nonce and funds along the list *)

Definition checkNextNonce (flexible : bool) (m : SignedMessage) (st : actorState) : Z * MessageCheckStatus :=
  if decide (flexible = false ∧ asNonce st ≠ smNonce m)
  then (asNonce st, failed m CheckStatusMessageNonce ("message nonce doesn't match next nonce (" +:+ Itoa (asNonce st) +:+ ")"))
  else (wrapUint64 (asNonce st + 1), passed m CheckStatusMessageNonce).

(** A comparison with the empty integer panics. *)
Definition checkFunds (m : SignedMessage) (balance : option Z) (funds : Z) : pool MessageCheckStatus :=
  match balance with
  | Some b => mret (verdict m CheckStatusMessageBalance (bool_decide (funds ≤ b)) "insufficient balance")
  | None => crash
  end.

Definition checkState (flexible : bool) (m : SignedMessage) (balance : option Z) (st : states) : pool (states * list MessageCheckStatus) :=
  match st !! smFrom m with
  | None => crash
  | Some s =>
      let '(next, nonceCheck) := checkNextNonce flexible m s in
      let funds := asFunds s + RequiredFunds m + smValue m in
      fundsCheck ← checkFunds m balance funds;
      mret (<[smFrom m := mkActorState next funds]> st, [nonceCheck; fundsCheck])
  end.

(** One turn of the loop; a failed check of the first ones ends it. *)
Definition checkOne (interned : bool) (ts : TipSet) (baseFee : Z) (m : SignedMessage) (flexible : bool) (st : states) (bal : balances) :
    pool (states * balances * list MessageCheckStatus) :=
  let epoch := height ts + 1 in
  '(st1, c0) ← checkStateNonce interned ts m st;
  if negb (ckOK c0) then mret (st1, bal, [c0])
  else
    '(bal1, balance, c1) ← checkStateBalance ts m bal;
    if negb (ckOK c1) then mret (st1, bal1, [c0; c1])
    else
      let front := [c0; c1; passed m CheckStatusMessageSerialize; checkSize m; checkValidity epoch m] in
      if negb (ckOK (checkValidity epoch m)) then mret (st1, bal1, front)
      else
        '(st2, back) ← checkState flexible m balance st1;
        mret (st2, bal1, front ++ checkMinGas epoch m :: checkFees baseFee m ++ back).

Fixpoint checkLoop (interned : bool) (ts : TipSet) (baseFee : Z) (l : list (SignedMessage * bool)) (st : states) (bal : balances) :
    pool (list (list MessageCheckStatus)) :=
  match l with
  | [] => mret []
  | (m, flexible) :: l' =>
      '(st', bal', checks) ← checkOne interned ts baseFee m flexible st bal;
      rest ← checkLoop interned ts baseFee l' st' bal';
      mret (checks :: rest)
  end.

(** Every message comes with the flag whether its nonce is still open. *)
Definition checkMessages (l : list (SignedMessage * bool)) (interned : bool) : pool (list (list MessageCheckStatus)) :=
  if IsLite then mret []
  else
    ts ← read curTs;
    baseFee ← match blks ts with
              | b :: _ => mret (ParentBaseFee b)
              | [] => ask (ChainComputeBaseFee ts)
              end;
    checkLoop interned ts baseFee l ∅ ∅.

(** ** The three questions *)

Definition CheckMessages (protos : list MessagePrototype) : pool (list (list MessageCheckStatus)) :=
  checkMessages (map (λ p, (protoMessage p, negb (ValidNonce p))) protos) false.

Definition inOrder (ms : gmap Z SignedMessage) : list (SignedMessage * bool) :=
  map (λ m, (m, false)) (sortBy nonceLess (map snd (rangeOf ms))).

Definition CheckPendingMessages (from : Address) : pool (list (list MessageCheckStatus)) :=
  sets ← read pending;
  match sets !! from with
  | Some ms => if decide (size (msgs ms) = 0%nat) then mret [] else checkMessages (inOrder (msgs ms)) true
  | None => mret []
  end.

(** The pending messages of the senders with the given ones in their places. *)
Definition replaceIn (sets : gmap Address msgSet) (replace : list SignedMessage) : gmap Address (gmap Z SignedMessage) :=
  foldl (λ acc m,
    let mmap := match acc !! smFrom m with
                | Some mmap => mmap
                | None => match sets !! smFrom m with Some ms => msgs ms | None => ∅ end
                end in
    <[smFrom m := <[smNonce m := m]> mmap]> acc) ∅ replace.

Definition CheckReplaceMessages (replace : list SignedMessage) : pool (list (list MessageCheckStatus)) :=
  sets ← read pending;
  checkMessages (concat (map (λ e, inOrder e.2) (rangeOf (replaceIn sets replace)))) true.
End check.

(** * What the checks of messages say

    All checks of a list of messages pass exactly when every message could be included in a block, the
    nonces of each sender go on from the next one, and the balance of each sender covers its pending
    messages and these. *)

(** ** Nonces and funds of a sender *)

(** What a message costs its sender at most. *)
Definition cost (m : SignedMessage) : Z := RequiredFunds m + smValue m.
Definition costs (l : list (SignedMessage * bool)) : Z := foldr (λ p acc, cost p.1 + acc) 0 l.

(** The nonces go on from [n]; an open nonce takes the next one. *)
Fixpoint numbered (n : Z) (l : list (SignedMessage * bool)) : Prop :=
  match l with
  | [] => True
  | (m, flexible) :: l' => (flexible = false → smNonce m = n) ∧ numbered (wrapUint64 (n + 1)) l'
  end.

Definition stepState (s : actorState) (m : SignedMessage) : actorState :=
  mkActorState (wrapUint64 (asNonce s + 1)) (asFunds s + RequiredFunds m + smValue m).

Section senders.
Variable balanceOf : Address → Z.
Variable good : SignedMessage → Prop.
Hypothesis good_cost : ∀ m, good m → 0 ≤ cost m.

(** All messages pass, with the states of the senders along the list. *)
Fixpoint allGood (cur : Address → actorState) (l : list (SignedMessage * bool)) : Prop :=
  match l with
  | [] => True
  | (m, flexible) :: l' =>
      let s := cur (smFrom m) in
      good m ∧ (flexible = false → smNonce m = asNonce s) ∧ asFunds s + RequiredFunds m + smValue m ≤ balanceOf (smFrom m) ∧
      allGood (<[smFrom m := stepState s m]> cur) l'
  end.

Definition senderGood (s : actorState) (a : Address) (l : list (SignedMessage * bool)) : Prop :=
  numbered (asNonce s) l ∧ (l ≠ [] → asFunds s + costs l ≤ balanceOf a).

Abbreviation ofSender a := (filter (λ p : SignedMessage * bool, smFrom p.1 = a)).

Lemma costs_nonneg l : Forall (λ p, good p.1) l → 0 ≤ costs l.
Proof using good_cost. induction 1 as [|p l Hp _ IH]; simpl; [lia|]. pose proof (good_cost _ Hp). lia. Qed.

Lemma Forall_ofSender a l : Forall (λ p, good p.1) l → Forall (λ p, good p.1) (ofSender a l).
Proof. rewrite !Forall_forall. intros Hl p [_ Hp]%list_elem_of_filter. by apply Hl. Qed.

Lemma senderGood_cons s m fl l : good m → Forall (λ p, good p.1) l →
  senderGood s (smFrom m) ((m, fl) :: l) ↔
  (fl = false → smNonce m = asNonce s) ∧ asFunds s + RequiredFunds m + smValue m ≤ balanceOf (smFrom m) ∧
  senderGood (stepState s m) (smFrom m) l.
Proof using good_cost.
  intros Hm Hl. pose proof (costs_nonneg l Hl). unfold senderGood, stepState. simpl. unfold cost. split.
  - intros [[? ?] Hf]. specialize (Hf ltac:(done)). split_and!; [done|lia|done|]. intros _. lia.
  - intros (?&?&?&Hf). split; [done|]. intros _. destruct l as [|p l]; [simpl; lia|]. specialize (Hf ltac:(done)). lia.
Qed.

Lemma allGood_senders l : ∀ cur, allGood cur l ↔ Forall (λ p, good p.1) l ∧ ∀ a, senderGood (cur a) a (ofSender a l).
Proof using good_cost.
  induction l as [|[m fl] l IH]; intros cur; simpl.
  { split; [|done]. intros _. split; [done|]. intros a. by split. }
  rewrite IH, Forall_cons. simpl. split.
  - intros (Hm&Hn&Hf&Hl&Hs). split; [done|]. intros a. specialize (Hs a). destruct (decide (a = smFrom m)) as [->|Hne].
    + rewrite fn_lookup_insert in Hs. rewrite filter_cons_True by done. apply senderGood_cons; [done|by apply Forall_ofSender|done].
    + rewrite fn_lookup_insert_ne in Hs by done. by rewrite filter_cons_False by (simpl; congruence).
  - intros ((Hm&Hl)&Hs). pose proof (Hs (smFrom m)) as Hown. rewrite filter_cons_True in Hown by done.
    apply senderGood_cons in Hown as (?&?&Hown); [|done|by apply Forall_ofSender]. split_and!; [done..|].
    intros a. destruct (decide (a = smFrom m)) as [->|Hne]; [by rewrite fn_lookup_insert|].
    rewrite fn_lookup_insert_ne by done. specialize (Hs a). by rewrite filter_cons_False in Hs by (simpl; congruence).
Qed.
End senders.

(** ** The checks *)

Definition allOK (cs : list MessageCheckStatus) : Prop := Forall (λ c, ckOK c = true) cs.

Lemma verdict_OK `{MessageCodec} m code (P : Prop) `{!Decision P} err : ckOK (verdict m code (bool_decide P) err) = true ↔ P.
Proof. unfold verdict. case_bool_decide; simpl; naive_solver. Qed.

Section check.
Context `{LruCache} `{MessageCodec} `{SigShims} `{MapRange}.
Variable key : Address → Address.
Variable nonceAt : Address → string → Z.
Hypothesis key_idem : ∀ a, key (key a) = key a.
Context (P : Provider) `{!KeyedProvider key nonceAt P}.
Variable ZeroAddress : Address.
Variable UpgradeCalicoHeight : Z.
Variable getNtwkVersion : Z → Z.

Abbreviation poolOk := (poolOk key nonceAt).
Abbreviation calm := (calm key nonceAt).

(** A message that could be included in the next block. *)
Definition includable (ts : TipSet) (fee : Z) (m : SignedMessage) : Prop :=
  let epoch := height ts + 1 in
  Z.of_nat (String.length (SerializeMessage m)) ≤ MaxMessageSize - 128 ∧
  ValidForBlockInclusion AddressUndef ZeroAddress (VMMessage m) 0 (getNtwkVersion epoch) = None ∧
  messageMinGas UpgradeCalicoHeight epoch m ≤ smGasLimit m ∧
  minimumBaseFee ≤ smGasFeeCap m ∧ fee ≤ smGasFeeCap m ∧ getBaseFeeLowerBound fee baseFeeLowerBoundFactor ≤ smGasFeeCap m.

Lemma includable_cost ts fee m : includable ts fee m → 0 ≤ cost m.
Proof.
  intros (_&Hv&_&_&_&_). unfold cost, RequiredFunds. pose proof (wrapUint64_range (smGasLimit m)).
  unfold ValidForBlockInclusion, VMMessage in Hv. simpl in Hv. repeat (case_decide; [done|]). nia.
Qed.

Definition balanceOf (ts : TipSet) (a : Address) : Z := match GetActorAfter a ts with inl act => actBalance act | inr _ => 0 end.
Definition known (ts : TipSet) (a : Address) : Prop := ∃ act, GetActorAfter a ts = inl act.

(** What counts of a sender before the first message of the list. *)
Definition start (interned : bool) (mp : MessagePool) (a : Address) : actorState :=
  match pending mp !! a, interned with
  | Some ms, false => mkActorState (nextNonce ms) (fundsOf (msgs ms) + foldr (λ m acc, smValue m + acc) 0 (map snd (map_to_list (msgs ms))))
  | _, _ => mkActorState (nonceAt a (Key (Some (curTs mp)))) 0
  end.

Definition curState (interned : bool) (mp : MessagePool) (st : gmap Address actorState) (a : Address) : actorState :=
  default (start interned mp a) (st !! a).

Definition balancesOk (ts : TipSet) (bal : gmap Address (option Z)) : Prop := ∀ a b, bal !! a = Some b → b = Some (balanceOf ts a).

Lemma sum_values (f : SignedMessage → Z) l : ∀ z, foldl (λ acc x, acc + f x) z l = z + foldr (λ m acc, f m + acc) 0 l.
Proof. induction l as [|m l IH]; intros z; simpl; [lia|]. rewrite IH. lia. Qed.

Lemma sum_values_perm (f : SignedMessage → Z) l l' : l ≡ₚ l' → foldr (λ m acc, f m + acc) 0 l = foldr (λ m acc, f m + acc) 0 l'.
Proof. induction 1; simpl; lia. Qed.

Lemma checkStateNonce_runs interned m st mp : poolOk mp → known (curTs mp) (smFrom m) →
  runs (checkStateNonce interned (curTs mp) m st) mp (λ mp' r, calm mp mp' ∧ ∃ c, ckOK c = true ∧
    r = inl (<[smFrom m := curState interned mp st (smFrom m)]> st, c)).
Proof using Type*.
  intros Hok [act Ea]. pose proof (calm_refl key nonceAt mp Hok) as Hc. unfold checkStateNonce, curState.
  destruct (st !! smFrom m) as [s|] eqn:Es.
  { apply runs_ret. split; [done|]. exists (passed m CheckStatusMessageGetStateNonce). split; [done|]. do 2 f_equal. symmetry. by apply insert_id. }
  apply runs_bind, runs_read. unfold start. simpl.
  assert (runs (r ← attempt (getStateNonce (smFrom m) (curTs mp));
     mret (match r with
           | inl n => (<[smFrom m := mkActorState n 0]> st, passed m CheckStatusMessageGetStateNonce)
           | inr e => (<[smFrom m := mkActorState 0 0]> st,
                       failed m CheckStatusMessageGetStateNonce ("error retrieving state nonce: " +:+ errText e))
           end)) mp (λ mp' r, calm mp mp' ∧ ∃ c, ckOK c = true ∧
    r = inl (<[smFrom m := mkActorState (nonceAt (smFrom m) (Key (Some (curTs mp)))) 0]> st, c))) as Hstate.
  { apply runs_bind, runs_attempt. eapply runs_mono; [by apply (getStateNonce_runs key nonceAt)|].
    intros mp1 [n|e] [Hc1 Hn]; [subst n|destruct Hn; congruence]. apply runs_ret. split; [done|].
    by exists (passed m CheckStatusMessageGetStateNonce). }
  destruct (pending mp !! smFrom m) as [ms|] eqn:Ep; [|exact Hstate]. destruct interned; [exact Hstate|].
  apply runs_ret. split; [done|]. exists (passed m CheckStatusMessageGetStateNonce). split; [done|]. do 4 f_equal.
  destruct (ok_sets _ _ mp Hok _ ms Ep) as [[-> _] _]. rewrite (sum_values smValue). f_equal. apply sum_values_perm. by rewrite rangeOf_perm.
Qed.

Lemma checkStateBalance_runs m bal mp : poolOk mp → known (curTs mp) (smFrom m) → balancesOk (curTs mp) bal →
  runs (checkStateBalance (curTs mp) m bal) mp (λ mp' r, calm mp mp' ∧ ∃ bal' c, ckOK c = true ∧ balancesOk (curTs mp) bal' ∧
    r = inl (bal', Some (balanceOf (curTs mp) (smFrom m)), c)).
Proof.
  intros Hok [act Ea] Hb. pose proof (calm_refl key nonceAt mp Hok) as Hc. unfold checkStateBalance.
  destruct (bal !! smFrom m) as [b|] eqn:Eb.
  { apply runs_ret. split; [done|]. rewrite (Hb _ _ Eb).
    by exists bal, (passed m CheckStatusMessageGetStateBalance). }
  apply runs_bind, runs_attempt. unfold getStateBalance. apply runs_bind, runs_ask. rewrite Ea. apply runs_ret, runs_ret.
  split; [done|]. assert (balanceOf (curTs mp) (smFrom m) = actBalance act) as -> by (unfold balanceOf; by rewrite Ea).
  exists (<[smFrom m := Some (actBalance act)]> bal), (passed m CheckStatusMessageGetStateBalance).
  split_and!; [done| |done]. intros a b [[<- <-]|[_ ?]]%lookup_insert_Some; [|by apply Hb].
  unfold balanceOf. by rewrite Ea.
Qed.

Lemma checkFees_OK fee m : allOK (checkFees fee m) ↔ minimumBaseFee ≤ smGasFeeCap m ∧ fee ≤ smGasFeeCap m ∧
  getBaseFeeLowerBound fee baseFeeLowerBoundFactor ≤ smGasFeeCap m.
Proof.
  unfold allOK, checkFees. case_decide as Hmin.
  - rewrite Forall_singleton. simpl. split; [done|lia].
  - rewrite !Forall_cons, !verdict_OK. simpl. split; [intros (_&?&?&_); by split_and!; [lia|..]|]. by intros (_&?&?).
Qed.

(** Nonce and funds of one message. *)
Lemma checkState_runs flexible m ts st s mp : poolOk mp → st !! smFrom m = Some s →
  runs (checkState flexible m (Some (balanceOf ts (smFrom m))) st) mp (λ mp' r, mp' = mp ∧ ∃ s' cs, r = inl (<[smFrom m := s']> st, cs) ∧
    (allOK cs ↔ (flexible = false → smNonce m = asNonce s) ∧ asFunds s + RequiredFunds m + smValue m ≤ balanceOf ts (smFrom m)) ∧
    (allOK cs → s' = stepState s m)).
Proof.
  intros Hok Es. unfold checkState. rewrite Es. destruct (checkNextNonce flexible m s) as [next nc] eqn:En. apply runs_bind, runs_ret, runs_ret.
  split; [done|]. eexists _, _. split; [reflexivity|]. unfold allOK. rewrite !Forall_cons, verdict_OK, Forall_nil.
  unfold checkNextNonce in En. case_decide as Hn; injection En as <- <-; simpl.
  - split; [|by intros [? _]]. split; [by intros [? _]|]. intros [Hm _]. destruct Hn as [-> Hne]. by rewrite Hm in Hne.
  - split; [|done]. split; [intros (_&?&_); split; [|done]|by intros [_ ?]]. intros ->. destruct (decide (smNonce m = asNonce s)); [done|].
    destruct Hn. split; [done|congruence].
Qed.

(** What one turn of the loop leaves for the next. *)
Lemma checkOne_runs interned fee m flexible st bal mp : poolOk mp → known (curTs mp) (smFrom m) → balancesOk (curTs mp) bal →
  let s := curState interned mp st (smFrom m) in
  runs (checkOne ZeroAddress UpgradeCalicoHeight getNtwkVersion interned (curTs mp) fee m flexible st bal) mp (λ mp' r, calm mp mp' ∧
    ∃ st' bal' cs, r = inl (st', bal', cs) ∧ balancesOk (curTs mp) bal' ∧ (∀ b, b ≠ smFrom m → st' !! b = st !! b) ∧
      (allOK cs ↔ includable (curTs mp) fee m ∧ (flexible = false → smNonce m = asNonce s) ∧
                  asFunds s + RequiredFunds m + smValue m ≤ balanceOf (curTs mp) (smFrom m)) ∧
      (allOK cs → st' !! smFrom m = Some (stepState s m))).
Proof using Type*.
  intros Hok Hk Hb s. unfold checkOne. apply runs_bind. eapply runs_mono; [by apply checkStateNonce_runs|].
  intros mp1 r (Hc1&c0&E0&->). rewrite E0. cbn [negb]. pose proof (proj1 Hc1) as Hq1. fold s.
  rewrite <- (q_ts _ _ Hq1) in *. apply runs_bind. eapply runs_mono; [apply checkStateBalance_runs; [apply Hc1|done|done]|].
  intros mp2 r (Hc2&bal'&c1&E1&Hb'&->). rewrite E1. cbn [negb]. pose proof (calm_trans _ _ _ _ _ Hc1 Hc2) as Hc.
  assert (∀ b, b ≠ smFrom m → <[smFrom m := s]> st !! b = st !! b) as Hoth by (intros b ?; by rewrite lookup_insert_ne).
  set (ts := curTs mp1) in *. destruct (ckOK (checkValidity _ _ (height ts + 1) m)) eqn:Ev; cbn [negb].
  2: { apply runs_ret. split; [done|]. eexists _, _, _. split; [reflexivity|]. split_and!; [done|done| |].
       - unfold allOK. rewrite !Forall_cons. split; [by intros (_&_&_&_&?&_); congruence|].
         intros ((_&Hv&_)&_). unfold checkValidity in Ev. by rewrite Hv in Ev.
       - unfold allOK. rewrite !Forall_cons. intros (_&_&_&_&?&_). congruence. }
  apply runs_bind. eapply runs_mono; [apply (checkState_runs flexible m ts); [apply Hc2|by rewrite lookup_insert_eq]|].
  intros mp3 r (->&s'&cs&->&Hcs&Hs'). apply runs_ret. split; [done|]. eexists _, _, _. split; [reflexivity|].
  assert (allOK ([c0; c1; passed m CheckStatusMessageSerialize; checkSize m; checkValidity ZeroAddress getNtwkVersion (height ts + 1) m]
           ++ checkMinGas UpgradeCalicoHeight (height ts + 1) m :: checkFees fee m ++ cs) ↔
    includable ts fee m ∧ allOK cs) as Hall.
  { unfold allOK. cbn [app]. rewrite !Forall_cons, Forall_app. fold (allOK (checkFees fee m)) (allOK cs). rewrite checkFees_OK.
    unfold checkSize, checkMinGas. rewrite !verdict_OK. unfold includable.
    assert (ValidForBlockInclusion AddressUndef ZeroAddress (VMMessage m) 0 (getNtwkVersion (height ts + 1)) = None) as Hv.
    { unfold checkValidity in Ev. by destruct (ValidForBlockInclusion _ _ _ _ _). }
    simpl. intuition congruence. }
  split_and!; [done| | |].
  - intros b Hb0. rewrite lookup_insert_ne by done. by apply Hoth.
  - rewrite Hall, Hcs. tauto.
  - intros [_ Hok']%Hall. rewrite lookup_insert_eq. by rewrite Hs'.
Qed.

Lemma curState_calm interned mp mp' st a : calm mp mp' → curState interned mp' st a = curState interned mp st a.
Proof. intros [Hq _]. unfold curState, start. by rewrite (q_pending _ _ Hq), (q_ts _ _ Hq). Qed.

(** ** The list *)

Lemma allGood_ext bal good (cur cur' : Address → actorState) l : (∀ a, cur a = cur' a) → allGood bal good cur l → allGood bal good cur' l.
Proof.
  revert cur cur'. induction l as [|[m fl] l IH]; intros cur cur' E; simpl; [done|]. rewrite !E. intros (?&?&?&Hl). split_and!; [done..|].
  eapply IH; [|exact Hl]. intros a. destruct (decide (a = smFrom m)) as [->|]; [by rewrite !fn_lookup_insert|by rewrite !fn_lookup_insert_ne].
Qed.

Lemma checkLoop_runs interned fee l : ∀ st bal mp, poolOk mp → Forall (λ p, known (curTs mp) (smFrom p.1)) l → balancesOk (curTs mp) bal →
  runs (checkLoop ZeroAddress UpgradeCalicoHeight getNtwkVersion interned (curTs mp) fee l st bal) mp (λ mp' r, calm mp mp' ∧
    ∃ res, r = inl res ∧ length res = length l ∧
      (Forall allOK res ↔ allGood (balanceOf (curTs mp)) (includable (curTs mp) fee) (curState interned mp st) l)).
Proof using Type*.
  induction l as [|[m fl] l IH]; intros st bal mp Hok Hk Hb; cbn [checkLoop].
  { apply runs_ret. split; [by apply calm_refl|]. by exists []. }
  apply Forall_cons in Hk as [Hm Hk]. apply runs_bind. eapply runs_mono; [by apply checkOne_runs|].
  intros mp1 r (Hc1&st'&bal'&cs&->&Hb'&Hoth&Hcs&Hst'). pose proof (q_ts _ _ (proj1 Hc1)) as Et. apply runs_bind.
  rewrite <- Et in Hk, Hb' |- *. eapply runs_mono; [apply IH; [apply Hc1|done|done]|].
  intros mp2 r (Hc2&res&->&Hlen&Hres). apply runs_ret. split; [by eapply calm_trans|]. exists (cs :: res).
  split; [done|]. split; [simpl; by rewrite Hlen|]. rewrite Forall_cons, Hres. rewrite Et in *. cbn [allGood].
  assert (allOK cs → ∀ a, curState interned mp1 st' a = <[smFrom m := stepState (curState interned mp st (smFrom m)) m]> (curState interned mp st) a) as Hcur.
  { intros Hall a. rewrite (curState_calm _ _ _ _ _ Hc1). unfold curState at 1. destruct (decide (a = smFrom m)) as [->|Hne].
    - by rewrite fn_lookup_insert, (Hst' Hall).
    - rewrite fn_lookup_insert_ne by done. by rewrite Hoth. }
  split.
  - intros [Hall Hrest]. pose proof Hall as (?&?&?)%Hcs. split_and!; [done..|]. eapply allGood_ext; [|exact Hrest]. by apply Hcur.
  - intros (H4&H5&H6&Hrest). assert (allOK cs) as Hall by by apply Hcs. split; [done|]. eapply allGood_ext; [|exact Hrest].
    intros a. symmetry. by apply Hcur.
Qed.

(** The checks of a list of messages return, when the senders are known to the chain, with one list
    for every message.  All of them pass exactly when every message could be included in the next block,
    and for each sender the fixed nonces go on from the next one and the balance covers the funds and values
    of what is pending and of the messages of the list.  What is pending is looked up under the address as it is
    given, like the code does: [id_address_ignores_pending] shows that an ID address hides it. *)
Theorem checkMessages_exact l interned mp fee : poolOk mp → Forall (λ p, known (curTs mp) (smFrom p.1)) l → headBaseFee P (curTs mp) fee →
  runs (checkMessages ZeroAddress UpgradeCalicoHeight getNtwkVersion false l interned) mp (λ mp' r, calm mp mp' ∧
    ∃ res, r = inl res ∧ length res = length l ∧
      (Forall (Forall (λ c, ckOK c = true)) res ↔ Forall (λ p, includable (curTs mp) fee p.1) l ∧
         ∀ a, let own := filter (λ p, smFrom p.1 = a) l in
           numbered (asNonce (start interned mp a)) own ∧
           (own ≠ [] → asFunds (start interned mp a) + costs own ≤ balanceOf (curTs mp) a))).
Proof using Type*.
  intros Hok Hk Hfee. unfold checkMessages. apply runs_bind, runs_read, runs_bind.
  assert (runs (checkLoop ZeroAddress UpgradeCalicoHeight getNtwkVersion interned (curTs mp) fee l ∅ ∅) mp (λ mp' r, calm mp mp' ∧
    ∃ res, r = inl res ∧ length res = length l ∧
      (Forall (Forall (λ c, ckOK c = true)) res ↔ Forall (λ p, includable (curTs mp) fee p.1) l ∧
         ∀ a, senderGood (balanceOf (curTs mp)) (start interned mp a) a (filter (λ p, smFrom p.1 = a) l)))) as Hgo.
  { eapply runs_mono; [by apply checkLoop_runs|]. intros mp' r (Hc&res&->&Hlen&Hres). split; [done|]. exists res.
    split_and!; [done..|]. rewrite <- (allGood_senders (balanceOf (curTs mp)) (includable (curTs mp) fee) (includable_cost (curTs mp) fee)).
    exact Hres. }
  unfold headBaseFee in Hfee. destruct (blks (curTs mp)) as [|b bs].
  - apply runs_ask. by rewrite Hfee.
  - apply runs_ret. by subst fee.
Qed.
End check.
