(* ===== verification/MsgPoolExamples.v ===== *)
(** * The message pool on examples

    A chain, a datastore and signature schemes that always answer, and a pool with two messages
    of one sender.  On them the theorems about adding, following the head and pruning are used. *)

From Stdlib Require Import SpecFloat.
From coqutil Require Import Datatypes.RecordSetters.
From stdpp Require Import strings numbers base gmap fin_maps sets list.
From S2P Require Import Prelude GoStrings GoSort GoFloat GoLru FileTypes TipSets GasFees ProofLog SealTasks SealResources ChainStore.
From S2P Require Import MsgSet MsgChains MsgChainsSpec MsgSelect MsgSelectGroups MsgSelectGreedy MsgSelectSpec.
From S2P Require Import MsgSelectOptimal MsgSelectOptimalSpec MsgSelectExamples MsgPool MsgHead MsgPoolSpec MsgPoolAdmit MsgHeadSpec MsgPruneSpec MsgRepubSpec MsgCheck.
Import DoubleBraceUpdate.
Local Open Scope Z_scope.

(** ** Surroundings *)

#[local] Existing Instance listCache.

(** A serialisation that can be read back: fields as strings of marked bytes with an end mark. *)
Fixpoint bits (p : positive) : string := match p with xH => "" | xO p => "0" +:+ bits p | xI p => "1" +:+ bits p end.
Fixpoint field (s : string) : string := match s with "" => "." | String c s => "x" +:+ String c (field s) end.
Definition zField (z : Z) : string := field (bits (encode z)).
Definition sigField (t : SigType) : string := zField match t with SigTypeUnknown => 0 | SigTypeSecp256k1 => 1 | SigTypeBLS => 2 | SigTypeDelegated => 3 end.
Definition messageFields (m : SignedMessage) : string :=
  field (smFrom m) +:+ zField (smVersion m) +:+ field (smTo m) +:+ zField (smNonce m) +:+ zField (smValue m) +:+ zField (smGasLimit m) +:+
  zField (smGasFeeCap m) +:+ zField (smGasPremium m) +:+ zField (smMethod m) +:+ field (smParams m).

#[local] Instance exactCodec : MessageCodec := {|
  Serialize m := sigField (sigType (smSignature m)) +:+ field (sigData (smSignature m)) +:+ messageFields m;
  SerializeMessage m := messageFields m;
  SerializeMessage_unsigned m sig := eq_refl;
  Sum s := "c" +:+ s
|}.

Lemma bits_inj p q : bits p = bits q → p = q.
Proof. revert q. induction p as [p IH|p IH|]; intros [q|q|]; simpl; try done; intros [= E]; f_equal; auto. Qed.

Lemma field_inj s s' t t' : field s +:+ t = field s' +:+ t' → s = s' ∧ t = t'.
Proof. revert s'. induction s as [|c s IH]; intros [|c' s']; simpl; intros [= ]; [done|]. subst. by destruct (IH s' ltac:(done)) as [-> ->]. Qed.

Lemma zField_inj z z' t t' : zField z +:+ t = zField z' +:+ t' → z = z' ∧ t = t'.
Proof. intros [E ->]%field_inj. split; [|done]. by apply (inj encode), bits_inj. Qed.

Lemma sigField_inj x x' t t' : sigField x +:+ t = sigField x' +:+ t' → x = x' ∧ t = t'.
Proof. intros [E ->]%zField_inj. by destruct x, x'. Qed.

Lemma messageFields_inj m m' : messageFields m = messageFields m' → withSignature m (smSignature m') = m'.
Proof.
  unfold messageFields. intros [E1 H1]%field_inj. apply zField_inj in H1 as [E2 H2]. apply field_inj in H2 as [E3 H3].
  do 6 (match goal with H : zField _ +:+ _ = zField _ +:+ _ |- _ => apply zField_inj in H as [? ?] end).
  match goal with H : field (smParams m) = _ |- _ => rewrite <-(app_empty_r (field (smParams m))), <-(app_empty_r (field (smParams m'))) in H; apply field_inj in H as [? _] end.
  destruct m, m'. unfold withSignature. simpl in *. congruence.
Qed.
#[local] Existing Instance goLibrary.

#[local] Instance testRange : MapRange := {|
  rangeOf K A _ _ m := map_to_list m;
  rangeOf_perm K A _ _ m := Permutation_refl _
|}.

(** Every sender has nonce 5 and is its own key.  The block "r" has a message of "a", the block "x" one
    of "b". *)
Definition blockMsgs (b : BlockHeader) : list SignedMessage :=
  if decide (blkCid b = "r") then [testMsg "a" 5 2000000 10] else if decide (blkCid b = "x") then [testMsg "b" 5 2000000 50] else [].

Definition testBlock (c : Cid) (h : Z) : BlockHeader := mkBlockHeader c "" ["p"] h 0 100 "m" 0.
Definition parentTs : TipSet := mkTipSet ["p"] [mkBlockHeader "p" "" ["g"] 9 0 100 "m" 0] 9.
Definition revertTs : TipSet := mkTipSet ["r"] [testBlock "r" 10] 10.
Definition applyTs : TipSet := mkTipSet ["x"] [testBlock "x" 11] 11.

#[local] Instance testProvider : Provider := {|
  GetActorAfter _ _ := inl (mkActor 5 (10 ^ 15));
  StateAccountKeyAtFinality a _ := inl a;
  MessagesForBlock b := inl ([], blockMsgs b);
  LoadTipSet _ := inl parentTs;
  ChainComputeBaseFee _ := inl 100;
  PutMessage _ := None;
  PubSubPublish _ := None
|}.

#[local] Instance testDatastore : LocalDatastore := {|
  NewKey s := s;
  putError _ := None;
  deleteError _ := None;
  Query m := inl (map (λ e, inl e.2) (map_to_list m));
  UnmarshalSigned _ := inr "no decoder"
|}.

#[local] Instance testShims : SigShims := {|
  shimVerify t := match t with SigTypeSecp256k1 => Some (λ _ _ _, None) | _ => None end;
  Protocol _ := 1;
  Sum256 s := "h" +:+ s
|}.

Lemma exact_ideal : IdealHashes.
Proof.
  split; [intros x y E; by injection E|intros x y E; by injection E|intros x y E; by injection E|..].
  - intros m m' (E1&(E2&E3)%field_inj)%sigField_inj. apply messageFields_inj in E3. rewrite <-E3. destruct m as [????????? ? []], m' as [????????? ? []].
    simpl in *. by subst.
  - intros m m' E%messageFields_inj. by rewrite <-E.
Qed.

#[local] Instance testKeyed : KeyedProvider id (λ _ _, 5) testProvider.
Proof. split; [by intros a ts k [= ->]|by intros a ts act [= <-]]. Qed.

#[local] Instance testAnswers : Answers testProvider.
Proof. split; [by intros a ts [e He]|done|intros a ts; by eexists]. Qed.

Definition testConfig (low : Z) : MpoolConfig := mkMpoolConfig [] 30000 low (ofInt 1) 0 (ofInt 1).

(** The messages 5 and 6 of "b" are pending. *)
Definition testPool (low : Z) : MessagePool :=
  mkMessagePool _ ∅ {["b" := testSet [testMsg "b" 5 2000000 50; testMsg "b" 6 2000000 60] 7]} ∅ revertTs (testConfig low) 2
                false true false ∅ ∅ lruNew lruNew lruNew [] [].

Lemma testMsgs_lookup n m : msgs (testSet [testMsg "b" 5 2000000 50; testMsg "b" 6 2000000 60] 7) !! n = Some m →
  (n = 5 ∧ m = testMsg "b" 5 2000000 50) ∨ (n = 6 ∧ m = testMsg "b" 6 2000000 60).
Proof.
  intros Hn. change (<[5 := testMsg "b" 5 2000000 50]> (<[6 := testMsg "b" 6 2000000 60]> (∅ : gmap Z SignedMessage)) !! n = Some m) in Hn.
  rewrite !lookup_insert_Some, lookup_empty in Hn. destruct Hn as [[<- <-]|[_ [[<- <-]|[_ ?]]]]; [by left|by right|done].
Qed.

Lemma testPool_pending low a ms : pending (testPool low) !! a = Some ms →
  a = "b" ∧ ms = testSet [testMsg "b" 5 2000000 50; testMsg "b" 6 2000000 60] 7.
Proof.
  change (pending (testPool low)) with ({["b" := testSet [testMsg "b" 5 2000000 50; testMsg "b" 6 2000000 60] 7]} : gmap Address msgSet).
  by intros [<- <-]%lookup_singleton_Some.
Qed.

Lemma testPool_messages low k m : view (testPool low) !! k = Some m → ∃ n p, k = ("b", n) ∧ m = testMsg "b" n 2000000 p ∧ ((n = 5 ∧ p = 50) ∨ (n = 6 ∧ p = 60)).
Proof.
  destruct k as [a n]. unfold view. rewrite lookup_viewOf. intros (ms&[-> ->]%testPool_pending&Hn)%bind_Some.
  destruct (testMsgs_lookup n m Hn) as [[-> ->]|[-> ->]]; eauto 12.
Qed.

Lemma testPool_ok low : poolOk id (λ _ _, 5) (testPool low).
Proof.
  split.
  - split; [intros a k; simpl; by rewrite lookup_empty|by intros k a n ?%lruNew_holds|by intros k u ?%lruNew_holds].
  - intros a ms [-> ->]%testPool_pending. split; [split; [done|]|]; intros n x [[-> ->]|[-> ->]]%testMsgs_lookup; done.
  - vm_compute. reflexivity.
Qed.

Lemma testPool_checked low : checked (view (testPool low)).
Proof.
  intros k m (n&p&->&->&Hn)%testPool_messages. split; [|by right].
  destruct Hn as [[-> ->]|[-> ->]]; unfold msgOk, nonceOk; split_and!; vm_compute; done.
Qed.

(** The same pool, on the node of "b". *)
Definition localPool : MessagePool := (testPool 20000) {{ localAddrs := {["b"]} }}.

(** ** Uses of the theorems *)

(** The next message of "b" is accepted. *)
Lemma Add_admits_witness : ∃ mp', Add "t00" 0 (testMsg "b" 7 2000000 70) (testPool 20000) = Some (mp', inl tt) ∧
  ∃ ms, pending mp' !! "b" = Some ms ∧ fundsOf (msgs ms) ≤ 10 ^ 15.
Proof.
  destruct (Add_admits id (λ _ _, 5) (λ a, eq_refl) testProvider "t00" 0 (testMsg "b" 7 2000000 70) (testPool 20000))
    as (mp'&r&E&_&Hr); [apply exact_ideal|apply testPool_ok|vm_compute; reflexivity|].
  destruct r as [[]|e].
  - exists mp'. split; [exact E|]. destruct Hr as (_&_&_&_&act&ms&[= <-]&Ep&_&Hf). exists ms. by split.
  - exfalso. vm_compute in E. discriminate E.
Defined.

Lemma applied_by_blocks ts k : applied testProvider [ts] k ↔ ∃ b m, b ∈ blks ts ∧ m ∈ blockMsgs b ∧ (smFrom m, smNonce m) = k.
Proof.
  split.
  - intros (ts'&b&->%list_elem_of_singleton&Hb&bm&sm&[= <- <-]&Hk). exists b.
    apply list_elem_of_fmap in Hk as (m&->&Hm). by exists m.
  - intros (b&m&Hb&Hm&<-). exists ts, b. split_and!; [by left|done|]. exists [], (blockMsgs b). split; [done|].
    apply list_elem_of_fmap. by exists m.
Qed.

Lemma applied_single c h k : applied testProvider [mkTipSet [c] [testBlock c h] h] k ↔
  ∃ m, m ∈ blockMsgs (testBlock c h) ∧ (smFrom m, smNonce m) = k.
Proof.
  rewrite applied_by_blocks. split; [intros (b&m&->%list_elem_of_singleton&?&?); by exists m|].
  intros (m&?&?). exists (testBlock c h), m. split; [by left|done].
Qed.

(** The block with the message of "a" is reverted, the one with message 5 of "b" applied. *)
Lemma HeadChange_follows_witness : runs (HeadChange [revertTs] [applyTs]) (testPool 20000) (λ mp' _,
  curTs mp' = applyTs ∧ view mp' !! ("a", 5) = Some (testMsg "a" 5 2000000 10) ∧ view mp' !! ("b", 5) = None ∧ is_Some (view mp' !! ("b", 6))).
Proof.
  assert (¬ applied testProvider [applyTs] ("a", 5)) as Ha by (intros (m&->%list_elem_of_singleton&?)%applied_single; done).
  assert (¬ applied testProvider [applyTs] ("b", 6)) as Hb by (intros (m&->%list_elem_of_singleton&?)%applied_single; done).
  assert (∀ n, ¬ reverted testProvider [revertTs] ("b", n)) as Hr.
  { by intros n (m&->%list_elem_of_singleton&?)%applied_single. }
  eapply runs_mono.
  - apply (HeadChange_follows id (λ _ _, 5) (λ a, eq_refl) testProvider [revertTs] [applyTs] (testPool 20000)).
    + apply testPool_ok.
    + by repeat constructor.
    + vm_compute. reflexivity.
    + done.
  - intros mp' r (_&_&Et&Hf). split_and!.
    + by apply (Et applyTs []).
    + assert (revertedSecp testProvider [revertTs] ("a", 5)) as Hs.
      { exists revertTs, (testBlock "r" 10). split_and!; [by left| |by left|].
        - split; [by eexists _, _|]. intros b _. by eexists.
        - exists [], [testMsg "a" 5 2000000 10]. split; [done|]. by left. }
      destruct (proj2 (proj2 (Hf ("a", 5) eq_refl)) Ha Hs) as (m&->&[Hv|[Hm _]]); [by vm_compute in Hv|].
      destruct Hm as (ts&b&->%list_elem_of_singleton&->%list_elem_of_singleton&bm&sm&[= <- <-]&[->%list_elem_of_singleton|(x&s&[]%elem_of_nil&_)]).
      done.
    + apply (Hf ("b", 5) eq_refl); [|left; apply Hr]. apply applied_single. exists (testMsg "b" 5 2000000 50). split; [by left|done].
    + rewrite (proj1 (Hf ("b", 6) eq_refl) Hb (Hr 6)). vm_compute. by eexists.
Defined.

(** With a low water mark of one message, one of the two goes. *)
Lemma pruneMessages_prunes_witness : runs (pruneMessages 0 revertTs) (testPool 1) (λ mp' r,
  r = inl tt ∧ currentSize mp' ≤ 1).
Proof.
  eapply runs_mono.
  - apply (pruneMessages_prunes id (λ _ _, 5) (λ a, eq_refl) testProvider 0) with (fee := 100).
    + by intros a ts [e He].
    + apply testPool_ok.
    + vm_compute. reflexivity.
    + reflexivity.
    + apply testPool_checked.
    + intros k k' m m' (n&p&->&->&Hn)%testPool_messages (n'&p'&->&->&Hn')%testPool_messages E.
      destruct Hn as [[-> ->]|[-> ->]], Hn' as [[-> ->]|[-> ->]]; try done; vm_compute in E; discriminate E.
  - intros mp' r (->&_&_&_&Hs). split; [done|]. vm_compute in Hs. exact Hs.
Defined.

(** Both messages of "b" are sent again. *)
Lemma republish_sends_witness : runs (republishPendingMessages 0) localPool (λ mp' r,
  ∃ ms, r = inl tt → published mp' = map Serialize ms ∧ length ms = 2%nat).
Proof.
  eapply runs_mono.
  - apply (republish_sends id (λ _ _, 5) (λ a, eq_refl) testProvider 0 localPool 100).
    + destruct (testPool_ok 20000) as [[Hk Hn Hs] Hsets _].
      split; [split; [exact Hk|exact Hn|exact Hs]|exact Hsets|vm_compute; reflexivity].
    + apply (testPool_checked 20000).
    + done.
    + reflexivity.
  - intros mp' r (_&_&ms&sent&[_ _ _ Hall]&_&Es&Hr). exists ms. intros E. destruct (Hr E) as [-> _]. split; [exact Es|].
    assert (allLocalDue testProvider 0 localPool = [testMsg "b" 5 2000000 50; testMsg "b" 6 2000000 60]) as Edue
      by (vm_compute; reflexivity).
    rewrite Edue in Hall. rewrite Hall; [done|by intros a _ [e He]|simpl; lia|vm_compute; done|].
    repeat constructor; simpl; vm_compute; done.
Defined.

(** ** Clearing does not count *)

(** [Clear] empties the pool, but the counter goes on as if the messages were still there: it is what
    decides when the pool is pruned. *)
Lemma Clear_keeps_size : match Clear true (testPool 20000) with
                         | Some (mp', inl _) => pending mp' = ∅ ∧ currentSize mp' = 2
                         | _ => False
                         end.
Proof. vm_compute. done. Qed.

(** ** Checks before sending *)

(** The next message of "b" passes all checks. *)
Lemma checkMessages_exact_witness : runs (checkMessages "t00" 0 (λ _, 17) false [(testMsg "b" 7 2000000 70, false)] false) (testPool 20000)
  (λ _ r, ∃ res, r = inl res ∧ Forall (Forall (λ c, ckOK c = true)) res).
Proof.
  eapply runs_mono.
  - apply (checkMessages_exact id (λ _ _, 5) (λ a, eq_refl) testProvider "t00" 0 (λ _, 17) [(testMsg "b" 7 2000000 70, false)] false
             (testPool 20000) 100).
    + apply testPool_ok.
    + constructor; [by eexists|constructor].
    + reflexivity.
  - intros mp' r (_&res&->&_&Hres). exists res. split; [done|]. apply Hres. split.
    + constructor; [|constructor]. split_and!; vm_compute; done.
    + intros a. simpl. destruct (decide (a = "b")) as [->|Hne].
      * rewrite filter_cons_True by done. split; [vm_compute; done|]. intros _. vm_compute. done.
      * rewrite filter_cons_False by (simpl; congruence). by split.
Defined.

(** A chain that does not know any actor, and one on which "t0b" is an ID address of "b". *)
Definition otherProvider (actor : Actor + string) : Provider := {|
  GetActorAfter _ _ := actor;
  StateAccountKeyAtFinality a _ := inl (if decide (a = "t0b") then "b" else a);
  MessagesForBlock b := inl ([], blockMsgs b);
  LoadTipSet _ := inl parentTs;
  ChainComputeBaseFee _ := inl 100;
  PutMessage _ := None;
  PubSubPublish _ := None
|}.
Definition silentProvider : Provider := otherProvider (inr "actor not found").
Definition idProvider : Provider := otherProvider (inl (mkActor 5 (10 ^ 15))).

(** The check of a second message of a sender whose balance is not known panics: the empty integer that
    stands for it is compared with the funds. *)
Lemma unknown_balance_panics :
  CheckMessages (H0 := silentProvider) "t00" 0 (λ _, 17) false
    [mkPrototype (testMsg "b" 7 2000000 70) true; mkPrototype (testMsg "b" 8 2000000 70) true] (testPool 20000) = None.
Proof. vm_compute. reflexivity. Qed.

(** All checks of a message with nonce 5 from the ID address "t0b" pass, although the messages 5 and 6 of "b" are
    pending and the pool gives 7 as the next nonce of the address. *)
Lemma id_address_ignores_pending :
  match CheckMessages (H0 := idProvider) "t00" 0 (λ _, 17) false [mkPrototype (testMsg "t0b" 5 2000000 70) true] (testPool 20000),
        GetNonce (H0 := idProvider) "t0b" (testPool 20000) with
  | Some (_, inl [cs]), Some (_, inl next) => forallb ckOK cs = true ∧ next = 7
  | _, _ => False
  end.
Proof. vm_compute. done. Qed.
