(* ===== verification/DagRider.v ===== *)
(** * The DAG-Rider prototype (lib/DAG-Rider)

    A node collects vertices of other nodes in a buffer and moves them into its graph, round by round.
    Every four rounds a leader is chosen, and the vertices that it reaches are ordered.  Vertices
    are shared by pointers, which are places of a heap here; a result of a call can be a panic, and
    [None] stands for a loop that does not end.  Broadcasting, delivery and the choice of the leader
    are empty in the source.  A panic of a goroutine ends the program, so that no state is kept after
    one.  As long as no vertex of the graph is delivered again, the graph stays closed: for the strong
    edges of its vertices the graph has vertices of the same round and source.  A node that starts with
    an empty graph keeps it empty, and a node enters at most one further round, in which it waits
    for its first block for ever or panics. *)

From coqutil Require Import Datatypes.RecordSetters.
From stdpp Require Import strings numbers base gmap fin_maps sets list relations.
From S2P Require Import Prelude GoStrings ChainStore.
Import DoubleBraceUpdate.
Local Open Scope Z_scope.

(** config.go *)
Definition F : Z := 1.
Definition WaveSize : Z := 4.

(** ** Data *)

(** block.go: the CID of the messages *)
Record Block := mkBlock { Messages : string }.

(** An edge is the pointer that it leads to (edge.go). *)
Record Vertex := mkVertex {
  vRound : Z;
  vSource : string;
  vBlock : option Block;
  StrongEdges : list nat;
  WeakEdges : list nat;
  delivered : bool
}.

(** [buffer] and the rounds of the graph are maps, which are nil at first; a goroutine that was started
    for a wave is in [waves]; [waitsFor] is the round for which [DagConstruct] waits in
    [CreateNewVertex], [None] while it runs. *)
Record Node := mkNode {
  vertices : gmap nat Vertex;
  dagRound : option (gmap Z (list nat));
  blocksToPropose : list Block;
  round : Z;
  buffer : option (gset nat);
  decidedWave : Z;
  deliveredVertices : list nat;
  leaderStack : list Vertex;
  waves : list Z;
  waitsFor : option Z
}.

(** [Node{}] *)
Definition emptyNode : Node := mkNode ∅ None [] 0 None 0 [] [] [] None.

Definition deref (h : gmap nat Vertex) (p : nat) : outcome Vertex := match h !! p with Some v => Ret v | None => Crash end.

(** Reading a nil map finds nothing. *)
Definition atRound (nd : Node) (r : Z) : list nat := default [] (default ∅ (dagRound nd) !! r).

(** [Address.String] *)
Section rider.
Variable addrString : string → string.

(** vertex.go *)
Definition Cmp (v u : Vertex) : Z :=
  if decide (vRound u < vRound v) then 1
  else if decide (vRound v < vRound u) then -1
  else Compare (addrString (vSource v)) (addrString (vSource u)).

Definition AddEdge (v : Vertex) (u : nat) : Vertex := v {{ StrongEdges := StrongEdges v ++ [u] }}.
Definition AddWeakEdge (v : Vertex) (u : nat) : Vertex := v {{ WeakEdges := WeakEdges v ++ [u] }}.
Definition MarkDelivered (v : Vertex) : Vertex := v {{ delivered := true }}.

(** ** Stack and queue (vertexstack.go, blockqueue.go) *)

(** Elements are copied in.  [Pop] writes through its result, which is still nil. *)
Definition stackPush (st : list Vertex) (v : Vertex) : list Vertex := st ++ [v].
Definition stackPop (st : list Vertex) : outcome (Vertex * list Vertex) :=
  if decide (length st = 0%nat) then Fail "poping an empty VertexStack" else Crash.
Definition queuePush (q : list Block) (b : Block) : list Block := q ++ [b].
Definition queuePop (q : list Block) : outcome (Block * list Block) :=
  if decide (length q = 0%nat) then Fail "poping an empty BlockQueue" else Crash.

(** ** The graph (dag.go) *)

Fixpoint existIn (h : gmap nat Vertex) (v : Vertex) (l : list nat) : outcome bool :=
  match l with
  | [] => Ret false
  | p :: l' => ver ← deref h p; if decide (Cmp v ver = 0) then Ret true else existIn h v l'
  end.
Definition Exist (nd : Node) (v : Vertex) : outcome bool := existIn (vertices nd) v (atRound nd (vRound v)).

(** The edges of one vertex; [inl true] when one of them leads to [u]. *)
Fixpoint scanEdges (h : gmap nat Vertex) (vis : gset nat) (u : Vertex) (edges : list nat) (st : list Vertex) : outcome (bool + list Vertex) :=
  match edges with
  | [] => Ret (inr st)
  | p :: edges' =>
      if decide (p ∈ vis) then scanEdges h vis u edges' st
      else
        to ← deref h p;
        if decide (Cmp u to = 0) then Ret (inl true)
        else scanEdges h vis u edges' (if decide (vRound u < vRound to) then stackPush st to else st)
  end.

(** The loop of [Path] reads the strong edges twice ([times] is 2), that of [StrongPath] once. *)
Fixpoint searchLoop (fuel times : nat) (h : gmap nat Vertex) (vis : gset nat) (u : Vertex) (st : list Vertex) : walk bool :=
  match fuel with
  | O => None
  | S fuel' =>
      if decide (length st = 0%nat) then Some (Ret false)
      else
        '(cur, st1) ← Some (stackPop st);
        r ← Some (scanEdges h vis u (concat (replicate times (StrongEdges cur))) st1);
        match r with
        | inl b => Some (Ret b)
        | inr st2 => searchLoop fuel' times h vis u st2
        end
  end.

(** What [Path] and [StrongPath] test before they search; [None] when they have to search. *)
Definition pathTests (nd : Node) (v u : Vertex) : outcome (option bool) :=
  ev ← Exist nd v;
  eu ← (if (ev : bool) then Exist nd u else Ret false);
  if negb eu then Ret (Some false)
  else if decide (vRound v < vRound u) then Ret (Some false)
  else if decide (vRound v = vRound u) then Ret (Some (bool_decide (Cmp v u = 0)))
  else Ret None.

(** One turn is enough, since [Pop] does not return. *)
Definition Path (nd : Node) (pv pu : nat) : walk bool :=
  v ← Some (deref (vertices nd) pv);
  u ← Some (deref (vertices nd) pu);
  r ← Some (pathTests nd v u);
  match r with
  | Some b => Some (Ret b)
  | None => searchLoop 1 2 (vertices nd) {[pv]} u (stackPush [] v)
  end.

(** After the search [StrongPath] calls itself for the edges of [v]. *)
Fixpoint StrongPath (fuel : nat) (nd : Node) (pv pu : nat) : walk bool :=
  match fuel with
  | O => None
  | S fuel' =>
      v ← Some (deref (vertices nd) pv);
      u ← Some (deref (vertices nd) pu);
      r ← Some (pathTests nd v u);
      match r with
      | Some b => Some (Ret b)
      | None =>
          found ← searchLoop 1 1 (vertices nd) {[pv]} u (stackPush [] v);
          if (found : bool) then Some (Ret true)
          else (fix edges (l : list nat) : walk bool :=
                  match l with
                  | [] => Some (Ret false)
                  | e :: l' => b ← StrongPath fuel' nd e pu; if (b : bool) then Some (Ret true) else edges l'
                  end) (StrongEdges v)
      end
  end.

(** ** The node (node.go, network.go) *)

Definition withVertex (nd : Node) (p : nat) (v : Vertex) : Node := nd {{ vertices := <[p := v]> (vertices nd) }}.

(** A write to a nil map panics. *)
Definition RDeliver (nd : Node) (p : nat) (r : Z) (source : string) : outcome Node :=
  v ← deref (vertices nd) p;
  let v' := v {{ vSource := source; vRound := r }} in
  let nd' := withVertex nd p v' in
  if decide (2 * F + 1 ≤ Z.of_nat (length (StrongEdges v'))) then
    match buffer nd' with
    | Some b => Ret (nd' {{ buffer := Some ({[p]} ∪ b) }})
    | None => Crash
    end
  else Ret nd'.

Definition ABcast (nd : Node) (b : Block) : Node := nd {{ blocksToPropose := queuePush (blocksToPropose nd) b }}.

Fixpoint weakOf (nd : Node) (pv : nat) (us : list nat) (v : Vertex) : walk Vertex :=
  match us with
  | [] => Some (Ret v)
  | u :: us' =>
      b ← Path (withVertex nd pv v) pv u;
      weakOf nd pv us' (if (b : bool) then v else AddWeakEdge v u)
  end.

(** The rounds [rd], ..., 1. *)
Fixpoint weakRounds (rd : nat) (nd : Node) (pv : nat) (v : Vertex) : walk Vertex :=
  match rd with
  | O => Some (Ret v)
  | S rd' => v' ← weakOf nd pv (atRound nd (Z.of_nat rd)) v; weakRounds rd' nd pv v'
  end.

Definition SetWeakEdges (nd : Node) (pv : nat) (r : Z) : walk Node :=
  v ← Some (deref (vertices nd) pv);
  v' ← weakRounds (Z.to_nat (r - 2)) nd pv (v {{ WeakEdges := [] }});
  Some (Ret (withVertex nd pv v')).

(** The node waits for a block; then [Pop] is called, and its results are assigned through the nil
    pointer of the new vertex. *)
Definition CreateNewVertex (nd : Node) (r : Z) : walk (Node * nat) :=
  if decide (length (blocksToPropose nd) = 0%nat) then None
  else _ ← Some (queuePop (blocksToPropose nd)); Some Crash.

Definition AddVertex (nd : Node) (p : nat) : outcome Node :=
  v ← deref (vertices nd) p;
  match dagRound nd with
  | Some rounds => Ret (nd {{ dagRound := Some (<[vRound v := default [] (rounds !! vRound v) ++ [p]]> rounds) }})
  | None => Crash
  end.

Fixpoint edgesExist (nd : Node) (edges : list nat) : outcome bool :=
  match edges with
  | [] => Ret true
  | e :: edges' =>
      to ← deref (vertices nd) e;
      if decide (vRound to ≤ 0) then Ret false
      else b ← Exist nd to; if negb b then Ret false else edgesExist nd edges'
  end.
Definition VerifyEdges (nd : Node) (p : nat) : outcome bool := v ← deref (vertices nd) p; edgesExist nd (StrongEdges v).

(** One vertex of the buffer. *)
Definition takeBuffered (nd : Node) (p : nat) : outcome Node :=
  v ← deref (vertices nd) p;
  if decide (vRound v ≤ round nd) then
    b ← VerifyEdges nd p;
    if (b : bool) then
      nd' ← AddVertex nd p;
      Ret (nd' {{ buffer := (λ s, s ∖ {[p]}) <$> buffer nd' }})
    else Ret nd
  else Ret nd.

(** The loop over the buffer in the order [l] in which the map is read. *)
Fixpoint takeAll (nd : Node) (l : list nat) : outcome Node :=
  match l with
  | [] => Ret nd
  | p :: l' => nd' ← takeBuffered nd p; takeAll nd' l'
  end.

(** The end of a round: the round is counted on before the new vertex is made. *)
Definition endRound (nd : Node) : Node :=
  let nd2 := if decide (Z.rem (round nd) WaveSize = 0) then nd {{ waves := waves nd ++ [Z.quot (round nd) WaveSize] }} else nd in
  nd2 {{ round := round nd2 + 1 }}.

(** One turn of [DagConstruct]; the broadcast of the new vertex is empty. *)
Definition constructTurn (nd : Node) (l : list nat) : outcome Node :=
  nd1 ← takeAll nd l;
  if decide (2 * F + 1 ≤ Z.of_nat (length (atRound nd1 (round nd1)))) then
    let nd3 := endRound nd1 in
    match CreateNewVertex nd3 (round nd3) with
    | None => Ret (nd3 {{ waitsFor := Some (round nd3) }})
    | Some o => '(nd4, _) ← o; Ret nd4
    end
  else Ret nd1.

(** ** Waves *)

(** random.go: the empty address *)
Definition ChooseLeader (w : Z) : string := "".

Fixpoint withSource (h : gmap nat Vertex) (leader : string) (l : list nat) : outcome (option nat) :=
  match l with
  | [] => Ret None
  | p :: l' => v ← deref h p; if decide (vSource v = leader) then Ret (Some p) else withSource h leader l'
  end.
Definition GetWaveVertexLeader (nd : Node) (w : Z) : outcome (option nat) :=
  withSource (vertices nd) (ChooseLeader w) (atRound nd ((w - 1) * WaveSize + 1)).

(** The loop of [OrderVertices] pops the first leader and ends with a panic. *)
Definition OrderVertices (nd : Node) : walk Node :=
  if decide (length (leaderStack nd) = 0%nat) then Some (Ret nd)
  else _ ← Some (stackPop (leaderStack nd)); Some Crash.

Fixpoint countPaths (fuel : nat) (nd : Node) (l : list nat) (pv : nat) (count : Z) : walk Z :=
  match l with
  | [] => Some (Ret count)
  | p :: l' => b ← StrongPath fuel nd p pv; countPaths fuel nd l' pv (if (b : bool) then count + 1 else count)
  end.

(** The leaders of the waves [ww], ..., [decidedWave + 1]. *)
Fixpoint earlierLeaders (fuel n : nat) (nd : Node) (ww : Z) (pv : nat) : walk Node :=
  match n with
  | O => Some (Ret nd)
  | S n' =>
      o ← Some (GetWaveVertexLeader nd ww);
      match o with
      | None => earlierLeaders fuel n' nd (ww - 1) pv
      | Some pvv =>
          b ← StrongPath fuel nd pv pvv;
          if (b : bool) then
            vv ← Some (deref (vertices nd) pvv);
            earlierLeaders fuel n' (nd {{ leaderStack := stackPush (leaderStack nd) vv }}) (ww - 1) pvv
          else earlierLeaders fuel n' nd (ww - 1) pv
      end
  end.

Definition WaveReady (fuel : nat) (nd : Node) (w : Z) : walk Node :=
  o ← Some (GetWaveVertexLeader nd w);
  match o with
  | None => Some (Ret nd)
  | Some pv =>
      count ← countPaths fuel nd (atRound nd (w * WaveSize)) pv 0;
      if decide (count ≤ 2 * F) then Some (Ret nd)
      else
        v ← Some (deref (vertices nd) pv);
        nd1 ← earlierLeaders fuel (Z.to_nat (w - 1 - decidedWave nd)) (nd {{ leaderStack := stackPush (leaderStack nd) v }}) (w - 1) pv;
        OrderVertices (nd1 {{ decidedWave := w }})
  end.
End rider.

(** * What a node keeps *)

Section riderSpec.
Variable addrString : string → string.

Implicit Types nd : Node.

(** ** Histories of a node *)

(** A vertex that arrives over the network has a place of its own; any pointer can be delivered, at any time
    and again. *)
Inductive riderStep : Node → Node → Prop :=
| step_arrive nd p v : vertices nd !! p = None → riderStep nd (withVertex nd p v)
| step_deliver nd p r source nd' : RDeliver nd p r source = Ret nd' → riderStep nd nd'
| step_construct nd l nd' : waitsFor nd = None → l ≡ₚ elements (default ∅ (buffer nd)) → constructTurn addrString nd l = Ret nd' → riderStep nd nd'
| step_resume nd r nd' p : waitsFor nd = Some r → CreateNewVertex nd r = Some (Ret (nd', p)) → riderStep nd (nd' {{ waitsFor := None }})
| step_propose nd b : riderStep nd (ABcast nd b)
| step_wave nd fuel w nd' : WaveReady addrString fuel nd w = Some (Ret nd') → riderStep nd nd'.

(** A step that leaves the vertices of the graph and the ends of their edges as they are. *)
Definition gentleStep nd nd' : Prop := riderStep nd nd' ∧
  ∀ r q v, q ∈ atRound nd r → vertices nd !! q = Some v → ∀ p, p = q ∨ p ∈ StrongEdges v → vertices nd' !! p = vertices nd !! p.

(** ** The graph *)

(** A vertex with the round and the source of the one at [e] is in the graph. *)
Definition known nd (e : nat) : Prop :=
  ∃ to q w, vertices nd !! e = Some to ∧ 0 < vRound to ∧ q ∈ atRound nd (vRound to) ∧
    vertices nd !! q = Some w ∧ Cmp addrString to w = 0.

Record placedAt nd (r : Z) (p : nat) : Prop := {
  pl_vertex : ∃ v, vertices nd !! p = Some v ∧ vRound v = r ∧ Forall (known nd) (StrongEdges v);
  pl_round : r ≤ round nd
}.

Definition graphOk nd : Prop := ∀ r p, p ∈ atRound nd r → placedAt nd r p.

(** Delivered vertices have enough strong edges. *)
Definition bufferOk nd : Prop :=
  ∀ p b, buffer nd = Some b → p ∈ b → ∃ v, vertices nd !! p = Some v ∧ 2 * F + 1 ≤ Z.of_nat (length (StrongEdges v)).

(** The graph grows, and the vertices that it has are kept. *)
Definition grows nd nd' : Prop :=
  ∀ r p, p ∈ atRound nd r → p ∈ atRound nd' r ∧
    ∀ v, vertices nd !! p = Some v → vertices nd' !! p = Some v ∧
      ∀ e to, e ∈ StrongEdges v → vertices nd !! e = Some to → vertices nd' !! e = Some to.

Lemma known_grows nd nd' r p v e : grows nd nd' → p ∈ atRound nd r → vertices nd !! p = Some v → e ∈ StrongEdges v →
  known nd e → known nd' e.
Proof.
  intros Hg Hp Hv He (to&q&w&Eto&Hpos&Hq&Ew&Hc). destruct (Hg r p Hp) as [_ Hkeep]. destruct (Hkeep v Hv) as [_ Hedges].
  destruct (Hg _ q Hq) as [Hq' Hqk]. destruct (Hqk w Ew) as [Ew' _]. exists to, q, w. split_and!; [by eapply Hedges|done..].
Qed.

Lemma placedAt_grows nd nd' r p : grows nd nd' → round nd ≤ round nd' → p ∈ atRound nd r → placedAt nd r p → placedAt nd' r p.
Proof.
  intros Hg Hr Hp [(v&Hv&Ev&He) Hle]. split; [|lia]. exists v. split_and!; [by apply (proj2 (Hg r p Hp))|done|].
  rewrite Forall_forall in He |- *. intros e Hin. eapply known_grows; eauto.
Qed.

(** ** Edges that are verified *)

Lemma existIn_true h v l : existIn addrString h v l = Ret true → ∃ q w, q ∈ l ∧ h !! q = Some w ∧ Cmp addrString v w = 0.
Proof.
  induction l as [|q l IH]; simpl; [done|]. intros (w&Ew&H)%bind_ret_inv. unfold deref in Ew.
  destruct (h !! q) as [w'|] eqn:E; simplify_eq. case_decide as Hc.
  - exists q, w. split; [by left|done].
  - destruct (IH H) as (q'&w'&Hq'&?&?). exists q', w'. split; [by right|done].
Qed.

Lemma edgesExist_true nd edges : edgesExist addrString nd edges = Ret true → Forall (known nd) edges.
Proof.
  induction edges as [|e edges IH]; simpl; [constructor|]. intros (to&Eto&H)%bind_ret_inv. unfold deref in Eto.
  destruct (vertices nd !! e) as [to'|] eqn:E; simplify_eq. case_decide; [done|].
  apply bind_ret_inv in H as ([]&Hb&H); [|done]. constructor; [|by apply IH].
  apply existIn_true in Hb as (q&w&Hq&Ew&Hc). exists to, q, w. split_and!; [done|lia|done..].
Qed.

(** What happens to one vertex of the buffer. *)
Lemma takeBuffered_cases nd p nd' : takeBuffered addrString nd p = Ret nd' →
  nd' = nd ∨ ∃ v rounds, vertices nd !! p = Some v ∧ vRound v ≤ round nd ∧ Forall (known nd) (StrongEdges v) ∧
    dagRound nd = Some rounds ∧
    nd' = nd {{ dagRound := Some (<[vRound v := default [] (rounds !! vRound v) ++ [p]]> rounds);
                buffer := (λ s, s ∖ {[p]}) <$> buffer nd }}.
Proof.
  unfold takeBuffered. intros (v&Ev&H)%bind_ret_inv. unfold deref in Ev. destruct (vertices nd !! p) as [v'|] eqn:E; simplify_eq.
  case_decide as Hr; [|simplify_eq; by left]. apply bind_ret_inv in H as ([]&Hb&H); [|simplify_eq; by left].
  unfold VerifyEdges, deref in Hb. rewrite E in Hb. cbn [mbind outcome_bind] in Hb. apply edgesExist_true in Hb.
  apply bind_ret_inv in H as (nd1&H1&H). unfold AddVertex, deref in H1. rewrite E in H1. cbn [mbind outcome_bind] in H1.
  destruct (dagRound nd) as [rounds|] eqn:Ed; [|done]. simplify_eq. right. exists v, rounds. by split_and!.
Qed.

Lemma takeBuffered_keeps nd p nd' : takeBuffered addrString nd p = Ret nd' → graphOk nd →
  graphOk nd' ∧ grows nd nd' ∧ round nd' = round nd ∧ vertices nd' = vertices nd.
Proof.
  intros H Hok. destruct (takeBuffered_cases nd p nd' H) as [->|(v&rounds&Ev&Hr&He&Ed&->)].
  { split_and!; [done| |done..]. intros r q Hq. by split. }
  set (nd' := nd {{ dagRound := _; buffer := _ }}).
  assert (∀ r, atRound nd' r = if decide (r = vRound v) then atRound nd r ++ [p] else atRound nd r) as Ha.
  { intros r. unfold atRound. simpl. rewrite Ed. simpl. case_decide as Hd; [subst; by rewrite lookup_insert_eq|].
    by rewrite lookup_insert_ne by done. }
  assert (grows nd nd') as Hg.
  { intros r q Hq. split; [|by split]. rewrite Ha. case_decide; [|done]. apply elem_of_app. by left. }
  split_and!; [|done..]. intros r q Hq. rewrite Ha in Hq. case_decide as Hd.
  - subst r. apply elem_of_app in Hq as [Hq| ->%list_elem_of_singleton].
    + apply (placedAt_grows nd); [done|done|done|by apply Hok].
    + split; [|done]. exists v. split_and!; [done..|]. eapply Forall_impl; [exact He|].
      intros e (to&q&w&Eto&Hpos&Hq&Ew&Hc). exists to, q, w. split_and!; [done..|by apply Hg|done|done].
  - apply (placedAt_grows nd); [done|done|done|by apply Hok].
Qed.

Lemma grows_trans nd1 nd2 nd3 : grows nd1 nd2 → grows nd2 nd3 → grows nd1 nd3.
Proof.
  intros H12 H23 r p Hp. destruct (H12 r p Hp) as [Hp2 Hk]. split; [by apply H23|]. intros v Hv.
  destruct (Hk v Hv) as [Hv2 He]. destruct (H23 r p Hp2) as [_ Hk3]. destruct (Hk3 v Hv2) as [Hv3 He3].
  split; [done|]. intros e to Hin Hto. by eapply He3, He.
Qed.

Lemma takeAll_keeps l : ∀ nd nd', takeAll addrString nd l = Ret nd' → graphOk nd →
  graphOk nd' ∧ grows nd nd' ∧ round nd' = round nd ∧ vertices nd' = vertices nd.
Proof.
  induction l as [|p l IH]; simpl; intros nd nd' H Hok.
  { simplify_eq. split_and!; [done| |done..]. intros r q Hq. by split. }
  apply bind_ret_inv in H as (nd1&H1&H). destruct (takeBuffered_keeps nd p nd1 H1 Hok) as (Hok1&Hg1&Hr1&Hv1).
  destruct (IH nd1 nd' H Hok1) as (Hok2&Hg2&Hr2&Hv2). split_and!; [done|by eapply grows_trans|congruence..].
Qed.

Lemma CreateNewVertex_stuck nd r x : CreateNewVertex nd r ≠ Some (Ret x).
Proof. unfold CreateNewVertex, queuePop. by repeat case_decide. Qed.

(** After a turn the vertices of the buffer have been tried; when the round is full, the node is one
    round further and waits: [CreateNewVertex] does not return. *)
Lemma constructTurn_returns nd l nd' : constructTurn addrString nd l = Ret nd' → ∃ nd1, takeAll addrString nd l = Ret nd1 ∧
  vertices nd' = vertices nd1 ∧ dagRound nd' = dagRound nd1 ∧ buffer nd' = buffer nd1 ∧
  (round nd' = round nd1 ∧ waitsFor nd' = waitsFor nd1 ∨ round nd' = round nd1 + 1 ∧ waitsFor nd' = Some (round nd')).
Proof.
  unfold constructTurn. intros (nd1&H1&H)%bind_ret_inv. exists nd1. split; [done|].
  case_decide; [|simplify_eq; split_and!; [done..|by left]]. cbv zeta in H.
  pose proof (CreateNewVertex_stuck (endRound nd1) (round (endRound nd1))) as Hn.
  destruct (CreateNewVertex _ _) as [[x|e|]|]; [by destruct (Hn x)|done..|]. injection H as <-.
  unfold endRound. by case_decide; (split_and!; [done..|by right]).
Qed.

(** ** Waves *)

(** Ordering touches neither the graph nor the buffer. *)
Definition sameGraph nd nd' : Prop :=
  vertices nd' = vertices nd ∧ dagRound nd' = dagRound nd ∧ round nd' = round nd ∧ buffer nd' = buffer nd ∧ waitsFor nd' = waitsFor nd.

Lemma earlierLeaders_keeps fuel n : ∀ nd ww pv nd',
  earlierLeaders addrString fuel n nd ww pv = Some (Ret nd') → sameGraph nd nd'.
Proof.
  induction n as [|n IH]; simpl; intros nd ww pv nd' H; [by simplify_eq|].
  destruct (GetWaveVertexLeader nd ww) as [[pvv|]|e|]; cbn [mbind walk_bind] in H; [|by eapply IH|done..].
  destruct (StrongPath addrString fuel nd pv pvv) as [[[]|e|]|]; cbn [mbind walk_bind] in H; [|by eapply IH|done..].
  destruct (deref (vertices nd) pvv) as [vv|e|]; cbn [mbind walk_bind] in H; [|done..].
  exact (IH _ _ _ nd' H).
Qed.

Lemma WaveReady_keeps fuel nd w nd' : WaveReady addrString fuel nd w = Some (Ret nd') → sameGraph nd nd'.
Proof.
  unfold WaveReady. destruct (GetWaveVertexLeader nd w) as [[pv|]|e|]; cbn [mbind walk_bind]; [|by intros [= <-]|done..].
  destruct (countPaths _ _ _ _ _ _) as [[count|e|]|]; cbn [mbind walk_bind]; [|done..]. case_decide; [by intros [= <-]|].
  destruct (deref (vertices nd) pv) as [v|e|]; cbn [mbind walk_bind]; [|done..].
  destruct (earlierLeaders _ _ _ _ _ _) as [[nd1|e|]|] eqn:E; cbn [mbind walk_bind]; [|done..].
  apply earlierLeaders_keeps in E. unfold OrderVertices. case_decide; [intros [= <-]; exact E|]. unfold stackPop. by case_decide.
Qed.

(** ** Every step *)

Lemma RDeliver_cases nd p r source nd' : RDeliver nd p r source = Ret nd' → ∃ v, vertices nd !! p = Some v ∧
  let v' := v {{ vSource := source; vRound := r }} in
  vertices nd' = <[p := v']> (vertices nd) ∧ dagRound nd' = dagRound nd ∧ round nd' = round nd ∧ waitsFor nd' = waitsFor nd ∧
  (buffer nd' = buffer nd ∨ 2 * F + 1 ≤ Z.of_nat (length (StrongEdges v)) ∧ ∃ b, buffer nd = Some b ∧ buffer nd' = Some ({[p]} ∪ b)).
Proof.
  unfold RDeliver. intros (v&Ev&H)%bind_ret_inv. unfold deref in Ev. destruct (vertices nd !! p) as [v'|] eqn:E; simplify_eq.
  exists v. split; [done|]. cbv zeta in *. case_decide as Hl; [|injection H as <-; split_and!; [done..|by left]].
  change (buffer (withVertex nd p _)) with (buffer nd) in H. destruct (buffer nd) as [b|] eqn:Eb; [|done]. simplify_eq. split_and!; [done..|]. right. eauto.
Qed.

(** A place that is not in use is no vertex of the graph and no end of its edges. *)
Lemma unused_outside nd p r q v : graphOk nd → vertices nd !! p = None → q ∈ atRound nd r → vertices nd !! q = Some v → p ≠ q ∧ p ∉ StrongEdges v.
Proof.
  intros Hok Hp Hq Hv. split; [congruence|]. intros Hin. destruct (Hok r q Hq) as [(v'&Hv'&_&He) _]. simplify_eq.
  rewrite Forall_forall in He. destruct (He p Hin) as (to&_&_&Hto&_). congruence.
Qed.

Lemma gentleStep_keeps nd nd' : gentleStep nd nd' → graphOk nd → graphOk nd' ∧ grows nd nd'.
Proof.
  intros [Hs Hv] Hok. assert (dagRound nd' = dagRound nd → round nd ≤ round nd' → graphOk nd' ∧ grows nd nd') as Hsame.
  { intros Ed Er. assert (∀ r, atRound nd' r = atRound nd r) as Ha by (intros r; unfold atRound; by rewrite Ed).
    assert (grows nd nd') as Hg.
    { intros r q Hq. rewrite Ha. split; [done|]. intros v Hqv. rewrite (Hv r q v Hq Hqv q) by auto.
      split; [done|]. intros e to He Hto. by rewrite (Hv r q v Hq Hqv e) by auto. }
    split; [|done]. intros r p Hp. rewrite Ha in Hp. by apply (placedAt_grows nd); [..|apply Hok]. }
  destruct Hs as [nd p v Hp|nd p r source nd' H|nd l nd' _ _ H|nd r nd' p _ H|nd b|nd fuel w nd' H].
  - by apply Hsame.
  - destruct (RDeliver_cases _ _ _ _ _ H) as (v&_&_&Ed&Er&_). apply Hsame; [done|lia].
  - destruct (constructTurn_returns _ _ _ H) as (nd1&H1&Ev&Ed&_&Er). destruct (takeAll_keeps l nd nd1 H1 Hok) as (Hok1&Hg1&_).
    assert (∀ r, atRound nd' r = atRound nd1 r) as Ha by (intros r; unfold atRound; by rewrite Ed).
    assert (grows nd1 nd') as Hg2 by (intros r q Hq; rewrite Ha, Ev; by split).
    split; [|by eapply grows_trans]. intros r p Hp. rewrite Ha in Hp. apply (placedAt_grows nd1); [done|lia|done|by apply Hok1].
  - by destruct (CreateNewVertex_stuck nd r (nd', p)).
  - by apply Hsame.
  - apply WaveReady_keeps in H as (_&Ed&Er&_). apply Hsame; [done|lia].
Qed.

(** As long as the vertices of the graph are not delivered again, the graph stays closed: each vertex of it is
    filed under its own round, which is not above the round of the node, and all its strong edges
    lead to vertices with a positive round for which the graph has a vertex of the same round and source.
    The graph only grows. *)
Theorem graph_stays_closed nd nd' : graphOk nd → rtc gentleStep nd nd' → graphOk nd' ∧ grows nd nd'.
Proof.
  intros Hok Hs. induction Hs as [nd|nd1 nd2 nd3 H12 _ IH]; [split; [done|]; intros r p Hp; by split|].
  destruct (gentleStep_keeps nd1 nd2 H12 Hok) as (Hok2&Hg). destruct (IH Hok2) as [? ?]. split; [done|by eapply grows_trans].
Qed.

(** ** Where a node gets stuck *)

Lemma takeAll_round l : ∀ nd nd', takeAll addrString nd l = Ret nd' → round nd' = round nd ∧ waitsFor nd' = waitsFor nd.
Proof.
  induction l as [|p l IH]; simpl; intros nd nd' H; [by simplify_eq|]. apply bind_ret_inv in H as (nd1&H1&H).
  destruct (IH nd1 nd' H) as [-> ->]. by destruct (takeBuffered_cases nd p nd1 H1) as [->|(v&rounds&_&_&_&_&->)].
Qed.

(** A node gets at most one round further, and then waits: the new vertex of that round is assigned to through a
    nil pointer as soon as there is a block for it. *)
Lemma round_advances_once nd nd' : rtc riderStep nd nd' →
  round nd' = round nd ∧ waitsFor nd' = waitsFor nd ∨ waitsFor nd = None ∧ round nd' = round nd + 1 ∧ waitsFor nd' = Some (round nd').
Proof.
  assert (∀ nd1 nd2, riderStep nd1 nd2 → round nd2 = round nd1 ∧ waitsFor nd2 = waitsFor nd1 ∨
    waitsFor nd1 = None ∧ round nd2 = round nd1 + 1 ∧ waitsFor nd2 = Some (round nd2)) as Hstep.
  { intros nd1 nd2 Hs. destruct Hs as [nd1 p v Hp|nd1 p r source nd2 H|nd1 l nd2 Hw _ H|nd1 r nd2 p _ H|nd1 b|nd1 fuel w nd2 H].
    - by left.
    - left. by destruct (RDeliver_cases _ _ _ _ _ H) as (v&_&_&_&Er&Ew&_).
    - destruct (constructTurn_returns _ _ _ H) as (nd3&H3&_&_&_&Hr). destruct (takeAll_round l nd1 nd3 H3) as [Er Ew].
      rewrite Er, Ew in Hr. destruct Hr as [?|[? ?]]; [by left|by right].
    - by destruct (CreateNewVertex_stuck nd1 r (nd2, p)).
    - by left.
    - left. by apply WaveReady_keeps in H as (_&_&Er&_&Ew). }
  induction 1 as [|nd1 nd2 nd3 H12 _ IH]; [by left|]. destruct (Hstep nd1 nd2 H12) as [[E1 E2]|(E1&E2&E3)].
  - by rewrite E1, E2 in IH.
  - destruct IH as [[F1 F2]|(F1&_)]; [|congruence]. right. split_and!; [done|lia|]. rewrite F1. congruence.
Qed.

Lemma bufferOk_step nd nd' : riderStep nd nd' → bufferOk nd → bufferOk nd'.
Proof.
  intros Hs Hb. destruct Hs as [nd p v Hp|nd p r source nd' H|nd l nd' _ _ H|nd r nd' p _ H|nd b|nd fuel w nd' H]; intros q b' Eb Hq.
  - destruct (Hb q b' Eb Hq) as (u&Hu&Hl). exists u. split; [|done].
    change (<[p := v]> (vertices nd) !! q = Some u). rewrite lookup_insert_ne; [done|congruence].
  - destruct (RDeliver_cases _ _ _ _ _ H) as (v&Hv&Ev&_&_&_&Hbuf). rewrite Ev.
    assert (∀ u, vertices nd !! q = Some u → 2 * F + 1 ≤ Z.of_nat (length (StrongEdges u)) → ∃ u',
      <[p := v {{ vSource := source; vRound := r }}]> (vertices nd) !! q = Some u' ∧ 2 * F + 1 ≤ Z.of_nat (length (StrongEdges u'))) as Hu.
    { intros u Hu Hl. destruct (decide (p = q)) as [<-|]; [rewrite lookup_insert_eq; simplify_eq; by eexists|].
      rewrite lookup_insert_ne by done. eauto. }
    destruct Hbuf as [E|(Hl&b&E&E')].
    + rewrite E in Eb. destruct (Hb q b' Eb Hq) as (u&?&?). eauto.
    + rewrite E' in Eb. simplify_eq. apply elem_of_union in Hq as [->%elem_of_singleton|Hq]; [by eapply Hu|].
      destruct (Hb q b E Hq) as (u&?&?). eauto.
  - apply constructTurn_returns in H as (nd0&H&Ev&_&E&_). rewrite E in Eb. rewrite Ev. clear Ev E nd'.
    revert nd H Hb. induction l as [|p l IH]; simpl; intros nd H Hb.
    { simplify_eq. by apply (Hb q b'). }
    apply bind_ret_inv in H as (nd1&H1&H). apply (IH nd1 H). destruct (takeBuffered_cases nd p nd1 H1) as [->|(v&rounds&_&_&_&_&->)]; [done|].
    intros q' b1 E1 Hq1. change ((λ s, s ∖ {[p]}) <$> buffer nd = Some b1) in E1. destruct (buffer nd) as [b0|] eqn:E0; [|done]. simplify_eq/=.
    apply elem_of_difference in Hq1 as [Hq1 _]. by apply (Hb q' b0).
  - by destruct (CreateNewVertex_stuck nd r (nd', p)).
  - by apply (Hb q b').
  - apply WaveReady_keeps in H as (Ev&_&_&E&_). rewrite E in Eb. rewrite Ev. by apply (Hb q b').
Qed.

Lemma takeBuffered_empty nd p nd' v : vertices nd !! p = Some v → 2 * F + 1 ≤ Z.of_nat (length (StrongEdges v)) →
  (∀ r, atRound nd r = []) → takeBuffered addrString nd p = Ret nd' → nd' = nd.
Proof.
  intros Hv Hl He H. destruct (takeBuffered_cases nd p nd' H) as [->|(u&rounds&Hu&_&Hk&_)]; [done|]. simplify_eq.
  destruct (StrongEdges v) as [|e es]; [done|]. apply Forall_cons in Hk as [(to&q&w&_&_&Hq&_) _].
  rewrite He in Hq. by apply elem_of_nil in Hq.
Qed.

(** A graph that is empty stays empty: a delivered vertex needs three strong edges to vertices that the
    graph already has, and no rule puts a first vertex into it. *)
Lemma empty_graph_stays_empty nd nd' : (∀ r, atRound nd r = []) → bufferOk nd → rtc riderStep nd nd' → ∀ r, atRound nd' r = [].
Proof.
  intros He Hb Hs. induction Hs as [|nd1 nd2 nd3 H12 _ IH]; [done|].
  apply IH; [|by eapply bufferOk_step]. clear IH. destruct H12 as [nd p v Hp|nd p r source nd' H|nd l nd' _ Hl H|nd r nd' p _ H|nd b|nd fuel w nd' H].
  - exact He.
  - destruct (RDeliver_cases _ _ _ _ _ H) as (_&_&_&Ed&_). intros r'. unfold atRound. rewrite Ed. apply He.
  - apply constructTurn_returns in H as (nd0&H&_&Ed&_). intros r. unfold atRound. rewrite Ed. revert r. enough (nd0 = nd) as -> by exact He.
    assert (Forall (λ p, ∃ v, vertices nd !! p = Some v ∧ 2 * F + 1 ≤ Z.of_nat (length (StrongEdges v))) l) as Hf.
    { apply Forall_forall. intros p Hp. rewrite Hl, elem_of_elements in Hp. destruct (buffer nd) as [b|] eqn:E; [by apply (Hb p b)|].
      by apply not_elem_of_empty in Hp. }
    clear Hl. induction Hf as [|p l (v&Hv&Hn) _ IH]; simpl in H; [by simplify_eq|].
    apply bind_ret_inv in H as (nd1&H1&H). rewrite (takeBuffered_empty nd p nd1 v Hv Hn He H1) in H. by apply IH.
  - by destruct (CreateNewVertex_stuck nd r (nd', p)).
  - exact He.
  - apply WaveReady_keeps in H as (_&Ed&_). intros r'. unfold atRound. rewrite Ed. apply He.
Qed.

(** The searches panic as soon as they have to search: the stack writes through a nil pointer. *)
Lemma Path_panics nd pv pu v u : vertices nd !! pv = Some v → vertices nd !! pu = Some u → vRound u < vRound v →
  Exist addrString nd v = Ret true → Exist addrString nd u = Ret true → Path addrString nd pv pu = Some Crash.
Proof.
  intros Hv Hu Hlt Ev Eu. unfold Path, deref. rewrite Hv, Hu. cbn [mbind walk_bind]. unfold pathTests. rewrite Ev.
  cbn [mbind outcome_bind]. rewrite Eu. cbn [mbind outcome_bind negb]. rewrite !decide_False by lia. done.
Qed.
End riderSpec.

(** ** A node at work *)

(** The node that the command line starts has no maps: the first vertex that is delivered panics. *)
Lemma started_node_panics_on_delivery :
  RDeliver (withVertex emptyNode 0 (mkVertex 0 "" None [1; 2; 3]%nat [] false)) 0 1 "a" = Crash.
Proof. reflexivity. Qed.

(** Three vertices of round 1, and one of round 2 in the buffer. *)
Definition genesisVertex (s : string) : Vertex := mkVertex 1 s None [] [] false.
Definition smallNode : Node :=
  mkNode {[ 1%nat := genesisVertex "a"; 2%nat := genesisVertex "b"; 3%nat := genesisVertex "c";
            4%nat := mkVertex 2 "a" None [1; 2; 3]%nat [] false ]}
    (Some {[ 1 := [1; 2; 3]%nat ]}) [] 2 (Some {[ 4%nat ]}) 0 [] [] [] None.

Definition grownNode : Node :=
  smallNode {{ dagRound := Some {[ 1 := [1; 2; 3]%nat; 2 := [4]%nat ]}; buffer := Some ∅ }}.

Lemma smallNode_ok : graphOk id smallNode.
Proof.
  intros r p. unfold atRound. simpl. destruct (decide (1 = r)) as [<-|Hr]; [|by rewrite lookup_singleton_ne, elem_of_nil].
  rewrite lookup_singleton_eq. simpl. rewrite !elem_of_cons, elem_of_nil. intros Hp. split; [|simpl; lia].
  destruct Hp as [->|[->|[->|[]]]]; eexists; (split_and!; [reflexivity|reflexivity|constructor]).
Qed.

Example vertex_joins : riderStep id smallNode grownNode ∧ atRound grownNode 2 = [4]%nat ∧ graphOk id grownNode.
Proof.
  assert (riderStep id smallNode grownNode) as Hs by (apply (step_construct _ _ [4]%nat); [done|reflexivity|vm_compute; reflexivity]).
  split_and!; [done..|]. apply (graph_stays_closed id smallNode); [exact smallNode_ok|]. apply rtc_once. split; [done|]. by intros r q v _ _ p _.
Qed.

(** A vertex of the graph that is delivered again is moved to another round, while it is still filed under the old
    one; the edges to it then lead nowhere. *)
Example redelivery_breaks_graph : ∃ nd', riderStep id grownNode nd' ∧ ¬ graphOk id nd'.
Proof.
  eexists. split; [by apply (step_deliver _ _ 1 7 "a")|]. intros Hok. destruct (Hok 1 1%nat) as [(v&Hv&Hr&_) _]; [vm_compute; by left|].
  vm_compute in Hv. by simplify_eq.
Qed.
