(* ===== verification/Paych.v ===== *)
(** * Payment channels: the store and the vouchers (paychmgr/store.go, state.go, paych.go, util.go)

    A channel holds funds of its creator; vouchers on its lanes entitle the other side to some of them.
    The store keeps what the node knows of its channels and the messages that it sent for them.  The
    operations of an accessor run under its lock, so that each is a step.  The datastore is a map
    without I/O errors, in which a nil address is kept as a reserved address and read back as nil. *)

From coqutil Require Import Datatypes.RecordSetters.
From stdpp Require Import strings numbers base gmap fin_maps sets list.
From S2P Require Import Prelude GoStrings FileTypes.
Import DoubleBraceUpdate.
Local Open Scope Z_scope.

Abbreviation Address := string (only parsing).
Abbreviation Cid := string (only parsing).

(** ** Errors *)

Inductive paychErr :=
| ErrInsufficientFunds (shortfall : Z)
| ErrChannelNotTracked
| PaychErr (text : string).

(** An operation on a store; what was written before an error stays. *)
Definition op (S A : Type) : Type := S → S * (A + paychErr).
#[global] Instance op_ret {S} : MRet (op S) := λ A a s, (s, inl a).
#[global] Instance op_bind {S} : MBind (op S) := λ A B f m s,
  match m s with (s', inl a) => f a s' | (s', inr e) => (s', inr e) end.
Definition opFail {S A} (e : paychErr) : op S A := λ s, (s, inr e).
Definition opLift {S A} (r : A + string) : op S A := λ s, (s, match r with inl a => inl a | inr e => inr (PaychErr e) end).
Definition opResult {S A} (r : A + paychErr) : op S A := λ s, (s, r).
Definition opRead {S A} (f : S → A) : op S A := λ s, (s, inl (f s)).
Definition opUpdate {S} (f : S → S) : op S unit := λ s, (f s, inl tt).
(** The error of a call as a value. *)
Definition opTry {S A} (m : op S A) : op S (A + paychErr) := λ s, let '(s', r) := m s in (s', inl r).

(** ** Data *)

(** [paych.SignedVoucher] of go-state-types; [Extra] and [Merges] are kept as they are encoded. *)
Record SignedVoucher := mkVoucher {
  ChannelAddr : Address; TimeLockMin : Z; TimeLockMax : Z; SecretHash : string; Extra : option string;
  Lane : Z; Nonce : Z; Amount : Z; MinSettleHeight : Z; Merges : list string; Signature : option string
}.
#[global] Instance SignedVoucher_eq_dec : EqDecision SignedVoucher.
Proof. solve_decision. Defined.

Record VoucherInfo := mkVoucherInfo { viVoucher : SignedVoucher; Submitted : bool }.

Definition DirInbound : Z := 1.
Definition DirOutbound : Z := 2.

Record ChannelInfo := mkChannelInfo {
  ChannelID : string;
  Channel : option Address;
  Control : Address;
  Target : Address;
  Direction : Z;
  Vouchers : list VoucherInfo;
  NextLane : Z;
  ciAmount : Z;
  AvailableAmount : Z;
  PendingAvailableAmount : Z;
  PendingAmount : Z;
  CreateMsg : option Cid;
  AddFundsMsg : option Cid;
  Settling : bool
}.

(** [ci.from()] and [ci.to()] *)
Definition ciFrom (ci : ChannelInfo) : Address := if decide (Direction ci = DirOutbound) then Control ci else Target ci.
Definition ciTo (ci : ChannelInfo) : Address := if decide (Direction ci = DirOutbound) then Target ci else Control ci.

Record MsgInfo := mkMsgInfo { miChannelID : string; miMsgCid : Cid; Received : bool; miErr : string }.

Record Store := mkStore { channels : gmap string ChannelInfo; messages : gmap Cid MsgInfo }.

(** ** The chain *)

(** [paych.LaneState] and [paych.State] of the actor, with its balance *)
Record LaneState := mkLaneState { Redeemed : Z; lsNonce : Z }.
Record paychState := mkPaychState {
  Balance : Z; psFrom : Address; psTo : Address; psLanes : gmap Z LaneState; SettlingAt : Z
}.

(** What the manager asks the node for (manager.go); a result on the right is an error.  A message is
    given by its sender, its receiver, its value and what it asks of the actor. *)
Inductive paychCall := CallCreate (to : Address) | CallUpdate (sv : SignedVoucher) (secret : string) | CallSettle | CallCollect | CallSend.
Record paychMsg := mkPaychMsg { pmFrom : Address; pmTo : Address; pmValue : Z; pmCall : paychCall }.

Class PaychAPI := {
  GetPaychState : Address → paychState + string;
  ResolveToKeyAddress : Address → Address + string;
  StateAccountKey : Address → Address + string;
  WalletHas : Address → bool + string;
  WalletSign : Address → string → string + string;
  sigVerify : option string → Address → string → option string;
  SigningBytes : SignedVoucher → string + string;
  buildMessage : Address → Address → paychCall → paychMsg + string;
  MpoolPushMessage : paychMsg → Cid + string;
  Call : paychMsg → Z + string
}.

(** ** Vouchers of a channel (store.go) *)

(** [cborutil.Equals] compares the encodings, which determine the vouchers. *)
Definition infoForVoucher (ci : ChannelInfo) (sv : SignedVoucher) : option (nat * VoucherInfo) :=
  list_find (λ v, sv = viVoucher v) (Vouchers ci).

Definition hasVoucher (ci : ChannelInfo) (sv : SignedVoucher) : bool := bool_decide (is_Some (infoForVoucher ci sv)).

Definition markLower (sv : SignedVoucher) (vi : VoucherInfo) : VoucherInfo :=
  if decide (Lane (viVoucher vi) = Lane sv ∧ Nonce (viVoucher vi) < Nonce sv) then vi {{ Submitted := true }} else vi.

Definition markVoucherSubmitted (ci : ChannelInfo) (sv : SignedVoucher) : ChannelInfo + paychErr :=
  match infoForVoucher ci sv with
  | None => inr (PaychErr "cannot submit voucher that has not been added to channel")
  | Some (i, vi) => inl (ci {{ Vouchers := map (markLower sv) (<[i := vi {{ Submitted := true }}]> (Vouchers ci)) }})
  end.

Definition wasVoucherSubmitted (ci : ChannelInfo) (sv : SignedVoucher) : bool + paychErr :=
  match infoForVoucher ci sv with
  | None => inr (PaychErr "cannot submit voucher that has not been added to channel")
  | Some (_, vi) => inl (Submitted vi)
  end.

(** ** The store *)

Section store.
Context `{MapRange}.

(** The channels that pass a test, in the order of the query. *)
Definition findChans (test : ChannelInfo → bool) (ps : Store) : list ChannelInfo :=
  filter (λ ci, test ci = true) (map snd (rangeOf (channels ps))).

Definition findChan (test : ChannelInfo → bool) : op Store ChannelInfo := λ ps,
  match findChans test ps with ci :: _ => (ps, inl ci) | [] => (ps, inr ErrChannelNotTracked) end.

Definition isAt (addr : Address) (ci : ChannelInfo) : bool := bool_decide (Channel ci = Some addr).
Definition ByAddress (addr : Address) : op Store ChannelInfo := findChan (isAt addr).

Definition ByChannelID (channelID : string) : op Store ChannelInfo := λ ps,
  match channels ps !! channelID with Some ci => (ps, inl ci) | None => (ps, inr ErrChannelNotTracked) end.

(** A channel without an ID gets the new one. *)
Definition putChannelInfo (uuid : string) (ci : ChannelInfo) : op Store ChannelInfo := λ ps,
  let ci' := if decide (ChannelID ci = "") then ci {{ ChannelID := uuid }} else ci in
  (ps {{ channels := <[ChannelID ci' := ci']> (channels ps) }}, inl ci').

Definition ListChannels (ps : Store) : list Address := omap Channel (findChans (λ ci, bool_decide (is_Some (Channel ci))) ps).

Definition TrackChannel (uuid : string) (ci : ChannelInfo) (ch : Address) : op Store ChannelInfo :=
  r ← opTry (ByAddress ch);
  match r with
  | inl _ => opFail (PaychErr "already tracking channel: ")
  | inr ErrChannelNotTracked => putChannelInfo uuid ci ;; ByAddress ch
  | inr e => opFail e
  end.

Definition AllocateLane (ch : Address) : op Store Z :=
  ci ← ByAddress ch;
  putChannelInfo "" (ci {{ NextLane := wrapUint64 (NextLane ci + 1) }}) ;; mret (NextLane ci).

Definition VouchersForPaych (ch : Address) : op Store (list VoucherInfo) := ci ← ByAddress ch; mret (Vouchers ci).

Definition MarkVoucherSubmitted (ci : ChannelInfo) (sv : SignedVoucher) : op Store unit :=
  match markVoucherSubmitted ci sv with
  | inl ci' => putChannelInfo "" ci' ;; mret tt
  | inr e => opFail e
  end.

Definition SaveNewMessage (channelID : string) (mcid : Cid) : op Store unit :=
  opUpdate (λ ps, ps {{ messages := <[mcid := mkMsgInfo channelID mcid false ""]> (messages ps) }}).

Definition GetMessage (mcid : Cid) : op Store MsgInfo := λ ps,
  match messages ps !! mcid with Some m => (ps, inl m) | None => (ps, inr (PaychErr "datastore: key not found")) end.

Definition SaveMessageResult (mcid : Cid) (msgErr : option string) : op Store unit :=
  m ← GetMessage mcid;
  let m' := m {{ Received := true; miErr := match msgErr with Some e => e | None => miErr m end }} in
  opUpdate (λ ps, ps {{ messages := <[mcid := m']> (messages ps) }}).

Definition ByMessageCid (mcid : Cid) : op Store ChannelInfo :=
  m ← GetMessage mcid; findChan (λ ci, bool_decide (ChannelID ci = miChannelID m)).

Definition RemoveChannel (channelID : string) : op Store unit := opUpdate (λ ps, ps {{ channels := delete channelID (channels ps) }}).

Definition CreateChannel (uuid : string) (from to : Address) (createMsgCid : Cid) (amt avail : Z) : op Store ChannelInfo :=
  ci ← putChannelInfo uuid (mkChannelInfo "" None from to DirOutbound [] 0 0 0 avail amt (Some createMsgCid) None false);
  SaveNewMessage (ChannelID ci) createMsgCid ;;
  mret ci.

Definition isPending (ci : ChannelInfo) : bool :=
  bool_decide (Direction ci = DirOutbound) && bool_decide (is_Some (CreateMsg ci) ∨ is_Some (AddFundsMsg ci)).
Definition WithPendingAddFunds (ps : Store) : list ChannelInfo := findChans isPending ps.

Context `{PaychAPI}.

(** An active channel has not been settled, as far as is known. *)
Definition isActiveFromTo (from to : Address) (ci : ChannelInfo) : bool :=
  if decide (Direction ci ≠ DirOutbound) then false
  else if Settling ci then false
  else if match Channel ci with
          | Some ch => match GetPaychState ch with inl st => bool_decide (SettlingAt st ≠ 0) | inr _ => true end
          | None => false
          end then false
  else bool_decide (Control ci = from ∧ Target ci = to).
Definition OutboundActiveByFromTo (from to : Address) : op Store ChannelInfo := findChan (isActiveFromTo from to).

(** ** Channels on the chain (state.go, manager.go) *)

Definition nextLaneFromState (st : paychState) : Z :=
  if decide (size (psLanes st) = 0%nat) then 0
  else wrapUint64 (foldl (λ maxID e, if decide (maxID < e.1) then e.1 else maxID) 0 (rangeOf (psLanes st)) + 1).

Definition loadStateChannelInfo (ch : Address) (dir : Z) : op Store ChannelInfo :=
  st ← opLift (GetPaychState ch);
  from ← opLift (ResolveToKeyAddress (psFrom st));
  to ← opLift (ResolveToKeyAddress (psTo st));
  let '(control, target) := if decide (dir = DirOutbound) then (from, to) else (to, from) in
  mret (mkChannelInfo "" (Some ch) control target dir [] (nextLaneFromState st) 0 0 0 0 None None false).

Definition trackInboundChannel (uuid : string) (ch : Address) : op Store ChannelInfo :=
  r ← opTry (ByAddress ch);
  match r with
  | inl ci => mret ci
  | inr ErrChannelNotTracked =>
      stateCi ← loadStateChannelInfo ch DirInbound;
      toKey ← opLift (StateAccountKey (Control stateCi));
      has ← opLift (WalletHas toKey);
      if (has : bool) then TrackChannel uuid stateCi ch
      else opFail (PaychErr ("cannot add voucher for channel " +:+ ch +:+ ": wallet does not have key for address " +:+ Control stateCi))
  | inr e => opFail e
  end.

(** The cache of accessors: each key has a lock of its own (accessorcache.go). *)
Definition accessorCacheKey (from to : Address) : string := from +:+ "->" +:+ to.
Definition accessorByAddress (ch : Address) : op Store string := ci ← ByAddress ch; mret (accessorCacheKey (Control ci) (Target ci)).
Definition inboundChannelAccessor (uuid : string) (ch : Address) : op Store string :=
  ci ← trackInboundChannel uuid ch; mret (accessorCacheKey (Target ci) (Control ci)).

(** ** Vouchers (paych.go) *)

Definition nextNonceForLane (ci : ChannelInfo) (lane : Z) : Z :=
  wrapUint64 (foldl (λ maxnonce v, if decide (Lane (viVoucher v) = lane ∧ maxnonce < Nonce (viVoucher v)) then Nonce (viVoucher v) else maxnonce)
    0 (Vouchers ci) + 1).

(** The vouchers of the store over the lanes of the chain. *)
Definition applyVoucher (lanes : gmap Z LaneState) (v : VoucherInfo) : gmap Z LaneState :=
  let sv := viVoucher v in
  match lanes !! Lane sv with
  | Some ls => if decide (Nonce sv < lsNonce ls) then lanes else <[Lane sv := mkLaneState (Amount sv) (Nonce sv)]> lanes
  | None => <[Lane sv := mkLaneState (Amount sv) (Nonce sv)]> lanes
  end.
Fixpoint applyVouchers (vs : list VoucherInfo) (lanes : gmap Z LaneState) : gmap Z LaneState + paychErr :=
  match vs with
  | [] => inl lanes
  | v :: vs' => if decide (Merges (viVoucher v) ≠ []) then inr (PaychErr "paych merges not handled yet") else applyVouchers vs' (applyVoucher lanes v)
  end.

Definition laneState (st : paychState) (ch : Address) : op Store (gmap Z LaneState) :=
  r ← opTry (VouchersForPaych ch);
  match r with
  | inl vs => opResult (applyVouchers vs (psLanes st))
  | inr ErrChannelNotTracked => mret (psLanes st)
  | inr e => opFail e
  end.

Definition totalRedeemed (lanes : gmap Z LaneState) : Z := map_fold (λ _ ls acc, Redeemed ls + acc) 0 lanes.

Definition totalRedeemedWithVoucher (lanes : gmap Z LaneState) (sv : SignedVoucher) : Z + paychErr :=
  if decide (Merges sv ≠ []) then inr (PaychErr "dont currently support paych lane merges")
  else
    let total := totalRedeemed lanes in
    inl (match lanes !! Lane sv with
         | Some ls => if decide (lsNonce ls < Nonce sv) then total + (Amount sv - Redeemed ls) else total
         | None => total + Amount sv
         end).

(** The first of the locks of a voucher. *)
Definition voucherLocked (sv : SignedVoucher) : option string :=
  if decide (Extra sv ≠ None) then Some "voucher is Message Locked"
  else if decide (TimeLockMax sv ≠ 0) then Some "voucher is Max Time Locked"
  else if decide (TimeLockMin sv ≠ 0) then Some "voucher is Min Time Locked"
  else if decide (String.length (SecretHash sv) ≠ 0%nat) then Some "voucher is Hash Locked"
  else None.

(** A voucher must go beyond what is known of its lane. *)
Definition laneAllows (lanes : gmap Z LaneState) (sv : SignedVoucher) : option string :=
  match lanes !! Lane sv with
  | Some ls =>
      if decide (Nonce sv ≤ lsNonce ls) then Some "nonce too low"
      else if decide (Amount sv ≤ Redeemed ls) then Some "voucher amount is lower than amount for voucher with lower nonce"
      else None
  | None => None
  end.

Definition checkVoucherValidUnlocked (ch : Address) (sv : SignedVoucher) : op Store (gmap Z LaneState) :=
  if decide (ChannelAddr sv ≠ ch) then opFail (PaychErr ("voucher ChannelAddr doesn't match channel address, got " +:+ ChannelAddr sv +:+ ", expected " +:+ ch))
  else match voucherLocked sv with
  | Some text => opFail (PaychErr text)
  | None =>
      st ← opLift (GetPaychState ch);
      from ← opLift (ResolveToKeyAddress (psFrom st));
      vb ← opLift (SigningBytes sv);
      match sigVerify (Signature sv) from vb with
      | Some text => opFail (PaychErr text)
      | None =>
          lanes ← laneState st ch;
          match laneAllows lanes sv with
          | Some text => opFail (PaychErr text)
          | None =>
              match totalRedeemedWithVoucher lanes sv with
              | inr e => opFail e
              | inl total =>
                  if decide (Balance st < total) then opFail (ErrInsufficientFunds (total - Balance st))
                  else if decide (Merges sv ≠ []) then opFail (PaychErr "dont currently support paych lane merges")
                  else mret lanes
              end
          end
      end
  end.

Definition redeemedOn (lanes : gmap Z LaneState) (lane : Z) : Z := match lanes !! lane with Some ls => Redeemed ls | None => 0 end.

Definition appendVoucher (ci : ChannelInfo) (sv : SignedVoucher) : ChannelInfo :=
  let ci1 := ci {{ Vouchers := Vouchers ci ++ [mkVoucherInfo sv false] }} in
  if decide (NextLane ci1 ≤ Lane sv) then ci1 {{ NextLane := wrapUint64 (Lane sv + 1) }} else ci1.

Definition addVoucherUnlocked (ch : Address) (sv : SignedVoucher) (minDelta : Z) : op Store Z :=
  ci ← ByAddress ch;
  if hasVoucher ci sv then mret 0
  else
    lanes ← checkVoucherValidUnlocked ch sv;
    let delta := Amount sv - redeemedOn lanes (Lane sv) in
    if decide (delta < minDelta) then opFail (PaychErr "addVoucher: supplied token amount too low")
    else putChannelInfo "" (appendVoucher ci sv) ;; mret delta.

(** The voucher that was made, or what the funds of the channel lack. *)
Record VoucherCreateResult := mkCreateResult { vcVoucher : option SignedVoucher; Shortfall : Z }.

Definition createVoucher (ch : Address) (voucher : SignedVoucher) : op Store VoucherCreateResult :=
  ci ← ByAddress ch;
  let sv := voucher {{ ChannelAddr := ch; Nonce := nextNonceForLane ci (Lane voucher) }} in
  vb ← opLift (SigningBytes sv);
  sig ← opLift (WalletSign (Control ci) vb);
  let sv' := sv {{ Signature := Some sig }} in
  r ← opTry (addVoucherUnlocked ch sv' 0);
  match r with
  | inl _ => mret (mkCreateResult (Some sv') 0)
  | inr (ErrInsufficientFunds s) => mret (mkCreateResult None s)
  | inr e => opFail e
  end.

Definition submitVoucher (ch : Address) (sv : SignedVoucher) (secret : string) : op Store Cid :=
  ci ← ByAddress ch;
  let has := hasVoucher ci sv in
  submitted ← (if has then opResult (wasVoucherSubmitted ci sv) else mret false);
  if (submitted : bool) then opFail (PaychErr "cannot submit voucher that has already been submitted")
  else
    msg ← opLift (buildMessage (Control ci) ch (CallUpdate sv secret));
    mcid ← opLift (MpoolPushMessage msg);
    MarkVoucherSubmitted (if has then ci else ci {{ Vouchers := Vouchers ci ++ [mkVoucherInfo sv false] }}) sv ;;
    mret mcid.

Definition checkVoucherSpendable (ch : Address) (sv : SignedVoucher) (secret : string) : op Store bool :=
  st ← opLift (GetPaychState ch);
  ci ← ByAddress ch;
  submitted ← opResult (wasVoucherSubmitted ci sv);
  if (submitted : bool) then mret false
  else
    msg ← opLift (buildMessage (psTo st) ch (CallUpdate sv secret));
    exit ← opLift (Call msg);
    mret (bool_decide (exit = 0)).

Definition settle (ch : Address) : op Store Cid :=
  ci ← ByAddress ch;
  msg ← opLift (buildMessage (Control ci) ch CallSettle);
  mcid ← opLift (MpoolPushMessage msg);
  putChannelInfo "" (ci {{ Settling := true }}) ;; mret mcid.

Definition collect (ch : Address) : op Store Cid :=
  ci ← ByAddress ch;
  msg ← opLift (buildMessage (Control ci) ch CallCollect);
  opLift (MpoolPushMessage msg).
End store.

(** util.go: the best spendable voucher of each lane; the API is asked for each voucher. *)
Fixpoint BestSpendableByLane (spendable : SignedVoucher → bool + string) (vouchers : list SignedVoucher) (best : gmap Z SignedVoucher) :
    gmap Z SignedVoucher + string :=
  match vouchers with
  | [] => inl best
  | v :: rest =>
      match spendable v with
      | inr e => inr e
      | inl false => BestSpendableByLane spendable rest best
      | inl true =>
          match best !! Lane v with
          | Some b => BestSpendableByLane spendable rest (if decide (Amount b < Amount v) then <[Lane v := v]> best else best)
          | None => BestSpendableByLane spendable rest (<[Lane v := v]> best)
          end
      end
  end.

(** * What vouchers can claim *)

Section vouchers.
Context `{MapRange} `{PaychAPI}.

(** Channels are filed under their IDs, and an address belongs to one of them. *)
Record storeOk (ps : Store) : Prop := {
  st_ids : map_Forall (λ id ci, ChannelID ci = id ∧ id ≠ "") (channels ps);
  st_addr i j ci cj a : channels ps !! i = Some ci → channels ps !! j = Some cj → Channel ci = Some a → Channel cj = Some a → i = j
}.

Lemma findChans_elem test ps ci : ci ∈ findChans test ps ↔ test ci = true ∧ ∃ id, channels ps !! id = Some ci.
Proof.
  unfold findChans. rewrite list_elem_of_filter, list_elem_of_fmap. split; intros [Ht Hex]; (split; [done|]).
  - destruct Hex as ([id c]&->&Hin%rangeOf_elem). by exists id.
  - destruct Hex as [id Hid]. exists (id, ci). split; [done|]. by apply rangeOf_elem.
Qed.

Lemma ByAddress_found ps ch id ci : storeOk ps → channels ps !! id = Some ci → Channel ci = Some ch → ByAddress ch ps = (ps, inl ci).
Proof.
  intros Hok Hid Hch. unfold ByAddress, findChan. destruct (findChans (isAt ch) ps) as [|cj l] eqn:E.
  - assert (ci ∈ findChans (isAt ch) ps) as Hin by (apply findChans_elem; split; [by apply bool_decide_eq_true|by exists id]).
    rewrite E in Hin. by apply elem_of_nil in Hin.
  - destruct (findChans_elem (isAt ch) ps cj) as [Hcj _]. destruct Hcj as [Hat%bool_decide_eq_true [j Hj]]; [rewrite E; by left|].
    rewrite (st_addr ps Hok id j ci cj ch Hid Hj Hch Hat) in Hid. by simplify_eq.
Qed.

Lemma ByAddress_inv ps ch ci : ByAddress ch ps = (ps, inl ci) → ∃ id, channels ps !! id = Some ci ∧ Channel ci = Some ch.
Proof.
  unfold ByAddress, findChan. destruct (findChans (isAt ch) ps) as [|cj l] eqn:E; [done|]. intros [= ->].
  destruct (findChans_elem (isAt ch) ps ci) as [Hcj _]. destruct Hcj as [Hat%bool_decide_eq_true [j Hj]]; [rewrite E; by left|]. eauto.
Qed.

(** Writing a channel back keeps the store in order. *)
Lemma put_keeps ps ci ci' u : storeOk ps → channels ps !! ChannelID ci = Some ci → ChannelID ci' = ChannelID ci → Channel ci' = Channel ci →
  putChannelInfo u ci' ps = (ps {{ channels := <[ChannelID ci := ci']> (channels ps) }}, inl ci') ∧
  storeOk (ps {{ channels := <[ChannelID ci := ci']> (channels ps) }}).
Proof.
  intros Hok Hci Hid Hch. destruct (st_ids ps Hok _ _ Hci) as [_ Hne]. split.
  - unfold putChannelInfo. rewrite Hid, decide_False by done. cbv zeta. by rewrite Hid.
  - destruct Hok as [Hids Haddr]. split.
    + by apply (map_Forall_insert_2 _ (channels ps)); [rewrite Hid|].
    + intros i j c1 c2 a. change (<[ChannelID ci := ci']> (channels ps) !! i = Some c1 → <[ChannelID ci := ci']> (channels ps) !! j = Some c2 →
        Channel c1 = Some a → Channel c2 = Some a → i = j). rewrite !lookup_insert_Some.
      intros [[<- <-]|[Hi H1]] [[<- <-]|[Hj H2]] E1 E2; [done|..].
      * rewrite Hch in E1. by eapply (Haddr _ j).
      * rewrite Hch in E2. by eapply (Haddr i).
      * by eapply (Haddr i j).
Qed.

(** ** The total of the lanes *)

Lemma totalRedeemed_insert lanes lane ls : lanes !! lane = None → totalRedeemed (<[lane := ls]> lanes) = Redeemed ls + totalRedeemed lanes.
Proof. intros Hn. unfold totalRedeemed. rewrite map_fold_insert_L; [done| |done]. intros. lia. Qed.

Lemma totalRedeemed_replace lanes lane old ls : lanes !! lane = Some old →
  totalRedeemed (<[lane := ls]> lanes) = totalRedeemed lanes + (Redeemed ls - Redeemed old).
Proof.
  intros Ho. rewrite <- (insert_delete_id lanes lane old Ho) at 2.
  rewrite <- (insert_delete_eq lanes lane ls). rewrite !totalRedeemed_insert by apply lookup_delete_eq. lia.
Qed.

(** The total with a voucher is the total of the lanes after it. *)
Lemma totalRedeemedWithVoucher_is_total lanes sv b : Merges sv = [] → laneAllows lanes sv = None →
  totalRedeemedWithVoucher lanes sv = inl (totalRedeemed (applyVoucher lanes (mkVoucherInfo sv b))).
Proof.
  intros Hm. unfold totalRedeemedWithVoucher, laneAllows, applyVoucher. rewrite decide_False by (rewrite Hm; auto). simpl.
  destruct (lanes !! Lane sv) as [ls|] eqn:El.
  - repeat case_decide; try done; try lia. intros _. f_equal. rewrite (totalRedeemed_replace _ _ ls) by done. done.
  - intros _. f_equal. rewrite totalRedeemed_insert by done. simpl. lia.
Qed.

Lemma applyVouchers_snoc vs v lanes lanes' : applyVouchers vs lanes = inl lanes' → Merges (viVoucher v) = [] →
  applyVouchers (vs ++ [v]) lanes = inl (applyVoucher lanes' v).
Proof.
  intros E Hm. revert lanes E. induction vs as [|x vs IH]; simpl; intros lanes E.
  - simplify_eq. by rewrite decide_False by (rewrite Hm; auto).
  - case_decide; [done|]. by apply IH.
Qed.

(** The next nonce is above all nonces of the lane. *)
Lemma nextNonce_fresh ci lane : Forall (λ v, 0 ≤ Nonce (viVoucher v) < 2 ^ 64 - 1) (Vouchers ci) →
  ∀ v, v ∈ Vouchers ci → Lane (viVoucher v) = lane → Nonce (viVoucher v) < nextNonceForLane ci lane.
Proof.
  intros Hb v Hv Hl. unfold nextNonceForLane.
  set (f := λ maxnonce v, if decide _ then _ else _).
  assert (∀ vs m, 0 ≤ m < 2 ^ 64 - 1 → Forall (λ v, 0 ≤ Nonce (viVoucher v) < 2 ^ 64 - 1) vs →
    m ≤ foldl f m vs < 2 ^ 64 - 1 ∧ ∀ v, v ∈ vs → Lane (viVoucher v) = lane → Nonce (viVoucher v) ≤ foldl f m vs) as Hfold.
  { clear. induction vs as [|x vs IH]; intros m Hm Hvs; simpl; [split; [lia|by intros v ?%elem_of_nil]|].
    apply Forall_cons in Hvs as [Hx Hvs].
    assert (m ≤ f m x < 2 ^ 64 - 1 ∧ (Lane (viVoucher x) = lane → Nonce (viVoucher x) ≤ f m x)) as [Hfm Hfx].
    { unfold f. case_decide; [lia|]. split; [lia|]. intros. destruct (decide (m < Nonce (viVoucher x))); [tauto|lia]. }
    destruct (IH (f m x)) as [Hle Hall]; [lia|done|]. split; [lia|].
    intros v [->|Hv]%elem_of_cons Hl; [specialize (Hfx Hl); lia|by apply Hall]. }
  destruct (Hfold (Vouchers ci) 0) as [Hle Hall]; [lia|done|]. unfold wrapUint64. rewrite Z.mod_small by lia. specialize (Hall v Hv Hl). lia.
Qed.

Lemma laneAllows_delta lanes sv : laneAllows lanes sv = None → 0 ≤ Amount sv → 0 ≤ Amount sv - redeemedOn lanes (Lane sv).
Proof. unfold laneAllows, redeemedOn. destruct (lanes !! Lane sv); [|lia]. repeat case_decide; [done..|lia]. Qed.

(** ** Making a voucher *)

(** Signatures of the wallet are accepted, and the signature is not part of what is signed. *)
Class WalletLaws : Prop := {
  SigningBytes_unsigned sv s : SigningBytes (sv {{ Signature := s }}) = SigningBytes sv;
  WalletSign_verifies a vb sig : WalletSign a vb = inl sig → sigVerify (Some sig) a vb = None
}.
Context `{!WalletLaws}.

(** The voucher that [createVoucher] signs. *)
Definition newVoucher (ch : Address) (ci : ChannelInfo) (voucher : SignedVoucher) (sig : string) : SignedVoucher :=
  voucher {{ ChannelAddr := ch; Nonce := nextNonceForLane ci (Lane voucher); Signature := Some sig }}.

(** A channel of this node, its state on the chain, and the lanes with the vouchers that are known. *)
Record ownChannel (ps : Store) (ch : Address) (ci : ChannelInfo) (st : paychState) (lanes : gmap Z LaneState) : Prop := {
  oc_store : storeOk ps;
  oc_found : ByAddress ch ps = (ps, inl ci);
  oc_state : GetPaychState ch = inl st;
  oc_key : ResolveToKeyAddress (psFrom st) = inl (Control ci);
  oc_lanes : applyVouchers (Vouchers ci) (psLanes st) = inl lanes;
  oc_nonces : Forall (λ v, 0 ≤ Nonce (viVoucher v) < 2 ^ 64 - 1) (Vouchers ci)
}.

Lemma laneState_own ps ch ci st lanes : ownChannel ps ch ci st lanes → laneState st ch ps = (ps, inl lanes).
Proof.
  intros Hoc. unfold laneState, VouchersForPaych, opTry. unfold mbind, op_bind. rewrite (oc_found _ _ _ _ _ Hoc). simpl.
  unfold opResult. by rewrite (oc_lanes _ _ _ _ _ Hoc).
Qed.

(** Why a voucher is refused, whatever the balance: a lock, a lane that is ahead of it, or lanes to merge. *)
Definition refused (lanes : gmap Z LaneState) (sv : SignedVoucher) : option string :=
  match voucherLocked sv, laneAllows lanes sv, Merges sv with
  | Some text, _, _ | None, Some text, _ => Some text
  | None, None, _ :: _ => Some "dont currently support paych lane merges"
  | None, None, [] => None
  end.

Lemma refused_None lanes sv : refused lanes sv = None → laneAllows lanes sv = None ∧ Merges sv = [].
Proof. unfold refused. by destruct (voucherLocked sv), (laneAllows lanes sv), (Merges sv). Qed.

(** The checks of a voucher that is signed by the wallet. *)
Lemma checkVoucherValid_own ps ch ci st lanes voucher vb sig :
  let sv := newVoucher ch ci voucher sig in
  ownChannel ps ch ci st lanes → SigningBytes sv = inl vb → WalletSign (Control ci) vb = inl sig →
  checkVoucherValidUnlocked ch sv ps =
    (ps, match refused lanes sv with
         | Some text => inr (PaychErr text)
         | None =>
             let total := totalRedeemed (applyVoucher lanes (mkVoucherInfo sv false)) in
             if decide (Balance st < total) then inr (ErrInsufficientFunds (total - Balance st)) else inl lanes
         end).
Proof.
  intros sv Hoc Hvb Hsig. unfold checkVoucherValidUnlocked, refused. rewrite decide_False by auto.
  destruct (voucherLocked sv) eqn:El; [done|]. unfold opLift, mbind, op_bind.
  rewrite (oc_state _ _ _ _ _ Hoc), (oc_key _ _ _ _ _ Hoc), Hvb. change (Signature sv) with (Some sig).
  rewrite (WalletSign_verifies _ _ _ Hsig), (laneState_own _ _ _ _ _ Hoc).
  destruct (laneAllows lanes sv) eqn:Ea; [done|]. destruct (Merges sv) as [|x xs] eqn:Hm.
  - rewrite (totalRedeemedWithVoucher_is_total _ _ false) by done. cbv zeta. case_decide; [done|]. by rewrite decide_False by auto.
  - unfold totalRedeemedWithVoucher. by rewrite decide_True by by rewrite Hm.
Qed.

(** C17. Making a voucher on an own channel, with a wallet that signs, has one of three outcomes.  A voucher with a lock,
    with lanes to merge, or on a lane that already has a voucher or a state of the chain with as high a nonce
    or amount is refused with an error.  When the channel's balance does not cover all lanes with the new
    voucher, the answer is exactly the missing amount, and nothing is stored.  Otherwise the signed
    voucher is stored, with a nonce above all of its lane, and all that can be claimed on the lanes,
    this voucher included, is covered by the balance. *)
Theorem createVoucher_outcome ps ch ci st lanes voucher vb sig :
  let sv := newVoucher ch ci voucher sig in
  let lanes' := applyVoucher lanes (mkVoucherInfo sv false) in
  ownChannel ps ch ci st lanes → 0 ≤ Amount voucher → SigningBytes sv = inl vb → WalletSign (Control ci) vb = inl sig →
  match refused lanes sv with
  | Some text => createVoucher ch voucher ps = (ps, inr (PaychErr text))
  | None =>
      if decide (Balance st < totalRedeemed lanes')
      then createVoucher ch voucher ps = (ps, inl (mkCreateResult None (totalRedeemed lanes' - Balance st)))
      else ∃ ps' ci', createVoucher ch voucher ps = (ps', inl (mkCreateResult (Some sv) 0)) ∧
        storeOk ps' ∧ ByAddress ch ps' = (ps', inl ci') ∧ Vouchers ci' = Vouchers ci ++ [mkVoucherInfo sv false] ∧
        laneState st ch ps' = (ps', inl lanes') ∧ totalRedeemed lanes' ≤ Balance st ∧
        (∀ v, v ∈ Vouchers ci → Lane (viVoucher v) = Lane sv → Nonce (viVoucher v) < Nonce sv)
  end.
Proof.
  intros sv lanes' Hoc Hpos Hvb Hsig. pose proof (checkVoucherValid_own ps ch ci st lanes voucher vb sig Hoc Hvb Hsig) as Hcheck.
  fold sv lanes' in Hcheck. pose proof (nextNonce_fresh ci (Lane voucher) (oc_nonces _ _ _ _ _ Hoc)) as Hfresh.
  assert (hasVoucher ci sv = false) as Hnew.
  { unfold hasVoucher. apply bool_decide_eq_false. intros [[i vi] Hf%list_find_Some]. destruct Hf as (Hi&Hsv&_).
    apply list_elem_of_lookup_2 in Hi. assert (Lane (viVoucher vi) = Lane voucher) as Hlane by by rewrite <- Hsv.
    specialize (Hfresh vi Hi Hlane). rewrite <- Hsv in Hfresh. change (Nonce sv) with (nextNonceForLane ci (Lane voucher)) in Hfresh. lia. }
  destruct (ByAddress_inv ps ch ci (oc_found _ _ _ _ _ Hoc)) as (id&Hid&Hch).
  destruct (st_ids ps (oc_store _ _ _ _ _ Hoc) id ci Hid) as [<- _].
  assert (createVoucher ch voucher ps = match addVoucherUnlocked ch sv 0 ps with
    | (ps', inl _) => (ps', inl (mkCreateResult (Some sv) 0))
    | (ps', inr (ErrInsufficientFunds s)) => (ps', inl (mkCreateResult None s))
    | (ps', inr e) => (ps', inr e) end) as ->.
  { unfold createVoucher, mbind, op_bind. rewrite (oc_found _ _ _ _ _ Hoc). unfold opLift. cbv zeta.
    rewrite <- (SigningBytes_unsigned _ (Some sig)). change (SigningBytes _) with (SigningBytes sv). rewrite Hvb, Hsig. unfold opTry.
    change (voucher {{ ChannelAddr := _; Nonce := _ }} {{ Signature := Some sig }}) with sv.
    destruct (addVoucherUnlocked ch sv 0 ps) as [ps' [d|[]]]; done. }
  unfold addVoucherUnlocked, mbind, op_bind. rewrite (oc_found _ _ _ _ _ Hoc), Hnew, Hcheck.
  destruct (refused lanes sv) eqn:Er; [done|]. destruct (refused_None lanes sv Er) as [Ea Hm]. cbv zeta. case_decide as Hbal; [done|].
  rewrite decide_False by (pose proof (laneAllows_delta lanes sv Ea Hpos); lia).
  set (ci' := appendVoucher ci sv).
  assert (ChannelID ci' = ChannelID ci ∧ Channel ci' = Channel ci ∧ Vouchers ci' = Vouchers ci ++ [mkVoucherInfo sv false]) as (E1&E2&E3)
    by (unfold ci', appendVoucher; cbv zeta; by case_decide).
  destruct (put_keeps ps ci ci' "" (oc_store _ _ _ _ _ Hoc) Hid E1 E2) as [-> Hok']. set (ps' := ps {{ channels := _ }}) in *.
  assert (ByAddress ch ps' = (ps', inl ci')) as Hfound
    by (apply (ByAddress_found ps' ch (ChannelID ci)); [done|apply lookup_insert_eq|by rewrite E2]).
  exists ps', ci'. split_and!; [done..| |lia|exact Hfresh].
  unfold laneState, VouchersForPaych, opTry, mbind, op_bind. rewrite Hfound. simpl. unfold opResult. rewrite E3.
  by rewrite (applyVouchers_snoc _ _ _ lanes) by (done || exact (oc_lanes _ _ _ _ _ Hoc)).
Qed.
End vouchers.

(** ** A channel with two vouchers *)

Module PaychExamples.
(** A wallet whose signature names the signer and the bytes. *)
Definition testAPI : PaychAPI := {|
  GetPaychState ch := if decide (ch = "ch") then inl (mkPaychState 10 "from" "to" ∅ 0) else inr "actor not found";
  ResolveToKeyAddress a := inl a;
  StateAccountKey a := inl a;
  WalletHas a := inl (bool_decide (a = "to"));
  WalletSign a vb := inl (a +:+ vb);
  sigVerify sig a vb := if decide (sig = Some (a +:+ vb)) then None else Some "signature did not match";
  SigningBytes sv := inl (Itoa (Lane sv) +:+ "/" +:+ Itoa (Nonce sv) +:+ "/" +:+ Itoa (Amount sv));
  buildMessage from to call := inl (mkPaychMsg from to 0 call);
  MpoolPushMessage msg := inl "mcid";
  Call msg := inl 0
|}.
#[local] Existing Instance testAPI.
#[local] Existing Instance inOrderOfKeys.

Lemma testAPI_laws : WalletLaws.
Proof. split; [done|]. intros a vb sig [= <-]. simpl. by rewrite decide_True. Qed.

Definition plainVoucher (lane amt : Z) : SignedVoucher := mkVoucher "" 0 0 "" None lane 0 amt 0 [] None.
Definition firstInfo : VoucherInfo := mkVoucherInfo ((plainVoucher 0 4) {{ ChannelAddr := "ch"; Nonce := 1; Signature := Some "from0/1/4" }}) false.
Definition testChannel : ChannelInfo := mkChannelInfo "id" (Some "ch") "from" "to" DirOutbound [firstInfo] 1 10 10 0 0 None None false.
Definition testStore : Store := mkStore {[ "id" := testChannel ]} ∅.

Lemma testStore_ok : storeOk testStore.
Proof.
  split.
  - by apply map_Forall_singleton.
  - intros i j ci cj a. simpl. by rewrite !lookup_singleton_Some; intros [<- _] [<- _].
Qed.

Lemma testChannel_own : ownChannel testStore "ch" testChannel (mkPaychState 10 "from" "to" ∅ 0) {[ 0 := mkLaneState 4 1 ]}.
Proof. split; [exact testStore_ok|done|done|done|done|]. by apply Forall_singleton. Qed.

(** A voucher of 6 on a second lane is made; one of 7 lacks 1. *)
Lemma createVoucher_outcome_witness :
  (∃ ps', createVoucher "ch" (plainVoucher 1 6) testStore = (ps', inl (mkCreateResult (Some (newVoucher "ch" testChannel (plainVoucher 1 6) "from1/1/6")) 0)) ∧ storeOk ps') ∧
  createVoucher "ch" (plainVoucher 1 7) testStore = (testStore, inl (mkCreateResult None 1)).
Proof.
  split; [|reflexivity].
  destruct (@createVoucher_outcome inOrderOfKeys testAPI testAPI_laws testStore "ch" testChannel (mkPaychState 10 "from" "to" ∅ 0) {[ 0 := mkLaneState 4 1 ]}
    (plainVoucher 1 6) "1/1/6" "from1/1/6" testChannel_own ltac:(done) eq_refl eq_refl) as (ps'&ci'&E&Hok&_).
  exists ps'. split; [exact E|exact Hok].
Defined.

(** A channel that was tracked as an inbound one is locked under two different keys. *)
Lemma inbound_channel_has_two_locks : ∃ ps, (trackInboundChannel "id2" "ch" (mkStore ∅ ∅)).1 = ps ∧
  (inboundChannelAccessor "id3" "ch" ps).2 = inl "from->to" ∧ (accessorByAddress "ch" ps).2 = inl "to->from".
Proof. eexists. split; [reflexivity|]. vm_compute. done. Qed.
End PaychExamples.
