(* ===== verification/PaychFunds.v ===== *)
(** * Payment channels: requests for funds (paychmgr/simple.go)

    Requests to create a channel, to add funds to it or to reserve some of its funds wait in a queue.
    They are merged and answered together: from funds that are not reserved, or with one message to the
    chain for all that is left; while a message is under way the queue waits.  Each section of code
    under the lock of the accessor is a step.  A request can be cancelled at any time; [act i r] tells
    whether it is active when it is looked at for the i-th time. *)

From Stdlib Require Import Ascii.
From coqutil Require Import Datatypes.RecordSetters.
From stdpp Require Import strings numbers base gmap fin_maps sets list.
From S2P Require Import Prelude GoStrings GoSort FileTypes GasFees Paych.
Import DoubleBraceUpdate.
Local Open Scope Z_scope.

(** ** Requests *)

(** [rId] stands for the pointer of a request. *)
Record fundsReq := mkFundsReq { rId : nat; amt : Z; Reserve : bool; OffChain : bool }.

Record paychFundsRes := mkFundsRes { resChannel : Address; resMcid : Cid; resErr : string }.
Definition resOk (ch : Address) (mcid : Cid) : paychFundsRes := mkFundsRes ch mcid "".
Definition resFail (ch : Address) (err : string) : paychFundsRes := mkFundsRes ch "" err.

(** The order of a merged request: off-chain ones first, then reserving ones, then by amount. *)
Definition reqLess (a b : fundsReq) : bool :=
  if decide (OffChain a ≠ OffChain b) then OffChain a
  else if decide (Reserve a ≠ Reserve b) then Reserve a
  else bool_decide (amt a < amt b).

Definition newMergedFundsReq (reqs : list fundsReq) : list fundsReq := sortBy reqLess reqs.

Definition sumReqs (active : fundsReq → bool) (reqs : list fundsReq) : Z * Z :=
  foldl (λ s r, if active r then (s.1 + amt r, if Reserve r then s.2 else s.2 + amt r) else s) (0, 0) reqs.

Abbreviation answers := (list (nat * paychFundsRes)) (only parsing).

(** [strings.TrimRight(s, c)] for one character. *)
Fixpoint trimRightChar (c : Ascii.ascii) (s : string) : string :=
  match s with
  | "" => ""
  | String a s' =>
      match trimRightChar c s' with
      | "" => if decide (a = c) then "" else String a ""
      | t => String a t
      end
  end%string.

(** The fraction of [Rat.FloatString(18)] for attofil: 18 digits, the first ones zero. *)
Definition fraction18 (n : Z) : string :=
  let digits := Itoa n in Nat.iter (18 - String.length digits) (String "0"%char) digits.

(** [FIL.Unitless] *)
Definition Unitless (n : Z) : string :=
  if decide (n = 0) then "0"
  else trimRightChar "."%char (trimRightChar "0"%char
         ((if decide (n < 0) then "-" else "") +:+ Itoa (Z.abs n / FilecoinPrecision) +:+ "." +:+ fraction18 (Z.abs n mod FilecoinPrecision))).

(** What the loop of [completeAmount] has done: the funds used and refused, the first request that is left,
    and the answers. *)
Record completion := mkCompletion { used : Z; failed : Z; next : nat; out : list (nat * paychFundsRes) }.

Definition notEnough (ch from to : Address) (r : fundsReq) : paychFundsRes :=
  resFail ch ("not enough funds available in the payment channel " +:+ ch +:+ "; add funds with 'lotus paych add-funds " +:+
    from +:+ " " +:+ to +:+ " " +:+ Unitless (amt r) +:+ "'").

Fixpoint completeLoop (active : fundsReq → bool) (ch from to : Address) (avail : Z) (i : nat) (reqs : list fundsReq) (c : completion) : completion :=
  match reqs with
  | [] => c
  | r :: rest =>
      if negb (Reserve r) then c
      else if negb (active r) then completeLoop active ch from to avail (S i) rest c
      else if decide (avail - used c < amt r) then
        if OffChain r
        then completeLoop active ch from to avail (S i) rest
               (mkCompletion (used c) (failed c + amt r) (S i) (out c ++ [(rId r, notEnough ch from to r)]))
        else c
      else completeLoop active ch from to avail (S i) rest
             (mkCompletion (used c + amt r) (failed c) (S i) (out c ++ [(rId r, resOk ch "")]))
  end.

Definition completeAmount (active : fundsReq → bool) (avail : Z) (ch from to : Address) (reqs : list fundsReq) : completion :=
  completeLoop active ch from to avail 0 reqs (mkCompletion 0 0 0 []).

Definition noChannel (from to amount : string) : paychFundsRes :=
  resFail "" ("payment channel doesn't exist, create with 'lotus paych add-funds " +:+ from +:+ " " +:+ to +:+ " " +:+ amount +:+ "'").

(** [failOffChainNoChannel]: the amount that is freed, the first request that is left, and the answers. *)
Fixpoint failOffChain (active : fundsReq → bool) (from to : Address) (i : nat) (reqs : list fundsReq) (freed : Z) (nxt : nat) (o : answers) : Z * nat * answers :=
  match reqs with
  | [] => (freed, nxt, o)
  | r :: rest =>
      if negb (OffChain r) then (freed, nxt, o)
      else if negb (active r) then failOffChain active from to (S i) rest (freed + amt r) nxt o
      else failOffChain active from to (S i) rest (freed + amt r) (S i) (o ++ [(rId r, noChannel from to (Unitless (amt r)))])
  end.

(** ** The accessor of a channel *)

(** A goroutine that waits for a message, or has the result of it and goes on to [msgWaitComplete]. *)
Inductive msgKind := CreateKind | AddFundsKind.
Inductive waitState := Waiting | Finishing (err : option string).
Record waitEntry := mkWait { weKind : msgKind; weChannel : string; weMsg : Cid; weState : waitState }.

Record accessor := mkAccessor {
  from : Address; to : Address;
  acStore : Store;
  queue : list fundsReq;
  waits : list waitEntry;
  answered : list (nat * paychFundsRes);
  sent : list paychMsg
}.

Definition onStore {A} (m : op Store A) : op accessor A := λ ca,
  let '(ps, r) := m (acStore ca) in (ca {{ acStore := ps }}, r).
Definition answer (l : answers) : op accessor unit := opUpdate (λ ca, ca {{ answered := answered ca ++ l }}).
Definition startWait (k : msgKind) (channelID : string) (mcid : Cid) : op accessor unit :=
  opUpdate (λ ca, ca {{ waits := waits ca ++ [mkWait k channelID mcid Waiting] }}).

Section funds.
Context `{MapRange} `{PaychAPI}.

(** An error of the store is only logged. *)
Definition mutateChannelInfo (channelID : string) (mutate : ChannelInfo → ChannelInfo) : op accessor unit :=
  r ← opTry (onStore (ByChannelID channelID));
  match r with
  | inl ci => onStore (putChannelInfo "" (mutate ci)) ;; mret tt
  | inr _ => mret tt
  end.

(** Pushing a message; it is on its way when there is no error. *)
Definition pushMsg (msg : paychMsg) : op accessor Cid :=
  mcid ← opLift (MpoolPushMessage msg);
  opUpdate (λ ca, ca {{ sent := sent ca ++ [msg] }}) ;; mret mcid.

Definition createPaych (uuid : string) (amount avail : Z) : op accessor Cid :=
  f ← opRead from; t ← opRead to;
  msg ← opLift (buildMessage f t (CallCreate t));
  mcid ← pushMsg (msg {{ pmValue := amount }});
  ci ← onStore (CreateChannel uuid f t mcid amount avail);
  startWait CreateKind (ChannelID ci) mcid ;;
  mret mcid.

Definition addFunds (ci : ChannelInfo) (ch : Address) (amount avail : Z) : op accessor Cid :=
  mcid ← pushMsg (mkPaychMsg (Control ci) ch amount CallSend);
  mutateChannelInfo (ChannelID ci) (λ c, c {{ PendingAmount := amount; PendingAvailableAmount := avail; AddFundsMsg := Some mcid }}) ;;
  onStore (SaveNewMessage (ChannelID ci) mcid) ;;
  startWait AddFundsKind (ChannelID ci) mcid ;;
  mret mcid.

(** The requests that are left, the answer for all of them when there is one, and the amount that is missing. *)
Definition completeAvailable (active : fundsReq → bool) (ci : ChannelInfo) (ch : Address) (reqs : list fundsReq) (amount av : Z) :
    op accessor (list fundsReq * option paychFundsRes * Z) :=
  cur ← opTry (onStore (ByChannelID (ChannelID ci)));
  let toReserve := amount - av in
  let avail := match cur with inl c => if decide (toReserve < AvailableAmount c) then toReserve else AvailableAmount c | inr _ => 0 end in
  mutateChannelInfo (ChannelID ci) (λ c, c {{ AvailableAmount := AvailableAmount c - avail }}) ;;
  let c := completeAmount active avail ch (ciFrom ci) (ciTo ci) reqs in
  answer (out c) ;;
  mutateChannelInfo (ChannelID ci) (λ c', c' {{ AvailableAmount := AvailableAmount c' + (avail - used c) }}) ;;
  let rest := drop (next c) reqs in
  mret (rest, match rest with [] => Some (resOk ch "") | _ => None end, amount - (used c + failed c)).

Definition errText (e : paychErr) : string := match e with PaychErr t => t | ErrChannelNotTracked => "channel not tracked" | ErrInsufficientFunds _ => "" end.

(** The result is [None] when the queue has to wait.  The address of a channel that exists is not nil,
    otherwise the code panics, which is an error of its own here. *)
Definition processTask (active : fundsReq → bool) (uuid : string) (reqs : list fundsReq) (amount avail : Z) :
    op accessor (list fundsReq * option paychFundsRes) :=
  f ← opRead from; t ← opRead to;
  r ← opTry (onStore (OutboundActiveByFromTo f t));
  match r with
  | inr ErrChannelNotTracked =>
      let '(freed, nxt, o) := failOffChain active f t 0 reqs 0 0%nat [] in
      answer o ;;
      let rest := drop nxt reqs in
      match rest with
      | [] => mret (rest, Some (noChannel f t "0"))
      | _ =>
          m ← opTry (createPaych uuid (amount - freed) avail);
          mret (rest, Some (match m with inl mcid => resOk "" mcid | inr e => resFail "" (errText e) end))
      end
  | inr e => mret (reqs, Some (resFail "" (errText e)))
  | inl ci =>
      if decide (CreateMsg ci ≠ None ∨ AddFundsMsg ci ≠ None) then mret (reqs, None)
      else match Channel ci with
      | None => opFail (PaychErr "panic: nil pointer dereference")
      | Some ch =>
          '(rest, res, missing) ← completeAvailable active ci ch reqs amount avail;
          match res with
          | Some _ => mret (rest, res)
          | None =>
              if decide (missing ≤ 0) then mret (rest, None)
              else
                m ← opTry (addFunds ci ch missing avail);
                mret (rest, Some (match m with inl mcid => resOk ch mcid | inr e => resFail "" (errText e) end))
          end
      end
  end.

(** The part of [processQueue] before it reports the available funds. *)
Definition runQueue (act : nat → fundsReq → bool) (uuid : string) : op accessor unit :=
  opUpdate (λ ca, ca {{ queue := filter (λ r, act 0%nat r = true) (queue ca) }}) ;;
  q ← opRead queue;
  match q with
  | [] => mret tt
  | _ =>
      let merged := newMergedFundsReq q in
      let '(amount, avail) := sumReqs (act 1%nat) merged in
      if decide (amount = 0) then mret tt
      else
        '(rest, res) ← processTask (act 2%nat) uuid merged amount avail;
        match res with
        | None => mret tt
        | Some r =>
            opUpdate (λ ca, ca {{ queue := [] }}) ;;
            answer (map (λ q, (rId q, r)) (filter (λ q, act 3%nat q = true) rest))
        end
  end.

(** ** Results of messages *)

Definition onCreated (addr : Address) (ci : ChannelInfo) : ChannelInfo :=
  ci {{ Channel := Some addr; ciAmount := PendingAmount ci; AvailableAmount := PendingAvailableAmount ci;
        PendingAmount := 0; PendingAvailableAmount := 0; CreateMsg := None }}.
Definition onAdded (ci : ChannelInfo) : ChannelInfo :=
  ci {{ ciAmount := ciAmount ci + PendingAmount ci; AvailableAmount := AvailableAmount ci + PendingAvailableAmount ci;
        PendingAmount := 0; PendingAvailableAmount := 0; AddFundsMsg := None }}.
Definition onAddFailed (ci : ChannelInfo) : ChannelInfo := ci {{ PendingAmount := 0; PendingAvailableAmount := 0; AddFundsMsg := None }}.

(** What [StateWaitMsg] gives: an error, or the exit code and the decoded address. *)
Inductive waitResult := WaitError (err : string) | Exited (code : Z) (addr : Address + string).

Definition waitPaychCreateMsg (channelID : string) (w : waitResult) : op accessor (option string) :=
  match w with
  | WaitError e => mret (Some e)
  | Exited code addr =>
      if decide (code ≠ 0) then
        onStore (RemoveChannel channelID) ;;
        mret (Some ("payment channel creation failed (exit code " +:+ Itoa code +:+ ")"))
      else match addr with
      | inr e => mret (Some e)
      | inl a => mutateChannelInfo channelID (onCreated a) ;; mret None
      end
  end.

Definition waitAddFundsMsg (channelID : string) (w : waitResult) : op accessor (option string) :=
  match w with
  | WaitError e => mret (Some e)
  | Exited code _ =>
      if decide (code ≠ 0) then
        mutateChannelInfo channelID onAddFailed ;;
        mret (Some ("voucher channel creation failed: adding funds (exit code " +:+ Itoa code +:+ ")"))
      else mutateChannelInfo channelID onAdded ;; mret None
  end.

(** [canceled] tells that the error is one of the context.  The listeners of the message and the restart
    of the queue are goroutines of their own. *)
Definition msgWaitComplete (mcid : Cid) (err : option string) (canceled : bool) : op accessor unit :=
  if canceled then mret tt
  else opTry (onStore (SaveMessageResult mcid err)) ;; mret tt.

(** ** Requests from outside *)

(** [GetPaych] of the manager refuses to add funds without a message; otherwise the request is queued. *)
Definition enqueue (r : fundsReq) : op accessor unit :=
  if negb (Reserve r) && OffChain r then opFail (PaychErr "can't fund payment channels without on-chain operations")
  else opUpdate (λ ca, ca {{ queue := queue ca ++ [r] }}).

Record ChannelAvailableFunds := mkAvailable {
  caChannel : option Address; caFrom : Address; caTo : Address; ConfirmedAmt : Z; PendingAmt : Z; NonReservedAmt : Z;
  PendingAvailableAmt : Z; PendingWaitSentinel : option Cid; QueuedAmt : Z; VoucherReedeemedAmt : Z
}.

Definition currentAvailableFunds (channelID : string) (queuedAmt : Z) : op accessor (option ChannelAvailableFunds) :=
  if decide (String.length channelID = 0%nat) then mret None
  else
    ci ← onStore (ByChannelID channelID);
    let waitSentinel := match CreateMsg ci with None => AddFundsMsg ci | c => c end in
    total ← match Channel ci with
            | Some ch => st ← opLift (GetPaychState ch); lanes ← onStore (laneState st ch); mret (totalRedeemed lanes)
            | None => mret 0
            end;
    mret (Some (mkAvailable (Channel ci) (ciFrom ci) (ciTo ci) (ciAmount ci) (PendingAmount ci) (AvailableAmount ci)
                  (PendingAvailableAmount ci) waitSentinel queuedAmt total)).

(** The amount that is reported as queued: nothing once the queue was worked off. *)
Definition processQueue (act : nat → fundsReq → bool) (uuid channelID : string) : op accessor (option ChannelAvailableFunds) :=
  runQueue act uuid ;;
  q ← opRead queue;
  currentAvailableFunds channelID (match q with [] => 0 | _ => (sumReqs (act 1%nat) (newMergedFundsReq q)).1 end).

Definition getPaychWaitReady (mcid : Cid) : op accessor (option Address) :=
  m ← onStore (GetMessage mcid);
  if decide (String.length (miErr m) ≠ 0%nat) then opFail (PaychErr (miErr m))
  else if Received m then
    ci ← onStore (ByMessageCid mcid);
    match Channel ci with
    | Some ch => mret (Some ch)
    | None => opFail (PaychErr "panic: create / add funds message succeeded but channelInfo.Channel is nil")
    end
  else mret None.
End funds.

(** * How requests are settled *)

Definition sumAmt (l : list fundsReq) : Z := foldr (λ r acc, amt r + acc) 0 l.

Lemma sumAmt_app l l' : sumAmt (l ++ l') = sumAmt l + sumAmt l'.
Proof. induction l as [|r l IH]; simpl; lia. Qed.

Lemma sumAmt_perm l l' : l ≡ₚ l' → sumAmt l = sumAmt l'.
Proof. induction 1; simpl; lia. Qed.

Lemma sumAmt_pos l : Forall (λ r, 0 < amt r) l → l ≠ [] → 0 < sumAmt l.
Proof. intros Hl Hne. destruct Hl as [|r l Hr Hl]; [done|]. simpl. clear Hne. enough (0 ≤ sumAmt l) by lia. induction Hl; simpl; lia. Qed.

Definition unreserved (l : list fundsReq) : list fundsReq := filter (λ r, Reserve r = false) l.

Lemma unreserved_app l l' : unreserved (l ++ l') = unreserved l ++ unreserved l'.
Proof. apply filter_app. Qed.

Lemma sumReqs_all active l : Forall (λ r, active r = true) l → sumReqs active l = (sumAmt l, sumAmt (unreserved l)).
Proof.
  unfold sumReqs. intros Hact.
  enough (∀ s, foldl (λ s r, if active r then (s.1 + amt r, if Reserve r then s.2 else s.2 + amt r) else s) s l =
    (s.1 + sumAmt l, s.2 + sumAmt (unreserved l))) as -> by done.
  induction Hact as [|r l Hr Hl IH]; intros [x y]; simpl; [by rewrite !Z.add_0_r|]. rewrite Hr, IH. simpl. unfold unreserved. rewrite filter_cons.
  destruct (Reserve r); simpl; f_equal; lia.
Qed.

Section settle.
Variable active : fundsReq → bool.
Variables ch f t : Address.
Variable avail : Z.

(** The requests before the first one that is left are granted or refused; each has its answer. *)
Record settled (reqs : list fundsReq) (c c' : completion) (granted refused rest : list fundsReq) : Prop := {
  se_split : ∃ pre, reqs = pre ++ rest ∧ pre ≡ₚ granted ++ refused ∧ next c' = (next c + length pre)%nat ∧ Forall (λ r, Reserve r = true) pre;
  se_used : used c' = used c + sumAmt granted;
  se_failed : failed c' = failed c + sumAmt refused;
  se_fits : used c ≤ avail → used c' ≤ avail;
  se_refused : Forall (λ r, OffChain r = true) refused;
  se_out : ∃ new, out c' = out c ++ new ∧ new ≡ₚ map (λ r, (rId r, resOk ch "")) granted ++ map (λ r, (rId r, notEnough ch f t r)) refused
}.

Lemma completeLoop_settles reqs : ∀ c, Forall (λ r, active r = true) reqs →
  ∃ granted refused rest, settled reqs c (completeLoop active ch f t avail (next c) reqs c) granted refused rest.
Proof.
  induction reqs as [|r reqs IH]; intros c Hact; simpl.
  { exists [], [], []. split; simpl; [exists []; rewrite Nat.add_0_r; by split_and!|lia|lia|done|done|exists []; by rewrite app_nil_r]. }
  apply Forall_cons in Hact as [Hr Hact]. rewrite Hr.
  assert (∃ granted refused rest, settled (r :: reqs) c c granted refused rest) as Hstop.
  { exists [], [], (r :: reqs). split; simpl; [exists []; rewrite Nat.add_0_r; by split_and!|lia|lia|done|done|exists []; by rewrite app_nil_r]. }
  destruct (Reserve r) eqn:Eres; simpl; [|done]. case_decide as Hfit; [destruct (OffChain r) eqn:Eoff; [|done]|].
  - set (c1 := mkCompletion _ _ _ _). destruct (IH c1 Hact) as (g&rf&rest&[(pre&->&Hp&Hn&Hpr) Hu Hf Hfits Hoff (new&Ho&Hnew)]).
    exists g, (r :: rf), rest. split; simpl in *; [|done|lia|done|by constructor|].
    + exists (r :: pre). split_and!; [done|by rewrite Hp, Permutation_middle|rewrite Hn; simpl; lia|by constructor].
    + exists ((rId r, notEnough ch f t r) :: new). split; [by rewrite Ho, <- app_assoc|]. rewrite Hnew. by rewrite Permutation_middle.
  - set (c1 := mkCompletion _ _ _ _). destruct (IH c1 Hact) as (g&rf&rest&[(pre&->&Hp&Hn&Hpr) Hu Hf Hfits Hoff (new&Ho&Hnew)]).
    exists (r :: g), rf, rest. split; simpl in *; [|lia|done|intros; apply Hfits; lia|done|].
    + exists (r :: pre). split_and!; [done|by rewrite Hp|rewrite Hn; simpl; lia|by constructor].
    + exists ((rId r, resOk ch "") :: new). split; [by rewrite Ho, <- app_assoc|]. by rewrite Hnew.
Qed.
End settle.

Section queue.
Context `{MapRange} `{PaychAPI}.

(** The accessor with another entry of a channel. *)
Definition withChannel (ca : accessor) (id : string) (ci : ChannelInfo) : accessor :=
  ca {{ acStore := (acStore ca) {{ channels := <[id := ci]> (channels (acStore ca)) }} }}.

Lemma mutate_known ca id ci g : channels (acStore ca) !! id = Some ci → ChannelID (g ci) = id → id ≠ "" →
  mutateChannelInfo id g ca = (withChannel ca id (g ci), inl tt).
Proof.
  intros Hid Hg Hne. unfold mutateChannelInfo, opTry, onStore, ByChannelID, mbind, op_bind. rewrite Hid.
  unfold putChannelInfo. rewrite decide_False by (by rewrite Hg). cbv zeta. by rewrite Hg.
Qed.

Lemma withChannel_twice ca id c1 c2 l :
  withChannel ((withChannel ca id c1) {{ answered := l }}) id c2 = (withChannel ca id c2) {{ answered := l }}.
Proof.
  destruct ca as [f t [cs ms] q w a sn].
  change (mkAccessor f t (mkStore (<[id := c2]> (<[id := c1]> cs)) ms) q w l sn = mkAccessor f t (mkStore (<[id := c2]> cs) ms) q w l sn).
  by rewrite insert_insert_eq.
Qed.

(** A channel that is on the chain and waits for no message. *)
Record readyChannel (ca : accessor) (ci : ChannelInfo) (ch : Address) : Prop := {
  rc_found : OutboundActiveByFromTo (from ca) (to ca) (acStore ca) = (acStore ca, inl ci);
  rc_stored : channels (acStore ca) !! ChannelID ci = Some ci;
  rc_id : ChannelID ci ≠ "";
  rc_idle : CreateMsg ci = None ∧ AddFundsMsg ci = None;
  rc_address : Channel ci = Some ch;
  rc_avail : 0 ≤ AvailableAmount ci
}.

(** What the available funds can settle. *)
Lemma completeAvailable_settles active ca ci ch reqs : readyChannel ca ci ch → Forall (λ r, active r = true) reqs → Forall (λ r, 0 < amt r) reqs →
  ∃ granted refused rest new, let ci' := ci {{ AvailableAmount := AvailableAmount ci - sumAmt granted }} in
    completeAvailable active ci ch reqs (sumAmt reqs) (sumAmt (unreserved reqs)) ca =
      ((withChannel ca (ChannelID ci) ci') {{ answered := answered ca ++ new }},
       inl (rest, match rest with [] => Some (resOk ch "") | _ => None end, sumAmt rest)) ∧
    reqs ≡ₚ granted ++ refused ++ rest ∧ 0 ≤ sumAmt granted ≤ AvailableAmount ci ∧
    Forall (λ r, Reserve r = true) granted ∧ Forall (λ r, OffChain r = true) refused ∧ unreserved reqs = unreserved rest ∧
    new ≡ₚ map (λ r, (rId r, resOk ch "")) granted ++ map (λ r, (rId r, notEnough ch (ciFrom ci) (ciTo ci) r)) refused.
Proof.
  intros [Hfound Hst Hne Hidle Hch Hav] Hact Hpos. unfold completeAvailable.
  set (toReserve := sumAmt reqs - sumAmt (unreserved reqs)).
  set (avail := if decide (toReserve < AvailableAmount ci) then toReserve else AvailableAmount ci).
  destruct (completeLoop_settles active ch (ciFrom ci) (ciTo ci) avail reqs (mkCompletion 0 0 0 []) Hact) as (g&rf&rest&Hse).
  change (completeLoop active ch (ciFrom ci) (ciTo ci) avail (next (mkCompletion 0 0 0 [])) reqs (mkCompletion 0 0 0 []))
    with (completeAmount active avail ch (ciFrom ci) (ciTo ci) reqs) in Hse.
  destruct Hse as [(pre&Ereqs&Hp&Hn&Hpr) Hu Hf Hfits Hoff (new&Ho&Hnew)]. cbn [used failed next out] in *.
  assert (Forall (λ r, 0 < amt r) (g ++ rf) ∧ Forall (λ r, Reserve r = true) (g ++ rf)) as [Hgpos Hgres].
  { rewrite <- Hp. split; [|done]. rewrite Ereqs in Hpos. by apply Forall_app in Hpos as [? _]. }
  apply Forall_app in Hgpos as [Hgpos Hrpos]. apply Forall_app in Hgres as [Hgres _].
  assert (∀ l, Forall (λ r, 0 < amt r) l → 0 ≤ sumAmt l) as Hsum by (induction 1; simpl; lia).
  assert (unreserved reqs = unreserved rest) as Hun.
  { rewrite Ereqs, unreserved_app. enough (unreserved pre = []) as -> by done. clear -Hpr. unfold unreserved.
    induction Hpr as [|r l Hr Hl IH]; [done|]. by rewrite filter_cons, decide_False by congruence. }
  assert (0 ≤ avail ≤ AvailableAmount ci) as Havail.
  { assert (0 ≤ toReserve); [|unfold avail; case_decide; lia]. unfold toReserve. rewrite Hun, Ereqs, sumAmt_app, (sumAmt_perm _ _ Hp), sumAmt_app.
    assert (sumAmt (unreserved rest) ≤ sumAmt rest); [|pose proof (Hsum g Hgpos); pose proof (Hsum rf Hrpos); lia].
    rewrite Ereqs in Hpos. apply Forall_app in Hpos as [_ Hrest]. clear -Hrest. unfold unreserved.
    induction Hrest as [|r l Hr Hl IH]; [simpl; lia|]. rewrite filter_cons. case_decide; simpl; lia. }
  exists g, rf, rest, new. cbv zeta. split_and!; [| |by apply Hsum|rewrite Hu in Hfits; specialize (Hfits ltac:(lia)); lia|done|done|done|done].
  - set (c := completeAmount active avail ch (ciFrom ci) (ciTo ci) reqs) in *.
    unfold mbind at 1, op_bind at 1, opTry at 1, onStore at 1, ByChannelID at 1. rewrite Hst. cbv zeta. fold toReserve avail.
    unfold mbind, op_bind. rewrite (mutate_known _ (ChannelID ci) ci) by done.
    unfold answer, opUpdate. fold c.
    rewrite (mutate_known _ (ChannelID ci) (ci {{ AvailableAmount := AvailableAmount ci - avail }})); [|apply lookup_insert_eq|done|done].
    change (0 + length pre)%nat with (length pre) in Hn. rewrite Hn, Ereqs, drop_app_length. unfold mret, op_ret. f_equal.
    + rewrite Ho. etrans; [apply withChannel_twice|].
      assert (AvailableAmount ci - avail + (avail - used c) = AvailableAmount ci - sumAmt g) as <- by (rewrite Hu; lia). done.
    + rewrite Hu, Hf, sumAmt_app, (sumAmt_perm _ _ Hp), sumAmt_app. do 3 f_equal. lia.
  - by rewrite Ereqs, Hp, app_assoc.
Qed.

(** The message that adds funds, or its error. *)
Lemma addFunds_run ca ci ch amount av ci2 : channels (acStore ca) !! ChannelID ci = Some ci2 → ChannelID ci2 = ChannelID ci → ChannelID ci ≠ "" →
  let msg := mkPaychMsg (Control ci) ch amount CallSend in
  match MpoolPushMessage msg with
  | inr e => addFunds ci ch amount av ca = (ca, inr (PaychErr e))
  | inl mcid => ∃ ca', addFunds ci ch amount av ca = (ca', inl mcid) ∧ queue ca' = queue ca ∧ answered ca' = answered ca ∧
      sent ca' = sent ca ++ [msg] ∧ waits ca' = waits ca ++ [mkWait AddFundsKind (ChannelID ci) mcid Waiting] ∧
      channels (acStore ca') !! ChannelID ci = Some (ci2 {{ PendingAmount := amount; PendingAvailableAmount := av; AddFundsMsg := Some mcid }})
  end.
Proof.
  intros Hst Hid Hne msg. destruct (MpoolPushMessage msg) as [mcid|e] eqn:Ep.
  - eexists. split; [|split_and!].
    + unfold addFunds, pushMsg, opLift, opUpdate, mbind, op_bind. fold msg. rewrite Ep. cbn [mret op_ret].
      unfold mret, op_ret. rewrite (mutate_known _ (ChannelID ci) ci2) by done. reflexivity.
    + done.
    + done.
    + done.
    + done.
    + apply lookup_insert_eq.
  - unfold addFunds, pushMsg, opLift, mbind, op_bind. fold msg. by rewrite Ep.
Qed.

Lemma filter_active (p : fundsReq → bool) (l : list fundsReq) : (∀ r, r ∈ l → p r = true) → filter (λ r, p r = true) l = l.
Proof.
  intros Hl. induction l as [|r l IH]; [done|]. rewrite filter_cons, decide_True by (apply Hl; by left). f_equal. apply IH.
  intros r' Hr'. apply Hl. by right.
Qed.

(** A queue whose requests are all active is worked off when the task has a result. *)
Lemma runQueue_finishes act uuid ca ca2 rest res : let reqs := newMergedFundsReq (queue ca) in
  queue ca ≠ [] → Forall (λ r, 0 < amt r) (queue ca) → (∀ i r, r ∈ queue ca → act i r = true) → (∀ r, r ∈ rest → r ∈ queue ca) →
  processTask (act 2%nat) uuid reqs (sumAmt reqs) (sumAmt (unreserved reqs)) ca = (ca2, inl (rest, Some res)) →
  runQueue act uuid ca = (ca2 {{ queue := []; answered := answered ca2 ++ map (λ r, (rId r, res)) rest }}, inl tt).
Proof.
  intros reqs Hq Hpos Hact Hrest E. pose proof (sortBy_Permutation reqLess (queue ca)) as Hperm. change (sortBy reqLess (queue ca)) with reqs in Hperm.
  unfold runQueue, mbind, op_bind, opUpdate, opRead. rewrite (filter_active (act 0%nat)) by auto.
  assert (ca {{ queue := queue ca }} = ca) as -> by by destruct ca.
  assert (∀ A (x y : A), match queue ca with [] => x | _ :: _ => y end = y) as -> by (intros; clear -Hq; by destruct (queue ca)). fold reqs.
  rewrite (sumReqs_all (act 1%nat) reqs) by (rewrite Hperm; apply Forall_forall; auto).
  assert (0 < sumAmt reqs) by (rewrite (sumAmt_perm _ _ Hperm); by apply sumAmt_pos). rewrite decide_False by lia.
  rewrite E. unfold answer, opUpdate. by rewrite (filter_active (act 3%nat)) by auto.
Qed.

(** With a ready channel, what cannot be settled at once needs a message. *)
Lemma processTask_ready active uuid ca ci ch reqs ca1 rest : readyChannel ca ci ch → Forall (λ r, 0 < amt r) rest →
  unreserved reqs = unreserved rest →
  completeAvailable active ci ch reqs (sumAmt reqs) (sumAmt (unreserved reqs)) ca =
    (ca1, inl (rest, match rest with [] => Some (resOk ch "") | _ => None end, sumAmt rest)) →
  processTask active uuid reqs (sumAmt reqs) (sumAmt (unreserved reqs)) ca =
    match rest with
    | [] => (ca1, inl (rest, Some (resOk ch "")))
    | _ => match addFunds ci ch (sumAmt rest) (sumAmt (unreserved rest)) ca1 with
           | (ca2, inl mcid) => (ca2, inl (rest, Some (resOk ch mcid)))
           | (ca2, inr e) => (ca2, inl (rest, Some (resFail "" (errText e))))
           end
    end.
Proof.
  intros [Hfound Hst Hne [Hc Ha] Hch Hav] Hpos Hun Eca. unfold processTask, mbind, op_bind, opRead, opTry, onStore. rewrite Hfound.
  assert (ca {{ acStore := acStore ca }} = ca) as -> by by destruct ca. rewrite decide_False by (intros [?|?]; congruence). rewrite Hch.
  rewrite Eca. destruct rest as [|r0 rest0] eqn:Er; [done|]. rewrite <- Er in *.
  rewrite decide_False by (pose proof (sumAmt_pos rest Hpos ltac:(by rewrite Er)); lia). rewrite Hun.
  by destruct (addFunds ci ch (sumAmt rest) (sumAmt (unreserved rest)) ca1) as [ca2 [mcid|e]].
Qed.

(** C18. Requests of positive amounts for funds of a channel that waits for no message, when none is cancelled meanwhile: all are
    taken from the queue, and each gets exactly one answer.  Those that are granted at once reserve funds
    of the channel that were available, exactly their sum; only off-chain requests are refused; all
    others get the same message, which brings exactly the sum of their amounts, of which the part
    that is not reserved becomes available when it is confirmed.  When the message cannot be sent, they
    are told so and nothing is pending. *)
Theorem requests_are_settled act uuid ca ci ch : readyChannel ca ci ch → queue ca ≠ [] → Forall (λ r, 0 < amt r) (queue ca) →
  (∀ i r, r ∈ queue ca → act i r = true) →
  ∃ ca' ci' granted refused rest res new,
    runQueue act uuid ca = (ca', inl tt) ∧ queue ca' = [] ∧ queue ca ≡ₚ granted ++ refused ++ rest ∧
    Forall (λ r, Reserve r = true) granted ∧ Forall (λ r, OffChain r = true) refused ∧
    answered ca' = answered ca ++ new ∧
    new ≡ₚ map (λ r, (rId r, resOk ch "")) granted ++ map (λ r, (rId r, notEnough ch (ciFrom ci) (ciTo ci) r)) refused ++ map (λ r, (rId r, res)) rest ∧
    channels (acStore ca') !! ChannelID ci = Some ci' ∧
    AvailableAmount ci' = AvailableAmount ci - sumAmt granted ∧ 0 ≤ AvailableAmount ci' ∧ ciAmount ci' = ciAmount ci ∧
    let msg := mkPaychMsg (Control ci) ch (sumAmt rest) CallSend in
    match rest, MpoolPushMessage msg with
    | _ :: _, inl mcid => res = resOk ch mcid ∧ sent ca' = sent ca ++ [msg] ∧ waits ca' = waits ca ++ [mkWait AddFundsKind (ChannelID ci) mcid Waiting] ∧
        AddFundsMsg ci' = Some mcid ∧ PendingAmount ci' = sumAmt rest ∧ PendingAvailableAmount ci' = sumAmt (unreserved rest)
    | _ :: _, inr e => res = resFail "" e ∧ sent ca' = sent ca ∧ waits ca' = waits ca ∧ AddFundsMsg ci' = None ∧ PendingAmount ci' = PendingAmount ci
    | [], _ => sent ca' = sent ca ∧ waits ca' = waits ca ∧ AddFundsMsg ci' = None ∧ PendingAmount ci' = PendingAmount ci
    end.
Proof.
  intros Hrc Hq Hpos Hact. pose proof (sortBy_Permutation reqLess (queue ca)) as Hperm. set (reqs := newMergedFundsReq (queue ca)).
  change (sortBy reqLess (queue ca)) with reqs in Hperm.
  destruct (completeAvailable_settles (act 2%nat) ca ci ch reqs Hrc) as (g&rf&rest&new&Eca&Hsplit&Hsum&Hg&Hrf&Hun&Hnew).
  { rewrite Hperm. apply Forall_forall. auto. }
  { by rewrite Hperm. }
  set (ci1 := ci {{ AvailableAmount := AvailableAmount ci - sumAmt g }}) in *.
  set (ca1 := (withChannel ca (ChannelID ci) ci1) {{ answered := answered ca ++ new }}) in *.
  assert (Forall (λ r, 0 < amt r) rest) as Hrpos by (rewrite <- Hperm, Hsplit in Hpos; by do 2 apply Forall_app in Hpos as [_ Hpos]).
  assert (∀ r, r ∈ rest → r ∈ queue ca) as Hin by (intros r Hr; rewrite <- Hperm, Hsplit, !elem_of_app; by do 2 right).
  pose proof (processTask_ready (act 2%nat) uuid ca ci ch reqs ca1 rest Hrc Hrpos Hun Eca) as Htask.
  pose proof (λ ca2 res, runQueue_finishes act uuid ca ca2 rest res Hq Hpos Hact Hin) as Hrun. rewrite Hperm in Hsplit.
  assert (0 ≤ AvailableAmount ci1) as Hav by (change (0 ≤ AvailableAmount ci - sumAmt g); lia).
  destruct rest as [|r0 rest0] eqn:Er; [|rewrite <- Er in *].
  - eexists _, ci1, g, rf, [], (resOk ch ""), new. split_and!; [by apply Hrun|done|done|done|done|apply app_nil_r|by rewrite app_nil_r|apply lookup_insert_eq|done|done|done|].
    destruct Hrc as [_ _ _ [_ Ha] _ _]. by split_and!.
  - pose proof (addFunds_run ca1 ci ch (sumAmt rest) (sumAmt (unreserved rest)) ci1 (lookup_insert_eq _ _ _) eq_refl (rc_id _ _ _ Hrc)) as Hadd. cbv zeta in Hadd |- *.
    destruct (MpoolPushMessage _) as [mcid|e] eqn:Ep.
    + destruct Hadd as (ca2&Eadd&Eq2&Ean&Es&Ew&Ech). rewrite Eadd in Htask.
      eexists _, _, g, rf, rest, (resOk ch mcid), (new ++ map (λ r, (rId r, resOk ch mcid)) rest).
      split_and!; [by apply Hrun|done|done|done|done|rewrite app_assoc; exact (f_equal (λ l, l ++ _) Ean)|by rewrite Hnew, <- app_assoc|exact Ech|done|exact Hav|done|].
      rewrite Ep. destruct rest; [done|]. by split_and!.
    + rewrite Hadd in Htask. eexists _, ci1, g, rf, rest, (resFail "" e), (new ++ map (λ r, (rId r, resFail "" e)) rest).
      split_and!; [by apply Hrun|done|done|done|done|by rewrite app_assoc|by rewrite Hnew, <- app_assoc|apply lookup_insert_eq|done|exact Hav|done|].
      destruct Hrc as [_ _ _ [_ Ha] _ _]. rewrite Ep. destruct rest; [done|]. by split_and!.
Qed.
End queue.

(** ** A queue at work *)

Module FundsExamples.
Import PaychExamples.
#[local] Existing Instance testAPI.
#[local] Existing Instance inOrderOfKeys.

Lemma amounts_print : map Unitless [0; 1; 1500000000000000000; 100000000000000000000; -20000000000000000]
  = ["0"; "0.000000000000000001"; "1.5"; "100"; "-0.02"].
Proof. by vm_compute. Qed.

Definition always (i : nat) (r : fundsReq) : bool := true.

(** A channel with 10, of which 5 are not reserved. *)
Definition fundedChannel : ChannelInfo := mkChannelInfo "id" (Some "ch") "from" "to" DirOutbound [] 0 10 5 0 0 None None false.
Definition testAccessor (q : list fundsReq) : accessor := mkAccessor "from" "to" (mkStore {[ "id" := fundedChannel ]} ∅) q [] [] [].

Definition threeRequests : list fundsReq := [mkFundsReq 1 4 true false; mkFundsReq 2 3 true true; mkFundsReq 3 7 false false].

(** The off-chain request gets 3 of the 5; one message brings 11 for the two others. *)
Lemma threeRequests_run : ∃ ca', runQueue always "" (testAccessor threeRequests) = (ca', inl tt) ∧
  map fst (answered ca') = [2; 1; 3]%nat ∧ map pmValue (sent ca') = [11].
Proof. eexists. split; [vm_compute; reflexivity|]. by vm_compute. Qed.

Lemma fundedChannel_ready q : readyChannel (testAccessor q) fundedChannel "ch".
Proof. split; [vm_compute; reflexivity|done|done|done|done|simpl; lia]. Qed.

Lemma requests_are_settled_witness : ∃ ca' ci', runQueue always "" (testAccessor threeRequests) = (ca', inl tt) ∧ queue ca' = [] ∧
  channels (acStore ca') !! "id" = Some ci' ∧ 0 ≤ AvailableAmount ci'.
Proof.
  destruct (@requests_are_settled inOrderOfKeys testAPI always "" (testAccessor threeRequests) fundedChannel "ch") as
    (ca'&ci'&g&rf&rest&res&new&Erun&Eq&_&_&_&_&_&Ech&_&Hav&_); [exact (fundedChannel_ready _)|done| |done|].
  { repeat constructor. }
  exists ca', ci'. split_and!; [exact Erun|exact Eq|exact Ech|exact Hav].
Defined.

(** A request for nothing is left in the queue together with the request that was just granted: the next
    turn answers that request again and sends funds for it. *)
Lemma granted_request_is_paid_again : ∃ ca1 ca2,
  let q := [mkFundsReq 1 5 true false; mkFundsReq 2 0 false false] in
  runQueue always "" (testAccessor q) = (ca1, inl tt) ∧ answered ca1 = [(1%nat, resOk "ch" "")] ∧ queue ca1 = q ∧ sent ca1 = [] ∧
  runQueue always "" ca1 = (ca2, inl tt) ∧ map fst (answered ca2) = [1; 1; 2]%nat ∧ map pmValue (sent ca2) = [5].
Proof. eexists _, _. cbv zeta. split; [vm_compute; reflexivity|]. split_and!; by vm_compute. Qed.

(** When the wait for a message ends with an error, the channel stays marked: no request is answered any more. *)
Lemma wait_error_blocks_queue : ∃ ca1 ca2 ca3 ca4,
  runQueue always "" (testAccessor threeRequests) = (ca1, inl tt) ∧
  waitAddFundsMsg "id" (WaitError "chain store closed") ca1 = (ca2, inl (Some "chain store closed")) ∧
  enqueue (mkFundsReq 4 1 true false) ca2 = (ca3, inl tt) ∧
  runQueue always "" ca3 = (ca4, inl tt) ∧ queue ca4 = [mkFundsReq 4 1 true false] ∧ answered ca4 = answered ca1.
Proof. eexists _, _, _, _. split; [vm_compute; reflexivity|]. split; [vm_compute; reflexivity|]. split; [vm_compute; reflexivity|]. split_and!; by vm_compute. Qed.

(** An off-chain request that is cancelled before the amounts are added up is taken off the amount all the
    same: the channel is made with 7 for a request of 10. *)
Lemma cancelled_request_shrinks_channel : ∃ ca',
  let act i r := (i =? 0)%nat || bool_decide (rId r ≠ 1%nat) in
  runQueue act "id" (mkAccessor "from" "to" (mkStore ∅ ∅) [mkFundsReq 1 3 true true; mkFundsReq 2 10 true false] [] [] []) = (ca', inl tt) ∧
  map pmValue (sent ca') = [7] ∧ answered ca' = [(2%nat, resOk "" "mcid")].
Proof. eexists. cbv zeta. split; [vm_compute; reflexivity|]. split_and!; by vm_compute. Qed.
End FundsExamples.
