(* ===== verification/SectorNumbers.v ===== *)
(** * Numbers for new sectors (storage/pipeline/numassign.go)

    The miner keeps in its datastore the set of sector numbers it has given out, the union of all
    reserved numbers, and each reservation under its name.  A new sector gets the first number that is
    in none of them and not allocated on the chain.  A bitfield of go-bitfield is the set of its
    numbers; every call of the datastore can fail. *)

From Stdlib Require Import Ascii.
From coqutil Require Import Datatypes.RecordSetters.
From stdpp Require Import strings numbers base gmap fin_maps sets list.
From S2P Require Import Prelude GoStrings GoSort.
Import DoubleBraceUpdate.
Local Open Scope N_scope.

(** ** The datastore *)

Abbreviation BitField := (gset N).

(** The codec of bitfields and their runs: [RunIterator] yields runs of equal bits from bit 0 on. *)
Class BitFieldLib := {
  MarshalBits : BitField → string + string;
  UnmarshalBits : string → BitField + string;
  Runs : BitField → list (bool * N)
}.

Definition seqN (from n : N) : list N := map N.of_nat (seq (N.to_nat from) (N.to_nat n)).

(** The numbers that runs starting at [at] stand for. *)
Fixpoint runBits (from : N) (runs : list (bool * N)) : BitField :=
  match runs with
  | [] => ∅
  | (v, n) :: runs' => (if (v : bool) then list_to_set (seqN from n) else ∅) ∪ runBits (from + n) runs'
  end.

(** A bitfield has numbers below 2^64 - 1 only: its length is a uint64.  What is read is valid, and what
    can be written is read back. *)
Definition validBits (b : BitField) : Prop := ∀ n, n ∈ b → n < 2 ^ 64 - 1.

Class BitFieldLaws `{BitFieldLib} : Prop := {
  Marshal_back b raw : MarshalBits b = inl raw → UnmarshalBits raw = inl b;
  Marshal_valid b : validBits b → ∃ raw, MarshalBits b = inl raw;
  Unmarshal_valid raw b : UnmarshalBits raw = inl b → validBits b;
  Runs_bits b : validBits b → runBits 0 (Runs b) = b;
  Runs_zeros b n : validBits b → (false, n) ∈ Runs b → 0 < n;
  Runs_length b : validBits b → foldr (λ r acc, r.2 + acc) 0 (Runs b) < 2 ^ 64
}.

Record NumStore := mkNumStore { ds : gmap string string; calls : nat }.

Definition StorageCounterDSPrefix : string := "/storage/nextid".
Definition SectorBitfieldsDSPrefix : string := "/storage/sectorsids/".
Definition SectorReservationsDSPrefix : string := "/storage/sectorsids/reserved/".
Definition allocatedSectorsKey : string := SectorBitfieldsDSPrefix +:+ "allocated".
Definition reservedSectorsKey : string := SectorBitfieldsDSPrefix +:+ "reserved".

(** [binary.PutUvarint] and [binary.Uvarint]; the second value of [Uvarint] is not used. *)
Definition byteOf (n : N) : ascii := ascii_of_N n.
Fixpoint PutUvarint (fuel : nat) (x : N) : string :=
  match fuel with
  | O => ""
  | S f => if decide (x < 128) then String (byteOf x) "" else String (byteOf (x mod 128 + 128)) (PutUvarint f (x / 128))
  end.
#[global] Arguments PutUvarint : simpl never.
Definition MaxVarintLen64 : nat := 10.

Fixpoint uvarintLoop (buf : string) (i : nat) (x s : N) : N :=
  match buf with
  | "" => 0
  | String a rest =>
      let b := N_of_ascii a in
      if decide (i = MaxVarintLen64) then 0
      else if decide (b < 128) then if decide (i = 9%nat ∧ 1 < b) then 0 else x + b * 2 ^ s
      else uvarintLoop rest (S i) (x + (b mod 128) * 2 ^ s) (s + 7)
  end%string.
Definition Uvarint (buf : string) : N := uvarintLoop buf 0 0 0.

Definition wrapN64 (n : N) : N := n mod 2 ^ 64.

Section numbers.
Context `{BitFieldLib} `{MapRange}.
(** The error of the n-th call of the datastore, if it fails. *)
Variable dsFault : nat → option string.

Definition dsCall {A} (f : gmap string string → gmap string string * A) : io NumStore A := λ s,
  let n := calls s in
  match dsFault n with
  | Some e => (mkNumStore (ds s) (S n), Fail e)
  | None => let '(d, a) := f (ds s) in (mkNumStore d (S n), Ret a)
  end.
Definition dsGet (key : string) : io NumStore (option string) := dsCall (λ d, (d, d !! key)).
Definition dsPut (key value : string) : io NumStore unit := dsCall (λ d, (<[key := value]> d, tt)).
Definition dsDelete (key : string) : io NumStore unit := dsCall (λ d, (delete key d, tt)).

Definition ofSum {W A} (r : A + string) : io W A := λ w, (w, match r with inl a => Ret a | inr e => Fail e end).

Definition loadBitField (name : string) : io NumStore (option BitField) :=
  raw ← dsGet name;
  match raw with
  | None => mret None
  | Some r => bf ← ofSum (UnmarshalBits r); mret (Some bf)
  end.

Definition saveBitField (name : string) (bf : BitField) : io NumStore unit :=
  raw ← ofSum (MarshalBits bf); dsPut name raw.

(** ** Assigning *)

Record NumAssignerMeta := mkMeta { Reserved : BitField; Allocated : BitField; InUse : BitField; Next : N }.

(** The loop over the runs: the length of the ones at the start. *)
Fixpoint firstFree (runs : list (bool * N)) (n : N) : N :=
  match runs with
  | [] => n
  | (v, len) :: runs' => if (v : bool) then firstFree runs' (wrapN64 (n + len)) else n
  end.

(** The numbers up to the legacy counter. *)
Definition legacyBits (cur : option string) : BitField :=
  let i := match cur with Some b => wrapN64 (Uvarint b + 1) | None => 0 end in
  list_to_set (seqN 0 i).
Definition legacyAllocated : io NumStore BitField := cur ← dsGet StorageCounterDSPrefix; mret (legacyBits cur).

(** [stateAllocated] is the answer of [StateMinerAllocated]. *)
Definition numAssignerMetaLocked (stateAllocated : option BitField + string) : io NumStore NumAssignerMeta :=
  reserved ← wrapErr "loading reserved sectors bitfield: " (loadBitField reservedSectorsKey);
  allocated ← wrapErr "loading allocated sectors bitfield: " (loadBitField allocatedSectorsKey);
  allocated ← (match allocated with Some a => mret a | None => legacyAllocated end);
  let reserved := default ∅ reserved in
  match stateAllocated with
  | inr e => fail ("getting state-allocated sector numbers: " +:+ e)
  | inl None => fail "getting state-allocated sector numbers: %!w(<nil>)"
  | inl (Some onChain) =>
      let inuse := (reserved ∪ allocated) ∪ onChain in
      mret (mkMeta reserved allocated inuse (firstFree (Runs inuse) 0))
  end.

Definition NextSectorNumber (stateAllocated : option BitField + string) : io NumStore N :=
  am ← numAssignerMetaLocked stateAllocated;
  saveBitField allocatedSectorsKey (Allocated am ∪ {[ Next am ]});;
  dsPut StorageCounterDSPrefix (PutUvarint MaxVarintLen64 (Next am));;
  mret (Next am).

(** ** Reservations *)

(** [^[a-zA-Z0-9_\-]+$] *)
Definition nameChar (a : ascii) : bool :=
  let c := N_of_ascii a in
  bool_decide (97 ≤ c ≤ 122) || bool_decide (65 ≤ c ≤ 90) || bool_decide (48 ≤ c ≤ 57) || bool_decide (c = 95) || bool_decide (c = 45).
Fixpoint allChars (p : ascii → bool) (s : string) : bool :=
  match s with "" => true | String a s' => p a && allChars p s' end%string.

Definition reservationKey (name : string) : outcome string :=
  if bool_decide (name ≠ "") && allChars nameChar name then Ret (SectorReservationsDSPrefix +:+ name)
  else Fail "reservation name contained disallowed characters (allowed: a-z, A-Z, 0-9, '-', '_')".

(** The first part of [numReserveLocked], up to the two writes: the key and the new union. *)
Definition reserveCheck (stateAllocated : option BitField + string) (name : string) (reserving : BitField) (force : bool) : io NumStore (string * BitField) :=
  rk ← lift (reservationKey name);
  curRes ← wrapErr "checking if reservation exists: " (dsGet rk);
  cur ← (match curRes with
         | None => mret ∅
         | Some r => if negb force then fail "reservation with this name already exists"
                     else wrapErr "unmarshaling existing reservation: " (ofSum (UnmarshalBits r))
         end);
  nm ← numAssignerMetaLocked stateAllocated;
  let allReserved := Reserved nm ∖ cur in
  if bool_decide (allReserved ∩ reserving ≠ ∅) && negb force then fail "new reservation is colliding with another existing reservation"
  else if bool_decide (Allocated nm ∩ reserving ≠ ∅) && negb force then fail "new reservation is colliding with allocated sector numbers"
  else mret (rk, allReserved ∪ reserving).

Definition reserveStore (reserving : BitField) (p : string * BitField) : io NumStore unit :=
  wrapErr "saving reservation: " (saveBitField p.1 reserving);;
  wrapErr "save reserved nums: " (saveBitField reservedSectorsKey p.2).

Definition numReserveLocked (stateAllocated : option BitField + string) (name : string) (reserving : BitField) (force : bool) : io NumStore unit :=
  p ← reserveCheck stateAllocated name reserving force; reserveStore reserving p.

(** [BitField.Slice(0, count)]: the lowest [count] numbers. *)
Definition sliceBits (b : BitField) (count : N) : BitField := list_to_set (take (N.to_nat count) (sortBy N.ltb (elements b))).

Definition NumReserveCount (stateAllocated : option BitField + string) (name : string) (count : N) : io NumStore BitField :=
  nm ← numAssignerMetaLocked stateAllocated;
  let usedCount := N.of_nat (size (InUse nm)) in
  let mask := list_to_set (seqN 0 (wrapN64 (count + usedCount))) in
  let free := sliceBits (mask ∖ InUse nm) count in
  numReserveLocked stateAllocated name free false;;
  mret free.

(** [NumFree], split between its reads and its writes. *)
Definition freeLoad (name : string) : io NumStore (string * BitField) :=
  rk ← lift (reservationKey name);
  res ← wrapErr "loading reservation: " (loadBitField rk);
  match res with
  | None => fail "reservation with this name doesn't exist"
  | Some r =>
      allRes ← wrapErr "leading all reservations: " (loadBitField reservedSectorsKey);
      match allRes with
      | None => fail "all reservations bitfield not found"
      | Some all => mret (rk, all ∖ r)
      end
  end.

Definition freeStore (p : string * BitField) : io NumStore unit :=
  wrapErr "saving reservations bitfield: " (saveBitField reservedSectorsKey p.2);;
  wrapErr "deleting reservation: " (dsDelete p.1).

Definition NumFree (name : string) : io NumStore unit := p ← freeLoad name; freeStore p.

(** [NumReservations]: the query for all keys below the prefix. *)
Fixpoint decodeAll (l : list (string * string)) (out : gmap string BitField) : outcome (gmap string BitField) :=
  match l with
  | [] => Ret out
  | (name, v) :: l' => match UnmarshalBits v with inl b => decodeAll l' (<[name := b]> out) | inr e => Fail e end
  end.
Definition reservationName (kv : string * string) : option (string * string) :=
  if String.prefix SectorReservationsDSPrefix kv.1
  then Some (String.substring (String.length SectorReservationsDSPrefix) (String.length kv.1) kv.1, kv.2) else None.
Definition NumReservations : io NumStore (gmap string BitField) :=
  l ← wrapErr "query reservations: " (dsCall (λ d, (d, omap reservationName (rangeOf d))));
  lift (decodeAll l ∅).

(** ** Histories of calls *)

Inductive numCall :=
  | CallNext | CallReserve (name : string) (reserving : BitField) (force : bool)
  | CallReserveCount (name : string) (count : N) | CallFree (name : string).

Definition runCall (c : option BitField + string) (call : numCall) : io NumStore (option N) :=
  match call with
  | CallNext => n ← NextSectorNumber c; mret (Some n)
  | CallReserve name reserving force => numReserveLocked c name reserving force;; mret None
  | CallReserveCount name count => NumReserveCount c name count;; mret None
  | CallFree name => NumFree name;; mret None
  end.

(** Calls one after the other, each with the answer of the chain; an error does not end the history.  The
    numbers that were given out come with the store before and the answer of the chain. *)
Fixpoint history (l : list (numCall * (option BitField + string))) (s : NumStore) : NumStore * list (NumStore * (option BitField + string) * N) :=
  match l with
  | [] => (s, [])
  | (call, c) :: l' =>
      let '(s1, r) := runCall c call s in
      let '(s2, ns) := history l' s1 in
      (s2, match r with Ret (Some n) => (s, c, n) :: ns | _ => ns end)
  end.
End numbers.

(** ** The first free number *)

Lemma elem_of_seqN k from n : k ∈ seqN from n ↔ from ≤ k < from + n.
Proof.
  unfold seqN. rewrite list_elem_of_fmap. split.
  - intros (x&->&Hx%elem_of_seq). lia.
  - intros Hk. exists (N.to_nat k). split; [lia|]. apply elem_of_seq. lia.
Qed.

Lemma runBits_ge runs : ∀ from k, k ∈ runBits from runs → from ≤ k.
Proof.
  induction runs as [|[v n] runs IH]; intros from k; simpl; [set_solver|].
  rewrite elem_of_union. intros [Hk|Hk%IH]; [|lia].
  destruct v; [|set_solver]. apply elem_of_list_to_set, elem_of_seqN in Hk. lia.
Qed.

Lemma firstFree_spec runs : ∀ from, (∀ n, (false, n) ∈ runs → 0 < n) → from + foldr (λ r acc, r.2 + acc) 0 runs < 2 ^ 64 →
  from ≤ firstFree runs from ∧ firstFree runs from ∉ runBits from runs ∧ ∀ k, from ≤ k < firstFree runs from → k ∈ runBits from runs.
Proof.
  induction runs as [|[v n] runs IH]; intros from Hz Hlen; simpl; [split_and!; [done|set_solver|lia]|].
  simpl in Hlen. destruct v.
  - unfold wrapN64. rewrite N.mod_small by lia. destruct (IH (from + n)) as (Hge&Hnot&Hall); [|lia|].
    { intros m Hm. apply Hz. by right. }
    split_and!; [lia| |].
    + rewrite elem_of_union, elem_of_list_to_set, elem_of_seqN. intros [?|?]; [lia|done].
    + intros k Hk. rewrite elem_of_union, elem_of_list_to_set, elem_of_seqN.
      destruct (decide (k < from + n)); [left; lia|right; apply Hall; lia].
  - split_and!; [done| |lia]. rewrite elem_of_union. intros [Hk|Hk%runBits_ge]; [set_solver|].
    specialize (Hz n ltac:(left)). lia.
Qed.

Section laws.
Context `{BitFieldLaws} `{MapRange}.
Variable dsFault : nat → option string.

Lemma firstFree_least b : validBits b → firstFree (Runs b) 0 ∉ b ∧ ∀ k, k < firstFree (Runs b) 0 → k ∈ b.
Proof.
  intros Hb. destruct (firstFree_spec (Runs b) 0) as (_&Hnot&Hall).
  - intros n. by apply Runs_zeros.
  - by apply Runs_length.
  - rewrite Runs_bits in * by done. split; [done|]. intros k Hk. apply Hall. lia.
Qed.

(** *** What the calls leave alone *)

(** A command that does not touch the entry of [key]. *)
Definition keeps {A} (key : string) (m : io NumStore A) : Prop :=
  ∀ s, ds (m s).1 !! key = ds s !! key.

Lemma keeps_ret {A} key (a : A) : keeps key (mret a).
Proof. by intros s. Qed.
Lemma keeps_fail {A} key e : keeps key (fail (A:=A) e).
Proof. by intros s. Qed.
Lemma keeps_lift {A} key (o : outcome A) : keeps key (lift o).
Proof. by intros s. Qed.
Lemma keeps_ofSum {A} key (r : A + string) : keeps key (ofSum r).
Proof. by intros s. Qed.
Lemma keeps_bind {A B} key (m : io NumStore A) (f : A → io NumStore B) : keeps key m → (∀ a, keeps key (f a)) → keeps key (mbind f m).
Proof.
  intros Hm Hf s. specialize (Hm s). unfold mbind, io_bind. destruct (m s) as [s1 [a| |]] eqn:E; simpl in *; [|done..]. by rewrite (Hf a s1).
Qed.
Lemma keeps_bind_ret {A B} key (m : io NumStore A) (f : A → io NumStore B) :
  keeps key m → (∀ s s' a, m s = (s', Ret a) → keeps key (f a)) → keeps key (mbind f m).
Proof.
  intros Hm Hf s. specialize (Hm s). unfold mbind, io_bind. destruct (m s) as [s1 [a| |]] eqn:E; simpl in *; [|done..].
  by rewrite (Hf s s1 a E s1).
Qed.
Lemma keeps_wrapErr {A} key text (m : io NumStore A) : keeps key m → keeps key (wrapErr text m).
Proof. intros Hm s. specialize (Hm s). unfold wrapErr. by destruct (m s) as [s1 []]. Qed.
Lemma keeps_get key key' : keeps key (dsGet dsFault key').
Proof. intros s. unfold dsGet, dsCall. by destruct (dsFault _). Qed.
Lemma keeps_put key key' v : key ≠ key' → keeps key (dsPut dsFault key' v).
Proof. intros Hk s. unfold dsPut, dsCall. destruct (dsFault _); [done|]. simpl. by rewrite lookup_insert_ne. Qed.
Lemma keeps_delete key key' : key ≠ key' → keeps key (dsDelete dsFault key').
Proof. intros Hk s. unfold dsDelete, dsCall. destruct (dsFault _); [done|]. simpl. by rewrite lookup_delete_ne. Qed.
Lemma keeps_load key key' : keeps key (loadBitField dsFault key').
Proof. apply keeps_bind; [apply keeps_get|]. intros [r|]; [|apply keeps_ret]. apply keeps_bind; [apply keeps_ofSum|intros; apply keeps_ret]. Qed.
Lemma keeps_save key key' b : key ≠ key' → keeps key (saveBitField dsFault key' b).
Proof. intros Hk. apply keeps_bind; [apply keeps_ofSum|intros; by apply keeps_put]. Qed.

Lemma keeps_meta key c : keeps key (numAssignerMetaLocked dsFault c).
Proof.
  unfold numAssignerMetaLocked, legacyAllocated.
  repeat first [apply keeps_bind|apply keeps_wrapErr, keeps_load|apply keeps_get|apply keeps_ret|apply keeps_fail
    |case_match|intros].
Qed.

(** *** What the calls read *)

Lemma dsGet_inv key s s' o : dsGet dsFault key s = (s', Ret o) → ds s' = ds s ∧ o = ds s !! key.
Proof. unfold dsGet, dsCall. destruct (dsFault _); [done|]. by intros [= <- <-]. Qed.

Lemma wrapErr_inv {W A} text (m : io W A) w w' a : wrapErr text m w = (w', Ret a) → m w = (w', Ret a).
Proof. unfold wrapErr. by destruct (m w) as [w1 []]. Qed.

Lemma loadBitField_inv key s s' o : loadBitField dsFault key s = (s', Ret o) →
  ds s' = ds s ∧ match ds s !! key with Some raw => ∃ b, UnmarshalBits raw = inl b ∧ o = Some b | None => o = None end.
Proof.
  intros (s1&raw&[E1 ->]%dsGet_inv&E2)%io_bind_ret. destruct (ds s !! key) as [raw|].
  - unfold mbind, io_bind, ofSum in E2. destruct (UnmarshalBits raw) as [b|]; [|done]. injection E2 as <- <-. eauto.
  - by injection E2 as <- <-.
Qed.

(** What is stored under the key of the numbers that were given out. *)
Definition stored (s : NumStore) (key : string) (b : BitField) : Prop :=
  ∃ raw, ds s !! key = Some raw ∧ UnmarshalBits raw = inl b.

(** The numbers that were given out, according to the store. *)
Definition allocatedIn (s : NumStore) (b : BitField) : Prop :=
  stored s allocatedSectorsKey b ∨ ds s !! allocatedSectorsKey = None ∧ b = legacyBits (ds s !! StorageCounterDSPrefix).

Record metaOk (s : NumStore) (c : option BitField + string) (am : NumAssignerMeta) : Prop := {
  mo_chain : ∃ oc, c = inl (Some oc) ∧ InUse am = (Reserved am ∪ Allocated am) ∪ oc;
  mo_reserved : stored s reservedSectorsKey (Reserved am) ∨ ds s !! reservedSectorsKey = None ∧ Reserved am = ∅;
  mo_allocated : allocatedIn s (Allocated am);
  mo_valid : validBits (Reserved am) ∧ validBits (Allocated am);
  mo_next : Next am = firstFree (Runs (InUse am)) 0
}.

Lemma numAssignerMeta_inv c s s' am : numAssignerMetaLocked dsFault c s = (s', Ret am) → ds s' = ds s ∧ metaOk s c am.
Proof.
  intros (s1&res&[E1 Hres]%wrapErr_inv%loadBitField_inv&E)%io_bind_ret.
  apply io_bind_ret in E as (s2&oa&[E2 Ha]%wrapErr_inv%loadBitField_inv&E).
  apply io_bind_ret in E as (s3&a&Ea&E).
  assert (ds s3 = ds s ∧ allocatedIn s a ∧ validBits a) as (E3&Hal&Hva).
  { rewrite E1 in Ha. destruct (ds s !! allocatedSectorsKey) as [raw|] eqn:El.
    - destruct Ha as (b&Hb&->). injection Ea as <- <-. split_and!; [congruence|left; by exists raw|by eapply Unmarshal_valid].
    - subst oa. apply io_bind_ret in Ea as (s4&cur&[E4 ->]%dsGet_inv&Ea). injection Ea as <- <-. split_and!; [congruence|right; split; congruence|].
      intros n Hn%elem_of_list_to_set%elem_of_seqN. destruct (ds s2 !! _); [|lia]. unfold wrapN64 in Hn.
      pose proof (N.mod_lt (Uvarint s0 + 1) (2 ^ 64) ltac:(done)). lia. }
  destruct c as [[oc|]|]; [|done..]. injection E as <- <-. split; [done|]. split; simpl; [eauto| |done| |done].
  - destruct (ds s !! reservedSectorsKey) as [raw|] eqn:El; [|by right; subst]. destruct Hres as (b&Hb&->). left. by exists raw.
  - split; [|done]. destruct (ds s !! reservedSectorsKey) as [raw|]; [|by subst]. destruct Hres as (b&Hb&->). by eapply Unmarshal_valid.
Qed.

Lemma metaOk_next s c am : metaOk s c am → (∀ oc, c = inl (Some oc) → validBits oc) →
  Next am ∉ InUse am ∧ ∀ k, k < Next am → k ∈ InUse am.
Proof.
  intros [(oc&->&Hin) _ _ [Hr Ha] ->] Hc. apply firstFree_least. intros n. rewrite Hin, !elem_of_union.
  intros [[?|?]|?]; [by apply Hr|by apply Ha|by apply (Hc oc)].
Qed.

(** *** Numbers that are given out *)

Definition given (s : NumStore) (n : N) : Prop := ∃ b, stored s allocatedSectorsKey b ∧ n ∈ b.

Lemma given_keep s s' n : ds s' !! allocatedSectorsKey = ds s !! allocatedSectorsKey → given s n ↔ given s' n.
Proof. intros E. unfold given, stored. by rewrite E. Qed.

Lemma NextSectorNumber_effect c s s' r : NextSectorNumber dsFault c s = (s', r) →
  (ds s' !! allocatedSectorsKey = ds s !! allocatedSectorsKey ∧ ∀ n, r ≠ Ret n) ∨
  ∃ am, metaOk s c am ∧ stored s' allocatedSectorsKey (Allocated am ∪ {[ Next am ]}) ∧ ∀ n, r = Ret n → n = Next am.
Proof.
  unfold NextSectorNumber, mbind at 1, io_bind at 1. pose proof (keeps_meta allocatedSectorsKey c s) as Hk.
  destruct (numAssignerMetaLocked dsFault c s) as [s1 [am|e|]] eqn:E; [|by intros [= <- <-]; left..].
  apply numAssignerMeta_inv in E as [E Hm]. unfold saveBitField, ofSum, mbind, io_bind.
  destruct (MarshalBits _) as [raw|] eqn:Er; [|by intros [= <- <-]; left].
  unfold dsPut, dsCall. destruct (dsFault (calls s1)); [by intros [= <- <-]; left|]. intros Hr. right. exists am. split; [done|].
  cbn [ds calls] in Hr. pose proof (lookup_insert_eq (ds s1) allocatedSectorsKey raw) as Hl.
  destruct (dsFault (S _)); injection Hr as <- <-; (split; [exists raw; split; [|by apply Marshal_back]|]); [exact Hl|intros n; discriminate| |by intros n [= <-]].
  cbn [ds]. rewrite lookup_insert_ne; [exact Hl|discriminate].
Qed.

Lemma reservationKey_ne name rk : reservationKey name = Ret rk → rk ≠ allocatedSectorsKey.
Proof. unfold reservationKey. case_match; [|done]. by intros [= <-]. Qed.

Lemma keeps_reserveCheck key c name b force : keeps key (reserveCheck dsFault c name b force).
Proof.
  unfold reserveCheck. repeat first [apply keeps_bind|apply keeps_lift|apply keeps_wrapErr|apply keeps_get|apply keeps_meta
    |apply keeps_ret|apply keeps_fail|apply keeps_ofSum|case_match|intros].
Qed.

Lemma reserveCheck_key c name b force s s' p : reserveCheck dsFault c name b force s = (s', Ret p) → reservationKey name = Ret p.1.
Proof.
  intros (s1&rk&E&Hm)%io_bind_ret. apply io_bind_ret in Hm as (s2&o&_&Hm). apply io_bind_ret in Hm as (s3&cur&_&Hm).
  apply io_bind_ret in Hm as (s4&nm&_&Hm). injection E as _ ->. cbv zeta in Hm.
  destruct (bool_decide _ && _); [done|]. destruct (bool_decide _ && _); [done|]. by injection Hm as _ <-.
Qed.

Lemma keeps_freeLoad key name : keeps key (freeLoad dsFault name).
Proof.
  unfold freeLoad. repeat first [apply keeps_load|apply keeps_bind|apply keeps_lift|apply keeps_wrapErr
    |apply keeps_ret|apply keeps_fail|case_match|intros].
Qed.

Lemma freeLoad_key name s s' p : freeLoad dsFault name s = (s', Ret p) → reservationKey name = Ret p.1.
Proof.
  intros (s1&rk&E&Hm)%io_bind_ret. apply io_bind_ret in Hm as (s2&[r|]&_&Hm); [|done].
  apply io_bind_ret in Hm as (s3&[all|]&_&Hm); [|done]. injection E as _ ->. by injection Hm as _ <-.
Qed.

(** Every other call leaves the numbers that were given out alone. *)
Lemma runCall_keeps c call : call ≠ CallNext → keeps allocatedSectorsKey (runCall dsFault c call).
Proof.
  assert (∀ name b force, keeps allocatedSectorsKey (numReserveLocked dsFault c name b force)) as Hres.
  { intros name b force. apply keeps_bind_ret; [apply keeps_reserveCheck|]. intros s s' p Hp%reserveCheck_key.
    apply keeps_bind; [|intros _]; apply keeps_wrapErr, keeps_save; [by apply not_eq_sym, (reservationKey_ne name)|done]. }
  intros Hne. destruct call as [|name b force|name count|name]; [done| | |]; (apply keeps_bind; [|intros; apply keeps_ret]).
  - apply Hres.
  - apply keeps_bind; [apply keeps_meta|]. intros nm. apply keeps_bind; [apply Hres|intros; apply keeps_ret].
  - apply keeps_bind_ret; [apply keeps_freeLoad|]. intros s s' p Hp%freeLoad_key.
    apply keeps_bind; [|intros _]; apply keeps_wrapErr; [by apply keeps_save|apply keeps_delete]. by apply not_eq_sym, (reservationKey_ne name).
Qed.

(** A call never takes back a number that was given out, and gives out one that is free. *)
Lemma runCall_given c call s s' r : (∀ oc, c = inl (Some oc) → validBits oc) → runCall dsFault c call s = (s', r) →
  (∀ n, given s n → given s' n) ∧
  ∀ n, r = Ret (Some n) → given s' n ∧ ¬ given s n ∧ ∃ am, metaOk s c am ∧ n = Next am.
Proof.
  intros Hc Hr. assert (call ≠ CallNext → (∀ n, given s n → given s' n)) as Hkeep.
  { intros Hne n. apply given_keep. pose proof (runCall_keeps c call Hne s) as Hk. by rewrite Hr in Hk. }
  destruct call as [|name b force|name count|name].
  2-4: (split; [by apply Hkeep|]; intros n ->; exfalso; unfold runCall in Hr; apply io_bind_ret in Hr as (?&?&_&?); done).
  unfold runCall, mbind, io_bind in Hr. destruct (NextSectorNumber dsFault c s) as [s1 r1] eqn:E.
  assert (s1 = s' ∧ r = match r1 with Ret n => Ret (Some n) | Fail e => Fail e | Crash => Crash end) as [-> ->]
    by (by destruct r1; injection Hr as <- <-).
  apply NextSectorNumber_effect in E as [[E Hno]|(am&Hm&Hst&Hn)].
  - split; [intros n; by apply given_keep|]. intros n Hn. by destruct r1 as [n'| |]; [destruct (Hno n')|..].
  - destruct (metaOk_next s c am Hm Hc) as [Hfree _]. pose proof Hm as [(oc&Hoc&Hin) Hres Hal Hv Hnx].
    assert (∀ n, given s n → n ∈ Allocated am) as Hgiven.
    { intros n (b&(raw&Hraw&Hb)&Hnb). destruct Hal as [(raw'&Hraw'&Hb')|[Hal _]]; [|congruence]. assert (b = Allocated am) as <- by congruence. done. }
    split; [intros n Hg; eexists; split; [exact Hst|]; specialize (Hgiven n Hg); set_solver|].
    intros n Hr1. destruct r1 as [n'| |]; [|done..]. injection Hr1 as ->. specialize (Hn n eq_refl) as ->.
    split_and!; [eexists; split; [exact Hst|]; set_solver| |by exists am].
    intros Hg%Hgiven. apply Hfree. rewrite Hin. set_solver.
Qed.

Lemma history_given l : ∀ s s' ns, (∀ call c oc, (call, c) ∈ l → c = inl (Some oc) → validBits oc) →
  history dsFault l s = (s', ns) → ∀ n, given s n → given s' n.
Proof.
  induction l as [|[call c] l IH]; intros s s' ns Hc; simpl; [by intros [= <- <-]|].
  destruct (runCall dsFault c call s) as [s1 r] eqn:E. destruct (history dsFault l s1) as [s2 ns2] eqn:Eh. intros [= <- <-] n Hn.
  apply (IH s1 s2 ns2); [intros call' c' oc Hin; apply (Hc call'); by right|done|].
  destruct (runCall_given c call s s1 r) as [Hmono _]; [intros oc; apply (Hc call); left|done|by apply Hmono].
Qed.

(** C35. In every history of calls, reservations that are forced and failing calls of the datastore included, no
    sector number is given out twice, and none that was given out before.  When it is given out, a number
    is not allocated on the chain and not in the stored union of the reservations, and all numbers below
    it are in use. *)
Theorem numbers_are_fresh l s s' ns : (∀ call oc, (call, inl (Some oc)) ∈ l → validBits oc) → history dsFault l s = (s', ns) →
  NoDup (map snd ns) ∧ (∀ n, n ∈ map snd ns → given s' n ∧ ¬ given s n) ∧
  ∀ s0 c n, (s0, c, n) ∈ ns → ∃ oc reserved allocated, c = inl (Some oc) ∧ (stored s0 reservedSectorsKey reserved ∨ ds s0 !! reservedSectorsKey = None ∧ reserved = ∅) ∧
    allocatedIn s0 allocated ∧ n ∉ oc ∪ reserved ∪ allocated ∧ ∀ k, k < n → k ∈ oc ∪ reserved ∪ allocated.
Proof.
  intros Hc. revert s s' ns. assert (∀ call c oc, (call, c) ∈ l → c = inl (Some oc) → validBits oc) as Hc' by (intros ? ? ? ? ->; eauto). clear Hc.
  induction l as [|[call c] l IH]; intros s s' ns; simpl; [intros [= <- <-]; split_and!; [constructor|set_solver..]|].
  destruct (runCall dsFault c call s) as [s1 r] eqn:E. destruct (history dsFault l s1) as [s2 ns2] eqn:Eh. intros [= <- <-].
  assert (∀ oc, c = inl (Some oc) → validBits oc) as Hcc by (intros oc; apply (Hc' call); left).
  destruct (runCall_given c call s s1 r Hcc E) as [Hmono Hnew]. destruct (IH (λ call' c' oc Hin, Hc' call' c' oc (list_elem_of_further _ _ _ Hin)) s1 s2 ns2 Eh) as (Hnd&Hall&Hwhy).
  assert (∀ n, n ∈ map snd ns2 → given s2 n ∧ ¬ given s n) as Hall' by (intros n [? Hn]%Hall; split; [done|]; auto).
  destruct r as [[n|]| |]; [|done..]. destruct (Hnew n eq_refl) as (Hg&Hng&am&Hm&->). split_and!.
  - simpl. constructor; [|done]. intros [_ Hn]%Hall. done.
  - intros n' [->|Hn']%elem_of_cons; [|by apply Hall']. split; [|done].
    by apply (history_given l s1 s2 ns2 (λ call' c' oc Hin, Hc' call' c' oc (list_elem_of_further _ _ _ Hin)) Eh).
  - intros s0 c0 n [[= -> -> ->]|Hin]%elem_of_cons; [|by eapply Hwhy]. destruct (metaOk_next s c am Hm Hcc) as [Hfree Hbelow].
    destruct Hm as [(oc&->&Hin) Hres Hal Hv Hnx]. exists oc, (Reserved am), (Allocated am). rewrite Hin in Hfree, Hbelow.
    split_and!; [done..|set_solver|]. intros k Hk%Hbelow. set_solver.
Qed.
End laws.

(** ** Reservations *)

Section reservations.
Context `{BitFieldLaws} `{MapRange}.











Definition noFault (n : nat) : option string := None.




(** *** The reservations stay apart *)






End reservations.

(** ** Examples *)

Module NumberExamples.
(** A codec by binary codes, and runs of one bit each. *)
Fixpoint codeString (p : positive) : string :=
  match p with xH => "" | xO p' => String "0" (codeString p') | xI p' => String "1" (codeString p') end.
Fixpoint stringCode (s : string) : positive :=
  match s with "" => xH | String a s' => if decide (a = "0"%char) then xO (stringCode s') else xI (stringCode s') end%string.
Definition isValid (b : BitField) : bool := bool_decide (set_Forall (λ n, n < 2 ^ 64 - 1) b).
Definition maxBit (b : BitField) : N := foldr N.max 0 (elements b).
Definition unitRuns (b : BitField) : list (bool * N) :=
  map (λ k, (bool_decide (k ∈ b), 1)) (seqN 0 (if decide (b = ∅) then 0 else maxBit b + 1)).

Definition testBits : BitFieldLib := {|
  MarshalBits b := if isValid b then inl (codeString (encode b)) else inr "RLE+ overflow";
  UnmarshalBits raw := match decode (stringCode raw) with Some b => if isValid b then inl b else inr "RLE+ overflow" | None => inr "bad code" end;
  Runs := unitRuns
|}.

Lemma maxBit_ge b n : n ∈ b → n ≤ maxBit b.
Proof. rewrite <- elem_of_elements. unfold maxBit. induction (elements b) as [|x l IH]; simpl; [set_solver|]. intros [->|Hn%IH]%elem_of_cons; lia. Qed.

Lemma maxBit_in b : b ≠ ∅ → maxBit b ∈ b.
Proof.
  intros Hb. assert (elements b ≠ []) as Hl by (by intros E%elements_empty_inv%leibniz_equiv). rewrite <- elem_of_elements. unfold maxBit.
  induction (elements b) as [|x l IH]; [done|]. simpl. destruct l as [|y l]; [simpl; rewrite N.max_0_r; left|].
  destruct (N.max_spec x (foldr N.max 0 (y :: l))) as [[_ ->]|[_ ->]]; [right; by apply IH|left].
Qed.

Lemma runBits_unit (b : BitField) n : ∀ from, runBits from (map (λ k, (bool_decide (k ∈ b), 1)) (seqN from (N.of_nat n))) =
  filter (λ k, from ≤ k < from + N.of_nat n) b.
Proof.
  induction n as [|n IH]; intros from; [apply set_eq; intros k; rewrite elem_of_filter; set_solver by lia|].
  assert (seqN from (N.of_nat (S n)) = from :: seqN (from + 1) (N.of_nat n)) as ->.
  { unfold seqN. rewrite !Nat2N.id. simpl. f_equal; [lia|]. do 2 f_equal. lia. }
  cbn [map runBits]. rewrite IH. apply set_eq. intros k. rewrite elem_of_union, !elem_of_filter. case_bool_decide as Hb.
  - rewrite elem_of_list_to_set, elem_of_seqN. split; [intros [?|[? ?]]; [assert (k = from) as -> by lia|]; (split; [lia|done])|].
    intros [Hk ?]. destruct (decide (k = from)); [left; lia|right; split; [lia|done]].
  - split; [intros [?|[? ?]]; [set_solver|split; [lia|done]]|]. intros [Hk ?]. right. split; [|done]. destruct (decide (k = from)) as [->|]; [done|lia].
Qed.

#[local] Existing Instance testBits.
#[local] Existing Instance inOrderOfKeys.
Lemma testBits_laws : BitFieldLaws.
Proof.
  assert (∀ p, stringCode (codeString p) = p) as Hcode by (induction p as [p IH|p IH|]; simpl; [by rewrite IH..|done]).
  assert (∀ b, isValid b = true ↔ validBits b) as Hvalid by (intros b; apply bool_decide_eq_true).
  split; unfold MarshalBits, UnmarshalBits, Runs; simpl.
  - intros b raw. destruct (isValid b) eqn:E; [|done]. intros [= <-]. by rewrite Hcode, decode_encode, E.
  - intros b Hb%Hvalid. rewrite Hb. eauto.
  - intros raw b. destruct (decode _) as [b'|]; [|done]. destruct (isValid b') eqn:E; [|done]. intros [= <-]. by apply Hvalid.
  - intros b Hb. unfold unitRuns. case_decide as He; [by subst|]. rewrite <- (N2Nat.id (maxBit b + 1)), runBits_unit. apply set_eq. intros k. rewrite elem_of_filter.
    split; [tauto|]. intros Hk. split; [|done]. pose proof (maxBit_ge b k Hk). lia.
  - intros b n _. unfold unitRuns. rewrite list_elem_of_fmap. intros (?&[= _ ->]&_). done.
  - intros b Hb. assert (∀ l, foldr (λ (r : bool * N) acc, r.2 + acc) 0 (map (λ k, (bool_decide (k ∈ b), 1)) l) = N.of_nat (length l)) as Hsum.
    { induction l as [|k l IH]; [done|]. cbn [map foldr snd length]. rewrite IH. lia. }
    unfold unitRuns. rewrite Hsum. unfold seqN. rewrite length_map, length_seq. case_decide; [done|]. pose proof (Hb _ (maxBit_in b ltac:(done))). lia.
Qed.

Definition emptyStore : NumStore := mkNumStore ∅ 0.
Definition onChain : option BitField + string := inl (Some {[ 1 ]}).

Lemma onChain_valid : validBits {[ 1 ]}.
Proof. by intros n ->%elem_of_singleton. Qed.

Definition someCalls : list (numCall * (option BitField + string)) :=
  [(CallNext, onChain); (CallReserveCount "mine" 2, onChain); (CallNext, onChain); (CallFree "mine", onChain); (CallNext, onChain)].

(** Number 1 is taken on the chain, 2 and 3 are reserved until they are freed. *)
Lemma someCalls_run : map snd (history noFault someCalls emptyStore).2 = [0; 4; 2].
Proof. by vm_compute. Qed.

Lemma someCalls_valid call oc : (call, inl (Some oc)) ∈ someCalls → validBits oc.
Proof. intros Hin. repeat (apply elem_of_cons in Hin as [[= _ ->]|Hin]; [apply onChain_valid|]). by apply elem_of_nil in Hin. Qed.

Lemma numbers_are_fresh_witness : NoDup (map snd (history noFault someCalls emptyStore).2).
Proof.
  destruct (history noFault someCalls emptyStore) as [s' ns] eqn:E.
  apply (@numbers_are_fresh testBits testBits_laws noFault someCalls emptyStore s' ns); [exact someCalls_valid|exact E].
Defined.



(** The next number, and a reservation that is still stored at that time. *)
Definition nextAnd (name : string) : io NumStore (N * option BitField) :=
  n ← NextSectorNumber noFault onChain; r ← loadBitField noFault (SectorReservationsDSPrefix +:+ name); mret (n, r).

(** [NumFree] does not take the lock: a reservation that is made between its reads and its writes is dropped
    from the union, and its numbers are given out to sectors. *)
Lemma free_races_with_reserve :
  snd ((numReserveLocked noFault onChain "old" {[ 7 ]} false;;
        p ← freeLoad noFault "old";
        numReserveLocked noFault onChain "new" {[ 0 ]} false;;
        freeStore noFault p;;
        nextAnd "new") emptyStore) = Ret (0, Some {[ 0 ]}).
Proof. by vm_compute. Qed.

(** A reservation whose second write fails stays under its name, but its numbers are given out. *)
Lemma failed_reserve_not_enforced :
  let '(s1, r) := numReserveLocked (λ n, if decide (n = 5%nat) then Some "disk full" else None) onChain "mine" {[ 0 ]} false emptyStore in
  r = Fail "save reserved nums: disk full" ∧ (nextAnd "mine" s1).2 = Ret (0, Some {[ 0 ]}).
Proof. by vm_compute. Qed.

(** After a forced reservation of the same numbers, freeing one of the two makes the numbers of the other free. *)
Lemma forced_overlap_is_freed :
  snd ((numReserveLocked noFault onChain "a" {[ 0 ]} false;;
        numReserveLocked noFault onChain "b" {[ 0 ]} true;;
        NumFree noFault "b";;
        nextAnd "a") emptyStore) = Ret (0, Some {[ 0 ]}).
Proof. by vm_compute. Qed.
End NumberExamples.
