(* ===== verification/DealInput.v ===== *)
(** * Deals into sectors (storage/pipeline/input.go, states_sealing.go, utils.go, upgrade_queue.go)

    Pieces of deals wait until they are assigned to a sector that takes deals; [updateInput] matches
    waiting pieces with open sectors and asks for a new or an upgraded sector when some are left.  A sector
    then writes the pieces that are assigned to it, with padding between them, and packing fills the rest.
    Everything under the input lock is one step; a handler that works without it touches only the pieces
    assigned to its sector. *)

From coqutil Require Import Datatypes.RecordSetters.
From stdpp Require Import strings numbers base gmap fin_maps sets list.
From S2P Require Import Prelude GoStrings GoSort SectorTypes SectorEvents SectorStats GasFees Fr32Stream SectorNumbers.
Import DoubleBraceUpdate.
Local Open Scope Z_scope.

Abbreviation Cid := string.

(** ** State *)

Record openSector := mkOpen { used : Z; number : Z; ccUpdate : bool }.
Record pieceAcceptResp := mkResp { sn : Z; respOffset : Z; respErr : option string }.
(** [resp] is set when the channel [doneCh] is closed. *)
Record pendingPiece := mkPending { resp : option pieceAcceptResp; pSize : Z; pDeal : PieceDealInfo; pData : string; assigned : bool }.

(** The input side of [Sealing].  [pieces] holds the pending pieces at their addresses; a timer is true while it
    runs; [sent] are the events sent to the state machines of sectors. *)
Record Sealing := mkSealing {
  openSectors : gmap SectorID openSector;
  sectorTimers : gmap SectorID bool;
  pieces : list pendingPiece;
  pendingPieces : gmap Cid nat;
  assignedPieces : gmap SectorID (list Cid);
  nextDealSector : option Z;
  available : gmap SectorID unit;
  sectorStats : SectorStats;
  numStore : NumStore;
  sent : list (Z * event)
}.

(** The fields of [sealiface.Config] that are read here. *)
Record InputConfig := mkInputConfig {
  statsConfig : Config;
  PreferNewSectorsForDeals : bool;
  MinUpgradeSectorExpiration : Z;
  MinTargetUpgradeSectorExpiration : Z;
  MaxUpgradingSectors : Z;
  MakeNewSectorForDeals : bool;
  WaitDealsDelay : Z;
  StartEpochSealingBuffer : Z
}.

(** What the other components answer during a step: the chain, the sealer, the actors' policy, the CIDs of
    go-commp-utils, the padding of go-padreader, and the state machines. *)
Class InputAPI := {
  SectorSizeOf : Z → Z + string;
  currentSealProof : Z + string;
  ProposalCid : DealProposal → Cid + string;
  StateSectorGetInfo : Z → (Z * Z) + string;
  chainHeight : Z + string;
  minerPartitions : list (list (Z → bool + string) + string) + string;
  AddPiece : SectorID → list Z → Z → string → PieceInfo + string;
  ZeroPieceCommitment : Z → Cid;
  nullData : Z → string;
  PaddedSize : Z → Z;
  StateMinerAllocated : option BitField + string;
  numFault : nat → option string;
  NewSector : Z → option string;
  DealDurationBounds : Z * Z;
  BlockDelaySecs : Z;
  GetSectorInfo : Z → SectorInfo + string;
  DealMinDuration : Z;
  SendErr : Z → event → option string;
  getConfig : InputConfig + string
}.

Section input.
Context `{InputAPI} `{PieceSizes} `{BitFieldLib} `{MapRange}.
(** The miner of [maddr]. *)
Variable minerID : Z.

Definition minerSectorID (num : Z) : SectorID := (minerID, num).

(** [statemachine.Context.Send] and [StateGroup.Send] *)
Definition Send (num : Z) (evt : event) : io Sealing unit :=
  match SendErr num evt with
  | Some e => fail e
  | None => modify (λ m, m {{ sent := sent m ++ [(num, evt)] }})
  end.

Definition setPiece (ptr : nat) (f : pendingPiece → pendingPiece) : io Sealing unit :=
  modify (λ m, m {{ pieces := alter f ptr (pieces m) }}).

(** [pp.accepted]: sets the response and closes the channel, which panics when it is closed already. *)
Definition accepted (ptr : nat) (r : pieceAcceptResp) : io Sealing unit := λ m,
  match pieces m !! ptr with
  | None => (m, Crash)
  | Some pp =>
      let m' := m {{ pieces := <[ptr := pp {{ resp := Some r }}]> (pieces m) }} in
      match resp pp with None => (m', Ret tt) | Some _ => (m', Crash) end
  end.

(** A nil pointer panics. *)
Definition pieceOf (cid : Cid) : io Sealing (nat * pendingPiece) := λ m,
  (m, match pendingPieces m !! cid with
      | None => Crash
      | Some ptr => match pieces m !! ptr with None => Crash | Some pp => Ret (ptr, pp) end
      end).

Definition proposalCID (deal : PieceDealInfo) : Cid := match ProposalCid (Proposal deal) with inl c => c | inr _ => "" end.

Definition getDealPerSectorLimit (size : Z) : Z := if decide (size < 64 * 2 ^ 30) then 256 else 512.

(** ** Matching pieces with sectors *)

Record match_ := mkMatch { mSector : SectorID; mDeal : Cid; mSize : Z; mPadding : Z }.

Definition dealFitsInLifetime (o : openSector) (dealEnd : Z) : bool + string :=
  if negb (ccUpdate o) then inl true
  else match StateSectorGetInfo (number o) with
       | inr e => inr e
       | inl (expiration, _) => inl (bool_decide (dealEnd ≤ expiration))
       end.

(** The space that is left according to the account of an open sector, as a uint64. *)
Definition availIn (ssize : Z) (o : openSector) : Z := wrapU64 (Unpadded ssize - used o).

(** The inner loop: the sectors that one piece can go to. *)
Fixpoint sectorMatches (ssize : Z) (cid : Cid) (pp : pendingPiece) (sectors : list (SectorID * openSector)) : outcome (list match_) :=
  match sectors with
  | [] => Ret []
  | (id, o) :: rest =>
      match dealFitsInLifetime o (EndEpoch (Proposal (pDeal pp))) with
      | inl true =>
          let avail := availIn ssize o in
          if decide (pSize pp ≤ avail) then
            if decide (pSize pp = 0) then Crash
            else ms ← sectorMatches ssize cid pp rest; Ret (mkMatch id cid (pSize pp) (avail mod pSize pp) :: ms)
          else sectorMatches ssize cid pp rest
      | _ => sectorMatches ssize cid pp rest
      end
  end.

(** The outer loop: all matches, and the pieces that are to be assigned. *)
Fixpoint allMatches (ssize : Z) (sectors : list (SectorID * openSector)) (heap : list pendingPiece) (l : list (Cid * nat)) : outcome (list match_ * list Cid) :=
  match l with
  | [] => Ret ([], [])
  | (cid, ptr) :: rest =>
      match heap !! ptr with
      | None => Crash
      | Some pp =>
          if assigned pp then allMatches ssize sectors heap rest
          else ms ← sectorMatches ssize cid pp sectors;
               '(ms', toAssign) ← allMatches ssize sectors heap rest;
               Ret (ms ++ ms', cid :: toAssign)
      end
  end.

Definition matchLess (a b : match_) : bool :=
  if decide (mPadding a ≠ mPadding b) then bool_decide (mPadding a < mPadding b)
  else if decide (mSize a ≠ mSize b) then bool_decide (mSize a < mSize b)
  else bool_decide ((mSector a).2 < (mSector b).2).

(** [sector.maybeAccept], made in [handleWaitDeals]. *)
Definition maybeAccept (sid : SectorID) (cid : Cid) : io Sealing unit :=
  modify (λ m, m {{ assignedPieces := <[sid := default [] (assignedPieces m !! sid) ++ [cid]]> (assignedPieces m) }});;
  Send sid.2 SectorAddPiece.

(** The error of a command as a value. *)
Definition tryIt {A} (m : io Sealing A) : io Sealing (A + string) := λ s,
  match m s with
  | (s', Ret a) => (s', Ret (inl a))
  | (s', Fail e) => (s', Ret (inr e))
  | (s', Crash) => (s', Crash)
  end.

(** One turn of the loop over the sorted matches; the result tells whether the piece was assigned now. *)
Definition assignMatch (ssize : Z) (mt : match_) : io Sealing bool :=
  '(ptr, pp) ← pieceOf (mDeal mt);
  if assigned pp then mret false
  else
    opens ← gets openSectors;
    match opens !! mSector mt with
    | None => mret false
    | Some o =>
        if decide (availIn ssize o < mSize mt) then mret false
        else
          r ← tryIt (maybeAccept (mSector mt) (mDeal mt));
          (match r with inl _ => mret tt | inr e => accepted ptr (mkResp (mSector mt).2 0 (Some e)) end);;
          modify (λ m, m {{ openSectors := alter (λ o, o {{ used := wrapU64 (used o + wrapU64 (mPadding mt + mSize mt)) }}) (mSector mt) (openSectors m) }});;
          setPiece ptr (λ pp, pp {{ assigned := true }});;
          mret true
    end.

Fixpoint assignMatches (ssize : Z) (ms : list match_) (toAssign : list Cid) : io Sealing (list Cid) :=
  match ms with
  | [] => mret toAssign
  | mt :: ms' => b ← assignMatch ssize mt;
                 assignMatches ssize ms' (if (b : bool) then filter (λ c, c ≠ mDeal mt) toAssign else toAssign)
  end.

(** ** Sectors for deals *)

(** The loop over the candidates, the earliest end first: the end of the last one and whether they fill a sector. *)
Fixpoint fillLoop (usable totalBytes target : Z) (l : list pendingPiece) : Z * bool :=
  match l with
  | [] => (target, false)
  | c :: l' =>
      let total := wrapU64 (totalBytes + pSize c) in
      let target := EndEpoch (Proposal (pDeal c)) in
      if decide (usable ≤ total) then (target, true) else fillLoop usable total target l'
  end.

Definition endsBefore (a b : pendingPiece) : bool := bool_decide (EndEpoch (Proposal (pDeal a)) < EndEpoch (Proposal (pDeal b))).

Definition unassigned (m : Sealing) : list pendingPiece :=
  filter (λ pp, assigned pp = false) (omap (λ kp, pieces m !! kp.2) (rangeOf (pendingPieces m))).

(** The least expiration and the target, as epochs. *)
Definition calcTargetExpiration (ssize : Z) (cfg : InputConfig) (m : Sealing) : (Z * Z) + string :=
  let candidates := sortBy endsBefore (unassigned m) in
  let '(target, full) := fillLoop (Unpadded ssize) 0 0 candidates in
  match chainHeight with
  | inr e => inr ("getting current epoch: " +:+ e)
  | inl h =>
      let '(minDur, maxDur) := DealDurationBounds in
      let minExp := if (full : bool) then 0 else h + minDur in
      let target := if (full : bool) then target else h + maxDur in
      let minExp := match candidates with
                    | c :: _ => if decide (minExp < EndEpoch (Proposal (pDeal c))) then EndEpoch (Proposal (pDeal c)) else minExp
                    | [] => minExp
                    end in
      let minExp := if decide (minExp < MinUpgradeSectorExpiration cfg + h) then MinUpgradeSectorExpiration cfg + h else minExp in
      let target := if decide (target < MinTargetUpgradeSectorExpiration cfg + h) then MinTargetUpgradeSectorExpiration cfg + h else target in
      inl (minExp, target)
  end.

(** [sectorActive]: the partitions of all deadlines, up to the first error or hit. *)
Fixpoint activeInParts (sector : Z) (parts : list (Z → bool + string)) : bool + string :=
  match parts with
  | [] => inl false
  | p :: rest => match p sector with inl true => inl true | inl false => activeInParts sector rest | inr e => inr e end
  end.
Fixpoint activeInDeadlines (sector : Z) (dls : list (list (Z → bool + string) + string)) : bool + string :=
  match dls with
  | [] => inl false
  | inr e :: _ => inr e
  | inl parts :: rest => match activeInParts sector parts with inl false => activeInDeadlines sector rest | r => r end
  end.
Definition sectorActive (sector : Z) : bool + string := match minerPartitions with inr e => inr e | inl dls => activeInDeadlines sector dls end.

(** [slowChecks] *)
Definition slowChecks (num : Z) : bool := match sectorActive num with inl b => b | inr _ => false end.

(** The best candidate so far: its expiration, its pledge, and the sector. *)
Record best := mkBest { bestExpiration : Z; bestPledge : Z; candidate : SectorID }.

Definition betterOf (target : Z) (b : best) (s : SectorID) : best :=
  match StateSectorGetInfo s.2 with
  | inr _ => b
  | inl (expiration, pledge) =>
      if decide (bestExpiration b < target)
      then if bool_decide (bestExpiration b < expiration) && slowChecks s.2 then mkBest expiration pledge s else b
      else if bool_decide (target ≤ expiration) && bool_decide (pledge < bestPledge b) && slowChecks s.2 then mkBest expiration pledge s else b
  end.

Definition maybeUpgradeSector (sp : Z) (cfg : InputConfig) : io Sealing bool :=
  avail ← gets available;
  if decide (avail = ∅) then mret false
  else
    ssize ← wrapErr "getting sector size: " (ofSum (SectorSizeOf sp));
    m ← gets id;
    '(minExp, target) ← wrapErr "calculating min target expiration: " (ofSum (calcTargetExpiration ssize cfg m));
    let b := foldl (betterOf target) (mkBest 0 TotalFilecoinInt (0, 0)) (map fst (rangeOf avail)) in
    if decide (bestExpiration b < minExp) then mret false
    else
      modify (λ m, m {{ available := delete (candidate b) (available m); nextDealSector := Some (candidate b).2 }});;
      Send (candidate b).2 SectorStartCCUpdate;;
      mret true.

(** [NextSectorNumber] of SectorNumbers.v on the store of the miner. *)
Definition nextNumber : io Sealing Z := λ m,
  let '(ns, r) := NextSectorNumber numFault StateMinerAllocated (numStore m) in
  (m {{ numStore := ns }}, match r with Ret n => Ret (Z.of_N n) | Fail e => Fail e | Crash => Crash end).

Definition createSector (cfg : InputConfig) (sp : Z) : io Sealing Z :=
  sid ← wrapErr "getting sector number: " nextNumber;
  (match NewSector sid with Some e => fail ("initializing sector: " +:+ e) | None => mret tt end);;
  modify (λ m, m {{ sectorStats := (updateSector (statsConfig cfg) (minerSectorID sid) UndefinedSectorState (sectorStats m)).1 }});;
  mret sid.

Definition tryGetDealSector (sp : Z) : io Sealing unit :=
  nxt ← gets nextDealSector;
  match nxt with
  | Some _ => mret tt
  | None =>
      cfg ← wrapErr "getting storage config: " (ofSum getConfig);
      ss ← gets sectorStats;
      let base := statsConfig cfg in
      if bool_decide (0 < MaxWaitDealsSectors base) && bool_decide (MaxWaitDealsSectors base ≤ curStaging ss) then mret tt
      else
        let maxUpgrading := if decide (0 < MaxUpgradingSectors cfg) then MaxUpgradingSectors cfg else MaxSealingSectorsForDeals base in
        let canCreate := MakeNewSectorForDeals cfg && negb (bool_decide (0 < MaxSealingSectorsForDeals base) && bool_decide (MaxSealingSectorsForDeals base ≤ curSealing ss)) in
        let canUpgrade := negb (bool_decide (0 < maxUpgrading) && bool_decide (maxUpgrading ≤ curSealing ss)) in
        let shouldUpgrade := canUpgrade && (negb (PreferNewSectorsForDeals cfg) || negb canCreate) in
        got ← (if shouldUpgrade then maybeUpgradeSector sp cfg else mret false);
        if (got : bool) then mret tt
        else if canCreate then
          sid ← createSector cfg sp;
          modify (λ m, m {{ nextDealSector := Some sid }});;
          Send sid (SectorStart sid sp)
        else mret tt
  end.

(** ** The input loop *)

(** [sort.Slice] with [matchLess]: any sorted permutation. *)
Variable Sort : list match_ → list match_.

Definition updateInput (sp : Z) : io Sealing unit :=
  ssize ← ofSum (SectorSizeOf sp);
  m ← gets id;
  '(ms, toAssign) ← lift (allMatches ssize (rangeOf (openSectors m)) (pieces m) (rangeOf (pendingPieces m)));
  left ← assignMatches ssize (Sort ms) toAssign;
  if decide (left = []) then mret tt
  else tryIt (tryGetDealSector sp);; mret tt.

Definition addPendingPiece (size : Z) (data : string) (deal : PieceDealInfo) (sp : Z) : io Sealing nat :=
  m ← gets id;
  let ptr := length (pieces m) in
  modify (λ m, m {{ pieces := pieces m ++ [mkPending None size deal data false];
                    pendingPieces := <[proposalCID deal := ptr]> (pendingPieces m) }});;
  tryIt (updateInput sp);;
  mret ptr.

(** [SectorAddPieceToAny] up to its wait: the checks, and the piece to wait for, with whether it was there before. *)
Definition checkPiece (size : Z) (deal : PieceDealInfo) : io Sealing Z :=
  if decide (PaddedSize size ≠ size) then fail "cannot allocate unpadded piece"
  else
    sp ← wrapErr "getting current seal proof type: " (ofSum currentSealProof);
    ssize ← ofSum (SectorSizeOf sp);
    if decide (Unpadded ssize < size) then fail "piece cannot fit into a sector"
    else
      wrapErr "getting proposal CID: " (ofSum (ProposalCid (Proposal deal)));;
      cfg ← wrapErr "getting config: " (ofSum getConfig);
      h ← wrapErr "couldnt get chain head: " (ofSum chainHeight);
      if decide (StartEpoch (Proposal deal) < h + StartEpochSealingBuffer cfg)
      then fail ("cannot add piece for deal with piece CID " +:+ ProposalPieceCID (Proposal deal) +:+ ": current epoch " +:+ Itoa h +:+
                 " has passed deal proposal start epoch " +:+ Itoa (StartEpoch (Proposal deal)))
      else mret sp.

Definition SectorAddPieceToAny (size : Z) (data : string) (deal : PieceDealInfo) : io Sealing (Z * nat * bool) :=
  sp ← checkPiece size deal;
  m ← gets id;
  match pendingPieces m !! proposalCID deal with
  | Some ptr => mret (sp, ptr, true)
  | None => ptr ← addPendingPiece size data deal sp; mret (sp, ptr, false)
  end.

(** The rest of [SectorAddPieceToAny], when the piece has its answer: a piece that was there before and failed is tried
    again; otherwise the sector and the padded offset are returned. *)
Definition addPieceAnswer (size : Z) (data : string) (deal : PieceDealInfo) (w : Z * nat * bool) : io Sealing ((Z * nat * bool) + (Z * Z)) :=
  let '(sp, ptr, existed) := w in
  m ← gets id;
  match pieces m !! ptr ≫= resp with
  | None => mret (inl w)
  | Some r =>
      match respErr r with
      | None => mret (inr (sn r, Padded (respOffset r)))
      | Some e => if (existed : bool) then ptr' ← addPendingPiece size data deal sp; mret (inl (sp, ptr', false))
                  else fail e
      end
  end.

Definition SectorMatchPendingPiecesToOpenSectors : io Sealing unit :=
  sp ← wrapErr "failed to get current seal proof: " (ofSum currentSealProof); updateInput sp.

(** ** Waiting for deals *)

Definition usedBy (sector : SectorInfo) : Z := foldl (λ u p, wrapU64 (u + Unpadded (Size (Piece p)))) 0 (Pieces sector).

(** The time at which sealing starts, in nanoseconds: the delay after the creation, or earlier when a deal starts
    soon.  [clock n] is the n-th reading of the clock. *)
Fixpoint sealTimeLoop (clock : nat → Z) (i : nat) (buffer h sealTime : Z) (l : list SectorPiece) : Z :=
  match l with
  | [] => sealTime
  | p :: l' =>
      match DealInfo p with
      | None => sealTimeLoop clock i buffer h sealTime l'
      | Some d =>
          let safeEpoch := StartEpoch (Proposal d) - buffer in
          let safeTime := clock i + wrapInt64 ((safeEpoch - h) * (BlockDelaySecs * 1000000000)) in
          sealTimeLoop clock (S i) buffer h (if decide (safeTime < sealTime) then safeTime else sealTime) l'
      end
  end.

(** [st.Stop()] on the timer of the sector: false when it has fired or was stopped before. *)
Definition stopTimer (sid : SectorID) : io Sealing (option bool) := λ m,
  (m {{ sectorTimers := alter (λ _, false) sid (sectorTimers m) }}, Ret (sectorTimers m !! sid)).

(** The result tells whether sealing was started. *)
Definition maybeStartSealing (clock : nat → Z) (sector : SectorInfo) (usedBytes : Z) : io Sealing bool :=
  let num := SectorNumber sector in
  let start := Send num SectorStartPacking;; mret true in
  st ← stopTimer (minerSectorID num);
  if decide (st = Some false) then start
  else
    match SectorSizeOf (SectorType sector) with
    | inr _ => fail "getting sector size"
    | inl ssize =>
        if decide (getDealPerSectorLimit ssize ≤ Z.of_nat (length (dealIDs sector))) then start
        else if decide (Padded usedBytes = ssize) then start
        else if decide (CreationTime sector = 0) then mret false
        else
          cfg ← wrapErr "getting storage config: " (ofSum getConfig);
          h ← wrapErr "API error getting head: " (ofSum chainHeight);
          let sealTime := sealTimeLoop clock 1 (StartEpochSealingBuffer cfg) h (CreationTime sector * 1000000000 + WaitDealsDelay cfg) (Pieces sector) in
          if decide (sealTime < clock 0%nat) then start
          else
            modify (λ m, m {{ sectorTimers := <[minerSectorID num := true]> (sectorTimers m) }});;
            mret false
    end.

(** The function of the timer. *)
Definition timerFires (num : Z) : io Sealing unit :=
  modify (λ m, m {{ sectorTimers := alter (λ _, false) (minerSectorID num) (sectorTimers m) }});;
  Send num SectorStartPacking.

Definition handleWaitDeals (clock : nat → Z) (sector : SectorInfo) : io Sealing unit :=
  let num := SectorNumber sector in
  let sid := minerSectorID num in
  let usedBytes := usedBy sector in
  modify (λ m, if decide (nextDealSector m = Some num) then m {{ nextDealSector := None }} else m);;
  m ← gets id;
  if decide (default [] (assignedPieces m !! sid) ≠ []) then Send num SectorAddPiece
  else
    started ← tryIt (maybeStartSealing clock sector usedBytes);
    let close := modify (λ m, m {{ openSectors := delete sid (openSectors m) }}) in
    match started with
    | inr e => close;; fail e
    | inl true => close
    | inl false =>
        modify (λ m, m {{ openSectors := <[sid := match openSectors m !! sid with
                                                  | None => mkOpen usedBytes num (CCUpdate sector)
                                                  | Some o => o {{ used := usedBytes }}
                                                  end]> (openSectors m) }});;
        tryIt (updateInput (SectorType sector));; mret tt
    end.

(** ** Writing pieces *)

(** The powers of two of [w], the lowest first. *)
Fixpoint bitSizes (count : nat) (w : Z) : list Z :=
  match count with
  | O => []
  | S k => let psize := 2 ^ trailingZeros w in psize :: bitSizes k (Z.lxor w psize)
  end.

(** [ffiwrapper.GetRequiredPadding] on padded sizes *)
Definition GetRequiredPadding (oldLength newPieceLength : Z) : outcome (list Z * Z) :=
  if decide (newPieceLength = 0) then Crash
  else
    let toFill := wrapU64 (- oldLength) mod newPieceLength in
    let pads := bitSizes (onesCount toFill) toFill in
    Ret (pads, foldl (λ s p, wrapU64 (s + p)) 0 pads).

(** What [handleAddPiece] keeps: the offset, the sizes of all pieces, and the new pieces. *)
Record written := mkWritten { wOffset : Z; wSizes : list Z; wNew : list SectorPiece }.

(** [deal.accepted(.., err)] and [return ctx.Send(SectorAddPieceFailed{err})]; [None] is the early return. *)
Definition addFailed (ptr : nat) (num offset : Z) (err : string) : io Sealing (option written) :=
  accepted ptr (mkResp num offset (Some err));; Send num (SectorAddPieceFailed err);; mret None.

Fixpoint addPads (ptr : nat) (num : Z) (pads : list Z) (w : written) : io Sealing (option written) :=
  match pads with
  | [] => mret (Some w)
  | p :: rest =>
      let expect := ZeroPieceCommitment (Unpadded p) in
      match AddPiece (minerSectorID num) (wSizes w) (Unpadded p) (nullData (Unpadded p)) with
      | inr e => addFailed ptr num (wOffset w) ("writing padding piece: " +:+ e)
      | inl ppi =>
          if decide (PieceCID ppi ≠ expect)
          then addFailed ptr num (wOffset w) ("got unexpected padding piece CID: expected:" +:+ expect +:+ ", got:" +:+ PieceCID ppi)
          else addPads ptr num rest (mkWritten (wOffset w) (wSizes w ++ [Unpadded p]) (wNew w ++ [mkPiece ppi None]))
      end
  end.

Definition addDeal (sector : SectorInfo) (ssize : Z) (i : nat) (cid : Cid) (w : written) : io Sealing (option written) :=
  let num := SectorNumber sector in
  m ← gets id;
  match pendingPieces m !! cid with
  | None => fail ("piece " +:+ cid +:+ " assigned to sector " +:+ Itoa num +:+ " not found")
  | Some _ =>
      '(ptr, deal) ← pieceOf cid;
      if decide (getDealPerSectorLimit ssize < Z.of_nat (length (dealIDs sector)) + (Z.of_nat i + 1)) then
        accepted ptr (mkResp num (wOffset w) (Some ("too many deals assigned to sector " +:+ Itoa num +:+ ", dropping deal")));;
        mret (Some w)
      else
        '(pads, padLength) ← lift (GetRequiredPadding (Padded (wOffset w)) (Padded (pSize deal)));
        if decide (ssize < wrapU64 (Padded (wOffset w) + padLength + Padded (pSize deal))) then
          accepted ptr (mkResp num (wOffset w) (Some ("piece " +:+ cid +:+ " assigned to sector " +:+ Itoa num +:+ " with not enough space")));;
          mret (Some w)
        else
          o ← addPads ptr num pads (mkWritten (wrapU64 (wOffset w + Unpadded padLength)) (wSizes w) (wNew w));
          match o with
          | None => mret None
          | Some w1 =>
              match AddPiece (minerSectorID num) (wSizes w1) (pSize deal) (pData deal) with
              | inr e => addFailed ptr num (wOffset w1) ("writing piece: " +:+ e)
              | inl ppi =>
                  let expect := ProposalPieceCID (Proposal (pDeal deal)) in
                  if decide (PieceCID ppi ≠ expect)
                  then addFailed ptr num (wOffset w1) ("got unexpected piece CID: expected:" +:+ expect +:+ ", got:" +:+ PieceCID ppi)
                  else
                    accepted ptr (mkResp num (wOffset w1) None);;
                    mret (Some (mkWritten (wrapU64 (wOffset w1 + pSize deal)) (wSizes w1 ++ [pSize deal]) (wNew w1 ++ [mkPiece ppi (Some (pDeal deal))])))
              end
          end
  end.

Fixpoint addDeals (sector : SectorInfo) (ssize : Z) (i : nat) (cids : list Cid) (w : written) : io Sealing (option written) :=
  match cids with
  | [] => mret (Some w)
  | c :: rest => o ← addDeal sector ssize i c w;
                 match o with None => mret None | Some w' => addDeals sector ssize (S i) rest w' end
  end.

Definition handleAddPiece (sector : SectorInfo) : io Sealing unit :=
  let num := SectorNumber sector in
  ssize ← ofSum (SectorSizeOf (SectorType sector));
  m ← gets id;
  match assignedPieces m !! minerSectorID num with
  | None => Send num (SectorPieceAdded [])
  | Some pending =>
      modify (λ m, m {{ assignedPieces := delete (minerSectorID num) (assignedPieces m) }});;
      o ← addDeals sector ssize 0 pending (mkWritten (usedBy sector) (map (λ p, Unpadded (Size (Piece p))) (Pieces sector)) []);
      match o with
      | None => mret tt
      | Some w => Send num (SectorPieceAdded (wNew w))
      end
  end.

Definition handleAddPieceFailed (sector : SectorInfo) : io Sealing unit := Send (SectorNumber sector) SectorRetryWaitDeals.

(** ** Packing *)

Definition fillersFromRem (inp : Z) : list Z :=
  let toFill := wrapU64 (inp + inp / 127) in pieceLoop (onesCount toFill) toFill.

Fixpoint padSector (sid : SectorID) (existing sizes : list Z) : list PieceInfo + string :=
  match sizes with
  | [] => inl []
  | size :: rest =>
      match AddPiece sid existing size (nullData size) with
      | inr e => inr ("add piece: " +:+ e)
      | inl ppi =>
          let expect := ZeroPieceCommitment size in
          if decide (expect ≠ PieceCID ppi) then inr ("got unexpected padding piece CID: expected:" +:+ expect +:+ ", got:" +:+ PieceCID ppi)
          else match padSector sid (existing ++ [size]) rest with inl l => inl (ppi :: l) | inr e => inr e end
      end
  end.

(** The pieces that are still assigned are refused. *)
Fixpoint refuseAssigned (num : Z) (cids : list Cid) : io Sealing unit :=
  match cids with
  | [] => mret tt
  | c :: rest =>
      m ← gets id;
      modify (λ m, m {{ pendingPieces := delete c (pendingPieces m) }});;
      (match pendingPieces m !! c with
       | None => mret tt
       | Some ptr => accepted ptr (mkResp num 0 (Some ("sector " +:+ Itoa num +:+ " entered packing state early")))
       end);;
      refuseAssigned num rest
  end.

Definition handlePacking (sector : SectorInfo) : io Sealing unit :=
  let num := SectorNumber sector in
  let sid := minerSectorID num in
  m ← gets id;
  refuseAssigned num (default [] (assignedPieces m !! sid));;
  modify (λ m, m {{ openSectors := delete sid (openSectors m); assignedPieces := delete sid (assignedPieces m) }});;
  if bool_decide (State sector = SnapDealsPacking) && negb (hasDeals sector) then Send num (SectorAbortUpgrade "sector had no deals")
  else
    let allocated := usedBy sector in
    ssize ← ofSum (SectorSizeOf (SectorType sector));
    let ubytes := Unpadded ssize in
    if decide (ubytes < allocated) then fail ("too much data in sector: " +:+ Itoa allocated +:+ " > " +:+ Itoa ubytes)
    else
      let fillers := fillersFromRem (wrapU64 (ubytes - allocated)) in
      fillerPieces ← wrapErr ("filling up the sector ([" +:+ Join (map Itoa fillers) " " +:+ "]): ") (ofSum (padSector sid (existingPieceSizes sector) fillers));
      Send num (SectorPacked fillerPieces).

(** ** Upgrades *)

Definition MarkForUpgrade (id : Z) : io Sealing unit :=
  si ← wrapErr "getting sector info: " (ofSum (GetSectorInfo id));
  if decide (State si ≠ Proving) then fail "unable to snap-up sectors not in the 'Proving' state"
  else if hasDeals si then fail "not a committed-capacity sector, has deals"
  else
    h ← wrapErr "couldnt get chain head: " (ofSum chainHeight);
    info ← wrapErr "failed to read sector on chain info: " (ofSum (StateSectorGetInfo id));
    match sectorActive id with
    | inr _ => fail "failed to check if sector is active"
    | inl false => fail "cannot mark inactive sector for upgrade"
    | inl true =>
        if decide (info.1 - h < DealMinDuration)
        then fail ("pointless to upgrade sector " +:+ Itoa id +:+ ", expiration " +:+ Itoa info.1 +:+
          " is less than a min deal duration away from current epoch.Upgrade expiration before marking for upgrade")
        else Send id SectorMarkForUpdate
    end.

Definition handleProvingSector (sector : SectorInfo) : io Sealing unit :=
  modify (λ m, m {{ available := delete (minerSectorID (SectorNumber sector)) (available m) }}).
Definition handleAvailableSector (sector : SectorInfo) : io Sealing unit :=
  modify (λ m, m {{ available := <[minerSectorID (SectorNumber sector) := tt]> (available m) }}).
Definition StartPackingSector (num : Z) : io Sealing unit := Send num SectorStartPacking.
Definition abortUpgrade (num : Z) : io Sealing unit :=
  modify (λ m, m {{ available := delete (minerSectorID num) (available m) }});;
  Send num (SectorAbortUpgrade "triggered by user").
End input.
