(* ===== verification/DealInputSpec.v ===== *)
(** * Deals into sectors: what is assigned fits and is written

    Space is counted in units of 127 data bytes (128 bytes of the sector).  A piece of s units, a power
    of two, goes to the next multiple of s. *)

From Stdlib Require Import Sorted.
From coqutil Require Import Datatypes.RecordSetters.
From stdpp Require Import strings numbers base gmap fin_maps sets list.
From S2P Require Import Prelude GoStrings GoSort SectorTypes SectorEvents SectorStats GasFees Fr32Stream Fr32StreamSpec SectorNumbers DealInput.
Import DoubleBraceUpdate.
Local Open Scope Z_scope.

(** ** Alignment *)

(** The next multiple of [s]. *)
Definition up (r s : Z) : Z := r + (- r) mod s.
Definition place (r s : Z) : Z := up r s + s.

Lemma up_divide r s : 0 < s → (s | up r s).
Proof.
  intros Hs. unfold up. exists (r / s + (if decide (r mod s = 0) then 0 else 1)).
  pose proof (Z.div_mod r s ltac:(lia)). case_decide as E; [rewrite Z.mod_opp_l_z by lia; lia|rewrite Z.mod_opp_l_nz by lia; lia].
Qed.

Lemma up_ge r s : 0 < s → r ≤ up r s < r + s.
Proof. intros Hs. unfold up. pose proof (Z.mod_pos_bound (- r) s Hs). lia. Qed.

Lemma up_least r s x : 0 < s → r ≤ x → (s | x) → up r s ≤ x.
Proof.
  intros Hs Hr [k ->]. destruct (up_divide r s Hs) as [j Hj]. pose proof (up_ge r s Hs).
  destruct (decide (j ≤ k)); [rewrite Hj; by apply Z.mul_le_mono_nonneg_r; lia|]. assert ((k + 1) * s ≤ j * s) by (apply Z.mul_le_mono_nonneg_r; lia). lia.
Qed.

Lemma up_mono r r' s : 0 < s → r ≤ r' → up r s ≤ up r' s.
Proof. intros Hs Hr. apply up_least; [done| |by apply up_divide]. pose proof (up_ge r' s Hs). lia. Qed.

Lemma up_coarser r s s' : 0 < s → 0 < s' → (s | s') → up r s ≤ up r s'.
Proof. intros Hs Hs' Hd. apply up_least; [done|apply up_ge, Hs'|]. etrans; [exact Hd|by apply up_divide]. Qed.

Lemma up_add r s : 0 < s → up (r + s) s = up r s + s.
Proof.
  intros Hs. unfold up. replace (- (r + s)) with (- r + (-1) * s) by lia. rewrite Z.mod_add by lia. lia.
Qed.

(** Powers of two that are not larger divide. *)
Lemma pow2_divide a b : 0 ≤ a → 0 ≤ b → 2 ^ a ≤ 2 ^ b → (2 ^ a | 2 ^ b).
Proof.
  intros Ha Hb Hle. apply Z.pow_le_mono_r_iff in Hle; [|lia..]. exists (2 ^ (b - a)). rewrite <- Z.pow_add_r by lia. f_equal. lia.
Qed.

(** What was accounted up to [u] and really lies below the next multiple of [s] still does after a piece of [s]
    units, also for larger pieces, and it fits when the account does. *)
Lemma place_account r u s s' total : 0 < s → 0 < s' → (s | s') → (s | total) → r ≤ up u s → u + s ≤ total →
  place r s ≤ up (u + s) s' ∧ place r s ≤ total.
Proof.
  intros Hs Hs' Hd Ht Hr Hfit. assert (place r s ≤ up (u + s) s) as Hle.
  { unfold place. rewrite up_add by done. assert (up r s ≤ up u s) by (apply up_least; [done..|by apply up_divide]). lia. }
  split; [etrans; [exact Hle|by apply up_coarser]|]. etrans; [exact Hle|]. by apply up_least.
Qed.

(** ** One round of matching *)

Section round.
Context `{InputAPI} `{PieceSizes} `{BitFieldLib} `{MapRange}.
Variable minerID : Z.
(** The sector has 2^J units. *)
Variable J : Z.
Hypothesis J_range : 0 ≤ J ≤ 50.
Definition sectorBytes : Z := 2 ^ (J + 7).

Definition validSize (z : Z) : Prop := ∃ k, 0 ≤ k ≤ J ∧ z = 127 * 2 ^ k.

Lemma units_bound : 1 ≤ 2 ^ J ≤ 2 ^ 50.
Proof. split; [pose proof (Z.pow_pos_nonneg 2 J); lia|apply Z.pow_le_mono_r; lia]. Qed.

Lemma sectorBytes_units : sectorBytes = 128 * 2 ^ J ∧ Unpadded sectorBytes = 127 * 2 ^ J.
Proof.
  assert (sectorBytes = 128 * 2 ^ J) as E by (unfold sectorBytes; rewrite Z.pow_add_r by lia; lia). split; [done|].
  rewrite E, Unpadded_law by (pose proof units_bound; lia). rewrite Z.mul_comm, Z.div_mul by lia. lia.
Qed.

Lemma availIn_units o u : used o = 127 * u → 0 ≤ u ≤ 2 ^ J → availIn sectorBytes o = 127 * (2 ^ J - u).
Proof.
  intros Eu Hu. unfold availIn, wrapU64. destruct sectorBytes_units as [_ ->]. rewrite Eu. pose proof units_bound.
  rewrite Z.mod_small; [lia|]. lia.
Qed.

Definition withAssigned (pp : pendingPiece) (b : bool) : pendingPiece := mkPending (resp pp) (pSize pp) (pDeal pp) (pData pp) b.

(** Pending pieces are there, at addresses of their own; those that wait have a valid size and no answer yet. *)
Record inputOk (m : Sealing) : Prop := {
  in_piece cid ptr : pendingPieces m !! cid = Some ptr →
    ∃ pp, pieces m !! ptr = Some pp ∧ (assigned pp = false → validSize (pSize pp) ∧ resp pp = None);
  in_inj cid cid' ptr : pendingPieces m !! cid = Some ptr → pendingPieces m !! cid' = Some ptr → cid = cid'
}.

(** A piece that waits in [m]. *)
Definition waits (m : Sealing) (cid : Cid) (ptr : nat) (pp : pendingPiece) : Prop :=
  pendingPieces m !! cid = Some ptr ∧ pieces m !! ptr = Some pp ∧ assigned pp = false.

Lemma waits_size m cid ptr pp : inputOk m → waits m cid ptr pp → ∃ k, 0 ≤ k ≤ J ∧ pSize pp = 127 * 2 ^ k ∧ pSize pp / 127 = 2 ^ k ∧ 0 < 2 ^ k ∧ resp pp = None.
Proof.
  intros Hok (Hp&Hpp&Ha). destruct (in_piece m Hok _ _ Hp) as (pp'&Hpp'&Hval). assert (pp' = pp) as -> by congruence.
  destruct (Hval Ha) as [(k&Hk&E) Hr]. exists k. split_and!; [lia..|done| |apply Z.pow_pos_nonneg; lia|done]. rewrite E, Z.mul_comm. by apply Z.div_mul.
Qed.

Definition goodMatch (m : Sealing) (mt : match_) : Prop :=
  ∃ ptr pp o, waits m (mDeal mt) ptr pp ∧ mSize mt = pSize pp ∧ openSectors m !! mSector mt = Some o ∧
    mPadding mt = availIn sectorBytes o mod pSize pp.

Lemma sectorMatches_good m cid ptr pp sectors : waits m cid ptr pp → pSize pp ≠ 0 → (∀ id o, (id, o) ∈ sectors → openSectors m !! id = Some o) →
  ∃ ms, sectorMatches sectorBytes cid pp sectors = Ret ms ∧ Forall (goodMatch m) ms ∧
    ∀ id o, (id, o) ∈ sectors → dealFitsInLifetime o (EndEpoch (Proposal (pDeal pp))) = inl true → pSize pp ≤ availIn sectorBytes o →
    ∃ mt, mt ∈ ms ∧ mSector mt = id ∧ mDeal mt = cid.
Proof.
  intros Hw Hne. induction sectors as [|[id o] rest IH]; intros Hs; simpl; [exists []; split_and!; [done|constructor|set_solver]|].
  destruct IH as (ms&E&Hms&Hall); [intros id' o' Hin; apply Hs; by right|].
  assert (∀ ms' : list match_, (∀ mt, mt ∈ ms → mt ∈ ms') → (dealFitsInLifetime o (EndEpoch (Proposal (pDeal pp))) = inl true → pSize pp ≤ availIn sectorBytes o → ∃ mt, mt ∈ ms' ∧ mSector mt = id ∧ mDeal mt = cid) →
    ∀ id' o', (id', o') ∈ (id, o) :: rest → dealFitsInLifetime o' (EndEpoch (Proposal (pDeal pp))) = inl true → pSize pp ≤ availIn sectorBytes o' →
    ∃ mt, mt ∈ ms' ∧ mSector mt = id' ∧ mDeal mt = cid) as Hcons.
  { intros ms' Hsub Hhere id' o' [[= -> ->]|Hin]%elem_of_cons; [done|]. intros Hf Ha. destruct (Hall id' o' Hin Hf Ha) as (mt&Hmt&?). exists mt. auto. }
  destruct (dealFitsInLifetime _ _) as [[]|] eqn:Ef; [|exists ms; split_and!; [done|done|apply Hcons; [done|congruence]]..].
  case_decide; [|exists ms; split_and!; [done|done|apply Hcons; done]]. rewrite decide_False by done. rewrite E. simpl.
  eexists. split; [done|]. split; [constructor; [|done]|].
  - exists ptr, pp, o. split_and!; [done|done| |done]. apply Hs. left.
  - apply Hcons; [set_solver|]. intros _ _. eexists. split; [left|done].
Qed.

Lemma allMatches_good m l : inputOk m → (∀ cid ptr, (cid, ptr) ∈ l → pendingPieces m !! cid = Some ptr) →
  ∃ ms toAssign, allMatches sectorBytes (rangeOf (openSectors m)) (pieces m) l = Ret (ms, toAssign) ∧ Forall (goodMatch m) ms ∧
    ∀ cid ptr pp id o, (cid, ptr) ∈ l → waits m cid ptr pp → openSectors m !! id = Some o →
    dealFitsInLifetime o (EndEpoch (Proposal (pDeal pp))) = inl true → pSize pp ≤ availIn sectorBytes o →
    ∃ mt, mt ∈ ms ∧ mSector mt = id ∧ mDeal mt = cid.
Proof.
  intros Hok. induction l as [|[cid ptr] l IH]; intros Hl; simpl; [exists [], []; split_and!; [done|constructor|set_solver]|].
  destruct IH as (ms&ta&E&Hms&Hall); [intros cid' ptr' Hin; apply Hl; by right|].
  assert (pendingPieces m !! cid = Some ptr) as Hp by (apply Hl; left). destruct (in_piece m Hok _ _ Hp) as (pp&Hpp&_). rewrite Hpp.
  destruct (assigned pp) eqn:Ea.
  { exists ms, ta. split_and!; [done..|]. intros cid' ptr' pp' id o [[= -> ->]|Hin]%elem_of_cons Hw; [destruct Hw as (_&?&?); congruence|by apply (Hall cid' ptr' pp')]. }
  destruct (waits_size m cid ptr pp Hok) as (k&_&Hsize&_&Hk&_); [by split_and!|].
  destruct (sectorMatches_good m cid ptr pp (rangeOf (openSectors m))) as (ms1&E1&Hms1&Hall1); [done|lia|by intros id o; rewrite rangeOf_elem|].
  rewrite E1. simpl. rewrite E. simpl. do 2 eexists. split; [done|]. split; [by apply Forall_app|].
  intros cid' ptr' pp' id o [[= -> ->]|Hin]%elem_of_cons Hw Ho Hf Ha.
  - assert (pp' = pp) as -> by (destruct Hw as (_&?&_); congruence). destruct (Hall1 id o) as (mt&Hmt&?); [by rewrite rangeOf_elem|done..|]. exists mt. set_solver.
  - destruct (Hall cid' ptr' pp' id o) as (mt&Hmt&?); [done..|]. exists mt. set_solver.
Qed.

(** *** One sector during a round *)

Hypothesis Send_AddPiece : ∀ num, SendErr num SectorAddPiece = None.
Variable m0 : Sealing.
Hypothesis m0_ok : inputOk m0.
Variable sid : SectorID.
Variable o : openSector.
Variable u0 : Z.

(** The units of a pending piece, and the end of the data when [L] is written after [u0]. *)
Definition unitsIn (cid : Cid) : Z := match pendingPieces m0 !! cid ≫= (λ ptr, pieces m0 !! ptr) with Some pp => pSize pp / 127 | None => 0 end.
Definition endOf (L : list Cid) : Z := foldl place u0 (map unitsIn L).

Record roundInv (m : Sealing) (u : Z) (L : list Cid) (rest : list match_) : Prop := {
  ri_pending : pendingPieces m = pendingPieces m0;
  ri_pieces ptr pp : pieces m0 !! ptr = Some pp → ∃ b, pieces m !! ptr = Some (withAssigned pp b) ∧ (assigned pp = true → b = true);
  ri_open : openSectors m !! sid = Some (mkOpen (127 * u) (number o) (ccUpdate o));
  ri_list : default [] (assignedPieces m !! sid) = L;
  ri_u : 0 ≤ u ≤ 2 ^ J;
  ri_nodup : NoDup L;
  ri_taken c : c ∈ L → ∃ ptr pp, waits m0 c ptr pp ∧ pieces m !! ptr = Some (withAssigned pp true);
  ri_end : endOf L ≤ 2 ^ J;
  ri_rest mt : mt ∈ rest → mSector mt = sid → endOf L ≤ up u (mSize mt / 127);
  ri_left c ptr pp : waits m0 c ptr pp → dealFitsInLifetime o (EndEpoch (Proposal (pDeal pp))) = inl true →
    (∃ mt, mt ∈ rest ∧ mSector mt = sid ∧ mDeal mt = c) ∨ pieces m !! ptr = Some (withAssigned pp true) ∨ 127 * (2 ^ J - u) < pSize pp
}.

(** A match that is done with. *)
Lemma roundInv_tail m u L mt rest : roundInv m u L (mt :: rest) →
  (mSector mt = sid → ∀ ptr pp, waits m0 (mDeal mt) ptr pp → pieces m !! ptr = Some (withAssigned pp true) ∨ 127 * (2 ^ J - u) < pSize pp) →
  roundInv m u L rest.
Proof.
  intros [? ? ? ? ? ? ? ? Hr Hl] Hdone. split; auto; [intros mt' Hin; apply Hr; by right|].
  intros c ptr pp Hw Hf. destruct (Hl c ptr pp Hw Hf) as [(mt'&[->|Hin]%elem_of_cons&Hs&<-)|?]; [right; by apply Hdone|left; by exists mt'|by right].
Qed.

(** What a match that is accepted does. *)
Definition acceptedState (mt : match_) (ptr : nat) (m : Sealing) : Sealing :=
  mkSealing (alter (λ o, mkOpen (wrapU64 (used o + wrapU64 (mPadding mt + mSize mt))) (number o) (ccUpdate o)) (mSector mt) (openSectors m))
    (sectorTimers m) (alter (λ pp, withAssigned pp true) ptr (pieces m)) (pendingPieces m)
    (<[mSector mt := default [] (assignedPieces m !! mSector mt) ++ [mDeal mt]]> (assignedPieces m))
    (nextDealSector m) (available m) (sectorStats m) (numStore m) (sent m ++ [((mSector mt).2, SectorAddPiece)]).

Lemma assignMatch_cases mt m u L rest : goodMatch m0 mt → roundInv m u L (mt :: rest) →
  ∃ ptr pp b, waits m0 (mDeal mt) ptr pp ∧ mSize mt = pSize pp ∧ pieces m !! ptr = Some (withAssigned pp b) ∧
  (assignMatch sectorBytes mt m = (m, Ret false) ∧ (b = true ∨ openSectors m !! mSector mt = None ∨ ∃ os, openSectors m !! mSector mt = Some os ∧ availIn sectorBytes os < mSize mt) ∨
   b = false ∧ (∃ os, openSectors m !! mSector mt = Some os ∧ mSize mt ≤ availIn sectorBytes os) ∧
   assignMatch sectorBytes mt m = (acceptedState mt ptr m, Ret true)).
Proof.
  intros (ptr&pp&os0&Hw&Hsize&_&_) Hri. pose proof Hw as (Hp&Hpp&Ha). destruct (ri_pieces _ _ _ _ Hri _ _ Hpp) as (b&Hb&_).
  exists ptr, pp, b. split_and!; [done..|]. unfold assignMatch, mbind, io_bind, pieceOf. rewrite (ri_pending _ _ _ _ Hri), Hp, Hb. cbn [assigned withAssigned].
  destruct b; [left; auto|]. unfold gets. destruct (openSectors m !! mSector mt) as [os|] eqn:Eo; [|left; auto].
  case_decide; [left; eauto 6|]. right. split; [done|]. split; [exists os; split; [done|lia]|].
  unfold tryIt, maybeAccept, Send. rewrite Send_AddPiece. unfold modify, setPiece, mbind, io_bind. done.
Qed.

(** The pieces after that: only this one has changed, and it is assigned. *)
Lemma acceptedState_pieces mt ptr pp m u L rest : waits m0 (mDeal mt) ptr pp → pieces m !! ptr = Some (withAssigned pp false) → roundInv m u L rest →
  let m' := acceptedState mt ptr m in
  (∀ ptr' pp', pieces m0 !! ptr' = Some pp' → ∃ b, pieces m' !! ptr' = Some (withAssigned pp' b) ∧ (assigned pp' = true → b = true)) ∧
  (∀ c, c ∈ L → ∃ ptr pp, waits m0 c ptr pp ∧ pieces m' !! ptr = Some (withAssigned pp true)) ∧
  (∀ ptr' pp', pieces m !! ptr' = Some (withAssigned pp' true) → pieces m' !! ptr' = Some (withAssigned pp' true)) ∧
  (∀ ptr' pp', waits m0 (mDeal mt) ptr' pp' → pieces m' !! ptr' = Some (withAssigned pp' true)).
Proof.
  intros Hw Hb Hri m'. pose proof (proj1 (proj2 Hw)) as Hpp0.
  assert (∀ ptr' pp', pieces m0 !! ptr' = Some pp' → ∃ b, pieces m' !! ptr' = Some (withAssigned pp' b) ∧ (assigned pp' = true → b = true)) as Hpieces.
  { intros ptr' pp' Hp'. unfold m'. cbn [pieces acceptedState]. destruct (decide (ptr' = ptr)) as [->|Hne].
    - assert (pp' = pp) as -> by congruence. rewrite list_lookup_alter_eq, Hb. by exists true.
    - rewrite list_lookup_alter_ne by done. by apply (ri_pieces _ _ _ _ Hri). }
  assert (∀ c, c ∈ L → ∃ ptr pp, waits m0 c ptr pp ∧ pieces m' !! ptr = Some (withAssigned pp true)) as Htaken.
  { intros c (ptrc&ppc&Hwc&Hpc)%(ri_taken _ _ _ _ Hri). exists ptrc, ppc. split; [done|]. unfold m'. cbn [pieces acceptedState].
    rewrite list_lookup_alter_ne; [done|]. intros ->. assert (withAssigned ppc true = withAssigned pp false) as Ew by congruence. by injection Ew. }
  assert (∀ ptr' pp', pieces m !! ptr' = Some (withAssigned pp' true) → pieces m' !! ptr' = Some (withAssigned pp' true)) as Hstays.
  { intros ptr' pp' Hp'. unfold m'. cbn [pieces acceptedState]. rewrite list_lookup_alter_ne; [done|]. intros ->.
    assert (withAssigned pp' true = withAssigned pp false) as Ew by congruence. by injection Ew. }
  assert (∀ ptr' pp', waits m0 (mDeal mt) ptr' pp' → pieces m' !! ptr' = Some (withAssigned pp' true)) as Hdone.
  { intros ptr' pp' (Hp'&Hpp'&_). assert (ptr' = ptr) as -> by (destruct Hw; congruence). assert (pp' = pp) as -> by congruence.
    unfold m'. cbn [pieces acceptedState]. by rewrite list_lookup_alter_eq, Hb. }
  by split_and!.
Qed.

Lemma assignMatch_step mt m u L rest : goodMatch m0 mt → (mSector mt = sid → mPadding mt = 0) →
  (∀ mt', mt' ∈ rest → goodMatch m0 mt' ∧ (mSector mt = sid → mSector mt' = sid → mSize mt ≤ mSize mt')) →
  roundInv m u L (mt :: rest) → ∃ b m' u' L', assignMatch sectorBytes mt m = (m', Ret b) ∧ roundInv m' u' L' rest.
Proof.
  intros Hg Hpad Hrest Hri. destruct (assignMatch_cases mt m u L rest Hg Hri) as (ptr&pp&b&Hw&Hsize&Hb&[[E Hwhy]|(->&(os&Hos&Havail)&E)]).
  { exists false, m, u, L. split; [done|]. apply (roundInv_tail m u L mt); [done|]. intros Hsid ptr' pp' (Hp'&Hpp'&_).
    assert (ptr' = ptr) as -> by (destruct Hw; congruence). assert (pp' = pp) as -> by (destruct Hw as (_&?&_); congruence).
    rewrite Hsid, (ri_open _ _ _ _ Hri) in Hwhy. destruct Hwhy as [->|[?|(os&[= <-]&Hlt)]]; [by left|done|right].
    rewrite (availIn_units _ u) in Hlt; [lia|done|apply (ri_u _ _ _ _ Hri)]. }
  destruct (waits_size m0 _ _ _ m0_ok Hw) as (k&Hk&Hk127&Hunits&Hkpos&_). rewrite <- Hsize in Hunits. pose proof (proj1 (proj2 Hw)) as Hpp0.
  set (m' := acceptedState mt ptr m) in *.
  destruct (acceptedState_pieces mt ptr pp m u L (mt :: rest) Hw Hb Hri) as (Hpieces&Htaken&Hstays&Hdone). fold m' in Hpieces, Htaken, Hstays, Hdone.
  destruct (decide (mSector mt = sid)) as [Hsid|Hsid].
  - specialize (Hpad Hsid). pose proof (ri_open _ _ _ _ Hri) as Hopen. pose proof (ri_u _ _ _ _ Hri) as Hu. pose proof units_bound as HJ.
    rewrite <- Hsid, Hos in Hopen. injection Hopen as ->. erewrite availIn_units in Havail; [|done..].
    assert (2 ^ k ≤ 2 ^ J - u) as Hroom by lia.
    assert (L ++ [mDeal mt] = default [] (assignedPieces m' !! sid)) as Hlist.
    { unfold m'. cbn [assignedPieces acceptedState]. rewrite Hsid, lookup_insert_eq. simpl. by rewrite (ri_list _ _ _ _ Hri). }
    assert (endOf (L ++ [mDeal mt]) = place (endOf L) (2 ^ k)) as Hend.
    { unfold endOf. rewrite map_app, foldl_app. simpl. f_equal. unfold unitsIn. destruct Hw as (->&Hw&_). simpl. by rewrite Hw, <- Hsize. }
    assert (endOf L ≤ up u (2 ^ k)) as Hle by (rewrite <- Hunits; apply (ri_rest _ _ _ _ Hri); [left|done]).
    assert (∀ j, k ≤ j ≤ J → place (endOf L) (2 ^ k) ≤ up (u + 2 ^ k) (2 ^ j) ∧ place (endOf L) (2 ^ k) ≤ 2 ^ J) as Hplace.
    { intros j Hj. apply place_account; [lia|apply Z.pow_pos_nonneg; lia| | |done|lia]; apply pow2_divide; try lia; apply Z.pow_le_mono_r; lia. }
    exists true, m', (u + 2 ^ k), (L ++ [mDeal mt]). split; [done|]. split; [apply (ri_pending _ _ _ _ Hri)|done| |done|lia| | | | |].
    + unfold m'. cbn [openSectors acceptedState]. rewrite Hsid, lookup_alter_eq, <- Hsid, Hos. cbn [fmap option_fmap option_map used number ccUpdate].
      rewrite Hpad, Hsize, Hk127. unfold wrapU64. f_equal. f_equal. rewrite (Z.mod_small (0 + 127 * 2 ^ k)) by lia. rewrite Z.mod_small by lia. lia.
    + apply NoDup_app. split_and!; [apply (ri_nodup _ _ _ _ Hri)| |apply NoDup_singleton]. intros c Hc ->%list_elem_of_singleton.
      destruct (ri_taken _ _ _ _ Hri _ Hc) as (ptrc&ppc&(Hpc&Hppc&_)&Htc). assert (ptrc = ptr) as -> by (destruct Hw; congruence).
      assert (withAssigned ppc true = withAssigned pp false) as Ew by congruence. by injection Ew.
    + intros c [Hc| ->%list_elem_of_singleton]%elem_of_app; [by apply Htaken|]. exists ptr, pp. split; [done|]. unfold m'. cbn [pieces acceptedState].
      by rewrite list_lookup_alter_eq, Hb.
    + rewrite Hend. destruct (Hplace k) as [_ Hp]; [lia|exact Hp].
    + intros mt' Hin Hs'. destruct (Hrest mt' Hin) as [(ptr'&pp''&o'&Hw'&Hsz'&_) Hle']. specialize (Hle' Hsid Hs').
      destruct (waits_size m0 _ _ _ m0_ok Hw') as (k'&Hk'&Hk127'&Hu'&_). rewrite Hend, Hsz', Hu'. destruct (Hplace k') as [Hp _]; [|exact Hp].
      split; [|lia]. rewrite Hsize, Hk127, Hsz', Hk127' in Hle'. apply (Z.pow_le_mono_r_iff 2); lia.
    + intros c ptr' pp' Hw' Hf. destruct (ri_left _ _ _ _ Hri c ptr' pp' Hw' Hf) as [(mt'&[->|Hin]%elem_of_cons&Hs'&<-)|[Ha|Hlt]]; [|by left; exists mt'| |right; right; lia].
      * right. left. apply (Hdone ptr' pp'). exact Hw'.
      * right. left. by apply Hstays.
  - exists true, m', u, L. split; [done|]. destruct Hri as [R1 R2 R3 R4 R5 R6 R7 R8 R9 R10]. split; [done..|exact Hpieces| | |done|done|exact Htaken|done| |].
    + unfold m'. cbn [openSectors acceptedState]. by rewrite lookup_alter_ne.
    + unfold m'. cbn [assignedPieces acceptedState]. by rewrite lookup_insert_ne.
    + intros mt' Hin. apply R9. by right.
    + intros c ptr' pp' Hw' Hf. destruct (R10 c ptr' pp' Hw' Hf) as [(mt'&[->|Hin]%elem_of_cons&Hs'&<-)|[Ha|Hlt]]; [done|by left; exists mt'|right; left; by apply Hstays|by right; right].
Qed.

(** The matches of the sector in a sorted list go from small to large pieces. *)
Lemma assignMatches_inv ms : ∀ m u L toAssign, Forall (goodMatch m0) ms → (∀ mt, mt ∈ ms → mSector mt = sid → mPadding mt = 0) →
  StronglySorted (notAfter matchLess) ms → roundInv m u L ms →
  ∃ m' u' L' rest, assignMatches sectorBytes ms toAssign m = (m', Ret rest) ∧ roundInv m' u' L' [].
Proof.
  induction ms as [|mt ms IH]; intros m u L toAssign Hg Hpad Hs Hri; simpl; [by exists m, u, L, toAssign|].
  apply Forall_cons in Hg as [Hg Hgs]. apply StronglySorted_inv in Hs as [Hs Hall]. rewrite Forall_forall in Hgs, Hall.
  destruct (assignMatch_step mt m u L ms) as (b&m1&u1&L1&E&Hri1); [done|apply Hpad; left| |done|].
  { intros mt' Hin. split; [by apply Hgs|]. intros E1 E2. specialize (Hall mt' Hin). unfold notAfter, matchLess in Hall.
    rewrite (Hpad mt), (Hpad mt') in Hall; [|by right|done|left|done]. rewrite decide_False in Hall by auto.
    destruct (decide (mSize mt' = mSize mt)) as [->|]; [done|]. rewrite decide_True in Hall by done. apply bool_decide_eq_false in Hall. lia. }
  unfold mbind, io_bind. rewrite E. apply (IH m1 u1 L1); [by apply Forall_forall|intros mt' Hin; apply Hpad; by right|done|done].
Qed.
End round.

(** ** What a round leaves alone *)

Section frames.
Context `{InputAPI} `{PieceSizes} `{BitFieldLib} `{MapRange}.
Variable minerID : Z.

(** A command that does not touch the pieces and the open sectors, and does not panic. *)
Definition framed {A} (c : io Sealing A) : Prop := ∀ m,
  let '(m', r) := c m in
  pieces m' = pieces m ∧ pendingPieces m' = pendingPieces m ∧ assignedPieces m' = assignedPieces m ∧ openSectors m' = openSectors m ∧ r ≠ Crash.

Lemma framed_ret {A} (a : A) : framed (mret a).
Proof. by intros m. Qed.
Lemma framed_fail {A} e : framed (fail (A:=A) e).
Proof. by intros m. Qed.
Lemma framed_gets {A} (f : Sealing → A) : framed (gets f).
Proof. by intros m. Qed.
Lemma framed_ofSum {A} (r : A + string) : framed (ofSum r).
Proof. by intros m; destruct r. Qed.
Lemma framed_modify (f : Sealing → Sealing) : (∀ m, pieces (f m) = pieces m ∧ pendingPieces (f m) = pendingPieces m ∧
  assignedPieces (f m) = assignedPieces m ∧ openSectors (f m) = openSectors m) → framed (modify f).
Proof. intros Hf m. specialize (Hf m). unfold modify. naive_solver. Qed.
Lemma framed_bind {A B} (c : io Sealing A) (f : A → io Sealing B) : framed c → (∀ a, framed (f a)) → framed (mbind f c).
Proof.
  intros Hc Hf m. specialize (Hc m). unfold mbind, io_bind. destruct (c m) as [m1 [a|e|]]; [|naive_solver..].
  specialize (Hf a m1). destruct (f a m1) as [m2 r]. naive_solver congruence.
Qed.
Lemma framed_wrapErr {A} text (c : io Sealing A) : framed c → framed (wrapErr text c).
Proof. intros Hc m. specialize (Hc m). unfold wrapErr. destruct (c m) as [m1 []]; naive_solver. Qed.
Lemma framed_Send num evt : framed (Send num evt).
Proof. unfold Send. destruct (SendErr _ _); [apply framed_fail|by apply framed_modify]. Qed.

(** Commands that never panic. *)
Definition safe {W A} (c : io W A) : Prop := ∀ w, (c w).2 ≠ Crash.
Lemma safe_bind {W A B} (c : io W A) (f : A → io W B) : safe c → (∀ a, safe (f a)) → safe (mbind f c).
Proof. intros Hc Hf w. specialize (Hc w). unfold mbind, io_bind. destruct (c w) as [w1 [a|e|]]; [apply Hf|done|done]. Qed.
Lemma safe_wrapErr {W A} text (c : io W A) : safe c → safe (wrapErr text c).
Proof. intros Hc w. specialize (Hc w). unfold wrapErr. by destruct (c w) as [w1 []]. Qed.
Lemma safe_ret {W A} (a : A) : safe (W:=W) (mret a).
Proof. done. Qed.
Lemma safe_fail {W A} e : safe (W:=W) (fail (A:=A) e).
Proof. done. Qed.
Lemma safe_ofSum {W A} (r : A + string) : safe (W:=W) (ofSum r).
Proof. by intros w; destruct r. Qed.
Lemma safe_call {A} f (g : gmap string string → gmap string string * A) : safe (dsCall f g).
Proof. intros s. unfold dsCall. destruct (f _); [done|]. by destruct (g _). Qed.

Lemma NextSectorNumber_safe c : safe (NextSectorNumber numFault c).
Proof.
  unfold NextSectorNumber, numAssignerMetaLocked, legacyAllocated, loadBitField, saveBitField, dsGet, dsPut.
  repeat first [apply safe_bind|apply safe_wrapErr|apply safe_call|apply safe_ret|apply safe_fail|apply safe_ofSum|case_match|intros ?].
Qed.

Lemma framed_tryGetDealSector sp : framed (tryGetDealSector minerID sp).
Proof.
  assert (framed nextNumber) as Hnum.
  { intros m. unfold nextNumber. pose proof (NextSectorNumber_safe StateMinerAllocated (numStore m)) as Hc. destruct (NextSectorNumber _ _ _) as [ns []]; split_and!; done. }
  unfold tryGetDealSector, maybeUpgradeSector, createSector.
  repeat first [apply framed_ret|apply framed_fail|apply framed_gets|apply framed_ofSum|apply framed_Send|apply Hnum|by apply framed_modify
    |apply framed_bind|apply framed_wrapErr|case_match|intros].
Qed.
End frames.

(** ** Padding in powers of two *)

Lemma lowest_split p : Zpos p = 2 ^ zerosPos p + Z.lxor (Zpos p) (2 ^ zerosPos p).
Proof.
  induction p as [p IH|p IH|]; [|cbn [zerosPos]|done].
  - cbn [zerosPos]. change (2 ^ 0) with 1. assert (Z.lxor (Zpos p~1) 1 = 2 * Zpos p) as ->; [|lia].
    change (Zpos p~1) with (2 * Zpos p + 1). apply Z.bits_inj'. intros n Hn. rewrite Z.lxor_spec.
    destruct (decide (n = 0)) as [->|]; [by rewrite Z.testbit_odd_0, Z.testbit_even_0|].
    replace n with (Z.succ (n - 1)) by lia. rewrite Z.testbit_odd_succ, Z.testbit_even_succ by lia.
    change 1 with (2 * 0 + 1) at 2. by rewrite Z.testbit_odd_succ, Z.bits_0, xorb_false_r by lia.
  - pose proof (zerosPos_nonneg p). rewrite Z.pow_add_r by lia. change (2 ^ 1) with 2. change (Zpos p~0) with (2 * Zpos p).
    rewrite lxor_double. lia.
Qed.

Lemma zerosPos_divide n p : (2 ^ Z.of_nat n | Zpos p) → Z.of_nat n ≤ zerosPos p.
Proof.
  revert p. induction n as [|n IH]; intros p Hd; [apply zerosPos_nonneg|].
  rewrite Nat2Z.inj_succ, Z.pow_succ_r in Hd by lia. destruct p as [p|p|].
  - exfalso. destruct Hd as [q Hq]. lia.
  - cbn [zerosPos]. assert (2 ^ Z.of_nat n | Zpos p) as Hp; [|specialize (IH p Hp); lia].
    destruct Hd as [q Hq]. exists q. lia.
  - exfalso. destruct Hd as [q Hq]. assert (0 < 2 ^ Z.of_nat n) by (apply Z.pow_pos_nonneg; lia). nia.
Qed.

Definition sumZ (l : list Z) : Z := foldr Z.add 0 l.

(** The pieces that [bitSizes] cuts from a multiple of 128 are powers of two from 128 on, and add up to it. *)
Lemma bitSizes_sum w : 0 ≤ w → (128 | w) → sumZ (bitSizes (onesCount w) w) = w ∧
  Forall (λ p, ∃ j, 0 ≤ j ∧ p = 128 * 2 ^ j) (bitSizes (onesCount w) w).
Proof.
  assert (∀ n p, onesPos p = n → (128 | Zpos p) → sumZ (bitSizes n (Zpos p)) = Zpos p ∧ Forall (λ p, ∃ j, 0 ≤ j ∧ p = 128 * 2 ^ j) (bitSizes n (Zpos p))) as Hn.
  { induction n as [|n IH]; intros p Hp Hd.
    - destruct (clear_lowest p) as [(_&_&E)|(q&_&E&_)]; congruence.
    - pose proof (zerosPos_divide 7 p Hd) as H7. change (Z.of_nat 7) with 7 in H7.
      assert (2 ^ zerosPos p = 128 * 2 ^ (zerosPos p - 7)) as Ep by (change 128 with (2 ^ 7); rewrite <- Z.pow_add_r by lia; f_equal; lia).
      pose proof (lowest_split p) as Hsplit. cbn [bitSizes trailingZeros sumZ foldr].
      assert (∃ j, 0 ≤ j ∧ 2 ^ zerosPos p = 128 * 2 ^ j) as Hj by (exists (zerosPos p - 7); split; [lia|done]).
      destruct (clear_lowest p) as [(E0&E1&E2)|(q&E0&E1&E2)].
      + assert (n = 0%nat) as -> by congruence. simpl. split; [lia|]. by repeat constructor.
      + rewrite E0 in *. destruct (IH q) as [Hs Hf]; [congruence| |split; [unfold sumZ in Hs; lia|by constructor]].
        destruct Hd as [a Ha]. exists (a - 2 ^ (zerosPos p - 7)). lia. }
  intros Hw Hd. destruct w as [|p|p]; [by split|by apply Hn|lia].
Qed.

(** ** Rounds and sectors *)

Section deals.
Context `{InputAPI} `{PieceSizes} `{BitFieldLib} `{MapRange}.
Variable minerID : Z.
Variable Sort : list match_ → list match_.
Variable J : Z.

(** What [sort.Slice] promises, and the answers of the other components that let deals through. *)
Record roundEnv (sp : Z) : Prop := {
  re_J : 0 ≤ J ≤ 50;
  re_size : SectorSizeOf sp = inl (sectorBytes J);
  re_sort l : Sort l ≡ₚ l ∧ StronglySorted (notAfter matchLess) (Sort l);
  re_send num evt : SendErr num evt = None
}.

(** Every piece that waits fits the end of the data of the open sector without padding; a new sector is such. *)
Definition aligned (m : Sealing) (o : openSector) : Prop := ∀ cid ptr pp, waits m cid ptr pp → (pSize pp | used o).

Lemma updateInput_round sp m sid o u0 : roundEnv sp → inputOk J m → openSectors m !! sid = Some o → used o = 127 * u0 → 0 ≤ u0 ≤ 2 ^ J →
  aligned m o → assignedPieces m !! sid = None →
  ∃ m1 u L, updateInput minerID Sort sp m = (m1, Ret tt) ∧ roundInv J m sid o u0 m1 u L [].
Proof.
  intros [HJ Hsz Hsort Hsend] Hok Ho Hu Hu0 Hal Hno.
  destruct (allMatches_good J HJ m (rangeOf (pendingPieces m)) Hok) as (ms&ta&Ems&Hgood&Hcomplete); [by intros cid ptr; rewrite rangeOf_elem|].
  destruct (Hsort ms) as [Hperm Hsorted]. rewrite <- Hperm in Hgood.
  destruct (assignMatches_inv J HJ (λ num, Hsend num _) m Hok sid o u0 (Sort ms) m u0 [] ta Hgood) as (m1&u&L&rest&Erun&Hinv); [|done| |].
  - intros mt Hin Hs. rewrite Forall_forall in Hgood. destruct (Hgood mt Hin) as (ptr&pp&o'&Hw&Hsize&Ho'&->).
    rewrite Hs, Ho in Ho'. injection Ho' as <-. rewrite (availIn_units J HJ o u0) by done.
    destruct (waits_size J m _ _ _ Hok Hw) as (k&Hk&E&_&Hpos&_). rewrite E, Z.mul_mod_distr_l by lia.
    specialize (Hal _ _ _ Hw). rewrite Hu, E in Hal. apply Z.mul_divide_cancel_l in Hal; [|lia].
    assert ((2 ^ J - u0) mod 2 ^ k = 0) as ->; [|lia]. apply Z.mod_divide; [lia|]. apply Z.divide_sub_r; [|done]. apply pow2_divide; [lia..|]. apply Z.pow_le_mono_r; lia.
  - split; [done|intros ptr pp Hp; exists (assigned pp); destruct pp; done|by rewrite Ho; destruct o; simpl in *; subst|by rewrite Hno|done|apply NoDup_nil_2|set_solver|exact (proj2 Hu0)| |].
    + intros mt Hin Hs. change (endOf m u0 []) with u0. rewrite Forall_forall in Hgood. destruct (Hgood mt Hin) as (ptr&pp&o'&Hw&Hsize&_).
    destruct (waits_size J m _ _ _ Hok Hw) as (k&Hk&_&E&Hpos&_). rewrite Hsize, E. apply up_ge. lia.
    + intros c ptr pp Hw Hf. destruct (decide (pSize pp ≤ 127 * (2 ^ J - u0))) as [Hle|]; [left|right; right; lia].
      rewrite <- (availIn_units J HJ o u0) in Hle by done. destruct (Hcomplete c ptr pp sid o) as (mt&Hmt&?); [by rewrite rangeOf_elem; apply Hw|done..|].
      exists mt. by rewrite Hperm.
  - unfold updateInput, mbind, io_bind, ofSum. rewrite Hsz. unfold gets, lift. cbn [id]. rewrite Ems. rewrite Erun.
    case_decide; [by exists m1, u, L|]. pose proof (framed_tryGetDealSector minerID sp m1) as Hf. unfold tryIt.
    destruct (tryGetDealSector minerID sp m1) as [m2 r]. destruct Hf as (F1&F2&F3&F4&F5).
    assert (roundInv J m sid o u0 m2 u L []) as Hinv2.
    { destruct Hinv as [R1 R2 R3 R4 R5 R6 R7 R8 R9 R10]. split; rewrite ?F1, ?F2, ?F3, ?F4; done. }
    destruct r; [exists m2, u, L; by split..|done].
Qed.

(** *** Writing what was assigned *)

Lemma Padded_units n : 0 ≤ n → Padded (127 * n) = 128 * n.
Proof. intros Hn. rewrite Padded_law by lia. rewrite Z.mul_comm, Z.div_mul by lia. lia. Qed.
Lemma Unpadded_units n : 0 ≤ n → Unpadded (128 * n) = 127 * n.
Proof. intros Hn. rewrite Unpadded_law by lia. rewrite Z.mul_comm, Z.div_mul by lia. lia. Qed.

Lemma foldl_sum l : ∀ acc, Forall (λ p, 0 ≤ p) l → 0 ≤ acc → acc + sumZ l < 2 ^ 64 → foldl (λ s p, wrapU64 (s + p)) acc l = acc + sumZ l.
Proof.
  induction l as [|p l IH]; intros acc Hl Ha Hs; cbn [foldl sumZ foldr] in *; [lia|]. apply Forall_cons in Hl as [Hp Hl].
  assert (0 ≤ foldr Z.add 0 l) by (clear -Hl; induction Hl; simpl; lia). unfold sumZ in *.
  unfold wrapU64 at 2. rewrite Z.mod_small by lia. rewrite IH; [lia|done|lia|lia].
Qed.

(** The padding between the end of the data and a piece, in units. *)
Lemma padding_units r k : 0 ≤ k ≤ J → 0 ≤ J ≤ 50 → 0 ≤ r → ∃ pads, GetRequiredPadding (128 * r) (128 * 2 ^ k) = Ret (pads, 128 * ((- r) mod 2 ^ k)) ∧
  sumZ pads = 128 * ((- r) mod 2 ^ k) ∧ Forall (λ p, ∃ j, 0 ≤ j ∧ p = 128 * 2 ^ j) pads.
Proof.
  intros Hk HJ Hr. pose proof (Z.pow_pos_nonneg 2 k ltac:(lia) ltac:(lia)) as Hpos. pose proof (Z.mod_pos_bound (- r) (2 ^ k) Hpos) as Hb.
  assert (2 ^ k ≤ 2 ^ 50) as H50 by (apply Z.pow_le_mono_r; lia).
  unfold GetRequiredPadding. rewrite decide_False by lia.
  assert (wrapU64 (- (128 * r)) mod (128 * 2 ^ k) = 128 * ((- r) mod 2 ^ k)) as ->.
  { unfold wrapU64. rewrite <- Z.mul_mod_distr_l by lia. replace (128 * - r) with (- (128 * r)) by lia. rewrite Z.mod_mod_divide; [done|].
    change 128 with (2 ^ 7). rewrite <- Z.pow_add_r by lia. apply pow2_divide; [lia..|]. apply Z.pow_le_mono_r; lia. }
  destruct (bitSizes_sum (128 * ((- r) mod 2 ^ k))) as [Hs Hf]; [lia|by exists ((- r) mod 2 ^ k); lia|].
  eexists. split; [|split; [exact Hs|exact Hf]]. do 2 f_equal. rewrite foldl_sum; [lia| |lia|lia].
  eapply Forall_impl; [exact Hf|]. intros p (j&Hj&->). pose proof (Z.pow_pos_nonneg 2 j). lia.
Qed.

(** A sealer that writes what it is given. *)
Record sealerOk (sid : SectorID) (m : Sealing) : Prop := {
  so_null existing size : AddPiece sid existing size (nullData size) = inl (mkPieceInfo (Padded size) (ZeroPieceCommitment size));
  so_deal cid ptr pp existing : waits m cid ptr pp → AddPiece sid existing (pSize pp) (pData pp) = inl (mkPieceInfo (Padded (pSize pp)) (ProposalPieceCID (Proposal (pDeal pp))))
}.

Definition padPiece (p : Z) : SectorPiece := mkPiece (mkPieceInfo (Padded (Unpadded p)) (ZeroPieceCommitment (Unpadded p))) None.

Lemma addPads_run m0 ptr num pads : sealerOk (minerSectorID minerID num) m0 → ∀ w m,
  addPads minerID ptr num pads w m = (m, Ret (Some (mkWritten (wOffset w) (wSizes w ++ map Unpadded pads) (wNew w ++ map padPiece pads)))).
Proof.
  intros Hso. induction pads as [|p pads IH]; intros w m; cbn [addPads map]; [by rewrite !app_nil_r; destruct w|].
  rewrite (so_null _ _ Hso). cbn [PieceCID]. rewrite decide_False by auto. rewrite IH. cbn [wOffset wSizes wNew]. by rewrite <- !app_assoc.
Qed.

Definition answered (ptr : nat) (pp : pendingPiece) (r : pieceAcceptResp) (m : Sealing) : Sealing :=
  mkSealing (openSectors m) (sectorTimers m) (<[ptr := mkPending (Some r) (pSize pp) (pDeal pp) (pData pp) (assigned pp)]> (pieces m))
    (pendingPieces m) (assignedPieces m) (nextDealSector m) (available m) (sectorStats m) (numStore m) (sent m).

(** An assigned piece that can be written: its address, and no answer yet. *)
Record writable (sid : SectorID) (m : Sealing) (t : Cid * nat * pendingPiece) : Prop := {
  wr_ptr : pendingPieces m !! t.1.1 = Some t.1.2;
  wr_piece : pieces m !! t.1.2 = Some t.2;
  wr_resp : resp t.2 = None;
  wr_size : ∃ k, 0 ≤ k ≤ J ∧ pSize t.2 = 127 * 2 ^ k;
  wr_add existing : AddPiece sid existing (pSize t.2) (pData t.2) = inl (mkPieceInfo (Padded (pSize t.2)) (ProposalPieceCID (Proposal (pDeal t.2))))
}.

Definition dataOf (l : list SectorPiece) : Z := sumZ (map (λ p, Unpadded (Size (Piece p))) l).

Lemma sumZ_app l l' : sumZ (l ++ l') = sumZ l + sumZ l'.
Proof. unfold sumZ. induction l as [|x l IH]; simpl; lia. Qed.

Lemma dataOf_pads pads : Forall (λ p, ∃ j, 0 ≤ j ∧ p = 128 * 2 ^ j) pads → 128 * dataOf (map padPiece pads) = 127 * sumZ pads.
Proof.
  unfold dataOf, sumZ. induction 1 as [|p pads (j&Hj&->) Hf IH]; [done|]. cbn [map foldr padPiece Piece Size]. pose proof (Z.pow_pos_nonneg 2 j).
  rewrite Unpadded_units, Padded_units, Unpadded_units by lia. lia.
Qed.

Lemma addDeal_run m0 sector i t r w m : 0 ≤ J ≤ 50 → sealerOk (minerSectorID minerID (SectorNumber sector)) m0 →
  writable (minerSectorID minerID (SectorNumber sector)) m t → wOffset w = 127 * r → 0 ≤ r → place r (pSize t.2 / 127) ≤ 2 ^ J →
  Z.of_nat (length (dealIDs sector)) + (Z.of_nat i + 1) ≤ getDealPerSectorLimit (sectorBytes J) →
  ∃ w', addDeal minerID sector (sectorBytes J) i t.1.1 w m =
      (answered t.1.2 t.2 (mkResp (SectorNumber sector) (127 * up r (pSize t.2 / 127)) None) m, Ret (Some w')) ∧
    wOffset w' = 127 * place r (pSize t.2 / 127) ∧ omap DealInfo (wNew w') = omap DealInfo (wNew w) ++ [pDeal t.2] ∧
    dataOf (wNew w') = dataOf (wNew w) + 127 * (place r (pSize t.2 / 127) - r).
Proof.
  destruct t as [[cid ptr] pp]. intros HJ Hso [Hp Hpp Hresp (k&Hk&Hsize) Hadd] Hoff Hr Hfit Hcount. cbn [fst snd] in *.
  pose proof (Z.pow_pos_nonneg 2 k ltac:(lia) ltac:(lia)) as Hkpos. assert (pSize pp / 127 = 2 ^ k) as Eu by (rewrite Hsize, Z.mul_comm; by apply Z.div_mul).
  rewrite Eu in *. destruct (padding_units r k Hk HJ Hr) as (pads&Epads&Hsum&Hpads). pose proof (Z.mod_pos_bound (- r) (2 ^ k) Hkpos) as Hb.
  assert (place r (2 ^ k) = r + (- r) mod 2 ^ k + 2 ^ k) as Eplace by done. pose proof (units_bound J HJ) as HB. destruct (sectorBytes_units J HJ) as [Esec _].
  unfold addDeal, mbind, io_bind, gets. cbn [id]. rewrite Hp. unfold pieceOf. rewrite Hp, Hpp. rewrite decide_False by lia.
  rewrite Hoff, Hsize, !Padded_units by lia. unfold lift. rewrite Epads, Esec. unfold wrapU64. rewrite decide_False by (rewrite Z.mod_small; lia).
  rewrite (addPads_run m0 ptr _ pads Hso). cbn [wOffset wSizes wNew]. rewrite <- Hsize, Hadd. cbn [PieceCID]. rewrite decide_False by auto.
  unfold accepted. rewrite Hpp, Hresp. rewrite Unpadded_units by lia.
  rewrite (Z.mod_small (127 * r + _)) by lia. replace (127 * r + 127 * ((- r) mod 2 ^ k)) with (127 * up r (2 ^ k)) by (unfold up; lia).
  eexists. split; [reflexivity|]. cbn [wOffset wNew]. split_and!.
  - unfold wrapU64. rewrite Z.mod_small; rewrite Hsize; unfold up; lia.
  - rewrite !omap_app. simpl. rewrite <- app_assoc. f_equal. assert (omap DealInfo (map padPiece pads) = []) as -> by (clear; induction pads; done). done.
  - unfold dataOf. rewrite !map_app, !sumZ_app. cbn [map Piece Size sumZ foldr]. rewrite Hsize, Padded_units, Unpadded_units by lia.
    pose proof (dataOf_pads pads Hpads) as Hd. unfold dataOf in Hd. lia.
Qed.

Lemma place_ge r s : 0 < s → r ≤ place r s.
Proof. intros Hs. unfold place. pose proof (up_ge r s Hs). lia. Qed.

Lemma foldl_place_ge l : ∀ r, Forall (λ s, 0 < s) l → r ≤ foldl place r l.
Proof. induction l as [|s l IH]; intros r Hl; simpl; [done|]. apply Forall_cons in Hl as [Hs Hl]. pose proof (place_ge r s Hs). specialize (IH (place r s) Hl). lia. Qed.

Lemma addDeals_run m0 sector ts : let num := SectorNumber sector in let sid := minerSectorID minerID num in
  0 ≤ J ≤ 50 → sealerOk sid m0 → ∀ i r w m, Forall (writable sid m) ts → NoDup (map (λ t, t.1.2) ts) → wOffset w = 127 * r → 0 ≤ r →
  foldl place r (map (λ t, pSize t.2 / 127) ts) ≤ 2 ^ J →
  Z.of_nat (length (dealIDs sector)) + Z.of_nat i + Z.of_nat (length ts) ≤ getDealPerSectorLimit (sectorBytes J) →
  ∃ m' w', addDeals minerID sector (sectorBytes J) i (map (λ t, t.1.1) ts) w m = (m', Ret (Some w')) ∧
    sent m' = sent m ∧ assignedPieces m' = assignedPieces m ∧
    omap DealInfo (wNew w') = omap DealInfo (wNew w) ++ map (λ t, pDeal t.2) ts ∧
    dataOf (wNew w') = dataOf (wNew w) + 127 * (foldl place r (map (λ t, pSize t.2 / 127) ts) - r) ∧
    (∀ ptr, ptr ∉ map (λ t, t.1.2) ts → pieces m' !! ptr = pieces m !! ptr) ∧
    ∀ t, t ∈ ts → ∃ off, (pSize t.2 | off) ∧
      pieces m' !! t.1.2 = Some (mkPending (Some (mkResp num off None)) (pSize t.2) (pDeal t.2) (pData t.2) (assigned t.2)).
Proof.
  intros num sid HJ Hso. induction ts as [|t ts IH]; intros i r w m Hw Hnd Hoff Hr Hfit Hcount.
  { exists m, w. simpl. rewrite app_nil_r. split_and!; [done..|lia|done|set_solver]. }
  apply Forall_cons in Hw as [Ht Hw]. cbn [map] in Hnd. apply NoDup_cons in Hnd as [Hnot Hnd]. cbn [map foldl length] in *.
  destruct (wr_size _ _ _ Ht) as (k&Hk&Hsize). pose proof (Z.pow_pos_nonneg 2 k ltac:(lia) ltac:(lia)) as Hkpos.
  assert (pSize t.2 / 127 = 2 ^ k) as Eu by (rewrite Hsize, Z.mul_comm; by apply Z.div_mul).
  assert (Forall (λ s, 0 < s) (map (λ t, pSize t.2 / 127) ts)) as Hpos.
  { apply Forall_fmap. eapply Forall_impl; [exact Hw|]. intros t' Ht'. destruct (wr_size _ _ _ Ht') as (k'&Hk'&E'). cbn [compose]. rewrite E'.
    rewrite Z.mul_comm, Z.div_mul by lia. apply Z.pow_pos_nonneg; lia. }
  pose proof (foldl_place_ge _ (place r (pSize t.2 / 127)) Hpos) as Hge.
  destruct (addDeal_run m0 sector i t r w m HJ Hso Ht Hoff Hr) as (w1&E1&Hoff1&Hnew1&Hdata1); [lia|lia|].
  set (m1 := answered _ _ _ m) in E1. assert (0 ≤ place r (pSize t.2 / 127)) as Hr1 by (pose proof (place_ge r (pSize t.2 / 127)); lia).
  destruct (IH (S i) (place r (pSize t.2 / 127)) w1 m1) as (m'&w'&E&Hs&Ha&Hn&Hd&Hout&Hin); [|done|done|done|done|lia|].
  { rewrite Forall_forall in *. intros t' Ht'. destruct (Hw t' Ht') as [W1 W2 W3 W4 W5]. split; [done| |done..].
    unfold m1, answered. cbn [pieces]. rewrite list_lookup_insert_ne; [done|]. intros E. apply Hnot. rewrite E. by apply (list_elem_of_fmap_2 (λ t, t.1.2)). }
  exists m', w'. cbn [addDeals]. unfold mbind at 1, io_bind at 1. rewrite E1, E.
  split_and!; [done|done|done|by rewrite Hn, Hnew1, <- app_assoc|lia| |].
  - intros ptr Hptr. rewrite Hout by set_solver. unfold m1, answered. cbn [pieces]. apply list_lookup_insert_ne. set_solver.
  - intros t' [->|Ht']%elem_of_cons; [|by apply Hin]. exists (127 * up r (pSize t.2 / 127)). split.
    + rewrite Eu, Hsize. apply Z.mul_divide_mono_l. by apply up_divide.
    + rewrite Hout by done. unfold m1, answered. cbn [pieces]. apply list_lookup_insert_eq. eapply lookup_lt_Some, (wr_piece _ _ _ Ht).
Qed.

(** *** From a round to the sector *)

Lemma list_choose {A B} (P : A → B → Prop) l : (∀ a, a ∈ l → ∃ b, P a b) → ∃ l', Forall2 P l l'.
Proof.
  induction l as [|a l IH]; intros Hl; [by exists []|]. destruct (Hl a) as [b Hb]; [left|]. destruct IH as [l' Hl']; [intros a' Ha'; apply Hl; by right|].
  exists (b :: l'). by constructor.
Qed.

(** The pieces that a round assigned to a sector, ready to be written. *)
Lemma round_writable m sid o u0 m1 u L : inputOk J m → sealerOk sid m → roundInv J m sid o u0 m1 u L [] →
  ∃ ts, map (λ t, t.1.1) ts = L ∧ Forall (writable sid m1) ts ∧ NoDup (map (λ t, t.1.2) ts) ∧
    Forall (λ t, ∃ pp, waits m t.1.1 t.1.2 pp ∧ t.2 = withAssigned pp true) ts ∧ map (λ t, pSize t.2 / 127) ts = map (unitsIn m) L.
Proof.
  intros Hok Hso Hri. destruct (list_choose (λ c t, t.1.1 = c ∧ ∃ pp, waits m t.1.1 t.1.2 pp ∧ t.2 = withAssigned pp true ∧ pieces m1 !! t.1.2 = Some t.2) L) as [ts Hts].
  { intros c Hc. destruct (ri_taken _ _ _ _ _ _ _ _ _ Hri c Hc) as (ptr&pp&Hw&Hp). exists (c, ptr, withAssigned pp true). simpl. eauto. }
  assert (map (λ t, t.1.1) ts = L) as EL by (clear -Hts; induction Hts as [|? ? ? ? [<- _] _ IH]; simpl; by f_equal).
  assert (Forall (λ t, ∃ pp, waits m t.1.1 t.1.2 pp ∧ t.2 = withAssigned pp true ∧ pieces m1 !! t.1.2 = Some t.2) ts) as Hall
    by (clear -Hts; induction Hts as [|? ? ? ? [_ ?] _ IH]; by constructor).
  exists ts. split_and!; [done| | | |].
  - eapply Forall_impl; [exact Hall|]. intros t (pp&Hw&Et&Hp). destruct (waits_size J m _ _ _ Hok Hw) as (k&Hk&Hsz&_&_&Hresp).
    split; [rewrite (ri_pending _ _ _ _ _ _ _ _ _ Hri); apply Hw|done|by rewrite Et|exists k; by rewrite Et|]. intros ex. rewrite Et. by apply (so_deal _ _ Hso _ _ _ ex Hw).
  - pose proof (ri_nodup _ _ _ _ _ _ _ _ _ Hri) as Hnd. rewrite <- EL in Hnd. clear -Hnd Hall Hok.
    induction ts as [|t ts IH]; [apply NoDup_nil_2|]. apply Forall_cons in Hall as [(pp&Hw&_) Hall]. cbn [map] in *. apply NoDup_cons in Hnd as [Hnot Hnd].
    apply NoDup_cons. split; [|by apply IH]. intros (t'&E&Ht')%list_elem_of_fmap. rewrite Forall_forall in Hall. destruct (Hall t' Ht') as (pp'&Hw'&_).
    apply Hnot, list_elem_of_fmap. exists t'. split; [|done]. apply (in_inj J m Hok _ _ t.1.2); [apply Hw|]. rewrite E. apply Hw'.
  - eapply Forall_impl; [exact Hall|]. naive_solver.
  - rewrite <- EL. clear -Hall. induction Hall as [|t ts (pp&(Hp&Hpp&_)&Et&_) _ IH]; [done|]. cbn [map]. f_equal; [|done].
    unfold unitsIn. by rewrite Hp, Et; simpl; rewrite Hpp.
Qed.

Lemma handleAddPiece_run m0 m sector ts r : let num := SectorNumber sector in let sid := minerSectorID minerID num in
  roundEnv (SectorType sector) → sealerOk sid m0 → default [] (assignedPieces m !! sid) = map (λ t, t.1.1) ts →
  Forall (writable sid m) ts → NoDup (map (λ t, t.1.2) ts) → usedBy sector = 127 * r → 0 ≤ r →
  foldl place r (map (λ t, pSize t.2 / 127) ts) ≤ 2 ^ J →
  Z.of_nat (length (dealIDs sector)) + Z.of_nat (length ts) ≤ getDealPerSectorLimit (sectorBytes J) →
  ∃ m' news, handleAddPiece minerID sector m = (m', Ret tt) ∧ sent m' = sent m ++ [(num, SectorPieceAdded news)] ∧
    omap DealInfo news = map (λ t, pDeal t.2) ts ∧ dataOf news = 127 * (foldl place r (map (λ t, pSize t.2 / 127) ts) - r) ∧
    ∀ t, t ∈ ts → ∃ off, (pSize t.2 | off) ∧
      pieces m' !! t.1.2 = Some (mkPending (Some (mkResp num off None)) (pSize t.2) (pDeal t.2) (pData t.2) (assigned t.2)).
Proof.
  intros num sid Henv Hso Hlist Hwr Hnd Hu Hr Hfit Hcount. unfold handleAddPiece, ofSum, mbind, io_bind, gets. rewrite (re_size _ Henv). cbn [id].
  fold num sid. destruct (assignedPieces m !! sid) as [pending|] eqn:Ea; simpl in Hlist.
  - set (m1 := m {{ assignedPieces := delete sid (assignedPieces m) }}). set (w := mkWritten (usedBy sector) _ []).
    destruct (addDeals_run m0 sector ts (re_J _ Henv) Hso 0 r w m1) as (m2&w'&E&Hs&_&Hn&Hd&_&Hin); [|done|done|done|done|lia|].
    { eapply Forall_impl; [exact Hwr|]. intros t [W1 W2 W3 W4 W5]. by split. }
    unfold modify. fold m1. rewrite Hlist, E. unfold Send. rewrite (re_send _ Henv). unfold modify. eexists _, (wNew w'). split; [reflexivity|].
    split_and!; [by change (sent m2 ++ [(num, SectorPieceAdded (wNew w'))] = sent m ++ [(num, SectorPieceAdded (wNew w'))]); rewrite Hs|exact Hn|exact Hd|exact Hin].
  - destruct ts; [|done]. unfold Send. rewrite (re_send _ Henv). unfold modify. eexists _, []. split; [reflexivity|]. split_and!; [done|done|change (0 = 127 * (r - r)); lia|set_solver].
Qed.

Lemma taken_bound m sid o u0 m1 u L : roundInv J m sid o u0 m1 u L [] → (length L ≤ size (pendingPieces m))%nat.
Proof.
  intros Hri. rewrite <- size_dom. unfold size, set_size. apply submseteq_length, NoDup_submseteq; [apply (ri_nodup _ _ _ _ _ _ _ _ _ Hri)|].
  intros c (ptr&pp&Hw&_)%(ri_taken _ _ _ _ _ _ _ _ _ Hri). rewrite elem_of_elements, elem_of_dom. destruct Hw. eauto.
Qed.

(** C37. Waiting pieces of valid sizes that are not yet answered, and an open sector at whose end they need no padding,
    such as a new one, with no piece assigned yet, whose account is what it holds, and whose limit of deals all of them
    keep.  The sends succeed and the sealer writes what it is given.  A round of matching
    returns, and when the sector then adds the pieces that were assigned to it, all of them are written:
    each deal gets the sector and an offset that is a multiple of its size, the event for the sector has
    exactly these deals, in their order, and with the padding between them the data fits into the sector.
    The round is not idle: a piece that could live as long as its deal in this sector and that no sector
    has got is larger than the space that is left in the account of the sector. *)
Theorem new_sector_takes_its_deals sp sector m o u0 : let num := SectorNumber sector in let sid := minerSectorID minerID num in
  roundEnv sp → SectorType sector = sp → inputOk J m → sealerOk sid m → openSectors m !! sid = Some o →
  used o = usedBy sector → used o = 127 * u0 → 0 ≤ u0 ≤ 2 ^ J → aligned m o → assignedPieces m !! sid = None →
  Z.of_nat (length (dealIDs sector)) + Z.of_nat (size (pendingPieces m)) ≤ getDealPerSectorLimit (sectorBytes J) →
  ∃ m1 m2 o1 L news,
    updateInput minerID Sort sp m = (m1, Ret tt) ∧ handleAddPiece minerID sector m1 = (m2, Ret tt) ∧
    default [] (assignedPieces m1 !! sid) = L ∧ openSectors m1 !! sid = Some o1 ∧
    sent m2 = sent m1 ++ [(num, SectorPieceAdded news)] ∧
    omap (λ c, pendingPieces m !! c ≫= λ ptr, pDeal <$> pieces m !! ptr) L = omap DealInfo news ∧
    usedBy sector + dataOf news ≤ Unpadded (sectorBytes J) ∧
    (∀ c, c ∈ L → ∃ ptr pp off, waits m c ptr pp ∧ (pSize pp | off) ∧
      pieces m2 !! ptr = Some (mkPending (Some (mkResp num off None)) (pSize pp) (pDeal pp) (pData pp) true)) ∧
    (∀ c ptr pp, waits m c ptr pp → dealFitsInLifetime o (EndEpoch (Proposal (pDeal pp))) = inl true →
      pieces m1 !! ptr = Some (withAssigned pp true) ∨ Unpadded (sectorBytes J) - used o1 < pSize pp).
Proof.
  intros num sid Henv Hsp Hok Hso Ho Hused Hu Hu0 Hal Hno Hlimit. pose proof (re_J _ Henv) as HJ.
  destruct (updateInput_round sp m sid o u0 Henv Hok Ho Hu Hu0 Hal Hno) as (m1&u&L&Eup&Hri).
  destruct (round_writable m sid o u0 m1 u L Hok Hso Hri) as (ts&EL&Hwr&Hnd&Hts&Hunits). pose proof (taken_bound _ _ _ _ _ _ _ Hri) as Hlen.
  pose proof (ri_list _ _ _ _ _ _ _ _ _ Hri) as Hlist. pose proof (ri_end _ _ _ _ _ _ _ _ _ Hri) as Hend.
  assert (omap (λ c, pendingPieces m !! c ≫= λ ptr, pDeal <$> pieces m !! ptr) L = map (λ t, pDeal t.2) ts) as Hdeals.
  { rewrite <- EL. clear -Hts. induction Hts as [|t ts (pp&(Hp&Hpp&_)&Et) _ IH]; [done|]. cbn [map omap list_omap]. rewrite Hp. simpl. rewrite Hpp. simpl. by rewrite Et, IH. }
  destruct (handleAddPiece_run m m1 sector ts u0) as (m2&news&Eadd&Hsent&Hnews&Hdata&Hresp);
    [by rewrite Hsp|exact Hso|by rewrite EL|done|done|congruence|lia|by rewrite Hunits| |].
  { rewrite <- EL, length_map in Hlen. lia. }
  exists m1, m2, (mkOpen (127 * u) (number o) (ccUpdate o)), L, news. destruct (sectorBytes_units J HJ) as [_ EJ]. rewrite EJ.
  split_and!; [done|done|done|apply (ri_open _ _ _ _ _ _ _ _ _ Hri)|done|congruence|unfold endOf in Hend; rewrite Hdata, Hunits; lia| |].
  - intros c Hc. rewrite <- EL in Hc. apply list_elem_of_fmap in Hc as (t&->&Ht). rewrite Forall_forall in Hts. destruct (Hts t Ht) as (pp&Hw&Et).
    destruct (Hresp t Ht) as (off&Hoff&Hp). rewrite Et in Hoff, Hp. exists t.1.2, pp, off. by split_and!.
  - intros c ptr pp Hw Hf. destruct (ri_left _ _ _ _ _ _ _ _ _ Hri c ptr pp Hw Hf) as [(mt&Hin&_)|[?|?]]; [set_solver|by left|right; cbn [used]; lia].
Qed.

(** *** Packing *)

Lemma pieceLoop_bitSizes n : ∀ w, pieceLoop n w = map Unpadded (bitSizes n w).
Proof. induction n as [|n IH]; intros w; simpl; [done|]. by rewrite IH. Qed.

Lemma padSector_run sid m sizes : sealerOk sid m → ∀ existing, padSector sid existing sizes = inl (map (λ z, mkPieceInfo (Padded z) (ZeroPieceCommitment z)) sizes).
Proof. intros Hso. induction sizes as [|z sizes IH]; intros ex; simpl; [done|]. rewrite (so_null _ _ Hso). simpl. rewrite decide_False by auto. by rewrite IH. Qed.

Lemma fillers_fill n : 0 ≤ J ≤ 50 → 0 ≤ n ≤ 2 ^ J → sumZ (fillersFromRem (127 * n)) = 127 * n ∧
  Forall (λ z, ∃ j, 0 ≤ j ∧ z = 127 * 2 ^ j) (fillersFromRem (127 * n)).
Proof.
  intros HJ Hn. pose proof (units_bound J HJ) as HB. unfold fillersFromRem. rewrite (Z.mul_comm 127 n), Z.div_mul by lia.
  unfold wrapU64. rewrite Z.mod_small by lia. replace (n * 127 + n) with (128 * n) by lia. rewrite pieceLoop_bitSizes.
  destruct (bitSizes_sum (128 * n)) as [Hs Hf]; [lia|by exists n; lia|]. set (l := bitSizes _ _) in *.
  assert (128 * sumZ (map Unpadded l) = 127 * sumZ l ∧ Forall (λ z, ∃ j, 0 ≤ j ∧ z = 127 * 2 ^ j) (map Unpadded l)) as [Hsum Hall]; [|split; [lia|done]].
  clear -Hf. induction Hf as [|p l (j&Hj&->) _ [IH1 IH2]]; [by split; [|constructor]|]. pose proof (Z.pow_pos_nonneg 2 j). cbn [map]. rewrite Unpadded_units by lia.
  split; [unfold sumZ in *; cbn [foldr]; lia|]. constructor; [by exists j|done].
Qed.

(** C38. Packing a sector to which no piece is assigned any more, when the event is sent and the sealer writes what it is given: the filler pieces are powers of two of zeros, and with
    them the data of the sector is exactly what fits into it; the sector takes no deals any more.  An upgrade that
    got no deal is given up. *)
Theorem packing_fills_sector sector m n : let num := SectorNumber sector in let sid := minerSectorID minerID num in
  roundEnv (SectorType sector) → sealerOk sid m → assignedPieces m !! sid = None → usedBy sector = 127 * n → 0 ≤ n ≤ 2 ^ J →
  ∃ m', handlePacking minerID sector m = (m', Ret tt) ∧ openSectors m' !! sid = None ∧ pieces m' = pieces m ∧
    if bool_decide (State sector = SnapDealsPacking) && negb (hasDeals sector)
    then sent m' = sent m ++ [(num, SectorAbortUpgrade "sector had no deals")]
    else ∃ fillers, sent m' = sent m ++ [(num, SectorPacked fillers)] ∧
      usedBy sector + dataOf (map (λ p, mkPiece p None) fillers) = Unpadded (sectorBytes J) ∧
      Forall (λ p, ∃ j, 0 ≤ j ∧ p = mkPieceInfo (128 * 2 ^ j) (ZeroPieceCommitment (127 * 2 ^ j))) fillers.
Proof.
  intros num sid Henv Hso Hno Hu Hn. pose proof (re_J _ Henv) as HJ. destruct (sectorBytes_units J HJ) as [_ EJ]. pose proof (units_bound J HJ) as HB.
  unfold handlePacking, mbind, io_bind, gets. cbn [id]. fold num sid. rewrite Hno. cbn [default refuseAssigned mret io_ret]. unfold modify.
  set (m1 := m {{ openSectors := _; assignedPieces := _ }}). assert (openSectors m1 !! sid = None) as Hdel by apply lookup_delete_eq.
  destruct (bool_decide _ && _); unfold Send.
  { rewrite (re_send _ Henv). unfold modify. eexists. by split. }
  unfold ofSum. rewrite (re_size _ Henv), EJ, Hu. rewrite decide_False by lia. unfold wrapU64. rewrite Z.mod_small by lia.
  replace (127 * 2 ^ J - 127 * n) with (127 * (2 ^ J - n)) by lia. destruct (fillers_fill (2 ^ J - n) HJ ltac:(lia)) as [Hsum Hall].
  unfold wrapErr. rewrite (padSector_run sid m _ Hso). rewrite (re_send _ Henv). unfold modify. eexists. split; [reflexivity|]. split; [exact Hdel|]. split; [done|].
  eexists. split; [reflexivity|]. set (l := fillersFromRem _) in *. clearbody l. split.
  - assert (dataOf (map (λ p, mkPiece p None) (map (λ z, mkPieceInfo (Padded z) (ZeroPieceCommitment z)) l)) = sumZ l) as ->; [|lia].
    clear -Hall. unfold dataOf, sumZ. induction Hall as [|z l (j&Hj&->) _ IH]; [done|]. pose proof (Z.pow_pos_nonneg 2 j).
    cbn [map foldr Piece Size]. by rewrite IH, Padded_units, Unpadded_units by lia.
  - clear -Hall. induction Hall as [|z l (j&Hj&->) _ IH]; simpl; constructor; [|done]. exists j. split; [done|]. pose proof (Z.pow_pos_nonneg 2 j). by rewrite Padded_units by lia.
Qed.

(** *** The sector that is upgraded *)

(** A sector that can be upgraded, with its expiration and its pledge. *)
Definition upgradable (s : SectorID) (e p : Z) : Prop := StateSectorGetInfo s.2 = inl (e, p) ∧ slowChecks s.2 = true.

Record bestOf (target : Z) (seen : list SectorID) (b : best) : Prop := {
  bo_from : b = mkBest 0 TotalFilecoinInt (0, 0) ∨ candidate b ∈ seen ∧ upgradable (candidate b) (bestExpiration b) (bestPledge b);
  bo_below : bestExpiration b < target → ∀ s e p, s ∈ seen → upgradable s e p → e ≤ bestExpiration b;
  bo_above : target ≤ bestExpiration b → ∀ s e p, s ∈ seen → upgradable s e p → target ≤ e → bestPledge b ≤ p
}.

Lemma betterOf_best target seen b s : 0 < target → bestOf target seen b → bestOf target (seen ++ [s]) (betterOf target b s).
Proof.
  intros Ht [Hfrom Hbelow Habove]. unfold betterOf.
  assert (∀ s' e p, s' ∈ seen ++ [s] → upgradable s' e p → s' ∈ seen ∨ s' = s) as Hcases by (intros s' e p Hin _; set_solver).
  assert (b = mkBest 0 TotalFilecoinInt (0, 0) ∨ candidate b ∈ seen ++ [s] ∧ upgradable (candidate b) (bestExpiration b) (bestPledge b)) as Hkeep
    by (destruct Hfrom as [?|[? ?]]; [by left|right; split; [set_solver|done]]).
  destruct (StateSectorGetInfo s.2) as [[e p]|err] eqn:Ei.
  2: { split; [done|intros Hb s' e p Hin Hup|intros Hb s' e p Hin Hup];
       (destruct (Hcases s' e p Hin Hup) as [?| ->]; [eauto|destruct Hup as [Hup _]; congruence]). }
  assert (∀ e' p', upgradable s e' p' → e' = e ∧ p' = p ∧ slowChecks s.2 = true) as Hs by (intros e' p' [E ?]; rewrite Ei in E; by injection E as -> ->).
  case_decide as Hlt.
  - destruct (bool_decide (bestExpiration b < e) && slowChecks s.2) eqn:Ec.
    + apply andb_prop in Ec as [Hgt%bool_decide_eq_true Hslow]. split; cbn [bestExpiration bestPledge candidate].
      * right. split; [set_solver|by split].
      * intros _ s' e' p' Hin Hup. destruct (Hcases s' e' p' Hin Hup) as [Hin'| ->]; [specialize (Hbelow Hlt s' e' p' Hin' Hup); lia|destruct (Hs _ _ Hup); lia].
      * intros _ s' e' p' Hin Hup Hte. destruct (Hcases s' e' p' Hin Hup) as [Hin'| ->]; [specialize (Hbelow Hlt s' e' p' Hin' Hup); lia|destruct (Hs _ _ Hup); lia].
    + split; [done| |lia]. intros _ s' e' p' Hin Hup. destruct (Hcases s' e' p' Hin Hup) as [Hin'| ->]; [by apply (Hbelow Hlt s' e' p')|].
      destruct (Hs _ _ Hup) as (->&_&Hslow). rewrite Hslow, andb_true_r in Ec. apply bool_decide_eq_false in Ec. lia.
  - destruct (bool_decide (target ≤ e) && bool_decide (p < bestPledge b) && slowChecks s.2) eqn:Ec.
    + apply andb_prop in Ec as [[Hte%bool_decide_eq_true Hp%bool_decide_eq_true]%andb_prop Hslow]. split; cbn [bestExpiration bestPledge candidate]; [right; split; [set_solver|by split]|lia|].
      intros _ s' e' p' Hin Hup Hte'. destruct (Hcases s' e' p' Hin Hup) as [Hin'| ->]; [specialize (Habove ltac:(lia) s' e' p' Hin' Hup Hte'); lia|destruct (Hs _ _ Hup); lia].
    + split; [done|lia|]. intros Hb s' e' p' Hin Hup Hte'. destruct (Hcases s' e' p' Hin Hup) as [Hin'| ->]; [by apply (Habove Hb s' e' p')|].
      destruct (Hs _ _ Hup) as (->&->&Hslow). rewrite Hslow, andb_true_r, bool_decide_true in Ec by done. apply bool_decide_eq_false in Ec. lia.
Qed.

Lemma foldl_best target l : ∀ seen b, 0 < target → bestOf target seen b → bestOf target (seen ++ l) (foldl (betterOf target) b l).
Proof.
  induction l as [|s l IH]; intros seen b Ht Hb; simpl; [by rewrite app_nil_r|]. replace (seen ++ s :: l) with ((seen ++ [s]) ++ l) by (by rewrite <- app_assoc).
  apply IH; [done|]. by apply betterOf_best.
Qed.

(** Whatever the order in which the available sectors are looked at, the upgrade takes an active one that lives
    long enough: of those that reach the target the one with the least pledge, and when none reaches it the
    one that lives longest; it is taken from the available ones and told to start.  No sector is upgraded only
    when no active one lives long enough. *)
Theorem maybeUpgradeSector_best sp cfg m ssize minExp target : SectorSizeOf sp = inl ssize →
  calcTargetExpiration ssize cfg m = inl (minExp, target) → 0 < minExp ≤ target → available m ≠ ∅ → (∀ num evt, SendErr num evt = None) →
  (∃ c e p m', maybeUpgradeSector sp cfg m = (m', Ret true) ∧ is_Some (available m !! c) ∧ upgradable c e p ∧ minExp ≤ e ∧
     available m' = delete c (available m) ∧ nextDealSector m' = Some c.2 ∧ sent m' = sent m ++ [(c.2, SectorStartCCUpdate)] ∧
     ∀ s e' p', is_Some (available m !! s) → upgradable s e' p' → if decide (e < target) then e' ≤ e else target ≤ e' → p ≤ p') ∨
  (maybeUpgradeSector sp cfg m = (m, Ret false) ∧ ∀ s e p, is_Some (available m !! s) → upgradable s e p → e < minExp).
Proof.
  intros Hsz Hcalc [Hmin Htarget] Hav Hsend. unfold maybeUpgradeSector, mbind, io_bind, gets. rewrite decide_False by done.
  unfold ofSum, wrapErr. rewrite Hsz. cbn [id]. rewrite Hcalc. cbv zeta.
  assert (∀ s, s ∈ map fst (rangeOf (available m)) ↔ is_Some (available m !! s)) as Hin.
  { intros s. rewrite list_elem_of_fmap. split; [intros ([s' []]&->&Hr%rangeOf_elem); eauto|]. intros [x Hx]. exists (s, x). split; [done|]. by apply rangeOf_elem. }
  assert (bestOf target (map fst (rangeOf (available m))) (foldl (betterOf target) (mkBest 0 TotalFilecoinInt (0, 0)) (map fst (rangeOf (available m))))) as Hbest.
  { apply (foldl_best target _ []); [lia|]. split; [by left|set_solver|set_solver]. }
  destruct (foldl _ _ _) as [e p c]. destruct Hbest as [Hfrom Hbelow Habove]. cbn [bestExpiration bestPledge candidate] in *. case_decide as Hlt.
  - right. split; [done|]. intros s e' p' Hs Hup. apply Hin in Hs. specialize (Hbelow ltac:(lia) s e' p' Hs Hup). lia.
  - left. destruct Hfrom as [[= -> -> ->]|[Hc Hup]]; [lia|]. exists c, e, p. unfold modify, Send. rewrite Hsend. unfold modify. eexists.
    split; [reflexivity|]. split; [by apply Hin|]. split; [done|]. split; [lia|]. split_and!; [done..|]. intros s e' p' Hs Hup'. apply Hin in Hs.
    case_decide; [by apply (Hbelow ltac:(lia) s e' p')|]. intros Hte. by apply (Habove ltac:(lia) s e' p').
Qed.
End deals.

(** ** A sector of eight units *)

Module InputExamples.
Import NumberExamples.
#[local] Existing Instance testBits.
#[local] Existing Instance inOrderOfKeys.
#[local] Existing Instance pieceSizes.

Definition testConfig : InputConfig := mkInputConfig (mkConfig 2 2 true) false 0 0 0 true 1000 10.

(** [AddPiece] answers with the data as the piece CID, and fails for the data "bad". *)
Definition testAPI (sendErr : Z → event → option string) : InputAPI := {|
  SectorSizeOf _ := inl 1024;
  currentSealProof := inl 8;
  ProposalCid p := inl (ProposalRest p);
  StateSectorGetInfo n := inl (1000 + n, 50 - n);
  chainHeight := inl 100;
  minerPartitions := inl [inl [λ n, inl (bool_decide (n < 100))]];
  AddPiece _ _ size data := if decide (data = "bad") then inr "disk full" else inl (mkPieceInfo (Padded size) data);
  ZeroPieceCommitment _ := "zero";
  nullData _ := "zero";
  PaddedSize z := z;
  StateMinerAllocated := inl (Some ∅);
  numFault _ := None;
  NewSector _ := None;
  DealDurationBounds := (180, 1600);
  BlockDelaySecs := 30;
  GetSectorInfo _ := inr "not found";
  DealMinDuration := 180;
  SendErr := sendErr;
  getConfig := inl testConfig
|}.
Definition goodAPI : InputAPI := testAPI (λ _ _, None).
#[local] Existing Instance goodAPI.

Definition dealOf (c : string) : PieceDealInfo := mkDealInfo None 1 (mkProposal c 500 900 c) false.
Definition pieceOfUnits (c : string) (units : Z) : pendingPiece := mkPending None (127 * units) (dealOf c) c false.

Definition sectorWith (units : list Z) : SectorInfo :=
  zeroSector {{ SectorNumber := 5; SectorType := 8; Pieces := map (λ u, mkPiece (mkPieceInfo (128 * u) "p") None) units }}.

(** Sector 5 is open with [used] units; the pieces are named a, b, c and d. *)
Definition inputWith (used : Z) (units : list Z) : Sealing :=
  mkSealing {[ (1, 5) := mkOpen (127 * used) 5 false ]} ∅ (zip_with pieceOfUnits ["a"; "b"; "c"; "d"] units)
    (list_to_map (zip (take (length units) ["a"; "b"; "c"; "d"]) (seq 0 (length units)))) ∅ None ∅ emptyStats emptyStore [].

Definition matchSort := sortBy matchLess.

(** The answers of the pieces. *)
Definition answersOf (m : Sealing) : list (option (Z * option string)) := map (λ pp, (λ r, (respOffset r, respErr r)) <$> resp pp) (pieces m).

Lemma empty_sector_run : let m := ((updateInput 1 matchSort 8;; handleAddPiece 1 (sectorWith [])) (inputWith 0 [1; 4; 2])).1 in
  answersOf m = [Some (0, None); Some (508, None); Some (254, None)].
Proof. by vm_compute. Qed.

(** Three pieces of two units and a sector with five free units: the padding of the first match is counted for each of
    them, the account passes the size of the sector, the space left wraps around, and the third piece is assigned too; its
    deal fails. *)
Lemma account_wraps_around : let '(m, r) := (updateInput 1 matchSort 8;; handleAddPiece 1 (sectorWith [2; 1])) (inputWith 3 [2; 2; 2]) in
  r = Ret tt ∧ answersOf m = [Some (762, None); Some (1016, Some "piece b assigned to sector 5 with not enough space"); Some (508, None)] ∧
  used <$> openSectors m !! (1, 5) = Some 1524.
Proof. by vm_compute. Qed.

(** The comment in the comparison says that larger pieces are better; the smaller one comes first. *)
Lemma smaller_piece_first : mDeal <$> matchSort [mkMatch (1, 5) "large" 508 0; mkMatch (1, 5) "small" 127 0] = ["small"; "large"].
Proof. by vm_compute. Qed.

(** Writing the second piece fails: the first deal has been told that it is in the sector, but the event for the sector
    has no pieces; the third deal is never answered, and no sector will take it. *)
Definition failingInput : Sealing := (inputWith 0 [1; 1; 1]) {{ pieces := [(pieceOfUnits "a" 1) {{ pData := "bad" }}; pieceOfUnits "b" 1; pieceOfUnits "c" 1] }}.
Lemma failed_piece_loses_deals : let '(m, r) := (updateInput 1 matchSort 8;; handleAddPiece 1 (sectorWith [])) failingInput in
  r = Ret tt ∧ answersOf m = [Some (127, Some "writing piece: disk full"); None; Some (0, None)] ∧
  last (sent m) = Some (5, SectorAddPieceFailed "writing piece: disk full") ∧
  map assigned (pieces m) = [true; true; true] ∧ assignedPieces m !! (1, 5) = None.
Proof. by vm_compute. Qed.

(** When the event for an assigned piece cannot be sent, the piece is answered with the error but stays assigned: packing
    the sector answers it again and panics. *)
Lemma refused_piece_panics : let m := (@updateInput (testAPI (λ _ e, match e with SectorAddPiece => Some "stopped" | _ => None end)) _ _ _ 1 matchSort 8 (inputWith 0 [1])).1 in
  answersOf m = [Some (0, Some "stopped")] ∧ (handlePacking 1 (sectorWith []) m).2 = Crash.
Proof. by vm_compute. Qed.

(** *** The theorems on these inputs *)

Lemma matchSort_sorts l : matchSort l ≡ₚ l ∧ StronglySorted (notAfter matchLess) (matchSort l).
Proof.
  split; [apply sortBy_Permutation|]. apply (sortBy_sorted matchLess (λ _, True)); [| |by apply Forall_forall].
  - intros x y _ _. unfold matchLess. repeat (case_decide || case_bool_decide); intros; try done; try apply bool_decide_eq_false; lia.
  - intros x y z _ _ _. unfold matchLess. repeat (case_decide || case_bool_decide); intros; try done; try apply bool_decide_eq_false; lia.
Qed.

Lemma testEnv : roundEnv matchSort 3 8.
Proof. split; [lia|done|apply matchSort_sorts|done]. Qed.

Definition startInput : Sealing := inputWith 0 [1; 4; 2].
Lemma startInput_pending cid ptr : pendingPieces startInput !! cid = Some ptr → (cid, ptr) = ("a", 0%nat) ∨ (cid, ptr) = ("b", 1%nat) ∨ (cid, ptr) = ("c", 2%nat).
Proof.
  intros Hp%elem_of_map_to_list. assert (map_to_list (pendingPieces startInput) = [("c", 2); ("a", 0); ("b", 1)]%nat) as E by by vm_compute.
  rewrite E in Hp. set_solver.
Qed.

Lemma startInput_ok : inputOk 3 startInput.
Proof.
  split.
  - intros cid ptr [[= -> ->]|[[= -> ->]|[= -> ->]]]%startInput_pending; eexists; (split; [reflexivity|]); intros _; (split; [|done]); [exists 0|exists 2|exists 1]; (split; [lia|done]).
  - intros cid cid' ptr Hc%startInput_pending Hc'%startInput_pending. naive_solver.
Qed.

Lemma startInput_waits cid ptr pp : waits startInput cid ptr pp → (127 | pSize pp) ∧ pData pp = ProposalPieceCID (Proposal (pDeal pp)) ∧ pData pp ≠ "bad".
Proof.
  intros ([[= -> ->]|[[= -> ->]|[= -> ->]]]%startInput_pending&[= <-]&_); (split; [|done]); [by exists 1|by exists 4|by exists 2].
Qed.

Lemma startInput_sealer : sealerOk (1, 5) startInput.
Proof.
  split; [done|]. intros cid ptr pp ex (_&Hd&Hbad)%startInput_waits. unfold AddPiece. cbn [goodAPI testAPI]. by rewrite decide_False, Hd.
Qed.

Lemma new_sector_takes_its_deals_witness : ∃ m1 m2 news, updateInput 1 matchSort 8 startInput = (m1, Ret tt) ∧
  handleAddPiece 1 (sectorWith []) m1 = (m2, Ret tt) ∧ sent m2 = sent m1 ++ [(5, SectorPieceAdded news)] ∧ dataOf news ≤ 1016.
Proof.
  destruct (@new_sector_takes_its_deals goodAPI pieceSizes testBits inOrderOfKeys 1 matchSort 3 8 (sectorWith []) startInput (mkOpen 0 5 false) 0)
    as (m1&m2&o1&L&news&E1&E2&_&_&Hs&_&Hd&_); [exact testEnv|done|exact startInput_ok|exact startInput_sealer|done|done|done|lia| |done|done|].
  { intros cid ptr pp _. apply Z.divide_0_r. }
  exists m1, m2, news. split_and!; [exact E1|exact E2|exact Hs|exact Hd].
Defined.

Lemma packing_fills_sector_witness : ∃ m' fillers, handlePacking 1 (sectorWith [2; 1]) (inputWith 3 []) = (m', Ret tt) ∧
  sent m' = [(5, SectorPacked fillers)] ∧ 381 + dataOf (map (λ p, mkPiece p None) fillers) = 1016.
Proof.
  destruct (@packing_fills_sector goodAPI pieceSizes 1 matchSort 3 (sectorWith [2; 1]) (inputWith 3 []) 3) as (m'&E&_&_&fillers&Hs&Hd&_);
    [exact testEnv| |done|done|lia|].
  { split; [done|]. intros cid ptr pp ex (Hp&_). by apply elem_of_map_to_list in Hp; vm_compute in Hp; apply elem_of_nil in Hp. }
  exists m', fillers. split_and!; [exact E|exact Hs|exact Hd].
Defined.

(** Sectors 3 and 7 are available and 150 is not active; none reaches the target, and 7 lives longest. *)
Definition upgradeInput : Sealing := startInput {{ available := {[ (1, 3) := tt; (1, 7) := tt; (1, 150) := tt ]} }}.

Lemma maybeUpgradeSector_best_witness : ∃ c e p m', maybeUpgradeSector 8 testConfig upgradeInput = (m', Ret true) ∧ is_Some (available upgradeInput !! c) ∧ upgradable c e p ∧
  available m' = delete c (available upgradeInput).
Proof.
  destruct (@maybeUpgradeSector_best goodAPI pieceSizes inOrderOfKeys 8 testConfig upgradeInput 1024 900 1700) as [(c&e&p&m'&E&Hc&Hup&_&Ha&_)|[_ Hno]]; [done|by vm_compute|lia|done|done| |].
  - exists c, e, p, m'. by split_and!.
  - specialize (Hno (1, 7) 1007 43 ltac:(eexists; reflexivity) ltac:(by split)). lia.
Defined.
End InputExamples.
