(* ===== verification/SectorIndex.v ===== *)
(** * The index of sector files (storage/paths/index.go, journal/alerting/alerts.go)

    The index knows the storage paths of all workers and which of them has which files of a sector.  Every
    call runs under the lock of the index and is one step; the first part of [StorageAttach], the check of the
    configured types, runs before the lock is taken and touches the alerts alone.  The locks on sector files,
    the other part of the index, are in IndexLocks.v. *)

From Stdlib Require Import Sorted.
From coqutil Require Import Datatypes.RecordSetters.
From stdpp Require Import strings numbers base gmap fin_maps sets list.
From S2P Require Import Prelude GoStrings GoPaths GoSort FileTypes.
Import DoubleBraceUpdate.
Local Open Scope Z_scope.

(** ** Alerts *)

Abbreviation AlertType := (string * string)%type.
(** The message is a map of texts; the journal entries that repeat it are left out. *)
Record AlertEvent := mkAlertEvent { aeType : string; aeMessage : list (string * string); aeTime : Z }.
Record Alert := mkAlert { Active : bool; LastActive : option AlertEvent; LastResolved : option AlertEvent }.
Abbreviation Alerting := (gmap AlertType Alert).

Definition zeroAlert : Alert := mkAlert false None None.

Definition AddAlertType (system subsystem : string) (a : Alerting) : AlertType * Alerting :=
  let at_ := (system, subsystem) in
  match a !! at_ with Some _ => (at_, a) | None => (at_, <[at_ := zeroAlert]> a) end.

(** [update]: an unknown alert is reported and then added. *)
Definition alertUpdate (at_ : AlertType) (upd : Alert → Alert) (a : Alerting) : Alerting := <[at_ := upd (default zeroAlert (a !! at_))]> a.
Definition Raise (now : Z) (at_ : AlertType) (message : list (string * string)) : Alerting → Alerting :=
  alertUpdate at_ (λ al, mkAlert true (Some (mkAlertEvent "raised" message now)) (LastResolved al)).
Definition Resolve (now : Z) (at_ : AlertType) (message : list (string * string)) : Alerting → Alerting :=
  alertUpdate at_ (λ al, mkAlert false (LastActive al) (Some (mkAlertEvent "resolved" message now))).
Definition IsRaised (at_ : AlertType) (a : Alerting) : bool := Active (default zeroAlert (a !! at_)).

Definition alertLess (x y : AlertType * Alert) : bool :=
  if decide (x.1.1 ≠ y.1.1) then bool_decide (Compare x.1.1 y.1.1 = -1) else bool_decide (Compare x.1.2 y.1.2 = -1).
Definition GetAlerts `{MapRange} (a : Alerting) : list (AlertType * Alert) := sortBy alertLess (rangeOf a).

(** ** State *)

Abbreviation StorageID := string.
Abbreviation Group := string.
Definition SkippedHeartbeatThresh : Z := 5 * 10 * 1000000000.

Record FsStat := mkFsStat { Capacity : Z; Available : Z; FSAvailable : Z; FsReserved : Z; Max : Z; Used : Z }.
Record HealthReport := mkHealth { Stat : FsStat; Err : string }.
Record StorageInfo := mkStorageInfo {
  siID : StorageID;
  URLs : list string;
  Weight : Z;
  MaxStorage : Z;
  CanSeal : bool;
  CanStore : bool;
  Groups : list Group;
  AllowTo : list Group;
  AllowTypes : list string;
  DenyTypes : list string
}.
Record SectorStorageInfo := mkSectorStorageInfo {
  ssID : StorageID;
  ssURLs : list string;
  BaseURLs : list string;
  ssWeight : Z;
  ssCanSeal : bool;
  ssCanStore : bool;
  Primary : bool;
  ssAllowTypes : list string;
  ssDenyTypes : list string
}.

Record declMeta := mkMeta { storage : StorageID; primary : bool }.
Abbreviation Decl := (SectorID * Z)%type.
Record storageEntry := mkEntry { info : StorageInfo; fsi : FsStat; lastHeartbeat : Z; heartbeatErr : option string }.

Record Index := mkIndex {
  alerting : option Alerting;
  pathAlerts : gmap StorageID AlertType;
  sectors : gmap Decl (list declMeta);
  stores : gmap StorageID storageEntry
}.

Definition NewIndex (al : option Alerting) : Index := mkIndex al ∅ ∅ ∅.

(** [url.Parse] and [URL.String] of net/url; only the path of a URL is changed. *)
Class UrlLib := {
  parsedURL : Type;
  ParseURL : string → parsedURL + string;
  urlPath : parsedURL → string;
  setPath : parsedURL → string → parsedURL;
  urlString : parsedURL → string
}.

Section index.
Context `{UrlLib} `{MapRange}.

(** ** Attaching and detaching paths *)

Definition onAlerts (f : Alerting → Alerting) : io Index unit := modify (λ i, i {{ alerting := f <$> alerting i }}).

Definition slicesText (l : list string) : string := "[" +:+ Join l " " +:+ "]".

(** The loop over [AllowTypes] or [DenyTypes]: the valid names, and whether there were others. *)
Fixpoint checkTypes (now : Z) (id : StorageID) (what : string) (n : Z) (types : list string) : io Index (list string * bool) :=
  match types with
  | [] => mret ([], false)
  | typ :: rest =>
      match TypeFromString typ with
      | Ret _ => '(good, issues) ← checkTypes now id what (n + 1) rest; mret (typ :: good, issues)
      | o =>
          let err := match o with Fail e => e | _ => "" end in
          i ← gets (λ i, i);
          onAlerts (Raise now (default ("", "") (pathAlerts i !! id))
            [("message", "bad path type in " +:+ what); ("path", id); ("idx", Itoa n); ("path_type", typ); ("error", err)]);;
          '(good, _) ← checkTypes now id what (n + 1) rest;
          mret (good, true)
      end
  end.

Fixpoint parseAll (all urls : list string) : io Index unit :=
  match urls with
  | [] => mret tt
  | u :: rest => match ParseURL u with
                 | inl _ => parseAll all rest
                 | inr e => fail ("failed to parse url " +:+ slicesText all +:+ ": " +:+ e)
                 end
  end.

(** [uloop]: URLs that are not known yet are appended. *)
Definition addURLs (known urls : list string) : list string :=
  foldl (λ l u, if decide (u ∈ l) then l else l ++ [u]) known urls.

Definition ensureAlert (id : StorageID) : io Index unit := λ i,
  match alerting i, pathAlerts i !! id with
  | Some a, None => let '(at_, a') := AddAlertType "sector-index" ("pathconf-" +:+ id) a in
                    (i {{ alerting := Some a'; pathAlerts := <[id := at_]> (pathAlerts i) }}, Ret tt)
  | _, _ => (i, Ret tt)
  end.

Definition StorageAttach (now : Z) (si : StorageInfo) (st : FsStat) : io Index unit :=
  let id := siID si in
  ensureAlert id;;
  '(allow, issues1) ← checkTypes now id "AllowTypes" 0 (AllowTypes si);
  '(deny, issues2) ← checkTypes now id "DenyTypes" 0 (DenyTypes si);
  modify (λ i, let at_ := default ("", "") (pathAlerts i !! id) in
    match alerting i with
    | Some a => if negb (issues1 || issues2) && IsRaised at_ a
                then i {{ alerting := Some (Resolve now at_ [("message", "path config is now correct")] a) }} else i
    | None => i
    end);;
  i ← gets (λ i, i);
  match stores i !! id with
  | Some ent =>
      parseAll (URLs si) (URLs si);;
      let urls := addURLs (URLs (info ent)) (URLs si) in
      modify (λ i, i {{ stores := <[id := mkEntry (mkStorageInfo (siID (info ent)) urls (Weight si) (MaxStorage si) (CanSeal si) (CanStore si)
        (Groups si) (AllowTo si) allow deny) (fsi ent) (lastHeartbeat ent) (heartbeatErr ent)]> (stores i) }})
  | None =>
      modify (λ i, i {{ stores := <[id := mkEntry (si {{ AllowTypes := allow; DenyTypes := deny }}) st now None]> (stores i) }})
  end.

(** The entries of a declaration when a path is dropped; [None] when the declaration goes. *)
Definition dropFrom (id : StorageID) (dms : list declMeta) : option (list declMeta) :=
  if negb (existsb (λ dm, bool_decide (storage dm = id)) dms) then Some dms
  else if decide (length dms ≤ 1)%nat then None
  else Some (filter (λ dm, storage dm ≠ id) dms).

Definition resolveDetached (now : Z) (id : StorageID) : io Index unit := λ i,
  match pathAlerts i !! id, alerting i with
  | Some at_, Some a =>
      let a' := if IsRaised at_ a then Resolve now at_ [("message", "path detached")] a else a in
      (i {{ alerting := Some a'; pathAlerts := delete id (pathAlerts i) }}, Ret tt)
  | _, _ => (i, Ret tt)
  end.

Definition StorageDetach (now : Z) (id : StorageID) (url : string) : io Index unit :=
  i ← gets (λ i, i);
  match stores i !! id with
  | None => fail ("storage '" +:+ id +:+ "' isn't registered")
  | Some ent =>
      let drop := modify (λ i, i {{ sectors := omap (dropFrom id) (sectors i); stores := delete id (stores i) }}) in
      match URLs (info ent) with
      | [] => resolveDetached now id;; drop
      | [u] => if decide (u ≠ url)
               then fail ("not dropping path, requested and index urls don't match ('" +:+ url +:+ "' != '" +:+ u +:+ "')")
               else resolveDetached now id;; drop
      | urls => modify (λ i, i {{ stores := <[id := ent {{ info := (info ent) {{ URLs := filter (λ u, u ≠ url) urls }} }}]> (stores i) }})
      end
  end.

(** The metrics are left out. *)
Definition StorageReportHealth (now : Z) (id : StorageID) (report : HealthReport) : io Index unit :=
  i ← gets (λ i, i);
  match stores i !! id with
  | None => fail ("health report for unknown storage: " +:+ id)
  | Some ent =>
      let err := if decide (Err report = "") then None else Some (Err report) in
      modify (λ i, i {{ stores := <[id := mkEntry (info ent) (Stat report) now err]> (stores i) }})
  end.

(** ** Declaring files *)

(** The inner loop of [StorageDeclareSector] on the entries of one declaration. *)
Fixpoint declareIn (id : StorageID) (prim : bool) (dms : list declMeta) : list declMeta :=
  match dms with
  | [] => [mkMeta id prim]
  | dm :: rest => if decide (storage dm = id) then mkMeta id (primary dm || prim) :: rest else dm :: declareIn id prim rest
  end.

Definition declareType (id : StorageID) (s : SectorID) (prim : bool) (m : gmap Decl (list declMeta)) (fileType : Z) : gmap Decl (list declMeta) :=
  <[(s, fileType) := declareIn id prim (default [] (m !! (s, fileType)))]> m.

Definition StorageDeclareSector (id : StorageID) (s : SectorID) (ft : Z) (prim : bool) : io Index unit :=
  modify (λ i, i {{ sectors := foldl (declareType id s prim) (sectors i) (AllSet ft) }}).

Definition dropType (id : StorageID) (s : SectorID) (m : gmap Decl (list declMeta)) (fileType : Z) : gmap Decl (list declMeta) :=
  match default [] (m !! (s, fileType)) with
  | [] => m
  | dms => match filter (λ dm, storage dm ≠ id) dms with
           | [] => delete (s, fileType) m
           | rewritten => <[(s, fileType) := rewritten]> m
           end
  end.

Definition StorageDropSector (id : StorageID) (s : SectorID) (ft : Z) : io Index unit :=
  modify (λ i, i {{ sectors := foldl (dropType id s) (sectors i) (AllSet ft) }}).

Definition FindSector (s : SectorID) (typ : Z) (i : Index) : list StorageID := map storage (default [] (sectors i !! (s, typ))).

(** ** Listing *)

(** [byID[id.storage][decl.SectorID] |= decl.SectorFileType], which panics when the storage is not attached: its map is nil. *)
Definition listDecl (d : Decl) (byID : gmap StorageID (gmap SectorID Z)) (dm : declMeta) : outcome (gmap StorageID (gmap SectorID Z)) :=
  match byID !! storage dm with
  | None => Crash
  | Some m => Ret (<[storage dm := <[d.1 := Z.lor (default 0 (m !! d.1)) d.2]> m]> byID)
  end.
Fixpoint listDecls (d : Decl) (dms : list declMeta) (byID : gmap StorageID (gmap SectorID Z)) : outcome (gmap StorageID (gmap SectorID Z)) :=
  match dms with
  | [] => Ret byID
  | dm :: rest => byID ← listDecl d byID dm; listDecls d rest byID
  end.
Fixpoint listSectors (l : list (Decl * list declMeta)) (byID : gmap StorageID (gmap SectorID Z)) : outcome (gmap StorageID (gmap SectorID Z)) :=
  match l with
  | [] => Ret byID
  | (d, dms) :: rest => byID ← listDecls d dms byID; listSectors rest byID
  end.

Definition StorageList (i : Index) : outcome (gmap StorageID (list Decl)) :=
  byID ← listSectors (rangeOf (sectors i)) ((λ _ : storageEntry, (∅ : gmap SectorID Z)) <$> stores i);
  Ret ((λ m : gmap SectorID Z, rangeOf m) <$> (byID : gmap StorageID (gmap SectorID Z))).

(** ** Finding files *)

(** How many of the requested types a path has, and whether one is primary: the first loop of [StorageFindSector]. *)
Abbreviation found := (gmap StorageID (Z * bool)).
Definition countMeta (f : found) (dm : declMeta) : found :=
  let '(n, p) := default (0, false) (f !! storage dm) in <[storage dm := (wrapUint64 (n + 1), p || primary dm)]> f.
Definition countType (s : SectorID) (i : Index) (f : found) (fileType : Z) : found :=
  foldl countMeta f (default [] (sectors i !! (s, fileType))).
Definition holders (s : SectorID) (ft : Z) (i : Index) : found := foldl (countType s i) ∅ (AllSet ft).

(** The URLs of the files of a sector below the URLs of a path. *)
Fixpoint fileURLs (s : SectorID) (ft : Z) (urls : list string) : outcome (list string) :=
  match urls with
  | [] => Ret []
  | u :: rest =>
      match ParseURL u with
      | inr e => Fail ("failed to parse url: " +:+ e)
      | inl rl => l ← fileURLs s ft rest;
                  Ret (urlString (setPath rl (JoinPath [urlPath rl; typeString ft; SectorName s])) :: l)
      end
  end.

Definition entryFor (id : StorageID) (st : storageEntry) (urls : list string) (weight : Z) (prim : bool) : SectorStorageInfo :=
  mkSectorStorageInfo id urls (URLs (info st)) (wrapUint64 (Weight (info st) * weight)) (CanSeal (info st)) (CanStore (info st)) prim
    (AllowTypes (info st)) (DenyTypes (info st)).

(** The groups to which the holders let the files go; [None] is any. *)
Definition addAllowTo (allowTo : option (gset Group)) (st : storageEntry) : option (gset Group) :=
  match allowTo, AllowTo (info st) with
  | Some gs, (_ :: _) as l => Some (gs ∪ list_to_set l)
  | _, _ => None
  end.

Fixpoint holderLoop (s : SectorID) (ft : Z) (i : Index) (l : list (StorageID * (Z * bool))) (allowTo : option (gset Group)) :
    outcome (list SectorStorageInfo * option (gset Group)) :=
  match l with
  | [] => Ret ([], allowTo)
  | (id, (n, p)) :: rest =>
      match stores i !! id with
      | None => holderLoop s ft i rest allowTo
      | Some st =>
          urls ← fileURLs s ft (URLs (info st));
          '(out, allowTo') ← holderLoop s ft i rest (addAllowTo allowTo st);
          Ret (entryFor id st urls n p :: out, allowTo')
      end
  end.

(** A path that has room and was heard of lately without an error. *)
Definition healthy (now spaceReq : Z) (st : storageEntry) : bool :=
  bool_decide (spaceReq ≤ wrapUint64 (Available (fsi st))) && bool_decide (now - lastHeartbeat st ≤ SkippedHeartbeatThresh) &&
  bool_decide (heartbeatErr st = None).

Definition groupAllowed (allowTo : option (gset Group)) (st : storageEntry) : bool :=
  match allowTo with None => true | Some gs => existsb (λ g, bool_decide (g ∈ gs)) (Groups (info st)) end.

(** Where the files could be fetched to. *)
Definition canFetch (now spaceReq ft : Z) (has : found) (allowTo : option (gset Group)) (id : StorageID) (st : storageEntry) : bool :=
  CanSeal (info st) && healthy now spaceReq st && bool_decide (has !! id = None) &&
  AnyAllowed ft (AllowTypes (info st)) (DenyTypes (info st)) && groupAllowed allowTo st.

Fixpoint fetchLoop (now spaceReq : Z) (s : SectorID) (ft : Z) (has : found) (allowTo : option (gset Group)) (l : list (StorageID * storageEntry)) :
    outcome (list SectorStorageInfo) :=
  match l with
  | [] => Ret []
  | (id, st) :: rest =>
      if canFetch now spaceReq ft has allowTo id st then
        urls ← fileURLs s ft (URLs (info st));
        out ← fetchLoop now spaceReq s ft has allowTo rest;
        Ret (entryFor id st urls 0 false :: out)
      else fetchLoop now spaceReq s ft has allowTo rest
  end.

Definition wrapFail {A} (text : string) (o : outcome A) : outcome A := match o with Fail e => Fail (text +:+ e) | o => o end.

Definition StorageFindSector (now : Z) (s : SectorID) (ft ssize : Z) (allowFetch : bool) (i : Index) : outcome (list SectorStorageInfo) :=
  let has := holders s ft i in
  '(out, allowTo) ← holderLoop s ft i (rangeOf has) (Some ∅);
  if negb allowFetch then Ret out
  else
    spaceReq ← wrapFail "estimating required space: " (SealSpaceUse ft ssize);
    more ← fetchLoop now spaceReq s ft has allowTo (rangeOf (stores i));
    Ret (out ++ more).

Definition getStorageInfo (id : StorageID) (i : Index) : outcome StorageInfo :=
  match stores i !! id with Some st => Ret (info st) | None => Fail "sector store not found" end.

(** ** Allocating *)

Definition PathSealing : string := "sealing".
Definition PathStorage : string := "storage".

Definition priority (st : storageEntry) : Z := Available (fsi st) * wrapInt64 (Weight (info st)).
Definition higher (a b : storageEntry) : bool := bool_decide (priority b < priority a).

Definition StorageBestAlloc (now allocate ssize : Z) (pathType : string) (i : Index) : outcome (list StorageInfo) :=
  spaceReq ← (if decide (pathType = PathSealing) then wrapFail "estimating required space: " (SealSpaceUse allocate ssize)
              else if decide (pathType = PathStorage) then wrapFail "estimating required space: " (StoreSpaceUse allocate ssize)
              else Crash);
  let usable st := (if decide (pathType = PathSealing) then CanSeal (info st) else CanStore (info st)) && healthy now spaceReq st in
  let candidates := filter usable (map snd (rangeOf (stores i))) in
  if decide (candidates = []) then Fail "no good path found"
  else Ret (map info (sortBy higher candidates)).
End index.

(** ** What the index knows *)

(** The abstract index: the URLs of each path, and for each file of a sector the paths that have it, with whether the copy is
    primary. *)
Record absIndex := mkAbs { paths : gmap StorageID (list string); held : Decl → StorageID → option bool }.

Inductive indexOp :=
  | OpAttach (now : Z) (si : StorageInfo) (st : FsStat) | OpDetach (now : Z) (id : StorageID) (url : string)
  | OpHealth (now : Z) (id : StorageID) (report : HealthReport)
  | OpDeclare (id : StorageID) (s : SectorID) (ft : Z) (prim : bool) | OpDrop (id : StorageID) (s : SectorID) (ft : Z).

Section spec.
Context `{UrlLib} `{MapRange}.

Definition runIndex (op : indexOp) : io Index unit :=
  match op with
  | OpAttach now si st => StorageAttach now si st
  | OpDetach now id url => StorageDetach now id url
  | OpHealth now id report => StorageReportHealth now id report
  | OpDeclare id s ft prim => StorageDeclareSector id s ft prim
  | OpDrop id s ft => StorageDropSector id s ft
  end.

(** The file of type [t] of sector [s] is one of those that [ft] asks for. *)
Definition asksFor (s : SectorID) (ft : Z) (d : Decl) : bool := bool_decide (d.1 = s) && bool_decide (d.2 ∈ AllSet ft).

Definition parses (u : string) : bool := match ParseURL u with inl _ => true | inr _ => false end.

Definition absStep (op : indexOp) (a : absIndex) : absIndex :=
  match op with
  | OpAttach _ si _ =>
      match paths a !! siID si with
      | None => mkAbs (<[siID si := URLs si]> (paths a)) (held a)
      | Some known => if forallb parses (URLs si) then mkAbs (<[siID si := addURLs known (URLs si)]> (paths a)) (held a) else a
      end
  | OpDetach _ id url =>
      let gone := mkAbs (delete id (paths a)) (λ d id', if decide (id' = id) then None else held a d id') in
      match paths a !! id with
      | None => a
      | Some [] => gone
      | Some [u] => if decide (u = url) then gone else a
      | Some urls => mkAbs (<[id := filter (λ u, u ≠ url) urls]> (paths a)) (held a)
      end
  | OpHealth _ _ _ => a
  | OpDeclare id s ft prim =>
      mkAbs (paths a) (λ d id', if asksFor s ft d && bool_decide (id' = id) then Some (default false (held a d id') || prim) else held a d id')
  | OpDrop id s ft => mkAbs (paths a) (λ d id', if asksFor s ft d && bool_decide (id' = id) then None else held a d id')
  end.

(** Which calls succeed. *)
Definition absOk (op : indexOp) (a : absIndex) : bool :=
  match op with
  | OpAttach _ si _ => bool_decide (paths a !! siID si = None) || forallb parses (URLs si)
  | OpDetach _ id url => match paths a !! id with None => false | Some [u] => bool_decide (u = url) | Some _ => true end
  | OpHealth _ id _ => bool_decide (is_Some (paths a !! id))
  | OpDeclare _ _ _ _ | OpDrop _ _ _ => true
  end.

(** *** Entries of one declaration *)

Fixpoint metaOf (dms : list declMeta) (id : StorageID) : option bool :=
  match dms with
  | [] => None
  | dm :: rest => if decide (storage dm = id) then Some (primary dm) else metaOf rest id
  end.

Lemma metaOf_declare id prim dms id' : metaOf (declareIn id prim dms) id' = if decide (id' = id) then Some (default false (metaOf dms id') || prim) else metaOf dms id'.
Proof. induction dms as [|dm dms IH]; simpl; repeat case_decide; subst; simpl; try done; repeat case_decide; subst; try done. Qed.

Lemma metaOf_filter id dms id' : metaOf (filter (λ dm, storage dm ≠ id) dms) id' = if decide (id' = id) then None else metaOf dms id'.
Proof.
  induction dms as [|dm dms IH]; simpl; [by case_decide|]. rewrite filter_cons. repeat case_decide; simpl; repeat case_decide; subst; try done.
Qed.

Lemma declareIn_storages id prim dms : map storage (declareIn id prim dms) = if decide (id ∈ map storage dms) then map storage dms else map storage dms ++ [id].
Proof.
  induction dms as [|dm dms IH]; [done|]. cbn [declareIn map]. destruct (decide (storage dm = id)) as [E|Hne]; cbn [map storage].
  - rewrite E. by destruct (decide (id ∈ id :: map storage dms)) as [_|[]]; [|left].
  - rewrite IH. destruct (decide (id ∈ map storage dms)), (decide (id ∈ storage dm :: map storage dms)); set_solver.
Qed.

Definition wfSectors (m : gmap Decl (list declMeta)) : Prop := ∀ d dms, m !! d = Some dms → dms ≠ [] ∧ NoDup (map storage dms).
Definition holdsIn (m : gmap Decl (list declMeta)) (d : Decl) (id : StorageID) : option bool := metaOf (default [] (m !! d)) id.

Lemma wf_default m d : wfSectors m → NoDup (map storage (default [] (m !! d))).
Proof. intros Hwf. destruct (m !! d) eqn:E; [apply (Hwf d), E|apply NoDup_nil_2]. Qed.

Lemma NoDup_filter_storages id dms : NoDup (map storage dms) → NoDup (map storage (filter (λ dm, storage dm ≠ id) dms)).
Proof.
  induction dms as [|dm dms IH]; [done|]. cbn [map]. rewrite NoDup_cons, filter_cons. intros [Hn Hnd]. destruct (decide (storage dm ≠ id)); [|by apply IH].
  cbn [map]. apply NoDup_cons. split; [|by apply IH]. contradict Hn. apply list_elem_of_fmap in Hn as (x&->&Hx%list_elem_of_filter).
  apply list_elem_of_fmap_2. apply Hx.
Qed.

Lemma declareType_spec id s prim m t : wfSectors m → wfSectors (declareType id s prim m t) ∧
  ∀ d id', holdsIn (declareType id s prim m t) d id' = if bool_decide (d = (s, t)) && bool_decide (id' = id) then Some (default false (holdsIn m d id') || prim) else holdsIn m d id'.
Proof.
  intros Hwf. unfold declareType. split.
  - intros d dms. destruct (decide (d = (s, t))) as [->|Hne]; [rewrite lookup_insert_eq|rewrite lookup_insert_ne by done; apply Hwf].
    intros [= <-]. pose proof (wf_default m (s, t) Hwf) as Hnd. split; [by destruct (default [] _) as [|? ?]; simpl; [|case_decide]|].
    rewrite declareIn_storages. case_decide; [done|]. apply NoDup_app. split_and!; [done| |apply NoDup_singleton]. set_solver.
  - intros d id'. unfold holdsIn. destruct (decide (d = (s, t))) as [->|Hne].
    + rewrite lookup_insert_eq. simpl. rewrite metaOf_declare, bool_decide_true by done. simpl. by repeat (case_decide || case_bool_decide).
    + by rewrite lookup_insert_ne, bool_decide_false by done.
Qed.

Lemma dropType_spec id s m t : wfSectors m → wfSectors (dropType id s m t) ∧
  ∀ d id', holdsIn (dropType id s m t) d id' = if bool_decide (d = (s, t)) && bool_decide (id' = id) then None else holdsIn m d id'.
Proof.
  intros Hwf. pose proof (NoDup_filter_storages id _ (wf_default m (s, t) Hwf)) as Hnd.
  pose proof (metaOf_filter id (default [] (m !! (s, t)))) as Hmeta. unfold dropType, holdsIn.
  destruct (default [] (m !! (s, t))) as [|dm0 dms0] eqn:Ed.
  { split; [done|]. intros d id'. destruct (decide (d = (s, t))) as [->|Hne]; [|by rewrite bool_decide_false by done].
    rewrite Ed. by destruct (_ && _). }
  destruct (filter (λ dm, storage dm ≠ id) (dm0 :: dms0)) as [|dm dms] eqn:Ef.
  - split; [intros d dms; rewrite lookup_delete_Some; intros [_ ?]; by apply (Hwf d)|].
    intros d id'. destruct (decide (d = (s, t))) as [->|Hne].
    + rewrite lookup_delete_eq, Ed, bool_decide_true by done. change (default [] None) with (@nil declMeta). rewrite Hmeta. by repeat (case_decide || case_bool_decide).
    + by rewrite lookup_delete_ne, bool_decide_false by done.
  - split; [intros d dms'; destruct (decide (d = (s, t))) as [->|Hne];
      [rewrite lookup_insert_eq; by intros [= <-]|rewrite lookup_insert_ne by done; apply Hwf]|].
    intros d id'. destruct (decide (d = (s, t))) as [->|Hne].
    + rewrite lookup_insert_eq, Ed, bool_decide_true by done. change (default [] (Some ?x)) with x. rewrite Hmeta. by repeat (case_decide || case_bool_decide).
    + by rewrite lookup_insert_ne, bool_decide_false by done.
Qed.

(** A loop over different types changes what the path has of each of them. *)
Lemma fold_types (f : gmap Decl (list declMeta) → Z → gmap Decl (list declMeta)) (g : option bool → option bool) id s types m :
  (∀ m t, wfSectors m → wfSectors (f m t) ∧
    ∀ d id', holdsIn (f m t) d id' = if bool_decide (d = (s, t)) && bool_decide (id' = id) then g (holdsIn m d id') else holdsIn m d id') →
  NoDup types → wfSectors m → wfSectors (foldl f m types) ∧
  ∀ d id', holdsIn (foldl f m types) d id' =
    if bool_decide (d.1 = s) && bool_decide (d.2 ∈ types) && bool_decide (id' = id) then g (holdsIn m d id') else holdsIn m d id'.
Proof.
  intros Hf. revert m. induction types as [|t types IH]; intros m Hnd Hwf; cbn [foldl].
  { split; [done|]. intros d id'. rewrite (bool_decide_false (d.2 ∈ [])) by set_solver. by rewrite andb_false_r. }
  apply NoDup_cons in Hnd as [Hn Hnd]. destruct (Hf m t Hwf) as [Hwf1 H1]. destruct (IH _ Hnd Hwf1) as [Hwf2 H2].
  split; [done|]. intros [s' t'] id'. rewrite H2, H1. cbn [fst snd].
  destruct (decide (s' = s)) as [->|]; [|by rewrite (bool_decide_false (s' = s)), (bool_decide_false ((s', t') = _)) by congruence].
  destruct (decide (t' = t)) as [->|].
  - rewrite (bool_decide_false (t ∈ types)), (bool_decide_true (t ∈ t :: types)), (bool_decide_true (s = s)), (bool_decide_true ((s, t) = (s, t))) by (done || by left). by rewrite andb_false_r.
  - rewrite (bool_decide_false ((s, t') = _)) by congruence. cbn [andb].
    by rewrite (bool_decide_ext (t' ∈ t :: types) (t' ∈ types)) by set_solver.
Qed.

Lemma NoDup_AllSet ft : NoDup (AllSet ft).
Proof. apply NoDup_filter. by apply (bool_decide_unpack (NoDup PathTypes)). Qed.

Lemma dropFrom_spec id dms : dms ≠ [] → NoDup (map storage dms) →
  (∀ id', metaOf (default [] (dropFrom id dms)) id' = if decide (id' = id) then None else metaOf dms id') ∧
  ∀ dms', dropFrom id dms = Some dms' → dms' ≠ [] ∧ NoDup (map storage dms').
Proof.
  intros Hne Hnd. unfold dropFrom. destruct (existsb _ dms) eqn:Ex; simpl.
  - apply existsb_exists in Ex as (dm&Hin%list_elem_of_In&Hid%bool_decide_eq_true). case_decide as Hl.
    + destruct dms as [|dm0 [|]]; [done| |simpl in Hl; lia]. apply list_elem_of_singleton in Hin as <-. split; [|done].
      intros id'. simpl. by repeat case_decide; simplify_eq.
    + split; [intros id'; apply metaOf_filter|]. intros dms' [= <-]. split; [|by apply NoDup_filter_storages].
      destruct dms as [|dm0 [|dm1 dms]]; [simpl in Hl; lia..|]. intros E.
      assert (∀ x, x ∈ dm0 :: dm1 :: dms → storage x = id) as Hall.
      { intros x Hx. apply dec_stable. intros Hn. assert (x ∈ filter (λ dm, storage dm ≠ id) (dm0 :: dm1 :: dms)) as Hf by (by apply list_elem_of_filter).
        rewrite E in Hf. set_solver. }
      simpl in Hnd. rewrite (Hall dm0), (Hall dm1) in Hnd by set_solver. apply NoDup_cons in Hnd. set_solver.
  - split; [|by intros ? [= <-]]. intros id'. simpl. case_decide as E; [subst|done].
    clear Hne Hnd. induction dms as [|dm dms IH]; [done|]. simpl in *. apply orb_false_iff in Ex as [E1%bool_decide_eq_false Ex].
    rewrite decide_False by done. auto.
Qed.

(** *** The index against what it knows *)

Definition represents (i : Index) (a : absIndex) : Prop :=
  wfSectors (sectors i) ∧ paths a = (λ ent, URLs (info ent)) <$> stores i ∧ ∀ d id, held a d id = holdsIn (sectors i) d id.

(** The call ends in a state that represents [a'], without an error exactly when [ok]. *)
Definition endsIn (r : Index * outcome unit) (a' : absIndex) (ok : bool) : Prop :=
  represents r.1 a' ∧ if ok then r.2 = Ret tt else ∃ e, r.2 = Fail e.

(** Alerts are no part of what the index knows. *)
Definition aside (i i' : Index) : Prop := stores i' = stores i ∧ sectors i' = sectors i.

Lemma represents_aside i i' a : aside i i' → represents i a → represents i' a.
Proof. intros [E1 E2]. unfold represents. by rewrite E1, E2. Qed.

Lemma represents_entry i i' a k ent urls : represents i a → sectors i' = sectors i → stores i' = <[k := ent]> (stores i) → URLs (info ent) = urls →
  represents i' (mkAbs (<[k := urls]> (paths a)) (held a)).
Proof. intros (Hwf&Hp&Hh) E1 E2 <-. unfold represents. rewrite E1, E2. split_and!; [done| |done]. by rewrite fmap_insert, Hp. Qed.

Lemma represents_gone i i' a id : represents i a → sectors i' = omap (dropFrom id) (sectors i) → stores i' = delete id (stores i) →
  represents i' (mkAbs (delete id (paths a)) (λ d id', if decide (id' = id) then None else held a d id')).
Proof.
  intros (Hwf&Hp&Hh) Hse Hst. unfold represents. rewrite Hse, Hst. split_and!.
  - intros d dms. rewrite lookup_omap_Some. intros (dms0&Hd&Hdms0). destruct (Hwf d dms0 Hdms0). by apply (dropFrom_spec id dms0).
  - cbn [paths]. by rewrite fmap_delete, Hp.
  - intros d id'. cbn [held]. rewrite Hh. unfold holdsIn. rewrite lookup_omap. destruct (sectors i !! d) as [dms|] eqn:Ed; simpl.
    + destruct (Hwf d dms Ed). by rewrite (proj1 (dropFrom_spec id dms ltac:(done) ltac:(done))).
    + by case_decide.
Qed.

Lemma checkTypes_aside now id what n types i : ∃ i' r, checkTypes now id what n types i = (i', Ret r) ∧ aside i i'.
Proof.
  revert n i. induction types as [|typ types IH]; intros n i; [by eexists _, _|]. cbn [checkTypes].
  assert (∀ al, ∃ i' r, (onAlerts (Raise now (default ("", "") (pathAlerts i !! id)) al);;
    '(good, _) ← checkTypes now id what (n + 1) types; mret (good, true)) i = (i', Ret r) ∧ aside i i') as Hraise.
  { intros al. destruct (IH (n + 1) (i {{ alerting := Raise now (default ("", "") (pathAlerts i !! id)) al <$> alerting i }})) as (i'&[good issues]&E&Ha).
    exists i', (good, true). split; [|done]. io_run; [reflexivity|]. by io_run; [exact E|]. }
  destruct (TypeFromString typ); [|apply Hraise..].
  destruct (IH (n + 1) i) as (i'&[good issues]&E&Ha). exists i', (typ :: good, issues). split; [|done]. unfold mbind, io_bind. by rewrite E.
Qed.

Lemma parseAll_ends all urls i : if forallb parses urls then parseAll all urls i = (i, Ret tt) else ∃ e, parseAll all urls i = (i, Fail e).
Proof. induction urls as [|u urls IH]; [done|]. simpl. unfold parses at 1. destruct (ParseURL u); simpl; [apply IH|by eexists]. Qed.

Lemma attach_ends now si st i a : represents i a → endsIn (StorageAttach now si st i) (absStep (OpAttach now si st) a) (absOk (OpAttach now si st) a).
Proof.
  intros Hr. assert (∃ i1, ensureAlert (siID si) i = (i1, Ret tt) ∧ aside i i1) as (i1&E1&H1).
  { unfold ensureAlert. destruct (alerting i) as [al|], (pathAlerts i !! siID si); try destruct (AddAlertType _ _ al); eexists; by split. }
  destruct (checkTypes_aside now (siID si) "AllowTypes" 0 (AllowTypes si) i1) as (i2&[allow issues1]&E2&H2).
  destruct (checkTypes_aside now (siID si) "DenyTypes" 0 (DenyTypes si) i2) as (i3&[deny issues2]&E3&H3).
  unfold StorageAttach, mbind, io_bind. rewrite E1, E2, E3. cbv beta iota. unfold modify at 1. cbv beta iota.
  match goal with |- context [gets _ ?x] => set (i4 := x) end.
  assert (aside i i4) as H4.
  { assert (aside i3 i4) as [E4 E4'] by (unfold i4; destruct (alerting i3); [destruct (_ && _)|]; by split).
    destruct H1, H2, H3. split; congruence. }
  unfold gets. cbv beta iota. clearbody i4. assert (represents i4 a) as Hr4 by (by apply (represents_aside i)).
  pose proof Hr4 as (_&Hp&_). assert (paths a !! siID si = (λ ent, URLs (info ent)) <$> stores i4 !! siID si) as Hl by (by rewrite Hp, lookup_fmap).
  unfold endsIn, absStep, absOk. rewrite Hl. destruct (stores i4 !! siID si) as [ent|]; simpl.
  - pose proof (parseAll_ends (URLs si) (URLs si) i4) as Hpa. destruct (forallb parses (URLs si)).
    + rewrite Hpa. split; [by eapply (represents_entry i4)|done].
    + destruct Hpa as [e ->]. split; [done|]. simpl. by exists e.
  - split; [by eapply (represents_entry i4)|done].
Qed.

Lemma detach_ends now id url i a : represents i a → endsIn (StorageDetach now id url i) (absStep (OpDetach now id url) a) (absOk (OpDetach now id url) a).
Proof.
  intros Hr. pose proof Hr as (Hwf&Hp&Hh). assert (paths a !! id = (λ ent, URLs (info ent)) <$> stores i !! id) as Hl by (by rewrite Hp, lookup_fmap).
  assert (∃ i1, resolveDetached now id i = (i1, Ret tt) ∧ aside i i1) as (i1&E1&Hst&Hse).
  { unfold resolveDetached. destruct (pathAlerts i !! id), (alerting i); eexists; by split. }
  unfold StorageDetach, endsIn, absStep, absOk, mbind, io_bind, gets. cbv beta iota. rewrite Hl.
  destruct (stores i !! id) as [ent|]; simpl; [|split; [done|by eexists]].
  destruct (URLs (info ent)) as [|u [|u' us]]; simpl.
  - rewrite E1. split; [|done]. by apply (represents_gone i); [|rewrite <-Hse|rewrite <-Hst].
  - destruct (decide (u = url)) as [->|Hne].
    + rewrite decide_False by naive_solver. rewrite E1, bool_decide_true by done. split; [|done]. by apply (represents_gone i); [|rewrite <-Hse|rewrite <-Hst].
    + rewrite decide_True by done. rewrite bool_decide_false by done. split; [done|by eexists].
  - split; [by eapply (represents_entry i)|done].
Qed.

Lemma health_ends now id report i a : represents i a → endsIn (StorageReportHealth now id report i) a (absOk (OpHealth now id report) a).
Proof.
  intros Hr. pose proof Hr as (Hwf&Hp&Hh). assert (paths a !! id = (λ ent, URLs (info ent)) <$> stores i !! id) as Hl by (by rewrite Hp, lookup_fmap).
  unfold StorageReportHealth, endsIn, absOk, mbind, io_bind, gets. cbv beta iota. rewrite Hl.
  destruct (stores i !! id) as [ent|] eqn:E; simpl; [|split; [done|by eexists]].
  split; [|done]. assert (a = mkAbs (<[id := URLs (info ent)]> (paths a)) (held a)) as ->.
  { destruct a. f_equal. symmetry. by apply insert_id. }
  by eapply (represents_entry i).
Qed.

Lemma files_end (f : gmap Decl (list declMeta) → Z → gmap Decl (list declMeta)) g id s ft i a :
  (∀ m t, wfSectors m → wfSectors (f m t) ∧
    ∀ d id', holdsIn (f m t) d id' = if bool_decide (d = (s, t)) && bool_decide (id' = id) then g (holdsIn m d id') else holdsIn m d id') →
  represents i a → represents (i {{ sectors := foldl f (sectors i) (AllSet ft) }})
    (mkAbs (paths a) (λ d id', if asksFor s ft d && bool_decide (id' = id) then g (held a d id') else held a d id')).
Proof.
  intros Hf (Hwf&Hp&Hh). destruct (fold_types f g id s (AllSet ft) (sectors i) Hf (NoDup_AllSet ft) Hwf) as [Hwf' Hh'].
  split_and!; [done..|]. intros d id'. simpl. by rewrite Hh', Hh.
Qed.

Definition runIndexAll (ops : list indexOp) (i : Index) : Index := foldl (λ i op, (runIndex op i).1) i ops.
Definition absAll (ops : list indexOp) (a : absIndex) : absIndex := foldl (λ a op, absStep op a) a ops.

Lemma runIndex_represents op i a : represents i a → endsIn (runIndex op i) (absStep op a) (absOk op a).
Proof.
  intros Hr. destruct op; simpl; [by apply attach_ends|by apply detach_ends|by apply health_ends|..]; (split; [|done]).
  - by apply (files_end (declareType id s prim) (λ o, Some (default false o || prim)) id); [intros; apply declareType_spec|].
  - by apply (files_end (dropType id s) (λ _, None) id); [intros; apply dropType_spec|].
Qed.

Lemma runIndexAll_represents ops i a : represents i a → represents (runIndexAll ops i) (absAll ops a).
Proof. revert i a. induction ops as [|op ops IH]; intros i a Hr; [done|]. by apply IH, runIndex_represents. Qed.

(** C39. The index does what an abstract index would that keeps, for each file of a sector, the set of paths that have it and, for
    each path, its URLs: whatever calls it served before, each call changes the one as the other, and ends in an error for the
    same arguments. *)
Theorem index_refines_holdings al ops op :
  let i := runIndexAll ops (NewIndex al) in
  let a := absAll ops (mkAbs ∅ (λ _ _, None)) in
  endsIn (runIndex op i) (absStep op a) (absOk op a) ∧
  ∀ s t id, id ∈ FindSector s t i ↔ is_Some (held a (s, t) id).
Proof.
  intros i a. assert (represents i a) as Hr.
  { apply runIndexAll_represents. split_and!; [intros d dms; simpl; by rewrite lookup_empty|simpl; by rewrite fmap_empty|done]. }
  split; [by apply runIndex_represents|]. intros s t id. destruct Hr as (_&_&->). unfold FindSector, holdsIn.
  induction (default [] (sectors i !! (s, t))) as [|dm dms IH]; simpl.
  { split; [set_solver|by intros []]. }
  rewrite elem_of_cons. case_decide; naive_solver.
Qed.

(** *** Who has the files *)





















End spec.

Module IndexExamples.

(** A URL with an empty scheme does not parse; the rest is its path. *)
#[local] Instance urls : UrlLib := {|
  parsedURL := string;
  ParseURL u := if String.prefix ":" u then inr "missing protocol scheme" else inl u;
  urlPath u := u; setPath _ p := p; urlString u := u
|}.
#[local] Existing Instance inOrderOfKeys.

Definition path (id : StorageID) (allow : list string) : StorageInfo := mkStorageInfo id ["/" +:+ id] 10 0 true true [] [] allow [].
Definition stat : FsStat := mkFsStat 1000000 900000 900000 0 0 0.
Definition sector : SectorID := mkSectorID 1000 7.

Definition twoPaths : Index := runIndexAll
  [OpAttach 100 (path "a" []) stat; OpAttach 100 (path "b" []) stat; OpDeclare "a" sector (Z.lor FTSealed FTCache) true] (NewIndex None).

Example finds_and_fetches :
  StorageFindSector 200 sector (Z.lor FTSealed FTCache) 2048 true twoPaths =
  Ret (map (λ '(id, w, p), mkSectorStorageInfo id ["/" +:+ id +:+ "/" +:+ typeString (Z.lor FTSealed FTCache) +:+ "/s-t01000-7"] ["/" +:+ id] w true true p [] [])
         [("a", 20, true); ("b", 0, false)]).
Proof. vm_compute. reflexivity. Qed.



(** A file can be declared in a path that is not attached; [StorageList] then writes to a nil map. *)
Example list_panics : StorageList (runIndexAll [OpDeclare "gone" sector FTSealed true] twoPaths) = Crash.
Proof. vm_compute. reflexivity. Qed.

(** A path whose only allowed type is misspelt is left with no allowed types at all, which allows every type. *)
Example misspelt_type_allows_all :
  let i := runIndexAll [OpAttach 100 (path "c" ["seeled"]) stat] (NewIndex None) in
  (AllowTypes ∘ info <$> stores i !! "c") = Some [] ∧
  (λ st, AnyAllowed FTUnsealed (AllowTypes (info st)) (DenyTypes (info st))) <$> stores i !! "c" = Some true ∧
  AnyAllowed FTUnsealed ["seeled"] [] = false.
Proof. vm_compute. done. Qed.

End IndexExamples.
